(* ===== verification/_CoqProject ===== *)
-Q . S2P
Prelude.v
Types.v
Timestamp.v
Quoting.v
SqlAnalyze.v
NamedParams.v
SqlBuilder.v
Pagination.v
ResultCache.v
QueryCache.v
CacheKey.v
PgTypes.v
Context.v
ConnectionPool.v
SqlAuditor.v
WriteBuffer.v
Resilience.v
DataSource.v
Coherence.v
Executor.v
StopSignal.v
Operation.v
Session.v
Cursor.v
Manager.v
Script.v
Routines.v
Binding.v
Interceptor.v
Binary64.v
Gate.v
OracleTypes.v
Observer.v
AsyncEngine.v
AsyncFlow.v
Yaml.v
Config.v
ConfigCheck.v
Topology.v
Client.v
ClientAsync.v
Exporter.v
Heartbeat.v
Report.v
