(* ===== verification/Prelude.v ===== *)
(** * SQLConduit: a verification library

    SQLConduit is a C++ database-access middleware: applications call a client
    that routes statements to data sources (single databases or groups of a
    primary and replicas), with connection pooling, caching, auditing, retry,
    circuit breaking, failover and paging in between.  This library models the
    parts of it that carry its own logic as executable functions and states
    what makes each part correct.

    ** How the program fits together, and where each part is modelled

    A request carries a context frame (Context.v) and a statement.  Statements
    come from the user, from the named-parameter binder (NamedParams.v), from
    the statement builder (SqlBuilder.v) or from the paging layer
    (Pagination.v); the SQL text is classified by the analysers (SqlAnalyze.v)
    for the auditor (SqlAuditor.v).  A data source then serves it from the
    result cache (QueryCache.v, keyed by CacheKey.v) or runs it on a pooled
    connection (ConnectionPool.v) under breaker, retry, routing and failover
    rules (Resilience.v, DataSource.v); writes that find no primary go to the
    write buffer (WriteBuffer.v).  Several statements share a connection through
    a session, which owns the transaction (Session.v), or through a cursor
    (Cursor.v).  On the connection the parameters are put into the text
    (Binding.v).  Every call runs under an operation with a deadline and a
    cancellation token (Operation.v over StopSignal.v).  A statement enters
    through the gate (Gate.v: stop, audit, rate limit), interceptors are called
    around it (Interceptor.v) and its end is an event for the observer, the
    statement log and the slow-SQL statistics (Observer.v).  Asynchronous
    statements run through the engine (AsyncEngine.v, AsyncFlow.v) on the thread
    pool (Executor.v).  The registry (Manager.v) builds data sources and
    groups from the configuration, which is read by the YAML parser and the loader
    and checked offline (Yaml.v, Config.v, ConfigCheck.v, Topology.v).  The client
    the application holds (Client.v, ClientAsync.v) owns a registry and an executor,
    has the life cycle, and submits the asynchronous calls.  Pool and slow-SQL
    statistics are exported as text (Exporter.v) and reported to a file (Report.v), and
    a background thread checks the pools (Heartbeat.v).  Script.v and
    Routines.v are the helpers that make statements out of scripts, stored routines
    and indexes.

    - Prelude.v: byte strings, <cctype>, machine integers, the scanning-loop
      combinator all lexers share, quoted regions, tactics and hint databases.
    - Types.v: include/sqlconduit/common/types.h and src/common/types.cpp:
      error codes, [Status] and its SQLSTATE classification, the [Value]
      variant, rows and result sets.
    - Timestamp.v: timestamp formatting and parsing of types.cpp.
    - Quoting.v: common/sql_dialect.h and the string literals of util.h.
    - SqlAnalyze.v: src/common/sql_analyze.cpp.
    - NamedParams.v: src/common/named_params.cpp.
    - SqlBuilder.v: include/sqlconduit/sql_builder.h, src/common/sql_builder.cpp.
    - Pagination.v: src/common/pagination.cpp and src/client_pagination.cpp.
    - ResultCache.v: the interface between the cache and the data sources, as a
      type class of operations and laws.
    - QueryCache.v: src/core/query_cache.cpp, an instance of that interface.
    - CacheKey.v: [cacheKey] and [appendValueKey] of src/core/database_manager.cpp.
    - PgTypes.v: src/common/pg_types.cpp.
    - Context.v: src/common/context.cpp and [pinRequestWrite].
    - ConnectionPool.v: src/core/connection_pool.cpp.
    - SqlAuditor.v: src/core/sql_auditor.cpp.
    - WriteBuffer.v: src/core/write_buffer.cpp.
    - Resilience.v: breaker and attempt loops of [DataSource] in
      src/core/database_manager.cpp.
    - DataSource.v: query and write paths of leaves and groups, routing, failover
      dispatch and interceptor frames of the same file, over any [ResultCache].
    - Coherence.v: cache, keys and data sources composed.
    - Executor.v: src/async/executor.cpp.
    - StopSignal.v: stop signals and cancellation sources of
      src/common/operation_options.cpp.
    - Operation.v: the rest of operation_options.cpp and operation_state.h.
    - Session.v: sessions and transactions of src/core/database_manager.cpp over a
      connection interface, with the transaction calls of
      src/driver/mysql_driver.cpp as its instance.
    - Cursor.v: cursors of database_manager.cpp and database_manager.h.
    - Manager.v: [DatabaseManager]'s registry in database_manager.cpp.
    - Script.v, Routines.v: include/sqlconduit/util.h.
    - Binding.v: src/core/idatabase_connection.cpp and the literals of types.cpp.
    - Interceptor.v: src/core/interceptor.cpp with the guards of
      database_manager.cpp; hooks are programs that may issue statements.
    - Binary64.v: the rounding of the non-negative doubles, for Gate.v.
    - Gate.v: core/rate_limiter.h and [preGate], [gateSession] of
      database_manager.cpp, with the arithmetic of doubles.
    - OracleTypes.v: src/common/oracle_types.cpp.
    - Observer.v: src/common/observer.cpp.
    - AsyncEngine.v, AsyncFlow.v: src/async/async_engine.cpp; one attempt and the
      race of a native query, then retries, groups and sessions.
    - Yaml.v: src/config/yaml_parser.cpp; the JSON library's parser is a class.
    - Config.v: src/config/config_loader.cpp with the records of
      config/datasource_config.h, over the values of Yaml.v.
    - ConfigCheck.v: src/config/config_diagnostics.cpp and datasource_config.cpp.
    - Topology.v: the offline topology check against the registry's [init].
    - Client.v: src/client.cpp and src/driver/driver_registry.cpp: state, life cycle,
      registry changes and synchronous calls, over Manager.v and Executor.v.
    - ClientAsync.v: the submissions of client.cpp with [controlledCompletion], and the
      interleavings of everything a client does.
    - Exporter.v: src/exporters/prometheus.cpp.
    - Heartbeat.v: src/core/heartbeat_manager.cpp.
    - Report.v: src/core/stats_reporter.cpp.

    ** What the theorems show

    - Statement text: masking and the clause tests mean what they say
      ([hasMultipleStatements_spec], [hasWhereClause_spec]); fingerprints ignore
      literals; binding named parameters is a reading of the statement by a
      lexical grammar ([bindNamed_correct]); the builder's output has one placeholder per
      parameter, no statement separator and a WHERE clause
      ([build_injection_free], [build_where_guard], [build_parameters]), and it
      passes the auditor ([builder_passes_audit]); identifiers, timestamps, trace
      headers and PostgreSQL texts round trip.
    - Paging: prepared pages are well formed, pages cover a result without loss
      or repetition, and the asynchronous join delivers once ([pages_cover],
      [accept_join], [preparePage_correct]).
    - Cache: structural invariant, refinement of a specification without
      eviction ([cache_sound]), injective keys; composed with the data sources,
      a cached answer is a fresh answer of the database ([cached_answers_fresh]).
    - Pool: an accounting invariant over every interleaving of its critical
      sections ([pool_accounting]), first-come first-served hand-off, no lost
      waiters.
    - Resilience: the breaker refines its state machine, retries are bounded and
      leave no partial rows, failover has a write that is not retried executed at
      most once ([dispatch_exact]), reads follow the documented routes and see the
      request's own writes.
    - Auditing and buffering: block mode is exact, the buffer's worker accounts
      for every write.
    - Concurrency: in every interleaving the executor loses no task and no
      wake-up, and its shutdown terminates after running everything accepted
      ([executor_accounting], [executor_no_lost_wakeup], [shutdown_drains]); a stop
      signal's callbacks run exactly once and never after their lease is dropped.
    - Operations: a stop reaches exactly the operations below it, the scheduler
      enforces deadlines, a completion is delivered once ([stop_propagates],
      [deadlines_enforced], [completion_exactly_once]).
    - Sessions: a transaction is settled once and the connection comes back clean
      ([transaction_settled_once], [returned_connection_clean]); a batch is all or
      nothing ([batch_atomic]); cursors stay within their budget.
    - Registry: every registered name leads to an open pool or to a group of such
      names ([registry_consistent]).
    - Binding: substitution touches placeholders only and agrees with the
      named-parameter binder ([placeholders_exact], [named_queries_bind]);
      literals read back, redacted logs do not depend on the values; call plans
      bind what they declare; scripts split into their statements.
    - Entry: a limiter admits at most its capacity plus rate times time in any
      window, up to an error bound for the rounding of doubles
      ([rate_limit_bound]); a statement passes the gate exactly when none of
      stop, audit and limit refuses ([preGate_exact]); hooks follow their life
      cycle and terminate although they may issue statements ([hook_lifecycle],
      [hooks_terminate]).
    - Observability: the statistics refine a bounded LRU of event histories and
      stay consistent under any calls ([slow_sql_refines_lru],
      [slow_stats_invariant]); a thread's cached settings are never older than a
      change that was announced when it looked ([snapshot_never_stale]).
    - Asynchronous engine: a native query completes once and gives its connection
      back once however driver and timer interleave ([native_query_settles]); every
      attempt the pool answers, every retry loop and every group statement completes
      once ([attempt_completes_once], [async_retries_exact],
      [async_group_completes]); group writes decide like the synchronous ones when
      their targets are open ([async_group_write_agrees]).
    - Oracle: RETURNING clauses, timestamps and values round trip, connect
      descriptors say exactly what was asked ([returning_roundtrip],
      [oracle_timestamp_roundtrip], [oracle_values_roundtrip],
      [connect_descriptor_exact]).
    - Configuration: a value printed as YAML reads back and the parser terminates
      ([yaml_roundtrip], [yaml_terminates]); what the loader accepts is within every
      documented bound ([loaded_config_valid]); the document [explain] writes, with the
      secrets put back and without the Oracle blocks of other sources, loads to the
      same configuration, and it shows everything but the secrets
      ([explain_reloads], [explain_hides_secrets]); a reload preview compares exactly
      ([comparable_exact]); redaction removes secrets ([redact_removes_secrets]); the
      offline check accepts exactly what the registry can be built from
      ([topology_decides_init]).
    - Client: every asynchronous call completes once in every interleaving with
      reconfiguration, shutdown, cancellation and executor threads
      ([async_calls_settle_once]); the steps refine the documented life cycle
      ([client_lifecycle]); a shutdown drains before it closes pools, leaves nothing
      behind and cannot hang on the client's own work ([client_shutdown_contract],
      [closed_client_settles]); late results are replaced for reads only
      ([late_results_exact]).
    - Metrics: the exported text reads back and announces every family once before its
      samples, with the documented names and types ([export_meets_contract]); label lists read back
      whatever names contain ([labels_read_back]); the histograms are histograms
      ([exported_histograms_valid]); a JSON report is one line that reads back exactly
      ([json_report_reads_back]).
    - Background threads: [stop] returns ([heartbeat_stop_returns]), promptly in the case
      of the reporter ([reporter_stop_prompt]); the heartbeat checks exactly the pools
      that are owned ([heartbeat_checks_exact]).
    - Error theorems prove the places where the code does less than it means to
      ([returnConn_loses_expired], [shutdown_total_underflow],
      [cacheKey_typed_collision], [connection_failure_no_failover],
      [buffered_replay_stale], [pg_text_losses], [audit_warn_bypass],
      [nested_scope_pin_lost], [explicit_zone_range],
      [stopped_settlement_leaks], [cursor_probe_wedges_breaker],
      [typed_text_injection], [split_block_errors], [call_text_defects],
      [failed_init_moves_default], [queryAll_bypasses_hooks],
      [slow_limiter_refuses], [full_table_unlimited],
      [returning_hidden_by_comment], [descriptor_quote_swallows],
      [async_stop_wedges_breaker], [late_broken_connection_returned],
      [declined_statement_asked_twice], [closed_target_stops_failover],
      [late_registration_outlives_shutdown], [cancelled_query_calls_back_twice],
      [failed_reload_drops_default], [reload_keeps_executor],
      [duration_group_interrupted], [heartbeat_wakeup_lost],
      [clip_splits_character], [dollar_identifier_hides_placeholders],
      [explain_oracle_block_refused], [retried_write_executes_twice]).

    ** Modelling conventions, bounds and fuel

    Strings are lists of bytes.  Integers are [Z] with ranges or wrap-around
    written out where the code can reach the limit; container sizes are [nat].
    Loops over text use [scan], structural on the text.  The cache's eviction
    loop has the length of its list as fuel, since each turn drops an element
    ([evict_loop_spec] shows the exit test holds or the list is empty); the
    attempt loops recurse on the attempts left.  The geometry
    scanner has the length of its text as fuel, since each point consumes a
    parenthesis ([points_loop_format]).  Stopping an operation has the number of
    operations as fuel, since children come later in the store than their
    parents; the block pass of the script splitter has the length of the script
    as fuel, since each turn consumes a byte ([blocks_fuel]).  The interpreter of
    hooks has fuel that [hooks_terminate] shows to exist for every call; the
    eviction loop of the slow-SQL statistics has the size of its table, since each
    turn removes an entry ([evict_to_ok]); the readers of RETURNING clauses and
    connect descriptors have the length of their text.  The YAML parser's blocks
    have three times the number of lines, its scalars their length
    ([yaml_terminates]); the reader of reports has the size of the document; replacing a secret has the length of the text.  The engine's attempts take
    what the components they call answer as one record, every value of which is
    possible, a pool that never calls back included.  Clocks, random
    draws, driver calls and the local time zone are arguments or parameters.  Shared state is
    passed explicitly; concurrent components are relations over their critical
    sections, one step each, in any order.  A call of the client reads an atomic
    together with the access that follows it.  Atomic fields of the breaker are
    updated in one step per gate or completion; its count of consecutive failures, an
    [int] that a success resets, and the counters of the slow-SQL statistics are not
    cut to their width.

    ** What is not modelled

    The drivers beyond MySQL's transactions and literals, and their vendor
    libraries: their code is calls into client libraries whose behaviour the sources
    do not show, so a connection is a parameter.  The object mapping templates, which
    are instantiated with the application's types; logging, the OpenTelemetry
    exporter and file I/O.

    ** Plan

    What is left that needs no vendor library: the batches and streams of a data
    source and the drivers' helper functions. *)

From Stdlib Require Export Ascii String ZArith Lia Bool.
From stdpp Require Export base tactics list gmap strings pretty.

#[export] Set Default Goal Selector "!".

(** ** Byte strings

    A [std::string] is a sequence of bytes that may contain NUL; it is
    modelled as a [list ascii].  String literals of the source are written
    [$"..."]. *)

Abbreviation str := (list ascii).

Declare Scope sqlc_scope.
Delimit Scope sqlc_scope with sqlc.
Open Scope sqlc_scope.

Definition lit (s : string) : str := list_ascii_of_string s.
Notation "$ s" := (lit s%string) (at level 1, format "$ s") : sqlc_scope.

(** Characters that Rocq's string syntax cannot show inside a literal. *)
Definition NUL : ascii := "000"%char.
Definition LF : ascii := "010"%char.
Definition QUOTE : ascii := "'"%char.
Definition DQUOTE : ascii := "034"%char.
Definition BTICK : ascii := "`"%char.
Definition BSLASH : ascii := "\"%char.

Definition chr_eqb (a b : ascii) : bool := bool_decide (a = b).
Notation "a =c b" := (chr_eqb a b) (at level 70, no associativity) : sqlc_scope.

Definition str_eqb (a b : str) : bool := bool_decide (a = b).
Notation "a =s b" := (str_eqb a b) (at level 70, no associativity) : sqlc_scope.

(** ** The <cctype> classification functions, in the "C" locale *)

Definition code (c : ascii) : N := N_of_ascii c.
Definition between (lo hi : N) (c : ascii) : bool :=
  (lo <=? code c)%N && (code c <=? hi)%N.

Definition isdigit (c : ascii) : bool := between 48 57 c.
Definition isupper (c : ascii) : bool := between 65 90 c.
Definition islower (c : ascii) : bool := between 97 122 c.
Definition isalpha (c : ascii) : bool := isupper c || islower c.
Definition isalnum (c : ascii) : bool := isalpha c || isdigit c.
Definition isspace (c : ascii) : bool := between 9 13 c || (code c =? 32)%N.
Definition isxdigit (c : ascii) : bool :=
  isdigit c || between 65 70 c || between 97 102 c.
Definition toupper (c : ascii) : ascii :=
  if islower c then ascii_of_N (code c - 32) else c.
Definition tolower (c : ascii) : ascii :=
  if isupper c then ascii_of_N (code c + 32) else c.
(** [isalnum(c) || c == '_'], the identifier test the analysers repeat. *)
Definition is_ident (c : ascii) : bool := isalnum c || (c =c "_"%char).

Definition upper (s : str) : str := map toupper s.

(** ** [std::string] operations *)

(** [s.compare(0, p.size(), p) == 0] on the text that starts here. *)
Fixpoint starts_with (p s : str) : bool :=
  match p, s with
  | [], _ => true
  | a :: p', b :: s' => (a =c b) && starts_with p' s'
  | _ :: _, [] => false
  end.

(** [s.find(p)]: the first offset at which [p] occurs, [None] for [npos]. *)
Fixpoint find_sub (p s : str) : option nat :=
  if starts_with p s then Some 0
  else match s with
       | [] => None
       | _ :: s' => S <$> find_sub p s'
       end.

Definition find_chr (c : ascii) (s : str) : option nat := find_sub [c] s.

(** Length of the longest prefix whose characters satisfy [f]: the shape of
    every [while (i < n && f(s[i])) ++i;]. *)
Fixpoint span (f : ascii -> bool) (s : str) : nat :=
  match s with
  | c :: s' => if f c then S (span f s') else 0
  | [] => 0
  end.

Definition head_is (c : ascii) (s : str) : bool :=
  match s with c' :: _ => c' =c c | [] => false end.

(** [std::to_string] on integers. *)
Definition to_string (z : Z) : str := lit (pretty z).
Definition nat_string (n : nat) : str := to_string (Z.of_nat n).

(** [sep.join(parts)], the [if (i) s += sep;] loops. *)
Fixpoint join (sep : str) (parts : list str) : str :=
  match parts with
  | [] => []
  | [p] => p
  | p :: ps => p ++ sep ++ join sep ps
  end.

(** ** Machine integers *)

Definition int64_max : Z := 2 ^ 63 - 1.
Definition int64_min : Z := - 2 ^ 63.
Definition uint64_mod : Z := 2 ^ 64.
Definition int64_range (z : Z) : Prop := (int64_min <= z <= int64_max)%Z.
Definition uint64_range (z : Z) : Prop := (0 <= z < uint64_mod)%Z.
Definition wrap_u64 (z : Z) : Z := (z mod uint64_mod)%Z.

(** Exhaustive check of a boolean property on [z .. z + n - 1], for the finite
    tables (calendar, character codes) that are proved by computation. *)
Fixpoint all_range (n : nat) (z : Z) (f : Z -> bool) : bool :=
  match n with
  | O => true
  | S n' => if f z then all_range n' (z + 1) f else false
  end.

(** ** Tactics and hint databases *)

Create HintDb sqlc.
Create Rewrite HintDb sqlc.

(** Case analysis on the scrutinee of the first [match]/[if] of the goal. *)
Ltac split_match :=
  match goal with
  | |- context [match ?x with _ => _ end] => destruct x eqn:?
  end.

Ltac split_match_in H :=
  match type of H with
  | context [match ?x with _ => _ end] => destruct x eqn:?
  end.

(** Decide a closed boolean fact about one character by enumeration. *)
Ltac by_char c := destruct c as [[] [] [] [] [] [] [] []]; vm_compute; try done.

(** ** Characters and strings: shared lemmas *)

Lemma chr_eqb_refl c : (c =c c) = true.
Proof. unfold chr_eqb. by apply bool_decide_eq_true_2. Qed.

Lemma chr_eqb_true a b : (a =c b) = true <-> a = b.
Proof. apply bool_decide_eq_true. Qed.

Lemma chr_eqb_false a b : (a =c b) = false <-> a <> b.
Proof. apply bool_decide_eq_false. Qed.

Lemma str_eqb_true a b : (a =s b) = true <-> a = b.
Proof. apply bool_decide_eq_true. Qed.

Lemma str_eqb_refl a : (a =s a) = true.
Proof. by apply str_eqb_true. Qed.

#[export] Hint Rewrite chr_eqb_refl str_eqb_refl : sqlc.

Lemma all_range_spec n z f :
  all_range n z f = true -> forall x, (z <= x < z + Z.of_nat n)%Z -> f x = true.
Proof.
  revert z; induction n as [|n IH]; intros z H x Hx; [lia|]. cbn in H.
  destruct (f z) eqn:E; [|done].
  destruct (decide (x = z)) as [->|]; [done|]. apply (IH (z + 1)%Z); [done|lia].
Qed.

Lemma toupper_idemp c : toupper (toupper c) = toupper c.
Proof. by_char c. Qed.

Lemma lit_app a b : lit (a +:+ b) = lit a ++ lit b.
Proof.
  induction a as [|c a IH]; [done|].
  change (String c a +:+ b) with (String c (a +:+ b)).
  unfold lit in *. cbn [list_ascii_of_string app]. by rewrite IH.
Qed.

Lemma lit_inj a b : lit a = lit b -> a = b.
Proof.
  intros H. apply (f_equal string_of_list_ascii) in H.
  unfold lit in H. by rewrite !string_of_list_ascii_of_string in H.
Qed.

Lemma to_string_inj a b : to_string a = to_string b -> a = b.
Proof. intros H. apply lit_inj in H. by apply (inj pretty). Qed.

Lemma pretty_N_go_digits x s :
  forallb isdigit (lit s) = true -> forallb isdigit (lit (pretty_N_go x s)) = true.
Proof.
  revert s. induction (N.lt_wf_0 x) as [x _ IH]; intros s Hs.
  assert (x = 0 \/ 0 < x)%N as [->|Hx] by lia; [by rewrite pretty_N_go_0|].
  rewrite pretty_N_go_step by done. apply IH; [by apply N.div_lt|].
  cbn. fold (lit s). rewrite Hs. unfold pretty_N_char. by repeat case_match.
Qed.

(** The decimal digits of a number. *)
Lemma pretty_N_digits (x : N) : forallb isdigit (lit (pretty x)) = true.
Proof. unfold pretty, pretty_N. destruct (decide (x = 0)%N); [done|]. by apply pretty_N_go_digits. Qed.

Lemma nat_string_digits n : forallb isdigit (nat_string n) = true.
Proof.
  unfold nat_string, to_string, pretty, pretty_Z. destruct (Z.of_nat n) as [|p|p] eqn:E; [done| |lia].
  apply pretty_N_digits.
Qed.

Lemma starts_with_app p s : starts_with p (p ++ s) = true.
Proof. induction p as [|a p IH]; [done|]. cbn. by rewrite chr_eqb_refl. Qed.

Lemma starts_with_spec p s : starts_with p s = true <-> exists t, s = p ++ t.
Proof.
  split; [|intros [t ->]; apply starts_with_app].
  revert s; induction p as [|a p IH]; intros s; [by eexists|].
  destruct s as [|b s]; [done|]. cbn.
  intros [->%chr_eqb_true [t ->]%IH]%andb_prop. by exists t.
Qed.

Lemma find_sub_None_cons p a s :
  find_sub p (a :: s) = None -> find_sub p s = None.
Proof.
  cbn. destruct (starts_with p (a :: s)); [done|]. by destruct (find_sub p s).
Qed.

(** [find] reports an occurrence, and the first one. *)
Lemma find_sub_Some p s k :
  find_sub p s = Some k ->
  starts_with p (drop k s) = true /\ k + length p <= length s.
Proof.
  revert k; induction s as [|a s IH]; intros k.
  - destruct p; cbn; [|done]. intros [= <-]. done.
  - cbn [find_sub]. destruct (starts_with p (a :: s)) eqn:E.
    + intros [= <-]. split; [done|].
      apply starts_with_spec in E as [t ->]. rewrite length_app. lia.
    + intros (k' & Hk' & ->)%fmap_Some. apply IH in Hk' as [H1 H2].
      split; [done|]. cbn. lia.
Qed.

Lemma find_sub_app p s t k : find_sub p s = Some k -> find_sub p (s ++ t) = Some k.
Proof.
  revert k; induction s as [|a s IH]; intros k H.
  - destruct p; [|done]. cbn in *. injection H as <-. by destruct t.
  - cbn [app find_sub] in *. destruct (starts_with p (a :: s)) eqn:E.
    + injection H as <-. apply starts_with_spec in E as [u Hu].
      replace (starts_with p (a :: s ++ t)) with true; [done|]. symmetry.
      apply starts_with_spec. exists (u ++ t). by rewrite app_assoc, <- Hu.
    + apply fmap_Some in H as (k' & Hk' & ->).
      replace (starts_with p (a :: s ++ t)) with false; [by rewrite (IH _ Hk')|].
      symmetry. apply not_true_is_false. intros [u Hu]%starts_with_spec.
      apply find_sub_Some in Hk' as [_ Hk']. apply not_true_iff_false in E.
      apply E, starts_with_spec. exists (drop (length p) (a :: s)).
      rewrite <- (take_drop (length p) (a :: s)) at 1. f_equal.
      apply (f_equal (take (length p))) in Hu. rewrite take_app_length in Hu.
      change (a :: s ++ t) with ((a :: s) ++ t) in Hu.
      rewrite take_app_le in Hu by (cbn; lia). done.
Qed.

(** The occurrence is found in any text that has it where the first text does. *)
Lemma find_sub_take p s t k :
  find_sub p s = Some k -> find_sub p (take (k + length p) s ++ t) = Some k.
Proof.
  intros H. apply find_sub_app. revert k H; induction s as [|a s IH]; intros k H.
  - destruct p; [|done]. injection H as <-. done.
  - pose proof (find_sub_Some _ _ _ H) as [Hs Hl]. cbn [find_sub] in H.
    destruct (starts_with p (a :: s)) eqn:E.
    + injection H as <-. apply starts_with_spec in E as [u Hu]. rewrite Hu. cbn [Nat.add].
      rewrite take_app_length. destruct p as [|b p]; [done|]. cbn [find_sub].
      pose proof (starts_with_app (b :: p) []) as Hp. rewrite app_nil_r in Hp. by rewrite Hp.
    + apply fmap_Some in H as (k' & Hk' & ->). cbn [Nat.add firstn find_sub].
      rewrite (IH _ Hk'). replace (starts_with p (a :: take (k' + length p) s)) with false; [done|].
      symmetry. apply not_true_is_false. intros [u Hu]%starts_with_spec.
      apply not_true_iff_false in E. apply E, starts_with_spec.
      exists (u ++ drop (k' + length p) s). rewrite app_assoc, <- Hu. cbn. by rewrite take_drop.
Qed.

Lemma span_le f s : span f s <= length s.
Proof. induction s as [|c s IH]; cbn; [lia|]. destruct (f c); cbn; lia. Qed.

Lemma span_app_all f a b :
  forallb f a = true -> span f (a ++ b) = length a + span f b.
Proof.
  induction a as [|c a IH]; [done|]. cbn. intros [-> H]%andb_prop.
  by rewrite IH.
Qed.

Lemma not_in_str c s : existsb (chr_eqb c) s = false <-> c ∉ s.
Proof.
  induction s as [|a s IH]; cbn; [set_solver|].
  by rewrite orb_false_iff, chr_eqb_false, IH, not_elem_of_cons.
Qed.

Lemma head_is_true c s : head_is c s = true <-> exists t, s = c :: t.
Proof.
  destruct s as [|a s]; cbn; [split; [done|by intros [? ?]]|].
  rewrite chr_eqb_true. split; [intros ->; eauto|by intros [? [= -> ->]]].
Qed.

(** ** Scanning loops

    The lexers of the program ([sql_analyze.cpp], [named_params.cpp],
    [pagination.cpp]) are all a loop [while (i < n) { ...; i = i'; }] over one
    string, in which every iteration advances [i] by at least one and may look
    at [s[i-1]], [s[i]] and what follows.  [scan] is that loop: [step prev c l
    st] is the body at a character [c] preceded by [prev] and followed by [l];
    it either leaves the loop with a result or returns [Next k st'], which
    advances past [c] and [k] further characters.  Recursion is structural on
    the text, so every such loop terminates. *)

Inductive action (S R : Type) : Type :=
| Stop (r : R)
| Next (k : nat) (st : S).
Arguments Stop {S R} r.
Arguments Next {S R} k st.

Section Scan.
Context {S R : Type}.
Variable step : option ascii -> ascii -> str -> S -> action S R.
Variable finish : S -> R.

Fixpoint scan_from (skip : nat) (prev : option ascii) (rest : str) (st : S) : R :=
    match rest with
    | [] => finish st
    | c :: l =>
        match skip with
        | Datatypes.S k => scan_from k (Some c) l st
        | O => match step prev c l st with
               | Stop r => r
               | Next k st' => scan_from k (Some c) l st'
               end
        end
    end.

Definition scan (rest : str) (st : S) : R := scan_from 0 None rest st.

  (** The character before the scanning position, after a jump over [k]. *)
Definition prev_after (c : ascii) (l : str) (k : nat) : option ascii :=
    last (c :: take k l).

Lemma scan_from_skip k c l st :
    scan_from k (Some c) l st = scan_from 0 (prev_after c l k) (drop k l) st.
  Proof.
    revert c l; induction k as [|k IH]; intros c l; [done|].
    destruct l as [|d l]; [done|]. cbn [scan_from drop]. by rewrite IH.
  Qed.

Lemma scan_step prev c l st :
    scan_from 0 prev (c :: l) st =
    match step prev c l st with
    | Stop r => r
    | Next k st' => scan_from 0 (prev_after c l k) (drop k l) st'
    end.
  Proof. cbn. destruct (step prev c l st); [done|]. by apply scan_from_skip. Qed.

  (** The loop rule: [I] holds at the head of every iteration. *)
Lemma scan_rule (I : option ascii -> str -> S -> Prop) (Q : R -> Prop) :
    (forall prev st, I prev [] st -> Q (finish st)) ->
    (forall prev c l st, I prev (c :: l) st ->
       match step prev c l st with
       | Stop r => Q r
       | Next k st' => I (prev_after c l k) (drop k l) st'
       end) ->
    forall prev rest st, I prev rest st -> Q (scan_from 0 prev rest st).
  Proof.
    intros Hfin Hstep prev rest.
    remember (length rest) as n eqn:Hn.
    revert prev rest Hn; induction n as [n IH] using lt_wf_ind.
    intros prev rest -> st HI. destruct rest as [|c l]; [by eapply Hfin|].
    specialize (Hstep _ _ _ _ HI). rewrite scan_step.
    destruct (step prev c l st) as [r|k st']; [done|].
    eapply IH; [|reflexivity|done]. rewrite length_drop. cbn. lia.
  Qed.
End Scan.

(** ** Quoted regions

    The loop that skips a quoted region after its opening quote: a backslash
    escapes the next character when [esc] is set, a doubled quote does not
    close the region.  It returns how many characters it consumed and whether
    the closing quote was found. *)
Fixpoint skip_quoted (esc : bool) (q : ascii) (l : str) : nat * bool :=
  match l with
  | [] => (0, false)
  | c :: l1 =>
      match l1 with
      | [] => if c =c q then (1, true) else (1, false)
      | d :: l2 =>
          if esc && (c =c BSLASH) then
            let '(n, b) := skip_quoted esc q l2 in (S (S n), b)
          else if c =c q then
            if d =c q then let '(n, b) := skip_quoted esc q l2 in (S (S n), b)
            else (1, true)
          else let '(n, b) := skip_quoted esc q l1 in (S n, b)
      end
  end.

Lemma str_two_ind (P : str -> Prop) :
  P [] -> (forall c, P [c]) ->
  (forall c d l, P l -> P (d :: l) -> P (c :: d :: l)) -> forall l, P l.
Proof.
  intros H0 H1 H2 l. enough (P l /\ forall c, P (c :: l)) by tauto.
  induction l as [|d l [IH1 IH2]]; split; auto.
Qed.

Lemma skip_quoted_cons2 esc q c d l :
  skip_quoted esc q (c :: d :: l) =
  if esc && (c =c BSLASH) then let '(n, b) := skip_quoted esc q l in (S (S n), b)
  else if c =c q then
    if d =c q then let '(n, b) := skip_quoted esc q l in (S (S n), b) else (1, true)
  else let '(n, b) := skip_quoted esc q (d :: l) in (S n, b).
Proof. reflexivity. Qed.

Lemma skip_quoted_le esc q l : fst (skip_quoted esc q l) <= length l.
Proof.
  induction l as [|c|c d l IH1 IH2] using str_two_ind; [done| |].
  - cbn. by destruct (c =c q).
  - cbn [skip_quoted] in *.
    destruct (esc && (c =c BSLASH)); [|destruct (c =c q); [destruct (d =c q)|]].
    + destruct (skip_quoted esc q l). cbn in *. lia.
    + destruct (skip_quoted esc q l). cbn in *. lia.
    + cbn. lia.
    + destruct (match l with [] => _ | _ => _ end). cbn in *. lia.
Qed.

(** A closed region stays closed when something other than its quote follows. *)
Lemma skip_quoted_app esc q l n x r :
  q <> x -> q <> BSLASH ->
  skip_quoted esc q l = (n, true) -> skip_quoted esc q (l ++ x :: r) = (n, true).
Proof.
  intros Hq Hb. revert n. induction l as [|c|c d l IH1 IH2] using str_two_ind; intros n.
  - done.
  - cbn [skip_quoted app]. destruct (c =c q) eqn:E; [|done]. intros [= <-].
    apply chr_eqb_true in E as ->. rewrite (proj2 (chr_eqb_false q BSLASH) Hb), andb_false_r.
    by rewrite (proj2 (chr_eqb_false x q)) by congruence.
  - cbn [app] in *. rewrite !skip_quoted_cons2. destruct (esc && (c =c BSLASH)).
    { destruct (skip_quoted esc q l) as [k b]. intros [= <- ->].
      by rewrite (IH1 k eq_refl). }
    destruct (c =c q).
    { destruct (d =c q); [|done]. destruct (skip_quoted esc q l) as [k b]. intros [= <- ->].
      by rewrite (IH1 k eq_refl). }
    destruct (skip_quoted esc q (d :: l)) as [k b]. intros [= <- ->].
    by rewrite (IH2 k eq_refl).
Qed.

(** Doubling every [q], as the SQL quoting functions do. *)
Fixpoint double_chr (q : ascii) (s : str) : str :=
  match s with
  | [] => []
  | c :: s' => if c =c q then q :: q :: double_chr q s' else c :: double_chr q s'
  end.

(** A quoted region written by doubling is skipped exactly. *)
Lemma skip_quoted_double esc q s rest :
  (esc = true -> BSLASH ∉ s) -> q <> BSLASH -> head_is q rest = false ->
  skip_quoted esc q (double_chr q s ++ q :: rest) = (S (length (double_chr q s)), true).
Proof.
  intros Hs Hq Hrest. induction s as [|c s IH]; cbn [double_chr app].
  - destruct rest as [|d rest]; cbn; [by rewrite chr_eqb_refl|].
    cbn in Hrest. rewrite (proj2 (chr_eqb_false q BSLASH) Hq), andb_false_r.
    by rewrite chr_eqb_refl, Hrest.
  - assert (HnB : (esc && (c =c BSLASH)) = false).
    { destruct esc; [|done]. cbn. apply chr_eqb_false. set_solver. }
    assert (Hs' : esc = true -> BSLASH ∉ s) by set_solver.
    specialize (IH Hs'). destruct (c =c q) eqn:E; cbn [app skip_quoted length].
    + rewrite (proj2 (chr_eqb_false q BSLASH) Hq), andb_false_r.
      by rewrite chr_eqb_refl, IH.
    + rewrite HnB, E.
      destruct (double_chr q s ++ q :: rest) eqn:F; [by destruct (double_chr q s)|].
      fold (skip_quoted esc q (a :: l)). by rewrite IH.
Qed.
