(* ===== verification/Types.v ===== *)
(** * Types: the value model, statuses and result sets

    Models include/sqlconduit/common/types.h and src/common/types.cpp: the
    [ErrorCode]/[Status] vocabulary, the [Value] variant, [Row] and
    [ResultSet], literal rendering and identifier quoting. *)

From S2P Require Import Prelude.

(** ** Error codes and statuses *)

Inductive ErrorCode : Type :=
| Ok | ConfigError | ConnectionFailed | QueryError | QueryTimeout | Cancelled
| ConstraintViolation | Deadlock | PingFailed | TxError | PoolExhausted
| PoolClosed | CircuitOpen | NotConnected | DriverDisabled | UnknownDriver
| NotSupported | RateLimited | SqlBlocked | Buffered | CursorClosed
| CursorLimit | CursorError | UnknownError | Overloaded | MappingError
| IoError | NotInitialized | AlreadyInitialized | ClientClosed.

#[export] Instance ErrorCode_eq_dec : EqDecision ErrorCode.
Proof. solve_decision. Defined.

Definition code_eqb (a b : ErrorCode) : bool := bool_decide (a = b).

Definition errorCodeToString (c : ErrorCode) : str :=
  match c with
  | Ok => $"Ok" | ConfigError => $"ConfigError"
  | ConnectionFailed => $"ConnectionFailed" | QueryError => $"QueryError"
  | QueryTimeout => $"QueryTimeout" | Cancelled => $"Cancelled"
  | ConstraintViolation => $"ConstraintViolation" | Deadlock => $"Deadlock"
  | PingFailed => $"PingFailed" | TxError => $"TxError"
  | PoolExhausted => $"PoolExhausted" | PoolClosed => $"PoolClosed"
  | CircuitOpen => $"CircuitOpen" | NotConnected => $"NotConnected"
  | DriverDisabled => $"DriverDisabled" | UnknownDriver => $"UnknownDriver"
  | NotSupported => $"NotSupported" | RateLimited => $"RateLimited"
  | SqlBlocked => $"SqlBlocked" | Buffered => $"Buffered"
  | CursorClosed => $"CursorClosed" | CursorLimit => $"CursorLimit"
  | CursorError => $"CursorError" | UnknownError => $"Unknown"
  | Overloaded => $"Overloaded" | MappingError => $"MappingError"
  | IoError => $"IoError" | NotInitialized => $"NotInitialized"
  | AlreadyInitialized => $"AlreadyInitialized" | ClientClosed => $"ClientClosed"
  end.

Record Status : Type := mkStatus {
  code_ : ErrorCode;
  message : str;
  sqlState : str;
  nativeCode : Z;
  retryable : bool;
  connectionBroken : bool;
  outcomeUnknown : bool
}.

Definition status_ok (s : Status) : bool := code_eqb (code_ s) Ok.
Definition status_OK : Status := mkStatus Ok [] [] 0 false false false.
Definition status_error (c : ErrorCode) (msg : str) : Status :=
  mkStatus c msg [] 0 false false false.

Definition set_code (c : ErrorCode) (s : Status) : Status :=
  mkStatus c (message s) (sqlState s) (nativeCode s) (retryable s)
           (connectionBroken s) (outcomeUnknown s).
Definition set_retryable (b : bool) (s : Status) : Status :=
  mkStatus (code_ s) (message s) (sqlState s) (nativeCode s) b
           (connectionBroken s) (outcomeUnknown s).
Definition set_broken (b : bool) (s : Status) : Status :=
  mkStatus (code_ s) (message s) (sqlState s) (nativeCode s) (retryable s)
           b (outcomeUnknown s).

(** [Status::databaseError]: classification of a vendor error by SQLSTATE. *)
Definition databaseError (fallback : ErrorCode) (msg state : str) (vendorCode : Z) : Status :=
  let status := mkStatus fallback msg state vendorCode false false false in
  let sqlClass := if 2 <=? length state then take 2 state else [] in
  if (state =s $"HYT00") || (state =s $"HYT01") then
    set_retryable true (set_code QueryTimeout status)
  else if state =s $"57014" then
    match find_sub ($"timeout") msg with
    | Some _ => set_retryable true (set_code QueryTimeout status)
    | None => set_code Cancelled status
    end
  else if state =s $"HY008" then set_code Cancelled status
  else if (state =s $"40001") || (state =s $"40P01") || (sqlClass =s $"40") then
    set_retryable true (set_code Deadlock status)
  else if sqlClass =s $"23" then set_code ConstraintViolation status
  else if sqlClass =s $"08" then
    let s1 := set_retryable true (set_broken true status) in
    if code_eqb fallback QueryError || code_eqb fallback TxError
    then set_code ConnectionFailed s1 else s1
  else status.

(** ** Values *)

(** [VDouble] holds the IEEE-754 binary64 bit pattern, [VTimestamp] the
    nanoseconds since the epoch ([system_clock::duration]). *)
#[warnings="-register-all"]
Inductive Value : Type :=
| VNull
| VBool (b : bool)
| VInt64 (z : Z)
| VUInt64 (z : Z)
| VDouble (bits : Z)
| VDecimal (s : str)
| VString (s : str)
| VDate (s : str)
| VTime (s : str)
| VTimestamp (ns : Z)
| VUuid (s : str)
| VJson (s : str)
| VBlob (bytes : str)
| VIntervalYearMonth (s : str)
| VIntervalDaySecond (s : str)
| VArray (items : list Value)
| VComposite (fields : list (str * Value))
| VTypedArray (typeName : str) (items : list Value)
| VTypedComposite (typeName : str) (fields : list (str * Value)).

Abbreviation Params := (list Value).

Section ValueInd.
Variable P : Value -> Prop.
Variable Hnull : P VNull.
Variable Hbool : forall b, P (VBool b).
Variable Hint64 : forall z, P (VInt64 z).
Variable Huint64 : forall z, P (VUInt64 z).
Variable Hdouble : forall z, P (VDouble z).
Variable Hdecimal : forall s, P (VDecimal s).
Variable Hstring : forall s, P (VString s).
Variable Hdate : forall s, P (VDate s).
Variable Htime : forall s, P (VTime s).
Variable Htimestamp : forall z, P (VTimestamp z).
Variable Huuid : forall s, P (VUuid s).
Variable Hjson : forall s, P (VJson s).
Variable Hblob : forall s, P (VBlob s).
Variable Hiym : forall s, P (VIntervalYearMonth s).
Variable Hids : forall s, P (VIntervalDaySecond s).
Variable Harray : forall l, Forall P l -> P (VArray l).
Variable Hcomposite : forall l, Forall (fun f => P (snd f)) l -> P (VComposite l).
Variable Htarray : forall n l, Forall P l -> P (VTypedArray n l).
Variable Htcomposite : forall n l, Forall (fun f => P (snd f)) l -> P (VTypedComposite n l).

  (** Induction through the nested lists of the composite constructors. *)
Fixpoint Value_ind' (v : Value) : P v :=
    let fix items (l : list Value) : Forall P l :=
      match l with
      | [] => Forall_nil_2 _
      | x :: l' => Forall_cons_2 _ _ _ (Value_ind' x) (items l')
      end in
    let fix fields (l : list (str * Value)) : Forall (fun f => P (snd f)) l :=
      match l with
      | [] => Forall_nil_2 _
      | x :: l' => Forall_cons_2 _ _ _ (Value_ind' (snd x)) (fields l')
      end in
    match v with
    | VNull => Hnull | VBool b => Hbool b | VInt64 z => Hint64 z
    | VUInt64 z => Huint64 z | VDouble z => Hdouble z
    | VDecimal s => Hdecimal s | VString s => Hstring s | VDate s => Hdate s
    | VTime s => Htime s | VTimestamp z => Htimestamp z | VUuid s => Huuid s
    | VJson s => Hjson s | VBlob s => Hblob s
    | VIntervalYearMonth s => Hiym s | VIntervalDaySecond s => Hids s
    | VArray l => Harray l (items l)
    | VComposite l => Hcomposite l (fields l)
    | VTypedArray n l => Htarray n l (items l)
    | VTypedComposite n l => Htcomposite n l (fields l)
    end.
End ValueInd.

Definition isNull (v : Value) : bool := match v with VNull => true | _ => false end.

(** [Composite::find] and [TypedComposite::find]. *)
Fixpoint composite_find (name : str) (fields : list (str * Value)) : option Value :=
  match fields with
  | [] => None
  | (n, v) :: fs => if n =s name then Some v else composite_find name fs
  end.

(** ** Rows and result sets *)

(** Byte order of [std::string] keys. *)
Fixpoint str_ltb (a b : str) : bool :=
  match a, b with
  | [], [] => false
  | [], _ :: _ => true
  | _ :: _, [] => false
  | x :: a', y :: b' =>
      if (code x <? code y)%N then true
      else if (code y <? code x)%N then false else str_ltb a' b'
  end.

(** [Row::Map] is a [std::map]: an association list sorted by key. *)
Record Row : Type := mkRow { row_data : list (str * Value) }.

Fixpoint map_set (col : str) (v : Value) (d : list (str * Value)) : list (str * Value) :=
  match d with
  | [] => [(col, v)]
  | (k, w) :: d' =>
      if col =s k then (k, v) :: d'
      else if str_ltb col k then (col, v) :: (k, w) :: d'
      else (k, w) :: map_set col v d'
  end.

Lemma find_map_set n k v d :
  composite_find n (map_set k v d) = if n =s k then Some v else composite_find n d.
Proof.
  induction d as [|[k' w] d IH].
  - cbn. unfold str_eqb. by repeat case_bool_decide; congruence || done.
  - cbn [map_set]. unfold str_eqb in *.
    repeat first [case_bool_decide | case_match]; subst; cbn; unfold str_eqb;
      rewrite ?IH; repeat case_bool_decide; congruence || done.
Qed.

Definition row_set (col : str) (v : Value) (r : Row) : Row :=
  mkRow (map_set col v (row_data r)).
Definition row_has (col : str) (r : Row) : bool :=
  match composite_find col (row_data r) with Some _ => true | None => false end.
Definition row_at (col : str) (r : Row) : Value :=
  default VNull (composite_find col (row_data r)).
Definition row_size (r : Row) : nat := length (row_data r).

Record ResultSet : Type := mkResultSet {
  fields : list str;
  rows : list Row;
  transformed : bool
}.

Definition rs_empty : ResultSet := mkResultSet [] [] false.
Definition rs_setFields (f : list str) (rs : ResultSet) : ResultSet :=
  mkResultSet f (rows rs) (transformed rs).
Definition rs_addRow (r : Row) (rs : ResultSet) : ResultSet :=
  mkResultSet (fields rs) (rows rs ++ [r]) (transformed rs).
Definition rs_rowCount (rs : ResultSet) : nat := length (rows rs).
Definition rs_clear (rs : ResultSet) : ResultSet := mkResultSet [] [] false.
