(* ===== verification/Timestamp.v ===== *)
(** * Timestamp: formatting and parsing of time points

    Models the timestamp functions of src/common/types.cpp ([toTm],
    [formatTimestamp], [timestampToString], [timestampToStringMs],
    [timestampToUtcStringMs], [tryParseTimestamp]).  The process time zone is a
    parameter: [localtime] and [mktime] are the C library's conversions for
    it.  [gmtime] needs no zone data and is written out. *)

From S2P Require Import Prelude.

Local Open Scope Z_scope.

(** The fields of [std::tm] the code uses ([tm_year] already holds the full
    year and [tm_mon] the month from 1). *)
Record tm : Type := mkTm {
  tm_year : Z; tm_mon : Z; tm_mday : Z; tm_hour : Z; tm_min : Z; tm_sec : Z
}.

(** ** The proleptic Gregorian calendar of [gmtime_r] *)

Definition yoe_of_doe (doe : Z) : Z :=
  (doe - doe / 1460 + doe / 36524 - doe / 146096) / 365.

Definition month_of_doy (doy : Z) : Z * Z :=
  let mp := (5 * doy + 2) / 153 in
  (if mp <? 10 then mp + 3 else mp - 9, doy - (153 * mp + 2) / 5 + 1).

(** Civil date of a day of the 400-year era, years counted from its start. *)
Definition civil_of_doe (doe : Z) : Z * Z * Z :=
  let yoe := yoe_of_doe doe in
  let '(m, d) := month_of_doy (doe - (365 * yoe + yoe / 4 - yoe / 100)) in
  (if m <=? 2 then yoe + 1 else yoe, m, d).

Definition gmtime (secs : Z) : tm :=
  let days := secs / 86400 in
  let tod := secs mod 86400 in
  let z := days + 719468 in
  let '(y, m, d) := civil_of_doe (z mod 146097) in
  mkTm (y + 400 * (z / 146097)) m d (tod / 3600) (tod mod 3600 / 60) (tod mod 60).

(** ** Formatting *)

Definition digit (n : Z) : ascii := ascii_of_N (Z.to_N (48 + n)).

(** [std::setw(w) << std::setfill('0')] and the numeric [strftime] fields. *)
Fixpoint pad_digits (w : nat) (n : Z) : str :=
  match w with
  | O => []
  | S w' => pad_digits w' (n / 10) ++ [digit (n mod 10)]
  end.

(** [strftime("%Y-%m-%d %H:%M:%S")]; [%Y] is the unpadded decimal year. *)
Definition strftime (t : tm) : str :=
  to_string (tm_year t) ++ $"-" ++ pad_digits 2 (tm_mon t) ++ $"-" ++
  pad_digits 2 (tm_mday t) ++ $" " ++ pad_digits 2 (tm_hour t) ++ $":" ++
  pad_digits 2 (tm_min t) ++ $":" ++ pad_digits 2 (tm_sec t).

Definition NS : Z := 1000000000.

(** What [tryParseTimestamp] reports: [false], a time point, or a time point
    whose nanosecond count does not fit the 64-bit [Timestamp::duration]. *)
Inductive parsed : Type :=
| Rejected
| Parsed (ns : Z)
| Overflow (ns : Z).

Definition to_time_point (secs fracNs : Z) : parsed :=
  let ns := secs * NS + fracNs in
  if (int64_min <=? ns) && (ns <=? int64_max) then Parsed ns else Overflow ns.

(** The [readInt] lambda: exactly [width] decimal digits. *)
Fixpoint readInt_loop (width : nat) (val : Z) (s : str) : option (Z * str) :=
  match width with
  | O => Some (val, s)
  | S w =>
      match s with
      | c :: s' => if isdigit c then readInt_loop w (val * 10 + (Z.of_N (code c) - 48)) s'
                   else None
      | [] => None
      end
  end.
Definition readInt (width : nat) (s : str) : option (Z * str) := readInt_loop width 0 s.

Definition expect (c : ascii) (s : str) : option str :=
  match s with c' :: s' => if c' =c c then Some s' else None | [] => None end.

(** The fraction digits: the first nine count, further ones are skipped. *)
Fixpoint readFrac (digits : nat) (v : Z) (s : str) : Z * nat * str :=
  match s with
  | c :: s' =>
      if isdigit c then
        if (digits <? 9)%nat then readFrac (S digits) (v * 10 + (Z.of_N (code c) - 48)) s'
        else readFrac digits v s'
      else (v, digits, s)
  | [] => (v, digits, s)
  end.

Definition leap (year : Z) : bool :=
  (year mod 4 =? 0) && (negb (year mod 100 =? 0) || (year mod 400 =? 0)).

Definition monthDays (mo : Z) : Z :=
  match mo with
  | 2 => 28 | 4 | 6 | 9 | 11 => 30 | _ => 31
  end.

(** The civil-to-days computation of the explicit-zone branch. *)
Definition civil_days (y mo d : Z) : Z :=
  let civilYear := if mo <=? 2 then y - 1 else y in
  let era := Z.quot (if 0 <=? civilYear then civilYear else civilYear - 399) 400 in
  let yoe := civilYear - era * 400 in
  let shiftedMonth := if 2 <? mo then mo - 3 else mo + 9 in
  let doy := (153 * shiftedMonth + 2) / 5 + d - 1 in
  let doe := yoe * 365 + yoe / 4 - yoe / 100 + doy in
  era * 146097 + doe - 719468.

Section Zone.
  (** The C library for the process time zone. *)
Variable localtime : Z -> tm.
Variable mktime : tm -> Z.

Definition toTm (t : Z) (utc : bool) : tm * Z :=
    let secs := t / NS in
    (if utc then gmtime secs else localtime secs, t - secs * NS).

Definition formatTimestamp (t : Z) (withMillis utc : bool) : str :=
    let '(tmv, fracNs) := toTm t utc in
    strftime tmv ++
    (if withMillis then $"." ++ pad_digits 3 (fracNs / 1000000 mod 1000) else []).

Definition timestampToString (t : Z) : str := formatTimestamp t false false.
Definition timestampToStringMs (t : Z) : str := formatTimestamp t true false.
Definition timestampToUtcStringMs (t : Z) : str := formatTimestamp t true true ++ $"+00".

  (** The optional time of day after the date. *)
Definition parseTimeOfDay (s : str) : option (Z * Z * Z * str) :=
    if head_is " "%char s || head_is "T"%char s then
      '(h, s) ← readInt 2 (drop 1 s);
      s ← expect ":"%char s;
      '(mi, s) ← readInt 2 s;
      s ← expect ":"%char s;
      '(se, s) ← readInt 2 s;
      Some (h, mi, se, s)
    else Some (0, 0, 0, s).

Definition parseFraction (s : str) : Z * str :=
    if head_is "."%char s then
      let '(v, digits, s') := readFrac 0 0 (drop 1 s) in
      (v * 10 ^ Z.of_nat (9 - digits), s')
    else (0, s).

  (** The zone suffix: [None] when malformed, otherwise whether a zone was
      given and its offset in seconds. *)
Definition parseZone (s : str) : option (bool * Z * str) :=
    if head_is "Z"%char s || head_is "z"%char s then Some (true, 0, drop 1 s)
    else if head_is "+"%char s || head_is "-"%char s then
      let sign := if head_is "+"%char s then 1 else -1 in
      '(oh, s) ← readInt 2 (drop 1 s);
      let s := if head_is ":"%char s then drop 1 s else s in
      '(om, s) ← (match s with [] => Some (0, s) | _ => readInt 2 s end);
      if (23 <? oh) || (59 <? om) then None
      else Some (true, sign * (oh * 3600 + om * 60), s)
    else Some (false, 0, s).

Definition valid_fields (y mo d h mi se : Z) : bool :=
    negb ((mo <? 1) || (12 <? mo) || (d <? 1) ||
          (monthDays mo + (if (mo =? 2) && leap y then 1 else 0) <? d) ||
          (h <? 0) || (23 <? h) || (mi <? 0) || (59 <? mi) ||
          (se <? 0) || (59 <? se) || (y <? 1900)).

Definition parse_fields (s : str) : option (tm * Z * bool * Z) :=
    '(y, s) ← readInt 4 s;
    s ← expect "-"%char s;
    '(mo, s) ← readInt 2 s;
    s ← expect "-"%char s;
    '(d, s) ← readInt 2 s;
    '(h, mi, se, s) ← parseTimeOfDay s;
    let '(fracNs, s) := parseFraction s in
    '(hasZone, offset, s) ← parseZone s;
    match s with
    | [] => if valid_fields y mo d h mi se
            then Some (mkTm y mo d h mi se, fracNs, hasZone, offset) else None
    | _ :: _ => None
    end.

Definition tryParseTimestamp (s : str) : parsed :=
    match parse_fields s with
    | None => Rejected
    | Some (t, fracNs, hasZone, offset) =>
        if hasZone then
          let days := civil_days (tm_year t) (tm_mon t) (tm_mday t) in
          to_time_point (days * 86400 + tm_hour t * 3600 + tm_min t * 60 + tm_sec t - offset)
                        fracNs
        else
          let tt := mktime t in
          if tt =? -1 then Rejected else to_time_point tt fracNs
    end.
End Zone.

(** ** Decimal fields: printing and reading agree *)

Lemma isdigit_digit n : 0 <= n < 10 -> isdigit (digit n) = true /\ Z.of_N (code (digit n)) = 48 + n.
Proof.
  intros H. assert (Hall : all_range 10 0 (fun n => isdigit (digit n) &&
    (Z.of_N (code (digit n)) =? 48 + n)) = true) by (vm_compute; done).
  by pose proof (all_range_spec _ _ _ Hall n H) as [H1 H2%Z.eqb_eq]%andb_prop.
Qed.

Lemma readInt_loop_app a b v s :
  readInt_loop (a + b) v s = '(v', s') ← readInt_loop a v s; readInt_loop b v' s'.
Proof.
  revert v s; induction a as [|a IH]; intros v s; [done|].
  cbn. destruct s as [|c s]; [done|]. destruct (isdigit c); [apply IH|done].
Qed.

Lemma readInt_pad w v n s :
  0 <= n < 10 ^ Z.of_nat w ->
  readInt_loop w v (pad_digits w n ++ s) = Some (v * 10 ^ Z.of_nat w + n, s).
Proof.
  revert v n s; induction w as [|w IH]; intros v n s Hn.
  - cbn in *. do 2 f_equal. lia.
  - rewrite Nat2Z.inj_succ, Z.pow_succ_r in * by lia.
    replace (S w) with (w + 1)%nat by lia.
    rewrite readInt_loop_app. replace (w + 1)%nat with (S w) by lia.
    cbn [pad_digits]. rewrite <- app_assoc.
    rewrite IH by (split; [apply Z.div_pos; lia|apply Z.div_lt_upper_bound; lia]).
    cbn [mbind option_bind app readInt_loop].
    destruct (isdigit_digit (n mod 10)) as [-> ->]; [apply Z.mod_pos_bound; lia|].
    do 2 f_equal. pose proof (Z.div_mod n 10). lia.
Qed.

Lemma readInt_field w n s :
  0 <= n < 10 ^ Z.of_nat w -> readInt w (pad_digits w n ++ s) = Some (n, s).
Proof. intros H. unfold readInt. rewrite readInt_pad by done. do 2 f_equal; lia. Qed.

Lemma expect_ok c s : expect c (c :: s) = Some s.
Proof. cbn. by rewrite chr_eqb_refl. Qed.

(** Runs the parser over a printed field or separator. *)
Ltac read_fields :=
  repeat (first [rewrite readInt_field by lia | rewrite expect_ok]; cbn [mbind option_bind]).

Lemma length_pad_digits w n : length (pad_digits w n) = w.
Proof. revert n; induction w; intros n; [done|]. cbn. rewrite length_app, IHw. cbn. lia. Qed.

Lemma year_padded y : 1900 <= y <= 2262 -> to_string y = pad_digits 4 y.
Proof.
  intros Hy. apply str_eqb_true.
  apply (all_range_spec 363 1900 (fun y => to_string y =s pad_digits 4 y)); [by vm_compute|lia].
Qed.

(** ** The calendar *)

(** Year of the era and day of the (March-based) year. *)
Lemma yoe_spec doe :
  0 <= doe < 146097 ->
  let yoe := yoe_of_doe doe in
  let doy := doe - (365 * yoe + yoe / 4 - yoe / 100) in
  0 <= yoe < 400 /\ 0 <= doy <= 365 /\
  (doy = 365 -> (yoe + 1) mod 4 = 0 /\ ((yoe + 1) mod 100 <> 0 \/ yoe + 1 = 400)).
Proof.
  intros H. cbn zeta. unfold yoe_of_doe.
  assert (doe / 146096 = 0 \/ doe = 146096) as [Hc|E] by (Z.to_euclidean_division_equations; lia);
    [|subst doe; vm_compute; intuition congruence].
  rewrite Hc.
  assert (doe / 36524 = 0 \/ doe / 36524 = 1 \/ doe / 36524 = 2 \/ doe / 36524 = 3)
    as [Hb|[Hb|[Hb|Hb]]] by (Z.to_euclidean_division_equations; lia); rewrite Hb.
  all: Z.to_euclidean_division_equations; lia.
Qed.

Definition doy_ok (doy : Z) : bool :=
  let '(m, d) := month_of_doy doy in
  (1 <=? m) && (m <=? 12) && (1 <=? d) &&
  (d <=? monthDays m + (if (m =? 2) && (doy =? 365) then 1 else 0)) &&
  ((153 * (if 2 <? m then m - 3 else m + 9) + 2) / 5 + d - 1 =? doy) &&
  implb (doy =? 365) (m =? 2) && Bool.eqb (306 <=? doy) (m <=? 2).

Lemma doy_ok_all doy : 0 <= doy <= 365 -> doy_ok doy = true.
Proof. intros Hd. apply (all_range_spec 366 0); [by vm_compute|lia]. Qed.

Lemma leap_of_yoe yoe :
  (yoe + 1) mod 4 = 0 -> ((yoe + 1) mod 100 <> 0 \/ yoe + 1 = 400) -> leap (yoe + 1) = true.
Proof.
  intros H4 H100. unfold leap. rewrite (proj2 (Z.eqb_eq _ _) H4). cbn.
  destruct H100 as [H|H]; [by rewrite (proj2 (Z.eqb_neq _ _) H)|]. by rewrite H.
Qed.

Lemma civil_of_doe_ok doe y m d :
  0 <= doe < 146097 -> civil_of_doe doe = (y, m, d) ->
  civil_days y m d = doe - 719468 /\ 1 <= m <= 12 /\ 1 <= d /\
  d <= monthDays m + (if (m =? 2) && leap y then 1 else 0) /\
  0 <= (if m <=? 2 then y - 1 else y) < 400.
Proof.
  intros Hdoe Hc. unfold civil_of_doe in Hc.
  destruct (yoe_spec _ Hdoe) as (Hyoe & Hdoy & Hleap).
  set (yoe := yoe_of_doe doe) in *.
  set (doy := doe - (365 * yoe + yoe / 4 - yoe / 100)) in *.
  pose proof (doy_ok_all _ Hdoy) as Hok. unfold doy_ok in Hok.
  destruct (month_of_doy doy) as [m' d']. injection Hc as <- <- <-.
  rewrite !andb_true_iff, !Z.leb_le, Z.eqb_eq in Hok.
  destruct Hok as [[[[[[Hm1 Hm2] Hd1] Hd2] Hinv] Himp] _].
  assert (Hcy : (if m' <=? 2 then (if m' <=? 2 then yoe + 1 else yoe) - 1
                 else if m' <=? 2 then yoe + 1 else yoe) = yoe)
    by (destruct (m' <=? 2); lia).
  split; [|repeat split; try lia].
  - unfold civil_days. rewrite Hcy, (proj2 (Z.leb_le 0 yoe)) by lia.
    rewrite Z.quot_small by lia.
    replace (yoe - 0 * 400) with yoe by lia.
    unfold doy in Hinv. lia.
  - destruct (Z.eqb_spec m' 2) as [->|]; [|cbn in *; lia]. cbn in *.
    destruct (Z.eqb_spec doy 365) as [E|]; [|case_match; lia].
    destruct (Hleap E). by rewrite leap_of_yoe.
Qed.

Lemma leap_shift y k : leap (y + 400 * k) = leap y.
Proof.
  unfold leap.
  replace ((y + 400 * k) mod 4) with (y mod 4)
    by (replace (400 * k) with (100 * k * 4) by lia; by rewrite Z.mod_add).
  replace ((y + 400 * k) mod 100) with (y mod 100)
    by (replace (400 * k) with (4 * k * 100) by lia; by rewrite Z.mod_add).
  replace (400 * k) with (k * 400) by lia. by rewrite Z.mod_add.
Qed.

Lemma civil_days_shift y m d k :
  0 <= k -> 0 <= (if m <=? 2 then y - 1 else y) < 400 ->
  civil_days (y + 400 * k) m d = civil_days y m d + 146097 * k.
Proof.
  intros Hk Hy. unfold civil_days.
  set (cy := if m <=? 2 then y - 1 else y) in *.
  replace (if m <=? 2 then y + 400 * k - 1 else y + 400 * k) with (cy + 400 * k)
    by (unfold cy; destruct (m <=? 2); lia).
  rewrite (proj2 (Z.leb_le 0 (cy + 400 * k))), (proj2 (Z.leb_le 0 cy)) by lia.
  rewrite !Z.quot_div_nonneg by lia.
  replace (cy + 400 * k) with (cy + k * 400) by lia.
  rewrite Z.div_add, (Z.div_small cy) by lia.
  replace (cy + k * 400 - (0 + k) * 400) with cy by lia.
  replace (cy - 0 * 400) with cy by lia. lia.
Qed.

Lemma monthDays_le m : monthDays m <= 31.
Proof. unfold monthDays. repeat case_match; lia. Qed.

(** [gmtime] yields a valid civil date, and the parser's day count inverts it. *)
Lemma gmtime_valid secs :
  let t := gmtime secs in
  1900 <= tm_year t ->
  valid_fields (tm_year t) (tm_mon t) (tm_mday t) (tm_hour t) (tm_min t) (tm_sec t) = true /\
  civil_days (tm_year t) (tm_mon t) (tm_mday t) = secs / 86400 /\
  tm_hour t * 3600 + tm_min t * 60 + tm_sec t = secs mod 86400 /\
  1 <= tm_mon t <= 12 /\ 1 <= tm_mday t <= 31 /\ 0 <= tm_hour t < 24 /\
  0 <= tm_min t < 60 /\ 0 <= tm_sec t < 60.
Proof.
  cbn zeta. unfold gmtime.
  set (z := secs / 86400 + 719468). set (tod := secs mod 86400).
  assert (Htod : 0 <= tod < 86400) by (apply Z.mod_pos_bound; lia).
  assert (Hdoe : 0 <= z mod 146097 < 146097) by (apply Z.mod_pos_bound; lia).
  destruct (civil_of_doe (z mod 146097)) as [[y m] d] eqn:Hciv.
  destruct (civil_of_doe_ok _ _ _ _ Hdoe Hciv) as (Hcd & [Hm1 Hm2] & Hd1 & Hd2 & [Hcy1 Hcy2]).
  cbn [tm_year tm_mon tm_mday tm_hour tm_min tm_sec]. intros Hyear.
  assert (Hk : 0 <= z / 146097) by (destruct (m <=? 2); lia).
  assert (Hd31 : d <= 31).
  { destruct (Z.eqb_spec m 2) as [->|]; cbn in Hd2.
    - destruct (leap y); lia.
    - pose proof (monthDays_le m). lia. }
  pose proof (Z.mod_pos_bound tod 3600). pose proof (Z.mod_pos_bound tod 60).
  pose proof (Z.div_mod tod 3600). pose proof (Z.div_mod (tod mod 3600) 60).
  assert (Hmm : (tod mod 3600) mod 60 = tod mod 60).
  { rewrite (Z.div_mod tod 3600) at 2 by lia.
    replace (3600 * (tod / 3600)) with (60 * (tod / 3600) * 60) by lia.
    by rewrite Z.add_comm, Z.mod_add. }
  repeat split; try lia.
  - unfold valid_fields. rewrite leap_shift. apply negb_true_iff.
    repeat (apply orb_false_iff; split); apply Z.ltb_ge; lia.
  - rewrite civil_days_shift by lia. rewrite Hcd. pose proof (Z.div_mod z 146097). lia.
Qed.

(** Years 1900 to 2262 cover the non-negative-year part of the 64-bit range. *)
Lemma gmtime_year secs :
  -2208988800 <= secs <= 9223372036 -> 1900 <= tm_year (gmtime secs) <= 2262.
Proof.
  intros Hs. unfold gmtime. set (z := secs / 86400 + 719468).
  assert (Hz : 693901 <= z <= 826220)
    by (unfold z; Z.to_euclidean_division_equations; lia).
  assert (Hdoe : 0 <= z mod 146097 < 146097) by (apply Z.mod_pos_bound; lia).
  assert (Hk : z = 146097 * (z / 146097) + z mod 146097) by (apply Z.div_mod; lia).
  set (doe := z mod 146097) in *. set (k := z / 146097) in *.
  unfold civil_of_doe. destruct (yoe_spec _ Hdoe) as (Hyoe & Hdoy & _).
  set (yoe := yoe_of_doe doe) in *.
  pose proof (doy_ok_all _ Hdoy) as Hok. unfold doy_ok in Hok.
  set (doy := doe - (365 * yoe + yoe / 4 - yoe / 100)) in *.
  destruct (month_of_doy doy) as [m d]. cbn [tm_year].
  rewrite !andb_true_iff in Hok. destruct Hok as [_ Hm%eqb_prop].
  rewrite <- Hm. clear Hm.
  assert (k = 4 \/ k = 5) as Hk45 by lia.
  destruct (Z.leb_spec 306 doy); unfold doy in *; clear doy;
    Z.to_euclidean_division_equations; lia.
Qed.

Lemma readFrac_three n s :
  0 <= n < 1000 -> head_is "+"%char s = true ->
  readFrac 0 0 (pad_digits 3 n ++ s) = (n, 3%nat, s).
Proof.
  intros Hn [t ->]%head_is_true. cbn [pad_digits app].
  destruct (isdigit_digit (n / 10 / 10 mod 10)) as [D1 V1]; [apply Z.mod_pos_bound; lia|].
  destruct (isdigit_digit (n / 10 mod 10)) as [D2 V2]; [apply Z.mod_pos_bound; lia|].
  destruct (isdigit_digit (n mod 10)) as [D3 V3]; [apply Z.mod_pos_bound; lia|].
  cbn. rewrite D1, D2, D3, V1, V2, V3. f_equal. f_equal.
  Z.to_euclidean_division_equations; lia.
Qed.

(** What the parser extracts from [strftime] output with milliseconds and "+00". *)
Lemma parse_fields_utc t ms :
  1900 <= tm_year t <= 2262 -> 1 <= tm_mon t <= 12 -> 1 <= tm_mday t <= 31 ->
  0 <= tm_hour t < 24 -> 0 <= tm_min t < 60 -> 0 <= tm_sec t < 60 -> 0 <= ms < 1000 ->
  valid_fields (tm_year t) (tm_mon t) (tm_mday t) (tm_hour t) (tm_min t) (tm_sec t) = true ->
  parse_fields (strftime t ++ ($"." ++ pad_digits 3 ms) ++ $"+00")
  = Some (t, ms * 1000000, true, 0).
Proof.
  destruct t as [y mo d h mi se]. cbn [tm_year tm_mon tm_mday tm_hour tm_min tm_sec].
  intros Hy Hmo Hd Hh Hmi Hse Hms Hv. unfold strftime, parse_fields.
  cbn [tm_year tm_mon tm_mday tm_hour tm_min tm_sec].
  rewrite year_padded by lia. rewrite <- !app_assoc. change ($"+00") with (lit "+00" ++ []).
  cbn [lit list_ascii_of_string app]. read_fields.
  unfold parseTimeOfDay. cbn [head_is]. rewrite chr_eqb_refl. cbn [orb skipn]. rewrite drop_0. read_fields.
  unfold parseFraction. cbn [head_is]. rewrite chr_eqb_refl. cbn [skipn]. rewrite drop_0.
  rewrite readFrac_three by (done || lia).
  change (parseZone ["+"%char; "0"%char; "0"%char]) with (Some (true, 0, @nil ascii)).
  cbn [mbind option_bind]. by rewrite Hv.
Qed.

(** Formatting a time point as UTC text with milliseconds and parsing the
    text back yields the time point truncated to the millisecond, for every
    time point from 1900 to the end of the 64-bit range, whatever the process
    time zone is. *)
Theorem utc_text_roundtrip (localtime : Z -> tm) (mktime : tm -> Z) (t : Z) :
  -2208988800 * NS <= t <= int64_max ->
  tryParseTimestamp mktime (timestampToUtcStringMs localtime t) = Parsed (t - t mod 1000000).
Proof.
  intros Ht. unfold timestampToUtcStringMs, formatTimestamp, toTm.
  unfold NS, int64_max in *. set (secs := t / 1000000000).
  assert (Hsecs : -2208988800 <= secs <= 9223372036)
    by (unfold secs; Z.to_euclidean_division_equations; lia).
  set (ms := (t - secs * 1000000000) / 1000000 mod 1000).
  assert (Hms : 0 <= ms < 1000) by (apply Z.mod_pos_bound; lia).
  pose proof (gmtime_year _ Hsecs) as Hyear.
  destruct (gmtime_valid secs) as (Hv & Hdays & Htod & Hmo & Hd & Hh & Hmi & Hse); [lia|].
  rewrite <- app_assoc. unfold tryParseTimestamp. rewrite parse_fields_utc by (done || lia).
  rewrite Hdays.
  replace (secs / 86400 * 86400 + tm_hour (gmtime secs) * 3600 + tm_min (gmtime secs) * 60
           + tm_sec (gmtime secs) - 0) with secs
    by (pose proof (Z.div_mod secs 86400); lia).
  assert (Hns : secs * NS + ms * 1000000 = t - t mod 1000000).
  { unfold ms, secs, NS. clear. Z.to_euclidean_division_equations; lia. }
  unfold to_time_point. rewrite Hns.
  rewrite (proj2 (Z.leb_le _ _)), (proj2 (Z.leb_le _ _)); [done| |];
    unfold int64_min, int64_max; pose proof (Z.mod_pos_bound t 1000000); lia.
Qed.

Lemma utc_text_roundtrip_witness :
  -2208988800 * NS <= 1700000000123456789 <= int64_max /\
  tryParseTimestamp (fun _ => -1) (timestampToUtcStringMs gmtime 1700000000123456789)
  = Parsed 1700000000123000000.
Proof.
  split; [vm_compute; intuition congruence|].
  apply (utc_text_roundtrip gmtime (fun _ => -1) 1700000000123456789).
  vm_compute; intuition congruence.
Defined.

(** ** Range of the parsed time point *)

Lemma isdigit_range c : isdigit c = true -> 0 <= Z.of_N (code c) - 48 <= 9.
Proof.
  unfold isdigit, between. rewrite andb_true_iff, !N.leb_le. lia.
Qed.

Lemma readInt_nonneg w v s n r : 0 <= v -> readInt_loop w v s = Some (n, r) -> 0 <= n.
Proof.
  revert v s; induction w as [|w IH]; intros v s Hv; cbn; [intros [= <- <-]; done|].
  destruct s as [|c s]; [done|]. destruct (isdigit c) eqn:E; [|done].
  apply isdigit_range in E. apply IH. lia.
Qed.

Lemma readFrac_range s k v v' k' s' :
  (k <= 9)%nat -> 0 <= v < 10 ^ Z.of_nat k -> readFrac k v s = (v', k', s') ->
  (k' <= 9)%nat /\ 0 <= v' < 10 ^ Z.of_nat k'.
Proof.
  revert k v; induction s as [|c s IH]; intros k v Hk Hv; cbn [readFrac];
    [by intros [= <- <- <-]|].
  destruct (isdigit c) eqn:E; [|by intros [= <- <- <-]]. apply isdigit_range in E.
  destruct (Nat.ltb_spec k 9); [|by apply IH]. apply IH; [lia|].
  rewrite Nat2Z.inj_succ, Z.pow_succ_r by lia. lia.
Qed.

Lemma parseFraction_range s f r : parseFraction s = (f, r) -> 0 <= f < NS.
Proof.
  unfold parseFraction. destruct (head_is _ s); [|by intros [= <- <-]].
  destruct (readFrac 0 0 (drop 1 s)) as [[v k] s'] eqn:E.
  apply readFrac_range in E as [Hk Hv]; [|lia|done].
  intros [= <- <-]. replace NS with (10 ^ Z.of_nat k * 10 ^ Z.of_nat (9 - k)).
  - assert (0 < 10 ^ Z.of_nat (9 - k)) by (apply Z.pow_pos_nonneg; lia). nia.
  - rewrite <- Z.pow_add_r by lia. unfold NS.
    replace (Z.of_nat k + Z.of_nat (9 - k)) with 9 by lia. done.
Qed.

Lemma parseZone_range s z o r : parseZone s = Some (z, o, r) -> -86340 <= o <= 86340.
Proof.
  unfold parseZone, readInt. destruct (_ || _); [intros [= <- <- <-]; lia|].
  destruct (_ || _); [|intros [= <- <- <-]; lia].
  destruct (readInt_loop 2 0 (drop 1 s)) as [[oh s1]|] eqn:E1; [|done].
  apply readInt_nonneg in E1; [|lia]. cbn [mbind option_bind].
  set (s2 := if head_is ":" s1 then drop 1 s1 else s1).
  destruct (match s2 with [] => Some (0, s2) | _ => readInt_loop 2 0 s2 end)
    as [[om s3]|] eqn:E2; [|done].
  assert (0 <= om).
  { destruct s2; [by injection E2 as <- <-|]. apply readInt_nonneg in E2; lia. }
  cbn. destruct (_ || _) eqn:G; [done|]. rewrite orb_false_iff, !Z.ltb_ge in G.
  intros [= <- <- <-]. destruct (head_is "+" s); lia.
Qed.

Lemma parse_fields_range s t f z o :
  parse_fields s = Some (t, f, z, o) ->
  valid_fields (tm_year t) (tm_mon t) (tm_mday t) (tm_hour t) (tm_min t) (tm_sec t) = true /\
  0 <= f < NS /\ -86340 <= o <= 86340.
Proof.
  unfold parse_fields. intros H.
  repeat match type of H with
         | mbind _ ?m = Some _ => destruct m as [?|] eqn:?; cbn [mbind option_bind] in H; [|done]
         | (let '(_, _) := parseFraction ?s in _) = _ => destruct (parseFraction s) eqn:?
         | context [match ?p with (_, _) => _ end] => is_var p; destruct p
         end.
  case_match; [|done]. destruct (valid_fields _ _ _ _ _ _) eqn:Hv; [|done].
  injection H as <- <- <- <-. cbn.
  eauto using parseFraction_range, parseZone_range.
Qed.

Lemma civil_days_bounds y m d :
  1900 <= y -> 1 <= m <= 12 -> 1 <= d <= 31 ->
  365 * y + y / 4 - y / 100 + y / 400 - 719530 <= civil_days y m d
  <= 365 * y + y / 4 - y / 100 + y / 400 - 719160.
Proof.
  intros Hy Hm Hd. unfold civil_days.
  destruct (Z.leb_spec m 2); destruct (Z.ltb_spec 2 m); try lia;
    rewrite (proj2 (Z.leb_le 0 _)) by lia; rewrite Z.quot_div_nonneg by lia;
    Z.to_euclidean_division_equations; lia.
Qed.

Lemma valid_fields_bounds y mo d h mi se :
  valid_fields y mo d h mi se = true ->
  1900 <= y /\ 1 <= mo <= 12 /\ 1 <= d <= 31 /\ 0 <= h <= 23 /\ 0 <= mi <= 59 /\ 0 <= se <= 59.
Proof.
  unfold valid_fields. rewrite negb_true_iff, !orb_false_iff, !Z.ltb_ge.
  intros H. assert (Hd31 : d <= 31); [|lia].
  destruct (Z.eqb_spec mo 2) as [->|]; cbn in H.
  - case_match; lia.
  - pose proof (monthDays_le mo). lia.
Qed.

(** A text with an explicit zone that passes the field checks is a time
    point inside the 64-bit nanosecond range up to year 2261; from year 2263 on
    the nanosecond count overflows the range, although the text is accepted. *)
Theorem explicit_zone_range (mktime : tm -> Z) (s : str) (t : tm) (f o : Z) :
  parse_fields s = Some (t, f, true, o) ->
  (tm_year t <= 2261 -> exists ns, tryParseTimestamp mktime s = Parsed ns /\ int64_range ns) /\
  (2263 <= tm_year t -> exists ns, tryParseTimestamp mktime s = Overflow ns /\ int64_max < ns).
Proof.
  intros H. destruct (parse_fields_range _ _ _ _ _ H) as (Hv & Hf & Ho).
  apply valid_fields_bounds in Hv as (Hy & Hm & Hd & Hh & Hmi & Hse).
  pose proof (civil_days_bounds _ _ _ Hy Hm Hd) as Hcd.
  unfold tryParseTimestamp. rewrite H. unfold to_time_point.
  set (days := civil_days _ _ _) in *.
  set (ns := _ * NS + f).
  assert (Hns : days * 86400 - 86340 <= ns / NS <= days * 86400 + 172740).
  { unfold ns. rewrite Z.add_comm, Z.div_add by (unfold NS; lia).
    rewrite Z.div_small by done. lia. }
  unfold int64_range, int64_min, int64_max, NS in *. split; intros Hyear.
  - assert (days <= 106740) by (Z.to_euclidean_division_equations; lia).
    assert (- 30000 <= days) by (Z.to_euclidean_division_equations; lia).
    exists ns. rewrite !(proj2 (Z.leb_le _ _)) by (Z.to_euclidean_division_equations; lia).
    split; [done|]. Z.to_euclidean_division_equations; lia.
  - assert (106760 <= days) by (Z.to_euclidean_division_equations; lia).
    exists ns. rewrite (proj2 (Z.leb_gt ns _)) by (Z.to_euclidean_division_equations; lia).
    rewrite andb_false_r. split; [done|]. Z.to_euclidean_division_equations; lia.
Qed.

Lemma explicit_zone_range_witness :
  (exists ns, tryParseTimestamp (fun _ => -1) ($"2024-02-29T12:00:00+08:00") = Parsed ns /\
              int64_range ns) /\
  (exists ns, tryParseTimestamp (fun _ => -1) ($"9999-12-31 23:59:59Z") = Overflow ns /\
              int64_max < ns).
Proof.
  split.
  - apply (explicit_zone_range (fun _ => -1) _ (mkTm 2024 2 29 12 0 0) 0 28800);
      [vm_compute; reflexivity|cbn; lia].
  - apply (explicit_zone_range (fun _ => -1) _ (mkTm 9999 12 31 23 59 59) 0 0);
      [vm_compute; reflexivity|cbn; lia].
Defined.
