(* ===== verification/Quoting.v ===== *)
(** * Quoting: identifiers and string literals

    Models [quoteIdent] (include/sqlconduit/common/sql_dialect.h),
    [quoteIdentifier] and the string case of [escapeLiteralGeneric]
    (src/common/types.cpp) and [quoteStringLiteral]
    (include/sqlconduit/util.h), with the reader that undoes them. *)

From S2P Require Import Prelude.

Inductive Dialect : Type := DAuto | DMySQL | DPostgres | DSqlServer | DOracle.

#[export] Instance Dialect_eq_dec : EqDecision Dialect.
Proof. solve_decision. Defined.

Definition dialect_eqb (a b : Dialect) : bool := bool_decide (a = b).

Definition quote_with (q : ascii) (s : str) : str := q :: double_chr q s ++ [q].

(** [quoteStringLiteral] / the [quoteText] lambda of [escapeLiteralGeneric]. *)
Definition quoteStringLiteral (value : str) : str := quote_with QUOTE value.

(** [common::quoteIdentifier]: the whole name as one double-quoted part. *)
Definition quoteIdentifier (ident : str) : str := quote_with DQUOTE ident.

Definition ident_quote (d : Dialect) : ascii := if dialect_eqb d DMySQL then BTICK else DQUOTE.

(** The [flush] lambda of [quoteIdent]. *)
Definition flush_part (q : ascii) (out part : str) : str :=
  match part with
  | [] => out
  | _ => out ++ (match out with [] => [] | _ => ["."%char] end) ++ quote_with q part
  end.

Fixpoint quoteIdent_loop (q : ascii) (identifier out part : str) : str :=
  match identifier with
  | [] => flush_part q out part
  | c :: rest =>
      if c =c "."%char then quoteIdent_loop q rest (flush_part q out part) []
      else quoteIdent_loop q rest out (part ++ [c])
  end.

(** [util::quoteIdent]: every dot-separated part quoted on its own; empty
    parts are dropped. *)
Definition quoteIdent (identifier : str) (d : Dialect) : str :=
  quoteIdent_loop (ident_quote d) identifier [] [].

(** ** Reading quoted text back *)

(** The content of a region quoted by doubling, up to its closing quote. *)
Fixpoint unquote_loop (q : ascii) (s : str) : option (str * str) :=
  match s with
  | [] => None
  | c :: s1 =>
      if c =c q then
        match s1 with
        | [] => Some ([], [])
        | d :: s2 => if d =c q then '(v, r) ← unquote_loop q s2; Some (q :: v, r)
                     else Some ([], s1)
        end
      else '(v, r) ← unquote_loop q s1; Some (c :: v, r)
  end.

Definition unquote (q : ascii) (s : str) : option (str * str) :=
  match s with c :: s' => if c =c q then unquote_loop q s' else None | [] => None end.

(** Dot-separated quoted parts. *)
Fixpoint unquote_parts (fuel : nat) (q : ascii) (s : str) : option (list str) :=
  match fuel with
  | O => None
  | S f =>
      '(p, r) ← unquote q s;
      match r with
      | [] => Some [p]
      | c :: r' => if c =c "."%char then ps ← unquote_parts f q r'; Some (p :: ps) else None
      end
  end.

(** Parts of a dotted name, empty parts included. *)
Fixpoint split_dots_loop (identifier part : str) : list str :=
  match identifier with
  | [] => [part]
  | c :: rest => if c =c "."%char then part :: split_dots_loop rest []
                 else split_dots_loop rest (part ++ [c])
  end.
Definition split_dots (identifier : str) : list str := split_dots_loop identifier [].

(** ** Quoting is injective and reversible *)

Lemma unquote_double q s rest :
  head_is q rest = false -> unquote_loop q (double_chr q s ++ q :: rest) = Some (s, rest).
Proof.
  intros Hr. induction s as [|c s IH]; cbn [double_chr app].
  - cbn. rewrite chr_eqb_refl. destruct rest as [|d r]; [done|]. cbn in Hr. by rewrite Hr.
  - destruct (c =c q) eqn:E; cbn [app unquote_loop].
    + apply chr_eqb_true in E as ->. rewrite !chr_eqb_refl, IH. done.
    + by rewrite E, IH.
Qed.

Lemma unquote_quote q s rest :
  head_is q rest = false -> unquote q (quote_with q s ++ rest) = Some (s, rest).
Proof.
  intros Hr. unfold quote_with, unquote. cbn [app]. rewrite chr_eqb_refl.
  rewrite <- app_assoc. by apply unquote_double.
Qed.

Lemma quote_with_inj q a b : quote_with q a = quote_with q b -> a = b.
Proof.
  intros H. pose proof (unquote_quote q a [] eq_refl) as Ha.
  pose proof (unquote_quote q b [] eq_refl) as Hb. rewrite H in Ha. congruence.
Qed.

Lemma skip_quote_with q s rest :
  BSLASH ∉ s -> q <> BSLASH -> head_is q rest = false ->
  fst (skip_quoted true q (double_chr q s ++ q :: rest)) = S (length (double_chr q s)).
Proof. intros. by rewrite skip_quoted_double. Qed.

Lemma split_dots_loop_ne identifier part : split_dots_loop identifier part <> [].
Proof.
  revert part; induction identifier as [|c r IH]; intros part; cbn; [done|].
  by destruct (c =c "."%char).
Qed.

(** The non-empty parts, each quoted, joined by dots. *)
Lemma quoteIdent_loop_spec q identifier out part :
  quoteIdent_loop q identifier out part =
  fold_left (flush_part q) (split_dots_loop identifier part) out.
Proof.
  revert out part; induction identifier as [|c rest IH]; intros out part; [done|].
  cbn. destruct (c =c "."%char); [apply IH|apply IH].
Qed.

Lemma flush_parts_join q parts out :
  Forall (fun p => p <> []) parts ->
  fold_left (flush_part q) parts out =
  match parts with
  | [] => out
  | _ => out ++ (match out with [] => [] | _ => ["."%char] end) ++
         join ["."%char] (quote_with q <$> parts)
  end.
Proof.
  revert out; induction parts as [|p ps IH]; intros out Hne; [done|].
  apply Forall_cons in Hne as [Hp Hps]. cbn [fold_left]. rewrite IH by done.
  assert (Hfp : flush_part q out p = out ++ (match out with [] => [] | _ => ["."%char] end)
                                     ++ quote_with q p).
  { destruct p; [done|]. done. }
  rewrite Hfp. destruct ps as [|p' ps]; [done|]. cbn [fmap list_fmap join].
  assert (Hnn : out ++ (match out with [] => [] | _ => ["."%char] end) ++ quote_with q p <> [])
    by (destruct out; done).
  destruct (out ++ _ ++ quote_with q p) eqn:E; [done|]. rewrite <- E.
  by rewrite <- !app_assoc.
Qed.

Lemma unquote_parts_join q ps fuel :
  q <> "."%char -> ps <> [] -> length ps <= fuel ->
  unquote_parts fuel q (join ["."%char] (quote_with q <$> ps)) = Some ps.
Proof.
  intros Hq. revert fuel; induction ps as [|p ps IH]; intros fuel Hne Hf; [done|].
  destruct fuel as [|fuel]; [cbn in Hf; lia|]. cbn [unquote_parts].
  destruct ps as [|p' ps].
  - cbn [fmap list_fmap join]. rewrite <- (app_nil_r (quote_with q p)).
    by rewrite unquote_quote.
  - cbn [fmap list_fmap join]. rewrite unquote_quote.
    + cbn [mbind option_bind app]. rewrite chr_eqb_refl.
      change (quote_with q p' :: (quote_with q <$> ps)) with (quote_with q <$> p' :: ps).
      cbn in Hf. rewrite IH; [done|done|cbn; lia].
    + cbn. apply chr_eqb_false. congruence.
Qed.

(** Identifier quoting round-trips: reading the quoted form of a dotted
    name whose parts are non-empty, whatever characters they contain, gives
    back exactly its parts, so no identifier can close its own quotes. *)
Theorem quoteIdent_roundtrip (identifier : str) (d : Dialect) :
  Forall (fun p => p <> []) (split_dots identifier) ->
  unquote_parts (length (split_dots identifier)) (ident_quote d) (quoteIdent identifier d)
  = Some (split_dots identifier).
Proof.
  intros Hne. unfold quoteIdent. rewrite quoteIdent_loop_spec, flush_parts_join by done.
  fold (split_dots identifier). destruct (split_dots identifier) as [|p ps] eqn:E.
  - by apply split_dots_loop_ne in E.
  - cbn [app]. apply unquote_parts_join; [|done|lia]. destruct d; cbn; discriminate.
Qed.

Lemma quoteIdent_roundtrip_witness :
  unquote_parts 2 DQUOTE (quoteIdent (lit "sch" ++ ["."%char; DQUOTE; "t"%char]) DPostgres)
  = Some [lit "sch"; [DQUOTE; "t"%char]].
Proof.
  apply (quoteIdent_roundtrip (lit "sch" ++ ["."%char; DQUOTE; "t"%char]) DPostgres).
  repeat constructor; discriminate.
Defined.
