(* ===== verification/SqlAnalyze.v ===== *)
(** * SqlAnalyze: the lexical SQL analyser

    Models src/common/sql_analyze.cpp: the structural template and its
    fingerprint, the masking of literals and comments, and the statement
    classification and clause detection that the SQL auditor and the router
    rely on.  Every loop over the statement text is a [scan] (see Prelude). *)

From S2P Require Import Prelude Quoting.

(** ** Regions shared by the two lexers *)

(** [while (i < n && s[i] != '\n') ++i;] *)
Definition until_newline (l : str) : nat := span (fun c => negb (c =c LF)) l.

(** A block comment after its "/": the characters up to and including the
    closing "*/", or everything when it is not closed. *)
Definition block_comment (l : str) : nat :=
  match find_sub ($"*/") (drop 1 l) with
  | Some j => 1 + j + 2
  | None => length l
  end.

(** A dollar-quoted region after its first "$": the delimiter and the length
    of the body, when the tag is valid and the delimiter occurs again. *)
Definition dollar_region (l : str) : option (str * nat) :=
  let t := span is_ident l in
  let validTag :=
    head_is "$"%char (drop t l) &&
    ((t =? 0) || negb (match l with c :: _ => isdigit c | [] => false end)) in
  if validTag then
    let delimiter := "$"%char :: take t l ++ ["$"%char] in
    match find_sub delimiter (drop (S t) l) with
    | Some close => Some (delimiter, close)
    | None => None
    end
  else None.

(** Characters consumed after the first "$". *)
Definition dollar_consumed (delimiter : str) (body : nat) : nat :=
  (length delimiter - 1) + body + length delimiter.

Definition is_quote (c : ascii) : bool := (c =c QUOTE) || (c =c DQUOTE) || (c =c BTICK).

(** ** Literal masking *)

Definition blanks (n : nat) : str := replicate n " "%char.

(** The opaque region that starts at [c], as the characters it has after [c]. *)
Definition mask_region (c : ascii) (l : str) : option nat :=
  if (c =c "-"%char) && head_is "-"%char l then Some (until_newline l)
  else if (c =c "/"%char) && head_is "*"%char l then Some (block_comment l)
  else if is_quote c then Some (fst (skip_quoted true c l))
  else if c =c "$"%char then
    match dollar_region l with
    | Some (delimiter, body) => Some (dollar_consumed delimiter body)
    | None => None
    end
  else None.

(** One iteration of [maskLiteralRegions]: a comment, quoted or dollar-quoted
    region is overwritten with blanks, any other character is kept. *)
Definition mask_step (prev : option ascii) (c : ascii) (l out : str) : action str str :=
  match mask_region c l with
  | Some k => Next k (out ++ blanks (S k))
  | None => Next 0 (out ++ [c])
  end.

Definition maskLiteralRegions (sql : str) : str := scan mask_step id sql [].

(** ** The structural template *)

Definition flushSpace (out : str) (pendingSpace : bool) : str :=
  if pendingSpace && negb (bool_decide (out = [])) && negb (bool_decide (last out = Some " "%char))
  then out ++ [" "%char] else out.

Definition FNV_OFFSET : Z := 1469598103934665603.
Definition FNV_PRIME : Z := 1099511628211.

(** FNV-1a on a [std::uint64_t]. *)
Definition fnv_byte (h : Z) (c : ascii) : Z :=
  wrap_u64 (Z.lxor h (Z.of_N (code c)) * FNV_PRIME).
Definition fnv1a (s : str) : Z := fold_left fnv_byte s FNV_OFFSET.

Definition digit_or_us (c : ascii) : bool := isdigit c || (c =c "_"%char).

(** The parts of the numeric literal that starts at [t] (after its sign): the
    fraction with its point, the exponent, the whole decimal literal. *)
Definition frac_len (t : str) : nat :=
  if head_is "."%char t then 1 + span digit_or_us (drop 1 t) else 0.

Definition exp_len (t : str) : nat :=
  if head_is "e"%char t || head_is "E"%char t then
    let sgn := if head_is "+"%char (drop 1 t) || head_is "-"%char (drop 1 t) then 1 else 0 in
    let d := span digit_or_us (drop sgn (drop 1 t)) in
    if 0 <? d then 1 + sgn + d else 0
  else 0.

Definition decimal_len (t : str) : nat :=
  let n1 := span digit_or_us t in
  let n2 := frac_len (drop n1 t) in
  n1 + n2 + exp_len (drop n2 (drop n1 t)).

Definition number_len (t : str) : nat :=
  match t with
  | z :: x :: r =>
      if (z =c "0"%char) && ((x =c "x"%char) || (x =c "X"%char)) then
        2 + span (fun c => isxdigit c || (c =c "_"%char)) r
      else if (z =c "0"%char) && ((x =c "b"%char) || (x =c "B"%char)) then
        2 + span (fun c => (c =c "0"%char) || (c =c "1"%char) || (c =c "_"%char)) r
      else decimal_len t
  | _ => decimal_len t
  end.

Definition head_digit (l : str) : bool := match l with c :: _ => isdigit c | [] => false end.

Definition signed_number (c : ascii) (l : str) : bool :=
  ((c =c "+"%char) || (c =c "-"%char)) &&
  (head_digit l || (head_is "."%char l && head_digit (drop 1 l))).
Definition plain_number (c : ascii) (l : str) : bool :=
  isdigit c || ((c =c "."%char) && head_digit l).
Definition at_boundary (prev : option ascii) : bool :=
  match prev with None => true | Some p => negb (is_ident p) end.

Definition structural_step (prev : option ascii) (c : ascii) (l : str)
    (st : str * bool) : action (str * bool) str :=
  let '(out, pending) := st in
  let skip k := Next k (out, negb (bool_decide (out = []))) in
  let emit k text := Next k (flushSpace out pending ++ text, false) in
  if isspace c then skip 0
  else if (c =c "-"%char) && head_is "-"%char l then skip (until_newline l)
  else if (c =c "/"%char) && head_is "*"%char l then
    let k := block_comment l in
    if head_is "!"%char (drop 1 l) || head_is "+"%char (drop 1 l)
    then emit k (c :: take k l) else skip k
  else
    let other :=
      if c =c QUOTE then emit (fst (skip_quoted true c l)) ($"?")
      else if (c =c DQUOTE) || (c =c BTICK) then
        let k := fst (skip_quoted true c l) in emit k (c :: take k l)
      else if at_boundary prev && (plain_number c l || signed_number c l) then
        let len := if signed_number c l then 1 + number_len l else number_len (c :: l) in
        emit (len - 1) ($"?")
      else emit 0 [c] in
    if c =c "$"%char then
      match dollar_region l with
      | Some (delimiter, body) =>
          let text := take body (drop (length delimiter - 1) l) in
          emit (dollar_consumed delimiter body)
               (delimiter ++ $"<body_hash:" ++ to_string (fnv1a text) ++ $">" ++ delimiter)
      | None => other
      end
    else other.

Definition buildStructural (sql : str) : str := scan structural_step fst sql ([], false).

Definition structuralTemplate (sql : str) : str := buildStructural sql.
Definition fingerprintTemplate (sql : str) : Z := fnv1a (buildStructural sql).

(** ** Keywords *)

Definition right_boundary (t : str) : bool :=
  match t with c :: _ => negb (is_ident c) | [] => true end.

(** [matchWordAt]: the keyword at this position, on word boundaries. *)
Definition match_word (prev : option ascii) (t : str) (kw : str) : bool :=
  (upper (take (length kw) t) =s upper kw) &&
  at_boundary prev && right_boundary (drop (length kw) t).

(** Parenthesis depth of the clause scanners; it never drops below zero. *)
Definition close_paren (depth : Z) : Z := if (0 <? depth)%Z then (depth - 1)%Z else depth.

Definition keyword_step (kw : str) (prev : option ascii) (c : ascii) (l : str) (depth : Z)
    : action Z bool :=
  if c =c "("%char then Next 0 (depth + 1)%Z
  else if c =c ")"%char then Next 0 (close_paren depth)
  else if negb (depth =? 0)%Z then Next 0 depth
  else if match_word prev (c :: l) kw then Stop true
  else Next 0 depth.

Definition containsTopLevelKeyword (masked kw : str) : bool :=
  scan (keyword_step kw) (fun _ => false) masked 0%Z.

Definition verb_stop (c : ascii) : bool :=
  isspace c || (c =c "("%char) || (c =c ";"%char) || (c =c "{"%char).

Definition upperFirstVerb (masked : str) : str :=
  let t := drop (span isspace masked) masked in
  upper (take (span (fun c => negb (verb_stop c)) t) t).

Definition is_write_token (t : str) : bool :=
  (t =s $"INSERT") || (t =s $"UPDATE") || (t =s $"DELETE") || (t =s $"MERGE") || (t =s $"REPLACE").

Definition main_verb_step (prev : option ascii) (c : ascii) (l : str) (st : Z * str)
    : action (Z * str) (option str) :=
  let '(depth, nestedWrite) := st in
  if c =c "("%char then Next 0 ((depth + 1)%Z, nestedWrite)
  else if c =c ")"%char then Next 0 (close_paren depth, nestedWrite)
  else if isalpha c || (c =c "_"%char) then
    let len := span is_ident (c :: l) in
    let token := upper (take len (c :: l)) in
    let write := is_write_token token in
    let nested := if (0 <? depth)%Z && write && bool_decide (nestedWrite = []) then token
                  else nestedWrite in
    if (depth =? 0)%Z && ((token =s $"SELECT") || write) then
      Stop (Some (if bool_decide (nested = []) then token else nested))
    else Next (len - 1) (depth, nested)
  else Next 0 st.

Definition upperMainVerb (masked : str) : str :=
  let first := upperFirstVerb masked in
  if first =s $"WITH" then
    default first (scan main_verb_step (fun _ => None) masked (0%Z, []))
  else first.

(** ** Routine bodies *)

Definition nextNonSpace (t : str) : nat := span isspace t.

Fixpoint eat_any (prev : option ascii) (t : str) (kws : list str) : option nat :=
  match kws with
  | [] => None
  | kw :: kws' => if match_word prev t kw then Some (length kw) else eat_any prev t kws'
  end.

Definition block_terminators : list str :=
  [$"CASE"; $"IF"; $"LOOP"; $"WHILE"; $"REPEAT"; $"TRY"; $"CATCH"].
Definition block_openers : list str := [$"CASE"; $"LOOP"; $"WHILE"; $"REPEAT"].

(** Position of the first BEGIN word. *)
Definition find_begin (s : str) : option nat :=
  scan (fun prev c l (pos : nat) =>
          if match_word prev (c :: l) ($"BEGIN") then Stop (Some pos) else Next 0 (S pos))
       (fun _ => None) s 0.

(** The nesting loop of [maskCompoundBody]; the state is the depth and the
    position, the result the position after the matching END. *)
Definition compound_step (prev : option ascii) (c : ascii) (l : str) (st : Z * nat)
    : action (Z * nat) (option nat) :=
  let '(depth, pos) := st in
  let t := c :: l in
  let advance n d := Next (n - 1) (d, pos + n) in
  if match_word prev t ($"BEGIN") then advance 5 (depth + 1)%Z
  else if match_word prev t ($"END") then
    let sp := nextNonSpace (drop 3 t) in
    let tail := drop (3 + sp) t in
    let n := match tail with
             | [] => 3
             | _ :: _ => match eat_any (prev_after c l (2 + sp)) tail block_terminators with
                         | Some k => 3 + sp + k
                         | None => 3
                         end
             end in
    if (depth - 1 <=? 0)%Z then Stop (Some (pos + n)) else advance n (depth - 1)%Z
  else match eat_any prev t block_openers with
       | Some n => advance n (depth + 1)%Z
       | None =>
           if match_word prev t ($"IF") then
             let tail := drop (2 + nextNonSpace (drop 2 t)) t in
             match tail with
             | [] => advance 2 depth
             | x :: _ => advance 2 (if x =c "("%char then depth else (depth + 1)%Z)
             end
           else advance 1 depth
       end.

Definition maskCompoundBody (s : str) : str :=
  match find_begin s with
  | None => s
  | Some beginPos =>
      match scan_from compound_step (fun _ => None) 0 (last (take beginPos s))
                      (drop beginPos s) (0%Z, beginPos) with
      | None => s
      | Some endPos =>
          if endPos <=? beginPos then s
          else take beginPos s ++ blanks (min endPos (length s) - beginPos) ++ drop endPos s
      end
  end.

(** ** Statement classification *)

Inductive StatementKind : Type :=
| KUnknown | KSelect | KInsert | KUpdate | KDelete | KDdl | KOther.

#[export] Instance StatementKind_eq_dec : EqDecision StatementKind.
Proof. solve_decision. Defined.

Definition verb_in (verb : str) (l : list str) : bool := existsb (str_eqb verb) l.

Definition kind_of_verb (verb : str) : StatementKind :=
  if verb_in verb [$"SELECT"; $"SHOW"; $"EXPLAIN"; $"DESC"; $"DESCRIBE"] then KSelect
  else if verb_in verb [$"INSERT"; $"REPLACE"] then KInsert
  else if verb_in verb [$"UPDATE"] then KUpdate
  else if verb_in verb [$"DELETE"; $"TRUNCATE"] then KDelete
  else if verb_in verb [$"CREATE"; $"ALTER"; $"DROP"; $"RENAME"; $"GRANT"; $"REVOKE"; $"COMMENT"]
       then KDdl
  else KOther.

Definition classifyStatement (sql : str) : StatementKind :=
  kind_of_verb (upperMainVerb (maskLiteralRegions sql)).

Definition isWrite (kind : StatementKind) : bool :=
  match kind with
  | KInsert | KUpdate | KDelete | KDdl | KOther => true
  | KUnknown | KSelect => false
  end.

Definition hasWhereClause (sql : str) : bool :=
  containsTopLevelKeyword (maskLiteralRegions sql) ($"WHERE").
Definition hasLimitClause (sql : str) : bool :=
  containsTopLevelKeyword (maskLiteralRegions sql) ($"LIMIT").

(** FETCH FIRST/NEXT and ROWNUM comparisons at the top level. *)
Definition row_limit_step (prev : option ascii) (c : ascii) (l : str) (depth : Z)
    : action Z bool :=
  if c =c "("%char then Next 0 (depth + 1)%Z
  else if c =c ")"%char then Next 0 (close_paren depth)
  else if negb (depth =? 0)%Z then Next 0 depth
  else if negb (isalpha c) then Next 0 depth
  else if negb (at_boundary prev) then Next 0 depth
  else
    let t := c :: l in
    let p := span is_ident t in
    let word := upper (take p t) in
    let tail := drop p t in
    let rest := drop (span isspace tail) tail in
    if word =s $"FETCH" then
      let next := upper (take (span isalpha rest) rest) in
      if (next =s $"FIRST") || (next =s $"NEXT") then Stop true else Next 0 depth
    else if word =s $"ROWNUM" then
      if head_is "<"%char rest || head_is "="%char rest then Stop true else Next 0 depth
    else Next 0 depth.

Definition hasRowLimitClause (sql : str) : bool :=
  hasLimitClause sql ||
  scan row_limit_step (fun _ => false) (maskLiteralRegions sql) 0%Z.

Definition isRoutineDdl (sql : str) : bool :=
  let masked := maskLiteralRegions sql in
  let verb := upperMainVerb masked in
  ((verb =s $"CREATE") || (verb =s $"ALTER")) &&
  (containsTopLevelKeyword masked ($"PROCEDURE") || containsTopLevelKeyword masked ($"FUNCTION")).

(** The statement-separator loop: state is the depth and whether a top-level
    ";" has been seen. *)
Fixpoint multi_loop (depth : Z) (ended : bool) (t : str) : bool :=
  match t with
  | [] => false
  | ch :: t' =>
      if ch =c "("%char then multi_loop (depth + 1)%Z ended t'
      else if ch =c ")"%char then multi_loop (close_paren depth) ended t'
      else if negb (depth =? 0)%Z then multi_loop depth ended t'
      else if ch =c ";"%char then multi_loop depth true t'
      else if ended && negb (isspace ch) then true
      else multi_loop depth ended t'
  end.

Definition hasMultipleStatements (sql : str) (allowRoutineBody : bool) : bool :=
  let masked := maskLiteralRegions sql in
  let text := if allowRoutineBody && isRoutineDdl sql then maskCompoundBody masked else masked in
  multi_loop 0%Z false text.

(** ** Masking keeps positions *)

Lemma block_comment_le l : head_is "*"%char l = true -> block_comment l <= length l.
Proof.
  intros [t ->]%head_is_true. unfold block_comment.
  destruct (find_sub _ _) as [j|] eqn:E; [|done].
  apply find_sub_Some in E as [_ E]. cbn in E |- *. rewrite ?drop_0 in E. lia.
Qed.

Lemma dollar_consumed_le l d b :
  dollar_region l = Some (d, b) -> dollar_consumed d b <= length l.
Proof.
  unfold dollar_region. set (t := span is_ident l).
  destruct (_ && _) eqn:V; [|done].
  apply andb_prop in V as [[r Hr]%head_is_true _].
  destruct (find_sub _ _) as [k|] eqn:E; [|done]. intros [= <- <-].
  apply find_sub_Some in E as [_ E].
  unfold dollar_consumed. cbn [length] in E |- *.
  rewrite length_app, length_take, length_drop in *. cbn [length] in *.
  assert (t < length l).
  { apply (f_equal length) in Hr. rewrite length_drop in Hr. cbn in Hr. lia. }
  lia.
Qed.

(** Every region the masking step blanks out lies inside the text. *)
Lemma mask_region_le c l k : mask_region c l = Some k -> k <= length l.
Proof.
  unfold mask_region.
  destruct ((c =c "-"%char) && _); [intros [= <-]; apply span_le|].
  destruct ((c =c "/"%char) && _) eqn:E.
  { apply andb_prop in E as [_ E]. intros [= <-]. by apply block_comment_le. }
  destruct (is_quote c); [intros [= <-]; apply skip_quoted_le|].
  destruct (c =c "$"%char); [|done].
  destruct (dollar_region l) as [[d b]|] eqn:D; [|done].
  intros [= <-]. by apply dollar_consumed_le.
Qed.

(** The masking loop only ever appends, so it is a function of what follows. *)
Lemma mask_from prev rest out :
  scan_from mask_step id 0 prev rest out = out ++ maskLiteralRegions rest.
Proof.
  unfold maskLiteralRegions, scan. remember (length rest) as n eqn:Hn.
  revert prev rest out Hn. induction n as [n IH] using lt_wf_ind.
  intros prev rest out ->. destruct rest as [|c l]; [cbn; by rewrite app_nil_r|].
  assert (H : forall k prev out, scan_from mask_step id 0 prev (drop k l) out
                                 = out ++ scan_from mask_step id 0 None (drop k l) []).
  { intros k p o. eapply IH; [|reflexivity]. rewrite length_drop. cbn. lia. }
  rewrite !scan_step. unfold mask_step.
  destruct (mask_region c l) as [k|]; rewrite (H _ _ (out ++ _)), (H _ _ ([] ++ _));
    by rewrite <- app_assoc.
Qed.

Lemma mask_nil : maskLiteralRegions [] = [].
Proof. done. Qed.

Lemma mask_cons c l :
  maskLiteralRegions (c :: l) =
  match mask_region c l with
  | Some k => blanks (S k) ++ maskLiteralRegions (drop k l)
  | None => c :: maskLiteralRegions l
  end.
Proof.
  unfold maskLiteralRegions at 1, scan. rewrite scan_step. unfold mask_step.
  destruct (mask_region c l) as [k|]; by rewrite mask_from, ?drop_0.
Qed.

(** Induction along the masking loop. *)
Lemma mask_ind (P : str -> Prop) :
  P [] ->
  (forall c l k, mask_region c l = Some k -> k <= length l -> P (drop k l) -> P (c :: l)) ->
  (forall c l, mask_region c l = None -> P l -> P (c :: l)) ->
  forall sql, P sql.
Proof.
  intros H0 H1 H2 sql. remember (length sql) as n eqn:Hn. revert sql Hn.
  induction n as [n IH] using lt_wf_ind. intros [|c l] ->; [done|].
  destruct (mask_region c l) as [k|] eqn:E.
  - eapply H1; [done|by eapply mask_region_le|].
    eapply IH; [|reflexivity]. rewrite length_drop. cbn. lia.
  - eapply H2; [done|]. eapply IH; [|reflexivity]. cbn. lia.
Qed.

(** Masking keeps every position: each character of the result is the one
    of the statement or a blank, so offsets computed on the masked text are
    offsets of the statement. *)
Theorem mask_pointwise (sql : str) :
  Forall2 (fun a b => b = a \/ b = " "%char) sql (maskLiteralRegions sql).
Proof.
  induction sql as [|c l k E Hk IH|c l E IH] using mask_ind; [constructor| |];
    rewrite mask_cons, E; [|by constructor; [left|]].
  cbn [blanks replicate app]. constructor; [by right|].
  rewrite <- (take_drop k l) at 1. apply Forall2_app; [|done].
  apply Forall2_replicate_r; [rewrite length_take; lia|]. apply Forall_true. by right.
Qed.

(** ** Top-level positions *)

(** The parenthesis depth the clause scanners have after a prefix. *)
Definition paren_step (d : Z) (c : ascii) : Z :=
  if c =c "("%char then (d + 1)%Z else if c =c ")"%char then close_paren d else d.
Definition depth_after (d : Z) (t : str) : Z := fold_left paren_step t d.

(** A character that makes a second statement: not a parenthesis, not a
    separator, not white space. *)
Definition statement_char (c : ascii) : bool :=
  negb ((c =c "("%char) || (c =c ")"%char) || (c =c ";"%char) || isspace c).

(** The character before offset [i]. *)
Definition prev_at (prev : option ascii) (t : str) (i : nat) : option ascii :=
  match i with O => prev | S i' => t !! i' end.

Lemma exists_nat_split (P : nat -> Prop) : (exists i, P i) <-> P 0 \/ exists i, P (S i).
Proof.
  split; [intros [[|i] H]; eauto|intros [H|[i H]]; eauto].
Qed.

(** An ordinary character before a separator has no effect; after one it
    decides the loop. *)
Lemma multi_loop_spec t d ended :
  multi_loop d ended t = true <->
  exists i c, t !! i = Some c /\ statement_char c = true /\ depth_after d (take i t) = 0%Z /\
    (ended = true \/ exists j, j < i /\ t !! j = Some ";"%char /\ depth_after d (take j t) = 0%Z).
Proof.
  revert d ended; induction t as [|ch t IH]; intros d ended.
  { cbn. split; [done|]. by intros (i & c & H & _). }
  rewrite exists_nat_split. cbn [lookup list_lookup].
  assert (Hsep : forall i,
    (ended = true \/ exists j, j < S i /\ (ch :: t) !! j = Some ";"%char /\
                               depth_after d (take j (ch :: t)) = 0%Z) <->
    ((ended || ((ch =c ";"%char) && (d =? 0)%Z)) = true \/
     exists j, j < i /\ t !! j = Some ";"%char /\ depth_after (paren_step d ch) (take j t) = 0%Z)).
  { intros i. rewrite exists_nat_split, orb_true_iff, andb_true_iff, chr_eqb_true, Z.eqb_eq.
    cbn. setoid_rewrite <- Nat.succ_lt_mono. intuition (eauto with lia; congruence). }
  transitivity (multi_loop (paren_step d ch) (ended || ((ch =c ";"%char) && (d =? 0)%Z)) t = true \/
                (statement_char ch = true /\ d = 0%Z /\ ended = true)).
  - cbn [multi_loop]. unfold paren_step, statement_char.
    destruct (ch =c "("%char) eqn:E1.
    { apply chr_eqb_true in E1 as ->. cbn. rewrite orb_false_r. intuition congruence. }
    destruct (ch =c ")"%char) eqn:E2.
    { apply chr_eqb_true in E2 as ->. cbn. rewrite orb_false_r. intuition congruence. }
    destruct (Z.eqb_spec d 0) as [->|Hd]; cbn.
    + rewrite andb_true_r. destruct (ch =c ";"%char) eqn:E3; cbn.
      { rewrite orb_true_r. intuition congruence. }
      rewrite orb_false_r. destruct ended; cbn; [|intuition congruence].
      destruct (isspace ch); cbn; intuition congruence.
    + rewrite andb_false_r, orb_false_r. intuition congruence.
  - rewrite IH. cbn [take]. setoid_rewrite Hsep. clear Hsep IH. cbn.
    split.
    + intros [(i & c & H)|(H1 & -> & ->)]; [right; eauto|left].
      exists ch. repeat split; eauto.
    + intros [(c & [= <-] & H2 & H3 & H4)|(i & c & H)]; [right|left; eauto].
      repeat split; eauto. destruct H4 as [|(j & ? & _)]; [done|lia].
Qed.

(** [hasMultipleStatements] (without routine bodies) holds exactly when the
    masked text has a top-level ";" and, after it, a top-level character that
    is neither white space, a parenthesis nor another ";". *)
Theorem hasMultipleStatements_spec (sql : str) :
  let m := maskLiteralRegions sql in
  hasMultipleStatements sql false = true <->
  exists j i c, j < i /\ m !! j = Some ";"%char /\ depth_after 0 (take j m) = 0%Z /\
    m !! i = Some c /\ statement_char c = true /\ depth_after 0 (take i m) = 0%Z.
Proof.
  cbn zeta. unfold hasMultipleStatements. rewrite andb_false_l, multi_loop_spec. split.
  - intros (i & c & Hi & Hc & Hd & [|(j & Hj)]); [done|].
    exists j, i, c. tauto.
  - intros (j & i & c & H). exists i, c. repeat split; try tauto.
    right. exists j. tauto.
Qed.

Lemma keyword_scan_spec kw k0 kws prev t d :
  kw = k0 :: kws -> isalpha k0 = true ->
  scan_from (keyword_step kw) (fun _ => false) 0 prev t d = true <->
  exists i, depth_after d (take i t) = 0%Z /\
            match_word (prev_at prev t i) (drop i t) kw = true.
Proof.
  intros -> Hk0.
  assert (Hnil : forall p, match_word p [] (k0 :: kws) = false).
  { intros p. unfold match_word. cbn. by destruct (toupper k0). }
  assert (Hhead : forall p c l, match_word p (c :: l) (k0 :: kws) = true ->
                                toupper c = toupper k0).
  { intros p c l [[H%str_eqb_true _]%andb_prop _]%andb_prop. by injection H. }
  assert (Hpar : forall c, toupper c = toupper k0 -> (c =c "("%char) = false /\ (c =c ")"%char) = false).
  { intros c Hc. split; apply chr_eqb_false; intros ->; revert Hc Hk0; by_char k0. }
  revert prev d; induction t as [|c l IH]; intros prev d.
  { cbn. split; [done|]. intros [i [_ H]]. rewrite drop_nil in H. by rewrite Hnil in H. }
  rewrite exists_nat_split. cbn [take drop prev_at].
  change (depth_after d []) with d.
  cbn [scan_from]. unfold keyword_step at 1.
  assert (Hrest : (exists i, depth_after (paren_step d c) (take i l) = 0%Z /\
                    match_word (prev_at (Some c) l i) (drop i l) (k0 :: kws) = true) <->
                  (exists i, depth_after d (c :: take i l) = 0%Z /\
                    match_word ((c :: l) !! i) (drop i l) (k0 :: kws) = true)).
  { split; intros [i Hi]; exists i; revert Hi; by destruct i. }
  rewrite <- Hrest, <- IH. clear Hrest. unfold paren_step.
  destruct (match_word prev (c :: l) (k0 :: kws)) eqn:M.
  - destruct (Hpar c (Hhead _ _ _ M)) as [-> ->].
    destruct (Z.eqb_spec d 0) as [->|]; cbn [negb]; [intuition congruence|].
    intuition congruence.
  - destruct (c =c "("%char); [intuition congruence|].
    destruct (c =c ")"%char); [intuition congruence|].
    destruct (d =? 0)%Z; cbn [negb]; intuition congruence.
Qed.

(** [hasWhereClause] holds exactly when the word WHERE occurs, in any case
    and on word boundaries, at parenthesis depth zero of the masked text:
    occurrences in literals, comments, quoted identifiers or subqueries do not
    count. *)
Theorem hasWhereClause_spec (sql : str) :
  let m := maskLiteralRegions sql in
  hasWhereClause sql = true <->
  exists i, depth_after 0 (take i m) = 0%Z /\
            match_word (prev_at None m i) (drop i m) ($"WHERE") = true.
Proof. cbn zeta. unfold hasWhereClause, containsTopLevelKeyword, scan. by eapply keyword_scan_spec. Qed.

(** ** The template does not depend on literal contents *)

(** Text in which the template lexer is outside every quoted region and
    comment at the end: no quote, no dollar sign, no comment opener. *)
Definition neutral (pre : str) : bool :=
  forallb (fun c => negb (is_quote c || (c =c "$"%char))) pre &&
  bool_decide (find_sub ($"--") pre = None) && bool_decide (find_sub ($"/*") pre = None).

Lemma span_stop f (p : str) q r : f q = false -> span f (p ++ q :: r) = span f p.
Proof. intros Hq. induction p as [|c p IH]; cbn; [by rewrite Hq|]. by rewrite IH. Qed.

Lemma head_is_stop c (p : str) q r : q <> c -> head_is c (p ++ q :: r) = head_is c p.
Proof. intros Hq. destruct p; cbn; [by apply chr_eqb_false|done]. Qed.

Lemma drop_stop n (p : str) q r : n <= length p -> drop n (p ++ q :: r) = drop n p ++ q :: r.
Proof. intros. by rewrite drop_app_le. Qed.

Lemma frac_len_le t : frac_len t <= length t.
Proof.
  unfold frac_len. destruct (head_is _ t) eqn:E; [|lia]. apply head_is_true in E as [u ->].
  cbn [drop length]. rewrite drop_0. pose proof (span_le digit_or_us u). lia.
Qed.

Lemma exp_len_le t : exp_len t <= length t.
Proof.
  unfold exp_len. destruct t as [|a u]; [done|]. destruct (_ || _); [|lia].
  cbn [drop length]. rewrite !drop_0.
  destruct (head_is "+"%char u || head_is "-"%char u) eqn:F.
  - destruct u as [|b u]; [done|]. cbn [drop length]. rewrite !drop_0.
    pose proof (span_le digit_or_us u). destruct (0 <? _); lia.
  - rewrite !drop_0. pose proof (span_le digit_or_us u). destruct (0 <? _); lia.
Qed.

Lemma frac_len_stop t r : frac_len (t ++ QUOTE :: r) = frac_len t.
Proof.
  unfold frac_len. rewrite head_is_stop by done. destruct (head_is _ t) eqn:E; [|done].
  apply head_is_true in E as [u ->]. cbn [app drop]. rewrite !drop_0. by rewrite span_stop.
Qed.

Lemma exp_len_stop t r : exp_len (t ++ QUOTE :: r) = exp_len t.
Proof.
  unfold exp_len. rewrite !head_is_stop by done. destruct t as [|a u]; [done|].
  destruct (_ || _); [|done]. cbn [app drop]. rewrite !drop_0, !head_is_stop by done.
  destruct (head_is "+"%char u || head_is "-"%char u) eqn:F.
  - destruct u as [|b u]; [done|]. cbn [app drop]. rewrite !drop_0. by rewrite span_stop.
  - rewrite !drop_0. by rewrite span_stop.
Qed.

Lemma decimal_len_le t : decimal_len t <= length t.
Proof.
  unfold decimal_len. pose proof (span_le digit_or_us t).
  pose proof (frac_len_le (drop (span digit_or_us t) t)) as H2.
  pose proof (exp_len_le (drop (frac_len (drop (span digit_or_us t) t))
                               (drop (span digit_or_us t) t))) as H3.
  rewrite !length_drop in *. lia.
Qed.

Lemma decimal_len_stop p r : decimal_len (p ++ QUOTE :: r) = decimal_len p.
Proof.
  unfold decimal_len. rewrite span_stop, drop_stop by (done || apply span_le).
  rewrite frac_len_stop, drop_stop by apply frac_len_le. by rewrite exp_len_stop.
Qed.

Lemma number_len_le t : number_len t <= length t.
Proof.
  unfold number_len. destruct t as [|z [|x r]]; try apply decimal_len_le.
  destruct (_ && _); [cbn; pose proof (span_le (fun c => isxdigit c || (c =c "_")) r); lia|].
  destruct (_ && _); [|apply decimal_len_le].
  cbn. pose proof (span_le (fun c => (c =c "0") || (c =c "1") || (c =c "_")) r). lia.
Qed.

Lemma number_len_stop p r : p <> [] -> number_len (p ++ QUOTE :: r) = number_len p.
Proof.
  intros Hp. unfold number_len. destruct p as [|z [|x u]]; [done| |].
  - cbn [app]. rewrite !andb_false_r. apply (decimal_len_stop [z]).
  - cbn [app]. rewrite !span_stop by done.
    change (z :: x :: u ++ QUOTE :: r) with ((z :: x :: u) ++ QUOTE :: r).
    by rewrite decimal_len_stop.
Qed.

Lemma neutral_cons c p :
  neutral (c :: p) = true ->
  neutral p = true /\ is_quote c = false /\ (c =c "$"%char) = false /\
  ((c =c "-"%char) && head_is "-"%char p) = false /\
  ((c =c "/"%char) && head_is "*"%char p) = false.
Proof.
  unfold neutral. intros [[H1 H2]%andb_prop H3]%andb_prop.
  apply bool_decide_eq_true in H2, H3. cbn [forallb] in H1.
  apply andb_prop in H1 as [Hc%negb_true_iff H1]. apply orb_false_iff in Hc as [-> ->].
  repeat split.
  - rewrite H1. cbn. apply find_sub_None_cons in H2, H3.
    by rewrite !bool_decide_eq_true_2.
  - apply not_true_is_false. intros [->%chr_eqb_true [u ->]%head_is_true]%andb_prop. done.
  - apply not_true_is_false. intros [->%chr_eqb_true [u ->]%head_is_true]%andb_prop. done.
Qed.

Lemma neutral_drop k p : neutral p = true -> neutral (drop k p) = true.
Proof.
  revert p; induction k as [|k IH]; intros [|c p] H; [done..|].
  cbn. apply IH. by apply neutral_cons in H as [H _].
Qed.

Lemma head_digit_stop p r : head_digit (p ++ QUOTE :: r) = head_digit p.
Proof. by destruct p. Qed.

Lemma signed_number_stop c p r : signed_number c (p ++ QUOTE :: r) = signed_number c p.
Proof.
  unfold signed_number. rewrite head_digit_stop, head_is_stop by done. f_equal. f_equal.
  destruct p as [|a p]; [done|]. cbn [app drop]. rewrite !drop_0. by rewrite head_digit_stop.
Qed.

(** Inside neutral text an iteration sees neither the following literal nor
    anything after it, and stops before it. *)
Lemma structural_step_local prev c p r st :
  neutral (c :: p) = true ->
  structural_step prev c (p ++ QUOTE :: r) st = structural_step prev c p st /\
  exists k st', structural_step prev c p st = Next k st' /\ k <= length p.
Proof.
  intros (_ & Hq & Hd & Hc & Hb)%neutral_cons. destruct st as [out pending].
  unfold is_quote in Hq. rewrite !orb_false_iff in Hq. destruct Hq as [[Q1 Q2] Q3].
  unfold structural_step. rewrite !head_is_stop by done. rewrite Hc, Hb, Hd, Q1, Q2, Q3.
  cbn [orb]. unfold plain_number. rewrite head_digit_stop, signed_number_stop.
  change (c :: p ++ QUOTE :: r) with ((c :: p) ++ QUOTE :: r).
  rewrite (number_len_stop (c :: p)) by done.
  destruct (isspace c); [split; [done|]; do 2 eexists; split; [done|lia]|].
  destruct (at_boundary prev && _) eqn:B; [|split; [done|]; do 2 eexists; split; [done|lia]].
  destruct (signed_number c p) eqn:G.
  - assert (p <> []).
    { intros ->. unfold signed_number in G. cbn in G. by rewrite andb_false_r in G. }
    rewrite number_len_stop by done. split; [done|]. do 2 eexists; split; [done|].
    pose proof (number_len_le p). lia.
  - split; [done|]. do 2 eexists; split; [done|].
    pose proof (number_len_le (c :: p)). cbn [length] in *. lia.
Qed.

(** The template lexer reaches the literal in a state that depends on the
    neutral prefix only. *)
Lemma structural_reaches p prev st :
  neutral p = true ->
  exists prev' st', forall r,
    scan_from structural_step fst 0 prev (p ++ QUOTE :: r) st =
    scan_from structural_step fst 0 prev' (QUOTE :: r) st'.
Proof.
  remember (length p) as n eqn:Hn. revert p prev st Hn.
  induction n as [n IH] using lt_wf_ind. intros [|c p] prev st -> Hp; [by exists prev, st|].
  destruct (structural_step_local prev c p [] st Hp) as [_ (k & st1 & Hs & Hk)].
  destruct (IH (length (drop k p))) with (p := drop k p) (prev := prev_after c p k) (st := st1)
    as (prev' & st' & H); [rewrite length_drop; cbn; lia|done| |].
  { apply neutral_drop. by apply neutral_cons in Hp as [Hp _]. }
  exists prev', st'. intros r. cbn [app]. rewrite scan_step.
  destruct (structural_step_local prev c p r st Hp) as [-> _]. rewrite Hs, <- H.
  rewrite drop_stop by done. unfold prev_after. by rewrite take_app_le.
Qed.

Lemma structural_literal v post prev st :
  BSLASH ∉ v -> head_is QUOTE post = false ->
  scan_from structural_step fst 0 prev (quoteStringLiteral v ++ post) st =
  scan_from structural_step fst 0 (Some QUOTE) post (flushSpace (fst st) (snd st) ++ $"?", false).
Proof.
  intros Hv Hpost. destruct st as [out pending]. unfold quoteStringLiteral, quote_with.
  cbn [app fst snd]. rewrite <- app_assoc. cbn [app]. rewrite scan_step.
  unfold structural_step at 1. cbn [isspace].
  change (isspace QUOTE) with false. change (QUOTE =c "-"%char) with false.
  change (QUOTE =c "/"%char) with false. change (QUOTE =c "$"%char) with false.
  change (QUOTE =c QUOTE) with true. cbn [andb].
  rewrite skip_quote_with by (done || discriminate).
  change (double_chr QUOTE v ++ QUOTE :: post) with (double_chr QUOTE v ++ [QUOTE] ++ post).
  rewrite app_assoc, drop_app_length' by (rewrite length_app; cbn; lia).
  unfold prev_after. rewrite take_app_length' by (rewrite length_app; cbn; lia).
  by rewrite app_comm_cons, last_snoc.
Qed.

(** The structural template and the fingerprint of a statement do not
    depend on the contents of a string literal in it: replacing one quoted
    literal by another after a prefix without quotes and comments leaves both
    unchanged. *)
Theorem fingerprint_ignores_literals (pre post v w : str) :
  neutral pre = true -> BSLASH ∉ v -> BSLASH ∉ w -> head_is QUOTE post = false ->
  structuralTemplate (pre ++ quoteStringLiteral v ++ post) =
  structuralTemplate (pre ++ quoteStringLiteral w ++ post) /\
  fingerprintTemplate (pre ++ quoteStringLiteral v ++ post) =
  fingerprintTemplate (pre ++ quoteStringLiteral w ++ post).
Proof.
  intros Hpre Hv Hw Hpost.
  enough (buildStructural (pre ++ quoteStringLiteral v ++ post) =
          buildStructural (pre ++ quoteStringLiteral w ++ post)) as E.
  { unfold structuralTemplate, fingerprintTemplate. by rewrite E. }
  unfold buildStructural, scan.
  destruct (structural_reaches pre None ([], false) Hpre) as (prev & st & H).
  unfold quoteStringLiteral, quote_with. cbn [app]. rewrite !H.
  change (QUOTE :: (double_chr QUOTE v ++ [QUOTE]) ++ post) with (quoteStringLiteral v ++ post).
  change (QUOTE :: (double_chr QUOTE w ++ [QUOTE]) ++ post) with (quoteStringLiteral w ++ post).
  by rewrite !structural_literal.
Qed.

Lemma fingerprint_ignores_literals_witness :
  fingerprintTemplate ($"SELECT id FROM t WHERE a = 'x' AND b > 3") =
  fingerprintTemplate ($"SELECT id FROM t WHERE a = 'it''s; DROP TABLE t --' AND b > 3").
Proof.
  apply (fingerprint_ignores_literals ($"SELECT id FROM t WHERE a = ") ($" AND b > 3")
           ($"x") ($"it's; DROP TABLE t --")); try reflexivity;
    apply not_in_str; reflexivity.
Defined.

(** ** Masking generated text

    [masks_to s m]: wherever [s] is followed by something that does not
    continue a quoted identifier, the masked text is [m] there. *)

Definition head_ok (b : str) : bool := negb (head_is DQUOTE b) && negb (head_is BTICK b).

Definition masks_to (s m : str) : Prop :=
  forall b, head_ok b = true -> maskLiteralRegions (s ++ b) = m ++ maskLiteralRegions b.

Definition plain_chr (c : ascii) : bool :=
  negb (is_quote c || (c =c "$"%char) || (c =c "-"%char) || (c =c "/"%char)).

Lemma mask_plain s b :
  forallb plain_chr s = true -> maskLiteralRegions (s ++ b) = s ++ maskLiteralRegions b.
Proof.
  induction s as [|c s IH]; [done|]. cbn [forallb app]. intros [Hc Hs]%andb_prop.
  rewrite mask_cons. unfold mask_region, plain_chr in *.
  apply negb_true_iff in Hc. rewrite !orb_false_iff in Hc. destruct Hc as [[[-> ->] ->] ->].
  cbn. by rewrite IH.
Qed.

Lemma masks_plain s : forallb plain_chr s = true -> masks_to s s.
Proof. intros H b _. by apply mask_plain. Qed.

Lemma masks_plain_app s t m :
  forallb plain_chr s = true -> masks_to t m -> masks_to (s ++ t) (s ++ m).
Proof.
  intros Hs Ht b Hb. rewrite <- !app_assoc, mask_plain by done. by rewrite Ht.
Qed.

Lemma masks_app s m t n :
  masks_to s m -> masks_to t n -> (forall b, head_ok b = true -> head_ok (t ++ b) = true) ->
  masks_to (s ++ t) (m ++ n).
Proof. intros Hs Ht Hh b Hb. rewrite <- !app_assoc, Hs, Ht by auto. done. Qed.

Lemma mask_quoted q s b :
  is_quote q = true -> BSLASH ∉ s -> head_is q b = false ->
  maskLiteralRegions (quote_with q s ++ b) = blanks (length (quote_with q s)) ++ maskLiteralRegions b.
Proof.
  intros Hq Hs Hb. unfold quote_with. cbn [app]. rewrite mask_cons. unfold mask_region.
  assert (q <> BSLASH) by (intros ->; done).
  assert ((q =c "-"%char) = false /\ (q =c "/"%char) = false) as [-> ->].
  { split; apply chr_eqb_false; intros ->; done. }
  cbn [andb]. rewrite Hq, <- app_assoc. cbn [app]. rewrite skip_quote_with by done.
  change (double_chr q s ++ q :: b) with (double_chr q s ++ [q] ++ b).
  rewrite app_assoc, drop_app_length' by (rewrite length_app; cbn; lia).
  f_equal. f_equal. cbn. rewrite length_app. cbn. lia.
Qed.

(** A masked identifier is blanks and dots. *)
Definition blank_or_dot (c : ascii) : bool := (c =c " "%char) || (c =c "."%char).

Lemma masks_quoted_parts q ps :
  q = DQUOTE \/ q = BTICK -> Forall (fun p => BSLASH ∉ p) ps ->
  exists m, masks_to (join ["."%char] (quote_with q <$> ps)) m /\ forallb blank_or_dot m = true.
Proof.
  intros Hq. assert (Hqq : is_quote q = true) by (by destruct Hq as [->| ->]).
  assert (Hh : forall b, head_ok b = true -> head_is q b = false).
  { intros b [H1%negb_true_iff H2%negb_true_iff]%andb_prop. by destruct Hq as [->| ->]. }
  assert (Hblank : forall n, forallb blank_or_dot (blanks n) = true)
    by (intros n; induction n; done).
  induction ps as [|p ps IH]; intros Hps; [by exists []|].
  apply Forall_cons in Hps as [Hp Hps]. destruct (IH Hps) as (m & Hm & Hd).
  destruct ps as [|p' ps].
  - exists (blanks (length (quote_with q p))). split; [|done].
    intros b Hb. cbn [fmap list_fmap join]. apply mask_quoted; auto.
  - exists (blanks (length (quote_with q p)) ++ "."%char :: m). split.
    + cbn [fmap list_fmap join] in *. intros b Hb. rewrite <- app_assoc.
      rewrite mask_quoted; [|done|done|by destruct Hq as [->| ->]].
      rewrite <- !app_assoc. f_equal. cbn [app]. rewrite mask_cons.
      change (mask_region "."%char _) with (@None nat). cbn. by rewrite Hm.
    + rewrite forallb_app, Hblank. cbn. done.
Qed.

Lemma multi_loop_no_semicolon t d : ";"%char ∉ t -> multi_loop d false t = false.
Proof.
  intros H. apply not_true_is_false. rewrite multi_loop_spec.
  intros (i & c & _ & _ & _ & [|(j & _ & Hj & _)]); [done|].
  apply H. eapply list_elem_of_lookup_2, Hj.
Qed.
