(* ===== verification/NamedParams.v ===== *)
(** * NamedParams: binding named parameters to positional placeholders

    Models src/common/named_params.cpp ([bindNamed]): names are validated,
    the statement is scanned once, text inside quotes, comments and
    dollar-quotes is copied, and every [:name] becomes a "?" whose value is
    appended to the positional parameters. *)

From S2P Require Import Prelude Types SqlAnalyze.

Record BoundQuery : Type := mkBoundQuery {
  bq_status : Status;
  bq_sql : str;
  bq_params : Params
}.

(** The [first] and [next] character classes. *)
Definition name_first (c : ascii) : bool := isalpha c || (c =c "_"%char).
Definition name_next (c : ascii) : bool := name_first c || isdigit c.

Definition bind_fail (message : str) : BoundQuery :=
  mkBoundQuery (status_error QueryError message) [] [].

(** ** Parameter names *)

Definition valid_name (name : str) : bool :=
  match name with
  | [] => false
  | c :: _ => name_first c && forallb name_next name
  end.

(** The [values] map, built in the order the parameters were given; a
    [std::map], so later traversed in key order. *)
Fixpoint collect_values (ps : list (str * Value)) (values : list (str * Value))
    : str + list (str * Value) :=
  match ps with
  | [] => inr values
  | (name, v) :: ps' =>
      if negb (valid_name name) then inl ($"invalid named parameter name")
      else match composite_find name values with
           | Some _ => inl ($"duplicate named parameter: " ++ name)
           | None => collect_values ps' (map_set name v values)
           end
  end.

(** ** Opaque regions *)

(** A nested block comment after its opening "/*": characters consumed and
    whether it was closed. *)
Fixpoint nested_comment (depth : nat) (l : str) : nat * bool :=
  match l with
  | [] => (0, false)
  | c :: l1 =>
      match l1 with
      | [] => (1, false)
      | d :: l2 =>
          if (c =c "/"%char) && (d =c "*"%char) then
            let '(n, b) := nested_comment (S depth) l2 in (2 + n, b)
          else if (c =c "*"%char) && (d =c "/"%char) then
            match depth with
            | S (S _ as depth') => let '(n, b) := nested_comment depth' l2 in (2 + n, b)
            | _ => (2, true)
            end
          else let '(n, b) := nested_comment depth l1 in (S n, b)
      end
  end.

Lemma nested_comment_cons2 depth c d l :
  nested_comment depth (c :: d :: l) =
  if (c =c "/"%char) && (d =c "*"%char) then
    let '(n, b) := nested_comment (S depth) l in (2 + n, b)
  else if (c =c "*"%char) && (d =c "/"%char) then
    match depth with
    | S (S _ as depth') => let '(n, b) := nested_comment depth' l in (2 + n, b)
    | _ => (2, true)
    end
  else let '(n, b) := nested_comment depth (d :: l) in (S n, b).
Proof. reflexivity. Qed.

Lemma nested_comment_le depth l n b : nested_comment depth l = (n, b) -> n <= length l.
Proof.
  revert depth n. induction l as [|c|c d l IH1 IH2] using str_two_ind; intros depth n.
  { by intros [= <- _]. } { by intros [= <- _]. }
  rewrite nested_comment_cons2. destruct ((c =c "/"%char) && (d =c "*"%char)).
  { destruct (nested_comment (S depth) l) as [k b'] eqn:E. intros [= <- ->].
    apply IH1 in E. cbn. lia. }
  destruct ((c =c "*"%char) && (d =c "/"%char)).
  { destruct depth as [|[|depth]]; [intros [= <- _]; cbn; lia|intros [= <- _]; cbn; lia|].
    destruct (nested_comment (S depth) l) as [k b'] eqn:E. intros [= <- ->].
    apply IH1 in E. cbn. lia. }
  destruct (nested_comment depth (d :: l)) as [k b'] eqn:E. intros [= <- ->].
  apply IH2 in E. cbn in *. lia.
Qed.

(** The closing character of an Oracle alternative quote. *)
Definition alt_close (open : ascii) : ascii :=
  if open =c "["%char then "]"%char else if open =c "("%char then ")"%char
  else if open =c "{"%char then "}"%char else if open =c "<"%char then ">"%char else open.

(** [q'x...x'] after its "q": [None] when this is not one, otherwise the
    characters consumed, or [None] again when it is not closed. *)
Definition alt_quote (c : ascii) (l : str) : option (option nat) :=
  if (c =c "q"%char) || (c =c "Q"%char) then
    match l with
    | q :: open :: r =>
        if q =c QUOTE then
          Some (match find_sub [alt_close open; QUOTE] r with
                | Some k => Some (2 + k + 2)
                | None => None
                end)
        else None
    | _ => None
    end
  else None.

Definition bracket_identifier (prev : option ascii) (c : ascii) : bool :=
  (c =c "["%char) &&
  match prev with
  | None => true
  | Some p => negb (name_next p) && negb (p =c ")"%char) && negb (p =c "]"%char)
  end.

Definition at_name_start (prev : option ascii) : bool :=
  match prev with None => true | Some p => negb (name_next p) end.

Definition starts_name (l : str) : bool :=
  match l with d :: _ => name_first d | [] => false end.

(** ** The binding loop *)

Record bind_state : Type := mkBind {
  b_sql : str;
  b_params : Params;
  b_used : list str
}.

Definition copy (st : bind_state) (c : ascii) (l : str) (k : nat) : action bind_state BoundQuery :=
  Next k (mkBind (b_sql st ++ c :: take k l) (b_params st) (b_used st)).

Definition err {S} (message : str) : action S BoundQuery := Stop (bind_fail message).

(** The dollar branch: a dollar-quoted region or a native placeholder. *)
Definition bind_dollar (st : bind_state) (c : ascii) (l : str) : action bind_state BoundQuery :=
  let t := if starts_name l then span name_next l else 0 in
  if head_is "$"%char (drop t l) then
    let tag := c :: take (S t) l in
    match find_sub tag (drop (S t) l) with
    | Some close => copy st c l (S t + close + length tag)
    | None => err ($"unterminated SQL dollar quote")
    end
  else err ($"native positional placeholders are not supported in named queries").

Definition bind_name (values : list (str * Value)) (st : bind_state) (l : str)
    : action bind_state BoundQuery :=
  let n := span name_next l in
  let name := take n l in
  match composite_find name values with
  | None => err ($"missing named parameter: " ++ name)
  | Some v => Next n (mkBind (b_sql st ++ $"?") (b_params st ++ [v]) (name :: b_used st))
  end.

Definition bind_step (values : list (str * Value)) (prev : option ascii) (c : ascii) (l : str)
    (st : bind_state) : action bind_state BoundQuery :=
  if is_quote c || bracket_identifier prev c then
    let close := if c =c "["%char then "]"%char else c in
    let '(n, closed) := skip_quoted (negb (c =c "["%char)) close l in
    if closed then copy st c l n else err ($"unterminated SQL quote in named query")
  else if c =c "#"%char then
    err ($"hash comments/operators are dialect-ambiguous in named queries; use portable SQL")
  else if (c =c "-"%char) && head_is "-"%char l then copy st c l (until_newline l)
  else if (c =c "/"%char) && head_is "*"%char l then
    let '(n, closed) := nested_comment 1 (drop 1 l) in
    if closed then copy st c l (S n) else err ($"unterminated SQL comment in named query")
  else match alt_quote c l with
       | Some (Some n) => copy st c l n
       | Some None => err ($"unterminated Oracle alternative quote")
       | None =>
           if (c =c "$"%char) && at_name_start prev then bind_dollar st c l
           else if (c =c ":"%char) && head_is ":"%char l then copy st c l 1
           else if (c =c ":"%char) && starts_name l
                then bind_name values st l
           else if c =c "?"%char then
             err ($"positional placeholders cannot be mixed with named parameters")
           else if (c =c ":"%char) && head_digit l then
             err ($"native positional placeholders are not supported in named queries")
           else copy st c l 0
       end.

(** After the loop: every given parameter must have been used. *)
Fixpoint first_unused (values : list (str * Value)) (used : list str) : option str :=
  match values with
  | [] => None
  | (n, _) :: vs => if existsb (str_eqb n) used then first_unused vs used else Some n
  end.

Definition bind_finish (values : list (str * Value)) (st : bind_state) : BoundQuery :=
  match first_unused values (b_used st) with
  | Some n => bind_fail ($"unused named parameter: " ++ n)
  | None => mkBoundQuery status_OK (b_sql st) (b_params st)
  end.

Definition bindNamed (sql : str) (params : list (str * Value)) : BoundQuery :=
  match collect_values params [] with
  | inl message => bind_fail message
  | inr values => scan (bind_step values) (bind_finish values) sql (mkBind [] [] [])
  end.

(** ** The lexical grammar

    What the pieces of a statement are, without the scanners: the text of a quoted
    region, of a nested comment and of a delimited literal after their opening, and
    what may stand for itself. *)

(** Up to and with the closing quote; [esc] says whether a backslash escapes. *)
Inductive quoted_tail (q : ascii) (esc : bool) : str -> Prop :=
| qt_close : quoted_tail q esc [q]
| qt_doubled l : quoted_tail q esc l -> quoted_tail q esc (q :: q :: l)
| qt_escaped c l : esc = true -> quoted_tail q esc l -> quoted_tail q esc (BSLASH :: c :: l)
| qt_char c l : c <> q -> (esc = true -> c <> BSLASH) -> quoted_tail q esc l -> quoted_tail q esc (c :: l).

(** Up to and with the mark that closes as many comments as are open. *)
Inductive comment_tail : nat -> str -> Prop :=
| ct_last : comment_tail 1 ["*"; "/"]%char
| ct_close d l : comment_tail (S d) l -> comment_tail (S (S d)) ("*"%char :: "/"%char :: l)
| ct_open d l : comment_tail (S d) l -> comment_tail d ("/"%char :: "*"%char :: l)
| ct_char d c e l : ~ (c = "/"%char /\ e = "*"%char) -> ~ (c = "*"%char /\ e = "/"%char) ->
    comment_tail d (e :: l) -> comment_tail d (c :: e :: l).

(** Up to and with the first occurrence of [delim]. *)
Definition first_up_to (delim text rest : str) : Prop :=
  exists body, text = body ++ delim /\ forall j, j < length body -> starts_with delim (drop j (text ++ rest)) = false.

Inductive token : Type := Text (s : str) | Name (n : str).

Definition token_source (t : token) : str :=
  match t with Text s => s | Name n => ":"%char :: n end.
Definition token_output (t : token) : str :=
  match t with Text s => s | Name _ => $"?" end.
Definition token_name (t : token) : option str :=
  match t with Text _ => None | Name n => Some n end.

(** A character that opens nothing, stands for no parameter and is not refused. *)
Definition ordinary (prev : option ascii) (c : ascii) (rest : str) : Prop :=
  is_quote c = false /\ bracket_identifier prev c = false /\ c <> "#"%char /\ c <> "?"%char /\
  ~ (c = "-"%char /\ head_is "-"%char rest = true) /\ ~ (c = "/"%char /\ head_is "*"%char rest = true) /\
  ~ ((c = "q"%char \/ c = "Q"%char) /\ exists o r, rest = QUOTE :: o :: r) /\
  ~ (c = "$"%char /\ at_name_start prev = true) /\
  ~ (c = ":"%char /\ (head_is ":"%char rest = true \/ starts_name rest = true \/ head_digit rest = true)).

(** The piece that starts after [prev], with [rest] behind it. *)
Inductive lexeme (prev : option ascii) : token -> str -> Prop :=
| lx_quoted c body rest : is_quote c = true -> quoted_tail c true body -> head_is c rest = false ->
    lexeme prev (Text (c :: body)) rest
| lx_bracket body rest : bracket_identifier prev "["%char = true -> quoted_tail "]"%char false body ->
    head_is "]"%char rest = false -> lexeme prev (Text ("["%char :: body)) rest
| lx_line body rest : LF ∉ body -> (rest = [] \/ head_is LF rest = true) ->
    lexeme prev (Text ("-"%char :: "-"%char :: body)) rest
| lx_block body rest : comment_tail 1 body -> lexeme prev (Text ("/"%char :: "*"%char :: body)) rest
| lx_alternative c open body rest : c = "q"%char \/ c = "Q"%char ->
    first_up_to [alt_close open; QUOTE] body rest -> lexeme prev (Text (c :: QUOTE :: open :: body)) rest
| lx_dollar tag body rest : at_name_start prev = true -> tag = [] \/ valid_name tag = true ->
    first_up_to ("$"%char :: tag ++ ["$"%char]) body rest -> lexeme prev (Text ("$"%char :: tag ++ "$"%char :: body)) rest
| lx_cast rest : lexeme prev (Text [":"; ":"]%char) rest
| lx_name n rest : valid_name n = true -> match rest with c :: _ => name_next c = false | [] => True end ->
    lexeme prev (Name n) rest
| lx_char c rest : ordinary prev c rest -> lexeme prev (Text [c]) rest.

(** The whole statement, piece by piece. *)
Inductive reading : option ascii -> str -> list token -> Prop :=
| rd_nil prev : reading prev [] []
| rd_piece prev t rest toks : lexeme prev t rest -> reading (last (token_source t)) rest toks ->
    reading prev (token_source t ++ rest) (t :: toks).

(** ** The scanners read the grammar *)

Lemma skip_quoted_tail esc q l n : q <> BSLASH ->
  skip_quoted esc q l = (n, true) -> quoted_tail q esc (take n l) /\ head_is q (drop n l) = false.
Proof.
  intros Hq. revert n. induction l as [|c|c d l IH1 IH2] using str_two_ind; intros n; [done| |].
  - cbn. destruct (c =c q) eqn:E; [|done]. apply chr_eqb_true in E as ->. intros [= <-]. split; [constructor|done].
  - rewrite skip_quoted_cons2. destruct (esc && (c =c BSLASH)) eqn:Eb.
    { apply andb_prop in Eb as [-> ->%chr_eqb_true]. destruct (skip_quoted true q l) as [k b]. intros [= <- ->].
      destruct (IH1 k eq_refl). by split; [apply qt_escaped|]. }
    destruct (c =c q) eqn:E.
    + apply chr_eqb_true in E as ->. destruct (d =c q) eqn:Ed.
      * apply chr_eqb_true in Ed as ->. destruct (skip_quoted esc q l) as [k b]. intros [= <- ->].
        destruct (IH1 k eq_refl). by split; [apply qt_doubled|].
      * intros [= <-]. cbn. split; [constructor|done].
    + destruct (skip_quoted esc q (d :: l)) as [k b]. intros [= <- ->]. destruct (IH2 k eq_refl). split; [|done].
      cbn [take]. apply qt_char; [by apply chr_eqb_false| |done]. intros ->. cbn in Eb. by apply chr_eqb_false.
Qed.

Lemma nested_comment_tail d l n : nested_comment (S d) l = (n, true) -> comment_tail (S d) (take n l).
Proof.
  revert d n. induction l as [|c|c e l IH1 IH2] using str_two_ind; intros d n; [done|done|].
  rewrite nested_comment_cons2. destruct ((c =c "/"%char) && (e =c "*"%char)) eqn:Eo.
  { apply andb_prop in Eo as [->%chr_eqb_true ->%chr_eqb_true].
    destruct (nested_comment (S (S d)) l) as [k b] eqn:E. intros [= <- ->]. apply ct_open. by apply IH1. }
  destruct ((c =c "*"%char) && (e =c "/"%char)) eqn:Ec.
  { apply andb_prop in Ec as [->%chr_eqb_true ->%chr_eqb_true]. destruct d as [|d]; [intros [= <-]; apply ct_last|].
    destruct (nested_comment (S d) l) as [k b] eqn:E. intros [= <- ->]. apply ct_close. by apply IH1. }
  destruct (nested_comment (S d) (e :: l)) as [k b] eqn:E. intros [= <- ->]. cbn [take].
  assert (Hk : comment_tail (S d) (take k (e :: l))) by (by apply IH2).
  destruct k as [|k]; [inversion Hk|]. cbn [take] in *. apply ct_char; [| |done].
  - intros [-> ->]. by rewrite !chr_eqb_refl in Eo.
  - intros [-> ->]. by rewrite !chr_eqb_refl in Ec.
Qed.

Lemma find_sub_none_before p s k : find_sub p s = Some k -> forall j, j < k -> starts_with p (drop j s) = false.
Proof.
  revert k. induction s as [|a s IH]; intros k; [destruct p; [|done]; intros [= <-]; lia|].
  cbn [find_sub]. destruct (starts_with p (a :: s)) eqn:E; [intros [= <-]; lia|].
  intros (k' & Hk' & ->)%fmap_Some j Hj. destruct j as [|j]; [done|]. cbn. apply (IH k'); [done|lia].
Qed.

Lemma find_sub_up_to p s k : find_sub p s = Some k -> first_up_to p (take (k + length p) s) (drop (k + length p) s).
Proof.
  intros H. exists (take k s). destruct (find_sub_Some p s k H) as [[t Ht]%starts_with_spec Hl]. split.
  - rewrite <- (take_drop k s) at 1. rewrite Ht, take_app_ge, length_take by (rewrite length_take; lia).
    replace (k + length p - k `min` length s) with (length p) by lia. by rewrite take_app_length.
  - intros j Hj. rewrite length_take in Hj. rewrite take_drop. apply (find_sub_none_before p s k H). lia.
Qed.

Lemma span_rest f s : forallb f (take (span f s) s) = true /\ match drop (span f s) s with c :: _ => f c = false | [] => True end.
Proof. induction s as [|c s [H1 H2]]; [done|]. cbn. destruct (f c) eqn:E; cbn; [by rewrite E|done]. Qed.

Lemma take_span_valid l :
  starts_name l = true ->
  valid_name (take (span name_next l) l) = true.
Proof.
  destruct l as [|d l]; [done|]. cbn [starts_name]. intros Hd. destruct (span_rest name_next (d :: l)) as [Hall _].
  assert (Hn : name_next d = true) by (unfold name_next; by rewrite Hd).
  cbn [span] in *. rewrite Hn in *. cbn [take] in *. unfold valid_name. by rewrite Hd.
Qed.

(** ** The [values] map *)

Lemma collect_values_find ps vs vs' :
  collect_values ps vs = inr vs' ->
  forall n, composite_find n vs' =
            match composite_find n vs with Some v => Some v | None => composite_find n ps end.
Proof.
  revert vs; induction ps as [|[k v] ps IH]; intros vs; cbn [collect_values].
  { intros [= <-] n. by destruct (composite_find n vs). }
  destruct (valid_name k); [|done]. cbn [negb].
  destruct (composite_find k vs) eqn:E; [done|]. intros H n.
  rewrite (IH _ H), find_map_set. cbn. unfold str_eqb.
  repeat case_bool_decide; subst; rewrite ?E; congruence || done.
Qed.

Lemma composite_find_elem n d : is_Some (composite_find n d) <-> n ∈ d.*1.
Proof.
  induction d as [|[k v] d IH]; cbn; [by split; [intros [? ?]|inversion 1]|].
  unfold str_eqb. case_bool_decide as E; subst; [split; [left|eauto]|].
  rewrite IH, elem_of_cons. intuition congruence.
Qed.

Lemma first_unused_None vs used n :
  first_unused vs used = None -> n ∈ vs.*1 -> n ∈ used.
Proof.
  induction vs as [|[k v] vs IH]; cbn; [by inversion 2|].
  destruct (existsb _ _) eqn:E; [|done]. intros H [->|Hn]%elem_of_cons; [|auto].
  apply existsb_exists in E as (x & Hx & ->%str_eqb_true). by apply list_elem_of_In.
Qed.

(** ** One iteration of the binding loop *)

(** A turn fails, copies the piece of text it is at, or binds the name it is at. *)
Definition turn_ok (values : list (str * Value)) (prev : option ascii) (c : ascii) (l : str) (st : bind_state)
    (a : action bind_state BoundQuery) : Prop :=
  match a with
  | Stop r => exists m, r = bind_fail m
  | Next k st' =>
      (lexeme prev (Text (c :: take k l)) (drop k l) /\
       st' = mkBind (b_sql st ++ c :: take k l) (b_params st) (b_used st)) \/
      (c = ":"%char /\ lexeme prev (Name (take k l)) (drop k l) /\
       exists v, composite_find (take k l) values = Some v /\
         st' = mkBind (b_sql st ++ $"?") (b_params st ++ [v]) (take k l :: b_used st))
  end.

Lemma copy_ok values prev c l st k :
  lexeme prev (Text (c :: take k l)) (drop k l) -> turn_ok values prev c l st (copy st c l k).
Proof. intros H. by left. Qed.

Lemma err_ok values prev c l st m : turn_ok values prev c l st (err m).
Proof. by exists m. Qed.

#[local] Hint Resolve copy_ok err_ok : sqlc.

Lemma bind_dollar_ok values prev st l :
  at_name_start prev = true -> turn_ok values prev "$"%char l st (bind_dollar st "$"%char l).
Proof.
  intros Hp. unfold bind_dollar. set (t := if starts_name l then _ else 0).
  destruct (head_is "$"%char (drop t l)) eqn:Eh; [|apply err_ok].
  destruct (find_sub _ _) as [k|] eqn:Ek; [|apply err_ok]. apply copy_ok.
  apply head_is_true in Eh as [r Er]. assert (Es : drop (S t) l = r) by (replace (S t) with (t + 1) by lia; by rewrite <- drop_drop, Er).
  assert (Et : take (S t) l = take t l ++ ["$"%char]).
  { rewrite <- (take_drop t l) at 1. assert (Hlen : length (take t l) = t).
    { rewrite length_take. assert (t < length l); [|lia]. apply not_ge. intros Hge. by rewrite drop_ge in Er by lia. }
    rewrite take_app_ge by lia. rewrite Hlen, Er. replace (S t - t) with 1 by lia. done. }
  rewrite Et in Ek. rewrite Es in Ek. apply find_sub_up_to in Ek as Hu. set (tag := "$"%char :: take t l ++ ["$"%char]) in *.
  assert (El : l = take t l ++ "$"%char :: r) by (by rewrite <- Er, take_drop).
  set (n := k + length tag) in *.
  assert (E1 : take (S t + k + length ("$"%char :: take (S t) l)) l = take t l ++ "$"%char :: take n r /\
               drop (S t + k + length ("$"%char :: take (S t) l)) l = drop n r).
  { rewrite Et. fold tag. replace (S t + k + length tag) with (S t + n) by lia. split.
    - rewrite <- (take_drop (S t) l) at 1. rewrite take_app_ge, Es, Et by (rewrite length_take; lia).
      assert (length (take t l ++ ["$"%char]) = S t) as ->.
      { rewrite <- Et, length_take. assert (t < length l); [|lia].
        apply not_ge. intros Hge. by rewrite drop_ge in Er by lia. }
      replace (S t + n - S t) with n by lia. by rewrite <- app_assoc.
    - by rewrite <- drop_drop, Es. }
  destruct E1 as [-> ->]. apply lx_dollar; [done| |done].
  unfold t. destruct (starts_name l) eqn:En; [right; by apply take_span_valid|by left].
Qed.

Lemma alt_quote_ok prev c l n : alt_quote c l = Some (Some n) -> lexeme prev (Text (c :: take n l)) (drop n l).
Proof.
  unfold alt_quote. destruct ((c =c "q"%char) || (c =c "Q"%char)) eqn:Ec; [|done].
  destruct l as [|q [|o r]]; try done. destruct (q =c QUOTE) eqn:Eq; [|done]. apply chr_eqb_true in Eq as ->.
  destruct (find_sub [alt_close o; QUOTE] r) as [k|] eqn:Ek; [|done]. intros [= <-].
  apply find_sub_up_to in Ek. cbn [Nat.add take drop]. replace (k + 2) with (k + length [alt_close o; QUOTE]) by done.
  apply lx_alternative; [|done]. apply orb_true_iff in Ec as [->%chr_eqb_true | ->%chr_eqb_true]; auto.
Qed.

Lemma quote_ok values prev c l st :
  is_quote c || bracket_identifier prev c = true ->
  turn_ok values prev c l st
    (let close := if c =c "["%char then "]"%char else c in
     let '(n, closed) := skip_quoted (negb (c =c "["%char)) close l in
     if closed then copy st c l n else err ($"unterminated SQL quote in named query")).
Proof.
  intros H. cbv zeta. destruct (skip_quoted _ _ l) as [n []] eqn:E; [|apply err_ok]. apply copy_ok.
  destruct (c =c "["%char) eqn:Eb; cbn [negb] in E.
  - apply chr_eqb_true in Eb as ->. apply skip_quoted_tail in E as [? ?]; [|done]. by apply lx_bracket.
  - assert (Hq : is_quote c = true) by (unfold bracket_identifier in H; rewrite Eb in H; by rewrite orb_false_r in H).
    apply skip_quoted_tail in E as [? ?]; [by apply lx_quoted|]. intros ->. done.
Qed.

Lemma line_ok values prev l st : head_is "-"%char l = true -> turn_ok values prev "-"%char l st (copy st "-"%char l (until_newline l)).
Proof.
  intros [r ->]%head_is_true. apply copy_ok. unfold until_newline. cbn [span]. change (negb ("-"%char =c LF)) with true. cbn [take drop].
  destruct (span_rest (fun c => negb (c =c LF)) r) as [H1 H2]. apply lx_line.
  - intros Hin. rewrite forallb_forall in H1. specialize (H1 LF (proj1 (list_elem_of_In _ _) Hin)). by rewrite chr_eqb_refl in H1.
  - destruct (drop _ r) as [|d r']; [by left|right]. cbn. by apply negb_false_iff in H2.
Qed.

Lemma bind_step_ok values prev c l st : turn_ok values prev c l st (bind_step values prev c l st).
Proof.
  unfold bind_step. destruct (is_quote c || bracket_identifier prev c) eqn:Eq; [by apply quote_ok|].
  apply orb_false_iff in Eq as [Eq Ebr]. destruct (c =c "#"%char) eqn:E0; [apply err_ok|]. apply chr_eqb_false in E0.
  destruct ((c =c "-"%char) && _) eqn:E1.
  { apply andb_prop in E1 as [->%chr_eqb_true ?]. by apply line_ok. }
  destruct ((c =c "/"%char) && _) eqn:E2.
  { apply andb_prop in E2 as [->%chr_eqb_true [r ->]%head_is_true].
    change (drop 1 ("*"%char :: r)) with r. destruct (nested_comment 1 r) as [n []] eqn:En; [|apply err_ok]. apply copy_ok. cbn [take drop].
    apply lx_block. by apply nested_comment_tail. }
  destruct (alt_quote c l) as [[n|]|] eqn:E3; [by apply copy_ok, alt_quote_ok|apply err_ok|].
  destruct ((c =c "$"%char) && _) eqn:E4.
  { apply andb_prop in E4 as [->%chr_eqb_true ?]. by apply bind_dollar_ok. }
  destruct ((c =c ":"%char) && head_is _ _) eqn:E5.
  { apply andb_prop in E5 as [->%chr_eqb_true [r ->]%head_is_true]. apply copy_ok. apply lx_cast. }
  destruct ((c =c ":"%char) && starts_name l) eqn:E6.
  { apply andb_prop in E6 as [->%chr_eqb_true Hd]. unfold bind_name.
    destruct (composite_find _ values) as [v|] eqn:Ev; [|apply err_ok].
    right. split; [done|]. split; [|eauto]. apply lx_name; [by apply take_span_valid|apply span_rest]. }
  destruct (c =c "?"%char) eqn:E7; [apply err_ok|]. apply chr_eqb_false in E7.
  destruct ((c =c ":"%char) && head_digit l) eqn:E8; [apply err_ok|]. apply copy_ok, lx_char.
  assert (Ha : forall (x : ascii) b, (c =c x) && b = false -> ~ (c = x /\ b = true)) by (intros x b Hx [-> ->]; by rewrite chr_eqb_refl in Hx).
  rewrite drop_0. split_and!; auto.
  - intros [Hc (o & r & ->)]. unfold alt_quote in E3. destruct Hc as [-> | ->]; by destruct (find_sub _ r).
  - intros [-> [H|[H|H]]]; [by rewrite H in E5|by rewrite H in E6|by rewrite H in E8].
Qed.

(** The loop from any point on. *)
Lemma bind_scan values rest : forall prev st,
  let q := scan_from (bind_step values) (bind_finish values) 0 prev rest st in
  if status_ok (bq_status q) then
    exists toks ps, reading prev rest toks /\ bq_sql q = b_sql st ++ concat (token_output <$> toks) /\
      bq_params q = b_params st ++ ps /\ Forall2 (fun n v => composite_find n values = Some v) (omap token_name toks) ps /\
      forall n, n ∈ values.*1 -> n ∈ b_used st \/ n ∈ omap token_name toks
  else bq_sql q = [] /\ bq_params q = [].
Proof.
  cbv zeta. remember (length rest) as m eqn:Hm. revert rest Hm. induction m as [m IH] using lt_wf_ind. intros [|c l] -> prev st.
  - cbn. unfold bind_finish. destruct (first_unused values (b_used st)) eqn:Ef; [done|]. cbn.
    exists [], []. cbn. rewrite !app_nil_r. split_and!; [constructor|done|done|constructor|]. intros n Hn. left. by eapply first_unused_None.
  - rewrite scan_step. pose proof (bind_step_ok values prev c l st) as Hs.
    destruct (bind_step values prev c l st) as [r|k st']; [by destruct Hs as [m ->]|].
    specialize (IH (length (drop k l)) ltac:(rewrite length_drop; cbn; lia) (drop k l) eq_refl (prev_after c l k) st').
    destruct (status_ok _); [|done]. destruct IH as (toks & ps & Hr & H1 & H2 & H3 & H4).
    destruct Hs as [[Hl ->]|(-> & Hl & v & Hv & ->)]; cbn [b_sql b_params b_used] in *.
    + exists (Text (c :: take k l) :: toks), ps. rewrite H1, H2, <- !app_assoc. split_and!; try done.
      rewrite <- (take_drop k l) at 1. by apply (rd_piece prev (Text (c :: take k l))).
    + exists (Name (take k l) :: toks), (v :: ps). rewrite H1, H2, <- !app_assoc. split_and!; try done.
      * rewrite <- (take_drop k l) at 1. by apply (rd_piece prev (Name (take k l))).
      * cbn. by constructor.
      * intros n Hn. cbn. rewrite elem_of_cons. destruct (H4 n Hn) as [[->|Hn']%elem_of_cons|Hn']; auto.
Qed.

(** C23. Binding is all or nothing.  A successful [bindNamed] is a reading of the whole
    statement by the lexical grammar: quoted text, bracketed identifiers, comments,
    alternative and dollar quotes are pieces of text, a name stands only where no such
    piece is, and no other character opens one or is a positional placeholder.  The
    bound SQL is that reading with "?" for every name, the positional values are the
    named values in order of occurrence, every name that occurs is given and every given
    name occurs.  A failed one returns neither SQL nor parameters. *)
Theorem bindNamed_correct (sql : str) (params : list (str * Value)) :
  let q := bindNamed sql params in
  if status_ok (bq_status q) then
    exists toks,
      reading None sql toks /\
      bq_sql q = concat (token_output <$> toks) /\
      Forall2 (fun n v => composite_find n params = Some v) (omap token_name toks) (bq_params q) /\
      (forall n, n ∈ params.*1 <-> n ∈ omap token_name toks)
  else bq_sql q = [] /\ bq_params q = [].
Proof.
  cbn zeta. unfold bindNamed.
  destruct (collect_values params []) as [m|values] eqn:Ec; [done|].
  pose proof (collect_values_find _ _ _ Ec) as Hfind. cbn in Hfind.
  pose proof (bind_scan values sql None (mkBind [] [] [])) as H. unfold scan. cbv zeta in H. destruct (status_ok _); [|done].
  destruct H as (toks & ps & Hr & H1 & H2 & H3 & H4). cbn in H1, H2. exists toks. rewrite H1, H2. split_and!; [done|done| |].
  - eapply Forall2_impl; [exact H3|]. intros n v Hn. by rewrite <- Hfind.
  - intros n. split.
    + intros Hn. destruct (H4 n) as [Hn'|]; [|by apply elem_of_nil in Hn'|done]. apply composite_find_elem. rewrite Hfind. by apply composite_find_elem.
    + intros [i Hi]%list_elem_of_lookup. apply composite_find_elem.
      destruct (Forall2_lookup_l _ _ _ _ _ H3 Hi) as (v & _ & Hv). rewrite <- Hfind. by exists v.
Qed.
