(* ===== verification/SqlBuilder.v ===== *)
(** * SqlBuilder: structured SELECT/INSERT/UPDATE/DELETE construction

    Models include/sqlconduit/sql_builder.h and src/common/sql_builder.cpp:
    conditions, the builder's state and its fluent setters, [build] and
    [buildPage].  Rendering appends to an output string and to the parameter
    vector, as the code does, so a failing call leaves what it had appended. *)

From S2P Require Import Prelude Types Quoting SqlAnalyze.

(** ** Data *)

Inductive Operation : Type := OpSelect | OpInsert | OpUpdate | OpDelete.

Inductive CompareOperator : Type :=
| Equal | NotEqual | Less | LessOrEqual | Greater | GreaterOrEqual | Like.

#[export] Instance CompareOperator_eq_dec : EqDecision CompareOperator.
Proof. solve_decision. Defined.

Inductive SortDirection : Type := Ascending | Descending.

Record Statement : Type := mkStatement { st_sql : str; st_params : Params }.
Record BuildResult : Type := mkBuildResult { br_status : Status; br_statement : Statement }.

Record PageQuery : Type := mkPageQuery {
  pq_status : Status;
  pq_statement : Statement;
  pq_countQuery : option Statement;
  pq_dialect : Dialect
}.

Inductive Kind : Type :=
| KindInvalid | KindCompare | KindIn | KindNotIn | KindBetween | KindIsNull | KindIsNotNull
| KindAll | KindAny | KindNot.

#[warnings="-register-all"]
Inductive Condition : Type := mkCondition {
  kind : Kind;
  field : str;
  compareOperator : CompareOperator;
  values : Params;
  children : list Condition
}.

(** The factories; the default condition is [KindInvalid]. *)
Definition cond_compare (f : str) (op : CompareOperator) (v : Value) : Condition :=
  mkCondition KindCompare f op [v] [].
Definition cond_in (f : str) (vs : Params) : Condition := mkCondition KindIn f Equal vs [].
Definition cond_notIn (f : str) (vs : Params) : Condition := mkCondition KindNotIn f Equal vs [].
Definition cond_between (f : str) (lower upper : Value) : Condition :=
  mkCondition KindBetween f Equal [lower; upper] [].
Definition cond_isNull (f : str) : Condition := mkCondition KindIsNull f Equal [] [].
Definition cond_isNotNull (f : str) : Condition := mkCondition KindIsNotNull f Equal [] [].
Definition cond_all (cs : list Condition) : Condition := mkCondition KindAll [] Equal [] cs.
Definition cond_any (cs : list Condition) : Condition := mkCondition KindAny [] Equal [] cs.
Definition cond_negate (c : Condition) : Condition := mkCondition KindNot [] Equal [] [c].

(** ** Validation *)

Definition builder_error (message : str) : Status :=
  status_error QueryError ($"sql builder: " ++ message).

Definition part_ok (part : str) : bool :=
  negb (bool_decide (part = [])) && negb (part =s $"*") &&
  forallb (fun c => (32 <=? code c)%N) part.

(** The part loop; it is not entered once [begin] has reached the end. *)
Fixpoint parts_loop (s part : str) : bool :=
  match s with
  | [] => match part with [] => true | _ => part_ok part end
  | c :: s' => if c =c "."%char then part_ok part && parts_loop s' []
               else parts_loop s' (part ++ [c])
  end.

Definition validIdentifier (identifier : str) : bool :=
  negb (bool_decide (identifier = [])) && negb (existsb (chr_eqb NUL) identifier) &&
  parts_loop identifier [] && negb (bool_decide (last identifier = Some "."%char)).

(** Every enumerator is a valid identifier dialect. *)
Definition validDialect (d : Dialect) : bool :=
  dialect_eqb d DAuto || dialect_eqb d DMySQL || dialect_eqb d DPostgres ||
  dialect_eqb d DSqlServer || dialect_eqb d DOracle.

Definition compareText (op : CompareOperator) : str :=
  match op with
  | Equal => $"=" | NotEqual => $"<>" | Less => $"<" | LessOrEqual => $"<="
  | Greater => $">" | GreaterOrEqual => $">=" | Like => $"LIKE"
  end.

(** ** Rendering conditions *)

(** What a rendering call leaves behind: its status, the parameters and the
    text. *)
Definition rendered : Type := Status * Params * str.

Definition placeholders (n : nat) : str := join ($", ") (replicate n ($"?")).

(** The comparison case, after the field check. *)
Definition render_compare (f : str) (op : CompareOperator) (vs : Params) (d : Dialect)
    (params : Params) (out : str) : rendered :=
  match vs with
  | [v] =>
      if isNull v then
        match op with
        | Equal => (status_OK, params, out ++ quoteIdent f d ++ $" IS NULL")
        | NotEqual => (status_OK, params, out ++ quoteIdent f d ++ $" IS NOT NULL")
        | _ => (builder_error ($"NULL supports only equality and inequality comparisons"),
                params, out)
        end
      else match compareText op with
           | [] => (builder_error ($"unknown comparison operator"), params, out)
           | text => (status_OK, params ++ [v],
                      out ++ quoteIdent f d ++ $" " ++ text ++ $" ?")
           end
  | _ => (builder_error ($"comparison requires exactly one value"), params, out)
  end.

Definition render_in (negate : bool) (f : str) (vs : Params) (d : Dialect)
    (params : Params) (out : str) : rendered :=
  match vs with
  | [] => (status_OK, params, out ++ (if negate then $"1 = 1" else $"1 = 0"))
  | _ => (status_OK, params ++ vs,
          out ++ quoteIdent f d ++ (if negate then $" NOT IN (" else $" IN (") ++
          placeholders (length vs) ++ $")")
  end.

Definition render_between (f : str) (vs : Params) (d : Dialect) (params : Params) (out : str)
    : rendered :=
  match vs with
  | [a; b] =>
      if isNull a || isNull b
      then (builder_error ($"BETWEEN requires two non-NULL values"), params, out)
      else (status_OK, params ++ [a; b], out ++ quoteIdent f d ++ $" BETWEEN ? AND ?")
  | _ => (builder_error ($"BETWEEN requires two non-NULL values"), params, out)
  end.

Definition with_field (f : str) (params : Params) (out : str) (k : rendered) : rendered :=
  if validIdentifier f then k
  else (builder_error ($"condition field is empty or invalid"), params, out).

(** The child loop of a group, over the recursive call [render]. *)
Definition group_with (render : Condition -> Params -> str -> rendered) (sep : str) :=
  fix group (first : bool) (cs : list Condition) (params : Params) (out : str) : rendered :=
    match cs with
    | [] => (status_OK, params, out)
    | c' :: cs' =>
        match render c' params (out ++ (if first then [] else sep)) with
        | (st, params', out') =>
            if status_ok st then group false cs' params' out' else (st, params', out')
        end
    end.

Fixpoint renderCondition (c : Condition) (d : Dialect) (params : Params) (out : str)
    (nested : bool) {struct c} : rendered :=
  let '(mkCondition k f op vs cs) := c in
  let render_group sep :=
    match cs with
    | [] => (builder_error ($"condition group cannot be empty"), params, out)
    | _ => match group_with (fun c' p o => renderCondition c' d p o true) sep true cs params
                           (out ++ (if nested then $"(" else [])) with
           | (st, params', out') =>
               if status_ok st then (status_OK, params', out' ++ (if nested then $")" else []))
               else (st, params', out')
           end
    end in
  match k with
  | KindCompare => with_field f params out (render_compare f op vs d params out)
  | KindIn => with_field f params out (render_in false f vs d params out)
  | KindNotIn => with_field f params out (render_in true f vs d params out)
  | KindBetween => with_field f params out (render_between f vs d params out)
  | KindIsNull => with_field f params out (status_OK, params, out ++ quoteIdent f d ++ $" IS NULL")
  | KindIsNotNull =>
      with_field f params out (status_OK, params, out ++ quoteIdent f d ++ $" IS NOT NULL")
  | KindAll => render_group ($" AND ")
  | KindAny => render_group ($" OR ")
  | KindNot =>
      match cs with
      | [c'] =>
          match renderCondition c' d params (out ++ $"NOT (") false with
          | (st, params', out') =>
              if status_ok st then (status_OK, params', out' ++ $")") else (st, params', out')
          end
      | _ => (builder_error ($"NOT requires exactly one condition"), params, out)
      end
  | KindInvalid => (builder_error ($"condition is empty"), params, out)
  end.

Definition appendWhere (conditions : list Condition) (d : Dialect) (params : Params) (sql : str)
    : rendered :=
  match conditions with
  | [] => (status_OK, params, sql)
  | _ => renderCondition (cond_all conditions) d params (sql ++ $" WHERE ") false
  end.

Fixpoint validateUniqueFields (vs : list (str * Value)) (seen : list str) : Status :=
  match vs with
  | [] => status_OK
  | (f, _) :: vs' =>
      if negb (validIdentifier f) then builder_error ($"value field is empty or invalid")
      else if existsb (str_eqb f) seen then builder_error ($"duplicate value field '" ++ f ++ $"'")
      else validateUniqueFields vs' (f :: seen)
  end.

(** ** The builder *)

Record Builder : Type := mkBuilder {
  operation_ : Operation;
  table_ : str;
  dialect_ : Dialect;
  columns_ : list str;
  values_ : list (str * Value);
  conditions_ : list Condition;
  orderings_ : list (str * SortDirection);
  specificationError_ : str;
  allowAllRows_ : bool
}.

Definition builder_new (op : Operation) (table : str) (d : Dialect) : Builder :=
  mkBuilder op table d [] [] [] [] [] false.

Definition b_columns (fs : list str) (b : Builder) : Builder :=
  mkBuilder (operation_ b) (table_ b) (dialect_ b) fs (values_ b) (conditions_ b)
            (orderings_ b) (specificationError_ b) (allowAllRows_ b).
Definition b_set_values (vs : list (str * Value)) (b : Builder) : Builder :=
  mkBuilder (operation_ b) (table_ b) (dialect_ b) (columns_ b) vs (conditions_ b)
            (orderings_ b) (specificationError_ b) (allowAllRows_ b).
Definition b_value (f : str) (v : Value) (b : Builder) : Builder :=
  b_set_values (values_ b ++ [(f, v)]) b.
Definition b_values (vs : list (str * Value)) (b : Builder) : Builder :=
  b_set_values (values_ b ++ vs) b.
(** The parallel-vectors overload: a length mismatch only records an error. *)
Definition b_values_zip (fs : list str) (ps : Params) (b : Builder) : Builder :=
  if length fs =? length ps then b_set_values (values_ b ++ zip fs ps) b
  else mkBuilder (operation_ b) (table_ b) (dialect_ b) (columns_ b) (values_ b) (conditions_ b)
                 (orderings_ b) ($"field count does not match parameter count") (allowAllRows_ b).
Definition b_where (c : Condition) (b : Builder) : Builder :=
  mkBuilder (operation_ b) (table_ b) (dialect_ b) (columns_ b) (values_ b)
            (conditions_ b ++ [c]) (orderings_ b) (specificationError_ b) (allowAllRows_ b).
Definition b_orderBy (f : str) (dir : SortDirection) (b : Builder) : Builder :=
  mkBuilder (operation_ b) (table_ b) (dialect_ b) (columns_ b) (values_ b) (conditions_ b)
            (orderings_ b ++ [(f, dir)]) (specificationError_ b) (allowAllRows_ b).
Definition b_allowAllRows (allow : bool) (b : Builder) : Builder :=
  mkBuilder (operation_ b) (table_ b) (dialect_ b) (columns_ b) (values_ b) (conditions_ b)
            (orderings_ b) (specificationError_ b) allow.

Definition fail_build (st : Status) (params : Params) (sql : str) : BuildResult :=
  mkBuildResult st (mkStatement sql params).

(** The SELECT column loop: appends the quoted columns, or stops at an
    invalid or repeated one. *)
Fixpoint render_columns (d : Dialect) (cols seen : list str) (sql : str) : Status * str :=
  match cols with
  | [] => (status_OK, sql)
  | c :: cols' =>
      if negb (validIdentifier c) || (c =s $"*") then
        (builder_error ($"SELECT column is empty or invalid"), sql)
      else if existsb (str_eqb c) seen then
        (builder_error ($"duplicate SELECT column '" ++ c ++ $"'"), sql)
      else render_columns d cols' (c :: seen)
             (sql ++ (match seen with [] => [] | _ => $", " end) ++ quoteIdent c d)
  end.

Fixpoint render_orderings (d : Dialect) (os : list (str * SortDirection)) (first : bool) (sql : str)
    : Status * str :=
  match os with
  | [] => (status_OK, sql)
  | (f, dir) :: os' =>
      if negb (validIdentifier f) then (builder_error ($"ORDER BY field is empty or invalid"), sql)
      else render_orderings d os' false
             (sql ++ (if first then [] else $", ") ++ quoteIdent f d ++
              match dir with Ascending => $" ASC" | Descending => $" DESC" end)
  end.

Definition build_select (b : Builder) (table : str) : BuildResult :=
  if negb (bool_decide (values_ b = [])) || allowAllRows_ b then
    fail_build (builder_error ($"SELECT does not accept value assignments or allowAllRows")) [] []
  else
    let '(st, cols) :=
      match columns_ b with
      | [] => (status_OK, $"SELECT *")
      | cs => render_columns (dialect_ b) cs [] ($"SELECT ")
      end in
    if negb (status_ok st) then fail_build st [] cols
    else match appendWhere (conditions_ b) (dialect_ b) [] (cols ++ $" FROM " ++ table) with
         | (st, params, sql) =>
             if negb (status_ok st) then fail_build st params sql
             else match orderings_ b with
                  | [] => mkBuildResult status_OK (mkStatement sql params)
                  | os => let '(st, sql') :=
                            render_orderings (dialect_ b) os true (sql ++ $" ORDER BY ") in
                          if negb (status_ok st) then fail_build st params sql'
                          else mkBuildResult status_OK (mkStatement sql' params)
                  end
         end.

Definition build_insert (b : Builder) (table : str) : BuildResult :=
  if negb (bool_decide (columns_ b = [])) ||
     (match conditions_ b with [] => false | _ => true end) ||
     negb (bool_decide (length (orderings_ b) = 0)) || allowAllRows_ b then
    fail_build (builder_error ($"INSERT accepts values only")) [] []
  else match values_ b with
       | [] => fail_build (builder_error ($"INSERT requires at least one value")) [] []
       | vs =>
           mkBuildResult status_OK
             (mkStatement
                ($"INSERT INTO " ++ table ++ $" (" ++
                 join ($", ") ((fun f => quoteIdent f (dialect_ b)) <$> vs.*1) ++
                 $") VALUES (" ++ placeholders (length vs) ++ $")")
                (vs.*2))
       end.

Definition build_update (b : Builder) (table : str) : BuildResult :=
  if negb (bool_decide (columns_ b = [])) || negb (bool_decide (length (orderings_ b) = 0)) then
    fail_build (builder_error ($"UPDATE does not accept columns or ordering")) [] []
  else match values_ b with
       | [] => fail_build (builder_error ($"UPDATE requires at least one value")) [] []
       | vs =>
           if (match conditions_ b with [] => true | _ => false end) && negb (allowAllRows_ b) then
             fail_build (builder_error ($"UPDATE without WHERE requires allowAllRows()")) [] []
           else
             let sql := $"UPDATE " ++ table ++ $" SET " ++
                        join ($", ") ((fun f => quoteIdent f (dialect_ b) ++ $" = ?") <$> vs.*1) in
             match appendWhere (conditions_ b) (dialect_ b) (vs.*2) sql with
             | (st, params, sql') =>
                 if negb (status_ok st) then fail_build st params sql'
                 else mkBuildResult status_OK (mkStatement sql' params)
             end
       end.

Definition build_delete (b : Builder) (table : str) : BuildResult :=
  if negb (bool_decide (columns_ b = [])) || (match values_ b with [] => false | _ => true end) ||
     negb (bool_decide (length (orderings_ b) = 0)) then
    fail_build (builder_error ($"DELETE accepts conditions only")) [] []
  else if (match conditions_ b with [] => true | _ => false end) && negb (allowAllRows_ b) then
    fail_build (builder_error ($"DELETE without WHERE requires allowAllRows()")) [] []
  else match appendWhere (conditions_ b) (dialect_ b) [] ($"DELETE FROM " ++ table) with
       | (st, params, sql) =>
           if negb (status_ok st) then fail_build st params sql
           else mkBuildResult status_OK (mkStatement sql params)
       end.

Definition build (b : Builder) : BuildResult :=
  if negb (bool_decide (specificationError_ b = [])) then
    fail_build (builder_error (specificationError_ b)) [] []
  else if negb (validDialect (dialect_ b)) then
    fail_build (builder_error ($"unknown identifier dialect")) [] []
  else if negb (validIdentifier (table_ b)) then
    fail_build (builder_error ($"table is empty or invalid")) [] []
  else
    let st := validateUniqueFields (values_ b) [] in
    if negb (status_ok st) then fail_build st [] []
    else
      let table := quoteIdent (table_ b) (dialect_ b) in
      match operation_ b with
      | OpSelect => build_select b table
      | OpInsert => build_insert b table
      | OpUpdate => build_update b table
      | OpDelete => build_delete b table
      end.

Definition empty_statement : Statement := mkStatement [] [].

Definition buildPage (b : Builder) : PageQuery :=
  let built := build b in
  if negb (status_ok (br_status built)) then
    mkPageQuery (br_status built) empty_statement None DAuto
  else if negb (match operation_ b with OpSelect => true | _ => false end) ||
          (match orderings_ b with [] => true | _ => false end) then
    mkPageQuery (builder_error ($"pagination requires SELECT with a stable ORDER BY"))
                empty_statement None DAuto
  else
    let head := if dialect_eqb (dialect_ b) DSqlServer then $"SELECT COUNT_BIG(*) FROM "
                else $"SELECT COUNT(*) FROM " in
    match appendWhere (conditions_ b) (dialect_ b) []
                      (head ++ quoteIdent (table_ b) (dialect_ b)) with
    | (st, params, sql) =>
        mkPageQuery st (br_statement built)
                    (if status_ok st then Some (mkStatement sql params) else None) (dialect_ b)
    end.

(** ** Specification: the values a condition binds, in order *)

Section ConditionInd.
Variable P : Condition -> Prop.
Variable H : forall k f op vs cs, Forall P cs -> P (mkCondition k f op vs cs).

Fixpoint Condition_ind' (c : Condition) : P c :=
    let '(mkCondition k f op vs cs) := c in
    H k f op vs cs
      ((fix go (l : list Condition) : Forall P l :=
          match l with
          | [] => Forall_nil_2 _
          | x :: l' => Forall_cons_2 _ _ _ (Condition_ind' x) (go l')
          end) cs).
End ConditionInd.

Fixpoint cond_params (c : Condition) : Params :=
  let '(mkCondition k f op vs cs) := c in
  match k with
  | KindCompare => if existsb isNull vs then [] else vs
  | KindIn | KindNotIn | KindBetween => vs
  | KindAll | KindAny | KindNot => concat (map cond_params cs)
  | KindInvalid | KindIsNull | KindIsNotNull => []
  end.

(** No identifier of the condition contains a backslash, which the analyser
    takes for an escape inside quotes. *)
Definition clean (s : str) : bool := negb (existsb (chr_eqb BSLASH) s).

Fixpoint cond_clean (c : Condition) : bool :=
  let '(mkCondition k f op vs cs) := c in clean f && forallb cond_clean cs.

(** ** Valid identifiers mask to blanks and dots *)

Lemma split_dots_nonempty s part :
  parts_loop s part = true -> (s = [] -> part <> []) -> last s <> Some "."%char ->
  Forall (fun p => p <> []) (split_dots_loop s part).
Proof.
  revert part; induction s as [|c s IH]; intros part; cbn [parts_loop split_dots_loop].
  { intros _ Hp _. constructor; [auto|constructor]. }
  destruct (c =c "."%char) eqn:E.
  - apply chr_eqb_true in E as ->. intros [Hp Hs]%andb_prop _ Hl.
    unfold part_ok in Hp. apply andb_prop in Hp as [[Hp _]%andb_prop _].
    apply negb_true_iff, bool_decide_eq_false in Hp. constructor; [done|].
    destruct s as [|c' s]; [done|]. apply IH; [done|done|by rewrite last_cons_cons in Hl].
  - intros Hs _ Hl. apply IH; [done| |].
    + intros _ ?%(f_equal length). rewrite length_app in *. cbn in *. lia.
    + destruct s; [done|]. by rewrite last_cons_cons in Hl.
Qed.

Lemma valid_parts_nonempty id :
  validIdentifier id = true -> Forall (fun p => p <> []) (split_dots id).
Proof.
  unfold validIdentifier. intros [[[H1 _]%andb_prop H2]%andb_prop H3]%andb_prop.
  apply negb_true_iff, bool_decide_eq_false in H1, H3. by apply split_dots_nonempty.
Qed.

Lemma split_dots_clean s part :
  BSLASH ∉ s -> BSLASH ∉ part -> Forall (fun p => BSLASH ∉ p) (split_dots_loop s part).
Proof.
  revert part; induction s as [|c s IH]; intros part Hs Hp; cbn [split_dots_loop].
  { by repeat constructor. }
  destruct (c =c "."%char); [constructor; [done|]|]; apply IH; set_solver.
Qed.

Lemma clean_spec s : clean s = true -> BSLASH ∉ s.
Proof. intros H%negb_true_iff. by apply not_in_str. Qed.

Lemma masks_ident id d :
  validIdentifier id = true -> clean id = true ->
  exists m, masks_to (quoteIdent id d) m /\ forallb blank_or_dot m = true.
Proof.
  intros Hv Hc%clean_spec. unfold quoteIdent. rewrite quoteIdent_loop_spec.
  fold (split_dots id).
  rewrite flush_parts_join by (by apply valid_parts_nonempty).
  pose proof (split_dots_loop_ne id []) as Hne. fold (split_dots id) in Hne.
  destruct (split_dots id) as [|p ps] eqn:E; [done|]. rewrite <- E.
  apply masks_quoted_parts; [destruct d; auto|].
  apply split_dots_clean; set_solver.
Qed.

(** ** Generated text: placeholders and separators *)

Definition qcount (s : str) : nat := count_occ ascii_dec s "?"%char.

(** [text] is generated SQL with [n] placeholders: it masks to text with
    exactly [n] question marks and none of the characters [bad]. *)
Definition good_without (bad : str) (n : nat) (text : str) : Prop :=
  exists m, masks_to text m /\ qcount m = n /\ forall c, c ∈ bad -> c ∉ m.

Definition plain_without (bad s : str) : bool :=
  forallb plain_chr s && forallb (fun c => negb (existsb (chr_eqb c) s)) bad.

Abbreviation good := (good_without [";"%char]).
Abbreviation plain_text := (plain_without [";"%char]).
(** Text without a separator and without parentheses. *)
Abbreviation flat := (good_without [";"; "("; ")"]%char).
Abbreviation plain_flat := (plain_without [";"; "("; ")"]%char).

Lemma qcount_app a b : qcount (a ++ b) = qcount a + qcount b.
Proof. apply count_occ_app. Qed.

Lemma plain_spec bad s :
  plain_without bad s = true <-> forallb plain_chr s = true /\ forall c, c ∈ bad -> c ∉ s.
Proof.
  unfold plain_without. rewrite andb_true_iff, (forallb_forall _ bad).
  setoid_rewrite negb_true_iff. setoid_rewrite not_in_str.
  by setoid_rewrite list_elem_of_In.
Qed.

Lemma plain_app bad a b :
  plain_without bad a = true -> plain_without bad b = true -> plain_without bad (a ++ b) = true.
Proof.
  rewrite !plain_spec, forallb_app. intros [-> Ha] [-> Hb]. split; [done|].
  intros c Hc. rewrite elem_of_app. intros [?|?]; [by eapply Ha|by eapply Hb].
Qed.

Lemma plain_head_ok bad s b :
  plain_without bad s = true -> head_ok b = true -> head_ok (s ++ b) = true.
Proof.
  intros [H _]%plain_spec. destruct s as [|c s]; [done|]. intros _. revert H.
  cbn [forallb app]. intros [Hc _]%andb_prop.
  unfold plain_chr, is_quote in Hc. apply negb_true_iff in Hc. rewrite !orb_false_iff in Hc.
  unfold head_ok. cbn. destruct Hc as [[[[[_ ->] ->] _] _] _]. done.
Qed.

Lemma good_plain bad s : plain_without bad s = true -> good_without bad (qcount s) s.
Proof. intros [H1 H2]%plain_spec. exists s. auto using masks_plain. Qed.

(** Two pieces compose when the second does not continue a quoted region. *)
Lemma good_app bad s t n k :
  good_without bad n s -> good_without bad k t ->
  (forall b, head_ok b = true -> head_ok (t ++ b) = true) ->
  good_without bad (n + k) (s ++ t).
Proof.
  intros (m1 & M1 & <- & N1) (m2 & M2 & <- & N2) Hh. exists (m1 ++ m2).
  rewrite qcount_app. split; [by apply masks_app|]. split; [done|].
  intros c Hc. rewrite elem_of_app. intros [?|?]; [by eapply N1|by eapply N2].
Qed.

Lemma good_plain_app bad s t n :
  plain_without bad s = true -> good_without bad n t -> good_without bad (qcount s + n) (s ++ t).
Proof.
  intros [H1 H2]%plain_spec (m & Hm & <- & Hs). exists (s ++ m).
  rewrite qcount_app. split; [by apply masks_plain_app|]. split; [done|].
  intros c Hc. rewrite elem_of_app. intros [?|?]; [by eapply H2|by eapply Hs].
Qed.

Lemma good_app_plain bad s t n :
  plain_without bad s = true -> good_without bad n t -> good_without bad (n + qcount s) (t ++ s).
Proof. intros Hs Ht. apply good_app; eauto using good_plain, plain_head_ok. Qed.

(** Text that starts with a plain character composes with anything before. *)
Lemma plain_cons_head_ok bad s t b :
  plain_without bad s = true -> s <> [] -> head_ok (s ++ t ++ b) = true.
Proof.
  intros [H _]%plain_spec. destruct s as [|c s]; [done|]. intros _.
  revert H. cbn [forallb app]. intros [Hc _]%andb_prop.
  unfold plain_chr, is_quote in Hc. apply negb_true_iff in Hc. rewrite !orb_false_iff in Hc.
  unfold head_ok. cbn. destruct Hc as [[[[[_ ->] ->] _] _] _]. done.
Qed.

Lemma good_join bad a s b n k :
  plain_without bad s = true -> s <> [] -> good_without bad n a -> good_without bad k b ->
  good_without bad (n + (qcount s + k)) (a ++ s ++ b).
Proof.
  intros Hs Hne Ha Hb. apply good_app; [done|by apply good_plain_app|].
  intros r _. rewrite <- app_assoc. by eapply plain_cons_head_ok.
Qed.

Lemma good_ident bad id d :
  forallb (fun c => negb (blank_or_dot c)) bad = true ->
  validIdentifier id = true -> clean id = true -> good_without bad 0 (quoteIdent id d).
Proof.
  intros Hbad Hv Hc. destruct (masks_ident id d Hv Hc) as (m & Hm & Hb). exists m.
  rewrite forallb_forall in Hbad, Hb. setoid_rewrite <- list_elem_of_In in Hbad.
  split; [done|]. split.
  - apply count_occ_not_In. intros H. by apply Hb in H.
  - intros c Hcb Hcm. apply list_elem_of_In, Hb in Hcm. apply Hbad in Hcb.
    by rewrite Hcm in Hcb.
Qed.

(** An identifier followed by plain text, the shape of every leaf condition. *)
Lemma good_ident_plain bad id d s :
  forallb (fun c => negb (blank_or_dot c)) bad = true ->
  validIdentifier id = true -> clean id = true -> plain_without bad s = true ->
  good_without bad (qcount s) (quoteIdent id d ++ s).
Proof. intros. change (qcount s) with (0 + qcount s). auto using good_app_plain, good_ident. Qed.

Lemma good_weaken n t : flat n t -> good n t.
Proof. intros (m & Hm & Hq & Hn). exists m. split; [done|]. split; [done|]. set_solver. Qed.

Lemma placeholders_plain n : plain_text (placeholders n) = true /\ qcount (placeholders n) = n.
Proof.
  unfold placeholders. induction n as [|n [IH1 IH2]]; [done|].
  destruct n as [|n]; [done|]. cbn [replicate join] in *. split.
  - apply plain_app; [done|]. by apply plain_app.
  - rewrite !qcount_app, IH2. done.
Qed.

(** ** Rendering a condition *)

(** What a successful rendering of [c] appends. *)
Definition renders (c : Condition) (r : rendered) (params : Params) (out : str) : Prop :=
  let '(st, params', out') := r in
  status_ok st = true ->
  params' = params ++ cond_params c /\
  exists text, out' = out ++ text /\
    (cond_clean c = true -> good (length (cond_params c)) text).

Lemma builder_error_not_ok m : status_ok (builder_error m) = false.
Proof. done. Qed.

Lemma with_field_renders c f params out r :
  (validIdentifier f = true -> renders c r params out) ->
  renders c (with_field f params out r) params out.
Proof. intros H. unfold with_field. destruct (validIdentifier f); [auto|done]. Qed.

Lemma render_compare_renders f op vs cs d params out :
  validIdentifier f = true ->
  renders (mkCondition KindCompare f op vs cs) (render_compare f op vs d params out) params out.
Proof.
  intros Hf. unfold render_compare. destruct vs as [|v [|]]; [done| |done].
  unfold renders. cbn [cond_params existsb orb]. destruct (isNull v) eqn:En.
  - destruct op; try done; intros _; (split; [by rewrite app_nil_r|]); eexists; (split; [done|]);
      intros [Hc _]%andb_prop; by apply (good_ident_plain _ f d).
  - cbn [orb]. destruct op; intros _; (split; [done|]); eexists; (split; [done|]);
      intros [Hc _]%andb_prop; by apply (good_ident_plain _ f d).
Qed.

Lemma render_in_renders (negate : bool) f op vs cs d params out :
  validIdentifier f = true ->
  renders (mkCondition (if negate then KindNotIn else KindIn) f op vs cs)
          (render_in negate f vs d params out) params out.
Proof.
  intros Hf. unfold render_in, renders.
  assert (Hcp : cond_params (mkCondition (if negate then KindNotIn else KindIn) f op vs cs) = vs)
    by (by destruct negate). rewrite Hcp.
  destruct vs as [|v vs].
  - intros _. split; [by rewrite app_nil_r|]. eexists; split; [done|]. intros _.
    destruct negate; by apply good_plain.
  - intros _. split; [done|]. eexists; split; [done|]. intros [Hc _]%andb_prop.
    set (n := length (v :: vs)). destruct (placeholders_plain n) as [Hp Hq].
    replace n with (0 + (qcount (if negate then $" NOT IN (" else $" IN (") + (n + qcount ($")"))))
      at 1 by (destruct negate; cbn; lia).
    apply good_join; [by destruct negate|by destruct negate|by apply good_ident|].
    apply good_app_plain; [done|]. rewrite <- Hq at 1. by apply good_plain.
Qed.

Lemma render_between_renders f op vs cs d params out :
  validIdentifier f = true ->
  renders (mkCondition KindBetween f op vs cs) (render_between f vs d params out) params out.
Proof.
  intros Hf. unfold render_between, renders. destruct vs as [|a [|b [|]]]; try done.
  destruct (isNull a || isNull b); [done|]. intros _. split; [done|].
  eexists; split; [done|]. intros [Hc _]%andb_prop. by apply (good_ident_plain _ f d).
Qed.

(** The child loop; a separator never starts with a quote, so the pieces
    compose. *)
Lemma group_with_renders (render : Condition -> Params -> str -> rendered)
    (sep : str) (cs : list Condition) (first : bool) (params : Params) (out : str) :
  plain_text sep = true -> sep <> [] -> qcount sep = 0 ->
  Forall (fun c => forall p o, renders c (render c p o) p o) cs ->
  let '(st, params', out') := group_with render sep first cs params out in
  status_ok st = true ->
  params' = params ++ concat (map cond_params cs) /\
  exists text, out' = out ++ text /\
    (forallb cond_clean cs = true ->
     good (length (concat (map cond_params cs))) text /\
     (first = false -> forall b, head_ok b = true -> head_ok (text ++ b) = true)).
Proof.
  intros Hsep Hne Hq. revert first params out.
  induction cs as [|c cs IH]; intros first params out Hcs; cbn [group_with map concat].
  { intros _. split; [by rewrite app_nil_r|]. exists []. rewrite app_nil_r. split; [done|].
    intros _. split; [by apply good_plain|done]. }
  apply Forall_cons in Hcs as [Hc Hcs].
  specialize (Hc params (out ++ (if first then [] else sep))). unfold renders in Hc.
  destruct (render c params _) as [[st p1] o1].
  destruct (status_ok st) eqn:Est; [|by intros E; rewrite E in Est].
  destruct (Hc eq_refl) as (-> & t1 & -> & Ht1).
  specialize (IH false (params ++ cond_params c)
                 ((out ++ (if first then [] else sep)) ++ t1) Hcs).
  fold (group_with render sep). destruct (group_with render sep false cs _ _) as [[st2 p2] o2].
  intros Hst2. destruct (IH Hst2) as (-> & t2 & -> & Ht2). split; [by rewrite app_assoc|].
  exists ((if first then [] else sep) ++ t1 ++ t2). split; [by rewrite !app_assoc|].
  cbn [forallb]. intros [Hc1 Hc2]%andb_prop. destruct (Ht2 Hc2) as [G2 Hh].
  specialize (Ht1 Hc1). rewrite length_app.
  assert (G : good (length (cond_params c) + length (concat (map cond_params cs))) (t1 ++ t2)).
  { apply good_app; auto. }
  destruct first; [by split|]. split.
  - rewrite <- (Nat.add_0_l (_ + _)), <- Hq. by apply good_plain_app.
  - intros _ b _. rewrite <- app_assoc. by eapply plain_cons_head_ok.
Qed.

(** A group with its optional parentheses; shared by AND and OR. *)
Lemma render_group_renders (sep : str) (cs : list Condition) d params out (nested : bool) :
  plain_text sep = true -> sep <> [] -> qcount sep = 0 ->
  Forall (fun c => forall p o n, renders c (renderCondition c d p o n) p o) cs ->
  let '(st, params', out') :=
    group_with (fun c' p o => renderCondition c' d p o true) sep true cs params
               (out ++ (if nested then $"(" else [])) in
  status_ok st = true ->
  params' = params ++ concat (map cond_params cs) /\
  exists text, out' ++ (if nested then $")" else []) = out ++ text /\
    (forallb cond_clean cs = true -> good (length (concat (map cond_params cs))) text).
Proof.
  intros Hp Hne Hq Hcs.
  pose proof (group_with_renders (fun c' p o => renderCondition c' d p o true) sep cs true params
                (out ++ (if nested then $"(" else [])) Hp Hne Hq) as H.
  destruct (group_with _ _ _ _ _ _) as [[st p'] o'].
  assert (Hcs' : Forall (fun c => forall p o, renders c (renderCondition c d p o true) p o) cs)
    by (eapply Forall_impl; [exact Hcs|]; intros c Hc p o; apply Hc).
  intros Hst. destruct (H Hcs' Hst) as (? & text & -> & Ht).
  split; [done|]. exists ((if nested then $"(" else []) ++ text ++ (if nested then $")" else [])).
  split; [by rewrite !app_assoc|]. intros Hc. apply Ht in Hc as [Hc _].
  destruct nested; [|by rewrite app_nil_r].
  change (length (concat (map cond_params cs)))
    with (qcount ($"(") + (length (concat (map cond_params cs)))).
  apply good_plain_app; [done|].
  replace (length _) with (length (concat (map cond_params cs)) + qcount ($")")) by (cbn; lia).
  by apply good_app_plain.
Qed.

Lemma renderCondition_renders d c params out nested :
  renders c (renderCondition c d params out nested) params out.
Proof.
  revert params out nested. induction c as [k f op vs cs IH] using Condition_ind'.
  intros params out nested.
  assert (Hg : forall sep, plain_text sep = true -> sep <> [] -> qcount sep = 0 ->
    k = KindAll \/ k = KindAny ->
    renders (mkCondition k f op vs cs)
      match cs with
      | [] => (builder_error ($"condition group cannot be empty"), params, out)
      | _ => match group_with (fun c' p o => renderCondition c' d p o true) sep true cs params
                           (out ++ (if nested then $"(" else [])) with
           | (st, params', out') =>
               if status_ok st then (status_OK, params', out' ++ (if nested then $")" else []))
               else (st, params', out')
           end
      end params out).
  { intros sep H1 H2 H3 Hk. destruct cs as [|c0 cs]; [done|].
    assert (Hcp : cond_params (mkCondition k f op vs (c0 :: cs)) =
                  concat (map cond_params (c0 :: cs))) by (by destruct Hk as [-> | ->]).
    pose proof (render_group_renders sep (c0 :: cs) d params out nested H1 H2 H3 IH) as H.
    destruct (group_with _ _ _ _ _ _) as [[st p'] o']. unfold renders. rewrite Hcp.
    destruct (status_ok st) eqn:E; [|by rewrite E]. intros _.
    destruct (H eq_refl) as (Hp & text & -> & Ht). split; [done|]. exists text. split; [done|].
    cbn [cond_clean]. intros [_ Hc]%andb_prop. auto. }
  destruct k; cbn [renderCondition]; try (by apply Hg; auto).
  - done.
  - by apply with_field_renders, render_compare_renders.
  - apply with_field_renders. by apply (render_in_renders false).
  - apply with_field_renders. by apply (render_in_renders true).
  - by apply with_field_renders, render_between_renders.
  - apply with_field_renders. intros Hf _. split; [by rewrite app_nil_r|]. eexists.
    split; [done|]. intros [Hc _]%andb_prop. by apply (good_ident_plain _ f d).
  - apply with_field_renders. intros Hf _. split; [by rewrite app_nil_r|]. eexists.
    split; [done|]. intros [Hc _]%andb_prop. by apply (good_ident_plain _ f d).
  - destruct cs as [|c [|]]; [done| |done]. apply Forall_cons in IH as [IH _].
    specialize (IH params (out ++ $"NOT (") false). unfold renders in IH |- *.
    destruct (renderCondition c d params _ false) as [[st p'] o'].
    destruct (status_ok st) eqn:E; [|by rewrite E]. intros _.
    destruct (IH eq_refl) as (-> & text & -> & Ht). cbn [cond_params map concat].
    rewrite app_nil_r. split; [done|]. exists ($"NOT (" ++ text ++ $")").
    split; [by rewrite <- !app_assoc|]. cbn [cond_clean forallb].
    intros [_ [Hc _]%andb_prop]%andb_prop.
    change (length (cond_params c)) with (qcount ($"NOT (") + length (cond_params c)).
    apply good_plain_app; [done|].
    replace (length _) with (length (cond_params c) + qcount ($")")) by (cbn; lia).
    apply good_app_plain; auto.
Qed.

(** ** Whole statements *)

Lemma appendWhere_renders cs d params sql :
  let '(st, params', sql') := appendWhere cs d params sql in
  status_ok st = true ->
  params' = params ++ concat (map cond_params cs) /\
  exists text, sql' = sql ++ (match cs with [] => [] | _ => $" WHERE " ++ text end) /\
    (forallb cond_clean cs = true -> good (length (concat (map cond_params cs))) text).
Proof.
  destruct cs as [|c cs]; cbn [appendWhere].
  { intros _. cbn [map concat]. rewrite !app_nil_r. split; [done|]. exists [].
    split; [done|]. intros _. by apply good_plain. }
  pose proof (renderCondition_renders d (cond_all (c :: cs)) params (sql ++ $" WHERE ") false) as H.
  destruct (renderCondition _ _ _ _ _) as [[st p'] s'].
  intros Hst. destruct (H Hst) as (-> & text & -> & Ht). split; [done|].
  exists text. rewrite <- app_assoc. split; [done|]. intros Hc. by apply Ht.
Qed.

(** Separated pieces, with the flag the loops keep. *)
Fixpoint sep_join (first : bool) (sep : str) (l : list str) : str :=
  match l with
  | [] => []
  | x :: l' => (if first then [] else sep) ++ x ++ sep_join false sep l'
  end.

Lemma sep_join_cons sep x l : sep_join true sep (x :: l) = join sep (x :: l).
Proof.
  revert x. induction l as [|y l IH]; intros x; cbn [sep_join app]; [by rewrite app_nil_r|].
  change (join sep (x :: y :: l)) with (x ++ sep ++ join sep (y :: l)). by rewrite <- (IH y).
Qed.

Lemma good_joined bad sep n ps :
  plain_without bad sep = true -> sep <> [] -> qcount sep = 0 ->
  Forall (good_without bad n) ps -> good_without bad (length ps * n) (join sep ps).
Proof.
  intros Hs Hne Hq. induction ps as [|p ps IH]; intros H.
  { exists []. split; [by apply masks_plain|]. split; [done|]. set_solver. }
  apply Forall_cons in H as [Hp H]. destruct ps as [|q ps].
  { cbn. by rewrite Nat.add_0_r. }
  cbn [join length Nat.mul]. rewrite <- (Nat.add_0_l (n + _)).
  replace (0 + (n + (n + length ps * n))) with (n + (qcount sep + (length (q :: ps) * n)))
    by (cbn; lia). apply good_join; auto.
Qed.

Lemma render_columns_ok d cols seen sql st sql' :
  render_columns d cols seen sql = (st, sql') -> status_ok st = true ->
  sql' = sql ++ sep_join (bool_decide (seen = [])) ($", ") ((fun c => quoteIdent c d) <$> cols) /\
  Forall (fun c => validIdentifier c = true) cols.
Proof.
  revert seen sql; induction cols as [|c cols IH]; intros seen sql; cbn [render_columns].
  { intros [= <- <-] _. cbn. by rewrite app_nil_r. }
  destruct (validIdentifier c) eqn:Hv; cbn [negb orb]; [|by intros [= <- _]].
  destruct (c =s $"*"); [by intros [= <- _]|].
  destruct (existsb (str_eqb c) seen); [by intros [= <- _]|].
  intros H Hst. destruct (IH _ _ H Hst) as [-> Hc]. split; [|by constructor]. rewrite bool_decide_false by done.
  cbn [fmap list_fmap sep_join]. rewrite <- !app_assoc. by destruct seen.
Qed.

Definition ordering_text (d : Dialect) (o : str * SortDirection) : str :=
  quoteIdent (o.1) d ++ match o.2 with Ascending => $" ASC" | Descending => $" DESC" end.

Lemma render_orderings_ok d os first sql st sql' :
  render_orderings d os first sql = (st, sql') -> status_ok st = true ->
  sql' = sql ++ sep_join first ($", ") (ordering_text d <$> os) /\
  Forall (fun o => validIdentifier (o.1) = true) os.
Proof.
  revert first sql; induction os as [|[f dir] os IH]; intros first sql; cbn [render_orderings].
  { intros [= <- <-] _. cbn. by rewrite app_nil_r. }
  destruct (validIdentifier f) eqn:Hv; cbn [negb]; [|by intros [= <- _]].
  intros H Hst. destruct (IH _ _ H Hst) as [-> Hc]. split; [|by constructor]. cbn [fmap list_fmap sep_join].
  unfold ordering_text at 2. cbn. by rewrite <- !app_assoc.
Qed.

Lemma validateUniqueFields_ok vs seen :
  status_ok (validateUniqueFields vs seen) = true ->
  Forall (fun v => validIdentifier (v.1) = true) vs /\ NoDup (vs.*1) /\
  forall f, f ∈ vs.*1 -> f ∉ seen.
Proof.
  revert seen; induction vs as [|[f v] vs IH]; intros seen; cbn [validateUniqueFields].
  { intros _. repeat split; [constructor|constructor|set_solver]. }
  destruct (validIdentifier f) eqn:Hv; cbn [negb]; [|done].
  destruct (existsb (str_eqb f) seen) eqn:Hs; [done|]. intros (H1 & H2 & H3)%IH.
  assert (f ∉ seen).
  { intros Hin. apply not_true_iff_false in Hs. apply Hs, existsb_exists.
    exists f. split; [by apply list_elem_of_In|by apply str_eqb_true]. }
  split; [by constructor|]. split.
  - apply NoDup_cons. split; [|done]. intros Hin. apply (H3 f Hin). set_solver.
  - intros g. cbn. rewrite elem_of_cons. intros [->|Hg]; [done|]. specialize (H3 g Hg). set_solver.
Qed.

(** No identifier of the builder contains a backslash. *)
Definition builder_clean (b : Builder) : bool :=
  clean (table_ b) && forallb clean (columns_ b) && forallb clean ((values_ b).*1) &&
  forallb cond_clean (conditions_ b) && forallb clean ((orderings_ b).*1).

Definition bound_params (b : Builder) : Params :=
  (values_ b).*2 ++ concat (map cond_params (conditions_ b)).

(** What every successful operation establishes: the parameters, the leading
    verb, and one placeholder per parameter in text without a separator. *)
Definition built_ok (b : Builder) (verb : str) (r : BuildResult) : Prop :=
  status_ok (br_status r) = true ->
  st_params (br_statement r) = bound_params b /\
  (exists rest, st_sql (br_statement r) = verb ++ rest) /\
  (builder_clean b = true ->
   good (length (bound_params b)) (st_sql (br_statement r))).

Lemma forallb_Forall_clean l : forallb clean l = true -> Forall (fun x => clean x = true) l.
Proof. rewrite forallb_forall, Forall_forall. setoid_rewrite list_elem_of_In. done. Qed.

Lemma idents_joined bad (d : Dialect) (suffix : str) (l : list str) :
  plain_without bad ($", ") = true -> plain_without bad suffix = true ->
  forallb (fun c => negb (blank_or_dot c)) bad = true ->
  Forall (fun c => validIdentifier c = true) l -> forallb clean l = true ->
  good_without bad (length l * qcount suffix)
    (join ($", ") ((fun c => quoteIdent c d ++ suffix) <$> l)).
Proof.
  intros Hsep Hsuf Hbad Hv Hc%forallb_Forall_clean.
  rewrite <- (length_fmap (fun c => quoteIdent c d ++ suffix) l).
  apply good_joined; [done|done|done|]. apply Forall_fmap.
  eapply Forall_impl; [apply Forall_and; split; [exact Hv|exact Hc]|].
  intros x [? ?]. by apply good_ident_plain.
Qed.

Lemma plain_idents_joined bad (d : Dialect) (l : list str) :
  plain_without bad ($", ") = true -> forallb (fun c => negb (blank_or_dot c)) bad = true ->
  Forall (fun c => validIdentifier c = true) l -> forallb clean l = true ->
  good_without bad 0 (join ($", ") ((fun c => quoteIdent c d) <$> l)).
Proof.
  intros. rewrite <- (Nat.mul_0_r (length l)).
  rewrite (list_fmap_ext _ (fun c => quoteIdent c d ++ []) l)
    by (intros; by rewrite app_nil_r).
  apply (idents_joined bad d []); try done. by apply plain_spec; split; [|set_solver].
Qed.

Lemma orderings_joined (d : Dialect) (os : list (str * SortDirection)) :
  Forall (fun o => validIdentifier (o.1) = true) os -> forallb clean (os.*1) = true ->
  good 0 (join ($", ") (ordering_text d <$> os)).
Proof.
  intros Hv Hc%forallb_Forall_clean. apply Forall_fmap in Hc.
  rewrite <- (Nat.mul_0_r (length (ordering_text d <$> os))).
  apply good_joined; [done|done|done|]. apply Forall_fmap.
  eapply Forall_impl; [apply Forall_and; split; [exact Hv|exact Hc]|].
  intros [f []] [? ?]; by apply (good_ident_plain _ f d).
Qed.

(** Head, optional WHERE, optional ORDER BY: placeholders add up. *)
Lemma good_where pre cs text n :
  good n pre -> good (length (concat (map cond_params cs))) text ->
  good (n + length (concat (map cond_params cs)))
    (pre ++ (match cs with [] => [] | _ => $" WHERE " ++ text end)).
Proof.
  intros Hpre Htext. destruct cs; [by rewrite app_nil_r, Nat.add_0_r|].
  by apply (good_join _ pre ($" WHERE ") text).
Qed.

Lemma good_order pre t n : good n pre -> good 0 t -> good n (pre ++ $" ORDER BY " ++ t).
Proof. intros. rewrite <- (Nat.add_0_r n). by apply (good_join _ _ ($" ORDER BY ") t). Qed.

Lemma builder_clean_spec b :
  builder_clean b = true ->
  clean (table_ b) = true /\ forallb clean (columns_ b) = true /\
  forallb clean ((values_ b).*1) = true /\ forallb cond_clean (conditions_ b) = true /\
  forallb clean ((orderings_ b).*1) = true.
Proof. unfold builder_clean. rewrite !andb_true_iff. tauto. Qed.

(** The column list of a SELECT. *)
Definition select_head (b : Builder) : Status * str :=
  match columns_ b with
  | [] => (status_OK, $"SELECT *")
  | cs => render_columns (dialect_ b) cs [] ($"SELECT ")
  end.

Lemma select_head_ok b st sql :
  select_head b = (st, sql) -> status_ok st = true ->
  exists cols, sql = $"SELECT " ++ cols /\ (forallb clean (columns_ b) = true -> good 0 cols).
Proof.
  unfold select_head. destruct (columns_ b) as [|c cs].
  { intros [= <- <-] _. exists ($"*"). split; [done|]. intros _. by apply (good_plain _ ($"*")). }
  intros H Hst. destruct (render_columns_ok _ _ _ _ _ _ H Hst) as [-> Hv].
  rewrite bool_decide_true by done.
  cbn [fmap list_fmap]. rewrite sep_join_cons.
  eexists; split; [done|]. intros Hc.
  by apply (plain_idents_joined _ (dialect_ b) (c :: cs)).
Qed.

Lemma build_select_ok b :
  validIdentifier (table_ b) = true ->
  built_ok b ($"SELECT ") (build_select b (quoteIdent (table_ b) (dialect_ b))).
Proof.
  intros Ht. unfold build_select, built_ok.
  destruct (bool_decide_reflect (values_ b = [])) as [Hvs|]; [|done].
  destruct (allowAllRows_ b); [done|]. cbn [negb orb].
  fold (select_head b). destruct (select_head b) as [st cols] eqn:Ecols.
  destruct (status_ok st) eqn:Est; cbn [negb]; [|by cbn; rewrite Est].
  destruct (select_head_ok b st cols Ecols Est) as (cs & -> & Hcs).
  match goal with |- context [appendWhere ?c ?d ?p ?s] =>
    pose proof (appendWhere_renders c d p s) as HW; destruct (appendWhere c d p s) as [[st2 ps] sql] end.
  destruct (status_ok st2) eqn:Est2; cbn [negb]; [|by cbn; rewrite Est2].
  destruct (HW eq_refl) as (-> & text & -> & Htext). clear HW.
  assert (Hb : bound_params b = concat (map cond_params (conditions_ b)))
    by (unfold bound_params; by rewrite Hvs). rewrite Hb.
  assert (Hgood : builder_clean b = true ->
    good (length (concat (map cond_params (conditions_ b))))
      ((($"SELECT " ++ cs) ++ $" FROM " ++ quoteIdent (table_ b) (dialect_ b)) ++
        match conditions_ b with [] => [] | _ => $" WHERE " ++ text end)).
  { intros (Hc1 & Hc2 & _ & Hc4 & _)%builder_clean_spec.
    apply (good_where _ (conditions_ b) text 0); [|by apply Htext].
    apply (good_join _ _ ($" FROM ") _ 0 0); [done|done| |by apply good_ident].
    apply (good_plain_app _ ($"SELECT ") cs 0); auto. }
  destruct (orderings_ b) as [|o os] eqn:Eos.
  { intros _. split; [done|]. split; [by rewrite <- !app_assoc; eexists|done]. }
  destruct (render_orderings _ _ _ _) as [st3 sql3] eqn:Eo.
  destruct (status_ok st3) eqn:Est3; cbn [negb]; [|by cbn; rewrite Est3].
  destruct (render_orderings_ok _ _ _ _ _ _ Eo Est3) as [-> Hv]. intros _.
  split; [done|]. cbn [st_sql br_statement]. split; [by rewrite <- !app_assoc; eexists|].
  intros Hc. rewrite <- (app_assoc _ ($" ORDER BY ")). apply good_order; [by apply Hgood|].
  cbn [fmap list_fmap]. rewrite sep_join_cons.
  apply (orderings_joined _ (o :: os)); [done|]. rewrite <- Eos.
  by destruct (builder_clean_spec b Hc) as (_ & _ & _ & _ & ?).
Qed.

Lemma build_insert_ok b :
  validIdentifier (table_ b) = true -> Forall (fun v => validIdentifier (v.1) = true) (values_ b) ->
  built_ok b ($"INSERT ") (build_insert b (quoteIdent (table_ b) (dialect_ b))).
Proof.
  intros Ht Hv. unfold build_insert, built_ok.
  match goal with |- context [if ?g then _ else _] => destruct g eqn:Eg; [done|] end.
  rewrite !orb_false_iff in Eg. destruct Eg as [[[_ Hco] _] _].
  assert (Hb : bound_params b = (values_ b).*2).
  { unfold bound_params. destruct (conditions_ b); [by rewrite app_nil_r|done]. }
  destruct (values_ b) as [|v vs] eqn:Evs; [done|]. rewrite <- Evs in *. clear Evs v vs.
  intros _. cbn [st_sql st_params br_statement]. split; [done|].
  split; [by change ($"INSERT INTO ") with ($"INSERT " ++ $"INTO ");
          rewrite <- !app_assoc; eexists|].
  intros (Hc1 & _ & Hc3 & _)%builder_clean_spec. rewrite Hb, length_fmap.
  destruct (placeholders_plain (length (values_ b))) as [Hp Hq].
  change (length (values_ b)) with (0 + (0 + length (values_ b))).
  apply (good_plain_app _ ($"INSERT INTO ") _ (length (values_ b))); [done|].
  apply (good_join _ _ ($" (") _ 0 (length (values_ b))); [done|done|by apply good_ident|].
  apply (good_join _ _ ($") VALUES (") _ 0 (length (values_ b))); [done|done| |].
  - apply plain_idents_joined; try done. by apply Forall_fmap.
  - replace (length (values_ b)) with (qcount (placeholders (length (values_ b))) + qcount ($")"))
      at 1 by (rewrite Hq; cbn; lia). apply good_app_plain; [done|by apply good_plain].
Qed.

(** A successful UPDATE or DELETE has a WHERE clause after text without
    parentheses, or was told to touch every row. *)
Definition where_guarded (b : Builder) (sql : str) : Prop :=
  match conditions_ b with
  | [] => allowAllRows_ b = true
  | _ => exists pre text, sql = pre ++ $" WHERE " ++ text /\
           (builder_clean b = true -> exists n, flat n pre)
  end.

Lemma build_update_ok b :
  validIdentifier (table_ b) = true -> Forall (fun v => validIdentifier (v.1) = true) (values_ b) ->
  let r := build_update b (quoteIdent (table_ b) (dialect_ b)) in
  built_ok b ($"UPDATE ") r /\
  (status_ok (br_status r) = true -> where_guarded b (st_sql (br_statement r))).
Proof.
  intros Ht Hv. cbn zeta. unfold build_update, built_ok.
  match goal with |- context [if ?g then _ else _] => destruct g; [done|] end.
  destruct (values_ b) as [|v vs] eqn:Evs; [done|]. rewrite <- Evs in *. clear Evs v vs.
  match goal with |- context [if ?g then _ else _] => destruct g eqn:Eg; [done|] end.
  match goal with |- context [appendWhere ?c ?d ?p ?s] =>
    pose proof (appendWhere_renders c d p s) as HW; destruct (appendWhere c d p s) as [[st2 ps] sql] end.
  destruct (status_ok st2) eqn:Est2; cbn [negb]; [|by cbn; rewrite Est2].
  destruct (HW eq_refl) as (-> & text & -> & Htext). clear HW.
  assert (G : builder_clean b = true -> flat (length (values_ b)) ($"UPDATE " ++
    quoteIdent (table_ b) (dialect_ b) ++ $" SET " ++
    join ($", ") ((fun f => quoteIdent f (dialect_ b) ++ $" = ?") <$> (values_ b).*1))).
  { intros (Hc1 & _ & Hc3 & _)%builder_clean_spec.
    apply (good_plain_app _ ($"UPDATE ") _ (length (values_ b))); [done|].
    apply (good_join _ _ ($" SET ") _ 0 (length (values_ b))); [done|done|by apply good_ident|].
    replace (length (values_ b)) with (length (values_ b).*1 * qcount ($" = ?"))
      by (rewrite length_fmap; cbn; lia).
    apply idents_joined; try done. by apply Forall_fmap. }
  cbn [st_sql st_params br_statement br_status]. split; intros _.
  - split; [done|]. split; [by rewrite <- !app_assoc; eexists|]. intros Hc.
    unfold bound_params. rewrite length_app, length_fmap.
    apply good_where; [by apply good_weaken, G|].
    apply Htext. by destruct (builder_clean_spec b Hc) as (_ & _ & _ & ? & _).
  - unfold where_guarded. destruct (conditions_ b); [by destruct (allowAllRows_ b)|].
    do 2 eexists. split; [done|]. eauto.
Qed.

Lemma build_delete_ok b :
  validIdentifier (table_ b) = true ->
  let r := build_delete b (quoteIdent (table_ b) (dialect_ b)) in
  built_ok b ($"DELETE ") r /\
  (status_ok (br_status r) = true -> where_guarded b (st_sql (br_statement r))).
Proof.
  intros Ht. cbn zeta. unfold build_delete, built_ok.
  match goal with |- context [if ?g then _ else _] => destruct g eqn:Eg0; [done|] end.
  match goal with |- context [if ?g then _ else _] => destruct g eqn:Eg; [done|] end.
  match goal with |- context [appendWhere ?c ?d ?p ?s] =>
    pose proof (appendWhere_renders c d p s) as HW; destruct (appendWhere c d p s) as [[st2 ps] sql] end.
  destruct (status_ok st2) eqn:Est2; cbn [negb]; [|by cbn; rewrite Est2].
  destruct (HW eq_refl) as (-> & text & -> & Htext). clear HW.
  assert (Hvs : values_ b = []).
  { rewrite !orb_false_iff in Eg0. destruct Eg0 as [[_ H] _]. by destruct (values_ b). }
  assert (G : builder_clean b = true ->
              flat 0 ($"DELETE FROM " ++ quoteIdent (table_ b) (dialect_ b))).
  { intros (Hc1 & _)%builder_clean_spec.
    apply (good_plain_app _ ($"DELETE FROM ") _ 0); [done|]. by apply good_ident. }
  cbn [st_sql st_params br_statement br_status]. split; intros _.
  - unfold bound_params. rewrite Hvs. split; [done|].
    split; [by change ($"DELETE FROM ") with ($"DELETE " ++ $"FROM ");
            rewrite <- !app_assoc; eexists|]. intros Hc.
    apply (good_where _ (conditions_ b) _ 0); [by apply good_weaken, G|].
    apply Htext. by destruct (builder_clean_spec b Hc) as (_ & _ & _ & ? & _).
  - unfold where_guarded. destruct (conditions_ b); [by destruct (allowAllRows_ b)|].
    do 2 eexists. split; [done|]. eauto.
Qed.

Lemma depth_after_flat d t : "("%char ∉ t -> ")"%char ∉ t -> depth_after d t = d.
Proof.
  revert d; induction t as [|c t IH]; [done|].
  intros d [H1 H1']%not_elem_of_cons [H2 H2']%not_elem_of_cons. unfold depth_after. cbn [fold_left].
  unfold paren_step at 2. rewrite (proj2 (chr_eqb_false c _)) by congruence.
  rewrite (proj2 (chr_eqb_false c _)) by congruence. by apply IH.
Qed.

Lemma where_after_flat n pre text :
  flat n pre -> hasWhereClause (pre ++ $" WHERE " ++ text) = true.
Proof.
  intros (m & Hm & _ & Hn). unfold hasWhereClause, containsTopLevelKeyword, scan.
  eapply keyword_scan_spec; [done|done|]. rewrite Hm by done. rewrite (mask_plain ($" WHERE ") text) by done.
  exists (length m + 1). rewrite take_app_add, drop_app_add. split.
  - rewrite depth_after_flat; [done| |]; rewrite not_elem_of_app; (split; [apply Hn|]); set_solver.
  - unfold prev_at. destruct (length m + 1) eqn:E; [lia|].
    rewrite lookup_app_r by lia. replace (n0 - length m) with 0 by lia. done.
Qed.

Definition op_kind (op : Operation) : StatementKind :=
  match op with
  | OpSelect => KSelect | OpInsert => KInsert | OpUpdate => KUpdate | OpDelete => KDelete
  end.

Definition op_verb (op : Operation) : str :=
  match op with
  | OpSelect => $"SELECT " | OpInsert => $"INSERT " | OpUpdate => $"UPDATE "
  | OpDelete => $"DELETE "
  end.

Lemma verb_of_prefix op rest :
  upperMainVerb (maskLiteralRegions (op_verb op ++ rest)) = take 6 (op_verb op).
Proof. rewrite mask_plain by (by destruct op). by destruct op. Qed.

Lemma build_ok b :
  built_ok b (op_verb (operation_ b)) (build b) /\
  (status_ok (br_status (build b)) = true ->
   validIdentifier (table_ b) = true /\ NoDup ((values_ b).*1) /\
   match operation_ b with
   | OpUpdate | OpDelete => where_guarded b (st_sql (br_statement (build b)))
   | OpSelect => values_ b = []
   | OpInsert => conditions_ b = []
   end).
Proof.
  unfold build, built_ok. destruct (bool_decide _); [|done]. destruct (validDialect _); [|done].
  destruct (validIdentifier (table_ b)) eqn:Ht; [|done]. cbn [negb].
  destruct (status_ok (validateUniqueFields (values_ b) [])) eqn:Ev;
    cbn [negb]; [|by cbn; rewrite Ev].
  destruct (validateUniqueFields_ok _ _ Ev) as (Hv & Hnd & _).
  destruct (operation_ b).
  - split; [by apply build_select_ok|]. intros H. split; [done|]. split; [done|].
    revert H. unfold build_select. by destruct (bool_decide_reflect (values_ b = [])).
  - split; [by apply build_insert_ok|]. intros H. split; [done|]. split; [done|].
    revert H. unfold build_insert. destruct (conditions_ b); [done|]. by rewrite !orb_true_r.
  - destruct (build_update_ok b Ht Hv) as [H1 H2]. auto.
  - destruct (build_delete_ok b Ht) as [H1 H2]. auto.
Qed.

(** A statement the builder accepts binds exactly the assigned values, in
    order, followed by the values of its conditions, left to right; its table
    is a valid identifier and no assigned field repeats. *)
Theorem build_parameters (b : Builder) :
  status_ok (br_status (build b)) = true ->
  st_params (br_statement (build b)) =
    (values_ b).*2 ++ concat (map cond_params (conditions_ b)) /\
  validIdentifier (table_ b) = true /\ NoDup ((values_ b).*1).
Proof.
  intros H. destruct (build_ok b) as [Hb Hg]. destruct (Hb H) as (Hp & _).
  destruct (Hg H) as (? & ? & _). auto.
Qed.

Lemma build_clean_analysis (b : Builder) (allowRoutineBody : bool) :
  status_ok (br_status (build b)) = true -> builder_clean b = true ->
  let s := br_statement (build b) in
  qcount (maskLiteralRegions (st_sql s)) = length (st_params s) /\
  hasMultipleStatements (st_sql s) allowRoutineBody = false /\
  classifyStatement (st_sql s) = op_kind (operation_ b).
Proof.
  intros H Hc. cbn zeta. destruct (build_ok b) as [Hb _].
  destruct (Hb H) as (-> & (rest & Hrest) & Hgood). destruct (Hgood Hc) as (m & Hm & <- & Hn).
  specialize (Hm [] eq_refl). rewrite mask_nil, !app_nil_r in Hm.
  assert (Hverb : upperMainVerb m = take 6 (op_verb (operation_ b)))
    by (rewrite <- Hm, Hrest; apply verb_of_prefix).
  unfold hasMultipleStatements, classifyStatement, isRoutineDdl. rewrite Hm, Hverb.
  split; [done|]. split; [|by destruct (operation_ b)].
  replace ((take 6 (op_verb (operation_ b)) =s $"CREATE") ||
           (take 6 (op_verb (operation_ b)) =s $"ALTER")) with false by (by destruct (operation_ b)).
  rewrite andb_false_l, andb_false_r. apply multi_loop_no_semicolon, Hn. set_solver.
Qed.

(** C7. Nothing the caller puts in an identifier or a value escapes into the
    SQL: when no identifier has a backslash, the analyser sees exactly one
    placeholder per bound parameter, no statement separator, and the statement
    kind the builder was asked for. *)
Theorem build_injection_free (b : Builder) (allowRoutineBody : bool) :
  status_ok (br_status (build b)) = true -> builder_clean b = true ->
  let s := br_statement (build b) in
  qcount (maskLiteralRegions (st_sql s)) = length (st_params s) /\
  hasMultipleStatements (st_sql s) allowRoutineBody = false /\
  classifyStatement (st_sql s) = op_kind (operation_ b).
Proof. apply build_clean_analysis. Qed.

Lemma build_guarded (b : Builder) :
  status_ok (br_status (build b)) = true -> builder_clean b = true ->
  operation_ b = OpUpdate \/ operation_ b = OpDelete ->
  match conditions_ b with
  | [] => allowAllRows_ b = true
  | _ => hasWhereClause (st_sql (br_statement (build b))) = true
  end.
Proof.
  intros H Hc Hop. destruct (build_ok b) as [_ Hg]. destruct (Hg H) as (_ & _ & Hw).
  assert (Hw' : where_guarded b (st_sql (br_statement (build b)))) by (by destruct Hop as [E|E]; rewrite E in Hw).
  unfold where_guarded in Hw'. destruct (conditions_ b); [done|].
  destruct Hw' as (pre & text & -> & Hf). destruct (Hf Hc) as [n Hn]. by eapply where_after_flat.
Qed.

(** An accepted UPDATE or DELETE is restricted by a top-level WHERE clause
    (as the analyser, hence the auditor, sees it), unless it has no condition
    and [allowAllRows] was requested. *)
Theorem build_where_guard (b : Builder) :
  status_ok (br_status (build b)) = true -> builder_clean b = true ->
  operation_ b = OpUpdate \/ operation_ b = OpDelete ->
  match conditions_ b with
  | [] => allowAllRows_ b = true
  | _ => hasWhereClause (st_sql (br_statement (build b))) = true
  end.
Proof. apply build_guarded. Qed.

(** A page query counts under the same conditions as it selects: the count
    statement binds the same parameters, and the page is built only from an
    ordered SELECT. *)
Theorem buildPage_consistent (b : Builder) :
  status_ok (pq_status (buildPage b)) = true ->
  exists count, pq_countQuery (buildPage b) = Some count /\
    st_params count = st_params (pq_statement (buildPage b)) /\
    pq_statement (buildPage b) = br_statement (build b) /\
    operation_ b = OpSelect /\ orderings_ b <> [] /\
    starts_with ($"SELECT COUNT") (st_sql count) = true.
Proof.
  unfold buildPage. destruct (status_ok (br_status (build b))) eqn:Hb; cbn [negb]; [|by cbn; rewrite Hb].
  destruct (operation_ b) eqn:Eop; cbn [negb orb]; try done.
  destruct (orderings_ b) as [|o os] eqn:Eos; [done|].
  match goal with |- context [appendWhere ?c ?d ?p ?s] =>
    pose proof (appendWhere_renders c d p s) as HW; destruct (appendWhere c d p s) as [[st2 ps] sql] end.
  cbn [pq_status pq_countQuery pq_statement]. intros Hst. rewrite Hst. eexists; split; [done|].
  destruct (HW Hst) as (Hps & text & -> & _). cbn [st_params st_sql]. 
  destruct (build_ok b) as [Hbo Hv]. destruct (Hbo Hb) as (-> & _).
  destruct (Hv Hb) as (_ & _ & Hvs). rewrite Eop in Hvs. unfold bound_params. rewrite Hvs.
  repeat (split; [done|]). by destruct (dialect_eqb _ _).
Qed.

(** A builder every hypothesis of the theorems above holds of. *)
Definition sample_update : Builder :=
  b_where (cond_any [cond_compare ($"t.id") Equal (VInt64 7); cond_in ($"na;me") [VString ($"x"); VNull]])
    (b_value ($"a`b") (VInt64 1) (builder_new OpUpdate ($"users") DMySQL)).

Definition sample_page : Builder :=
  b_orderBy ($"id") Descending
    (b_where (cond_between ($"age") (VInt64 1) (VInt64 9)) (builder_new OpSelect ($"users") DPostgres)).

Lemma build_parameters_witness :
  st_params (br_statement (build sample_update)) =
    (values_ sample_update).*2 ++ concat (map cond_params (conditions_ sample_update)) /\
  validIdentifier (table_ sample_update) = true /\ NoDup ((values_ sample_update).*1).
Proof. apply (build_parameters sample_update). reflexivity. Defined.

Lemma build_injection_free_witness :
  let s := br_statement (build sample_update) in
  qcount (maskLiteralRegions (st_sql s)) = length (st_params s) /\
  hasMultipleStatements (st_sql s) true = false /\
  classifyStatement (st_sql s) = op_kind (operation_ sample_update).
Proof. apply (build_injection_free sample_update true); reflexivity. Defined.

Lemma build_where_guard_witness : hasWhereClause (st_sql (br_statement (build sample_update))) = true.
Proof. apply (build_where_guard sample_update); [reflexivity|reflexivity|]. left. reflexivity. Defined.

Lemma buildPage_consistent_witness :
  exists count, pq_countQuery (buildPage sample_page) = Some count /\
    st_params count = st_params (pq_statement (buildPage sample_page)) /\
    pq_statement (buildPage sample_page) = br_statement (build sample_page) /\
    operation_ sample_page = OpSelect /\ orderings_ sample_page <> [] /\
    starts_with ($"SELECT COUNT") (st_sql count) = true.
Proof. apply (buildPage_consistent sample_page). reflexivity. Defined.
