(* ===== verification/Pagination.v ===== *)
(** * Pagination: page preparation, page assembly, and its asynchronous join

    Models src/common/pagination.cpp (the lexical gate [clauses],
    [validateSelect], [preparePage], [finishPageRows], [readPageTotal]),
    include/sqlconduit/pagination.h and src/client_pagination.cpp ([runPage] and
    the two-completion join [PendingPage::accept]).  The data source is a
    parameter: [run] executes one statement. *)

From S2P Require Import Prelude Types Quoting SqlAnalyze NamedParams SqlBuilder.

(** ** Data *)

Record PageOptions : Type := mkPageOptions {
  po_page : Z;
  po_pageSize : Z;
  po_includeTotal : bool;
  po_dialect : Dialect;
  po_countQuery : option Statement
}.

Record PreparedPage : Type := mkPrepared {
  pp_status : Status;
  pp_data : Statement;
  pp_count : option Statement
}.

Inductive ExecutionMode : Type := Native | CompatibilityFallback.

Record PageRows : Type := mkPageRows {
  pr_status : Status;
  pr_rows : ResultSet;
  pr_page : Z;
  pr_pageSize : Z;
  pr_hasNext : bool;
  pr_total : option Z;
  pr_mode : ExecutionMode
}.

Definition page_invalid (message : str) : Status :=
  status_error QueryError ($"pagination: " ++ message).

(** ** The lexical gate *)

Definition tokens_state : Type := Z * list str.
Definition lex_result : Type := Status * list str.

(** An opaque region counts as one token at the top level. *)
Definition opaque (st : tokens_state) : tokens_state :=
  let '(depth, tokens) := st in
  if (depth =? 0)%Z then (depth, tokens ++ [$"_"]) else st.

Definition lex_stop (message : str) (st : tokens_state) : action tokens_state lex_result :=
  Stop (page_invalid message, snd st).

Definition page_bracket (prev : option ascii) (c : ascii) : bool :=
  (c =c "["%char) &&
  match prev with
  | None => true
  | Some p => negb (isalnum p) && negb (p =c "_"%char) && negb (p =c ")"%char) &&
              negb (p =c "]"%char) && negb (p =c "?"%char)
  end.

Definition lex_comment (l : str) (st : tokens_state) : action tokens_state lex_result :=
  let '(n, closed) := nested_comment 1 (drop 1 l) in
  if head_is "!"%char (drop 1 l) then lex_stop ($"executable comments are unsupported") st
  else if closed then Next (1 + n) st else lex_stop ($"unterminated comment") st.

Definition lex_dollar (c : ascii) (l : str) (st : tokens_state) : action tokens_state lex_result :=
  let t := span is_ident l in
  if head_is "$"%char (drop t l) && ((t =? 0) || negb (head_digit l)) then
    let delimiter := c :: take (S t) l in
    match find_sub delimiter (drop (S t) l) with
    | Some close => Next (S t + close + length delimiter) (opaque st)
    | None => lex_stop ($"unterminated dollar literal") st
    end
  else lex_stop ($"use portable positional or named binding, not dollar placeholders") st.

Definition lex_quoted (bracket : bool) (c : ascii) (l : str) (st : tokens_state)
    : action tokens_state lex_result :=
  let '(n, closed) := skip_quoted (negb bracket) (if bracket then "]"%char else c) l in
  if closed then Next n (opaque st) else lex_stop ($"unterminated quoted text") st.

Definition lex_token (c : ascii) (l : str) (st : tokens_state) : action tokens_state lex_result :=
  let n := span is_ident l in
  let '(depth, tokens) := st in
  Next n (if (depth =? 0)%Z then (depth, tokens ++ [upper (c :: take n l)]) else st).

Definition clause_step (prev : option ascii) (c : ascii) (l : str) (st : tokens_state)
    : action tokens_state lex_result :=
  let '(depth, tokens) := st in
  if (c =c NUL) || (c =c ";"%char) || (c =c "#"%char) then
    lex_stop ($"omit terminators, NUL and dialect-ambiguous hash syntax") st
  else if isspace c then Next 0 st
  else if (c =c "-"%char) && head_is "-"%char l then
    Next (1 + until_newline (drop 1 l) + 1) st
  else if (c =c "/"%char) && head_is "*"%char l then lex_comment l st
  else match alt_quote c l with
       | Some (Some k) => Next k (opaque st)
       | Some None => lex_stop ($"unterminated alternative literal") st
       | None =>
           if c =c "$"%char then lex_dollar c l st
           else if is_quote c || page_bracket prev c then lex_quoted (page_bracket prev c) c l st
           else if c =c "("%char then
             Next 0 ((depth + 1)%Z, if (depth =? 0)%Z then tokens ++ [$"_"] else tokens)
           else if c =c ")"%char then
             if (depth - 1 <? 0)%Z then lex_stop ($"unbalanced parentheses") st
             else Next 0 ((depth - 1)%Z, tokens)
           else if is_ident c then lex_token c l st
           else Next 0 st
       end.

Definition clause_finish (st : tokens_state) : lex_result :=
  (if negb (fst st =? 0)%Z then page_invalid ($"unbalanced parentheses") else status_OK, snd st).

Definition clauses (sql : str) : lex_result :=
  if existsb (chr_eqb NUL) sql then
    (page_invalid ($"NUL bytes are unsupported, including inside quoted text"), [])
  else scan clause_step clause_finish sql (0%Z, []).

(** ** Which statements can be paged *)

Definition forbidden (token : str) : bool :=
  existsb (str_eqb token)
    [$"LIMIT"; $"OFFSET"; $"FETCH"; $"TOP"; $"INTO"; $"FOR"; $"LOCK"; $"OPTION"].

(** The token loop: [None] when a forbidden token is met. *)
Fixpoint token_loop (ordered : bool) (tokens : list str) : option bool :=
  match tokens with
  | [] => Some ordered
  | t :: rest =>
      if forbidden t then None
      else token_loop (ordered || ((t =s $"ORDER") &&
                        match rest with b :: _ :: _ => b =s $"BY" | _ => false end)) rest
  end.

Definition validateSelect (sql : str) (requireOrder : bool) : Status :=
  let '(status, tokens) := clauses sql in
  if negb (status_ok status) then status
  else match tokens with
       | first :: rest =>
           if negb (first =s $"SELECT") then
             page_invalid ($"requires a SELECT; wrap or handle CTEs explicitly")
           else match token_loop false rest with
                | None => page_invalid ($"existing pagination, SELECT INTO, locking and trailing options are unsupported")
                | Some ordered =>
                    if requireOrder && negb ordered then
                      page_invalid ($"requires a stable top-level ORDER BY including a unique tie-breaker")
                    else status_OK
                end
       | [] => page_invalid ($"requires a SELECT; wrap or handle CTEs explicitly")
       end.

(** ** Preparing a page *)

(** The guard on page and size, as the code writes it. *)
Definition page_bounds_bad (o : PageOptions) : bool :=
  (po_page o <? 1)%Z || (po_pageSize o <? 1)%Z || (po_pageSize o =? int64_max)%Z ||
  (Z.quot (int64_max - po_pageSize o - 1) (po_pageSize o) <? po_page o - 1)%Z.

Definition page_dialect (q : PageQuery) (o : PageOptions) (detected : Dialect) : Dialect :=
  if negb (dialect_eqb (po_dialect o) DAuto) then po_dialect o
  else if negb (dialect_eqb (pq_dialect q) DAuto) then pq_dialect q else detected.

Definition limit_clause : str := LF :: $"LIMIT ? OFFSET ?".
Definition fetch_clause : str := LF :: $"OFFSET ? ROWS FETCH NEXT ? ROWS ONLY".

(** The paginated statement, once everything is validated. *)
Definition page_statement (d : Dialect) (s : Statement) (o : PageOptions) : Statement :=
  let offset := ((po_page o - 1) * po_pageSize o)%Z in
  if dialect_eqb d DMySQL || dialect_eqb d DPostgres then
    mkStatement (st_sql s ++ limit_clause)
                (st_params s ++ [VInt64 (po_pageSize o + 1)] ++ [VInt64 offset])
  else mkStatement (st_sql s ++ fetch_clause)
                   (st_params s ++ [VInt64 offset] ++ [VInt64 (po_pageSize o + 1)]).

Definition preparePage (q : PageQuery) (o : PageOptions) (detected : Dialect) : PreparedPage :=
  if negb (status_ok (pq_status q)) then mkPrepared (pq_status q) empty_statement None
  else if page_bounds_bad o then
    mkPrepared (page_invalid ($"invalid page/size or offset overflow")) empty_statement None
  else
    let status := validateSelect (st_sql (pq_statement q)) true in
    if negb (status_ok status) then mkPrepared status empty_statement None
    else
      let finish (count : option Statement) : PreparedPage :=
        let d := page_dialect q o detected in
        if dialect_eqb d DAuto then
          mkPrepared (status_error NotSupported
                        ($"pagination requires an explicit dialect for a custom driver"))
                     empty_statement count
        else mkPrepared status (page_statement d (pq_statement q) o) count in
      if po_includeTotal o then
        match (match po_countQuery o with Some s => Some s | None => pq_countQuery q end) with
        | None => mkPrepared (page_invalid ($"explicit COUNT required for raw SQL; use Builder::buildPage for generated COUNT"))
                             empty_statement None
        | Some c =>
            let status' := validateSelect (st_sql c) false in
            if negb (status_ok status') then mkPrepared status' empty_statement (Some c)
            else finish (Some c)
        end
      else finish None.

(** ** Assembling the result *)

Definition set_pr_status (st : Status) (p : PageRows) : PageRows :=
  mkPageRows st (pr_rows p) (pr_page p) (pr_pageSize p) (pr_hasNext p) (pr_total p) (pr_mode p).
Definition set_pr_rows (rs : ResultSet) (p : PageRows) : PageRows :=
  mkPageRows (pr_status p) rs (pr_page p) (pr_pageSize p) (pr_hasNext p) (pr_total p) (pr_mode p).
Definition set_pr_total (t : option Z) (p : PageRows) : PageRows :=
  mkPageRows (pr_status p) (pr_rows p) (pr_page p) (pr_pageSize p) (pr_hasNext p) t (pr_mode p).
Definition set_pr_mode (m : ExecutionMode) (p : PageRows) : PageRows :=
  mkPageRows (pr_status p) (pr_rows p) (pr_page p) (pr_pageSize p) (pr_hasNext p) (pr_total p) m.

Definition truncate_rows (n : nat) (rs : ResultSet) : ResultSet :=
  mkResultSet (fields rs) (take n (rows rs)) (transformed rs).

Definition finishPageRows (p : PageRows) : PageRows :=
  if negb (status_ok (pr_status p)) then
    mkPageRows (pr_status p) (rs_clear (pr_rows p)) (pr_page p) (pr_pageSize p) false None (pr_mode p)
  else
    let more := (wrap_u64 (pr_pageSize p) <? Z.of_nat (rs_rowCount (pr_rows p)))%Z in
    mkPageRows (pr_status p)
      (if more then truncate_rows (Z.to_nat (wrap_u64 (pr_pageSize p))) (pr_rows p) else pr_rows p)
      (pr_page p) (pr_pageSize p) more (pr_total p) (pr_mode p).

(** [std::from_chars] for [int64_t], base 10, on a whole range: the value when
    every character was consumed and it is representable. *)
Fixpoint digits_value (acc : Z) (s : str) : option Z :=
  match s with
  | [] => Some acc
  | c :: s' => if isdigit c then digits_value (acc * 10 + (Z.of_N (code c) - 48)) s' else None
  end.

Definition from_chars_all (s : str) : option Z :=
  let in_range (v : Z) := if (int64_min <=? v)%Z && (v <=? int64_max)%Z then Some v else None in
  match s with
  | [] => None
  | "-"%char :: [] => None
  | "-"%char :: ds => match digits_value 0 ds with Some v => in_range (- v)%Z | None => None end
  | ds => match digits_value 0 ds with Some v => in_range v | None => None end
  end.

(** An integral decimal text: digits, optionally a point and zeros. *)
Definition decimal_total (text : str) : option Z :=
  let n := span (fun c => negb (c =c "."%char)) text in
  match from_chars_all (take n text) with
  | Some parsed =>
      if (0 <=? parsed)%Z &&
         match drop n text with
         | [] => true
         | _ :: frac => negb (bool_decide (frac = [])) && forallb (chr_eqb "0"%char) frac
         end
      then Some parsed else None
  | None => None
  end.

Definition readPageTotal (rs : ResultSet) : Status + Z :=
  let bad := inl (page_invalid ($"COUNT must return exactly one nonnegative integer value")) in
  match rows rs with
  | [r] =>
      if negb (row_size r =? 1) || (1 <? length (fields rs)) ||
         match fields rs with f :: _ => negb (row_has f r) | [] => false end
      then bad
      else match row_data r with
           | (_, VInt64 z) :: _ => if (0 <=? z)%Z then inr z else bad
           | (_, VUInt64 z) :: _ => if (z <=? int64_max)%Z then inr z else bad
           | (_, VDecimal text) :: _ =>
               match decimal_total text with Some z => inr z | None => bad end
           | _ => bad
           end
  | _ => bad
  end.

(** ** Running a page *)

Definition emptyPage (o : PageOptions) : PageRows :=
  mkPageRows status_OK rs_empty (po_page o) (po_pageSize o) false None CompatibilityFallback.

(** Store the status of [readPageTotal] and, when it succeeded, the total. *)
Definition take_total (rs : ResultSet) (p : PageRows) : PageRows :=
  match readPageTotal rs with
  | inl st => set_pr_status st p
  | inr t => set_pr_total (Some t) (set_pr_status status_OK p)
  end.

(** [run] is the data source: it executes one statement. *)
Definition runPage (run : Statement -> Status * ResultSet) (q : PageQuery) (o : PageOptions)
    (d : Dialect) : PageRows :=
  let prepared := preparePage q o d in
  let result := set_pr_status (pp_status prepared) (emptyPage o) in
  if negb (status_ok (pr_status result)) then result
  else
    let '(st, rs) := run (pp_data prepared) in
    let result := set_pr_rows rs (set_pr_status st (set_pr_mode Native result)) in
    let result :=
      match pp_count prepared with
      | Some c =>
          if status_ok (pr_status result) then
            let '(st', rs') := run c in
            let result := set_pr_status st' result in
            if status_ok st' then take_total rs' result else result
          else result
      | None => result
      end in
    finishPageRows result.

(** ** The asynchronous join *)

Record AsyncQueryResult : Type := mkAsyncResult {
  aq_status : Status;
  aq_rows : ResultSet;
  aq_mode : ExecutionMode
}.

(** [completed] lists the calls made to the completion. *)
Record PendingPage : Type := mkPending {
  pd_done : bool;
  pd_pending : Z;
  pd_result : PageRows;
  pd_completed : list PageRows
}.

(** What one completion stores in the shared result. *)
Definition accept_page (raw : AsyncQueryResult) (count : bool) (r : PageRows) : PageRows :=
  let r := match aq_mode raw with
           | CompatibilityFallback => set_pr_mode CompatibilityFallback r
           | Native => r
           end in
  let r := set_pr_status (aq_status raw) r in
  if status_ok (pr_status r) then
    if count then take_total (aq_rows raw) r else set_pr_rows (aq_rows raw) r
  else r.

Definition accept (raw : AsyncQueryResult) (count : bool) (p : PendingPage) : PendingPage :=
  if pd_done p then p
  else
    let r := accept_page raw count (pd_result p) in
    let pending := (pd_pending p - 1)%Z in
    if status_ok (pr_status r) && negb (pending =? 0)%Z then
      mkPending false pending r (pd_completed p)
    else
      let r := if negb (status_ok (pr_status r)) && negb (pending =? 0)%Z
               then set_pr_mode CompatibilityFallback r else r in
      let final := finishPageRows r in
      mkPending true pending final (pd_completed p ++ [final]).

(** The state after [queryPageRawAsync] has prepared the page. *)
Definition pending_start (prepared : PreparedPage) (o : PageOptions) : PendingPage :=
  mkPending false (match pp_count prepared with Some _ => 2 | None => 1 end)
    (set_pr_mode Native (set_pr_status (pp_status prepared) (emptyPage o))) [].

(** ** The gate composes over a newline *)

Lemma nested_comment_app depth l n r :
  nested_comment depth l = (n, true) -> nested_comment depth (l ++ LF :: r) = (n, true).
Proof.
  revert depth n. induction l as [|c|c d l IH1 IH2] using str_two_ind; intros depth n; [done|done|].
  cbn [app] in *. rewrite !nested_comment_cons2. destruct ((c =c "/"%char) && (d =c "*"%char)).
  { destruct (nested_comment (S depth) l) as [k b] eqn:E. intros [= <- ->].
    by rewrite (IH1 _ _ E). }
  destruct ((c =c "*"%char) && (d =c "/"%char)).
  { destruct depth as [|[|depth]]; [done|done|].
    destruct (nested_comment (S depth) l) as [k b] eqn:E. intros [= <- ->].
    by rewrite (IH1 _ _ E). }
  destruct (nested_comment depth (d :: l)) as [k b] eqn:E. intros [= <- ->].
  by rewrite (IH2 _ _ E).
Qed.

Lemma alt_quote_app c l r :
  (is_ident c = true -> l <> [QUOTE]) ->
  match alt_quote c l with
  | Some (Some k) => alt_quote c (l ++ LF :: r) = Some (Some k) /\ k <= length l
  | Some None => True
  | None => alt_quote c (l ++ LF :: r) = None
  end.
Proof.
  intros Hl. unfold alt_quote. destruct ((c =c "q"%char) || (c =c "Q"%char)) eqn:Ec; [|done].
  assert (Hc : is_ident c = true).
  { apply orb_true_iff in Ec as [E|E]; apply chr_eqb_true in E as ->; done. }
  specialize (Hl Hc). destruct l as [|q [|open s]].
  - cbn. by destruct r.
  - cbn. destruct (q =c QUOTE) eqn:E; [|by destruct r]. apply chr_eqb_true in E as ->. done.
  - cbn [app]. destruct (q =c QUOTE); [|done].
    destruct (find_sub _ s) as [k|] eqn:E; [|done].
    rewrite (find_sub_app _ _ _ _ E). split; [done|].
    apply find_sub_Some in E as [_ E]. cbn in *. lia.
Qed.

Lemma lex_dollar_app c l st k st' r :
  lex_dollar c l st = Next k st' ->
  lex_dollar c (l ++ LF :: r) st = Next k st' /\ k <= length l.
Proof.
  unfold lex_dollar, lex_stop. rewrite span_stop by done.
  pose proof (span_le is_ident l) as Ht. set (t := span is_ident l) in *.
  rewrite (drop_stop t) by done. rewrite head_is_stop by done.
  destruct (head_is "$"%char (drop t l)) eqn:E1; cbn [andb]; [|done].
  assert (Hlt : S t <= length l).
  { apply head_is_true in E1 as [u Hu]. apply (f_equal length) in Hu.
    rewrite length_drop in Hu. cbn in Hu. lia. }
  destruct ((t =? 0) || negb (head_digit l)) eqn:E2; [|done].
  replace ((t =? 0) || negb (head_digit (l ++ LF :: r))) with true.
  2: { destruct (t =? 0); [done|]. destruct l; [cbn in Hlt; lia|]. by cbn in *. }
  rewrite take_app_le by lia. rewrite (drop_stop (S t)) by lia.
  destruct (find_sub _ (drop (S t) l)) as [x|] eqn:E; [|done].
  rewrite (find_sub_app _ _ _ _ E). intros [= <- <-]. split; [done|].
  apply find_sub_Some in E as [_ E]. cbn [length] in *.
  rewrite length_take, length_drop in *. lia.
Qed.

Lemma lex_quoted_app prev c l st k st' r :
  is_quote c || page_bracket prev c = true ->
  lex_quoted (page_bracket prev c) c l st = Next k st' ->
  lex_quoted (page_bracket prev c) c (l ++ LF :: r) st = Next k st' /\ k <= length l.
Proof.
  intros Hc. unfold lex_quoted, lex_stop.
  set (q := if page_bracket prev c then "]"%char else c).
  pose proof (skip_quoted_le (negb (page_bracket prev c)) q l) as Hle.
  destruct (skip_quoted _ q l) as [n []] eqn:E; [|done]. intros [= <- <-].
  rewrite (skip_quoted_app _ _ _ n LF r); [done| | |done].
  - unfold q. destruct (page_bracket prev c); [done|]. rewrite orb_false_r in Hc.
    intros ->. done.
  - unfold q. destruct (page_bracket prev c); [done|]. rewrite orb_false_r in Hc.
    intros ->. done.
Qed.

Lemma lex_comment_app l st k st' r :
  head_is "*"%char l = true -> lex_comment l st = Next k st' ->
  lex_comment (l ++ LF :: r) st = Next k st' /\ k <= length l.
Proof.
  intros [l' ->]%head_is_true. unfold lex_comment, lex_stop. cbn [drop app].
  rewrite !drop_0. rewrite head_is_stop by done.
  destruct (nested_comment 1 l') as [n []] eqn:E; (destruct (head_is "!"%char l'); [done|]); [|done].
  intros [= <- <-]. rewrite (nested_comment_app _ _ _ _ E). split; [done|].
  apply nested_comment_le in E. cbn. lia.
Qed.

(** One iteration sees the same text with or without what follows a newline. *)
Lemma clause_step_app prev c l st k st' r :
  (is_ident c = true -> l <> [QUOTE]) -> clause_step prev c l st = Next k st' ->
  clause_step prev c (l ++ LF :: r) st = Next k st' /\ k <= S (length l).
Proof.
  intros Hl. unfold clause_step. destruct st as [depth tokens].
  destruct ((c =c NUL) || (c =c ";"%char) || (c =c "#"%char)); [done|].
  destruct (isspace c); [intros [= <- <-]; split; [done|lia]|].
  rewrite !head_is_stop by done.
  destruct ((c =c "-"%char) && head_is "-"%char l) eqn:E1.
  { apply andb_prop in E1 as [_ [l' ->]%head_is_true]. cbn [drop app]. rewrite !drop_0.
    unfold until_newline. rewrite span_stop by done. intros [= <- <-]. split; [done|].
    pose proof (span_le (fun c => negb (c =c LF)) l'). cbn. lia. }
  destruct ((c =c "/"%char) && head_is "*"%char l) eqn:E2.
  { apply andb_prop in E2 as [_ E2]. intros H. apply (lex_comment_app _ _ _ _ r E2) in H as [-> ?].
    split; [done|lia]. }
  pose proof (alt_quote_app c l r Hl) as Ha.
  destruct (alt_quote c l) as [[n|]|]; [destruct Ha as [-> Hn]|done|rewrite Ha].
  { intros [= <- <-]. split; [done|lia]. }
  destruct (c =c "$"%char).
  { intros H. apply (lex_dollar_app _ _ _ _ _ r) in H as [-> ?]. split; [done|lia]. }
  destruct (is_quote c || page_bracket prev c) eqn:E3.
  { intros H. apply (lex_quoted_app _ _ _ _ _ _ r E3) in H as [-> ?]. split; [done|lia]. }
  destruct (c =c "("%char); [intros [= <- <-]; split; [done|lia]|].
  destruct (c =c ")"%char).
  { destruct (depth - 1 <? 0)%Z; [done|]. intros [= <- <-]; split; [done|lia]. }
  destruct (is_ident c); [|intros [= <- <-]; split; [done|lia]].
  unfold lex_token. rewrite span_stop by done. pose proof (span_le is_ident l).
  rewrite take_app_le by lia. intros [= <- <-]. split; [done|lia].
Qed.

Lemma clause_scan_app prev sql st r status toks :
  scan_from clause_step clause_finish 0 prev sql st = (status, toks) -> status_ok status = true ->
  scan_from clause_step clause_finish 0 prev (sql ++ LF :: r) st =
  scan_from clause_step clause_finish 0 (Some LF) r (0%Z, toks).
Proof.
  remember (length sql) as n eqn:Hn. revert prev sql Hn st.
  induction n as [n IH] using lt_wf_ind. intros prev sql -> st.
  destruct sql as [|c l].
  { cbn [scan_from app]. unfold clause_finish. destruct st as [depth tokens]. cbn [fst snd].
    intros [= <- <-]. destruct (Z.eqb_spec depth 0) as [->|]; [|done]. done. }
  cbn [app]. rewrite !scan_step. intros H Hok.
  assert (Hl : is_ident c = true -> l <> [QUOTE]).
  { intros Hc ->. revert H. assert (Hs : clause_step prev c [QUOTE] st = lex_token c [QUOTE] st).
    { unfold clause_step. destruct st as [depth tokens]. revert Hc. by_char c. }
    rewrite Hs. unfold lex_token. destruct st as [depth tokens].
    change (span is_ident [QUOTE]) with 0. cbn [drop].
    destruct (depth =? 0)%Z; cbn; intros [= <- _]; done. }
  destruct (clause_step prev c l st) as [res|k st'] eqn:E.
  { assert (Hres : status_ok (fst res) = false); [|by rewrite H in Hres; cbn in Hres; congruence].
    revert E. unfold clause_step, lex_comment, lex_dollar, lex_quoted, lex_token, lex_stop.
    destruct st as [depth tokens]. clear. repeat (split_match; try done); by intros [= <-]. }
  destruct (clause_step_app _ _ _ _ _ _ r Hl E) as [-> Hk].
  destruct (decide (k <= length l)) as [Hk'|Hk'].
  - rewrite drop_app_le by done. unfold prev_after. rewrite take_app_le by done.
    eapply IH; [|reflexivity|exact H|done]. rewrite length_drop. cbn. lia.
  - assert (k = S (length l)) as -> by lia.
    rewrite drop_ge in H by lia. cbn [scan_from] in H. unfold clause_finish in H.
    injection H as <- <-. destruct st' as [depth tokens]. cbn [fst snd] in *.
    destruct (Z.eqb_spec depth 0) as [->|]; [|done].
    unfold prev_after. replace (take (S (length l)) (l ++ LF :: r)) with (l ++ [LF]).
    + rewrite app_comm_cons, last_snoc. f_equal. change (LF :: r) with ([LF] ++ r).
      rewrite (app_assoc l [LF] r). rewrite drop_app_length'; [done|]. rewrite length_app. cbn. lia.
    + change (LF :: r) with ([LF] ++ r). rewrite (app_assoc l [LF] r). rewrite take_app_length'; [done|]. rewrite length_app. cbn. lia.
Qed.

Lemma clauses_app sql toks r :
  existsb (chr_eqb NUL) r = false -> status_ok (fst (clauses sql)) = true ->
  snd (clauses sql) = toks ->
  clauses (sql ++ LF :: r) = scan_from clause_step clause_finish 0 (Some LF) r (0%Z, toks).
Proof.
  unfold clauses. rewrite existsb_app. destruct (existsb (chr_eqb NUL) sql) eqn:En; [done|].
  intros Hr. cbn [orb existsb]. rewrite Hr. change (NUL =c LF) with false. cbn [orb].
  unfold scan. destruct (scan_from _ _ _ _ sql _) as [status toks'] eqn:E. cbn [fst snd].
  intros Hok ->. by eapply clause_scan_app.
Qed.

(** ** Theorems *)

(** The page guard is exact: a page is accepted when and only when page
    and size are positive and the last row position it may ask for, offset +
    size + 1, is representable as an [int64_t]; so neither the offset nor the
    one-row look-ahead overflows. *)
Theorem page_bounds_exact (o : PageOptions) :
  int64_range (po_page o) -> int64_range (po_pageSize o) ->
  page_bounds_bad o = false <->
  (1 <= po_page o /\ 1 <= po_pageSize o /\
   (po_page o - 1) * po_pageSize o + po_pageSize o + 1 <= int64_max)%Z.
Proof.
  unfold page_bounds_bad, int64_range. intros Hp Hs.
  rewrite !orb_false_iff, !Z.ltb_ge, Z.eqb_neq.
  set (p := po_page o) in *. set (s := po_pageSize o) in *.
  split.
  - intros [[[H1 H2] H3] H4]. rewrite Z.quot_div_nonneg in H4 by lia.
    pose proof (Z.mul_div_le (int64_max - s - 1) s ltac:(lia)). nia.
  - intros (H1 & H2 & H3). assert (s <> int64_max) by nia.
    repeat split; try lia. rewrite Z.quot_div_nonneg by nia.
    apply Z.div_le_lower_bound; nia.
Qed.

Lemma page_bounds_exact_witness :
  page_bounds_bad (mkPageOptions 3 20 false DAuto None) = false <->
  (1 <= 3 /\ 1 <= 20 /\ (3 - 1) * 20 + 20 + 1 <= int64_max)%Z.
Proof.
  apply (page_bounds_exact (mkPageOptions 3 20 false DAuto None)); vm_compute; split; discriminate.
Defined.

(** The tokens a dialect's paging clause adds. *)
Definition paging_tokens (d : Dialect) : list str :=
  if dialect_eqb d DMySQL || dialect_eqb d DPostgres then [$"LIMIT"; $"OFFSET"]
  else [$"OFFSET"; $"ROWS"; $"FETCH"; $"NEXT"; $"ROWS"; $"ONLY"].

Lemma limit_tokens toks :
  scan_from clause_step clause_finish 0 (Some LF) (tail limit_clause) (0%Z, toks) =
  (status_OK, (toks ++ [$"LIMIT"]) ++ [$"OFFSET"]).
Proof. vm_compute. reflexivity. Qed.

Lemma fetch_tokens toks :
  scan_from clause_step clause_finish 0 (Some LF) (tail fetch_clause) (0%Z, toks) =
  (status_OK, (((((toks ++ [$"OFFSET"]) ++ [$"ROWS"]) ++ [$"FETCH"]) ++ [$"NEXT"]) ++ [$"ROWS"])
              ++ [$"ONLY"]).
Proof. vm_compute. reflexivity. Qed.

Lemma page_statement_tokens d s o :
  status_ok (fst (clauses (st_sql s))) = true ->
  clauses (st_sql (page_statement d s o)) =
  (status_OK, snd (clauses (st_sql s)) ++ paging_tokens d).
Proof.
  intros Hok. unfold page_statement, paging_tokens.
  destruct (dialect_eqb d DMySQL || dialect_eqb d DPostgres); cbn [st_sql].
  - unfold limit_clause at 1. rewrite (clauses_app _ (snd (clauses (st_sql s)))) by done.
    etrans; [apply (limit_tokens (snd (clauses (st_sql s))))|]. by rewrite <- !app_assoc.
  - unfold fetch_clause at 1. rewrite (clauses_app _ (snd (clauses (st_sql s)))) by done.
    etrans; [apply (fetch_tokens (snd (clauses (st_sql s))))|]. by rewrite <- !app_assoc.
Qed.

Lemma validateSelect_clauses sql ord :
  status_ok (validateSelect sql ord) = true -> status_ok (fst (clauses sql)) = true.
Proof.
  unfold validateSelect. destruct (clauses sql) as [st toks]. cbn [fst].
  destruct (status_ok st) eqn:E; [done|]. cbn. by rewrite E.
Qed.

(** What a successful preparation went through. *)
Lemma preparePage_inv q o detected :
  status_ok (pp_status (preparePage q o detected)) = true ->
  let d := page_dialect q o detected in
  status_ok (pq_status q) = true /\ page_bounds_bad o = false /\ d <> DAuto /\
  status_ok (validateSelect (st_sql (pq_statement q)) true) = true /\
  pp_data (preparePage q o detected) = page_statement d (pq_statement q) o /\
  (po_includeTotal o = false -> pp_count (preparePage q o detected) = None) /\
  (po_includeTotal o = true -> exists c, pp_count (preparePage q o detected) = Some c /\
     status_ok (validateSelect (st_sql c) false) = true).
Proof.
  unfold preparePage. destruct (status_ok (pq_status q)) eqn:E1; cbn [negb]; [|by cbn; rewrite E1].
  destruct (page_bounds_bad o); [done|].
  destruct (status_ok (validateSelect (st_sql (pq_statement q)) true)) eqn:E2;
    cbn [negb]; [|by cbn; rewrite E2].
  assert (Hd : forall d, dialect_eqb d DAuto = false -> d <> DAuto) by (by intros []).
  destruct (po_includeTotal o).
  - destruct (match po_countQuery o with Some s => Some s | None => pq_countQuery q end) as [c|]; [|done].
    destruct (status_ok (validateSelect (st_sql c) false)) eqn:E3; cbn [negb]; [|by cbn; rewrite E3].
    destruct (dialect_eqb _ DAuto) eqn:E4; [done|]. intros _. cbn. naive_solver.
  - destruct (dialect_eqb _ DAuto) eqn:E4; [done|]. intros _. cbn. naive_solver.
Qed.

(** A prepared page is the caller's statement with the dialect's paging
    clause appended: the lexer that accepted the statement reads exactly the
    clause's words after it, at top level, so no comment, literal or
    parenthesis of the statement can swallow or capture the clause; and the
    parameters are the caller's followed by the window (both in range). *)
Theorem preparePage_correct (q : PageQuery) (o : PageOptions) (detected : Dialect) :
  int64_range (po_page o) -> int64_range (po_pageSize o) ->
  status_ok (pp_status (preparePage q o detected)) = true ->
  let d := page_dialect q o detected in
  let data := pp_data (preparePage q o detected) in
  clauses (st_sql data) = (status_OK, snd (clauses (st_sql (pq_statement q))) ++ paging_tokens d) /\
  exists limit offset,
    (offset = (po_page o - 1) * po_pageSize o /\ limit = po_pageSize o + 1 /\
     0 <= offset <= int64_max /\ 2 <= limit <= int64_max)%Z /\
    st_params data = st_params (pq_statement q) ++
      (if dialect_eqb d DMySQL || dialect_eqb d DPostgres
       then [VInt64 limit; VInt64 offset] else [VInt64 offset; VInt64 limit]).
Proof.
  intros Hp Hs H. cbn zeta. destruct (preparePage_inv q o detected H) as (_ & Hb & Hd & Hv & -> & _).
  split; [by eapply page_statement_tokens, validateSelect_clauses|].
  pose proof Hb as Hb'. unfold page_bounds_bad in Hb'.
  rewrite !orb_false_iff, !Z.ltb_ge, Z.eqb_neq in Hb'. destruct Hb' as [[[H1 H2] H3] H4].
  unfold int64_range in *. rewrite Z.quot_div_nonneg in H4 by lia.
  pose proof (Z.mul_div_le (int64_max - po_pageSize o - 1) (po_pageSize o) ltac:(lia)).
  eexists _, _. split; [split; [reflexivity|split; [reflexivity|nia]]|].
  unfold page_statement. by destruct (dialect_eqb _ DMySQL || _).
Qed.

Definition sample_options : PageOptions := mkPageOptions 3 20 true DAuto None.

Lemma preparePage_correct_witness :
  clauses (st_sql (pp_data (preparePage (buildPage sample_page) sample_options DAuto))) =
  (status_OK, snd (clauses (st_sql (pq_statement (buildPage sample_page)))) ++ [$"LIMIT"; $"OFFSET"]).
Proof.
  apply (preparePage_correct (buildPage sample_page) sample_options DAuto);
    [vm_compute; split; discriminate|vm_compute; split; discriminate|vm_compute; reflexivity].
Defined.

(** ** Paging a result *)

Definition with_page (p : Z) (o : PageOptions) : PageOptions :=
  mkPageOptions p (po_pageSize o) (po_includeTotal o) (po_dialect o) (po_countQuery o).

Definition window_of (all : list Row) (o : PageOptions) : list Row :=
  take (Z.to_nat (po_pageSize o + 1)) (drop (Z.to_nat ((po_page o - 1) * po_pageSize o)) all).

(** What the paging clauses mean to a data source of dialect [d] on which statement [s]
    has the rows [all]: it skips and counts as the bound values say. *)
Definition serves (run : Statement -> Status * ResultSet) (all : list Row) (s : Statement) (d : Dialect) : Prop :=
  forall limit offset, (0 <= limit <= int64_max)%Z -> (0 <= offset <= int64_max)%Z ->
  exists rs, rows rs = take (Z.to_nat limit) (drop (Z.to_nat offset) all) /\
    run (match d with
         | DMySQL | DPostgres => mkStatement (st_sql s ++ LF :: $"LIMIT ? OFFSET ?") (st_params s ++ [VInt64 limit; VInt64 offset])
         | _ => mkStatement (st_sql s ++ LF :: $"OFFSET ? ROWS FETCH NEXT ? ROWS ONLY") (st_params s ++ [VInt64 offset; VInt64 limit])
         end) = (status_OK, rs).

Lemma page_bounds_pos o :
  int64_range (po_pageSize o) -> page_bounds_bad o = false ->
  (1 <= po_page o /\ 1 <= po_pageSize o < 2 ^ 63 - 1)%Z.
Proof.
  unfold page_bounds_bad, int64_range, int64_max. rewrite !orb_false_iff, !Z.ltb_ge, Z.eqb_neq. lia.
Qed.

Lemma finish_window all o st m t fs tr :
  status_ok st = true -> (1 <= po_page o)%Z -> (1 <= po_pageSize o < 2 ^ 63 - 1)%Z ->
  let p := finishPageRows (mkPageRows st (mkResultSet fs (window_of all o) tr) (po_page o)
                                      (po_pageSize o) false t m) in
  rows (pr_rows p) = take (Z.to_nat (po_pageSize o))
                          (drop (Z.to_nat ((po_page o - 1) * po_pageSize o)) all) /\
  pr_hasNext p = bool_decide (Z.to_nat (po_page o * po_pageSize o) < length all) /\
  pr_status p = st /\ pr_total p = t.
Proof.
  intros Hst Hp Hs. cbn zeta. unfold finishPageRows, window_of, rs_rowCount.
  cbn [pr_status pr_rows pr_pageSize rows]. rewrite Hst. cbn [negb].
  assert (Hw : wrap_u64 (po_pageSize o) = po_pageSize o)
    by (unfold wrap_u64, uint64_mod; apply Z.mod_small; lia). rewrite Hw.
  set (off := Z.to_nat ((po_page o - 1) * po_pageSize o)).
  set (sz := Z.to_nat (po_pageSize o)).
  assert (E1 : Z.to_nat (po_pageSize o + 1) = S sz) by (unfold sz; lia).
  assert (E2 : Z.to_nat (po_page o * po_pageSize o) = off + sz) by (unfold off, sz; nia).
  assert (E3 : po_pageSize o = Z.of_nat sz) by (unfold sz; lia).
  rewrite E1, E2, length_take, length_drop.
  destruct (po_pageSize o <? Z.of_nat (S sz `min` (length all - off)))%Z eqn:E.
  - apply Z.ltb_lt in E. cbn. rewrite take_take. replace (sz `min` S sz) with sz by lia.
    repeat split. symmetry. apply bool_decide_eq_true. lia.
  - apply Z.ltb_ge in E. cbn. rewrite !take_ge by (rewrite length_drop; lia).
    repeat split. symmetry. apply bool_decide_eq_false. lia.
Qed.

Lemma finishPageRows_status p : pr_status (finishPageRows p) = pr_status p.
Proof. unfold finishPageRows. by destruct (status_ok (pr_status p)). Qed.

(** The prepared statement asks such a source for the page and one row more. *)
Lemma prepared_window run all q o d :
  int64_range (po_pageSize o) -> status_ok (pp_status (preparePage q o d)) = true ->
  serves run all (pq_statement q) (page_dialect q o d) ->
  exists rs, run (pp_data (preparePage q o d)) = (status_OK, rs) /\ rows rs = window_of all o.
Proof.
  intros Hs H Hrun. destruct (preparePage_inv q o d H) as (_ & Hb & Hd & _ & -> & _).
  unfold page_bounds_bad in Hb. rewrite !orb_false_iff, !Z.ltb_ge, Z.eqb_neq in Hb. destruct Hb as [[[H1 H2] H3] H4].
  unfold int64_range in *. rewrite Z.quot_div_nonneg in H4 by lia.
  pose proof (Z.mul_div_le (int64_max - po_pageSize o - 1) (po_pageSize o) ltac:(lia)).
  destruct (Hrun (po_pageSize o + 1) ((po_page o - 1) * po_pageSize o))%Z as (rs & Hrows & Hr); [lia|nia|].
  exists rs. split; [|done]. rewrite <- Hr. unfold page_statement. by destruct (page_dialect q o d).
Qed.

(** A page that succeeds was prepared. *)
Lemma runPage_ok_prepared run q o d :
  status_ok (pr_status (runPage run q o d)) = true -> status_ok (pp_status (preparePage q o d)) = true.
Proof. unfold runPage. cbn [pr_status set_pr_status emptyPage]. destruct (status_ok (pp_status _)) eqn:E; cbn [negb]; [done|]. cbn. by rewrite E. Qed.

Lemma run_window (run : Statement -> Status * ResultSet) (all : list Row)
    (q : PageQuery) (o : PageOptions) (d : Dialect) :
  int64_range (po_pageSize o) -> serves run all (pq_statement q) (page_dialect q o d) ->
  let page := runPage run q o d in
  status_ok (pr_status page) = true ->
  rows (pr_rows page) = take (Z.to_nat (po_pageSize o))
                             (drop (Z.to_nat ((po_page o - 1) * po_pageSize o)) all) /\
  pr_hasNext page = bool_decide (Z.to_nat (po_page o * po_pageSize o) < length all).
Proof.
  intros Hs Hrun. cbn zeta. intros Hok. pose proof (runPage_ok_prepared _ _ _ _ Hok) as H.
  destruct (prepared_window run all q o d Hs H Hrun) as (rs & Hr & Hrows).
  destruct (preparePage_inv q o d H) as (_ & Hb & _). destruct (page_bounds_pos o Hs Hb) as [Hp Hs'].
  revert Hok. unfold runPage. cbn [pr_status set_pr_status emptyPage]. rewrite H, Hr. cbn [negb].
  destruct rs as [fs rws tr]. cbn in Hrows. subst rws.
  set (result := set_pr_rows _ _).
  assert (Hres : forall r, pr_rows r = mkResultSet fs (window_of all o) tr -> pr_page r = po_page o -> pr_pageSize r = po_pageSize o ->
    pr_hasNext r = false -> status_ok (pr_status (finishPageRows r)) = true ->
    rows (pr_rows (finishPageRows r)) = take (Z.to_nat (po_pageSize o)) (drop (Z.to_nat ((po_page o - 1) * po_pageSize o)) all) /\
    pr_hasNext (finishPageRows r) = bool_decide (Z.to_nat (po_page o * po_pageSize o) < length all)).
  { intros [st rs pg sz nx tot md]. cbn [pr_rows pr_page pr_pageSize pr_hasNext]. intros -> -> -> -> Hok.
    assert (Hst : status_ok st = true) by (by rewrite finishPageRows_status in Hok).
    destruct (finish_window all o st md tot fs tr Hst Hp Hs') as (H1 & H2 & _). done. }
  apply Hres; destruct (pp_count _) as [c|]; try done;
    (destruct (status_ok (pr_status result)); [|done]; destruct (run c) as [st' rs']; destruct (status_ok st'); [|done];
     unfold take_total; by destruct (readPageTotal rs')).
Qed.

(** Against a data source that gives the paging clause of its dialect its meaning, a
    page that succeeds holds exactly the rows of its window of the full result (the
    look-ahead row is dropped) and [hasNext] tells whether rows remain. *)
Theorem runPage_window (run : Statement -> Status * ResultSet) (all : list Row)
    (q : PageQuery) (o : PageOptions) (d : Dialect) :
  int64_range (po_pageSize o) -> serves run all (pq_statement q) (page_dialect q o d) ->
  let page := runPage run q o d in
  status_ok (pr_status page) = true ->
  rows (pr_rows page) = take (Z.to_nat (po_pageSize o))
                             (drop (Z.to_nat ((po_page o - 1) * po_pageSize o)) all) /\
  pr_hasNext page = bool_decide (Z.to_nat (po_page o * po_pageSize o) < length all).
Proof. apply run_window. Qed.

(** A data source over a fixed list of rows, read through the window that the
    last two parameters of a PostgreSQL page give. *)
Definition list_source (all : list Row) (s : Statement) : Status * ResultSet :=
  match reverse (st_params s) with
  | VInt64 offset :: VInt64 limit :: _ =>
      (status_OK, mkResultSet [] (take (Z.to_nat limit) (drop (Z.to_nat offset) all)) false)
  | _ => (status_error QueryError [], rs_empty)
  end.

Definition sample_rows (n : nat) : list Row := replicate n (mkRow [($"id", VInt64 1)]).

Lemma list_source_serves (all : list Row) (s : Statement) (d : Dialect) : d = DMySQL \/ d = DPostgres -> serves (list_source all) all s d.
Proof.
  intros Hd limit offset _ _. exists (mkResultSet [] (take (Z.to_nat limit) (drop (Z.to_nat offset) all)) false).
  split; [done|]. destruct Hd as [-> | ->]; unfold list_source; cbn [st_params]; rewrite reverse_app; reflexivity.
Qed.

Lemma runPage_window_witness :
  let page := runPage (list_source (sample_rows 50)) (buildPage sample_page)
                      (mkPageOptions 3 20 false DAuto None) DAuto in
  rows (pr_rows page) = take (Z.to_nat 20) (drop (Z.to_nat ((3 - 1) * 20)) (sample_rows 50)) /\
  pr_hasNext page = bool_decide (Z.to_nat (3 * 20) < length (sample_rows 50)).
Proof.
  apply (runPage_window (list_source (sample_rows 50)) (sample_rows 50) (buildPage sample_page)
           (mkPageOptions 3 20 false DAuto None) DAuto).
  - vm_compute. split; discriminate.
  - apply list_source_serves. vm_compute. auto.
  - vm_compute. reflexivity.
Defined.

Lemma pages_take (sz n : nat) (all : list Row) :
  concat (map (fun i => take sz (drop (i * sz) all)) (seq 0 n)) = take (n * sz) all.
Proof.
  induction n as [|n IH]; [done|].
  rewrite seq_S, map_app, concat_app, IH. cbn [map concat]. rewrite app_nil_r.
  cbn [Nat.add]. rewrite Nat.mul_succ_l.
  rewrite <- (take_drop (n * sz) all) at 3. rewrite take_app.
  rewrite length_take. rewrite (take_ge (take _ _)) by (rewrite length_take; lia).
  f_equal. destruct (decide (n * sz <= length all)).
  - f_equal. lia.
  - rewrite drop_ge by lia. by rewrite !take_nil.
Qed.

(** C36. Against a data source that gives the paging clause of its dialect its meaning
    on a fixed result, pages 1, 2, ..., n that all succeed, with or without a total, are
    the first n * size rows of the result, in order, with no row lost or repeated; when
    the last of them has no next page, they are the whole result. *)
Theorem pages_cover (run : Statement -> Status * ResultSet) (all : list Row)
    (q : PageQuery) (o : PageOptions) (d : Dialect) (n : nat) :
  int64_range (po_pageSize o) -> serves run all (pq_statement q) (page_dialect q o d) ->
  let page i := runPage run q (with_page (Z.of_nat i + 1) o) d in
  (forall i, i < n -> status_ok (pr_status (page i)) = true) ->
  concat (map (fun i => rows (pr_rows (page i))) (seq 0 n)) = take (n * Z.to_nat (po_pageSize o)) all /\
  (0 < n -> pr_hasNext (page (n - 1)) = false ->
   concat (map (fun i => rows (pr_rows (page i))) (seq 0 n)) = all).
Proof.
  intros Hs Hrun. cbn zeta. intros H.
  assert (Hpage : forall i, i < n ->
    rows (pr_rows (runPage run q (with_page (Z.of_nat i + 1) o) d)) =
      take (Z.to_nat (po_pageSize o)) (drop (i * Z.to_nat (po_pageSize o)) all) /\
    (pr_hasNext (runPage run q (with_page (Z.of_nat i + 1) o) d) = false ->
     length all <= S i * Z.to_nat (po_pageSize o))).
  { intros i Hi. specialize (H i Hi).
    destruct (preparePage_inv q _ d (runPage_ok_prepared _ _ _ _ H)) as (_ & Hb & _).
    destruct (page_bounds_pos (with_page _ o) Hs Hb) as [_ Hsz]. cbn in Hsz.
    destruct (run_window run all q (with_page (Z.of_nat i + 1) o) d Hs Hrun H) as (-> & ->).
    cbn [with_page po_page po_pageSize]. split; [do 2 f_equal; nia|]. intros Hn%bool_decide_eq_false. nia. }
  assert (Hall : concat (map (fun i => rows (pr_rows (runPage run q (with_page (Z.of_nat i + 1) o) d)))
                             (seq 0 n)) = take (n * Z.to_nat (po_pageSize o)) all).
  { rewrite <- pages_take. f_equal. apply map_ext_in. intros i Hi%in_seq. by apply Hpage; lia. }
  split; [done|]. intros Hn Hnext. rewrite Hall. apply take_ge.
  destruct (Hpage (n - 1)) as [_ Hlen]; [lia|]. specialize (Hlen Hnext).
  by replace (S (n - 1)) with n in Hlen by lia.
Qed.

Lemma pages_cover_witness :
  let page i := runPage (list_source (sample_rows 50)) (buildPage sample_page)
                  (with_page (Z.of_nat i + 1) (mkPageOptions 1 20 false DAuto None)) DAuto in
  concat (map (fun i => rows (pr_rows (page i))) (seq 0 3)) = take (3 * Z.to_nat 20) (sample_rows 50) /\
  (0 < 3 -> pr_hasNext (page (3 - 1)) = false ->
   concat (map (fun i => rows (pr_rows (page i))) (seq 0 3)) = sample_rows 50).
Proof.
  apply (pages_cover (list_source (sample_rows 50)) (sample_rows 50) (buildPage sample_page)
           (mkPageOptions 1 20 false DAuto None) DAuto 3).
  - vm_compute. split; discriminate.
  - apply list_source_serves. vm_compute. auto.
  - intros i Hi. destruct i as [|[|[|i]]]; [| | |lia]; vm_compute; reflexivity.
Defined.

(** ** The asynchronous join *)

Lemma finishPageRows_failed p :
  status_ok (pr_status p) = false ->
  status_ok (pr_status (finishPageRows p)) = false /\
  rows (pr_rows (finishPageRows p)) = [] /\ pr_hasNext (finishPageRows p) = false /\
  pr_total (finishPageRows p) = None.
Proof. intros H. unfold finishPageRows. rewrite H. done. Qed.

(** Two pages that report the same outcome: both failed and empty, or both
    succeeded with the same content (up to the text of an Ok status). *)
Definition same_outcome (p1 p2 : PageRows) : Prop :=
  status_ok (pr_status p1) = status_ok (pr_status p2) /\
  (if status_ok (pr_status p1)
   then set_pr_status status_OK p1 = set_pr_status status_OK p2
   else (rows (pr_rows p1) = [] /\ pr_hasNext p1 = false /\ pr_total p1 = None) /\
        (rows (pr_rows p2) = [] /\ pr_hasNext p2 = false /\ pr_total p2 = None)).

Lemma same_outcome_failed p1 p2 :
  status_ok (pr_status p1) = false -> status_ok (pr_status p2) = false ->
  same_outcome (finishPageRows p1) (finishPageRows p2).
Proof.
  intros H1 H2. unfold same_outcome. rewrite !finishPageRows_status, H1, H2.
  destruct (finishPageRows_failed p1 H1) as (_ & ? & ? & ?).
  destruct (finishPageRows_failed p2 H2) as (_ & ? & ? & ?). auto.
Qed.

Lemma same_outcome_ok st1 st2 rs pg sz h t m :
  status_ok st1 = true -> status_ok st2 = true ->
  same_outcome (finishPageRows (mkPageRows st1 rs pg sz h t m))
               (finishPageRows (mkPageRows st2 rs pg sz h t m)).
Proof.
  intros H1 H2. unfold same_outcome. rewrite !finishPageRows_status. cbn [pr_status].
  rewrite H1, H2. split; [done|]. unfold finishPageRows. cbn [pr_status]. rewrite H1, H2. done.
Qed.

(** Two completions of a join that waits for two. *)
Lemma accept_twice x cx y cy r :
  pd_completed (accept y cy (accept x cx (mkPending false 2 r []))) =
  if status_ok (pr_status (accept_page x cx r))
  then [finishPageRows (accept_page y cy (accept_page x cx r))]
  else [finishPageRows (set_pr_mode CompatibilityFallback (accept_page x cx r))].
Proof.
  unfold accept at 2. cbn [pd_done pd_result pd_pending pd_completed].
  change (negb (2 - 1 =? 0)%Z) with true. rewrite !andb_true_r.
  destruct (status_ok (pr_status (accept_page x cx r))) eqn:E; cbn [negb]; unfold accept;
    cbn [pd_done pd_result pd_pending pd_completed]; [|done].
  change (negb (2 - 1 - 1 =? 0)%Z) with false. by rewrite !andb_false_r.
Qed.

Lemma take_total_status rs r :
  status_ok (pr_status (take_total rs r)) =
  match readPageTotal rs with inl _ => false | inr _ => true end.
Proof.
  unfold take_total. destruct (readPageTotal rs) as [st|t] eqn:E; [|done]. cbn.
  revert E. unfold readPageTotal. repeat (split_match; try done); by intros [= <-].
Qed.

(** Whether a completion succeeds does not depend on what came before. *)
Definition raw_ok (raw : AsyncQueryResult) (count : bool) : bool :=
  status_ok (aq_status raw) &&
  (if count then match readPageTotal (aq_rows raw) with inl _ => false | inr _ => true end else true).

Lemma accept_page_status raw count r :
  status_ok (pr_status (accept_page raw count r)) = raw_ok raw count.
Proof.
  unfold accept_page, raw_ok. cbn [set_pr_status pr_status].
  destruct (status_ok (aq_status raw)) eqn:E; cbn [andb]; [|by destruct (aq_mode raw)].
  destruct count; [apply take_total_status|]. by destruct (aq_mode raw).
Qed.

(** When both succeed, the order does not matter, up to the Ok status kept. *)
Lemma accept_pages_commute dr cr r :
  raw_ok dr false = true -> raw_ok cr true = true ->
  exists st1 st2 m t, status_ok st1 = true /\ status_ok st2 = true /\
    (aq_mode dr = Native -> aq_mode cr = Native -> m = pr_mode r) /\
    readPageTotal (aq_rows cr) = inr t /\
    accept_page cr true (accept_page dr false r) =
      mkPageRows st1 (aq_rows dr) (pr_page r) (pr_pageSize r) (pr_hasNext r) (Some t) m /\
    accept_page dr false (accept_page cr true r) =
      mkPageRows st2 (aq_rows dr) (pr_page r) (pr_pageSize r) (pr_hasNext r) (Some t) m.
Proof.
  unfold raw_ok. rewrite andb_true_r. intros Hd [Hc Ht]%andb_prop.
  destruct (readPageTotal (aq_rows cr)) as [|t] eqn:Et; [done|].
  unfold accept_page, take_total. cbn [set_pr_status pr_status]. rewrite Hd, Hc, Et.
  eexists status_OK, (aq_status dr),
    (match aq_mode dr, aq_mode cr with Native, Native => pr_mode r | _, _ => CompatibilityFallback end), t.
  repeat (split; [done|]). split; [by intros -> ->|]. split; [done|].
  destruct (aq_mode dr), (aq_mode cr); cbn; rewrite ?Hd; done.
Qed.

(** The synchronous path on the same results. *)
Lemma runPage_results q o d c dr cr run :
  status_ok (pp_status (preparePage q o d)) = true ->
  pp_count (preparePage q o d) = Some c ->
  run (pp_data (preparePage q o d)) = (aq_status dr, aq_rows dr) ->
  run c = (aq_status cr, aq_rows cr) ->
  exists p, runPage run q o d = finishPageRows p /\
    (if raw_ok dr false && raw_ok cr true
     then exists t, readPageTotal (aq_rows cr) = inr t /\
            p = mkPageRows status_OK (aq_rows dr) (po_page o) (po_pageSize o) false (Some t) Native
     else status_ok (pr_status p) = false).
Proof.
  intros Hst Hc Hrd Hrc. unfold runPage. rewrite Hrd, Hc, Hrc.
  cbn [set_pr_status pr_status emptyPage]. rewrite Hst. cbn [negb set_pr_rows pr_status].
  eexists; split; [reflexivity|]. unfold raw_ok. cbn [andb]. rewrite andb_true_r.
  cbn [set_pr_status set_pr_mode set_pr_rows emptyPage pr_status pr_rows pr_page pr_pageSize
       pr_hasNext pr_total pr_mode].
  destruct (status_ok (aq_status dr)) eqn:Ed; cbn [andb]; [|done].
  destruct (status_ok (aq_status cr)) eqn:Ec; cbn [andb]; [|done].
  pose proof (take_total_status (aq_rows cr)) as Ht. unfold take_total in *.
  destruct (readPageTotal (aq_rows cr)) as [st|t]; [|by exists t].
  apply (Ht (emptyPage o)).
Qed.

(** The asynchronous page joins its two queries without a race: whichever
    of the data and the COUNT completes first, the completion is called exactly
    once, with the same page; when both queries ran natively it is the page the
    synchronous path returns for the same query results. *)
Theorem accept_join (q : PageQuery) (o : PageOptions) (d : Dialect) (c : Statement)
    (dr cr : AsyncQueryResult) (run : Statement -> Status * ResultSet) :
  status_ok (pp_status (preparePage q o d)) = true ->
  pp_count (preparePage q o d) = Some c ->
  run (pp_data (preparePage q o d)) = (aq_status dr, aq_rows dr) ->
  run c = (aq_status cr, aq_rows cr) ->
  let start := pending_start (preparePage q o d) o in
  exists p1 p2,
    pd_completed (accept cr true (accept dr false start)) = [p1] /\
    pd_completed (accept dr false (accept cr true start)) = [p2] /\
    same_outcome p1 p2 /\
    (aq_mode dr = Native -> aq_mode cr = Native -> same_outcome p1 (runPage run q o d)).
Proof.
  intros Hst Hc Hrd Hrc. cbn zeta.
  destruct (runPage_results q o d c dr cr run Hst Hc Hrd Hrc) as (p & -> & Hp).
  unfold pending_start. rewrite Hc, !accept_twice, !accept_page_status.
  set (r := set_pr_mode Native _) in *.
  destruct (raw_ok dr false) eqn:Ed, (raw_ok cr true) eqn:Ec; cbn [andb] in Hp.
  - destruct (accept_pages_commute dr cr r Ed Ec) as (st1 & st2 & m & t & H1 & H2 & Hm & Ht & -> & ->).
    destruct Hp as (t' & Ht' & ->). rewrite Ht in Ht'. injection Ht' as <-.
    do 2 eexists. split; [reflexivity|]. split; [reflexivity|].
    split; [by apply same_outcome_ok|]. intros Hd' Hc'. rewrite (Hm Hd' Hc').
    by apply same_outcome_ok.
  - do 2 eexists. split; [reflexivity|]. split; [reflexivity|].
    split; [|intros _ _]; apply same_outcome_failed; try done; cbn; rewrite accept_page_status; done.
  - do 2 eexists. split; [reflexivity|]. split; [reflexivity|].
    split; [|intros _ _]; apply same_outcome_failed; try done; cbn; rewrite accept_page_status; done.
  - do 2 eexists. split; [reflexivity|]. split; [reflexivity|].
    split; [|intros _ _]; apply same_outcome_failed; try done; cbn; rewrite accept_page_status; done.
Qed.

Lemma accept_join_witness :
  let q := buildPage sample_page in
  let dr := mkAsyncResult status_OK (mkResultSet [] (sample_rows 21) false) Native in
  let cr := mkAsyncResult status_OK
              (mkResultSet [$"count"] [mkRow [($"count", VDecimal ($"50.00"))]] false) Native in
  let run := fun s => if starts_with ($"SELECT COUNT") (st_sql s)
                      then (aq_status cr, aq_rows cr) else (aq_status dr, aq_rows dr) in
  exists p1 p2,
    pd_completed (accept cr true (accept dr false
      (pending_start (preparePage q sample_options DAuto) sample_options))) = [p1] /\
    pd_completed (accept dr false (accept cr true
      (pending_start (preparePage q sample_options DAuto) sample_options))) = [p2] /\
    same_outcome p1 p2 /\
    (Native = Native -> Native = Native -> same_outcome p1 (runPage run q sample_options DAuto)).
Proof.
  cbn zeta. eapply (accept_join (buildPage sample_page) sample_options DAuto
    (default empty_statement (pq_countQuery (buildPage sample_page)))
    (mkAsyncResult status_OK (mkResultSet [] (sample_rows 21) false) Native)
    (mkAsyncResult status_OK
       (mkResultSet [$"count"] [mkRow [($"count", VDecimal ($"50.00"))]] false) Native));
    vm_compute; reflexivity.
Defined.
