(* ===== verification/ResultCache.v ===== *)
(** * ResultCache: what the data sources rely on in a result cache

    The interface between src/core/query_cache.cpp and its client, the query and
    write paths of src/core/database_manager.cpp: the operations the client
    calls and the laws it relies on.  A cache represents a map from (data
    source, key) to an accepted result and its expiry; it may forget entries at
    any time, but it never invents, confuses or resurrects one. *)

From S2P Require Import Prelude Types.

Abbreviation answers := (gmap (str * str) (ResultSet * Z)).

(** The entries that survive an invalidation of [ds]. *)
Definition without (ds : str) (m : answers) : answers := filter (fun kv => kv.1.1 <> ds) m.

Class ResultCache (C : Type) : Type := {
  rc_enabled : C -> bool;
  rc_replicaOnly : C -> bool;
  rc_ttl : C -> Z;
  rc_get : Z -> str -> str -> C -> option ResultSet * C;
  rc_put : Z -> str -> str -> ResultSet -> C -> C;
  rc_invalidate : str -> C -> C;
  rc_rep : C -> answers -> Prop;
  rc_get_law : forall now ds key c m, NUL ∉ ds -> rc_rep c m ->
    rc_rep (snd (rc_get now ds key c)) m /\ rc_ttl (snd (rc_get now ds key c)) = rc_ttl c /\
    forall rs, fst (rc_get now ds key c) = Some rs ->
      exists expire, m !! (ds, key) = Some (rs, expire) /\ (now < expire)%Z;
  rc_put_law : forall now ds key rs c m, NUL ∉ ds -> rc_rep c m ->
    rc_ttl (rc_put now ds key rs c) = rc_ttl c /\
    (rc_rep (rc_put now ds key rs c) m \/
     rc_rep (rc_put now ds key rs c) (<[(ds, key) := (rs, now + rc_ttl c)%Z]> m));
  rc_invalidate_law : forall ds c m, NUL ∉ ds -> rc_rep c m ->
    rc_ttl (rc_invalidate ds c) = rc_ttl c /\ rc_rep (rc_invalidate ds c) (without ds m)
}.

(** Invalidating a list of data sources. *)
Definition invalidate_list {C} `{ResultCache C} (names : list str) (c : C) : C :=
  fold_left (fun c n => rc_invalidate n c) names c.

Definition without_list (names : list str) (m : answers) : answers :=
  fold_left (fun m n => without n m) names m.

Lemma without_lookup ds m ds' key :
  without ds m !! (ds', key) = if decide (ds' = ds) then None else m !! (ds', key).
Proof.
  unfold without. rewrite map_lookup_filter. destruct (m !! (ds', key)); cbn; [|by case_decide].
  case_guard; cbn; by case_decide.
Qed.

Lemma without_list_lookup names m ds key :
  without_list names m !! (ds, key) = if decide (ds ∈ names) then None else m !! (ds, key).
Proof.
  revert m; induction names as [|n names IH]; intros m; cbn [without_list fold_left].
  - rewrite decide_False; [done|]. apply not_elem_of_nil.
  - fold (without_list names (without n m)). rewrite IH, without_lookup.
    repeat case_decide; try done; exfalso; set_solver.
Qed.

Lemma invalidate_list_law {C} `{ResultCache C} names c m :
  Forall (fun n => NUL ∉ n) names -> rc_rep c m ->
  rc_ttl (invalidate_list names c) = rc_ttl c /\ rc_rep (invalidate_list names c) (without_list names m).
Proof.
  intros Hn. revert c m. induction Hn as [|n names Hn _ IH]; intros c m HR; [done|].
  destruct (rc_invalidate_law n c m Hn HR) as [Ht HR'].
  unfold invalidate_list, without_list in *. cbn [fold_left].
  destruct (IH _ _ HR') as [Ht' HR'']. split; [congruence|done].
Qed.
