(* ===== verification/QueryCache.v ===== *)
(** * QueryCache: the LRU result cache

    Models src/core/query_cache.cpp and include/sqlconduit/core/query_cache.h
    ([detail::QueryCacheState]).  [std::unordered_map] is a [gmap]; the LRU list
    holds the keys, and an entry's list iterator is the position of its key.
    Every operation runs under the mutex and is one function on the state; the
    steady clock is an argument.  [sizeof(Value)] and [sizeof(std::string)] are
    parameters. *)

From S2P Require Import Prelude Types ResultCache.

Record QueryCacheConfig : Type := mkCacheConfig {
  cc_enabled : bool;
  cc_ttl_ms : Z;
  cc_max_entries : Z;
  cc_max_memory_bytes : Z;
  cc_replica_only : bool
}.

Record Entry : Type := mkEntry { e_rs : ResultSet; e_expire : Z; e_bytes : nat }.

Record QueryCacheState : Type := mkCache {
  cfg_ : QueryCacheConfig;
  store_ : gmap str Entry;
  lru_ : list str;
  totalBytes_ : nat;
  enabled_ : bool;
  replicaOnly_ : bool;
  hits_ : Z;
  misses_ : Z;
  evictions_ : Z;
  invalidations_ : Z
}.

Definition default_config : QueryCacheConfig := mkCacheConfig false 60000 1000 0 false.
Definition cache_init : QueryCacheState :=
  mkCache default_config ∅ [] 0 false false 0 0 0 0.

(** Replace the mutex-protected part, or one counter. *)
Definition with_store (m : gmap str Entry) (l : list str) (t : nat) (s : QueryCacheState) :=
  mkCache (cfg_ s) m l t (enabled_ s) (replicaOnly_ s) (hits_ s) (misses_ s) (evictions_ s)
          (invalidations_ s).
Definition add_hit (s : QueryCacheState) :=
  mkCache (cfg_ s) (store_ s) (lru_ s) (totalBytes_ s) (enabled_ s) (replicaOnly_ s)
          (wrap_u64 (hits_ s + 1)) (misses_ s) (evictions_ s) (invalidations_ s).
Definition add_miss (s : QueryCacheState) :=
  mkCache (cfg_ s) (store_ s) (lru_ s) (totalBytes_ s) (enabled_ s) (replicaOnly_ s) (hits_ s)
          (wrap_u64 (misses_ s + 1)) (evictions_ s) (invalidations_ s).
Definition add_eviction (s : QueryCacheState) :=
  mkCache (cfg_ s) (store_ s) (lru_ s) (totalBytes_ s) (enabled_ s) (replicaOnly_ s) (hits_ s)
          (misses_ s) (wrap_u64 (evictions_ s + 1)) (invalidations_ s).
Definition add_invalidations (n : nat) (s : QueryCacheState) :=
  mkCache (cfg_ s) (store_ s) (lru_ s) (totalBytes_ s) (enabled_ s) (replicaOnly_ s) (hits_ s)
          (misses_ s) (evictions_ s) (wrap_u64 (invalidations_ s + Z.of_nat n)).

Definition compositeKey (dataSource key : str) : str := dataSource ++ NUL :: key.

(** Erase the list node an iterator designates: the occurrence of its key. *)
Fixpoint list_erase (k : str) (l : list str) : list str :=
  match l with
  | [] => []
  | x :: l' => if x =s k then l' else x :: list_erase k l'
  end.

Section Cache.
Variable sizeof_string sizeof_value : nat.

Definition valueBytes (v : Value) : nat :=
  match v with
  | VString s | VDecimal s | VDate s | VTime s | VUuid s | VJson s | VBlob s => length s
  | _ => sizeof_value
  end.

Definition row_bytes (r : Row) : nat :=
  sum_list_with (fun cv => length (fst cv) + sizeof_string + valueBytes (snd cv)) (row_data r).

Definition approxBytes (rs : ResultSet) : nat :=
  sum_list_with (fun f => length f + sizeof_string) (fields rs) +
  sum_list_with row_bytes (rows rs).

(** [total -= (bytes <= total ? bytes : total)] *)
Definition sub_bytes (total bytes : nat) : nat :=
  total - (if bytes <=? total then bytes else total).

Definition eraseLocked (k : str) (e : Entry) (s : QueryCacheState) : QueryCacheState :=
  with_store (delete k (store_ s)) (list_erase k (lru_ s)) (sub_bytes (totalBytes_ s) (e_bytes e)) s.

Definition positive (z : Z) : nat := if (0 <? z)%Z then Z.to_nat z else 0.

(** The exit test of the eviction loop. *)
Definition over_limit (incomingBytes : nat) (reserveSlot : bool) (s : QueryCacheState) : bool :=
  let maxEntries := positive (cc_max_entries (cfg_ s)) in
  let maxBytes := positive (cc_max_memory_bytes (cfg_ s)) in
  ((0 <? maxEntries) &&
   (if reserveSlot then maxEntries <=? size (store_ s) else maxEntries <? size (store_ s))) ||
  ((0 <? maxBytes) && (maxBytes <? totalBytes_ s + incomingBytes)).

(** Each iteration drops the back of the list, so its length bounds the loop. *)
Fixpoint evict_loop (fuel : nat) (incomingBytes : nat) (reserveSlot : bool) (s : QueryCacheState)
    : QueryCacheState :=
  match fuel, last (lru_ s) with
  | S fuel', Some old =>
      if negb (over_limit incomingBytes reserveSlot s) then s
      else match store_ s !! old with
           | None => evict_loop fuel' incomingBytes reserveSlot
                       (with_store (store_ s) (removelast (lru_ s)) (totalBytes_ s) s)
           | Some e => evict_loop fuel' incomingBytes reserveSlot (add_eviction (eraseLocked old e s))
           end
  | _, _ => s
  end.

Definition evictLocked (incomingBytes : nat) (reserveSlot : bool) (s : QueryCacheState) :=
  evict_loop (length (lru_ s)) incomingBytes reserveSlot s.

Definition configure (cfg : QueryCacheConfig) (s : QueryCacheState) : QueryCacheState :=
  mkCache cfg ∅ [] 0 (cc_enabled cfg && (0 <? cc_ttl_ms cfg)%Z) (cc_replica_only cfg)
          (hits_ s) (misses_ s) (evictions_ s) (invalidations_ s).

Definition get (now : Z) (dataSource key : str) (s : QueryCacheState)
    : option ResultSet * QueryCacheState :=
  if negb (enabled_ s) then (None, s)
  else if negb (cc_enabled (cfg_ s)) then (None, s)
  else
    let ck := compositeKey dataSource key in
    match store_ s !! ck with
    | None => (None, add_miss s)
    | Some e =>
        if (e_expire e <=? now)%Z then (None, add_miss (eraseLocked ck e s))
        else (Some (e_rs e),
              add_hit (with_store (store_ s) (ck :: list_erase ck (lru_ s)) (totalBytes_ s) s))
    end.

(** Milliseconds in the clock's ticks (nanoseconds). *)
Definition ttl_ticks (s : QueryCacheState) : Z := (cc_ttl_ms (cfg_ s) * 1000000)%Z.

Definition put_entry (now : Z) (ck : str) (rs : ResultSet) (bytes : nat) (s : QueryCacheState)
    : QueryCacheState :=
  let e := mkEntry rs (now + ttl_ticks s) bytes in
  match store_ s !! ck with
  | Some old =>
      evictLocked 0 false
        (with_store (<[ck := e]> (store_ s)) (ck :: list_erase ck (lru_ s))
                    (sub_bytes (totalBytes_ s) (e_bytes old) + bytes) s)
  | None =>
      let s' := evictLocked bytes true s in
      with_store (<[ck := e]> (store_ s')) (ck :: lru_ s') (totalBytes_ s' + bytes) s'
  end.

Definition put (now : Z) (dataSource key : str) (rs : ResultSet) (s : QueryCacheState)
    : QueryCacheState :=
  if negb (enabled_ s) then s
  else
    let bytes := approxBytes rs in
    if negb (cc_enabled (cfg_ s)) then s
    else if (cc_ttl_ms (cfg_ s) <=? 0)%Z then s
    else if (0 <? cc_max_memory_bytes (cfg_ s))%Z &&
            (Z.to_nat (cc_max_memory_bytes (cfg_ s)) <? bytes) then s
    else put_entry now (compositeKey dataSource key) rs bytes s.

(** The removal loop of [invalidate], over the keys in some iteration order. *)
Fixpoint invalidate_loop (prefix : str) (keys : list str) (s : QueryCacheState) (removed : nat)
    : QueryCacheState * nat :=
  match keys with
  | [] => (s, removed)
  | k :: keys' =>
      match store_ s !! k with
      | Some e =>
          if starts_with prefix k then invalidate_loop prefix keys' (eraseLocked k e s) (S removed)
          else invalidate_loop prefix keys' s removed
      | None => invalidate_loop prefix keys' s removed
      end
  end.

Definition invalidate (dataSource : str) (s : QueryCacheState) : QueryCacheState :=
  if negb (enabled_ s) then s
  else if bool_decide (store_ s = ∅) then s
  else
    let '(s', removed) :=
      invalidate_loop (compositeKey dataSource []) (map_to_list (store_ s)).*1 s 0 in
    if 0 <? removed then add_invalidations removed s' else s'.

Record QueryCacheStats : Type := mkStats {
  s_entries : nat; s_approxBytes : nat;
  s_hits : Z; s_misses : Z; s_evictions : Z; s_invalidations : Z
}.

Definition stats (s : QueryCacheState) : QueryCacheStats :=
  mkStats (size (store_ s)) (totalBytes_ s) (hits_ s) (misses_ s) (evictions_ s) (invalidations_ s).

(** ** The structural invariant *)

Definition bytes_of (m : gmap str Entry) (k : str) : nat :=
  match m !! k with Some e => e_bytes e | None => 0 end.

(** List and map hold the same keys, and the byte counter is their sum. *)
Definition linked (s : QueryCacheState) : Prop :=
  NoDup (lru_ s) /\ (forall k, k ∈ lru_ s <-> is_Some (store_ s !! k)) /\
  totalBytes_ s = sum_list_with (bytes_of (store_ s)) (lru_ s).

Definition within_limits (s : QueryCacheState) : Prop :=
  ((0 < cc_max_entries (cfg_ s))%Z -> size (store_ s) <= Z.to_nat (cc_max_entries (cfg_ s))) /\
  ((0 < cc_max_memory_bytes (cfg_ s))%Z ->
   totalBytes_ s <= Z.to_nat (cc_max_memory_bytes (cfg_ s))).

Lemma list_erase_perm k l : k ∈ l -> l ≡ₚ k :: list_erase k l.
Proof.
  induction l as [|x l IH]; [by intros ?%not_elem_of_nil|]. cbn.
  destruct (x =s k) eqn:E; [by apply str_eqb_true in E as ->|].
  intros [->|H]%elem_of_cons; [by rewrite (proj2 (str_eqb_true x x) eq_refl) in E|].
  rewrite (IH H) at 1. by rewrite Permutation_swap.
Qed.

Lemma list_erase_elem k l x : NoDup l -> k ∈ l -> x ∈ list_erase k l <-> x ∈ l /\ x <> k.
Proof.
  intros Hnd Hk. pose proof (list_erase_perm k l Hk) as Hp.
  rewrite Hp in Hnd. apply NoDup_cons in Hnd as [Hn _].
  rewrite (elem_of_Permutation_proper x _ _ Hp), elem_of_cons. naive_solver.
Qed.

Lemma list_erase_nodup k l : NoDup l -> NoDup (list_erase k l).
Proof.
  intros Hnd. destruct (decide (k ∈ l)) as [Hk|Hk].
  - pose proof (list_erase_perm k l Hk) as Hp. rewrite Hp in Hnd. by apply NoDup_cons in Hnd as [_ ?].
  - assert (list_erase k l = l) as ->; [|done]. clear Hnd. induction l as [|x l IH]; [done|].
    cbn. apply not_elem_of_cons in Hk as [Hx Hk]. destruct (x =s k) eqn:E.
    + apply str_eqb_true in E. congruence.
    + by rewrite IH.
Qed.

Lemma sum_bytes_ext m1 m2 l :
  (forall k, k ∈ l -> m1 !! k = m2 !! k) ->
  sum_list_with (bytes_of m1) l = sum_list_with (bytes_of m2) l.
Proof.
  intros H. induction l as [|k l IH]; [done|]. cbn. unfold bytes_of at 1 3.
  rewrite (H k) by set_solver. f_equal. apply IH. set_solver.
Qed.

Lemma linked_size s : linked s -> size (store_ s) = length (lru_ s).
Proof.
  intros (Hnd & Hd & _). rewrite <- (size_list_to_set (C := gset str) (lru_ s)) by done.
  rewrite <- (size_dom (D := gset str)). f_equal. apply leibniz_equiv. intros k.
  rewrite elem_of_dom, elem_of_list_to_set. by rewrite Hd.
Qed.

(** The counter never underflows: subtracting an entry is exact. *)
Lemma linked_total s k e :
  linked s -> store_ s !! k = Some e ->
  totalBytes_ s = e_bytes e + sum_list_with (bytes_of (store_ s)) (list_erase k (lru_ s)).
Proof.
  intros (Hnd & Hd & Ht) Hk. rewrite Ht.
  assert (Hin : k ∈ lru_ s) by (by apply Hd).
  rewrite (sum_list_with_Permutation_proper _ _ _ (list_erase_perm k (lru_ s) Hin)).
  cbn. unfold bytes_of at 1. by rewrite Hk.
Qed.

Lemma erase_linked s k e :
  linked s -> store_ s !! k = Some e ->
  linked (eraseLocked k e s) /\
  totalBytes_ (eraseLocked k e s) + e_bytes e = totalBytes_ s.
Proof.
  intros Hl Hk. pose proof (linked_total s k e Hl Hk) as Ht. destruct Hl as (Hnd & Hd & _).
  assert (Hin : k ∈ lru_ s) by (by apply Hd).
  unfold eraseLocked, sub_bytes. cbn [with_store totalBytes_ lru_ store_].
  replace (e_bytes e <=? totalBytes_ s) with true by (symmetry; apply Nat.leb_le; lia).
  split; [|lia]. split; [by apply list_erase_nodup|]. split.
  - intros x. cbn. rewrite list_erase_elem by done. rewrite lookup_delete_is_Some, Hd. naive_solver.
  - cbn. rewrite (sum_bytes_ext (delete k (store_ s)) (store_ s)); [lia|].
    intros x Hx%list_erase_elem; [|done..]. rewrite lookup_delete_ne; naive_solver.
Qed.

Lemma last_snoc_inv {A} (l : list A) x : last l = Some x -> exists l', l = l' ++ [x].
Proof. intros H. by apply last_Some in H. Qed.

Lemma list_erase_snoc k l : NoDup (l ++ [k]) -> list_erase k (l ++ [k]) = l.
Proof.
  induction l as [|x l IH]; cbn; intros Hnd.
  - by rewrite (proj2 (str_eqb_true k k) eq_refl).
  - apply NoDup_cons in Hnd as [Hx Hnd]. destruct (x =s k) eqn:E.
    + apply str_eqb_true in E as ->. exfalso. apply Hx. set_solver.
    + by rewrite IH.
Qed.

(** What eviction keeps: a prefix of the list and its entries. *)
Definition evicted (s s' : QueryCacheState) : Prop :=
  linked s' /\ cfg_ s' = cfg_ s /\ enabled_ s' = enabled_ s /\
  (exists l, lru_ s = lru_ s' ++ l) /\
  (forall k, k ∈ lru_ s' -> store_ s' !! k = store_ s !! k).

Lemma evicted_refl s : linked s -> evicted s s.
Proof. intros H. split; [done|]. repeat split; auto. exists []. by rewrite app_nil_r. Qed.

Lemma evict_one s old l e :
  linked s -> lru_ s = l ++ [old] -> store_ s !! old = Some e ->
  linked (add_eviction (eraseLocked old e s)) /\ lru_ (eraseLocked old e s) = l /\
  (forall k, k ∈ l -> store_ (eraseLocked old e s) !! k = store_ s !! k).
Proof.
  intros Hl Hlru He. destruct (erase_linked s old e Hl He) as [H1 _].
  split; [exact H1|]. destruct Hl as (Hnd & _). rewrite Hlru in Hnd.
  unfold eraseLocked. cbn. rewrite Hlru, list_erase_snoc by done. split; [done|].
  intros k Hk. rewrite lookup_delete_ne; [done|]. intros ->.
  apply NoDup_app in Hnd as (_ & Hx & _). by apply (Hx k Hk), list_elem_of_singleton.
Qed.

(** The loop stops because nothing is over the limit or nothing is left. *)
Lemma evict_loop_spec fuel inc res s :
  linked s -> length (lru_ s) <= fuel ->
  evicted s (evict_loop fuel inc res s) /\
  (lru_ (evict_loop fuel inc res s) = [] \/ over_limit inc res (evict_loop fuel inc res s) = false).
Proof.
  revert s; induction fuel as [|fuel IH]; intros s Hl Hf; cbn [evict_loop].
  { destruct (lru_ s) eqn:E; [|cbn in Hf; lia]. split; [by apply evicted_refl|]. auto. }
  destruct (last (lru_ s)) as [old|] eqn:El.
  2: { apply last_None in El. split; [by apply evicted_refl|]. auto. }
  apply last_snoc_inv in El as [l El].
  destruct (over_limit inc res s) eqn:Eo; cbn [negb]; [|split; [by apply evicted_refl|auto]].
  destruct (store_ s !! old) as [e|] eqn:He.
  2: { exfalso. destruct Hl as (_ & Hd & _). destruct (proj1 (Hd old)) as [? ?]; [|congruence].
       rewrite El. set_solver. }
  destruct (evict_one s old l e Hl El He) as (H1 & H2 & H3).
  destruct (IH (add_eviction (eraseLocked old e s)) H1) as [(E1 & E2 & E3 & [l' E4] & E5) Hex].
  { cbn [add_eviction lru_]. rewrite H2. rewrite El, length_app in Hf. cbn in Hf. lia. }
  split; [|done]. cbn [add_eviction lru_] in E4. rewrite H2 in E4.
  split; [done|]. split; [done|]. split; [done|]. split.
  - exists (l' ++ [old]). by rewrite El, E4, app_assoc.
  - intros k Hk. rewrite (E5 k Hk). apply H3. rewrite E4. set_solver.
Qed.

Lemma evictLocked_spec inc res s :
  linked s ->
  evicted s (evictLocked inc res s) /\
  (lru_ (evictLocked inc res s) = [] \/ over_limit inc res (evictLocked inc res s) = false).
Proof. intros H. by apply evict_loop_spec. Qed.

(** ** Inserting *)

Lemma positive_pos z : (0 < z)%Z -> positive z = Z.to_nat z.
Proof. unfold positive. intros ?%Z.ltb_lt. by rewrite H. Qed.

Lemma over_limit_false inc res s :
  over_limit inc res s = false ->
  ((0 < cc_max_entries (cfg_ s))%Z ->
   if res then S (size (store_ s)) <= Z.to_nat (cc_max_entries (cfg_ s))
   else size (store_ s) <= Z.to_nat (cc_max_entries (cfg_ s))) /\
  ((0 < cc_max_memory_bytes (cfg_ s))%Z ->
   totalBytes_ s + inc <= Z.to_nat (cc_max_memory_bytes (cfg_ s))).
Proof.
  unfold over_limit. intros [H1 H2]%orb_false_iff. split; intros Hp.
  - rewrite (positive_pos _ Hp) in H1.
    replace (0 <? Z.to_nat (cc_max_entries (cfg_ s))) with true in H1 by (symmetry; apply Nat.ltb_lt; lia).
    cbn [andb] in H1. destruct res; [apply Nat.leb_gt in H1|apply Nat.ltb_ge in H1]; lia.
  - rewrite (positive_pos _ Hp) in H2.
    replace (0 <? Z.to_nat (cc_max_memory_bytes (cfg_ s))) with true in H2
      by (symmetry; apply Nat.ltb_lt; lia).
    cbn [andb] in H2. apply Nat.ltb_ge in H2. lia.
Qed.

(** The state the update path evicts from. *)
Definition updated (now : Z) (ck : str) (rs : ResultSet) (bytes : nat) (old : Entry)
    (s : QueryCacheState) : QueryCacheState :=
  with_store (<[ck := mkEntry rs (now + ttl_ticks s) bytes]> (store_ s)) (ck :: list_erase ck (lru_ s))
             (sub_bytes (totalBytes_ s) (e_bytes old) + bytes) s.

Lemma updated_linked now ck rs bytes old s :
  linked s -> store_ s !! ck = Some old -> linked (updated now ck rs bytes old s).
Proof.
  intros Hl Hck. destruct (erase_linked s ck old Hl Hck) as [(Hnd & Hd & Ht) _].
  pose proof Hl as (Hnd' & Hd' & _).
  assert (Hin : ck ∈ lru_ s) by (by apply Hd'). unfold updated, eraseLocked in *. cbn in *.
  split; [|split].
  - cbn. apply NoDup_cons. split; [|done]. rewrite list_erase_elem by done. tauto.
  - intros k. cbn. rewrite elem_of_cons, list_erase_elem, lookup_insert_is_Some, Hd' by done.
    destruct (decide (ck = k)); naive_solver.
  - cbn. rewrite Ht. unfold bytes_of at 2. rewrite lookup_insert_eq. cbn.
    rewrite Nat.add_comm. f_equal. apply sum_bytes_ext. intros k Hk%list_erase_elem; [|done..].
    rewrite lookup_delete_ne, lookup_insert_ne; naive_solver.
Qed.

Definition inserted (now : Z) (ck : str) (rs : ResultSet) (bytes : nat) (ttl : Z)
    (s : QueryCacheState) : QueryCacheState :=
  with_store (<[ck := mkEntry rs (now + ttl) bytes]> (store_ s)) (ck :: lru_ s)
             (totalBytes_ s + bytes) s.

Lemma inserted_linked now ck rs bytes ttl s :
  linked s -> store_ s !! ck = None -> linked (inserted now ck rs bytes ttl s).
Proof.
  intros (Hnd & Hd & Ht) Hck. assert (Hn : ck ∉ lru_ s) by (rewrite Hd, Hck; by intros [? ?]).
  unfold inserted. split; [|split]; cbn.
  - by apply NoDup_cons.
  - intros k. rewrite elem_of_cons, lookup_insert_is_Some, Hd. destruct (decide (ck = k)); naive_solver.
  - unfold bytes_of at 1. rewrite lookup_insert_eq. cbn. rewrite Ht, Nat.add_comm. f_equal.
    apply sum_bytes_ext. intros k Hk. rewrite lookup_insert_ne; [done|]. by intros ->.
Qed.

Lemma linked_empty s : linked s -> lru_ s = [] -> size (store_ s) = 0 /\ totalBytes_ s = 0.
Proof.
  intros Hl He. split; [by rewrite linked_size, He|]. destruct Hl as (_ & _ & ->). by rewrite He.
Qed.

(** An entry that fits alone is never evicted by its own insertion. *)
Lemma evict_keeps_head fuel s k l e :
  linked s -> lru_ s = k :: l -> store_ s !! k = Some e ->
  ((0 < cc_max_memory_bytes (cfg_ s))%Z ->
   e_bytes e <= Z.to_nat (cc_max_memory_bytes (cfg_ s))) ->
  store_ (evict_loop fuel 0 false s) !! k = Some e.
Proof.
  revert s l; induction fuel as [|fuel IH]; intros s l Hl Hlru Hk Hfit; [done|].
  cbn [evict_loop]. destruct (last (lru_ s)) as [old|] eqn:El; [|done].
  destruct (over_limit 0 false s) eqn:Eo; cbn [negb]; [|done].
  apply last_snoc_inv in El as [l' El].
  destruct l' as [|k' l'].
  - (* the only entry: it is within the limits *)
    exfalso. rewrite El in Hlru. injection Hlru as -> <-.
    revert Eo. apply not_true_iff_false. unfold over_limit.
    rewrite (linked_size s Hl), El. pose proof (linked_total s k e Hl Hk) as Ht.
    rewrite El in Ht. cbn in Ht. rewrite (proj2 (str_eqb_true k k) eq_refl) in Ht. cbn in Ht.
    rewrite Ht. unfold positive. apply orb_false_iff. split.
    + destruct (0 <? cc_max_entries (cfg_ s))%Z eqn:E; [|done]. apply Z.ltb_lt in E.
      cbn. destruct (Z.to_nat (cc_max_entries (cfg_ s))) as [|[|n]] eqn:En; [lia|done|done].
    + destruct (0 <? cc_max_memory_bytes (cfg_ s))%Z eqn:E; [|done]. apply Z.ltb_lt in E.
      specialize (Hfit E). apply andb_false_iff. right. apply Nat.ltb_ge. lia.
  - rewrite El in Hlru. injection Hlru as -> Hl'.
    assert (Hold : exists eo, store_ s !! old = Some eo).
    { destruct Hl as (_ & Hd & _). destruct (proj1 (Hd old)) as [eo ?]; [|by exists eo].
      rewrite El. set_solver. }
    destruct Hold as [eo Heo]. rewrite Heo.
    destruct (evict_one s old (k :: l') eo Hl El Heo) as (H1 & H2 & H3).
    eapply IH; [done|cbn; exact H2| |done].
    cbn. rewrite <- Hk. apply H3. set_solver.
Qed.

Lemma put_entry_spec now ck rs bytes s :
  linked s ->
  ((0 < cc_max_memory_bytes (cfg_ s))%Z -> bytes <= Z.to_nat (cc_max_memory_bytes (cfg_ s))) ->
  let s' := put_entry now ck rs bytes s in
  linked s' /\ within_limits s' /\ cfg_ s' = cfg_ s /\ enabled_ s' = enabled_ s /\
  store_ s' !! ck = Some (mkEntry rs (now + ttl_ticks s) bytes) /\
  (forall k e, store_ s' !! k = Some e -> k <> ck -> store_ s !! k = Some e).
Proof.
  intros Hl Hfit. cbn zeta. unfold put_entry. destruct (store_ s !! ck) as [old|] eqn:Hck.
  - fold (updated now ck rs bytes old s). set (u := updated now ck rs bytes old s).
    assert (Hu : linked u) by (by apply updated_linked).
    destruct (evictLocked_spec 0 false u Hu) as [(E1 & E2 & E3 & [l E4] & E5) Hex].
    split; [done|]. split.
    { destruct Hex as [Hnil|Hov].
      - destruct (linked_empty _ E1 Hnil) as [Hz1 Hz2]. unfold within_limits.
        rewrite Hz1, Hz2. split; lia.
      - apply over_limit_false in Hov as [? Hb]. split; [done|]. intros Hm. specialize (Hb Hm). lia. }
    split; [by rewrite E2|]. split; [by rewrite E3|]. split.
    { eapply (evict_keeps_head _ u ck); [done|done|by apply lookup_insert_eq|done]. }
    intros k e Hk Hne. assert (Hin : k ∈ lru_ (evictLocked 0 false u)).
    { destruct E1 as (_ & Hd & _). apply Hd. by eexists. }
    rewrite (E5 k Hin) in Hk. cbn in Hk. by rewrite lookup_insert_ne in Hk.
  - destruct (evictLocked_spec bytes true s Hl) as [(E1 & E2 & E3 & [l E4] & E5) Hex].
    set (v := evictLocked bytes true s) in *.
    fold (inserted now ck rs bytes (ttl_ticks s) v).
    assert (Hnone : store_ v !! ck = None).
    { destruct (store_ v !! ck) eqn:E; [|done]. exfalso.
      assert (Hin : ck ∈ lru_ v) by (destruct E1 as (_ & Hd & _); apply Hd; by eexists).
      rewrite (E5 ck Hin) in E. congruence. }
    split; [by apply inserted_linked|]. split.
    { unfold inserted, within_limits. cbn. rewrite map_size_insert_None by done.
      destruct Hex as [Hnil|Hov].
      - destruct (linked_empty _ E1 Hnil) as [Hz1 Hz2]. rewrite Hz1, Hz2, E2.
        split; [lia|]. intros Hm. specialize (Hfit Hm). lia.
      - by apply over_limit_false in Hov. }
    split; [done|]. split; [done|]. split; [by apply lookup_insert_eq|].
    intros k e Hk Hne. cbn in Hk. rewrite lookup_insert_ne in Hk by done.
    assert (Hin : k ∈ lru_ v) by (destruct E1 as (_ & Hd & _); apply Hd; by eexists).
    by rewrite (E5 k Hin) in Hk.
Qed.

(** ** Invalidating *)

Lemma starts_with_ck ds ds' key :
  NUL ∉ ds -> NUL ∉ ds' ->
  starts_with (compositeKey ds []) (compositeKey ds' key) = true <-> ds = ds'.
Proof.
  intros H1 H2. rewrite starts_with_spec. unfold compositeKey. split.
  - intros [t Ht]. rewrite <- app_assoc in Ht. cbn in Ht. revert ds' H2 Ht.
    induction ds as [|c ds IH]; intros [|c' ds'] H2 Ht; cbn in Ht; [done| | |].
    + injection Ht as -> _. set_solver.
    + injection Ht as <- _. set_solver.
    + injection Ht as -> Ht. f_equal. apply IH; [set_solver|set_solver|done].
  - intros ->. exists key. by rewrite <- app_assoc.
Qed.

Lemma compositeKey_inj ds ds' key key' :
  NUL ∉ ds -> NUL ∉ ds' -> compositeKey ds key = compositeKey ds' key' -> ds = ds' /\ key = key'.
Proof.
  intros H1 H2 H. assert (ds = ds') as <-.
  { apply (starts_with_ck ds ds' key' H1 H2). rewrite <- H.
    apply starts_with_spec. exists key. unfold compositeKey. by rewrite <- app_assoc. }
  split; [done|]. unfold compositeKey in H. by apply app_inv_head in H as [= ->].
Qed.

Lemma invalidate_loop_spec prefix keys s n :
  linked s ->
  let s' := fst (invalidate_loop prefix keys s n) in
  linked s' /\ cfg_ s' = cfg_ s /\ enabled_ s' = enabled_ s /\
  totalBytes_ s' <= totalBytes_ s /\ size (store_ s') <= size (store_ s) /\
  forall k, store_ s' !! k =
    if starts_with prefix k && bool_decide (k ∈ keys) then None else store_ s !! k.
Proof.
  revert s n; induction keys as [|k0 keys IH]; intros s n Hl; cbn [invalidate_loop fst].
  { repeat split; try done; try apply Hl. intros k. by rewrite andb_false_r. }
  destruct (store_ s !! k0) as [e|] eqn:Hk0; [destruct (starts_with prefix k0) eqn:Hp|].
  - destruct (erase_linked s k0 e Hl Hk0) as [Hl' Ht].
    destruct (IH (eraseLocked k0 e s) (S n) Hl') as (H1 & H2 & H3 & H4 & H5 & H6).
    split; [done|]. split; [done|]. split; [done|]. split; [lia|]. split.
    { etrans; [exact H5|]. cbn. rewrite map_size_delete, Hk0. cbn. lia. }
    intros k. rewrite H6. cbn. destruct (decide (k = k0)) as [->|Hne].
    + rewrite lookup_delete_eq, Hp. rewrite (bool_decide_true (k0 ∈ k0 :: keys)) by set_solver.
      by destruct (bool_decide _).
    + rewrite lookup_delete_ne by done.
      rewrite (bool_decide_ext (k ∈ k0 :: keys) (k ∈ keys)) by set_solver. done.
  - destruct (IH s n Hl) as (H1 & H2 & H3 & H4 & H5 & H6). repeat split; try done; try apply H1.
    intros k. rewrite H6. destruct (decide (k = k0)) as [->|Hne]; [by rewrite Hp|].
    rewrite (bool_decide_ext (k ∈ k0 :: keys) (k ∈ keys)) by set_solver. done.
  - destruct (IH s n Hl) as (H1 & H2 & H3 & H4 & H5 & H6). repeat split; try done; try apply H1.
    intros k. rewrite H6. destruct (decide (k = k0)) as [->|Hne].
    + rewrite Hk0. by destruct (_ && _), (_ && _).
    + rewrite (bool_decide_ext (k ∈ k0 :: keys) (k ∈ keys)) by set_solver. done.
Qed.

Lemma invalidate_spec ds s :
  linked s -> enabled_ s = true ->
  linked (invalidate ds s) /\ cfg_ (invalidate ds s) = cfg_ s /\
  enabled_ (invalidate ds s) = enabled_ s /\
  totalBytes_ (invalidate ds s) <= totalBytes_ s /\
  size (store_ (invalidate ds s)) <= size (store_ s) /\
  forall k, store_ (invalidate ds s) !! k =
    if starts_with (compositeKey ds []) k then None else store_ s !! k.
Proof.
  intros Hl He. unfold invalidate. replace (negb (enabled_ s)) with false by (by rewrite He).
  destruct (bool_decide_reflect (store_ s = ∅)) as [Hem|_].
  { repeat split; try done; try apply Hl. intros k. rewrite Hem, lookup_empty. by destruct (starts_with _ _). }
  pose proof (invalidate_loop_spec (compositeKey ds []) (map_to_list (store_ s)).*1 s 0 Hl) as H.
  destruct (invalidate_loop _ _ s 0) as [s' removed]. cbn [fst] in H.
  destruct H as (H1 & H2 & H3 & H4 & H5 & H6).
  assert (Hall : forall k, store_ s' !! k =
    if starts_with (compositeKey ds []) k then None else store_ s !! k).
  { intros k. rewrite H6. destruct (starts_with _ k); [|done]. cbn [andb].
    destruct (bool_decide_reflect (k ∈ (map_to_list (store_ s)).*1)) as [_|Hn]; [done|].
    destruct (store_ s !! k) eqn:E; [|done]. exfalso. apply Hn, list_elem_of_fmap.
    exists (k, e). split; [done|]. by apply elem_of_map_to_list. }
  destruct (0 <? removed);
    exact (conj H1 (conj H2 (conj H3 (conj H4 (conj H5 Hall))))).
Qed.

(** ** Every operation *)

Inductive cache_op : Type :=
| CConfigure (cfg : QueryCacheConfig)
| CGet (now : Z) (dataSource key : str)
| CPut (now : Z) (dataSource key : str) (rs : ResultSet)
| CInvalidate (dataSource : str).

Definition cache_step (s : QueryCacheState) (op : cache_op) : QueryCacheState :=
  match op with
  | CConfigure cfg => configure cfg s
  | CGet now ds key => snd (get now ds key s)
  | CPut now ds key rs => put now ds key rs s
  | CInvalidate ds => invalidate ds s
  end.

Definition cache_run (ops : list cache_op) : QueryCacheState := fold_left cache_step ops cache_init.

(** [enabled_] is set together with the configuration it derives from. *)
Definition cache_wf (s : QueryCacheState) : Prop :=
  linked s /\ within_limits s /\
  enabled_ s = cc_enabled (cfg_ s) && (0 <? cc_ttl_ms (cfg_ s))%Z.

Lemma linked_nil s : lru_ s = [] -> store_ s = ∅ -> totalBytes_ s = 0 -> linked s.
Proof.
  intros H1 H2 H3. unfold linked. rewrite H1, H2, H3. split; [constructor|].
  split; [|done]. intros k. rewrite lookup_empty. split; [set_solver|by intros [? ?]].
Qed.

Lemma front_linked s k :
  linked s -> is_Some (store_ s !! k) ->
  linked (with_store (store_ s) (k :: list_erase k (lru_ s)) (totalBytes_ s) s).
Proof.
  intros (Hnd & Hd & Ht) Hk. assert (Hin : k ∈ lru_ s) by (by apply Hd).
  pose proof (list_erase_perm k (lru_ s) Hin) as Hp. split; [|split]; cbn [with_store lru_ store_ totalBytes_].
  - by rewrite <- Hp.
  - intros x. rewrite <- (elem_of_Permutation_proper x _ _ Hp). apply Hd.
  - by rewrite <- (sum_list_with_Permutation_proper _ _ _ Hp).
Qed.

Lemma get_wf now ds key s : cache_wf s -> cache_wf (snd (get now ds key s)).
Proof.
  intros Hwf. pose proof Hwf as (Hl & Hlim & He). unfold get.
  destruct (negb (enabled_ s)); [done|]. destruct (negb (cc_enabled (cfg_ s))); [done|].
  destruct (store_ s !! compositeKey ds key) as [e|] eqn:Ek; [|exact Hwf].
  destruct (e_expire e <=? now)%Z; cbn [snd].
  - destruct (erase_linked s _ e Hl Ek) as [H1 H2]. split; [exact H1|]. split; [|exact He].
    unfold within_limits, add_miss, eraseLocked, with_store in *. cbn in *.
    rewrite map_size_delete, Ek. cbn.
    split; intros H; apply Hlim in H; lia.
  - split; [apply (front_linked s); [done|by eexists]|]. split; [exact Hlim|exact He].
Qed.

Lemma put_wf now ds key rs s : cache_wf s -> cache_wf (put now ds key rs s).
Proof.
  intros Hwf. pose proof Hwf as (Hl & Hlim & He). unfold put.
  destruct (negb (enabled_ s)); [done|]. destruct (negb (cc_enabled (cfg_ s))); [done|].
  destruct (cc_ttl_ms (cfg_ s) <=? 0)%Z; [done|].
  destruct ((0 <? cc_max_memory_bytes (cfg_ s))%Z && _) eqn:Efit; [done|].
  destruct (put_entry_spec now (compositeKey ds key) rs (approxBytes rs) s Hl)
    as (H1 & H2 & H3 & H4 & _).
  { intros Hp%Z.ltb_lt. rewrite Hp in Efit. cbn in Efit. apply Nat.ltb_ge in Efit. lia. }
  split; [done|]. split; [done|]. by rewrite H3, H4.
Qed.

Lemma invalidate_wf ds s : cache_wf s -> cache_wf (invalidate ds s).
Proof.
  intros Hwf. pose proof Hwf as (Hl & Hlim & He).
  destruct (enabled_ s) eqn:Een; [|unfold invalidate; by rewrite Een].
  destruct (invalidate_spec ds s Hl Een) as (H1 & H2 & H3 & H4 & H5 & _).
  split; [done|]. rewrite H3, H2, Een. split; [|done]. unfold within_limits. rewrite H2.
  split; intros H; apply Hlim in H; lia.
Qed.

Lemma cache_step_wf s op : cache_wf s -> cache_wf (cache_step s op).
Proof.
  destruct op; cbn [cache_step]; auto using get_wf, put_wf, invalidate_wf.
  intros _. split; [by apply linked_nil|]. split; [split; cbn; rewrite ?map_size_empty; lia|done].
Qed.

Lemma cache_init_wf : cache_wf cache_init.
Proof. split; [by apply linked_nil|]. split; [split; cbn; rewrite ?map_size_empty; lia|done]. Qed.

Lemma cache_run_wf ops : cache_wf (cache_run ops).
Proof.
  unfold cache_run. generalize cache_init_wf. generalize cache_init as s.
  induction ops as [|op ops IH]; intros s Hs; [done|]. cbn. by apply IH, cache_step_wf.
Qed.

(** C34. After any sequence of operations, the LRU list and the map hold the
    same keys, each once; the byte counter is exactly the sum of the entries'
    sizes (so its guarded subtraction never truncates); and a positive entry
    or byte limit is respected. *)
Theorem cache_invariant (ops : list cache_op) :
  let s := cache_run ops in
  NoDup (lru_ s) /\ (forall k, k ∈ lru_ s <-> is_Some (store_ s !! k)) /\
  totalBytes_ s = sum_list_with (bytes_of (store_ s)) (lru_ s) /\
  ((0 < cc_max_entries (cfg_ s))%Z -> size (store_ s) <= Z.to_nat (cc_max_entries (cfg_ s))) /\
  ((0 < cc_max_memory_bytes (cfg_ s))%Z ->
   totalBytes_ s <= Z.to_nat (cc_max_memory_bytes (cfg_ s))).
Proof. destruct (cache_run_wf ops) as ((H1 & H2 & H3) & (H4 & H5) & _). auto. Qed.

(** ** The abstract cache

    What a cache promises: a finite map from (data source, key) to the last
    accepted result and its expiry, emptied by configuration and, for one data
    source, by invalidation.  It never evicts, so the concrete cache holds part
    of it. *)

Record CacheSpec : Type := mkSpec {
  sp_cfg : QueryCacheConfig;
  sp_map : gmap (str * str) (ResultSet * Z)
}.

Definition spec_enabled (a : CacheSpec) : bool :=
  cc_enabled (sp_cfg a) && (0 <? cc_ttl_ms (sp_cfg a))%Z.

Definition spec_fits (a : CacheSpec) (rs : ResultSet) : bool :=
  negb ((0 <? cc_max_memory_bytes (sp_cfg a))%Z &&
        (Z.to_nat (cc_max_memory_bytes (sp_cfg a)) <? approxBytes rs)).

Definition spec_step (a : CacheSpec) (op : cache_op) : CacheSpec :=
  match op with
  | CConfigure cfg => mkSpec cfg ∅
  | CGet _ _ _ => a
  | CPut now ds key rs =>
      if spec_enabled a && spec_fits a rs then
        mkSpec (sp_cfg a)
          (<[(ds, key) := (rs, now + cc_ttl_ms (sp_cfg a) * 1000000)%Z]> (sp_map a))
      else a
  | CInvalidate ds =>
      if spec_enabled a then mkSpec (sp_cfg a) (filter (fun kv => kv.1.1 <> ds) (sp_map a)) else a
  end.

Definition spec_run (ops : list cache_op) : CacheSpec :=
  fold_left spec_step ops (mkSpec default_config ∅).

(** Data-source names contain no NUL, the separator of composite keys. *)
Definition op_named (op : cache_op) : Prop :=
  match op with
  | CConfigure _ => True
  | CGet _ ds _ | CPut _ ds _ _ | CInvalidate ds => NUL ∉ ds
  end.

Definition cache_refines (s : QueryCacheState) (a : CacheSpec) : Prop :=
  cfg_ s = sp_cfg a /\
  forall ck e, store_ s !! ck = Some e ->
    exists ds key, NUL ∉ ds /\ ck = compositeKey ds key /\
      sp_map a !! (ds, key) = Some (e_rs e, e_expire e).

Lemma get_store now ds key s k e :
  store_ (snd (get now ds key s)) !! k = Some e -> store_ s !! k = Some e.
Proof.
  unfold get. destruct (negb (enabled_ s)); [done|]. destruct (negb (cc_enabled (cfg_ s))); [done|].
  destruct (store_ s !! compositeKey ds key) as [e'|]; [|done].
  destruct (e_expire e' <=? now)%Z; [|done]. cbn. by intros [_ ?]%lookup_delete_Some.
Qed.

Lemma get_cfg now ds key s : cfg_ (snd (get now ds key s)) = cfg_ s.
Proof. unfold get. by repeat split_match. Qed.

Lemma refine_put now ds key rs s a :
  cache_wf s -> NUL ∉ ds -> cache_refines s a ->
  cache_refines (put now ds key rs s) (spec_step a (CPut now ds key rs)).
Proof.
  intros (Hl & _ & He) Hds [Hcfg HR]. unfold put, spec_step, spec_enabled, spec_fits.
  rewrite <- Hcfg, He. destruct (cc_enabled (cfg_ s)); cbn [negb andb]; [|by split].
  rewrite Z.leb_antisym. destruct (0 <? cc_ttl_ms (cfg_ s))%Z; cbn [negb andb]; [|by split].
  destruct ((0 <? cc_max_memory_bytes (cfg_ s))%Z && _) eqn:Efit; cbn [negb]; [by split|].
  destruct (put_entry_spec now (compositeKey ds key) rs (approxBytes rs) s Hl)
    as (_ & _ & H3 & _ & H5 & H6).
  { intros Hp%Z.ltb_lt. rewrite Hp in Efit. cbn in Efit. apply Nat.ltb_ge in Efit. lia. }
  split; [by rewrite H3|]. intros ck e Hck.
  destruct (decide (ck = compositeKey ds key)) as [->|Hne].
  - rewrite H5 in Hck. injection Hck as <-. exists ds, key. cbn. by rewrite lookup_insert_eq.
  - destruct (HR ck e (H6 ck e Hck Hne)) as (ds' & key' & Hn & -> & Hm).
    exists ds', key'. split; [done|]. split; [done|]. cbn. rewrite lookup_insert_ne; [done|].
    intros [= <- <-]. done.
Qed.

Lemma refine_invalidate ds s a :
  cache_wf s -> NUL ∉ ds -> cache_refines s a ->
  cache_refines (invalidate ds s) (spec_step a (CInvalidate ds)).
Proof.
  intros (Hl & _ & He) Hds [Hcfg HR]. unfold spec_step, spec_enabled. rewrite <- Hcfg, <- He.
  destruct (enabled_ s) eqn:Een; [|unfold invalidate; by rewrite Een].
  destruct (invalidate_spec ds s Hl Een) as (_ & H2 & _ & _ & _ & H6).
  split; [by rewrite H2|]. intros ck e. rewrite H6.
  destruct (starts_with (compositeKey ds []) ck) eqn:Ep; [done|]. intros Hck.
  destruct (HR ck e Hck) as (ds' & key' & Hn & -> & Hm). exists ds', key'.
  split; [done|]. split; [done|]. cbn. apply map_lookup_filter_Some. split; [done|]. cbn.
  intros ->. rewrite (proj2 (starts_with_ck ds ds key' Hds Hn) eq_refl) in Ep. done.
Qed.

Lemma cache_step_refines s a op :
  cache_wf s -> op_named op -> cache_refines s a ->
  cache_refines (cache_step s op) (spec_step a op).
Proof.
  destruct op as [cfg|now ds key|now ds key rs|ds]; cbn [op_named cache_step]; intros Hwf Hn HR.
  - split; [done|]. intros ck e. cbn. by rewrite lookup_empty.
  - destruct HR as [Hcfg HR]. split; [by rewrite get_cfg|]. intros ck e Hck%get_store. auto.
  - by apply refine_put.
  - by apply refine_invalidate.
Qed.

Lemma cache_run_refines ops :
  Forall op_named ops -> cache_refines (cache_run ops) (spec_run ops).
Proof.
  unfold cache_run, spec_run. intros Hops.
  assert (H0 : cache_refines cache_init (mkSpec default_config ∅)).
  { split; [done|]. intros ck e. cbn. by rewrite lookup_empty. }
  revert H0. generalize cache_init_wf. generalize (mkSpec default_config ∅) as a.
  generalize cache_init as s. induction Hops as [|op ops Hop _ IH]; intros s a Hwf HR; [done|].
  cbn. apply IH; [by apply cache_step_wf|by apply cache_step_refines].
Qed.

(** A hit is an entry of the specification that has not expired. *)
Lemma get_refines now ds key s a rs :
  NUL ∉ ds -> cache_refines s a -> fst (get now ds key s) = Some rs ->
  exists expire, sp_map a !! (ds, key) = Some (rs, expire) /\ (now < expire)%Z.
Proof.
  intros Hds [_ HR]. unfold get.
  destruct (negb (enabled_ s)); [done|]. destruct (negb (cc_enabled _)); [done|].
  destruct (store_ s !! compositeKey ds key) as [e|] eqn:Ek; [|done].
  destruct (e_expire e <=? now)%Z eqn:Ee; [done|]. intros [= <-].
  destruct (HR _ _ Ek) as (ds' & key' & Hn & Hck & Hm).
  apply compositeKey_inj in Hck as [<- <-]; [|done..].
  exists (e_expire e). split; [done|]. by apply Z.leb_gt.
Qed.

(** C22. The cache is sound: whatever was evicted in between, a hit for (data
    source, key) returns the result of the last accepted [put] for that pair
    since the last configuration and the last invalidation of that data source,
    and only before its expiry.  Names of data sources hold no NUL byte. *)
Theorem cache_sound (ops : list cache_op) (now : Z) (ds key : str) (rs : ResultSet) :
  Forall op_named ops -> NUL ∉ ds ->
  fst (get now ds key (cache_run ops)) = Some rs ->
  exists expire, sp_map (spec_run ops) !! (ds, key) = Some (rs, expire) /\ (now < expire)%Z.
Proof.
  intros Hops Hds. by apply get_refines, cache_run_refines.
Qed.

(** A result that fits is found again: right after [put], [get] returns it
    until it expires, even if making room evicted everything else. *)
Theorem get_after_put (ops : list cache_op) (now later : Z) (ds key : str) (rs : ResultSet) :
  let s := cache_run ops in
  enabled_ s = true ->
  ((0 < cc_max_memory_bytes (cfg_ s))%Z ->
   approxBytes rs <= Z.to_nat (cc_max_memory_bytes (cfg_ s))) ->
  (later < now + cc_ttl_ms (cfg_ s) * 1000000)%Z ->
  fst (get later ds key (put now ds key rs s)) = Some rs.
Proof.
  cbn zeta. destruct (cache_run_wf ops) as (Hl & _ & He). set (s := cache_run ops) in *.
  intros Hen Hfit Hlater. rewrite Hen in He. symmetry in He. apply andb_prop in He as [Hc Ht].
  unfold put. rewrite Hen, Hc. cbn [negb]. rewrite Z.leb_antisym, Ht. cbn [negb].
  replace ((0 <? cc_max_memory_bytes (cfg_ s))%Z && _) with false.
  2: { symmetry. destruct (0 <? cc_max_memory_bytes (cfg_ s))%Z eqn:E; [|done].
       cbn [andb]. apply Nat.ltb_ge, Hfit. by apply Z.ltb_lt. }
  destruct (put_entry_spec now (compositeKey ds key) rs (approxBytes rs) s Hl Hfit)
    as (_ & _ & H3 & H4 & H5 & _).
  unfold get. rewrite H4, H3, Hen, Hc, H5. cbn [negb e_expire e_rs].
  unfold ttl_ticks. by rewrite (proj2 (Z.leb_gt _ _) Hlater).
Qed.

(** Invalidating a data source drops every one of its results and touches
    no other data source's. *)
Theorem invalidate_exact (ops : list cache_op) (now : Z) (ds key : str) :
  NUL ∉ ds ->
  let s := cache_run ops in
  fst (get now ds key (invalidate ds s)) = None /\
  forall ds' key', NUL ∉ ds' -> ds' <> ds ->
    store_ (invalidate ds s) !! compositeKey ds' key' = store_ s !! compositeKey ds' key'.
Proof.
  intros Hds. cbn zeta. destruct (cache_run_wf ops) as (Hl & _). set (s := cache_run ops) in *.
  destruct (enabled_ s) eqn:Een.
  2: { unfold invalidate, get. rewrite Een. cbn. by rewrite Een. }
  destruct (invalidate_spec ds s Hl Een) as (_ & _ & _ & _ & _ & H6). split.
  - unfold get. destruct (negb (enabled_ _)); [done|]. destruct (negb (cc_enabled _)); [done|].
    rewrite H6, (proj2 (starts_with_ck ds ds key Hds Hds) eq_refl). done.
  - intros ds' key' Hn Hne. rewrite H6.
    destruct (starts_with _ _) eqn:E; [|done].
    apply starts_with_ck in E as ->; done.
Qed.

(** ** The implementation discharges the interface *)

(** A disabled cache answers nothing, whatever it represents. *)
Definition cache_rep (s : QueryCacheState) (m : answers) : Prop :=
  cache_wf s /\ (enabled_ s = true -> cache_refines s (mkSpec (cfg_ s) m)).

Lemma put_cfg now ds key rs s :
  cache_wf s -> cfg_ (put now ds key rs s) = cfg_ s /\ enabled_ (put now ds key rs s) = enabled_ s.
Proof.
  intros (Hl & _). unfold put. destruct (negb (enabled_ s)); [done|].
  destruct (negb (cc_enabled (cfg_ s))); [done|]. destruct (cc_ttl_ms (cfg_ s) <=? 0)%Z; [done|].
  destruct ((0 <? cc_max_memory_bytes (cfg_ s))%Z && _) eqn:Efit; [done|].
  destruct (put_entry_spec now (compositeKey ds key) rs (approxBytes rs) s Hl) as (_ & _ & H3 & H4 & _);
    [|done].
  intros Hp%Z.ltb_lt. rewrite Hp in Efit. cbn in Efit. apply Nat.ltb_ge in Efit. lia.
Qed.

Lemma invalidate_cfg ds s :
  cache_wf s -> cfg_ (invalidate ds s) = cfg_ s /\ enabled_ (invalidate ds s) = enabled_ s.
Proof.
  intros (Hl & _). destruct (enabled_ s) eqn:Een; [|unfold invalidate; by rewrite Een].
  destruct (invalidate_spec ds s Hl Een) as (_ & H2 & H3 & _). split; congruence.
Qed.

Lemma get_enabled now ds key s : enabled_ (snd (get now ds key s)) = enabled_ s.
Proof. unfold get. by repeat split_match. Qed.

#[global] Program Instance query_result_cache : ResultCache QueryCacheState := {|
  rc_enabled := enabled_;
  rc_replicaOnly := replicaOnly_;
  rc_ttl := ttl_ticks;
  rc_get := get;
  rc_put := put;
  rc_invalidate := invalidate;
  rc_rep := cache_rep
|}.
Next Obligation.
  intros now ds key s m Hds [Hwf HR]. cbn beta.
  split; [split; [by apply get_wf|]|split].
  - rewrite get_enabled. intros Hen. destruct (HR Hen) as [Hcfg HR']. split; [done|].
    intros ck e Hck%get_store. auto.
  - unfold ttl_ticks. by rewrite get_cfg.
  - intros rs Hget. destruct (enabled_ s) eqn:Een; [|unfold get in Hget; by rewrite Een in Hget].
    exact (get_refines now ds key s _ rs Hds (HR eq_refl) Hget).
Qed.
Next Obligation.
  intros now ds key rs s m Hds [Hwf HR]. cbn beta.
  destruct (put_cfg now ds key rs s Hwf) as [Hc He].
  split; [unfold ttl_ticks; by rewrite Hc|].
  destruct (enabled_ s) eqn:Een.
  2: { left. split; [by apply put_wf|]. congruence. }
  pose proof (refine_put now ds key rs s _ Hwf Hds (HR eq_refl)) as HP. cbn [spec_step] in HP.
  destruct (spec_enabled _ && spec_fits _ rs); [right|left];
    (split; [by apply put_wf|]; intros _; rewrite Hc; exact HP).
Qed.
Next Obligation.
  intros ds s m Hds [Hwf HR]. cbn beta. destruct (invalidate_cfg ds s Hwf) as [Hc He].
  split; [unfold ttl_ticks; by rewrite Hc|]. split; [by apply invalidate_wf|].
  rewrite He. intros Hen. pose proof (refine_invalidate ds s _ Hwf Hds (HR Hen)) as HI.
  cbn [spec_step] in HI. unfold spec_enabled in HI. cbn [sp_cfg] in HI.
  destruct Hwf as (_ & _ & Hw). rewrite <- Hw, Hen in HI. by rewrite Hc.
Qed.
End Cache.

(** A cache of two entries, filled past its limit. *)
Definition sample_rs (n : Z) : ResultSet := mkResultSet [$"a"] [mkRow [($"a", VInt64 n)]] false.
Definition sample_ops : list cache_op :=
  [CConfigure (mkCacheConfig true 1000 2 0 false);
   CPut 0 ($"db") ($"q1") (sample_rs 1); CPut 1 ($"db") ($"q2") (sample_rs 2);
   CGet 2 ($"db") ($"q1"); CPut 3 ($"other") ($"q3") (sample_rs 3)].

Lemma cache_sound_witness :
  exists expire, sp_map (spec_run 32 40 sample_ops) !! ($"db", $"q1") = Some (sample_rs 1, expire) /\
                 (5 < expire)%Z.
Proof.
  apply (cache_sound 32 40 sample_ops 5 ($"db") ($"q1") (sample_rs 1)).
  - repeat constructor; apply not_in_str; reflexivity.
  - apply not_in_str; reflexivity.
  - vm_compute. reflexivity.
Defined.

Lemma get_after_put_witness :
  fst (get 9 ($"db") ($"q4") (put 32 40 8 ($"db") ($"q4") (sample_rs 4) (cache_run 32 40 sample_ops))) =
  Some (sample_rs 4).
Proof.
  apply (get_after_put 32 40 sample_ops 8 9 ($"db") ($"q4") (sample_rs 4)).
  - vm_compute. reflexivity.
  - vm_compute. discriminate.
  - vm_compute. reflexivity.
Defined.

Lemma invalidate_exact_witness :
  fst (get 5 ($"db") ($"q1") (invalidate ($"db") (cache_run 32 40 sample_ops))) = None.
Proof.
  apply (invalidate_exact 32 40 sample_ops 5 ($"db") ($"q1")). apply not_in_str. reflexivity.
Defined.
