(* ===== verification/CacheKey.v ===== *)
(** * CacheKey: the key of a cached query

    Models [cacheKey] and [appendValueKey] of src/core/database_manager.cpp:
    the statement text, the parameter count and every parameter's encoding.
    Two queries share a cache entry exactly when their keys are equal, so the
    encoding must separate them. *)

From S2P Require Import Prelude Types.

Definition RS : ascii := "030"%char.
Definition US : ascii := "031"%char.

(** A length-prefixed text after its tag. *)
Definition sized (tag : ascii) (s : str) : str := tag :: nat_string (length s) ++ ":"%char :: s.

(** What [appendValueKey] appends for a value. *)
Fixpoint value_key (v : Value) : str :=
  match v with
  | VNull => $"n"
  | VBool b => "b"%char :: (if b then $"1" else $"0")
  | VInt64 z => "i"%char :: to_string z
  | VUInt64 z => "u"%char :: to_string z
  | VDouble bits => "d"%char :: to_string bits
  | VTimestamp ns => "t"%char :: to_string ns
  | VString s => sized "s"%char s
  | VDecimal s => sized "m"%char s
  | VDate s => sized "a"%char s
  | VTime s => sized "o"%char s
  | VUuid s => sized "g"%char s
  | VIntervalYearMonth s => sized "y"%char s
  | VIntervalDaySecond s => sized "v"%char s
  | VJson s => sized "j"%char s
  | VBlob s => sized "x"%char s
  | VArray items =>
      "A"%char :: nat_string (length items) ++ concat (map (fun i => US :: value_key i) items)
  | VComposite fields =>
      "C"%char :: nat_string (length fields) ++
      concat (map (fun f => US :: nat_string (length (fst f)) ++ ":"%char :: fst f ++ value_key (snd f))
                  fields)
  | VTypedArray typeName items =>
      "Y"%char :: typeName ++ nat_string (length items) ++ concat (map value_key items)
  | VTypedComposite typeName fields =>
      "O"%char :: typeName ++ nat_string (length fields) ++
      concat (map (fun f => fst f ++ value_key (snd f)) fields)
  end.

Definition appendValueKey (v : Value) (key : str) : str := key ++ value_key v.

Definition cacheKey (sql : str) (params : Params) : str :=
  fold_left (fun key p => appendValueKey p (key ++ [US])) params
            ((sql ++ [RS]) ++ nat_string (length params)).

(** Values without named database types. *)
Fixpoint untyped (v : Value) : bool :=
  match v with
  | VArray items => forallb untyped items
  | VComposite fields => forallb (fun f => untyped (snd f)) fields
  | VTypedArray _ _ | VTypedComposite _ _ => false
  | _ => true
  end.

(** ** Decimal numbers are self-delimiting before a non-digit *)

Definition num_chr (c : ascii) : bool := isdigit c || (c =c "-"%char).

Lemma to_string_num z : forallb num_chr (to_string z) = true.
Proof.
  assert (HN : forall x : N, forallb num_chr (lit (pretty x)) = true).
  { intros x. pose proof (pretty_N_digits x) as H. rewrite forallb_forall in *.
    intros c Hc. unfold num_chr. by rewrite H. }
  unfold to_string, pretty, pretty_Z. destruct z as [|p|p]; [done|apply HN|].
  rewrite lit_app, forallb_app. apply (HN (N.pos p)).
Qed.

(** What may follow a value: the end, or a separator. *)
Definition delimited (r : str) : bool := match r with [] => true | c :: _ => c =c US end.
Definition num_end (r : str) : bool := match r with [] => true | c :: _ => negb (num_chr c) end.

Lemma delimited_num_end r : delimited r = true -> num_end r = true.
Proof. destruct r as [|c r]; [done|]. by intros ->%chr_eqb_true. Qed.

Lemma split_num a b r s :
  forallb num_chr a = true -> forallb num_chr b = true -> num_end r = true -> num_end s = true ->
  a ++ r = b ++ s -> a = b /\ r = s.
Proof.
  revert b; induction a as [|x a IH]; intros [|y b] Ha Hb Hr Hs; cbn [app].
  - done.
  - intros ->. cbn in *. apply andb_prop in Hb as [Hy _]. by rewrite Hy in Hr.
  - intros <-. cbn in *. apply andb_prop in Ha as [Hx _]. by rewrite Hx in Hs.
  - intros [= -> H]. cbn in Ha, Hb. apply andb_prop in Ha as [_ Ha], Hb as [_ Hb].
    by destruct (IH b Ha Hb Hr Hs H) as [-> ->].
Qed.

Lemma number_split z w r s :
  num_end r = true -> num_end s = true -> to_string z ++ r = to_string w ++ s -> z = w /\ r = s.
Proof.
  intros Hr Hs H. apply split_num in H as [H ->]; [|apply to_string_num|apply to_string_num|done|done].
  split; [by apply to_string_inj|done].
Qed.

Lemma nat_split n m r s :
  num_end r = true -> num_end s = true -> nat_string n ++ r = nat_string m ++ s -> n = m /\ r = s.
Proof. intros Hr Hs H. apply number_split in H as [H ->]; [|done..]. split; [lia|done]. Qed.

(** A length-prefixed text determines its content and what follows. *)
Lemma counted_split a b r s :
  nat_string (length a) ++ ":"%char :: a ++ r = nat_string (length b) ++ ":"%char :: b ++ s ->
  a = b /\ r = s.
Proof.
  intros H. apply nat_split in H as [Hl H]; [|done..]. injection H as H.
  by apply app_inj_1 in H.
Qed.

Lemma sized_split t a b r s : sized t a ++ r = sized t b ++ s -> a = b /\ r = s.
Proof.
  unfold sized. cbn. intros [= H]. rewrite <- !app_assoc in H. by apply counted_split in H.
Qed.

(** ** The encoding separates untyped values *)

Lemma items_delimited {A} (f : A -> str) (l : list A) r :
  delimited r = true -> delimited (concat (map (fun i => US :: f i) l) ++ r) = true.
Proof. by destruct l. Qed.

(** [v] is determined by its key, whatever follows. *)
Definition decodes (v : Value) : Prop :=
  forall w r s, untyped v = true -> untyped w = true -> delimited r = true -> delimited s = true ->
    value_key v ++ r = value_key w ++ s -> v = w /\ r = s.

Lemma items_split l l' r s :
  Forall decodes l -> length l = length l' ->
  forallb untyped l = true -> forallb untyped l' = true ->
  delimited r = true -> delimited s = true ->
  concat (map (fun i => US :: value_key i) l) ++ r =
  concat (map (fun i => US :: value_key i) l') ++ s -> l = l' /\ r = s.
Proof.
  intros Hl. revert l'. induction Hl as [|v l Hv _ IH]; intros [|w l']; try done.
  cbn [length map concat forallb]. intros [= Hlen] [Hv1 Hl1]%andb_prop [Hw1 Hl2]%andb_prop Hr Hs.
  rewrite <- !app_assoc. cbn [app]. intros [= H].
  apply Hv in H as [-> H]; [|done|done|by apply items_delimited|by apply items_delimited].
  by destruct (IH l' Hlen Hl1 Hl2 Hr Hs H) as [-> ->].
Qed.

Definition field_key (f : str * Value) : str :=
  nat_string (length (fst f)) ++ ":"%char :: fst f ++ value_key (snd f).

Lemma fields_split l l' r s :
  Forall (fun f => decodes (snd f)) l -> length l = length l' ->
  forallb (fun f => untyped (snd f)) l = true -> forallb (fun f => untyped (snd f)) l' = true ->
  delimited r = true -> delimited s = true ->
  concat (map (fun f => US :: field_key f) l) ++ r =
  concat (map (fun f => US :: field_key f) l') ++ s -> l = l' /\ r = s.
Proof.
  intros Hl. revert l'. induction Hl as [|f l Hf _ IH]; intros [|g l']; try done.
  cbn [length map concat forallb]. intros [= Hlen] [Hf1 Hl1]%andb_prop [Hg1 Hl2]%andb_prop Hr Hs.
  rewrite <- !app_assoc. cbn [app]. intros [= H].
  unfold field_key at 1 3 in H. rewrite <- !app_assoc in H. cbn [app] in H.
  rewrite <- !app_assoc in H. apply counted_split in H as [Hn H].
  apply Hf in H as [Hv H]; [|done|done|by apply items_delimited|by apply items_delimited].
  destruct (IH l' Hlen Hl1 Hl2 Hr Hs H) as [-> ->].
  destruct f, g. cbn in *. by subst.
Qed.

Lemma value_key_decodes v : decodes v.
Proof.
  induction v using Value_ind'; intros w r t Hv Hw Hr Ht Hk;
    destruct w; try (exfalso; cbn in Hk; discriminate Hk); try done;
    cbn [value_key] in Hk; cbn [untyped] in Hv, Hw; apply delimited_num_end in Hr as Hr', Ht as Ht'.
  all: try (by apply sized_split in Hk as [-> ->]).
  all: cbn [app] in Hk; injection Hk as Hk.
  all: try (by apply number_split in Hk as [-> ->]).
  - done.
  - by destruct b, b0; cbn in Hk; injection Hk as ->.
  - rewrite <- !app_assoc in Hk.
    apply nat_split in Hk as [Hlen Hk]; [|by apply delimited_num_end, items_delimited..].
    apply items_split in Hk as [-> ->]; done.
  - rewrite <- !app_assoc in Hk.
    apply nat_split in Hk as [Hlen Hk];
      [|apply delimited_num_end; by apply (items_delimited field_key)..].
    apply fields_split in Hk as [-> ->]; done.
Qed.

Lemma cacheKey_text sql ps :
  cacheKey sql ps = sql ++ RS :: nat_string (length ps) ++
                    concat (map (fun p => US :: value_key p) ps).
Proof.
  unfold cacheKey.
  assert (H : forall key, fold_left (fun key p => appendValueKey p (key ++ [US])) ps key =
                          key ++ concat (map (fun p => US :: value_key p) ps)).
  { induction ps as [|p ps IH]; intros key; cbn; [by rewrite app_nil_r|].
    rewrite IH. unfold appendValueKey. by rewrite <- !app_assoc. }
  rewrite H. by rewrite <- !app_assoc.
Qed.

Lemma split_at_sep c (a b r s : str) : c ∉ a -> c ∉ b -> a ++ c :: r = b ++ c :: s -> a = b /\ r = s.
Proof.
  revert b; induction a as [|x a IH]; intros [|y b] Ha Hb; cbn; intros [= H].
  - done.
  - set_solver.
  - set_solver.
  - destruct (IH b) as [-> ->]; set_solver.
Qed.

Lemma cacheKey_inj (sql1 sql2 : str) (ps1 ps2 : Params) :
  RS ∉ sql1 -> RS ∉ sql2 -> forallb untyped ps1 = true -> forallb untyped ps2 = true ->
  cacheKey sql1 ps1 = cacheKey sql2 ps2 -> sql1 = sql2 /\ ps1 = ps2.
Proof.
  intros H1 H2 Hp1 Hp2. rewrite !cacheKey_text. intros H.
  apply split_at_sep in H as [-> H]; [|done..]. split; [done|].
  rewrite <- (app_nil_r (concat (map _ ps1))), <- (app_nil_r (concat (map _ ps2))) in H.
  apply nat_split in H as [Hlen H]; [|by apply delimited_num_end, items_delimited..].
  apply items_split in H as [-> _]; try done.
  apply Forall_forall. intros v _. apply value_key_decodes.
Qed.

(** Distinct queries have distinct cache keys, for statements without the
    record separator and parameters without named database types: equal keys
    mean the same statement text and the same parameters (types included). *)
Theorem cacheKey_injective (sql1 sql2 : str) (ps1 ps2 : Params) :
  RS ∉ sql1 -> RS ∉ sql2 -> forallb untyped ps1 = true -> forallb untyped ps2 = true ->
  cacheKey sql1 ps1 = cacheKey sql2 ps2 -> sql1 = sql2 /\ ps1 = ps2.
Proof. apply cacheKey_inj. Qed.

Lemma cacheKey_injective_witness :
  $"SELECT ?" = $"SELECT ?" /\ [VComposite [($"a", VInt64 12); ($"b", VNull)]] =
                             [VComposite [($"a", VInt64 12); ($"b", VNull)]].
Proof.
  apply (cacheKey_injective ($"SELECT ?") ($"SELECT ?")
           [VComposite [($"a", VInt64 12); ($"b", VNull)]] [VComposite [($"a", VInt64 12); ($"b", VNull)]]);
    [apply not_in_str; reflexivity|apply not_in_str; reflexivity|reflexivity|reflexivity|reflexivity].
Defined.

(** The restriction to untyped values is needed: named objects are written
    without the length prefixes plain composites have, so different parameters
    of the same statement can share a cache entry. *)
Theorem cacheKey_typed_collision (sql : str) :
  exists p1 p2, p1 <> p2 /\ cacheKey sql [p1] = cacheKey sql [p2].
Proof.
  exists (VTypedComposite ($"T") [($"a", VInt64 12); ($"b", VNull)]),
         (VTypedComposite ($"T") [($"a", VInt64 1); ($"2b", VNull)]).
  split; [done|]. rewrite !cacheKey_text. do 2 f_equal.
Qed.
