(* ===== verification/PgTypes.v ===== *)
(** * PgTypes: PostgreSQL array, composite and geometry texts

    Models src/common/pg_types.cpp and include/sqlconduit/common/pg_types.h.
    The [Scanner]'s position is the remaining text.  Doubles are IEEE-754
    binary64 values ([spec_float] with precision 53 and exponent bound 1024);
    [std::pow(10.0, e)] and the text of [snprintf("%.*g")] are parameters. *)

From Stdlib Require Import SpecFloat.
From S2P Require Import Prelude.

(** ** Arrays and composites *)

Definition blank (c : ascii) : bool :=
  (c =c " "%char) || (c =c "009"%char) || (c =c LF) || (c =c "013"%char).

Definition is_null_word (raw : str) : bool := upper raw =s $"NULL".

Definition needs_quote_chr (c : ascii) : bool :=
  (c =c "{"%char) || (c =c "}"%char) || (c =c ","%char) || (c =c DQUOTE) || (c =c BSLASH) || blank c.

Definition needsQuoting (raw : str) : bool :=
  (raw =s []) || is_null_word raw || existsb needs_quote_chr raw.

Fixpoint escape_quoted (raw : str) : str :=
  match raw with
  | [] => []
  | c :: raw' => if (c =c DQUOTE) || (c =c BSLASH) then BSLASH :: c :: escape_quoted raw'
                 else c :: escape_quoted raw'
  end.

Definition pgQuoteArrayElement (raw : str) : str :=
  if negb (needsQuoting raw) then raw else DQUOTE :: escape_quoted raw ++ [DQUOTE].

Definition pgFormatArray (elements : list (option str)) : str :=
  "{"%char :: join [","%char]
    (map (fun e => match e with Some raw => pgQuoteArrayElement raw | None => $"NULL" end) elements) ++
  ["}"%char].

Definition pgFormatComposite (elements : list (option str)) : str :=
  "("%char :: join [","%char]
    (map (fun e => match e with Some raw => pgQuoteArrayElement raw | None => [] end) elements) ++
  [")"%char].

(** The locals of [splitElements]. *)
Record split_state : Type := mkSplit {
  sp_out : list (option str);
  sp_raw : str;
  sp_quoted : bool;
  sp_quotedAny : bool;
  sp_depth : Z
}.

Definition sp_push (c : ascii) (st : split_state) : split_state :=
  mkSplit (sp_out st) (sp_raw st ++ [c]) (sp_quoted st) (sp_quotedAny st) (sp_depth st).
Definition sp_nest (d : Z) (st : split_state) : split_state :=
  mkSplit (sp_out st) (sp_raw st) (sp_quoted st) (sp_quotedAny st) d.

Section Split.
Variable open_chr close_chr : ascii.
Variable emptyIsNull : bool.

Definition sp_flush (st : split_state) : split_state :=
  let e := if negb (sp_quotedAny st) && (sp_raw st =s $"NULL") then None
           else if negb (sp_quotedAny st) && (sp_raw st =s []) && emptyIsNull then None
           else Some (sp_raw st) in
  mkSplit (sp_out st ++ [e]) [] (sp_quoted st) false (sp_depth st).

  (** The loop over the text between the brackets; [None] is [return false]. *)
Fixpoint split_loop (l : str) (st : split_state) : option split_state :=
  match l with
  | [] => Some st
  | c :: l1 =>
      if sp_quoted st then
        match l1 with
        | d :: l2 =>
            if c =c BSLASH then split_loop l2 (sp_push d st)
            else if c =c DQUOTE then
              split_loop l1 (mkSplit (sp_out st) (sp_raw st) false (sp_quotedAny st) (sp_depth st))
            else split_loop l1 (sp_push c st)
        | [] =>
            if c =c DQUOTE then
              split_loop l1 (mkSplit (sp_out st) (sp_raw st) false (sp_quotedAny st) (sp_depth st))
            else split_loop l1 (sp_push c st)
        end
      else if c =c DQUOTE then split_loop l1 (mkSplit (sp_out st) (sp_raw st) true true (sp_depth st))
      else if c =c open_chr then split_loop l1 (sp_push c (sp_nest (sp_depth st + 1) st))
      else if c =c close_chr then
        if (sp_depth st - 1 <? 0)%Z then None
        else split_loop l1 (sp_push c (sp_nest (sp_depth st - 1) st))
      else if (c =c ","%char) && (sp_depth st =? 0)%Z then split_loop l1 (sp_flush st)
      else split_loop l1 (sp_push c st)
  end.

Definition splitElements (text : str) : option (list (option str)) :=
  match text, last text with
  | c :: inner, Some d =>
      if (length text <? 2) || negb (c =c open_chr) || negb (d =c close_chr) then None
      else if length text =? 2 then Some []
      else
        st ← split_loop (removelast inner) (mkSplit [] [] false false 0);
        if sp_quoted st || negb (sp_depth st =? 0)%Z then None
        else Some (sp_out (sp_flush st))
  | _, _ => None
  end.
End Split.

Definition pgParseArray (text : str) : option (list (option str)) :=
  splitElements "{"%char "}"%char false text.
Definition pgParseComposite (text : str) : option (list (option str)) :=
  splitElements "("%char ")"%char true text.

(** ** Geometry *)

Abbreviation double := spec_float.
Definition prec : Z := 53.
Definition emax : Z := 1024.
Definition of_int (z : Z) : double := binary_normalize prec emax z 0 false.
Definition dadd (a b : double) : double := SFadd prec emax a b.
Definition dmul (a b : double) : double := SFmul prec emax a b.
Definition ddiv (a b : double) : double := SFdiv prec emax a b.

Definition digit_value (c : ascii) : Z := Z.of_N (code c) - 48.

(** [while (digit) { acc = f(acc, digit); ++i; digit = true; }] *)
Fixpoint digits_loop {A} (f : A -> Z -> A) (acc : A) (any : bool) (s : str) : A * bool * str :=
  match s with
  | c :: s' => if isdigit c then digits_loop f (f acc (digit_value c)) true s' else (acc, any, s)
  | [] => (acc, any, [])
  end.

Definition skip_ws (s : str) : str := drop (span blank s) s.

(** [Scanner::lit] *)
Definition scan_lit (c : ascii) (s : str) : option str :=
  match skip_ws s with
  | d :: s' => if d =c c then Some s' else None
  | [] => None
  end.

Definition scan_eof (s : str) : bool := bool_decide (skip_ws s = []).

(** An optional sign: whether it is a minus, and the text after it. *)
Definition scan_sign (s : str) : bool * str :=
  match s with
  | c :: s' => if (c =c "+"%char) || (c =c "-"%char) then (c =c "-"%char, s') else (false, s)
  | [] => (false, [])
  end.

Record PgPoint : Type := mkPoint { pt_x : double; pt_y : double }.
Record PgLine : Type := mkLine { ln_a : double; ln_b : double; ln_c : double }.
Record PgLseg : Type := mkLseg { sg_p1 : PgPoint; sg_p2 : PgPoint }.
Record PgBox : Type := mkBox { bx_high : PgPoint; bx_low : PgPoint }.
Record PgPath : Type := mkPath { ph_closed : bool; ph_points : list PgPoint }.
Record PgPolygon : Type := mkPolygon { pg_points : list PgPoint }.
Record PgCircle : Type := mkCircle { ci_center : PgPoint; ci_radius : double }.

Section Geometry.
Variable pow10 : Z -> double.
Variable printf_g : nat -> double -> str.

Definition frac_step (a : double * double) (d : Z) : double * double :=
  (dadd (dmul (fst a) (of_int 10)) (of_int d), dmul (snd a) (of_int 10)).
Definition whole_step (a : double) (d : Z) : double := dadd (dmul a (of_int 10)) (of_int d).
Definition exp_step (e d : Z) : Z := if (e <? 100000)%Z then (e * 10 + d)%Z else e.

(** The exponent part: [None] when it has no digit. *)
Definition scan_exp (s : str) : option (Z * str) :=
  match s with
  | c :: s1 =>
      if (c =c "e"%char) || (c =c "E"%char) then
        let '(neg, s2) := scan_sign s1 in
        let '(e, any, s3) := digits_loop exp_step 0%Z false s2 in
        if any then Some (if neg then (- e)%Z else e, s3) else None
      else Some (0%Z, s)
  | [] => Some (0%Z, [])
  end.

(** The fraction after the whole part. *)
Definition scan_frac (any : bool) (s : str) : double * double * bool * str :=
  match s with
  | c :: s1 =>
      if c =c "."%char then
        let '(fs, any, s2) := digits_loop frac_step (of_int 0, of_int 1) any s1 in (fs, any, s2)
      else (of_int 0, of_int 1, any, s)
  | [] => (of_int 0, of_int 1, any, [])
  end.

(** [Scanner::number]; on failure the scanner's position does not matter. *)
Definition number (s : str) : option (double * str) :=
  let '(negative, s1) := scan_sign (skip_ws s) in
  let '(whole, any, s2) := digits_loop whole_step (of_int 0) false s1 in
  let '(frac, scale, any, s3) := scan_frac any s2 in
  if negb any then None
  else
    '(e, s4) ← scan_exp s3;
    let v := dmul (dadd whole (ddiv frac scale)) (pow10 e) in
    Some (if negative then SFopp v else v, s4).

Definition pgParseDouble (text : str) : option double :=
  '(v, s) ← number text;
  if scan_eof s then Some v else None.

Definition round_trips (text : str) (v : double) : bool :=
  match pgParseDouble text with Some back => SFeqb back v | None => false end.

(** The precision loop leaves the last text it printed. *)
Definition shortest (v : double) : str :=
  if round_trips (printf_g 15 v) v then printf_g 15 v
  else if round_trips (printf_g 16 v) v then printf_g 16 v
  else printf_g 17 v.

Definition pgFormatDouble (v : double) : str :=
  match v with
  | S754_nan => $"NaN"
  | S754_infinity neg => if neg then $"-Infinity" else $"Infinity"
  | _ => map (fun c => if c =c ","%char then "."%char else c) (shortest v)
  end.

Definition scan_point (s : str) : option (PgPoint * str) :=
  s ← scan_lit "("%char s;
  '(x, s) ← number s;
  s ← scan_lit ","%char s;
  '(y, s) ← number s;
  s ← scan_lit ")"%char s;
  Some (mkPoint x y, s).

(** The loop of [Scanner::points]; every turn consumes a parenthesis, so the
    length of the text bounds it. *)
Fixpoint points_loop (fuel : nat) (close_chr : ascii) (out : list PgPoint) (s : str)
    : option (list PgPoint * str) :=
  match fuel with
  | O => None
  | S fuel' =>
      '(p, s1) ← scan_point s;
      match scan_lit ","%char s1 with
      | Some s2 => points_loop fuel' close_chr (out ++ [p]) s2
      | None => s2 ← scan_lit close_chr s1; Some (out ++ [p], s2)
      end
  end.

Definition scan_points (open_chr close_chr : ascii) (s : str) : option (list PgPoint * str) :=
  s1 ← scan_lit open_chr s;
  match scan_lit close_chr s1 with
  | Some s2 => Some ([], s2)
  | None => points_loop (length s1) close_chr [] s1
  end.

Definition at_eof {A} (r : option (A * str)) : option A :=
  '(x, s) ← r;
  if scan_eof s then Some x else None.

Definition pgParsePoint (text : str) : option PgPoint := at_eof (scan_point text).

Definition pgParseLine (text : str) : option PgLine :=
  at_eof (s ← scan_lit "{"%char text;
          '(a, s) ← number s; s ← scan_lit ","%char s;
          '(b, s) ← number s; s ← scan_lit ","%char s;
          '(c, s) ← number s; s ← scan_lit "}"%char s;
          Some (mkLine a b c, s)).

Definition pgParseLseg (text : str) : option PgLseg :=
  at_eof (s ← scan_lit "["%char text;
          '(p1, s) ← scan_point s; s ← scan_lit ","%char s;
          '(p2, s) ← scan_point s; s ← scan_lit "]"%char s;
          Some (mkLseg p1 p2, s)).

Definition pgParseBox (text : str) : option PgBox :=
  at_eof ('(high, s) ← scan_point text; s ← scan_lit ","%char s;
          '(low, s) ← scan_point s;
          Some (mkBox high low, s)).

Definition pgParsePath (text : str) : option PgPath :=
  let closed := head_is "("%char (skip_ws text) in
  at_eof ('(ps, s) ← (if closed then scan_points "("%char ")"%char text
                      else scan_points "["%char "]"%char text);
          Some (mkPath closed ps, s)).

Definition pgParsePolygon (text : str) : option PgPolygon :=
  at_eof ('(ps, s) ← scan_points "("%char ")"%char text; Some (mkPolygon ps, s)).

Definition pgParseCircle (text : str) : option PgCircle :=
  at_eof (s ← scan_lit "<"%char text;
          '(c, s) ← scan_point s; s ← scan_lit ","%char s;
          '(r, s) ← number s; s ← scan_lit ">"%char s;
          Some (mkCircle c r, s)).

Definition pgFormatPoint (p : PgPoint) : str :=
  "("%char :: pgFormatDouble (pt_x p) ++ ","%char :: pgFormatDouble (pt_y p) ++ [")"%char].
Definition pgFormatLine (l : PgLine) : str :=
  "{"%char :: pgFormatDouble (ln_a l) ++ ","%char :: pgFormatDouble (ln_b l) ++
  ","%char :: pgFormatDouble (ln_c l) ++ ["}"%char].
Definition pgFormatLseg (s : PgLseg) : str :=
  "["%char :: pgFormatPoint (sg_p1 s) ++ ","%char :: pgFormatPoint (sg_p2 s) ++ ["]"%char].
Definition pgFormatBox (b : PgBox) : str :=
  pgFormatPoint (bx_high b) ++ ","%char :: pgFormatPoint (bx_low b).
Definition pgFormatPath (p : PgPath) : str :=
  (if ph_closed p then "("%char else "["%char) ::
  join [","%char] (map pgFormatPoint (ph_points p)) ++ [if ph_closed p then ")"%char else "]"%char].
Definition pgFormatPolygon (p : PgPolygon) : str :=
  "("%char :: join [","%char] (map pgFormatPoint (pg_points p)) ++ [")"%char].
Definition pgFormatCircle (c : PgCircle) : str :=
  "<"%char :: pgFormatPoint (ci_center c) ++ ","%char :: pgFormatDouble (ci_radius c) ++ [">"%char].
End Geometry.

(** ** Reading back what was written *)

Section SplitLemmas.
Variable open_chr close_chr : ascii.
Variable emptyIsNull : bool.
Hypothesis open_not_quote : open_chr <> DQUOTE.
Hypothesis close_not_quote : close_chr <> DQUOTE.

Abbreviation loop := (split_loop open_chr close_chr emptyIsNull).

  (** Inside quotes the escaped text is read back, up to the closing quote. *)
Lemma loop_quoted raw rest out acc d :
  loop (escape_quoted raw ++ DQUOTE :: rest) (mkSplit out acc true true d) =
  loop rest (mkSplit out (acc ++ raw) false true d).
Proof.
  revert acc; induction raw as [|c raw IH]; intros acc; cbn [escape_quoted app].
  - rewrite app_nil_r. destruct rest as [|e rest]; [done|]. cbn [split_loop sp_quoted].
    done.
  - destruct ((c =c DQUOTE) || (c =c BSLASH)) eqn:E; cbn [app split_loop sp_quoted].
    + rewrite (proj2 (chr_eqb_true BSLASH BSLASH) eq_refl). unfold sp_push. cbn. rewrite IH.
      by rewrite <- app_assoc.
    + apply orb_false_iff in E as [E1 E2].
      destruct (escape_quoted raw ++ DQUOTE :: rest) as [|e l] eqn:F; [by destruct (escape_quoted raw)|].
      rewrite E1, E2. unfold sp_push. cbn [sp_out sp_raw sp_quoted sp_quotedAny sp_depth].
      rewrite IH. by rewrite <- app_assoc.
Qed.

  (** An element that is neither quoted nor nested. *)
Definition bare_chr (c : ascii) : bool :=
  negb (c =c DQUOTE) && negb (c =c open_chr) && negb (c =c close_chr) && negb (c =c ","%char).

Lemma loop_bare raw rest out acc :
  forallb bare_chr raw = true ->
  loop (raw ++ rest) (mkSplit out acc false false 0) = loop rest (mkSplit out (acc ++ raw) false false 0).
Proof.
  revert acc; induction raw as [|c raw IH]; intros acc; cbn [forallb app]; [by rewrite app_nil_r|].
  unfold bare_chr at 1.
  intros [(((H1%negb_true_iff & H2%negb_true_iff)%andb_prop & H3%negb_true_iff)%andb_prop &
           H4%negb_true_iff)%andb_prop Hr]%andb_prop.
  cbn [split_loop sp_quoted]. rewrite H1, H2, H3, H4. cbn [andb]. unfold sp_push. cbn.
  rewrite IH by done. by rewrite <- app_assoc.
Qed.

  (** The text of an element, and when reading it gives the element back. *)
Definition element_text (null : str) (e : option str) : str :=
  match e with Some raw => pgQuoteArrayElement raw | None => null end.

Definition readable (null : str) (e : option str) : Prop :=
  match e with
  | Some raw => needsQuoting raw = true \/ forallb bare_chr raw = true
  | None => null = $"NULL" /\ forallb bare_chr null = true \/ null = [] /\ emptyIsNull = true
  end.

Lemma not_needed raw : needsQuoting raw = false -> raw <> [] /\ raw <> $"NULL".
Proof.
  unfold needsQuoting. intros [[H1 H2]%orb_false_iff _]%orb_false_iff.
  split; [by intros ->|]. intros ->. vm_compute in H2. done.
Qed.

  (** From an element boundary, an element's text leaves a state whose flush
      appends the element. *)
Lemma loop_element null e rest out :
  readable null e ->
  exists raw any, loop (element_text null e ++ rest) (mkSplit out [] false false 0) =
                  loop rest (mkSplit out raw false any 0) /\
    forall q, sp_flush emptyIsNull (mkSplit out raw q any 0) = mkSplit (out ++ [e]) [] q false 0.
Proof.
  destruct e as [raw|]; cbn [element_text readable]; intros Hr.
  - unfold pgQuoteArrayElement. destruct (needsQuoting raw) eqn:En; cbn [negb].
    + exists raw, true. split; [|done]. cbn [app split_loop sp_quoted].
      rewrite <- app_assoc. cbn [app sp_out sp_raw sp_depth].
      rewrite loop_quoted. by rewrite app_nil_l.
    + destruct Hr as [Hr|Hr]; [congruence|]. exists raw, false. rewrite loop_bare by done.
      rewrite app_nil_l. split; [done|]. intros q. unfold sp_flush.
      cbn [sp_out sp_raw sp_quoted sp_quotedAny sp_depth negb andb].
      apply not_needed in En as [N1 N2].
      rewrite (proj2 (bool_decide_eq_false (raw = $"NULL")) N2 : (raw =s $"NULL") = false).
      by rewrite (proj2 (bool_decide_eq_false (raw = [])) N1 : (raw =s []) = false).
  - exists null, false. destruct Hr as [[-> Hb]|[-> He]].
    + rewrite loop_bare by done. by rewrite app_nil_l.
    + split; [done|]. intros q. unfold sp_flush. cbn. by rewrite He.
Qed.

Lemma loop_elements null (es : list (option str)) e out :
  Forall (readable null) (e :: es) -> open_chr <> ","%char -> close_chr <> ","%char ->
  exists raw any,
    loop (join [","%char] (map (element_text null) (e :: es))) (mkSplit out [] false false 0) =
      Some (mkSplit (out ++ removelast (e :: es)) raw false any 0) /\
    sp_out (sp_flush emptyIsNull (mkSplit (out ++ removelast (e :: es)) raw false any 0)) = out ++ e :: es.
Proof.
  intros Hall Ho Hc. revert e out Hall; induction es as [|e' es IH]; intros e out Hall.
  - apply Forall_inv in Hall. cbn [map join removelast]. rewrite app_nil_r.
    destruct (loop_element null e [] out Hall) as (raw & any & Hl & Hf). rewrite app_nil_r in Hl.
    exists raw, any. rewrite Hl. split; [done|]. by rewrite Hf.
  - apply Forall_cons in Hall as [He Hall].
    change (join [","%char] (map (element_text null) (e :: e' :: es))) with
      (element_text null e ++ [","%char] ++ join [","%char] (map (element_text null) (e' :: es))).
    destruct (loop_element null e ([","%char] ++ join [","%char] (map (element_text null) (e' :: es)))
                out He) as (raw & any & Hl & Hf).
    rewrite Hl. cbn [app split_loop sp_quoted]. change (","%char =c DQUOTE) with false.
    rewrite (proj2 (chr_eqb_false ","%char open_chr)), (proj2 (chr_eqb_false ","%char close_chr)) by congruence.
    change (","%char =c ","%char) with true. cbn [sp_depth Z.eqb andb]. rewrite Hf.
    destruct (IH e' (out ++ [e]) Hall) as (raw' & any' & H1 & H2).
    exists raw', any'. change (removelast (e :: e' :: es)) with (e :: removelast (e' :: es)).
    rewrite <- app_assoc in H1, H2. rewrite <- app_assoc in H2. done.
Qed.

Lemma split_elements null (es : list (option str)) :
  es <> [] -> (forall e, es = [e] -> element_text null e <> []) ->
  Forall (readable null) es -> open_chr <> ","%char -> close_chr <> ","%char ->
  splitElements open_chr close_chr emptyIsNull
    (open_chr :: join [","%char] (map (element_text null) es) ++ [close_chr]) = Some es.
Proof.
  intros Hne Hone Hall Ho Hc. destruct es as [|e es]; [done|].
  destruct (loop_elements null es e [] Hall Ho Hc) as (raw & any & Hl & Hf).
  set (body := join [","%char] (map (element_text null) (e :: es))) in *.
  assert (Hb : body <> []).
  { unfold body. destruct es as [|e' es]; [by apply Hone|]. cbn. by destruct (element_text null e). }
  assert (Hlen : 3 <= length (open_chr :: body ++ [close_chr])).
  { clearbody body. destruct body; [done|]. cbn. rewrite length_app. cbn. lia. }
  assert (Hlast : last (open_chr :: body ++ [close_chr]) = Some close_chr)
    by (by rewrite app_comm_cons, last_snoc).
  unfold splitElements. rewrite Hlast, !chr_eqb_refl.
  replace (length _ <? 2) with false by (symmetry; apply Nat.ltb_ge; lia).
  replace (length _ =? 2) with false by (symmetry; apply Nat.eqb_neq; lia).
  cbn [orb negb]. rewrite removelast_last, Hl. cbn [mbind option_bind sp_quoted sp_depth orb negb Z.eqb].
  by rewrite Hf.
Qed.
End SplitLemmas.

(** A composite's element that the format does not quote must not contain a
    parenthesis. *)
Definition composite_safe (e : option str) : Prop :=
  match e with
  | Some raw => needsQuoting raw = true \/ ("("%char ∉ raw /\ ")"%char ∉ raw)
  | None => True
  end.

Lemma unquoted_chars raw :
  needsQuoting raw = false -> Forall (fun c => needs_quote_chr c = false) raw.
Proof.
  unfold needsQuoting. intros [_ H]%orb_false_iff. induction raw as [|c raw IH]; [constructor|].
  cbn in H. apply orb_false_iff in H as [H1 H2]. constructor; auto.
Qed.

Lemma bare_of_unquoted o c raw :
  needsQuoting raw = false ->
  (forall x, x ∈ raw -> x <> o /\ x <> c) -> forallb (bare_chr o c) raw = true.
Proof.
  intros Hq%unquoted_chars Hoc. apply forallb_forall. intros x Hx%list_elem_of_In.
  rewrite Forall_forall in Hq. specialize (Hq x Hx). destruct (Hoc x Hx) as [H1 H2].
  unfold needs_quote_chr in Hq. apply orb_false_iff in Hq as [Hq _].
  apply orb_false_iff in Hq as [[[[_ _]%orb_false_iff Hq2]%orb_false_iff Hq3]%orb_false_iff _].
  unfold bare_chr. rewrite Hq2, Hq3, (proj2 (chr_eqb_false x o) H1), (proj2 (chr_eqb_false x c) H2). done.
Qed.

(** PostgreSQL texts round trip.  Every list of optional strings, with any bytes
    in it, is read back from its array text; and from its composite text when
    it is not a single NULL and no unquoted element contains a parenthesis. *)
Theorem pg_text_roundtrip (es : list (option str)) :
  pgParseArray (pgFormatArray es) = Some es /\
  (es <> [None] -> Forall composite_safe es -> pgParseComposite (pgFormatComposite es) = Some es).
Proof.
  split.
  - destruct es as [|e es]; [done|]. unfold pgParseArray, pgFormatArray.
    apply (split_elements "{"%char "}"%char false ($"NULL")); [done| | |done|done].
    + intros e' [= <- _]. destruct e as [raw|]; [|done]. cbn. unfold pgQuoteArrayElement.
      destruct (needsQuoting raw) eqn:E; [done|]. apply not_needed in E as [E _]. exact E.
    + apply Forall_forall. intros [raw|] _; [|by left]. cbn.
      destruct (needsQuoting raw) eqn:E; [by left|]. right. apply bare_of_unquoted; [done|].
      intros x Hx. apply unquoted_chars in E. rewrite Forall_forall in E. specialize (E x Hx).
      split; intros ->; done.
  - intros Hn Hs. destruct es as [|e es]; [done|]. unfold pgParseComposite, pgFormatComposite.
    apply (split_elements "("%char ")"%char true []); [done| | |done|done].
    + intros e' [= -> ->]. destruct e' as [raw|]; [|done]. cbn. unfold pgQuoteArrayElement.
      destruct (needsQuoting raw) eqn:E; [done|]. apply not_needed in E as [E _]. exact E.
    + eapply Forall_impl; [exact Hs|]. intros [raw|]; cbn; [|auto].
      intros [Hq|[H1 H2]]; [by left|]. destruct (needsQuoting raw) eqn:E; [by left|]. right.
      apply bare_of_unquoted; [done|]. intros x Hx. split; intros ->; done.
Qed.

Lemma pg_text_roundtrip_witness :
  pgParseComposite (pgFormatComposite [Some ($"a,b"); None; Some ($"(1 2)"); Some [DQUOTE; BSLASH]; Some []]) =
  Some [Some ($"a,b"); None; Some ($"(1 2)"); Some [DQUOTE; BSLASH]; Some []].
Proof.
  apply (proj2 (pg_text_roundtrip [Some ($"a,b"); None; Some ($"(1 2)"); Some [DQUOTE; BSLASH]; Some []]));
    [discriminate|].
  repeat constructor; left; reflexivity.
Defined.

(** What the texts lose: a composite with an unquoted parenthesis is not read
    back; a nested array's quoted elements lose their quotes, so the inner text
    splits differently; and a doubled quote inside a quoted field, as the server
    writes it, disappears. *)
Theorem pg_text_losses :
  pgParseComposite (pgFormatComposite [Some ($"a)b")]) = None /\
  pgParseComposite (pgFormatComposite [None]) = Some [] /\
  pgParseArray (pgFormatArray [Some ($"a,b"); Some ($"c")]) = Some [Some ($"a,b"); Some ($"c")] /\
  pgParseArray ($"{" ++ pgFormatArray [Some ($"a,b"); Some ($"c")] ++ $"}") = Some [Some ($"{a,b,c}")] /\
  pgParseArray ($"{a,b,c}") = Some [Some ($"a"); Some ($"b"); Some ($"c")] /\
  pgParseComposite ($"(" ++ [DQUOTE] ++ $"a" ++ [DQUOTE; DQUOTE] ++ $"b" ++ [DQUOTE] ++ $")") =
    Some [Some ($"ab")].
Proof.
  split_and!; reflexivity.
Qed.

(** ** Geometry reads back what it writes *)

(** The characters that follow a number in a geometry text. *)
Definition stops (c : ascii) : bool :=
  (c =c ","%char) || (c =c ")"%char) || (c =c "]"%char) || (c =c "}"%char) || (c =c ">"%char).

Lemma stops_plain c : stops c = true ->
  blank c = false /\ isdigit c = false /\ (c =c "."%char) = false /\
  ((c =c "e"%char) || (c =c "E"%char)) = false.
Proof. by_char c. Qed.

Lemma span_app_stop (f : ascii -> bool) (s rest : str) :
  drop (span f s) s <> [] -> span f (s ++ rest) = span f s.
Proof.
  induction s as [|c s IH]; [done|]. cbn. destruct (f c); [|done]. cbn. intros H. by rewrite IH.
Qed.

Lemma skip_ws_app s rest : skip_ws s <> [] -> skip_ws (s ++ rest) = skip_ws s ++ rest.
Proof.
  unfold skip_ws. intros H. rewrite span_app_stop by done. rewrite drop_app_le; [done|apply span_le].
Qed.

Lemma scan_lit_blank c r x : skip_ws r = [] -> blank c = false -> scan_lit c (r ++ c :: x) = Some x.
Proof.
  unfold scan_lit, skip_ws. intros Hr Hc. induction r as [|b r IH]; cbn [app span].
  - rewrite Hc. cbn. by rewrite chr_eqb_refl.
  - cbn in Hr |- *. destruct (blank b); [|done]. cbn in Hr |- *. by apply IH.
Qed.

Lemma digits_loop_app {A} (f : A -> Z -> A) acc any s rest c :
  isdigit c = false ->
  digits_loop f acc any (s ++ c :: rest) =
  let '(a, b, r) := digits_loop f acc any s in (a, b, r ++ c :: rest).
Proof.
  intros Hc. revert acc any; induction s as [|d s IH]; intros acc any; cbn.
  - by rewrite Hc.
  - by destruct (isdigit d).
Qed.

Lemma scan_sign_app s rest : s <> [] -> scan_sign (s ++ rest) = let '(b, r) := scan_sign s in (b, r ++ rest).
Proof. destruct s as [|c s]; [done|]. intros _. cbn. by destruct (_ || _). Qed.

Lemma scan_frac_app any s rest c :
  stops c = true ->
  scan_frac any (s ++ c :: rest) = let '(x, y, b, r) := scan_frac any s in (x, y, b, r ++ c :: rest).
Proof.
  intros (_ & Hd & Hdot & _)%stops_plain. destruct s as [|d s]; cbn; [by rewrite Hdot|].
  destruct (d =c "."%char); [|done]. rewrite digits_loop_app by done.
  by destruct (digits_loop _ _ _ s) as [[[? ?] ?] ?].
Qed.

Lemma scan_exp_app s rest c e r :
  stops c = true -> scan_exp s = Some (e, r) -> scan_exp (s ++ c :: rest) = Some (e, r ++ c :: rest).
Proof.
  intros (_ & Hd & _ & He)%stops_plain. destruct s as [|d s]; cbn.
  - rewrite He. by intros [= <- <-].
  - destruct ((d =c "e"%char) || (d =c "E"%char)); [|by intros [= <- <-]].
    destruct (decide (s = [])) as [->|Hs]; [done|]. rewrite scan_sign_app by done.
    destruct (scan_sign s) as [neg s2]. rewrite digits_loop_app by done.
    destruct (digits_loop _ _ _ s2) as [[e' any] s3]. destruct any; [|done]. by intros [= <- <-].
Qed.

Section GeometryLemmas.
Variable pow10 : Z -> double.
Variable printf_g : nat -> double -> str.

Lemma number_app t rest c v r :
  stops c = true -> number pow10 t = Some (v, r) ->
  number pow10 (t ++ c :: rest) = Some (v, r ++ c :: rest).
Proof.
  intros Hc. unfold number. destruct (decide (skip_ws t = [])) as [->|Hne]; [done|].
  rewrite skip_ws_app, scan_sign_app by done. destruct (scan_sign (skip_ws t)) as [neg s1].
  rewrite digits_loop_app by (by apply stops_plain). destruct (digits_loop _ _ _ s1) as [[whole any] s2].
  rewrite scan_frac_app by done. destruct (scan_frac any s2) as [[[frac scale] any'] s3].
  destruct any'; cbn [negb]; [|done]. destruct (scan_exp s3) as [[e s4]|] eqn:E; [|done].
  rewrite (scan_exp_app s3 rest c e s4 Hc E). cbn. by intros [= <- <-].
Qed.

  (** A double whose printed form parses to the same double. *)
Definition survives (v : double) : Prop :=
  pgParseDouble pow10 (pgFormatDouble pow10 printf_g v) = Some v.

Abbreviation fmt := (pgFormatDouble pow10 printf_g).

Lemma number_then v c x :
  survives v -> stops c = true ->
  exists s, number pow10 (fmt v ++ c :: x) = Some (v, s) /\ scan_lit c s = Some x.
Proof.
  unfold survives, pgParseDouble. intros Hv Hc.
  destruct (number pow10 (fmt v)) as [[v' r]|] eqn:E; [|done]. cbn in Hv.
  destruct (scan_eof r) eqn:Ee; [|done]. injection Hv as ->.
  exists (r ++ c :: x). split; [by apply number_app|].
  apply scan_lit_blank; [by apply bool_decide_eq_true in Ee|by apply stops_plain].
Qed.

Definition point_survives (p : PgPoint) : Prop := survives (pt_x p) /\ survives (pt_y p).

Abbreviation fmtp := (pgFormatPoint pow10 printf_g).

Lemma scan_point_format p x : point_survives p -> scan_point pow10 (fmtp p ++ x) = Some (p, x).
Proof.
  intros [Hx Hy]. destruct p as [px py]. unfold pgFormatPoint, scan_point. cbn [pt_x pt_y app].
  change (scan_lit "("%char ("("%char :: ?l)) with (Some l). cbn [mbind option_bind].
  rewrite <- app_assoc. cbn [app]. rewrite <- app_assoc. cbn [app].
  destruct (number_then px ","%char (fmt py ++ ")"%char :: x) Hx eq_refl) as (s & -> & Hs).
  cbn [mbind option_bind]. rewrite Hs. cbn [mbind option_bind].
  destruct (number_then py ")"%char x Hy eq_refl) as (s' & -> & Hs').
  cbn [mbind option_bind]. by rewrite Hs'.
Qed.

Lemma scan_lit_head c x : blank c = false -> scan_lit c (c :: x) = Some x.
Proof. intros H. by apply (scan_lit_blank c []). Qed.

Lemma scan_lit_other c d x : blank d = false -> d <> c -> scan_lit c (d :: x) = None.
Proof.
  intros Hb Hd. unfold scan_lit, skip_ws. cbn. rewrite Hb. cbn. by rewrite (proj2 (chr_eqb_false d c) Hd).
Qed.

Lemma points_loop_format fuel close_chr p ps out x :
  Forall point_survives (p :: ps) -> blank close_chr = false -> close_chr <> ","%char -> length ps < fuel ->
  points_loop pow10 fuel close_chr out (join [","%char] (map fmtp (p :: ps)) ++ close_chr :: x) =
  Some (out ++ p :: ps, x).
Proof.
  intros Hall Hb Hc. revert fuel p out Hall; induction ps as [|q ps IH]; intros fuel p out Hall Hf;
    (destruct fuel as [|fuel]; [cbn in Hf; lia|]); apply Forall_cons in Hall as [Hp Hall].
  - cbn [map join points_loop]. rewrite scan_point_format by done. cbn [mbind option_bind].
    rewrite scan_lit_other, scan_lit_head by done. done.
  - change (join [","%char] (map fmtp (p :: q :: ps))) with
      (fmtp p ++ [","%char] ++ join [","%char] (map fmtp (q :: ps))).
    cbn [points_loop]. rewrite <- app_assoc, scan_point_format by done. cbn [mbind option_bind app].
    rewrite scan_lit_head by done. rewrite IH; [by rewrite <- app_assoc|done|cbn in Hf; lia].
Qed.

Lemma join_points_length p ps : length ps < length (join [","%char] (map fmtp (p :: ps))).
Proof.
  revert p; induction ps as [|q ps IH]; intros p; [cbn; lia|].
  change (join [","%char] (map fmtp (p :: q :: ps))) with
    (fmtp p ++ [","%char] ++ join [","%char] (map fmtp (q :: ps))).
  rewrite !length_app. specialize (IH q). cbn [length] in *. lia.
Qed.

Lemma scan_points_format o c ps x :
  Forall point_survives ps -> blank o = false -> blank c = false -> c <> ","%char -> c <> "("%char ->
  scan_points pow10 o c (o :: join [","%char] (map fmtp ps) ++ c :: x) = Some (ps, x).
Proof.
  intros Hall Ho Hc Hcomma Hopen. unfold scan_points. rewrite scan_lit_head by done.
  cbn [mbind option_bind]. destruct ps as [|p ps].
  - cbn [map join app]. by rewrite scan_lit_head.
  - assert (Hh : exists t, join [","%char] (map fmtp (p :: ps)) ++ c :: x = "("%char :: t).
    { destruct ps; cbn; eauto. }
    destruct Hh as [t Ht]. rewrite Ht, scan_lit_other by (done || congruence). rewrite <- Ht.
    rewrite points_loop_format; [done..|]. rewrite length_app. pose proof (join_points_length p ps). lia.
Qed.

Ltac step_point :=
  rewrite scan_point_format by done; cbn [mbind option_bind app].
Ltac step_number v c x Hv :=
  let s := fresh "s" in let Hs := fresh "Hs" in
  destruct (number_then v c x Hv eq_refl) as (s & -> & Hs); cbn [mbind option_bind]; rewrite Hs;
  cbn [mbind option_bind app].

Lemma point_text pt :
  point_survives pt -> pgParsePoint pow10 (fmtp pt) = Some pt.
Proof.
  intros H. unfold pgParsePoint. rewrite <- (app_nil_r (fmtp pt)). by rewrite scan_point_format.
Qed.

Lemma line_text ln :
  survives (ln_a ln) /\ survives (ln_b ln) /\ survives (ln_c ln) ->
  pgParseLine pow10 (pgFormatLine pow10 printf_g ln) = Some ln.
Proof.
  destruct ln as [a b c]. cbn [ln_a ln_b ln_c]. intros (Ha & Hb & Hc).
  unfold pgParseLine, pgFormatLine. rewrite scan_lit_head by done. cbn [mbind option_bind ln_a ln_b ln_c].
  step_number a ","%char (fmt b ++ ","%char :: fmt c ++ ["}"%char]) Ha.
  step_number b ","%char (fmt c ++ ["}"%char]) Hb. by step_number c "}"%char ([] : str) Hc.
Qed.

Lemma lseg_text sg :
  point_survives (sg_p1 sg) /\ point_survives (sg_p2 sg) ->
  pgParseLseg pow10 (pgFormatLseg pow10 printf_g sg) = Some sg.
Proof.
  destruct sg as [p q]. cbn [sg_p1 sg_p2]. intros [Hp Hq]. unfold pgParseLseg, pgFormatLseg.
  rewrite scan_lit_head by done. cbn [mbind option_bind sg_p1 sg_p2]. step_point.
  rewrite scan_lit_head by done. cbn [mbind option_bind]. by step_point.
Qed.

Lemma box_text bx :
  point_survives (bx_high bx) /\ point_survives (bx_low bx) ->
  pgParseBox pow10 (pgFormatBox pow10 printf_g bx) = Some bx.
Proof.
  destruct bx as [p q]. cbn [bx_high bx_low]. intros [Hp Hq]. unfold pgParseBox, pgFormatBox.
  cbn [bx_high bx_low]. step_point. rewrite scan_lit_head by done. cbn [mbind option_bind].
  rewrite <- (app_nil_r (fmtp q)). by step_point.
Qed.

Lemma path_text ph :
  Forall point_survives (ph_points ph) -> pgParsePath pow10 (pgFormatPath pow10 printf_g ph) = Some ph.
Proof.
  destruct ph as [[] ps]; cbn [ph_points]; intros H; unfold pgParsePath, pgFormatPath;
    cbn [ph_closed ph_points].
  - change (head_is "("%char (skip_ws ("("%char :: ?l))) with true. cbn iota.
    by rewrite scan_points_format.
  - change (head_is "("%char (skip_ws ("["%char :: ?l))) with false. cbn iota.
    by rewrite scan_points_format.
Qed.

Lemma polygon_text pg :
  Forall point_survives (pg_points pg) -> pgParsePolygon pow10 (pgFormatPolygon pow10 printf_g pg) = Some pg.
Proof.
  destruct pg as [ps]. cbn [pg_points]. intros H. unfold pgParsePolygon, pgFormatPolygon.
  cbn [pg_points]. by rewrite scan_points_format.
Qed.

Lemma circle_text ci :
  point_survives (ci_center ci) /\ survives (ci_radius ci) ->
  pgParseCircle pow10 (pgFormatCircle pow10 printf_g ci) = Some ci.
Proof.
  destruct ci as [p r]. cbn [ci_center ci_radius]. intros [Hp Hr]. unfold pgParseCircle, pgFormatCircle.
  rewrite scan_lit_head by done. cbn [mbind option_bind ci_center ci_radius]. step_point.
  rewrite scan_lit_head by done. cbn [mbind option_bind]. by step_number r ">"%char ([] : str) Hr.
Qed.

(** The seven geometry types round trip: whatever the C library's [pow] and
    [printf] do, a point, line, segment, box, path, polygon or circle whose
    coordinates survive printing is read back unchanged from its text. *)
Theorem pg_geometry_roundtrip (pt : PgPoint) (ln : PgLine) (sg : PgLseg) (bx : PgBox) (ph : PgPath)
    (pg : PgPolygon) (ci : PgCircle) :
  (point_survives pt -> pgParsePoint pow10 (pgFormatPoint pow10 printf_g pt) = Some pt) /\
  (survives (ln_a ln) /\ survives (ln_b ln) /\ survives (ln_c ln) ->
   pgParseLine pow10 (pgFormatLine pow10 printf_g ln) = Some ln) /\
  (point_survives (sg_p1 sg) /\ point_survives (sg_p2 sg) ->
   pgParseLseg pow10 (pgFormatLseg pow10 printf_g sg) = Some sg) /\
  (point_survives (bx_high bx) /\ point_survives (bx_low bx) ->
   pgParseBox pow10 (pgFormatBox pow10 printf_g bx) = Some bx) /\
  (Forall point_survives (ph_points ph) ->
   pgParsePath pow10 (pgFormatPath pow10 printf_g ph) = Some ph) /\
  (Forall point_survives (pg_points pg) ->
   pgParsePolygon pow10 (pgFormatPolygon pow10 printf_g pg) = Some pg) /\
  (point_survives (ci_center ci) /\ survives (ci_radius ci) ->
   pgParseCircle pow10 (pgFormatCircle pow10 printf_g ci) = Some ci).
Proof.
  split_and!.
  - apply point_text.
  - apply line_text.
  - apply lseg_text.
  - apply box_text.
  - apply path_text.
  - apply polygon_text.
  - apply circle_text.
Qed.
End GeometryLemmas.

Definition sample_print (_ : nat) (v : double) : str :=
  match find (fun k => SFeqb v (of_int k)) [1; 2; 3; -4; 15]%Z with
  | Some k => to_string k
  | None => $"0.5"
  end.
Definition sample_pow (e : Z) : double := if (0 <=? e)%Z then of_int (10 ^ e) else of_int 0.
Definition sample_point (x y : Z) : PgPoint := mkPoint (of_int x) (of_int y).

Lemma pg_geometry_roundtrip_witness :
  pgFormatPath sample_pow sample_print (mkPath true [sample_point 1 (-4); sample_point 15 2]) =
    $"((1,-4),(15,2))" /\
  pgParsePath sample_pow (pgFormatPath sample_pow sample_print
    (mkPath true [sample_point 1 (-4); sample_point 15 2])) =
  Some (mkPath true [sample_point 1 (-4); sample_point 15 2]).
Proof.
  split; [vm_compute; reflexivity|].
  apply (pg_geometry_roundtrip sample_pow sample_print (sample_point 1 2)
    (mkLine (of_int 1) (of_int 1) (of_int 1)) (mkLseg (sample_point 1 2) (sample_point 1 2))
    (mkBox (sample_point 1 2) (sample_point 1 2)) (mkPath true [sample_point 1 (-4); sample_point 15 2])
    (mkPolygon []) (mkCircle (sample_point 1 2) (of_int 3))).
  repeat constructor; vm_compute; reflexivity.
Defined.
