(* ===== verification/Context.v ===== *)
(** * Context: request contexts and the W3C trace header

    Models src/common/context.cpp and include/sqlconduit/common/context.h: the
    per-thread stack of [SqlContext] frames behind [ContextScope], span ids,
    and [parseTraceparent] / [formatTraceparent].  The thread-local stack is an
    explicit list whose last element is the current frame; [~ContextScope] is
    the function that undoes a constructor. *)

From S2P Require Import Prelude.

Inductive Idempotency : Type := Unspecified | Idempotent | NonIdempotent.

(** [operation] is the identity of the shared operation state, if any. *)
Record SqlContext : Type := mkContext {
  traceId : str;
  spanId : str;
  tenantId : str;
  targetDataSource : str;
  shadow : bool;
  wroteInThisRequest : bool;
  idempotency : Idempotency;
  traceFlags : Z;
  operation : option nat
}.

Definition defaultInstance : SqlContext := mkContext [] [] [] [] false false Unspecified 1 None.

(** ** The stack of frames *)

Abbreviation frames := (list SqlContext).

Definition kMaxDepth : nat := 64.

(** The constructor: the new stack and [entered_]. *)
Definition scope_enter (ctx : SqlContext) (s : frames) : frames * bool :=
  if length s <? kMaxDepth then (s ++ [ctx], true) else (s, false).

Definition scope_exit (entered : bool) (s : frames) : frames :=
  if entered then removelast s else s.

Definition current (s : frames) : SqlContext := default defaultInstance (last s).

Definition depth (s : frames) : nat := length s.

(** ** Span ids *)

(** [kHex[d]] and [digits[d]]. *)
Definition hex_digit (d : Z) : ascii :=
  ascii_of_N (if (d <? 10)%Z then Z.to_N (48 + d) else Z.to_N (87 + d)).

(** The loop that fills [n] characters from the right. *)
Fixpoint hex_fill (n : nat) (seq : Z) : str :=
  match n with
  | O => []
  | S n' => hex_fill n' (Z.shiftr seq 4) ++ [hex_digit (Z.land seq 15)]
  end.

(** [globalSeq] is the atomic counter; the result is the span id and its new
    value. *)
Definition nextSpanId (s : frames) (globalSeq : Z) : str * Z :=
  let ctx := current s in
  if (traceId ctx =s []) && (spanId ctx =s []) then ([], globalSeq)
  else let seq := wrap_u64 (globalSeq + 1) in (hex_fill 16 seq, seq).

(** ** The traceparent header *)

Definition isHex (c : ascii) : bool := isdigit c || between 97 102 c || between 65 70 c.

Definition copyHex (s : str) (pos len : nat) : option str :=
  if length s <? pos + len then None
  else let out := take len (drop pos s) in if forallb isHex out then Some out else None.

Definition hex_value (c : ascii) : Z :=
  Z.of_N (if isdigit c then code c - 48 else if isupper c then code c - 55 else code c - 87).

(** [std::stoul(s, nullptr, 16)] on hexadecimal digits. *)
Definition stoul16 (s : str) : Z := fold_left (fun z c => z * 16 + hex_value c)%Z s 0%Z.

Definition chr_at (s : str) (i : nat) (c : ascii) : bool := head_is c (drop i s).
Definition all_zero (s : str) : bool := forallb (chr_eqb "0"%char) s.

Definition trace_context (t sp : str) (flags : Z) : SqlContext :=
  mkContext t sp [] [] false false Unspecified flags None.

(** [None] leaves [out] unchanged. *)
Definition parseTraceparent (header : str) : option SqlContext :=
  if negb (length header =? 55) then None
  else if negb (chr_at header 0 "0"%char) || negb (chr_at header 1 "0"%char) then None
  else if negb (chr_at header 2 "-"%char) || negb (chr_at header 35 "-"%char) ||
          negb (chr_at header 52 "-"%char) then None
  else
    t ← copyHex header 3 32;
    sp ← copyHex header 36 16;
    flagsBuf ← copyHex header 53 2;
    if all_zero t then None
    else if all_zero sp then None
    else Some (trace_context t sp (stoul16 flagsBuf)).

Definition formatTraceparent (ctx : SqlContext) : str :=
  if negb (length (traceId ctx) =? 32) || negb (length (spanId ctx) =? 16) then []
  else if negb (forallb isHex (traceId ctx)) || negb (forallb isHex (spanId ctx)) then []
  else if all_zero (traceId ctx) || all_zero (spanId ctx) then []
  else $"00-" ++ traceId ctx ++ $"-" ++ spanId ctx ++ $"-" ++
       [hex_digit (Z.shiftr (traceFlags ctx) 4); hex_digit (Z.land (traceFlags ctx) 15)].

(** ** Hexadecimal digits *)

Lemma hex_digit_props d :
  (0 <= d < 16)%Z -> isHex (hex_digit d) = true /\ hex_value (hex_digit d) = d.
Proof.
  intros Hd. assert (H : all_range 16 0 (fun d => isHex (hex_digit d) &&
    (hex_value (hex_digit d) =? d)%Z) = true) by (vm_compute; done).
  pose proof (all_range_spec _ _ _ H d ltac:(lia)) as [H1 H2%Z.eqb_eq]%andb_prop. done.
Qed.

Lemma land15 z : (Z.land z 15 = z mod 16)%Z.
Proof. apply (Z.land_ones z 4). lia. Qed.

Lemma shiftr4 z : (Z.shiftr z 4 = z / 16)%Z.
Proof. by rewrite Z.shiftr_div_pow2. Qed.

Lemma stoul16_app a b :
  stoul16 (a ++ [b]) = (stoul16 a * 16 + hex_value b)%Z.
Proof. unfold stoul16. by rewrite fold_left_app. Qed.

Lemma hex_fill_length n z : length (hex_fill n z) = n.
Proof. revert z; induction n as [|n IH]; intros z; cbn; [done|]. rewrite length_app, IH. cbn. lia. Qed.

Lemma hex_fill_hex n z : forallb isHex (hex_fill n z) = true.
Proof.
  revert z; induction n as [|n IH]; intros z; cbn [hex_fill]; [done|].
  rewrite forallb_app, IH. cbn. rewrite andb_true_r, land15.
  by apply hex_digit_props, Z.mod_pos_bound.
Qed.

Lemma stoul16_fill n z : (0 <= z < 16 ^ Z.of_nat n)%Z -> stoul16 (hex_fill n z) = z.
Proof.
  revert z; induction n as [|n IH]; intros z Hz; cbn [hex_fill].
  - change (16 ^ Z.of_nat 0)%Z with 1%Z in Hz. cbn. lia.
  - rewrite stoul16_app, land15, shiftr4, IH.
    + rewrite (proj2 (hex_digit_props _ (Z.mod_pos_bound z 16 ltac:(lia)))).
      pose proof (Z.div_mod z 16). lia.
    + rewrite Nat2Z.inj_succ, Z.pow_succ_r in Hz by lia.
      split; [apply Z.div_pos; lia|apply Z.div_lt_upper_bound; lia].
Qed.

Lemma all_zero_value s : all_zero s = true -> stoul16 s = 0%Z.
Proof.
  induction s as [|c s IH] using rev_ind; [done|]. unfold all_zero. rewrite forallb_app.
  intros [H [Hc _]%andb_prop]%andb_prop. apply chr_eqb_true in Hc as <-.
  rewrite stoul16_app, IH by done. done.
Qed.

(** ** Round trip of the trace header *)

(** The contexts the header can carry: 32 and 16 hexadecimal digits, neither
    all zero, and an 8-bit flag field. *)
Definition traceable (ctx : SqlContext) : Prop :=
  length (traceId ctx) = 32 /\ length (spanId ctx) = 16 /\
  forallb isHex (traceId ctx) = true /\ forallb isHex (spanId ctx) = true /\
  all_zero (traceId ctx) = false /\ all_zero (spanId ctx) = false /\
  (0 <= traceFlags ctx < 256)%Z.

Lemma format_traceable ctx :
  traceable ctx ->
  formatTraceparent ctx =
    $"00-" ++ traceId ctx ++ $"-" ++ spanId ctx ++ $"-" ++ hex_fill 2 (traceFlags ctx).
Proof.
  intros (H1 & H2 & H3 & H4 & H5 & H6 & H7). unfold formatTraceparent.
  rewrite H1, H2, H3, H4, H5, H6. cbn [negb orb Nat.eqb hex_fill app].
  do 6 f_equal. rewrite land15, !shiftr4, Z.mod_small; [done|].
  split; [apply Z.div_pos; lia|apply Z.div_lt_upper_bound; lia].
Qed.

Lemma copyHex_mid (a m b : str) pos len :
  pos = length a -> len = length m -> forallb isHex m = true ->
  copyHex (a ++ m ++ b) pos len = Some m.
Proof.
  intros -> -> Hm. unfold copyHex. rewrite !length_app.
  replace (length a + (length m + length b) <? length a + length m) with false
    by (symmetry; apply Nat.ltb_ge; lia).
  by rewrite drop_app_length, take_app_length, Hm.
Qed.

Lemma chr_at_mid (a b : str) i c d : i = length a -> chr_at (a ++ d :: b) i c = (d =c c).
Proof. intros ->. unfold chr_at. by rewrite drop_app_length. Qed.

Lemma parse_text t sp f :
  length t = 32 -> length sp = 16 -> length f = 2 ->
  forallb isHex t = true -> forallb isHex sp = true -> forallb isHex f = true ->
  all_zero t = false -> all_zero sp = false ->
  parseTraceparent ($"00-" ++ t ++ $"-" ++ sp ++ $"-" ++ f) = Some (trace_context t sp (stoul16 f)).
Proof.
  intros Ht Hs Hf Xt Xs Xf Zt Zs. unfold parseTraceparent.
  set (h := $"00-" ++ t ++ $"-" ++ sp ++ $"-" ++ f).
  assert (E1 : h = ($"00-" ++ t) ++ "-"%char :: (sp ++ $"-" ++ f)).
  { unfold h. by rewrite <- app_assoc. }
  assert (E2 : h = ($"00-" ++ t ++ $"-" ++ sp) ++ "-"%char :: f).
  { unfold h. by rewrite <- !app_assoc. }
  assert (L : length h = 55) by (unfold h; rewrite !length_app, Ht, Hs, Hf; done).
  rewrite L. cbn [Nat.eqb negb].
  replace (chr_at h 35 "-"%char) with true
    by (rewrite E1; symmetry; apply chr_at_mid; rewrite length_app, Ht; done).
  replace (chr_at h 52 "-"%char) with true
    by (rewrite E2; symmetry; apply chr_at_mid; rewrite !length_app, Ht, Hs; done).
  assert (C1 : copyHex h 3 32 = Some t) by (by apply (copyHex_mid ($"00-"))).
  assert (C2 : copyHex h 36 16 = Some sp).
  { replace h with (($"00-" ++ t ++ $"-") ++ sp ++ $"-" ++ f) by (unfold h; by rewrite <- !app_assoc).
    apply copyHex_mid; [|done..]. by rewrite !length_app, Ht. }
  assert (C3 : copyHex h 53 2 = Some f).
  { replace h with (($"00-" ++ t ++ $"-" ++ sp ++ $"-") ++ f ++ [])
      by (unfold h; by rewrite app_nil_r, <- !app_assoc).
    apply copyHex_mid; [|done..]. by rewrite !length_app, Ht, Hs. }
  change (chr_at h 0 "0"%char) with true. change (chr_at h 1 "0"%char) with true.
  change (chr_at h 2 "-"%char) with true. cbn [negb orb].
  rewrite C1. cbn [mbind option_bind]. rewrite C2. cbn [mbind option_bind].
  rewrite C3. cbn [mbind option_bind]. by rewrite Zt, Zs.
Qed.

Lemma drop_chr (s : str) i c : chr_at s i c = true -> drop i s = c :: drop (S i) s.
Proof.
  unfold chr_at. intros [t H]%head_is_true. rewrite H. f_equal.
  replace (S i) with (i + 1) by lia. by rewrite <- drop_drop, H.
Qed.

Lemma drop_split (s : str) i n : drop i s = take n (drop i s) ++ drop (i + n) s.
Proof. by rewrite <- drop_drop, take_drop. Qed.

Lemma copyHex_Some s pos len m :
  copyHex s pos len = Some m ->
  m = take len (drop pos s) /\ length m = len /\ forallb isHex m = true.
Proof.
  unfold copyHex. destruct (length s <? pos + len) eqn:E; [done|]. apply Nat.ltb_ge in E.
  destruct (forallb isHex _) eqn:Ex; [|done]. intros [= <-]. split; [done|]. split; [|done].
  rewrite length_take, length_drop. lia.
Qed.

(** What an accepted header looks like. *)
Lemma parse_inv h ctx :
  parseTraceparent h = Some ctx ->
  exists t sp f, h = $"00-" ++ t ++ $"-" ++ sp ++ $"-" ++ f /\
    ctx = trace_context t sp (stoul16 f) /\
    length t = 32 /\ length sp = 16 /\ length f = 2 /\
    forallb isHex t = true /\ forallb isHex sp = true /\ forallb isHex f = true /\
    all_zero t = false /\ all_zero sp = false.
Proof.
  unfold parseTraceparent. destruct (length h =? 55) eqn:EL; [|done]. apply Nat.eqb_eq in EL.
  cbn [negb]. destruct (chr_at h 0 _) eqn:E0; [|done]. destruct (chr_at h 1 _) eqn:E1; [|done].
  destruct (chr_at h 2 _) eqn:E2; [|done]. destruct (chr_at h 35 _) eqn:E3; [|done].
  destruct (chr_at h 52 _) eqn:E4; [|done]. cbn [negb orb].
  destruct (copyHex h 3 32) as [t|] eqn:Ct; [|done]. cbn [mbind option_bind].
  destruct (copyHex h 36 16) as [sp|] eqn:Cs; [|done]. cbn [mbind option_bind].
  destruct (copyHex h 53 2) as [f|] eqn:Cf; [|done]. cbn [mbind option_bind].
  destruct (all_zero t) eqn:Zt; [done|]. destruct (all_zero sp) eqn:Zs; [done|]. intros [= <-].
  apply copyHex_Some in Ct as (Tt & Lt & Xt). apply copyHex_Some in Cs as (Ts & Ls & Xs).
  apply copyHex_Some in Cf as (Tf & Lf & Xf). exists t, sp, f. split; [|done].
  apply drop_chr in E0, E1, E2, E3, E4. rewrite drop_0 in E0.
  rewrite E0, E1, E2, (drop_split h 3 32 : _ = _ ++ drop 35 h), E3,
    (drop_split h 36 16 : _ = _ ++ drop 52 h), E4, (drop_split h 53 2).
  rewrite <- Tt, <- Ts, <- Tf, (drop_ge h (53 + 2)) by lia. by rewrite app_nil_r.
Qed.

Lemma flag_digits (f : str) :
  length f = 2 -> forallb isHex f = true ->
  (0 <= stoul16 f < 256)%Z /\ hex_fill 2 (stoul16 f) = map tolower f.
Proof.
  destruct f as [|a [|b [|? ?]]]; try done. intros _. cbn [forallb]. rewrite andb_true_r.
  intros [Ha Hb]%andb_prop.
  assert (H : forall c, isHex c = true ->
            (0 <= hex_value c < 16)%Z /\ hex_digit (hex_value c) = tolower c).
  { intros c. by_char c; intros _; split; try done; lia. }
  destruct (H a Ha) as [Ra Da], (H b Hb) as [Rb Db].
  unfold stoul16. cbn [fold_left map hex_fill app]. rewrite !land15, !shiftr4.
  replace ((0 * 16 + hex_value a) * 16 + hex_value b)%Z with (hex_value b + hex_value a * 16)%Z by lia.
  rewrite Z.div_add, Z.mod_add, (Z.div_small (hex_value b)) by lia.
  rewrite !Z.add_0_l, !Z.mod_small, Da, Db by lia. split; [lia|done].
Qed.

(** The trace header round trips: for every context with well-formed ids and
    8-bit flags, parsing the formatted header gives back the trace id, the span
    id and the flags and nothing else of the context; and every header that
    parses yields a context whose formatted header is the same text up to the
    letter case of the two flag digits. *)
Theorem traceparent_roundtrip (ctx : SqlContext) (header : str) :
  (traceable ctx ->
   parseTraceparent (formatTraceparent ctx) =
     Some (trace_context (traceId ctx) (spanId ctx) (traceFlags ctx))) /\
  (forall ctx', parseTraceparent header = Some ctx' ->
     traceable ctx' /\
     exists f, length f = 2 /\ header = take 53 (formatTraceparent ctx') ++ f /\
               drop 53 (formatTraceparent ctx') = map tolower f).
Proof.
  split.
  - intros H. rewrite format_traceable by done. destruct H as (H1 & H2 & H3 & H4 & H5 & H6 & H7).
    rewrite parse_text; auto using hex_fill_length, hex_fill_hex. by rewrite stoul16_fill.
  - intros ctx' (t & sp & f & -> & -> & Lt & Ls & Lf & Xt & Xs & Xf & Zt & Zs)%parse_inv.
    destruct (flag_digits f Lf Xf) as [Rf Df].
    assert (HT : traceable (trace_context t sp (stoul16 f))) 
      by (do 6 (split; [done|]); exact Rf).
    split; [done|]. exists f. split; [done|]. rewrite format_traceable by done. cbn [traceId spanId traceFlags trace_context].
    rewrite Df.
    replace ($"00-" ++ t ++ $"-" ++ sp ++ $"-" ++ map tolower f)
      with (($"00-" ++ t ++ $"-" ++ sp ++ $"-") ++ map tolower f) by (by rewrite <- !app_assoc).
    assert (L : 53 = length ($"00-" ++ t ++ $"-" ++ sp ++ $"-")) by (by rewrite !length_app, Lt, Ls).
    rewrite L, take_app_length, drop_app_length. split; [by rewrite <- !app_assoc|done].
Qed.

Definition sample_trace : SqlContext :=
  mkContext ($"4bf92f3577b34da6a3ce929d0e0e4736") ($"00f067aa0ba902b7") ($"tenant") [] false false
    Unspecified 1 None.

Lemma traceparent_roundtrip_witness :
  parseTraceparent (formatTraceparent sample_trace) =
    Some (trace_context (traceId sample_trace) (spanId sample_trace) 1) /\
  traceable (trace_context (traceId sample_trace) (spanId sample_trace) 171).
Proof.
  split.
  - apply (traceparent_roundtrip sample_trace []). repeat split; done.
  - apply (traceparent_roundtrip sample_trace
             ($"00-4bf92f3577b34da6a3ce929d0e0e4736-00f067aa0ba902b7-aB")). vm_compute. reflexivity.
Defined.

(** ** The frame of a write *)

(** [pinRequestWrite] of database_manager.cpp. *)
Definition pin (ctx : SqlContext) : SqlContext :=
  mkContext (traceId ctx) (spanId ctx) (tenantId ctx) (targetDataSource ctx) (shadow ctx) true
    (idempotency ctx) (traceFlags ctx) (operation ctx).

Definition pinRequestWrite (s : frames) : frames :=
  let sz := length s in
  if sz =? 0 then s
  else if 2 <=? sz then alter pin (sz - 2) s
  else alter pin (sz - 1) s.
