(* ===== verification/ConnectionPool.v ===== *)
(** * ConnectionPool: the bounded connection pool

    Models src/core/connection_pool.cpp and the [State] of
    include/sqlconduit/core/connection_pool.h.  Every region of code that holds
    the mutex is one function from the state (and the inputs it reads there:
    the clock, the driver's answers, the stop status of an operation) to the
    next state and what the thread does once it has released the lock.  The
    threads between two such regions are the tasks of [system]; [step]
    interleaves them, so an invariant of [step] holds for every schedule. *)

From S2P Require Import Prelude Types.

(** ** Data *)

(** A connection is known by a number; a waiter by the number of its
    completion. *)
Record IdleConnection : Type := mkIdle {
  i_conn : nat; i_createdAt : Z; i_returnedAt : Z; i_lastValidated : Z
}.

Record Handle : Type := mkHandle { h_conn : nat; h_createdAt : Z; h_borrowedAt : Z }.

Record AsyncWaiter : Type := mkWaiter { w_id : nat; w_enqueuedAt : Z; w_deadline : Z }.

(** The parameters fixed at construction; durations in milliseconds. *)
Record PoolConfig : Type := mkPoolConfig {
  poolName : str;
  minConn_ : Z;
  maxConn_ : Z;
  borrowTimeout_ : Z;
  idleTimeout_ : Z;
  maxLifetime_ : Z;
  leakDetectionThreshold : Z;
  validationInterval : Z;
  metricsEnabled : bool;
  pooled : bool
}.

Record Counters : Type := mkCounters {
  connectionsCreated : Z; connectionsClosed : Z; borrowTimeouts : Z; validationFailures : Z;
  leakWarnings : Z; maxBorrowed : Z; maxWaiting : Z; borrowRequests : Z; borrowSuccesses : Z;
  connectionCreateFailures : Z; invalidatedConnections : Z; idleEvictions : Z;
  lifetimeEvictions : Z; totalBorrowWait : Z; maxBorrowWait : Z
}.

Definition counters_zero : Counters := mkCounters 0 0 0 0 0 0 0 0 0 0 0 0 0 0 0.

Record Pool : Type := mkPool {
  config : PoolConfig;
  idle : list IdleConnection;
  total : Z;
  borrowed : Z;
  waiting : Z;
  closed : bool;
  asyncWaiters : list AsyncWaiter;
  counters : Counters
}.

(** ** Field updates *)

Definition set_idle (x : list IdleConnection) (p : Pool) : Pool :=
  mkPool (config p) x (total p) (borrowed p) (waiting p) (closed p) (asyncWaiters p) (counters p).
Definition set_total (x : Z) (p : Pool) : Pool :=
  mkPool (config p) (idle p) x (borrowed p) (waiting p) (closed p) (asyncWaiters p) (counters p).
Definition set_borrowed (x : Z) (p : Pool) : Pool :=
  mkPool (config p) (idle p) (total p) x (waiting p) (closed p) (asyncWaiters p) (counters p).
Definition set_waiting (x : Z) (p : Pool) : Pool :=
  mkPool (config p) (idle p) (total p) (borrowed p) x (closed p) (asyncWaiters p) (counters p).
Definition set_closed (p : Pool) : Pool :=
  mkPool (config p) (idle p) (total p) (borrowed p) (waiting p) true (asyncWaiters p) (counters p).
Definition set_waiters (x : list AsyncWaiter) (p : Pool) : Pool :=
  mkPool (config p) (idle p) (total p) (borrowed p) (waiting p) (closed p) x (counters p).
Definition upd (f : Counters -> Counters) (p : Pool) : Pool :=
  mkPool (config p) (idle p) (total p) (borrowed p) (waiting p) (closed p) (asyncWaiters p)
         (f (counters p)).

Definition bump (x : Z) : Z := wrap_u64 (x + 1).
Definition inc_created (n : Z) (c : Counters) : Counters :=
  let '(mkCounters a b d e f g h i j k l m o q r) := c in
  mkCounters (wrap_u64 (a + n)) b d e f g h i j k l m o q r.
Definition inc_closed (c : Counters) : Counters :=
  let '(mkCounters a b d e f g h i j k l m o q r) := c in
  mkCounters a (bump b) d e f g h i j k l m o q r.
Definition inc_timeouts (c : Counters) : Counters :=
  let '(mkCounters a b d e f g h i j k l m o q r) := c in
  mkCounters a b (bump d) e f g h i j k l m o q r.
Definition inc_validation (c : Counters) : Counters :=
  let '(mkCounters a b d e f g h i j k l m o q r) := c in
  mkCounters a b d (bump e) f g h i j k l m o q r.
Definition inc_leak (c : Counters) : Counters :=
  let '(mkCounters a b d e f g h i j k l m o q r) := c in
  mkCounters a b d e (bump f) g h i j k l m o q r.
Definition max_borrowed (x : Z) (c : Counters) : Counters :=
  let '(mkCounters a b d e f g h i j k l m o q r) := c in
  mkCounters a b d e f (Z.max g x) h i j k l m o q r.
Definition max_waiting (x : Z) (c : Counters) : Counters :=
  let '(mkCounters a b d e f g h i j k l m o q r) := c in
  mkCounters a b d e f g (Z.max h x) i j k l m o q r.
Definition inc_requests (c : Counters) : Counters :=
  let '(mkCounters a b d e f g h i j k l m o q r) := c in
  mkCounters a b d e f g h (bump i) j k l m o q r.
Definition inc_successes (c : Counters) : Counters :=
  let '(mkCounters a b d e f g h i j k l m o q r) := c in
  mkCounters a b d e f g h i (bump j) k l m o q r.
Definition inc_createFailures (c : Counters) : Counters :=
  let '(mkCounters a b d e f g h i j k l m o q r) := c in
  mkCounters a b d e f g h i j (bump k) l m o q r.
Definition inc_invalidated (c : Counters) : Counters :=
  let '(mkCounters a b d e f g h i j k l m o q r) := c in
  mkCounters a b d e f g h i j k (bump l) m o q r.
Definition inc_idleEvictions (c : Counters) : Counters :=
  let '(mkCounters a b d e f g h i j k l m o q r) := c in
  mkCounters a b d e f g h i j k l (bump m) o q r.
Definition inc_lifetimeEvictions (c : Counters) : Counters :=
  let '(mkCounters a b d e f g h i j k l m o q r) := c in
  mkCounters a b d e f g h i j k l m (bump o) q r.
Definition add_wait (us : Z) (c : Counters) : Counters :=
  let '(mkCounters a b d e f g h i j k l m o q r) := c in
  mkCounters a b d e f g h i j k l m o (q + us) (Z.max r us).

Definition if_metrics (f : Counters -> Counters) (p : Pool) : Pool :=
  if metricsEnabled (config p) then upd f p else p.

(** [recordWait] and [recordSuccess]; times in nanoseconds. *)
Definition recordWait (started now : Z) (p : Pool) : Pool :=
  if_metrics (add_wait (Z.quot (now - started) 1000)) p.
Definition recordSuccess (started now : Z) (p : Pool) : Pool :=
  if_metrics (fun c => max_borrowed (borrowed p) (inc_successes c)) (recordWait started now p).
Definition countSuccess (p : Pool) : Pool :=
  if_metrics (fun c => max_borrowed (borrowed p) (inc_successes c)) p.

(** [ms] milliseconds have passed between two instants. *)
Definition elapsed (from now ms : Z) : bool := (ms * 1000000 <=? now - from)%Z.

Definition expired_lifetime (cfg : PoolConfig) (createdAt now : Z) : bool :=
  (0 <? maxLifetime_ cfg)%Z && elapsed createdAt now (maxLifetime_ cfg).

Definition needs_ping (cfg : PoolConfig) (i : IdleConnection) (now : Z) : bool :=
  (validationInterval cfg <=? 0)%Z || elapsed (i_lastValidated i) now (validationInterval cfg).

Definition poolExhaustedMessage (name : str) (maxConn total borrowed waitedMs : Z) : str :=
  $"pool '" ++ name ++ $"' exhausted: waited " ++ to_string waitedMs ++ $"ms (max=" ++
  to_string maxConn ++ $", total=" ++ to_string total ++ $", borrowed=" ++
  to_string borrowed ++ $")".

Definition exhausted (p : Pool) (waitedMs : Z) : Status :=
  status_error PoolExhausted
    (poolExhaustedMessage (poolName (config p)) (maxConn_ (config p)) (total p) (borrowed p) waitedMs).

Definition closed_message (p : Pool) : str := $"pool '" ++ poolName (config p) ++ $"' is closed".
Definition ds_closed_message (p : Pool) : str :=
  $"datasource '" ++ poolName (config p) ++ $"' is closed".

(** The constructor's normalisation of its limits. *)
Definition make_config (name : str) (minC maxC borrowT idleT lifeT leakT validT : Z)
    (metrics isPooled : bool) : PoolConfig :=
  let maxC' := Z.max maxC 1 in
  mkPoolConfig name (Z.min (Z.max minC 0) maxC') maxC' borrowT (Z.max idleT 0) (Z.max lifeT 0)
               (Z.max leakT 0) (Z.max validT 0) metrics isPooled.

Definition pool_new (cfg : PoolConfig) : Pool := mkPool cfg [] 0 0 0 false [] counters_zero.

(** [if (total > 0) --total] and [--total; if (total < 0) total = 0]. *)
Definition dec_pos (x : Z) : Z := if (0 <? x)%Z then (x - 1)%Z else x.
Definition dec_floor (x : Z) : Z := Z.max (x - 1) 0.

(** ** Critical sections *)

(** What a thread does after it released the lock. *)
Inductive effect : Type :=
| Deliver (w : nat) (h : option Handle) (st : Status)
| Close (c : nat)
| NotifyOne
| NotifyAll.

(** The loop that removes late waiters, with the status each one gets. *)
Fixpoint split_waiters (late : AsyncWaiter -> option Status) (ws : list AsyncWaiter)
    : list AsyncWaiter * list (AsyncWaiter * Status) :=
  match ws with
  | [] => ([], [])
  | w :: ws' =>
      let '(kept, expired) := split_waiters late ws' in
      match late w with
      | Some st => (kept, (w, st) :: expired)
      | None => (w :: kept, expired)
      end
  end.

Definition waited_ms (w : AsyncWaiter) (now : Z) : Z := Z.quot (now - w_enqueuedAt w) 1000000.

Fixpoint repeat_upd (n : nat) (f : Counters -> Counters) (p : Pool) : Pool :=
  match n with O => p | S n' => repeat_upd n' f (if_metrics f p) end.

Definition deliver_expired (l : list (AsyncWaiter * Status)) : list effect :=
  map (fun ws => Deliver (w_id (fst ws)) None (snd ws)) l.

(** [State::returnConn].  After a hand-off the code returns before its loop over
    the expired waiters. *)
Definition returnConn (conn : option nat) (createdAt borrowedAt : Z) (reusable : bool) (now : Z)
    (p : Pool) : Pool * list effect :=
  match conn with
  | None => (p, [])
  | Some c =>
      let cfg := config p in
      let leaked := (0 <? leakDetectionThreshold cfg)%Z &&
                    elapsed borrowedAt now (leakDetectionThreshold cfg) in
      let p := if leaked then upd inc_leak p else p in
      let p := set_borrowed (dec_pos (borrowed p)) p in
      let expired := expired_lifetime cfg createdAt now in
      if closed p || expired || negb reusable || negb (pooled cfg) then
        let p := upd inc_closed p in
        let p := if negb reusable then upd inc_invalidated p
                 else if expired then upd inc_lifetimeEvictions p else p in
        (set_total (dec_pos (total p)) p, [Close c; NotifyOne])
      else
        let '(kept, late) :=
          split_waiters (fun w => if (w_deadline w <=? now)%Z
                                  then Some (exhausted p (waited_ms w now)) else None)
                        (asyncWaiters p) in
        let p := repeat_upd (length late) inc_timeouts p in
        match kept with
        | w :: rest =>
            let p := set_borrowed (borrowed p + 1) (set_waiters rest p) in
            (countSuccess p, [Deliver (w_id w) (Some (mkHandle c createdAt now)) status_OK])
        | [] =>
            (set_idle (idle p ++ [mkIdle c createdAt now now]) (set_waiters [] p),
             deliver_expired late ++ [NotifyOne])
        end
  end.

(** *** Synchronous borrowing *)

Record BorrowRequest : Type := mkBorrow {
  br_started : Z;
  br_deadline : Z;
  br_timeout : Z;
  br_operation : bool
}.

(** Where a borrowing thread is when it has released the lock. *)
Inductive borrow_next : Type :=
| BFail (code : ErrorCode) (msg : str)
| BHandle (h : Handle)
| BCreateUnpooled
| BValidate (i : IdleConnection)
| BCreate
| BWait.

(** [stop] is the status of the current operation, [OK] when there is none. *)
Definition borrow_iter (r : BorrowRequest) (now : Z) (stop : Status) (p : Pool)
    : Pool * borrow_next :=
  if negb (status_ok stop) then (recordWait (br_started r) now p, BFail (code_ stop) (message stop))
  else if closed p then (recordWait (br_started r) now p, BFail PoolClosed (closed_message p))
  else match idle p with
       | i :: rest => (set_idle rest p, BValidate i)
       | [] =>
           if (total p <? maxConn_ (config p))%Z then (set_total (total p + 1) p, BCreate)
           else if (br_timeout r =? 0)%Z then
             (recordWait (br_started r) now (if_metrics inc_timeouts p),
              BFail PoolExhausted (message (exhausted p (br_timeout r))))
           else
             let p := set_waiting (waiting p + 1) p in
             (if_metrics (max_waiting (waiting p)) p, BWait)
       end.

(** From acquiring the lock to the first release. *)
Definition borrow_enter (r : BorrowRequest) (now : Z) (stop : Status) (p : Pool)
    : Pool * borrow_next :=
  let p := if_metrics inc_requests p in
  if negb (pooled (config p)) then
    if closed p then (recordWait (br_started r) now p, BFail PoolClosed (ds_closed_message p))
    else (p, BCreateUnpooled)
  else borrow_iter r now stop p.

(** After a connection was opened without pooling. *)
Definition borrow_unpooled_created (r : BorrowRequest) (now : Z) (conn : nat + (ErrorCode * str))
    (p : Pool) : Pool * borrow_next * list effect :=
  match conn with
  | inr (code, err) => (recordWait (br_started r) now (upd inc_createFailures p), BFail code err, [])
  | inl c =>
      if closed p then
        (recordWait (br_started r) now p, BFail PoolClosed (ds_closed_message p), [Close c])
      else
        let p := upd (inc_created 1) (set_borrowed (borrowed p + 1) (set_total (total p + 1) p)) in
        (recordSuccess (br_started r) now p, BHandle (mkHandle c now now), [])
  end.

(** After the idle connection was checked ([alive], [expired]) unlocked; a dead
    one is dropped and the loop goes on without releasing the lock. *)
Definition borrow_validated (r : BorrowRequest) (i : IdleConnection) (alive expired : bool)
    (now : Z) (stop : Status) (p : Pool) : Pool * borrow_next * list effect :=
  if alive then
    if closed p then
      (recordWait (br_started r) now p, BFail PoolClosed (closed_message p), [Close (i_conn i)])
    else
      (recordSuccess (br_started r) now (set_borrowed (borrowed p + 1) p),
       BHandle (mkHandle (i_conn i) (i_createdAt i) now), [])
  else
    let p := upd (fun c => if expired then inc_lifetimeEvictions (inc_closed c)
                           else inc_validation (inc_closed c)) (set_total (dec_floor (total p)) p) in
    (borrow_iter r now stop p, [Close (i_conn i); NotifyOne]).

(** After a connection was opened in a reserved slot. *)
Definition borrow_created (r : BorrowRequest) (now : Z) (conn : nat + (ErrorCode * str)) (p : Pool)
    : Pool * borrow_next * list effect :=
  match conn with
  | inl c =>
      if closed p then
        (recordWait (br_started r) now (set_total (total p - 1) p),
         BFail PoolClosed (closed_message p), [Close c])
      else
        let p := upd (inc_created 1) (set_borrowed (borrowed p + 1) p) in
        (recordSuccess (br_started r) now p, BHandle (mkHandle c now now), [])
  | inr (code, err) =>
      (recordWait (br_started r) now (upd inc_createFailures (set_total (dec_floor (total p)) p)),
       BFail code err, [NotifyOne])
  end.

(** After the condition variable: notified, or timed out. *)
Definition borrow_woken (r : BorrowRequest) (timedOut : bool) (now : Z) (stop : Status) (p : Pool)
    : Pool * borrow_next :=
  let p := set_waiting (waiting p - 1) p in
  if timedOut then
    if br_operation r && negb (status_ok stop) then
      (recordWait (br_started r) now p, BFail (code_ stop) (message stop))
    else if br_operation r && (now <? br_deadline r)%Z then borrow_iter r now stop p
    else
      (recordWait (br_started r) now (if_metrics inc_timeouts p),
       BFail PoolExhausted (message (exhausted p (br_timeout r))))
  else borrow_iter r now stop p.

(** *** Asynchronous borrowing *)

(** [stop] gives the status of a waiter's operation. *)
Definition expireWaiters (now : Z) (stop : AsyncWaiter -> Status) (p : Pool) : Pool * list effect :=
  let '(kept, late) :=
    split_waiters (fun w => if (w_deadline w <=? now)%Z || negb (status_ok (stop w)) then
                              Some (if negb (status_ok (stop w)) then stop w
                                    else exhausted p (waited_ms w now))
                            else None) (asyncWaiters p) in
  (repeat_upd (length late) inc_timeouts (set_waiters kept p), deliver_expired late).

Inductive async_next : Type :=
| ADone
| ARetry (w : nat) (timeoutMs : Z)
| AValidate (i : IdleConnection) (w : nat) (timeoutMs : Z)
| ADrop (i : IdleConnection) (w : nat) (timeoutMs : Z)
| ACreate (w : nat) (slotReserved : bool).

(** [borrowAsync] under the lock, for the waiter [w] and the effective timeout. *)
Definition borrowAsync (w : nat) (timeoutMs : Z) (now : Z) (p : Pool)
    : Pool * async_next * list effect :=
  let p := if_metrics inc_requests p in
  if closed p then (p, ADone, [Deliver w None (status_error PoolClosed (closed_message p))])
  else if negb (pooled (config p)) then (p, ACreate w false, [])
  else match idle p with
       | i :: rest =>
           let p := set_idle rest p in
           if expired_lifetime (config p) (i_createdAt i) now then
             (upd (fun c => inc_lifetimeEvictions (inc_closed c)) (set_total (dec_floor (total p)) p),
              ARetry w timeoutMs, [Close (i_conn i)])
           else if negb (needs_ping (config p) i now) then
             (countSuccess (set_borrowed (borrowed p + 1) p), ADone,
              [Deliver w (Some (mkHandle (i_conn i) (i_createdAt i) now)) status_OK])
           else (p, AValidate i w timeoutMs, [])
       | [] =>
           if (total p <? maxConn_ (config p))%Z then (set_total (total p + 1) p, ACreate w true, [])
           else if (timeoutMs =? 0)%Z then
             (if_metrics inc_timeouts p, ADone, [Deliver w None (exhausted p 0)])
           else
             (set_waiters (asyncWaiters p ++ [mkWaiter w now (now + timeoutMs * 1000000)]) p, ADone, [])
       end.

(** The validation task, once the ping has answered. *)
Definition async_validated (i : IdleConnection) (w : nat) (timeoutMs : Z) (alive : bool) (now : Z)
    (p : Pool) : Pool * async_next * list effect :=
  if closed p then
    (p, ADone, [Close (i_conn i); Deliver w None (status_error PoolClosed ($"pool is closed"))])
  else if alive then
    (countSuccess (set_borrowed (borrowed p + 1) p), ADone,
     [Deliver w (Some (mkHandle (i_conn i) (i_createdAt i) now)) status_OK])
  else (p, ADrop i w timeoutMs, []).

(** Its second critical section, for a connection that did not answer. *)
Definition async_dropped (i : IdleConnection) (w : nat) (timeoutMs : Z) (p : Pool)
    : Pool * async_next * list effect :=
  (upd (fun c => inc_validation (inc_closed c)) (set_total (dec_floor (total p)) p),
   ARetry w timeoutMs, [Close (i_conn i)]).

Definition overloaded (what : str) : Status :=
  set_retryable true (status_error Overloaded ($"async executor rejected connection " ++ what)).

(** The executor refused the validation task. *)
Definition async_validation_rejected (i : IdleConnection) (w : nat) (now : Z) (p : Pool)
    : Pool * list effect :=
  if closed p then
    (upd inc_closed (set_total (dec_pos (total p)) p),
     [Close (i_conn i); Deliver w None (overloaded ($"validation"))])
  else
    (set_idle (idle p ++ [mkIdle (i_conn i) (i_createdAt i) now (i_lastValidated i)]) p,
     [Deliver w None (overloaded ($"validation"))]).

Definition creation_error (code : ErrorCode) (err : str) : Status :=
  let st := status_error code err in
  if code_eqb code ConnectionFailed then set_broken true (set_retryable true st) else st.

(** The creation task of [postCreateTask], once the driver has answered. *)
Definition async_created (w : nat) (slotReserved : bool) (conn : nat + (ErrorCode * str)) (now : Z)
    (p : Pool) : Pool * list effect :=
  if closed p then
    (if slotReserved then set_total (dec_pos (total p)) p else p,
     match conn with inl c => [Close c] | inr _ => [] end ++
     [Deliver w None (status_error PoolClosed (closed_message p))])
  else match conn with
       | inr (code, err) =>
           (upd inc_createFailures (if slotReserved then set_total (dec_floor (total p)) p else p),
            [Deliver w None (creation_error code err)])
       | inl c =>
           let p := if slotReserved then p else set_total (total p + 1) p in
           let p := upd (inc_created 1) (set_borrowed (borrowed p + 1) p) in
           (countSuccess p, [Deliver w (Some (mkHandle c now now)) status_OK])
       end.

(** The executor refused the creation task. *)
Definition async_creation_rejected (w : nat) (slotReserved : bool) (p : Pool) : Pool * list effect :=
  (if slotReserved then upd inc_createFailures (set_total (dec_pos (total p)) p) else p,
   [Deliver w None (overloaded ($"creation"))]).

(** The hand-out loop of [wakeAsyncWaiters]: idle connections first, then free
    slots; returns the waiters to create for. *)
Fixpoint wake_loop (now : Z) (ws : list AsyncWaiter) (p : Pool)
    : Pool * list nat * list effect :=
  match ws with
  | [] => (set_waiters [] p, [], [])
  | w :: ws' =>
      match idle p with
      | i :: rest =>
          let p := countSuccess (set_borrowed (borrowed p + 1) (set_idle rest p)) in
          let '(p', creates, effs) := wake_loop now ws' p in
          (p', creates,
           Deliver (w_id w) (Some (mkHandle (i_conn i) (i_createdAt i) now)) status_OK :: effs)
      | [] =>
          if (total p <? maxConn_ (config p))%Z then
            let '(p', creates, effs) := wake_loop now ws' (set_total (total p + 1) p) in
            (p', w_id w :: creates, effs)
          else (set_waiters (w :: ws') p, [], [])
      end
  end.

Definition wakeAsyncWaiters (now : Z) (p : Pool) : Pool * list nat * list effect :=
  if closed p then (p, [], []) else wake_loop now (asyncWaiters p) p.

(** *** Health check *)

(** Take the front idle connection out; [true] marks it for idle retirement. *)
Definition health_take (now : Z) (p : Pool) : Pool * option (IdleConnection * bool) :=
  if closed p then (p, None)
  else match idle p with
       | [] => (p, None)
       | i :: rest =>
           (set_idle rest p,
            Some (i, (0 <? idleTimeout_ (config p))%Z &&
                     elapsed (i_returnedAt i) now (idleTimeout_ (config p)) &&
                     (minConn_ (config p) <? total p)%Z))
       end.

(** Put it back, or drop it.  [pinged] is the answer of the ping, if needed. *)
Definition health_restore (i : IdleConnection) (retire : bool) (pinged : bool) (now : Z) (p : Pool)
    : Pool * list effect :=
  let expired := expired_lifetime (config p) (i_createdAt i) now in
  let ping := needs_ping (config p) i now in
  let alive := negb retire && negb expired && (negb ping || pinged) in
  if alive && negb (closed p) then
    (set_idle (idle p ++ [mkIdle (i_conn i) (i_createdAt i) (i_returnedAt i)
                            (if ping then now else i_lastValidated i)]) p, [])
  else
    (upd (fun c => if retire then inc_idleEvictions (inc_closed c)
                   else if expired then inc_lifetimeEvictions (inc_closed c)
                   else inc_validation (inc_closed c))
         (set_total (dec_floor (total p)) p), [Close (i_conn i)]).

(** Reserve the slots to get back to the minimum. *)
Definition health_reserve (p : Pool) : Pool * option Z :=
  if closed p then (p, None)
  else
    let want := (minConn_ (config p) - total p)%Z in
    let room := (maxConn_ (config p) - total p)%Z in
    let need := Z.min (Z.max want 0) (Z.max room 0) in
    (set_total (total p + need) p, Some need).

Definition health_create_failed (p : Pool) : Pool := upd inc_createFailures p.

(** Give back unused slots and store the fresh connections. *)
Definition health_refill (need : Z) (fresh : list IdleConnection) (p : Pool) : Pool * list effect :=
  let n := Z.of_nat (length fresh) in
  let p := upd (inc_created n) (set_total (Z.max (total p - (need - n)) 0) p) in
  if closed p then (p, map (fun i => Close (i_conn i)) fresh ++ [NotifyAll])
  else (set_idle (idle p ++ fresh) p, [NotifyAll]).

(** *** Shutdown *)

Definition shutdown_begin (p : Pool) : Pool * list effect :=
  (set_waiters [] (set_closed p),
   NotifyAll :: map (fun w => Deliver (w_id w) None (status_error PoolClosed (closed_message p)))
                    (asyncWaiters p)).

Definition shutdown_pop (p : Pool) : option (Pool * IdleConnection) :=
  match idle p with [] => None | i :: rest => Some (set_idle rest p, i) end.

Definition shutdown_count (p : Pool) : Pool := upd inc_closed p.

Definition shutdown_finish (p : Pool) : Pool := set_total (borrowed p) p.

(** *** Observers *)

Definition idleCount (p : Pool) : Z := Z.of_nat (length (idle p)).
Definition totalCount (p : Pool) : Z := wrap_u64 (total p).
Definition borrowedCount (p : Pool) : Z := wrap_u64 (borrowed p).

(** *** Warm-up, in the constructor *)

Definition warmup_add (c : nat) (now : Z) (p : Pool) : Pool * list effect :=
  if (maxConn_ (config p) <=? total p)%Z then (p, [Close c])
  else (upd (inc_created 1) (set_total (total p + 1) (set_idle (idle p ++ [mkIdle c now now now]) p)), []).

Record PoolStats : Type := mkPoolStats {
  ps_min : Z; ps_max : Z; ps_idle : Z; ps_total : Z; ps_borrowed : Z; ps_waiting : Z;
  ps_asyncWaiting : Z; ps_counters : Counters
}.

(** [stats]: the counters are reported only when metrics are enabled. *)
Definition pool_stats (p : Pool) : PoolStats :=
  mkPoolStats (Z.max 0 (minConn_ (config p))) (Z.max 0 (maxConn_ (config p)))
    (Z.of_nat (length (idle p))) (Z.max 0 (total p)) (Z.max 0 (borrowed p)) (Z.max 0 (waiting p))
    (Z.of_nat (length (asyncWaiters p)))
    (if metricsEnabled (config p) then counters p else counters_zero).

(** ** The system: the pool, the threads between critical sections, the
    borrowed handles *)

Inductive task : Type :=
| TBorrow (r : BorrowRequest) (n : borrow_next)
| TAsync (n : async_next)
| THealth (i : IdleConnection) (retire : bool)
| TRefill (need : Z) (fresh : list IdleConnection).

Record system : Type := mkSystem { pool : Pool; tasks : list task; handles : list Handle }.

(** A borrow that returned leaves no task; one that got a connection leaves a
    handle. *)
Definition park (r : BorrowRequest) (n : borrow_next) : list task :=
  match n with BFail _ _ | BHandle _ => [] | _ => [TBorrow r n] end.
Definition got (n : borrow_next) : list Handle :=
  match n with BHandle h => [h] | _ => [] end.
Definition apark (n : async_next) : list task :=
  match n with ADone => [] | _ => [TAsync n] end.
Definition delivered (effs : list effect) : list Handle :=
  omap (fun e => match e with Deliver _ h _ => h | _ => None end) effs.

(** [section p ts hs p' ts' hs']: one critical section takes the pool from [p]
    to [p'], consuming the tasks [ts] and handles [hs] and producing [ts'] and
    [hs']. *)
Inductive section : Pool -> list task -> list Handle -> Pool -> list task -> list Handle -> Prop :=
| s_borrow p r now stop p' n :
    borrow_enter r now stop p = (p', n) ->
    section p [] [] p' (park r n) (got n)
| s_unpooled p r now conn p' n effs :
    borrow_unpooled_created r now conn p = (p', n, effs) ->
    section p [TBorrow r BCreateUnpooled] [] p' (park r n) (got n)
| s_validated p r i t pinged now stop p' n effs :
    let expired := expired_lifetime (config p) (i_createdAt i) t in
    let alive := negb expired && (negb (needs_ping (config p) i t) || pinged) in
    borrow_validated r i alive expired now stop p = (p', n, effs) ->
    section p [TBorrow r (BValidate i)] [] p' (park r n) (got n)
| s_created p r now conn p' n effs :
    borrow_created r now conn p = (p', n, effs) ->
    section p [TBorrow r BCreate] [] p' (park r n) (got n)
| s_woken p r timedOut now stop p' n :
    borrow_woken r timedOut now stop p = (p', n) ->
    section p [TBorrow r BWait] [] p' (park r n) (got n)
| s_return p h reusable now p' effs :
    returnConn (Some (h_conn h)) (h_createdAt h) (h_borrowedAt h) reusable now p = (p', effs) ->
    section p [] [h] p' [] (delivered effs)
| s_expire p now stop p' effs :
    expireWaiters now stop p = (p', effs) -> section p [] [] p' [] (delivered effs)
| s_async p w timeoutMs now p' n effs :
    borrowAsync w timeoutMs now p = (p', n, effs) ->
    section p [] [] p' (apark n) (delivered effs)
| s_async_retry p w t timeoutMs now p' n effs :
    borrowAsync w timeoutMs now p = (p', n, effs) ->
    section p [TAsync (ARetry w t)] [] p' (apark n) (delivered effs)
| s_async_stopped p w t :
    section p [TAsync (ARetry w t)] [] p [] []
| s_async_validated p i w t alive now p' n effs :
    async_validated i w t alive now p = (p', n, effs) ->
    section p [TAsync (AValidate i w t)] [] p' (apark n) (delivered effs)
| s_async_dropped p i w t p' n effs :
    async_dropped i w t p = (p', n, effs) ->
    section p [TAsync (ADrop i w t)] [] p' (apark n) (delivered effs)
| s_async_validation_rejected p i w t now p' effs :
    async_validation_rejected i w now p = (p', effs) ->
    section p [TAsync (AValidate i w t)] [] p' [] (delivered effs)
| s_async_created p w reserved conn now p' effs :
    async_created w reserved conn now p = (p', effs) ->
    section p [TAsync (ACreate w reserved)] [] p' [] (delivered effs)
| s_async_creation_rejected p w reserved p' effs :
    async_creation_rejected w reserved p = (p', effs) ->
    section p [TAsync (ACreate w reserved)] [] p' [] (delivered effs)
| s_wake p now p' creates effs :
    pooled (config p) = true -> wakeAsyncWaiters now p = (p', creates, effs) ->
    section p [] [] p' (map (fun w => TAsync (ACreate w true)) creates) (delivered effs)
| s_health_take p now p' i retire :
    pooled (config p) = true -> health_take now p = (p', Some (i, retire)) ->
    section p [] [] p' [THealth i retire] []
| s_health_restore p i retire pinged now p' effs :
    health_restore i retire pinged now p = (p', effs) ->
    section p [THealth i retire] [] p' [] []
| s_health_reserve p p' need :
    pooled (config p) = true -> health_reserve p = (p', Some need) ->
    section p [] [] p' [TRefill need []] []
| s_health_fresh p need fresh c now :
    (Z.of_nat (length fresh) < need)%Z ->
    section p [TRefill need fresh] [] p [TRefill need (fresh ++ [mkIdle c now now now])] []
| s_health_create_failed p need fresh :
    section p [TRefill need fresh] [] (health_create_failed p) [TRefill need fresh] []
| s_health_refill p need fresh p' effs :
    health_refill need fresh p = (p', effs) ->
    section p [TRefill need fresh] [] p' [] []
| s_shutdown p p' effs :
    shutdown_begin p = (p', effs) -> section p [] [] p' [] []
| s_shutdown_pop p p' i :
    closed p = true -> shutdown_pop p = Some (p', i) ->
    section p [] [] (shutdown_count p') [] []
| s_shutdown_finish p :
    closed p = true -> section p [] [] (shutdown_finish p) [] [].

(** Threads are not ordered: a step takes its tasks and handles from anywhere. *)
Inductive step : system -> system -> Prop :=
| step_section s ts hs rest hrest p' ts' hs' :
    tasks s ≡ₚ ts ++ rest -> handles s ≡ₚ hs ++ hrest ->
    section (pool s) ts hs p' ts' hs' ->
    step s (mkSystem p' (ts' ++ rest) (hs' ++ hrest)).

(** The constructor: warm-up connections, one after the other. *)
Fixpoint warmup (cs : list nat) (now : Z) (p : Pool) : Pool :=
  match cs with [] => p | c :: cs' => warmup cs' now (fst (warmup_add c now p)) end.

Inductive initial : system -> Prop :=
| initial_intro name minC maxC borrowT idleT lifeT leakT validT metrics isPooled cs now :
    let cfg := make_config name minC maxC borrowT idleT lifeT leakT validT metrics isPooled in
    initial (mkSystem (if isPooled then warmup cs now (pool_new cfg) else pool_new cfg) [] []).

Inductive reachable : system -> Prop :=
| reach_init s : initial s -> reachable s
| reach_step s s' : reachable s -> step s s' -> reachable s'.

(** ** Counters do not affect the pool's shape *)

Section Shape.
Variable p : Pool.
Variable f : Counters -> Counters.
Lemma if_metrics_config : config (if_metrics f p) = config p.
Proof. unfold if_metrics. by destruct (metricsEnabled _). Qed.
Lemma if_metrics_idle : idle (if_metrics f p) = idle p.
Proof. unfold if_metrics. by destruct (metricsEnabled _). Qed.
Lemma if_metrics_total : total (if_metrics f p) = total p.
Proof. unfold if_metrics. by destruct (metricsEnabled _). Qed.
Lemma if_metrics_borrowed : borrowed (if_metrics f p) = borrowed p.
Proof. unfold if_metrics. by destruct (metricsEnabled _). Qed.
Lemma if_metrics_closed : closed (if_metrics f p) = closed p.
Proof. unfold if_metrics. by destruct (metricsEnabled _). Qed.
Lemma if_metrics_waiters : asyncWaiters (if_metrics f p) = asyncWaiters p.
Proof. unfold if_metrics. by destruct (metricsEnabled _). Qed.
End Shape.

#[export] Hint Rewrite if_metrics_config if_metrics_idle if_metrics_total if_metrics_borrowed
  if_metrics_closed if_metrics_waiters : sqlc.

Lemma repeat_upd_shape n f p :
  config (repeat_upd n f p) = config p /\ idle (repeat_upd n f p) = idle p /\
  total (repeat_upd n f p) = total p /\ borrowed (repeat_upd n f p) = borrowed p /\
  closed (repeat_upd n f p) = closed p /\ asyncWaiters (repeat_upd n f p) = asyncWaiters p.
Proof.
  revert p; induction n as [|n IH]; intros p; [done|]. cbn.
  destruct (IH (if_metrics f p)) as (-> & -> & -> & -> & -> & ->). by autorewrite with sqlc.
Qed.

(** Read a field of an updated pool. *)
Ltac pool_simp :=
  repeat (cbn [config idle total borrowed waiting closed asyncWaiters set_idle set_total
               set_borrowed set_waiting set_closed set_waiters upd fst snd] in *;
          unfold recordWait, recordSuccess, countSuccess in *;
          autorewrite with sqlc in *).

(** ** The accounting invariant *)

(** Connections a thread holds outside the idle queue and outside any handle. *)
Definition slots (t : task) : Z :=
  match t with
  | TBorrow _ (BValidate _) | TBorrow _ BCreate => 1
  | TAsync (AValidate _ _ _) | TAsync (ADrop _ _ _) | TAsync (ACreate _ true) => 1
  | THealth _ _ => 1
  | TRefill need _ => need
  | _ => 0
  end.

Fixpoint all_slots (ts : list task) : Z :=
  match ts with [] => 0 | t :: ts' => slots t + all_slots ts' end.

(** Unpooled tasks exist only without pooling, pooled ones with it, and a refill has room for what it
    opened. *)
Definition task_ok (cfg : PoolConfig) (t : task) : Prop :=
  match t with
  | TBorrow _ BCreateUnpooled | TAsync (ACreate _ false) => pooled cfg = false
  | TBorrow _ (BValidate _) | TBorrow _ BWait => pooled cfg = true
  | TRefill need fresh => (Z.of_nat (length fresh) <= need)%Z
  | _ => True
  end.

Definition accounted (p : Pool) (slots nhandles : Z) : Prop :=
  total p = (Z.of_nat (length (idle p)) + borrowed p + slots)%Z /\
  borrowed p = nhandles /\
  (pooled (config p) = true -> (total p <= maxConn_ (config p))%Z).

Lemma all_slots_app a b : all_slots (a ++ b) = (all_slots a + all_slots b)%Z.
Proof. induction a as [|t a IH]; cbn; [done|]. rewrite IH. lia. Qed.

Lemma all_slots_perm a b : a ≡ₚ b -> all_slots a = all_slots b.
Proof. induction 1; cbn; lia. Qed.

Lemma slots_nonneg cfg t : task_ok cfg t -> (0 <= slots t)%Z.
Proof. destruct t as [r []|[| | | |w []]|i b|need fresh]; cbn; intros; lia. Qed.

Lemma all_slots_nonneg cfg ts : Forall (task_ok cfg) ts -> (0 <= all_slots ts)%Z.
Proof. induction 1; cbn; [lia|]. pose proof (slots_nonneg _ _ H). lia. Qed.

(** What a section owes: with [R] slots and [H] handles elsewhere, the account
    still balances if the pool is still open. *)
Definition balanced (p p' : Pool) (ts ts' : list task) (nh nh' : Z) : Prop :=
  config p' = config p /\ Forall (task_ok (config p)) ts' /\
  (closed p' = false -> closed p = false) /\
  forall R H, (0 <= R)%Z -> (0 <= H)%Z -> closed p' = false ->
    accounted p (all_slots ts + R) (nh + H) -> accounted p' (all_slots ts' + R) (nh' + H).

Ltac balance :=
  repeat match goal with
         | |- balanced _ _ _ _ _ _ => split; [|split; [|split]]
         | |- forall R H : Z, _ => intros R H HR HH Hcl (Ha1 & Ha2 & Ha3); unfold accounted; pool_simp
         end.

(** Finish a balance goal: side conditions, then arithmetic. *)
Ltac bal :=
  balance; pool_simp; try done; try congruence; try (by repeat constructor);
  repeat match goal with
         | E : idle _ = _ |- _ => rewrite E in *; clear E
         | E : (_ <? _)%Z = true |- _ => apply Z.ltb_lt in E
         | E : (_ <? _)%Z = false |- _ => apply Z.ltb_ge in E
         end;
  cbn [length app all_slots slots park got apark delivered omap list_omap] in *;
  rewrite ?length_app in *; cbn [length] in *;
  unfold dec_floor, dec_pos in *;
  repeat match goal with |- context [(0 <? ?x)%Z] => destruct (Z.ltb_spec 0 x) end;
  try (repeat split; intros; repeat match goal with H : ?a = true -> _, E : ?a = true |- _ => specialize (H E) end; first [congruence|lia]).

Lemma borrow_iter_balanced r now stop p p' n :
  borrow_iter r now stop p = (p', n) -> pooled (config p) = true ->
  balanced p p' [] (park r n) 0 (Z.of_nat (length (got n))).
Proof.
  unfold borrow_iter. intros H Hp.
  destruct (negb (status_ok stop)); [injection H as <- <-; bal|].
  destruct (closed p) eqn:Ec; [injection H as <- <-; bal|].
  destruct (idle p) as [|i rest] eqn:Ei; [|injection H as <- <-; bal].
  destruct (total p <? maxConn_ (config p))%Z eqn:Et; [injection H as <- <-; bal|].
  destruct (br_timeout r =? 0)%Z; injection H as <- <-; bal.
Qed.

Lemma borrow_enter_balanced r now stop p p' n :
  borrow_enter r now stop p = (p', n) ->
  balanced p p' [] (park r n) 0 (Z.of_nat (length (got n))).
Proof.
  unfold borrow_enter. pool_simp. destruct (pooled (config p)) eqn:Hp; cbn [negb]; intros H.
  - apply borrow_iter_balanced in H; [|by pool_simp]. unfold balanced, accounted in *. by pool_simp.
  - destruct (closed p) eqn:Ec; injection H as <- <-; bal.
Qed.

Lemma borrow_unpooled_balanced r now conn p p' n effs :
  borrow_unpooled_created r now conn p = (p', n, effs) -> pooled (config p) = false ->
  balanced p p' [TBorrow r BCreateUnpooled] (park r n) 0 (Z.of_nat (length (got n))).
Proof.
  unfold borrow_unpooled_created. intros H Hp. destruct conn as [c|[code err]].
  - destruct (closed p) eqn:Ec; injection H as <- <- <-; bal.
  - injection H as <- <- <-; bal.
Qed.

Lemma borrow_validated_balanced r i alive expired now stop p p' n effs :
  borrow_validated r i alive expired now stop p = (p', n, effs) -> pooled (config p) = true ->
  balanced p p' [TBorrow r (BValidate i)] (park r n) 0 (Z.of_nat (length (got n))).
Proof.
  unfold borrow_validated. intros H Hp. destruct alive.
  - destruct (closed p) eqn:Ec; injection H as <- <- <-; bal.
  - destruct (borrow_iter _ _ _ _) as [q m] eqn:Eq. injection H as <- <- <-.
    apply borrow_iter_balanced in Eq as (H1 & H2 & H3 & H4); [|by pool_simp].
    unfold balanced, accounted in *. pool_simp. repeat (split; [done|]).
    intros R H HR HH Hcl (Ha1 & Ha2 & Ha3). apply H4; [done|done|done|].
    cbn [all_slots slots] in *. unfold dec_floor. repeat split; intros; try specialize (Ha3 Hp); lia.
Qed.

Lemma borrow_created_balanced r now conn p p' n effs :
  borrow_created r now conn p = (p', n, effs) ->
  balanced p p' [TBorrow r BCreate] (park r n) 0 (Z.of_nat (length (got n))).
Proof.
  unfold borrow_created. intros H. destruct conn as [c|[code err]].
  - destruct (closed p) eqn:Ec; injection H as <- <- <-; bal.
  - injection H as <- <- <-; bal.
Qed.

Lemma borrow_woken_balanced r timedOut now stop p p' n :
  borrow_woken r timedOut now stop p = (p', n) -> pooled (config p) = true ->
  balanced p p' [TBorrow r BWait] (park r n) 0 (Z.of_nat (length (got n))).
Proof.
  unfold borrow_woken. intros H Hp.
  assert (Hiter : forall q m, borrow_iter r now stop (set_waiting (waiting p - 1) p) = (q, m) ->
    balanced p q [TBorrow r BWait] (park r m) 0 (Z.of_nat (length (got m)))).
  { intros q m E%borrow_iter_balanced; [|done]. unfold balanced, accounted in *. by pool_simp. }
  destruct timedOut; [|auto].
  destruct (br_operation r && negb (status_ok stop)); [injection H as <- <-; bal|].
  destruct (br_operation r && (now <? br_deadline r)%Z); [auto|]. injection H as <- <-. bal.
Qed.

Lemma deliver_expired_none l : delivered (deliver_expired l) = [].
Proof. induction l; [done|]. cbn. done. Qed.

Lemma delivered_app a b : delivered (a ++ b) = delivered a ++ delivered b.
Proof. unfold delivered. apply omap_app. Qed.

Lemma returnConn_balanced c createdAt borrowedAt reusable now p p' effs :
  returnConn (Some c) createdAt borrowedAt reusable now p = (p', effs) ->
  balanced p p' [] [] 1 (Z.of_nat (length (delivered effs))).
Proof.
  unfold returnConn. set (q := if _ && _ then upd inc_leak p else p).
  assert (Hq : config q = config p /\ idle q = idle p /\ total q = total p /\
               borrowed q = borrowed p /\ closed q = closed p) by (unfold q; by destruct (_ && _)).
  destruct Hq as (Hq1 & Hq2 & Hq3 & Hq4 & Hq5). clearbody q. intros H. pool_simp.
  destruct (closed q || expired_lifetime (config p) createdAt now || negb reusable || negb (pooled (config p))) eqn:Eg.
  - set (q2 := if negb reusable then _ else _) in H.
    assert (Hq' : config q2 = config q /\ idle q2 = idle q /\ total q2 = total q /\
                 borrowed q2 = dec_pos (borrowed q) /\ closed q2 = closed q)
      by (unfold q2; destruct (negb reusable); [done|by destruct (expired_lifetime _ _ _)]).
    destruct Hq' as (E1 & E2 & E3 & E4 & E5). clearbody q2. injection H as <- <-.
    unfold balanced, accounted. pool_simp. rewrite E1, E2, E3, E4, E5, Hq1, Hq2, Hq3, Hq4, Hq5.
    repeat (split; [done|]). bal.
  - apply orb_false_iff in Eg as [Eg _]. apply orb_false_iff in Eg as [Eg _].
    apply orb_false_iff in Eg as [Eg _].
    destruct (split_waiters _ _) as [kept late].
    destruct (repeat_upd_shape (length late) inc_timeouts (set_borrowed (dec_pos (borrowed q)) q))
      as (E1 & E2 & E3 & E4 & E5 & _). pool_simp.
    set (q2 := repeat_upd _ _ _) in *. clearbody q2.
    destruct kept as [|w rest]; injection H as <- <-; unfold balanced, accounted; pool_simp;
      rewrite E1, E2, E3, E4, E5, Hq1, Hq2, Hq3, Hq4, Hq5, ?delivered_app, ?deliver_expired_none;
      repeat (split; [done|]); bal.
Qed.

Lemma expireWaiters_balanced now stop p p' effs :
  expireWaiters now stop p = (p', effs) ->
  balanced p p' [] [] 0 (Z.of_nat (length (delivered effs))).
Proof.
  unfold expireWaiters. destruct (split_waiters _ _) as [kept late]. intros [= <- <-].
  destruct (repeat_upd_shape (length late) inc_timeouts (set_waiters kept p))
    as (E1 & E2 & E3 & E4 & E5 & _).
  unfold balanced, accounted. rewrite E1, E2, E3, E4, E5, deliver_expired_none. pool_simp.
  repeat (split; [done|]). bal.
Qed.

Lemma borrowAsync_balanced w t now p p' n effs :
  borrowAsync w t now p = (p', n, effs) ->
  balanced p p' [] (apark n) 0 (Z.of_nat (length (delivered effs))).
Proof.
  unfold borrowAsync. intros H. pool_simp. destruct (closed p) eqn:Ec; [injection H as <- <- <-; bal|].
  destruct (pooled (config p)) eqn:Ep; cbn [negb] in H; [|injection H as <- <- <-; bal].
  destruct (idle p) as [|i rest] eqn:Ei.
  - destruct (total p <? maxConn_ (config p))%Z eqn:Et; [injection H as <- <- <-; bal|].
    destruct (t =? 0)%Z; injection H as <- <- <-; bal.
  - destruct (expired_lifetime _ _ _); [injection H as <- <- <-; bal|].
    destruct (negb (needs_ping _ _ _)); injection H as <- <- <-; bal.
Qed.

Lemma async_validated_balanced i w t alive now p p' n effs :
  async_validated i w t alive now p = (p', n, effs) ->
  balanced p p' [TAsync (AValidate i w t)] (apark n) 0 (Z.of_nat (length (delivered effs))).
Proof.
  unfold async_validated. intros H. destruct (closed p) eqn:Ec; [injection H as <- <- <-; bal|].
  destruct alive; injection H as <- <- <-; bal.
Qed.

Lemma async_dropped_balanced i w t p p' n effs :
  async_dropped i w t p = (p', n, effs) ->
  balanced p p' [TAsync (ADrop i w t)] (apark n) 0 (Z.of_nat (length (delivered effs))).
Proof. unfold async_dropped. intros [= <- <- <-]. bal. Qed.

Lemma async_validation_rejected_balanced i w t now p p' effs :
  async_validation_rejected i w now p = (p', effs) ->
  balanced p p' [TAsync (AValidate i w t)] [] 0 (Z.of_nat (length (delivered effs))).
Proof.
  unfold async_validation_rejected. intros H.
  destruct (closed p) eqn:Ec; injection H as <- <-; bal.
Qed.

Lemma async_created_balanced w reserved conn now p p' effs :
  async_created w reserved conn now p = (p', effs) ->
  (reserved = false -> pooled (config p) = false) ->
  balanced p p' [TAsync (ACreate w reserved)] [] 0 (Z.of_nat (length (delivered effs))).
Proof.
  unfold async_created. intros H Hres. destruct (closed p) eqn:Ec.
  { injection H as <- <-. destruct reserved, conn; bal. }
  destruct conn as [c|[code err]]; injection H as <- <-; destruct reserved;
    try specialize (Hres eq_refl); bal.
Qed.

Lemma async_creation_rejected_balanced w reserved p p' effs :
  async_creation_rejected w reserved p = (p', effs) ->
  balanced p p' [TAsync (ACreate w reserved)] [] 0 (Z.of_nat (length (delivered effs))).
Proof. unfold async_creation_rejected. intros [= <- <-]. destruct reserved; bal. Qed.

Lemma wake_loop_balanced now ws p p' creates effs :
  wake_loop now ws p = (p', creates, effs) -> pooled (config p) = true ->
  balanced p p' [] (map (fun w => TAsync (ACreate w true)) creates) 0
           (Z.of_nat (length (delivered effs))).
Proof.
  revert p p' creates effs; induction ws as [|w ws IH]; intros p p' creates effs; cbn [wake_loop].
  { intros [= <- <- <-] Hp. bal. }
  destruct (idle p) as [|i rest] eqn:Ei.
  - destruct (total p <? maxConn_ (config p))%Z eqn:Et; [|intros [= <- <- <-] Hp; bal].
    destruct (wake_loop _ _ _) as [[q cs] es] eqn:E. intros [= <- <- <-] Hp.
    destruct (IH _ _ _ _ E Hp) as (H1 & H2 & H3 & H4). pool_simp.
    split; [done|]. split; [by constructor|]. split; [done|].
    intros R H HR HH Hcl (Ha1 & Ha2 & Ha3). apply Z.ltb_lt in Et.
    unfold accounted in *. cbn [map all_slots slots] in *.
    destruct (H4 (R + 1)%Z H ltac:(lia) HH Hcl) as (B1 & B2 & B3).
    { pool_simp. rewrite Ei in *. cbn in *. repeat split; intros; lia. }
    repeat split; intros; try specialize (B3 ltac:(done)); lia.
  - destruct (wake_loop _ _ _) as [[q cs] es] eqn:E. intros [= <- <- <-] Hp.
    destruct (IH _ _ _ _ E) as (H1 & H2 & H3 & H4); [by pool_simp|]. pool_simp.
    split; [done|]. split; [done|]. split; [done|].
    intros R H HR HH Hcl (Ha1 & Ha2 & Ha3). unfold accounted in *.
    destruct (H4 R (H + 1)%Z HR ltac:(lia) Hcl) as (B1 & B2 & B3).
    { pool_simp. rewrite Ei in *. cbn in *. repeat split; intros; try specialize (Ha3 Hp); lia. }
    cbn [delivered omap list_omap length] in *. fold (delivered es).
    repeat split; intros; try specialize (B3 ltac:(done)); lia.
Qed.

Lemma wake_balanced now p p' creates effs :
  wakeAsyncWaiters now p = (p', creates, effs) -> pooled (config p) = true ->
  balanced p p' [] (map (fun w => TAsync (ACreate w true)) creates) 0
           (Z.of_nat (length (delivered effs))).
Proof.
  unfold wakeAsyncWaiters. destruct (closed p) eqn:Ec; [|apply wake_loop_balanced].
  intros [= <- <- <-] _. bal.
Qed.

Lemma health_take_balanced now p p' i retire :
  health_take now p = (p', Some (i, retire)) -> balanced p p' [] [THealth i retire] 0 0.
Proof.
  unfold health_take. destruct (closed p) eqn:Ec; [done|]. destruct (idle p) as [|j rest] eqn:Ei; [done|].
  intros [= <- <- <-]. bal.
Qed.

Lemma health_restore_balanced i retire pinged now p p' effs :
  health_restore i retire pinged now p = (p', effs) -> balanced p p' [THealth i retire] [] 0 0.
Proof.
  unfold health_restore. destruct (_ && negb (closed p)); intros [= <- <-]; bal.
Qed.

Lemma health_reserve_balanced p p' need :
  health_reserve p = (p', Some need) -> balanced p p' [] [TRefill need []] 0 0.
Proof.
  unfold health_reserve. destruct (closed p) eqn:Ec; [done|]. intros [= <- <-].
  balance; pool_simp; [done|repeat constructor; cbn; lia|congruence|].
  cbn [all_slots slots] in *. repeat split; intros; try specialize (Ha3 ltac:(done)); lia.
Qed.

Lemma health_refill_balanced need fresh p p' effs :
  health_refill need fresh p = (p', effs) -> (Z.of_nat (length fresh) <= need)%Z ->
  balanced p p' [TRefill need fresh] [] 0 0.
Proof.
  unfold health_refill. pool_simp. intros H Hlen.
  destruct (closed p) eqn:Ec; injection H as <- <-; bal.
Qed.

Lemma section_balanced p ts hs p' ts' hs' :
  section p ts hs p' ts' hs' -> Forall (task_ok (config p)) ts ->
  balanced p p' ts ts' (Z.of_nat (length hs)) (Z.of_nat (length hs')).
Proof.
  intros Hs Hts.
  destruct Hs; try (apply Forall_cons in Hts as [Hts _]; cbn in Hts).
  - by eapply borrow_enter_balanced.
  - by eapply borrow_unpooled_balanced.
  - eapply borrow_validated_balanced; eauto.
  - by eapply borrow_created_balanced.
  - eapply borrow_woken_balanced; eauto.
  - by eapply returnConn_balanced.
  - by eapply expireWaiters_balanced.
  - by eapply borrowAsync_balanced.
  - apply borrowAsync_balanced in H as (H1 & H2 & H3 & H4). unfold balanced. auto.
  - bal.
  - by eapply async_validated_balanced.
  - by eapply async_dropped_balanced.
  - by eapply async_validation_rejected_balanced.
  - eapply async_created_balanced; [done|]. by intros ->.
  - by eapply async_creation_rejected_balanced.
  - by eapply wake_balanced.
  - by eapply health_take_balanced.
  - by eapply health_restore_balanced.
  - by eapply health_reserve_balanced.
  - balance; try done. repeat constructor. cbn. rewrite length_app. cbn. lia.
  - unfold health_create_failed. balance; pool_simp; try done. by repeat constructor.
  - by eapply health_refill_balanced.
  - unfold shutdown_begin in H. injection H as <- <-. bal.
  - unfold shutdown_pop in *. destruct (idle p) as [|j rest] eqn:Ei; [done|]. injection H0 as <- <-.
    unfold shutdown_count. bal.
  - unfold shutdown_finish. bal.
Qed.

(** ** Every schedule keeps the account *)

Definition pool_inv (s : system) : Prop :=
  Forall (task_ok (config (pool s))) (tasks s) /\
  (1 <= maxConn_ (config (pool s)))%Z /\
  (closed (pool s) = false ->
   accounted (pool s) (all_slots (tasks s)) (Z.of_nat (length (handles s)))).

Lemma warmup_shape cs now p :
  closed (warmup cs now p) = closed p /\ config (warmup cs now p) = config p /\
  borrowed (warmup cs now p) = borrowed p /\
  (total p = Z.of_nat (length (idle p)) -> (total p <= maxConn_ (config p))%Z ->
   total (warmup cs now p) = Z.of_nat (length (idle (warmup cs now p))) /\
   (total (warmup cs now p) <= maxConn_ (config p))%Z).
Proof.
  revert p; induction cs as [|c cs IH]; intros p; [done|]. cbn [warmup].
  destruct (IH (fst (warmup_add c now p))) as (H1 & H2 & H3 & H4).
  unfold warmup_add in *. destruct (maxConn_ (config p) <=? total p)%Z eqn:E; pool_simp; [done|].
  repeat (split; [done|]). intros Ht Hm. apply Z.leb_gt in E. apply H4; [|lia].
  rewrite length_app. cbn. lia.
Qed.

Lemma initial_inv s : initial s -> pool_inv s.
Proof.
  intros [name minC maxC borrowT idleT lifeT leakT validT metrics isPooled cs now].
  assert (Hmax : (1 <= maxConn_ cfg)%Z) by (cbn; lia).
  destruct (warmup_shape cs now (pool_new cfg)) as (H1 & H2 & H3 & H4).
  destruct (H4 eq_refl) as [H5 H6]; [cbn; lia|].
  destruct isPooled; split; try constructor; cbn [pool tasks handles all_slots length].
  - by rewrite H2.
  - intros _. unfold accounted. rewrite H3, H2. cbn in *. repeat split; intros; lia.
  - done.
  - intros _. split; [done|]. split; done.
Qed.

Lemma step_inv s s' : pool_inv s -> step s s' -> pool_inv s'.
Proof.
  intros (Hok & Hmax & Hacc) Hstep. destruct Hstep as [s ts hs rest hrest p' ts' hs' Ht Hh Hsec].
  rewrite Ht in Hok. apply Forall_app in Hok as [Hok1 Hok2].
  destruct (section_balanced _ _ _ _ _ _ Hsec Hok1) as (Hc & Hok' & Hcl & Hbal).
  unfold pool_inv. cbn [pool tasks handles]. rewrite Hc. split; [by apply Forall_app|].
  split; [done|]. intros Hopen. rewrite all_slots_app, length_app, Nat2Z.inj_add.
  specialize (Hacc (Hcl Hopen)).
  rewrite (all_slots_perm _ _ Ht), all_slots_app in Hacc.
  rewrite (Permutation_length Hh), length_app, Nat2Z.inj_add in Hacc.
  apply Hbal; [by eapply all_slots_nonneg|lia|done|done].
Qed.

Lemma reachable_inv s : reachable s -> pool_inv s.
Proof. induction 1; [by apply initial_inv|by eapply step_inv]. Qed.

(** The connections a client can be using or the pool can hand out. *)
Definition live_connections (s : system) : Z :=
  Z.of_nat (length (idle (pool s))) + Z.of_nat (length (handles s)) + all_slots (tasks s).

(** C1. In every interleaving of borrowers, returners, asynchronous requests,
    health checks and the executor, an open pool accounts for every connection:
    [borrowed] is the number of outstanding handles and [total] the number of
    connections that are idle, borrowed or in the hands of a thread.  With pooling
    enabled there are never more than the configured maximum; with
    [pool.enabled = false] every borrow opens a connection of its own and, as
    documented, no maximum applies. *)
Theorem pool_accounting (s : system) :
  reachable s -> closed (pool s) = false ->
  borrowed (pool s) = Z.of_nat (length (handles s)) /\
  total (pool s) = live_connections s /\
  (0 <= live_connections s)%Z /\
  (pooled (config (pool s)) = true -> (live_connections s <= maxConn_ (config (pool s)))%Z).
Proof.
  intros (Hok & _ & Hacc)%reachable_inv Hopen. destruct (Hacc Hopen) as (H1 & H2 & H3).
  pose proof (all_slots_nonneg _ _ Hok). unfold live_connections.
  split_and!; [done|lia|lia|]. intros Hp. specialize (H3 Hp). lia.
Qed.

(** A pool of two with one connection borrowed and its owner returning it. *)
Definition sample_pool_config : PoolConfig :=
  make_config ($"main") 0 2 1000 0 0 0 30000 true true.
Definition sample_request : BorrowRequest := mkBorrow 0 1000000000 1000 false.
Definition sample_creating : system :=
  mkSystem (fst (borrow_enter sample_request 0 status_OK (pool_new sample_pool_config)))
           [TBorrow sample_request BCreate] [].

Lemma sample_creating_reachable : reachable sample_creating.
Proof.
  eapply reach_step.
  - apply reach_init. apply (initial_intro ($"main") 0 2 1000 0 0 0 30000 true true [] 0).
  - apply (step_section _ [] [] [] [] _ [TBorrow sample_request BCreate] []); [done|done|].
    by apply (s_borrow _ sample_request 0 status_OK _ BCreate).
Qed.

Lemma pool_accounting_witness :
  borrowed (pool sample_creating) = Z.of_nat (length (handles sample_creating)) /\
  total (pool sample_creating) = live_connections sample_creating /\
  (0 <= live_connections sample_creating)%Z /\
  (pooled (config (pool sample_creating)) = true ->
   (live_connections sample_creating <= maxConn_ (config (pool sample_creating)))%Z).
Proof. apply (pool_accounting sample_creating sample_creating_reachable). reflexivity. Defined.

(** The account does not survive a shutdown: a borrower that is opening a
    connection while the pool shuts down decrements [total] after [shutdown] has
    reset it, so [total] becomes -1 and [totalCount] reports 2^64 - 1. *)
Theorem shutdown_total_underflow :
  exists s, reachable s /\ total (pool s) = (-1)%Z /\ totalCount (pool s) = (2 ^ 64 - 1)%Z.
Proof.
  set (p0 := pool sample_creating). set (p1 := fst (shutdown_begin p0)).
  set (p2 := shutdown_finish p1). set (p3 := fst (fst (borrow_created sample_request 5 (inl 7) p2))).
  exists (mkSystem p3 [] []). split; [|by vm_compute].
  eapply (reach_step (mkSystem p2 [TBorrow sample_request BCreate] [])).
  - eapply (reach_step (mkSystem p1 [TBorrow sample_request BCreate] [])).
    + eapply (reach_step sample_creating); [apply sample_creating_reachable|].
      apply (step_section sample_creating [] [] [TBorrow sample_request BCreate] [] p1 [] []); [done|done|].
      by eapply s_shutdown.
    + apply (step_section (mkSystem p1 [TBorrow sample_request BCreate] []) [] []
               [TBorrow sample_request BCreate] [] p2 [] []); [done|done|]. by apply s_shutdown_finish.
  - apply (step_section (mkSystem p2 [TBorrow sample_request BCreate] []) [TBorrow sample_request BCreate] []
             [] [] p3 [] []); [done|done|].
    by apply (s_created p2 sample_request 5 (inl 7) p3 (BFail PoolClosed (closed_message p2)) [Close 7]).
Qed.

(** ** Waiters *)

Definition in_time (now : Z) (w : AsyncWaiter) : bool := (now <? w_deadline w)%Z.

(** The completions a section calls. *)
Definition completions (effs : list effect) : list nat :=
  omap (fun e => match e with Deliver w _ _ => Some w | _ => None end) effs.

Lemma split_waiters_spec late ws :
  let '(kept, expired) := split_waiters late ws in
  kept = List.filter (fun w => match late w with None => true | Some _ => false end) ws /\
  expired.*1 = List.filter (fun w => match late w with None => false | Some _ => true end) ws /\
  ws ≡ₚ kept ++ expired.*1.
Proof.
  induction ws as [|w ws IH]; [done|]. cbn.
  destruct (split_waiters late ws) as [kept expired]. destruct IH as (-> & H2 & H3).
  destruct (late w) as [st|]; cbn; rewrite H2; (split; [done|]); (split; [done|]).
  - rewrite H2 in H3. rewrite <- Permutation_middle. by constructor.
  - rewrite H2 in H3. by constructor.
Qed.

Lemma filter_ext_list {A} (f g : A -> bool) l :
  (forall x, f x = g x) -> List.filter f l = List.filter g l.
Proof. intros H. apply List.filter_ext. auto. Qed.

Lemma returnConn_usable c createdAt borrowedAt now p :
  closed p = false -> pooled (config p) = true -> expired_lifetime (config p) createdAt now = false ->
  let '(p', effs) := returnConn (Some c) createdAt borrowedAt true now p in
  match List.filter (in_time now) (asyncWaiters p) with
  | w :: rest =>
      asyncWaiters p' = rest /\ idle p' = idle p /\
      effs = [Deliver (w_id w) (Some (mkHandle c createdAt now)) status_OK]
  | [] => asyncWaiters p' = [] /\ idle p' = idle p ++ [mkIdle c createdAt now now] /\
          completions effs = map w_id (asyncWaiters p)
  end.
Proof.
  intros Hcl Hp He. unfold returnConn. set (q := if _ && _ then upd inc_leak p else p).
  assert (Hq : config q = config p /\ idle q = idle p /\ closed q = closed p /\
               asyncWaiters q = asyncWaiters p) by (unfold q; by destruct (_ && _)).
  destruct Hq as (Hq1 & Hq2 & Hq3 & Hq4). clearbody q. pool_simp.
  rewrite Hq3, Hcl, He, Hp. cbn [negb orb]. rewrite Hq4.
  match goal with |- context [split_waiters ?l ?ws] =>
    pose proof (split_waiters_spec l ws) as Hs; destruct (split_waiters l ws) as [kept late] end.
  destruct Hs as (-> & Hl & _).
  rewrite (filter_ext_list _ (in_time now)) in *
    by (intros w; unfold in_time; rewrite Z.ltb_antisym; by destruct (_ <=? _)%Z).
  destruct (repeat_upd_shape (length late) inc_timeouts
              (set_borrowed (dec_pos (borrowed q)) q)) as (E1 & E2 & E3 & E4 & E5 & _).
  set (q2 := repeat_upd _ _ _) in *. clearbody q2.
  destruct (List.filter (in_time now) (asyncWaiters p)) as [|w rest] eqn:Ef; pool_simp.
  - rewrite E2, Hq2. split; [done|]. split; [done|].
    unfold completions, deliver_expired. rewrite omap_app. cbn. rewrite app_nil_r.
    assert (Hall : late.*1 = asyncWaiters p).
    { rewrite Hl. clear -Ef. revert Ef. induction (asyncWaiters p) as [|w ws IH]; [done|].
      cbn. unfold in_time at 1. rewrite Z.ltb_antisym. destruct (w_deadline w <=? now)%Z; cbn; [|done].
      intros Ef. by rewrite IH. }
    rewrite <- Hall. clear. induction late as [|[w st] late IH]; [done|]. cbn. by f_equal.
  - by rewrite E2, Hq2.
Qed.

(** A usable connection that comes back is handed to the longest-waiting
    request whose deadline has not passed; only when there is none does it
    become idle, and then every (expired) waiter is completed. *)
Theorem returnConn_fifo (c : nat) (createdAt borrowedAt now : Z) (p : Pool) :
  closed p = false -> pooled (config p) = true -> expired_lifetime (config p) createdAt now = false ->
  let '(p', effs) := returnConn (Some c) createdAt borrowedAt true now p in
  match List.filter (in_time now) (asyncWaiters p) with
  | w :: rest =>
      asyncWaiters p' = rest /\ idle p' = idle p /\
      effs = [Deliver (w_id w) (Some (mkHandle c createdAt now)) status_OK]
  | [] => asyncWaiters p' = [] /\ idle p' = idle p ++ [mkIdle c createdAt now now] /\
          completions effs = map w_id (asyncWaiters p)
  end.
Proof. apply returnConn_usable. Qed.

Definition sample_waiting : Pool :=
  set_waiters [mkWaiter 1 0 10; mkWaiter 2 5 100; mkWaiter 3 6 100]
    (set_borrowed 1 (set_total 2 (pool_new sample_pool_config))).

Lemma returnConn_fifo_witness :
  let '(p', effs) := returnConn (Some 9) 0 0 true 50 sample_waiting in
  match List.filter (in_time 50) (asyncWaiters sample_waiting) with
  | w :: rest =>
      asyncWaiters p' = rest /\ idle p' = idle sample_waiting /\
      effs = [Deliver (w_id w) (Some (mkHandle 9 0 50)) status_OK]
  | [] => asyncWaiters p' = [] /\ idle p' = idle sample_waiting ++ [mkIdle 9 0 50 50] /\
          completions effs = map w_id (asyncWaiters sample_waiting)
  end.
Proof. apply (returnConn_fifo 9 0 0 50 sample_waiting); reflexivity. Defined.

(** A hand-off loses the expired waiters: whenever a usable connection comes
    back while some waiter is late and another is still in time, every late
    waiter is removed from the queue and its completion is never called. *)
Theorem returnConn_loses_expired (c : nat) (createdAt borrowedAt now : Z) (p : Pool) (w v : AsyncWaiter) :
  closed p = false -> pooled (config p) = true -> expired_lifetime (config p) createdAt now = false ->
  NoDup (map w_id (asyncWaiters p)) ->
  w ∈ asyncWaiters p -> in_time now w = false -> v ∈ asyncWaiters p -> in_time now v = true ->
  let '(p', effs) := returnConn (Some c) createdAt borrowedAt true now p in
  w ∉ asyncWaiters p' /\ w_id w ∉ completions effs.
Proof.
  intros Hcl Hp He Hnd Hw Hlate Hv Htime.
  pose proof (returnConn_usable c createdAt borrowedAt now p Hcl Hp He) as H.
  destruct (returnConn _ _ _ _ _ p) as [p' effs].
  destruct (List.filter (in_time now) (asyncWaiters p)) as [|u rest] eqn:Ef.
  { exfalso. assert (Hin : In v (List.filter (in_time now) (asyncWaiters p)))
      by (apply filter_In; split; [by apply list_elem_of_In|done]). by rewrite Ef in Hin. }
  destruct H as (-> & _ & ->).
  assert (Hall : forall x, x ∈ u :: rest -> x ∈ asyncWaiters p /\ in_time now x = true).
  { intros x Hx%list_elem_of_In. rewrite <- Ef in Hx. apply filter_In in Hx as [Hx ?].
    by rewrite list_elem_of_In. }
  split.
  - intros Hx. destruct (Hall w) as [_ ?]; [set_solver|congruence].
  - cbn. intros [Hid|[]%not_elem_of_nil]%elem_of_cons.
    destruct (Hall u) as [Hu Hut]; [set_solver|].
    assert (w = u); [|congruence].
    clear -Hnd Hw Hu Hid. induction (asyncWaiters p) as [|x ws IH]; [set_solver|].
    cbn in Hnd. apply NoDup_cons in Hnd as [Hx Hnd].
    apply elem_of_cons in Hw, Hu. destruct Hw as [->|Hw], Hu as [->|Hu].
    + done.
    + exfalso. apply Hx. rewrite Hid. apply list_elem_of_In, in_map, list_elem_of_In, Hu.
    + exfalso. apply Hx. rewrite <- Hid. apply list_elem_of_In, in_map, list_elem_of_In, Hw.
    + by apply IH.
Qed.

Lemma returnConn_loses_expired_witness :
  let '(p', effs) := returnConn (Some 9) 0 0 true 50 sample_waiting in
  mkWaiter 1 0 10 ∉ asyncWaiters p' /\ 1 ∉ completions effs.
Proof.
  apply (returnConn_loses_expired 9 0 0 50 sample_waiting (mkWaiter 1 0 10) (mkWaiter 2 5 100));
    try reflexivity.
  - repeat constructor; set_solver.
  - constructor.
  - constructor. constructor.
Defined.

Lemma completions_expired l : completions (deliver_expired l) = map w_id l.*1.
Proof. induction l as [|[w st] l IH]; [done|]. cbn. by f_equal. Qed.

Lemma wake_loop_waiters now ws p p' creates effs :
  wake_loop now ws p = (p', creates, effs) ->
  map w_id ws ≡ₚ completions effs ++ creates ++ map w_id (asyncWaiters p').
Proof.
  revert p p' creates effs; induction ws as [|w ws IH]; intros p p' creates effs; cbn [wake_loop].
  { by intros [= <- <- <-]. }
  destruct (idle p) as [|i rest].
  - destruct (total p <? maxConn_ (config p))%Z; [|by intros [= <- <- <-]].
    destruct (wake_loop _ _ _) as [[q cs] es] eqn:E. intros [= <- <- <-]. cbn [map app].
    rewrite <- Permutation_middle. constructor. by eapply IH.
  - destruct (wake_loop _ _ _) as [[q cs] es] eqn:E. intros [= <- <- <-].
    cbn [map completions omap list_omap app]. constructor. by eapply IH.
Qed.

(** Apart from hand-offs, no asynchronous request is lost or completed
    twice: expiring, waking and shutting down leave every queued waiter in
    exactly one place, still queued, completed, or passed to a creation task. *)
Theorem waiters_conserved (now : Z) (stop : AsyncWaiter -> Status) (p : Pool) :
  (let '(p', effs) := expireWaiters now stop p in
   map w_id (asyncWaiters p) ≡ₚ completions effs ++ map w_id (asyncWaiters p')) /\
  (let '(p', creates, effs) := wakeAsyncWaiters now p in
   map w_id (asyncWaiters p) ≡ₚ completions effs ++ creates ++ map w_id (asyncWaiters p')) /\
  (let '(p', effs) := shutdown_begin p in
   completions effs = map w_id (asyncWaiters p) /\ asyncWaiters p' = [] /\ closed p' = true).
Proof.
  split; [|split].
  - unfold expireWaiters. match goal with |- context [split_waiters ?l ?ws] =>
      pose proof (split_waiters_spec l ws) as Hs; destruct (split_waiters l ws) as [kept late] end.
    destruct Hs as (_ & _ & Hs).
    destruct (repeat_upd_shape (length late) inc_timeouts (set_waiters kept p))
      as (_ & _ & _ & _ & _ & ->). cbn [set_waiters asyncWaiters].
    rewrite completions_expired, Hs, map_app. apply Permutation_app_comm.
  - unfold wakeAsyncWaiters. destruct (closed p); [done|].
    destruct (wake_loop _ _ _) as [[q cs] es] eqn:E. by eapply wake_loop_waiters.
  - unfold shutdown_begin. cbn. split; [|done].
    induction (asyncWaiters p) as [|w ws IH]; [done|]. cbn. by f_equal.
Qed.
