(* ===== verification/SqlAuditor.v ===== *)
(** * SqlAuditor: the policy gate in front of every statement

    Models src/core/sql_auditor.cpp ([SqlAuditorState::configure], [check],
    [stats]) on top of the analyser of SqlAnalyze.v. *)

From S2P Require Import Prelude Types Quoting SqlAnalyze SqlBuilder.

Inductive OperationType : Type :=
| OQuery | OExecute | OBegin | OCommit | ORollback | OCancel | OStream | OBatch | OSavepoint
| OSelect | ORoutine.

#[export] Instance OperationType_eq_dec : EqDecision OperationType.
Proof. solve_decision. Defined.

Record SqlAuditConfig : Type := mkAuditConfig {
  ac_enabled : bool;
  ac_action : str;
  ac_block_no_where_dml : bool;
  ac_require_limit_select : bool;
  ac_enforce_read_only : bool;
  ac_log_blocked : bool;
  ac_blacklist : list Z;
  ac_whitelist : list Z
}.

Record Policy : Type := mkPolicy {
  po_block : bool;
  po_log_blocked : bool;
  po_block_no_where_dml : bool;
  po_require_limit_select : bool;
  po_enforce_read_only : bool;
  po_blacklist : gset Z;
  po_whitelist : gset Z;
  po_needsFingerprint : bool;
  po_needsKind : bool
}.

Record SqlAuditorState : Type := mkAuditor {
  a_enabled : bool;
  a_policy : option Policy;
  a_checked : Z;
  a_warned : Z;
  a_blocked : Z
}.

Definition auditor_init : SqlAuditorState := mkAuditor false None 0 0 0.

Definition nonempty (s : gset Z) : bool := negb (bool_decide (s = ∅)).

Definition make_policy (cfg : SqlAuditConfig) : Policy :=
  let black : gset Z := list_to_set (ac_blacklist cfg) in
  let white : gset Z := list_to_set (ac_whitelist cfg) in
  mkPolicy (ac_action cfg =s $"block") (ac_log_blocked cfg) (ac_block_no_where_dml cfg)
    (ac_require_limit_select cfg) (ac_enforce_read_only cfg) black white
    (nonempty black || nonempty white)
    (ac_enforce_read_only cfg || ac_block_no_where_dml cfg || ac_require_limit_select cfg).

Definition audit_configure (cfg : SqlAuditConfig) (a : SqlAuditorState) : SqlAuditorState :=
  mkAuditor (ac_enabled cfg) (Some (make_policy cfg)) (a_checked a) (a_warned a) (a_blocked a).

(** [verdict]: block with an error, or count a warning and let it pass. *)
Definition verdict (block : bool) (reason : str) (a : SqlAuditorState) : Status * SqlAuditorState :=
  if block then
    (status_error SqlBlocked reason,
     mkAuditor (a_enabled a) (a_policy a) (a_checked a) (a_warned a) (wrap_u64 (a_blocked a + 1)))
  else
    (status_OK,
     mkAuditor (a_enabled a) (a_policy a) (a_checked a) (wrap_u64 (a_warned a + 1)) (a_blocked a)).

Definition count_checked (a : SqlAuditorState) : SqlAuditorState :=
  mkAuditor (a_enabled a) (a_policy a) (wrap_u64 (a_checked a + 1)) (a_warned a) (a_blocked a).

Definition kind_is (k1 k2 : StatementKind) : bool := bool_decide (k1 = k2).

(** The checks after the fingerprint lists. *)
Definition check_kind (p : Policy) (sql : str) (type : OperationType) (readOnly : bool)
    (a : SqlAuditorState) : Status * SqlAuditorState :=
  if negb (po_needsKind p) then (status_OK, a)
  else
    let kind := classifyStatement sql in
    if po_enforce_read_only p && readOnly && isWrite kind then
      verdict (po_block p) ($"write on read-only datasource") a
    else if po_block_no_where_dml p && (kind_is kind KUpdate || kind_is kind KDelete) &&
            negb (hasWhereClause sql) then
      verdict (po_block p) ($"UPDATE/DELETE without WHERE clause") a
    else if po_require_limit_select p && negb (bool_decide (type = OSelect)) &&
            kind_is kind KSelect && negb (hasRowLimitClause sql) then
      verdict (po_block p) ($"SELECT without LIMIT clause") a
    else (status_OK, a).

Definition audit_check (sql : str) (type : OperationType) (readOnly : bool) (a : SqlAuditorState)
    : Status * SqlAuditorState :=
  if negb (a_enabled a) then (status_OK, a)
  else match a_policy a with
       | None => (status_OK, a)
       | Some p =>
           let a := count_checked a in
           if hasMultipleStatements sql true then
             verdict (po_block p) ($"multiple SQL statements are not allowed") a
           else if po_needsFingerprint p then
             let fp := fingerprintTemplate sql in
             if nonempty (po_whitelist p) && negb (bool_decide (fp ∈ po_whitelist p)) then
               verdict true ($"SQL not in audit whitelist") a
             else if bool_decide (fp ∈ po_blacklist p) then
               verdict true ($"SQL in audit blacklist") a
             else check_kind p sql type readOnly a
           else check_kind p sql type readOnly a
       end.

Record SqlAuditStats : Type := mkAuditStats { as_checked : Z; as_warned : Z; as_blocked : Z }.
Definition audit_stats (a : SqlAuditorState) : SqlAuditStats :=
  mkAuditStats (a_checked a) (a_warned a) (a_blocked a).

(** ** Specification *)

(** The rules a configuration in block mode enforces, stated on the statement. *)
Definition allowed (cfg : SqlAuditConfig) (sql : str) (type : OperationType) (readOnly : bool) : Prop :=
  hasMultipleStatements sql true = false /\
  (ac_whitelist cfg <> [] -> fingerprintTemplate sql ∈ ac_whitelist cfg) /\
  fingerprintTemplate sql ∉ ac_blacklist cfg /\
  (ac_enforce_read_only cfg = true -> readOnly = true -> classifyStatement sql = KSelect) /\
  (ac_block_no_where_dml cfg = true ->
   classifyStatement sql = KUpdate \/ classifyStatement sql = KDelete -> hasWhereClause sql = true) /\
  (ac_require_limit_select cfg = true -> type <> OSelect ->
   classifyStatement sql = KSelect -> hasRowLimitClause sql = true).

Lemma classify_not_unknown sql : classifyStatement sql <> KUnknown.
Proof. unfold classifyStatement, kind_of_verb. by repeat split_match. Qed.

Lemma isWrite_spec k : k <> KUnknown -> isWrite k = false <-> k = KSelect.
Proof. by destruct k. Qed.

Lemma nonempty_list (l : list Z) : nonempty (list_to_set l) = false <-> l = [].
Proof.
  unfold nonempty. rewrite negb_false_iff, bool_decide_eq_true. destruct l; set_solver.
Qed.

Lemma kind_is_true k1 k2 : kind_is k1 k2 = true <-> k1 = k2.
Proof. apply bool_decide_eq_true. Qed.

Lemma check_kind_block cfg sql type readOnly a :
  ac_action cfg = $"block" ->
  status_ok (fst (check_kind (make_policy cfg) sql type readOnly a)) = true <->
  (ac_enforce_read_only cfg = true -> readOnly = true -> classifyStatement sql = KSelect) /\
  (ac_block_no_where_dml cfg = true ->
   classifyStatement sql = KUpdate \/ classifyStatement sql = KDelete -> hasWhereClause sql = true) /\
  (ac_require_limit_select cfg = true -> type <> OSelect ->
   classifyStatement sql = KSelect -> hasRowLimitClause sql = true).
Proof.
  intros Hact. unfold check_kind, make_policy. cbn. rewrite Hact. cbn.
  pose proof (isWrite_spec _ (classify_not_unknown sql)) as Hw.
  set (k := classifyStatement sql) in *.
  destruct (ac_enforce_read_only cfg) eqn:E1, (ac_block_no_where_dml cfg) eqn:E2,
    (ac_require_limit_select cfg) eqn:E3; cbn [orb andb negb];
    destruct readOnly; cbn [andb]; destruct (isWrite k) eqn:Ew;
    unfold kind_is, verdict; try (rewrite (proj1 Hw eq_refl));
    destruct (hasWhereClause sql), (hasRowLimitClause sql), (bool_decide_reflect (type = OSelect));
    try (destruct k; try done; cbn);
    cbn; intuition (try congruence; try done).
Qed.

Lemma audit_block_check cfg a sql type readOnly :
  ac_enabled cfg = true -> ac_action cfg = $"block" ->
  status_ok (fst (audit_check sql type readOnly (audit_configure cfg a))) = true <->
  allowed cfg sql type readOnly.
Proof.
  intros Hen Hact. unfold audit_check, audit_configure. cbn [a_enabled a_policy]. rewrite Hen. cbn [negb].
  unfold allowed. destruct (hasMultipleStatements sql true) eqn:Em.
  { unfold make_policy, verdict. cbn. rewrite Hact. cbn. naive_solver. }
  pose proof (fun a => check_kind_block cfg sql type readOnly a Hact) as Hk.
  set (rest := _ /\ _ /\ _) in Hk. fold rest.
  set (p := make_policy cfg) in *.
  assert (Hw : nonempty (po_whitelist p) = false <-> ac_whitelist cfg = []) by apply nonempty_list.
  assert (Hb : nonempty (po_blacklist p) = false <-> ac_blacklist cfg = []) by apply nonempty_list.
  assert (Hf : po_needsFingerprint p = nonempty (po_blacklist p) || nonempty (po_whitelist p)) by done.
  assert (Hin1 : fingerprintTemplate sql ∈ po_whitelist p <-> fingerprintTemplate sql ∈ ac_whitelist cfg)
    by (cbn; by rewrite elem_of_list_to_set).
  assert (Hin2 : fingerprintTemplate sql ∈ po_blacklist p <-> fingerprintTemplate sql ∈ ac_blacklist cfg)
    by (cbn; by rewrite elem_of_list_to_set).
  rewrite Hf. clearbody p. destruct (nonempty (po_whitelist p)) eqn:Ew.
  - rewrite orb_true_r. cbn [andb].
    destruct (bool_decide_reflect (fingerprintTemplate sql ∈ po_whitelist p)) as [H1|H1]; cbn [negb].
    + destruct (bool_decide_reflect (fingerprintTemplate sql ∈ po_blacklist p)) as [H2|H2].
      * cbn. naive_solver.
      * rewrite Hk. naive_solver.
    + cbn. destruct (ac_whitelist cfg) eqn:El; naive_solver.
  - rewrite orb_false_r. cbn [andb]. rewrite (proj1 Hw eq_refl).
    destruct (nonempty (po_blacklist p)) eqn:Eb.
    + destruct (bool_decide_reflect (fingerprintTemplate sql ∈ po_blacklist p)) as [H2|H2].
      * cbn. naive_solver.
      * rewrite Hk. naive_solver.
    + rewrite Hk, (proj1 Hb eq_refl). set_solver.
Qed.

(** What a check in block mode leaves behind: one check more, and one block more when
    the statement was refused. *)
Definition counted (st : Status) (a a' : SqlAuditorState) : Prop :=
  a_checked a' = a_checked a /\ a_warned a' = a_warned a /\
  a_blocked a' = (if status_ok st then a_blocked a else wrap_u64 (a_blocked a + 1)) /\
  (status_ok st = false -> code_ st = SqlBlocked).

Lemma verdict_counted reason a : counted (verdict true reason a).1 a (verdict true reason a).2.
Proof. done. Qed.

Lemma check_kind_counted cfg sql type readOnly a :
  ac_action cfg = $"block" ->
  let r := check_kind (make_policy cfg) sql type readOnly a in counted r.1 a r.2.
Proof.
  intros Hact. cbv zeta. unfold check_kind, make_policy. cbn. rewrite Hact. change ($"block" =s $"block") with true.
  repeat match goal with |- context [if ?b then _ else _] => destruct b end; apply verdict_counted || done.
Qed.

Lemma audit_block_counts cfg a sql type readOnly :
  ac_enabled cfg = true -> ac_action cfg = $"block" ->
  let r := audit_check sql type readOnly (audit_configure cfg a) in
  counted r.1 (count_checked (audit_configure cfg a)) r.2.
Proof.
  intros Hen Hact. cbv zeta. unfold audit_check. cbn [a_enabled a_policy audit_configure]. rewrite Hen. cbn [negb].
  assert (Hb : po_block (make_policy cfg) = true) by (cbn; by rewrite Hact). rewrite Hb.
  destruct (hasMultipleStatements sql true); [apply verdict_counted|].
  destruct (po_needsFingerprint _); [|by apply check_kind_counted].
  destruct (_ && _); [apply verdict_counted|]. destruct (bool_decide _); [apply verdict_counted|].
  by apply check_kind_counted.
Qed.

(** C35. In block mode the auditor lets a statement through exactly when it is
    allowed: a single statement, on the whitelist if there is one and not on
    the blacklist, no write on a read-only data source, no UPDATE or DELETE
    without a top-level WHERE, and no unlimited SELECT, as configured.  Every check
    is counted, every refusal is counted as a block with the code [SqlBlocked], and
    nothing is counted as a warning (64-bit counters). *)
Theorem audit_block_exact (cfg : SqlAuditConfig) (a : SqlAuditorState) (sql : str)
    (type : OperationType) (readOnly : bool) :
  ac_enabled cfg = true -> ac_action cfg = $"block" ->
  let '(st, a') := audit_check sql type readOnly (audit_configure cfg a) in
  (status_ok st = true <-> allowed cfg sql type readOnly) /\
  (status_ok st = false -> code_ st = SqlBlocked) /\
  a_checked a' = wrap_u64 (a_checked a + 1) /\ a_warned a' = a_warned a /\
  a_blocked a' = (if status_ok st then a_blocked a else wrap_u64 (a_blocked a + 1)).
Proof.
  intros Hen Hact. pose proof (audit_block_check cfg a sql type readOnly Hen Hact) as Hok.
  destruct (audit_block_counts cfg a sql type readOnly Hen Hact) as (H1 & H2 & H3 & H4).
  destruct (audit_check _ _ _ _) as [st a']. done.
Qed.

Definition sample_audit : SqlAuditConfig :=
  mkAuditConfig true ($"block") true true true true [] [].

Lemma audit_block_exact_witness :
  let '(st, a') := audit_check ($"DELETE FROM t") OExecute false (audit_configure sample_audit auditor_init) in
  (status_ok st = true <-> allowed sample_audit ($"DELETE FROM t") OExecute false) /\
  (a_checked a', a_warned a', a_blocked a') = (1, 0, 1)%Z.
Proof.
  pose proof (audit_block_exact sample_audit auditor_init ($"DELETE FROM t") OExecute false eq_refl eq_refl) as H.
  assert (E : status_ok (audit_check ($"DELETE FROM t") OExecute false (audit_configure sample_audit auditor_init)).1 = false)
    by (vm_compute; reflexivity).
  destruct (audit_check _ _ _ _) as [st a']. cbn in E. destruct H as (H1 & _ & H2 & H3 & H4).
  split; [exact H1|]. rewrite H2, H3, H4, E. reflexivity.
Defined.

(** Structured statements pass the gate: with auditing in block mode and no
    fingerprint lists, whatever the builder accepts is allowed on a writable
    data source, provided UPDATE and DELETE have conditions and SELECT is not
    required to carry a limit. *)
Theorem builder_passes_audit (cfg : SqlAuditConfig) (a : SqlAuditorState) (b : Builder)
    (type : OperationType) :
  ac_enabled cfg = true -> ac_action cfg = $"block" -> ac_whitelist cfg = [] -> ac_blacklist cfg = [] ->
  status_ok (br_status (build b)) = true -> builder_clean b = true ->
  (operation_ b = OpUpdate \/ operation_ b = OpDelete -> conditions_ b <> []) ->
  (operation_ b = OpSelect -> ac_require_limit_select cfg = false \/ type = OSelect) ->
  status_ok (fst (audit_check (st_sql (br_statement (build b))) type false (audit_configure cfg a))) = true.
Proof.
  intros Hen Hact Hw Hb Hok Hc Hcond Hsel. apply audit_block_check; [done|done|].
  destruct (build_clean_analysis b true Hok Hc) as (_ & Hm & Hk).
  unfold allowed. rewrite Hw, Hb, Hk. split; [done|]. split; [done|]. split; [set_solver|].
  split; [done|]. split.
  - intros _ Hud.
    assert (Hop : operation_ b = OpUpdate \/ operation_ b = OpDelete)
      by (destruct (operation_ b); destruct Hud; try done; auto).
    pose proof (build_guarded b Hok Hc Hop) as Hg. specialize (Hcond Hop).
    by destruct (conditions_ b).
  - intros Hr Ht Hsk. assert (Hop : operation_ b = OpSelect) by (by destruct (operation_ b)).
    destruct (Hsel Hop); congruence.
Qed.

Lemma builder_passes_audit_witness :
  status_ok (fst (audit_check (st_sql (br_statement (build sample_update))) OExecute false
                              (audit_configure sample_audit auditor_init))) = true.
Proof.
  apply (builder_passes_audit sample_audit auditor_init sample_update OExecute); try reflexivity.
  - intros _. discriminate.
  - discriminate.
Defined.

(** In warn mode the fingerprint lists can be bypassed, although they always
    block: a statement with several parts returns from the gate before the
    lists are consulted, so even a blacklisted text passes. *)
Theorem audit_warn_bypass :
  exists cfg sql,
    ac_enabled cfg = true /\ fingerprintTemplate sql ∈ ac_blacklist cfg /\
    status_ok (fst (audit_check sql OExecute false (audit_configure cfg auditor_init))) = true.
Proof.
  exists (mkAuditConfig true ($"warn") true true true true
            [fingerprintTemplate ($"DROP TABLE users; SELECT 1")] []), ($"DROP TABLE users; SELECT 1").
  split; [done|]. split; [constructor|]. by vm_compute.
Qed.
