(* ===== verification/WriteBuffer.v ===== *)
(** * WriteBuffer: the bounded queue of deferred writes

    Models src/core/write_buffer.cpp and include/sqlconduit/core/write_buffer.h.
    A buffered write is known by a number; executing it is the parameter [exec].
    The worker's [run] is split at its critical sections: take the batch, replay
    it unlocked, put back what can be retried, and on the final pass abandon the
    rest; [enqueue] can come between them. *)

From S2P Require Import Prelude Types.

Record WbConfig : Type := mkWbConfig {
  wc_enabled : bool; wc_max_queue : Z; wc_ttl_ms : Z; wc_flush_interval_ms : Z
}.

Abbreviation Item := (nat * Z)%type.

Record WriteBuffer : Type := mkBuffer {
  wb_cfg : WbConfig;
  wb_enabled : bool;
  wb_q : list Item;
  wb_stop : bool;
  wb_running : bool
}.

(** The constructor raises the limits to usable values. *)
Definition wb_new (cfg : WbConfig) : WriteBuffer :=
  mkBuffer (mkWbConfig (wc_enabled cfg) (Z.max (wc_max_queue cfg) 1) (wc_ttl_ms cfg)
                       (Z.max (wc_flush_interval_ms cfg) 10))
           (wc_enabled cfg) [] false false.

Definition set_q (q : list Item) (b : WriteBuffer) : WriteBuffer :=
  mkBuffer (wb_cfg b) (wb_enabled b) q (wb_stop b) (wb_running b).

Definition enqueue (task : nat) (now : Z) (b : WriteBuffer) : bool * WriteBuffer :=
  if negb (wb_enabled b) then (false, b)
  else if wb_stop b || negb (wb_running b) then (false, b)
  else if (wc_max_queue (wb_cfg b) <=? Z.of_nat (length (wb_q b)))%Z then (false, b)
  else (true, set_q (wb_q b ++ [(task, now)]) b).

Definition pending (b : WriteBuffer) : nat := length (wb_q b).

Definition wb_start (b : WriteBuffer) : WriteBuffer :=
  if negb (wb_enabled b) then b
  else if wb_running b then b
  else mkBuffer (wb_cfg b) (wb_enabled b) (wb_q b) false true.

(** [stop] up to the join, and after it. *)
Definition wb_stop_request (b : WriteBuffer) : WriteBuffer :=
  if negb (wb_running b) then b
  else mkBuffer (wb_cfg b) (wb_enabled b) (wb_q b) true (wb_running b).
Definition wb_stopped (b : WriteBuffer) : WriteBuffer :=
  mkBuffer (wb_cfg b) (wb_enabled b) (wb_q b) (wb_stop b) false.

(** First critical section of a pass: swap the queue out; [true] is the final
    pass. *)
Definition take_batch (b : WriteBuffer) : list Item * bool * WriteBuffer :=
  (wb_q b, wb_stop b, set_q [] b).

(** What became of a batch. *)
Record outcome : Type := mkOutcome {
  o_flushed : list Item; o_expired : list Item; o_failed : list Item; o_retry : list Item
}.

Definition wb_expired (cfg : WbConfig) (i : Item) (now : Z) : bool :=
  (0 <? wc_ttl_ms cfg)%Z && (wc_ttl_ms cfg * 1000000 <? now - snd i)%Z.

(** The replay loop; [exec i] is the status of running [i], [clock i] the time
    at which the loop reaches it. *)
Fixpoint replay (cfg : WbConfig) (finalPass : bool) (exec : Item -> Status) (clock : Item -> Z)
    (batch : list Item) (o : outcome) : outcome :=
  match batch with
  | [] => o
  | i :: rest =>
      replay cfg finalPass exec clock rest
        (let '(mkOutcome fl ex fa re) := o in
         if wb_expired cfg i (clock i) then mkOutcome fl (ex ++ [i]) fa re
         else
           let st := exec i in
           if status_ok st then mkOutcome (fl ++ [i]) ex fa re
           else if negb finalPass && (retryable st || connectionBroken st)
                then mkOutcome fl ex fa (re ++ [i])
                else mkOutcome fl ex (fa ++ [i]) re)
  end.

Definition outcome_empty : outcome := mkOutcome [] [] [] [].

(** The bounded push loop of the requeue section; returns the dropped items. *)
Fixpoint push_bounded (max : Z) (items q : list Item) : list Item * list Item :=
  match items with
  | [] => (q, [])
  | i :: rest =>
      if (max <=? Z.of_nat (length q))%Z then
        let '(q', dropped) := push_bounded max rest q in (q', i :: dropped)
      else push_bounded max rest (q ++ [i])
  end.

(** Second critical section: the retried writes go before the new ones. *)
Definition requeue (retry : list Item) (b : WriteBuffer) : WriteBuffer * list Item :=
  match retry with
  | [] => (b, [])
  | _ => let '(q, dropped) := push_bounded (wc_max_queue (wb_cfg b)) (retry ++ wb_q b) [] in
         (set_q q b, dropped)
  end.

(** Last critical section of the final pass. *)
Definition abandon (b : WriteBuffer) : WriteBuffer * list Item := (set_q [] b, wb_q b).

(** ** Replay partitions the batch *)

Lemma replay_app cfg final exec clock batch fl ex fa re :
  let o := replay cfg final exec clock batch outcome_empty in
  replay cfg final exec clock batch (mkOutcome fl ex fa re) =
  mkOutcome (fl ++ o_flushed o) (ex ++ o_expired o) (fa ++ o_failed o) (re ++ o_retry o).
Proof.
  cbn zeta. revert fl ex fa re. induction batch as [|i batch IH]; intros fl ex fa re.
  { cbn. by rewrite !app_nil_r. }
  cbn [replay outcome_empty]. destruct (wb_expired cfg i (clock i));
    [|destruct (status_ok (exec i));
      [|destruct (negb final && (retryable (exec i) || connectionBroken (exec i)))]];
    rewrite IH; (rewrite (IH [] _ _ _) || rewrite (IH [i] _ _ _) || rewrite (IH _ _ _ _)); cbn;
    by rewrite <- ?app_assoc.
Qed.

(** Where each item of a batch goes. *)
Definition goes_flushed cfg (exec : Item -> Status) (clock : Item -> Z) (i : Item) : bool :=
  negb (wb_expired cfg i (clock i)) && status_ok (exec i).
Definition goes_retry cfg (final : bool) (exec : Item -> Status) (clock : Item -> Z) (i : Item) : bool :=
  negb (wb_expired cfg i (clock i)) && negb (status_ok (exec i)) &&
  negb final && (retryable (exec i) || connectionBroken (exec i)).

Lemma replay_spec cfg final exec clock batch :
  let o := replay cfg final exec clock batch outcome_empty in
  o_flushed o = List.filter (goes_flushed cfg exec clock) batch /\
  o_retry o = List.filter (goes_retry cfg final exec clock) batch /\
  batch ≡ₚ o_flushed o ++ o_expired o ++ o_failed o ++ o_retry o.
Proof.
  cbn zeta. induction batch as [|i batch (IH1 & IH2 & IH3)]; [done|].
  cbn [replay outcome_empty List.filter]. unfold goes_flushed at 1, goes_retry at 1.
  destruct (wb_expired cfg i (clock i)); cbn [negb andb];
    [|destruct (status_ok (exec i)); cbn [negb andb];
      [|destruct final; cbn [negb andb];
        [|destruct (retryable (exec i) || connectionBroken (exec i)); cbn [andb]]]];
    cbn [outcome_empty app]; rewrite (replay_app cfg); cbn [o_flushed o_expired o_failed o_retry app];
    rewrite <- ?IH1, <- ?IH2; (split; [done|]); (split; [done|]).
  - rewrite <- Permutation_middle. by constructor.
  - by constructor.
  - rewrite (app_assoc (o_flushed _)), <- Permutation_middle, <- app_assoc. by constructor.
  - rewrite !app_assoc, <- Permutation_middle, <- !app_assoc. by constructor.
  - rewrite (app_assoc (o_flushed _)), <- Permutation_middle, <- app_assoc. by constructor.
Qed.

(** The push loop keeps the first [max] items. *)
Lemma push_bounded_spec max items q :
  (0 <= max)%Z -> (Z.of_nat (length q) <= max)%Z ->
  push_bounded max items q =
  (q ++ take (Z.to_nat max - length q) items, drop (Z.to_nat max - length q) items).
Proof.
  intros Hm. revert q; induction items as [|i items IH]; intros q Hq; cbn [push_bounded].
  { by rewrite take_nil, drop_nil, app_nil_r. }
  destruct (Z.leb_spec max (Z.of_nat (length q))).
  - rewrite IH by done. replace (Z.to_nat max - length q) with 0 by lia. cbn. by rewrite drop_0.
  - rewrite IH by (rewrite length_app; cbn; lia). rewrite length_app. cbn [length].
    replace (Z.to_nat max - length q) with (S (Z.to_nat max - (length q + 1))) by lia.
    cbn. by rewrite <- app_assoc.
Qed.

(** ** A whole pass of the worker *)

(** Enqueues by other threads, in order. *)
Definition enqueue_all (arrivals : list Item) (b : WriteBuffer) : WriteBuffer :=
  fold_left (fun b i => snd (enqueue (fst i) (snd i) b)) arrivals b.

Record pass_result : Type := mkPass {
  p_buffer : WriteBuffer; p_outcome : outcome; p_dropped : list Item; p_final : bool
}.

(** One iteration of [run], with the writes that arrive while the batch is
    replayed. *)
Definition run_pass (exec : Item -> Status) (clock : Item -> Z) (arrivals : list Item)
    (b : WriteBuffer) : pass_result :=
  let '(batch, final, b) := take_batch b in
  let o := replay (wb_cfg b) final exec clock batch outcome_empty in
  let b := enqueue_all arrivals b in
  let '(b, dropped) := requeue (o_retry o) b in
  if final then let '(b, abandoned) := abandon b in mkPass b o (dropped ++ abandoned) true
  else mkPass b o dropped false.

Definition wb_inv (b : WriteBuffer) : Prop :=
  (1 <= wc_max_queue (wb_cfg b))%Z /\ (Z.of_nat (length (wb_q b)) <= wc_max_queue (wb_cfg b))%Z.

Lemma enqueue_inv t now b :
  wb_inv b -> wb_inv (snd (enqueue t now b)) /\ wb_cfg (snd (enqueue t now b)) = wb_cfg b /\
  exists acc, wb_q (snd (enqueue t now b)) = wb_q b ++ acc.
Proof.
  intros [H1 H2]. unfold enqueue.
  destruct (negb (wb_enabled b)); [split; [done|split; [done|exists []; by rewrite app_nil_r]]|].
  destruct (_ || _); [split; [done|split; [done|exists []; by rewrite app_nil_r]]|].
  destruct (Z.leb_spec (wc_max_queue (wb_cfg b)) (Z.of_nat (length (wb_q b)))); cbn.
  - split; [done|split; [done|exists []; by rewrite app_nil_r]].
  - split; [|split; [done|by eexists]]. split; cbn; [done|]. rewrite length_app. cbn. lia.
Qed.

Lemma enqueue_all_inv arrivals b :
  wb_inv b -> wb_inv (enqueue_all arrivals b) /\ wb_cfg (enqueue_all arrivals b) = wb_cfg b.
Proof.
  revert b; induction arrivals as [|[t now] arrivals IH]; intros b Hb; [done|].
  destruct (enqueue_inv t now b Hb) as (H1 & H2 & _).
  destruct (IH _ H1) as [H3 H4]. split; [done|]. by rewrite <- H2.
Qed.

Lemma requeue_spec retry b :
  wb_inv b ->
  requeue retry b =
  (set_q (take (Z.to_nat (wc_max_queue (wb_cfg b))) (retry ++ wb_q b)) b,
   drop (Z.to_nat (wc_max_queue (wb_cfg b))) (retry ++ wb_q b)).
Proof.
  intros [H1 H2]. unfold requeue. destruct retry as [|i retry].
  - cbn [app]. rewrite take_ge, drop_ge by lia. by destruct b.
  - rewrite push_bounded_spec by (cbn; lia). cbn [length app]. by rewrite Nat.sub_0_r.
Qed.

(** A pass of the worker loses and duplicates nothing silently: the batch
    and the writes accepted meanwhile split into those flushed (executed once
    with success and gone), expired, failed for good, dropped for lack of room
    and still queued; what remains queued is the retryable part of the batch,
    in its order and ahead of the newer writes, cut at the queue bound. *)
Theorem wb_pass_exact (exec : Item -> Status) (clock : Item -> Z) (arrivals : list Item)
    (b : WriteBuffer) :
  wb_inv b -> wb_stop b = false ->
  let r := run_pass exec clock arrivals b in
  let o := p_outcome r in
  let newer := wb_q (enqueue_all arrivals (set_q [] b)) in
  wb_q b ++ newer ≡ₚ o_flushed o ++ o_expired o ++ o_failed o ++ p_dropped r ++ wb_q (p_buffer r) /\
  o_flushed o = List.filter (goes_flushed (wb_cfg b) exec clock) (wb_q b) /\
  wb_q (p_buffer r) =
    take (Z.to_nat (wc_max_queue (wb_cfg b)))
         (List.filter (goes_retry (wb_cfg b) false exec clock) (wb_q b) ++ newer) /\
  wb_inv (p_buffer r).
Proof.
  intros Hinv Hstop. cbn zeta. unfold run_pass, take_batch. rewrite Hstop. cbn [wb_cfg set_q].
  destruct (replay_spec (wb_cfg b) false exec clock (wb_q b)) as (H1 & H2 & H3).
  set (o := replay _ _ _ _ _ _) in *.
  destruct (enqueue_all_inv arrivals (set_q [] b)) as [Hi Hc].
  { destruct Hinv. split; cbn; lia. }
  rewrite requeue_spec by done. rewrite Hc. cbn [wb_cfg set_q p_buffer p_outcome p_dropped wb_q].
  set (newer := wb_q (enqueue_all arrivals (set_q [] b))) in *.
  set (m := Z.to_nat _). rewrite H2 in *. split; [|split; [done|split; [done|]]].
  - rewrite H3 at 1. rewrite <- !app_assoc. do 3 f_equiv.
    rewrite <- (take_drop m (_ ++ newer)) at 1. apply Permutation_app_comm.
  - destruct Hinv as [? ?]. split; cbn; rewrite Hc; cbn; [done|].
    rewrite length_take. unfold m. lia.
Qed.

Definition sample_buffer : WriteBuffer :=
  mkBuffer (mkWbConfig true 2 1000 10) true [(1, 0%Z); (2, 5%Z)] false true.
Definition sample_exec (i : Item) : Status :=
  if fst i =? 1 then set_retryable true (status_error ConnectionFailed []) else status_OK.

Lemma wb_pass_exact_witness :
  let r := run_pass sample_exec (fun _ => 10%Z) [(3, 11%Z); (4, 12%Z)] sample_buffer in
  wb_q (p_buffer r) = [(1, 0%Z); (3, 11%Z)] /\ p_dropped r = [(4, 12%Z)] /\
  o_flushed (p_outcome r) = List.filter (goes_flushed (wb_cfg sample_buffer) sample_exec (fun _ => 10%Z))
                                        (wb_q sample_buffer).
Proof.
  split; [vm_compute; reflexivity|]. split; [vm_compute; reflexivity|].
  apply (wb_pass_exact sample_exec (fun _ => 10%Z) [(3, 11%Z); (4, 12%Z)] sample_buffer);
    [split; vm_compute; discriminate|reflexivity].
Defined.
