(* ===== verification/Resilience.v ===== *)
(** * Resilience: the circuit breaker and the attempt loops

    Models the parts of [core::DataSource] (src/core/database_manager.cpp) that
    decide whether and how often a statement runs on one data source:
    [beforeAttempt] and [afterAttempt], [retryDelay], [resolveWriteAttempts],
    [borrowSession]'s classification of pool errors, and the attempt loops of
    [queryUngated] and [executeUngated].  Running a statement on a connection is
    a parameter; clock readings, the operation's stop status and the jitter are
    arguments. *)

From S2P Require Import Prelude Types Context.

(** ** The circuit breaker *)

Record CircuitBreakerConfig : Type := mkBreakerConfig {
  failure_threshold : Z;
  open_interval_ms : Z
}.

(** [circuitOpenUntil_] is 0 for [time_point{}]; instants in nanoseconds. *)
Record Breaker : Type := mkBreaker {
  circuitOpenUntil_ : Z;
  consecutiveFailures_ : Z;
  halfOpenInFlight_ : bool;
  lastError_ : ErrorCode
}.

Definition breaker_init : Breaker := mkBreaker 0 0 false Ok.

Definition isCircuitOpen (cfg : CircuitBreakerConfig) (now : Z) (b : Breaker) : bool :=
  if (failure_threshold cfg <=? 0)%Z then false else (now <? circuitOpenUntil_ b)%Z.

(** [stop] is the status of the current operation. *)
Definition beforeAttempt (cfg : CircuitBreakerConfig) (name : str) (stop : Status) (now : Z)
    (b : Breaker) : Status * Breaker :=
  if negb (status_ok stop) then (stop, b)
  else if (failure_threshold cfg <=? 0)%Z then (status_OK, b)
  else if (now <? circuitOpenUntil_ b)%Z then
    (status_error CircuitOpen ($"datasource '" ++ name ++ $"' circuit is open"), b)
  else if negb (circuitOpenUntil_ b =? 0)%Z then
    if halfOpenInFlight_ b then
      (status_error CircuitOpen ($"datasource '" ++ name ++ $"' circuit is half-open"), b)
    else (status_OK, mkBreaker (circuitOpenUntil_ b) (consecutiveFailures_ b) true (lastError_ b))
  else (status_OK, b).

Definition clear_half (b : Breaker) : Breaker :=
  mkBreaker (circuitOpenUntil_ b) (consecutiveFailures_ b) false (lastError_ b).
Definition close_circuit (b : Breaker) : Breaker := mkBreaker 0 0 false (lastError_ b).
Definition set_lastError (c : ErrorCode) (b : Breaker) : Breaker :=
  mkBreaker (circuitOpenUntil_ b) (consecutiveFailures_ b) (halfOpenInFlight_ b) c.

Definition budget_stop (status stop : Status) : bool :=
  (code_eqb (code_ status) Cancelled || code_eqb (code_ status) QueryTimeout) &&
  negb (status_ok stop).

Definition afterAttempt (cfg : CircuitBreakerConfig) (status stop : Status) (now : Z) (b : Breaker)
    : Breaker :=
  if budget_stop status stop then clear_half b
  else
    let b := if status_ok status then b else set_lastError (code_ status) b in
    if (failure_threshold cfg <=? 0)%Z then b
    else if status_ok status then close_circuit b
    else
      let b := clear_half b in
      if negb (retryable status) && negb (connectionBroken status) then close_circuit b
      else
        let n := (consecutiveFailures_ b + 1)%Z in
        mkBreaker (if (failure_threshold cfg <=? n)%Z then now + open_interval_ms cfg * 1000000
                   else circuitOpenUntil_ b)%Z
                  n (halfOpenInFlight_ b) (lastError_ b).

(** A breaker that refuses every attempt from some time on. *)
Lemma wedged_refuses bc name b stop now :
  (0 < failure_threshold bc)%Z -> (0 < circuitOpenUntil_ b)%Z -> halfOpenInFlight_ b = true ->
  status_ok (beforeAttempt bc name stop now b).1 = false
  /\ (beforeAttempt bc name stop now b).2 = b.
Proof.
  intros Ht Hu Hh. unfold beforeAttempt. destruct (status_ok stop) eqn:E; cbn; [|by rewrite E].
  destruct (Z.leb_spec (failure_threshold bc) 0); [lia|].
  destruct (Z.ltb_spec now (circuitOpenUntil_ b)); [done|].
  destruct (Z.eqb_spec (circuitOpenUntil_ b) 0); [lia|]. cbn. by rewrite Hh.
Qed.

(** A half-open probe that is never reported: every later attempt is refused. *)
Lemma wedged_forever bc name b (gates : list (Status * Z)) :
  (0 < failure_threshold bc)%Z -> (0 < circuitOpenUntil_ b)%Z -> halfOpenInFlight_ b = true ->
  foldl (fun (acc : list bool * Breaker) g =>
    let '(st, b) := beforeAttempt bc name g.1 g.2 acc.2 in (acc.1 ++ [status_ok st], b)) ([], b) gates
  = (replicate (length gates) false, b).
Proof.
  intros Ht Hu Hh.
  assert (Hg : forall acc, foldl (fun (acc : list bool * Breaker) g =>
      let '(st, b) := beforeAttempt bc name g.1 g.2 acc.2 in (acc.1 ++ [status_ok st], b)) (acc, b) gates
      = (acc ++ replicate (length gates) false, b)); [|by rewrite Hg].
  induction gates as [|g gates IH]; intros acc; cbn [foldl length replicate]; [by rewrite app_nil_r|].
  destruct (wedged_refuses bc name b g.1 g.2 Ht Hu Hh) as [H1 H2]. cbn [fst snd].
  destruct (beforeAttempt bc name g.1 g.2 b) as [st b2]. cbn in H1, H2. subst b2. rewrite H1, IH.
  f_equal. by rewrite <- (assoc_L (++)).
Qed.

(** ** Retry *)

Record RetryConfig : Type := mkRetryConfig {
  max_attempts : Z;
  initial_backoff_ms : Z;
  max_backoff_ms : Z;
  retry_writes : bool
}.

(** The doubling loop: [n] is the number of iterations left. *)
Fixpoint backoff_loop (n : nat) (delay maxBackoff : Z) : Z :=
  match n with
  | O => delay
  | S n' => if (delay <? maxBackoff)%Z then backoff_loop n' (Z.min (delay * 2) maxBackoff) maxBackoff
            else delay
  end.

Definition jitter_range (delay : Z) : Z := Z.max 1 (Z.quot delay 4 + 1).

(** [jitter] is the draw of [randomJitter], in [0, range - 1]. *)
Definition retryDelay (cfg : RetryConfig) (attempt : Z) (jitter : Z -> Z) : Z :=
  if (initial_backoff_ms cfg <=? 0)%Z then 0
  else
    let delay := backoff_loop (Z.to_nat (attempt - 1)) (initial_backoff_ms cfg) (max_backoff_ms cfg) in
    Z.min (max_backoff_ms cfg) (delay + jitter (jitter_range delay)).

(** What one attempt sees: the inputs of the gate, the outcome of borrowing a
    session, the statement's run on that session, the inputs of [afterAttempt]
    and the jitter of the wait that may follow. *)
Record Attempt (T : Type) : Type := mkAttempt {
  at_stop : Status;
  at_now : Z;
  at_borrow : Status;
  at_run : T -> Status * T;
  at_stop_after : Status;
  at_now_after : Z;
  at_jitter : Z -> Z
}.
Arguments mkAttempt {T}.
Arguments at_stop {T} _.
Arguments at_now {T} _.
Arguments at_borrow {T} _.
Arguments at_run {T} _ _.
Arguments at_stop_after {T} _.
Arguments at_now_after {T} _.
Arguments at_jitter {T} _ _.

(** The loop's result: status, output, breaker, number of attempts admitted and
    the delays waited. *)
Record LoopResult (T : Type) : Type := mkLoop {
  l_status : Status; l_out : T; l_breaker : Breaker; l_runs : nat; l_waits : list Z
}.
Arguments mkLoop {T}.
Arguments l_status {T} _.
Arguments l_out {T} _.
Arguments l_breaker {T} _.
Arguments l_runs {T} _.
Arguments l_waits {T} _.

Section AttemptLoop.
Context {T : Type}.
Variable bc : CircuitBreakerConfig.
Variable rc : RetryConfig.
Variable name : str.
  (** [prepare k] resets the output before attempt [k + 1]. *)
Variable prepare : nat -> T -> T.
Variable env : nat -> Attempt T.

Definition attempt_run (k : nat) (out : T) : Status * T :=
  let out := prepare k out in
  if status_ok (at_borrow (env k)) then at_run (env k) out else (at_borrow (env k), out).

  (** [left] attempts remain; attempt [k + 1] is next. *)
Fixpoint attempt_loop (left k : nat) (status : Status) (out : T) (b : Breaker) (waits : list Z)
    : LoopResult T :=
  match left with
  | O => mkLoop status out b k waits
  | S left' =>
      let a := env k in
      let '(gate, b) := beforeAttempt bc name (at_stop a) (at_now a) b in
      if negb (status_ok gate) then mkLoop gate out b k waits
      else
        let '(status, out) := attempt_run k out in
        let b := afterAttempt bc status (at_stop_after a) (at_now_after a) b in
        if status_ok status then mkLoop status out b (S k) waits
        else if negb (retryable status) || (left' =? 0) then mkLoop status out b (S k) waits
        else attempt_loop left' (S k) status out b
               (waits ++ [retryDelay rc (Z.of_nat (S k)) (at_jitter a)])
  end.
End AttemptLoop.

Definition read_attempts (rc : RetryConfig) : nat := Z.to_nat (Z.max 1 (max_attempts rc)).

Definition resolveWriteAttempts (rc : RetryConfig) (idem : Idempotency) : nat :=
  match idem with
  | NonIdempotent => 1
  | Idempotent => Z.to_nat (Z.max 1 (max_attempts rc))
  | Unspecified => if retry_writes rc then Z.to_nat (Z.max 1 (max_attempts rc)) else 1
  end.

(** [borrowSession]'s status for a failed borrow. *)
Definition borrow_status (code : ErrorCode) (err : str) : Status :=
  let st := status_error code err in
  if code_eqb code ConnectionFailed then set_broken true (set_retryable true st) else st.

(** A leaf data source; names identify data sources, as in the manager's map. *)
Record Node : Type := mkNode {
  n_name : str;
  n_retry : RetryConfig;
  n_breaker : CircuitBreakerConfig;
  n_readReplica : bool;
  n_poolExpired : bool
}.

Definition clear_after_first (k : nat) (out : ResultSet) : ResultSet :=
  if 0 <? k then rs_clear out else out.

(** The attempt loops of a leaf's query and of its write. *)
Definition query_attempts (n : Node) (env : nat -> Attempt ResultSet) (out : ResultSet) (b : Breaker) :=
  attempt_loop (n_breaker n) (n_retry n) (n_name n) clear_after_first env
    (read_attempts (n_retry n)) 0 status_OK out b [].
Definition write_attempts (n : Node) (idem : Idempotency) (env : nat -> Attempt Z) (a : Z) (b : Breaker) :=
  attempt_loop (n_breaker n) (n_retry n) (n_name n) (fun _ _ => 0%Z) env
    (resolveWriteAttempts (n_retry n) idem) 0 status_OK a b [].

(** ** The breaker implements its state machine *)

(** The documented machine: closed with a count of consecutive failures, or
    tripped until an instant, with or without a probe in flight. *)
Inductive BreakerSpec : Type :=
| Closed (failures : Z)
| Tripped (until : Z) (probing : bool).

Inductive breaker_event : Type :=
| EBefore (stop : Status) (now : Z)
| EAfter (status stop : Status) (now : Z).

(** A result that counts as evidence of an unhealthy database. *)
Definition breaking (status stop : Status) : bool :=
  negb (budget_stop status stop) && negb (status_ok status) &&
  (retryable status || connectionBroken status).

Definition spec_event (cfg : CircuitBreakerConfig) (e : breaker_event) (s : BreakerSpec)
    : bool * BreakerSpec :=
  match e, s with
  | EBefore stop now, _ =>
      if negb (status_ok stop) then (false, s)
      else match s with
           | Closed _ => (true, s)
           | Tripped until probing =>
               if (now <? until)%Z || probing then (false, s) else (true, Tripped until true)
           end
  | EAfter status stop now, _ =>
      (true,
       if breaking status stop then
         match s with
         | Closed n => if (failure_threshold cfg <=? n + 1)%Z
                       then Tripped (now + open_interval_ms cfg * 1000000) false else Closed (n + 1)
         | Tripped _ _ => Tripped (now + open_interval_ms cfg * 1000000) false
         end
       else if budget_stop status stop then
         match s with Closed n => Closed n | Tripped until _ => Tripped until false end
       else Closed 0)
  end.

(** The code's step: admission (for [EBefore]) and the new fields. *)
Definition breaker_step (cfg : CircuitBreakerConfig) (name : str) (e : breaker_event) (b : Breaker)
    : bool * Breaker :=
  match e with
  | EBefore stop now => let '(st, b') := beforeAttempt cfg name stop now b in (status_ok st, b')
  | EAfter status stop now => (true, afterAttempt cfg status stop now b)
  end.

Fixpoint trace {S} (step : breaker_event -> S -> bool * S) (es : list breaker_event) (s : S)
    : list bool * S :=
  match es with
  | [] => ([], s)
  | e :: es' => let '(a, s1) := step e s in let '(l, s2) := trace step es' s1 in (a :: l, s2)
  end.

(** Clock readings after the epoch of the steady clock. *)
Definition event_time (e : breaker_event) : Z := match e with EBefore _ t | EAfter _ _ t => t end.

Definition breaker_rel (cfg : CircuitBreakerConfig) (b : Breaker) (s : BreakerSpec) : Prop :=
  match s with
  | Closed n => circuitOpenUntil_ b = 0%Z /\ consecutiveFailures_ b = n /\
                (0 <= n < failure_threshold cfg)%Z /\ halfOpenInFlight_ b = false
  | Tripped until probing =>
      circuitOpenUntil_ b = until /\ until <> 0%Z /\ halfOpenInFlight_ b = probing /\
      (failure_threshold cfg <= consecutiveFailures_ b)%Z
  end.

Lemma breaker_step_rel cfg name e b s :
  (0 < failure_threshold cfg)%Z -> (0 <= open_interval_ms cfg)%Z -> (0 < event_time e)%Z ->
  breaker_rel cfg b s ->
  fst (breaker_step cfg name e b) = fst (spec_event cfg e s) /\
  breaker_rel cfg (snd (breaker_step cfg name e b)) (snd (spec_event cfg e s)).
Proof.
  intros Hth Hiv Ht HR. destruct e as [stop now|status stop now]; cbn [event_time] in Ht.
  - cbn [breaker_step spec_event]. unfold beforeAttempt.
    destruct (status_ok stop) eqn:Es; cbn [negb]; [|by rewrite Es].
    rewrite (proj2 (Z.leb_gt _ 0) Hth).
    destruct s as [n|until probing]; cbn [breaker_rel] in HR.
    + destruct HR as (H1 & H2 & H3 & H4). rewrite H1, (proj2 (Z.ltb_ge now 0)) by lia. done.
    + destruct HR as (H1 & H2 & H3 & H4). rewrite H1, H3.
      destruct (now <? until)%Z; [done|]. rewrite (proj2 (Z.eqb_neq until 0) H2).
      cbn [negb orb]. by destruct probing.
  - cbn [breaker_step spec_event fst snd]. split; [done|]. unfold afterAttempt, breaking.
    rewrite (proj2 (Z.leb_gt _ 0) Hth).
    destruct (budget_stop status stop) eqn:Eb; cbn [negb andb].
    { destruct s as [n|until probing]; cbn in *; naive_solver. }
    destruct (status_ok status) eqn:Eo; cbn [negb andb]; [cbn; naive_solver lia|].
    rewrite <- negb_orb. destruct (retryable status || connectionBroken status) eqn:Er;
      cbn [negb]; [|cbn; naive_solver lia].
    destruct s as [n|until probing]; cbn in *.
    + destruct HR as (H1 & <- & H3 & H4).
      destruct (failure_threshold cfg <=? consecutiveFailures_ b + 1)%Z eqn:E; cbn.
      * apply Z.leb_le in E. repeat split; lia.
      * apply Z.leb_gt in E. repeat split; auto; lia.
    + destruct HR as (H1 & H2 & H3 & H4).
      rewrite (proj2 (Z.leb_le (failure_threshold cfg) (consecutiveFailures_ b + 1))) by lia.
      repeat split; lia.
Qed.

(** C8. The circuit breaker implements its state machine: over any interleaving of
    attempts starting and finishing at positive clock readings, with a positive
    threshold and a non-negative open interval, exactly the attempts the
    machine admits are admitted.  It trips on [failure_threshold] consecutive
    retryable or connection failures, rejects until the interval has passed,
    then admits one probe at a time; a success or an ordinary SQL error closes
    it; an attempt stopped by its own budget changes nothing but the probe. *)
Theorem breaker_refines (cfg : CircuitBreakerConfig) (name : str) (es : list breaker_event) :
  (0 < failure_threshold cfg)%Z -> (0 <= open_interval_ms cfg)%Z ->
  Forall (fun e => 0 < event_time e)%Z es ->
  let '(la, b) := trace (breaker_step cfg name) es breaker_init in
  let '(ls, s) := trace (spec_event cfg) es (Closed 0) in
  la = ls /\ breaker_rel cfg b s.
Proof.
  intros Hth Hiv Hes.
  assert (H0 : breaker_rel cfg breaker_init (Closed 0)) by (cbn; repeat split; lia).
  revert H0. generalize breaker_init (Closed 0). induction Hes as [|e es He _ IH]; intros b s HR.
  - done.
  - cbn [trace]. pose proof (breaker_step_rel cfg name e b s Hth Hiv He HR) as [H1 H2].
    destruct (breaker_step cfg name e b) as [a b1], (spec_event cfg e s) as [a' s1].
    cbn in H1, H2. specialize (IH b1 s1 H2).
    destruct (trace (breaker_step cfg name) es b1), (trace (spec_event cfg) es s1).
    destruct IH as [-> ?]. by subst.
Qed.

Definition sample_breaker : CircuitBreakerConfig := mkBreakerConfig 2 5.
Definition broken : Status := set_broken true (status_error ConnectionFailed []).

Lemma breaker_refines_witness :
  let es := [EBefore status_OK 1; EAfter broken status_OK 2; EBefore status_OK 3;
             EAfter broken status_OK 4; EBefore status_OK 5; EBefore status_OK 5000004;
             EBefore status_OK 5000005; EAfter status_OK status_OK 5000006] in
  fst (trace (breaker_step sample_breaker ($"db")) es breaker_init) =
    [true; true; true; true; false; true; false; true] /\
  fst (trace (breaker_step sample_breaker ($"db")) es breaker_init) =
    fst (trace (spec_event sample_breaker) es (Closed 0)).
Proof.
  cbn zeta. split; [reflexivity|].
  pose proof (breaker_refines sample_breaker ($"db")
    [EBefore status_OK 1; EAfter broken status_OK 2; EBefore status_OK 3;
     EAfter broken status_OK 4; EBefore status_OK 5; EBefore status_OK 5000004;
     EBefore status_OK 5000005; EAfter status_OK status_OK 5000006]) as H.
  assert (Ht : (0 < failure_threshold sample_breaker)%Z) by (cbn; lia).
  assert (Hi : (0 <= open_interval_ms sample_breaker)%Z) by (cbn; lia).
  specialize (H Ht Hi ltac:(repeat constructor; cbn; lia)).
  destruct (trace (breaker_step _ _) _ _), (trace (spec_event _) _ _). apply H.
Defined.

(** ** Retry *)

Lemma backoff_bounds n d m :
  (0 < d)%Z -> (Z.min d m <= backoff_loop n d m <= Z.max d m)%Z.
Proof.
  revert d; induction n as [|n IH]; intros d Hd; cbn [backoff_loop]; [lia|].
  destruct (d <? m)%Z eqn:E; [|lia]. apply Z.ltb_lt in E.
  specialize (IH (Z.min (d * 2) m) ltac:(lia)). lia.
Qed.

Lemma backoff_closed n d m :
  (0 < d)%Z -> backoff_loop n d m = if (d <? m)%Z then Z.min (d * 2 ^ Z.of_nat n) m else d.
Proof.
  revert d; induction n as [|n IH]; intros d Hd; cbn [backoff_loop].
  - destruct (d <? m)%Z eqn:E; [apply Z.ltb_lt in E|done]. rewrite Z.pow_0_r. lia.
  - destruct (d <? m)%Z eqn:E; [apply Z.ltb_lt in E|done]. rewrite IH by lia.
    rewrite Nat2Z.inj_succ, Z.pow_succ_r by lia.
    assert (0 < 2 ^ Z.of_nat n)%Z by (apply Z.pow_pos_nonneg; lia).
    destruct (Z.min (d * 2) m <? m)%Z eqn:E2.
    + apply Z.ltb_lt in E2. replace (Z.min (d * 2) m) with (d * 2)%Z by lia. f_equal. lia.
    + apply Z.ltb_ge in E2. nia.
Qed.

Lemma retryDelay_range rc attempt jitter :
  (0 <= max_backoff_ms rc)%Z ->
  (forall range, 0 < range -> 0 <= jitter range < range)%Z ->
  (0 <= retryDelay rc attempt jitter <= max_backoff_ms rc)%Z.
Proof.
  intros Hm Hj. unfold retryDelay. destruct (initial_backoff_ms rc <=? 0)%Z eqn:E; [lia|].
  apply Z.leb_gt in E. set (d := backoff_loop _ _ _).
  pose proof (backoff_bounds (Z.to_nat (attempt - 1)) (initial_backoff_ms rc) (max_backoff_ms rc) E).
  assert (0 <= d)%Z by (unfold d; lia).
  pose proof (Hj (jitter_range d) ltac:(unfold jitter_range; lia)). lia.
Qed.

(** Backoff is exponential, jittered and capped: the wait after attempt [k]
    lies between [min(max, initial * 2^(k-1))] and that plus a quarter, never
    above [max_backoff_ms] and never negative; no backoff is configured by a
    non-positive initial value. *)
Theorem retryDelay_bounds (rc : RetryConfig) (attempt : Z) (jitter : Z -> Z) :
  (0 <= max_backoff_ms rc)%Z -> (1 <= attempt)%Z ->
  (forall range, 0 < range -> 0 <= jitter range < range)%Z ->
  let base := Z.min (max_backoff_ms rc) (initial_backoff_ms rc * 2 ^ (attempt - 1)) in
  ((initial_backoff_ms rc <= 0)%Z -> retryDelay rc attempt jitter = 0%Z) /\
  ((0 < initial_backoff_ms rc)%Z ->
   (base <= retryDelay rc attempt jitter <= Z.min (max_backoff_ms rc) (base + base / 4))%Z).
Proof.
  intros Hm Ha Hj base. unfold retryDelay. split; intros Hi.
  { by rewrite (proj2 (Z.leb_le _ 0) Hi). }
  rewrite (proj2 (Z.leb_gt _ 0) Hi), backoff_closed by done. rewrite Z2Nat.id by lia.
  set (p := (2 ^ (attempt - 1))%Z). set (i := initial_backoff_ms rc). set (m := max_backoff_ms rc).
  assert (0 < p)%Z by (apply Z.pow_pos_nonneg; lia). fold p i m in base. fold i m in Hi, Hm.
  set (d := if (i <? m)%Z then Z.min (i * p) m else i).
  assert (Hd : (0 < d)%Z /\ (base = Z.min m d)%Z).
  { unfold d, base. destruct (i <? m)%Z eqn:E; [apply Z.ltb_lt in E|apply Z.ltb_ge in E]; nia. }
  pose proof (Hj (jitter_range d) ltac:(unfold jitter_range; lia)) as Hr.
  unfold jitter_range in *. rewrite Z.quot_div_nonneg in * by lia.
  assert (0 <= d / 4)%Z by (apply Z.div_pos; lia). destruct Hd as [Hd Hb].
  split; [lia|]. destruct (Z.le_gt_cases m d).
  - assert (0 <= base / 4)%Z by (apply Z.div_pos; lia). lia.
  - replace base with d by lia. lia.
Qed.

Lemma retryDelay_bounds_witness :
  (400 <= retryDelay (mkRetryConfig 5 100 10000 true) 3 (fun r => r - 1) <= 500)%Z.
Proof.
  apply (retryDelay_bounds (mkRetryConfig 5 100 10000 true) 3 (fun r => r - 1)%Z);
    cbn; try lia; intros; lia.
Defined.

Section RetryLoop.
Context {T : Type}.
Variable bc : CircuitBreakerConfig.
Variable rc : RetryConfig.
Variable name : str.
Variable prepare : nat -> T -> T.
Variable env : nat -> Attempt T.

  (** The output before attempt [k + 1], when all the attempts before it ran. *)
Fixpoint out_at (k : nat) (out : T) : T :=
  match k with
  | O => out
  | S k' => snd (attempt_run prepare env k' (out_at k' out))
  end.

Definition status_at (k : nat) (out : T) : Status := fst (attempt_run prepare env k (out_at k out)).

  (** The loop's contract, from attempt [k] on with [left] attempts left. *)
Definition loop_ok (k left : nat) (out : T) (waits : list Z) (r : LoopResult T) : Prop :=
  k <= l_runs r <= k + left /\
  (forall i, k <= i -> S i < l_runs r ->
     status_ok (status_at i out) = false /\ retryable (status_at i out) = true) /\
  length (l_waits r) <= length waits + (left - 1) /\
  l_out r = out_at (l_runs r) out /\
  ((exists i, k <= i /\ l_runs r = S i /\ l_status r = status_at i out /\
      (status_ok (l_status r) = true \/ retryable (l_status r) = false \/ l_runs r = k + left)) \/
   (exists b, l_status r = fst (beforeAttempt bc name (at_stop (env (l_runs r))) (at_now (env (l_runs r))) b) /\
      status_ok (l_status r) = false /\ l_runs r < k + left)).

Lemma attempt_loop_ok left k status out b waits :
  0 < left ->
  loop_ok k left out waits
    (attempt_loop bc rc name prepare env left k status (out_at k out) b waits).
Proof.
  revert k status b waits; induction left as [|left IH]; intros k status b waits Hl; [lia|].
  cbn [attempt_loop].
  destruct (beforeAttempt bc name _ _ b) as [gate b1] eqn:Eg.
  destruct (status_ok gate) eqn:Ego; cbn [negb].
  2: { unfold loop_ok. cbn. repeat split; try lia. right. exists b. rewrite Eg. auto with lia. }
  destruct (attempt_run prepare env k (out_at k out)) as [st out'] eqn:Er.
  assert (Es : st = status_at k out) by (unfold status_at; by rewrite Er).
  assert (Eo : out' = out_at (S k) out) by (cbn; by rewrite Er).
  destruct (status_ok st) eqn:Est.
  { unfold loop_ok. cbn [l_runs l_waits l_out l_status].
    repeat split; try lia; [done|]. left. exists k. auto. }
  destruct (negb (retryable st) || (left =? 0)) eqn:En.
  { unfold loop_ok. cbn [l_runs l_waits l_out l_status].
    repeat split; try lia; [done|]. left. exists k. repeat split; auto; [].
    apply orb_prop in En as [Hn%negb_true_iff|Hn%Nat.eqb_eq]; [by auto|]. right. right. lia. }
  apply orb_false_iff in En as [Hr%negb_false_iff Hn%Nat.eqb_neq]. rewrite Eo.
  pose proof (IH (S k) st (afterAttempt bc st (at_stop_after (env k)) (at_now_after (env k)) b1)
    (waits ++ [retryDelay rc (Z.of_nat (S k)) (at_jitter (env k))]) ltac:(lia)) as (H1 & H2 & H3 & H4 & H5).
  set (r := attempt_loop _ _ _ _ _ _ _ _ _ _ _) in *.
  split; [lia|]. split.
  { intros i Hi1 Hi2. destruct (decide (i = k)) as [->|]; [by rewrite <- Es|]. apply H2; lia. }
  rewrite length_app in H3. cbn [length] in H3. split; [lia|]. split; [done|].
  destruct H5 as [(i & Hi1 & Hi2 & Hi3 & Hi4)|(b' & Hb1 & Hb2 & Hb3)].
  - left. exists i. repeat split; auto; [lia|]. destruct Hi4 as [?|[?|?]]; auto. right. right. lia.
  - right. exists b'. repeat split; auto. lia.
Qed.
End RetryLoop.

Lemma read_attempts_pos rc : 0 < read_attempts rc.
Proof. unfold read_attempts. lia. Qed.
Lemma write_attempts_pos rc idem : 0 < resolveWriteAttempts rc idem.
Proof. unfold resolveWriteAttempts. destruct idem; [destruct (retry_writes rc)|..]; lia. Qed.

(** A query runs at most [max(1, max_attempts)] times and waits between runs
    only.  It is run again only after a retryable failure, and its answer is
    that of its last run (or the gate's refusal of the next).  When it succeeds
    after retries the rows are those its last run wrote into an empty result
    set: no row of a failed attempt survives. *)
Theorem query_retry_exact (n : Node) (env : nat -> Attempt ResultSet) (out : ResultSet) (b : Breaker) :
  let r := query_attempts n env out b in
  l_runs r <= read_attempts (n_retry n) /\ length (l_waits r) <= read_attempts (n_retry n) - 1 /\
  (forall i, S i < l_runs r ->
     status_ok (status_at clear_after_first env i out) = false /\
     retryable (status_at clear_after_first env i out) = true) /\
  (status_ok (l_status r) = true ->
   exists i, l_runs r = S i /\ status_ok (at_borrow (env i)) = true /\
     (l_status r, l_out r) = at_run (env i) (if i =? 0 then out else rs_empty)).
Proof.
  cbn zeta. pose proof (attempt_loop_ok (n_breaker n) (n_retry n) (n_name n) clear_after_first env
    (read_attempts (n_retry n)) 0 status_OK out b [] (read_attempts_pos _)) as (H1 & H2 & H3 & H4 & H5).
  cbn [out_at] in *. fold (query_attempts n env out b) in H1, H2, H3, H4, H5.
  set (r := query_attempts n env out b) in *. split; [lia|]. split; [cbn in H3; lia|].
  split; [intros i Hi; apply H2; lia|]. intros Hok.
  destruct H5 as [(i & _ & Hi2 & Hi3 & _)|(b' & _ & Hb & _)]; [|congruence].
  exists i. split; [done|]. rewrite Hi3 in Hok. rewrite H4, Hi2, Hi3.
  unfold status_at in *. cbn [out_at]. unfold attempt_run in *.
  destruct (status_ok (at_borrow (env i))) eqn:Eb; [|cbn in Hok; congruence].
  split; [done|]. unfold clear_after_first. destruct i as [|i]; cbn [Nat.ltb Nat.leb Nat.eqb].
  all: by rewrite <- surjective_pairing.
Qed.

Definition flaky (k : nat) : Attempt ResultSet :=
  mkAttempt status_OK (Z.of_nat k + 1) status_OK
    (fun out => if k <? 2 then (set_retryable true (status_error Deadlock []), rs_addRow (mkRow []) out)
                else (status_OK, rs_addRow (mkRow [($"k", VInt64 7)]) out))
    status_OK (Z.of_nat k + 1) (fun _ => 0%Z).
Definition sample_node (name : str) : Node :=
  mkNode name (mkRetryConfig 3 10 100 false) (mkBreakerConfig 5 5) false false.

Lemma query_retry_exact_witness :
  exists i, l_runs (query_attempts (sample_node ($"db")) flaky rs_empty breaker_init) = S i /\
    rows (l_out (query_attempts (sample_node ($"db")) flaky rs_empty breaker_init)) =
      [mkRow [($"k", VInt64 7)]].
Proof.
  destruct (query_retry_exact (sample_node ($"db")) flaky rs_empty breaker_init) as (_ & _ & _ & H).
  destruct H as (i & Hi & _); [reflexivity|]. exists i. split; [exact Hi|reflexivity].
Defined.

(** A write declared non-idempotent, or undeclared while [retry_writes] is off,
    is run at most once; otherwise at most [max(1, max_attempts)] times and only
    after retryable failures.  [affected] is what the last run reported, starting
    from zero. *)
Theorem write_retry_exact (n : Node) (idem : Idempotency) (env : nat -> Attempt Z) (a : Z) (b : Breaker) :
  let r := write_attempts n idem env a b in
  l_runs r <= resolveWriteAttempts (n_retry n) idem /\
  (idem = NonIdempotent \/ idem = Unspecified /\ retry_writes (n_retry n) = false -> l_runs r <= 1) /\
  (forall i, S i < l_runs r ->
     status_ok (status_at (fun _ _ => 0%Z) env i a) = false /\
     retryable (status_at (fun _ _ => 0%Z) env i a) = true) /\
  (status_ok (l_status r) = true ->
   exists i, l_runs r = S i /\ status_ok (at_borrow (env i)) = true /\
     (l_status r, l_out r) = at_run (env i) 0%Z).
Proof.
  cbn zeta. pose proof (attempt_loop_ok (n_breaker n) (n_retry n) (n_name n) (fun _ _ => 0%Z) env
    (resolveWriteAttempts (n_retry n) idem) 0 status_OK a b [] (write_attempts_pos _ _))
    as (H1 & H2 & H3 & H4 & H5).
  cbn [out_at] in *. fold (write_attempts n idem env a b) in H1, H2, H3, H4, H5.
  set (r := write_attempts n idem env a b) in *. split; [lia|]. split.
  { intros [->|[-> Hw]]; unfold resolveWriteAttempts in H1; [lia|]. rewrite Hw in H1. lia. }
  split; [intros i Hi; apply H2; lia|]. intros Hok.
  destruct H5 as [(i & _ & Hi2 & Hi3 & _)|(b' & _ & Hb & _)]; [|congruence].
  exists i. split; [done|]. rewrite Hi3 in Hok. rewrite H4, Hi2, Hi3.
  unfold status_at in *. cbn [out_at]. unfold attempt_run in *.
  destruct (status_ok (at_borrow (env i))) eqn:Eb; [|cbn in Hok; congruence].
  split; [done|]. by rewrite <- surjective_pairing.
Qed.

Lemma write_retry_exact_witness :
  l_runs (write_attempts (sample_node ($"db")) Unspecified
            (fun _ => mkAttempt status_OK 1 status_OK (fun _ => (set_retryable true (status_error Deadlock []), 5%Z))
                        status_OK 1 (fun _ => 0%Z)) 9 breaker_init) <= 1.
Proof. apply write_retry_exact. right. split; reflexivity. Defined.

