(* ===== verification/DataSource.v ===== *)
(** * DataSource: leaf and group operations over shared state

    Models the query and write paths of [core::DataSource]
    (src/core/database_manager.cpp) above the attempt loops of Resilience.v:
    [queryUngated] and [executeUngated] on leaves and groups, [readTarget],
    [writeTargets], [safeToFailoverWrite], [dispatchWrite], [markWrite] and
    [runWithInterceptors].  The shared state (context stack, result cache,
    breakers, time of the last group write) is one record that every operation
    threads.  The cache is any implementation of the [ResultCache] interface;
    the witnesses use the one of QueryCache.v.  A routing decision reads the
    clock once. *)

From S2P Require Import Prelude Types ResultCache Context QueryCache CacheKey Resilience.

(** ** Data sources and the state they share *)

Record Group : Type := mkGroup {
  g_name : str;
  g_primary : Node;
  g_replicas : list Node;
  g_failover : list (option Node);
  g_shadow : option Node;
  g_readAfterWrite_ms : Z;
  g_fallbackToPrimary : bool;
  g_requireHealthy : bool
}.

(** [w_sent] observes the drivers and is read by no operation: the writes they were
    handed, as nodes with the number of the attempt. *)
Record World (C : Type) : Type := mkWorld {
  w_frames : frames;
  w_cache : C;
  w_breakers : gmap str Breaker;
  w_lastWriteNs : Z;
  w_sent : list (Node * nat)
}.
Arguments mkWorld {C}.
Arguments w_frames {C} _.
Arguments w_cache {C} _.
Arguments w_breakers {C} _.
Arguments w_lastWriteNs {C} _.
Arguments w_sent {C} _.

(** A dispatched write: its status, [affected], the state, the nodes the write
    ran on with their statuses, and whether it was buffered. *)
Record Dispatch (C : Type) : Type := mkDispatch {
  d_status : Status;
  d_affected : Z;
  d_world : World C;
  d_tried : list (Node * Status);
  d_buffered : bool
}.
Arguments mkDispatch {C}.
Arguments d_status {C} _.
Arguments d_affected {C} _.
Arguments d_world {C} _.
Arguments d_tried {C} _.
Arguments d_buffered {C} _.

(** What a query does on each node. *)
Record QueryEnv : Type := mkQueryEnv {
  qe_attempts : Node -> nat -> Attempt ResultSet; qe_get : Z; qe_put : Z
}.

Section DataSource.
Context {C : Type} {RC : ResultCache C}.

Definition breaker_of (w : World C) (n : Node) : Breaker :=
  default breaker_init (w_breakers w !! n_name n).

Definition set_frames (f : frames) (w : World C) : World C :=
  mkWorld f (w_cache w) (w_breakers w) (w_lastWriteNs w) (w_sent w).
Definition set_cache (c : C) (w : World C) : World C :=
  mkWorld (w_frames w) c (w_breakers w) (w_lastWriteNs w) (w_sent w).
Definition set_breaker (n : Node) (b : Breaker) (w : World C) : World C :=
  mkWorld (w_frames w) (w_cache w) (<[n_name n := b]> (w_breakers w)) (w_lastWriteNs w) (w_sent w).
Definition set_lastWrite (t : Z) (w : World C) : World C :=
  mkWorld (w_frames w) (w_cache w) (w_breakers w) t (w_sent w).
Definition set_sent (l : list (Node * nat)) (w : World C) : World C :=
  mkWorld (w_frames w) (w_cache w) (w_breakers w) (w_lastWriteNs w) l.

(** [markWrite] on a leaf. *)
Definition markWrite_leaf (n : Node) (w : World C) : World C :=
  set_frames (pinRequestWrite (w_frames w)) (set_cache (rc_invalidate (n_name n) (w_cache w)) w).

(** [markWrite] on a group: the names it invalidates, in order. *)
Definition group_names (g : Group) : list str :=
  g_name g :: n_name (g_primary g) :: map n_name (g_replicas g) ++ map n_name (omap id (g_failover g)).

Definition markWrite_group (g : Group) (now : Z) (w : World C) : World C :=
  set_cache (invalidate_list (group_names g) (w_cache w)) (set_lastWrite now w).

(** ** Leaf operations *)

Definition caching (n : Node) (w : World C) : bool :=
  rc_enabled (w_cache w) && (negb (rc_replicaOnly (w_cache w)) || n_readReplica n) &&
  negb (shadow (current (w_frames w))).

(** [queryUngated] on a leaf: [now_get] and [now_put] are the cache's clock
    readings. *)
Definition query_leaf (n : Node) (sql : str) (params : Params) (env : nat -> Attempt ResultSet)
    (now_get now_put : Z) (out : ResultSet) (w : World C) : Status * ResultSet * World C :=
  let c := caching n w in
  let key := cacheKey sql params in
  let '(hit, w) := if c then let '(h, q) := rc_get now_get (n_name n) key (w_cache w) in (h, set_cache q w)
                   else (None, w) in
  match hit with
  | Some rs => (status_OK, rs, w)
  | None =>
      let r := query_attempts n env out (breaker_of w n) in
      let w := set_breaker n (l_breaker r) w in
      let w := if status_ok (l_status r) && c
               then set_cache (rc_put now_put (n_name n) key (l_out r) (w_cache w)) w
               else w in
      (l_status r, l_out r, w)
  end.

(** The attempts below [runs] that had a session, and so handed the statement to the
    driver. *)
Definition handed (n : Node) (env : nat -> Attempt Z) (runs : nat) : list (Node * nat) :=
  map (pair n) (List.filter (fun k => status_ok (at_borrow (env k))) (seq 0 runs)).

(** [executeUngated] on a leaf; the output is [affected]. *)
Definition execute_leaf (n : Node) (env : nat -> Attempt Z) (affected : Z) (w : World C)
    : Status * Z * World C :=
  let r := write_attempts n (idempotency (current (w_frames w))) env affected (breaker_of w n) in
  let w := set_sent (w_sent w ++ handed n env (l_runs r)) (set_breaker n (l_breaker r) w) in
  let w := if status_ok (l_status r) then markWrite_leaf n w else w in
  (l_status r, l_out r, w).

(** ** Routing *)

Definition node_open (now : Z) (w : World C) (n : Node) : bool :=
  isCircuitOpen (n_breaker n) now (breaker_of w n).

(** The replica loop, from [start] with [left] candidates to try. *)
Fixpoint replica_loop (replicas : list Node) (now : Z) (w : World C) (start offset left : nat)
    : option Node :=
  match left with
  | O => None
  | S left' =>
      match replicas !! ((start + offset) mod length replicas) with
      | Some candidate =>
          if negb (node_open now w candidate) then Some candidate
          else replica_loop replicas now w start (S offset) left'
      | None => None
      end
  end.

Definition shadow_target (g : Group) (w : World C) : option Node :=
  if shadow (current (w_frames w)) then g_shadow g else None.

(** [round] is the thread's round-robin counter. *)
Definition readTarget (g : Group) (now : Z) (round : nat) (w : World C) : Node :=
  match shadow_target g w with
  | Some s => s
  | None =>
      if wroteInThisRequest (current (w_frames w)) then g_primary g
      else if (0 <? g_readAfterWrite_ms g)%Z &&
              ((0 <? w_lastWriteNs w)%Z &&
               (now - w_lastWriteNs w <? g_readAfterWrite_ms g * 1000000)%Z) then g_primary g
      else if length (g_replicas g) =? 0 then g_primary g
      else default (g_primary g)
             (replica_loop (g_replicas g) now w (round mod length (g_replicas g)) 0
                (length (g_replicas g)))
  end.

Definition writeTargets (g : Group) (now : Z) (w : World C) : list Node :=
  match shadow_target g w with
  | Some s => [s]
  | None =>
      if length (g_failover g) =? 0 then [g_primary g]
      else List.filter (fun n => negb (node_open now w n) && negb (g_requireHealthy g && n_poolExpired n))
             (omap id (g_failover g))
  end.

Definition safeToFailoverWrite (status : Status) : bool :=
  match code_ status with
  | ConnectionFailed => negb (connectionBroken status) && bool_decide (sqlState status = [])
  | PoolExhausted | PoolClosed | CircuitOpen | DriverDisabled => true
  | _ => false
  end.

(** ** Group operations *)

Definition fallback_status (st : Status) : bool :=
  retryable st || connectionBroken st || code_eqb (code_ st) CircuitOpen.

Definition query_group (g : Group) (sql : str) (params : Params) (e : QueryEnv) (now : Z) (round : nat)
    (out : ResultSet) (w : World C) : Status * ResultSet * World C :=
  let target := readTarget g now round w in
  let '(st, out, w) := query_leaf target sql params (qe_attempts e target) (qe_get e) (qe_put e) out w in
  if negb (n_name target =s n_name (g_primary g)) && g_fallbackToPrimary g && fallback_status st then
    query_leaf (g_primary g) sql params (qe_attempts e (g_primary g)) (qe_get e) (qe_put e)
      (rs_clear out) w
  else (st, out, w).

(** The failover loop; [inr] falls through to the buffer. *)
Fixpoint try_targets (g : Group) (env : Node -> nat -> Attempt Z) (now : Z) (targets : list Node)
    (status : Status) (affected : Z) (w : World C) (tried : list (Node * Status)) : Dispatch C + Dispatch C :=
  match targets with
  | [] => inr (mkDispatch status affected w tried false)
  | t :: rest =>
      let '(st, affected, w) := execute_leaf t (env t) 0 w in
      let tried := tried ++ [(t, st)] in
      if status_ok st then inl (mkDispatch st affected (markWrite_group g now w) tried false)
      else if negb (safeToFailoverWrite st) then inl (mkDispatch st affected w tried false)
      else try_targets g env now rest st affected w tried
  end.

Definition no_primary (g : Group) : Status :=
  set_retryable true (status_error CircuitOpen
    ($"group '" ++ g_name g ++ $"': no writable primary available")).

Definition buffered_status (g : Group) : Status :=
  status_error Buffered ($"group '" ++ g_name g ++ $"': write accepted into buffer, not yet committed").

(** [dispatchWrite] as [executeUngated] on a group calls it.  [enq] is the
    write buffer's answer to [enqueue], [None] when the write is not offered. *)
Definition dispatchWrite (g : Group) (env : Node -> nat -> Attempt Z) (now : Z) (enq : option bool)
    (affected : Z) (w : World C) : Dispatch C :=
  match shadow_target g w with
  | Some s =>
      let '(st, a, w) := execute_leaf s (env s) 0 w in mkDispatch st a w [(s, st)] false
  | None =>
      match try_targets g env now (writeTargets g now w) (no_primary g) affected w [] with
      | inl d => d
      | inr d =>
          match enq with
          | Some true => mkDispatch (buffered_status g) (d_affected d) (d_world d) (d_tried d) true
          | _ => d
          end
      end
  end.

(** [runWithInterceptors]: [active] is the guard's state, [before] the
    interceptors' verdict and [ctx] the context they routed. *)
Definition runWithInterceptors {R} (active : bool) (before : Status) (ctx : SqlContext)
    (refused : Status -> R) (get_world : R -> World C) (put_world : World C -> R -> R)
    (fn : World C -> R) (w : World C) : R :=
  if negb active then fn w
  else if negb (status_ok before) then refused before
  else
    let '(f, entered) := scope_enter ctx (w_frames w) in
    let r := fn (set_frames f w) in
    put_world (set_frames (scope_exit entered (w_frames (get_world r))) (get_world r)) r.

Definition set_dispatch_world (w : World C) (d : Dispatch C) : Dispatch C :=
  mkDispatch (d_status d) (d_affected d) w (d_tried d) (d_buffered d).

(** [execute] on a group, past [preGate]. *)
Definition execute_group (g : Group) (env : Node -> nat -> Attempt Z) (now : Z) (enq : option bool)
    (active : bool) (before : Status) (ctx : SqlContext) (affected : Z) (w : World C) : Dispatch C :=
  runWithInterceptors active before ctx (fun st => mkDispatch st affected w [] false) d_world
    set_dispatch_world (dispatchWrite g env now enq affected) w.
(** The task [executeUngated] on a group hands to the write buffer: it replays the
    statement on the primary. *)
Definition buffered_task (g : Group) (env : Node -> nat -> Attempt Z) (w : World C) : Status * World C :=
  let '(st, _, w) := execute_leaf (g_primary g) (env (g_primary g)) 0 w in (st, w).

End DataSource.

Section Properties.
Context {C : Type} {RC : ResultCache C}.

(** ** Routing *)

(** The replica loop finds the first closed candidate in rotation order. *)
Lemma replica_loop_spec rs now (w : World C) start offset left :
  rs <> [] ->
  match replica_loop rs now w start offset left with
  | Some n => n ∈ rs /\ node_open now w n = false
  | None => forall j n, offset <= j < offset + left -> rs !! ((start + j) mod length rs) = Some n ->
                        node_open now w n = true
  end.
Proof.
  intros Hrs. revert offset; induction left as [|left IH]; intros offset; cbn [replica_loop]; [lia|].
  assert (Hlt : (start + offset) mod length rs < length rs)
    by (apply Nat.mod_upper_bound; by destruct rs).
  destruct (lookup_lt_is_Some_2 rs _ Hlt) as [c Hc]. rewrite Hc.
  destruct (node_open now w c) eqn:Ec; cbn [negb]; [|split; [by eapply list_elem_of_lookup_2|done]].
  specialize (IH (S offset)). destruct (replica_loop rs now w start (S offset) left); [done|].
  intros j n Hj Hn. destruct (decide (j = offset)) as [->|]; [congruence|]. apply (IH j); [lia|done].
Qed.

(** Every replica is among the candidates. *)
Lemma rotation_covers {A} (rs : list A) start n :
  start < length rs -> n ∈ rs -> exists j, 0 <= j < length rs /\ rs !! ((start + j) mod length rs) = Some n.
Proof.
  intros Hs [i Hi]%list_elem_of_lookup. pose proof (lookup_lt_Some _ _ _ Hi).
  destruct (decide (start <= i)).
  - exists (i - start). split; [lia|]. by rewrite Nat.mod_small, Nat.add_comm, Nat.sub_add by lia.
  - exists (i + length rs - start). split; [lia|].
    replace (start + (i + length rs - start)) with (i + 1 * length rs) by lia.
    by rewrite Nat.Div0.mod_add, Nat.mod_small by lia.
Qed.

Definition pinned (g : Group) (now : Z) (w : World C) : bool :=
  wroteInThisRequest (current (w_frames w)) ||
  ((0 <? g_readAfterWrite_ms g)%Z && ((0 <? w_lastWriteNs w)%Z &&
   (now - w_lastWriteNs w <? g_readAfterWrite_ms g * 1000000)%Z)).

(** Reads are routed as documented.  A shadow request reads the shadow source.
    Any other request reads the primary when it wrote in this request or within
    the read-after-write window; otherwise it reads a replica whose circuit is
    closed if there is one, and the primary when there is none. *)
Theorem read_routing (g : Group) (now : Z) (round : nat) (w : World C) :
  let t := readTarget g now round w in
  match shadow_target g w with
  | Some s => t = s
  | None =>
      if pinned g now w then t = g_primary g
      else (exists n, n ∈ g_replicas g /\ node_open now w n = false) /\
           t ∈ g_replicas g /\ node_open now w t = false \/
           (forall n, n ∈ g_replicas g -> node_open now w n = true) /\ t = g_primary g
  end.
Proof.
  cbn zeta. unfold readTarget, pinned. destruct (shadow_target g w) as [s|]; [done|].
  destruct (wroteInThisRequest _); [done|]. cbn [orb].
  destruct ((0 <? g_readAfterWrite_ms g)%Z && _); [done|].
  destruct (length (g_replicas g) =? 0) eqn:El.
  { apply Nat.eqb_eq, length_zero_iff_nil in El. rewrite El. right. split; [|done].
    by intros n ?%not_elem_of_nil. }
  apply Nat.eqb_neq in El. assert (Hrs : g_replicas g <> []) by (by destruct (g_replicas g)).
  pose proof (replica_loop_spec (g_replicas g) now w (round mod length (g_replicas g)) 0
                (length (g_replicas g)) Hrs) as H.
  destruct (replica_loop _ _ _ _ _ _) as [n|]; cbn [default].
  - left. destruct H. eauto.
  - right. split; [|done]. intros n Hn.
    destruct (rotation_covers (g_replicas g) (round mod length (g_replicas g)) n) as (j & Hj & Hl);
      [by apply Nat.mod_upper_bound|done|]. apply (H j n); [lia|done].
Qed.

(** A sum of [n] consecutive values of an [n]-periodic function does not depend
    on where it starts; here for lists up to permutation. *)
Lemma periodic_perm {A} (f : nat -> A) n r :
  (forall i, f (i + n) = f i) -> map f (seq r n) ≡ₚ map f (seq 0 n).
Proof.
  intros Hf. induction r as [|r IH]; [done|]. rewrite <- IH.
  assert (H : f r :: map f (seq (S r) n) = map f (seq r n) ++ [f (r + n)]).
  { change (f r :: map f (seq (S r) n)) with (map f (seq r (S n))).
    by rewrite seq_S, map_app. }
  rewrite Hf in H. apply (Permutation_cons_inv (a := f r)). rewrite H. apply Permutation_app_comm.
Qed.

Lemma map_lookup_seq {A} (d : A) (l : list A) :
  map (fun i => default d (l !! i)) (seq 0 (length l)) = l.
Proof.
  apply list_eq. intros i. destruct (decide (i < length l)) as [Hi|Hi].
  - destruct (lookup_lt_is_Some_2 l i Hi) as [x Hx]. rewrite Hx.
    change (map ?f ?l) with (fmap f l). rewrite list_lookup_fmap, lookup_seq_lt by done.
    cbn. by rewrite Hx.
  - rewrite !lookup_ge_None_2; [done|lia|]. rewrite length_map, length_seq. lia.
Qed.

(** Reads are spread evenly: while every replica's circuit is closed and the
    request is neither pinned nor shadowed, any [length replicas] consecutive
    reads of a thread go to each (weighted) replica entry exactly once. *)
Theorem read_rotation (g : Group) (now : Z) (round : nat) (w : World C) :
  shadow_target g w = None -> pinned g now w = false ->
  Forall (fun n => node_open now w n = false) (g_replicas g) ->
  map (fun r => readTarget g now r w) (seq round (length (g_replicas g))) ≡ₚ g_replicas g.
Proof.
  intros Hs Hp Hc. set (rs := g_replicas g) in *.
  destruct (decide (rs = [])) as [->|Hne]; [done|].
  assert (Hl : 0 < length rs) by (destruct rs; [done|cbn; lia]).
  set (f := fun r => default (g_primary g) (rs !! (r mod length rs))).
  assert (Hf : forall r, readTarget g now r w = f r).
  { intros r. unfold readTarget. fold rs. rewrite Hs. unfold pinned in Hp.
    apply orb_false_iff in Hp as [-> ->]. rewrite (proj2 (Nat.eqb_neq (length rs) 0)) by lia.
    destruct (length rs) as [|k] eqn:E; [lia|]. cbn [replica_loop]. rewrite Nat.add_0_r, E.
    rewrite Nat.Div0.mod_mod. unfold f.
    destruct (lookup_lt_is_Some_2 rs (r mod S k)) as [c Hn];
      [rewrite E; by apply Nat.mod_upper_bound|]. rewrite Hn.
    rewrite Forall_forall in Hc. by rewrite (Hc c) by (by eapply list_elem_of_lookup_2). }
  rewrite (map_ext _ f) by done. rewrite periodic_perm.
  - rewrite (map_ext_in f (fun i => default (g_primary g) (rs !! i)) (seq 0 (length rs))).
    + by rewrite map_lookup_seq.
    + intros i Hi%in_seq. unfold f. by rewrite Nat.mod_small by lia.
  - intros i. unfold f. replace (i + length rs) with (i + 1 * length rs) by lia.
    by rewrite Nat.Div0.mod_add.
Qed.

(** ** Write dispatch *)

(** What a leaf write does to the shared state. *)
Lemma execute_leaf_world n env a (w : World C) st a' w' :
  execute_leaf n env a w = (st, a', w') ->
  w_frames w' = (if status_ok st then pinRequestWrite (w_frames w) else w_frames w) /\
  w_cache w' = (if status_ok st then rc_invalidate (n_name n) (w_cache w) else w_cache w).
Proof.
  unfold execute_leaf. set (r := write_attempts _ _ _ _ _). intros [= <- <- <-].
  by destruct (status_ok (l_status r)).
Qed.

Definition failed_safely (ts : Node * Status) : Prop :=
  status_ok (snd ts) = false /\ safeToFailoverWrite (snd ts) = true.

(** The failover loop's contract: what it adds to [tried], and why it stopped. *)
Lemma try_targets_spec g env now targets status a (w : World C) tried :
  exists done : list (Node * Status),
  match try_targets g env now targets status a w tried with
  | inl d =>
      d_tried d = tried ++ done /\ d_buffered d = false /\
      exists pre n rest w0 w1, targets = done.*1 ++ rest /\ done = pre ++ [(n, d_status d)] /\
        Forall failed_safely pre /\ execute_leaf n (env n) 0 w0 = (d_status d, d_affected d, w1) /\
        w_frames w0 = w_frames w /\ w_cache w0 = w_cache w /\
        (if status_ok (d_status d) then d_world d = markWrite_group g now w1
         else safeToFailoverWrite (d_status d) = false /\ d_world d = w1)
  | inr d =>
      d_tried d = tried ++ done /\ d_buffered d = false /\ targets = done.*1 /\
      Forall failed_safely done /\ d_status d = default status (snd <$> last done) /\
      w_frames (d_world d) = w_frames w /\ w_cache (d_world d) = w_cache w
  end.
Proof.
  revert status a w tried; induction targets as [|t rest IH]; intros status a w tried; cbn [try_targets].
  { exists []. cbn. by rewrite app_nil_r. }
  destruct (execute_leaf t (env t) 0 w) as [[st a1] w1] eqn:Ee.
  pose proof (execute_leaf_world _ _ _ _ _ _ _ Ee) as [Hf Hc].
  destruct (status_ok st) eqn:Eo.
  { exists [(t, st)]. cbn. do 2 (split; [done|]). exists [], t, rest, w, w1.
    rewrite Eo. by split_and!. }
  destruct (safeToFailoverWrite st) eqn:Es; cbn [negb].
  2: { exists [(t, st)]. cbn. do 2 (split; [done|]). exists [], t, rest, w, w1.
       rewrite Eo. by split_and!. }
  destruct (IH st a1 w1 (tried ++ [(t, st)])) as [l Hl]. exists ((t, st) :: l).
  assert (Hfs : failed_safely (t, st)) by done.
  destruct (try_targets g env now rest st a1 w1 (tried ++ [(t, st)])) as [d|d].
  - destruct Hl as (H1 & H2 & pre & n & rest' & w0 & w2 & H3 & H4 & H5 & H6 & H7 & HL & H8).
    rewrite <- app_assoc in H1. do 2 (split; [done|]).
    exists ((t, st) :: pre), n, rest', w0, w2. cbn. rewrite H3, <- Hf, <- Hc.
    split_and!; auto. by rewrite H4.
  - destruct Hl as (H1 & H2 & H3 & H4 & H5 & H6). rewrite <- app_assoc in H1.
    do 2 (split; [done|]). cbn [fmap list_fmap fst]. rewrite H3. split; [done|]. split; [by constructor|].
    rewrite (proj1 H6), (proj2 H6), <- Hf, <- Hc. split; [|done]. rewrite H5, last_cons. by destruct (last l).
Qed.

(** A write that is not retried hands its statement over at most once, and then the
    leaf's status is the driver's. *)
Lemma handed_once n idem env a b :
  resolveWriteAttempts (n_retry n) idem = 1 ->
  let r := write_attempts n idem env a b in
  handed n env (l_runs r) = [] \/ handed n env (l_runs r) = [(n, 0)] /\ l_status r = fst (at_run (env 0) 0%Z).
Proof.
  intros H1. cbv zeta. unfold write_attempts. rewrite H1. cbn [attempt_loop].
  destruct (beforeAttempt _ _ _ _ b) as [gate b1]. destruct (status_ok gate); cbn [negb]; [|by left].
  unfold attempt_run. destruct (status_ok (at_borrow (env 0))) eqn:Eb.
  - right. destruct (at_run (env 0) 0%Z) as [st out]. unfold handed.
    destruct (status_ok st), (retryable st); cbn; by rewrite Eb.
  - left. unfold handed. rewrite Eb. destruct (retryable (at_borrow (env 0))); cbn; by rewrite Eb.
Qed.

Lemma execute_leaf_sent n env a (w : World C) :
  let idem := idempotency (current (w_frames w)) in
  let r := write_attempts n idem env a (breaker_of w n) in
  w_sent (snd (execute_leaf n env a w)) = w_sent w ++ handed n env (l_runs r) /\
  fst (fst (execute_leaf n env a w)) = l_status r.
Proof. cbv zeta. unfold execute_leaf. cbn [fst snd]. by destruct (status_ok (l_status _)). Qed.

(** Where the statement took effect: the driver's answer is not one that failover
    takes for a refusal. *)
Definition effective (env : Node -> nat -> Attempt Z) (executed : Node -> nat -> bool) : Prop :=
  forall n k, executed n k = true -> safeToFailoverWrite (fst (at_run (env n k) 0%Z)) = false.

Definition executions (executed : Node -> nat -> bool) (log : list (Node * nat)) : list (Node * nat) :=
  List.filter (fun x => executed (fst x) (snd x)) log.

Lemma leaf_executions env executed n (w : World C) :
  effective env executed -> resolveWriteAttempts (n_retry n) (idempotency (current (w_frames w))) = 1 ->
  exists log, w_sent (snd (execute_leaf n (env n) 0 w)) = w_sent w ++ log /\
    (executions executed log = [] \/
     executions executed log = [(n, 0)] /\ fst (fst (execute_leaf n (env n) 0 w)) = fst (at_run (env n 0) 0%Z) /\
     safeToFailoverWrite (fst (at_run (env n 0) 0%Z)) = false).
Proof.
  intros He Hr. destruct (execute_leaf_sent n (env n) 0 w) as [Hs Hst]. cbv zeta in Hs, Hst. eexists. split; [exact Hs|].
  destruct (handed_once n _ (env n) 0 (breaker_of w n) Hr) as [-> |[-> H]]; [by left|].
  unfold executions. cbn [List.filter fst snd]. destruct (executed n 0) eqn:Ex; [right|by left].
  split; [done|]. split; [congruence|by apply He].
Qed.

Lemma executions_app ex l1 l2 : executions ex (l1 ++ l2) = executions ex l1 ++ executions ex l2.
Proof. apply List.filter_app. Qed.

(** The failover loop has the statement executed at most once, on the node it ends at. *)
Lemma try_targets_executions g env executed now targets status a (w : World C) tried :
  effective env executed ->
  Forall (fun n => resolveWriteAttempts (n_retry n) (idempotency (current (w_frames w))) = 1) targets ->
  exists log,
  match try_targets g env now targets status a w tried with
  | inl d =>
      w_sent (d_world d) = w_sent w ++ log /\
      (executions executed log = [] \/
       exists n, executions executed log = [(n, 0)] /\ last (d_tried d) = Some (n, fst (at_run (env n 0) 0%Z)))
  | inr d => w_sent (d_world d) = w_sent w ++ log /\ executions executed log = []
  end.
Proof.
  intros He. revert status a w tried. induction targets as [|t rest IH]; intros status a w tried Hr; cbn [try_targets].
  { exists []. by rewrite app_nil_r. }
  apply Forall_cons in Hr as [Ht Hr]. destruct (leaf_executions env executed t w He Ht) as (log & Hl & Hx).
  destruct (execute_leaf t (env t) 0 w) as [[st a1] w1] eqn:Ee. cbn [fst snd] in Hl, Hx.
  pose proof (execute_leaf_world _ _ _ _ _ _ _ Ee) as [Hf _].
  assert (Hlast : executions executed log = [] \/ exists n, executions executed log = [(n, 0)] /\
            last (tried ++ [(t, st)]) = Some (n, fst (at_run (env n 0) 0%Z))).
  { destruct Hx as [?|(? & -> & _)]; [by left|right]. exists t. by rewrite last_snoc. }
  destruct (status_ok st) eqn:Eo; [by exists log|].
  destruct (safeToFailoverWrite st) eqn:Es; cbn [negb]; [|by exists log].
  destruct Hx as [Hx|(_ & Hst & Hn)]; [|congruence]. rewrite <- Hf in Hr.
  destruct (IH st a1 w1 (tried ++ [(t, st)]) Hr) as [log' H]. exists (log ++ log').
  destruct (try_targets _ _ _ rest _ _ _ _) as [d|d]; rewrite executions_app, Hx; cbn [app];
    rewrite (proj1 H), Hl, <- app_assoc; (split; [done|apply H]).
Qed.

(** C9. Failover never duplicates a write.  The write runs on a prefix of the ordered
    targets (the shadow source alone in a shadow request) and every node before the
    last refused it with a status that failover takes for "not executed".  The dispatch
    reports the last node's status; it is buffered only when every target refused so
    and the buffer took it.  When the write is not retried, and a driver that executed
    the statement answers with no such status, the statement was executed at most once
    over all nodes, and then by the node tried last, whose answer is the result: in
    particular a buffered write was not executed. *)
Theorem dispatch_exact (g : Group) (env : Node -> nat -> Attempt Z) (now : Z) (enq : option bool)
    (a : Z) (w : World C) :
  let d := dispatchWrite g env now enq a w in
  (exists rest, writeTargets g now w = (d_tried d).*1 ++ rest) /\
  (forall i ts, d_tried d !! i = Some ts -> S i < length (d_tried d) -> failed_safely ts) /\
  (d_buffered d = true ->
   enq = Some true /\ (d_tried d).*1 = writeTargets g now w /\ Forall failed_safely (d_tried d) /\
   code_ (d_status d) = Buffered) /\
  (d_buffered d = false -> d_status d = default (no_primary g) (snd <$> last (d_tried d))) /\
  (forall executed, effective env executed ->
   Forall (fun n => resolveWriteAttempts (n_retry n) (idempotency (current (w_frames w))) = 1) (writeTargets g now w) ->
   exists log, w_sent (d_world d) = w_sent w ++ log /\
     (executions executed log = [] \/
      exists n, executions executed log = [(n, 0)] /\ d_buffered d = false /\
        last (d_tried d) = Some (n, fst (at_run (env n 0) 0%Z)))).
Proof.
  cbn zeta. unfold dispatchWrite. destruct (shadow_target g w) as [s|] eqn:Hs.
  { assert (Ew : writeTargets g now w = [s]) by (unfold writeTargets; by rewrite Hs). rewrite Ew.
    pose proof (fun ex => leaf_executions env ex s w) as Hx.
    destruct (execute_leaf s (env s) 0 w) as [[st a1] w1]. cbn [d_tried d_buffered d_status d_world fst snd] in *.
    split_and!; [by exists []| |done|done|].
    - intros [|i] ts Hi Hlt; cbn in Hlt; lia.
    - intros ex He [Hr _]%Forall_cons. destruct (Hx ex He Hr) as (log & Hl & H). exists log. split; [done|].
      destruct H as [H|(H & -> & _)]; [by left|right]. by exists s. }
  destruct (try_targets_spec g env now (writeTargets g now w) (no_primary g) a w []) as [l Hl].
  pose proof (fun ex => try_targets_executions g env ex now (writeTargets g now w) (no_primary g) a w []) as Hx.
  destruct (try_targets _ _ _ _ _ _ _ _) as [d|d].
  - destruct Hl as (H1 & H2 & pre & n & rest & w0 & w1 & H3 & H4 & H5 & _). cbn in H1. rewrite H2.
    rewrite H1 in *. split_and!; [by exists rest| |done| |].
    + intros i ts Hi Hlt. rewrite H4 in Hi, Hlt. rewrite length_app in Hlt. cbn in Hlt.
      rewrite lookup_app_l in Hi by lia. rewrite Forall_forall in H5.
      by apply H5, (list_elem_of_lookup_2 _ i).
    + intros _. by rewrite H4, last_snoc.
    + intros ex He Hr. destruct (Hx ex He Hr) as (log & Hlg & H). exists log. split; [done|].
      destruct H as [H|(m & H & Hm)]; [by left|right]. by exists m.
  - destruct Hl as (H1 & H2 & H3 & H4 & H5 & _). cbn in H1.
    assert (Hd : forall d' : Dispatch C, d_tried d' = l ->
      (exists rest, writeTargets g now w = (d_tried d').*1 ++ rest) /\
      (forall i ts, d_tried d' !! i = Some ts -> S i < length (d_tried d') -> failed_safely ts)).
    { intros d' ->. split; [exists []; by rewrite app_nil_r|]. intros i ts Hi _.
      rewrite Forall_forall in H4. by apply H4, (list_elem_of_lookup_2 _ i). }
    destruct enq as [[]|]; (split; [by apply Hd|]; split; [by apply Hd|]); cbn; rewrite ?H1, ?H2;
      (split; [by repeat split|split; [done || (intros _; exact H5)|]]);
      intros ex He Hr; destruct (Hx ex He Hr) as (log & ? & ?); exists log; auto.
Qed.

(** A primary that cannot be reached does not trigger failover: the status that
    [borrowSession] builds for a connection failure carries [connectionBroken],
    which [safeToFailoverWrite] excludes, so the dispatch stops at that primary
    although nothing was sent to it and other candidates may be healthy. *)
Theorem connection_failure_no_failover (g : Group) (env : Node -> nat -> Attempt Z) (now : Z)
    (enq : option bool) (a : Z) (w : World C) (t : Node) (rest : list Node) (err : str) :
  shadow_target g w = None -> writeTargets g now w = t :: rest ->
  (failure_threshold (n_breaker t) <= 0)%Z ->
  (forall k, at_stop (env t k) = status_OK /\ at_borrow (env t k) = borrow_status ConnectionFailed err) ->
  let d := dispatchWrite g env now enq a w in
  d_tried d = [(t, borrow_status ConnectionFailed err)] /\ d_buffered d = false /\
  d_status d = borrow_status ConnectionFailed err.
Proof.
  intros Hs Ht Hth Henv. cbn zeta. unfold dispatchWrite. rewrite Hs, Ht. cbn [try_targets].
  assert (Hst : fst (fst (execute_leaf t (env t) 0 w)) = borrow_status ConnectionFailed err).
  { unfold execute_leaf. cbn [fst]. unfold write_attempts.
    set (idem := idempotency _). set (b := breaker_of w t).
    pose proof (attempt_loop_ok (n_breaker t) (n_retry t) (n_name t) (fun _ _ => 0%Z) (env t)
      (resolveWriteAttempts (n_retry t) idem) 0 status_OK 0%Z b [] (write_attempts_pos _ _))
      as (_ & _ & _ & _ & [(i & _ & _ & Hi & _)|(b' & Hb & Hno & _)]); cbn [out_at] in *.
    - rewrite Hi. unfold status_at, attempt_run. rewrite (proj2 (Henv i)). done.
    - exfalso. set (r := attempt_loop _ _ _ _ _ _ _ _ _ _ _) in *. rewrite Hb in Hno.
      unfold beforeAttempt in Hno. rewrite (proj1 (Henv _)) in Hno. cbn [status_ok negb] in Hno.
      rewrite (proj2 (Z.leb_le _ 0) Hth) in Hno. done. }
  destruct (execute_leaf t (env t) 0 w) as [[st a1] w1]. cbn in Hst. subst st. done.
Qed.

(** ** Consistency after a write *)

Definition misses (now : Z) (name key : str) (c : C) : Prop := fst (rc_get now name key c) = None.

Definition named_group (g : Group) : Prop := Forall (fun n => NUL ∉ n) (group_names g).

Lemma writeTargets_named g now (w : World C) n :
  shadow_target g w = None -> n ∈ writeTargets g now w -> n_name n ∈ group_names g.
Proof.
  unfold writeTargets, group_names. intros ->. destruct (length (g_failover g) =? 0).
  - intros ->%list_elem_of_singleton. set_solver.
  - intros Hin. apply list_elem_of_In, filter_In in Hin as [Hin _].
    apply list_elem_of_In in Hin. rewrite !elem_of_cons, elem_of_app. right. right. right.
    change (map n_name ?l) with (n_name <$> l). apply list_elem_of_fmap. eauto.
Qed.

(** A dispatched write that succeeded outside a shadow request ended with the
    leaf's and then the group's [markWrite]. *)
Lemma dispatch_ok g env now enq a (w : World C) :
  shadow_target g w = None ->
  status_ok (d_status (dispatchWrite g env now enq a w)) = true ->
  exists n w1, d_world (dispatchWrite g env now enq a w) = markWrite_group g now w1 /\
    w_frames w1 = pinRequestWrite (w_frames w) /\ n_name n ∈ group_names g /\
    w_cache w1 = rc_invalidate (n_name n) (w_cache w).
Proof.
  intros Hs. pose proof (fun n => writeTargets_named g now w n Hs) as Hnames.
  unfold dispatchWrite. rewrite Hs.
  destruct (try_targets_spec g env now (writeTargets g now w) (no_primary g) a w []) as [l Hd].
  destruct (try_targets _ _ _ _ _ _ _ _) as [d|d].
  - intros Hok. rewrite Hok in Hd.
    destruct Hd as (_ & _ & pre & n & rest & w0 & w1 & Ht & Hl & _ & He & Hf & HL & Hw).
    exists n, w1. split; [done|]. pose proof (execute_leaf_world _ _ _ _ _ _ _ He) as [Hf1 Hc1].
    rewrite Hf1, Hc1, Hok, Hf, HL. split; [done|]. split; [|done]. apply Hnames. rewrite Ht, Hl.
    rewrite fmap_app. cbn. set_solver.
  - destruct Hd as (_ & _ & _ & Hall & Hst & _).
    assert (Hno : status_ok (d_status d) = false).
    { rewrite Hst. destruct (last l) as [[n st]|] eqn:El; [|done]. cbn.
      apply last_Some in El as [l' ->]. apply Forall_app in Hall as [_ Hall].
      by inversion Hall as [|? ? [? _]]. }
    destruct enq as [[]|]; intros Hok; [done|congruence|congruence].
Qed.

(** A dispatched write that did not succeed left the cache alone. *)
Lemma dispatch_failed g env now enq a (w : World C) :
  shadow_target g w = None ->
  status_ok (d_status (dispatchWrite g env now enq a w)) = false ->
  w_cache (d_world (dispatchWrite g env now enq a w)) = w_cache w.
Proof.
  intros Hs. unfold dispatchWrite. rewrite Hs.
  destruct (try_targets_spec g env now (writeTargets g now w) (no_primary g) a w []) as [l Hd].
  destruct (try_targets _ _ _ _ _ _ _ _) as [d|d].
  - intros Hok. rewrite Hok in Hd.
    destruct Hd as (_ & _ & pre & n & rest & w0 & w1 & _ & _ & _ & He & _ & HL & _ & ->).
    pose proof (execute_leaf_world _ _ _ _ _ _ _ He) as [_ Hc1]. by rewrite Hc1, Hok, HL.
  - destruct Hd as (_ & _ & _ & _ & _ & _ & Hc). by destruct enq as [[]|].
Qed.

(** A successful group write leaves no stale result behind: afterwards the cache
    answers no query of the group, of its primary, of a replica or of a failover
    candidate, whatever it held before. *)
Theorem group_write_invalidates (g : Group) (env : Node -> nat -> Attempt Z) (now : Z)
    (enq : option bool) (a : Z) (w : World C) (m : answers) (name key : str) (later : Z) :
  shadow_target g w = None -> rc_rep (w_cache w) m -> named_group g -> name ∈ group_names g ->
  let d := dispatchWrite g env now enq a w in
  status_ok (d_status d) = true ->
  misses later name key (w_cache (d_world d)) /\ w_lastWriteNs (d_world d) = now.
Proof.
  intros Hs Hm Hg Hin d Hok. subst d.
  destruct (dispatch_ok g env now enq a w Hs Hok) as (n & w1 & -> & _ & Hn & Hc).
  split; [|done]. pose proof Hg as Hg'. unfold named_group in Hg. rewrite Forall_forall in Hg.
  destruct (rc_invalidate_law (n_name n) (w_cache w) m (Hg _ Hn) Hm) as [_ Hm1]. rewrite <- Hc in Hm1.
  destruct (invalidate_list_law (group_names g) _ _ Hg' Hm1) as [_ Hm2].
  destruct (rc_get_law later name key _ _ (Hg _ Hin) Hm2) as (_ & _ & Hhit).
  unfold misses. cbn [markWrite_group set_cache w_cache].
  destruct (fst (rc_get later name key _)) as [rs|]; [|done].
  destruct (Hhit rs eq_refl) as (e & He & _).
  by rewrite without_list_lookup, decide_True in He by done.
Qed.

Lemma pin_parent s c x : pinRequestWrite (s ++ [c] ++ [x]) = s ++ [pin c] ++ [x].
Proof.
  unfold pinRequestWrite. rewrite !length_app. cbn [length].
  replace (length s + (1 + 1)) with (S (S (length s))) by lia. cbn [Nat.eqb Nat.leb].
  replace (S (S (length s)) - 2) with (length s + 0) by lia. by rewrite alter_app_r.
Qed.

(** C24. Read your writes: inside a [ContextScope], after a group write that
    succeeded under the interceptors' frame, the caller's own frame is pinned
    (and otherwise unchanged), so the request's next read goes to the primary,
    with any replicas, at any time.  Neither frame is a shadow frame (a shadow request
    writes to and reads from the shadow source), and the stack has room for the
    interceptors' frame (64 frames). *)
Theorem read_your_writes (g : Group) (env : Node -> nat -> Attempt Z) (now : Z) (enq : option bool)
    (ctx c : SqlContext) (s : frames) (a : Z) (w : World C) (later : Z) (round : nat) :
  w_frames w = s ++ [c] -> S (length s) < kMaxDepth ->
  shadow ctx = false -> shadow c = false ->
  let d := execute_group g env now enq true status_OK ctx a w in
  status_ok (d_status d) = true ->
  w_frames (d_world d) = s ++ [pin c] /\ readTarget g later round (d_world d) = g_primary g.
Proof.
  intros Hf Hd Hctx Hc d. subst d. unfold execute_group, runWithInterceptors. cbn [negb status_ok].
  unfold scope_enter. rewrite Hf, length_app. cbn [length].
  replace (length s + 1 <? kMaxDepth) with true by (symmetry; apply Nat.ltb_lt; lia).
  cbn [set_dispatch_world d_status d_world]. intros Hok.
  assert (Hs : shadow_target g (set_frames ((s ++ [c]) ++ [ctx]) w) = None).
  { unfold shadow_target, current. cbn [set_frames w_frames]. rewrite last_snoc. cbn. by rewrite Hctx. }
  destruct (dispatch_ok g env now enq a _ Hs Hok) as (n & w1 & -> & Hw1 & _).
  cbn [set_frames w_frames] in Hw1. rewrite <- app_assoc, pin_parent in Hw1.
  cbn [markWrite_group set_cache set_lastWrite set_frames w_frames scope_exit]. rewrite Hw1, app_assoc.
  rewrite removelast_last. split; [done|].
  change (negb (status_ok status_OK)) with false. cbn iota.
  unfold readTarget, shadow_target, current. cbn [set_dispatch_world d_world set_frames w_frames].
  rewrite last_snoc. cbn. by rewrite Hc.
Qed.


End Properties.

(** ** Witnesses: the cache of QueryCache.v behind the interface *)

#[local] Instance sample_cache : ResultCache QueryCacheState := query_result_cache 32 40.

Definition sample_group : Group :=
  mkGroup ($"grp") (sample_node ($"p")) [sample_node ($"r1"); sample_node ($"r2"); sample_node ($"r1")]
    [Some (sample_node ($"p")); Some (sample_node ($"p2"))] None 0 true false.
Definition sample_world : World QueryCacheState := mkWorld [defaultInstance] cache_init ∅ 0 [].

Lemma read_rotation_witness :
  map (fun r => readTarget sample_group 5 r sample_world) (seq 7 3) ≡ₚ g_replicas sample_group.
Proof.
  apply (read_rotation sample_group 5 7 sample_world); [reflexivity|reflexivity|].
  repeat constructor.
Defined.

Definition refuse (c : ErrorCode) (k : nat) : Attempt Z :=
  mkAttempt status_OK 1 (borrow_status c ($"refused")) (fun a => (status_OK, a)) status_OK 1 (fun _ => 0%Z).
Definition accept_write (k : nat) : Attempt Z :=
  mkAttempt status_OK 1 status_OK (fun _ => (status_OK, 3%Z)) status_OK 1 (fun _ => 0%Z).

Definition refuse_then_accept (n : Node) : nat -> Attempt Z :=
  if n_name n =s $"p" then refuse PoolExhausted else accept_write.

(** Whether the statement took effect in the scenario above. *)
Definition accepted (n : Node) (k : nat) : bool := negb (n_name n =s $"p").

Lemma refuse_then_accept_effective : effective refuse_then_accept accepted.
Proof. intros n k. unfold refuse_then_accept, accepted. by destruct (n_name n =s $"p"). Qed.

Lemma dispatch_exact_witness :
  let d := dispatchWrite sample_group refuse_then_accept 5 None 0 sample_world in
  map (fun t => n_name (fst t)) (d_tried d) = [$"p"; $"p2"] /\
  executions accepted (w_sent (d_world d)) = [(sample_node ($"p2"), 0)] /\
  (exists log, w_sent (d_world d) = [] ++ log /\
     (executions accepted log = [] \/
      exists n, executions accepted log = [(n, 0)] /\ d_buffered d = false /\
        last (d_tried d) = Some (n, fst (at_run (refuse_then_accept n 0) 0%Z)))).
Proof.
  cbn zeta. split; [reflexivity|]. split; [reflexivity|].
  apply (dispatch_exact sample_group refuse_then_accept 5 None 0 sample_world).
  - exact refuse_then_accept_effective.
  - repeat constructor.
Defined.

(** A write that is retried can be executed by two nodes: the first executes it and the
    answer is lost, the failure trips its breaker, the next attempt is refused as
    [CircuitOpen], and failover, which sees only that last status, runs the statement
    on the next node. *)
Definition fragile (name : str) : Node :=
  mkNode name (mkRetryConfig 3 10 100 true) (mkBreakerConfig 1 5) false false.
Definition fragile_group : Group :=
  mkGroup ($"grp") (fragile ($"p")) [] [Some (fragile ($"p")); Some (fragile ($"p2"))] None 0 true false.
Definition lost_answer : Status := set_broken true (set_retryable true (status_error QueryTimeout ($"lost"))).
Definition lose_then_accept (n : Node) (k : nat) : Attempt Z :=
  if n_name n =s $"p"
  then mkAttempt status_OK 1 status_OK (fun _ => (lost_answer, 0%Z)) status_OK 1 (fun _ => 0%Z)
  else accept_write k.

Theorem retried_write_executes_twice :
  let d := dispatchWrite fragile_group lose_then_accept 5 None 0 sample_world in
  let executed (_ : Node) (_ : nat) := true in
  effective lose_then_accept executed /\
  executions executed (w_sent (d_world d)) = [(fragile ($"p"), 0); (fragile ($"p2"), 0)] /\
  map (fun t => code_ (snd t)) (d_tried d) = [CircuitOpen; Ok].
Proof.
  cbn zeta. split; [|split; vm_compute; reflexivity].
  intros n k _. unfold lose_then_accept. by destruct (n_name n =s $"p").
Qed.

Definition no_breaker (name : str) : Node :=
  mkNode name (mkRetryConfig 3 10 100 true) (mkBreakerConfig 0 5) false false.
Definition failover_group : Group :=
  mkGroup ($"grp") (no_breaker ($"p")) [] [Some (no_breaker ($"p")); Some (no_breaker ($"p2"))] None 0 true false.

Lemma connection_failure_no_failover_witness :
  map (fun t => n_name (fst t)) (d_tried (dispatchWrite failover_group
    (fun n => if n_name n =s $"p" then refuse ConnectionFailed else accept_write) 5 (Some true) 0 sample_world)) =
  [$"p"].
Proof.
  destruct (connection_failure_no_failover failover_group
    (fun n => if n_name n =s $"p" then refuse ConnectionFailed else accept_write) 5 (Some true) 0 sample_world
    (no_breaker ($"p")) [no_breaker ($"p2")] ($"refused")) as (-> & _); try reflexivity.
  intros k. split; reflexivity.
Defined.

Definition cached_world : World QueryCacheState :=
  mkWorld [defaultInstance]
    (cache_run 32 40 [CConfigure (mkCacheConfig true 1000 10 0 false);
                      CPut 0 ($"r1") ($"q") (sample_rs 1)]) ∅ 0 [].

Lemma cached_world_rep :
  rc_rep (w_cache cached_world)
    (sp_map (spec_run 32 40 [CConfigure (mkCacheConfig true 1000 10 0 false);
                             CPut 0 ($"r1") ($"q") (sample_rs 1)])).
Proof.
  split; [apply (cache_run_wf 32 40)|]. intros _. apply (cache_run_refines 32 40).
  repeat constructor. cbn. apply not_in_str. reflexivity.
Qed.

Lemma sample_group_named : named_group sample_group.
Proof. repeat constructor; apply not_in_str; reflexivity. Qed.

Lemma group_write_invalidates_witness :
  fst (get 9 ($"r1") ($"q") (w_cache cached_world)) = Some (sample_rs 1) /\
  misses 9 ($"r1") ($"q") (w_cache (d_world
    (dispatchWrite sample_group (fun _ => accept_write) 5 None 0 cached_world))).
Proof.
  split; [vm_compute; reflexivity|].
  apply (group_write_invalidates sample_group (fun _ => accept_write) 5 None 0 cached_world _ ($"r1") ($"q") 9
           eq_refl cached_world_rep sample_group_named).
  - apply list_elem_of_lookup_2 with 2. reflexivity.
  - vm_compute. reflexivity.
Defined.

Lemma read_your_writes_witness :
  readTarget sample_group 900 0 (d_world
    (execute_group sample_group (fun _ => accept_write) 5 None true status_OK defaultInstance 0 cached_world)) =
  g_primary sample_group.
Proof.
  apply (read_your_writes sample_group (fun _ => accept_write) 5 None defaultInstance defaultInstance []
           0 cached_world 900 0); try reflexivity.
  vm_compute. lia.
Defined.

(** The pin depends on the interceptors' frame: with the interceptor registry
    disabled and two nested [ContextScope]s, a successful group write pins the
    outer frame and not the caller's, and the request's next read goes to a
    replica. *)
Theorem nested_scope_pin_lost :
  let w := mkWorld [defaultInstance; defaultInstance] cache_init ∅ 0 [] in
  let d := execute_group sample_group (fun _ => accept_write) 5 None false status_OK defaultInstance 0 w in
  status_ok (d_status d) = true /\
  w_frames (d_world d) = [pin defaultInstance; defaultInstance] /\
  n_name (readTarget sample_group 900 0 (d_world d)) = $"r1".
Proof. cbn zeta. split; [reflexivity|]. split; reflexivity. Qed.

(** A write that went through the buffer is weaker than a direct one: its replay
    marks the primary only.  After a successful replay a replica still answers
    from its cache, and the read-after-write window does not start; the same
    write dispatched directly clears that entry. *)
Theorem buffered_replay_stale :
  let replayed := buffered_task sample_group (fun _ => accept_write) cached_world in
  let direct := dispatchWrite sample_group (fun _ => accept_write) 5 None 0 cached_world in
  status_ok (fst replayed) = true /\
  fst (get 9 ($"r1") ($"q") (w_cache (snd replayed))) = Some (sample_rs 1) /\
  w_lastWriteNs (snd replayed) = 0%Z /\
  status_ok (d_status direct) = true /\
  fst (get 9 ($"r1") ($"q") (w_cache (d_world direct))) = None /\
  w_lastWriteNs (d_world direct) = 5%Z.
Proof. vm_compute. repeat split. Qed.
