(* ===== verification/Coherence.v ===== *)
(** * Coherence: cached answers are answers of the database

    Composes QueryCache.v (through the [ResultCache] interface), CacheKey.v and
    DataSource.v: over any sequence of queries and writes on leaves and groups,
    what a data source serves from the cache is a result the database returned
    for the same statement and parameters, on the same data source, after the
    last successful write to it, and less than the time to live ago. *)

From S2P Require Import Prelude Types ResultCache Context QueryCache CacheKey Resilience DataSource.

(** A result the database returned, with the instant it was offered to the cache. *)
Record Answer : Type := mkAnswer {
  an_node : str; an_sql : str; an_params : Params; an_rows : ResultSet; an_time : Z
}.

Section Coherence.
Context {C : Type} {RC : ResultCache C}.

(** What [query_leaf] would serve from the cache. *)
Definition cache_answer (n : Node) (sql : str) (params : Params) (now : Z) (w : World C)
    : option ResultSet :=
  if caching n w then fst (rc_get now (n_name n) (cacheKey sql params) (w_cache w)) else None.

(** A sequence of operations on data sources, as the application issues them. *)
Inductive ds_op : Type :=
| OQuery (n : Node) (sql : str) (params : Params) (e : QueryEnv) (out : ResultSet)
| OGroupQuery (g : Group) (sql : str) (params : Params) (e : QueryEnv) (now : Z) (round : nat)
    (out : ResultSet)
| OWrite (n : Node) (env : nat -> Attempt Z)
| OGroupWrite (g : Group) (env : Node -> nat -> Attempt Z) (now : Z) (enq : option bool)
| OScope (f : frames).

Definition leaf_query (n : Node) (sql : str) (params : Params) (e : QueryEnv) (out : ResultSet)
    (w : World C) : Status * ResultSet * World C :=
  query_leaf n sql params (qe_attempts e n) (qe_get e) (qe_put e) out w.

(** The specification keeps the answers of the database since the last write to
    each data source; it knows nothing of the cache but whether it answered. *)
Definition log_query (n : Node) (sql : str) (params : Params) (e : QueryEnv) (out : ResultSet)
    (w : World C) (log : list Answer) : list Answer :=
  match cache_answer n sql params (qe_get e) w with
  | Some _ => log
  | None =>
      let '(st, rows, _) := leaf_query n sql params e out w in
      if status_ok st then log ++ [mkAnswer (n_name n) sql params rows (qe_put e)] else log
  end.

Definition log_write (names : list str) (log : list Answer) : list Answer :=
  filter (fun a => an_node a ∉ names) log.

Definition ds_step (op : ds_op) (s : World C * list Answer) : World C * list Answer :=
  let '(w, log) := s in
  match op with
  | OQuery n sql params e out =>
      (snd (leaf_query n sql params e out w), log_query n sql params e out w log)
  | OGroupQuery g sql params e now round out =>
      let target := readTarget g now round w in
      let '(st, rows, w1) := leaf_query target sql params e out w in
      let log1 := log_query target sql params e out w log in
      if negb (n_name target =s n_name (g_primary g)) && g_fallbackToPrimary g && fallback_status st
      then (snd (leaf_query (g_primary g) sql params e (rs_clear rows) w1),
            log_query (g_primary g) sql params e (rs_clear rows) w1 log1)
      else (w1, log1)
  | OWrite n env =>
      let '(st, _, w1) := execute_leaf n env 0 w in
      (w1, if status_ok st then log_write [n_name n] log else log)
  | OGroupWrite g env now enq =>
      let d := dispatchWrite g env now enq 0 w in
      (d_world d,
       if status_ok (d_status d) then
         log_write (match shadow_target g w with Some s => [n_name s] | None => group_names g end) log
       else log)
  | OScope f => (set_frames f w, log)
  end.

Definition ds_run (ops : list ds_op) (w : World C) : World C * list Answer :=
  fold_left (fun s op => ds_step op s) ops (w, []).

(** The composition is the code's: a group query step is [query_group]. *)
Lemma group_query_step g sql params e now round out w log :
  fst (ds_step (OGroupQuery g sql params e now round out) (w, log)) =
  snd (query_group g sql params e now round out w).
Proof.
  cbn [ds_step]. unfold query_group, leaf_query.
  destruct (query_leaf (readTarget g now round w) _ _ _ _ _ _ _) as [[st rows] w1].
  by destruct (_ && _ && _).
Qed.

(** A statement without the record separator and parameters without named database
    types: its cache key is its own. *)
Definition plain_query (sql : str) (params : Params) : Prop :=
  RS ∉ sql /\ forallb untyped params = true.

Definition whole_group (g : Group) : list str :=
  group_names g ++ match g_shadow g with Some s => [n_name s] | None => [] end.

(** The names of the data sources hold no NUL byte. *)
Definition op_named (op : ds_op) : Prop :=
  match op with
  | OQuery n _ _ _ _ | OWrite n _ => NUL ∉ n_name n
  | OGroupQuery g _ _ _ _ _ _ => Forall (fun x => NUL ∉ x) (whole_group g)
  | OGroupWrite g _ _ _ => Forall (fun x => NUL ∉ x) (whole_group g)
  | OScope _ => True
  end.

(** ** The invariant *)

Definition backs (ttl : Z) (a : Answer) (ds key : str) (rs : ResultSet) (expire : Z) : Prop :=
  an_node a = ds /\ cacheKey (an_sql a) (an_params a) = key /\ an_rows a = rs /\
  (expire = an_time a + ttl)%Z.

Definition backed (log : list Answer) (ttl : Z) (m : answers) : Prop :=
  forall ds key rs e, m !! (ds, key) = Some (rs, e) -> exists a, a ∈ log /\ backs ttl a ds key rs e.

Definition coherent (w : World C) (log : list Answer) : Prop :=
  exists m, rc_rep (w_cache w) m /\ backed log (rc_ttl (w_cache w)) m.

Lemma backed_mono log log' ttl m : log ⊆ log' -> backed log ttl m -> backed log' ttl m.
Proof. intros Hs Hb ds key rs e Hm. destruct (Hb _ _ _ _ Hm) as (a & Ha & Hk). eauto. Qed.

(** The outcome of a leaf query, by cases on the cache's answer. *)
Lemma leaf_query_hit n sql params e out w rs :
  cache_answer n sql params (qe_get e) w = Some rs ->
  leaf_query n sql params e out w =
    (status_OK, rs, set_cache (snd (rc_get (qe_get e) (n_name n) (cacheKey sql params) (w_cache w))) w).
Proof.
  unfold cache_answer, leaf_query, query_leaf. destruct (caching n w); [|done].
  destruct (rc_get _ _ _ _) as [h q]. cbn. by intros ->.
Qed.

(** On a miss the cache is only read, or read and then offered the rows. *)
Lemma leaf_query_miss n sql params e out w :
  cache_answer n sql params (qe_get e) w = None ->
  exists c1, (c1 = w_cache w \/ c1 = snd (rc_get (qe_get e) (n_name n) (cacheKey sql params) (w_cache w))) /\
  let '(st, rows, w') := leaf_query n sql params e out w in
  w_cache w' = c1 \/
  status_ok st = true /\ w_cache w' = rc_put (qe_put e) (n_name n) (cacheKey sql params) rows c1.
Proof.
  unfold cache_answer, leaf_query, query_leaf. destruct (caching n w).
  - destruct (rc_get _ _ _ _) as [h q]. cbn. intros ->. exists q. split; [by right|].
    destruct (status_ok (l_status _)); cbn; auto.
  - intros _. exists (w_cache w). split; [by left|]. rewrite andb_false_r. by left.
Qed.

Lemma leaf_query_coherent n sql params e out w log :
  NUL ∉ n_name n -> coherent w log ->
  coherent (snd (leaf_query n sql params e out w)) (log_query n sql params e out w log).
Proof.
  intros Hn (m & Hm & Hb). unfold log_query.
  destruct (rc_get_law (qe_get e) (n_name n) (cacheKey sql params) (w_cache w) m Hn Hm) as (Hg & Ht & _).
  destruct (cache_answer n sql params (qe_get e) w) as [rs|] eqn:Ea.
  { rewrite (leaf_query_hit _ _ _ _ _ _ _ Ea). unfold coherent. cbn [snd set_cache w_cache]. exists m. split; [done|]. by rewrite Ht. }
  destruct (leaf_query_miss n sql params e out w Ea) as (c1 & Hc1 & Hcase).
  assert (H1 : rc_rep c1 m /\ rc_ttl c1 = rc_ttl (w_cache w)) by (by destruct Hc1 as [->| ->]).
  clear Hg Ht Hc1. destruct H1 as [Hc1 Ht1].
  destruct (leaf_query n sql params e out w) as [[st rows] w']. cbn [snd].
  set (log' := if status_ok st then _ else _).
  assert (Hsub : log ⊆ log').
  { unfold log'. destruct (status_ok st); [|done]. intros a Ha. apply elem_of_app. by left. }
  destruct Hcase as [Hc|[Hok Hc]]; unfold coherent; rewrite Hc.
  { exists m. split; [done|]. rewrite Ht1. by apply (backed_mono log). }
  destruct (rc_put_law (qe_put e) (n_name n) (cacheKey sql params) rows c1 m Hn Hc1) as [Ht2 [Hr|Hr]].
  { exists m. split; [done|]. rewrite Ht2, Ht1. by apply (backed_mono log). }
  eexists. split; [exact Hr|]. rewrite Ht2, Ht1. intros ds key rs ex Hl.
  apply lookup_insert_Some in Hl as [[Hk Hv]|[_ Hl]].
  - injection Hk as <- <-. injection Hv as <- <-. unfold log'. rewrite Hok.
    exists (mkAnswer (n_name n) sql params rows (qe_put e)). split; [set_solver|].
    by split_and!.
  - destruct (Hb _ _ _ _ Hl) as (a & Ha & Hk). exists a. auto.
Qed.

Lemma log_write_elem names log a : a ∈ log_write names log <-> an_node a ∉ names /\ a ∈ log.
Proof. unfold log_write. by rewrite list_elem_of_filter. Qed.

Lemma write_backed names log ttl m :
  backed log ttl m -> backed (log_write names log) ttl (without_list names m).
Proof.
  intros Hb ds key rs e. rewrite without_list_lookup. case_decide as Hd; [done|]. intros Hm.
  destruct (Hb _ _ _ _ Hm) as (a & Ha & Hk). exists a. split; [|done].
  apply log_write_elem. split; [|done]. by rewrite (proj1 Hk).
Qed.

(** Invalidating the written names keeps the cache coherent with the shorter log. *)
Lemma write_coherent names w w' log :
  Forall (fun x => NUL ∉ x) names -> w_cache w' = invalidate_list names (w_cache w) ->
  coherent w log -> coherent w' (log_write names log).
Proof.
  intros Hn Hc (m & Hm & Hb). unfold coherent. rewrite Hc.
  destruct (invalidate_list_law names (w_cache w) m Hn Hm) as [Ht Hr].
  eexists. split; [exact Hr|]. rewrite Ht. by apply write_backed.
Qed.

Lemma coherent_cache w w' log : w_cache w' = w_cache w -> coherent w log -> coherent w' log.
Proof. intros Hc (m & Hm). exists m. by rewrite Hc. Qed.

Lemma log_write_mono names names' log :
  names ⊆ names' -> log_write names' log ⊆ log_write names log.
Proof. intros Hs a. rewrite !log_write_elem. set_solver. Qed.

Lemma group_write_coherent g env now enq w log :
  Forall (fun x => NUL ∉ x) (whole_group g) -> coherent w log ->
  coherent (fst (ds_step (OGroupWrite g env now enq) (w, log)))
           (snd (ds_step (OGroupWrite g env now enq) (w, log))).
Proof.
  unfold whole_group. intros [Hg Hsh]%Forall_app Hco. cbn [ds_step fst snd].
  destruct (shadow_target g w) as [s|] eqn:Es.
  - assert (Hns : NUL ∉ n_name s).
    { unfold shadow_target in Es. destruct (shadow _); [|done]. rewrite Es in Hsh.
      by inversion Hsh. }
    unfold dispatchWrite. rewrite Es.
    destruct (execute_leaf s (env s) 0 w) as [[st a] w1] eqn:Ee. cbn [d_status d_world].
    pose proof (execute_leaf_world _ _ _ _ _ _ _ Ee) as [_ Hc].
    destruct (status_ok st); [|by apply (coherent_cache w)].
    apply (write_coherent [n_name s] w); [by apply Forall_singleton|done|done].
  - destruct (status_ok (d_status (dispatchWrite g env now enq 0 w))) eqn:Eo.
    2: { apply (coherent_cache w); [by apply dispatch_failed|done]. }
    destruct (dispatch_ok g env now enq 0 w Es Eo) as (n & w1 & -> & _ & Hn & Hc).
    assert (Hw : coherent (markWrite_group g now w1) (log_write (n_name n :: group_names g) log)).
    { apply (write_coherent _ w); [|by cbn; rewrite Hc|done]. constructor; [|done].
      rewrite Forall_forall in Hg. by apply Hg. }
    destruct Hw as (m & Hm & Hb). exists m. split; [done|]. eapply backed_mono; [|exact Hb].
    intros a. rewrite !log_write_elem. set_solver.
Qed.

Lemma readTarget_named g now round (w : World C) :
  Forall (fun x => NUL ∉ x) (whole_group g) -> NUL ∉ n_name (readTarget g now round w).
Proof.
  unfold whole_group. intros [Hg Hsh]%Forall_app. rewrite Forall_forall in Hg.
  assert (Hp : NUL ∉ n_name (g_primary g)) by (apply Hg; set_solver).
  unfold readTarget. destruct (shadow_target g w) as [s|] eqn:Es.
  { unfold shadow_target in Es. destruct (shadow _); [|done]. rewrite Es in Hsh.
    by inversion Hsh. }
  destruct (wroteInThisRequest _); [done|]. destruct (_ && _); [done|].
  destruct (length (g_replicas g) =? 0) eqn:El; [done|]. apply Nat.eqb_neq in El.
  pose proof (replica_loop_spec (g_replicas g) now w (round mod length (g_replicas g)) 0
    (length (g_replicas g)) ltac:(by destruct (g_replicas g))) as H.
  destruct (replica_loop _ _ _ _ _ _) as [n|]; [|done]. apply Hg. unfold group_names.
  rewrite !elem_of_cons, elem_of_app. right. right. left.
  change (map n_name ?l) with (n_name <$> l). apply list_elem_of_fmap. exists n. by destruct H.
Qed.

Lemma ds_step_coherent op w log :
  op_named op -> coherent w log ->
  coherent (fst (ds_step op (w, log))) (snd (ds_step op (w, log))).
Proof.
  intros Hop Hco. destruct op as [n sql params e out|g sql params e now round out|n env|g env now enq|f].
  - by apply leaf_query_coherent.
  - rename Hop into Hg. cbn [op_named] in Hg. cbn [ds_step].
    pose proof (leaf_query_coherent (readTarget g now round w) sql params e out w log
      (readTarget_named g now round w Hg) Hco) as H1.
    destruct (leaf_query _ _ _ _ out w) as [[st rows] w1]. cbn [snd] in H1.
    destruct (_ && _ && _); [|done]. apply leaf_query_coherent; [|done].
    rewrite Forall_forall in Hg. apply Hg. unfold whole_group, group_names. set_solver.
  - cbn [ds_step]. destruct (execute_leaf n env 0 w) as [[st a] w1] eqn:Ee. cbn [fst snd].
    pose proof (execute_leaf_world _ _ _ _ _ _ _ Ee) as [_ Hc].
    destruct (status_ok st); [|by apply (coherent_cache w)].
    apply (write_coherent [n_name n] w); [by apply Forall_singleton|done|done].
  - by apply group_write_coherent.
  - exact Hco.
Qed.

Lemma ds_run_coherent ops w0 :
  rc_rep (w_cache w0) ∅ -> Forall op_named ops ->
  coherent (fst (ds_run ops w0)) (snd (ds_run ops w0)).
Proof.
  intros H0 Hops. unfold ds_run. assert (Hco : coherent (fst (w0, @nil Answer)) (snd (w0, @nil Answer))).
  { exists ∅. split; [done|]. intros ds key r x. by rewrite lookup_empty. }
  revert Hco. generalize (w0, @nil Answer). induction Hops as [|op ops Hop _ IH]; intros [w log] Hco; [done|].
  apply IH. by apply ds_step_coherent.
Qed.

(** C2. Cached answers are fresh: after any operations on leaves and groups from an
    empty cache, what a query is served from the cache is a result the database
    returned on the same data source for a statement and parameters with the same
    cache key, recorded less than the time to live ago, with no successful write to
    that data source (or through a group that contains it) since.  The query then
    answers exactly that, without running the statement.  Statement and parameters are
    the same when neither statement holds a record separator and no parameter is of
    a named database type; for the latter keys collide ([cacheKey_typed_collision]).
    Names of data sources hold no NUL byte. *)
Theorem cached_answers_fresh (ops : list ds_op) (w0 : World C) (n : Node) (sql : str) (params : Params)
    (e : QueryEnv) (out rs : ResultSet) :
  rc_rep (w_cache w0) ∅ -> Forall op_named ops -> NUL ∉ n_name n ->
  let '(w, log) := ds_run ops w0 in
  cache_answer n sql params (qe_get e) w = Some rs ->
  fst (leaf_query n sql params e out w) = (status_OK, rs) /\
  exists a, a ∈ log /\ an_node a = n_name n /\ cacheKey (an_sql a) (an_params a) = cacheKey sql params /\
    (plain_query sql params -> plain_query (an_sql a) (an_params a) -> an_sql a = sql /\ an_params a = params) /\
    an_rows a = rs /\ (qe_get e < an_time a + rc_ttl (w_cache w))%Z.
Proof.
  intros H0 Hops Hn.
  pose proof (ds_run_coherent ops w0 H0 Hops) as Hco. destruct (ds_run ops w0) as [w log].
  intros Hans. rewrite (leaf_query_hit _ _ _ _ _ _ _ Hans). split; [done|].
  destruct Hco as (m & Hm & Hb). unfold cache_answer in Hans. destruct (caching n w); [|done].
  destruct (rc_get_law (qe_get e) (n_name n) (cacheKey sql params) (w_cache w) m Hn Hm) as (_ & _ & Hhit).
  destruct (Hhit rs Hans) as (ex & Hlk & Hlt). destruct (Hb _ _ _ _ Hlk) as (a & Ha & H1 & H2 & H3 & H4).
  cbn [fst] in H4. exists a. split_and!; auto; [|lia].
  intros [Hs Hp] [Hs' Hp']. by apply cacheKey_inj in H2.
Qed.
End Coherence.

(** ** A history: a query, a repetition from the cache, a write *)

#[local] Instance coherence_cache : ResultCache QueryCacheState := query_result_cache 32 40.

Definition start_world : World QueryCacheState :=
  mkWorld [defaultInstance] (configure (mkCacheConfig true 1000 10 0 false) cache_init) ∅ 0 [].

Definition answering (rs : ResultSet) : QueryEnv :=
  mkQueryEnv (fun _ _ => mkAttempt status_OK 1 status_OK (fun _ => (status_OK, rs)) status_OK 1 (fun _ => 0%Z))
    2 3.

Definition sample_history : list ds_op :=
  [OQuery (sample_node ($"r1")) ($"SELECT 1") [VInt64 5] (answering (sample_rs 1)) rs_empty;
   OGroupWrite sample_group (fun _ => accept_write) 4 None;
   OGroupQuery sample_group ($"SELECT 1") [VInt64 5] (answering (sample_rs 2)) 5 0 rs_empty].

Lemma cached_answers_fresh_witness :
  let '(w, log) := ds_run sample_history start_world in
  fst (leaf_query (sample_node ($"p")) ($"SELECT 1") [VInt64 5] (answering (sample_rs 3)) rs_empty w) =
    (status_OK, sample_rs 2) /\
  exists a, a ∈ log /\ an_node a = $"p" /\ cacheKey (an_sql a) (an_params a) = cacheKey ($"SELECT 1") [VInt64 5] /\
    an_rows a = sample_rs 2 /\ (2 < an_time a + rc_ttl (w_cache w))%Z.
Proof.
  pose proof (cached_answers_fresh sample_history start_world (sample_node ($"p")) ($"SELECT 1") [VInt64 5]
    (answering (sample_rs 3)) rs_empty (sample_rs 2)) as H.
  assert (Hans : cache_answer (sample_node ($"p")) ($"SELECT 1") [VInt64 5] 2
                   (fst (ds_run sample_history start_world)) = Some (sample_rs 2)) by (vm_compute; reflexivity).
  destruct (ds_run sample_history start_world) as [w log].
  destruct H as (H1 & a & H2 & H3 & H4 & _ & H5 & H6); [| | |exact Hans|].
  - split; [split; [by apply linked_nil|split; [split; cbn; rewrite ?map_size_empty; lia|reflexivity]]|].
    intros _. split; [reflexivity|]. intros ck e. cbn. by rewrite lookup_empty.
  - repeat constructor; cbn; try (apply not_in_str; reflexivity).
  - apply not_in_str. reflexivity.
  - split; [exact H1|]. exists a. auto.
Defined.
