(* ===== verification/Executor.v ===== *)
(** * The thread-pool executor

    src/async/executor.cpp: [ThreadPoolExecutor].  The fields of the object, its
    worker threads and its timer thread are one record.  Every critical section
    of its mutex, and every run of a task between two of them, is one step;
    [run] executes any interleaving of them.

    A thread blocked in [cv.wait] is parked: it moves only when it is notified
    (or wakes spuriously) and tests its predicate again.  The thread a
    [notify_one] chooses is an argument of the step.  What a task does is not
    modelled, except that it ends, normally or with an exception; the calls it
    makes back into the executor are steps of their own.  A task that calls
    [shutdown] would join its own thread and is outside the model.

    [accepted], [finished] and [errors] are history: the tasks taken over from
    the callers, the tasks that have been run, and what [runGuarded] has logged. *)

From stdpp Require Import sorting.
From S2P Require Import Prelude.

Module Executor.
Section Executor.
Context {Task : Type}.
Implicit Types (t : Task) (k i : nat).

(** ** State *)

Record DelayedTask := mkDelayed { deadline : Z; seqno : nat; dtask : Task }.

(** [DelayedTask::operator<]: the smaller one runs later. *)
Definition delayed_lt (a b : DelayedTask) : bool :=
  if Z.eqb (deadline a) (deadline b) then seqno b <? seqno a
  else Z.ltb (deadline b) (deadline a).

(** [std::priority_queue]: the elements, greatest first; [top] is the head. *)
Fixpoint emplace (x : DelayedTask) (q : list DelayedTask) : list DelayedTask :=
  match q with
  | [] => [x]
  | y :: q' => if delayed_lt x y then y :: emplace x q' else x :: q
  end.

(** Where a worker is: about to lock the mutex, parked in [cvWork_.wait],
    running a task, or returned from [workerLoop]. *)
Inductive worker := WTop | WParked | WRun (t : Task) | WExit.

(** The timer thread, likewise; [TTimed next] is in [cvTimer_.wait_until]. *)
Inductive timer_state :=
| TNone | TTop | TParked | TTimed (next : Z) | TRun (t : Task) | TExit.

(** The thread that closes the executor, in [shutdown]. *)
Inductive closer :=
| COpen | CRun (delayed : list Task) | CJoinTimer | CJoinWorkers | CDone.

Record exec := mkExec {
  queue : list Task;
  delayed : list DelayedTask;
  workers : list worker;
  timer : timer_state;
  closing : closer;
  inline : list Task;
  threadCount : nat;
  queueLimit : nat;
  seq : nat;
  active : nat;
  submitted : nat;
  completed : nat;
  rejected : nat;
  threadsStarted : bool;
  stopping : bool;
  accepted : list Task;
  finished : list Task;
  errors : list str
}.

(** The constructor; [hw] is [std::thread::hardware_concurrency()]. *)
Definition makeThreadPoolExecutor (hw : nat) (threads : Z) (queueSize : nat) : exec :=
  let n := if Z.ltb 0 threads then Z.to_nat threads else hw in
  mkExec [] [] [] TNone COpen []
    (if n =? 0 then 1 else n) (if 0 <? queueSize then queueSize else 1)
    0 0 0 0 0 false false [] [] [].

(** ** Field updates *)

Definition set_queue (q : list Task) (e : exec) : exec :=
  mkExec q (delayed e) (workers e) (timer e) (closing e) (inline e) (threadCount e)
    (queueLimit e) (seq e) (active e) (submitted e) (completed e) (rejected e)
    (threadsStarted e) (stopping e) (accepted e) (finished e) (errors e).
Definition set_delayed (q : list DelayedTask) (e : exec) : exec :=
  mkExec (queue e) q (workers e) (timer e) (closing e) (inline e) (threadCount e)
    (queueLimit e) (seq e) (active e) (submitted e) (completed e) (rejected e)
    (threadsStarted e) (stopping e) (accepted e) (finished e) (errors e).
Definition set_workers (ws : list worker) (e : exec) : exec :=
  mkExec (queue e) (delayed e) ws (timer e) (closing e) (inline e) (threadCount e)
    (queueLimit e) (seq e) (active e) (submitted e) (completed e) (rejected e)
    (threadsStarted e) (stopping e) (accepted e) (finished e) (errors e).
Definition set_timer (ts : timer_state) (e : exec) : exec :=
  mkExec (queue e) (delayed e) (workers e) ts (closing e) (inline e) (threadCount e)
    (queueLimit e) (seq e) (active e) (submitted e) (completed e) (rejected e)
    (threadsStarted e) (stopping e) (accepted e) (finished e) (errors e).
Definition set_closing (c : closer) (e : exec) : exec :=
  mkExec (queue e) (delayed e) (workers e) (timer e) c (inline e) (threadCount e)
    (queueLimit e) (seq e) (active e) (submitted e) (completed e) (rejected e)
    (threadsStarted e) (stopping e) (accepted e) (finished e) (errors e).
Definition set_inline (l : list Task) (e : exec) : exec :=
  mkExec (queue e) (delayed e) (workers e) (timer e) (closing e) l (threadCount e)
    (queueLimit e) (seq e) (active e) (submitted e) (completed e) (rejected e)
    (threadsStarted e) (stopping e) (accepted e) (finished e) (errors e).
Definition set_counts (sq ac su co re : nat) (e : exec) : exec :=
  mkExec (queue e) (delayed e) (workers e) (timer e) (closing e) (inline e) (threadCount e)
    (queueLimit e) sq ac su co re
    (threadsStarted e) (stopping e) (accepted e) (finished e) (errors e).
Definition set_flags (st sp : bool) (e : exec) : exec :=
  mkExec (queue e) (delayed e) (workers e) (timer e) (closing e) (inline e) (threadCount e)
    (queueLimit e) (seq e) (active e) (submitted e) (completed e) (rejected e)
    st sp (accepted e) (finished e) (errors e).
Definition set_history (a f : list Task) (er : list str) (e : exec) : exec :=
  mkExec (queue e) (delayed e) (workers e) (timer e) (closing e) (inline e) (threadCount e)
    (queueLimit e) (seq e) (active e) (submitted e) (completed e) (rejected e)
    (threadsStarted e) (stopping e) a f er.

Definition accept (t : Task) (e : exec) : exec :=
  set_history (t :: accepted e) (finished e) (errors e) e.

(** ** Notification *)

Fixpoint wake_first (ws : list worker) : list worker :=
  match ws with
  | [] => []
  | WParked :: ws' => WTop :: ws'
  | w :: ws' => w :: wake_first ws'
  end.

(** [cvWork_.notify_one()]: wakes one parked worker, the [k]-th when it is
    parked. *)
Definition notify_one (k : nat) (ws : list worker) : list worker :=
  match ws !! k with
  | Some WParked => <[k := WTop]> ws
  | _ => wake_first ws
  end.

Definition wake (w : worker) : worker := match w with WParked => WTop | _ => w end.
(** [cvWork_.notify_all()]. *)
Definition notify_all (ws : list worker) : list worker := map wake ws.
(** [cvTimer_.notify_one()], [cvTimer_.notify_all()]: the timer is the only
    thread that waits there. *)
Definition notify_timer (ts : timer_state) : timer_state :=
  match ts with TParked => TTop | _ => ts end.

(** ** Operations of the callers *)

Definition ensureStartedLocked (e : exec) : exec :=
  if threadsStarted e then e
  else set_flags true (stopping e)
         (set_timer TTop (set_workers (replicate (threadCount e) WTop) e)).

(** The tail shared by [tryPost] and [tryPostContinuation]. *)
Definition enqueue (k : nat) (t : Task) (e : exec) : exec :=
  let e := set_queue (queue e ++ [t]) e in
  let e := set_counts (seq e) (active e) (S (submitted e)) (completed e) (rejected e) e in
  accept t (set_workers (notify_one k (workers e)) e).

Definition tryPost (k : nat) (task : option Task) (e : exec) : bool * exec :=
  match task with
  | None => (false, e)
  | Some t =>
      if stopping e then (false, e)
      else
        let e := ensureStartedLocked e in
        if queueLimit e <=? length (queue e) then
          (false, set_counts (seq e) (active e) (submitted e) (completed e)
                    (S (rejected e)) e)
        else (true, enqueue k t e)
  end.

Definition tryPostContinuation (k : nat) (task : option Task) (e : exec) : bool * exec :=
  match task with
  | None => (false, e)
  | Some t => if stopping e then (false, e) else (true, enqueue k t (ensureStartedLocked e))
  end.

Definition postAfter (now delay : Z) (task : option Task) (e : exec) : exec :=
  match task with
  | None => e
  | Some t =>
      if stopping e then accept t (set_inline (t :: inline e) e)
      else
        let e := ensureStartedLocked e in
        let d := mkDelayed (now + Z.max delay 0) (seq e) t in
        let e := set_delayed (emplace d (delayed e)) e in
        let e := set_counts (S (seq e)) (active e) (submitted e) (completed e) (rejected e) e in
        accept t (set_timer (notify_timer (timer e)) e)
  end.

(** The critical section of [shutdown]; a second call returns at once. *)
Definition shutdown (e : exec) : exec :=
  if stopping e then e
  else
    let e := set_flags (threadsStarted e) true e in
    let e := set_closing (CRun (map dtask (delayed e))) (set_delayed [] e) in
    set_timer (notify_timer (timer e)) (set_workers (notify_all (workers e)) e).

(** ** Running tasks *)

Inductive outcome := Returned | ThrewStd (what : str) | ThrewOther.

(** What [runGuarded] logs; no exception leaves it. *)
Definition runGuarded (o : outcome) : list str :=
  match o with
  | Returned => []
  | ThrewStd what => [$"async executor task threw: " ++ what]
  | ThrewOther => [$"async executor task threw unknown exception"]
  end.

Definition finish (t : Task) (o : outcome) (e : exec) : exec :=
  set_history (accepted e) (t :: finished e) (errors e ++ runGuarded o) e.

(** ** Threads *)

(** First critical section of [workerLoop], on the worker's turn. *)
Definition worker_section (e : exec) : worker * exec :=
  match queue e with
  | [] => if stopping e then (WExit, e) else (WParked, e)
  | t :: q =>
      let e := set_queue q e in
      (WRun t, set_counts (seq e) (S (active e)) (submitted e) (completed e) (rejected e) e)
  end.

(** Second critical section of [workerLoop]. *)
Definition worker_done (e : exec) : exec :=
  set_counts (seq e) (active e - 1) (submitted e) (S (completed e)) (rejected e) e.

(** The critical section of [timerLoop] from the loop head ([TTop]) or from a
    wake-up in [wait_until] ([TTimed]); [now] is the clock. *)
Definition timer_section (now : Z) (ts : timer_state) (e : exec) : timer_state * exec :=
  match ts with
  | TTop =>
      match delayed e with
      | [] => if stopping e then (TExit, e) else (TParked, e)
      | d :: _ => (TTimed (deadline d), e)
      end
  | TTimed next =>
      match delayed e with
      | [] => if stopping e then (TExit, e) else (TTop, e)
      | d :: q =>
          if stopping e || negb (Z.eqb (deadline d) next) || Z.leb next now then
            if Z.ltb now (deadline d) then (TTop, e)
            else (TRun (dtask d), set_delayed q e)
          else (TTimed next, e)
      end
  | _ => (ts, e)
  end.

(** ** Steps *)

Inductive label :=
| ATryPost (k : nat) (task : option Task)
| ATryPostContinuation (k : nat) (task : option Task)
| APostAfter (now delay : Z) (task : option Task)
| AShutdown
| ASpurious (i : nat)
| ATimerSpurious
| IWorker (i : nat)
| IWorkerDone (i : nat) (o : outcome)
| ITimer (now : Z)
| ITimerDone (o : outcome)
| IInlineDone (o : outcome)
| ICloserRun (o : outcome)
| ICloserJoinTimer
| ICloserJoinWorkers.

(** Steps of the executor's own threads, of the thread that shuts it down and
    of callers that run a task inline, as opposed to calls and spurious
    wake-ups. *)
Definition internal (l : label) : bool :=
  match l with
  | ATryPost _ _ | ATryPostContinuation _ _ | APostAfter _ _ _ | AShutdown
  | ASpurious _ | ATimerSpurious => false
  | _ => true
  end.

Definition worker_exited (w : worker) : bool := match w with WExit => true | _ => false end.
Definition timer_joinable (ts : timer_state) : bool :=
  match ts with TExit | TNone => true | _ => false end.

Definition step (l : label) (e : exec) : option exec :=
  match l with
  | ATryPost k t => Some (tryPost k t e).2
  | ATryPostContinuation k t => Some (tryPostContinuation k t e).2
  | APostAfter now d t => Some (postAfter now d t e)
  | AShutdown => Some (shutdown e)
  | ASpurious i =>
      match workers e !! i with
      | Some WParked => Some (set_workers (<[i := WTop]> (workers e)) e)
      | _ => None
      end
  | ATimerSpurious =>
      match timer e with TParked => Some (set_timer TTop e) | _ => None end
  | IWorker i =>
      match workers e !! i with
      | Some WTop =>
          let '(w, e) := worker_section e in
          Some (set_workers (<[i := w]> (workers e)) e)
      | _ => None
      end
  | IWorkerDone i o =>
      match workers e !! i with
      | Some (WRun t) =>
          let e := worker_done (finish t o e) in
          Some (set_workers (<[i := WTop]> (workers e)) e)
      | _ => None
      end
  | ITimer now =>
      match timer e with
      | TTop | TTimed _ => let '(ts, e) := timer_section now (timer e) e in Some (set_timer ts e)
      | _ => None
      end
  | ITimerDone o =>
      match timer e with TRun t => Some (set_timer TTop (finish t o e)) | _ => None end
  | IInlineDone o =>
      match inline e with t :: l => Some (finish t o (set_inline l e)) | [] => None end
  | ICloserRun o =>
      match closing e with
      | CRun (t :: l) => Some (finish t o (set_closing (CRun l) e))
      | CRun [] => Some (set_closing CJoinTimer e)
      | _ => None
      end
  | ICloserJoinTimer =>
      match closing e with
      | CJoinTimer => if timer_joinable (timer e) then Some (set_closing CJoinWorkers e) else None
      | _ => None
      end
  | ICloserJoinWorkers =>
      match closing e with
      | CJoinWorkers =>
          if forallb worker_exited (workers e) then Some (set_closing CDone e) else None
      | _ => None
      end
  end.

Fixpoint run (ls : list label) (e : exec) : option exec :=
  match ls with
  | [] => Some e
  | l :: ls' => step l e ≫= run ls'
  end.

(** [stats()], without the three operation counters. *)
Record ExecutorStats := mkStats {
  st_threads : nat; st_queueDepth : nat; st_active : nat; st_submitted : nat;
  st_completed : nat; st_rejected : nat; st_delayedPending : nat }.
Definition stats (e : exec) : ExecutorStats :=
  mkStats (if threadsStarted e then threadCount e else 0) (length (queue e)) (active e)
    (submitted e) (completed e) (rejected e) (length (delayed e)).

(** ** Invariant *)

Definition runs (w : worker) : list Task := match w with WRun t => [t] | _ => [] end.
Definition running (ws : list worker) : list Task := ws ≫= runs.
Definition timer_runs (ts : timer_state) : list Task := match ts with TRun t => [t] | _ => [] end.
Definition closer_runs (c : closer) : list Task := match c with CRun l => l | _ => [] end.

Definition is_top (w : worker) : nat := match w with WTop => 1 | _ => 0 end.
Definition is_parked (w : worker) : nat := match w with WParked => 1 | _ => 0 end.
Definition is_exit (w : worker) : nat := match w with WExit => 1 | _ => 0 end.
Definition tops (ws : list worker) : nat := sum_list_with is_top ws.
Definition parked (ws : list worker) : nat := sum_list_with is_parked ws.
Definition exited (ws : list worker) : nat := sum_list_with is_exit ws.

#[local] Arguments running : simpl never.
#[local] Arguments tops : simpl never.
#[local] Arguments parked : simpl never.
#[local] Arguments exited : simpl never.

(** Every task the executor has taken over, by where it is now. *)
Definition held (e : exec) : list Task :=
  queue e ++ map dtask (delayed e) ++ running (workers e) ++ timer_runs (timer e)
    ++ closer_runs (closing e) ++ inline e ++ finished e.

(** [a] runs before [b]. *)
Definition before (a b : DelayedTask) : Prop := delayed_lt b a = true.

Record inv (e : exec) : Prop := {
  inv_tasks : accepted e ≡ₚ held e;
  inv_active : active e = length (running (workers e));
  inv_count : submitted e = length (queue e) + active e + completed e;
  inv_sorted : StronglySorted before (delayed e);
  inv_seq : Forall (fun d => seqno d < seq e) (delayed e);
  inv_wake : 0 < parked (workers e) -> length (queue e) <= tops (workers e);
  inv_timer : timer e = TParked -> delayed e = [] /\ stopping e = false;
  inv_stop : stopping e = true -> parked (workers e) = 0 /\ delayed e = [];
  inv_exit : 0 < exited (workers e) -> stopping e = true /\ queue e = [];
  inv_texit : timer e = TExit -> stopping e = true;
  inv_open : closing e = COpen <-> stopping e = false;
  inv_cold : threadsStarted e = false ->
    workers e = [] /\ timer e = TNone /\ queue e = [] /\ delayed e = [];
  inv_warm : threadsStarted e = true -> length (workers e) = threadCount e /\ timer e <> TNone;
  inv_conf : 0 < threadCount e /\ 0 < queueLimit e;
  inv_joined : closing e = CJoinWorkers \/ closing e = CDone -> timer_joinable (timer e) = true;
  inv_done : closing e = CDone -> forallb worker_exited (workers e) = true
}.

(** One worker moves from [a] to [b]. *)
Definition change (a b : worker) (ws ws' : list worker) : Prop :=
  exists rest, ws ≡ₚ a :: rest /\ ws' ≡ₚ b :: rest.

Lemma insert_change i a b ws : ws !! i = Some a -> change a b ws (<[i := b]> ws).
Proof.
  intros H. exists (delete i ws). split; [by apply delete_Permutation|].
  assert (Hi : i < length ws) by (by eapply lookup_lt_Some).
  rewrite (delete_Permutation (<[i:=b]> ws) i b) by (by apply list_lookup_insert_eq).
  by rewrite !delete_take_drop, take_insert_ge, drop_insert_lt by lia.
Qed.

Lemma change_sum f a b ws ws' :
  change a b ws ws' ->
  sum_list_with f ws' + f a = sum_list_with f ws + f b.
Proof. intros (r & -> & ->). cbn. lia. Qed.

#[local] Instance running_proper : Proper ((≡ₚ) ==> (≡ₚ)) running.
Proof. intros ws ws' H. unfold running. by rewrite H. Qed.

Lemma change_running a b ws ws' :
  change a b ws ws' -> runs a ++ running ws' ≡ₚ runs b ++ running ws.
Proof. intros (r & -> & ->). unfold running. cbn. rewrite !app_assoc. f_equiv. solve_Permutation. Qed.

Lemma change_length a b ws ws' : change a b ws ws' -> length ws' = length ws.
Proof. intros (r & -> & ->). done. Qed.

Lemma parked_lookup ws : 0 < parked ws -> exists i, ws !! i = Some WParked.
Proof.
  unfold parked. induction ws as [|w ws IH]; cbn; [lia|]. intros H.
  destruct w; try (destruct IH as [i Hi]; [exact H|]; by exists (S i)).
  by exists 0.
Qed.

Lemma wake_first_change ws :
  (parked ws = 0 /\ wake_first ws = ws) \/ change WParked WTop ws (wake_first ws).
Proof.
  induction ws as [|w ws IH]; [by left|].
  assert (Hcons : forall v, wake_first (v :: ws) = v :: wake_first ws ->
    is_parked v = 0 ->
    (parked (v :: ws) = 0 /\ wake_first (v :: ws) = v :: ws)
    \/ change WParked WTop (v :: ws) (wake_first (v :: ws))).
  { intros v -> Hv. destruct IH as [[H1 ->]|(r & Hr1 & Hr2)]; [left|right].
    - split; [|done]. unfold parked in *. cbn. by rewrite Hv.
    - exists (v :: r). rewrite Hr1 at 1. rewrite Hr2. split; constructor. }
  destruct w; try by apply Hcons. right. by exists ws.
Qed.

(** [notify_one] wakes a parked worker when there is one. *)
Lemma notify_one_change k ws :
  (parked ws = 0 /\ notify_one k ws = ws) \/ change WParked WTop ws (notify_one k ws).
Proof.
  unfold notify_one. destruct (ws !! k) as [[]|] eqn:E; try apply wake_first_change.
  right. by apply insert_change.
Qed.

Lemma notify_all_spec ws :
  parked (notify_all ws) = 0 /\ running (notify_all ws) = running ws
  /\ exited (notify_all ws) = exited ws /\ length (notify_all ws) = length ws.
Proof.
  unfold running, parked, exited. induction ws as [|w ws (H1 & H2 & H3 & H4)]; [done|].
  destruct w; cbn in *; rewrite ?H1, ?H3, ?H4; split_and!; try done; by f_equal.
Qed.

Lemma exited_all ws : forallb worker_exited ws = true -> exited ws = length ws /\ running ws = [].
Proof.
  unfold exited, running. induction ws as [|w ws IH]; [done|]. cbn.
  destruct w; cbn; try done. intros H. destruct (IH H) as [-> ->]. done.
Qed.

Lemma insert_delayed_perm d q : emplace d q ≡ₚ d :: q.
Proof.
  induction q as [|y q IH]; [done|]. cbn. destruct (delayed_lt d y); [|done].
  rewrite IH. constructor.
Qed.

Lemma delayed_lt_total a b :
  seqno a <> seqno b -> delayed_lt a b = false -> before a b.
Proof.
  unfold before, delayed_lt. intros Hn.
  destruct (Z.eqb_spec (deadline a) (deadline b)) as [E|E].
  - rewrite E, Z.eqb_refl, !Nat.ltb_ge, Nat.ltb_lt. lia.
  - destruct (Z.eqb_spec (deadline b) (deadline a)); [lia|].
    rewrite Z.ltb_ge, Z.ltb_lt. lia.
Qed.

Lemma before_trans a b c : before a b -> before b c -> before a c.
Proof.
  unfold before, delayed_lt. intros.
  repeat match goal with
  | H : context [Z.eqb ?x ?y] |- _ => destruct (Z.eqb_spec x y)
  | |- context [Z.eqb ?x ?y] => destruct (Z.eqb_spec x y)
  | H : (_ <? _) = true |- _ => apply Nat.ltb_lt in H
  | H : Z.ltb _ _ = true |- _ => apply Z.ltb_lt in H
  end; rewrite ?Nat.ltb_lt, ?Z.ltb_lt; lia.
Qed.

Lemma insert_delayed_sorted d q :
  StronglySorted before q -> Forall (fun x => seqno x <> seqno d) q ->
  StronglySorted before (emplace d q).
Proof.
  induction q as [|y q IH]; cbn; intros Hs Hn; [by repeat constructor|].
  apply StronglySorted_inv in Hs as [Hs Hy]. apply Forall_cons in Hn as [Hny Hn].
  destruct (delayed_lt d y) eqn:E.
  - constructor; [by apply IH|]. rewrite insert_delayed_perm. by constructor.
  - assert (Hd : before d y) by (by apply delayed_lt_total).
    constructor; [by constructor|]. constructor; [done|].
    eapply Forall_impl; [exact Hy|]. intros z Hz. by eapply before_trans.
Qed.

(** ** Every step keeps the invariant *)

(** The facts of [inv e] that a field update leaves alone. *)
Ltac inv_keep := constructor; cbn; try done; try tauto.

Lemma replicate_top n :
  running (replicate n WTop) = [] /\ parked (replicate n WTop) = 0
  /\ exited (replicate n WTop) = 0 /\ tops (replicate n WTop) = n.
Proof.
  unfold running, parked, exited, tops.
  induction n as [|n (H1 & H2 & H3 & H4)]; [done|]. cbn.
  split_and!; try done. by rewrite H4.
Qed.

Lemma ensureStarted_inv e :
  inv e -> stopping e = false ->
  inv (ensureStartedLocked e) /\ threadsStarted (ensureStartedLocked e) = true
  /\ stopping (ensureStartedLocked e) = false.
Proof.
  intros Hi Hs. unfold ensureStartedLocked.
  destruct (threadsStarted e) eqn:E; [by split_and!|]. destruct Hi. split_and!; [|done|done].
  destruct (inv_cold0 E) as (Hw & Ht & Hq & Hd).
  destruct (replicate_top (threadCount e)) as (H1 & H2 & H3 & H4).
  assert (Ho : closing e = COpen) by (by apply inv_open0).
  inv_keep.
  - rewrite inv_tasks0. unfold held. cbn. by rewrite Hw, Ht, H1.
  - by rewrite inv_active0, H1, Hw.
  - rewrite H2. lia.
  - rewrite H3. lia.
  - intros _. by rewrite length_replicate.
  - rewrite Ho. by intros [].
  - by rewrite Ho.
Qed.

Lemma post_inv k t e :
  inv e -> stopping e = false -> threadsStarted e = true -> inv (enqueue k t e).
Proof.
  intros [] Hs Hst. unfold enqueue. cbn [workers set_queue set_counts].
  destruct (notify_one_change k (workers e)) as [[Hp ->]|Hc]; cbn.
  - inv_keep.
    + rewrite inv_tasks0. unfold held. cbn. solve_Permutation.
    + rewrite length_app. cbn. lia.
    + unfold parked in *. lia.
    + intros H. destruct (inv_exit0 H). congruence.
  - pose proof (change_running _ _ _ _ Hc) as Hr. cbn in Hr.
    pose proof (change_sum is_parked _ _ _ _ Hc) as Hp. cbn in Hp.
    pose proof (change_sum is_top _ _ _ _ Hc) as Ht. cbn in Ht.
    pose proof (change_sum is_exit _ _ _ _ Hc) as Hx. cbn in Hx.
    inv_keep.
    + rewrite inv_tasks0. unfold held. cbn. rewrite Hr. solve_Permutation.
    + by rewrite Hr.
    + rewrite length_app. cbn. lia.
    + intros _. rewrite length_app. cbn. unfold tops, parked in *. lia.
    + intros H. congruence.
    + intros H. destruct inv_exit0; [unfold exited in *; lia|]. congruence.
    + intros _. by rewrite (change_length _ _ _ _ Hc); apply inv_warm0.
    + intros H. exfalso. destruct inv_open0 as [_ Ho]. specialize (Ho Hs). congruence.
Qed.

Lemma tryPost_inv k ot e : inv e -> inv (tryPost k ot e).2.
Proof.
  intros Hi. unfold tryPost. destruct ot as [t|]; [|done].
  destruct (stopping e) eqn:Hs; [done|].
  destruct (ensureStarted_inv e Hi Hs) as (H1 & H2 & H3).
  destruct (queueLimit _ <=? _); cbn; [|by apply post_inv].
  destruct H1. by inv_keep.
Qed.

Lemma tryPostContinuation_inv k ot e : inv e -> inv (tryPostContinuation k ot e).2.
Proof.
  intros Hi. unfold tryPostContinuation. destruct ot as [t|]; [|done].
  destruct (stopping e) eqn:Hs; [done|].
  destruct (ensureStarted_inv e Hi Hs) as (H1 & H2 & H3). by apply post_inv.
Qed.

Lemma postAfter_inv now d ot e : inv e -> inv (postAfter now d ot e).
Proof.
  intros Hi. unfold postAfter. destruct ot as [t|]; [|done].
  destruct (stopping e) eqn:Hs.
  - destruct Hi. inv_keep. rewrite inv_tasks0. unfold held. cbn. solve_Permutation.
  - destruct (ensureStarted_inv e Hi Hs) as (H1 & H2 & H3).
    generalize dependent (ensureStartedLocked e). clear. intros e [] H2 H3.
    assert (Ho : closing e = COpen) by (by apply inv_open0).
    inv_keep.
    + rewrite inv_tasks0. unfold held. cbn. rewrite insert_delayed_perm.
      destruct (timer e); cbn; solve_Permutation.
    + apply insert_delayed_sorted; [done|].
      eapply Forall_impl; [exact inv_seq0|]. cbn. intros; lia.
    + rewrite insert_delayed_perm. constructor; [cbn; lia|].
      eapply Forall_impl; [exact inv_seq0|]. cbn. intros; lia.
    + by destruct (timer e).
    + rewrite H3. done.
    + by destruct (timer e).
    + intros _. destruct (inv_warm0 H2). by destruct (timer e).
    + rewrite Ho. by intros [].
Qed.

Lemma shutdown_inv e : inv e -> inv (shutdown e).
Proof.
  intros Hi. unfold shutdown. destruct (stopping e) eqn:Hs; [done|]. destruct Hi.
  destruct (notify_all_spec (workers e)) as (H1 & H2 & H3 & H4).
  unfold notify_all in H1, H2, H3, H4.
  assert (Ho : closing e = COpen) by (by apply inv_open0).
  inv_keep; rewrite ?H1, ?H2, ?H3, ?H4.
  - rewrite inv_tasks0. unfold held. cbn. rewrite Ho. destruct (timer e); cbn; solve_Permutation.
  - done.
  - constructor.
  - lia.
  - by destruct (timer e).
  - intros H. split; [done|]. by apply inv_exit0.
  - intros H. destruct (inv_cold0 H) as (-> & -> & -> & _). done.
  - intros H. destruct (inv_warm0 H). split; [done|]. by destruct (timer e).
  - by intros [].
Qed.

Lemma change_exited a b ws ws' :
  change a b ws ws' -> forallb worker_exited ws = true -> a = WExit.
Proof.
  intros (r & Hr & _) H. apply Is_true_true_2, forallb_True in H.
  assert (Ha : a ∈ ws) by (rewrite Hr; by left).
  rewrite Forall_forall in H. specialize (H a Ha). by destruct a.
Qed.

(** The quantities of [inv] after one worker has moved. *)
Lemma change_facts a b ws ws' :
  change a b ws ws' ->
  runs a ++ running ws' ≡ₚ runs b ++ running ws
  /\ parked ws' + is_parked a = parked ws + is_parked b
  /\ tops ws' + is_top a = tops ws + is_top b
  /\ exited ws' + is_exit a = exited ws + is_exit b
  /\ length ws' = length ws.
Proof.
  intros H. split_and!; eauto using change_running, change_length; by apply change_sum.
Qed.

Lemma running_length ws : length (running ws) <= length ws.
Proof.
  induction ws as [|w ws IH]; [done|].
  change (running (w :: ws)) with (runs w ++ running ws).
  rewrite length_app. destruct w; cbn; lia.
Qed.

Lemma started_lookup e i w : inv e -> workers e !! i = Some w -> threadsStarted e = true.
Proof.
  intros Hi H. destruct (threadsStarted e) eqn:E; [done|].
  destruct (inv_cold e Hi E) as (Hw & _). by rewrite Hw in H.
Qed.

(** What a worker's move must establish, apart from what it leaves alone. *)
Lemma worker_moves_inv i a b e (e' : exec) :
  inv e -> workers e !! i = Some a -> a <> WExit ->
  workers e' = <[i := b]> (workers e) ->
  (forall r, running (workers e) ≡ₚ runs a ++ r -> running (workers e') ≡ₚ runs b ++ r ->
    accepted e' ≡ₚ held e') ->
  delayed e' = delayed e -> timer e' = timer e -> closing e' = closing e ->
  threadCount e' = threadCount e -> queueLimit e' = queueLimit e -> seq e' = seq e ->
  threadsStarted e' = threadsStarted e -> stopping e' = stopping e ->
  active e' + length (runs a) = active e + length (runs b) ->
  submitted e' = length (queue e') + active e' + completed e' ->
  (stopping e = true -> b <> WParked) ->
  queue e' = [] \/ b <> WParked /\ length (queue e') + is_top a <= length (queue e) + is_top b ->
  (b = WExit -> stopping e = true) ->
  (b = WExit \/ queue e = [] -> queue e' = []) ->
  inv e'.
Proof.
  intros Hi Hw Ha Hw' Hacc Hd Ht Hc Htc Hql Hsq Hst Hsp Hac Hsu Hb Hq Hbx Hqx.
  pose proof (started_lookup _ _ _ Hi Hw) as Hstd. destruct Hi.
  pose proof (insert_change i a b _ Hw) as Hch. rewrite <- Hw' in Hch.
  destruct (change_facts _ _ _ _ Hch) as (Hr & Hp & Htp & Hx & Hl).
  assert (Hp1 : is_parked b = 0 \/ b = WParked) by (destruct b; auto).
  assert (Hx1 : is_exit a = 0) by (by destruct a).
  assert (Hx2 : is_exit b = 0 \/ b = WExit) by (destruct b; auto).
  constructor; rewrite ?Hd, ?Ht, ?Hc, ?Htc, ?Hql, ?Hsq, ?Hst, ?Hsp; try done; try tauto.
  - destruct Hch as (r & H1 & H2). apply (Hacc (running r)); by rewrite ?H1, ?H2.
  - apply Permutation_length in Hr. rewrite !length_app in Hr. lia.
  - intros H. destruct Hq as [->|[Hq1 Hq2]]; [cbn; lia|].
    destruct Hp1 as [Hp1|]; [|done]. assert (length (queue e) <= tops (workers e)) by (apply inv_wake0; lia). lia.
  - intros H. destruct (inv_stop0 H). split; [|done].
    destruct Hp1 as [Hp1| ->]; [lia|]. exfalso. by apply Hb.
  - intros H. destruct Hx2 as [Hx2| ->]; [|auto].
    destruct inv_exit0 as [H1 H2]; [lia|]. auto.
  - rewrite Hl. tauto.
  - intros H. exfalso. by pose proof (change_exited _ _ _ _ Hch (inv_done0 H)).
Qed.

Lemma worker_take_inv i e e' :
  inv e -> step (IWorker i) e = Some e' -> inv e'.
Proof.
  intros Hi. cbn. destruct (workers e !! i) as [[]|] eqn:Hw; try done.
  pose proof (inv_tasks e Hi) as Hacc. pose proof (inv_count e Hi) as Hcount.
  unfold worker_section. destruct (queue e) as [|t q] eqn:Hq; cbn.
  - destruct (stopping e) eqn:Hs; intros [= <-].
    + eapply (worker_moves_inv i _ WExit); eauto; cbn; rewrite ?Hq; try done.
      intros r H1 H2. rewrite Hacc. unfold held. cbn. by rewrite Hq, H1, H2.
    + eapply (worker_moves_inv i _ WParked); eauto; cbn; rewrite ?Hq; try done;
        [|congruence].
      intros r H1 H2. rewrite Hacc. unfold held. cbn. by rewrite Hq, H1, H2.
  - intros [= <-].
    eapply (worker_moves_inv i _ (WRun t)); eauto; cbn; rewrite ?Hq; try done; try lia.
    + intros r H1 H2. rewrite Hacc. unfold held. cbn. rewrite Hq, H1, H2. solve_Permutation.
    + cbn in *. lia.
    + right. split; [done|]. cbn. lia.
    + by intros [].
Qed.

Lemma worker_done_inv i o e e' :
  inv e -> step (IWorkerDone i o) e = Some e' -> inv e'.
Proof.
  intros Hi. cbn. destruct (workers e !! i) as [[]|] eqn:Hw; try done. intros [= <-].
  pose proof (inv_tasks e Hi) as Hacc. pose proof (inv_count e Hi) as Hcount.
  pose proof (inv_active e Hi) as Hact.
  pose proof (Permutation_length (change_running _ _ _ _ (insert_change i _ WTop _ Hw))) as Hr.
  cbn in Hr.
  eapply (worker_moves_inv i _ WTop); eauto; cbn; try done; try lia.
  - intros r H1 H2. rewrite Hacc. unfold held. cbn. rewrite H1, H2. solve_Permutation.
  - right. split; [done|]. lia.
  - by intros [].
Qed.

(** The timer moves to [ts], leaving [dl] in the priority queue. *)
Lemma timer_moves_inv ts dl e :
  inv e -> timer_joinable (timer e) = false -> ts <> TNone ->
  map dtask dl ++ timer_runs ts ≡ₚ map dtask (delayed e) ++ timer_runs (timer e) ->
  dl `suffix_of` delayed e ->
  (ts = TParked -> dl = [] /\ stopping e = false) -> (ts = TExit -> stopping e = true) ->
  inv (set_timer ts (set_delayed dl e)).
Proof.
  intros Hi Hj Hts Hp [pre Hsuf] Hpk Hex. destruct Hi.
  assert (Hst : threadsStarted e = true).
  { destruct (threadsStarted e) eqn:E; [done|].
    destruct (inv_cold0 eq_refl) as (_ & Ht & _). by rewrite Ht in Hj. }
  assert (Hj' : ~ (closing e = CJoinWorkers \/ closing e = CDone))
    by (intros H; apply inv_joined0 in H; congruence).
  rewrite Hsuf in inv_sorted0, inv_seq0. apply Forall_app in inv_seq0 as [_ Hseq].
  assert (Hsorted : StronglySorted before dl).
  { clear -inv_sorted0. induction pre as [|d pre IH]; [done|]. apply IH.
    by apply StronglySorted_inv in inv_sorted0 as []. }
  inv_keep.
  - rewrite inv_tasks0. unfold held. cbn.
    rewrite (assoc_L (++) (map dtask dl)), (Permutation_app_comm (map dtask dl)), <- (assoc_L (++)).
    rewrite (assoc_L (++) (map dtask dl)), Hp. solve_Permutation.
  - intros H. destruct (inv_stop0 H) as [? Hd]. split; [done|].
    rewrite Hd in Hsuf. symmetry in Hsuf. by apply app_eq_nil in Hsuf as [].
Qed.

Lemma timer_inv now e e' : inv e -> step (ITimer now) e = Some e' -> inv e'.
Proof.
  intros Hi. cbn. assert (Hsame : forall ts, set_timer ts e = set_timer ts (set_delayed (delayed e) e))
    by (by destruct e).
  destruct (timer e) as [| | |next| |] eqn:Ht; try done; unfold timer_section;
    destruct (delayed e) as [|d q] eqn:Hd; repeat case_match; intros; simplify_eq;
    rewrite ?Hsame; apply timer_moves_inv; rewrite ?Ht, ?Hd; try done.
  - by rewrite app_nil_r, Permutation_app_comm.
  - by exists [d].
Qed.

Lemma timer_done_inv o e e' : inv e -> step (ITimerDone o) e = Some e' -> inv e'.
Proof.
  intros Hi. cbn. destruct (timer e) as [| | | |t|] eqn:Ht; try done. intros [= <-].
  pose proof (inv_joined e Hi) as Hj. rewrite Ht in Hj.
  assert (Hst : threadsStarted e = true).
  { destruct (threadsStarted e) eqn:E; [done|].
    destruct (inv_cold e Hi E) as (_ & H & _). congruence. }
  destruct Hi. inv_keep.
  - rewrite inv_tasks0. unfold held. cbn. rewrite Ht. cbn. solve_Permutation.
  - intros _. split; [|done]. by apply inv_warm0.
Qed.

Lemma spurious_inv i e e' : inv e -> step (ASpurious i) e = Some e' -> inv e'.
Proof.
  intros Hi. cbn. destruct (workers e !! i) as [[]|] eqn:Hw; try done. intros [= <-].
  pose proof (inv_tasks e Hi) as Hacc. pose proof (inv_count e Hi) as Hcount.
  eapply (worker_moves_inv i _ WTop); eauto; cbn; try done.
  - intros r H1 H2. rewrite Hacc. unfold held. cbn. by rewrite H1, H2.
  - right. split; [done|]. lia.
  - by intros [].
Qed.

(** The closing thread moves to [c], having run [fin]. *)
Lemma closer_moves_inv c fin er e :
  inv e -> closing e <> COpen -> c <> COpen ->
  closer_runs c ++ fin ≡ₚ closer_runs (closing e) ++ finished e ->
  (c = CJoinWorkers \/ c = CDone -> timer_joinable (timer e) = true) ->
  (c = CDone -> forallb worker_exited (workers e) = true) ->
  inv (set_history (accepted e) fin er (set_closing c e)).
Proof.
  intros [] Ho Hc Hp Hj Hd. inv_keep.
  rewrite inv_tasks0. unfold held. cbn.
  rewrite (Permutation_app_comm (inline e)), (assoc_L (++) (closer_runs (closing e))), <- Hp.
  solve_Permutation.
Qed.

Lemma others_inv l e e' :
  match l with
  | ATimerSpurious | IInlineDone _ | ICloserRun _ | ICloserJoinTimer | ICloserJoinWorkers => True
  | _ => False
  end -> inv e -> step l e = Some e' -> inv e'.
Proof.
  intros Hl Hi H.
  assert (Hsame : forall c, set_closing c e
    = set_history (accepted e) (finished e) (errors e) (set_closing c e)) by (by destruct e).
  destruct l; try done; cbn in H; repeat case_match; simplify_eq.
  - assert (Hd : set_delayed (delayed e) e = e) by (by destruct e).
    rewrite <- Hd. apply timer_moves_inv; try done; by rewrite ?H0.
  - destruct Hi. inv_keep. rewrite inv_tasks0. unfold held. cbn. rewrite H0. solve_Permutation.
  - rewrite Hsame. apply closer_moves_inv; rewrite ?H0; try done. by intros [].
  - apply (closer_moves_inv (CRun l) (t :: finished e) (errors e ++ runGuarded o) e);
      rewrite ?H0; try done; [cbn; solve_Permutation|by intros []].
  - rewrite Hsame. by apply closer_moves_inv; rewrite ?H0.
  - rewrite Hsame. apply closer_moves_inv; rewrite ?H0; try done.
    intros _. apply (inv_joined e Hi). by left.
Qed.

Lemma executor_step_inv l e e' : inv e -> step l e = Some e' -> inv e'.
Proof.
  intros Hi H. destruct l;
    first [ refine (others_inv _ _ _ _ Hi H); exact I | exact (spurious_inv _ _ _ Hi H)
          | exact (worker_take_inv _ _ _ Hi H) | exact (worker_done_inv _ _ _ _ Hi H)
          | exact (timer_inv _ _ _ Hi H) | exact (timer_done_inv _ _ _ Hi H)
          | cbn [step] in H; apply (inj Some) in H; subst e'; auto using tryPost_inv,
              tryPostContinuation_inv, postAfter_inv, shutdown_inv ].
Qed.

Lemma executor_run_inv ls e e' : inv e -> run ls e = Some e' -> inv e'.
Proof.
  revert e; induction ls as [|l ls IH]; intros e Hi; cbn; [by intros [= <-]|].
  intros (e1 & H1 & H2)%bind_Some. by eapply IH, H2; eapply executor_step_inv.
Qed.

Lemma init_inv hw threads size : inv (makeThreadPoolExecutor hw threads size).
Proof.
  constructor; cbn; try done; try (by constructor).
  - unfold exited. cbn. lia.
  - destruct (Nat.eqb_spec (if Z.ltb 0 threads then Z.to_nat threads else hw) 0);
      destruct size; lia.
Qed.

(** ** Termination and liveness of shutdown *)

Definition worker_work (w : worker) : nat :=
  match w with WExit => 0 | WTop => 1 | WParked => 2 | WRun _ => 2 end.
Definition timer_work (ts : timer_state) : nat :=
  match ts with TNone | TExit => 0 | TTop | TTimed _ => 1 | TParked | TRun _ => 2 end.
Definition closer_work (c : closer) : nat :=
  match c with COpen => 0 | CRun l => 3 + length l | CJoinTimer => 2 | CJoinWorkers => 1 | CDone => 0 end.

(** The internal steps left once [shutdown] has set [stopping_]. *)
Definition work (e : exec) : nat :=
  2 * length (queue e) + sum_list_with worker_work (workers e) + timer_work (timer e)
    + closer_work (closing e) + length (inline e).

Definition is_post_after (l : label) : nat := match l with APostAfter _ _ _ => 1 | _ => 0 end.
Definition is_internal (l : label) : nat := if internal l then 1 else 0.
Definition post_after_calls (ls : list label) : nat := sum_list_with is_post_after ls.
Definition internal_steps (ls : list label) : nat := sum_list_with is_internal ls.

(** Every thread has returned and every caller has been released. *)
Definition drained (e : exec) : Prop :=
  closing e = CDone /\ timer_joinable (timer e) = true
  /\ forallb worker_exited (workers e) = true /\ queue e = [] /\ inline e = [].

Lemma step_stopping l e e' : stopping e = true -> step l e = Some e' -> stopping e' = true.
Proof.
  intros Hs H. destruct l; cbn in H; unfold tryPost, tryPostContinuation, postAfter, shutdown in H;
    rewrite ?Hs in H; repeat case_match; simplify_eq; cbn; try done.
  - unfold worker_section in *. repeat case_match; by simplify_eq.
  - unfold timer_section in *. repeat case_match; by simplify_eq.
  - unfold timer_section in *. repeat case_match; by simplify_eq.
Qed.

(** An internal step uses up work; a call adds at most one unit, and only
    [postAfter] does. *)
Lemma step_work l e e' :
  inv e -> stopping e = true -> step l e = Some e' ->
  work e' + is_internal l <= work e + is_post_after l.
Proof.
  intros Hi Hs H. destruct (inv_stop e Hi Hs) as [_ Hd].
  assert (Hchange : forall i a b, workers e !! i = Some a ->
    sum_list_with worker_work (<[i:=b]> (workers e)) + worker_work a
    = sum_list_with worker_work (workers e) + worker_work b)
    by (intros i a b Hw; by apply change_sum, insert_change).
  destruct l; cbn [step] in H;
    unfold tryPost, tryPostContinuation, postAfter, shutdown, worker_section, timer_section in H;
    rewrite ?Hs, ?Hd in H; repeat case_match; simplify_eq; unfold work; cbn;
    repeat match goal with
    | H : _ = _ :: _ |- _ => rewrite H
    | H : _ = [] |- _ => rewrite H
    | H : timer _ = _ |- _ => rewrite H
    | H : closing _ = _ |- _ => rewrite H
    | H : workers _ !! ?i = Some ?a |- context [<[?i := ?b]> _] =>
        pose proof (Hchange i a b H); clear H
    end; cbn in *; lia.
Qed.

Lemma run_work ls e e' :
  inv e -> stopping e = true -> run ls e = Some e' ->
  work e' + internal_steps ls <= work e + post_after_calls ls.
Proof.
  revert e; induction ls as [|l ls IH]; intros e Hi Hs; cbn [run]; [by intros [= <-]|].
  intros (e1 & H1 & H2)%bind_Some. pose proof (step_work _ _ _ Hi Hs H1).
  apply IH in H2; [|by eapply executor_step_inv|by eapply step_stopping].
  unfold internal_steps, post_after_calls in *. cbn [sum_list_with]. lia.
Qed.

(** No deadlock: until everything is drained some thread can move. *)
Lemma stopping_progress e :
  inv e -> stopping e = true ->
  drained e \/ exists l e', internal l = true /\ step l e = Some e'.
Proof.
  intros Hi Hs.
  assert (Hopen : closing e <> COpen) by (rewrite (inv_open e Hi), Hs; done).
  destruct (inline e) as [|t il] eqn:Hin;
    [|right; exists (IInlineDone Returned); cbn; rewrite Hin; eauto].
  destruct (forallb worker_exited (workers e)) eqn:Hw.
  2:{ right. apply not_true_iff_false in Hw.
      destruct (decide (Exists (fun w => ~ Is_true (worker_exited w)) (workers e))) as [He|He].
      - apply Exists_exists in He as (w & [i Hl]%list_elem_of_lookup & Hx).
        destruct (inv_stop e Hi Hs) as [Hp _]. destruct w; try done.
        + exists (IWorker i). cbn. rewrite Hl. destruct (worker_section e). eauto.
        + exfalso. pose proof (change_sum is_parked _ _ _ _ (insert_change i _ WTop _ Hl)) as H.
          cbn in H. unfold parked in Hp. lia.
        + exists (IWorkerDone i Returned). cbn. rewrite Hl. eauto.
      - exfalso. apply Hw, Is_true_true, forallb_True.
        apply not_Exists_Forall in He; [|solve_decision].
        eapply Forall_impl; [exact He|]. cbn. intros x Hx. by apply dec_stable. }
  assert (Hq : queue e = []).
  { destruct (exited_all _ Hw) as [Hx _]. destruct (threadsStarted e) eqn:Hst.
    - destruct (inv_warm e Hi Hst) as [Hl _]. destruct (inv_conf e Hi).
      apply (inv_exit e Hi). lia.
    - by destruct (inv_cold e Hi Hst) as (_ & _ & ? & _). }
  destruct (timer_joinable (timer e)) eqn:Ht.
  2:{ right. destruct (timer e) eqn:E; try done.
      - exists (ITimer 0). cbn. rewrite E. destruct (timer_section _ _ _). eauto.
      - exfalso. destruct (inv_timer e Hi E). congruence.
      - exists (ITimer 0). cbn. rewrite E. destruct (timer_section _ _ _). eauto.
      - exists (ITimerDone Returned). cbn. rewrite E. eauto. }
  destruct (closing e) as [|[|t l]| | |] eqn:Hc; [done|right..|left].
  - exists (ICloserRun Returned). cbn. rewrite Hc. eauto.
  - exists (ICloserRun Returned). cbn. rewrite Hc. eauto.
  - exists ICloserJoinTimer. cbn. rewrite Hc, Ht. eauto.
  - exists ICloserJoinWorkers. cbn. rewrite Hc, Hw. eauto.
  - by split_and!.
Qed.

Lemma drained_all_run e : inv e -> stopping e = true -> drained e -> accepted e ≡ₚ finished e.
Proof.
  intros Hi Hs (Hc & Ht & Hw & Hq & Hin). rewrite (inv_tasks e Hi). unfold held.
  destruct (inv_stop e Hi Hs) as [_ Hd]. destruct (exited_all _ Hw) as [_ Hr].
  rewrite Hq, Hd, Hr, Hc, Hin. cbn. by destruct (timer e).
Qed.

Lemma run_stopping ls e e' : stopping e = true -> run ls e = Some e' -> stopping e' = true.
Proof.
  revert e; induction ls as [|l ls IH]; intros e Hs; cbn [run]; [by intros [= <-]|].
  intros (e1 & H1 & H2)%bind_Some. eapply IH, H2. by eapply step_stopping.
Qed.

Lemma run_app ls ls' e : run (ls ++ ls') e = run ls e ≫= run ls'.
Proof.
  revert e; induction ls as [|l ls IH]; intros e; [done|]. cbn.
  destruct (step l e); [apply IH|done].
Qed.

(** From any state of a closed executor its own threads can finish. *)
Lemma stopping_drains e :
  inv e -> stopping e = true ->
  exists ls e', Forall (fun l => internal l = true) ls /\ run ls e = Some e' /\ drained e'.
Proof.
  remember (work e) as n eqn:Hn. revert e Hn; induction n as [n IH] using lt_wf_ind.
  intros e -> Hi Hs. destruct (stopping_progress e Hi Hs) as [Hd|(l & e1 & Hl & H1)].
  { exists [], e. by split_and!. }
  pose proof (step_work _ _ _ Hi Hs H1) as Hw. unfold is_internal in Hw. rewrite Hl in Hw.
  destruct (IH (work e1)) with (e := e1) as (ls & e' & H2 & H3 & H4); try done.
  - destruct l; cbn in *; try done; lia.
  - by eapply executor_step_inv.
  - by eapply step_stopping.
  - exists (l :: ls), e'. split_and!; [by constructor| |done]. cbn. by rewrite H1.
Qed.

Lemma shutdown_stopping e : stopping (shutdown e) = true.
Proof. unfold shutdown. by destruct (stopping e) eqn:?. Qed.

(** ** Queue bound and timer order *)

Definition is_continuation (l : label) : nat :=
  match l with ATryPostContinuation _ _ => 1 | _ => 0 end.
Definition continuations (ls : list label) : nat := sum_list_with is_continuation ls.

Lemma ensureStarted_queue e :
  queue (ensureStartedLocked e) = queue e /\ queueLimit (ensureStartedLocked e) = queueLimit e.
Proof. unfold ensureStartedLocked. by destruct (threadsStarted e). Qed.

Lemma step_queue l e e' :
  step l e = Some e' ->
  queueLimit e' = queueLimit e
  /\ length (queue e') <= Nat.max (length (queue e)) (queueLimit e) + is_continuation l.
Proof.
  destruct (ensureStarted_queue e) as [Hq Hl].
  intros H. destruct l; cbn [step] in H;
    unfold tryPost, tryPostContinuation, postAfter, shutdown, worker_section, timer_section in H;
    repeat case_match; simplify_eq; cbn; rewrite ?length_app, ?Hq, ?Hl; cbn;
    repeat match goal with
    | H : (_ <=? _) = false |- _ => apply Nat.leb_gt in H; rewrite ?Hq, ?Hl in H
    | H : queue _ = _ |- _ => rewrite H
    end; cbn; try lia.
Qed.

Lemma run_queue ls e e' :
  run ls e = Some e' -> length (queue e) <= queueLimit e ->
  queueLimit e' = queueLimit e /\ length (queue e') <= queueLimit e + continuations ls.
Proof.
  intros H Hb. enough (Hg : queueLimit e' = queueLimit e
    /\ length (queue e') <= Nat.max (length (queue e)) (queueLimit e) + continuations ls) by lia.
  clear Hb. revert e H; induction ls as [|l ls IH]; intros e; cbn [run].
  - intros [= <-]. unfold continuations. cbn. lia.
  - intros (e1 & H1 & H2)%bind_Some. apply step_queue in H1. apply IH in H2.
    unfold continuations in *. cbn. lia.
Qed.

Lemma before_spec a b :
  before a b <->
  (deadline a < deadline b)%Z \/ deadline a = deadline b /\ seqno a < seqno b.
Proof.
  unfold before, delayed_lt. destruct (Z.eqb_spec (deadline b) (deadline a)).
  - rewrite Nat.ltb_lt. lia.
  - rewrite Z.ltb_lt. lia.
Qed.
End Executor.
Arguments exec : clear implicits.
Arguments label : clear implicits.
Arguments worker : clear implicits.

(** States the executor reaches from its constructor, under any interleaving of
    calls and thread steps. *)
Definition reaches {Task} (hw : nat) (threads : Z) (size : nat) (ls : list (label Task))
    (e : exec Task) : Prop :=
  run ls (makeThreadPoolExecutor hw threads size) = Some e.

Lemma reaches_inv {Task} hw threads size ls (e : exec Task) :
  reaches hw threads size ls e -> inv e.
Proof. intros H. eapply executor_run_inv, H. apply init_inv. Qed.

(** A small executor: two threads, queue of one; the second post is rejected,
    a continuation is not, a task throws, a delayed task is due at 15. *)
Definition demo_run : list (label nat) :=
  [ATryPost 0 (Some 1); ATryPost 0 (Some 2); ATryPostContinuation 0 (Some 3);
   APostAfter 10 5 (Some 4); APostAfter 10 0 (Some 5); IWorker 0; IWorker 1;
   IWorkerDone 0 (ThrewStd $"boom"); IWorker 0; ITimer 10; ITimer 10].

Definition demo : exec nat :=
  default (makeThreadPoolExecutor 0 2 1) (run demo_run (makeThreadPoolExecutor 0 2 1)).

(** C6.  Under every interleaving of calls, worker and timer steps, the executor
    accounts for its tasks: the tasks it has accepted are exactly the ones it
    holds queued, delayed, running or finished, each once; the statistics agree
    ([submitted = queueDepth + active + completed]) and at most [threadCount]
    tasks are active. *)
Theorem executor_accounting {Task} hw threads size ls (e : exec Task) :
  reaches hw threads size ls e ->
  accepted e ≡ₚ held e
  /\ submitted e = length (queue e) + active e + completed e
  /\ active e = length (running (workers e))
  /\ active e <= threadCount e.
Proof.
  intros Hi%reaches_inv. split_and!; try apply Hi. rewrite (inv_active e Hi).
  pose proof (running_length (workers e)) as Hr.
  destruct (threadsStarted e) eqn:E.
  - destruct (inv_warm e Hi E). lia.
  - destruct (inv_cold e Hi E) as (Hw & _). rewrite Hw in *. cbn in *. lia.
Qed.

Lemma executor_accounting_witness :
  reaches 0 2 1 demo_run demo /\ accepted demo ≡ₚ held demo /\ rejected demo = 1
  /\ finished demo = [1] /\ timer demo = TRun 5.
Proof.
  assert (H : reaches 0 2 1 demo_run demo) by (by vm_compute).
  destruct (executor_accounting 0 2 1 demo_run demo H) as (H1 & _).
  split; [exact H|]. split; [exact H1|]. by vm_compute.
Defined.

(** C31.  No wake-up is lost: while tasks are queued, some worker is not parked
    and can move, and when any worker is parked there are at least as many
    workers on their way to the queue as queued tasks; while tasks are delayed
    the timer is not parked. *)
Theorem executor_no_lost_wakeup {Task} hw threads size ls (e : exec Task) :
  reaches hw threads size ls e ->
  (queue e <> [] ->
     (exists i w, workers e !! i = Some w /\ (w = WTop \/ exists t, w = WRun t))
     /\ (0 < parked (workers e) -> length (queue e) <= tops (workers e)))
  /\ (delayed e <> [] -> timer e <> TParked /\ timer e <> TNone /\ timer e <> TExit).
Proof.
  intros Hi%reaches_inv. split.
  - intros Hq. split; [|apply Hi].
    destruct (threadsStarted e) eqn:E; [|by destruct (inv_cold e Hi E) as (_ & _ & ? & _)].
    destruct (inv_warm e Hi E) as [Hl _]. destruct (inv_conf e Hi) as [Ht _].
    assert (Hx : exited (workers e) = 0).
    { destruct (exited (workers e)) eqn:Ex; [done|]. destruct (inv_exit e Hi); [lia|done]. }
    destruct (decide (0 < parked (workers e))) as [Hp|Hp].
    + assert (Htop : 0 < tops (workers e)).
      { pose proof (inv_wake e Hi Hp). destruct (queue e); [done|]. cbn in *. lia. }
      clear -Htop. unfold tops in Htop. induction (workers e) as [|w ws IH]; cbn in Htop; [lia|].
      destruct w; try (destruct IH as (i & w & ? & ?); [cbn in Htop; lia|]; by exists (S i), w).
      exists 0, WTop. eauto.
    + destruct (workers e) as [|w ws]; [cbn in Hl; lia|]. exists 0, w. split; [done|].
      unfold exited, parked in *. destruct w; cbn in *; eauto; lia.
  - intros Hd. split_and!; intros H.
    + by destruct (inv_timer e Hi H).
    + destruct (threadsStarted e) eqn:E; [by apply (inv_warm e Hi E)|].
      by destruct (inv_cold e Hi E) as (_ & _ & _ & ?).
    + apply (inv_texit e Hi) in H. by destruct (inv_stop e Hi H).
Qed.

Lemma executor_no_lost_wakeup_witness :
  exists e, reaches 0 2 1 (take 4 demo_run) e /\ queue e = [1; 3]
    /\ exists i w, workers e !! i = Some w /\ (w = WTop \/ exists t, w = WRun t).
Proof.
  eexists. assert (H : reaches 0 2 1 (take 4 demo_run) _) by (by vm_compute).
  split; [exact H|]. split; [done|].
  destruct (executor_no_lost_wakeup 0 2 1 (take 4 demo_run) _ H) as [Hq _].
  apply Hq. done.
Defined.

(**  Shutdown terminates: once [shutdown] has been called, in whatever state
    the executor was, every run of the threads is finite.  The number of steps
    they take is bounded by the work present at the call plus the [postAfter]
    calls made afterwards; no schedule makes them spin. *)
Theorem shutdown_terminates {Task} hw threads size ls (e : exec Task) ls' e' :
  reaches hw threads size ls e -> run ls' (shutdown e) = Some e' ->
  internal_steps ls' <= work (shutdown e) + post_after_calls ls'.
Proof.
  intros Hi%reaches_inv H.
  pose proof (run_work ls' _ _ (shutdown_inv e Hi) (shutdown_stopping e) H). lia.
Qed.

Definition drain_run : list (label nat) :=
  [IWorkerDone 1 Returned; IWorker 1; IWorker 0; ITimerDone ThrewOther;
   ICloserRun Returned; ICloserRun Returned; ITimer 0; ICloserJoinTimer; ICloserJoinWorkers].

Lemma shutdown_terminates_witness :
  exists e', run drain_run (shutdown demo) = Some e' /\ finished e' = [4; 5; 3; 1]
    /\ internal_steps drain_run <= work (shutdown demo) + post_after_calls drain_run.
Proof.
  assert (H0 : reaches 0 2 1 demo_run demo) by (by vm_compute).
  eexists. assert (H : run drain_run (shutdown demo) = Some _) by (by vm_compute).
  split; [exact H|]. split; [done|].
  exact (shutdown_terminates 0 2 1 demo_run demo drain_run _ H0 H).
Defined.

(** C18.  Shutdown drains: after [shutdown], from every state the executor can
    get to (further calls included) its threads can run until all have
    returned, they are never stuck before, and at that point every accepted
    task, queued, delayed or posted late, has been run exactly once. *)
Theorem shutdown_drains {Task} hw threads size ls (e : exec Task) ls' e' :
  reaches hw threads size ls e -> run ls' (shutdown e) = Some e' ->
  (drained e' \/ exists l e'', internal l = true /\ step l e' = Some e'')
  /\ (drained e' -> accepted e' ≡ₚ finished e')
  /\ exists ds ed, Forall (fun l => internal l = true) ds /\ run ds e' = Some ed
       /\ drained ed /\ accepted ed ≡ₚ finished ed.
Proof.
  intros Hi%reaches_inv H.
  assert (Hi' : inv e') by (by eapply executor_run_inv, H; apply shutdown_inv).
  assert (Hs : stopping e' = true) by (eapply run_stopping, H; apply shutdown_stopping).
  split_and!; [by apply stopping_progress|by apply drained_all_run|].
  destruct (stopping_drains e' Hi' Hs) as (ds & ed & H1 & H2 & H3).
  exists ds, ed. split_and!; try done. apply drained_all_run; [by eapply executor_run_inv| |done].
  by eapply run_stopping.
Qed.

Lemma shutdown_drains_witness :
  exists e', run [APostAfter 20 5 (Some 9)] (shutdown demo) = Some e' /\ inline e' = [9]
    /\ exists ds ed, Forall (fun l => internal l = true) ds /\ run ds e' = Some ed
         /\ drained ed /\ accepted ed ≡ₚ finished ed.
Proof.
  assert (H0 : reaches 0 2 1 demo_run demo) by (by vm_compute).
  eexists. assert (H : run [APostAfter 20 5 (Some 9)] (shutdown demo) = Some _) by (by vm_compute).
  split; [exact H|]. split; [done|].
  destruct (shutdown_drains 0 2 1 demo_run demo _ _ H0 H) as (_ & _ & H3). exact H3.
Defined.

(**  The timer runs delayed tasks in order: the task it takes is due
    ([deadline <= now]) and precedes every task it leaves, by deadline and by
    the order of posting among equal deadlines. *)
Theorem timer_takes_earliest {Task} hw threads size ls (e : exec Task) now e' t :
  reaches hw threads size ls e -> step (ITimer now) e = Some e' -> timer e' = TRun t ->
  exists d, delayed e = d :: delayed e' /\ dtask d = t /\ (deadline d <= now)%Z
    /\ forall d', d' ∈ delayed e' ->
       (deadline d < deadline d')%Z \/ deadline d = deadline d' /\ seqno d < seqno d'.
Proof.
  intros Hi%reaches_inv H Ht. pose proof (inv_sorted e Hi) as Hsort. revert H. cbn.
  destruct (timer e) as [| | |next| |]; try done; unfold timer_section;
    destruct (delayed e) as [|d q] eqn:Hd; repeat case_match; intros; simplify_eq; cbn in *;
    simplify_eq.
  apply StronglySorted_inv in Hsort as [_ Hall]. rewrite Forall_forall in Hall.
  exists d. split_and!; try done; [by apply Z.ltb_ge|].
  intros d' Hin. by apply before_spec, Hall.
Qed.

Lemma timer_takes_earliest_witness :
  exists e, reaches 0 2 1 (take 10 demo_run) e /\ map dtask (delayed e) = [5; 4]
    /\ exists d, dtask d = 5 /\ (deadline d <= 10)%Z.
Proof.
  eexists. assert (H : reaches 0 2 1 (take 10 demo_run) _) by (by vm_compute).
  split; [exact H|]. split; [done|].
  destruct (timer_takes_earliest 0 2 1 (take 10 demo_run) _ 10 demo 5 H)
    as (d & _ & H1 & H2 & _); [by vm_compute|done|]. by exists d.
Defined.

(**  The queue is bounded: however calls interleave, it holds at most
    [queueLimit] tasks plus one for each internal continuation posted. *)
Theorem executor_queue_bound {Task} hw threads size ls (e : exec Task) :
  reaches hw threads size ls e -> length (queue e) <= Nat.max size 1 + continuations ls.
Proof.
  intros H. destruct (run_queue _ _ _ H) as [_ Hb]; [cbn; lia|]. revert Hb.
  cbn. destruct size; cbn; lia.
Qed.

Lemma executor_queue_bound_witness :
  exists e, reaches 0 2 1 (take 3 demo_run) e /\ length (queue e) = 2
    /\ length (queue e) <= Nat.max 1 1 + continuations (take 3 demo_run).
Proof.
  eexists. assert (H : reaches 0 2 1 (take 3 demo_run) _) by (by vm_compute).
  split; [exact H|]. split; [done|].
  exact (executor_queue_bound 0 2 1 (take 3 demo_run) _ H).
Defined.
End Executor.
