(* ===== verification/StopSignal.v ===== *)
(** * Stop signals

    src/common/operation_options.cpp: [StopSignal], [CancellationSource] and
    [CancellationToken].  A signal is requested once; the callbacks subscribed
    before run on the requesting thread, later ones at once on the subscriber's.
    Dropping a lease removes its callback and waits for a run in progress.

    Every critical section (of the signal's mutex or of a slot's) is one step,
    and [run] executes any interleaving of one requesting thread, any number of
    subscribers and any number of threads dropping leases. *)

From S2P Require Import Prelude.

Module StopSignal.

(** ** State *)

(** [Slot], with its history: [calls] counts the runs begun, [running] says
    that one is in progress (its thread owns the slot's mutex); [erased] and
    [released] are the two halves of the lease's deleter. *)
Record Slot := mkSlot {
  callback : bool;
  running : bool;
  calls : nat;
  erased : bool;
  released : bool
}.

(** [slots] has every slot ever made, in the order of its id ([next_] is its
    length); [slots_] of the code is those in [registered].  [callbacks] is the
    local vector of [request] with the entries still to run, [current] the one
    being run, [immediate] the slots whose subscriber must run them. *)
Record signal := mkSignal {
  requested : bool;
  slots : list Slot;
  registered : list nat;
  callbacks : list nat;
  current : option nat;
  immediate : list nat
}.

Definition fresh : signal := mkSignal false [] [] [] None [].

Definition upd (i : nat) (f : Slot -> Slot) (s : signal) : signal :=
  mkSignal (requested s) (alter f i (slots s)) (registered s) (callbacks s)
    (current s) (immediate s).

(** ** Operations *)

(** [subscribe], up to the release of the signal's mutex. *)
Definition subscribe (s : signal) : signal :=
  let id := length (slots s) in
  let slots' := slots s ++ [mkSlot true false 0 false false] in
  if requested s then
    mkSignal true slots' (registered s) (callbacks s) (current s) (id :: immediate s)
  else
    mkSignal false slots' (registered s ++ [id]) (callbacks s) (current s) (immediate s).

(** [request], up to the release of the signal's mutex. *)
Definition request (s : signal) : bool * signal :=
  if requested s then (false, s)
  else (true, mkSignal true (slots s) (registered s) (registered s) (current s) (immediate s)).

(** [CancellationSource::requestCancellation] and
    [CancellationToken::cancellationRequested]; [None] is an empty token. *)
Definition requestCancellation (s : option signal) : bool * option signal :=
  match s with None => (false, None) | Some s => let '(b, s) := request s in (b, Some s) end.
Definition cancellationRequested (s : option signal) : bool :=
  match s with None => false | Some s => requested s end.

(** [Slot::run] up to the call of the copied callback. *)
Definition begin_run (x : Slot) : Slot :=
  if callback x then mkSlot true true (S (calls x)) (erased x) (released x) else x.
Definition end_run (x : Slot) : Slot :=
  mkSlot (callback x) false (calls x) (erased x) (released x).
(** The deleter of a lease: [slots_.erase(id)], then [callback = {}]. *)
Definition erase (x : Slot) : Slot :=
  mkSlot (callback x) (running x) (calls x) true (released x).
Definition clear (x : Slot) : Slot :=
  mkSlot false (running x) (calls x) (erased x) true.

Inductive label :=
| LSubscribe
| LRequest
| LRequestRun
| LRequestEnd
| LSubscriberRun (i : nat)
| LSubscriberEnd (i : nat)
| LErase (i : nat)
| LClear (i : nat) (own : bool).

(** [LClear i own]: [own] is a lease dropped by the callback itself, on the
    thread that holds the recursive mutex; another thread waits. *)
Definition step (l : label) (s : signal) : option signal :=
  match l with
  | LSubscribe => Some (subscribe s)
  | LRequest => Some (request s).2
  | LRequestRun =>
      match callbacks s, current s with
      | i :: rest, None =>
          x ← slots s !! i;
          if running x then None
          else Some (upd i begin_run (mkSignal (requested s) (slots s) (registered s) rest
                      (if callback x then Some i else None) (immediate s)))
      | _, _ => None
      end
  | LRequestEnd =>
      i ← current s;
      Some (upd i end_run (mkSignal (requested s) (slots s) (registered s) (callbacks s)
                             None (immediate s)))
  | LSubscriberRun i =>
      x ← slots s !! i;
      if bool_decide (i ∈ immediate s) && negb (running x) then
        Some (upd i begin_run (mkSignal (requested s) (slots s) (registered s) (callbacks s)
                (current s) (filter (fun j => j <> i) (immediate s))))
      else None
  | LSubscriberEnd i =>
      x ← slots s !! i;
      if running x && negb (bool_decide (current s = Some i)) then Some (upd i end_run s) else None
  | LErase i =>
      x ← slots s !! i;
      if erased x then None
      else Some (upd i erase (mkSignal (requested s) (slots s)
                  (filter (fun j => j <> i) (registered s)) (callbacks s) (current s) (immediate s)))
  | LClear i own =>
      x ← slots s !! i;
      if erased x && negb (released x) && (own || negb (running x)) then Some (upd i clear s)
      else None
  end.

Fixpoint run (ls : list label) (s : signal) : option signal :=
  match ls with [] => Some s | l :: ls' => step l s ≫= run ls' end.

(** ** Invariant *)

(** The slots some thread still has to run. *)
Definition due (s : signal) : list nat := callbacks s ++ immediate s.

(** What holds of slot [i]. *)
Definition slot_ok (s : signal) (i : nat) (x : Slot) : Prop :=
  calls x <= 1
  /\ (0 < calls x -> requested s = true /\ i ∉ due s)
  /\ (running x = true -> calls x = 1)
  /\ (released x = true -> erased x = true)
  /\ callback x = negb (released x)
  /\ (erased x = false -> if requested s then i ∈ due s \/ calls x = 1 else i ∈ registered s)
  /\ (current s = Some i -> running x = true).

Record inv (s : signal) : Prop := {
  inv_nodup : NoDup (due s);
  inv_reg : NoDup (registered s);
  inv_range : Forall (fun i => i < length (slots s)) (due s ++ registered s);
  inv_idle : requested s = false -> due s = [];
  inv_current : forall i, current s = Some i -> i < length (slots s);
  inv_slots : forall i x, slots s !! i = Some x -> slot_ok s i x
}.

Lemma fresh_inv : inv fresh.
Proof. by constructor; try constructor. Qed.

(** A step on slot [i] that leaves the other slots and the duties of the other
    indices alone. *)
Lemma upd_slots i f s s' :
  slots s' = slots s -> (forall x, slots s !! i = Some x -> slot_ok s' i (f x)) ->
  (forall j x, j <> i -> slots s !! j = Some x -> slot_ok s' j x) ->
  forall j x, slots (upd i f s') !! j = Some x -> slot_ok (upd i f s') j x.
Proof.
  intros Hs Hi Ho j x. cbn. rewrite Hs. destruct (decide (j = i)) as [->|Hn].
  - rewrite list_lookup_alter_eq. intros (y & Hy & ->)%fmap_Some. exact (Hi y Hy).
  - rewrite list_lookup_alter_ne by done. exact (Ho j x Hn).
Qed.

Lemma slot_ok_mono s s' i x :
  slot_ok s i x -> requested s' = requested s ->
  (i ∈ due s' <-> i ∈ due s) -> (i ∈ registered s -> i ∈ registered s') ->
  (current s' = Some i -> current s = Some i) -> slot_ok s' i x.
Proof.
  intros (H1 & H2 & H3 & H4 & H5 & H6 & H7) Hr Hd Hreg Hc. unfold slot_ok. rewrite Hr.
  split_and!; try done.
  - rewrite Hd. done.
  - intros He. specialize (H6 He). destruct (requested s); [by rewrite Hd|auto].
  - auto.
Qed.

Lemma due_range s i : inv s -> i ∈ due s ++ registered s -> i < length (slots s).
Proof. intros Hi. pose proof (inv_range s Hi) as H. rewrite Forall_forall in H. apply H. Qed.

Lemma subscribe_inv s : inv s -> inv (subscribe s).
Proof.
  intros Hi. pose proof (due_range s) as Hr. unfold subscribe.
  set (n := length (slots s)) in *.
  assert (Hfresh : n ∉ due s ++ registered s) by (intros H; apply (Hr n Hi) in H; lia).
  rewrite not_elem_of_app in Hfresh. destruct Hfresh as [Hfresh1 Hfresh2].
  assert (Hcur : current s <> Some n) by (intros H; apply (inv_current s Hi) in H; lia).
  assert (Hlk : forall j x l, (slots s ++ [l]) !! j = Some x ->
    slots s !! j = Some x /\ j <> n \/ j = n /\ x = l).
  { intros j x l H. apply lookup_app_Some in H as [H|[H1 H2]].
    - left. split; [done|]. apply lookup_lt_Some in H. lia.
    - right. apply list_lookup_singleton_Some in H2 as [? ->]. split; [lia|done]. }
  assert (Hlen : forall l : Slot, length (slots s ++ [l]) = S n) by (intros; rewrite length_app; cbn; lia).
  assert (Hrange : Forall (fun i => i < S n) (due s ++ registered s)).
  { eapply Forall_impl; [exact (inv_range s Hi)|]. cbn. intros; lia. }
  destruct (requested s) eqn:E; destruct Hi; constructor; unfold due in *; cbn; rewrite ?Hlen.
  - rewrite <- Permutation_middle. by constructor.
  - done.
  - rewrite <- Permutation_middle. constructor; [lia|done].
  - done.
  - intros i Hc. apply inv_current0 in Hc. lia.
  - intros j x [[H Hn]|[-> ->]]%Hlk.
    + eapply slot_ok_mono; [by apply inv_slots0|done| |done|done].
      unfold due; cbn. rewrite !elem_of_app, elem_of_cons. tauto.
    + unfold slot_ok, due. cbn. split_and!; try done; try lia.
      intros _. left. rewrite elem_of_app. right. by left.
  - done.
  - rewrite Permutation_app_comm. by constructor.
  - rewrite (assoc_L (++)), Permutation_app_comm. constructor; [lia|done].
  - intros _. by apply inv_idle0.
  - intros i Hc. apply inv_current0 in Hc. lia.
  - intros j x [[H Hn]|[-> ->]]%Hlk.
    + eapply slot_ok_mono; [by apply inv_slots0|done|done| |done].
      cbn. rewrite elem_of_app. tauto.
    + unfold slot_ok, due. cbn. split_and!; try done; try lia.
      intros _. rewrite elem_of_app. right. by left.
Qed.

Lemma request_inv s : inv s -> inv (request s).2.
Proof.
  intros Hi. unfold request. destruct (requested s) eqn:E; [done|]. cbn.
  pose proof (inv_idle s Hi E) as Hd. unfold due in Hd. apply app_eq_nil in Hd as [Hd1 Hd2].
  destruct Hi. unfold due in *. rewrite Hd1, Hd2 in *. cbn in *.
  constructor; unfold due; cbn; rewrite ?app_nil_r; try done.
  - rewrite Forall_app. done.
  - intros i x H. destruct (inv_slots0 i x H) as (H1 & H2 & H3 & H4 & H5 & H6 & H7).
    rewrite E in *. unfold slot_ok, due. cbn. rewrite app_nil_r.
    split_and!; try done; [naive_solver lia|auto].
Qed.

(** A step that changes slot [i] and at most its place in the lists. *)
Lemma upd_inv i f s s' :
  inv s -> slots s' = slots s -> requested s' = requested s ->
  NoDup (due s') -> NoDup (registered s') ->
  due s' ⊆ due s -> registered s' ⊆ registered s ->
  (forall j, current s' = Some j -> current s = Some j \/ j = i /\ i < length (slots s)) ->
  (forall x, slots s !! i = Some x -> slot_ok s' i (f x)) ->
  (forall j, j <> i -> (j ∈ due s -> j ∈ due s') /\ (j ∈ registered s -> j ∈ registered s')) ->
  inv (upd i f s').
Proof.
  intros Hi Hs Hr Hd1 Hd2 Hsub1 Hsub2 Hc Hx Ho.
  assert (Hlen : length (slots (upd i f s')) = length (slots s)).
  { cbn. by rewrite length_alter, Hs. }
  constructor; try done.
  - rewrite Hlen, Forall_forall. intros j Hj. apply (due_range s j Hi).
    change (j ∈ due s' ++ registered s') in Hj. rewrite elem_of_app in *. naive_solver.
  - change (requested s' = false -> due s' = []). rewrite Hr. intros H.
    pose proof (inv_idle s Hi H) as He. rewrite He in Hsub1.
    destruct (due s') as [|a l]; [done|]. exfalso. specialize (Hsub1 a (list_elem_of_here _ _)). set_solver.
  - rewrite Hlen. intros j Hj. change (current s' = Some j) in Hj.
    destruct (Hc j Hj) as [H|[-> H]]; [by apply (inv_current s Hi)|done].
  - apply (upd_slots i f s s' Hs Hx). intros j x Hn Hj.
    destruct (Ho j Hn) as [Ho1 Ho2].
    eapply slot_ok_mono; [by apply (inv_slots s Hi)|done| |done|].
    + split; [apply Hsub1|done].
    + intros H. by destruct (Hc j H) as [|[-> _]].
Qed.

Lemma begin_run_ok s s' i x :
  slot_ok s i x -> running x = false -> requested s = true -> requested s' = true ->
  i ∈ due s -> i ∉ due s' -> (current s' = Some i -> callback x = true) ->
  slot_ok s' i (begin_run x).
Proof.
  intros (H1 & H2 & H3 & H4 & H5 & H6 & H7) Hx Hr Hr' Hd Hd' Hc. unfold begin_run.
  assert (Hcalls : calls x = 0).
  { destruct (calls x); [done|]. destruct H2; [lia|done]. }
  destruct (callback x) eqn:Hcb; unfold slot_ok; cbn; rewrite ?Hr', ?Hcalls.
  - split_and!; try done; try lia; by intros _; right.
  - split_and!; try done; try lia.
    + congruence.
    + by rewrite Hcb.
    + intros He. destruct (released x); [|done]. by rewrite H4 in He.
    + intros H. by apply Hc in H.
Qed.

(** Changes that leave a slot's duties alone. *)
Lemma end_run_ok s s' i x :
  slot_ok s i x -> requested s' = requested s -> due s' = due s ->
  registered s' = registered s -> current s' <> Some i -> slot_ok s' i (end_run x).
Proof.
  intros (H1 & H2 & H3 & H4 & H5 & H6 & H7) Hr Hd Hreg Hc.
  unfold slot_ok. cbn. rewrite Hr, Hd, Hreg. by split_and!.
Qed.

Lemma request_run_inv s s' : inv s -> step LRequestRun s = Some s' -> inv s'.
Proof.
  intros Hi. cbn. destruct (callbacks s) as [|i rest] eqn:Hcb; [done|].
  destruct (current s) eqn:Hcur; [done|].
  intros (x & Hx & H)%bind_Some. destruct (running x) eqn:Hrun; [done|]. simplify_eq.
  pose proof (inv_nodup s Hi) as Hnd. unfold due in Hnd. rewrite Hcb in Hnd.
  cbn in Hnd. apply NoDup_cons in Hnd as [Hni Hnd].
  assert (Hreq : requested s = true).
  { destruct (requested s) eqn:E; [done|]. pose proof (inv_idle s Hi E) as He.
    unfold due in He. by rewrite Hcb in He. }
  eapply upd_inv; [exact Hi|done|done|done|by apply Hi| |done| | |]; unfold due; cbn; rewrite ?Hcb.
  - intros j. cbn. rewrite elem_of_cons. tauto.
  - intros j. destruct (callback x); [|done]. intros [= <-]. right.
    split; [done|]. by eapply lookup_lt_Some.
  - intros y Hy. assert (y = x) as -> by congruence.
    eapply (begin_run_ok s); [by apply (inv_slots s Hi)|done|done|done| |done|].
    + unfold due. rewrite Hcb. by left.
    + cbn. by destruct (callback x).
  - intros j Hj. cbn. rewrite elem_of_cons. naive_solver.
Qed.

Lemma subscriber_run_inv i s s' : inv s -> step (LSubscriberRun i) s = Some s' -> inv s'.
Proof.
  intros Hi. cbn. intros (x & Hx & H)%bind_Some.
  destruct (bool_decide (i ∈ immediate s) && negb (running x)) eqn:E; [|done]. simplify_eq.
  apply andb_prop in E as [Hin%bool_decide_eq_true Hrun%negb_true_iff].
  pose proof (inv_nodup s Hi) as Hnd. unfold due in Hnd. apply NoDup_app in Hnd as (Hn1 & Hn2 & Hn3).
  assert (Hreq : requested s = true).
  { destruct (requested s) eqn:E; [done|]. pose proof (inv_idle s Hi E) as He.
    unfold due in He. apply app_eq_nil in He as [_ He]. rewrite He in Hin. set_solver. }
  eapply upd_inv; [exact Hi|done|done| |by apply Hi| |done| | |]; unfold due; cbn.
  - apply NoDup_app. split_and!; [done| |by apply NoDup_filter].
    intros j Hj. rewrite list_elem_of_filter. naive_solver.
  - intros j. rewrite !elem_of_app, list_elem_of_filter. tauto.
  - tauto.
  - intros y Hy. assert (y = x) as -> by congruence.
    pose proof (inv_slots s Hi i x Hx) as Hok.
    eapply (begin_run_ok s); [done|done|done|done| | |].
    + unfold due. rewrite elem_of_app. by right.
    + unfold due. cbn. rewrite elem_of_app, list_elem_of_filter. naive_solver.
    + cbn. intros Hc. destruct Hok as (_ & _ & _ & _ & _ & _ & H7). rewrite H7 in Hrun; done.
  - intros j Hj. rewrite !elem_of_app, list_elem_of_filter. tauto.
Qed.

Lemma request_end_inv s s' : inv s -> step LRequestEnd s = Some s' -> inv s'.
Proof.
  intros Hi. cbn. intros (i & Hc & H)%bind_Some. simplify_eq.
  eapply upd_inv; [exact Hi|done|done|by apply Hi|by apply Hi|done|done|done| |by auto].
  intros x Hx. by eapply end_run_ok; [apply (inv_slots s Hi)|..].
Qed.

Lemma subscriber_end_inv i s s' : inv s -> step (LSubscriberEnd i) s = Some s' -> inv s'.
Proof.
  intros Hi. cbn. intros (x & Hx & H)%bind_Some.
  destruct (running x && negb (bool_decide (current s = Some i))) eqn:E; [|done]. simplify_eq.
  apply andb_prop in E as [_ Hc%negb_true_iff%bool_decide_eq_false].
  eapply upd_inv; [exact Hi|done|done|by apply Hi|by apply Hi|done|done|by auto| |by auto].
  intros y Hy. by eapply end_run_ok; [apply (inv_slots s Hi)|..].
Qed.

Lemma erase_inv i s s' : inv s -> step (LErase i) s = Some s' -> inv s'.
Proof.
  intros Hi. cbn. intros (x & Hx & H)%bind_Some. destruct (erased x); [done|]. simplify_eq.
  eapply upd_inv; [exact Hi|done|done|by apply Hi|by apply NoDup_filter, Hi|done| |by auto| |]; cbn.
  - intros j. rewrite list_elem_of_filter. tauto.
  - intros y Hy. destruct (inv_slots s Hi i y Hy) as (H1 & H2 & H3 & H4 & H5 & H6 & H7).
    unfold slot_ok. cbn. by split_and!.
  - intros j Hj. rewrite list_elem_of_filter. tauto.
Qed.

Lemma clear_inv i own s s' : inv s -> step (LClear i own) s = Some s' -> inv s'.
Proof.
  intros Hi. cbn. intros (x & Hx & H)%bind_Some.
  destruct (erased x) eqn:He; [|done]. cbn in H. destruct (negb (released x) && _); [|done]. simplify_eq.
  eapply upd_inv; [exact Hi|done|done|by apply Hi|by apply Hi|done|done|by auto| |by auto].
  intros y Hy. assert (y = x) as -> by congruence.
  destruct (inv_slots s Hi i x Hy) as (H1 & H2 & H3 & H4 & H5 & H6 & H7).
  unfold slot_ok. cbn. by split_and!.
Qed.

Lemma signal_step_inv l s s' : inv s -> step l s = Some s' -> inv s'.
Proof.
  intros Hi H. destruct l.
  - cbn [step] in H. simplify_eq. by apply subscribe_inv.
  - cbn [step] in H. simplify_eq. by apply request_inv.
  - by eapply request_run_inv.
  - by eapply request_end_inv.
  - by eapply subscriber_run_inv.
  - by eapply subscriber_end_inv.
  - by eapply erase_inv.
  - by eapply clear_inv.
Qed.

Lemma signal_run_inv ls s s' : inv s -> run ls s = Some s' -> inv s'.
Proof.
  revert s; induction ls as [|l ls IH]; intros s Hi; cbn; [by intros [= <-]|].
  intros (s1 & H1 & H2)%bind_Some. eapply IH, H2. by eapply signal_step_inv.
Qed.

(** ** A released callback stays quiet *)

Definition quiet (n : nat) (x : Slot) : Prop :=
  released x = true /\ running x = false /\ calls x = n.

Lemma upd_lookup i f s j x :
  slots (upd i f s) !! j = Some x ->
  exists y, slots s !! j = Some y /\ (x = y \/ j = i /\ x = f y).
Proof.
  cbn. destruct (decide (j = i)) as [->|Hn].
  - rewrite list_lookup_alter_eq. intros (y & Hy & ->)%fmap_Some. eauto.
  - rewrite list_lookup_alter_ne by done. eauto.
Qed.

Lemma step_quiet l s s' i n x :
  inv s -> slots s !! i = Some x -> quiet n x -> step l s = Some s' ->
  exists y, slots s' !! i = Some y /\ quiet n y.
Proof.
  intros Hi Hx (Hq1 & Hq2 & Hq3) H.
  assert (Hcb : callback x = false).
  { destruct (inv_slots s Hi i x Hx) as (_ & _ & _ & _ & H5 & _). by rewrite H5, Hq1. }
  assert (Hkeep : forall j f t, slots t = slots s -> quiet n (f x) ->
    exists y, slots (upd j f t) !! i = Some y /\ quiet n y).
  { intros j f t Ht Hf. cbn. rewrite Ht. destruct (decide (i = j)) as [->|Hn].
    - rewrite list_lookup_alter_eq, Hx. by exists (f x).
    - rewrite list_lookup_alter_ne by done. by exists x. }
  destruct l; cbn in H; unfold subscribe, request in H; repeat case_match; simplify_eq; cbn;
    try (exists x; split; [|done]; try done; by apply lookup_app_l_Some);
    try (apply bind_Some in H as (y & Hy & H)); repeat case_match; simplify_eq;
    apply Hkeep; try done; unfold begin_run; by rewrite ?Hcb.
Qed.

Lemma run_quiet ls s s' i n x :
  inv s -> slots s !! i = Some x -> quiet n x -> run ls s = Some s' ->
  exists y, slots s' !! i = Some y /\ quiet n y.
Proof.
  revert s x; induction ls as [|l ls IH]; intros s x Hi Hx Hq; cbn; [intros [= <-]; eauto|].
  intros (s1 & H1 & H2)%bind_Some.
  destruct (step_quiet l s s1 i n x Hi Hx Hq H1) as (y & Hy & Hq').
  eapply IH; [|exact Hy|done|done]. by eapply signal_step_inv.
Qed.

Definition demo_run : list label :=
  [LSubscribe; LSubscribe; LSubscribe; LErase 1; LRequest; LRequestRun; LSubscribe;
   LSubscriberRun 3; LRequestEnd; LErase 2; LRequestRun; LRequestEnd; LSubscriberEnd 3].

(**  A stop signal calls each subscribed callback at most once and only after
    the request, under every interleaving of subscribers, requester and lease
    holders; once the requester and the late subscribers are through, every
    callback whose lease is still held has been called exactly once. *)
Theorem stop_signal_exactly_once ls s i x :
  run ls fresh = Some s -> slots s !! i = Some x ->
  calls x <= 1 /\ (0 < calls x -> requested s = true)
  /\ (requested s = true -> due s = [] -> erased x = false -> calls x = 1).
Proof.
  intros H Hx. assert (Hi : inv s) by (eapply signal_run_inv, H; apply fresh_inv).
  destruct (inv_slots s Hi i x Hx) as (H1 & H2 & _ & _ & _ & H6 & _).
  split_and!; [done|by intros; apply H2|]. intros Hr Hd He. specialize (H6 He).
  rewrite Hr, Hd in H6. destruct H6; [set_solver|done].
Qed.

Lemma stop_signal_exactly_once_witness :
  exists s, run demo_run fresh = Some s /\ due s = [] /\ map calls (slots s) = [1; 0; 1; 1]
    /\ forall i x, slots s !! i = Some x -> calls x <= 1.
Proof.
  eexists. assert (H : run demo_run fresh = Some _) by (by vm_compute).
  split; [exact H|]. split; [done|]. split; [done|].
  intros i x Hx. apply (stop_signal_exactly_once demo_run _ i x H Hx).
Defined.

(**  Dropping a lease is safe: once the deleter has returned on a thread
    other than the callback's own, the callback is not in progress and never
    starts again, whatever the other threads do; so the connection it would
    cancel may be reused. *)
Theorem lease_release_safe ls s i s1 ls' s2 x :
  run ls fresh = Some s -> step (LClear i false) s = Some s1 -> run ls' s1 = Some s2 ->
  slots s !! i = Some x ->
  exists y, slots s2 !! i = Some y /\ running y = false /\ calls y = calls x.
Proof.
  intros H Hc H2 Hx. assert (Hi : inv s) by (eapply signal_run_inv, H; apply fresh_inv).
  assert (Hi1 : inv s1) by (by eapply signal_step_inv).
  cbn in Hc. rewrite Hx in Hc. cbn in Hc.
  destruct (erased x && negb (released x) && negb (running x)) eqn:E; [|done]. simplify_eq.
  apply andb_prop in E as [_ Hr%negb_true_iff].
  destruct (run_quiet ls' _ s2 i (calls x) (clear x) Hi1) as (y & Hy & _ & Hy2 & Hy3); [| |done|].
  - cbn. by rewrite list_lookup_alter_eq, Hx.
  - done.
  - by exists y.
Qed.

Lemma lease_release_safe_witness :
  exists s s1 s2, run [LSubscribe; LErase 0] fresh = Some s
    /\ step (LClear 0 false) s = Some s1 /\ run [LRequest; LSubscribe; LSubscriberRun 1] s1 = Some s2
    /\ exists y, slots s2 !! 0 = Some y /\ running y = false /\ calls y = 0.
Proof.
  do 3 eexists. assert (H1 : run [LSubscribe; LErase 0] fresh = Some _) by (by vm_compute).
  split; [exact H1|]. split; [by vm_compute|]. split; [by vm_compute|].
  eapply (lease_release_safe [LSubscribe; LErase 0] _ 0 _ [LRequest; LSubscribe; LSubscriberRun 1] _
    (mkSlot true false 0 true false) H1); by vm_compute.
Defined.
End StopSignal.
