(* ===== verification/Operation.v ===== *)
(** * Operation states: deadlines, cancellation and completions

    src/common/operation_options.cpp and operation_state.h: [OperationState]
    (creation under a parent, stop reasons, status, remaining time), the
    [Deadlines] scheduler, connection bindings, [controlledCompletion] and
    [OperationScope].

    Operations live in a store and refer to each other by index; a
    [std::function] subscribed to a stop signal is one of the callbacks the
    source subscribes.  A signal is its flag and its callbacks in the order of
    subscription (StopSignal.v has its internal concurrency).  Times are
    nanoseconds of [steady_clock], an [int64]; timeouts are milliseconds.  The
    clock is an argument. *)

From S2P Require Import Prelude Types Context.
From stdpp Require Import relations sorting.

Module Operation.

(** ** Data *)

Definition time_max : Z := int64_max.
Definition ms : Z := 1000000.

Record OperationOptions := mkOptions {
  timeout : Z;
  opt_deadline : Z;
  cancellation : option nat;
  dataSource : str;
  opt_idempotency : Idempotency;
  allowCompatibilityFallback : bool
}.

Definition no_options : OperationOptions := mkOptions 0 time_max None [] Unspecified true.

(** What is subscribed to an operation's signal: a child operation
    ([create]), a pending completion ([controlledCompletion]) or the cancel of a
    bound connection ([bind]). *)
Inductive callback := CbChild (c : nat) | CbDeliver (p : nat) | CbCancel (b : nat).

Record Op := mkOp {
  reason : ErrorCode;
  requested : bool;
  slots : list callback;
  deadline : Z;
  fallbackAllowed : bool;
  writeStarted : bool;
  native : bool;
  alive : bool;
  parent : option nat
}.

(** The signal of a [CancellationSource]; its subscribers are operations. *)
Record Source := mkSource { src_requested : bool; src_slots : list nat }.

Inductive ExecutionMode := Native | CompatibilityFallback.
Record Result := mkResult { status : Status; mode : ExecutionMode; payload : option nat }.

(** [Pending] of [controlledCompletion], and [Binding] of [bind]. *)
Record Pending := mkPending { p_op : nat; done_ : bool }.
Record Binding := mkBinding { b_op : nat; active : bool; connection : option nat }.

(** [entries] are the [Deadlines] entries, ordered by key; [cancels] the queue of
    the cancellation executor; [delivered] and [cancelled] are what the
    completions and connections have received. *)
Record world := mkWorld {
  ops : list Op;
  sources : list Source;
  pendings : list Pending;
  bindings : list Binding;
  entries : list (Z * nat * nat);
  next : nat;
  cancels : list nat;
  delivered : list (nat * Result);
  cancelled : list nat
}.

Definition empty_world : world := mkWorld [] [] [] [] [] 0 [] [] [].

Definition set_ops (l : list Op) (w : world) : world :=
  mkWorld l (sources w) (pendings w) (bindings w) (entries w) (next w) (cancels w)
    (delivered w) (cancelled w).
Definition set_sources (l : list Source) (w : world) : world :=
  mkWorld (ops w) l (pendings w) (bindings w) (entries w) (next w) (cancels w)
    (delivered w) (cancelled w).
Definition set_pendings (l : list Pending) (d : list (nat * Result)) (w : world) : world :=
  mkWorld (ops w) (sources w) l (bindings w) (entries w) (next w) (cancels w) d (cancelled w).
Definition set_bindings (l : list Binding) (w : world) : world :=
  mkWorld (ops w) (sources w) (pendings w) l (entries w) (next w) (cancels w)
    (delivered w) (cancelled w).
Definition set_entries (l : list (Z * nat * nat)) (n : nat) (w : world) : world :=
  mkWorld (ops w) (sources w) (pendings w) (bindings w) l n (cancels w)
    (delivered w) (cancelled w).
Definition set_cancels (l c : list nat) (w : world) : world :=
  mkWorld (ops w) (sources w) (pendings w) (bindings w) (entries w) (next w) l
    (delivered w) c.

Definition upd_op (i : nat) (f : Op -> Op) (w : world) : world :=
  set_ops (alter f i (ops w)) w.

(** [reason] set by the compare-exchange and the signal marked requested. *)
Definition halt (code : ErrorCode) (o : Op) : Op :=
  mkOp code true (slots o) (deadline o) (fallbackAllowed o) (writeStarted o) (native o)
    (alive o) (parent o).
Definition set_slots (l : list callback) (o : Op) : Op :=
  mkOp (reason o) (requested o) l (deadline o) (fallbackAllowed o) (writeStarted o) (native o)
    (alive o) (parent o).
(** [slots_.emplace(id, slot)]. *)
Definition add_slot (cb : callback) (o : Op) : Op := set_slots (slots o ++ [cb]) o.
Definition set_bound (ws na : bool) (o : Op) : Op :=
  mkOp (reason o) (requested o) (slots o) (deadline o) (fallbackAllowed o) ws na
    (alive o) (parent o).
Definition set_dead (o : Op) : Op :=
  mkOp (reason o) (requested o) (slots o) (deadline o) (fallbackAllowed o) (writeStarted o)
    (native o) false (parent o).

(** ** [status] and [remaining] *)

Definition op_code (now : Z) (o : Op) : ErrorCode :=
  if code_eqb (reason o) Ok && Z.leb (deadline o) now then QueryTimeout else reason o.

Definition set_outcome (b : bool) (s : Status) : Status :=
  mkStatus (code_ s) (message s) (sqlState s) (nativeCode s) (retryable s)
    (connectionBroken s) b.

Definition op_status (now : Z) (o : Op) : Status :=
  let code := op_code now o in
  if code_eqb code Ok then status_OK
  else set_outcome (writeStarted o)
    (status_error code
      (if code_eqb code Cancelled then $"operation cancelled"
       else if code_eqb code QueryTimeout then $"operation deadline exceeded"
       else $"invalid operation options")).

(** [chrono::ceil<milliseconds>] of a duration in nanoseconds. *)
Definition ceil_ms (d : Z) : Z := (- ((- d) / ms))%Z.

Definition remaining (now other : Z) (o : Op) : Z :=
  if Z.eqb (deadline o) time_max then other
  else
    let left := Z.max 0 (ceil_ms (deadline o - now)) in
    if Z.ltb other 0 then left else Z.min other left.

(** ** Stopping *)

(** [Pending::deliver]. *)
Definition deliver (now : Z) (p : nat) (r : Result) (w : world) : world :=
  match pendings w !! p with
  | Some pd =>
      if done_ pd then w
      else
        let r' :=
          match ops w !! p_op pd with
          | Some o =>
              let stop := op_status now o in
              if status_ok stop then r
              else mkResult stop (if native o then Native else CompatibilityFallback) (payload r)
          | None => r
          end in
        set_pendings (<[p := mkPending (p_op pd) true]> (pendings w)) (delivered w ++ [(p, r')]) w
  | None => w
  end.

Definition default_result : Result := mkResult status_OK Native None.

(** [cancellations()] has a queue of 1024; a task it refuses is dropped. *)
Definition cancel_limit : nat := 1024.
Definition post_cancel (b : nat) (w : world) : world :=
  if cancel_limit <=? length (cancels w) then w
  else set_cancels (cancels w ++ [b]) (cancelled w) w.

Definition op_alive (w : world) (i : nat) : bool :=
  match ops w !! i with Some o => alive o | None => false end.
Definition op_code_of (now : Z) (w : world) (i : nat) : ErrorCode :=
  match ops w !! i with Some o => op_code now o | None => Ok end.

(** A callback of operation [i]'s signal; [stop_child] is [OperationState::stop]. *)
Definition run_callback (stop_child : world -> nat -> ErrorCode -> bool * world)
    (now : Z) (i : nat) (w : world) (cb : callback) : world :=
  match cb with
  | CbChild c => if op_alive w c then (stop_child w c (op_code_of now w i)).2 else w
  | CbDeliver p => deliver now p default_result w
  | CbCancel b => post_cancel b w
  end.

(** [OperationState::stop], with [StopSignal::request] inlined.  A child has a
    larger index than its parent, so the number of operations is enough fuel. *)
Fixpoint stop_fuel (fuel : nat) (now : Z) (w : world) (i : nat) (code : ErrorCode)
    : bool * world :=
  match fuel, ops w !! i with
  | S f, Some o =>
      if code_eqb code Ok then (false, w)
      else if negb (code_eqb (reason o) Ok) then (false, w)
      else if requested o then (false, upd_op i (halt code) w)
      else (true, foldl (run_callback (stop_fuel f now) now i) (upd_op i (halt code) w) (slots o))
  | _, _ => (false, w)
  end.

Definition stop (now : Z) (w : world) (i : nat) (code : ErrorCode) : bool * world :=
  stop_fuel (length (ops w)) now w i code.

(** ** Creation and destruction *)

(** The constructor's deadline. *)
Definition own_deadline (now : Z) (opts : OperationOptions) : Z :=
  if Z.ltb 0 (timeout opts) then
    let room := ((time_max - now) / ms)%Z in
    if Z.ltb (timeout opts) room then Z.min (opt_deadline opts) (now + timeout opts * ms)
    else opt_deadline opts
  else opt_deadline opts.

(** [entries.emplace]: a [std::map] ordered by [(when, id)]; ids increase. *)
Fixpoint emplace (e : Z * nat * nat) (q : list (Z * nat * nat)) : list (Z * nat * nat) :=
  match q with
  | [] => [e]
  | y :: q' => if Z.ltb e.1.1 y.1.1 then e :: q else y :: emplace e q'
  end.

(** [parent->subscribe(...)] in [create]. *)
Definition subscribe_parent (now : Z) (i p : nat) (w : world) : world :=
  match ops w !! p with
  | Some o =>
      if requested o then (stop now w i (op_code now o)).2
      else upd_op p (add_slot (CbChild i)) w
  | None => w
  end.

Definition subscribe_token (now : Z) (i s : nat) (w : world) : world :=
  match sources w !! s with
  | Some src =>
      if src_requested src then (stop now w i Cancelled).2
      else set_sources (<[s := mkSource false (src_slots src ++ [i])]> (sources w)) w
  | None => w
  end.

(** [OperationState::create]. *)
Definition create (now : Z) (opts : OperationOptions) (par : option nat) (w : world) : nat * world :=
  let i := length (ops w) in
  let po := p ← par; ops w !! p in
  let dl := match po with
            | Some o => Z.min (own_deadline now opts) (deadline o)
            | None => own_deadline now opts end in
  let fb := match po with
            | Some o => allowCompatibilityFallback opts && fallbackAllowed o
            | None => allowCompatibilityFallback opts end in
  let w := set_ops (ops w ++ [mkOp Ok false [] dl fb false false true par]) w in
  let w := match par with Some p => subscribe_parent now i p w | None => w end in
  let w := match cancellation opts with Some s => subscribe_token now i s w | None => w end in
  let w := if Z.ltb (timeout opts) 0 then (stop now w i ConfigError).2 else w in
  let w := if Z.eqb dl time_max then w
           else set_entries (emplace (dl, S (next w), i) (entries w)) (S (next w)) w in
  (i, w).

(** [finish]: [Deadlines::remove(deadline(), timer)]. *)
Definition finish (i : nat) (w : world) : world :=
  set_entries (filter (fun e => e.2 <> i) (entries w)) (next w) w.

Definition not_child (i : nat) (cb : callback) : bool :=
  match cb with CbChild c => negb (c =? i) | _ => true end.

(** [~OperationState]: [finish], then the leases on parent and token go. *)
Definition destroy (i : nat) (w : world) : world :=
  let w := finish i w in
  let w := upd_op i set_dead w in
  let w := match ops w !! i with
           | Some o => match parent o with
                       | Some p => upd_op p (fun o => set_slots (List.filter (not_child i) (slots o)) o) w
                       | None => w
                       end
           | None => w
           end in
  set_sources (map (fun s => mkSource (src_requested s) (filter (fun j => j <> i) (src_slots s)))
                 (sources w)) w.

(** ** The deadline scheduler *)

(** The turns of the scheduler's loop that find an entry due at [now]. *)
Fixpoint fire (now : Z) (es : list (Z * nat * nat)) (w : world) : world :=
  match es with
  | (when, id, i) :: es' =>
      if Z.ltb now when then w
      else
        let w := set_entries es' (next w) w in
        fire now es' (if op_alive w i then (stop now w i QueryTimeout).2 else w)
  | [] => w
  end.

Definition tick (now : Z) (w : world) : world := fire now (entries w) w.

(** ** Cancellation sources, bindings and completions *)

Definition new_source (w : world) : nat * world :=
  (length (sources w), set_sources (sources w ++ [mkSource false []]) w).

(** [CancellationSource::requestCancellation]. *)
Definition requestCancellation (now : Z) (s : nat) (w : world) : bool * world :=
  match sources w !! s with
  | Some src =>
      if src_requested src then (false, w)
      else
        let w := set_sources (<[s := mkSource true (src_slots src)]> (sources w)) w in
        (true, foldl (fun w i => if op_alive w i then (stop now w i Cancelled).2 else w) w
                 (src_slots src))
  | None => (false, w)
  end.

(** [subscribe] with a callback that has no operation of its own to stop. *)
Definition subscribe (now : Z) (i : nat) (cb : callback) (w : world) : world :=
  match ops w !! i with
  | Some o =>
      if requested o then run_callback (fun w _ _ => (false, w)) now i w cb
      else upd_op i (add_slot cb) w
  | None => w
  end.

Definition bind (now : Z) (i : nat) (conn : option nat) (write na : bool) (w : world) : nat * world :=
  let w := upd_op i (fun o => set_bound (write || writeStarted o) na o) w in
  let b := length (bindings w) in
  let w := set_bindings (bindings w ++ [mkBinding i true conn]) w in
  (b, subscribe now i (CbCancel b) w).

Definition not_cancel (b : nat) (cb : callback) : bool :=
  match cb with CbCancel c => negb (c =? b) | _ => true end.

(** The deleter of the binding. *)
Definition unbind (b : nat) (w : world) : world :=
  match bindings w !! b with
  | Some x =>
      let w := upd_op (b_op x) (fun o => set_slots (List.filter (not_cancel b) (slots o)) o) w in
      set_bindings (<[b := mkBinding (b_op x) false (connection x)]> (bindings w)) w
  | None => w
  end.

(** One task of the cancellation executor. *)
Definition run_cancel (w : world) : world :=
  match cancels w with
  | b :: q =>
      match bindings w !! b with
      | Some (mkBinding _ true (Some c)) => set_cancels q (cancelled w ++ [c]) w
      | _ => set_cancels q (cancelled w) w
      end
  | [] => w
  end.

(** [controlledCompletion] inside operation [i]. *)
Definition controlledCompletion (now : Z) (i : nat) (w : world) : nat * world :=
  let p := length (pendings w) in
  let w := set_pendings (pendings w ++ [mkPending i false]) (delivered w) w in
  (p, subscribe now i (CbDeliver p) w).

(** [operationContext] and [OperationScope]: the context a scope enters. *)
Definition operationContext (now : Z) (opts : OperationOptions) (fs : frames) (w : world)
    : SqlContext * world :=
  let ctx := current fs in
  let '(i, w) := create now opts (operation ctx) w in
  (mkContext (traceId ctx) (spanId ctx) (tenantId ctx)
     (match dataSource opts with [] => targetDataSource ctx | d => d end)
     (shadow ctx) (wroteInThisRequest ctx)
     (match opt_idempotency opts with Unspecified => idempotency ctx | x => x end)
     (traceFlags ctx) (Some i), w).

(** ** Propagation of a stop *)

Definition stopped (w : world) (j : nat) : Prop :=
  exists o, ops w !! j = Some o /\ reason o <> Ok.

(** [k] is a live operation subscribed to [j]. *)
Definition edge (w : world) (j k : nat) : Prop :=
  (exists o, ops w !! j = Some o /\ CbChild k ∈ slots o) /\ op_alive w k = true.

(** Children come after their parents, and a signal is requested exactly when
    its operation has a reason. *)
Record ops_wf (w : world) : Prop := {
  wf_order : forall j o k, ops w !! j = Some o -> CbChild k ∈ slots o -> j < k < length (ops w);
  wf_requested : forall j o, ops w !! j = Some o -> requested o = negb (code_eqb (reason o) Ok)
}.

(** [w'] is [w] with some running operations stopped for [code], and nothing
    else changed in any operation. *)
Definition halts (code : ErrorCode) (w w' : world) : Prop :=
  length (ops w') = length (ops w)
  /\ forall j o, ops w !! j = Some o ->
       ops w' !! j = Some o \/ reason o = Ok /\ ops w' !! j = Some (halt code o).

Lemma code_eqb_true a b : code_eqb a b = true <-> a = b.
Proof. apply bool_decide_eq_true. Qed.
Lemma code_eqb_false a b : code_eqb a b = false <-> a <> b.
Proof. apply bool_decide_eq_false. Qed.

Lemma halts_refl code w w' : ops w' = ops w -> halts code w w'.
Proof. intros H. split; rewrite H; auto. Qed.

Lemma halts_trans code w1 w2 w3 :
  code <> Ok -> halts code w1 w2 -> halts code w2 w3 -> halts code w1 w3.
Proof.
  intros Hc [Hl1 H1] [Hl2 H2]. split; [congruence|]. intros j o Hj.
  destruct (H1 j o Hj) as [H|[Hr H]]; destruct (H2 j _ H) as [H'|[Hr' H']]; auto.
Qed.

Lemma halts_back code w w' j o' :
  halts code w w' -> ops w' !! j = Some o' ->
  exists o, ops w !! j = Some o /\ (o' = o \/ reason o = Ok /\ o' = halt code o).
Proof.
  intros [Hl H] Hj. assert (Hlt : j < length (ops w)) by (rewrite <- Hl; by eapply lookup_lt_Some).
  apply lookup_lt_is_Some in Hlt as [o Ho]. exists o. split; [done|].
  destruct (H j o Ho) as [H'|[Hr H']]; [left|right]; [congruence|]. split; [done|congruence].
Qed.

Lemma halts_alive code w w' j : halts code w w' -> op_alive w' j = op_alive w j.
Proof.
  intros Hh. unfold op_alive. destruct (ops w !! j) as [o|] eqn:E.
  - destruct Hh as [_ H]. by destruct (H j o E) as [->|[_ ->]].
  - destruct (ops w' !! j) eqn:E'; [|done]. apply (halts_back _ _ _ _ _ Hh) in E' as (? & ? & _). congruence.
Qed.

Lemma halts_edge code w w' j k : halts code w w' -> edge w' j k <-> edge w j k.
Proof.
  intros Hh. unfold edge. rewrite (halts_alive _ _ _ _ Hh). f_equiv. split; intros (o & Ho & Hin).
  - apply (halts_back _ _ _ _ _ Hh) in Ho as (o' & Ho' & [->|[_ ->]]); eauto.
  - destruct Hh as [_ H]. destruct (H j o Ho) as [H'|[_ H']]; eexists; (split; [exact H'|done]).
Qed.

Lemma halts_stopped code w w' j : code <> Ok -> halts code w w' -> stopped w j -> stopped w' j.
Proof.
  intros Hc [_ H] (o & Ho & Hr). destruct (H j o Ho) as [H'|[? H']]; [|done]. by exists o.
Qed.

Lemma halts_wf code w w' : code <> Ok -> halts code w w' -> ops_wf w -> ops_wf w'.
Proof.
  intros Hc Hh [H1 H2]. split.
  - intros j o k Hj Hin. rewrite (proj1 Hh).
    apply (halts_back _ _ _ _ _ Hh) in Hj as (o' & Ho' & [->|[_ ->]]); eauto.
  - intros j o Hj. apply (halts_back _ _ _ _ _ Hh) in Hj as (o' & Ho' & [->|[_ ->]]); [eauto|].
    cbn. by rewrite (proj2 (code_eqb_false _ _) Hc).
Qed.

Lemma upd_halt_halts code i o w :
  ops w !! i = Some o -> reason o = Ok -> halts code w (upd_op i (halt code) w).
Proof.
  intros Ho Hr. split; [cbn; by rewrite length_alter|]. intros j o' Hj. cbn.
  destruct (decide (j = i)) as [->|Hn].
  - right. assert (o' = o) as -> by congruence. by rewrite list_lookup_alter_eq, Ho.
  - left. by rewrite list_lookup_alter_ne.
Qed.

(** Pending completion [p] has been delivered. *)
Definition pdone (w : world) (p : nat) : Prop :=
  exists pd, pendings w !! p = Some pd /\ done_ pd = true.

(** Completions only go from pending to delivered. *)
Definition pmono (w w' : world) : Prop :=
  length (pendings w') = length (pendings w) /\ forall p, pdone w p -> pdone w' p.

(** What a stop of [i] does to the operations of [w]: [P] are the operations
    whose children need not be stopped yet. *)
Record stops (P : nat -> Prop) (code : ErrorCode) (w w' : world) (i : nat) : Prop := {
  st_halts : halts code w w';
  st_self : stopped w' i;
  st_only : forall j, stopped w' j -> stopped w j \/ rtc (edge w) i j;
  st_closed : forall j k, stopped w' j -> ~ stopped w j -> ~ P j -> edge w j k -> stopped w' k;
  st_pmono : pmono w w';
  st_deliv : forall j o p, stopped w' j -> ~ stopped w j -> ~ P j -> ops w !! j = Some o ->
    CbDeliver p ∈ slots o -> p < length (pendings w) -> pdone w' p
}.

Lemma deliver_ops now p r w : ops (deliver now p r w) = ops w.
Proof. unfold deliver. by repeat case_match. Qed.

Lemma deliver_pmono now p r w : pmono w (deliver now p r w).
Proof.
  unfold deliver, pmono, pdone. repeat case_match; try done; cbn;
    (split; [by rewrite length_insert|]); intros q (x & Hx & Hd);
    (destruct (decide (q = p)) as [->|];
     [rewrite list_lookup_insert_eq by (by eapply lookup_lt_Some); eauto
     |rewrite list_lookup_insert_ne by done; eauto]).
Qed.

Lemma deliver_done now p r w : p < length (pendings w) -> pdone (deliver now p r w) p.
Proof.
  intros [pd Hp]%lookup_lt_is_Some. unfold deliver, pdone. rewrite Hp.
  destruct (done_ pd) eqn:E; [by exists pd|]. cbn.
  rewrite list_lookup_insert_eq by (by eapply lookup_lt_Some). eauto.
Qed.

Lemma pmono_same w w' : pendings w' = pendings w -> pmono w w'.
Proof. intros E. unfold pmono, pdone. rewrite E. done. Qed.
Lemma pmono_trans w1 w2 w3 : pmono w1 w2 -> pmono w2 w3 -> pmono w1 w3.
Proof. intros [H1 H2] [H3 H4]. split; [congruence|auto]. Qed.

Lemma post_cancel_pendings b w : pendings (post_cancel b w) = pendings w.
Proof. unfold post_cancel. by case_match. Qed.
Lemma post_cancel_ops b w : ops (post_cancel b w) = ops w.
Proof. unfold post_cancel. by case_match. Qed.

Lemma stopped_dec w j : {stopped w j} + {~ stopped w j}.
Proof.
  destruct (ops w !! j) as [o|] eqn:E.
  - destruct (decide (reason o = Ok)) as [H|H]; [right|left; by exists o].
    intros (o' & Ho & Hr). congruence.
  - right. intros (o' & Ho & _). congruence.
Qed.

Section stop_spec.
Context (now : Z) (code : ErrorCode) (Hcode : code <> Ok).

Definition stop_ok (f : nat) : Prop := forall w i,
  ops_wf w -> i < length (ops w) -> length (ops w) - i <= f ->
  stops (fun _ => False) code w (stop_fuel f now w i code).2 i.

Lemma stops_same P w w1 w2 i :
  ops w2 = ops w1 -> pmono w1 w2 -> stops P code w w1 i -> stops P code w w2 i.
Proof.
  intros E Hp [H1 H2 H3 H4 H5 H6].
  assert (Hs : forall j, stopped w2 j <-> stopped w1 j) by (intros; unfold stopped; by rewrite E).
  constructor.
  - unfold halts in *. by rewrite E.
  - by apply Hs.
  - intros j Hj%Hs. auto.
  - intros j k Hj%Hs. rewrite Hs. eauto.
  - by eapply pmono_trans.
  - intros j o p Hj%Hs H7 H8 H9 H10 H11. apply Hp. eauto.
Qed.

(** The operation being stopped, while its callbacks run. *)
Lemma stops_self_code P w w1 i o :
  stops P code w w1 i -> ops w !! i = Some o -> reason o = Ok -> op_code_of now w1 i = code.
Proof.
  intros [[_ Hh] (o' & Ho' & Hr) _ _ _ _] Ho Hok. unfold op_code_of.
  destruct (Hh i o Ho) as [H|[_ H]]; rewrite H in *; [congruence|].
  unfold op_code. cbn. by rewrite (proj2 (code_eqb_false _ _) Hcode).
Qed.

Lemma callback_stops f w w1 i o cb :
  stop_ok f -> ops_wf w -> ops w !! i = Some o -> reason o = Ok -> cb ∈ slots o ->
  length (ops w) - i <= S f ->
  stops (eq i) code w w1 i ->
  let w2 := run_callback (stop_fuel f now) now i w1 cb in
  stops (eq i) code w w2 i /\ halts code w1 w2 /\ pmono w1 w2
  /\ (forall c, cb = CbChild c -> op_alive w c = true -> stopped w2 c)
  /\ (forall p, cb = CbDeliver p -> p < length (pendings w) -> pdone w2 p).
Proof.
  intros Hf Hwf Ho Hok Hin Hlen Hst. cbn zeta. destruct cb as [c|p|b]; cbn [run_callback].
  2:{ split_and!; [eapply stops_same, Hst; [apply deliver_ops|apply deliver_pmono]
                  |apply halts_refl, deliver_ops|apply deliver_pmono|done|].
      intros q [= <-] Hq. apply deliver_done. by rewrite (proj1 (st_pmono _ _ _ _ _ Hst)). }
  2:{ split_and!; [eapply stops_same, Hst; [apply post_cancel_ops|apply pmono_same, post_cancel_pendings]
                  |apply halts_refl, post_cancel_ops|apply pmono_same, post_cancel_pendings|done|done]. }
  rewrite (stops_self_code _ _ _ _ _ Hst Ho Hok), (halts_alive _ _ _ c (st_halts _ _ _ _ _ Hst)).
  destruct (op_alive w c) eqn:Hal.
  2:{ split_and!; [done|by apply halts_refl|by apply pmono_same| |done]. intros c' [= <-]. congruence. }
  destruct (wf_order w Hwf i o c Ho Hin) as [Hic Hc].
  destruct Hst as [Hh Hs Ho1 Hcl Hpm Hdl].
  assert (Hwf1 : ops_wf w1) by (by eapply halts_wf).
  assert (Hedge : edge w i c) by (split; [by exists o|done]).
  pose proof (proj1 Hh) as Hl1.
  destruct (Hf w1 c Hwf1) as [Hh2 Hs2 Ho2 Hcl2 Hpm2 Hdl2]; [lia|lia|].
  split_and!; [|done|done|by intros c' [= <-]|done].
  constructor.
  - by eapply halts_trans.
  - by eapply halts_stopped.
  - intros j Hj. destruct (Ho2 j Hj) as [H|H]; [by apply Ho1|]. right.
    eapply rtc_l; [exact Hedge|]. eapply (rtc_congruence id), H.
    intros x y. cbn. by rewrite (halts_edge _ _ _ x y Hh).
  - intros j k Hj Hnj Hni Hjk. destruct (stopped_dec w1 j) as [H|H].
    + eapply halts_stopped; [done|done|]. by eapply Hcl.
    + eapply Hcl2; [done|done|by intros []|]. by rewrite (halts_edge _ _ _ j k Hh).
  - by eapply pmono_trans.
  - intros j x p Hj Hnj Hni Hx Hp Hlp. destruct (stopped_dec w1 j) as [H|H].
    + apply Hpm2. by eapply Hdl.
    + destruct (proj2 Hh j x Hx) as [H1|[_ H1]]; (eapply Hdl2; [done|done|by intros []|exact H1|done|]);
        by rewrite (proj1 Hpm).
Qed.

Lemma callbacks_stop f w i o cbs : forall w1,
  stop_ok f -> ops_wf w -> ops w !! i = Some o -> reason o = Ok -> cbs ⊆ slots o ->
  length (ops w) - i <= S f ->
  stops (eq i) code w w1 i ->
  let w2 := foldl (run_callback (stop_fuel f now) now i) w1 cbs in
  stops (eq i) code w w2 i /\ halts code w1 w2 /\ pmono w1 w2
  /\ (forall c, CbChild c ∈ cbs -> op_alive w c = true -> stopped w2 c)
  /\ (forall p, CbDeliver p ∈ cbs -> p < length (pendings w) -> pdone w2 p).
Proof.
  induction cbs as [|cb cbs IH]; intros w1 Hf Hwf Ho Hok Hin Hlen Hst.
  - cbn. split_and!; [done|by apply halts_refl|by apply pmono_same| |]; intros c H; set_solver.
  - destruct (callback_stops f w w1 i o cb) as (H1 & H2 & H3 & H4 & H5); try done; [set_solver|].
    destruct (IH _ Hf Hwf Ho Hok ltac:(set_solver) Hlen H1) as (H6 & H7 & H8 & H9 & H10).
    cbn [foldl]. split_and!; [done|by eapply halts_trans|by eapply pmono_trans| |].
    + intros c [Heq|Hc]%elem_of_cons Hal; [|by apply H9].
      eapply halts_stopped; [done|exact H7|]. by apply H4.
    + intros p [Heq|Hc]%elem_of_cons Hal; [|by apply H10]. apply H8. by apply H5.
Qed.

Lemma stop_fuel_ok f : stop_ok f.
Proof.
  induction f as [|f IH]; intros w i Hwf Hi Hlen; [lia|]. cbn [stop_fuel].
  destruct (ops w !! i) as [o|] eqn:Ho; [|apply lookup_ge_None in Ho; lia].
  rewrite (proj2 (code_eqb_false _ _) Hcode).
  pose proof (wf_requested w Hwf i o Ho) as Hreq.
  destruct (code_eqb (reason o) Ok) eqn:Hr; cbn [negb] in *.
  2:{ apply code_eqb_false in Hr.
      constructor; cbn; [by apply halts_refl|by exists o|by auto|done|by apply pmono_same|done]. }
  rewrite Hreq. apply code_eqb_true in Hr.
  pose proof (upd_halt_halts code i o w Ho Hr) as Hh.
  assert (Hother : forall j, i <> j -> stopped (upd_op i (halt code) w) j -> stopped w j).
  { intros j Hn (o' & Hj & Hrj). exists o'. split; [|done]. cbn in Hj.
    by rewrite list_lookup_alter_ne in Hj. }
  destruct (callbacks_stop f w i o (slots o) (upd_op i (halt code) w)) as (H1 & _ & _ & H4 & H5);
    try done.
  - constructor; [done| | | |by apply pmono_same|].
    + exists (halt code o). cbn. by rewrite list_lookup_alter_eq, Ho.
    + intros j Hj. destruct (decide (i = j)) as [<-|Hn]; [right; apply rtc_refl|auto].
    + intros j k Hj Hns Hni. by destruct Hns; apply Hother.
    + intros j x p Hj Hns Hni. by destruct Hns; apply Hother.
  - cbn [snd]. destruct H1 as [Ha Hb Hc Hd He Hg]. constructor; try done.
    + intros j k Hj Hnj _ Hjk. destruct (decide (i = j)) as [<-|Hn]; [|by eapply Hd].
      destruct Hjk as [(o' & Ho' & Hin) Hal]. simplify_eq. by apply H4.
    + intros j x p Hj Hnj _ Hx Hp Hlp. destruct (decide (i = j)) as [<-|Hn]; [|by eapply Hg].
      simplify_eq. by apply H5.
Qed.

Lemma stop_stops w i :
  ops_wf w -> i < length (ops w) -> stops (fun _ => False) code w (stop now w i code).2 i.
Proof. intros Hwf Hi. apply stop_fuel_ok; [done|done|lia]. Qed.
End stop_spec.

(** ** Events and the invariant of the store *)

(** A live child keeps its parent alive (its callback owns the parent). *)
Definition held_by_child (w : world) (i : nat) : bool :=
  existsb (fun o => alive o && bool_decide (parent o = Some i)) (ops w).

Inductive event :=
| ECreate (now : Z) (opts : OperationOptions) (par : option nat)
| EStop (now : Z) (i : nat) (code : ErrorCode)
| ENewSource
| ERequestCancellation (now : Z) (s : nat)
| ETick (now : Z)
| EDestroy (i : nat)
| EBind (now : Z) (i : nat) (conn : option nat) (write na : bool)
| EUnbind (b : nat)
| ERunCancel
| EControlled (now : Z) (i : nat)
| EComplete (now : Z) (p : nat) (r : Result).

(** Calls go through live handles: an operation that is gone has none. *)
Definition apply_event (e : event) (w : world) : world :=
  match e with
  | ECreate now opts par =>
      if match par with Some p => op_alive w p | None => true end
      then (create now opts par w).2 else w
  | EStop now i code => if op_alive w i then (stop now w i code).2 else w
  | ENewSource => (new_source w).2
  | ERequestCancellation now s => (requestCancellation now s w).2
  | ETick now => tick now w
  | EDestroy i => if op_alive w i && negb (held_by_child w i) then destroy i w else w
  | EBind now i conn write na => if op_alive w i then (bind now i conn write na w).2 else w
  | EUnbind b => unbind b w
  | ERunCancel => run_cancel w
  | EControlled now i => if op_alive w i then (controlledCompletion now i w).2 else w
  | EComplete now p r => deliver now p r w
  end.

Definition history (es : list event) : world := foldl (fun w e => apply_event e w) empty_world es.

(** The parts of the store a stop does not touch. *)
Definition same_frame (w w' : world) : Prop :=
  sources w' = sources w /\ entries w' = entries w /\ next w' = next w /\ bindings w' = bindings w.

(** Induction over the primitive changes a stop is made of. *)
Lemma stop_fuel_rule (Q : world -> Prop) :
  (forall now p r w, Q w -> Q (deliver now p r w)) ->
  (forall b w, Q w -> Q (post_cancel b w)) ->
  (forall i code w, code <> Ok -> Q w -> Q (upd_op i (halt code) w)) ->
  forall f now w i code, Q w -> Q (stop_fuel f now w i code).2.
Proof.
  intros Hd Hp Hu f now. induction f as [|f IH]; intros w i code Hw; [done|]. cbn [stop_fuel].
  destruct (ops w !! i) as [o|]; [|done].
  destruct (code_eqb code Ok) eqn:Hc; [done|]. apply code_eqb_false in Hc.
  destruct (negb _); [done|]. destruct (requested o); [by apply Hu|]. cbn [snd].
  generalize (Hu i code w Hc Hw). generalize (upd_op i (halt code) w). clear w Hw.
  induction (slots o) as [|cb l IHl]; intros w1 Hw1; [done|].
  cbn. apply IHl. destruct cb; cbn; [case_match; [by apply IH|done]|by apply Hd|by apply Hp].
Qed.

Lemma same_frame_trans w1 w2 w3 : same_frame w1 w2 -> same_frame w2 w3 -> same_frame w1 w3.
Proof. unfold same_frame. intros (-> & -> & -> & ->) (-> & -> & -> & ->). done. Qed.

Lemma stop_fuel_frame f now w i code : same_frame w (stop_fuel f now w i code).2.
Proof.
  apply (stop_fuel_rule (same_frame w)); try done; intros; eapply same_frame_trans; try done.
  - unfold deliver. by repeat case_match.
  - unfold post_cancel. by case_match.
Qed.

Lemma stop_frame now w i code : same_frame w (stop now w i code).2.
Proof. apply stop_fuel_frame. Qed.

(** An operation with a deadline that still runs has its timer. *)
Definition timed (w : world) (i : nat) : Prop := forall o,
  ops w !! i = Some o -> alive o = true -> deadline o <> time_max ->
  stopped w i \/ exists id, (deadline o, id, i) ∈ entries w.

(** An operation with a parent that still runs is subscribed to it. *)
Definition linked (w : world) (i : nat) : Prop := forall o p,
  ops w !! i = Some o -> alive o = true -> parent o = Some p -> stopped w i \/ edge w p i.

(** A completion that is still pending is subscribed to its operation. *)
Definition awaited (w : world) (p : nat) : Prop := forall pd o,
  pendings w !! p = Some pd -> done_ pd = false -> ops w !! p_op pd = Some o ->
  reason o = Ok /\ CbDeliver p ∈ slots o.

(** A child inherits its parent's limits. *)
Definition inherits (w : world) (i : nat) : Prop := forall o p,
  ops w !! i = Some o -> parent o = Some p ->
  p < i /\ exists po, ops w !! p = Some po /\ (deadline o <= deadline po)%Z
    /\ (fallbackAllowed o = true -> fallbackAllowed po = true)
    /\ (alive o = true -> alive po = true).

Definition source_ok (w : world) (src : Source) : Prop := forall i,
  i ∈ src_slots src -> i < length (ops w)
  /\ (src_requested src = true -> op_alive w i = true -> stopped w i).

Definition earlier (a b : Z * nat * nat) : Prop := (a.1.1 <= b.1.1)%Z.

(** A timer is set for its operation's deadline. *)
Definition entry_ok (w : world) (e : Z * nat * nat) : Prop :=
  exists o, ops w !! e.2 = Some o /\ deadline o = e.1.1.

Record core (w : world) : Prop := {
  c_ops : ops_wf w;
  c_closed : forall j k, stopped w j -> edge w j k -> stopped w k;
  c_sources : forall s src, sources w !! s = Some src -> source_ok w src;
  c_inherits : forall i, inherits w i;
  c_sorted : StronglySorted earlier (entries w);
  c_pend : forall p pd, pendings w !! p = Some pd ->
    p_op pd < length (ops w)
    /\ length (filter (fun d => d.1 = p) (delivered w)) = (if done_ pd then 1 else 0);
  c_deliv : Forall (fun d => d.1 < length (pendings w)) (delivered w);
  c_slots : forall j o p, ops w !! j = Some o -> CbDeliver p ∈ slots o ->
    exists pd, pendings w !! p = Some pd /\ p_op pd = j;
  c_child : forall j o k x, ops w !! j = Some o -> CbChild k ∈ slots o -> ops w !! k = Some x ->
    parent x = Some j;
  c_entry : forall e, e ∈ entries w -> entry_ok w e
}.

Record winv (w : world) : Prop := {
  w_core : core w;
  w_timed : forall i, timed w i;
  w_linked : forall i, linked w i;
  w_awaited : forall p, awaited w p
}.

(** *** Deliveries are counted *)

Definition counted (w : world) : Prop :=
  (forall p pd, pendings w !! p = Some pd ->
     length (filter (fun d => d.1 = p) (delivered w)) = (if done_ pd then 1 else 0))
  /\ Forall (fun d => d.1 < length (pendings w)) (delivered w).

Lemma deliver_counted now p r w : counted w -> counted (deliver now p r w).
Proof.
  intros [H1 H2]. unfold deliver. destruct (pendings w !! p) as [pd|] eqn:Hp; [|done].
  destruct (done_ pd) eqn:Hd; [done|].
  set (r' := match ops w !! p_op pd with Some _ => _ | None => _ end). split; cbn.
  - intros q x Hq. rewrite filter_app, length_app, filter_cons, filter_nil. cbn.
    destruct (decide (q = p)) as [->|Hn].
    + rewrite list_lookup_insert_eq in Hq by (by eapply lookup_lt_Some). simplify_eq.
      rewrite decide_True by done. rewrite (H1 p pd Hp), Hd. done.
    + rewrite list_lookup_insert_ne in Hq by done. rewrite decide_False by done.
      rewrite (H1 q x Hq). cbn. lia.
  - rewrite length_insert. apply Forall_app. split; [done|]. repeat constructor.
    cbn. by eapply lookup_lt_Some.
Qed.

Lemma deliver_owner now p r w : p_op <$> pendings (deliver now p r w) = p_op <$> pendings w.
Proof.
  unfold deliver. destruct (pendings w !! p) as [pd|] eqn:Hp; [|done].
  destruct (done_ pd) eqn:Hd; [done|]. cbn.
  rewrite list_fmap_insert. cbn. apply list_insert_id.
  by rewrite list_lookup_fmap, Hp.
Qed.

Lemma stop_counted now w i code :
  counted w -> counted (stop now w i code).2
  /\ p_op <$> pendings (stop now w i code).2 = p_op <$> pendings w.
Proof.
  intros H. apply (stop_fuel_rule (fun w' => counted w' /\ p_op <$> pendings w' = p_op <$> pendings w)).
  - intros now' p r w' [H1 H2]. split; [by apply deliver_counted|]. by rewrite deliver_owner.
  - intros b w' H1. unfold post_cancel. by case_match.
  - done.
  - done.
Qed.

Lemma owner_lookup w w' p pd :
  p_op <$> pendings w' = p_op <$> pendings w -> pendings w !! p = Some pd ->
  exists pd', pendings w' !! p = Some pd' /\ p_op pd' = p_op pd.
Proof.
  intros E Hp. assert (H : (p_op <$> pendings w') !! p = Some (p_op pd)).
  { rewrite E, list_lookup_fmap, Hp. done. }
  rewrite list_lookup_fmap in H. apply fmap_Some in H as (pd' & H1 & H2). eauto.
Qed.

(** *** A stop keeps the invariant *)

Lemma halts_inherits code w w' i : halts code w w' -> inherits w i -> inherits w' i.
Proof.
  intros Hh H o p Ho Hp. apply (halts_back _ _ _ _ _ Hh) in Ho as (o' & Ho' & Heq).
  assert (Ho2 : parent o' = Some p /\ deadline o' = deadline o
    /\ fallbackAllowed o' = fallbackAllowed o /\ alive o' = alive o)
    by (by destruct Heq as [->|[_ ->]]).
  destruct Ho2 as (Hp' & Hd' & Hf' & Ha').
  destruct (H o' p Ho' Hp') as (Hlt & po & Hpo & Hd & Hf & Ha). split; [done|].
  rewrite Hd', Hf', Ha' in *.
  destruct (proj2 Hh p po Hpo) as [H1|[_ H1]]; eexists; (split; [exact H1|done]).
Qed.

Lemma halts_source code w w' src :
  code <> Ok -> halts code w w' -> source_ok w src -> source_ok w' src.
Proof.
  intros Hc Hh H i Hin. destruct (H i Hin) as [H1 H2]. rewrite (proj1 Hh).
  split; [done|]. rewrite (halts_alive _ _ _ _ Hh). intros. eapply halts_stopped; eauto.
Qed.

Lemma stop_core now w i code :
  code <> Ok -> core w -> i < length (ops w) -> core (stop now w i code).2.
Proof.
  intros Hc Hw Hi. destruct Hw as [Hwf Hcl Hsrc Hinh Hso Hpe Hde Hsl Hch Hen].
  destruct (stop_stops now code Hc w i Hwf Hi) as [Hh Hs Ho Hcl2 Hpm _].
  destruct (stop_frame now w i code) as (E1 & E2 & E3 & E4).
  destruct (stop_counted now w i code) as [[Hq1 Hq2] Hq3].
  { split; [|done]. intros p pd Hp. by apply Hpe. }
  revert Hh Hs Ho Hcl2 Hpm E1 E2 E3 E4 Hq1 Hq2 Hq3. generalize (stop now w i code).2 as w'.
  intros w' Hh Hs Ho Hcl2 Hpm E1 E2 E3 E4 Hq1 Hq2 Hq3. constructor.
  - by eapply halts_wf.
  - intros j k Hj Hjk. rewrite (halts_edge _ _ _ _ _ Hh) in Hjk.
    destruct (stopped_dec w j) as [H|H]; [|eapply Hcl2; eauto].
    eapply halts_stopped; eauto.
  - rewrite E1. intros s src Hsrc'. eapply halts_source; eauto.
  - intros j. by eapply halts_inherits.
  - by rewrite E2.
  - intros p pd' Hp'. destruct (owner_lookup w' w p pd') as (pd & Hp & Heq); [done|done|].
    split; [|by apply Hq1]. rewrite <- Heq, (proj1 Hh). by apply (Hpe p).
  - done.
  - intros j o' p Hj Hin. apply (halts_back _ _ _ _ _ Hh) in Hj as (o & Hj & Heq).
    assert (Hin' : CbDeliver p ∈ slots o) by (by destruct Heq as [->|[_ ->]]).
    destruct (Hsl j o p Hj Hin') as (pd & Hp & <-).
    by apply (owner_lookup w w' p pd).
  - intros j o' k x' Hj Hin Hk. apply (halts_back _ _ _ _ _ Hh) in Hj as (o & Hj & Heq).
    apply (halts_back _ _ _ _ _ Hh) in Hk as (x & Hk & Heq').
    assert (Hin' : CbChild k ∈ slots o) by (by destruct Heq as [->|[_ ->]]).
    pose proof (Hch j o k x Hj Hin' Hk). by destruct Heq' as [->|[_ ->]].
  - rewrite E2. intros e He. destruct (Hen e He) as (o & Ho1 & Hd).
    destruct (proj2 Hh _ o Ho1) as [H|[_ H]]; eexists; (split; [exact H|done]).
Qed.

Lemma stop_timed now w i code j :
  code <> Ok -> ops_wf w -> i < length (ops w) -> timed w j -> timed (stop now w i code).2 j.
Proof.
  intros Hc Hwf Hi Ht. destruct (stop_stops now code Hc w i Hwf Hi) as [Hh _ _ _ _ _].
  destruct (stop_frame now w i code) as (_ & E2 & _ & _). intros o' Ho' Ha Hd.
  apply (halts_back _ _ _ _ _ Hh) in Ho' as (o & Ho & Heq). rewrite E2.
  assert (Hsame : alive o = alive o' /\ deadline o = deadline o') by (by destruct Heq as [->|[_ ->]]).
  destruct Hsame as [Ha' Hd']. rewrite <- Ha' in Ha. rewrite <- Hd' in *.
  destruct (Ht o Ho Ha Hd) as [H|H]; [left|by right]. by eapply halts_stopped.
Qed.

Lemma stop_linked now w i code j :
  code <> Ok -> ops_wf w -> i < length (ops w) -> linked w j -> linked (stop now w i code).2 j.
Proof.
  intros Hc Hwf Hi Ht. destruct (stop_stops now code Hc w i Hwf Hi) as [Hh _ _ _ _ _].
  intros o' p Ho' Ha Hp. apply (halts_back _ _ _ _ _ Hh) in Ho' as (o & Ho & Heq).
  rewrite (halts_edge _ _ _ _ _ Hh).
  assert (Hsame : alive o = alive o' /\ parent o = parent o') by (by destruct Heq as [->|[_ ->]]).
  destruct Hsame as [Ha' Hp']. rewrite <- Ha' in Ha. rewrite <- Hp' in Hp.
  destruct (Ht o p Ho Ha Hp) as [H|H]; [left|by right]. by eapply halts_stopped.
Qed.

Lemma stop_awaited now w i code p :
  code <> Ok -> core w -> i < length (ops w) -> awaited w p -> awaited (stop now w i code).2 p.
Proof.
  intros Hc Hw Hi Ht.
  destruct (stop_stops now code Hc w i (c_ops w Hw) Hi) as [Hh _ _ _ Hpm Hdl].
  destruct (stop_counted now w i code) as [_ Hq3].
  { split; [|by apply Hw]. intros q x Hq. by apply (c_pend w Hw). }
  intros pd' o' Hp' Hd' Ho'. revert Hh Hpm Hdl Hq3 Hp' Ho'. generalize (stop now w i code).2 as w'.
  intros w' Hh Hpm Hdl Hq3 Hp' Ho'.
  destruct (owner_lookup w' w p pd') as (pd & Hp & Heq); [done|done|].
  assert (Hd : done_ pd = false).
  { destruct (done_ pd) eqn:E; [|done]. destruct (proj2 Hpm p) as (x & Hx & Hy); [by exists pd|].
    congruence. }
  rewrite <- Heq in Ho'. pose proof Ho' as Ho2.
  apply (halts_back _ _ _ _ _ Hh) in Ho' as (o & Ho & Heq').
  destruct (Ht pd o Hp Hd Ho) as [Hr Hin]. destruct Heq' as [->|[_ ->]]; [done|].
  exfalso. destruct (Hdl (p_op pd) o p) as (x & Hx & Hy); try done.
  - by exists (halt code o).
  - intros (x & Hx & Hy). congruence.
  - by intros [].
  - by eapply lookup_lt_Some.
  - congruence.
Qed.

Lemma stop_winv now w i code :
  code <> Ok -> winv w -> i < length (ops w) -> winv (stop now w i code).2.
Proof.
  intros Hc [H1 H2 H3 H4] Hi. constructor; intros.
  - by apply stop_core.
  - apply stop_timed; auto. apply H1.
  - apply stop_linked; auto. apply H1.
  - by apply stop_awaited.
Qed.

Lemma stop_Ok now w i : (stop now w i Ok).2 = w.
Proof. unfold stop. destruct (length (ops w)); [done|]. cbn. by destruct (ops w !! i). Qed.

(** *** Changes of slots *)

(** The operations agree on everything but slots and binding flags; [C] and [D]
    say how the subscriptions of children and completions compare. *)
Definition alike (C D : nat -> callback -> Prop) (w w' : world) : Prop :=
  length (ops w') = length (ops w)
  /\ forall j o', ops w' !! j = Some o' -> exists o, ops w !! j = Some o
     /\ reason o' = reason o /\ requested o' = requested o /\ deadline o' = deadline o
     /\ fallbackAllowed o' = fallbackAllowed o /\ alive o' = alive o /\ parent o' = parent o
     /\ (forall cb, cb ∈ slots o' -> cb ∈ slots o \/ C j cb)
     /\ (forall cb, cb ∈ slots o -> cb ∈ slots o' \/ D j cb).

Section alike.
Context {C D : nat -> callback -> Prop} {w w' : world} (Ha : alike C D w w').

Lemma alike_fwd j o : ops w !! j = Some o -> exists o', ops w' !! j = Some o'
     /\ reason o' = reason o /\ requested o' = requested o /\ deadline o' = deadline o
     /\ fallbackAllowed o' = fallbackAllowed o /\ alive o' = alive o /\ parent o' = parent o
     /\ (forall cb, cb ∈ slots o' -> cb ∈ slots o \/ C j cb)
     /\ (forall cb, cb ∈ slots o -> cb ∈ slots o' \/ D j cb).
Proof.
  intros Ho. assert (Hlt : j < length (ops w')) by (rewrite (proj1 Ha); by eapply lookup_lt_Some).
  apply lookup_lt_is_Some in Hlt as [o' Ho']. exists o'.
  destruct (proj2 Ha j o' Ho') as (o2 & Ho2 & H). assert (o2 = o) as -> by congruence. done.
Qed.

Lemma alike_stopped j : stopped w' j <-> stopped w j.
Proof.
  split; intros (o & Ho & Hr).
  - destruct (proj2 Ha j o Ho) as (o' & Ho' & E & _). exists o'. split; [done|congruence].
  - destruct (alike_fwd j o Ho) as (o' & Ho' & E & _). exists o'. split; [done|congruence].
Qed.

Lemma alike_alive j : op_alive w' j = op_alive w j.
Proof.
  unfold op_alive. destruct (ops w' !! j) as [o|] eqn:Ho.
  - destruct (proj2 Ha j o Ho) as (o' & -> & _ & _ & _ & _ & E & _). done.
  - apply lookup_ge_None in Ho. rewrite (proj1 Ha) in Ho. apply lookup_ge_None in Ho. by rewrite Ho.
Qed.

Lemma alike_inherits j : inherits w j -> inherits w' j.
Proof.
  intros H o p Ho Hp. destruct (proj2 Ha j o Ho) as (o' & Ho' & _ & _ & -> & -> & -> & E & _).
  rewrite E in Hp. destruct (H o' p Ho' Hp) as (Hlt & po & Hpo & H1).
  destruct (alike_fwd p po Hpo) as (po' & Hpo' & _ & _ & E1 & E2 & E3 & _).
  split; [done|]. exists po'. by rewrite E1, E2, E3.
Qed.

Lemma alike_timed j : entries w ⊆ entries w' -> timed w j -> timed w' j.
Proof.
  intros He H o Ho Hal Hd. destruct (proj2 Ha j o Ho) as (o' & Ho' & _ & _ & Ed & _ & Eal & _).
  rewrite Eal in Hal. rewrite Ed in *. destruct (H o' Ho' Hal Hd) as [Hs|(id & Hid)].
  - left. by apply alike_stopped.
  - right. exists id. by apply He.
Qed.

Lemma alike_linked j : (forall p, ~ D p (CbChild j)) -> linked w j -> linked w' j.
Proof.
  intros HD H o p Ho Hal Hp.
  destruct (proj2 Ha j o Ho) as (o' & Ho' & _ & _ & _ & _ & Eal & Ep & _).
  rewrite Eal in Hal. rewrite Ep in Hp.
  destruct (H o' p Ho' Hal Hp) as [Hs|[(po & Hpo & Hin) Hl]]; [left; by apply alike_stopped|right].
  split; [|by rewrite alike_alive].
  destruct (alike_fwd p po Hpo) as (po' & Hpo' & _ & _ & _ & _ & _ & _ & _ & Hsl).
  exists po'. split; [done|]. destruct (Hsl _ Hin); [done|]. by destruct (HD p).
Qed.

Lemma alike_awaited p :
  (forall j, ~ D j (CbDeliver p)) -> pendings w' = pendings w -> awaited w p -> awaited w' p.
Proof.
  intros HD Hpe H pd o Hp Hd Ho. rewrite Hpe in Hp.
  destruct (proj2 Ha _ o Ho) as (o' & Ho' & -> & _ & _ & _ & _ & _ & _ & Hsl).
  destruct (H pd o' Hp Hd Ho') as [Hr Hin]. split; [done|].
  destruct (Hsl _ Hin); [done|]. by destruct (HD (p_op pd)).
Qed.

Lemma alike_core :
  (forall j k, C j (CbChild k) -> j < k < length (ops w) /\ ~ stopped w j) ->
  (forall j p, C j (CbDeliver p) -> exists pd, pendings w' !! p = Some pd /\ p_op pd = j) ->
  (forall p pd, pendings w !! p = Some pd ->
     exists pd', pendings w' !! p = Some pd' /\ p_op pd' = p_op pd) ->
  (forall p pd, pendings w' !! p = Some pd ->
     p_op pd < length (ops w)
     /\ length (filter (fun d => d.1 = p) (delivered w')) = (if done_ pd then 1 else 0)) ->
  Forall (fun d => d.1 < length (pendings w')) (delivered w') ->
  (forall s src, sources w' !! s = Some src -> source_ok w src) ->
  StronglySorted earlier (entries w') ->
  (forall j k x, C j (CbChild k) -> ops w !! k = Some x -> parent x = Some j) ->
  (forall e, e ∈ entries w' -> entry_ok w e) ->
  core w -> core w'.
Proof.
  intros HC1 HC2 Hpe Hpc Hde Hso Hen HC3 Hent [Hwf Hcl Hsrc Hinh _ _ _ Hsl Hch _]. constructor; try done.
  - split; rewrite ?(proj1 Ha).
    + intros j o' k Ho' Hin. destruct (proj2 Ha j o' Ho') as (o & Ho & _ & _ & _ & _ & _ & _ & H & _).
      destruct (H _ Hin) as [H'|H']; [by eapply (wf_order w Hwf)|by apply HC1].
    + intros j o' Ho'. destruct (proj2 Ha j o' Ho') as (o & Ho & -> & -> & _).
      by apply (wf_requested w Hwf j).
  - intros j k Hj [(o' & Ho' & Hin) Hal]. rewrite alike_stopped in *. rewrite alike_alive in Hal.
    destruct (proj2 Ha j o' Ho') as (o & Ho & _ & _ & _ & _ & _ & _ & H & _).
    destruct (H _ Hin) as [H'|H'].
    + apply (Hcl j k Hj). split; [by exists o|done].
    + by destruct (HC1 j k H') as [_ []].
  - intros s src Hs i Hin. destruct (Hso s src Hs i Hin) as [H1 H2]. rewrite (proj1 Ha), alike_alive, alike_stopped. done.
  - intros i. apply alike_inherits, Hinh.
  - intros p pd Hp. rewrite (proj1 Ha). by apply Hpc.
  - intros j o' p Ho' Hin. destruct (proj2 Ha j o' Ho') as (o & Ho & _ & _ & _ & _ & _ & _ & H & _).
    destruct (H _ Hin) as [H'|H']; [|by apply HC2].
    destruct (Hsl j o p Ho H') as (pd & Hp & <-). by apply Hpe.
  - intros j o' k x' Ho' Hin Hx'.
    destruct (proj2 Ha j o' Ho') as (o & Ho & _ & _ & _ & _ & _ & _ & H & _).
    destruct (proj2 Ha k x' Hx') as (x & Hx & _ & _ & _ & _ & _ & -> & _).
    destruct (H _ Hin) as [H'|H']; [by eapply Hch|by eapply HC3].
  - intros e He. destruct (Hent e He) as (o & Ho & Hd).
    destruct (alike_fwd _ o Ho) as (o' & Ho' & _ & _ & E & _). exists o'. by rewrite E.
Qed.
End alike.

(** *** Stops and the other tables *)

(** Sources and timers: what a stop neither reads nor writes. *)
Definition retable (ss : list Source) (es : list (Z * nat * nat)) (n : nat) (w : world) : world :=
  set_entries es n (set_sources ss w).

Lemma run_callback_retable f g now i ss es n w cb :
  (forall w c code, (f (retable ss es n w) c code).2 = retable ss es n (g w c code).2) ->
  run_callback f now i (retable ss es n w) cb = retable ss es n (run_callback g now i w cb).
Proof.
  intros Hf. destruct cb; cbn.
  - change (op_alive (retable ss es n w) c) with (op_alive w c).
    change (op_code_of now (retable ss es n w) i) with (op_code_of now w i).
    destruct (op_alive w c); [apply Hf|done].
  - unfold deliver. cbn. by repeat case_match.
  - unfold post_cancel. cbn. by case_match.
Qed.

Lemma stop_fuel_retable f now ss es n : forall w i code,
  (stop_fuel f now (retable ss es n w) i code).2 = retable ss es n (stop_fuel f now w i code).2.
Proof.
  induction f as [|f IH]; intros w i code; [done|]. cbn [stop_fuel].
  change (ops (retable ss es n w)) with (ops w). destruct (ops w !! i) as [o|]; [|done].
  do 3 (case_match; [done|]). cbn [snd].
  change (upd_op i (halt code) (retable ss es n w)) with (retable ss es n (upd_op i (halt code) w)).
  generalize (upd_op i (halt code) w). induction (slots o) as [|cb l IHl]; intros w1; [done|].
  cbn [foldl]. rewrite (run_callback_retable _ _ _ _ _ _ _ _ _ IH). apply IHl.
Qed.

Lemma stop_retable now ss es n w i code :
  (stop now (retable ss es n w) i code).2 = retable ss es n (stop now w i code).2.
Proof. apply stop_fuel_retable. Qed.

Lemma retable_id w : retable (sources w) (entries w) (next w) w = w.
Proof. by destruct w. Qed.

(** The loops that stop a list of operations. *)
Definition stop_each (now : Z) (code : ErrorCode) (w : world) (i : nat) : world :=
  if op_alive w i then (stop now w i code).2 else w.

Lemma stop_each_retable now code ss es n w i :
  stop_each now code (retable ss es n w) i = retable ss es n (stop_each now code w i).
Proof.
  unfold stop_each. change (op_alive (retable ss es n w) i) with (op_alive w i).
  destruct (op_alive w i); [apply stop_retable|done].
Qed.

Lemma stop_each_fold_retable now code ss es n l w :
  foldl (stop_each now code) (retable ss es n w) l
  = retable ss es n (foldl (stop_each now code) w l).
Proof.
  revert w; induction l as [|i l IH]; intros w; [done|]. cbn. by rewrite stop_each_retable.
Qed.

Lemma alive_lt w i : op_alive w i = true -> i < length (ops w).
Proof.
  unfold op_alive. destruct (ops w !! i) eqn:E; [|done]. intros _. by eapply lookup_lt_Some.
Qed.

Lemma stop_each_winv now code w i :
  code <> Ok -> winv w ->
  winv (stop_each now code w i) /\ halts code w (stop_each now code w i)
  /\ same_frame w (stop_each now code w i)
  /\ (op_alive w i = true -> stopped (stop_each now code w i) i).
Proof.
  intros Hc Hw. unfold stop_each. destruct (op_alive w i) eqn:Ha.
  - pose proof (alive_lt w i Ha) as Hi.
    destruct (stop_stops now code Hc w i (c_ops w (w_core w Hw)) Hi) as [Hh Hs _ _ _ _].
    split_and!; [by apply stop_winv|done|apply stop_frame|done].
  - by split_and!; [|apply halts_refl| |].
Qed.

Lemma stop_all_winv now code l : forall w,
  code <> Ok -> winv w ->
  let w' := foldl (stop_each now code) w l in
  winv w' /\ halts code w w' /\ same_frame w w'
  /\ forall i, i ∈ l -> op_alive w i = true -> stopped w' i.
Proof.
  induction l as [|i l IH]; intros w Hc Hw.
  - cbn. split_and!; [done|by apply halts_refl|done|]. intros i H. set_solver.
  - destruct (stop_each_winv now code w i Hc Hw) as (H1 & H2 & H3 & H4).
    destruct (IH _ Hc H1) as (H5 & H6 & H7 & H8). cbn [foldl].
    split_and!; [done|by eapply halts_trans|by eapply same_frame_trans|].
    intros j [->|Hj]%elem_of_cons Ha.
    + eapply halts_stopped; [done|exact H6|]. by apply H4.
    + apply H8; [done|]. by rewrite (halts_alive _ _ _ _ H2).
Qed.

Lemma same_alike C D w w' :
  ops w' = ops w -> alike C D w w'.
Proof. intros E. split; rewrite E; [done|]. intros j o Ho. exists o. by split_and!; auto. Qed.

(** New tables: what must be checked of them. *)
Lemma retable_winv ss es n w :
  winv w -> (forall s src, ss !! s = Some src -> source_ok w src) -> StronglySorted earlier es ->
  es ⊆ entries w ->
  (forall i, timed w i -> timed (retable ss es n w) i) -> winv (retable ss es n w).
Proof.
  intros [Hc Ht Hl Hw] Hs He Hsub Htm.
  pose proof (same_alike (fun _ _ => False) (fun _ _ => False) w (retable ss es n w) eq_refl) as Ha.
  constructor.
  - eapply (alike_core Ha); try done; try apply Hc; [intros p pd Hp; by exists pd|].
    intros e He'. by apply Hc, Hsub.
  - intros i. by apply Htm.
  - intros i. by apply (alike_linked Ha); [intros p []|].
  - intros p. by apply (alike_awaited Ha); [intros j []| |].
Qed.

Lemma new_source_winv w : winv w -> winv (new_source w).2.
Proof.
  intros Hw. change (new_source w).2
    with (set_sources (sources w ++ [mkSource false []]) w).
  assert (E : set_sources (sources w ++ [mkSource false []]) w
    = retable (sources w ++ [mkSource false []]) (entries w) (next w) w) by (by destruct w).
  rewrite E. apply retable_winv; [done| |by apply Hw|done|].
  - intros s src [H|[_ H]]%lookup_app_Some; [by eapply (c_sources w (w_core w Hw))|].
    apply list_lookup_singleton_Some in H as [_ <-]. intros i Hi. cbn in Hi. set_solver.
  - intros i Ht. exact Ht.
Qed.

Lemma requestCancellation_winv now s w : winv w -> winv (requestCancellation now s w).2.
Proof.
  intros Hw. unfold requestCancellation. destruct (sources w !! s) as [src|] eqn:Hs; [|done].
  destruct (src_requested src); [done|]. cbn [snd].
  set (ss := <[s := mkSource true (src_slots src)]> (sources w)).
  change (foldl _ _ _) with (foldl (stop_each now Cancelled) (set_sources ss w) (src_slots src)).
  assert (E : set_sources ss w = retable ss (entries w) (next w) w) by (by destruct w).
  rewrite E, stop_each_fold_retable.
  destruct (stop_all_winv now Cancelled (src_slots src) w) as (H1 & H2 & H3 & H4); [done|done|].
  set (w' := foldl _ _ _) in *. destruct H3 as (F1 & F2 & F3 & F4).
  rewrite <- F2, <- F3. apply retable_winv; [done| |by apply H1|done|].
  - intros q x Hq i Hi. unfold ss in Hq. rewrite <- F1 in Hq.
    destruct (decide (q = s)) as [->|Hn].
    + rewrite list_lookup_insert_eq in Hq by (rewrite F1; by eapply lookup_lt_Some).
      simplify_eq. cbn in Hi.
      destruct (c_sources w (w_core w Hw) s src Hs i Hi) as [Hlt _]. rewrite (proj1 H2).
      split; [done|]. rewrite (halts_alive _ _ _ _ H2). intros _ Ha. by apply H4.
    + rewrite list_lookup_insert_ne in Hq by done. by apply (c_sources w' (w_core w' H1) q x).
  - intros i Ht. exact Ht.
Qed.

(** One due entry of the scheduler. *)
Lemma fire_one now when id i es w :
  winv w -> entries w = (when, id, i) :: es ->
  let w' := stop_each now QueryTimeout (set_entries es (next w) w) i in
  winv w' /\ halts QueryTimeout w w' /\ entries w' = es.
Proof.
  intros Hw He. cbn zeta.
  assert (E : set_entries es (next w) w = retable (sources w) es (next w) w) by (by destruct w).
  rewrite E, stop_each_retable.
  destruct (stop_each_winv now QueryTimeout w i) as (H1 & H2 & (F1 & F2 & F3 & F4) & H4); [done|done|].
  revert H1 H2 F1 F2 F3 F4 H4. generalize (stop_each now QueryTimeout w i) as w'.
  intros w' H1 H2 F1 F2 F3 F4 H4. split_and!; [|done|done].
  pose proof (c_sorted w' (w_core w' H1)) as Hs. rewrite F2, He in Hs.
  apply StronglySorted_inv in Hs as [Hs _].
  apply retable_winv; [done| |done| |].
  2:{ rewrite F2, He. intros e Hin. by right. }
  - rewrite <- F1. apply (c_sources w' (w_core w' H1)).
  - intros j Ht o Ho Hal Hd. destruct (Ht o Ho Hal Hd) as [H|(id' & Hid)]; [by left|].
    rewrite F2, He in Hid. apply elem_of_cons in Hid as [[= -> -> ->]|Hid]; [left|right; by exists id'].
    change (stopped w' i). apply H4. rewrite <- (halts_alive _ _ _ i H2).
    unfold op_alive. cbn in Ho. by rewrite Ho.
Qed.

Lemma fire_winv now es : forall w,
  winv w -> entries w = es ->
  winv (fire now es w) /\ halts QueryTimeout w (fire now es w)
  /\ forall e, e ∈ entries (fire now es w) -> (now < e.1.1)%Z.
Proof.
  induction es as [|[[when id] i] es IH]; intros w Hw He; cbn [fire].
  - split_and!; [done|by apply halts_refl|]. rewrite He. set_solver.
  - destruct (Z.ltb_spec now when) as [Hlt|Hge].
    + split_and!; [done|by apply halts_refl|]. rewrite He. intros e [->|Hin]%elem_of_cons; [done|].
      pose proof (c_sorted w (w_core w Hw)) as Hs. rewrite He in Hs.
      apply StronglySorted_inv in Hs as [_ Hs]. rewrite Forall_forall in Hs.
      apply Hs in Hin. unfold earlier in Hin. cbn in Hin. lia.
    + destruct (fire_one now when id i es w Hw He) as (H1 & H2 & H3).
      destruct (IH _ H1 H3) as (H4 & H5 & H6). split_and!; try done.
      by eapply halts_trans.
Qed.

(** *** Slots added and removed *)

Lemma upd_alike C D j f w :
  (forall o, ops w !! j = Some o ->
     reason (f o) = reason o /\ requested (f o) = requested o /\ deadline (f o) = deadline o
     /\ fallbackAllowed (f o) = fallbackAllowed o /\ alive (f o) = alive o /\ parent (f o) = parent o
     /\ (forall cb, cb ∈ slots (f o) -> cb ∈ slots o \/ C j cb)
     /\ (forall cb, cb ∈ slots o -> cb ∈ slots (f o) \/ D j cb)) ->
  alike C D w (upd_op j f w).
Proof.
  intros Hf. split; [cbn; by rewrite length_alter|]. intros k o' Ho'. cbn in Ho'.
  destruct (decide (k = j)) as [->|Hn].
  - rewrite list_lookup_alter_eq in Ho'. apply fmap_Some in Ho' as (o & Ho & ->). eauto.
  - rewrite list_lookup_alter_ne in Ho' by done. exists o'. by split_and!; auto.
Qed.

Lemma add_slot_alike j cb w :
  alike (fun k c => k = j /\ c = cb) (fun _ _ => False) w (upd_op j (add_slot cb) w).
Proof.
  apply upd_alike. intros o Ho. split_and!; try done; cbn; intros c.
  - rewrite elem_of_app, list_elem_of_singleton. tauto.
  - rewrite elem_of_app. tauto.
Qed.

(** Changes that concern neither children nor completions. *)
Definition is_cancel (cb : callback) : Prop := match cb with CbCancel _ => True | _ => False end.

Lemma alike_winv w w' :
  alike (fun _ => is_cancel) (fun _ => is_cancel) w w' ->
  pendings w' = pendings w -> delivered w' = delivered w ->
  sources w' = sources w -> entries w' = entries w -> winv w -> winv w'.
Proof.
  intros Ha E1 E2 E3 E4 [Hc Ht Hl Hw]. constructor.
  - apply (alike_core Ha); rewrite ?E1, ?E2, ?E3, ?E4; try apply Hc; try done.
    intros p pd Hp. by exists pd.
  - intros i. apply (alike_timed Ha); [by rewrite E4|apply Ht].
  - intros i. apply (alike_linked Ha); [by intros p []|apply Hl].
  - intros p. apply (alike_awaited Ha); [by intros j []|done|apply Hw].
Qed.

Lemma alike_weaken C D (C' D' : nat -> callback -> Prop) w w' :
  alike C D w w' -> (forall j c, C j c -> C' j c) -> (forall j c, D j c -> D' j c) -> alike C' D' w w'.
Proof.
  intros [Hl H] HC HD. split; [done|]. intros j o' Ho'.
  destruct (H j o' Ho') as (o & Ho & E1 & E2 & E3 & E4 & E5 & E6 & H1 & H2).
  exists o. split_and!; try done; intros cb Hcb.
  - destruct (H1 cb Hcb); auto.
  - destruct (H2 cb Hcb); auto.
Qed.

Lemma bind_winv now i conn write na w : winv w -> winv (bind now i conn write na w).2.
Proof.
  intros Hw. unfold bind. cbn [snd].
  set (w1 := upd_op i _ w). set (b := length (bindings w1)).
  assert (H1 : winv w1).
  { apply (alike_winv w); try done. apply upd_alike. intros o Ho. by split_and!; auto. }
  set (w2 := set_bindings _ w1).
  assert (H2 : winv w2) by (by apply (alike_winv w1); [apply same_alike|..]).
  unfold subscribe. destruct (ops w2 !! i) as [o|]; [|done]. destruct (requested o).
  - cbn [run_callback]. unfold post_cancel. case_match; [done|].
    by apply (alike_winv w2); [apply same_alike|..].
  - apply (alike_winv w2); try done.
    eapply alike_weaken; [apply (add_slot_alike i (CbCancel b))| |done].
    by intros j c [_ ->].
Qed.

Lemma unbind_winv b w : winv w -> winv (unbind b w).
Proof.
  intros Hw. unfold unbind. destruct (bindings w !! b) as [x|]; [|done].
  set (w1 := upd_op _ _ w). apply (alike_winv w1); try done; [by apply same_alike|].
  apply (alike_winv w); try done. apply upd_alike. intros o Ho. cbn.
  split_and!; try done; intros cb.
  - rewrite !list_elem_of_In, List.filter_In. tauto.
  - intros H. destruct (not_cancel b cb) eqn:E; [left|right; by destruct cb].
    rewrite list_elem_of_In in *. by apply List.filter_In.
Qed.

Lemma run_cancel_winv w : winv w -> winv (run_cancel w).
Proof.
  intros Hw. unfold run_cancel. repeat case_match; try done;
    by apply (alike_winv w); [apply same_alike|..].
Qed.

(** *** Completions *)

Lemma core_counted w : core w -> counted w.
Proof. intros H. split; [|apply H]. intros p pd Hp. by apply (c_pend w H). Qed.

Lemma deliver_lookup_ne now p r w q :
  q <> p -> pendings (deliver now p r w) !! q = pendings w !! q.
Proof.
  intros Hn. unfold deliver. repeat case_match; cbn; try done; by rewrite list_lookup_insert_ne.
Qed.

Lemma deliver_entries now p r w :
  entries (deliver now p r w) = entries w /\ sources (deliver now p r w) = sources w.
Proof. unfold deliver. by repeat case_match. Qed.

Lemma deliver_winv now p r w :
  core w -> (forall i, timed w i) -> (forall i, linked w i) ->
  (forall q, q <> p -> awaited w q) -> p < length (pendings w) -> winv (deliver now p r w).
Proof.
  intros Hc Ht Hl Hw Hp.
  pose proof (same_alike (fun _ _ => False) (fun _ _ => False) w (deliver now p r w)
    (deliver_ops now p r w)) as Ha.
  destruct (deliver_entries now p r w) as [E1 E2].
  destruct (deliver_counted now p r w (core_counted w Hc)) as [H1 H2].
  pose proof (deliver_owner now p r w) as H3.
  constructor.
  - apply (alike_core Ha); rewrite ?E1, ?E2; try apply Hc; try done.
    + intros q pd Hq. by apply (owner_lookup w).
    + intros q pd Hq. split; [|by apply H1].
      destruct (owner_lookup (deliver now p r w) w q pd) as (pd' & Hq' & <-); [done|done|].
      by apply (c_pend w Hc q).
  - intros i. apply (alike_timed Ha); [by rewrite E1|apply Ht].
  - intros i. by apply (alike_linked Ha); [intros q []|].
  - intros q pd o Hq Hd Ho. destruct (decide (q = p)) as [->|Hn].
    + destruct (deliver_done now p r w Hp) as (x & Hx & Hy). congruence.
    + rewrite deliver_lookup_ne in Hq by done. rewrite deliver_ops in Ho.
      by apply (Hw q Hn pd o).
Qed.

Lemma complete_winv now p r w : winv w -> winv (deliver now p r w).
Proof.
  intros Hw. destruct (decide (p < length (pendings w))) as [Hp|Hp].
  - apply deliver_winv; try apply Hw; [|done]. intros q _. apply Hw.
  - unfold deliver. rewrite (proj2 (lookup_ge_None _ _)) by lia. done.
Qed.

Lemma filter_none {A} (P : A -> Prop) `{forall x, Decision (P x)} l :
  Forall (fun x => ~ P x) l -> filter P l = [].
Proof.
  induction 1 as [|x l Hx _ IH]; [done|]. by rewrite filter_cons, decide_False.
Qed.

Lemma core_new_pending i w :
  core w -> i < length (ops w) ->
  core (set_pendings (pendings w ++ [mkPending i false]) (delivered w) w).
Proof.
  intros Hc Hi. set (w' := set_pendings _ _ w).
  pose proof (same_alike (fun _ _ => False) (fun _ _ => False) w w' eq_refl) as Ha.
  apply (alike_core Ha); try apply Hc; try done.
  - intros q pd Hq. exists pd. split; [|done]. by apply lookup_app_l_Some.
  - intros q pd [Hq|[H1 H2]]%lookup_app_Some; [by apply (c_pend w Hc)|].
    apply list_lookup_singleton_Some in H2 as [H2 <-]. split; [done|]. cbn.
    rewrite filter_none; [done|].
    eapply Forall_impl; [apply (c_deliv w Hc)|]. cbn. lia.
  - cbn. eapply Forall_impl; [apply (c_deliv w Hc)|]. cbn. intros x. rewrite length_app. lia.
Qed.

Lemma controlled_winv now i w :
  winv w -> op_alive w i = true -> winv (controlledCompletion now i w).2.
Proof.
  intros Hw Hal. pose proof (alive_lt w i Hal) as Hi. unfold controlledCompletion. cbn [snd].
  set (p := length (pendings w)). set (w1 := set_pendings _ _ w).
  assert (Hc1 : core w1) by (apply core_new_pending; [apply Hw|done]).
  assert (Hlk : forall q pd, pendings w1 !! q = Some pd ->
    pendings w !! q = Some pd /\ q <> p \/ q = p /\ pd = mkPending i false).
  { intros q pd [Hq|[H1 H2]]%lookup_app_Some.
    - left. split; [done|]. apply lookup_lt_Some in Hq. unfold p. lia.
    - right. apply list_lookup_singleton_Some in H2 as [H2 <-]. split; [|done]. unfold p. lia. }
  assert (Hlen : p < length (pendings w1)) by (cbn; rewrite length_app; cbn; unfold p; lia).
  unfold subscribe. change (ops w1) with (ops w).
  destruct (ops w !! i) as [o|] eqn:Ho; [|apply lookup_ge_None in Ho; lia].
  destruct (requested o) eqn:Hr; cbn [run_callback].
  - apply deliver_winv; try done; try apply Hw.
    intros q Hn pd x Hq Hd Hx. destruct (Hlk q pd Hq) as [[Hq' _]|[? _]]; [|done].
    by apply (w_awaited w Hw q pd x).
  - pose proof (add_slot_alike i (CbDeliver p) w1) as Ha. constructor.
    + apply (alike_core Ha); try apply Hc1; try done.
      * by intros j k [_ ?].
      * intros j q [-> [= ->]]. exists (mkPending i false). split; [|done].
        cbn. unfold p. by rewrite lookup_app_r, Nat.sub_diag by lia.
      * intros q pd Hq. by exists pd.
      * by intros j k x [_ ?].
    + intros k. apply (alike_timed Ha); [done|]. apply Hw.
    + intros k. apply (alike_linked Ha); [by intros q []|]. apply Hw.
    + intros q pd x Hq Hd Hx. destruct (Hlk q pd Hq) as [[Hq' Hn]|[-> ->]].
      * destruct (proj2 Ha _ x Hx) as (x' & Hx' & -> & _ & _ & _ & _ & _ & _ & Hsl).
        destruct (w_awaited w Hw q pd x' Hq' Hd Hx') as [Hok Hin]. split; [done|].
        by destruct (Hsl _ Hin).
      * cbn in Hx. rewrite list_lookup_alter_eq in Hx. rewrite Ho in Hx. injection Hx as <-. cbn.
        pose proof (wf_requested w (c_ops w (w_core w Hw)) i o Ho) as Hq2. rewrite Hr in Hq2.
        symmetry in Hq2. apply negb_false_iff, code_eqb_true in Hq2. split; [done|].
        rewrite elem_of_app. right. by left.
Qed.

(** *** Creation *)

Definition append_op (o : Op) (w : world) : world := set_ops (ops w ++ [o]) w.

Section append.
Context (o : Op) (w : world) (Hnew : reason o = Ok /\ requested o = false /\ slots o = []).
Let n := length (ops w).

Lemma append_lookup j x :
  ops (append_op o w) !! j = Some x <-> ops w !! j = Some x \/ j = n /\ x = o.
Proof.
  cbn. rewrite lookup_app_Some, list_lookup_singleton_Some. unfold n. split.
  - intros [H|[H1 [H2 <-]]]; [by left|right; split; [lia|done]].
  - intros [H|[-> ->]]; [by left|right]. split; [done|]. split; [lia|done].
Qed.

Lemma append_stopped j : stopped (append_op o w) j <-> stopped w j.
Proof.
  unfold stopped. split; intros (x & Hx & Hr).
  - apply append_lookup in Hx as [Hx|[-> ->]]; [by exists x|]. by destruct Hnew as [? _].
  - exists x. split; [|done]. apply append_lookup. by left.
Qed.

Lemma append_alive j : j <> n -> op_alive (append_op o w) j = op_alive w j.
Proof.
  intros Hn. unfold op_alive. destruct (ops (append_op o w) !! j) as [x|] eqn:E.
  - apply append_lookup in E as [->|[? _]]; done.
  - destruct (ops w !! j) as [x|] eqn:E'; [|done].
    assert (H : ops (append_op o w) !! j = Some x) by (apply append_lookup; by left). congruence.
Qed.

Lemma append_edge j k : ops_wf w -> edge (append_op o w) j k <-> edge w j k.
Proof.
  intros Hwf. split; intros [(x & Hx & Hin) Hal].
  - apply append_lookup in Hx as [Hx|[-> ->]].
    + pose proof (wf_order w Hwf j x k Hx Hin). rewrite append_alive in Hal by (unfold n; lia).
      split; [by exists x|done].
    + destruct Hnew as (_ & _ & Hs). rewrite Hs in Hin. set_solver.
  - pose proof (wf_order w Hwf j x k Hx Hin).
    split; [exists x; split; [apply append_lookup; by left|done]|].
    rewrite append_alive by (unfold n; lia). done.
Qed.

Lemma append_core :
  core w ->
  (forall p, parent o = Some p -> exists po, ops w !! p = Some po /\ (deadline o <= deadline po)%Z
     /\ (fallbackAllowed o = true -> fallbackAllowed po = true)
     /\ (alive o = true -> alive po = true)) ->
  core (append_op o w).
Proof.
  intros Hc Hpar. pose proof (c_ops w Hc) as Hwf.
  assert (Hlen : length (ops (append_op o w)) = S n) by (cbn; rewrite length_app; cbn; unfold n; lia).
  constructor; try apply Hc.
  - constructor; rewrite ?Hlen.
    + intros j x k [Hx|[-> ->]]%append_lookup Hin.
      * pose proof (wf_order w Hwf j x k Hx Hin). unfold n. lia.
      * destruct Hnew as (_ & _ & Hs). rewrite Hs in Hin. set_solver.
    + intros j x [Hx|[-> ->]]%append_lookup; [by apply (wf_requested w Hwf j)|].
      destruct Hnew as (-> & -> & _). done.
  - intros j k. rewrite !append_stopped, append_edge by done. apply (c_closed w Hc).
  - intros s src Hs i Hi. destruct (c_sources w Hc s src Hs i Hi) as [H1 H2].
    rewrite Hlen, append_stopped, append_alive by (unfold n; lia). unfold n. split; [lia|done].
  - intros i x p [Hx|[-> ->]]%append_lookup Hp.
    + destruct (c_inherits w Hc i x p Hx Hp) as (H1 & po & H2 & H3). split; [done|].
      exists po. split; [|done]. apply append_lookup. by left.
    + destruct (Hpar p Hp) as (po & H2 & H3). split; [by eapply lookup_lt_Some|].
      exists po. split; [|done]. apply append_lookup. by left.
  - intros p pd Hp. destruct (c_pend w Hc p pd Hp) as [H1 H2]. rewrite Hlen. unfold n.
    split; [lia|done].
  - intros j x p [Hx|[-> ->]]%append_lookup Hin; [by eapply (c_slots w Hc)|].
    destruct Hnew as (_ & _ & Hs). rewrite Hs in Hin. set_solver.
  - intros j x k y [Hx|[-> ->]]%append_lookup Hin.
    + pose proof (wf_order w Hwf j x k Hx Hin). intros [Hy|[-> _]]%append_lookup; [|unfold n in *; lia].
      by eapply (c_child w Hc).
    + destruct Hnew as (_ & _ & Hs). rewrite Hs in Hin. set_solver.
  - intros e He. destruct (c_entry w Hc e He) as (x & Hx & Hd). exists x. split; [|done].
    apply append_lookup. by left.
Qed.

Lemma append_others :
  winv w ->
  (forall j, j <> n -> timed (append_op o w) j) /\ (forall j, j <> n -> linked (append_op o w) j)
  /\ (forall p, awaited (append_op o w) p).
Proof.
  intros Hw. pose proof (c_ops w (w_core w Hw)) as Hwf. split_and!.
  - intros j Hn x [Hx|[? _]]%append_lookup Hal Hd; [|done]. rewrite append_stopped.
    by apply (w_timed w Hw j x).
  - intros j Hn x p [Hx|[? _]]%append_lookup Hal Hp; [|done]. rewrite append_stopped, append_edge by done.
    by apply (w_linked w Hw j x p).
  - intros p pd x Hp Hd [Hx|[Heq _]]%append_lookup; [by apply (w_awaited w Hw p pd x)|].
    pose proof (c_pend w (w_core w Hw) p pd Hp) as [H _]. unfold n in Heq. lia.
Qed.
End append.

(** The state while operation [i] is being created. *)
Record creating (i : nat) (dl : Z) (par : option nat) (w : world) : Prop := {
  cr_core : core w;
  cr_timed : forall j, j <> i -> timed w j;
  cr_linked : forall j, j <> i -> linked w j;
  cr_awaited : forall p, awaited w p;
  cr_self : exists o, ops w !! i = Some o /\ deadline o = dl /\ parent o = par /\ alive o = true
}.

Lemma creating_stop now i dl par w code :
  code <> Ok -> creating i dl par w -> creating i dl par (stop now w i code).2.
Proof.
  intros Hc [H1 H2 H3 H4 (o & Ho & Hd & Hp & Ha)].
  pose proof (lookup_lt_Some _ _ _ Ho) as Hi. constructor; intros.
  - by apply stop_core.
  - apply stop_timed; auto. apply H1.
  - apply stop_linked; auto. apply H1.
  - by apply stop_awaited.
  - destruct (stop_stops now code Hc w i (c_ops w H1) Hi) as [[_ Hh] _ _ _ _ _].
    destruct (Hh i o Ho) as [H|[_ H]]; eexists; (split; [exact H|done]).
Qed.

Lemma stop_self now i code w :
  code <> Ok -> core w -> i < length (ops w) -> linked (stop now w i code).2 i.
Proof.
  intros Hc Hw Hi o p Ho _ _. left.
  by destruct (stop_stops now code Hc w i (c_ops w Hw) Hi) as [_ Hs _ _ _ _].
Qed.

Lemma subscribe_parent_creating now i dl p w :
  p < i -> creating i dl (Some p) w -> op_alive w i = true ->
  creating i dl (Some p) (subscribe_parent now i p w) /\ linked (subscribe_parent now i p w) i.
Proof.
  intros Hpi Hcr Hal. pose proof Hcr as [H1 H2 H3 H4 (o & Ho & Hd & Hp & Ha)].
  pose proof (lookup_lt_Some _ _ _ Ho) as Hi. unfold subscribe_parent.
  destruct (ops w !! p) as [po|] eqn:Hpo; [|apply lookup_ge_None in Hpo; lia].
  pose proof (wf_requested w (c_ops w H1) p po Hpo) as Hreq.
  destruct (requested po) eqn:Hr.
  - symmetry in Hreq. apply negb_true_iff in Hreq.
    assert (Hcode : op_code now po <> Ok).
    { unfold op_code. rewrite Hreq. cbn. by apply code_eqb_false. }
    split; [by apply creating_stop|by apply stop_self].
  - symmetry in Hreq. apply negb_false_iff, code_eqb_true in Hreq.
    pose proof (add_slot_alike p (CbChild i) w) as Ha2. split.
    + constructor.
      * apply (alike_core Ha2); try apply H1; try done.
        -- intros j k [-> [= ->]]. split; [lia|]. intros (x & Hx & Hy). congruence.
        -- by intros j q [_ ?].
        -- intros q pd Hq. by exists pd.
        -- intros j k x [-> [= ->]] Hx. congruence.
      * intros j Hj. by apply (alike_timed Ha2); [|apply H2].
      * intros j Hj. apply (alike_linked Ha2); [by intros q []|by apply H3].
      * intros q. apply (alike_awaited Ha2); [by intros q' []|done|apply H4].
      * destruct (alike_fwd Ha2 i o Ho) as (o' & Ho' & _ & _ & E1 & _ & E2 & E3 & _).
        exists o'. by rewrite E1, E2, E3.
    + intros x q Hx _ Hq. right.
      assert (q = p) as ->.
      { cbn in Hx. rewrite list_lookup_alter_ne in Hx by lia. congruence. }
      split; [|by rewrite (alike_alive Ha2)].
      exists (add_slot (CbChild i) po). split.
      * cbn. by rewrite list_lookup_alter_eq, Hpo.
      * cbn. rewrite elem_of_app. right. by left.
Qed.

Lemma creating_retable i dl par ss w :
  creating i dl par w -> (forall s src, ss !! s = Some src -> source_ok w src) ->
  creating i dl par (set_sources ss w).
Proof.
  intros [H1 H2 H3 H4 H5] Hs.
  pose proof (same_alike (fun _ _ => False) (fun _ _ => False) w (set_sources ss w) eq_refl) as Ha.
  constructor; try done. eapply (alike_core Ha); try done; try apply H1. intros p pd Hp. by exists pd.
Qed.

Lemma subscribe_token_creating now i dl par s w :
  creating i dl par w -> linked w i ->
  creating i dl par (subscribe_token now i s w) /\ linked (subscribe_token now i s w) i.
Proof.
  intros Hcr Hl. pose proof Hcr as [H1 _ _ _ (o & Ho & Hd & Hp & Ha)].
  pose proof (lookup_lt_Some _ _ _ Ho) as Hi. unfold subscribe_token.
  destruct (sources w !! s) as [src|] eqn:Hs; [|done]. destruct (src_requested src).
  - split; [by apply creating_stop|by apply stop_self].
  - split; [|done]. apply creating_retable; [done|]. intros q x Hq j Hj.
    destruct (decide (q = s)) as [->|Hn].
    + rewrite list_lookup_insert_eq in Hq by (by eapply lookup_lt_Some). simplify_eq. cbn in *.
      apply elem_of_app in Hj as [Hj| ->%list_elem_of_singleton]; [|done].
      split; [|done]. by apply (c_sources w H1 s src Hs).
    + rewrite list_lookup_insert_ne in Hq by done. by apply (c_sources w H1 q x).
Qed.

Lemma emplace_perm e q : emplace e q ≡ₚ e :: q.
Proof.
  induction q as [|y q IH]; [done|]. cbn. destruct (Z.ltb e.1.1 y.1.1); [done|].
  rewrite IH. constructor.
Qed.

Lemma emplace_sorted e q : StronglySorted earlier q -> StronglySorted earlier (emplace e q).
Proof.
  induction q as [|y q IH]; cbn; intros Hs; [by repeat constructor|].
  apply StronglySorted_inv in Hs as [Hs Hy]. destruct (Z.ltb_spec e.1.1 y.1.1) as [H|H].
  - constructor; [by constructor|]. constructor; [unfold earlier; lia|].
    eapply Forall_impl; [exact Hy|]. unfold earlier. intros z Hz. lia.
  - constructor; [by apply IH|]. rewrite emplace_perm. by constructor.
Qed.

Lemma creating_timer i dl par w :
  creating i dl par w -> linked w i ->
  winv (if Z.eqb dl time_max then w
        else set_entries (emplace (dl, S (next w), i) (entries w)) (S (next w)) w).
Proof.
  intros [H1 H2 H3 H4 (o & Ho & Hd & Hp & Ha)] Hl.
  assert (Hlinked : forall j, linked w j)
    by (intros j; destruct (decide (j = i)) as [->|Hn]; [done|by apply H3]).
  destruct (Z.eqb_spec dl time_max) as [He|He].
  - constructor; try done. intros j. destruct (decide (j = i)) as [->|Hn]; [|by apply H2].
    intros x Hx _ Hd'. congruence.
  - set (w' := set_entries _ _ w).
    pose proof (same_alike (fun _ _ => False) (fun _ _ => False) w w' eq_refl) as Ha2.
    assert (Hsub : entries w ⊆ entries w').
    { intros e He'. cbn. rewrite emplace_perm. by right. }
    constructor; try done.
    + eapply (alike_core Ha2); try done; try apply H1; [intros p pd Hq; by exists pd| |].
      * cbn. apply emplace_sorted, H1.
      * cbn. intros e Hin. rewrite emplace_perm in Hin. apply elem_of_cons in Hin as [->|Hin].
        -- exists o. done.
        -- by apply (c_entry w H1).
    + intros j. destruct (decide (j = i)) as [->|Hn]; [|exact (alike_timed Ha2 j Hsub (H2 j Hn))].
      intros x Hx _ _. right. exists (S (next w)). assert (x = o) as -> by (cbn in Hx; congruence).
      cbn. rewrite emplace_perm, Hd. by left.
Qed.

Lemma create_winv now opts par w :
  winv w -> match par with Some p => op_alive w p | None => true end = true ->
  winv (create now opts par w).2.
Proof.
  intros Hw Hpar. unfold create. cbn [snd].
  set (dl := match (p ← par; ops w !! p) with Some _ => _ | None => _ end).
  set (fb := match (p ← par; ops w !! p) with Some _ => _ | None => _ end).
  set (i := length (ops w)). set (o := mkOp Ok false [] dl fb false false true par).
  change (set_ops (ops w ++ [o]) w) with (append_op o w).
  assert (Hnew : reason o = Ok /\ requested o = false /\ slots o = []) by done.
  assert (H1 : creating i dl par (append_op o w)).
  { destruct (append_others o w Hnew Hw) as (A & B & C). constructor; try done.
    - apply append_core; [done|apply Hw|]. intros p Hp. cbn in Hp. subst par.
      unfold op_alive in Hpar. destruct (ops w !! p) as [po|] eqn:Hpo; [|done].
      exists po. split; [done|]. unfold o, dl, fb. cbn. rewrite Hpo. cbn. split_and!; try done.
      + lia.
      + by intros [_ ?]%andb_prop.
    - exists o. split_and!; try done. apply append_lookup. by right. }
  set (w2 := match par with Some p => subscribe_parent now i p (append_op o w) | None => _ end).
  assert (H2 : creating i dl par w2 /\ linked w2 i).
  { unfold w2. destruct par as [p|].
    - apply subscribe_parent_creating; [by apply alive_lt|done|].
      unfold op_alive. rewrite (proj2 (append_lookup o w i o)) by (by right). done.
    - split; [done|]. intros x q Hx _ Hq. apply append_lookup in Hx as [Hx|[_ ->]]; [|done].
      apply lookup_lt_Some in Hx. unfold i in Hx. lia. }
  set (w3 := match cancellation opts with Some s => subscribe_token now i s w2 | None => w2 end).
  assert (H3 : creating i dl par w3 /\ linked w3 i).
  { unfold w3. destruct (cancellation opts); [|done].
    destruct H2. by apply subscribe_token_creating. }
  set (w4 := if Z.ltb (timeout opts) 0 then _ else w3).
  assert (H4 : creating i dl par w4 /\ linked w4 i).
  { unfold w4. destruct (Z.ltb _ _); [|done]. destruct H3 as [H3 _].
    split; [by apply creating_stop|]. apply stop_self; [done|apply H3|].
    destruct H3 as [_ _ _ _ (x & Hx & _)]. by eapply lookup_lt_Some. }
  destruct H4. by apply (creating_timer i dl par w4).
Qed.

(** *** Destruction *)

(** [w'] is [w] without the live operation [i]. *)
Definition buries (i : nat) (w w' : world) : Prop :=
  length (ops w') = length (ops w)
  /\ forall j o', ops w' !! j = Some o' -> exists o, ops w !! j = Some o
     /\ reason o' = reason o /\ requested o' = requested o /\ deadline o' = deadline o
     /\ fallbackAllowed o' = fallbackAllowed o /\ parent o' = parent o
     /\ alive o' = (alive o && negb (j =? i))
     /\ (forall cb, cb ∈ slots o' -> cb ∈ slots o)
     /\ (forall cb, cb ∈ slots o -> cb <> CbChild i -> cb ∈ slots o').

Lemma upd_op_back j f w k o' :
  ops (upd_op j f w) !! k = Some o' ->
  exists o, ops w !! k = Some o /\ (k = j /\ o' = f o \/ k <> j /\ o' = o).
Proof.
  cbn. destruct (decide (k = j)) as [->|Hn].
  - rewrite list_lookup_alter_eq. intros (o & Ho & ->)%fmap_Some. eauto 6.
  - rewrite list_lookup_alter_ne by done. eauto 6.
Qed.

Lemma destroy_buries i w : buries i w (destroy i w).
Proof.
  unfold destroy, finish. set (w1 := upd_op i set_dead _).
  assert (H1 : buries i w w1).
  { split; [cbn; by rewrite length_alter|]. intros j o' (o & Ho & Heq)%upd_op_back. exists o.
    split; [done|]. destruct Heq as [[-> ->]|[Hn ->]]; cbn.
    - rewrite Nat.eqb_refl, andb_false_r. by split_and!.
    - rewrite (proj2 (Nat.eqb_neq _ _) Hn), andb_true_r. by split_and!. }
  assert (H2 : forall p w2, buries i w w2 ->
    buries i w (upd_op p (fun o => set_slots (List.filter (not_child i) (slots o)) o) w2)).
  { intros p w2 [Hl H]. split; [cbn; by rewrite length_alter|].
    intros j o' (o & Ho & Heq)%upd_op_back.
    destruct (H j o Ho) as (x & Hx & E1 & E2 & E3 & E4 & E5 & E6 & H3 & H4).
    exists x. split; [done|]. destruct Heq as [[-> ->]|[Hn ->]]; [cbn|by split_and!].
    split_and!; try done; intros cb.
    - rewrite list_elem_of_In, List.filter_In, <- list_elem_of_In. intros [? _]. auto.
    - intros Hin Hne. rewrite list_elem_of_In, List.filter_In, <- list_elem_of_In. split; [auto|].
      destruct cb as [c| |]; cbn; [|done|done]. apply negb_true_iff, Nat.eqb_neq. congruence. }
  assert (H3 : forall ss w2, buries i w w2 -> buries i w (set_sources ss w2)) by done.
  apply H3. destruct (ops w1 !! i) as [o|]; [|done]. destruct (parent o); [by apply H2|done].
Qed.

Lemma destroy_tables i w :
  pendings (destroy i w) = pendings w /\ delivered (destroy i w) = delivered w
  /\ entries (destroy i w) = filter (fun e => e.2 <> i) (entries w)
  /\ sources (destroy i w) = map (fun s => mkSource (src_requested s)
       (filter (fun j => j <> i) (src_slots s))) (sources w).
Proof. unfold destroy, finish. by repeat case_match. Qed.

Lemma sorted_filter {A} (R : A -> A -> Prop) (P : A -> Prop) `{forall x, Decision (P x)} l :
  StronglySorted R l -> StronglySorted R (filter P l).
Proof.
  induction 1 as [|x l Hs IH Hx]; [constructor|]. rewrite filter_cons.
  destruct (decide (P x)); [|done]. constructor; [done|].
  rewrite Forall_forall in *. intros y [_ Hy]%list_elem_of_filter. auto.
Qed.

Section buries.
Context {i : nat} {w w' : world} (Hb : buries i w w').

Lemma buries_fwd j o : ops w !! j = Some o -> exists o', ops w' !! j = Some o'
     /\ reason o' = reason o /\ requested o' = requested o /\ deadline o' = deadline o
     /\ fallbackAllowed o' = fallbackAllowed o /\ parent o' = parent o
     /\ alive o' = (alive o && negb (j =? i))
     /\ (forall cb, cb ∈ slots o' -> cb ∈ slots o)
     /\ (forall cb, cb ∈ slots o -> cb <> CbChild i -> cb ∈ slots o').
Proof.
  intros Ho. assert (Hlt : j < length (ops w')) by (rewrite (proj1 Hb); by eapply lookup_lt_Some).
  apply lookup_lt_is_Some in Hlt as [o' Ho']. exists o'.
  destruct (proj2 Hb j o' Ho') as (o2 & Ho2 & H). assert (o2 = o) as -> by congruence. done.
Qed.

Lemma buries_stopped j : stopped w' j <-> stopped w j.
Proof.
  split; intros (o & Ho & Hr).
  - destruct (proj2 Hb j o Ho) as (o' & Ho' & E & _). exists o'. split; [done|congruence].
  - destruct (buries_fwd j o Ho) as (o' & Ho' & E & _). exists o'. split; [done|congruence].
Qed.

Lemma buries_alive j : op_alive w' j = op_alive w j && negb (j =? i).
Proof.
  unfold op_alive. destruct (ops w' !! j) as [o|] eqn:Ho.
  - destruct (proj2 Hb j o Ho) as (o' & -> & _ & _ & _ & _ & _ & E & _). done.
  - apply lookup_ge_None in Ho. rewrite (proj1 Hb) in Ho. apply lookup_ge_None in Ho. by rewrite Ho.
Qed.

Lemma buries_edge j k : edge w' j k <-> edge w j k /\ k <> i.
Proof.
  unfold edge. rewrite buries_alive, andb_true_iff, negb_true_iff, Nat.eqb_neq. split.
  - intros [(o & Ho & Hin) [Hal Hn]].
    destruct (proj2 Hb j o Ho) as (o' & Ho' & _ & _ & _ & _ & _ & _ & H & _). eauto 8.
  - intros [[(o & Ho & Hin) Hal] Hn].
    destruct (buries_fwd j o Ho) as (o' & Ho' & _ & _ & _ & _ & _ & _ & _ & H).
    split; [|done]. exists o'. split; [done|]. apply H; [done|congruence].
Qed.
End buries.

Lemma destroy_winv i w : winv w -> held_by_child w i = false -> winv (destroy i w).
Proof.
  intros Hw Hh. pose proof (destroy_buries i w) as Hb.
  destruct (destroy_tables i w) as (E1 & E2 & E3 & E4). revert Hb E1 E2 E3 E4.
  generalize (destroy i w) as w'. intros w' Hb E1 E2 E3 E4.
  destruct Hw as [[Hwf Hcl Hsrc Hinh Hso Hpe Hde Hsl Hch Hen] Ht Hl Ha].
  assert (Hnochild : forall j o, ops w !! j = Some o -> alive o = true -> parent o <> Some i).
  { intros j o Ho Hal Hp. apply not_true_iff_false in Hh. apply Hh.
    apply existsb_exists. exists o. split; [by apply list_elem_of_In, list_elem_of_lookup_2 with j|].
    rewrite Hal. by apply bool_decide_eq_true. }
  constructor; [constructor|..]; rewrite ?E1, ?E2, ?E3.
  - constructor; rewrite ?(proj1 Hb).
    + intros j o' k Ho' Hin. destruct (proj2 Hb j o' Ho') as (o & Ho & _ & _ & _ & _ & _ & _ & H & _).
      apply (wf_order w Hwf j o); auto.
    + intros j o' Ho'. destruct (proj2 Hb j o' Ho') as (o & Ho & -> & -> & _).
      by apply (wf_requested w Hwf j).
  - intros j k. rewrite !(buries_stopped Hb), (buries_edge Hb). intros Hj [Hjk _]. eauto.
  - rewrite E4. intros s src Hs j Hj. rewrite list_lookup_fmap in Hs.
    apply fmap_Some in Hs as (src' & Hs & ->). cbn in *. apply list_elem_of_filter in Hj as [_ Hj].
    destruct (Hsrc s src' Hs j Hj) as [H1 H2].
    rewrite (proj1 Hb), (buries_alive Hb), (buries_stopped Hb). split; [done|].
    intros Hr [Hal _]%andb_prop. auto.
  - intros j o' p Ho' Hp. destruct (proj2 Hb j o' Ho') as (o & Ho & _ & _ & -> & -> & Ep & -> & _).
    rewrite Ep in Hp. destruct (Hinh j o p Ho Hp) as (Hlt & po & Hpo & H1 & H2 & H3).
    split; [done|]. destruct (buries_fwd Hb p po Hpo) as (po' & Hpo' & _ & _ & E7 & E8 & _ & Eal & _).
    exists po'. rewrite E7, E8, Eal. split_and!; try done. intros [Hal _]%andb_prop.
    rewrite H3 by done. apply negb_true_iff, Nat.eqb_neq. intros ->.
    exact (Hnochild j o Ho Hal Hp).
  - by apply sorted_filter.
  - intros p pd Hp. rewrite (proj1 Hb). by apply Hpe.
  - done.
  - intros j o' p Ho' Hin. destruct (proj2 Hb j o' Ho') as (o & Ho & _ & _ & _ & _ & _ & _ & H & _).
    apply (Hsl j o); auto.
  - intros j o' k x' Ho' Hin Hx'.
    destruct (proj2 Hb j o' Ho') as (o & Ho & _ & _ & _ & _ & _ & _ & H & _).
    destruct (proj2 Hb k x' Hx') as (x & Hx & _ & _ & _ & _ & -> & _). eauto.
  - intros e [_ He]%list_elem_of_filter. destruct (Hen e He) as (o & Ho & Hd).
    destruct (buries_fwd Hb _ o Ho) as (o' & Ho' & _ & _ & E & _). exists o'. by rewrite E.
  - intros j o' Ho' Hal Hd. destruct (proj2 Hb j o' Ho') as (o & Ho & _ & _ & Ed & _ & _ & Eal & _).
    rewrite Eal in Hal. apply andb_prop in Hal as [Hal Hn%negb_true_iff%Nat.eqb_neq].
    rewrite Ed in *. rewrite (buries_stopped Hb), E3.
    destruct (Ht j o Ho Hal Hd) as [H|(id & Hid)]; [by left|right]. exists id.
    by apply list_elem_of_filter.
  - intros j o' p Ho' Hal Hp. destruct (proj2 Hb j o' Ho') as (o & Ho & _ & _ & _ & _ & Ep & Eal & _).
    rewrite Eal in Hal. apply andb_prop in Hal as [Hal Hn%negb_true_iff%Nat.eqb_neq].
    rewrite Ep in Hp. rewrite (buries_stopped Hb), (buries_edge Hb).
    destruct (Hl j o p Ho Hal Hp); auto.
  - intros p pd o' Hp Hd Ho'. rewrite E1 in Hp.
    destruct (proj2 Hb _ o' Ho') as (o & Ho & -> & _ & _ & _ & _ & _ & _ & H).
    destruct (Ha p pd o Hp Hd Ho) as [Hr Hin]. split; [done|]. by apply H.
Qed.

(** *** Every history *)

Lemma apply_winv e w : winv w -> winv (apply_event e w).
Proof.
  intros Hw. destruct e; cbn [apply_event].
  - destruct (match par with Some p => _ | None => _ end) eqn:E; [by apply create_winv|done].
  - destruct (op_alive w i) eqn:E; [|done]. destruct (decide (code = Ok)) as [->|Hc].
    + by rewrite stop_Ok.
    + apply stop_winv; [done|done|]. by apply alive_lt.
  - by apply new_source_winv.
  - by apply requestCancellation_winv.
  - by apply fire_winv.
  - destruct (op_alive w i && negb (held_by_child w i)) eqn:E; [|done].
    apply andb_prop in E as [_ E%negb_true_iff]. by apply destroy_winv.
  - destruct (op_alive w i); [by apply bind_winv|done].
  - by apply unbind_winv.
  - by apply run_cancel_winv.
  - destruct (op_alive w i) eqn:E; [by apply controlled_winv|done].
  - by apply complete_winv.
Qed.

Lemma empty_winv : winv empty_world.
Proof.
  constructor; [constructor|..]; try done; try constructor; try done.
  intros e He. cbn in He. set_solver.
Qed.

Lemma history_winv es : winv (history es).
Proof.
  unfold history. assert (H : forall w, winv w -> winv (foldl (fun w e => apply_event e w) w es)).
  { induction es as [|e es IH]; intros w Hw; [done|]. cbn. by apply IH, apply_winv. }
  apply H, empty_winv.
Qed.

(** *** Who a tick stops *)

Lemma edge_deadline w i j oi :
  core w -> rtc (edge w) i j -> ops w !! i = Some oi ->
  exists oj, ops w !! j = Some oj /\ (deadline oj <= deadline oi)%Z.
Proof.
  intros Hc Hr. revert oi. induction Hr as [i|i k j [(o & Ho & Hin) Hal] _ IH]; intros oi Hi.
  - exists oi. split; [done|lia].
  - assert (o = oi) as -> by congruence.
    unfold op_alive in Hal. destruct (ops w !! k) as [ok|] eqn:Hk; [|done].
    pose proof (c_child w Hc i oi k ok Ho Hin Hk) as Hp.
    destruct (c_inherits w Hc k ok i Hk Hp) as (_ & po & Hpo & Hd & _).
    destruct (IH ok eq_refl) as (oj & Hj & Hle). exists oj. split; [done|].
    assert (po = oi) as -> by congruence. lia.
Qed.

Definition due (now : Z) (w : world) (j : nat) : Prop :=
  exists o, ops w !! j = Some o /\ (deadline o <= now)%Z.

Lemma halts_due code now w w' j : halts code w w' -> due now w' j -> due now w j.
Proof.
  intros Hh (o' & Ho' & Hd). apply (halts_back _ _ _ _ _ Hh) in Ho' as (o & Ho & Heq).
  exists o. split; [done|]. by destruct Heq as [->|[_ ->]].
Qed.

Lemma fire_one_only now when id i es w j :
  winv w -> entries w = (when, id, i) :: es -> (when <= now)%Z ->
  stopped (stop_each now QueryTimeout (set_entries es (next w) w) i) j -> stopped w j \/ due now w j.
Proof.
  intros Hw He Hle Hs.
  assert (E : set_entries es (next w) w = retable (sources w) es (next w) w) by (by destruct w).
  rewrite E, stop_each_retable in Hs. change (stopped (stop_each now QueryTimeout w i) j) in Hs.
  unfold stop_each in Hs. destruct (op_alive w i) eqn:Hal; [|by left].
  pose proof (w_core w Hw) as Hc.
  destruct (stop_stops now QueryTimeout (ltac:(done)) w i (c_ops w Hc) (alive_lt w i Hal))
    as [_ _ Ho _ _ _].
  destruct (Ho j Hs) as [H|H]; [by left|right].
  destruct (c_entry w Hc (when, id, i)) as (oi & Hoi & Hd); [rewrite He; by left|]. cbn in *.
  destruct (edge_deadline w i j oi Hc H Hoi) as (oj & Hoj & Hd'). exists oj. split; [done|lia].
Qed.

Lemma fire_only now es : forall w j,
  winv w -> entries w = es -> stopped (fire now es w) j -> stopped w j \/ due now w j.
Proof.
  induction es as [|[[when id] i] es IH]; intros w j Hw He; cbn [fire]; [by left|].
  destruct (Z.ltb_spec now when) as [Hlt|Hge]; [by left|].
  destruct (fire_one now when id i es w Hw He) as (H1 & H2 & H3).
  intros Hs. destruct (IH _ j H1 H3 Hs) as [H|H].
  - by apply (fire_one_only now when id i es).
  - right. by eapply halts_due.
Qed.

(** ** Theorems *)

(** A request with a deadline of 5 s, two nested operations (the second one with
    its own 1 s timeout), a completion waiting on the innermost, and an unrelated
    operation with a cancellation token. *)
Definition s1 : Z := 1000 * ms.
Definition demo_events : list event :=
  [ENewSource;
   ECreate 0 (mkOptions 5000 time_max None [] Unspecified true) None;
   ECreate 0 (mkOptions 1000 time_max None [] Unspecified false) (Some 0);
   ECreate 0 no_options (Some 1);
   EControlled 0 2;
   ECreate 0 (mkOptions 0 time_max (Some 0) [] Unspecified true) None;
   EBind 0 3 (Some 7) true true].

(** C15.  Stopping an operation stops exactly its live descendants: every operation
    reached through subscriptions that was still running gets the same reason;
    one that had a reason keeps it, and no other operation changes. *)
Theorem stop_propagates es now i code j o :
  let w := history es in
  op_alive w i = true -> code <> Ok -> ~ stopped w i -> ops w !! j = Some o ->
  (rtc (edge w) i j -> reason o = Ok -> ops (stop now w i code).2 !! j = Some (halt code o))
  /\ (~ rtc (edge w) i j \/ reason o <> Ok -> ops (stop now w i code).2 !! j = Some o).
Proof.
  intros w Hal Hc Hi Hj. pose proof (history_winv es) as Hw. fold w in Hw.
  pose proof (w_core w Hw) as Hcore.
  destruct (stop_stops now code Hc w i (c_ops w Hcore) (alive_lt w i Hal)) as [Hh Hs Ho Hcl _ _].
  assert (Hall : forall k, rtc (edge w) i k -> stopped (stop now w i code).2 k).
  { apply (rtc_ind_r _ i); [done|]. intros k k' _ Hk IH.
    destruct (stopped_dec w k) as [H|H].
    - eapply halts_stopped; [done|done|]. by eapply (c_closed w Hcore).
    - eapply Hcl; [exact IH|done|by intros []|done]. }
  destruct (proj2 Hh j o Hj) as [H|[Hr H]]; split.
  - intros Hr Hok. destruct (Hall j Hr) as (o' & Ho' & Hr'). congruence.
  - done.
  - done.
  - intros Hn. exfalso. destruct (Ho j) as [(o' & Ho' & Hr')|H'].
    + by exists (halt code o).
    + congruence.
    + tauto.
Qed.

Lemma stop_propagates_witness :
  let w := history demo_events in
  map reason (ops (stop 0 w 0 Cancelled).2) = [Cancelled; Cancelled; Cancelled; Ok]
  /\ exists o, ops w !! 2 = Some o /\ ops (stop 0 w 0 Cancelled).2 !! 2 = Some (halt Cancelled o).
Proof.
  cbv zeta. split; [by vm_compute|].
  assert (E : exists o, ops (history demo_events) !! 2 = Some o /\ reason o = Ok)
    by (eexists; vm_compute; done).
  assert (Ha : op_alive (history demo_events) 0 = true) by (by vm_compute).
  assert (Hs : ~ stopped (history demo_events) 0)
    by (intros (x & Hx & Hr); vm_compute in Hx; injection Hx as <-; by apply Hr).
  assert (Hr : rtc (edge (history demo_events)) 0 2).
  { eapply rtc_l with 1; [|apply rtc_once].
    - split; [eexists; split; [vm_compute; reflexivity|by left]|by vm_compute].
    - split; [eexists; split; [vm_compute; reflexivity|by left]|by vm_compute]. }
  destruct E as (o & Ho & Hok). exists o. split; [exact Ho|].
  assert (Hc : Cancelled <> Ok) by discriminate.
  destruct (stop_propagates demo_events 0 0 Cancelled 2 o Ha Hc Hs Ho) as [H _]. exact (H Hr Hok).
Defined.

(**  Deadlines are enforced exactly: after the scheduler's turn at [now],
    every live operation whose deadline has passed has a stop reason, and an
    operation stopped by that turn had reached its deadline and stops with
    [QueryTimeout]; nothing is stopped early. *)
Theorem deadlines_enforced es now i o :
  let w := history es in
  let w' := tick now w in
  ops w' !! i = Some o -> alive o = true -> deadline o <> time_max ->
  ((deadline o <= now)%Z -> reason o <> Ok)
  /\ (~ stopped w i -> reason o <> Ok -> (deadline o <= now)%Z /\ reason o = QueryTimeout).
Proof.
  intros w w' Ho Hal Hd. pose proof (history_winv es) as Hw. fold w in Hw.
  destruct (fire_winv now (entries w) w Hw eq_refl) as (H1 & H2 & H3). fold (tick now w) in *.
  fold w' in H1, H2, H3. split.
  - intros Hle Hr. destruct (w_timed w' H1 i o Ho Hal Hd) as [(x & Hx & Hy)|(id & Hid)]; [congruence|].
    apply H3 in Hid. cbn in Hid. lia.
  - intros Hns Hr.
    destruct (fire_only now (entries w) w i Hw eq_refl) as [H|(x & Hx & Hle)];
      [by exists o|done|].
    destruct (halts_back _ _ _ _ _ H2 Ho) as (y & Hy & [->|[Hok ->]]); simplify_eq.
    + destruct Hns. by exists x.
    + done.
Qed.

Lemma deadlines_enforced_witness :
  let w' := tick s1 (history demo_events) in
  map reason (ops w') = [Ok; QueryTimeout; QueryTimeout; Ok]
  /\ exists o, ops w' !! 1 = Some o /\ reason o <> Ok.
Proof.
  cbv zeta. split; [by vm_compute|].
  assert (E : exists o, ops (tick s1 (history demo_events)) !! 1 = Some o /\ alive o = true
    /\ deadline o = s1) by (eexists; vm_compute; done).
  destruct E as (o & Ho & Ha & Hd). exists o. split; [exact Ho|].
  assert (Hm : deadline o <> time_max) by (rewrite Hd; by vm_compute).
  destruct (deadlines_enforced demo_events s1 1 o Ho Ha Hm) as [H _]. apply H. lia.
Defined.

(**  A controlled completion is delivered exactly once: in every history it
    is delivered at most once; once its operation has stopped or a result has
    been handed to it, exactly once. *)
Theorem completion_exactly_once es p pd :
  let w := history es in
  pendings w !! p = Some pd ->
  length (filter (fun d => d.1 = p) (delivered w)) <= 1
  /\ (stopped w (p_op pd) -> length (filter (fun d => d.1 = p) (delivered w)) = 1)
  /\ (forall now r, length (filter (fun d => d.1 = p) (delivered (deliver now p r w))) = 1).
Proof.
  intros w Hp. pose proof (history_winv es) as Hw. fold w in Hw.
  pose proof (c_pend w (w_core w Hw) p pd Hp) as [_ Hn]. split_and!.
  - destruct (done_ pd); lia.
  - intros (o & Ho & Hr). destruct (done_ pd) eqn:Hd; [done|].
    by destruct (w_awaited w Hw p pd o Hp Hd Ho).
  - intros now r. destruct (deliver_done now p r w) as (x & Hx & Hd); [by eapply lookup_lt_Some|].
    destruct (deliver_counted now p r w (core_counted w (w_core w Hw))) as [H _].
    by rewrite (H p x Hx), Hd.
Qed.

Lemma completion_exactly_once_witness :
  let w := history (demo_events ++ [EStop 0 0 Cancelled; EComplete 0 0 (mkResult status_OK Native (Some 3))]) in
  delivered w = [(0, mkResult (status_error Cancelled $"operation cancelled") CompatibilityFallback None)]
  /\ length (filter (fun d => d.1 = 0) (delivered w)) <= 1.
Proof.
  split; [by vm_compute|].
  apply (completion_exactly_once
    (demo_events ++ [EStop 0 0 Cancelled; EComplete 0 0 (mkResult status_OK Native (Some 3))])
    0 (mkPending 2 true)). by vm_compute.
Defined.

(**  [remaining] never ends an operation early and never exceeds the caller's
    own limit: it covers the time to the deadline, rounded up to less than a
    millisecond more, and is zero exactly when [status] reports the deadline. *)
Theorem remaining_exact now other o :
  deadline o <> time_max -> reason o = Ok ->
  let r := remaining now other o in
  (0 <= other -> r <= other)%Z
  /\ ((other < 0 \/ remaining now (-1) o <= other)%Z ->
        (deadline o - now <= r * ms)%Z /\ ((now < deadline o)%Z -> (r * ms < deadline o - now + ms)%Z))
  /\ (0 <> other -> r = 0%Z <-> code_ (op_status now o) = QueryTimeout)%Z.
Proof.
  intros Hd Hok. unfold remaining, op_status, op_code. rewrite Hok.
  rewrite (proj2 (Z.eqb_neq _ _) Hd). cbn [code_eqb bool_decide].
  change (code_eqb Ok Ok) with true. cbn [andb].
  assert (Hceil : forall d, (d <= ceil_ms d * ms < d + ms)%Z).
  { intros d. unfold ceil_ms, ms. pose proof (Z.div_mod (-d) 1000000 ltac:(lia)).
    pose proof (Z.mod_pos_bound (-d) 1000000 ltac:(lia)). lia. }
  specialize (Hceil (deadline o - now)%Z). unfold ms in *.
  change (Z.ltb (-1) 0) with true. cbn [andb].
  destruct (Z.leb_spec (deadline o) now) as [Hle|Hle]; destruct (Z.ltb_spec other 0); cbn;
    split_and!; intros; try lia; try (split; intros; try done; lia).
Qed.

Lemma remaining_exact_witness :
  let o := mkOp Ok false [] (s1 + 1) true false false true None in
  remaining 0 (-1) o = 1001%Z /\ (remaining 0 400 o <= 400)%Z.
Proof.
  split; [by vm_compute|].
  apply (remaining_exact 0 400 (mkOp Ok false [] (s1 + 1) true false false true None)); done.
Defined.
End Operation.
