(* ===== verification/Session.v ===== *)
(** * Sessions and transactions

    src/core/database_manager.cpp: [Session] (statements, [begin], [commit],
    [rollback], savepoints, the destructor), the observation wrappers around
    driver calls, [withSessionInternal] and [transactionWithHandle], over any
    connection that satisfies the interface [DbConnection]; and the transaction
    calls of [MySQLConnection] in src/driver/mysql_driver.cpp as an instance of
    it.

    The current operation's status is a function of the number of times it has
    been asked, so a deadline can pass between any two calls.  A session's
    callback is the list of calls it makes and the way it ends. *)

From S2P Require Import Prelude Types SqlAuditor.

Module Session.

Inductive IsolationLevel :=
| IsoDefault | ReadUncommitted | ReadCommitted | RepeatableRead | Serializable.
Record TransactionOptions := mkTx { isolation : IsolationLevel; tx_readOnly : bool; tx_timeout : Z }.

Inductive savepoint_op := SpCreate | SpRelease | SpRollback.

(** ** The connection interface

    What a session relies on: the calls of [IDatabaseConnection] it makes, and
    that a call that reports success has had its documented effect on the
    transaction of the connection. *)
Class DbConnection (S : Type) := {
  db_begin : TransactionOptions -> S -> Status * S;
  db_commit : S -> Status * S;
  db_rollback : S -> Status * S;
  db_savepoint : savepoint_op -> str -> S -> Status * S;
  db_run : bool -> str -> S -> Status * S;
  in_tx : S -> bool;
  begin_ok o s : status_ok (db_begin o s).1 = true -> in_tx (db_begin o s).2 = true;
  begin_failed o s : status_ok (db_begin o s).1 = false -> in_tx (db_begin o s).2 = in_tx s;
  commit_ok s : status_ok (db_commit s).1 = true -> in_tx (db_commit s).2 = false;
  rollback_ok s : status_ok (db_rollback s).1 = true -> in_tx (db_rollback s).2 = false;
  savepoint_tx k n s : in_tx (db_savepoint k n s).2 = in_tx s;
  run_tx w q s : in_tx (db_run w q s).2 = in_tx s
}.

(** The driver calls made, with their success, newest last. *)
Inductive call := CBegin (ok : bool) | CCommit (ok : bool) | CRollback (ok : bool) | COther.

Section Session.
Context {S : Type} {DB : DbConnection S}.

(** [conn] and [valid] are the pooled handle; [depth] is the thread's
    [gTxDepth]; [asked] counts the questions to the operation. *)
Record session := mkSession {
  conn : S;
  valid : bool;
  txOpen : bool;
  didWrite : bool;
  depth : nat;
  asked : nat;
  calls : list call
}.

(** [stop n]: the operation's status the [n]-th time it is asked; [audit] the
    auditor's verdict; [before] the interceptors' one. *)
Variable stop : nat -> Status.
Variable audit : str -> OperationType -> Status.
Variable before : str -> Status.

Definition open_session (c : S) (d n : nat) : session := mkSession c true false false d n [].

Definition ask (s : session) : Status * session :=
  (stop (asked s), mkSession (conn s) (valid s) (txOpen s) (didWrite s) (depth s)
                     (Datatypes.S (asked s)) (calls s)).
Definition set_conn (c : S) (k : call) (s : session) : session :=
  mkSession c (valid s) (txOpen s) (didWrite s) (depth s) (asked s) (calls s ++ [k]).
Definition set_tx (b : bool) (d : nat) (s : session) : session :=
  mkSession (conn s) (valid s) b (didWrite s) d (asked s) (calls s).
Definition wrote (s : session) : session :=
  mkSession (conn s) (valid s) (txOpen s) true (depth s) (asked s) (calls s).
Definition invalidate (s : session) : session :=
  mkSession (conn s) false (txOpen s) (didWrite s) (depth s) (asked s) (calls s).
Definition invalidate_if (b : bool) (s : session) : session := if b then invalidate s else s.

(** ** Observation wrappers *)

(** [observe]. *)
Definition observe (fn : session -> Status * session) (s : session) : Status * session :=
  let '(st, s) := ask s in
  if status_ok st then fn s else (st, s).

(** [observeSqlImpl]. *)
Definition observeSql (write : bool) (fn : session -> Status * session) (s : session)
    : Status * session :=
  let '(st, s) := ask s in
  if negb (status_ok st) then (st, s)
  else
    let '(st, s) := ask s in
    if negb (status_ok st) then (st, s)
    else
      let '(status, s) := fn s in
      let '(st, s) := ask s in
      if status_ok st then (status, s)
      else (set_broken true (if write && status_ok status then status else st), s).

(** ** Transaction calls *)

Definition leave_tx (s : session) : session :=
  if txOpen s then set_tx false (depth s - 1) s else s.

Definition begin (o : TransactionOptions) (s : session) : Status * session :=
  let '(st, s) := observe (fun s => let '(st, c) := db_begin o (conn s) in
                                    (st, set_conn c (CBegin (status_ok st)) s)) s in
  let s := invalidate_if (connectionBroken st) s in
  (st, if status_ok st
       then set_tx true (if txOpen s then depth s else Datatypes.S (depth s)) s else s).

Definition commit (s : session) : Status * session :=
  let '(st, s) := observe (fun s => let '(st, c) := db_commit (conn s) in
                                    (st, set_conn c (CCommit (status_ok st)) s)) s in
  (st, leave_tx (invalidate_if (connectionBroken st) s)).

Definition rollback (s : session) : Status * session :=
  let '(st, s) := observe (fun s => let '(st, c) := db_rollback (conn s) in
                                    (st, set_conn c (CRollback (status_ok st)) s)) s in
  (st, leave_tx (invalidate_if (connectionBroken st) s)).

Definition savepoint (k : savepoint_op) (name : str) (s : session) : Status * session :=
  let '(st, s) := observe (fun s => let '(st, c) := db_savepoint k name (conn s) in
                                    (st, set_conn c COther s)) s in
  (st, invalidate_if (connectionBroken st) s).

(** [~Session] and [cleanupOpenTransaction]; the rollback is not observed. *)
Definition cleanupOpenTransaction (s : session) : session :=
  if negb (txOpen s) then s
  else
    let '(st, c) := db_rollback (conn s) in
    let s := set_tx false (depth s - 1) (set_conn c (CRollback (status_ok st)) s) in
    invalidate_if (negb (status_ok st)) s.

(** ** Statements *)

(** [Session::query] and [Session::execute]: audit, interceptors, the observed
    driver call. *)
Definition statement (ty : OperationType) (sql : str) (s : session) : Status * session :=
  let a := audit sql ty in
  if negb (status_ok a) then (a, s)
  else if negb (status_ok (before sql)) then (before sql, s)
  else
    let write := bool_decide (ty = OExecute \/ ty = OBatch) in
    let '(st, s) := observeSql write
      (fun s => let '(st, c) := db_run write sql (conn s) in
                let s := set_conn c COther s in
                (st, if write && status_ok st then wrote s else s)) s in
    (st, invalidate_if (connectionBroken st) s).

(** ** Callbacks *)

Inductive action :=
| ABegin (o : TransactionOptions)
| ACommit
| ARollback
| ASavepoint (k : savepoint_op) (name : str)
| AStatement (ty : OperationType) (sql : str).

Inductive fn_end := Returned (st : Status) | ThrewStd (what : str) | ThrewOther.
Record SessionFn := mkFn { actions : list action; ending : fn_end }.

Definition do_action (a : action) (s : session) : session :=
  match a with
  | ABegin o => (begin o s).2
  | ACommit => (commit s).2
  | ARollback => (rollback s).2
  | ASavepoint k n => (savepoint k n s).2
  | AStatement ty q => (statement ty q s).2
  end.

Definition runGuarded (fn : SessionFn) (s : session) : Status * session :=
  (match ending fn with
   | Returned st => st
   | ThrewStd what => status_error TxError ($"exception in session: " ++ what)
   | ThrewOther => status_error TxError $"unknown exception in session"
   end, foldl (fun s a => do_action a s) s (actions fn)).

(** ** Data-source entry points on a borrowed connection *)

(** The result: the status, the session after its destructor, the statuses
    given to [afterAttempt] and whether [markWrite] was called. *)
Record outcome := mkOutcome {
  r_status : Status; r_session : session; r_attempts : list Status; r_marked : bool }.

(** [withSessionInternal] of a leaf, after the borrow. *)
Definition withSession (fn : SessionFn) (c : S) (d n : nat) : outcome :=
  let '(st, s) := runGuarded fn (open_session c d n) in
  mkOutcome st (cleanupOpenTransaction s) [st] (didWrite s).

(** What the deadline watcher of a transaction did: nothing, or it timed out
    and its [cancel] was delivered or not, breaking the connection or not. *)
Inductive watcher := NotExpired | Expired (delivered broke : bool).

Definition timeout_status (ms : Z) (delivered : bool) : Status :=
  set_retryable true (status_error QueryTimeout
    ($"transaction timed out after " ++ to_string ms ++ $"ms" ++
     if delivered then []
     else $" (driver could not cancel the running statement; the callback had to run to completion)")).

(** [transactionWithHandle] with a handle. *)
Definition transactionWithHandle (o : TransactionOptions) (fn : SessionFn) (wd : watcher)
    (c : S) (d n : nat) : outcome :=
  let '(st, s) := begin o (open_session c d n) in
  if negb (status_ok st) then mkOutcome st (cleanupOpenTransaction s) [st] false
  else
    let '(op, s) := runGuarded fn s in
    let '(op, s) := match wd with
                    | NotExpired => (op, s)
                    | Expired delivered broke =>
                        (timeout_status (tx_timeout o) delivered, invalidate_if broke s)
                    end in
    if negb (status_ok op) then
      let '(rb, s) := rollback s in
      mkOutcome op (cleanupOpenTransaction s) [op] (negb (status_ok rb) && didWrite s)
    else if txOpen s then
      let '(cm, s) := commit s in
      if negb (status_ok cm) then mkOutcome cm (cleanupOpenTransaction s) [op; cm] (didWrite s)
      else mkOutcome status_OK (cleanupOpenTransaction s) [op] (didWrite s)
    else mkOutcome status_OK (cleanupOpenTransaction s) [op] (didWrite s).

(** ** Depth accounting *)

Definition depth_ok (d : nat) (s : session) : Prop := depth s = d + (if txOpen s then 1 else 0).

(** An observed call leaves the session's own fields to its wrapper. *)
Definition keeps (s s' : session) : Prop := depth s' = depth s /\ txOpen s' = txOpen s.

Lemma observe_cases fn s :
  observe fn s = (stop (asked s), (ask s).2) /\ status_ok (stop (asked s)) = false
  \/ observe fn s = fn (ask s).2 /\ status_ok (stop (asked s)) = true.
Proof. unfold observe. cbn. destruct (status_ok (stop (asked s))); auto. Qed.

Lemma observe_keeps fn s :
  (forall s, keeps s (fn s).2) -> keeps s (observe fn s).2.
Proof.
  intros H. destruct (observe_cases fn s) as [[-> _]|[-> _]]; [done|]. apply (H (ask s).2).
Qed.

Lemma observeSql_keeps w fn s :
  (forall s, keeps s (fn s).2) -> keeps s (observeSql w fn s).2.
Proof.
  intros H. unfold observeSql. cbn. destruct (negb (status_ok (stop (asked s)))); [done|]. cbn.
  destruct (negb (status_ok _)); [done|].
  destruct (fn _) as [st s1] eqn:E. pose proof (H (ask (ask s).2).2) as Hk. cbn in Hk.
  rewrite E in Hk. cbn in Hk. destruct (status_ok _); exact Hk.
Qed.

Lemma invalidate_if_keeps b s : keeps s (invalidate_if b s).
Proof. by destruct b. Qed.

Lemma leave_tx_depth d s : depth_ok d s -> depth_ok d (leave_tx s) /\ txOpen (leave_tx s) = false.
Proof.
  unfold depth_ok, leave_tx. destruct (txOpen s) eqn:E; cbn; rewrite ?E; intros H; split; lia || done.
Qed.

Lemma keeps_depth d s s' : keeps s s' -> depth_ok d s -> depth_ok d s'.
Proof. unfold keeps, depth_ok. intros [-> ->]. done. Qed.

Lemma keeps_trans s1 s2 s3 : keeps s1 s2 -> keeps s2 s3 -> keeps s1 s3.
Proof. unfold keeps. intros [-> ->] [-> ->]. done. Qed.

Ltac by_call := intros; match goal with |- context [let '(_, _) := ?x in _] => destruct x end; done.

Lemma close_depth fn d s :
  (forall s, keeps s (fn s).2) -> depth_ok d s ->
  let '(st, s1) := observe fn s in
  depth_ok d (leave_tx (invalidate_if (connectionBroken st) s1))
  /\ txOpen (leave_tx (invalidate_if (connectionBroken st) s1)) = false.
Proof.
  intros Hf Hd. pose proof (observe_keeps fn s Hf) as Hk.
  destruct (observe fn s) as [st s1]. cbn in Hk. apply leave_tx_depth.
  eapply keeps_depth; [|exact Hd]. eapply keeps_trans; [exact Hk|apply invalidate_if_keeps].
Qed.

Lemma begin_depth o d s : depth_ok d s -> depth_ok d (begin o s).2.
Proof.
  intros Hd. unfold begin. set (fn := fun s => _).
  pose proof (observe_keeps fn s ltac:(unfold fn; by_call)) as Hk.
  destruct (observe fn s) as [st s1]. cbn in Hk.
  assert (H1 : depth_ok d (invalidate_if (connectionBroken st) s1)).
  { eapply keeps_depth; [|exact Hd]. eapply keeps_trans; [exact Hk|apply invalidate_if_keeps]. }
  cbn [snd]. destruct (status_ok st); [|done]. revert H1. unfold depth_ok. cbn.
  destruct (txOpen (invalidate_if _ s1)); lia.
Qed.

Lemma commit_depth d s : depth_ok d s -> depth_ok d (commit s).2 /\ txOpen (commit s).2 = false.
Proof.
  intros Hd. unfold commit. set (fn := fun s => _).
  pose proof (close_depth fn d s ltac:(unfold fn; by_call) Hd) as H.
  destruct (observe fn s) as [st s1]. exact H.
Qed.

Lemma rollback_depth d s : depth_ok d s -> depth_ok d (rollback s).2 /\ txOpen (rollback s).2 = false.
Proof.
  intros Hd. unfold rollback. set (fn := fun s => _).
  pose proof (close_depth fn d s ltac:(unfold fn; by_call) Hd) as H.
  destruct (observe fn s) as [st s1]. exact H.
Qed.

Lemma savepoint_keeps k n s : keeps s (savepoint k n s).2.
Proof.
  unfold savepoint. set (fn := fun s => _).
  pose proof (observe_keeps fn s ltac:(unfold fn; by_call)) as Hk.
  destruct (observe fn s) as [st s1]. eapply keeps_trans; [exact Hk|apply invalidate_if_keeps].
Qed.

Lemma statement_keeps ty q s : keeps s (statement ty q s).2.
Proof.
  unfold statement. destruct (negb (status_ok (audit q ty))); [done|].
  destruct (negb (status_ok (before q))); [done|]. set (w := bool_decide _). set (fn := fun s => _).
  assert (Hf : forall s, keeps s (fn s).2).
  { intros s'. unfold fn. destruct (db_run w q (conn s')). by destruct (w && status_ok _). }
  pose proof (observeSql_keeps w fn s Hf) as Hk.
  destruct (observeSql w fn s) as [st s1]. eapply keeps_trans; [exact Hk|apply invalidate_if_keeps].
Qed.

Lemma action_depth a d s : depth_ok d s -> depth_ok d (do_action a s).
Proof.
  intros H. destruct a; cbn [do_action].
  - by apply begin_depth.
  - by apply commit_depth.
  - by apply rollback_depth.
  - eapply keeps_depth; [apply savepoint_keeps|done].
  - eapply keeps_depth; [apply statement_keeps|done].
Qed.

Lemma actions_depth l d s : depth_ok d s -> depth_ok d (foldl (fun s a => do_action a s) s l).
Proof.
  revert s; induction l as [|a l IH]; intros s H; [done|]. cbn. by apply IH, action_depth.
Qed.

Lemma cleanup_depth d s :
  depth_ok d s -> depth (cleanupOpenTransaction s) = d /\ txOpen (cleanupOpenTransaction s) = false.
Proof.
  unfold depth_ok, cleanupOpenTransaction. destruct (txOpen s) eqn:E; cbn [negb]; [|split; [lia|done]].
  intros H. destruct (db_rollback (conn s)) as [st c]. destruct (status_ok st); cbn; split; lia || done.
Qed.

(** ** No open transaction is lost sight of *)

Definition blamed (l : list call) : Prop := CCommit false ∈ l \/ CRollback false ∈ l.

Definition tracked (s : session) : Prop :=
  in_tx (conn s) = true -> txOpen s = true \/ blamed (calls s).

Definition never_stopped : Prop := forall n, status_ok (stop n) = true.

Lemma observe_run fn s : never_stopped -> observe fn s = fn (ask s).2.
Proof. intros H. unfold observe. cbn. by rewrite H. Qed.

Lemma observeSql_run w fn s :
  never_stopped ->
  observeSql w fn s = ((fn (ask (ask s).2).2).1, (ask (fn (ask (ask s).2).2).2).2).
Proof.
  intros H. unfold observeSql. cbn. rewrite !H. cbn.
  destruct (fn _) as [st s1]. cbn. by rewrite H.
Qed.

Lemma blamed_app l k : blamed l -> blamed (l ++ [k]).
Proof. unfold blamed. rewrite !elem_of_app. tauto. Qed.

Lemma invalidate_if_same b s :
  conn (invalidate_if b s) = conn s /\ txOpen (invalidate_if b s) = txOpen s
  /\ calls (invalidate_if b s) = calls s /\ didWrite (invalidate_if b s) = didWrite s.
Proof. by destruct b. Qed.

Lemma leave_tx_same s : conn (leave_tx s) = conn s /\ calls (leave_tx s) = calls s.
Proof. unfold leave_tx. by destruct (txOpen s). Qed.

(** The three transaction calls, when the operation is not stopped. *)
Lemma begin_run o s :
  never_stopped ->
  let '(st, c) := db_begin o (conn s) in
  (begin o s).1 = st /\ conn (begin o s).2 = c
  /\ calls (begin o s).2 = calls s ++ [CBegin (status_ok st)]
  /\ txOpen (begin o s).2 = (status_ok st || txOpen s).
Proof.
  intros H. unfold begin. rewrite observe_run by done. cbn. destruct (db_begin o (conn s)) as [st c].
  cbn. destruct (connectionBroken st), (status_ok st); cbn; by split_and!.
Qed.

Lemma commit_run s :
  never_stopped ->
  let '(st, c) := db_commit (conn s) in
  (commit s).1 = st /\ conn (commit s).2 = c
  /\ calls (commit s).2 = calls s ++ [CCommit (status_ok st)].
Proof.
  intros H. unfold commit. rewrite observe_run by done. cbn. destruct (db_commit (conn s)) as [st c].
  cbn. set (s1 := invalidate_if _ _). destruct (leave_tx_same s1) as [-> ->].
  destruct (invalidate_if_same (connectionBroken st) (set_conn c (CCommit (status_ok st)) (ask s).2))
    as (E1 & _ & E2 & _). unfold s1. by split_and!.
Qed.

Lemma rollback_run s :
  never_stopped ->
  let '(st, c) := db_rollback (conn s) in
  (rollback s).1 = st /\ conn (rollback s).2 = c
  /\ calls (rollback s).2 = calls s ++ [CRollback (status_ok st)].
Proof.
  intros H. unfold rollback. rewrite observe_run by done. cbn. destruct (db_rollback (conn s)) as [st c].
  cbn. set (s1 := invalidate_if _ _). destruct (leave_tx_same s1) as [-> ->].
  destruct (invalidate_if_same (connectionBroken st) (set_conn c (CRollback (status_ok st)) (ask s).2))
    as (E1 & _ & E2 & _). unfold s1. by split_and!.
Qed.

Lemma savepoint_run k n s :
  never_stopped ->
  in_tx (conn (savepoint k n s).2) = in_tx (conn s) /\ txOpen (savepoint k n s).2 = txOpen s
  /\ calls (savepoint k n s).2 = calls s ++ [COther].
Proof.
  intros H. unfold savepoint. rewrite observe_run by done. cbn.
  pose proof (savepoint_tx k n (conn s)) as Ht.
  destruct (db_savepoint k n (conn s)) as [st c]. cbn in *. by destruct (connectionBroken st).
Qed.

Lemma statement_run ty q s :
  never_stopped ->
  in_tx (conn (statement ty q s).2) = in_tx (conn s) /\ txOpen (statement ty q s).2 = txOpen s
  /\ (calls (statement ty q s).2 = calls s \/ calls (statement ty q s).2 = calls s ++ [COther]).
Proof.
  intros H. unfold statement. destruct (negb (status_ok (audit q ty))); [by auto|].
  destruct (negb (status_ok (before q))); [by auto|]. set (w := bool_decide _).
  rewrite observeSql_run by done. cbn. pose proof (run_tx w q (conn s)) as Ht.
  destruct (db_run w q (conn s)) as [st c]. cbn in *.
  destruct (w && status_ok st), (connectionBroken st); cbn; by auto.
Qed.

Lemma action_tracked a s : never_stopped -> tracked s -> tracked (do_action a s).
Proof.
  intros H Ht. destruct a; cbn [do_action]; unfold tracked.
  - pose proof (begin_run o s H) as Hb. pose proof (begin_failed o (conn s)) as Hf.
    destruct (db_begin o (conn s)) as [st c]. destruct Hb as (_ & -> & -> & ->). cbn in Hf.
    destruct (status_ok st); cbn; [by left|]. rewrite Hf by done. intros [?|?]%Ht; [by left|right].
    by apply blamed_app.
  - pose proof (commit_run s H) as Hc. pose proof (commit_ok (conn s)) as Hf.
    destruct (db_commit (conn s)) as [st c]. destruct Hc as (_ & -> & ->). cbn in Hf.
    destruct (status_ok st); [by rewrite Hf|]. intros _. right. left. rewrite elem_of_app. right. by left.
  - pose proof (rollback_run s H) as Hc. pose proof (rollback_ok (conn s)) as Hf.
    destruct (db_rollback (conn s)) as [st c]. destruct Hc as (_ & -> & ->). cbn in Hf.
    destruct (status_ok st); [by rewrite Hf|]. intros _. right. right. rewrite elem_of_app. right. by left.
  - destruct (savepoint_run k name s H) as (-> & -> & ->). intros [?|?]%Ht; [by left|right].
    by apply blamed_app.
  - destruct (statement_run ty sql s H) as (-> & -> & Hc). intros [?|Hb]%Ht; [by left|right].
    destruct Hc as [->| ->]; [done|by apply blamed_app].
Qed.

Lemma actions_tracked l s :
  never_stopped -> tracked s -> tracked (foldl (fun s a => do_action a s) s l).
Proof.
  intros H. revert s; induction l as [|a l IH]; intros s Hs; [done|]. cbn. by apply IH, action_tracked.
Qed.

(** After the destructor, an open transaction on a valid handle is to blame. *)
Lemma cleanup_tracked s :
  tracked s -> valid (cleanupOpenTransaction s) = true ->
  in_tx (conn (cleanupOpenTransaction s)) = true -> blamed (calls (cleanupOpenTransaction s)).
Proof.
  intros Ht. unfold cleanupOpenTransaction. destruct (txOpen s) eqn:E; cbn [negb].
  - pose proof (rollback_ok (conn s)) as Hr. destruct (db_rollback (conn s)) as [st c]. cbn in Hr.
    destruct (status_ok st); cbn; [|done]. by rewrite Hr.
  - intros _ Hi. destruct (Ht Hi) as [|?]; [congruence|done].
Qed.

(** The callback's own calls. *)
Lemma action_calls a s :
  never_stopped -> exists l, calls (do_action a s) = calls s ++ l.
Proof.
  intros H. destruct a; cbn [do_action].
  - pose proof (begin_run o s H) as Hb. destruct (db_begin o (conn s)). destruct Hb as (_ & _ & -> & _). eauto.
  - pose proof (commit_run s H) as Hb. destruct (db_commit (conn s)). destruct Hb as (_ & _ & ->). eauto.
  - pose proof (rollback_run s H) as Hb. destruct (db_rollback (conn s)). destruct Hb as (_ & _ & ->). eauto.
  - destruct (savepoint_run k name s H) as (_ & _ & ->). eauto.
  - destruct (statement_run ty sql s H) as (_ & _ & [-> | ->]); [exists []; by rewrite app_nil_r|eauto].
Qed.

Lemma actions_calls l s :
  never_stopped -> exists k, calls (foldl (fun s a => do_action a s) s l) = calls s ++ k.
Proof.
  intros H. revert s; induction l as [|a l IH]; intros s; [exists []; by rewrite app_nil_r|].
  cbn. destruct (IH (do_action a s)) as [k ->]. destruct (action_calls a s H) as [k' ->].
  exists (k' ++ k). by rewrite (assoc_L (++)).
Qed.

Lemma leave_tx_closed s : txOpen (leave_tx s) = false.
Proof. unfold leave_tx. by destruct (txOpen s) eqn:E. Qed.

Lemma commit_closed s : txOpen (commit s).2 = false.
Proof. unfold commit. destruct (observe _ s). apply leave_tx_closed. Qed.

Lemma rollback_closed s : txOpen (rollback s).2 = false.
Proof. unfold rollback. destruct (observe _ s). apply leave_tx_closed. Qed.

Lemma cleanup_closed s : txOpen s = false -> cleanupOpenTransaction s = s.
Proof. intros H. unfold cleanupOpenTransaction. by rewrite H. Qed.

(**  The thread's transaction depth is balanced: whatever a callback does,
    however its driver calls end and whenever the operation is stopped, a session
    or transaction leaves [currentTransactionDepth] as it found it and never
    leaves its own transaction marked open. *)
Theorem transaction_depth_balanced o fn wd c d n :
  depth (r_session (withSession fn c d n)) = d
  /\ depth (r_session (transactionWithHandle o fn wd c d n)) = d
  /\ txOpen (r_session (transactionWithHandle o fn wd c d n)) = false.
Proof.
  assert (H0 : depth_ok d (open_session c d n)) by (unfold depth_ok; cbn; lia).
  split.
  - unfold withSession, runGuarded. cbn. by apply cleanup_depth, actions_depth.
  - unfold transactionWithHandle. pose proof (begin_depth o d _ H0) as Hb.
    destruct (begin o (open_session c d n)) as [st s]. cbn in Hb.
    destruct (negb (status_ok st)); [by apply cleanup_depth|].
    unfold runGuarded. cbn zeta. set (s1 := foldl _ s (actions fn)).
    assert (H1 : depth_ok d s1) by (by apply actions_depth).
    set (op := match ending fn with Returned st => st | _ => _ end).
    set (p := match wd with NotExpired => (op, s1) | Expired _ _ => _ end).
    assert (Hp : depth_ok d p.2).
    { unfold p. destruct wd as [|del br]; [done|]. eapply keeps_depth; [apply invalidate_if_keeps|done]. }
    destruct p as [op' s2]. cbn in Hp. destruct (negb (status_ok op')).
    + pose proof (rollback_depth d s2 Hp) as Hr. destruct (rollback s2) as [rb s3].
      destruct Hr as [Hr _]. by apply cleanup_depth.
    + destruct (txOpen s2); [|by apply cleanup_depth].
      pose proof (commit_depth d s2 Hp) as Hr. destruct (commit s2) as [cm s3].
      destruct Hr as [Hr _]. destruct (negb (status_ok cm)); by apply cleanup_depth.
Qed.

(** C17.  A transaction is settled exactly once.  While the operation is not
    stopped: a failed [begin] makes no other call; otherwise the callback's calls
    are followed by exactly one [COMMIT] when it succeeded with its transaction
    still open, by exactly one [ROLLBACK] when it failed, threw or timed out, and
    by nothing when it settled the transaction itself; the result is OK exactly
    when the callback and the commit are. *)
Theorem transaction_settled_once o fn wd c d n :
  never_stopped ->
  let r := transactionWithHandle o fn wd c d n in
  let user := runGuarded fn (begin o (open_session c d n)).2 in
  let op := match wd with NotExpired => user.1
            | Expired delivered _ => timeout_status (tx_timeout o) delivered end in
  (status_ok (db_begin o c).1 = false -> calls (r_session r) = [CBegin false] /\ r_status r = (db_begin o c).1)
  /\ (status_ok (db_begin o c).1 = true ->
      exists l, calls user.2 = CBegin true :: l
        /\ if negb (status_ok op) then
             (exists b, calls (r_session r) = CBegin true :: l ++ [CRollback b]) /\ r_status r = op
           else if txOpen user.2 then
             exists b, calls (r_session r) = CBegin true :: l ++ [CCommit b] /\ status_ok (r_status r) = b
           else calls (r_session r) = CBegin true :: l /\ r_status r = status_OK).
Proof.
  intros H. cbn zeta. pose proof (begin_run o (open_session c d n) H) as Hb. cbn in Hb.
  unfold transactionWithHandle. destruct (begin o (open_session c d n)) as [st s]. cbn in Hb.
  destruct (db_begin o c) as [st0 c0]. destruct Hb as (-> & Hc & Hcalls & Htx). cbn [fst snd].
  split; intros Hst; rewrite Hst in *; cbn [negb].
  { split; [|done]. cbn. rewrite cleanup_closed; [done|]. by rewrite Htx. }
  unfold runGuarded. cbn zeta. set (s1 := foldl _ s (actions fn)). cbn [fst snd].
  destruct (actions_calls (actions fn) s H) as [l Hl]. fold s1 in Hl. rewrite Hcalls in Hl. cbn in Hl.
  exists l. split; [done|].
  set (op := match ending fn with Returned st => st | _ => _ end).
  set (p := match wd with NotExpired => (op, s1) | Expired _ _ => _ end).
  set (op2 := match wd with NotExpired => op | Expired _ _ => _ end).
  assert (Hp : p.1 = op2 /\ calls p.2 = calls s1 /\ txOpen p.2 = txOpen s1).
  { unfold p, op2. destruct wd as [|del br]; [done|]. cbn.
    by destruct (invalidate_if_same br s1) as (_ & -> & -> & _). }
  destruct p as [op' s2]. cbn in Hp. destruct Hp as (-> & Hc2 & Ht2).
  destruct (negb (status_ok op2)).
  - pose proof (rollback_run s2 H) as Hr. pose proof (rollback_closed s2) as Hcl.
    destruct (db_rollback (conn s2)) as [rb0 c1], (rollback s2) as [rb s3].
    destruct Hr as (_ & _ & Hcl3). cbn in *. split; [|done].
    exists (status_ok rb0). rewrite cleanup_closed by done. by rewrite Hcl3, Hc2, Hl.
  - rewrite Ht2. destruct (txOpen s1) eqn:E.
    + pose proof (commit_run s2 H) as Hr. pose proof (commit_closed s2) as Hcl.
      destruct (db_commit (conn s2)) as [cm0 c1], (commit s2) as [cm s3].
      destruct Hr as (Hcm & _ & Hcl3). cbn in *. subst cm. exists (status_ok cm0).
      destruct (status_ok cm0) eqn:Ecm; cbn; rewrite cleanup_closed by done;
        by rewrite Hcl3, Hc2, Hl.
    + cbn. rewrite cleanup_closed by congruence. by rewrite Hc2, Hl.
Qed.

(**  Pooled connections come back clean: while the operation is not stopped,
    a connection that enters a session or a transaction without an open
    transaction and is returned to the pool valid has none, unless one of its
    commits or rollbacks was reported as failed. *)
Theorem returned_connection_clean o fn wd c d n :
  never_stopped -> in_tx c = false ->
  (forall r, r = withSession fn c d n \/ r = transactionWithHandle o fn wd c d n ->
     valid (r_session r) = true -> in_tx (conn (r_session r)) = true -> blamed (calls (r_session r))).
Proof.
  intros H Hc r Hr.
  enough (exists s, tracked s /\ r_session r = cleanupOpenTransaction s) as (s & Ht & ->)
    by (by apply cleanup_tracked).
  assert (H0 : tracked (open_session c d n)) by (unfold tracked; cbn; congruence).
  destruct Hr as [-> | ->].
  { unfold withSession, runGuarded. cbn. eexists. split; [|done]. by apply actions_tracked. }
  unfold transactionWithHandle. pose proof (action_tracked (ABegin o) _ H H0) as Hb. cbn in Hb.
  destruct (begin o (open_session c d n)) as [st s]. cbn in Hb.
  destruct (negb (status_ok st)); [by exists s|].
  unfold runGuarded. cbn zeta. set (s1 := foldl _ s (actions fn)).
  assert (H1 : tracked s1) by (by apply actions_tracked).
  set (op := match ending fn with Returned st => st | _ => _ end).
  set (p := match wd with NotExpired => (op, s1) | Expired _ _ => _ end).
  assert (Hp : tracked p.2).
  { unfold p. destruct wd as [|del br]; [done|]. unfold tracked. cbn.
    by destruct (invalidate_if_same br s1) as (-> & -> & -> & _). }
  destruct p as [op' s2]. cbn in Hp. destruct (negb (status_ok op')).
  - pose proof (action_tracked ARollback s2 H Hp) as Hr. cbn in Hr.
    destruct (rollback s2) as [rb s3]. by exists s3.
  - destruct (txOpen s2); [|by exists s2].
    pose proof (action_tracked ACommit s2 H Hp) as Hr. cbn in Hr.
    destruct (commit s2) as [cm s3]. destruct (negb (status_ok cm)); by exists s3.
Qed.

(** A session that has a transaction open has one open on its connection, whatever stops
    the operation. *)
Definition open_on_conn (s : session) : Prop := txOpen s = true -> in_tx (conn s) = true.

Lemma leave_tx_open s : open_on_conn (leave_tx s).
Proof. unfold open_on_conn, leave_tx. by destruct (txOpen s) eqn:E; cbn; rewrite ?E. Qed.

Lemma action_open a s : open_on_conn s -> open_on_conn (do_action a s).
Proof.
  intros Ho. destruct a; cbn [do_action].
  - unfold begin. destruct (observe_cases (fun s => let '(st, c) := db_begin o (conn s) in (st, set_conn c (CBegin (status_ok st)) s)) s) as [[-> Hs]|[-> Hs]].
    + cbn. rewrite Hs. by destruct (connectionBroken (stop (asked s))).
    + cbn. pose proof (begin_ok o (conn s)) as H1. pose proof (begin_failed o (conn s)) as H2.
      destruct (db_begin o (conn s)) as [st c]. cbn in *. unfold open_on_conn.
      destruct (status_ok st), (connectionBroken st); cbn; try by rewrite H1. all: by rewrite H2.
  - unfold commit. destruct (observe _ s) as [st s1]. apply leave_tx_open.
  - unfold rollback. destruct (observe _ s) as [st s1]. apply leave_tx_open.
  - unfold savepoint. destruct (observe_cases (fun s => let '(st, c) := db_savepoint k name (conn s) in (st, set_conn c COther s)) s) as [[-> _]|[-> _]].
    + cbn. by destruct (connectionBroken (stop (asked s))).
    + cbn. pose proof (savepoint_tx k name (conn s)) as H1. destruct (db_savepoint k name (conn s)) as [st c]. cbn in *.
      unfold open_on_conn. destruct (connectionBroken st); cbn; by rewrite H1.
  - unfold statement. destruct (negb _); [done|]. destruct (negb _); [done|]. set (w := bool_decide _).
    pose proof (run_tx w sql (conn s)) as H1. unfold observeSql. cbn. destruct (status_ok (stop (asked s))); cbn; [|by destruct (connectionBroken _)].
    destruct (status_ok (stop (Datatypes.S (asked s)))); cbn; [|by destruct (connectionBroken _)].
    destruct (db_run w sql (conn s)) as [st c]. cbn in *. unfold open_on_conn.
    destruct (w && status_ok st), (status_ok (stop _)); cbn; try destruct (connectionBroken st); cbn; by rewrite H1.
Qed.

Lemma actions_open l s : open_on_conn s -> open_on_conn (foldl (fun s a => do_action a s) s l).
Proof. revert s; induction l as [|a l IH]; intros s Hs; [done|]. cbn. by apply IH, action_open. Qed.

(** A settlement of a stopped operation makes no call and forgets the transaction. *)
Lemma stopped_call s fn :
  status_ok (stop (asked s)) = false -> connectionBroken (stop (asked s)) = false -> txOpen s = true ->
  let '(st, s1) := observe fn s in
  let s' := leave_tx (invalidate_if (connectionBroken st) s1) in
  st = stop (asked s) /\ conn s' = conn s /\ valid s' = valid s /\ calls s' = calls s /\ txOpen s' = false.
Proof. intros H1 H2 H3. unfold observe, leave_tx. cbn. rewrite H1, H2. cbn. rewrite H3. done. Qed.

(** C39.  A stop loses a transaction: whatever calls the callback made and however it
    ended, when it has left the transaction open on a connection that is still valid and
    the operation is stopped (deadline or cancellation) when the transaction is to be
    settled, neither [COMMIT] nor [ROLLBACK] is sent, the session forgets its
    transaction, and the connection goes back to the pool valid with the transaction
    still open. *)
Theorem stopped_settlement_leaks o fn wd c d n :
  let '(bst, s0) := begin o (open_session c d n) in
  let s1 := (runGuarded fn s0).2 in
  status_ok bst = true -> txOpen s1 = true -> valid s1 = true ->
  (match wd with Expired _ broke => broke = false | NotExpired => True end) ->
  status_ok (stop (asked s1)) = false -> connectionBroken (stop (asked s1)) = false ->
  let r := transactionWithHandle o fn wd c d n in
  in_tx (conn (r_session r)) = true /\ valid (r_session r) = true /\ txOpen (r_session r) = false
  /\ calls (r_session r) = calls s1 /\ status_ok (r_status r) = false.
Proof.
  pose proof (action_open (ABegin o) (open_session c d n) ltac:(done)) as H0. cbn [do_action] in H0.
  unfold transactionWithHandle. destruct (begin o (open_session c d n)) as [bst s0]. cbn [snd] in H0. cbv zeta.
  unfold runGuarded. cbn [snd]. pose proof (actions_open (actions fn) s0 H0) as H1.
  set (s1 := foldl _ s0 (actions fn)) in *. set (op := match ending fn with Returned st => st | _ => _ end).
  intros Hb Ht Hv Hw Hs Hbr. rewrite Hb. cbn [negb]. specialize (H1 Ht).
  set (p := match wd with NotExpired => (op, s1) | Expired _ _ => _ end).
  assert (Hp : p.2 = s1) by (unfold p; destruct wd as [|del br]; [done|by rewrite Hw]).
  destruct p as [op' s2]. cbn in Hp. subst s2. unfold rollback, commit.
  destruct (status_ok op') eqn:Eop; cbn [negb]; [rewrite Ht|];
    (pose proof (stopped_call s1 (fun s => let '(st, c) := db_commit (conn s) in (st, set_conn c (CCommit (status_ok st)) s)) Hs Hbr Ht) as Hc;
     pose proof (stopped_call s1 (fun s => let '(st, c) := db_rollback (conn s) in (st, set_conn c (CRollback (status_ok st)) s)) Hs Hbr Ht) as Hr).
  - destruct (observe _ s1) as [st s3]. destruct Hc as (-> & E1 & E2 & E3 & E4). rewrite Hs. cbn [negb r_session r_status].
    rewrite cleanup_closed by done. by rewrite E1, E2, E3.
  - clear Hc. destruct (observe _ s1) as [st s3]. destruct Hr as (-> & E1 & E2 & E3 & E4). cbn [r_session r_status].
    rewrite cleanup_closed by done. by rewrite E1, E2, E3.
Qed.
End Session.

(** ** MySQL connections *)

Module MySQL.
(** [replies] are the outcomes of the next [mysql_query] calls, an error being
    what [lastError] makes of it; after them every call succeeds. *)
Record mysql := mkMySQL { open_ : bool; txOpen_ : bool; replies : list Status; sent : list str }.

Definition mysql_query (q : str) (m : mysql) : Status * mysql :=
  match replies m with
  | [] => (status_OK, mkMySQL (open_ m) (txOpen_ m) [] (sent m ++ [q]))
  | st :: l => (st, mkMySQL (open_ m) (txOpen_ m) l (sent m ++ [q]))
  end.

Definition notConnected (where_ : str) : Status :=
  status_error NotConnected ($"MySQL: not connected (" ++ where_ ++ $")").

Definition set_txOpen (b : bool) (m : mysql) : mysql := mkMySQL (open_ m) b (replies m) (sent m).

(** [begin()]. *)
Definition begin_plain (m : mysql) : Status * mysql :=
  if negb (open_ m) then (notConnected $"begin", m)
  else if txOpen_ m then
    (status_error TxError $"MySQL: a transaction is already open on this connection", m)
  else
    let '(st, m) := mysql_query $"START TRANSACTION" m in
    if status_ok st then (status_OK, set_txOpen true m) else (st, m).

Definition level (i : IsolationLevel) : option str :=
  match i with
  | IsoDefault => None
  | ReadUncommitted => Some $"READ UNCOMMITTED"
  | ReadCommitted => Some $"READ COMMITTED"
  | RepeatableRead => Some $"REPEATABLE READ"
  | Serializable => Some $"SERIALIZABLE"
  end.

(** [begin(options)]. *)
Definition mysql_begin (o : TransactionOptions) (m : mysql) : Status * mysql :=
  if negb (open_ m) then (notConnected $"begin", m)
  else if txOpen_ m then
    (status_error TxError $"MySQL: a transaction is already open on this connection", m)
  else
    let '(st, m) := match level (isolation o) with
                    | Some l => mysql_query ($"SET TRANSACTION ISOLATION LEVEL " ++ l) m
                    | None => (status_OK, m) end in
    if negb (status_ok st) then (st, m)
    else
      let '(st, m) := if tx_readOnly o then mysql_query $"SET TRANSACTION READ ONLY" m
                      else (status_OK, m) in
      if negb (status_ok st) then (st, m) else begin_plain m.

Definition mysql_commit (m : mysql) : Status * mysql :=
  if negb (open_ m) then (notConnected $"commit", m)
  else let '(st, m) := mysql_query $"COMMIT" m in
       if status_ok st then (status_OK, set_txOpen false m) else (st, m).

Definition mysql_rollback (m : mysql) : Status * mysql :=
  if negb (open_ m) then (notConnected $"rollback", m)
  else let '(st, m) := mysql_query $"ROLLBACK" m in
       if status_ok st then (status_OK, set_txOpen false m) else (st, m).

Definition validSavepointName (name : str) : bool :=
  match name with
  | [] => false
  | c :: l => (isalpha c || (c =c "_"%char)) && forallb (fun c => isalnum c || (c =c "_"%char)) l
  end.

Definition savepoint_sql (k : savepoint_op) (name : str) : str :=
  match k with
  | SpCreate => $"SAVEPOINT " ++ name
  | SpRelease => $"RELEASE SAVEPOINT " ++ name
  | SpRollback => $"ROLLBACK TO SAVEPOINT " ++ name
  end.

(** [savepoint], [releaseSavepoint] and [rollbackToSavepoint]. *)
Definition mysql_savepoint (k : savepoint_op) (name : str) (m : mysql) : Status * mysql :=
  if negb (txOpen_ m) || negb (validSavepointName name) then
    (status_error TxError $"MySQL: invalid savepoint or no active transaction", m)
  else mysql_query (savepoint_sql k name) m.

(** A statement outside the transaction commands. *)
Definition run_statement (write : bool) (q : str) (m : mysql) : Status * mysql :=
  if negb (open_ m) then (notConnected (if write then $"execute" else $"query"), m)
  else mysql_query q m.

Lemma mysql_query_tx q m : txOpen_ (mysql_query q m).2 = txOpen_ m.
Proof. unfold mysql_query. by destruct (replies m). Qed.

Lemma begin_plain_tx m :
  txOpen_ (begin_plain m).2 = (status_ok (begin_plain m).1 || txOpen_ m).
Proof.
  unfold begin_plain. destruct (negb (open_ m)); [done|]. destruct (txOpen_ m) eqn:E; [done|].
  pose proof (mysql_query_tx $"START TRANSACTION" m) as Hq.
  destruct (mysql_query _ m) as [st m1]. cbn in Hq. destruct (status_ok st) eqn:Es; cbn; [done|].
  by rewrite Es, Hq, E.
Qed.

Lemma begin_tx o m : txOpen_ (mysql_begin o m).2 = (status_ok (mysql_begin o m).1 || txOpen_ m).
Proof.
  unfold mysql_begin. destruct (negb (open_ m)); [done|]. destruct (txOpen_ m) eqn:E; [done|].
  set (p := match level (isolation o) with Some l => _ | None => _ end).
  assert (Hp : txOpen_ p.2 = false)
    by (unfold p; destruct (level (isolation o)); [by rewrite mysql_query_tx|done]).
  destruct p as [st m1]. cbn in Hp. destruct (status_ok st) eqn:Es; cbn [negb]; [|cbn; by rewrite Es].
  set (p := if tx_readOnly o then _ else _).
  assert (Hp2 : txOpen_ p.2 = false)
    by (unfold p; destruct (tx_readOnly o); [by rewrite mysql_query_tx|done]).
  destruct p as [st2 m2]. cbn in Hp2. destruct (status_ok st2) eqn:Es2; cbn [negb]; [|cbn; by rewrite Es2].
  rewrite begin_plain_tx. by rewrite Hp2.
Qed.

(** The MySQL driver keeps the promises a session relies on. *)
#[global, refine] Instance mysql_connection : DbConnection mysql := {|
  db_begin := mysql_begin; db_commit := mysql_commit; db_rollback := mysql_rollback;
  db_savepoint := mysql_savepoint; db_run := run_statement; in_tx := txOpen_
|}.
Proof.
  - intros o s H. rewrite begin_tx. by rewrite H.
  - intros o s H. rewrite begin_tx. by rewrite H.
  - intros s. unfold mysql_commit. destruct (negb (open_ s)); [done|].
    destruct (mysql_query _ s) as [st m1]. destruct (status_ok st) eqn:E; cbn; [done|]. by rewrite E.
  - intros s. unfold mysql_rollback. destruct (negb (open_ s)); [done|].
    destruct (mysql_query _ s) as [st m1]. destruct (status_ok st) eqn:E; cbn; [done|]. by rewrite E.
  - intros k n s. unfold mysql_savepoint. destruct (_ || _); [done|]. apply mysql_query_tx.
  - intros w q s. unfold run_statement. destruct (negb (open_ s)); [done|]. apply mysql_query_tx.
Defined.
End MySQL.

(** ** Witnesses *)

Definition running (n : nat) : Status := status_OK.
Definition stops_at (k n : nat) : Status :=
  if k <=? n then status_error QueryTimeout $"operation deadline exceeded" else status_OK.
Definition allow (q : str) (ty : OperationType) : Status := status_OK.
Definition no_hooks (q : str) : Status := status_OK.
Definition tx : TransactionOptions := mkTx Serializable false 0.
Definition fresh_mysql : MySQL.mysql := MySQL.mkMySQL true false [] [].
Definition insert_fn (e : fn_end) : SessionFn := mkFn [AStatement OExecute $"INSERT"] e.

Lemma transaction_settled_once_witness :
  let r := transactionWithHandle running allow no_hooks tx (insert_fn ThrewOther) NotExpired fresh_mysql 0 0 in
  MySQL.sent (conn (r_session r))
  = [$"SET TRANSACTION ISOLATION LEVEL SERIALIZABLE"; $"START TRANSACTION"; $"INSERT"; $"ROLLBACK"]
  /\ exists b, calls (r_session r) = [CBegin true; COther; CRollback b].
Proof.
  cbv zeta. split; [by vm_compute|].
  assert (H : never_stopped running) by done.
  destruct (transaction_settled_once running allow no_hooks tx (insert_fn ThrewOther) NotExpired
    fresh_mysql 0 0 H) as [_ H2].
  destruct (H2 ltac:(by vm_compute)) as (l & Hl & Hc). vm_compute in Hl. injection Hl as <-.
  destruct Hc as [[b Hb] _]. exists b. exact Hb.
Defined.

Lemma returned_connection_clean_witness :
  let r := withSession running allow no_hooks (mkFn [ABegin tx] (Returned status_OK)) fresh_mysql 0 0 in
  calls (r_session r) = [CBegin true; CRollback true]
  /\ (valid (r_session r) = true -> in_tx (conn (r_session r)) = true -> blamed (calls (r_session r))).
Proof.
  cbv zeta. split; [by vm_compute|].
  apply (returned_connection_clean running allow no_hooks tx (mkFn [ABegin tx] (Returned status_OK))
    NotExpired fresh_mysql 0 0); [done|done|by left].
Defined.

Lemma stopped_settlement_leaks_witness :
  let r := transactionWithHandle (stops_at 4) allow no_hooks tx (insert_fn (Returned status_OK)) NotExpired fresh_mysql 0 0 in
  MySQL.txOpen_ (conn (r_session r)) = true /\ valid (r_session r) = true /\ calls (r_session r) = [CBegin true; COther]
  /\ (MySQL.mysql_begin tx (conn (r_session r))).1
     = status_error TxError $"MySQL: a transaction is already open on this connection".
Proof.
  pose proof (stopped_settlement_leaks (stops_at 4) allow no_hooks tx (insert_fn (Returned status_OK)) NotExpired fresh_mysql 0 0) as H.
  cbv zeta in *.
  destruct (begin (stops_at 4) tx (open_session fresh_mysql 0 0)) as [bst s0] eqn:E. vm_compute in E. injection E as <- <-.
  destruct H as (H1 & H2 & _ & H3 & _); [by vm_compute..|].
  split; [exact H1|]. split; [exact H2|]. split; [rewrite H3; by vm_compute|by vm_compute].
Defined.
End Session.
