(* ===== verification/Cursor.v ===== *)
(** * Cursors

    src/core/database_manager.cpp ([openCursor], [openCursorUngated],
    [cursorBudgetAcquire], [~Cursor]) and the [Cursor] class of
    include/sqlconduit/core/database_manager.h: configuration checks, the budget
    of open cursors, the opening loop under the circuit breaker, and a cursor's
    life until its connection and its place in the budget are given back. *)

From S2P Require Import Prelude Types Context Resilience.

Module Cursor.

(** ** The budget of open cursors *)

Record CursorConfig := mkCursorConfig {
  enabled : bool; default_batch_size : Z; max_open_cursors : Z; allow_scrollable : bool }.

(** [CursorBudget]: the limit and the number of open cursors. *)
Record budget := mkBudget { limit : Z; open : Z }.

(** [applyCursorConfig]: enabled, batch size, scrollable and the new limit. *)
Record settings := mkSettings { s_enabled : bool; s_batch : Z; s_scrollable : bool; s_budget : budget }.
Definition applyCursorConfig (cfg : CursorConfig) (b : budget) : settings :=
  mkSettings (enabled cfg) (if Z.ltb 0 (default_batch_size cfg) then default_batch_size cfg else 256)
    (allow_scrollable cfg) (mkBudget (max_open_cursors cfg) (open b)).

(** [cursorBudgetAcquire]: admitted, with a lease when the budget is limited. *)
Definition cursorBudgetAcquire (b : budget) : bool * bool * budget :=
  if Z.leb (limit b) 0 then (true, false, b)
  else if Z.ltb (open b) (limit b) then (true, true, mkBudget (limit b) (open b + 1))
  else (false, false, b).

(** The deleter of a lease. *)
Definition release (b : budget) : budget := mkBudget (limit b) (open b - 1).

(** Threads acquiring and releasing, in any order; [LDrop i] drops the [i]-th
    lease still held.  The state has the number of leases held. *)
Inductive budget_step := LAcquire | LDrop.
Definition bstep (l : budget_step) (st : budget * nat) : option (budget * nat) :=
  match l with
  | LAcquire => let '(_, lease, b) := cursorBudgetAcquire st.1 in
                Some (b, if lease then S st.2 else st.2)
  | LDrop => match st.2 with O => None | S n => Some (release st.1, n) end
  end.
Fixpoint brun (ls : list budget_step) (st : budget * nat) : option (budget * nat) :=
  match ls with [] => Some st | l :: ls' => bstep l st ≫= brun ls' end.

(** ** Opening a cursor on a leaf *)

(** What one attempt sees; the driver's cursor is [None] when it opened none. *)
Record open_env := mkOpenEnv {
  oe_stop : Status; oe_now : Z; oe_borrow : Status; oe_open : Status; oe_impl : option nat;
  oe_stop_after : Status; oe_now_after : Z; oe_jitter : Z -> Z }.

(** Status, cursor, breaker and the delays waited between attempts. *)
Record open_result := mkOpen {
  or_status : Status; or_cursor : option nat; or_breaker : Breaker; or_waits : list Z }.

Section OpenLoop.
Context (bc : CircuitBreakerConfig) (rc : RetryConfig) (name : str) (env : nat -> open_env).

(** The loop of [openCursorUngated]: a cursor that opened is returned at once,
    without [afterAttempt]. *)
Fixpoint open_loop (left k : nat) (status : Status) (b : Breaker) (waits : list Z) : open_result :=
  match left with
  | O => mkOpen status None b waits
  | S left' =>
      let a := env k in
      let '(gate, b) := beforeAttempt bc name (oe_stop a) (oe_now a) b in
      if negb (status_ok gate) then mkOpen gate None b waits
      else
        let status := if status_ok (oe_borrow a) then oe_open a else oe_borrow a in
        match (if status_ok (oe_borrow a) && status_ok (oe_open a) then oe_impl a else None) with
        | Some c => mkOpen status (Some c) b waits
        | None =>
            let b := afterAttempt bc status (oe_stop_after a) (oe_now_after a) b in
            if status_ok status then mkOpen status None b waits
            else if negb (retryable status) || (left' =? 0) then mkOpen status None b waits
            else open_loop left' (S k) status b
                   (waits ++ [retryDelay rc (Z.of_nat (S k)) (oe_jitter a)])
        end
  end.

(** [openCursorUngated] of a leaf: the budget first; a lease is kept only by a
    cursor that opened. *)
Definition openCursor_leaf (b : Breaker) (bu : budget) : open_result * budget :=
  let '(admitted, lease, bu') := cursorBudgetAcquire bu in
  if negb admitted then
    (mkOpen (status_error CursorLimit ($"datasource '" ++ name ++ $"': cursor limit reached")) None b [], bu)
  else
    let r := open_loop (read_attempts rc) 0 status_OK b [] in
    (r, match or_cursor r with Some _ => bu' | None => if lease then release bu' else bu' end).
End OpenLoop.

(** [openCursor]'s checks before the gate, and the batch size it opens with. *)
Record CursorOptions := mkCursorOptions { batch_size : Z; scrollable : bool }.
Definition openCursor_checks (s : settings) (o : CursorOptions) : Status * Z :=
  if negb (s_enabled s) then
    (status_error NotSupported $"cursors are disabled for this datasource", batch_size o)
  else if scrollable o && negb (s_scrollable s) then
    (status_error NotSupported $"scrollable cursors are disabled for this datasource", batch_size o)
  else (status_OK, if Z.eqb (batch_size o) 256 && negb (Z.eqb (s_batch s) 256)
                   then s_batch s else batch_size o).

(** ** A cursor's life *)

Inductive Binding := OwnsHandle | BorrowedInSession.
(** [impl] is the driver's cursor; [handle] and [lease] what the cursor holds. *)
Record cursor := mkCursor { impl : bool; handle : bool; lease : bool; binding : Binding }.

Definition owns (c : cursor) : bool := match binding c with OwnsHandle => true | _ => false end.

(** [close]; the status of the driver's [close] is an argument. *)
Definition close (st : Status) (c : cursor) : Status * cursor :=
  let h := if owns c then false else handle c in
  if negb (impl c) then (status_OK, mkCursor false h (lease c) (binding c))
  else (st, mkCursor false h false (binding c)).

(** [fetch] on the driver's rows: the transform runs on the rows added. *)
Definition fetch {R} (c : cursor) (driver : list R -> Status * list R) (tr : option (R -> R))
    (out : list R) : Status * list R :=
  if negb (impl c) then (status_error CursorClosed $"cursor already closed or moved-from", out)
  else
    let '(st, out') := driver out in
    (st, match tr with
         | Some f => if status_ok st then take (length out) out' ++ map f (drop (length out) out') else out'
         | None => out'
         end).

(** [~Cursor], then the members' destructors: nothing is held afterwards. *)
Definition destroy (c : cursor) : cursor := mkCursor false false false (binding c).

(** ** Theorems *)

Lemma bstep_inv l st st' :
  open st.1 = Z.of_nat st.2 -> bstep l st = Some st' ->
  limit st'.1 = limit st.1 /\ open st'.1 = Z.of_nat st'.2.
Proof.
  destruct st as [b n]. cbn. intros Ho. destruct l; cbn.
  - unfold cursorBudgetAcquire. repeat case_match; intros; simplify_eq; cbn; split; lia || done.
  - destruct n; [done|]. intros [= <-]. cbn. split; [done|lia].
Qed.

Lemma brun_inv ls st st' :
  open st.1 = Z.of_nat st.2 -> brun ls st = Some st' ->
  limit st'.1 = limit st.1 /\ open st'.1 = Z.of_nat st'.2.
Proof.
  revert st; induction ls as [|l ls IH]; intros st Ho; cbn; [by intros [= <-]|].
  intros (st1 & H1 & H2)%bind_Some. destruct (bstep_inv l st st1 Ho H1) as [E1 E2].
  destruct (IH st1 E2 H2) as [E3 E4]. split; [congruence|done].
Qed.

Lemma bstep_bound l st st' :
  (0 < limit st.1)%Z -> (open st.1 <= limit st.1)%Z -> bstep l st = Some st' ->
  (open st'.1 <= limit st'.1)%Z.
Proof.
  destruct st as [b n]. cbn. intros Hl Ho. destruct l; cbn.
  - unfold cursorBudgetAcquire. destruct (Z.leb_spec (limit b) 0); [lia|].
    destruct (Z.ltb_spec (open b) (limit b)); intros [= <-]; cbn; lia.
  - destruct n; [done|]. intros [= <-]. cbn. lia.
Qed.

Lemma brun_bound ls st st' :
  (0 < limit st.1)%Z -> (open st.1 <= limit st.1)%Z -> open st.1 = Z.of_nat st.2 ->
  brun ls st = Some st' -> (open st'.1 <= limit st'.1)%Z.
Proof.
  revert st; induction ls as [|l ls IH]; intros st Hl Ho Hc; cbn; [by intros [= <-]|].
  intros (st1 & H1 & H2)%bind_Some. destruct (bstep_inv l st st1 Hc H1) as [E1 E2].
  eapply IH; [| | |exact H2]; [lia|by eapply bstep_bound|done].
Qed.

(**  The budget of open cursors is exact: whatever threads acquire and
    release it in whatever order, the count is the number of leases held and
    stays within the limit; a cursor is refused exactly when the limit is set and
    reached. *)
Theorem cursor_budget_exact (lim : Z) (ls : list budget_step) b n :
  brun ls (mkBudget lim 0, 0) = Some (b, n) ->
  open b = Z.of_nat n /\ limit b = lim /\ ((0 < lim)%Z -> (Z.of_nat n <= lim)%Z)
  /\ ((cursorBudgetAcquire b).1.1 = false <-> (0 < lim)%Z /\ Z.of_nat n = lim).
Proof.
  intros H. destruct (brun_inv ls (mkBudget lim 0, 0) (b, n) eq_refl H) as [E1 E2]. cbn in *.
  assert (Hb : (0 < lim)%Z -> (open b <= lim)%Z).
  { intros Hl. rewrite <- E1. apply (brun_bound ls (mkBudget lim 0, 0) (b, n)); cbn; try done; lia. }
  split_and!; [done|done|lia|].
  unfold cursorBudgetAcquire. rewrite E1. destruct (Z.leb_spec lim 0); cbn; [split; [done|lia]|].
  destruct (Z.ltb_spec (open b) lim); cbn; split; intros; try done; lia.
Qed.

Lemma cursor_budget_exact_witness :
  exists b, brun [LAcquire; LAcquire; LDrop; LAcquire] (mkBudget 2 0, 0) = Some (b, 2)
    /\ ((cursorBudgetAcquire b).1.1 = false <-> (0 < 2)%Z /\ Z.of_nat 2 = 2%Z).
Proof.
  eexists. assert (H : brun [LAcquire; LAcquire; LDrop; LAcquire] (mkBudget 2 0, 0) = Some (_, 2))
    by (by vm_compute).
  split; [exact H|]. apply (cursor_budget_exact 2 [LAcquire; LAcquire; LDrop; LAcquire] _ 2 H).
Defined.

(**  A cursor wedges the breaker: when the probe a tripped circuit lets
    through after its interval is a cursor that opens, nothing records the
    probe's success; from then on every attempt is refused, at any later time, so
    the data source never recovers. *)
Theorem cursor_probe_wedges_breaker bc rc name env b c :
  (0 < failure_threshold bc)%Z -> (0 < circuitOpenUntil_ b)%Z -> halfOpenInFlight_ b = false ->
  status_ok (oe_stop (env 0)) = true -> (circuitOpenUntil_ b <= oe_now (env 0%nat))%Z ->
  status_ok (oe_borrow (env 0)) = true -> status_ok (oe_open (env 0)) = true ->
  oe_impl (env 0) = Some c ->
  let r := open_loop bc rc name env (read_attempts rc) 0 status_OK b [] in
  or_cursor r = Some c /\ status_ok (or_status r) = true
  /\ forall gates : list (Status * Z),
       foldl (fun (acc : list bool * Breaker) g =>
         let '(st, b) := beforeAttempt bc name g.1 g.2 acc.2 in (acc.1 ++ [status_ok st], b))
         ([], or_breaker r) gates
       = (replicate (length gates) false, or_breaker r).
Proof.
  intros Ht Hu Hh Hs Hn Hbo Hop Hi. cbn zeta.
  destruct (read_attempts rc) as [|left] eqn:Hra; [pose proof (read_attempts_pos rc); lia|].
  set (b' := mkBreaker (circuitOpenUntil_ b) (consecutiveFailures_ b) true (lastError_ b)).
  assert (Hgate : beforeAttempt bc name (oe_stop (env 0)) (oe_now (env 0)) b = (status_OK, b')).
  { unfold beforeAttempt. rewrite Hs. cbn [negb].
    destruct (Z.leb_spec (failure_threshold bc) 0); [lia|].
    destruct (Z.ltb_spec (oe_now (env 0)) (circuitOpenUntil_ b)); [lia|].
    destruct (Z.eqb_spec (circuitOpenUntil_ b) 0); [lia|]. cbn [negb]. by rewrite Hh. }
  cbn [open_loop]. rewrite Hgate. cbn [negb]. change (status_ok status_OK) with true. cbn [negb].
  rewrite Hbo, Hop, Hi. cbn [andb or_cursor or_status or_breaker]. split_and!; [done|exact Hop|].
  intros gates. by apply wedged_forever.
Qed.

Definition probe_env (k : nat) : open_env :=
  mkOpenEnv status_OK 100 status_OK status_OK (Some 3) status_OK 100 (fun _ => 0%Z).

Lemma cursor_probe_wedges_breaker_witness :
  let b := mkBreaker 50 2 false ConnectionFailed in
  let r := open_loop (mkBreakerConfig 2 5) (mkRetryConfig 1 0 0 false) $"main" probe_env
             (read_attempts (mkRetryConfig 1 0 0 false)) 0 status_OK b [] in
  or_cursor r = Some 3
  /\ status_ok (beforeAttempt (mkBreakerConfig 2 5) $"main" status_OK 1000000000 (or_breaker r)).1 = false.
Proof.
  cbv zeta. destruct (cursor_probe_wedges_breaker (mkBreakerConfig 2 5) (mkRetryConfig 1 0 0 false) $"main"
    probe_env (mkBreaker 50 2 false ConnectionFailed) 3) as (H1 & _ & H3); [by vm_compute..|].
  split; [exact H1|]. specialize (H3 [(status_OK, 1000000000%Z)]). by vm_compute.
Defined.

(** A cursor gives back what it holds: however it is closed, fetched from and
    destroyed, the end leaves neither connection nor budget held, and closing
    twice is harmless. *)
Lemma close_idempotent st st' c :
  close st' (close st c).2 = (status_OK, (close st c).2)
  /\ lease (close st (mkCursor true (handle c) (lease c) (binding c))).2 = false
  /\ (owns c = true -> handle (close st c).2 = false).
Proof.
  unfold close, owns. destruct c as [[] h l []]; by split_and!.
Qed.

Lemma openCursor_leaf_budget bc rc name env b bu :
  let '(r, bu') := openCursor_leaf bc rc name env b bu in
  open bu' = (open bu + (if Z.leb (limit bu) 0 then 0 else match or_cursor r with Some _ => 1 | None => 0 end))%Z.
Proof.
  unfold openCursor_leaf, cursorBudgetAcquire. destruct (Z.leb (limit bu) 0); cbn.
  - destruct (or_cursor _); lia.
  - destruct (Z.ltb (open bu) (limit bu)); cbn; [|lia]. destruct (or_cursor _); cbn; lia.
Qed.
End Cursor.
