(* ===== verification/Manager.v ===== *)
(** * The data-source registry

    src/core/database_manager.cpp: [DatabaseManager::init], [addDataSource],
    [removeDataSource], [addGroup], [removeGroup], [resolveShadows], look-ups and
    [shutdown].  Data sources are shared objects: they live in a heap and the
    registry and the groups refer to them by index, so a group keeps the objects
    it was built with.  Connection pools and write buffers are indices too.  A
    look-up in the driver registry is a parameter.

    The iteration order of the source's hash maps is that of the finite maps
    used here; it decides which of several errors is reported. *)

From S2P Require Import Prelude Types.

Module Manager.

(** ** Configuration *)

Record DataSourceConfig := mkDs { c_name : str; c_type : str }.
Record GroupConfig := mkGroup {
  g_name : str;
  g_primary : str;
  g_replicas : list (str * Z);
  g_failover : list str;
  g_ackFencing : bool;
  g_buffer : bool;
  g_ackLoss : bool;
  g_readOnly : bool;
  g_shadow : str
}.
Record GlobalConfig := mkGlobal {
  datasources : list DataSourceConfig;
  groups : list GroupConfig;
  default_datasource : str;
  cursor_enabled : bool
}.

(** ** Objects and state *)

(** A [DataSource]: a leaf has a pool, a group a primary. *)
Record source := mkSource {
  s_name : str;
  s_pool : option nat;
  s_primary : option nat;
  s_replicas : list nat;
  s_failover : list nat;
  s_buffer : option nat;
  s_shadowName : str;
  s_shadow : option nat;
  s_readOnly : bool;
  s_readReplica : bool;
  s_driver : str;
  s_cursors : bool
}.

(** [settings] is the configuration last given to the auditor, the caches and
    the interceptors; [closed] the pools that have been shut down. *)
Record manager := mkManager {
  heap : list source;
  pools : gmap str nat;
  sources : gmap str nat;
  buffers : list nat;
  defaultName : str;
  npools : nat;
  nbuffers : nat;
  settings : option GlobalConfig;
  closed : list nat
}.

Definition fresh : manager := mkManager [] ∅ ∅ [] [] 0 0 None [].

Definition set_heap (h : list source) (m : manager) : manager :=
  mkManager h (pools m) (sources m) (buffers m) (defaultName m) (npools m) (nbuffers m)
    (settings m) (closed m).

Definition err {A} (msg : str) : Status + A := inl (status_error ConfigError msg).

Section Manager.
(** [known t]: some registered driver serves type [t]. *)
Variable known : str -> bool.

(** ** Building data sources *)

(** [buildSingleDataSource], then the registration of the result. *)
Definition build_leaf (c : DataSourceConfig) (replica readOnly cursors : bool) (m : manager)
    : Status + manager :=
  match c_name c with
  | [] => err $"datasource name must not be empty"
  | _ =>
      if negb (known (c_type c)) then
        inl (status_error UnknownDriver ($"unknown datasource type: '" ++ c_type c ++ $"' (name=" ++ c_name c
          ++ $"). Register it on this Client and link the matching sqlconduit driver component"))
      else
        let o := mkSource (c_name c) (Some (npools m)) None [] [] None [] None readOnly replica
                   (c_type c) cursors in
        inr (mkManager (heap m ++ [o]) (<[c_name c := npools m]> (pools m))
               (<[c_name c := length (heap m)]> (sources m)) (buffers m) (defaultName m)
               (S (npools m)) (nbuffers m) (settings m) (closed m))
  end.

Definition unknown_replica (g n : str) : str :=
  $"group '" ++ g ++ $"' references unknown replica '" ++ n ++ $"'".
Definition unknown_primary (g n more : str) : str :=
  $"group '" ++ g ++ $"' references unknown primary '" ++ n ++ $"'" ++ more.
Definition unknown_candidate (g n : str) : str :=
  $"group '" ++ g ++ $"' failover.primaries references unknown datasource '" ++ n
  ++ $"' (must be a plain datasource, not a group)".

(** [validateGroupRefs]. *)
Definition validateGroupRefs (g : GroupConfig) (ps : gmap str nat) : Status + unit :=
  let missing n := bool_decide (ps !! n = None) in
  if missing (g_primary g) then
    err (unknown_primary (g_name g) (g_primary g) $" (must be a plain datasource, not a group)")
  else
    match List.find (fun r => missing r.1) (g_replicas g) with
    | Some r => err (unknown_replica (g_name g) r.1)
    | None => match List.find missing (g_failover g) with
              | Some f => err (unknown_candidate (g_name g) f)
              | None => inr tt
              end
    end.

(** Every replica as often as its weight. *)
Fixpoint weighted (g : str) (ss : gmap str nat) (rs : list (str * Z)) : Status + list nat :=
  match rs with
  | [] => inr []
  | (n, w) :: rs' =>
      match ss !! n with
      | None => err (unknown_replica g n)
      | Some i => match weighted g ss rs' with
                  | inl e => inl e
                  | inr l => inr (replicate (Z.to_nat w) i ++ l)
                  end
      end
  end.

(** The failover candidates, each once. *)
Fixpoint candidates (g : str) (ss : gmap str nat) (seen fs : list str) : Status + list nat :=
  match fs with
  | [] => inr []
  | f :: fs' =>
      if bool_decide (f ∈ seen) then candidates g ss seen fs'
      else match ss !! f with
           | None => err (unknown_candidate g f)
           | Some i => match candidates g ss (f :: seen) fs' with
                       | inl e => inl e
                       | inr l => inr (i :: l)
                       end
           end
  end.

(** [buildSingleDataSourceGroup], then the registration. *)
Definition build_group (g : GroupConfig) (cursors : bool) (m : manager) : Status + manager :=
  match g_name g with
  | [] => err $"group name must not be empty"
  | _ =>
      if g_readOnly g && g_buffer g then
        err ($"group '" ++ g_name g ++ $"' is read_only but enables failover.write_buffer; a read-only group never writes")
      else
        match sources m !! g_primary g with
        | None => err (unknown_primary (g_name g) (g_primary g) [])
        | Some p =>
            match weighted (g_name g) (sources m) (g_replicas g) with
            | inl e => inl e
            | inr rs =>
                match (match g_failover g with
                       | [] => inr []
                       | fs => match candidates (g_name g) (sources m) [g_primary g] fs with
                               | inl e => inl e
                               | inr l => inr (p :: l) end
                       end) with
                | inl e => inl e
                | inr fs =>
                    let buf := if g_buffer g then Some (nbuffers m) else None in
                    let driver := match heap m !! p with Some o => s_driver o | None => [] end in
                    let o := mkSource (g_name g) None (Some p) rs fs buf (g_shadow g) None
                               (g_readOnly g) false driver cursors in
                    inr (mkManager (heap m ++ [o]) (pools m)
                           (<[g_name g := length (heap m)]> (sources m))
                           (if g_buffer g then buffers m ++ [nbuffers m] else buffers m)
                           (defaultName m) (npools m) (if g_buffer g then S (nbuffers m) else nbuffers m)
                           (settings m) (closed m))
                end
            end
        end
  end.

(** The acknowledgements a group needs. *)
Definition acknowledged (g : GroupConfig) : Status + unit :=
  if negb (bool_decide (g_failover g = [])) && negb (g_ackFencing g) then
    err ($"group '" ++ g_name g ++ $"' configures automatic write failover without acknowledging external fencing")
  else if g_buffer g && negb (g_ackLoss g) then
    err ($"group '" ++ g_name g ++ $"' enables volatile write buffering without acknowledging data-loss and duplicate-replay risk")
  else inr tt.

(** ** [resolveShadows] *)

Definition is_group (m : manager) (i : nat) : bool :=
  match heap m !! i with Some o => bool_decide (is_Some (s_primary o)) | None => false end.

Definition set_shadow (t : nat) (o : source) : source :=
  mkSource (s_name o) (s_pool o) (s_primary o) (s_replicas o) (s_failover o) (s_buffer o)
    (s_shadowName o) (Some t) (s_readOnly o) (s_readReplica o) (s_driver o) (s_cursors o).

(** One data source of the loop. *)
Definition resolve_one (i : nat) (m : manager) : Status + manager :=
  match heap m !! i with
  | None => inr m
  | Some o =>
      match s_shadowName o with
      | [] => inr m
      | name =>
          match sources m !! name with
          | None => err ($"group '" ++ s_name o ++ $"' references unknown shadow '" ++ name ++ $"'")
          | Some t =>
              if is_group m t then
                err ($"group '" ++ s_name o ++ $"' shadow '" ++ name ++ $"' is a group; shadow target must be a plain datasource")
              else if bool_decide (s_primary o = Some t) then
                err ($"group '" ++ s_name o ++ $"' shadow '" ++ name ++ $"' is the group's primary; self-shadowing is rejected")
              else if bool_decide (t ∈ s_replicas o) then
                err ($"group '" ++ s_name o ++ $"' shadow '" ++ name ++ $"' is a replica of the group; self-shadowing is rejected")
              else inr (set_heap (alter (set_shadow t) i (heap m)) m)
          end
      end
  end.

(** The loop stops at the first error; the targets set before it stay. *)
Fixpoint resolve_all (ids : list nat) (m : manager) : Status * manager :=
  match ids with
  | [] => (status_OK, m)
  | i :: ids' => match resolve_one i m with
                | inl e => (e, m)
                | inr m' => resolve_all ids' m'
                end
  end.

Definition resolveShadows (m : manager) : Status * manager :=
  resolve_all (map snd (map_to_list (sources m))) m.

(** ** [init] *)

Definition replica_names (gs : list GroupConfig) : list str := gs ≫= fun g => map fst (g_replicas g).

Fixpoint init_leaves (cs : list DataSourceConfig) (rn : list str) (cursors : bool) (m : manager)
    : Status + manager :=
  match cs with
  | [] => inr m
  | c :: cs' =>
      match pools m !! c_name c with
      | Some _ => err ($"duplicate datasource name: " ++ c_name c)
      | None => match build_leaf c (bool_decide (c_name c ∈ rn)) false cursors m with
                | inl e => inl e
                | inr m' => init_leaves cs' rn cursors m'
                end
      end
  end.

(** Groups get the default cursor settings, not the configured ones. *)
Fixpoint init_groups (gs : list GroupConfig) (m : manager) : Status + manager :=
  match gs with
  | [] => inr m
  | g :: gs' =>
      match sources m !! g_name g with
      | Some _ => err ($"duplicate datasource/group name: " ++ g_name g)
      | None =>
          match acknowledged g with
          | inl e => inl e
          | inr _ => match validateGroupRefs g (pools m) with
                     | inl e => inl e
                     | inr _ => match build_group g true m with
                                | inl e => inl e
                                | inr m' => init_groups gs' m'
                                end
                     end
          end
      end
  end.

(** The registry under construction: fresh maps, the objects of [m] stay. *)
Definition staged (m : manager) : manager :=
  mkManager (heap m) ∅ ∅ [] (defaultName m) (npools m) (nbuffers m) (settings m) (closed m).

Definition pool_ids (ps : gmap str nat) : list nat := map snd (map_to_list ps).

Definition init (cfg : GlobalConfig) (m : manager) : Status * manager :=
  match datasources cfg with
  | [] => (status_error ConfigError $"no datasource configured", m)
  | cs =>
      match init_leaves cs (replica_names (groups cfg)) (cursor_enabled cfg) (staged m) with
      | inl e => (e, m)
      | inr m1 =>
          match init_groups (groups cfg) m1 with
          | inl e => (e, m)
          | inr m2 =>
              match sources m2 !! default_datasource cfg with
              | None => (status_error ConfigError
                  ($"default_datasource '" ++ default_datasource cfg
                   ++ $"' is not defined in datasources[] or groups[]"), m)
              | Some _ =>
                  let m3 := mkManager (heap m2) (pools m2) (sources m2) (buffers m2)
                              (default_datasource cfg) (npools m2) (nbuffers m2) (Some cfg) (closed m) in
                  let '(st, m4) := resolveShadows m3 in
                  if status_ok st then
                    (status_OK, mkManager (heap m4) (pools m4) (sources m4) (buffers m4)
                       (defaultName m4) (npools m4) (nbuffers m4) (settings m4)
                       (closed m4 ++ pool_ids (pools m)))
                  else
                    (** pools, data sources and buffers are put back; the default
                        name and the settings are not. *)
                    (st, mkManager (heap m4) (pools m) (sources m) (buffers m)
                       (defaultName m4) (npools m4) (nbuffers m4) (settings m4) (closed m4))
              end
          end
      end
  end.

(** ** Changes at run time *)

Definition addDataSource (c : DataSourceConfig) (readOnly cursors : bool) (m : manager) : Status * manager :=
  match c_name c with
  | [] => (status_error ConfigError $"datasource name must not be empty", m)
  | _ =>
      if bool_decide (is_Some (pools m !! c_name c)) || bool_decide (is_Some (sources m !! c_name c)) then
        (status_error ConfigError ($"datasource name already exists: " ++ c_name c), m)
      else match build_leaf c false readOnly cursors m with
           | inl e => (e, m)
           | inr m' => (status_OK, m')
           end
  end.

Definition named (m : manager) (name : str) (i : nat) : bool :=
  match heap m !! i with Some o => s_name o =s name | None => false end.

(** How group [o] refers to the data source named [name]. *)
Definition role (m : manager) (name : str) (o : source) : option str :=
  if existsb (named m name) (option_list (s_primary o)) then Some $"' as primary"
  else if existsb (named m name) (s_replicas o) then Some $"' as replica"
  else if existsb (named m name) (s_failover o) then Some $"' as failover candidate"
  else if existsb (named m name) (option_list (s_shadow o)) then Some $"' as shadow"
  else None.

(** The loop over the registry: the first group that refers to [name]. *)
Fixpoint referenced (m : manager) (name : str) (ids : list nat) : option str :=
  match ids with
  | [] => None
  | i :: ids' =>
      match heap m !! i with
      | Some o =>
          if (s_name o =s name) || bool_decide (s_primary o = None) then referenced m name ids'
          else match role m name o with
               | Some r => Some ($"datasource '" ++ name ++ $"' is still referenced by group '"
                                 ++ s_name o ++ r ++ $" (remove the group first)")
               | None => referenced m name ids'
               end
      | None => referenced m name ids'
      end
  end.

Definition removeDataSource (name : str) (m : manager) : Status * manager :=
  match pools m !! name with
  | None => (status_error ConfigError ($"datasource not found: " ++ name), m)
  | Some p =>
      if name =s defaultName m then
        (status_error ConfigError ($"datasource '" ++ name ++ $"' is the current default and cannot be removed"), m)
      else
        match referenced m name (map snd (map_to_list (sources m))) with
        | Some msg => (status_error ConfigError msg, m)
        | None =>
            (status_OK, mkManager (heap m) (delete name (pools m)) (delete name (sources m)) (buffers m)
               (defaultName m) (npools m) (nbuffers m) (settings m) (closed m ++ [p]))
        end
  end.

Definition set_readReplica (b : bool) (o : source) : source :=
  mkSource (s_name o) (s_pool o) (s_primary o) (s_replicas o) (s_failover o) (s_buffer o)
    (s_shadowName o) (s_shadow o) (s_readOnly o) b (s_driver o) (s_cursors o).

(** Marks the data sources registered under the given names as replicas. *)
Definition mark_replicas (names : list str) (m : manager) : manager :=
  set_heap (foldl (fun h n => match sources m !! n with
                              | Some i => alter (set_readReplica true) i h
                              | None => h end) (heap m) names) m.

Definition addGroup (g : GroupConfig) (cursors : bool) (m : manager) : Status * manager :=
  match g_name g with
  | [] => (status_error ConfigError $"group name must not be empty", m)
  | _ =>
      if bool_decide (is_Some (pools m !! g_name g)) || bool_decide (is_Some (sources m !! g_name g)) then
        (status_error ConfigError ($"group name already exists: " ++ g_name g), m)
      else
        match acknowledged g with
        | inl e => (e, m)
        | inr _ =>
            match validateGroupRefs g (pools m) with
            | inl e => (e, m)
            | inr _ =>
                match build_group g cursors (mark_replicas (map fst (g_replicas g)) m) with
                | inl e => (e, m)
                | inr m1 =>
                    let '(st, m2) := resolveShadows m1 in
                    if status_ok st then (status_OK, m2)
                    else (st, mkManager (heap m2) (pools m2) (delete (g_name g) (sources m2)) (buffers m)
                                (defaultName m2) (npools m2) (nbuffers m2) (settings m2) (closed m2))
                end
            end
        end
  end.

(** [removeGroup]: the replica marks are recomputed from the groups that stay. *)
Definition remark (m : manager) : manager :=
  let ids := map snd (map_to_list (sources m)) in
  let h := foldl (fun h i => if is_group m i then h else alter (set_readReplica false) i h) (heap m) ids in
  set_heap (foldl (fun h i => match heap m !! i with
                     | Some o => if is_group m i then foldl (fun h r => alter (set_readReplica true) r h) h (s_replicas o)
                                 else h
                     | None => h end) h ids) m.

Definition removeGroup (name : str) (m : manager) : Status * manager :=
  match sources m !! name with
  | None => (status_error ConfigError ($"group not found: " ++ name), m)
  | Some i =>
      if bool_decide (is_Some (pools m !! name)) then
        (status_error ConfigError ($"datasource '" ++ name ++ $"' is not a group (use removeDataSource)"), m)
      else if name =s defaultName m then
        (status_error ConfigError ($"group '" ++ name ++ $"' is the current default and cannot be removed"), m)
      else
        let buf := o ← heap m !! i; s_buffer o in
        (status_OK, remark (mkManager (heap m) (pools m) (delete name (sources m))
           (match buf with Some b => filter (fun x => x <> b) (buffers m) | None => buffers m end)
           (defaultName m) (npools m) (nbuffers m) (settings m) (closed m)))
  end.

Definition getDataSource (name : str) (m : manager) : option source :=
  i ← sources m !! name; heap m !! i.
Definition getDefault (m : manager) : option source :=
  match defaultName m with [] => None | n => getDataSource n m end.

Definition shutdown (m : manager) : manager :=
  mkManager (heap m) ∅ ∅ [] [] (npools m) (nbuffers m) (settings m) (closed m ++ pool_ids (pools m)).

(** ** Histories *)

Inductive event :=
| EInit (cfg : GlobalConfig)
| EAddDataSource (c : DataSourceConfig) (readOnly cursors : bool)
| ERemoveDataSource (name : str)
| EAddGroup (g : GroupConfig) (cursors : bool)
| ERemoveGroup (name : str)
| EShutdown.

Definition apply (e : event) (m : manager) : manager :=
  match e with
  | EInit cfg => (init cfg m).2
  | EAddDataSource c ro cu => (addDataSource c ro cu m).2
  | ERemoveDataSource n => (removeDataSource n m).2
  | EAddGroup g cu => (addGroup g cu m).2
  | ERemoveGroup n => (removeGroup n m).2
  | EShutdown => shutdown m
  end.

Definition history (es : list event) : manager := foldl (fun m e => apply e m) fresh es.

(** ** The registry invariant *)

(** The objects a group refers to. *)
Definition refs (o : source) : list nat :=
  option_list (s_primary o) ++ s_replicas o ++ s_failover o ++ option_list (s_shadow o).

(** Object [r] is a plain data source, registered under its own name. *)
Definition leaf_reg (m : manager) (r : nat) : Prop :=
  exists o, heap m !! r = Some o /\ s_primary o = None /\ sources m !! s_name o = Some r.

(** What a registered object satisfies: a leaf has its pool, a group is not a
    pool and refers only to registered leaves. *)
Definition entry_ok (m : manager) (n : str) (o : source) : Prop :=
  s_name o = n
  /\ match s_primary o with
     | None => exists k, s_pool o = Some k /\ pools m !! n = Some k
     | Some _ => pools m !! n = None /\ Forall (leaf_reg m) (refs o)
     end.

Record registry (m : manager) : Prop := {
  reg_source : forall n i, sources m !! n = Some i ->
    exists o, heap m !! i = Some o /\ entry_ok m n o;
  reg_pool : forall n k, pools m !! n = Some k ->
    exists i o, sources m !! n = Some i /\ heap m !! i = Some o /\ s_primary o = None
      /\ s_pool o = Some k
}.

Lemma fresh_registry : registry fresh.
Proof. by split; intros n i; cbn; rewrite lookup_empty. Qed.

Lemma leaf_reg_pool m r : registry m -> leaf_reg m r ->
  exists o k, heap m !! r = Some o /\ s_primary o = None /\ sources m !! s_name o = Some r
    /\ pools m !! s_name o = Some k.
Proof.
  intros Hr (o & Ho & Hp & Hs). destruct (reg_source m Hr _ _ Hs) as (o' & Ho' & _ & Hk).
  assert (o' = o) as -> by congruence. rewrite Hp in Hk. destruct Hk as (k & _ & Hk). eauto 8.
Qed.

(** Changes of objects that keep names, pools and primaries. *)
Lemma registry_heap m h :
  registry m ->
  (forall i o, heap m !! i = Some o -> exists o', h !! i = Some o' /\ s_name o' = s_name o
     /\ s_primary o' = s_primary o /\ s_pool o' = s_pool o
     /\ forall r, r ∈ refs o' -> r ∈ refs o \/ leaf_reg m r) ->
  registry (set_heap h m).
Proof.
  intros [H1 H2] Hh.
  assert (Hl : forall r, leaf_reg m r -> leaf_reg (set_heap h m) r).
  { intros r (o & Ho & Hp & Hs). destruct (Hh r o Ho) as (o' & Ho' & En & Ep & _).
    exists o'. cbn. by rewrite En, Ep. }
  split.
  - intros n i Hs. destruct (H1 n i Hs) as (o & Ho & Hn & Hk).
    destruct (Hh i o Ho) as (o' & Ho' & En & Ep & Epo & Hrefs). exists o'. split; [done|].
    split; [congruence|]. rewrite Ep, Epo. destruct (s_primary o); [|done].
    destruct Hk as [Hk Hf]. split; [done|]. rewrite Forall_forall in *. intros r Hr.
    destruct (Hrefs r Hr); auto.
  - intros n k Hp. destruct (H2 n k Hp) as (i & o & Hs & Ho & Hpr & Hpo).
    destruct (Hh i o Ho) as (o' & Ho' & En & Ep & Epo & _). exists i, o'.
    by rewrite Ep, Epo.
Qed.

Lemma registry_alter m i f :
  registry m ->
  (forall o, heap m !! i = Some o -> s_name (f o) = s_name o /\ s_primary (f o) = s_primary o
     /\ s_pool (f o) = s_pool o /\ forall r, r ∈ refs (f o) -> r ∈ refs o \/ leaf_reg m r) ->
  registry (set_heap (alter f i (heap m)) m).
Proof.
  intros Hr Hf. apply registry_heap; [done|]. intros j o Hj. destruct (decide (j = i)) as [->|Hn].
  - exists (f o). rewrite list_lookup_alter_eq, Hj. split; [done|]. by apply Hf.
  - exists o. rewrite list_lookup_alter_ne by done. by split_and!; auto.
Qed.

(** A new object under a new name. *)
Lemma registry_extend m o k :
  registry m -> sources m !! s_name o = None -> pools m !! s_name o = None ->
  match s_primary o with
  | None => s_pool o = Some k
  | Some _ => Forall (leaf_reg m) (refs o)
  end ->
  forall b d np nb se cl,
  registry (mkManager (heap m ++ [o])
    (match s_primary o with None => <[s_name o := k]> (pools m) | Some _ => pools m end)
    (<[s_name o := length (heap m)]> (sources m)) b d np nb se cl).
Proof.
  intros [H1 H2] Hns Hnp Hk b d np nb se cl. set (m' := mkManager _ _ _ _ _ _ _ _ _).
  assert (Hold : forall i x, heap m !! i = Some x -> heap m' !! i = Some x)
    by (intros; cbn; by apply lookup_app_l_Some).
  assert (Hnew : heap m' !! length (heap m) = Some o)
    by (cbn; by rewrite lookup_app_r, Nat.sub_diag by lia).
  assert (Hl : forall r, leaf_reg m r -> leaf_reg m' r).
  { intros r (x & Hx & Hp & Hs). exists x. split; [by apply Hold|]. split; [done|].
    cbn. rewrite lookup_insert_ne; [done|congruence]. }
  split.
  - intros n i. cbn. destruct (decide (n = s_name o)) as [->|Hn].
    + rewrite lookup_insert_eq. intros [= <-]. exists o. split; [done|]. split; [done|].
      cbn. destruct (s_primary o).
      * split; [done|]. eapply Forall_impl; [exact Hk|exact Hl].
      * exists k. by rewrite lookup_insert_eq.
    + rewrite lookup_insert_ne by done. intros Hs. destruct (H1 n i Hs) as (x & Hx & Hxn & Hxk).
      exists x. split; [by apply Hold|]. split; [done|]. cbn.
      destruct (s_primary x).
      * destruct Hxk as [Hxk Hf]. split; [|eapply Forall_impl; [exact Hf|exact Hl]].
        destruct (s_primary o); [done|]. by rewrite lookup_insert_ne.
      * destruct (s_primary o); [done|]. by rewrite lookup_insert_ne.
  - intros n q Hp.
    assert (Hcase : n = s_name o /\ s_primary o = None /\ q = k \/ n <> s_name o /\ pools m !! n = Some q).
    { cbn in Hp. destruct (s_primary o) eqn:E.
      - right. split; [|done]. congruence.
      - destruct (decide (n = s_name o)) as [->|Hn].
        + left. rewrite lookup_insert_eq in Hp. by simplify_eq.
        + right. by rewrite lookup_insert_ne in Hp. }
    destruct Hcase as [(-> & Hpr & ->)|[Hn Hq]].
    + exists (length (heap m)), o. cbn. rewrite lookup_insert_eq. rewrite Hpr in Hk. by split_and!.
    + destruct (H2 n q Hq) as (i & x & Hs & Hx & Hpr & Hpo). exists i, x.
      cbn [sources m']. rewrite lookup_insert_ne by done. by split_and!; [|apply Hold| |].
Qed.

Lemma build_leaf_registry c rep ro cu m m' :
  registry m -> pools m !! c_name c = None -> sources m !! c_name c = None ->
  build_leaf c rep ro cu m = inr m' ->
  registry m' /\ (exists o, heap m' = heap m ++ [o]) /\ buffers m' = buffers m
  /\ sources m' = <[c_name c := length (heap m)]> (sources m) /\ defaultName m' = defaultName m.
Proof.
  intros Hr Hp Hs. unfold build_leaf. destruct (c_name c) as [|a n] eqn:Hn; [done|].
  destruct (known (c_type c)); [|done]. cbn [negb]. intros [= <-]. split_and!; try done; [|by eexists].
  set (o := mkSource _ _ _ _ _ _ _ _ _ _ _ _).
  exact (registry_extend m o (npools m) Hr Hs Hp eq_refl _ _ _ _ _ _).
Qed.

(** *** Groups *)

Lemma source_leaf m n i : registry m -> sources m !! n = Some i -> is_Some (pools m !! n) -> leaf_reg m i.
Proof.
  intros Hr Hs [k Hp]. destruct (reg_pool m Hr n k Hp) as (i' & o & Hs' & Ho & Hpr & _).
  assert (i' = i) as -> by congruence. destruct (reg_source m Hr n i Hs) as (o' & Ho' & Hn & _).
  assert (o' = o) as -> by congruence. exists o. split_and!; [done|done|congruence].
Qed.

Lemma weighted_leaves m g rs l :
  registry m -> (forall r, r ∈ rs -> is_Some (pools m !! r.1)) ->
  weighted g (sources m) rs = inr l -> Forall (leaf_reg m) l.
Proof.
  intros Hr. revert l; induction rs as [|[n w] rs IH]; intros l Hp; cbn; [by intros [= <-]|].
  destruct (sources m !! n) as [i|] eqn:Hs; [|done].
  destruct (weighted g (sources m) rs) as [e|l'] eqn:E; [done|]. intros [= <-]. apply Forall_app. split.
  - apply Forall_forall. intros j Hj. apply elem_of_replicate in Hj as [-> _].
    eapply source_leaf; [done|exact Hs|]. apply (Hp (n, w)). by left.
  - apply (IH l'); [|done]. intros r Hrs. apply Hp. by right.
Qed.

Lemma candidates_leaves m g seen fs l :
  registry m -> (forall f, f ∈ fs -> is_Some (pools m !! f)) ->
  candidates g (sources m) seen fs = inr l -> Forall (leaf_reg m) l.
Proof.
  intros Hr. revert seen l; induction fs as [|f fs IH]; intros seen l Hp; cbn; [by intros [= <-]|].
  assert (Hp' : forall x, x ∈ fs -> is_Some (pools m !! x)) by (intros x Hx; apply Hp; by right).
  destruct (bool_decide (f ∈ seen)); [by apply IH|].
  destruct (sources m !! f) as [i|] eqn:Hs; [|done].
  destruct (candidates g (sources m) (f :: seen) fs) as [e|l'] eqn:E; [done|]. intros [= <-].
  constructor; [|by eapply IH]. eapply source_leaf; [done|exact Hs|]. apply Hp. by left.
Qed.

Lemma find_none_all {A} (f : A -> bool) l : List.find f l = None -> forall x, x ∈ l -> f x = false.
Proof. intros H x Hx. apply (List.find_none f l H). by apply list_elem_of_In. Qed.

Lemma validate_refs g ps :
  validateGroupRefs g ps = inr tt ->
  is_Some (ps !! g_primary g) /\ (forall r, r ∈ g_replicas g -> is_Some (ps !! r.1))
  /\ (forall f, f ∈ g_failover g -> is_Some (ps !! f)).
Proof.
  assert (Hs : forall n, bool_decide (ps !! n = None) = false -> is_Some (ps !! n)).
  { intros n H%bool_decide_eq_false. by apply not_eq_None_Some. }
  unfold validateGroupRefs. destruct (bool_decide (ps !! g_primary g = None)) eqn:E1; [done|].
  destruct (List.find _ (g_replicas g)) eqn:E2; [done|].
  destruct (List.find _ (g_failover g)) eqn:E3; [done|]. intros _. split_and!; [auto| |].
  - intros r Hr. apply Hs. exact (find_none_all _ _ E2 r Hr).
  - intros f Hf. apply Hs. exact (find_none_all _ _ E3 f Hf).
Qed.

Lemma build_group_registry g cu m m' :
  registry m -> validateGroupRefs g (pools m) = inr tt ->
  pools m !! g_name g = None -> sources m !! g_name g = None ->
  build_group g cu m = inr m' ->
  registry m' /\ (exists o, heap m' = heap m ++ [o])
  /\ sources m' = <[g_name g := length (heap m)]> (sources m) /\ pools m' = pools m
  /\ defaultName m' = defaultName m.
Proof.
  intros Hr Hv Hp Hs. destruct (validate_refs g _ Hv) as (V1 & V2 & V3).
  unfold build_group. destruct (g_name g) as [|a n] eqn:Hn; [done|].
  destruct (g_readOnly g && g_buffer g); [done|].
  destruct (sources m !! g_primary g) as [p|] eqn:Hpr; [|done].
  destruct (weighted (a :: n) (sources m) (g_replicas g)) as [e|rs] eqn:Hw; [done|].
  set (X := match g_failover g with [] => inr [] | _ => _ end).
  destruct X as [e|fs] eqn:HX; [done|]. intros [= <-].
  assert (Hprim : leaf_reg m p) by (by eapply source_leaf).
  assert (Hfs : Forall (leaf_reg m) fs).
  { unfold X in HX. destruct (g_failover g) as [|f l] eqn:Hf; [by simplify_eq|].
    destruct (candidates _ _ _ (f :: l)) as [e|l'] eqn:Hc; [done|]. simplify_eq.
    constructor; [done|]. eapply candidates_leaves; [done| |exact Hc]. done. }
  split_and!; try done; [|by eexists].
  set (o := mkSource _ _ _ _ _ _ _ _ _ _ _ _).
  refine (registry_extend m o 0 Hr Hs Hp _ _ _ _ _ _ _). cbn.
  unfold refs. cbn. constructor; [done|]. rewrite !Forall_app. split_and!; [|done|constructor].
  by eapply weighted_leaves.
Qed.

(** *** Shadows *)

Lemma resolve_one_registry i m m' :
  registry m -> (exists n, sources m !! n = Some i) -> resolve_one i m = inr m' ->
  registry m' /\ sources m' = sources m /\ pools m' = pools m /\ buffers m' = buffers m
  /\ defaultName m' = defaultName m
  /\ (forall j, j <> i -> heap m' !! j = heap m !! j) /\ length (heap m') = length (heap m).
Proof.
  intros Hr Hi. unfold resolve_one. destruct (heap m !! i) as [o|] eqn:Ho; [|by intros [= <-]].
  destruct (s_shadowName o) as [|a name]; [by intros [= <-]|].
  destruct (sources m !! (a :: name)) as [t|] eqn:Ht; [|done].
  destruct (is_group m t) eqn:Hg; [done|]. destruct (bool_decide (s_primary o = Some t)); [done|].
  destruct (bool_decide (t ∈ s_replicas o)); [done|]. intros [= <-].
  assert (Hleaf : leaf_reg m t).
  { destruct (reg_source m Hr _ t Ht) as (x & Hx & Hn & _). exists x. split; [done|].
    unfold is_group in Hg. rewrite Hx in Hg. apply bool_decide_eq_false in Hg.
    split; [|congruence]. by apply eq_None_not_Some. }
  split_and!; try done.
  - apply registry_alter; [done|]. intros x Hx. split_and!; try done. intros r. unfold refs. cbn.
    rewrite !elem_of_app, list_elem_of_singleton. intros [?|[?|[?| ->]]]; auto.
  - intros j Hj. cbn. by rewrite list_lookup_alter_ne.
  - cbn. by rewrite length_alter.
Qed.

Lemma resolve_all_registry ids : forall m,
  registry m -> (forall i, i ∈ ids -> exists n, sources m !! n = Some i) ->
  let m' := (resolve_all ids m).2 in
  registry m' /\ sources m' = sources m /\ pools m' = pools m /\ buffers m' = buffers m
  /\ defaultName m' = defaultName m
  /\ (forall j, j ∉ ids -> heap m' !! j = heap m !! j) /\ length (heap m') = length (heap m).
Proof.
  induction ids as [|i ids IH]; intros m Hr Hids; cbn; [done|].
  destruct (resolve_one i m) as [e|m1] eqn:E; [done|].
  destruct (resolve_one_registry i m m1 Hr) as (H1 & H2 & H3 & H4 & H5 & H6 & H7);
    [apply Hids; by left|done|].
  destruct (IH m1 H1) as (H8 & H9 & H10 & H11 & H12 & H13 & H14).
  { intros j Hj. rewrite H2. apply Hids. by right. }
  split_and!; try congruence; try done.
  intros j Hj. rewrite not_elem_of_cons in Hj. destruct Hj as [Hj1 Hj2]. rewrite H13 by done. by apply H6.
Qed.

Lemma source_ids m i :
  i ∈ map snd (map_to_list (sources m)) -> exists n, sources m !! n = Some i.
Proof.
  intros H. apply list_elem_of_In, in_map_iff in H as ([n j] & <- & H).
  apply list_elem_of_In, elem_of_map_to_list in H. by exists n.
Qed.

Lemma source_ids_in m n i :
  sources m !! n = Some i -> i ∈ map snd (map_to_list (sources m)).
Proof.
  intros H. apply list_elem_of_In, in_map_iff. exists (n, i). split; [done|].
  by apply list_elem_of_In, elem_of_map_to_list.
Qed.

Lemma resolveShadows_registry m :
  registry m ->
  let m' := (resolveShadows m).2 in
  registry m' /\ sources m' = sources m /\ pools m' = pools m /\ buffers m' = buffers m
  /\ defaultName m' = defaultName m
  /\ (forall j, (forall n, sources m !! n <> Some j) -> heap m' !! j = heap m !! j)
  /\ length (heap m') = length (heap m).
Proof.
  intros Hr. destruct (resolve_all_registry (map snd (map_to_list (sources m))) m Hr)
    as (H1 & H2 & H3 & H4 & H5 & H6 & H7); [apply source_ids|].
  unfold resolveShadows. split_and!; try done. intros j Hj. apply H6. intros [n Hn]%source_ids.
  by apply (Hj n).
Qed.

(** *** [init] *)

(** [m] was staged over a heap of [L] objects, which it leaves alone. *)
Record built (L : nat) (m0 m : manager) : Prop := {
  bt_registry : registry m;
  bt_size : L <= length (heap m);
  bt_above : forall n i, sources m !! n = Some i -> L <= i;
  bt_prefix : forall j, j < L -> heap m !! j = heap m0 !! j;
  bt_default : defaultName m = defaultName m0
}.

Lemma staged_built m : built (length (heap m)) m (staged m).
Proof.
  by split.
Qed.

Lemma built_extend L m0 m m' n o :
  built L m0 m -> registry m' -> heap m' = heap m ++ [o] ->
  sources m' = <[n := length (heap m)]> (sources m) -> defaultName m' = defaultName m ->
  built L m0 m'.
Proof.
  intros [H1 H2 H3 H4 H5] Hr Hh Hs Hd. split; [done| | | |congruence].
  - rewrite Hh, length_app. lia.
  - intros n' i. rewrite Hs. destruct (decide (n' = n)) as [->|Hn].
    + rewrite lookup_insert_eq. intros [= <-]. done.
    + rewrite lookup_insert_ne by done. apply H3.
  - intros j Hj. rewrite Hh, lookup_app_l by lia. by apply H4.
Qed.

Lemma init_leaves_built L m0 cs rn cu : forall m m',
  built L m0 m -> (forall n i, sources m !! n = Some i -> is_Some (pools m !! n)) ->
  init_leaves cs rn cu m = inr m' -> built L m0 m'.
Proof.
  induction cs as [|c cs IH]; intros m m' Hb Hall; cbn; [by intros [= <-]|].
  destruct (pools m !! c_name c) eqn:Hp; [done|].
  destruct (build_leaf c _ false cu m) as [e|m1] eqn:E; [done|].
  assert (Hs : sources m !! c_name c = None).
  { destruct (sources m !! c_name c) as [i|] eqn:Hs; [|done]. destruct (Hall _ _ Hs). congruence. }
  destruct (build_leaf_registry _ _ _ _ _ _ (bt_registry _ _ _ Hb) Hp Hs E) as (H1 & (o & H2) & _ & H3 & H4).
  apply IH; [by eapply built_extend|].
  intros n i Hn. rewrite H3 in Hn. destruct (decide (n = c_name c)) as [->|Hne].
  - unfold build_leaf in E. destruct (c_name c) eqn:Ec; [done|].
    destruct (negb (known (c_type c))); [done|]. simplify_eq. cbn. rewrite lookup_insert_eq. by eexists.
  - rewrite lookup_insert_ne in Hn by done. destruct (Hall n i Hn) as [k Hk].
    unfold build_leaf in E. destruct (c_name c) eqn:Ec; [done|].
    destruct (negb (known (c_type c))); [done|]. simplify_eq. cbn. rewrite lookup_insert_ne by congruence.
    by eexists.
Qed.

Lemma init_groups_built L m0 gs : forall m m',
  built L m0 m -> init_groups gs m = inr m' -> built L m0 m'.
Proof.
  induction gs as [|g gs IH]; intros m m' Hb; cbn; [by intros [= <-]|].
  destruct (sources m !! g_name g) eqn:Hs; [done|].
  destruct (acknowledged g); [done|]. destruct (validateGroupRefs g (pools m)) as [|[]] eqn:Hv; [done|].
  destruct (build_group g true m) as [e|m1] eqn:E; [done|].
  assert (Hp : pools m !! g_name g = None).
  { destruct (pools m !! g_name g) as [k|] eqn:Hp; [|done].
    destruct (reg_pool m (bt_registry _ _ _ Hb) _ _ Hp) as (i & _ & Hi & _). congruence. }
  destruct (build_group_registry g true m m1 (bt_registry _ _ _ Hb) Hv Hp Hs E) as (H1 & (o & H2) & H3 & _ & H4).
  apply IH. by eapply built_extend.
Qed.

Lemma registry_same m h b d np nb se cl :
  registry m -> (forall j, j < length (heap m) -> h !! j = heap m !! j) ->
  registry (mkManager h (pools m) (sources m) b d np nb se cl).
Proof.
  intros Hr Hh.
  assert (Hk : registry (set_heap h m)).
  { apply registry_heap; [done|]. intros i o Ho. exists o. rewrite Hh by (by eapply lookup_lt_Some).
    by split_and!; auto. }
  destruct Hk as [H1 H2]. split; [exact H1|exact H2].
Qed.

Lemma init_registry cfg m :
  registry m -> registry (init cfg m).2 /\ length (heap m) <= length (heap (init cfg m).2).
Proof.
  intros Hr. unfold init. destruct (datasources cfg) as [|c cs]; [done|].
  destruct (init_leaves (c :: cs) _ _ (staged m)) as [e|m1] eqn:E1; [done|].
  destruct (init_groups (groups cfg) m1) as [e|m2] eqn:E2; [done|].
  destruct (sources m2 !! default_datasource cfg); [|done].
  pose proof (init_leaves_built _ _ _ _ _ _ _ (staged_built m)
    ltac:(intros n' i'; cbn; by rewrite lookup_empty) E1) as B1.
  pose proof (init_groups_built _ _ _ _ _ B1 E2) as [B2 B3 B4 B5 B6].
  set (m3 := mkManager (heap m2) (pools m2) _ _ _ _ _ _ _).
  assert (Hr3 : registry m3) by (by destruct B2 as [X1 X2]; split; [exact X1|exact X2]).
  destruct (resolveShadows_registry m3 Hr3) as (R1 & R2 & R3 & R4 & R5 & R6 & R7).
  destruct (resolveShadows m3) as [st m4]. cbn in R1, R2, R3, R4, R5, R6, R7.
  destruct (status_ok st); cbn.
  - split; [by destruct R1 as [X1 X2]; split; [exact X1|exact X2]|]. rewrite R7. done.
  - split; [|by rewrite R7]. apply registry_same; [done|]. intros j Hj. rewrite R6; [by apply B5|].
    intros n' Hn'. apply B4 in Hn'. lia.
Qed.

(** *** Run-time changes *)

Lemma addDataSource_registry c ro cu m : registry m -> registry (addDataSource c ro cu m).2.
Proof.
  intros Hr. unfold addDataSource. destruct (c_name c) as [|a n] eqn:Hn; [done|].
  destruct (bool_decide (is_Some (pools m !! (a :: n)))) eqn:E1; [done|].
  destruct (bool_decide (is_Some (sources m !! (a :: n)))) eqn:E2; [done|]. cbn [orb].
  destruct (build_leaf c false ro cu m) as [e|m'] eqn:E; [done|].
  apply bool_decide_eq_false, eq_None_not_Some in E1, E2. rewrite <- Hn in *.
  by destruct (build_leaf_registry _ _ _ _ _ _ Hr E1 E2 E) as (H & _).
Qed.

(** Marks on objects do not matter to the registry. *)
Definition marks (h h' : list source) : Prop :=
  forall i o, h !! i = Some o -> exists b, h' !! i = Some (set_readReplica b o).

Lemma set_readReplica_twice b b' o : set_readReplica b (set_readReplica b' o) = set_readReplica b o.
Proof. done. Qed.

Lemma marks_alter b i h h' : marks h h' -> marks h (alter (set_readReplica b) i h').
Proof.
  intros H j o Hj. destruct (H j o Hj) as [b' Hb]. destruct (decide (j = i)) as [->|Hn].
  - exists b. by rewrite list_lookup_alter_eq, Hb.
  - exists b'. by rewrite list_lookup_alter_ne.
Qed.

Lemma marks_refl h : marks h h.
Proof. intros i o Ho. exists (s_readReplica o). rewrite Ho. by destruct o. Qed.

Lemma marks_registry m h : registry m -> marks (heap m) h -> registry (set_heap h m).
Proof.
  intros Hr Hm. apply registry_heap; [done|]. intros i o Ho. destruct (Hm i o Ho) as [b Hb].
  exists (set_readReplica b o). by split_and!; auto.
Qed.

Lemma mark_replicas_registry names m : registry m -> registry (mark_replicas names m).
Proof.
  intros Hr. unfold mark_replicas. apply marks_registry; [done|].
  generalize (marks_refl (heap m)). generalize (heap m) at 2 4.
  induction names as [|n names IH]; intros h H; [done|]. cbn. apply IH.
  destruct (sources m !! n); [by apply marks_alter|done].
Qed.

Lemma remark_registry m : registry m -> registry (remark m).
Proof.
  intros Hr. unfold remark. apply marks_registry; [done|].
  set (ids := map snd _). set (h0 := foldl _ (heap m) ids).
  assert (H0 : marks (heap m) h0).
  { unfold h0. generalize (marks_refl (heap m)). generalize (heap m) at 2 4.
    induction ids as [|i ids IH]; intros h H; [done|]. cbn. apply IH.
    destruct (is_group m i); [done|by apply marks_alter]. }
  clearbody h0. revert h0 H0. induction ids as [|i ids IH]; intros h H; [done|]. cbn. apply IH.
  destruct (heap m !! i) as [o|]; [|done]. destruct (is_group m i); [|done].
  revert h H. induction (s_replicas o) as [|r rs IHr]; intros h H; [done|]. cbn.
  by apply IHr, marks_alter.
Qed.

(** Taking a name that no group refers to out of the registry. *)
Lemma registry_delete m n b d np nb se cl :
  registry m ->
  (forall n' i o, sources m !! n' = Some i -> n' <> n -> heap m !! i = Some o -> s_primary o <> None ->
     forall r x, r ∈ refs o -> heap m !! r = Some x -> s_name x <> n) ->
  registry (mkManager (heap m) (delete n (pools m)) (delete n (sources m)) b d np nb se cl).
Proof.
  intros [H1 H2] Href. split; cbn.
  - intros n' i Hs. apply lookup_delete_Some in Hs as [Hn Hs].
    destruct (H1 n' i Hs) as (o & Ho & Hname & Hk). exists o. split; [done|]. split; [done|].
    cbn. destruct (s_primary o) eqn:Hp.
    + destruct Hk as [Hk Hf]. rewrite lookup_delete_ne by done. split; [done|].
      rewrite Forall_forall in *. intros r Hin. destruct (Hf r Hin) as (x & Hx & Hxp & Hxs).
      exists x. cbn. split_and!; try done. rewrite lookup_delete_ne; [done|]. intros ->.
      eapply (Href n' i o); try done. congruence.
    + by rewrite lookup_delete_ne.
  - intros n' k Hp. apply lookup_delete_Some in Hp as [Hn Hp].
    destruct (H2 n' k Hp) as (i & o & Hs & Ho & Hpr & Hpo). exists i, o.
    by rewrite lookup_delete_ne.
Qed.

Lemma referenced_None m name ids :
  referenced m name ids = None ->
  forall i o, i ∈ ids -> heap m !! i = Some o -> s_name o <> name -> s_primary o <> None ->
  forall r, r ∈ refs o -> named m name r = false.
Proof.
  induction ids as [|j ids IH]; cbn; intros H i o Hi Ho Hn Hp r Hr; [set_solver|].
  assert (Hstep : referenced m name ids = None
    /\ (i = j -> existsb (named m name) (refs o) = false)).
  { destruct (heap m !! j) as [oj|] eqn:Hj.
    2:{ split; [done|]. intros ->. congruence. }
    destruct ((s_name oj =s name) || bool_decide (s_primary oj = None)) eqn:Eskip.
    - split; [done|]. intros ->. assert (oj = o) as -> by congruence. exfalso.
      apply orb_prop in Eskip as [E|E].
      + by apply str_eqb_true in E.
      + by apply bool_decide_eq_true in E.
    - unfold role in H. destruct (existsb _ (option_list (s_primary oj))) eqn:R1; [done|].
      destruct (existsb _ (s_replicas oj)) eqn:R2; [done|].
      destruct (existsb _ (s_failover oj)) eqn:R3; [done|].
      destruct (existsb _ (option_list (s_shadow oj))) eqn:R4; [done|]. split; [done|].
      intros ->. assert (oj = o) as -> by congruence. unfold refs.
      by rewrite !existsb_app, R1, R2, R3, R4. }
  destruct Hstep as [H' Hj]. apply elem_of_cons in Hi as [->|Hi]; [|by eapply IH].
  specialize (Hj eq_refl). destruct (named m name r) eqn:E; [|done]. exfalso.
  apply not_true_iff_false in Hj. apply Hj. apply existsb_exists. exists r.
  split; [by apply list_elem_of_In|done].
Qed.

Lemma removeDataSource_registry n m : registry m -> registry (removeDataSource n m).2.
Proof.
  intros Hr. unfold removeDataSource. destruct (pools m !! n) as [p|]; [|done].
  destruct (n =s defaultName m); [done|].
  destruct (referenced m n _) as [msg|] eqn:E; [done|]. cbn. apply registry_delete; [done|].
  intros n' i o Hs Hn Ho Hp r x Hin Hx Hxn.
  assert (Hname : s_name o <> n).
  { destruct (reg_source m Hr n' i Hs) as (o' & Ho' & Hn' & _). congruence. }
  pose proof (referenced_None m _ _ E i o (source_ids_in m n' i Hs) Ho Hname Hp r Hin) as Hf.
  unfold named in Hf. by rewrite Hx, Hxn, str_eqb_refl in Hf.
Qed.

(** A group's name can go: nothing refers to groups. *)
Lemma registry_drop_group m n b d np nb se cl :
  registry m -> pools m !! n = None ->
  registry (mkManager (heap m) (pools m) (delete n (sources m)) b d np nb se cl).
Proof.
  intros Hr Hp. rewrite <- (delete_id (pools m) n Hp) at 1. apply registry_delete; [done|].
  intros n' i o Hs Hn Ho Hpr r x Hin Hx Hxn.
  destruct (reg_source m Hr n' i Hs) as (o' & Ho' & _ & Hk). assert (o' = o) as -> by congruence.
  destruct (s_primary o); [|done]. destruct Hk as [_ Hf]. rewrite Forall_forall in Hf.
  destruct (leaf_reg_pool m r Hr (Hf r Hin)) as (x' & k & Hx' & _ & _ & Hk). congruence.
Qed.

Lemma removeGroup_registry n m : registry m -> registry (removeGroup n m).2.
Proof.
  intros Hr. unfold removeGroup. destruct (sources m !! n) as [i|]; [|done].
  destruct (bool_decide (is_Some (pools m !! n))) eqn:E; [done|].
  destruct (n =s defaultName m); [done|]. cbn [snd]. apply remark_registry, registry_drop_group; [done|].
  by apply bool_decide_eq_false, eq_None_not_Some in E.
Qed.

Lemma addGroup_registry g cu m : registry m -> registry (addGroup g cu m).2.
Proof.
  intros Hr. unfold addGroup. destruct (g_name g) as [|a n] eqn:Hn; [done|].
  destruct (bool_decide (is_Some (pools m !! (a :: n)))) eqn:E1; [done|].
  destruct (bool_decide (is_Some (sources m !! (a :: n)))) eqn:E2; [done|]. cbn [orb].
  destruct (acknowledged g); [done|].
  destruct (validateGroupRefs g (pools m)) as [|[]] eqn:Hv; [done|].
  apply bool_decide_eq_false, eq_None_not_Some in E1, E2. rewrite <- Hn in *.
  set (m0 := mark_replicas _ m). assert (Hr0 : registry m0) by (by apply mark_replicas_registry).
  destruct (build_group g cu m0) as [e|m1] eqn:E; [done|].
  destruct (build_group_registry g cu m0 m1 Hr0 Hv E1 E2 E) as (H1 & _ & H2 & H3 & _).
  destruct (resolveShadows_registry m1 H1) as (R1 & R2 & R3 & R4 & _).
  destruct (resolveShadows m1) as [st m2]. cbn in R1, R2, R3, R4.
  destruct (status_ok st); [done|]. cbn. apply registry_drop_group; [done|].
  rewrite R3, H3. exact E1.
Qed.

Lemma apply_registry e m : registry m -> registry (apply e m).
Proof.
  intros Hm. destruct e; cbn [apply].
  - by apply init_registry.
  - by apply addDataSource_registry.
  - by apply removeDataSource_registry.
  - by apply addGroup_registry.
  - by apply removeGroup_registry.
  - by split; intros n i; cbn; rewrite lookup_empty.
Qed.

Lemma history_invariant (P : manager -> Prop) (es : list event) :
  P fresh -> (forall e m, P m -> P (apply e m)) -> P (history es).
Proof.
  intros H0 Hs. unfold history. generalize dependent fresh. induction es as [|e es IH]; intros m Hm; [done|].
  cbn. by apply IH, Hs.
Qed.

Lemma history_registry es : registry (history es).
Proof. apply history_invariant; [apply fresh_registry|apply apply_registry]. Qed.

(** ** Registered pools are open *)

Record live (m : manager) : Prop := {
  lv_open : forall n k, pools m !! n = Some k -> k < npools m /\ k ∉ closed m;
  lv_inj : forall n n' k, pools m !! n = Some k -> pools m !! n' = Some k -> n = n';
  lv_closed : Forall (fun k => k < npools m) (closed m)
}.

(** What [init] builds: the pools are new. *)
Record newer (np : nat) (cl : list nat) (m : manager) : Prop := {
  nw_np : np <= npools m;
  nw_pools : forall n k, pools m !! n = Some k -> np <= k < npools m;
  nw_inj : forall n n' k, pools m !! n = Some k -> pools m !! n' = Some k -> n = n';
  nw_closed : closed m = cl
}.

Lemma build_leaf_pools c rep ro cu m m' :
  build_leaf c rep ro cu m = inr m' ->
  pools m' = <[c_name c := npools m]> (pools m) /\ npools m' = S (npools m) /\ closed m' = closed m.
Proof.
  unfold build_leaf. destruct (c_name c) eqn:E; [done|]. destruct (negb (known (c_type c))); [done|].
  intros [= <-]. done.
Qed.

Lemma insert_new_inj (ps : gmap str nat) n k :
  (forall n' j, ps !! n' = Some j -> j < k) ->
  (forall n1 n2 j, ps !! n1 = Some j -> ps !! n2 = Some j -> n1 = n2) ->
  forall n1 n2 j, <[n := k]> ps !! n1 = Some j -> <[n := k]> ps !! n2 = Some j -> n1 = n2.
Proof.
  intros Hlt Hinj n1 n2 j. rewrite !lookup_insert_Some.
  intros [[<- <-]|[H1 H2]] [[<- ?]|[H3 H4]]; try done.
  - apply Hlt in H4. lia.
  - subst. apply Hlt in H2. lia.
  - by eapply Hinj.
Qed.

Lemma build_leaf_newer c rep ro cu np cl m m' :
  newer np cl m -> build_leaf c rep ro cu m = inr m' -> newer np cl m'.
Proof.
  intros [H1 H2 H3 H4] E. destruct (build_leaf_pools _ _ _ _ _ _ E) as (E1 & E2 & E3).
  split; rewrite ?E1, ?E2, ?E3; [lia| | |done].
  - intros n k. rewrite lookup_insert_Some. intros [[_ <-]|[_ H]]; [lia|]. apply H2 in H. lia.
  - apply insert_new_inj; [|done]. intros n' j Hj. apply H2 in Hj. lia.
Qed.

Lemma build_group_pools g cu m m' :
  build_group g cu m = inr m' -> pools m' = pools m /\ npools m' = npools m /\ closed m' = closed m.
Proof. unfold build_group. repeat case_match; intros; by simplify_eq. Qed.

Lemma init_leaves_newer cs rn cu np cl : forall m m',
  newer np cl m -> init_leaves cs rn cu m = inr m' -> newer np cl m'.
Proof.
  induction cs as [|c cs IH]; intros m m' Hm; cbn; [by intros [= <-]|].
  destruct (pools m !! c_name c); [done|]. destruct (build_leaf c _ false cu m) as [e|m1] eqn:E; [done|].
  apply IH. by eapply build_leaf_newer.
Qed.

Lemma init_groups_newer gs np cl : forall m m',
  newer np cl m -> init_groups gs m = inr m' -> newer np cl m'.
Proof.
  induction gs as [|g gs IH]; intros m m' Hm; cbn; [by intros [= <-]|]. repeat case_match; try done.
  apply IH. destruct (build_group_pools g true m) with (m' := m0) as (E1 & E2 & E3); [done|].
  destruct Hm as [H1' H2' H3' H4']. split; rewrite ?E1, ?E2, ?E3; done.
Qed.

Lemma resolve_all_pools ids m :
  let m' := (resolve_all ids m).2 in
  pools m' = pools m /\ npools m' = npools m /\ closed m' = closed m.
Proof.
  revert m; induction ids as [|i ids IH]; intros m; cbn; [done|].
  destruct (resolve_one i m) as [e|m1] eqn:E; [done|].
  assert (H : pools m1 = pools m /\ npools m1 = npools m /\ closed m1 = closed m).
  { unfold resolve_one in E. repeat case_match; by simplify_eq. }
  destruct (IH m1) as (-> & -> & ->). exact H.
Qed.

Lemma pool_ids_in ps k : k ∈ pool_ids ps <-> exists n, ps !! n = Some k.
Proof.
  unfold pool_ids. rewrite list_elem_of_In, in_map_iff. split.
  - intros ([n j] & <- & H). exists n. by apply elem_of_map_to_list, list_elem_of_In.
  - intros [n H]. exists (n, k). split; [done|]. by apply list_elem_of_In, elem_of_map_to_list.
Qed.

Lemma init_live cfg m : live m -> live (init cfg m).2.
Proof.
  intros Hl. unfold init. destruct (datasources cfg) as [|c cs]; [done|].
  destruct (init_leaves (c :: cs) _ _ (staged m)) as [e|m1] eqn:E1; [done|].
  destruct (init_groups (groups cfg) m1) as [e|m2] eqn:E2; [done|].
  destruct (sources m2 !! default_datasource cfg) as [i0|]; [|done].
  assert (N0 : newer (npools m) (closed m) (staged m)).
  { split; cbn; try done; intros *; by rewrite lookup_empty. }
  pose proof (init_leaves_newer _ _ _ _ _ _ _ N0 E1) as N1.
  pose proof (init_groups_newer _ _ _ _ _ N1 E2) as [A1 A2 A3 A4].
  set (m3 := mkManager (heap m2) (pools m2) _ _ _ _ _ _ _).
  pose proof (resolve_all_pools (map snd (map_to_list (sources m3))) m3) as (P1 & P2 & P3).
  unfold resolveShadows. destruct (resolve_all _ m3) as [st m4]. cbn in P1, P2, P3.
  destruct Hl as [L1 L2 L3].
  assert (Hbound : forall k, k ∈ closed m -> k < npools m)
    by (intros k; rewrite Forall_forall in L3; apply L3).
  destruct (status_ok st); cbn [snd]; split; cbn; rewrite ?P1, ?P2, ?P3.
  - intros n k Hk. apply A2 in Hk. split; [lia|]. rewrite elem_of_app, pool_ids_in.
    intros [H|[n' H]]; [apply Hbound in H; lia|]. apply L1 in H. lia.
  - done.
  - apply Forall_app. split; apply Forall_forall; intros k Hk.
    + apply Hbound in Hk. lia.
    + apply pool_ids_in in Hk as [n' H]. apply L1 in H. lia.
  - intros n k Hk. apply L1 in Hk as [H1 H2]. split; [lia|done].
  - done.
  - apply Forall_forall. intros k Hk. apply Hbound in Hk. lia.
Qed.

Lemma addDataSource_live c ro cu m : live m -> live (addDataSource c ro cu m).2.
Proof.
  intros [L1 L2 L3]. unfold addDataSource. repeat case_match; try done. cbn.
  match goal with H : build_leaf _ _ _ _ _ = inr _ |- _ =>
    destruct (build_leaf_pools _ _ _ _ _ _ H) as (E1 & E2 & E3) end.
  split; rewrite ?E1, ?E2, ?E3.
  - intros n k. rewrite lookup_insert_Some. intros [[_ <-]|[_ Hk]].
    + split; [lia|]. rewrite Forall_forall in L3. intros Hin%L3. lia.
    + apply L1 in Hk as [? ?]. split; [lia|done].
  - apply insert_new_inj; [|done]. intros n' j Hj. apply L1 in Hj. lia.
  - eapply Forall_impl; [exact L3|]. cbn. lia.
Qed.

Lemma removeDataSource_live n m : live m -> live (removeDataSource n m).2.
Proof.
  intros [L1 L2 L3]. unfold removeDataSource. destruct (pools m !! n) as [p|] eqn:Hp; [|done].
  repeat case_match; try done. split; cbn.
  - intros n' k Hk. apply lookup_delete_Some in Hk as [Hn Hk]. destruct (L1 n' k Hk) as [H1 H2].
    split; [done|]. rewrite elem_of_app, list_elem_of_singleton. intros [?| ->]; [done|].
    apply Hn. by eapply L2.
  - intros n1 n2 k H1 H2. apply lookup_delete_Some in H1 as [_ H1], H2 as [_ H2]. by eapply L2.
  - apply Forall_app. split; [done|]. repeat constructor. by apply (L1 n).
Qed.

Lemma live_same m m' :
  pools m' = pools m -> npools m' = npools m -> closed m' = closed m -> live m -> live m'.
Proof. intros E1 E2 E3 [L1 L2 L3]. split; rewrite ?E1, ?E2, ?E3; done. Qed.

Lemma addGroup_live g cu m : live m -> live (addGroup g cu m).2.
Proof.
  intros Hl. unfold addGroup. destruct (g_name g) as [|a n] eqn:Hn; [done|].
  destruct (_ || _); [done|]. destruct (acknowledged g); [done|].
  destruct (validateGroupRefs g (pools m)); [done|].
  destruct (build_group g cu _) as [e|m1] eqn:E; [done|].
  destruct (build_group_pools _ _ _ _ E) as (E1 & E2 & E3).
  destruct (resolve_all_pools (map snd (map_to_list (sources m1))) m1) as (P1 & P2 & P3).
  unfold resolveShadows. destruct (resolve_all _ m1) as [st m2]. cbn in *.
  destruct (status_ok st); apply (live_same m); cbn; congruence || done.
Qed.

Lemma fresh_live : live fresh.
Proof. split; cbn; [intros *; by rewrite lookup_empty..|constructor]. Qed.

Lemma apply_live e m : live m -> live (apply e m).
Proof.
  intros Hm. destruct e; cbn [apply].
  - by apply init_live.
  - by apply addDataSource_live.
  - by apply removeDataSource_live.
  - by apply addGroup_live.
  - unfold removeGroup. repeat case_match; try done; by apply (live_same m).
  - destruct Hm as [L1 L2 L3]. split; cbn; [intros *; by rewrite lookup_empty..|].
    apply Forall_app. split; [done|]. apply Forall_forall. intros k [n Hk]%pool_ids_in.
    apply L1 in Hk. lia.
Qed.

Lemma history_live es : live (history es).
Proof. apply history_invariant; [apply fresh_live|apply apply_live]. Qed.

(** C10.  The registry never holds a dangling reference: in every history of
    initialisations, additions, removals and shutdowns, failed ones included, a
    registered name leads to an object of that name; a plain data source has its
    pool, and that pool is open; every primary, replica, failover candidate and
    shadow of a registered group is a plain data source that is itself registered
    under its name. *)
Theorem registry_consistent es n o :
  let m := history es in
  getDataSource n m = Some o ->
  s_name o = n
  /\ match s_primary o with
     | None => exists k, s_pool o = Some k /\ pools m !! n = Some k /\ k ∉ closed m
     | Some _ => forall r, r ∈ refs o ->
         exists x, heap m !! r = Some x /\ s_primary x = None /\ getDataSource (s_name x) m = Some x
     end.
Proof.
  intros m Ho. pose proof (history_registry es) as Hr. pose proof (history_live es) as Hl.
  fold m in Hr, Hl. unfold getDataSource in Ho. apply bind_Some in Ho as (i & Hs & Ho).
  destruct (reg_source m Hr n i Hs) as (o' & Ho' & Hn & Hk). assert (o' = o) as -> by congruence.
  split; [done|]. destruct (s_primary o).
  - destruct Hk as [_ Hf]. rewrite Forall_forall in Hf. intros r Hin.
    destruct (Hf r Hin) as (x & Hx & Hp & Hxs). exists x. split_and!; [done|done|].
    unfold getDataSource. by rewrite Hxs.
  - destruct Hk as (k & Hpo & Hk). exists k. split_and!; [done|done|]. by apply (lv_open m Hl n).
Qed.
End Manager.

Definition any_driver (t : str) : bool := true.
Definition leaf (n : string) : DataSourceConfig := mkDs (lit n) $"mysql".
Definition plain_group (shadow : string) : GroupConfig :=
  mkGroup $"main" $"a" [($"b", 2%Z)] [$"a"; $"b"] true false false false (lit shadow).
Definition good_config : GlobalConfig :=
  mkGlobal [leaf "a"; leaf "b"; leaf "s"] [plain_group "s"] $"main" true.
(** Another configuration, whose group names a shadow that does not exist. *)
Definition bad_config : GlobalConfig :=
  mkGlobal [leaf "c"; leaf "b"; leaf "a"] [plain_group "nowhere"] $"c" true.

Lemma registry_consistent_witness :
  exists o, getDataSource $"main" (history any_driver [EInit good_config]) = Some o
    /\ refs o = [0; 1; 1; 0; 1; 2]
    /\ forall r, r ∈ refs o -> exists x, heap (history any_driver [EInit good_config]) !! r = Some x
         /\ s_primary x = None /\ getDataSource (s_name x) (history any_driver [EInit good_config]) = Some x.
Proof.
  assert (E : exists o, getDataSource $"main" (history any_driver [EInit good_config]) = Some o
    /\ refs o = [0; 1; 1; 0; 1; 2] /\ s_primary o = Some 0) by (eexists; by vm_compute).
  destruct E as (o & Ho & Hrefs & Hp). exists o. split; [exact Ho|]. split; [exact Hrefs|].
  destruct (registry_consistent any_driver [EInit good_config] $"main" o Ho) as [_ H].
  rewrite Hp in H. exact H.
Defined.

Lemma init_failed_keeps known cfg m :
  status_ok (init known cfg m).1 = false ->
  pools (init known cfg m).2 = pools m /\ sources (init known cfg m).2 = sources m
  /\ buffers (init known cfg m).2 = buffers m /\ closed (init known cfg m).2 = closed m.
Proof.
  unfold init. destruct (datasources cfg) as [|c cs]; [done|].
  destruct (init_leaves _ (c :: cs) _ _ (staged m)) as [e|m1]; [done|].
  destruct (init_groups (groups cfg) m1) as [e|m2]; [done|].
  destruct (sources m2 !! default_datasource cfg); [|done].
  set (m3 := mkManager (heap m2) _ _ _ _ _ _ _ _).
  pose proof (resolve_all_pools (map snd (map_to_list (sources m3))) m3) as (_ & _ & P3).
  unfold resolveShadows. destruct (resolve_all _ m3) as [st m4]. cbn in P3.
  destruct (status_ok st) eqn:E; cbn; [done|]. done.
Qed.

(**  A failed re-initialisation half-replaces the configuration: it keeps the
    pools, the data sources and the write buffers, but when it fails at the
    shadows the default data source and the settings of auditor, caches and
    interceptors are already the new ones; a client that had a default may have
    none afterwards. *)
Theorem failed_init_moves_default :
  (forall known cfg m, status_ok (init known cfg m).1 = false ->
     pools (init known cfg m).2 = pools m /\ sources (init known cfg m).2 = sources m
     /\ buffers (init known cfg m).2 = buffers m /\ closed (init known cfg m).2 = closed m)
  /\ let m := history any_driver [EInit good_config] in
     let '(st, m') := init any_driver bad_config m in
     status_ok st = false /\ is_Some (getDefault m) /\ getDefault m' = None
     /\ settings m' = Some bad_config.
Proof.
  split; [exact init_failed_keeps|]. vm_compute. split_and!; try done. by eexists.
Qed.

(** A failed [addGroup] leaves its replicas marked: the data source named as a
    replica is from then on treated as one, though no group has it. *)
Lemma failed_addGroup_marks :
  let m := history any_driver [EInit (mkGlobal [leaf "a"; leaf "b"] [] $"a" true)] in
  let '(st, m') := addGroup (plain_group "nowhere") true m in
  status_ok st = false /\ getDataSource $"main" m' = None
  /\ (s_readReplica <$> getDataSource $"b" m) = Some false
  /\ (s_readReplica <$> getDataSource $"b" m') = Some true.
Proof. by vm_compute. Qed.

(** Cursors stay enabled on a configured group when the configuration disables
    them. *)
Lemma init_group_ignores_cursor_setting :
  let cfg := mkGlobal (datasources good_config) (groups good_config) $"main" false in
  let m := history any_driver [EInit cfg] in
  (s_cursors <$> getDataSource $"a" m) = Some false
  /\ (s_cursors <$> getDataSource $"main" m) = Some true.
Proof. by vm_compute. Qed.
End Manager.
