(* ===== verification/Script.v ===== *)
(** * Script: SQL scripts

    Models the script runner of include/sqlconduit/util.h: [splitSqlScript] with
    its three passes (protected regions, compound blocks, cutting at unprotected
    semicolons), [runScriptText], [runScripts] and [runScriptsInDir], and
    [stripDelimiterDirectives].  Executing a statement and reading files and
    directories are arguments.  [split_partition] says where a script is cut,
    [split_statements] that self-contained statements come back one by one,
    [split_block_errors] where the block pass goes wrong, [run_script_exact] what
    is executed and reported. *)

From stdpp Require Import sorting.
From S2P Require Import Prelude Types.

Module Script.

(** ** Protected regions: the first loop of [splitSqlScript] *)

(** [inS], [inD], [inLine] and [inBlock]; at most one is set. *)
Inductive region := RNone | RString | RDouble | RLine | RBlock.

(** [i + 1 < n && sql[i + 1] == x] *)
Definition next_is (d : option ascii) (x : ascii) : bool :=
  match d with Some e => e =c x | None => false end.

(** One iteration at a character and the one after it: whether the character is
    protected, whether the next one is protected and passed over with it, and the
    region after. *)
Definition lex (m : region) (c : ascii) (d : option ascii) : bool * bool * region :=
  match m with
  | RLine => (true, false, if c =c LF then RNone else RLine)
  | RBlock => if (c =c "*"%char) && next_is d "/"%char then (true, true, RNone)
              else (true, false, RBlock)
  | RString => if c =c QUOTE then
                 if next_is d QUOTE then (true, true, RString) else (true, false, RNone)
               else (true, false, RString)
  | RDouble => if c =c DQUOTE then
                 if next_is d DQUOTE then (true, true, RDouble) else (true, false, RNone)
               else (true, false, RDouble)
  | RNone =>
      if (c =c "-"%char) && next_is d "-"%char then (true, true, RLine)
      else if c =c "#"%char then (true, false, RLine)
      else if (c =c "/"%char) && next_is d "*"%char then (true, true, RBlock)
      else if c =c QUOTE then (true, false, RString)
      else if c =c DQUOTE then (true, false, RDouble)
      else (false, false, RNone)
  end.

(** The flags the loop sets from region [m] on, and the region at the end. *)
Fixpoint protect (m : region) (s : str) : list bool * region :=
  match s with
  | [] => ([], m)
  | c :: s1 =>
      let '(flag, two, m') := lex m c (head s1) in
      match s1 with
      | _ :: s2 => if two then let '(l, r) := protect m' s2 in (flag :: true :: l, r)
                   else let '(l, r) := protect m' s1 in (flag :: l, r)
      | [] => ([flag], m')
      end
  end.

(** ** Compound blocks: the second loop *)

Inductive Blk := B_BEGIN | B_CASE | B_IF | B_LOOP | B_WHILE | B_REPEAT.
Inductive word_kind := WOpen (b : Blk) | WEnd | WOther.

Definition isKw (w : str) (kw : string) : bool := map tolower w =s lit kw.

Definition classify (w : str) : word_kind :=
  if isKw w "begin" then WOpen B_BEGIN
  else if isKw w "case" then WOpen B_CASE
  else if isKw w "if" then WOpen B_IF
  else if isKw w "loop" then WOpen B_LOOP
  else if isKw w "while" then WOpen B_WHILE
  else if isKw w "repeat" then WOpen B_REPEAT
  else if isKw w "end" then WEnd
  else WOther.

(** [for (k = from; k <= j && k < n; ++k) prot[k] = 1;] *)
Definition mark (from j : nat) (prot : list bool) : list bool :=
  imap (fun k b => b || ((from <=? k) && (k <=? j))) prot.

Definition is_prot (prot : list bool) (i : nat) : bool := default false (prot !! i).

(** The loop, from position [i]; every iteration advances, so the length of the
    script is enough fuel ([blocks_fuel]). *)
Fixpoint blocks (fuel : nat) (sql : str) (i : nat) (stack : list (Blk * nat)) (prot : list bool)
    : list (Blk * nat) * list bool :=
  match fuel with
  | O => (stack, prot)
  | S f =>
      if length sql <=? i then (stack, prot)
      else if is_prot prot i then blocks f sql (S i) stack prot
      else
        let j := i + span is_ident (drop i sql) in
        if j =? i then blocks f sql (S i) stack prot
        else
          match classify (take (j - i) (drop i sql)) with
          | WOpen b => blocks f sql j ((b, j) :: stack) prot
          | WEnd => match stack with
                    | (_, from) :: stack' => blocks f sql j stack' (mark from j prot)
                    | [] => blocks f sql j [] prot
                    end
          | WOther => blocks f sql j stack prot
          end
  end.

(** ** Cutting: the third loop *)

Fixpoint cut (seg : str) (sql : str) (prot : list bool) : list str :=
  match sql, prot with
  | c :: sql', b :: prot' =>
      if (c =c ";"%char) && negb b then seg :: cut [] sql' prot'
      else cut (seg ++ [c]) sql' prot'
  | _, _ => [seg]
  end.

Fixpoint trim_left (s : str) : str :=
  match s with c :: s' => if isspace c then trim_left s' else s | [] => [] end.
Definition trim (s : str) : str := reverse (trim_left (reverse (trim_left s))).

Definition protected (sql : str) : list bool :=
  snd (blocks (length sql) sql 0 [] (protect RNone sql).1).
Definition segments (sql : str) : list str := cut [] sql (protected sql).
Definition nonempty (s : str) : bool := match s with [] => false | _ => true end.

Definition splitSqlScript (sql : str) : list str :=
  List.filter nonempty (map trim (segments sql)).

(** ** Running scripts *)

Record ScriptOptions := mkScriptOptions { recursive : bool; extension : str; stopOnError : bool }.
Record ScriptResult := mkScriptResult {
  sr_path : str; sr_status : Status; sr_statements : nat; sr_executed : nat }.

Section Run.
Context {W : Type}.
(** [detail::runDdl] on the client, and the file system. *)
Variable runDdl : str -> W -> Status * W.
Variable readSqlFile : str -> option str.

Fixpoint run_statements (stop : bool) (stmts : list str) (done : nat) (lastErr : Status) (w : W)
    : Status * nat * W :=
  match stmts with
  | [] => (lastErr, done, w)
  | s :: rest =>
      let '(st, w) := runDdl s w in
      if status_ok st then run_statements stop rest (S done) lastErr w
      else if stop then (st, done, w)
      else run_statements stop rest done st w
  end.

Definition runScriptText (sql : str) (opts : ScriptOptions) (w : W) : Status * nat * W :=
  run_statements (stopOnError opts) (splitSqlScript sql) 0 status_OK w.

(** The loop of [runScripts]; [perFile] is the list of results so far. *)
Fixpoint run_files (files : list str) (opts : ScriptOptions) (lastErr : Status) (anyFail : bool)
    (perFile : list ScriptResult) (w : W) : Status * list ScriptResult * W :=
  match files with
  | [] => (if anyFail then lastErr else status_OK, perFile, w)
  | f :: rest =>
      match readSqlFile f with
      | None =>
          let st := status_error IoError ($"sqlconduit::util: cannot read file: " ++ f) in
          let perFile := perFile ++ [mkScriptResult f st 0 0] in
          if stopOnError opts then (st, perFile, w)
          else run_files rest opts st true perFile w
      | Some content =>
          let '(st, executed, w) := runScriptText content opts w in
          let perFile := perFile ++ [mkScriptResult f st (length (splitSqlScript content)) executed] in
          if status_ok st then run_files rest opts lastErr anyFail perFile w
          else if stopOnError opts then (st, perFile, w)
          else run_files rest opts st true perFile w
      end
  end.

Definition runScripts (files : list str) (opts : ScriptOptions) (w : W) :=
  run_files files opts status_OK false [] w.

Definition endsWith (s suffix : str) : bool :=
  (length suffix <=? length s) && (drop (length s - length suffix) s =s suffix).

(** [std::string::operator<]: bytes, unsigned. *)
Fixpoint str_leb (a b : str) : bool :=
  match a, b with
  | [], _ => true
  | _ :: _, [] => false
  | x :: a', y :: b' =>
      if (code x <? code y)%N then true else if (code y <? code x)%N then false else str_leb a' b'
  end.
Definition str_le (a b : str) : Prop := str_leb a b = true.
#[global] Instance str_le_dec : RelDecision str_le.
Proof. intros a b. unfold str_le. apply _. Defined.

(** [exists] is whether the directory exists; [walk] lists the regular files
    under it, recursively or not, or the error of the walk. *)
Definition runScriptsInDir (exists_ : bool) (walk : bool -> list str + str) (dir : str)
    (opts : ScriptOptions) (w : W) : Status * list ScriptResult * W :=
  if negb exists_ then
    (status_error IoError ($"sqlconduit::util: directory not found: " ++ dir), [], w)
  else
    let ext := match extension opts with [] => $".sql" | e => e end in
    match walk (recursive opts) with
    | inr msg => (status_error IoError ($"sqlconduit::util: failed to walk directory " ++ dir
                                        ++ $": " ++ msg), [], w)
    | inl paths =>
        runScripts (merge_sort str_le (List.filter (fun p => endsWith p ext) paths)) opts w
    end.
End Run.

(** ** [DELIMITER] directives *)

Definition startsWithFold (s kw : str) : bool :=
  (length kw <=? length s) && (map tolower (take (length kw) s) =s map tolower kw).

(** The lines of a text, each with its newline. *)
Fixpoint lines_with (line s : str) : list str :=
  match s with
  | [] => match line with [] => [] | _ => [line] end
  | c :: s' => if c =c LF then (line ++ [c]) :: lines_with [] s' else lines_with (line ++ [c]) s'
  end.

Definition is_directive (line : str) : bool :=
  let rest := drop (span isspace line) line in
  startsWithFold rest $"DELIMITER"
  && match drop 9 rest with [] => true | c :: _ => isspace c end.

Definition stripDelimiterDirectives (sql : str) : nat * str :=
  let ls := lines_with [] sql in
  let removed := length (List.filter is_directive ls) in
  (removed, if 0 <? removed then concat (List.filter (fun l => negb (is_directive l)) ls) else sql).

(** ** The passes keep the length *)

Lemma protect_cons2 m c d s :
  protect m (c :: d :: s) =
  let '(flag, two, m') := lex m c (Some d) in
  if two then let '(l, r) := protect m' s in (flag :: true :: l, r)
  else let '(l, r) := protect m' (d :: s) in (flag :: l, r).
Proof. done. Qed.

Lemma protect_length m s : length (protect m s).1 = length s.
Proof.
  revert m; induction s as [|c|c d s IH1 IH2] using str_two_ind; intros m; [done| |].
  - cbn. by destruct (lex m c None) as [[f t] m'].
  - rewrite protect_cons2. destruct (lex m c (Some d)) as [[f t] m'].
    specialize (IH1 m'). specialize (IH2 m'). destruct t.
    + destruct (protect m' s). cbn in *. lia.
    + destruct (protect m' (d :: s)). cbn in *. lia.
Qed.

Lemma mark_length from j p : length (mark from j p) = length p.
Proof. apply length_imap. Qed.

Lemma blocks_length f sql i st p : length (blocks f sql i st p).2 = length p.
Proof.
  revert i st p; induction f as [|f IH]; intros i st p; [done|]. cbn.
  repeat case_match; try done; rewrite IH; try done. apply mark_length.
Qed.

Lemma protected_length sql : length (protected sql) = length sql.
Proof. unfold protected. by rewrite blocks_length, protect_length. Qed.

(** ** The block loop terminates *)

Lemma span_drop_le i (s : str) : i <= length s -> i + span is_ident (drop i s) <= length s.
Proof. intros H. pose proof (span_le is_ident (drop i s)) as Hs. rewrite length_drop in Hs. lia. Qed.

(** Any fuel from the number of characters left on gives the same result. *)
Lemma blocks_fuel f g sql i st p :
  length sql - i <= f -> length sql - i <= g -> blocks f sql i st p = blocks g sql i st p.
Proof.
  revert g i st p; induction f as [|f IH]; intros g i st p Hf Hg.
  { destruct g as [|g]; [done|]. cbn. destruct (Nat.leb_spec (length sql) i); [done|lia]. }
  destruct g as [|g]. { cbn. destruct (Nat.leb_spec (length sql) i); [done|lia]. }
  cbn. destruct (Nat.leb_spec (length sql) i); [done|].
  destruct (is_prot p i); [apply IH; lia|].
  destruct (Nat.eqb_spec (i + span is_ident (drop i sql)) i) as [|Hj]; [apply IH; lia|].
  destruct (classify _); [apply IH; lia| |apply IH; lia].
  destruct st as [|[b from] st]; apply IH; lia.
Qed.

(** ** Cutting *)

Definition break_at (sql : str) (prot : list bool) (k : nat) : Prop :=
  sql !! k = Some ";"%char /\ prot !! k = Some false.

Fixpoint breaks (sql : str) (prot : list bool) : nat :=
  match sql, prot with
  | c :: sql', b :: prot' => (if (c =c ";"%char) && negb b then 1 else 0) + breaks sql' prot'
  | _, _ => 0
  end.

Lemma cut_ne seg s p : cut seg s p <> [].
Proof. revert seg p; induction s as [|c s IH]; intros seg [|b p]; cbn; try done. by case_match. Qed.

Lemma cut_length seg s p : length (cut seg s p) = S (breaks s p).
Proof.
  revert seg p; induction s as [|c s IH]; intros seg [|b p]; cbn; try done.
  case_match; cbn; by rewrite IH.
Qed.

Lemma join_cons sep (x : str) l : l <> [] -> join sep (x :: l) = x ++ sep ++ join sep l.
Proof. by destruct l. Qed.

Lemma cut_join seg s p : length p = length s -> join [";"%char] (cut seg s p) = seg ++ s.
Proof.
  revert seg p; induction s as [|c s IH]; intros seg [|b p] Hl; cbn [cut]; try done.
  { cbn. by rewrite app_nil_r. }
  destruct ((c =c ";"%char) && negb b) eqn:E.
  - apply andb_prop in E as [->%chr_eqb_true _]. rewrite join_cons by apply cut_ne.
    rewrite IH by (cbn in Hl; lia). done.
  - rewrite IH by (cbn in Hl; lia). by rewrite <- app_assoc.
Qed.

(** The end of the [i]-th segment is a break. *)
Lemma cut_break seg s p i :
  length p = length s -> S i < length (cut seg s p) ->
  exists k, length (join [";"%char] (take (S i) (cut seg s p))) = length seg + k /\ break_at s p k.
Proof.
  revert seg p i; induction s as [|c s IH]; intros seg [|b p] i Hl; cbn [cut]; try (cbn; lia).
  destruct ((c =c ";"%char) && negb b) eqn:E; intros Hi.
  - apply andb_prop in E as [->%chr_eqb_true Hb%negb_true_iff]. subst b. cbn [length] in Hi.
    destruct i as [|i].
    + exists 0. rewrite firstn_cons, take_0. cbn [join]. split; [lia|]. split; done.
    + destruct (IH [] p i) as (k & Hk & H1 & H2); [cbn in Hl; lia|lia|]. exists (S k).
      rewrite firstn_cons, join_cons.
      * rewrite !length_app, Hk. cbn. split; [lia|]. by split.
      * intros H%(f_equal length). rewrite length_take, cut_length in H. cbn [length] in H. lia.
  - destruct (IH (seg ++ [c]) p i) as (k & Hk & H1 & H2); [cbn in Hl; lia|done|].
    exists (S k). rewrite Hk, length_app. cbn. split; [lia|]. by split.
Qed.

Lemma cut_app seg x y p q :
  length p = length x ->
  cut seg (x ++ y) (p ++ q) =
  removelast (cut seg x p) ++ cut (List.last (cut seg x p) []) y q.
Proof.
  revert seg p; induction x as [|c x IH]; intros seg [|b p] Hl; cbn [app cut]; try done.
  destruct ((c =c ";"%char) && negb b); [|apply IH; cbn in Hl; lia].
  rewrite IH by (cbn in Hl; lia). pose proof (cut_ne [] x p) as Hne.
  cbn [removelast List.last]. by destruct (cut [] x p).
Qed.

(**  A script is cut exactly at its unprotected semicolons: the segments,
    joined by semicolons, give back the script; there is one more of them than
    unprotected semicolons and each ends at one; the statements are the segments
    without surrounding space, in order, empty ones left out. *)
Theorem split_partition (sql : str) :
  let segs := segments sql in
  join [";"%char] segs = sql
  /\ length segs = S (breaks sql (protected sql))
  /\ (forall i, S i < length segs ->
        break_at sql (protected sql) (length (join [";"%char] (take (S i) segs))))
  /\ splitSqlScript sql = List.filter nonempty (map trim segs).
Proof.
  cbv zeta. unfold segments. split_and!; [|apply cut_length| |done].
  - by rewrite cut_join by apply protected_length.
  - intros i Hi. destruct (cut_break [] sql (protected sql) i) as (k & -> & Hk);
      [apply protected_length|done|done].
Qed.

(** ** Composition at a semicolon *)

Abbreviation SEMI := (";"%char).

Lemma lex_semi_next m c : lex m c (Some SEMI) = lex m c None.
Proof.
  unfold lex, next_is.
  change (SEMI =c "-"%char) with false. change (SEMI =c "*"%char) with false.
  change (SEMI =c "/"%char) with false. change (SEMI =c QUOTE) with false.
  change (SEMI =c DQUOTE) with false. done.
Qed.

Lemma lex_semi m d : lex m SEMI d = lex m SEMI None.
Proof. by destruct m. Qed.

Lemma lex_one m c : (lex m c None).1.2 = false.
Proof. unfold lex, next_is. rewrite !andb_false_r. by destruct m; repeat case_match. Qed.

Lemma protect_semi m b :
  protect m (SEMI :: b) =
  let '(f, _, m') := lex m SEMI None in let '(l, r) := protect m' b in (f :: l, r).
Proof.
  pose proof (lex_one m SEMI) as H1. destruct b as [|d b].
  - cbn [protect head]. by destruct (lex m SEMI None) as [[f t] m'].
  - rewrite protect_cons2, lex_semi. destruct (lex m SEMI None) as [[f t] m']. cbn in H1. by subst t.
Qed.

Lemma protect_app m a b :
  protect m ((a ++ [SEMI]) ++ b) =
  let '(l, r) := protect m (a ++ [SEMI]) in let '(l', r') := protect r b in (l ++ l', r').
Proof.
  revert m; induction a as [|c|c d a IH1 IH2] using str_two_ind; intros m.
  - cbn [app]. rewrite !protect_semi. destruct (lex m SEMI None) as [[f t] m'].
    destruct (protect m' b) as [l r] eqn:E. cbn. by rewrite E.
  - cbn [app]. rewrite !protect_cons2, !lex_semi_next. pose proof (lex_one m c) as H1.
    destruct (lex m c None) as [[f t] m']. cbn in H1. subst t. rewrite !protect_semi.
    destruct (lex m' SEMI None) as [[f2 t2] m2]. destruct (protect m2 b) as [l r] eqn:E. cbn. by rewrite E.
  - cbn [app] in *. rewrite !protect_cons2. destruct (lex m c (Some d)) as [[f t] m'].
    destruct t.
    + rewrite IH1. destruct (protect m' (a ++ [SEMI])) as [l r]. by destruct (protect r b).
    + rewrite IH2. destruct (protect m' (d :: a ++ [SEMI])) as [l r]. by destruct (protect r b).
Qed.

Lemma mark_lookup from j p k :
  mark from j p !! k = (fun b => b || ((from <=? k) && (k <=? j))) <$> p !! k.
Proof. apply list_lookup_imap. Qed.

Lemma mark_app from j p q : j < length p -> mark from j (p ++ q) = mark from j p ++ q.
Proof.
  intros Hj. apply list_eq. intros k. rewrite mark_lookup. destruct (decide (k < length p)).
  - rewrite !lookup_app_l by (rewrite ?mark_length; lia). by rewrite mark_lookup.
  - rewrite !lookup_app_r by (rewrite ?mark_length; lia). rewrite mark_length.
    destruct (q !! (k - length p)) as [b|]; [|done]. cbn.
    rewrite (proj2 (Nat.leb_gt k j)) by lia. by rewrite andb_false_r, orb_false_r.
Qed.

Lemma mark_shift from j p q o :
  length p = o -> mark (o + from) (o + j) (p ++ q) = p ++ mark from j q.
Proof.
  intros Ho. apply list_eq. intros k. rewrite mark_lookup. destruct (decide (k < length p)).
  - rewrite !lookup_app_l by lia. destruct (p !! k) as [b|]; [|done]. cbn.
    rewrite (proj2 (Nat.leb_gt (o + from) k)) by lia. by rewrite orb_false_r.
  - rewrite !lookup_app_r by lia. rewrite mark_lookup. destruct (q !! (k - length p)) as [b|]; [|done].
    cbn. do 3 f_equal; apply eq_iff_eq_true; rewrite !Nat.leb_le; lia.
Qed.

(** What follows a semicolon does not change the block pass before it. *)
Lemma blocks_before f a b i st p q :
  let sql := (a ++ [SEMI]) ++ b in
  length p = S (length a) -> i <= S (length a) -> S (length a) - i <= f ->
  blocks (length sql) sql i st (p ++ q) =
  let '(st', p') := blocks f (a ++ [SEMI]) i st p in
  blocks (length sql) sql (S (length a)) st' (p' ++ q).
Proof.
  cbv zeta. set (a1 := a ++ [SEMI]). set (sql := a1 ++ b).
  assert (Hn : length a1 = S (length a)) by (unfold a1; rewrite length_app; cbn; lia).
  assert (Hs : length sql = length a1 + length b) by apply length_app.
  revert i st p; induction f as [|f IH]; intros i st p Hp Hi Hf.
  { cbn. by replace (S (length a)) with i by lia. }
  cbn [blocks]. destruct (Nat.leb_spec (length a1) i).
  { by replace (S (length a)) with i by lia. }
  rewrite (blocks_fuel _ (S (length sql))) by lia. cbn [blocks].
  rewrite (proj2 (Nat.leb_gt (length sql) i)) by lia.
  assert (Hpr : is_prot (p ++ q) i = is_prot p i)
    by (unfold is_prot; by rewrite lookup_app_l by lia).
  rewrite Hpr. destruct (is_prot p i); [apply IH; lia|].
  assert (Hd : drop i sql = drop i a ++ SEMI :: b).
  { unfold sql, a1. rewrite <- app_assoc. rewrite drop_app_le by lia. done. }
  assert (Hd1 : drop i a1 = drop i a ++ [SEMI]) by (unfold a1; rewrite drop_app_le by lia; done).
  assert (Hsp : forall r, span is_ident (drop i a ++ SEMI :: r) = span is_ident (drop i a)).
  { intros r. generalize (drop i a). intros t. induction t as [|c t IHt]; [done|]. cbn.
    by rewrite IHt. }
  rewrite Hd, Hd1, !Hsp. pose proof (span_drop_le i a ltac:(lia)) as Hle.
  set (j := i + span is_ident (drop i a)) in *.
  destruct (Nat.eqb_spec j i); [apply IH; lia|].
  assert (Ht : forall r, take (j - i) (drop i a ++ SEMI :: r) = take (j - i) (drop i a))
    by (intros r; rewrite take_app_le; [done|rewrite length_drop; lia]).
  rewrite !Ht. destruct (classify _); [apply IH; lia| |apply IH; lia].
  destruct st as [|[w from] st]; [apply IH; lia|].
  rewrite mark_app by lia. apply IH; [by rewrite mark_length|lia|lia].
Qed.

Definition shift (o : nat) (st : list (Blk * nat)) : list (Blk * nat) := prod_map id (Nat.add o) <$> st.

(** The block pass over what follows a prefix, once no block is open. *)
Lemma blocks_after f a b i st p q :
  length p = length a -> length b - i <= f ->
  blocks (length a + f) (a ++ b) (length a + i) (shift (length a) st) (p ++ q) =
  let '(st', q') := blocks f b i st q in (shift (length a) st', p ++ q').
Proof.
  intros Hp. revert i st q; induction f as [|f IH]; intros i st q Hf.
  { rewrite (blocks_fuel _ 0) by (rewrite length_app; lia). done. }
  rewrite (blocks_fuel _ (S (length a + f))) by (rewrite length_app; lia). cbn [blocks].
  rewrite length_app. replace (length a + length b <=? length a + i) with (length b <=? i)
    by (apply eq_iff_eq_true; rewrite !Nat.leb_le; lia).
  destruct (Nat.leb_spec (length b) i); [done|].
  assert (Hpr : is_prot (p ++ q) (length a + i) = is_prot q i).
  { unfold is_prot. rewrite lookup_app_r by lia. do 2 f_equal. lia. }
  rewrite Hpr, <- !Nat.add_succ_r. destruct (is_prot q i); [apply IH; lia|].
  rewrite !drop_app_add' by done. set (k := span is_ident (drop i b)).
  replace (length a + i + k =? length a + i) with (i + k =? i)
    by (apply eq_iff_eq_true; rewrite !Nat.eqb_eq; lia).
  destruct (Nat.eqb_spec (i + k) i); [apply IH; lia|].
  replace (length a + i + k - (length a + i)) with (i + k - i) by lia.
  rewrite <- Nat.add_assoc.
  destruct (classify _) as [w| |]; [apply (IH (i + k) ((w, i + k) :: st)); lia| |apply IH; lia].
  destruct st as [|[w from] st]; cbn [shift fmap list_fmap]; [apply (IH (i + k) []); lia|].
  cbn [prod_map fst snd id]. rewrite mark_shift by done. apply IH. lia.
Qed.

(** A statement that stands on its own: scanned with its semicolon it leaves no
    region and no block open, and its semicolon is the only place it is cut. *)
Record standalone (a : str) : Prop := {
  sa_region : (protect RNone (a ++ [SEMI])).2 = RNone;
  sa_blocks : (blocks (S (length a)) (a ++ [SEMI]) 0 [] (protect RNone (a ++ [SEMI])).1).1 = [];
  sa_segments : segments (a ++ [SEMI]) = [a; []]
}.

Lemma segments_after a b : standalone a -> segments ((a ++ [SEMI]) ++ b) = a :: segments b.
Proof.
  intros [Hr Hb Hs]. assert (Hl : length (a ++ [SEMI]) = S (length a)) by (rewrite length_app; cbn; lia).
  unfold segments, protected in *. rewrite protect_app.
  pose proof (protect_length RNone (a ++ [SEMI])) as Hpl. rewrite Hl in Hs.
  destruct (protect RNone (a ++ [SEMI])) as [p r]. cbn [fst snd] in Hr, Hpl, Hb, Hs. subst r.
  destruct (protect RNone b) as [q r] eqn:Eb. cbn [fst].
  rewrite (blocks_before (S (length a))) by (rewrite ?Hpl; lia).
  pose proof (blocks_length (S (length a)) (a ++ [SEMI]) 0 [] p) as Hp1.
  destruct (blocks (S (length a)) (a ++ [SEMI]) 0 [] p) as [st p1]. cbn [fst snd] in Hb, Hp1, Hs. subst st.
  pose proof (blocks_after (length b) (a ++ [SEMI]) b 0 [] p1 q ltac:(lia) ltac:(lia)) as Ha.
  rewrite Nat.add_0_r, Hl in Ha. cbn [shift fmap list_fmap] in Ha.
  rewrite length_app, Hl, Ha. destruct (blocks (length b) b 0 [] q) as [st q1]. cbn [snd].
  rewrite cut_app by lia. by rewrite Hs.
Qed.

(**  Statements come back one by one: when each of the statements [l] stands
    on its own (its literals, comments and blocks are closed and hold every inner
    semicolon) and is not blank, a script of them, whatever follows, is split into
    exactly these statements, then into the statements of what follows. *)
Theorem split_statements (l : list str) (rest : str) :
  Forall (fun a => standalone a /\ trim a <> []) l ->
  splitSqlScript (concat (map (fun a => a ++ [SEMI]) l) ++ rest) = map trim l ++ splitSqlScript rest.
Proof.
  intros H. induction H as [|a l [Ha Ht] _ IH]; [done|]. cbn [map concat]. rewrite <- app_assoc.
  unfold splitSqlScript in *. rewrite segments_after by done. cbn [map List.filter app].
  rewrite IH. by destruct (trim a).
Qed.

Definition proc_text : str :=
  $"CREATE PROCEDURE p() BEGIN SELECT 'a;b'; UPDATE t SET x = CASE WHEN y THEN 1 ELSE 2 END; END ".

Lemma split_statements_witness :
  splitSqlScript ($"SELECT 1 /* ; */;" ++ proc_text ++ $"; SELECT 2")
  = [$"SELECT 1 /* ; */"; trim proc_text; $"SELECT 2"].
Proof.
  apply (split_statements [$"SELECT 1 /* ; */"; proc_text] $" SELECT 2").
  repeat constructor; by vm_compute.
Defined.

(**  Where the block pass goes wrong: a semicolon right after [END] is taken
    into the block, so the next statement is sent together with the one before;
    and the [IF] of [END IF] opens a block of its own, so a routine body is cut
    in two at the statements before its first [IF]. *)
Theorem split_block_errors :
  splitSqlScript $"SELECT CASE WHEN a THEN 1 END; SELECT 2"
    = [$"SELECT CASE WHEN a THEN 1 END; SELECT 2"]
  /\ splitSqlScript $"CREATE PROCEDURE p() BEGIN SELECT 1; IF a THEN SELECT 2; END IF; SELECT 3; END"
    = [$"CREATE PROCEDURE p() BEGIN SELECT 1"; $"IF a THEN SELECT 2; END IF; SELECT 3; END"].
Proof. by vm_compute. Qed.

(** ** Running *)

Section RunTheorems.
Context {W : Type}.
Variable runDdl : str -> W -> Status * W.

(** The statuses and worlds of running statements one after the other. *)
Fixpoint trace (stmts : list str) (w : W) : list Status * W :=
  match stmts with
  | [] => ([], w)
  | s :: rest => let '(st, w1) := runDdl s w in
                 let '(l, w2) := trace rest w1 in (st :: l, w2)
  end.

Definition failed (st : Status) : bool := negb (status_ok st).
Definition successes (l : list Status) : nat := length (List.filter status_ok l).

Lemma last_default {A} (x d : A) l : List.last (x :: l) d = List.last l x.
Proof. revert x; induction l as [|y l IH]; intros x; [done|]. cbn in *. destruct l; [done|]. apply IH. Qed.

Lemma run_statements_all stmts done lastErr w :
  run_statements runDdl false stmts done lastErr w =
  let '(l, w') := trace stmts w in
  (List.last (List.filter failed l) lastErr, done + successes l, w').
Proof.
  revert done lastErr w; induction stmts as [|s stmts IH]; intros done lastErr w; cbn.
  { by rewrite Nat.add_0_r. }
  destruct (runDdl s w) as [st w1]. destruct (status_ok st) eqn:E; rewrite IH;
    destruct (trace stmts w1) as [l w2]; unfold successes, failed; cbn [List.filter length]; rewrite E; cbn [negb length].
  - by rewrite Nat.add_succ_r.
  - by rewrite last_default.
Qed.

Lemma run_statements_stop stmts done lastErr w :
  let '(r, n, w') := run_statements runDdl true stmts done lastErr w in
  exists k, k <= length stmts /\
    let '(l, w1) := trace (take k stmts) w in
    w' = w1 /\ (
      (k = length stmts /\ r = lastErr /\ n = done + k /\ forallb status_ok l = true)
      \/ (exists l0, l = l0 ++ [r] /\ status_ok r = false /\ n = done + length l0
          /\ forallb status_ok l0 = true)).
Proof.
  revert done w; induction stmts as [|s stmts IH]; intros done w; cbn.
  { exists 0. cbn. split; [lia|]. split; [done|]. left. split_and!; done || lia. }
  destruct (runDdl s w) as [st w1] eqn:Es. destruct (status_ok st) eqn:E.
  - specialize (IH (S done) w1). destruct (run_statements runDdl true stmts (S done) lastErr w1) as [[r n] w'].
    destruct IH as (k & Hk & H). exists (S k). split; [lia|]. cbn. rewrite Es.
    destruct (trace (take k stmts) w1) as [l w2]. destruct H as [-> H]. split; [done|].
    destruct H as [(-> & -> & -> & Hl)|(l0 & -> & Hr & -> & Hl)].
    + left. split_and!; [done|done|lia|]. cbn. by rewrite E.
    + right. exists (st :: l0). split_and!; [done|done|cbn; lia|]. cbn. by rewrite E.
  - exists 1. split; [lia|]. cbn. rewrite Es. split; [by destruct stmts|]. right. exists []. cbn.
    split_and!; [by destruct stmts|done|lia|done].
Qed.

(**  Running a script executes its statements in order and reports what
    happened: without [stopOnError] all of them are executed, the count is the
    number that succeeded and the result the last failure, or OK; with it the
    statements run are a prefix, all but the last succeeded, and the result is
    the failure it stopped at, with the count of those before. *)
Theorem run_script_exact (sql : str) (opts : ScriptOptions) (w : W) :
  let '(r, n, w') := runScriptText runDdl sql opts w in
  let stmts := splitSqlScript sql in
  if stopOnError opts then
    exists k, k <= length stmts /\
      let '(l, w1) := trace (take k stmts) w in
      w' = w1 /\ (
        (k = length stmts /\ r = status_OK /\ n = k /\ forallb status_ok l = true)
        \/ (exists l0, l = l0 ++ [r] /\ status_ok r = false /\ n = length l0
            /\ forallb status_ok l0 = true))
  else
    let '(l, w1) := trace stmts w in
    w' = w1 /\ n = successes l /\ r = List.last (List.filter failed l) status_OK.
Proof.
  unfold runScriptText. destruct (stopOnError opts).
  - exact (run_statements_stop (splitSqlScript sql) 0 status_OK w).
  - rewrite run_statements_all. by destruct (trace (splitSqlScript sql) w).
Qed.
End RunTheorems.
End Script.
