(* ===== verification/Routines.v ===== *)
(** * Routines: stored routines and indexes

    Models the statement makers of include/sqlconduit/util.h: [makeCallSql],
    [makeCallPlan], [readOutParams], [readOutParamsFromRow],
    [makeDropRoutineSql], [makeCreateIndexSql], [makeDropIndexSql],
    [dialectFromDriverType], [validateCreateRoutine], [ExecScope] and the two
    [call] functions over a plan.  [call_plan_binds] says that a plan's texts and
    parameters fit, [mysql_out_params] that OUT parameters come back in order,
    [call_text_defects] where the texts are wrong. *)

From S2P Require Import Prelude Types Quoting SqlAnalyze SqlBuilder Context.

Module Routines.

Inductive RoutineKind := Function_ | Procedure.
Record RoutineRef := mkRef { r_name : str; r_kind : RoutineKind; r_dataSource : str }.
Inductive ParamDirection := In | Out | InOut.
Record CallParam := mkParam { value : Value; direction : ParamDirection; refCursor : bool }.

Definition is_in (p : CallParam) : bool := match direction p with In => true | _ => false end.
Definition is_inout (p : CallParam) : bool := match direction p with InOut => true | _ => false end.
Definition is_function (r : RoutineRef) : bool := match r_kind r with Function_ => true | _ => false end.

Definition hasOutParams (ps : list CallParam) : bool := existsb (fun p => negb (is_in p)) ps.
Definition outVarName (index : nat) : str := $"sqlconduit_out_" ++ nat_string index.
Definition unsupported (msg : str) : Status := status_error NotSupported msg.
Definition badSpec (msg : str) : Status := status_error QueryError msg.

Definition dialectName (d : Dialect) : str :=
  match d with
  | DMySQL => $"mysql" | DPostgres => $"postgres" | DSqlServer => $"sqlserver" | DOracle => $"oracle"
  | DAuto => $"auto"
  end.

Definition contains (t p : str) : bool := match find_sub p t with Some _ => true | None => false end.

Definition dialectFromDriverType (driverType : str) : Dialect :=
  let t := map tolower driverType in
  if contains t $"mysql" || contains t $"maria" then DMySQL
  else if contains t $"postgres" || contains t $"pgsql" || (t =s $"pg") then DPostgres
  else if contains t $"oracle" || (t =s $"ora") || (t =s $"oci") then DOracle
  else if contains t $"odbc" || contains t $"sqlserver" || contains t $"mssql" then DSqlServer
  else DAuto.

Definition csvArgs (n : nat) : str := join $", " (replicate n $"?").
Definition parenArgs (n : nat) : str := $"(" ++ csvArgs n ++ $")".

Definition empty_name : Status := badSpec $"sqlconduit::util: routine name is empty".
Definition no_dialect (r : RoutineRef) : Status :=
  unsupported ($"sqlconduit::util: cannot detect dialect for datasource '" ++ r_dataSource r
               ++ $"'; pass Dialect explicitly").
Definition pg_procedure_rows : Status :=
  unsupported $"sqlconduit::util: postgres procedures cannot return a result set; use a function with makeCallSql".

(** SQL Server names are qualified, not quoted. *)
Definition qualified (r : RoutineRef) : str :=
  if contains (r_name r) $"." then r_name r else $"dbo." ++ r_name r.

Definition sqlserver_call (r : RoutineRef) (n : nat) (returnsRows : bool) : str :=
  if is_function r then $"SELECT " ++ qualified r ++ parenArgs n
  else if returnsRows then $"{CALL " ++ qualified r ++ parenArgs n ++ $"}"
  else $"EXEC " ++ qualified r ++ (if n =? 0 then [] else $" " ++ csvArgs n).

Definition makeCallSql (r : RoutineRef) (n : nat) (d : Dialect) (returnsRows : bool) : Status + str :=
  match r_name r with
  | [] => inl empty_name
  | _ =>
      let name := quoteIdent (r_name r) d in
      match d with
      | DAuto => inl (no_dialect r)
      | DMySQL => inr ($"CALL " ++ name ++ parenArgs n)
      | DPostgres =>
          if is_function r then
            inr ((if returnsRows then $"SELECT * FROM " else $"SELECT ") ++ name ++ parenArgs n)
          else if returnsRows then inl pg_procedure_rows
          else inr ($"CALL " ++ name ++ parenArgs n)
      | DSqlServer => inr (sqlserver_call r n returnsRows)
      | DOracle =>
          if is_function r then
            inr (if returnsRows then $"SELECT * FROM TABLE(" ++ name ++ parenArgs n ++ $")"
                 else $"SELECT " ++ name ++ parenArgs n ++ $" FROM DUAL")
          else if returnsRows then
            inl (unsupported $"sqlconduit::util: oracle procedures can only return rows through a REF CURSOR OUT parameter, which makeCallSql cannot bind")
          else inr ($"BEGIN " ++ name ++ parenArgs n ++ $"; END;")
      end
  end.

Record CallPlan := mkPlan {
  preSql : str; preParams : Params; callSql : str; callParams : Params; fetchSql : str;
  outColumns : list str; outFromRowCount : nat; needsSameConnection : bool
}.

(** The state of the loop over the parameters: the call's arguments and
    parameters, the assignments before the call and theirs, the output columns
    and the number of output values in the row. *)
Record args_state := mkArgs {
  args : list str; a_call : Params; setParts : list str; a_pre : Params;
  a_out : list str; a_rows : nat }.

Definition plan_param (d : Dialect) (i : nat) (p : CallParam) (a : args_state) : args_state :=
  if is_in p then
    mkArgs (args a ++ [$"?"]) (a_call a ++ [value p]) (setParts a) (a_pre a) (a_out a) (a_rows a)
  else if dialect_eqb d DPostgres then
    let a := if is_inout p
             then mkArgs (args a ++ [$"?"]) (a_call a ++ [value p]) (setParts a) (a_pre a) (a_out a) (a_rows a)
             else a in
    mkArgs (args a) (a_call a) (setParts a) (a_pre a) (a_out a) (S (a_rows a))
  else
    let var := $"@" ++ outVarName i in
    mkArgs (args a ++ [var]) (a_call a)
      (setParts a ++ (if is_inout p then [var ++ $" = ?"] else []))
      (a_pre a ++ (if is_inout p then [value p] else []))
      (a_out a ++ [outVarName i]) (a_rows a).

Fixpoint plan_params (d : Dialect) (i : nat) (ps : list CallParam) (a : args_state) : args_state :=
  match ps with
  | [] => a
  | p :: ps' => plan_params d (S i) ps' (plan_param d i p a)
  end.

Definition column_text (c : str) : str := $"@" ++ c ++ $" AS " ++ c.

(** The refusals of [makeCallPlan], in order. *)
Definition plan_refusal (r : RoutineRef) (ps : list CallParam) (d : Dialect) (returnsRows : bool)
    : option Status :=
  let hasOut := hasOutParams ps in
  if bool_decide (r_name r = []) then Some empty_name
  else if dialect_eqb d DAuto then Some (no_dialect r)
  else if dialect_eqb d DSqlServer && hasOut then
    Some (unsupported $"sqlconduit::util: sqlserver OUT/INOUT parameters need DECLARE @var <type> before EXEC ... OUTPUT, and Client cannot infer the type; return the values as a result set instead")
  else if dialect_eqb d DOracle && hasOut then
    Some (unsupported $"sqlconduit::util: Oracle output binds are executed through Client::call()/util::call(), not represented by CallPlan")
  else if dialect_eqb d DOracle && negb (is_function r) && returnsRows then
    Some (unsupported $"sqlconduit::util: Oracle procedure result sets require a REF CURSOR CallParam and Client::call()/util::call()")
  else if dialect_eqb d DPostgres && negb (is_function r) && returnsRows then Some pg_procedure_rows
  else if dialect_eqb d DPostgres && negb (is_function r) && hasOut then
    Some (unsupported $"sqlconduit::util: postgres procedures do not hand OUT/INOUT parameters back to the client; use a function with OUT parameters")
  else if dialect_eqb d DPostgres && is_function r && hasOut && negb returnsRows then
    Some (unsupported $"sqlconduit::util: postgres functions with OUT/INOUT parameters must be called with returnsRows=true (SELECT * FROM f(...))")
  else None.

Definition makeCallPlan (r : RoutineRef) (ps : list CallParam) (d : Dialect) (returnsRows : bool)
    : Status + CallPlan :=
  match plan_refusal r ps d returnsRows with
  | Some st => inl st
  | None =>
      let name := quoteIdent (r_name r) d in
      let a := plan_params d 0 ps (mkArgs [] [] [] [] [] 0) in
      let n := length (args a) in
      let plan call pre fetch same :=
        inr (mkPlan pre (a_pre a) call (a_call a) fetch (a_out a) (a_rows a) same) in
      match d with
      | DMySQL =>
          plan ($"CALL " ++ name ++ $"(" ++ join $", " (args a) ++ $")")
            (match setParts a with [] => [] | l => $"SET " ++ join $", " l end)
            (match a_out a with [] => [] | l => $"SELECT " ++ join $", " (map column_text l) end)
            (match a_out a with [] => false | _ => true end)
      | DPostgres =>
          plan ($"SELECT * FROM " ++ name ++ $"(" ++ join $", " (args a) ++ $")") [] [] false
      | DSqlServer => plan (sqlserver_call r n returnsRows) [] [] false
      | DOracle =>
          plan (if is_function r then $"SELECT " ++ name ++ parenArgs n ++ $" FROM DUAL"
                else $"BEGIN " ++ name ++ parenArgs n ++ $"; END;") [] [] false
      | DAuto => inl (unsupported $"sqlconduit::util: unknown dialect")
      end
  end.

(** ** Output parameters *)

Fixpoint read_columns (r : Row) (i : nat) (names : list str) (out : list Value) : Status * list Value :=
  match names with
  | [] => (status_OK, out)
  | n :: rest =>
      if row_has n r then read_columns r (S i) rest (out ++ [row_at n r])
      else match row_data r !! i with
           | Some (_, v) => read_columns r (S i) rest (out ++ [v])
           | None => (status_error QueryError ($"sqlconduit::util: OUT parameter column '" ++ n
                                               ++ $"' is missing"), out)
           end
  end.

Definition readOutParams (rs : ResultSet) (names : list str) : Status * list Value :=
  match names with
  | [] => (status_OK, [])
  | _ => match rows rs with
         | [] => (status_error QueryError $"sqlconduit::util: OUT parameter fetch returned no row", [])
         | r :: _ => read_columns r 0 names []
         end
  end.

Definition readOutParamsFromRow (rs : ResultSet) (count : nat) : Status * list Value :=
  if count =? 0 then (status_OK, [])
  else match rows rs with
       | [] => (status_error QueryError $"sqlconduit::util: routine returned no row to read OUT/INOUT parameters from", [])
       | r :: _ =>
           if length (fields rs) <? count then
             (status_error QueryError ($"sqlconduit::util: routine returned " ++ nat_string (length (fields rs))
                ++ $" column(s), expected at least " ++ nat_string count ++ $" for OUT/INOUT parameters"), [])
           else (status_OK, map (fun f => row_at f r) (take count (fields rs)))
       end.

(** ** Dropping routines, creating and dropping indexes *)

Definition makeDropRoutineSql (r : RoutineRef) (ifExists cascade : bool) (d : Dialect) : Status + str :=
  match r_name r with
  | [] => inl empty_name
  | _ =>
      if dialect_eqb d DAuto then inl (no_dialect r)
      else if cascade && negb (dialect_eqb d DPostgres) then
        inl (unsupported ($"sqlconduit::util: DROP ... CASCADE is only supported by postgres (dialect="
                          ++ dialectName d ++ $")"))
      else
        let s := $"DROP " ++ (if is_function r then $"FUNCTION" else $"PROCEDURE")
                 ++ (if ifExists && negb (dialect_eqb d DOracle) then $" IF EXISTS" else [])
                 ++ $" " ++ quoteIdent (r_name r) d ++ (if cascade then $" CASCADE" else []) in
        inr (if ifExists && dialect_eqb d DOracle
             then $"BEGIN EXECUTE IMMEDIATE " ++ quoteStringLiteral s
                  ++ $"; EXCEPTION WHEN OTHERS THEN IF SQLCODE != -4043 THEN RAISE; END IF; END;"
             else s)
  end.

Record IndexSpec := mkIndex {
  ix_table : str; ix_name : str; ix_columns : list str; ix_unique : bool; ix_ifNotExists : bool;
  ix_concurrent : bool; ix_using : str; ix_options : str }.

Definition only_postgres (what : str) (d : Dialect) : Status :=
  unsupported ($"sqlconduit::util: CREATE INDEX " ++ what ++ $" is only supported by postgres (dialect="
               ++ dialectName d ++ $")").
Definition no_dialect_index : Status :=
  unsupported $"sqlconduit::util: cannot detect dialect for datasource; pass Dialect explicitly".

Definition makeCreateIndexSql (s : IndexSpec) (d : Dialect) : Status + str :=
  if dialect_eqb d DAuto then inl no_dialect_index
  else if bool_decide (ix_table s = []) || bool_decide (ix_name s = []) then
    inl (badSpec $"sqlconduit::util: index spec requires both table and name")
  else if bool_decide (ix_columns s = []) then
    inl (badSpec $"sqlconduit::util: index spec requires at least one column")
  else if ix_ifNotExists s && negb (dialect_eqb d DPostgres) then inl (only_postgres $"IF NOT EXISTS" d)
  else if ix_concurrent s && negb (dialect_eqb d DPostgres) then inl (only_postgres $"CONCURRENTLY" d)
  else if negb (bool_decide (ix_using s = [])) && (dialect_eqb d DSqlServer || dialect_eqb d DOracle) then
    inl (unsupported ($"sqlconduit::util: dialect=" ++ dialectName d ++ $" has no USING clause for CREATE INDEX"))
  else
    let method := if bool_decide (ix_using s = []) then [] else $" USING " ++ ix_using s in
    inr ($"CREATE " ++ (if ix_unique s then $"UNIQUE " else []) ++ $"INDEX "
         ++ (if ix_concurrent s then $"CONCURRENTLY " else [])
         ++ (if ix_ifNotExists s then $"IF NOT EXISTS " else [])
         ++ quoteIdent (ix_name s) d ++ $" ON " ++ quoteIdent (ix_table s) d
         ++ (if dialect_eqb d DPostgres then method else [])
         ++ $" (" ++ join $", " (ix_columns s) ++ $")"
         ++ (if dialect_eqb d DMySQL then method else [])
         ++ (if bool_decide (ix_options s = []) then [] else $" " ++ ix_options s)).

Definition makeDropIndexSql (table name : str) (ifExists : bool) (d : Dialect) : Status + str :=
  if dialect_eqb d DAuto then inl no_dialect_index
  else if bool_decide (table = []) || bool_decide (name = []) then
    inl (badSpec $"sqlconduit::util: dropIndex requires both table and name")
  else inr ($"DROP INDEX " ++ (if ifExists then $"IF EXISTS " else []) ++ quoteIdent name d
            ++ (if dialect_eqb d DPostgres || dialect_eqb d DOracle then []
                else $" ON " ++ quoteIdent table d)).

Definition validateCreateRoutine (replace ifNotExists : bool) (d : Dialect) : Status :=
  if ifNotExists then
    unsupported $"sqlconduit::util: CREATE ROUTINE IF NOT EXISTS is supported by no dialect in this matrix; drop first, then create"
  else if replace && negb (dialect_eqb d DPostgres) && negb (dialect_eqb d DOracle) then
    unsupported ($"sqlconduit::util: CREATE OR REPLACE is only supported by postgres and oracle (dialect="
                 ++ dialectName d ++ $")")
  else status_OK.

(** ** Calling through a session *)

Record CallOutput := mkOutput { o_sets : list ResultSet; o_outParams : list Value; o_affected : Z }.
Record CallResult := mkResult {
  cr_status : Status; cr_sets : list ResultSet; cr_affected : Z; cr_outParams : list Value }.

Section Call.
Context {W : Type}.
(** [Session::execute], [queryAll], [query] and [call]. *)
Variable s_execute : str -> Params -> W -> Status * Z * W.
Variable s_queryAll : str -> Params -> W -> Status * list ResultSet * W.
Variable s_query : str -> W -> Status * ResultSet * W.
Variable s_call : str -> list CallParam -> W -> Status * CallOutput * W.

Definition only_status (st : Status) : CallResult := mkResult st [] 0 [].

(** The native path for Oracle procedures, shared by both overloads. *)
Definition call_native (r : RoutineRef) (ps : list CallParam) (returnsRows : bool) (w : W)
    : CallResult * W :=
  if returnsRows && negb (existsb refCursor ps) then
    (only_status (unsupported $"sqlconduit::util: returnsRows=true for an Oracle procedure requires CallParam::refCursor()"), w)
  else
    let '(st, o, w) := s_call ($"BEGIN " ++ quoteIdent (r_name r) DOracle ++ parenArgs (length ps) ++ $"; END;") ps w in
    (mkResult st (o_sets o) (o_affected o) (o_outParams o), w).

(** The call and the output columns of its first result set. *)
Definition call_step (plan : CallPlan) (returnsRows : bool) (w : W) : CallResult * W :=
  if returnsRows then let '(st, sets, w) := s_queryAll (callSql plan) (callParams plan) w in (mkResult st sets 0 [], w)
  else let '(st, n, w) := s_execute (callSql plan) (callParams plan) w in (mkResult st [] n [], w).

Definition read_row_params (plan : CallPlan) (c : CallResult) : CallResult :=
  match cr_sets c with
  | rs :: _ => if 0 <? outFromRowCount plan then
                 let '(st, vs) := readOutParamsFromRow rs (outFromRowCount plan) in
                 mkResult st (cr_sets c) (cr_affected c) vs
               else c
  | [] => c
  end.

(** [call(Client &, core::Session &, ...)], with the dialect resolved. *)
Definition call_session (r : RoutineRef) (ps : list CallParam) (d : Dialect) (returnsRows : bool) (w : W)
    : CallResult * W :=
  if dialect_eqb d DOracle && negb (is_function r) then call_native r ps returnsRows w
  else
    match makeCallPlan r ps d returnsRows with
    | inl st => (only_status st, w)
    | inr plan =>
        let '(pre, _, w) := match preSql plan with
                            | [] => (status_OK, 0%Z, w)
                            | sql => s_execute sql (preParams plan) w end in
        if negb (status_ok pre) then (only_status pre, w)
        else
          let '(c, w) := call_step plan returnsRows w in
          if negb (status_ok (cr_status c)) then (c, w)
          else
            let c := read_row_params plan c in
            if negb (status_ok (cr_status c)) then (c, w)
            else match fetchSql plan with
                 | [] => (c, w)
                 | sql =>
                     let '(st, rs, w) := s_query sql w in
                     if negb (status_ok st) then (mkResult st (cr_sets c) (cr_affected c) (cr_outParams c), w)
                     else let '(st, vs) := readOutParams rs (outColumns plan) in
                          (mkResult st (cr_sets c) (cr_affected c) vs, w)
                 end
    end.

(** [call(Client &, ...)], with the client's own statements for the session's. *)
Definition call_client (r : RoutineRef) (ps : list CallParam) (d : Dialect) (returnsRows : bool) (w : W)
    : CallResult * W :=
  if dialect_eqb d DOracle && negb (is_function r) then call_native r ps returnsRows w
  else
    match makeCallPlan r ps d returnsRows with
    | inl st => (only_status st, w)
    | inr plan =>
        if needsSameConnection plan then
          (only_status (unsupported ($"sqlconduit::util: OUT/INOUT parameters on dialect=" ++ dialectName d
             ++ $" must run on one connection; use the core::Session overload")), w)
        else
          let '(c, w) := call_step plan returnsRows w in
          if negb (status_ok (cr_status c)) then (c, w) else (read_row_params plan c, w)
    end.
End Call.

(** [ExecScope]: the context under which a statement of this file runs. *)
Definition exec_context (forcePrimary : bool) (idem : Idempotency) (ctx : SqlContext) : SqlContext :=
  mkContext (traceId ctx) (spanId ctx) (tenantId ctx) (targetDataSource ctx)
    (if forcePrimary then false else shadow ctx) (wroteInThisRequest ctx)
    (match idem with Unspecified => idempotency ctx | _ => idem end) (traceFlags ctx) (operation ctx).

(** ** Placeholders and parameters *)

Lemma nat_string_plain n : plain_text (nat_string n) = true /\ qcount (nat_string n) = 0.
Proof.
  pose proof (nat_string_digits n) as H. induction (nat_string n) as [|c s IH]; [done|].
  cbn in H. apply andb_prop in H as [Hc Hs]. destruct (IH Hs) as [IH1 IH2]. split.
  - change (c :: s) with ([c] ++ s). apply plain_app; [|done]. revert Hc. clear. by_char c.
  - change (c :: s) with ([c] ++ s). rewrite qcount_app, IH2. revert Hc. clear. by_char c.
Qed.

Lemma outVarName_plain n : plain_text (outVarName n) = true /\ qcount (outVarName n) = 0.
Proof.
  destruct (nat_string_plain n) as [H1 H2]. unfold outVarName. split.
  - by apply plain_app.
  - rewrite qcount_app, H2. done.
Qed.

Lemma outVarName_inj i j : outVarName i = outVarName j -> i = j.
Proof. unfold outVarName, nat_string. intros H%app_inv_head%to_string_inj. lia. Qed.

(** Plain text with [n] placeholders. *)
Definition has_marks (n : nat) (s : str) : Prop := plain_text s = true /\ qcount s = n.

Lemma has_marks_app n k a b : has_marks n a -> has_marks k b -> has_marks (n + k) (a ++ b).
Proof. intros [H1 H2] [H3 H4]. split; [by apply plain_app|]. by rewrite qcount_app, H2, H4. Qed.

Lemma has_marks_pre n a b : has_marks 0 a -> has_marks n b -> has_marks n (a ++ b).
Proof. apply (has_marks_app 0). Qed.

Lemma has_marks_join l ns :
  Forall2 has_marks ns l -> has_marks (sum_list ns) (join $", " l).
Proof.
  intros H. induction H as [|n s ns l Hs Hl IH]; [by split|].
  destruct l as [|t l]; [inversion Hl; subst; cbn; by rewrite Nat.add_0_r|].
  cbn [join sum_list sum_list_with id]. apply has_marks_app; [done|].
  by apply (has_marks_app 0).
Qed.

(** What the loop over the parameters maintains. *)
Record args_ok (a : args_state) : Prop := {
  ao_args : Forall (fun s => plain_text s = true) (args a);
  ao_call : sum_list (qcount <$> args a) = length (a_call a);
  ao_sets : Forall (fun s => plain_text s = true) (setParts a);
  ao_pre : sum_list (qcount <$> setParts a) = length (a_pre a);
  ao_out : Forall (fun s => has_marks 0 s) (a_out a)
}.

Lemma sum_list_app l k : sum_list (l ++ k) = sum_list l + sum_list k.
Proof. induction l as [|x l IH]; cbn; [done|]. rewrite IH. lia. Qed.

Lemma plan_param_ok d i p a : args_ok a -> args_ok (plan_param d i p a).
Proof.
  intros [H1 H2 H3 H4 H5]. destruct (outVarName_plain i) as [V1 V2].
  assert (Q : forall a : list str, sum_list (qcount <$> a ++ [$"?"]) = sum_list (qcount <$> a) + 1)
    by (intros l; rewrite fmap_app, sum_list_app; done).
  assert (V : plain_text ($"@" ++ outVarName i) = true) by (by apply plain_app).
  assert (V0 : qcount ($"@" ++ outVarName i) = 0) by (rewrite qcount_app, V2; done).
  assert (VS : has_marks 1 (($"@" ++ outVarName i) ++ $" = ?"))
    by (split; [by apply plain_app|by rewrite qcount_app, V0]).
  unfold plan_param. revert V V0 VS. generalize ($"@" ++ outVarName i). intros var V V0 [VS VS0].
  destruct (is_in p); [|destruct (dialect_eqb d DPostgres); [destruct (is_inout p)|]];
    (split; cbn [args a_call setParts a_pre a_out];
     [try apply Forall_app_2|rewrite ?Q, ?length_app; cbn [length]|try apply Forall_app_2| |try apply Forall_app_2]);
    try done; try lia; try (by repeat constructor).
  - rewrite fmap_app, sum_list_app. cbn. rewrite V0. lia.
  - destruct (is_inout p); by repeat constructor.
  - rewrite fmap_app, sum_list_app, length_app. destruct (is_inout p);
      cbn [fmap list_fmap sum_list_with length id]; unfold id in *; rewrite ?VS0; lia.
Qed.

Lemma plan_params_ok d i ps a : args_ok a -> args_ok (plan_params d i ps a).
Proof. revert i a; induction ps as [|p ps IH]; intros i a Ha; [done|]. by apply IH, plan_param_ok. Qed.

Definition in_values (d : Dialect) (ps : list CallParam) : Params :=
  map value (List.filter (fun p => is_in p || dialect_eqb d DPostgres && is_inout p) ps).
Definition inout_values (ps : list CallParam) : Params := map value (List.filter is_inout ps).
Fixpoint out_positions (i : nat) (ps : list CallParam) : list nat :=
  match ps with
  | [] => []
  | p :: ps' => (if is_in p then [] else [i]) ++ out_positions (S i) ps'
  end.

Lemma plan_params_values d i ps a :
  let a' := plan_params d i ps a in
  a_call a' = a_call a ++ in_values d ps
  /\ (dialect_eqb d DPostgres = true -> a_pre a' = a_pre a)
  /\ (dialect_eqb d DPostgres = false ->
      a_pre a' = a_pre a ++ inout_values ps /\ a_out a' = a_out a ++ (outVarName <$> out_positions i ps)).
Proof.
  revert i a; induction ps as [|p ps IH]; intros i a; cbn zeta; cbn [plan_params].
  { cbn. by rewrite !app_nil_r. }
  destruct (IH (S i) (plan_param d i p a)) as (E1 & E3 & E2). rewrite E1. clear E1.
  unfold in_values, inout_values. cbn [List.filter out_positions].
  assert (Hio : is_in p = true -> is_inout p = false) by (unfold is_in, is_inout; by destruct (direction p)).
  unfold plan_param in *. destruct (is_in p); cbn [orb] in *.
  { cbn [a_call map]. rewrite <- app_assoc. split; [done|]. split; [done|]. intros Hd. destruct (E2 Hd) as [-> ->].
    by rewrite (Hio eq_refl). }
  destruct (dialect_eqb d DPostgres) eqn:Hd; cbn [andb].
  - split; [|split; [|done]].
    + destruct (is_inout p); cbn; [by rewrite <- app_assoc|done].
    + intros _. rewrite E3 by done. by destruct (is_inout p).
  - split; [done|]. split; [done|]. intros _. destruct (E2 eq_refl) as [-> ->]. cbn [a_pre a_out app fmap list_fmap].
    rewrite <- !app_assoc. by destruct (is_inout p).
Qed.

Lemma has_marks_list l :
  Forall (fun s => plain_text s = true) l -> has_marks (sum_list (qcount <$> l)) (join $", " l).
Proof.
  intros H. apply has_marks_join. induction H as [|s l Hs Hl IH]; constructor; [by split|done].
Qed.

(** A statement around a quoted name. *)
Lemma masked_call r d pre n rest :
  validIdentifier (r_name r) = true -> clean (r_name r) = true -> has_marks 0 pre -> has_marks n rest ->
  let sql := pre ++ quoteIdent (r_name r) d ++ rest in
  qcount (maskLiteralRegions sql) = n /\ ";"%char ∉ maskLiteralRegions sql.
Proof.
  intros Hv Hc [P1 P2] [R1 <-]. cbv zeta.
  pose proof (good_ident_plain [";"%char] (r_name r) d rest eq_refl Hv Hc R1) as H.
  apply (good_plain_app _ pre) in H; [|done]. rewrite P2 in H. cbn in H.
  destruct H as (m & Hm & Hq & Hn). specialize (Hm [] eq_refl).
  rewrite mask_nil, !app_nil_r in Hm. rewrite Hm. split; [done|]. apply Hn. set_solver.
Qed.

Lemma masked_plain n s : has_marks n s -> qcount (maskLiteralRegions s) = n.
Proof.
  intros [Hp <-]. destruct (good_plain [";"%char] s Hp) as (m & Hm & Hq & _).
  specialize (Hm [] eq_refl). rewrite mask_nil, !app_nil_r in Hm. by rewrite Hm.
Qed.

Lemma fetch_marks l :
  Forall (has_marks 0) l ->
  qcount (maskLiteralRegions
    match l with [] => [] | _ => $"SELECT " ++ join $", " (map column_text l) end) = 0.
Proof.
  intros H. destruct l as [|c l]; [done|]. apply masked_plain.
  apply has_marks_pre; [done|]. replace 0 with (sum_list (replicate (length (c :: l)) 0))
    by (clear; induction (length (c :: l)); done).
  apply has_marks_join. induction H as [|x k Hx Hk IH]; cbn; constructor; [|done].
  unfold column_text. by repeat apply has_marks_pre.
Qed.

(**  A call plan binds what it writes: for MySQL and PostgreSQL, when the
    routine's name is a valid identifier without a backslash, the analyser sees
    in the call exactly one placeholder for each of its parameters and no
    statement separator, one for each in the statement before it, none in the
    fetch; and the values are those of the input parameters, in order. *)
Theorem call_plan_binds (r : RoutineRef) (ps : list CallParam) (d : Dialect) (returnsRows : bool) plan :
  makeCallPlan r ps d returnsRows = inr plan -> d = DMySQL \/ d = DPostgres ->
  validIdentifier (r_name r) = true -> clean (r_name r) = true ->
  qcount (maskLiteralRegions (callSql plan)) = length (callParams plan)
  /\ ";"%char ∉ maskLiteralRegions (callSql plan)
  /\ qcount (maskLiteralRegions (preSql plan)) = length (preParams plan)
  /\ qcount (maskLiteralRegions (fetchSql plan)) = 0
  /\ callParams plan = in_values d ps
  /\ (d = DMySQL -> preParams plan = inout_values ps).
Proof.
  unfold makeCallPlan. destruct (plan_refusal r ps d returnsRows); [done|]. intros Hp Hd Hv Hc.
  pose proof (plan_params_ok d 0 ps (mkArgs [] [] [] [] [] 0)) as [A1 A2 A3 A4 A5]; [by split|].
  destruct (plan_params_values d 0 ps (mkArgs [] [] [] [] [] 0)) as (V1 & V0 & V2).
  set (a := plan_params d 0 ps _) in *. cbn in V0, V1, V2.
  assert (HC : forall pre, has_marks 0 pre ->
    let sql := pre ++ quoteIdent (r_name r) d ++ $"(" ++ join $", " (args a) ++ $")" in
    qcount (maskLiteralRegions sql) = length (a_call a) /\ ";"%char ∉ maskLiteralRegions sql).
  { intros pre Hpre. apply masked_call; [done|done|done|]. rewrite <- A2.
    apply (has_marks_app 0); [done|].
    rewrite <- (Nat.add_0_r (sum_list _)). apply has_marks_app; [by apply has_marks_list|done]. }
  destruct Hd as [-> | ->]; injection Hp as <-; cbn [callSql callParams preSql preParams fetchSql].
  - destruct (HC $"CALL ") as [H1 H2]; [done|]. destruct (V2 eq_refl) as [V3 V4].
    split_and!; [done|done| | |done|done].
    + pose proof (has_marks_list _ A3) as H3. rewrite A4 in H3. destruct (setParts a) as [|s l].
      * by rewrite <- A4.
      * apply masked_plain. by apply (has_marks_pre _ $"SET " (join $", " (s :: l))).
    + pose proof (fetch_marks _ A5) as HF. by destruct (a_out a).
  - destruct (HC $"SELECT * FROM ") as [H1 H2]; [done|]. split_and!; try done.
    by rewrite V0.
Qed.

(** ** Output parameters come back in order *)

(** The row a [SELECT] of the columns [cols] with the values [vs] gives. *)
Definition server_row (cols : list str) (vs : list Value) : Row :=
  foldr (fun cv r => row_set cv.1 cv.2 r) (mkRow []) (zip cols vs).

Lemma server_row_at cols vs i c v :
  NoDup cols -> cols !! i = Some c -> vs !! i = Some v ->
  composite_find c (row_data (server_row cols vs)) = Some v.
Proof.
  revert vs i; induction cols as [|k cols IH]; intros [|u vs] i Hd Hc Hv; try done.
  apply NoDup_cons in Hd as [Hk Hd]. destruct i as [|i]; cbn in Hc, Hv; unfold server_row; cbn.
  - injection Hc as ->. injection Hv as ->. by rewrite find_map_set, str_eqb_refl.
  - rewrite find_map_set. destruct (c =s k) eqn:E; [|by eapply IH].
    apply str_eqb_true in E as ->. exfalso. apply Hk. by eapply list_elem_of_lookup_2.
Qed.

Lemma read_columns_exact row i names vs out :
  length vs = length names ->
  (forall k c v, names !! k = Some c -> vs !! k = Some v ->
     composite_find c (row_data row) = Some v) ->
  read_columns row i names out = (status_OK, out ++ vs).
Proof.
  revert i vs out; induction names as [|n names IH]; intros i [|v vs] out Hl H; try done.
  { cbn. by rewrite app_nil_r. }
  cbn. unfold row_has, row_at. rewrite (H 0 n v) by done. cbn.
  rewrite (IH (S i) vs) by (cbn in Hl; try lia; intros k; apply (H (S k))).
  by rewrite <- app_assoc.
Qed.

Lemma out_positions_ge i ps : Forall (fun k => i <= k) (out_positions i ps).
Proof.
  revert i; induction ps as [|p ps IH]; intros i; cbn; [constructor|].
  assert (H : Forall (fun k => i <= k) (out_positions (S i) ps))
    by (eapply Forall_impl; [apply IH|cbn; lia]).
  destruct (is_in p); cbn; [done|]. by constructor.
Qed.

Lemma out_columns_distinct ps : NoDup (outVarName <$> out_positions 0 ps).
Proof.
  apply NoDup_fmap_2; [intros i j; apply outVarName_inj|]. generalize 0.
  induction ps as [|p ps IH]; intros i; cbn; [constructor|]. destruct (is_in p); cbn; [done|].
  constructor; [|done]. intros Hin. pose proof (out_positions_ge (S i) ps) as H.
  rewrite Forall_forall in H. apply H in Hin. lia.
Qed.

Lemma plan_rows_zero d i ps a : dialect_eqb d DPostgres = false -> a_rows (plan_params d i ps a) = a_rows a.
Proof.
  intros Hd. revert i a; induction ps as [|p ps IH]; intros i a; [done|]. cbn [plan_params].
  rewrite IH. unfold plan_param. rewrite Hd. by destruct (is_in p).
Qed.

Lemma has_out_positions ps i : hasOutParams ps = true -> out_positions i ps <> [].
Proof.
  revert i; induction ps as [|p ps IH]; intros i; [done|]. cbn.
  destruct (is_in p); cbn; [apply IH|done].
Qed.

(**  OUT parameters of a MySQL call come back in order: when the server
    accepts the statements of the plan and answers the fetch with a row of the
    requested variables, the call succeeds and its output parameters are the
    values of the OUT and INOUT parameters in the order of the call; each has a
    variable of its own, named by its position. *)
Theorem mysql_out_params {W} s_execute s_queryAll s_query s_call
    (r : RoutineRef) (ps : list CallParam) (returnsRows : bool) (w w1 w2 w3 : W) plan c st rs more vs :
  makeCallPlan r ps DMySQL returnsRows = inr plan -> hasOutParams ps = true ->
  (if bool_decide (preSql plan = []) then w1 = w
   else exists n, s_execute (preSql plan) (preParams plan) w = (status_OK, n, w1)) ->
  call_step s_execute s_queryAll plan returnsRows w1 = (c, w2) -> status_ok (cr_status c) = true ->
  s_query (fetchSql plan) w2 = (st, rs, w3) -> status_ok st = true ->
  rows rs = server_row (outColumns plan) vs :: more -> length vs = length (out_positions 0 ps) ->
  outColumns plan = outVarName <$> out_positions 0 ps
  /\ NoDup (outColumns plan)
  /\ call_session s_execute s_queryAll s_query s_call r ps DMySQL returnsRows w
     = (mkResult status_OK (cr_sets c) (cr_affected c) vs, w3).
Proof.
  intros Hp Ho Hpre Hcall Hok Hq Hst Hrows Hlen.
  assert (Hcols : outColumns plan = outVarName <$> out_positions 0 ps).
  { unfold makeCallPlan in Hp. destruct (plan_refusal _ _ _ _); [done|].
    destruct (plan_params_values DMySQL 0 ps (mkArgs [] [] [] [] [] 0)) as (_ & _ & V).
    injection Hp as <-. by apply V. }
  assert (Hfrom : outFromRowCount plan = 0 /\ exists x y, fetchSql plan = x :: y).
  { unfold makeCallPlan in Hp. destruct (plan_refusal _ _ _ _); [done|].
    destruct (plan_params_values DMySQL 0 ps (mkArgs [] [] [] [] [] 0)) as (_ & _ & V).
    destruct (V eq_refl) as [_ V2]. cbn [a_out app] in V2.
    pose proof (plan_rows_zero DMySQL 0 ps (mkArgs [] [] [] [] [] 0) eq_refl) as Hz.
    injection Hp as <-. cbn [outFromRowCount fetchSql]. split; [exact Hz|].
    destruct (a_out _) eqn:E; [|by eexists _, _]. symmetry in V2.
    apply fmap_nil_inv in V2. by apply (has_out_positions ps 0) in Ho. }
  destruct Hfrom as [Hz (x & y & Hf)].
  assert (Hd : NoDup (outColumns plan)) by (rewrite Hcols; apply out_columns_distinct).
  split; [done|]. split; [done|].
  unfold call_session. cbn [dialect_eqb]. change (dialect_eqb DMySQL DOracle) with false. cbn [andb].
  rewrite Hp. set (pre := match preSql plan with [] => _ | _ => _ end).
  assert (E : exists n, pre = (status_OK, n, w1)).
  { unfold pre. destruct (preSql plan) eqn:E; cbn in Hpre; [subst; by eexists|done]. }
  destruct E as [n ->]. cbn [negb status_ok]. change (status_ok status_OK) with true. cbn [negb].
  rewrite Hcall, Hok. cbn [negb].
  assert (Hr : read_row_params plan c = c) by (unfold read_row_params; rewrite Hz; by destruct (cr_sets c)).
  rewrite Hr, Hok. cbn [negb]. rewrite Hf, <- Hf, Hq, Hst. cbn [negb].
  assert (Hread : readOutParams rs (outColumns plan) = (status_OK, vs)).
  { unfold readOutParams. rewrite Hrows. rewrite (read_columns_exact _ _ _ vs).
    - destruct (outColumns plan) eqn:Ec; [|done]. destruct vs; [done|].
      apply (f_equal length) in Hcols. rewrite length_fmap, <- Hlen in Hcols. done.
    - rewrite Hcols, length_fmap. done.
    - intros k cc v Hc Hv. by eapply server_row_at. }
  by rewrite Hread.
Qed.

(** A server for two parameters, one OUT and one INOUT. *)
Definition add_ref : RoutineRef := mkRef $"app.add" Procedure [].
Definition add_params : list CallParam :=
  [mkParam (VInt64 1) In false; mkParam VNull Out false; mkParam (VInt64 5) InOut false].
Definition demo_execute (sql : str) (ps : Params) (w : nat) : Status * Z * nat := (status_OK, 0%Z, S w).
Definition demo_queryAll (sql : str) (ps : Params) (w : nat) : Status * list ResultSet * nat := (status_OK, [], S w).
Definition demo_query (sql : str) (w : nat) : Status * ResultSet * nat :=
  (status_OK,
   mkResultSet [] [server_row [outVarName 1; outVarName 2] [VInt64 6; VString $"x"]] false, S w).
Definition demo_call (sql : str) (ps : list CallParam) (w : nat) : Status * CallOutput * nat :=
  (status_OK, mkOutput [] [] 0, S w).

Lemma call_plan_binds_witness :
  exists plan, makeCallPlan add_ref add_params DMySQL false = inr plan
    /\ qcount (maskLiteralRegions (callSql plan)) = length (callParams plan)
    /\ callParams plan = [VInt64 1].
Proof.
  eexists. split; [vm_compute; reflexivity|].
  match goal with |- context [callSql ?p] =>
    destruct (call_plan_binds add_ref add_params DMySQL false p) as (H1 & _ & _ & _ & H2 & _) end;
    [by vm_compute|by left|by vm_compute|by vm_compute|].
  split; [exact H1|exact H2].
Defined.

Lemma mysql_out_params_witness :
  call_session demo_execute demo_queryAll demo_query demo_call add_ref add_params DMySQL false 0
  = (mkResult status_OK [] 0 [VInt64 6; VString $"x"], 3).
Proof.
  destruct (makeCallPlan add_ref add_params DMySQL false) as [e|plan] eqn:E; [vm_compute in E; discriminate|].
  pose proof E as E'. vm_compute in E'. injection E' as <-.
  destruct (demo_query [] 2) as [[st rs] w3] eqn:Eq. vm_compute in Eq. injection Eq as <- <- <-.
  destruct (mysql_out_params demo_execute demo_queryAll demo_query demo_call add_ref add_params false 0 1 2 3
    _ (mkResult status_OK [] 0 []) status_OK (demo_query [] 2).1.2 [] [VInt64 6; VString $"x"] E)
    as (_ & _ & H); [reflexivity|by eexists|reflexivity..|exact H].
Defined.

(**  Where the texts are wrong: the plan of a PostgreSQL procedure calls it
    with [SELECT * FROM], while [makeCallSql] writes [CALL]; and on SQL Server the
    routine's name goes into the text unquoted, so that a name can end the call
    and start another statement. *)
Theorem call_text_defects :
  (exists plan, makeCallPlan (mkRef $"p" Procedure []) [] DPostgres false = inr plan
     /\ callSql plan = $"SELECT * FROM " ++ quoteIdent $"p" DPostgres ++ $"()")
  /\ makeCallSql (mkRef $"p" Procedure []) 0 DPostgres false
     = inr ($"CALL " ++ quoteIdent $"p" DPostgres ++ $"()")
  /\ exists sql, makeCallSql (mkRef $"p; DROP TABLE t" Procedure []) 0 DSqlServer false = inr sql
     /\ hasMultipleStatements sql true = true.
Proof.
  split; [eexists; by vm_compute|]. split; [by vm_compute|].
  exists $"EXEC dbo.p; DROP TABLE t". by vm_compute.
Qed.
End Routines.
