(* ===== verification/Binding.v ===== *)
(** * Binding: placeholders, literals and log rendering

    Models the parameter handling every driver shares: [replacePlaceholders],
    [buildSql], [renderSqlForLogging] and [executeBatch] of
    src/core/idatabase_connection.cpp, and [valueToString],
    [escapeLiteralGeneric] and [paramTypeSignature] of src/common/types.cpp.  The
    text of a double ([std::setprecision(17)]) and of a time point (the local
    zone's [timestampToStringMs]) are arguments.  [placeholders_exact] is what the
    scan does, [named_queries_bind] that it agrees with the named-parameter
    binder, [literal_roundtrip] that literals read back, [log_redaction] that
    redacted logs do not depend on the values, [batch_atomic] that a batch is all
    or nothing; [typed_text_injection] and [nested_values_logged] are the gaps. *)

From S2P Require Import Prelude Types Quoting SqlAnalyze NamedParams SqlAuditor Session.

Module Binding.

(** ** The placeholder scan *)

Definition subscript_before (prev : option ascii) : bool :=
  match prev with
  | Some p => isalnum p || (p =c "_"%char) || (p =c ")"%char) || (p =c "]"%char) || (p =c "?"%char)
  | None => false
  end.

Definition dollar_quote (c : ascii) (l : str) : nat :=
  let t := span is_ident l in
  let validTag := head_is "$"%char (drop t l) && ((t =? 0) || negb (head_digit l)) in
  if validTag then
    let tag := c :: take (S t) l in
    match find_sub tag (drop (S t) l) with
    | Some close => S t + close + length tag
    | None => 0
    end
  else 0.

(** The number of characters after [c] that belong to the quoted region, comment
    or alternative literal it opens.  A line comment ends before its newline,
    which is then copied like any other character. *)
Definition region (prev : option ascii) (c : ascii) (l : str) : nat :=
  if (c =c "q"%char) || (c =c "Q"%char) then
    match alt_quote c l with Some (Some n) => n | _ => 0 end
  else if c =c "$"%char then dollar_quote c l
  else if c =c "["%char then
    if subscript_before prev then 0 else fst (skip_quoted false "]"%char l)
  else if is_quote c then fst (skip_quoted true c l)
  else if c =c "-"%char then if head_is "-"%char l then until_newline l else 0
  else if c =c "/"%char then
    if head_is "*"%char l then S (fst (nested_comment 1 (drop 1 l))) else 0
  else 0.

Definition ph_step (visitor : nat -> str) (prev : option ascii) (c : ascii) (l : str)
    (st : str * nat) : action (str * nat) (str * nat) :=
  if c =c "?"%char then Next 0 (st.1 ++ visitor st.2, S st.2)
  else let k := region prev c l in Next k (st.1 ++ c :: take k l, st.2).

(** The text with each placeholder replaced, and how many there are. *)
Definition replacePlaceholders (visitor : nat -> str) (sql : str) : str * nat :=
  scan (ph_step visitor) id sql ([], 0).

(** ** Literals *)

Section Literals.
(** [std::ostream] with 17 digits, and [timestampToStringMs]. *)
Variable double_text : Z -> str.
Variable time_text : Z -> str.

Definition hex_digit_of (n : N) : ascii :=
  default "0"%char (lit "0123456789ABCDEF" !! N.to_nat n).
Fixpoint appendHex (b : str) : str :=
  match b with
  | [] => []
  | c :: b' => hex_digit_of (N.land (N.shiftr (code c) 4) 15) :: hex_digit_of (N.land (code c) 15) :: appendHex b'
  end.

(** [std::isfinite] on the bits of a binary64: the exponent is not all ones. *)
Definition isfinite (bits : Z) : bool := negb (Z.land (Z.shiftr bits 52) 2047 =? 2047)%Z.

Fixpoint valueToString (v : Value) : str :=
  match v with
  | VNull => $"NULL"
  | VBool b => if b then $"true" else $"false"
  | VInt64 z | VUInt64 z => to_string z
  | VDouble d => double_text d
  | VDecimal s | VString s | VDate s | VTime s | VUuid s | VJson s
  | VIntervalYearMonth s | VIntervalDaySecond s => s
  | VTimestamp t => time_text t
  | VBlob b => $"blob[" ++ nat_string (length b) ++ $"]:" ++ appendHex (take 16 b)
               ++ (if 16 <? length b then $"..." else [])
  | VArray l => $"[" ++ join $", " (map valueToString l) ++ $"]"
  | VComposite fs => $"(" ++ join $", " (map (fun f => f.1 ++ $"=" ++ valueToString f.2) fs) ++ $")"
  | VTypedArray n l => n ++ $"[" ++ join $", " (map valueToString l) ++ $"]"
  | VTypedComposite n fs =>
      n ++ $"(" ++ join $", " (map (fun f => f.1 ++ $"=" ++ valueToString f.2) fs) ++ $")"
  end.

Fixpoint escapeLiteralGeneric (v : Value) : str :=
  match v with
  | VNull => $"NULL"
  | VBool b => if b then $"TRUE" else $"FALSE"
  | VInt64 z | VUInt64 z => to_string z
  | VDouble d => if isfinite d then double_text d else $"NULL"
  | VTimestamp t => QUOTE :: time_text t ++ [QUOTE]
  | VDecimal s | VDate s | VTime s | VUuid s | VJson s
  | VIntervalYearMonth s | VIntervalDaySecond s | VString s => quoteStringLiteral s
  | VBlob b => $"X'" ++ appendHex b ++ [QUOTE]
  | VArray l => $"ARRAY[" ++ join $", " (map escapeLiteralGeneric l) ++ $"]"
  | VComposite fs => $"ROW(" ++ join $", " (map (fun f => escapeLiteralGeneric f.2) fs) ++ $")"
  | VTypedArray n l => n ++ $"(" ++ join $", " (map escapeLiteralGeneric l) ++ $")"
  | VTypedComposite n fs => n ++ $"(" ++ join $", " (map (fun f => escapeLiteralGeneric f.2) fs) ++ $")"
  end.

Definition signature (v : Value) : ascii :=
  match v with
  | VNull => "n" | VBool _ => "b" | VInt64 _ => "i" | VUInt64 _ => "u" | VDouble _ => "d"
  | VDecimal _ => "m" | VString _ => "s" | VDate _ => "a" | VTime _ => "o" | VTimestamp _ => "t"
  | VUuid _ => "g" | VJson _ => "j" | VIntervalYearMonth _ => "y" | VIntervalDaySecond _ => "v"
  | VArray _ => "A" | VComposite _ => "C" | VTypedArray _ _ => "Y" | VTypedComposite _ _ => "O"
  | VBlob _ => "x"
  end%char.
Definition paramTypeSignature (ps : Params) : str := map signature ps.

(** ** Building statements *)

(** [escapeLiteral], which drivers override. *)
Variable escapeLiteral : Value -> str.

Definition mismatch (given found : nat) : Status :=
  status_error QueryError ($"parameter mismatch: supplied " ++ nat_string given
    ++ $" parameter(s) but SQL has " ++ nat_string found ++ $" '?' placeholder(s)").

Definition literal_at (ps : Params) (i : nat) : str :=
  match ps !! i with Some v => escapeLiteral v | None => $"?" end.

Definition buildSql (sql : str) (ps : Params) : Status * str :=
  let '(out, used) := replacePlaceholders (literal_at ps) sql in
  (if used =? length ps then status_OK else mismatch (length ps) used, out).

(** ** Rendering for logs *)

Record SqlRenderOptions := mkRender {
  includeStringValues : bool; includeBlobValues : bool; maxParamLength : nat; maxSqlLength : nat }.

Definition limit_text (o : SqlRenderOptions) (s : str) : str :=
  if maxParamLength o <? length s then take (maxParamLength o) s ++ $"...[truncated]" else s.

Definition typed_text (o : SqlRenderOptions) (s : str) (type : str) : str :=
  if includeStringValues o then escapeLiteral (VString (limit_text o s))
  else $"'<redacted:" ++ type ++ $">'".

Definition render_value (o : SqlRenderOptions) (v : Value) : str :=
  match v with
  | VString s => if includeStringValues o then escapeLiteral (VString (limit_text o s)) else $"'<redacted>'"
  | VDecimal s => typed_text o s $"decimal"
  | VDate s => typed_text o s $"date"
  | VTime s => typed_text o s $"time"
  | VUuid s => typed_text o s $"uuid"
  | VJson s => typed_text o s $"json"
  | VBlob b =>
      if includeBlobValues o then
        let truncated := maxParamLength o <? length b in
        escapeLiteral (VBlob (if truncated then take (maxParamLength o) b else b))
        ++ (if truncated then $"/* truncated, original_bytes=" ++ nat_string (length b) ++ $" */" else [])
      else $"'<blob:" ++ nat_string (length b) ++ $" bytes>'"
  | _ => escapeLiteral v
  end.

Definition renderSqlForLogging (sql : str) (ps : Params) (o : SqlRenderOptions) : Status * str :=
  let '(out, found) := replacePlaceholders
    (fun i => match ps !! i with Some v => render_value o v | None => $"?" end) sql in
  if negb (found =? length ps) then
    (status_error QueryError ($"SQL placeholder count (" ++ nat_string found
       ++ $") does not match params count (" ++ nat_string (length ps) ++ $")"), [])
  else if maxSqlLength o <? length out then
    (status_OK, take (maxSqlLength o) out ++ $"...[truncated, original_length="
                ++ nat_string (length out) ++ $"]")
  else (status_OK, out).
End Literals.

(** ** Batches *)

Section Batch.
Context {S : Type} {DB : Session.DbConnection S}.
(** [execute(sql, params, affected, keys)] of the driver. *)
Variable execute_row : Params -> S -> Status * Z * S.

Fixpoint run_rows (batch : list Params) (affected : list Z) (s : S) : Status * list Z * S :=
  match batch with
  | [] => (status_OK, affected, s)
  | ps :: rest =>
      let '(st, n, s) := execute_row ps s in
      if status_ok st then run_rows rest (affected ++ [n]) s else (st, affected, s)
  end.

Definition group_mismatch (want got : nat) : Status :=
  status_error QueryError ($"parameter mismatch: batch parameter groups must all contain "
    ++ nat_string want ++ $" value(s), but one contains " ++ nat_string got).

Definition plain_tx : Session.TransactionOptions := Session.mkTx Session.IsoDefault false 0.

Definition executeBatch (batch : list Params) (s : S) : Status * list Z * S :=
  match batch with
  | [] => (status_OK, [], s)
  | first :: _ =>
      match List.find (fun ps => negb (length ps =? length first)) batch with
      | Some ps => (group_mismatch (length first) (length ps), [], s)
      | None =>
          let ownTx := negb (Session.in_tx s) in
          let '(st, s) := if ownTx then Session.db_begin plain_tx s else (status_OK, s) in
          if negb (status_ok st) then (st, [], s)
          else
            let '(st, affected, s) := run_rows batch [] s in
            if negb (status_ok st) then
              (st, [], if ownTx then (Session.db_rollback s).2 else s)
            else if negb ownTx then (st, affected, s)
            else
              let '(cm, s) := Session.db_commit s in
              if negb (status_ok cm) then (cm, [], (Session.db_rollback s).2)
              else (st, affected, s)
      end
  end.
End Batch.

(** ** What the scan does *)

Definition interleave (texts vs : list str) : str :=
  match texts with
  | [] => []
  | t :: ts => t ++ concat (zip_with (fun v s => v ++ s) vs ts)
  end.

Lemma interleave_cons_text c t ts vs : interleave ((c ++ t) :: ts) vs = c ++ interleave (t :: ts) vs.
Proof. cbn. by rewrite app_assoc. Qed.

(** The texts between the placeholders do not depend on the visitor. *)
Lemma ph_scan_spans rest prev :
  exists t ts, rest = interleave (t :: ts) (replicate (length ts) $"?")
    /\ forall visitor acc found,
       scan_from (ph_step visitor) id 0 prev rest (acc, found)
       = (acc ++ interleave (t :: ts) (map visitor (seq found (length ts))), found + length ts).
Proof.
  remember (length rest) as n eqn:Hn. revert rest prev Hn.
  induction n as [n IH] using lt_wf_ind. intros rest prev ->.
  destruct rest as [|c l].
  { exists [], []. split; [done|]. intros. cbn. by rewrite app_nil_r, Nat.add_0_r. }
  destruct (c =c "?"%char) eqn:Ec.
  - destruct (IH (length l) ltac:(cbn; lia) l (prev_after c l 0) eq_refl) as (t & ts & Hl & H).
    exists [], (t :: ts). split.
    + apply chr_eqb_true in Ec as ->. rewrite Hl at 1. done.
    + intros visitor acc found. rewrite scan_step. unfold ph_step at 1. rewrite Ec.
      cbn [fst snd drop]. rewrite H. cbn [length seq map interleave zip_with concat app].
      f_equal; [|lia]. by rewrite <- !app_assoc.
  - destruct (IH (length (drop (region prev c l) l))) with (rest := drop (region prev c l) l)
      (prev := prev_after c l (region prev c l)) as (t & ts & Hl & H);
      [rewrite length_drop; cbn; lia|done|].
    exists (c :: take (region prev c l) l ++ t), ts. split.
    + change (c :: take (region prev c l) l ++ t) with ((c :: take (region prev c l) l) ++ t).
      rewrite interleave_cons_text, <- Hl. cbn. by rewrite take_drop.
    + intros visitor acc found. rewrite scan_step. unfold ph_step at 1. rewrite Ec.
      cbn [fst snd]. rewrite H. f_equal.
      change (c :: take (region prev c l) l ++ t) with ((c :: take (region prev c l) l) ++ t).
      by rewrite interleave_cons_text, app_assoc.
Qed.

(**  Binding puts the values where the placeholders are and changes nothing
    else: the statement falls into texts separated by the placeholders it has
    outside of quotes and comments, whatever the values; the built statement is
    these texts with the literals in between, in order; and it is accepted exactly
    when there are as many parameters. *)
Theorem placeholders_exact (sql : str) :
  exists t ts,
    sql = interleave (t :: ts) (replicate (length ts) $"?")
    /\ (forall visitor, replacePlaceholders visitor sql
          = (interleave (t :: ts) (map visitor (seq 0 (length ts))), length ts))
    /\ forall escapeLiteral ps,
         (status_ok (buildSql escapeLiteral sql ps).1 = true <-> length ps = length ts)
         /\ (length ps = length ts ->
             (buildSql escapeLiteral sql ps).2 = interleave (t :: ts) (map escapeLiteral ps)).
Proof.
  destruct (ph_scan_spans sql None) as (t & ts & Hs & H). exists t, ts. split; [done|].
  assert (HR : forall visitor, replacePlaceholders visitor sql
          = (interleave (t :: ts) (map visitor (seq 0 (length ts))), length ts))
    by (intros visitor; apply (H visitor [] 0)).
  split; [done|]. intros esc ps. unfold buildSql. rewrite HR. cbn [fst snd]. split.
  - destruct (Nat.eqb_spec (length ts) (length ps)); split; congruence || done.
  - intros Hl. rewrite <- Hl. do 2 f_equal. clear. unfold literal_at.
    assert (G : forall k, map (fun i => match ps !! i with Some v => esc v | None => $"?" end)
                 (seq k (length ps - k)) = map esc (drop k ps)).
    { intros k. remember (length ps - k) as n eqn:Hn. revert k Hn.
      induction n as [|n IH]; intros k Hn; cbn [seq map].
      - by rewrite drop_ge by lia.
      - destruct (lookup_lt_is_Some_2 ps k) as [v Hv]; [lia|]. rewrite Hv, (drop_S _ v) by done.
        cbn. f_equal. apply IH. lia. }
    specialize (G 0). by rewrite Nat.sub_0_r in G.
Qed.

(** ** Closed regions are recognised wherever they stand *)

Lemma skip_quoted_closed esc q l n :
  q <> BSLASH -> skip_quoted esc q l = (n, true) ->
  head_is q (drop n l) = false /\ (exists y, take n l = y ++ [q])
  /\ forall x, head_is q x = false -> skip_quoted esc q (take n l ++ x) = (n, true).
Proof.
  intros Hq. assert (Hb : (esc && (q =c BSLASH)) = false)
    by (by rewrite (proj2 (chr_eqb_false q BSLASH) Hq), andb_false_r).
  revert n; induction l as [|c|c d l IH1 IH2] using str_two_ind; intros n; [done| |].
  { cbn. destruct (c =c q) eqn:E; [|done]. intros [= <-]. apply chr_eqb_true in E as ->.
    split; [done|]. split; [by exists []|]. intros [|e x] Hx; cbn; [by rewrite chr_eqb_refl|].
    cbn in Hx. by rewrite Hb, chr_eqb_refl, Hx. }
  assert (two : forall k, skip_quoted esc q l = (k, true) ->
    head_is q (drop (S (S k)) (c :: d :: l)) = false
    /\ (exists y, take (S (S k)) (c :: d :: l) = y ++ [q])
    /\ forall x, head_is q x = false -> skip_quoted esc q (take k l ++ x) = (k, true)).
  { intros k Hk. destruct (IH1 k Hk) as (H1 & [y Hy] & H3). split; [done|]. split; [|done].
    exists (c :: d :: y). cbn. by rewrite Hy. }
  rewrite skip_quoted_cons2. destruct (esc && (c =c BSLASH)) eqn:E1.
  { destruct (skip_quoted esc q l) as [k b]. intros [= <- ->]. destruct (two k eq_refl) as (H1 & H2 & H3).
    split; [done|]. split; [done|]. intros x Hx. cbn [firstn app]. rewrite skip_quoted_cons2, E1.
    by rewrite H3. }
  destruct (c =c q) eqn:E2.
  { destruct (d =c q) eqn:E3.
    - destruct (skip_quoted esc q l) as [k b]. intros [= <- ->]. destruct (two k eq_refl) as (H1 & H2 & H3).
      split; [done|]. split; [done|]. intros x Hx. cbn [firstn app].
      rewrite skip_quoted_cons2, E1, E2, E3. by rewrite H3.
    - intros [= <-]. apply chr_eqb_true in E2 as ->. split; [done|]. split; [by exists []|].
      intros [|e x] Hx; cbn; [by rewrite chr_eqb_refl|]. cbn in Hx. by rewrite Hb, chr_eqb_refl, Hx. }
  destruct (skip_quoted esc q (d :: l)) as [k b]. intros [= <- ->].
  destruct (IH2 k eq_refl) as (H1 & [y Hy] & H3). split; [done|]. split; [exists (c :: y); cbn; by rewrite Hy|].
  intros x Hx. specialize (H3 x Hx). destruct k as [|k]; [by destruct y|].
  cbn [firstn app] in *. by rewrite skip_quoted_cons2, E1, E2, H3.
Qed.

Lemma nested_comment_closed depth l n :
  nested_comment depth l = (n, true) ->
  (exists y, take n l = y ++ ["/"%char]) /\ forall x, nested_comment depth (take n l ++ x) = (n, true).
Proof.
  revert depth n; induction l as [|c|c d l IH1 IH2] using str_two_ind; intros depth n; [done|done|].
  assert (two : forall dp k, nested_comment dp l = (k, true) ->
    (exists y, take (S (S k)) (c :: d :: l) = y ++ ["/"%char])
    /\ forall x, nested_comment dp (take k l ++ x) = (k, true)).
  { intros dp k Hk. destruct (IH1 dp k Hk) as ([y Hy] & H3). split; [|done].
    exists (c :: d :: y). cbn. by rewrite Hy. }
  rewrite nested_comment_cons2. destruct ((c =c "/"%char) && (d =c "*"%char)) eqn:E1.
  { destruct (nested_comment (S depth) l) as [k b] eqn:E. intros [= <- ->].
    destruct (two _ _ E) as [H1 H2]. split; [done|]. intros x. cbn [firstn app].
    by rewrite nested_comment_cons2, E1, H2. }
  destruct ((c =c "*"%char) && (d =c "/"%char)) eqn:E2.
  { assert (done2 : (exists y, take 2 (c :: d :: l) = y ++ ["/"%char])).
    { apply andb_prop in E2 as [->%chr_eqb_true ->%chr_eqb_true]. by exists ["*"%char]. }
    destruct depth as [|[|depth]].
    - intros [= <-]. split; [done|]. intros x. cbn [firstn app]. by rewrite nested_comment_cons2, E1, E2.
    - intros [= <-]. split; [done|]. intros x. cbn [firstn app]. by rewrite nested_comment_cons2, E1, E2.
    - destruct (nested_comment (S depth) l) as [k b] eqn:E. intros [= <- ->].
      destruct (two _ _ E) as [H1 H2]. split; [done|]. intros x. cbn [firstn app].
      by rewrite nested_comment_cons2, E1, E2, H2. }
  destruct (nested_comment depth (d :: l)) as [k b] eqn:E. intros [= <- ->].
  destruct (IH2 _ _ E) as [[y Hy] H3]. split; [exists (c :: y); cbn; by rewrite Hy|].
  intros x. specialize (H3 x). destruct k as [|k]; [by destruct y|].
  cbn [firstn app] in *. by rewrite nested_comment_cons2, E1, E2, H3.
Qed.

Lemma take_last_of_sub p q s k :
  find_sub (p ++ [q]) s = Some k -> exists y, take (k + S (length p)) s = y ++ [q].
Proof.
  intros H. apply find_sub_Some in H as [[u Hu]%starts_with_spec Hl].
  rewrite length_app in Hl. cbn in Hl. exists (take k s ++ p).
  rewrite <- (take_drop k s) at 1. rewrite Hu, <- !app_assoc.
  rewrite take_app_add' by (rewrite length_take; lia). f_equal.
  rewrite (app_assoc p [q] u). rewrite take_app_le by (rewrite length_app; cbn; lia).
  rewrite take_ge; [done|]. rewrite length_app. cbn. lia.
Qed.

(** ** Agreement with the named-parameter binder *)

(** [x] starts as [r] does, a parameter [:name] having become a placeholder. *)
Definition head_rel (r x : str) : Prop :=
  match r, x with
  | [], [] => True
  | d :: _, e :: _ => e = d \/ d = ":"%char /\ e = "?"%char
  | _, _ => False
  end.

Lemma head_rel_not c r x : c <> "?"%char -> head_rel r x -> head_is c r = false -> head_is c x = false.
Proof.
  intros Hc. destruct r as [|d r], x as [|e x]; cbn; try done.
  intros [->|[_ ->]] H; [done|]. apply chr_eqb_false. congruence.
Qed.

Definition ph_passes (prev : option ascii) (piece x : str) : Prop := forall visitor acc found,
  scan_from (ph_step visitor) id 0 prev (piece ++ x) (acc, found)
  = scan_from (ph_step visitor) id 0 (last piece) x (acc ++ piece, found).

Lemma ph_passes_one prev c l x :
  c <> "?"%char -> region prev c (l ++ x) = length l -> ph_passes prev (c :: l) x.
Proof.
  intros Hc Hr visitor acc found. cbn [app]. rewrite scan_step. unfold ph_step at 1.
  rewrite (proj2 (chr_eqb_false c _) Hc), Hr. unfold prev_after.
  rewrite take_app_length, drop_app_length. done.
Qed.

Lemma length_take_le' {A} n (l : list A) : n <= length l -> length (take n l) = n.
Proof. intros. rewrite length_take. lia. Qed.

Lemma last_app_one {A} (y : list A) q c : last (c :: y ++ [q]) = Some q.
Proof. change (c :: y ++ [q]) with ((c :: y) ++ [q]). apply last_snoc. Qed.

(** A copied piece: it is passed over as one, and ends in no placeholder. *)
Definition copied (prev : option ascii) (c : ascii) (l : str) (k : nat) (x : str) : Prop :=
  ph_passes prev (c :: take k l) x
  /\ (last (c :: take k l) <> Some "?"%char \/ head_is "["%char (drop k l) = false).

Lemma copied_closed prev c l k x q :
  c <> "?"%char -> q <> "?"%char -> k <= length l -> (exists y, take k l = y ++ [q]) ->
  region prev c (take k l ++ x) = k -> copied prev c l k x.
Proof.
  intros Hc Hq Hk [y Hy] Hr. split.
  - apply ph_passes_one; [done|]. by rewrite Hr, length_take_le'.
  - left. rewrite Hy, last_app_one. congruence.
Qed.

Lemma copied_quote prev c l n x :
  is_quote c = true -> skip_quoted true c l = (n, true) -> head_rel (drop n l) x -> copied prev c l n x.
Proof.
  intros Hq Hs Hx. pose proof (skip_quoted_le true c l) as Hl. rewrite Hs in Hl.
  assert (Hc : c <> BSLASH /\ c <> "?"%char).
  { unfold is_quote in Hq. rewrite !orb_true_iff, !chr_eqb_true in Hq. destruct Hq as [[-> | ->] | ->]; done. }
  destruct Hc as [Hb Hc]. destruct (skip_quoted_closed _ _ _ _ Hb Hs) as (H1 & H2 & H3).
  apply (copied_closed _ _ _ _ _ c); [done|done|done|done|].
  assert (Hr : region prev c (take n l ++ x) = fst (skip_quoted true c (take n l ++ x))).
  { unfold is_quote in Hq. rewrite !orb_true_iff, !chr_eqb_true in Hq. by destruct Hq as [[-> | ->] | ->]. }
  rewrite Hr, H3; [done|]. by apply (head_rel_not c (drop n l)).
Qed.

Lemma copied_bracket prev l n x :
  subscript_before prev = false -> skip_quoted false "]"%char l = (n, true) ->
  head_rel (drop n l) x -> copied prev "["%char l n x.
Proof.
  intros Hp Hs Hx. pose proof (skip_quoted_le false "]"%char l) as Hl. rewrite Hs in Hl.
  destruct (skip_quoted_closed false "]"%char l n) as (H1 & H2 & H3); [done|done|].
  apply (copied_closed _ _ _ _ _ "]"%char); [done|done|done|done|].
  unfold region. cbn [chr_eqb]. change ("["%char =c "q"%char) with false.
  change ("["%char =c "Q"%char) with false. change ("["%char =c "$"%char) with false.
  change ("["%char =c "["%char) with true. cbn [orb]. rewrite Hp, H3; [done|].
  by apply (head_rel_not "]"%char (drop n l)).
Qed.

Lemma until_newline_stop l x :
  head_rel (drop (until_newline l) l) x ->
  until_newline (take (until_newline l) l ++ x) = until_newline l
  /\ head_is "["%char (drop (until_newline l) l) = false.
Proof.
  unfold until_newline. induction l as [|c l IH]; cbn.
  { by destruct x. }
  destruct (c =c LF) eqn:E; cbn; rewrite ?E; cbn.
  - apply chr_eqb_true in E as ->. destruct x as [|e x]; [done|]. intros [->|[? _]]; [|done]. done.
  - intros H. destruct (IH H) as [H1 H2]. by rewrite H1.
Qed.

Lemma copied_line prev l x :
  head_is "-"%char l = true -> head_rel (drop (until_newline l) l) x ->
  copied prev "-"%char l (until_newline l) x.
Proof.
  intros Hd Hx. destruct (until_newline_stop l x Hx) as [H1 H2]. split; [|by right].
  assert (Hl : until_newline l <= length l) by apply span_le.
  apply ph_passes_one; [done|]. rewrite length_take_le' by done. unfold region.
  change ("-"%char =c "q"%char) with false. change ("-"%char =c "Q"%char) with false.
  change ("-"%char =c "$"%char) with false. change ("-"%char =c "["%char) with false.
  change (is_quote "-"%char) with false. change ("-"%char =c "-"%char) with true. cbn [orb].
  replace (head_is "-"%char (take (until_newline l) l ++ x)) with true; [done|].
  apply head_is_true in Hd as [t ->]. done.
Qed.

Lemma copied_comment prev l n x :
  head_is "*"%char l = true -> nested_comment 1 (drop 1 l) = (n, true) -> copied prev "/"%char l (S n) x.
Proof.
  intros [t ->]%head_is_true Hn. change (drop 1 ("*"%char :: t)) with t in Hn.
  pose proof (nested_comment_le _ _ _ _ Hn) as Hl. destruct (nested_comment_closed _ _ _ Hn) as [[y Hy] H3].
  apply (copied_closed _ _ _ _ _ "/"%char); [done|done|cbn; lia| |].
  - exists ("*"%char :: y). cbn. by rewrite Hy.
  - unfold region. change ("/"%char =c "q"%char) with false. change ("/"%char =c "Q"%char) with false.
    change ("/"%char =c "$"%char) with false. change ("/"%char =c "["%char) with false.
    change (is_quote "/"%char) with false. change ("/"%char =c "-"%char) with false.
    change ("/"%char =c "/"%char) with true. cbn [orb firstn app head_is].
    rewrite chr_eqb_refl. change (drop 1 ("*"%char :: take n t ++ x)) with (take n t ++ x). by rewrite H3.
Qed.

Lemma copied_alt prev c l n x : alt_quote c l = Some (Some n) -> copied prev c l n x.
Proof.
  unfold alt_quote. destruct ((c =c "q"%char) || (c =c "Q"%char)) eqn:Ec; [|done].
  destruct l as [|q [|o r]]; [done|done|]. destruct (q =c QUOTE) eqn:Eq; [|done].
  apply chr_eqb_true in Eq as ->. destruct (find_sub [alt_close o; QUOTE] r) as [k|] eqn:Ef; [|done].
  intros [= <-]. pose proof (find_sub_Some _ _ _ Ef) as [_ Hl]. cbn in Hl.
  assert (Hc : c <> "?"%char).
  { rewrite orb_true_iff, !chr_eqb_true in Ec. by destruct Ec as [-> | ->]. }
  assert (Ht : take (S (S (k + 2))) (QUOTE :: o :: r) = QUOTE :: o :: take (k + 2) r) by done.
  apply (copied_closed _ _ _ _ _ QUOTE); [done|done|cbn; lia| |].
  - destruct (take_last_of_sub [alt_close o] QUOTE r k Ef) as [y Hy]. cbn in Hy.
    exists (QUOTE :: o :: y). cbn [Nat.add] in *. by rewrite Ht, Hy.
  - cbn [Nat.add]. rewrite Ht. unfold region. rewrite Ec. unfold alt_quote. rewrite Ec.
    cbn [app]. rewrite chr_eqb_refl. pose proof (find_sub_take _ _ x k Ef) as Hx. cbn [length] in Hx. by rewrite Hx.
Qed.

Lemma is_ident_name c : is_ident c = name_next c.
Proof. by_char c. Qed.

Lemma name_first_next c : name_first c = true -> name_next c = true /\ isdigit c = false.
Proof. by_char c. Qed.

Lemma span_split f s : exists b, s = take (span f s) s ++ b /\ forallb f (take (span f s) s) = true
  /\ match b with c :: _ => f c = false | [] => True end.
Proof.
  induction s as [|c s (b & Hs & Hf & Hb)]; [by exists []|]. cbn. destruct (f c) eqn:E.
  - exists b. cbn. rewrite E, <- Hs. done.
  - exists (c :: s). done.
Qed.

(** A dollar tag [$a$] and its body. *)
Lemma dollar_quote_at a r k x :
  forallb is_ident a = true -> (a = [] \/ head_digit a = false) ->
  find_sub ("$"%char :: a ++ $"$") r = Some k ->
  dollar_quote "$"%char ((a ++ "$"%char :: take (k + S (S (length a))) r) ++ x)
  = S (length a) + k + S (S (length a)).
Proof.
  intros Ha Hd Hf. unfold dollar_quote. rewrite <- app_assoc. cbn [app].
  set (rest := take (k + S (S (length a))) r ++ x).
  assert (Hs : span is_ident (a ++ "$"%char :: rest) = length a)
    by (rewrite span_app_all by done; change (span is_ident ("$"%char :: rest)) with 0; lia).
  rewrite Hs, drop_app_length. cbn [head_is]. rewrite chr_eqb_refl. cbn [andb].
  assert (Hv : (length a =? 0) || negb (head_digit (a ++ "$"%char :: rest)) = true).
  { destruct a as [|c a]; [done|]. destruct Hd as [|Hd]; [done|]. cbn in *. by rewrite Hd. }
  rewrite Hv. replace (S (length a)) with (length a + 1) by lia.
  rewrite take_app_add, drop_app_add. cbn [firstn skipn].
  pose proof (find_sub_take _ _ x k Hf) as Hx.
  replace (length ("$"%char :: a ++ $"$")) with (S (S (length a))) in Hx
    by (cbn; rewrite length_app; cbn; lia).
  unfold rest. rewrite take_0, drop_0. change ["$"%char] with ($"$"). rewrite Hx.
  cbn [length]. rewrite length_app. cbn. lia.
Qed.

Lemma copied_dollar prev st l n st' x :
  bind_dollar st "$"%char l = Next n st' ->
  copied prev "$"%char l n x
  /\ st' = mkBind (b_sql st ++ "$"%char :: take n l) (b_params st) (b_used st).
Proof.
  unfold bind_dollar, copy, err. set (t := if starts_name l then span name_next l else 0).
  destruct (head_is "$"%char (drop t l)) eqn:Eh; [|done]. apply head_is_true in Eh as [r Hr].
  assert (Ha : exists a, l = a ++ "$"%char :: r /\ length a = t /\ forallb is_ident a = true
                 /\ (a = [] \/ head_digit a = false)).
  { exists (take t l). pose proof (span_le name_next l) as Hle.
    assert (Ht : t <= length l) by (unfold t; destruct (starts_name l); lia).
    split; [by rewrite <- Hr, take_drop|]. split; [by apply length_take_le'|].
    unfold t. destruct (starts_name l) eqn:Es; [|by split; [|left]].
    destruct (span_split name_next l) as (b & _ & Hf & _). split.
    - rewrite forallb_forall in *. intros c Hc. rewrite is_ident_name. by apply Hf.
    - destruct l as [|c l]; [done|]. cbn in Es. destruct (name_first_next c Es) as [E1 E2].
      right. cbn. rewrite E1. done. }
  clearbody t. destruct Ha as (a & -> & <- & Hid & Hd). clear Hr.
  replace (S (length a)) with (length a + 1) by lia. rewrite take_app_add, drop_app_add.
  change (take 1 ("$"%char :: r)) with ($"$"). change (drop 1 ("$"%char :: r)) with r.
  destruct (find_sub ("$"%char :: a ++ $"$") r) as [k|] eqn:Ef; [|done]. intros [= <- <-].
  split; [|done]. pose proof (find_sub_Some _ _ _ Ef) as [_ Hl].
  assert (HL : length ("$"%char :: a ++ $"$") = S (S (length a))) by (cbn; rewrite length_app; cbn; lia).
  cbn [length] in Hl |- *. rewrite length_app in Hl |- *. change (length ($"$")) with 1 in *. change (length ["$"%char]) with 1.
  assert (Ht : take (length a + 1 + k + S (length a + 1)) (a ++ "$"%char :: r)
               = a ++ "$"%char :: take (k + S (S (length a))) r).
  { replace (length a + 1 + k + S (length a + 1)) with (length a + S (k + S (S (length a)))) by lia.
    by rewrite take_app_add. }
  apply (copied_closed _ _ _ _ _ "$"%char); [done|done|rewrite length_app; cbn; lia| |].
  - destruct (take_last_of_sub ("$"%char :: a) "$"%char r k Ef) as [y Hy]. cbn [length] in Hy.
    exists (a ++ "$"%char :: y). rewrite Ht, Hy. by rewrite <- app_assoc.
  - rewrite Ht. unfold region. change ("$"%char =c "q"%char) with false. change ("$"%char =c "Q"%char) with false.
    change ("$"%char =c "$"%char) with true. cbn [orb]. rewrite dollar_quote_at by done. lia.
Qed.

(** The decision about an opening bracket that both scanners take from the character before. *)
Definition bracket_agrees (prev prev2 : option ascii) : Prop :=
  subscript_before prev2 = negb (bracket_identifier prev "["%char).

Lemma bracket_agrees_same p : p <> "?"%char -> bracket_agrees (Some p) (Some p).
Proof.
  intros Hp. unfold bracket_agrees, subscript_before, bracket_identifier.
  rewrite (proj2 (chr_eqb_false p "?"%char) Hp), orb_false_r, chr_eqb_refl.
  unfold name_next, name_first, isalnum. cbn [andb].
  destruct (isalpha p), (isdigit p), (p =c "_"%char), (p =c ")"%char), (p =c "]"%char); done.
Qed.

Lemma copied_plain prev prev2 c l x :
  is_quote c = false -> bracket_identifier prev c = false ->
  (c = "["%char -> bracket_agrees prev prev2) ->
  (c =c "-"%char) && head_is "-"%char l = false -> (c =c "/"%char) && head_is "*"%char l = false ->
  alt_quote c l = None -> c <> "$"%char -> c <> "?"%char -> l <> [QUOTE] ->
  head_rel l x -> copied prev2 c l 0 x.
Proof.
  intros Hq Hb Hbr Hm Hs Ha Hd Hp Hl Hx. unfold copied. rewrite take_0. split; [|left; cbn; congruence].
  apply ph_passes_one; [done|]. cbn [length app]. unfold region.
  destruct ((c =c "q"%char) || (c =c "Q"%char)) eqn:Eq.
  { unfold alt_quote in *. rewrite Eq in *. destruct x as [|e [|o r]]; [done|done|].
    destruct (e =c QUOTE) eqn:Ee; [|done]. apply chr_eqb_true in Ee as ->. exfalso.
    destruct l as [|d l]; [done|]. destruct Hx as [<-|[_ ?]]; [|done].
    destruct l as [|o' l]; [done|]. by rewrite chr_eqb_refl in Ha. }
  rewrite (proj2 (chr_eqb_false c _) Hd), Hq.
  destruct (c =c "["%char) eqn:Ebr.
  { apply chr_eqb_true in Ebr as ->. rewrite (Hbr eq_refl), Hb. done. }
  destruct (c =c "-"%char) eqn:Em.
  { by rewrite (head_rel_not "-"%char l x). }
  destruct (c =c "/"%char) eqn:Es; [|done]. by rewrite (head_rel_not "*"%char l x).
Qed.

Lemma copied_colons prev l x :
  head_is ":"%char l = true -> copied prev ":"%char l 1 x.
Proof.
  intros [t ->]%head_is_true. unfold copied. rewrite firstn_cons, take_0. split; [|by left].
  intros visitor acc found. cbn [app].
  pose proof (ph_passes_one prev ":"%char [] (":"%char :: x) ltac:(done) eq_refl visitor acc found) as H1.
  cbn [app] in H1. rewrite H1.
  pose proof (ph_passes_one (Some ":"%char) ":"%char [] x ltac:(done) eq_refl visitor (acc ++ [":"%char]) found) as H2.
  cbn [app] in H2. change (last [":"%char]) with (Some ":"%char) in *. rewrite H2. by rewrite <- app_assoc.
Qed.

(** What one step of the binder does, and what the placeholder scan makes of the
    text it writes. *)
Lemma bind_copies values prev c l st k st' x :
  bind_step values prev c l st = Next k st' ->
  (c =c "$"%char) && negb (at_name_start prev) = false ->
  (k = 0 -> l <> [QUOTE]) -> head_rel (drop k l) x ->
  (c = ":"%char /\ starts_name l = true /\ k = span name_next l
   /\ exists v u, st' = mkBind (b_sql st ++ $"?") (b_params st ++ [v]) u)
  \/ (st' = mkBind (b_sql st ++ c :: take k l) (b_params st) (b_used st)
      /\ forall prev2, (c = "["%char -> bracket_agrees prev prev2) -> copied prev2 c l k x).
Proof.
  intros Hb Hd Hl Hx. unfold bind_step in Hb.
  destruct (is_quote c) eqn:Eq; cbn [orb] in Hb.
  { right. assert (Enb : (c =c "["%char) = false).
    { unfold is_quote in Eq. rewrite !orb_true_iff, !chr_eqb_true in Eq. by destruct Eq as [[-> | ->] | ->]. }
    rewrite Enb in Hb. cbn [negb] in Hb. destruct (skip_quoted true c l) as [n [|]] eqn:Es; [|done].
    injection Hb as <- <-. split; [done|]. intros prev2 _. by apply copied_quote. }
  destruct (bracket_identifier prev c) eqn:Ebi.
  { right. assert (c = "["%char) as ->.
    { unfold bracket_identifier in Ebi. apply andb_prop in Ebi as [E _]. by apply chr_eqb_true in E. }
    rewrite chr_eqb_refl in Hb. cbn [negb] in Hb.
    destruct (skip_quoted false "]"%char l) as [n [|]] eqn:Es; [|done].
    injection Hb as <- <-. split; [done|]. intros prev2 Hbr. apply copied_bracket; [|done|done].
    rewrite (Hbr eq_refl), Ebi. done. }
  destruct (c =c "#"%char); [done|].
  destruct ((c =c "-"%char) && head_is "-"%char l) eqn:Em.
  { right. apply andb_prop in Em as [->%chr_eqb_true Em]. injection Hb as <- <-. split; [done|].
    intros prev2 _. by apply copied_line. }
  destruct ((c =c "/"%char) && head_is "*"%char l) eqn:Ec.
  { right. apply andb_prop in Ec as [->%chr_eqb_true Ec].
    destruct (nested_comment 1 (drop 1 l)) as [n [|]] eqn:En; [|done]. injection Hb as <- <-.
    split; [done|]. intros prev2 _. by apply copied_comment. }
  destruct (alt_quote c l) as [[n|]|] eqn:Ea; [|done|].
  { right. injection Hb as <- <-. split; [done|]. intros prev2 _. by apply copied_alt. }
  destruct (c =c "$"%char) eqn:Ed; cbn [andb] in *.
  { apply negb_false_iff in Hd. rewrite Hd in Hb. apply chr_eqb_true in Ed as ->. right.
    split; [by apply (copied_dollar None _ _ _ _ x) in Hb as [_ H2]|]. intros prev2 _.
    by apply (copied_dollar prev2 _ _ _ _ x) in Hb as [H1 _]. }
  apply chr_eqb_false in Ed.
  destruct ((c =c ":"%char) && head_is ":"%char l) eqn:E2.
  { right. apply andb_prop in E2 as [->%chr_eqb_true E2]. injection Hb as <- <-. split; [done|].
    intros prev2 _. by apply copied_colons. }
  destruct ((c =c ":"%char) && starts_name l) eqn:E3.
  { left. apply andb_prop in E3 as [->%chr_eqb_true E3]. unfold bind_name in Hb.
    destruct (composite_find _ values) as [v|]; [|done]. injection Hb as <- <-.
    split_and!; try done. by eexists _, _. }
  destruct (c =c "?"%char) eqn:E4; [done|]. apply chr_eqb_false in E4.
  destruct ((c =c ":"%char) && head_digit l); [done|]. injection Hb as <- <-. right.
  split; [done|]. intros prev2 Hbr. apply (copied_plain prev); auto.
Qed.

Lemma bind_step_stop values prev c l st r :
  bind_step values prev c l st = Stop r -> status_ok (bq_status r) = false.
Proof.
  unfold bind_step, bind_dollar, bind_name, copy, err. intros H.
  repeat case_match; simplify_eq; done.
Qed.

Lemma bind_step_skip values prev c l st k st' st0 :
  bind_step values prev c l st = Next k st' -> exists st1, bind_step values prev c l st0 = Next k st1.
Proof.
  unfold bind_step, bind_dollar, bind_name, copy, err. intros H.
  repeat case_match; simplify_eq; by eexists.
Qed.

(** Every dollar sign the binder takes for an ordinary character: not one inside
    an identifier, where the placeholder scan would look for a dollar quote. *)
Definition dollar_step (values : list (str * Value)) (prev : option ascii) (c : ascii) (l : str) (u : unit)
    : action unit bool :=
  if (c =c "$"%char) && negb (at_name_start prev) then Stop false
  else match bind_step values prev c l (mkBind [] [] []) with
       | Stop _ => Stop true
       | Next k _ => Next k tt
       end.
Definition plain_dollars (sql : str) (params : list (str * Value)) : bool :=
  match collect_values params [] with
  | inl _ => true
  | inr values => scan (dollar_step values) (fun _ => true) sql tt
  end.

Lemma last_name l : starts_name l = true ->
  exists p, prev_after ":"%char l (span name_next l) = Some p /\ name_next p = true.
Proof.
  intros Hs. destruct l as [|c l]; [done|]. cbn in Hs. destruct (name_first_next c Hs) as [Hc _].
  destruct (span_split name_next (c :: l)) as (b & _ & Hf & _). unfold prev_after.
  destruct (last (take (span name_next (c :: l)) (c :: l))) as [p|] eqn:El.
  - exists p. rewrite last_cons, El. split; [done|]. rewrite forallb_forall in Hf. apply Hf.
    by apply list_elem_of_In, last_Some_elem_of.
  - apply last_None in El. cbn in El. by rewrite Hc in El.
Qed.

Lemma named_scan values rest : forall prev st q,
  scan_from (bind_step values) (bind_finish values) 0 prev rest st = q -> status_ok (bq_status q) = true ->
  scan_from (dollar_step values) (fun _ => true) 0 prev rest tt = true ->
  exists tail vs, bq_sql q = b_sql st ++ tail /\ bq_params q = b_params st ++ vs /\ head_rel rest tail
    /\ forall prev2, (head_is "["%char rest = true -> bracket_agrees prev prev2) ->
       forall visitor acc found,
         (scan_from (ph_step visitor) id 0 prev2 tail (acc, found)).2 = found + length vs.
Proof.
  remember (length rest) as n eqn:Hn. revert rest Hn.
  induction n as [n IH] using lt_wf_ind. intros rest -> prev st q.
  destruct rest as [|c l].
  { intros <- Hok _. exists [], []. cbn in *. unfold bind_finish in *. destruct (first_unused _ _); [done|].
    rewrite !app_nil_r, ?Nat.add_0_r. split_and!; done. }
  rewrite !scan_step. destruct (bind_step values prev c l st) as [r|k st'] eqn:Eb.
  { intros <- Hok. by rewrite (bind_step_stop _ _ _ _ _ _ Eb) in Hok. }
  unfold dollar_step at 1. destruct (bind_step_skip _ _ _ _ _ _ _ (mkBind [] [] []) Eb) as [st1 ->].
  destruct ((c =c "$"%char) && negb (at_name_start prev)) eqn:Ed; [done|]. intros Hq Hok Hd.
  destruct (IH (length (drop k l))) with (rest := drop k l) (prev := prev_after c l k) (st := st') (q := q)
    as (tail & vs & H1 & H2 & H3 & H4); [rewrite length_drop; cbn; lia|done|done|done|done|].
  assert (Hk : k = 0 -> l <> [QUOTE]).
  { intros -> ->. change (drop 0 [QUOTE]) with [QUOTE] in Hq. rewrite scan_step in Hq. cbn in Hq.
    by rewrite <- Hq in Hok. }
  destruct (bind_copies values prev c l st k st' tail Eb Ed Hk H3)
    as [(-> & Hs & -> & v & u & ->)|[-> Hc]]; cbn [b_sql b_params] in H1, H2.
  - exists ("?"%char :: tail), (v :: vs). rewrite H1, H2, <- !app_assoc.
    split_and!; [done|done|by right|]. intros prev2 _ visitor acc found. rewrite scan_step.
    unfold ph_step at 1. rewrite chr_eqb_refl. cbn [skipn fst snd length].
    unfold prev_after. cbn [firstn]. rewrite H4; [lia|]. intros _.
    assert (Hl : exists p, prev_after ":"%char l (span name_next l) = Some p /\ name_next p = true)
      by (apply last_name; done).
    destruct Hl as (p & -> & Hp). unfold bracket_agrees, subscript_before, bracket_identifier.
    by rewrite Hp.
  - exists ((c :: take k l) ++ tail), vs. rewrite H1, H2, <- app_assoc. split_and!; [done|done|by left|].
    intros prev2 Hbr visitor acc found.
    destruct (Hc prev2) as [Hp Hlast]; [intros ->; apply Hbr; cbn; apply chr_eqb_refl|].
    rewrite Hp. apply H4. unfold prev_after. intros Hbk. destruct Hlast as [Hlast|Hlast]; [|congruence].
    destruct (last (c :: take k l)) as [p|] eqn:El; [|by apply last_None in El].
    apply bracket_agrees_same. congruence.
Qed.

(** C5.  Named queries bind: the statement the named-parameter binder writes has,
    for the placeholder scan every driver runs, exactly one placeholder for each
    value it binds, so the driver accepts it and the values go where the names
    were; provided no identifier of the statement contains a dollar sign, without
    which it fails ([dollar_identifier_hides_placeholders]). *)
Theorem named_queries_bind (sql : str) (params : list (str * Value)) :
  let q := bindNamed sql params in
  status_ok (bq_status q) = true -> plain_dollars sql params = true ->
  (forall visitor, (replacePlaceholders visitor (bq_sql q)).2 = length (bq_params q))
  /\ forall escapeLiteral, status_ok (buildSql escapeLiteral (bq_sql q) (bq_params q)).1 = true.
Proof.
  cbv zeta. unfold bindNamed, plain_dollars. destruct (collect_values params []) as [m|values]; [done|].
  unfold scan. intros Hok Hd.
  destruct (named_scan values sql None (mkBind [] [] []) _ eq_refl Hok Hd) as (tail & vs & H1 & H2 & _ & H4).
  cbn in H1, H2. rewrite H1, H2.
  assert (Hc : forall visitor, (replacePlaceholders visitor tail).2 = length vs)
    by (intros visitor; apply (H4 None); done).
  split; [done|]. intros esc. unfold buildSql. specialize (Hc (literal_at esc vs)).
  destruct (replacePlaceholders (literal_at esc vs) tail) as [out used]. cbn in Hc. subst used.
  by rewrite Nat.eqb_refl.
Qed.

Lemma named_queries_bind_witness :
  let q := bindNamed $"SELECT a[1], $t$ :x ? $t$, ':y' FROM t -- ?
 WHERE id = :id::int AND b[:id] = ANY(:list)" [($"id", VInt64 7); ($"list", VNull)] in
  (replacePlaceholders (fun i => nat_string i) (bq_sql q)).2 = 3 /\ length (bq_params q) = 3.
Proof.
  cbv zeta. set (q := bindNamed _ _).
  destruct (named_queries_bind $"SELECT a[1], $t$ :x ? $t$, ':y' FROM t -- ?
 WHERE id = :id::int AND b[:id] = ANY(:list)" [($"id", VInt64 7); ($"list", VNull)]) as [H _];
    [by vm_compute|by vm_compute|].
  assert (E : length (bq_params q) = 3) by (by vm_compute).
  split; [|exact E]. rewrite <- E. apply H.
Defined.

(** An identifier with a dollar sign breaks a named query: the binder copies it and
    binds the value, the driver's scan takes what stands between two of them for a
    dollar quote, finds no placeholder and refuses the statement. *)
Theorem dollar_identifier_hides_placeholders :
  let q := bindNamed ($"select a$x$ from t where id = :id and b$x$ = 1") [($"id", VInt64 7)] in
  status_ok (bq_status q) = true /\ length (bq_params q) = 1 /\
  (forall visitor, (replacePlaceholders visitor (bq_sql q)).2 = 0) /\
  forall escapeLiteral, status_ok (buildSql escapeLiteral (bq_sql q) (bq_params q)).1 = false.
Proof. cbv zeta. split_and!; [by vm_compute|by vm_compute|intros visitor; by vm_compute|intros escapeLiteral; by vm_compute]. Qed.

(** ** Literals read back *)

Definition text_of (v : Value) : option str :=
  match v with
  | VDecimal s | VString s | VDate s | VTime s | VUuid s | VJson s
  | VIntervalYearMonth s | VIntervalDaySecond s => Some s
  | _ => None
  end.

(** The bytes a run of hexadecimal digits stands for. *)
Definition hex_value_of (c : ascii) : option N :=
  if isdigit c then Some (code c - 48)%N
  else if between 65 70 c then Some (code c - 55)%N else None.
Fixpoint unhex (s : str) : option str :=
  match s with
  | [] => Some []
  | [_] => None
  | a :: b :: s' =>
      x ← hex_value_of a; y ← hex_value_of b; r ← unhex s'; Some (ascii_of_N (16 * x + y) :: r)
  end.

Lemma unhex_appendHex b : unhex (appendHex b) = Some b.
Proof.
  induction b as [|c b IH]; [done|]. cbn [appendHex unhex]. rewrite IH. clear. by_char c.
Qed.

(**  Literals read back: the literal of every text value, whatever its
    characters, is read by a standard SQL reader as exactly that text and leaves
    what follows it untouched; the literal of a blob holds its bytes; the texts of
    two integers are the same only for the same integer. *)
Theorem literal_roundtrip (double_text time_text : Z -> str) :
  let esc := escapeLiteralGeneric double_text time_text in
  (forall v s rest, text_of v = Some s -> head_is QUOTE rest = false ->
     unquote QUOTE (esc v ++ rest) = Some (s, rest))
  /\ (forall b, exists digits, esc (VBlob b) = "X"%char :: QUOTE :: digits ++ [QUOTE]
                               /\ unhex digits = Some b)
  /\ (forall x y, esc (VInt64 x) = esc (VInt64 y) -> x = y).
Proof.
  cbv zeta. split_and!.
  - intros v s rest Hv Hr. by destruct v; cbn in Hv; try done; injection Hv as ->; apply unquote_quote.
  - intros b. exists (appendHex b). split; [done|]. apply unhex_appendHex.
  - intros x y. apply to_string_inj.
Qed.

(** [MySQLConnection::escapeLiteral] on an open connection; [real_escape] is
    [mysql_real_escape_string]. *)
Definition mysql_escapeLiteral (double_text time_text : Z -> str) (real_escape : str -> str) (v : Value) : str :=
  match v with
  | VString s => QUOTE :: real_escape s ++ [QUOTE]
  | _ => escapeLiteralGeneric double_text time_text v
  end.

(**  Typed text can leave its literal: the MySQL driver escapes strings with
    the client library but other text values only by doubling quotes, while the
    server (like the analyser) takes a backslash in a literal for an escape.  A
    JSON value with a backslash before a quote ends its literal, and the rest of
    the value is executed. *)
Theorem typed_text_injection (double_text time_text : Z -> str) (real_escape : str -> str) :
  let sql := (buildSql (mysql_escapeLiteral double_text time_text real_escape) $"SELECT * FROM t WHERE doc = ?"
                [VJson (BSLASH :: QUOTE :: $"; DROP TABLE t -- ")]).2 in
  hasMultipleStatements sql true = true
  /\ skip_quoted true QUOTE (drop 29 sql) = (3, true).
Proof. by vm_compute. Qed.

(** ** Logs *)

(** Values a redacted log must not tell apart. *)
Definition alike (a b : Value) : Prop :=
  match a, b with
  | VString _, VString _ | VDecimal _, VDecimal _ | VDate _, VDate _ | VTime _, VTime _
  | VUuid _, VUuid _ | VJson _, VJson _ => True
  | VBlob x, VBlob y => length x = length y
  | _, _ => a = b
  end.

(**  Redacted logs do not depend on the redacted values: with string and blob
    values excluded, the rendered statement, its truncation and its status are the
    same for any two parameter lists that differ only in the contents of their
    strings, decimals, dates, times, UUIDs, JSON texts and equally long blobs,
    whatever the driver's escaping. *)
Theorem log_redaction (escapeLiteral : Value -> str) (sql : str) (ps qs : Params) (o : SqlRenderOptions) :
  includeStringValues o = false -> includeBlobValues o = false -> Forall2 alike ps qs ->
  renderSqlForLogging escapeLiteral sql ps o = renderSqlForLogging escapeLiteral sql qs o.
Proof.
  intros Hs Hb H. unfold renderSqlForLogging. pose proof (Forall2_length _ _ _ H) as Hl.
  destruct (ph_scan_spans sql None) as (t & ts & _ & Hr). unfold replacePlaceholders, scan.
  rewrite !Hr, Hl. cbn [app Nat.add].
  set (f := fun i => match ps !! i with Some v => _ | None => _ end).
  set (g := fun i => match qs !! i with Some v => _ | None => _ end).
  replace (map f (seq 0 (length ts))) with (map g (seq 0 (length ts))); [done|].
  apply map_ext. intros i. unfold f, g.
  assert (Hi : option_Forall2 alike (ps !! i) (qs !! i)) by (by apply Forall2_lookup).
  inversion Hi as [x y Hxy Ex Ey|Ex Ey]; [|done]. unfold render_value, typed_text. rewrite Hs, Hb.
  destruct x, y; cbn in Hxy; simplify_eq; try done. by rewrite Hxy.
Qed.

Lemma log_redaction_witness :
  renderSqlForLogging (escapeLiteralGeneric (fun _ => []) (fun _ => [])) $"UPDATE u SET pw = ? WHERE id = ?"
    [VString $"secret"; VInt64 1] (mkRender false false 256 8192)
  = (status_OK, $"UPDATE u SET pw = '<redacted>' WHERE id = 1").
Proof.
  rewrite (log_redaction _ _ [VString $"secret"; VInt64 1] [VString $"x"; VInt64 1]);
    [by vm_compute|done|done|by repeat constructor].
Defined.

(** Strings inside arrays and composites are written out even when string values
    are excluded. *)
Lemma nested_values_logged :
  renderSqlForLogging (escapeLiteralGeneric (fun _ => []) (fun _ => [])) $"INSERT INTO t VALUES (?)"
    [VArray [VString $"secret"]] (mkRender false false 256 8192)
  = (status_OK, $"INSERT INTO t VALUES (ARRAY['secret'])").
Proof. by vm_compute. Qed.

(** ** Batches *)

Section BatchTheorems.
Context {S : Type} {DB : Session.DbConnection S}.
Variable execute_row : Params -> S -> Status * Z * S.
Hypothesis execute_row_tx : forall ps s, Session.in_tx (execute_row ps s).2 = Session.in_tx s.

Lemma run_rows_tx batch acc s :
  Session.in_tx (run_rows execute_row batch acc s).2 = Session.in_tx s.
Proof.
  revert acc s; induction batch as [|ps batch IH]; intros acc s; [done|]. cbn.
  pose proof (execute_row_tx ps s) as H. destruct (execute_row ps s) as [[st n] s1]. cbn in H.
  destruct (status_ok st); [by rewrite IH|done].
Qed.

Lemma run_rows_length batch acc s st affected s' :
  run_rows execute_row batch acc s = (st, affected, s') -> status_ok st = true ->
  length affected = length acc + length batch.
Proof.
  revert acc s; induction batch as [|ps batch IH]; intros acc s; cbn.
  { intros [= <- <- <-]. lia. }
  destruct (execute_row ps s) as [[st1 n] s1]. destruct (status_ok st1) eqn:E.
  - intros H Hok. rewrite (IH _ _ H Hok), length_app. cbn. lia.
  - intros [= <- <- <-] Hok. congruence.
Qed.

Lemma rollback_outcome s s1 :
  s1 = (Session.db_rollback s).2 ->
  Session.in_tx s1 = false \/ exists s0, status_ok (Session.db_rollback s0).1 = false /\ s1 = (Session.db_rollback s0).2.
Proof.
  intros ->. destruct (status_ok (Session.db_rollback s).1) eqn:E; [|right; by exists s].
  left. by apply Session.rollback_ok.
Qed.

(**  A batch is all or nothing: outside of a transaction a batch that
    succeeds has executed every parameter group and committed; one that fails
    reports no results and leaves no transaction open, unless the begin never
    took effect or the rollback itself failed.  Inside the caller's transaction
    it neither commits nor rolls back. *)
Theorem batch_atomic (batch : list Params) (s : S) :
  let '(st, affected, s') := executeBatch execute_row batch s in
  (status_ok st = true -> length affected = length batch)
  /\ (status_ok st = false -> affected = [])
  /\ (Session.in_tx s = true -> Session.in_tx s' = true)
  /\ (Session.in_tx s = false ->
      Session.in_tx s' = false
      \/ status_ok st = false /\ exists s0, status_ok (Session.db_rollback s0).1 = false
                                            /\ s' = (Session.db_rollback s0).2).
Proof.
  unfold executeBatch. destruct batch as [|p batch]; [split_and!; auto; done|].
  destruct (List.find _ (p :: batch)) as [q|]; [cbn; split_and!; auto; done|].
  destruct (Session.in_tx s) eqn:Ht; cbn [negb].
  - change (status_ok status_OK) with true. cbn [negb].
    pose proof (run_rows_tx (p :: batch) [] s) as Hx.
    destruct (run_rows execute_row (p :: batch) [] s) as [[st affected] s1] eqn:E. cbn in Hx.
    pose proof (run_rows_length _ _ _ _ _ _ E) as Hl. rewrite Ht in Hx.
    destruct (status_ok st) eqn:Es; cbn [negb]; split_and!; try done; congruence || auto.
  - pose proof (Session.begin_failed plain_tx s) as Hbf.
    destruct (Session.db_begin plain_tx s) as [st1 s1]. cbn in Hbf.
    destruct (status_ok st1) eqn:E1; cbn [negb].
    2: { split_and!; try done; [congruence|]. intros _. left. rewrite <- Ht. by apply Hbf. }
    destruct (run_rows execute_row (p :: batch) [] s1) as [[st affected] s2] eqn:E.
    pose proof (run_rows_length _ _ _ _ _ _ E) as Hl.
    destruct (status_ok st) eqn:Es; cbn [negb].
    2: { split_and!; try done; [congruence|]. intros _.
         destruct (rollback_outcome s2 _ eq_refl) as [?|?]; auto. }
    pose proof (Session.commit_ok s2) as Hc. destruct (Session.db_commit s2) as [cm s3]. cbn in Hc.
    destruct (status_ok cm) eqn:Ec; cbn [negb].
    + split_and!; [auto|congruence|done|auto].
    + split_and!; try done; [congruence|]. intros _.
      destruct (rollback_outcome s3 _ eq_refl) as [?|?]; auto.
Qed.
End BatchTheorems.

Definition demo_row (ps : Params) (m : Session.MySQL.mysql) : Status * Z * Session.MySQL.mysql :=
  let '(st, m) := Session.MySQL.mysql_query (valueToString (fun _ => []) (fun _ => []) (default VNull (head ps))) m in
  (st, 1%Z, m).

Lemma batch_atomic_witness :
  Session.MySQL.sent (executeBatch demo_row [[VInt64 1]; [VInt64 2]]
    (Session.MySQL.mkMySQL true false [status_OK; status_OK; status_error QueryError []] [])).2
  = [$"START TRANSACTION"; $"1"; $"2"; $"ROLLBACK"]
  /\ let '(st, affected, s') := executeBatch demo_row [[VInt64 1]; [VInt64 2]]
       (Session.MySQL.mkMySQL true false [status_OK; status_OK; status_error QueryError []] []) in
     affected = [].
Proof.
  split; [by vm_compute|].
  assert (Htx : forall ps s, Session.in_tx (demo_row ps s).2 = Session.in_tx s).
  { intros ps s. unfold demo_row.
    pose proof (Session.MySQL.mysql_query_tx (valueToString (fun _ => []) (fun _ => []) (default VNull (head ps))) s) as Hq.
    destruct (Session.MySQL.mysql_query _ s). exact Hq. }
  pose proof (batch_atomic demo_row Htx [[VInt64 1]; [VInt64 2]]
    (Session.MySQL.mkMySQL true false [status_OK; status_OK; status_error QueryError []] [])) as H.
  destruct (executeBatch _ _ _) as [[st affected] s'] eqn:E. destruct H as (_ & H & _). apply H.
  assert (Est : st = status_error QueryError []); [|by rewrite Est].
  apply (f_equal (fun x => x.1.1)) in E. symmetry. exact E.
Defined.
End Binding.
