(* ===== verification/Interceptor.v ===== *)
(** * Interceptors

    src/core/interceptor.cpp and [runWithInterceptors] of
    src/core/database_manager.cpp: the registries, the per-thread stacks that
    keep hooks from running inside each other, and the life of a statement
    ([onRoute], [beforeExecution], the execution, [onRow], [afterExecution],
    [onCompletion]).

    Each client has a registry of its own; a thread may use several.  What an
    interceptor does in a hook is user code: a function of the history that
    gives the calls it makes (statements included, which enter the registries
    again) and its verdict or an exception.  The calls made while a statement
    executes are part of the statement.  Since hooks may issue statements that
    run hooks, the interpreter has fuel; [hooks_terminate] shows that the stacks
    bound the recursion. *)

From S2P Require Import Prelude Types.

Module Interceptor.

(** ** Registries and the calling thread *)

(** [ExecutionView], without the parts that never change. *)
Record ExecutionView : Type := mkView {
  v_status : Status;
  v_result : bool;
  v_affected : Z
}.

Inductive hook : Type :=
| OnRoute
| BeforeExecution (v : ExecutionView)
| AfterExecution (v : ExecutionView)
| OnRow (v : ExecutionView)
| OnCompletion (v : ExecutionView).

(** [InterceptorRegistryState]. *)
Record registry : Type := mkRegistry {
  enabled_ : bool;
  count_ : nat;
  interceptors_ : list nat
}.

(** History: a hook run on an interceptor of a registry; the execution proper of
    a statement. *)
Inductive event : Type :=
| Hook (r i : nat) (h : hook)
| Executed (n : nat).

Record thread : Type := mkThread {
  registries : list registry;
  executionStack : list nat;
  callbackStack : list nat;
  events : list event
}.

(** How an execution ends: an exception, or a status and a row count. *)
Record outcome : Type := mkOutcome { o_status : option Status; o_affected : Z }.

(** What user code does with the middleware.  [Statement n r res body o] is a
    call, named [n], under [runOnRoute] and [runWithInterceptors] ([res]: it has a result set);
    [RouteOnly n r body o] one under [runOnRoute] alone, as [queryAll] is;
    [StreamRow r v] the delivery of a streamed row. *)
Inductive action : Type :=
| Statement (n r : nat) (res : bool) (body : list action) (o : outcome)
| RouteOnly (n r : nat) (body : list action) (o : outcome)
| StreamRow (r : nat) (v : ExecutionView)
| AddInterceptor (r : nat) (i : option nat)
| ClearInterceptors (r : nat)
| SetEnabled (r : nat) (b : bool).

Definition log (e : event) (t : thread) : thread :=
  mkThread (registries t) (executionStack t) (callbackStack t) (events t ++ [e]).
Definition set_registries (f : list registry -> list registry) (t : thread) : thread :=
  mkThread (f (registries t)) (executionStack t) (callbackStack t) (events t).
Definition set_execution (f : list nat -> list nat) (t : thread) : thread :=
  mkThread (registries t) (f (executionStack t)) (callbackStack t) (events t).
Definition set_callback (f : list nat -> list nat) (t : thread) : thread :=
  mkThread (registries t) (executionStack t) (f (callbackStack t)) (events t).

(** [add], [clear], [setEnabled], [enabled], [active], [snapshot]. *)
Definition add (i : option nat) (g : registry) : registry :=
  match i with
  | None => g
  | Some i =>
      let previous := length (interceptors_ g) in
      mkRegistry (enabled_ g) (previous + 1) (interceptors_ g ++ [i])
  end.
Definition clear (g : registry) : registry := mkRegistry (enabled_ g) 0 [].
Definition setEnabled (b : bool) (g : registry) : registry :=
  mkRegistry b (count_ g) (interceptors_ g).
Definition active (g : registry) : bool := enabled_ g && negb (count_ g =? 0).

Definition enabled (r : nat) (t : thread) : bool :=
  match registries t !! r with Some g => enabled_ g | None => false end.
Definition snapshot (r : nat) (t : thread) : list nat :=
  match registries t !! r with Some g => interceptors_ g | None => [] end.
Definition is_active (r : nat) (t : thread) : bool :=
  match registries t !! r with Some g => active g | None => false end.

(** [depth]: the occurrences of a registry on a stack. *)
Definition depth (stack : list nat) (r : nat) : nat := length (filter (r =.) stack).

Definition push (r : nat) (s : list nat) : list nat := r :: s.
Definition pop (s : list nat) : list nat := tail s.

(** The guards: [InterceptorGuard]'s and [runOnRoute]'s, and that of the hooks
    of a running statement. *)
Definition outermost (r : nat) (t : thread) : bool :=
  enabled r t && (depth (executionStack t) r =? 0) && (depth (callbackStack t) r =? 0).
Definition within (r : nat) (t : thread) : bool :=
  enabled r t && (depth (executionStack t) r <=? 1) && (depth (callbackStack t) r =? 0).

Section Run.

(** User code: the calls an interceptor makes in a hook, and its verdict ([None]:
    it throws). *)
Context (code : list event -> nat -> hook -> list action * option Status).

Section Step.

(** The interpreter of nested calls. *)
Context (rec : action -> thread -> option thread).

Fixpoint run_actions (l : list action) (t : thread) : option thread :=
  match l with
  | [] => Some t
  | a :: l => match rec a t with Some t => run_actions l t | None => None end
  end.

(** One hook of one interceptor, under [safeCall]. *)
Definition safeCall (r i : nat) (h : hook) (t : thread) : option (option Status * thread) :=
  let t := log (Hook r i h) t in
  let '(acts, verdict) := code (events t) i h in
  match run_actions acts t with Some t => Some (verdict, t) | None => None end.

Fixpoint notify_loop (r : nat) (ids : list nat) (h : hook) (t : thread) : option thread :=
  match ids with
  | [] => Some t
  | i :: ids => match safeCall r i h t with Some (_, t) => notify_loop r ids h t | None => None end
  end.

(** A loop over the interceptors under a [CallbackGuard]. *)
Definition notify (r : nat) (h : hook) (t : thread) : option thread :=
  match notify_loop r (snapshot r t) h (set_callback (push r) t) with
  | Some t => Some (set_callback pop t)
  | None => None
  end.

Definition runOnRoute (r : nat) (t : thread) : option thread :=
  if negb (outermost r t) then Some t else notify r OnRoute t.

Definition runOnRow (r : nat) (v : ExecutionView) (t : thread) : option thread :=
  if negb (within r t) then Some t else notify r (OnRow v) t.

Definition runAfterExecution (r : nat) (v : ExecutionView) (t : thread) : option thread :=
  if negb (within r t) then Some t else notify r (AfterExecution v) t.

Fixpoint before_loop (r : nat) (ids : list nat) (v : ExecutionView) (status : Status) (t : thread)
    : option (Status * thread) :=
  match ids with
  | [] => Some (status, t)
  | i :: ids =>
      match safeCall r i (BeforeExecution v) t with
      | None => None
      | Some (verdict, t) =>
          let status := default status verdict in
          if negb (status_ok status) then Some (status, t) else before_loop r ids v status t
      end
  end.

Definition runBeforeExecution (r : nat) (v : ExecutionView) (t : thread) : option (Status * thread) :=
  if negb (within r t) then Some (status_OK, t)
  else
    match before_loop r (snapshot r t) v status_OK (set_callback (push r) t) with
    | Some (st, t) => Some (st, set_callback pop t)
    | None => None
    end.

(** The destructor of an active [InterceptorGuard]. *)
Definition guard_exit (r : nat) (v : ExecutionView) (t : thread) : option thread :=
  match notify r (OnCompletion v) t with
  | Some t => Some (set_execution pop t)
  | None => None
  end.

Definition fresh_view (res : bool) : ExecutionView := mkView status_OK res 0.

Definition final_view (res : bool) (st : Status) (affected : Z) : ExecutionView :=
  mkView st (status_ok st && res) (if status_ok st then affected else 0).

(** The execution proper. *)
Definition execute (n : nat) (body : list action) (t : thread) : option thread :=
  run_actions body (log (Executed n) t).

(** The end of a statement: the guard's destructor, then the answer. *)
Definition leave (r : nat) (v : ExecutionView) (ans : option Status) (t : thread)
    : option (option Status * thread) :=
  match guard_exit r v t with Some t => Some (ans, t) | None => None end.

(** What follows the execution of [fn]. *)
Definition conclude (r : nat) (res : bool) (o : outcome) (t : thread) : option (option Status * thread) :=
  match o_status o with
  | None => leave r (fresh_view res) None t
  | Some st =>
      let v := final_view res st (o_affected o) in
      match runAfterExecution r v t with
      | Some t => leave r v (Some st) t
      | None => None
      end
  end.

Definition runWithInterceptors (n r : nat) (res : bool) (body : list action) (o : outcome) (t : thread)
    : option (option Status * thread) :=
  if negb (outermost r t) then
    match execute n body t with Some t => Some (o_status o, t) | None => None end
  else
    match runBeforeExecution r (fresh_view res) (set_execution (push r) t) with
    | None => None
    | Some (st, t) =>
        if negb (status_ok st) then leave r (mkView st false 0) (Some st) t
        else match execute n body t with Some t => conclude r res o t | None => None end
    end.

(** A statement of a session or a data source, past its gate. *)
Definition statement (n r : nat) (res : bool) (body : list action) (o : outcome) (t : thread)
    : option (option Status * thread) :=
  match runOnRoute r t with
  | Some t => runWithInterceptors n r res body o t
  | None => None
  end.

(** [queryAll]. *)
Definition route_only (n r : nat) (body : list action) (o : outcome) (t : thread)
    : option (option Status * thread) :=
  match runOnRoute r t with
  | Some t => match execute n body t with Some t => Some (o_status o, t) | None => None end
  | None => None
  end.

(** The row callback [queryEach] gives to the driver: [onRow] when the registry
    has interceptors. *)
Definition stream_row (r : nat) (v : ExecutionView) (t : thread) : option thread :=
  if negb (is_active r t) then Some t else runOnRow r v t.

Definition act (a : action) (t : thread) : option thread :=
  match a with
  | Statement n r res body o => match statement n r res body o t with Some (_, t) => Some t | None => None end
  | RouteOnly n r body o => match route_only n r body o t with Some (_, t) => Some t | None => None end
  | StreamRow r v => stream_row r v t
  | AddInterceptor r i => Some (set_registries (alter (add i) r) t)
  | ClearInterceptors r => Some (set_registries (alter clear r) t)
  | SetEnabled r b => Some (set_registries (alter (setEnabled b) r) t)
  end.

End Step.

(** The calls of a thread, nested ones with one unit of fuel less. *)
Fixpoint run (fuel : nat) (a : action) (t : thread) : option thread :=
  match fuel with
  | 0 => None
  | S fuel => act (run fuel) a t
  end.

(** ** Every call gives the stacks back *)

Definition keeps (t t' : thread) : Prop :=
  executionStack t' = executionStack t /\ callbackStack t' = callbackStack t
  /\ length (registries t') = length (registries t).

#[local] Instance keeps_preorder : PreOrder keeps.
Proof. split; [done|]. unfold keeps. intros x y z (-> & -> & ->) (-> & -> & ->). done. Qed.

Lemma keeps_log e t : keeps t (log e t).
Proof. done. Qed.

Lemma keeps_callback r t t' : keeps (set_callback (push r) t) t' -> keeps t (set_callback pop t').
Proof. unfold keeps. cbn. intros (-> & -> & ->). done. Qed.

Lemma keeps_execution r t t' : keeps (set_execution (push r) t) t' -> keeps t (set_execution pop t').
Proof. unfold keeps. cbn. intros (-> & -> & ->). done. Qed.

Lemma keeps_registries f r t : keeps t (set_registries (alter f r) t).
Proof. unfold keeps. cbn. by rewrite length_alter. Qed.

(** ** A rule for calls

    A relation between the threads before and after holds of every call when it
    is a preorder, holds of the events the calls may log and of the changes they
    may make to the registries, and survives the brackets around hooks and
    executions.  [P] is what is known of the thread, [L] of the calls, [A] of the
    events. *)

Record call_rule (P : thread -> Prop) (L : action -> Prop) (A : event -> Prop)
    (G : thread -> thread -> Prop) : Prop := {
  rule_preorder : PreOrder G;
  rule_P : forall t t', P t -> G t t' -> P t';
  rule_log : forall e t, P t -> A e -> G t (log e t);
  rule_P_callback : forall r t, P t -> P (set_callback (push r) t);
  rule_P_execution : forall r t, P t -> P (set_execution (push r) t);
  rule_callback : forall r t t', G (set_callback (push r) t) t' -> G t (set_callback pop t');
  rule_execution : forall r t t', G (set_execution (push r) t) t' -> G t (set_execution pop t');
  rule_add : forall r i t, L (AddInterceptor r i) -> G t (set_registries (alter (add i) r) t);
  rule_clear : forall r t, L (ClearInterceptors r) -> G t (set_registries (alter clear r) t);
  rule_enable : forall r b t, L (SetEnabled r b) -> G t (set_registries (alter (setEnabled b) r) t);
  rule_statement : forall n r res body o,
    L (Statement n r res body o) -> Forall L body /\ A (Executed n);
  rule_route : forall n r body o, L (RouteOnly n r body o) -> Forall L body /\ A (Executed n);
  rule_code : forall evs i h, Forall L (code evs i h).1;
  rule_outermost : forall t r i h, P t -> outermost r t = true -> A (Hook r i h);
  rule_row : forall t r i v, P t -> within r t = true -> A (Hook r i (OnRow v))
}.

Section Rule.
Context {P : thread -> Prop} {L : action -> Prop} {A : event -> Prop} {G : thread -> thread -> Prop}.
Context (R : call_rule P L A G).
Let GP : PreOrder G := rule_preorder _ _ _ _ R.
#[local] Existing Instance GP.
Let G_P := rule_P _ _ _ _ R.
Let G_log := rule_log _ _ _ _ R.
Let P_callback := rule_P_callback _ _ _ _ R.
Let P_execution := rule_P_execution _ _ _ _ R.
Let G_callback := rule_callback _ _ _ _ R.
Let G_execution := rule_execution _ _ _ _ R.
Let G_add := rule_add _ _ _ _ R.
Let G_clear := rule_clear _ _ _ _ R.
Let G_enable := rule_enable _ _ _ _ R.
Let L_statement := rule_statement _ _ _ _ R.
Let L_route := rule_route _ _ _ _ R.
Let L_code := rule_code _ _ _ _ R.
Let A_outermost := rule_outermost _ _ _ _ R.
Let A_row := rule_row _ _ _ _ R.

Section Step.
Context (rec : action -> thread -> option thread).
Hypothesis Hrec : forall a t t', P t -> L a -> rec a t = Some t' -> G t t'.

Lemma actions_rule l t t' : P t -> Forall L l -> run_actions rec l t = Some t' -> G t t'.
Proof.
  intros HP HL. revert t HP; induction HL as [|a l Ha _ IH]; intros t HP; cbn; [by intros [= ->]|].
  destruct (rec a t) as [u|] eqn:Hu; [|done]. intros Ht. etrans; [by eapply Hrec|].
  apply IH; [by eapply G_P, Hrec|done].
Qed.

Lemma safeCall_rule r i h t st t' :
  P t -> A (Hook r i h) -> safeCall rec r i h t = Some (st, t') -> G t t'.
Proof.
  intros HP HA. unfold safeCall. pose proof (L_code (events (log (Hook r i h) t)) i h) as HL.
  destruct (code _ i h) as [acts vd]; cbn in HL. destruct (run_actions _ _ _) eqn:Hr; [|done].
  intros [= _ <-]. assert (Hl : G t (log (Hook r i h) t)) by auto.
  etrans; [exact Hl|]. by apply (actions_rule acts); [by eapply G_P| |].
Qed.

Lemma notify_loop_rule r ids h t t' :
  P t -> (forall i, A (Hook r i h)) -> notify_loop rec r ids h t = Some t' -> G t t'.
Proof.
  intros HP HA. revert t HP; induction ids as [|i ids IH]; intros t HP; cbn; [by intros [= ->]|].
  destruct (safeCall _ _ _ _ _) as [[vd u]|] eqn:Hu; [|done]. apply safeCall_rule in Hu; [|done..].
  intros Ht. etrans; [exact Hu|]. by apply IH; [eapply G_P|].
Qed.

Lemma notify_rule r h t t' : P t -> (forall i, A (Hook r i h)) -> notify rec r h t = Some t' -> G t t'.
Proof.
  intros HP HA. unfold notify. destruct (notify_loop _ _ _ _ _) as [u|] eqn:Hu; [|done].
  intros [= <-]. eapply G_callback, notify_loop_rule; eauto.
Qed.

Lemma runOnRoute_rule r t t' : P t -> runOnRoute rec r t = Some t' -> G t t'.
Proof.
  intros HP. unfold runOnRoute. destruct (outermost r t) eqn:Ho; cbn; [|by intros [= ->]].
  apply notify_rule; eauto.
Qed.

Lemma runOnRow_rule r v t t' : P t -> runOnRow rec r v t = Some t' -> G t t'.
Proof.
  intros HP. unfold runOnRow. destruct (within r t) eqn:Ho; cbn; [|by intros [= ->]].
  apply notify_rule; eauto.
Qed.

Lemma before_loop_rule r ids v st t st' t' :
  P t -> (forall i h, A (Hook r i h)) -> before_loop rec r ids v st t = Some (st', t') -> G t t'.
Proof.
  intros HP HA. revert st t HP; induction ids as [|i ids IH]; intros st t HP; cbn; [by intros [= _ ->]|].
  destruct (safeCall _ _ _ _ _) as [[vd u]|] eqn:Hu; [|done]. apply safeCall_rule in Hu; [|done..].
  destruct (status_ok _); cbn; [|by intros [= _ <-]]. intros Ht. etrans; [exact Hu|].
  by eapply IH; [eapply G_P|].
Qed.

Lemma runBefore_rule r v t st t' :
  P t -> (forall i h, A (Hook r i h)) -> runBeforeExecution rec r v t = Some (st, t') -> G t t'.
Proof.
  intros HP HA. unfold runBeforeExecution. destruct (within r t); cbn; [|by intros [= _ ->]].
  destruct (before_loop _ _ _ _ _ _) as [[s u]|] eqn:Hu; [|done].
  intros [= _ <-]. eapply G_callback, before_loop_rule; eauto.
Qed.

Lemma runAfter_rule r v t t' :
  P t -> (forall i h, A (Hook r i h)) -> runAfterExecution rec r v t = Some t' -> G t t'.
Proof.
  intros HP HA. unfold runAfterExecution. destruct (within r t); cbn; [|by intros [= ->]].
  apply notify_rule; eauto.
Qed.

Lemma execute_rule n body t t' :
  P t -> Forall L body -> A (Executed n) -> execute rec n body t = Some t' -> G t t'.
Proof.
  intros HP HL HA Ht. assert (Hl : G t (log (Executed n) t)) by auto.
  etrans; [exact Hl|]. eapply actions_rule; [by eapply G_P|done|exact Ht].
Qed.

(** The guard's destructor, seen from before the guard. *)
Lemma guard_exit_rule r v t u t' :
  P (set_execution (push r) t) -> G (set_execution (push r) t) u -> (forall i h, A (Hook r i h)) ->
  guard_exit rec r v u = Some t' -> G t t'.
Proof.
  intros HP Hu HA. unfold guard_exit. destruct (notify _ _ _ _) as [w|] eqn:Hw; [|done].
  intros [= <-]. apply (G_execution r). etrans; [exact Hu|]. eapply notify_rule; eauto.
Qed.

Lemma leave_rule r v ans t u ans' t' :
  P (set_execution (push r) t) -> G (set_execution (push r) t) u -> (forall i h, A (Hook r i h)) ->
  leave rec r v ans u = Some (ans', t') -> G t t'.
Proof.
  intros HP Hu HA. unfold leave. destruct (guard_exit _ _ _ _) eqn:Hg; [|done]. intros [= _ <-].
  by eapply guard_exit_rule.
Qed.

Lemma conclude_rule r res o t u ans t' :
  P (set_execution (push r) t) -> G (set_execution (push r) t) u -> (forall i h, A (Hook r i h)) ->
  conclude rec r res o u = Some (ans, t') -> G t t'.
Proof.
  intros HP Hu HA. unfold conclude. destruct (o_status o) as [st|]; [|by apply leave_rule].
  destruct (runAfterExecution _ _ _ _) as [y|] eqn:Ha; [|done]. apply runAfter_rule in Ha; [|by eauto..].
  apply leave_rule; [done|by etrans|done].
Qed.

Lemma interceptors_rule n r res body o t st t' :
  P t -> Forall L body -> A (Executed n) ->
  runWithInterceptors rec n r res body o t = Some (st, t') -> G t t'.
Proof.
  intros HP HL HE. unfold runWithInterceptors. destruct (outermost r t) eqn:Ho; cbn.
  2:{ destruct (execute _ _ _ _) eqn:Hx; [|done]. intros [= _ <-]. by eapply execute_rule. }
  assert (HA : forall i h, A (Hook r i h)) by eauto. pose proof (P_execution r _ HP) as HP'.
  destruct (runBeforeExecution _ _ _ _) as [[bs u]|] eqn:Hb; [|done].
  apply runBefore_rule in Hb; [|done..]. destruct (status_ok bs); cbn; [|by apply leave_rule].
  destruct (execute _ _ _ _) as [w|] eqn:Hx; [|done]. apply execute_rule in Hx; [|by eauto..].
  apply conclude_rule; [done|by etrans|done].
Qed.

Lemma act_rule a t t' : P t -> L a -> act rec a t = Some t' -> G t t'.
Proof.
  intros HP HL. destruct a as [n r res body o|n r body o|r v|r i|r|r b]; cbn.
  - destruct (L_statement _ _ _ _ _ HL) as [HB HE]. unfold statement.
    destruct (runOnRoute _ _ _) as [u|] eqn:Hu; [|done]. apply runOnRoute_rule in Hu; [|done].
    destruct (runWithInterceptors _ _ _ _ _ _ _) as [[s w]|] eqn:Hw; [|done]. intros [= <-].
    etrans; [exact Hu|]. eapply interceptors_rule; eauto.
  - destruct (L_route _ _ _ _ HL) as [HB HE]. unfold route_only.
    destruct (runOnRoute _ _ _) as [u|] eqn:Hu; [|done]. apply runOnRoute_rule in Hu; [|done].
    destruct (execute _ _ _ _) as [w|] eqn:Hw; [|done]. intros [= <-].
    etrans; [exact Hu|]. eapply execute_rule; eauto.
  - unfold stream_row. destruct (is_active r t); cbn; [|by intros [= ->]]. by apply runOnRow_rule.
  - intros [= <-]. auto.
  - intros [= <-]. auto.
  - intros [= <-]. auto.
Qed.

End Step.

Lemma run_rule f a t t' : P t -> L a -> run f a t = Some t' -> G t t'.
Proof.
  revert a t t'; induction f as [|f IH]; intros a t t'; [done|]. cbn. intros HP HL.
  by apply act_rule.
Qed.

End Rule.

Lemma run_keeps f a t t' : run f a t = Some t' -> keeps t t'.
Proof.
  refine (run_rule (P := fun _ => True) (L := fun _ => True) (A := fun _ => True) (G := keeps) _ f a t t' I I).
  split; try done; try (intros; apply keeps_registries).
  - exact keeps_preorder.
  - apply keeps_callback.
  - apply keeps_execution.
  - intros. split; [by apply Forall_true|done].
  - intros. split; [by apply Forall_true|done].
  - intros. by apply Forall_true.
Qed.

(** [count_] is the number of interceptors, so [active] is right to skip rows
    without taking a snapshot. *)
Definition counted (g : registry) : Prop := count_ g = length (interceptors_ g).

Lemma alter_counted f r l :
  (forall g, counted g -> counted (f g)) -> Forall counted l -> Forall counted (alter f r l).
Proof. intros Hf Hl. apply Forall_alter; [done|]. intros g _. apply Hf. Qed.

Lemma run_counted f a t t' :
  run f a t = Some t' -> Forall counted (registries t) -> Forall counted (registries t').
Proof.
  refine (run_rule (P := fun _ => True) (L := fun _ => True) (A := fun _ => True)
            (G := fun t t' => Forall counted (registries t) -> Forall counted (registries t')) _ f a t t' I I).
  split; try done.
  - split; [by intros x|]. intros x y z H1 H2 H. auto.
  - intros r i u _. apply alter_counted. intros g Hg. destruct i; [|done].
    unfold counted. cbn. by rewrite length_app.
  - intros r u _. by apply alter_counted.
  - intros r b u _. apply alter_counted. by intros [].
  - intros. split; [by apply Forall_true|done].
  - intros. split; [by apply Forall_true|done].
  - intros. by apply Forall_true.
Qed.

Lemma active_spec g : counted g -> active g = enabled_ g && negb (length (interceptors_ g) =? 0).
Proof. unfold counted, active. by intros ->. Qed.

(** ** Termination

    [settles F x]: with enough fuel [F] returns [x]. *)

Definition settles {X} (F : nat -> option X) (x : X) : Prop := exists f0, forall f, f0 <= f -> F f = Some x.

Lemma settles_ret {X} (x : X) : settles (fun _ => Some x) x.
Proof. by exists 0. Qed.

Lemma settles_bind {X Y} (F : nat -> option X) (K : nat -> X -> option Y) x y :
  settles F x -> settles (fun f => K f x) y ->
  settles (fun f => match F f with Some x => K f x | None => None end) y.
Proof.
  intros [f0 H0] [f1 H1]. exists (f0 + f1). intros f Hf. rewrite H0 by lia. apply H1. lia.
Qed.

(** The registries whose hooks are not running. *)
Definition idle (t : thread) : nat :=
  length (filter (fun r => r ∉ callbackStack t) (seq 0 (length (registries t)))).

Lemma keeps_idle t t' : keeps t t' -> idle t' = idle t.
Proof. intros (_ & He & Hl). unfold idle. by rewrite He, Hl. Qed.

Lemma filter_length_lt {X} (P Q : X -> Prop) `{!forall x, Decision (P x), !forall x, Decision (Q x)} x l :
  (forall y, P y -> Q y) -> x ∈ l -> Q x -> ~ P x -> length (filter P l) < length (filter Q l).
Proof.
  intros HPQ Hx HQ HP.
  assert (Hle : forall l, length (filter P l) <= length (filter Q l)).
  { clear Hx. intros k; induction k as [|y k IH]; [done|]. rewrite !filter_cons.
    destruct (decide (P y)), (decide (Q y)); cbn; try lia. exfalso; eauto. }
  induction l as [|y l IH]; [by apply elem_of_nil in Hx|]. rewrite !filter_cons.
  apply elem_of_cons in Hx as [<-|Hx].
  - rewrite decide_False, decide_True by done. cbn. pose proof (Hle l). lia.
  - specialize (IH Hx). destruct (decide (P y)), (decide (Q y)); cbn; try lia. exfalso; eauto.
Qed.

Lemma idle_push r t :
  r < length (registries t) -> r ∉ callbackStack t -> idle (set_callback (push r) t) < idle t.
Proof.
  intros Hr Hn. apply (filter_length_lt _ _ r); cbn; [set_solver| |done|set_solver].
  apply elem_of_seq. lia.
Qed.

Lemma depth_zero s r : (depth s r =? 0) = true <-> r ∉ s.
Proof.
  unfold depth. rewrite Nat.eqb_eq. split.
  - intros H Hr. apply nil_length_inv in H. assert (Hf : r ∈ filter (r =.) s) by by apply list_elem_of_filter.
    rewrite H in Hf. by apply elem_of_nil in Hf.
  - intros H. induction s as [|x s IH]; [done|]. rewrite filter_cons, decide_False by set_solver.
    apply IH. set_solver.
Qed.

Lemma enabled_lt r t : enabled r t = true -> r < length (registries t).
Proof. unfold enabled. destruct (registries t !! r) eqn:H; [|done]. intros _. by apply lookup_lt_Some in H. Qed.

(** What the guards tell about the callback stack. *)
Lemma guard_push r t :
  outermost r t = true \/ within r t = true -> idle (set_callback (push r) t) < idle t.
Proof.
  intros H. assert (Hb : enabled r t = true /\ (depth (callbackStack t) r =? 0) = true).
  { unfold outermost, within in H. by destruct H as [[[H1 H2]%andb_true_iff H3]%andb_true_iff
      |[[H1 H2]%andb_true_iff H3]%andb_true_iff]. }
  destruct Hb as [He Hd]. by apply idle_push; [apply enabled_lt|apply depth_zero].
Qed.

(** [F] settles on a result whose thread has the stacks of [t]. *)
Definition halts {X} (p : X -> thread) (t : thread) (F : nat -> option X) : Prop :=
  exists x, settles F x /\ keeps t (p x).

Lemma halts_ret {X} (p : X -> thread) t x : keeps t (p x) -> halts p t (fun _ => Some x).
Proof. intros H. exists x. split; [apply settles_ret|done]. Qed.

Lemma halts_bind {X Y} (p : X -> thread) (q : Y -> thread) t F K :
  halts p t F -> (forall x, keeps t (p x) -> halts q (p x) (fun f => K f x)) ->
  halts q t (fun f => match F f with Some x => K f x | None => None end).
Proof.
  intros (x & Hx & Hk) HK. destruct (HK x Hk) as (y & Hy & Hj). exists y.
  split; [by eapply settles_bind|by etrans].
Qed.

Lemma halts_callback r t F :
  halts id (set_callback (push r) t) F ->
  halts id t (fun f => match F f with Some t => Some (set_callback pop t) | None => None end).
Proof.
  intros (x & Hx & Hk). exists (set_callback pop x). split; [|by apply keeps_callback in Hk].
  eapply settles_bind; [exact Hx|apply settles_ret].
Qed.

Lemma halts_guard r t F :
  halts id (set_execution (push r) t) F ->
  halts id t (fun f => match F f with Some t => Some (set_execution pop t) | None => None end).
Proof.
  intros (x & Hx & Hk). exists (set_execution pop x). split; [|by apply keeps_execution in Hk].
  eapply settles_bind; [exact Hx|apply settles_ret].
Qed.

Definition halting (t : thread) (a : action) : Prop := halts id t (fun f => run f a t).

Lemma actions_halt l t :
  Forall (fun a => forall u, idle u = idle t -> halting u a) l ->
  halts id t (fun f => run_actions (run f) l t).
Proof.
  intros HL. remember (idle t) as k eqn:Hk. revert t Hk; induction HL as [|a l Ha _ IH]; intros t ->; cbn.
  { by apply halts_ret. }
  eapply (halts_bind id); [by apply Ha|]. intros u Hu. apply IH. by rewrite (keeps_idle t u Hu).
Qed.

Section Below.
Context (k : nat).
Hypothesis below : forall t a, idle t < k -> halting t a.

Lemma safeCall_halts r i h t : idle t < k -> halts snd t (fun f => safeCall (run f) r i h t).
Proof.
  intros Hk. unfold safeCall. destruct (code _ i h) as [acts vd].
  apply (halts_bind id snd t (fun f => run_actions (run f) acts (log (Hook r i h) t))
           (fun _ t => Some (vd, t))).
  - destruct (actions_halt acts (log (Hook r i h) t)) as (x & Hx & Hj); [|by exists x].
    apply Forall_true. intros a u Hu. apply below. rewrite Hu. exact Hk.
  - intros u _. by apply halts_ret.
Qed.

Lemma notify_loop_halts r ids h t : idle t < k -> halts id t (fun f => notify_loop (run f) r ids h t).
Proof.
  revert t; induction ids as [|i ids IH]; intros t Hk; cbn; [by apply halts_ret|].
  eapply (halts_bind snd); [by apply safeCall_halts|]. intros [vd u] Hu.
  apply IH. by rewrite (keeps_idle t u Hu).
Qed.

Lemma notify_halts r h t :
  idle (set_callback (push r) t) < k -> halts id t (fun f => notify (run f) r h t).
Proof. intros Hk. apply (halts_callback r). by apply notify_loop_halts. Qed.

Lemma before_loop_halts r ids v st t :
  idle t < k -> halts snd t (fun f => before_loop (run f) r ids v st t).
Proof.
  revert st t; induction ids as [|i ids IH]; intros st t Hk; cbn; [by apply halts_ret|].
  eapply (halts_bind snd); [by apply safeCall_halts|]. intros [vd u] Hu. cbn.
  destruct (status_ok _); cbn; [|by apply halts_ret]. apply IH. by rewrite (keeps_idle t u Hu).
Qed.

Lemma runBefore_halts r v t : idle t <= k -> halts snd t (fun f => runBeforeExecution (run f) r v t).
Proof.
  intros Hk. unfold runBeforeExecution. destruct (within r t) eqn:Hw; cbn; [|by apply halts_ret].
  pose proof (guard_push r t (or_intror Hw)) as Hp.
  destruct (before_loop_halts r (snapshot r t) v status_OK (set_callback (push r) t)) as ([st u] & Hu & Hj);
    [lia|].
  exists (st, set_callback pop u). split; [|by apply keeps_callback in Hj].
  eapply settles_bind; [exact Hu|apply settles_ret].
Qed.

Lemma hook_halts r h t (b : bool) :
  (b = true -> outermost r t = true \/ within r t = true) -> idle t <= k ->
  halts id t (fun f => if negb b then Some t else notify (run f) r h t).
Proof.
  intros Hb Hk. destruct b; cbn; [|by apply halts_ret].
  apply notify_halts. pose proof (guard_push r t (Hb eq_refl)). lia.
Qed.

End Below.

Definition free (r : nat) (t : thread) : Prop := r < length (registries t) /\ r ∉ callbackStack t.

Lemma outermost_free r t : outermost r t = true -> free r t.
Proof.
  unfold outermost. intros [[He _]%andb_true_iff Hd]%andb_true_iff.
  split; [by apply enabled_lt|by apply depth_zero].
Qed.

Lemma keeps_free r t t' : keeps t t' -> free r t -> free r t'.
Proof. intros (_ & Hc & Hl). unfold free. by rewrite Hc, Hl. Qed.

(** The parts of a statement halt when hooks and its body do. *)
Section Halting.
Context (k : nat).
Hypothesis below : forall t a, idle t < k -> halting t a.

Lemma leave_halts r v ans t u :
  idle t <= k -> free r t -> keeps (set_execution (push r) t) u ->
  halts snd t (fun f => leave (run f) r v ans u).
Proof.
  intros Hk Hf Hu. unfold leave.
  destruct (notify_halts k below r (OnCompletion v) u) as (x & Hx & Hj).
  { destruct (keeps_free r _ _ Hu Hf) as [H1 H2]. pose proof (idle_push r u H1 H2). pose proof (keeps_idle _ _ Hu) as Hi.
    change (idle (set_execution (push r) t)) with (idle t) in Hi. lia. }
  exists (ans, set_execution pop x). split.
  - eapply settles_bind; [|apply settles_ret]. eapply settles_bind; [exact Hx|apply settles_ret].
  - apply (keeps_execution r). by etrans.
Qed.

Lemma conclude_halts r res o t u :
  idle t <= k -> free r t -> keeps (set_execution (push r) t) u ->
  halts snd t (fun f => conclude (run f) r res o u).
Proof.
  intros Hk Hf Hu. unfold conclude. destruct (o_status o) as [st|]; [|by apply leave_halts].
  destruct (hook_halts k below r (AfterExecution (final_view res st (o_affected o))) u (within r u))
    as (y & Hy & Hj); [auto|rewrite (keeps_idle _ _ Hu); exact Hk|].
  destruct (leave_halts r (final_view res st (o_affected o)) (Some st) t y) as (x & Hx & Hj');
    [done..|by etrans|].
  exists x. split; [|done]. eapply settles_bind; [exact Hy|exact Hx].
Qed.

Lemma execute_halts n body t :
  Forall (fun a => forall u, idle u = idle t -> halting u a) body ->
  halts id t (fun f => execute (run f) n body t).
Proof. intros HB. destruct (actions_halt body (log (Executed n) t) HB) as (x & Hx & Hj). by exists x. Qed.

Lemma interceptors_halt n r res body o t :
  idle t = k -> Forall (fun a => forall u, idle u = k -> halting u a) body ->
  halts snd t (fun f => runWithInterceptors (run f) n r res body o t).
Proof.
  intros Hk HB. unfold runWithInterceptors. destruct (outermost r t) eqn:Ho; cbn.
  2:{ eapply (halts_bind id snd); [apply execute_halts; by rewrite Hk|]. intros u _. by apply halts_ret. }
  apply outermost_free in Ho.
  destruct (runBefore_halts k below r (fresh_view res) (set_execution (push r) t)) as ([bs u] & Hb & Hu);
    [change (idle t <= k); lia|]. cbn in Hu. pose proof (keeps_idle _ _ Hu : idle u = idle t) as Hi.
  assert (Hx : halts snd t (fun f => if negb (status_ok bs) then leave (run f) r (mkView bs false 0) (Some bs) u
                 else match execute (run f) n body u with Some t => conclude (run f) r res o t | None => None end)).
  { destruct (status_ok bs); cbn; [|apply leave_halts; [lia|done|done]].
    destruct (execute_halts n body u) as (w & Hw & Hj); [by rewrite Hi, Hk|].
    destruct (conclude_halts r res o t w) as (x & Hx & Hj'); [lia|done|by etrans|].
    exists x. split; [by eapply settles_bind|done]. }
  destruct Hx as (x & Hx & Hj). exists x. split; [|done]. eapply settles_bind; [exact Hb|exact Hx].
Qed.

End Halting.

(** Induction on calls, with the calls inside a statement. *)
Fixpoint action_ind' (P : action -> Prop)
    (HS : forall n r res body o, Forall P body -> P (Statement n r res body o))
    (HR : forall n r body o, Forall P body -> P (RouteOnly n r body o))
    (HW : forall r v, P (StreamRow r v)) (HA : forall r i, P (AddInterceptor r i))
    (HC : forall r, P (ClearInterceptors r)) (HE : forall r b, P (SetEnabled r b)) (a : action) : P a :=
  let rec := action_ind' P HS HR HW HA HC HE in
  let all := fix all (l : list action) : Forall P l :=
    match l with [] => Forall_nil_2 P | a :: l => Forall_cons_2 P a l (rec a) (all l) end in
  match a with
  | Statement n r res body o => HS n r res body o (all body)
  | RouteOnly n r body o => HR n r body o (all body)
  | StreamRow r v => HW r v
  | AddInterceptor r i => HA r i
  | ClearInterceptors r => HC r
  | SetEnabled r b => HE r b
  end.

(** One unit of fuel more does not change a settled result. *)
Lemma halts_step {X} (p : X -> thread) t (F : nat -> option X) (H : nat -> option X) :
  halts p t F -> (forall f, H (S f) = F f) -> halts p t H.
Proof.
  intros (x & [f0 Hx] & Hk) HF. exists x. split; [|done]. exists (S f0). intros [|f] Hf; [lia|].
  rewrite HF. apply Hx. lia.
Qed.

Lemma act_halts k a :
  (forall t a, idle t < k -> halting t a) -> forall t, idle t = k -> halting t a.
Proof.
  intros Hlow. induction a as [n r res body o HB|n r body o HB|r v|r i|r|r b] using action_ind';
    intros t Hk; eapply halts_step; try (intros f; cbn [run act]; reflexivity).
  - eapply (halts_bind snd id); [|intros [st u] _; by apply halts_ret].
    eapply (halts_bind id snd); [apply (hook_halts k Hlow r OnRoute t (outermost r t)); [auto|lia]|].
    intros u Hu. apply (interceptors_halt k); [done| |done]. by rewrite (keeps_idle t u Hu).
  - eapply (halts_bind snd id); [|intros [st u] _; by apply halts_ret].
    eapply (halts_bind id snd); [apply (hook_halts k Hlow r OnRoute t (outermost r t)); [auto|lia]|].
    intros u Hu. eapply (halts_bind id snd); [|intros w _; by apply halts_ret].
    apply execute_halts. cbn. by rewrite (keeps_idle t u Hu), Hk.
  - unfold stream_row. destruct (is_active r t); cbn; [|by apply halts_ret].
    apply (hook_halts k Hlow r (OnRow v) t (within r t)); [auto|lia].
  - apply halts_ret, keeps_registries.
  - apply halts_ret, keeps_registries.
  - apply halts_ret, keeps_registries.
Qed.

(** C32. Whatever the interceptors do, and however often their hooks issue
    statements that run hooks again, every call returns, with the same result for
    all large enough amounts of fuel, and gives both stacks back as they were. *)
Theorem hooks_terminate a t :
  exists t', (exists f0, forall f, f0 <= f -> run f a t = Some t')
             /\ executionStack t' = executionStack t /\ callbackStack t' = callbackStack t.
Proof.
  assert (H : forall k t a, idle t < k -> halting t a).
  { intros k; induction k as [|k IH]; intros u b Hk; [lia|].
    apply (act_halts (idle u)); [|done]. intros w c Hw. apply IH. lia. }
  destruct (H (S (idle t)) t a) as (t' & Hs & He & Hc & _); [lia|]. by exists t'.
Qed.

(** ** The life of a statement

    A call is foreign to registry [r] and statement [n] when it neither changes
    the registry nor is the statement.  An event is watched when it is a hook of
    the registry other than [onRow], or the execution of the statement. *)

Fixpoint foreign (r n : nat) (a : action) : bool :=
  match a with
  | Statement m _ _ body _ | RouteOnly m _ body _ => negb (m =? n) && forallb (foreign r n) body
  | StreamRow _ _ => true
  | AddInterceptor q _ | ClearInterceptors q | SetEnabled q _ => negb (q =? r)
  end.

Definition watched (r n : nat) (e : event) : bool :=
  match e with
  | Hook q _ (OnRow _) => false
  | Hook q _ _ => q =? r
  | Executed m => m =? n
  end.

(** The watched events between two threads with the same stacks and the same
    registry [r]. *)
Definition seen (r n : nat) (l : list event) (t t' : thread) : Prop :=
  keeps t t' /\ registries t' !! r = registries t !! r
  /\ exists new, events t' = events t ++ new /\ List.filter (watched r n) new = l.

Lemma seen_refl r n t : seen r n [] t t.
Proof. split_and!; [done..|]. exists []. by rewrite app_nil_r. Qed.

Lemma seen_trans r n l1 l2 x y z : seen r n l1 x y -> seen r n l2 y z -> seen r n (l1 ++ l2) x z.
Proof.
  intros (K1 & G1 & e1 & E1 & F1) (K2 & G2 & e2 & E2 & F2). split_and!; [by etrans|congruence|].
  exists (e1 ++ e2). rewrite E2, E1, app_assoc, List.filter_app. by subst.
Qed.

Lemma seen_log r n e t : seen r n (List.filter (watched r n) [e]) t (log e t).
Proof. split_and!; [done..|]. by exists [e]. Qed.

Lemma seen_callback r n l q t t' :
  seen r n l (set_callback (push q) t) t' -> seen r n l t (set_callback pop t').
Proof. intros (K & Hg & He). split_and!; [by eapply keeps_callback|done..]. Qed.

Lemma seen_execution r n l q t t' :
  seen r n l (set_execution (push q) t) t' -> seen r n l t (set_execution pop t').
Proof. intros (K & Hg & He). split_and!; [by eapply keeps_execution|done..]. Qed.

Lemma seen_registries r n f q t :
  negb (q =? r) = true -> seen r n [] t (set_registries (alter f q) t).
Proof.
  intros H%negb_true_iff%Nat.eqb_neq. split_and!; [apply keeps_registries| |].
  - cbn. by rewrite list_lookup_alter_ne.
  - exists []. cbn. by rewrite app_nil_r.
Qed.

Lemma seen_snapshot r n l t t' : seen r n l t t' -> snapshot r t' = snapshot r t /\ enabled r t' = enabled r t.
Proof. intros (_ & H & _). unfold snapshot, enabled. by rewrite H. Qed.

Section Watch.
Context (r n : nat).
Hypothesis steady : forall evs i h, forallb (foreign r n) (code evs i h).1 = true.

Lemma forallb_all (f : action -> bool) l : forallb f l = true -> Forall (fun a => f a = true) l.
Proof. intros H. apply Forall_forall. intros a Ha%list_elem_of_In. by apply (proj1 (forallb_forall f l) H). Qed.

(** Inside a hook or an execution of the registry's client nothing is watched. *)
Lemma quiet_rule :
  call_rule (fun t => r ∈ executionStack t \/ r ∈ callbackStack t) (fun a => foreign r n a = true)
    (fun e => watched r n e = false) (seen r n []).
Proof.
  split.
  - split; [intros t; apply seen_refl|]. intros x y z. apply (seen_trans r n [] []).
  - intros t t' H ((He & Hc & _) & _). by rewrite He, Hc.
  - intros e t _ He. pose proof (seen_log r n e t) as H. cbn in H. by rewrite He in H.
  - cbn. intros q t [H|H]; [by left|right]. by right.
  - cbn. intros q t [H|H]; [left; by right|by right].
  - intros q t t'. apply seen_callback.
  - intros q t t'. apply seen_execution.
  - intros q i t. apply seen_registries.
  - intros q t. apply seen_registries.
  - intros q b t. apply seen_registries.
  - cbn. intros m q res body o [Hm Hb]%andb_true_iff. split; [by apply forallb_all|by apply negb_true_iff].
  - cbn. intros m q body o [Hm Hb]%andb_true_iff. split; [by apply forallb_all|by apply negb_true_iff].
  - intros evs i h. apply forallb_all, steady.
  - intros t q i h HP Ho. assert (Hq : q <> r).
    { intros ->. unfold outermost in Ho. apply andb_true_iff in Ho as [[_ He]%andb_true_iff Hc].
      apply depth_zero in He, Hc. by destruct HP. }
    apply Nat.eqb_neq in Hq. cbn. by destruct h.
  - done.
Qed.

Lemma quiet_actions f l t t' :
  r ∈ executionStack t \/ r ∈ callbackStack t -> forallb (foreign r n) l = true ->
  run_actions (run f) l t = Some t' -> seen r n [] t t'.
Proof.
  intros HP HL. apply (actions_rule quiet_rule); [|done|by apply forallb_all].
  intros a u u'. apply (run_rule quiet_rule).
Qed.

Definition on (h : hook) (ids : list nat) : list event := map (fun i => Hook r i h) ids.

Lemma safeCall_seen f i h t vd t' :
  (forall v, h <> OnRow v) -> r ∈ callbackStack t -> safeCall (run f) r i h t = Some (vd, t') ->
  seen r n (on h [i]) t t' /\ exists evs, (code evs i h).2 = vd.
Proof.
  intros Hh Hr. unfold safeCall. pose proof (steady (events (log (Hook r i h) t)) i h) as HL.
  destruct (code _ i h) as [acts vd'] eqn:Hc; cbn in HL. destruct (run_actions _ _ _) eqn:Ha; [|done].
  intros [= <- <-]. apply quiet_actions in Ha; [|by right|done]. split; [|eexists; by rewrite Hc].
  pose proof (seen_trans _ _ _ _ _ _ _ (seen_log r n (Hook r i h) t) Ha) as H. cbn in H |- *.
  rewrite app_nil_r, Nat.eqb_refl in H. destruct h; try done. by destruct (Hh v).
Qed.

Lemma keeps_in t t' : keeps t t' -> r ∈ callbackStack t -> r ∈ callbackStack t'.
Proof. by intros (_ & -> & _). Qed.

Lemma notify_loop_seen f ids h t t' :
  (forall v, h <> OnRow v) -> r ∈ callbackStack t -> notify_loop (run f) r ids h t = Some t' ->
  seen r n (on h ids) t t'.
Proof.
  intros Hh. revert t; induction ids as [|i ids IH]; intros t Hr; cbn [notify_loop].
  { intros [= ->]. apply seen_refl. }
  destruct (safeCall _ _ _ _ _) as [[vd u]|] eqn:Hu; [|done]. apply safeCall_seen in Hu as [Hu _]; [|done..].
  intros Ht. apply (seen_trans _ _ (on h [i]) (on h ids) _ u); [done|]. apply IH; [|done].
  eapply keeps_in; [apply Hu|done].
Qed.

Lemma notify_seen f h t t' :
  (forall v, h <> OnRow v) -> notify (run f) r h t = Some t' -> seen r n (on h (snapshot r t)) t t'.
Proof.
  intros Hh. unfold notify. destruct (notify_loop _ _ _ _ _) as [u|] eqn:Hu; [|done]. intros [= <-].
  apply (seen_callback _ _ _ r). apply notify_loop_seen in Hu; [done|done|]. cbn. by left.
Qed.

(** An interceptor lets a statement pass unless it answers with a failure. *)
Definition passes (v : ExecutionView) (i : nat) : Prop :=
  exists evs, match (code evs i (BeforeExecution v)).2 with Some st => status_ok st = true | None => True end.

Lemma before_loop_seen f ids v st t st' t' :
  r ∈ callbackStack t -> status_ok st = true ->
  before_loop (run f) r ids v st t = Some (st', t') ->
  if status_ok st' then Forall (passes v) ids /\ seen r n (on (BeforeExecution v) ids) t t'
  else exists pre i post evs, ids = pre ++ i :: post /\ (code evs i (BeforeExecution v)).2 = Some st'
       /\ Forall (passes v) pre /\ seen r n (on (BeforeExecution v) (pre ++ [i])) t t'.
Proof.
  revert st t; induction ids as [|i ids IH]; intros st t Hr Hst; cbn [before_loop].
  { intros [= <- <-]. rewrite Hst. split; [done|apply seen_refl]. }
  destruct (safeCall _ _ _ _ _) as [[vd u]|] eqn:Hu; [|done].
  apply safeCall_seen in Hu as (Hu & evs & Hv); [|done..]. destruct (status_ok (default st vd)) eqn:Eo; cbn [negb].
  - assert (Hp : passes v i) by (exists evs; rewrite Hv; by destruct vd).
    intros Ht. apply IH in Ht; [|eapply keeps_in; [apply Hu|done]|done]. destruct (status_ok st').
    + destruct Ht as [Hf Ht]. split; [by constructor|].
      by apply (seen_trans _ _ (on _ [i]) (on _ ids) _ u).
    + destruct Ht as (pre & j & post & evs' & -> & Hj & Hf & Ht). exists (i :: pre), j, post, evs'.
      split_and!; [done|done|by constructor|]. by apply (seen_trans _ _ (on _ [i]) (on _ (pre ++ [j])) _ u).
  - intros [= <- <-]. rewrite Eo. exists [], i, ids, evs. split_and!; [done| |done|done].
    rewrite Hv. destruct vd as [s|]; cbn in *; congruence.
Qed.

(** The parts of the watched statement. *)
Lemma within_inside t u :
  outermost r t = true -> executionStack u = r :: executionStack t -> callbackStack u = callbackStack t ->
  enabled r u = enabled r t -> within r u = true.
Proof.
  unfold outermost, within. intros [[H1 H2]%andb_true_iff H3]%andb_true_iff -> -> ->. rewrite H1, H3.
  unfold depth in *. rewrite filter_cons, decide_True by done. apply Nat.eqb_eq in H2. cbn [length].
  by rewrite H2.
Qed.

Lemma leave_seen f v ans t u l ans' t' :
  seen r n l (set_execution (push r) t) u -> leave (run f) r v ans u = Some (ans', t') ->
  ans' = ans /\ seen r n (l ++ on (OnCompletion v) (snapshot r t)) t t'.
Proof.
  intros Hu. unfold leave, guard_exit. destruct (notify _ _ _ _) as [w|] eqn:Hw; [|done].
  intros [= <- <-]. split; [done|]. apply notify_seen in Hw; [|done].
  rewrite (proj1 (seen_snapshot _ _ _ _ _ Hu)) in Hw.
  apply (seen_execution _ _ _ r). by eapply seen_trans.
Qed.

(** The hooks that follow the execution. *)
Definition aftermath (res : bool) (o : outcome) (ids : list nat) : list event :=
  match o_status o with
  | None => on (OnCompletion (fresh_view res)) ids
  | Some st =>
      let v := final_view res st (o_affected o) in on (AfterExecution v) ids ++ on (OnCompletion v) ids
  end.

Lemma conclude_seen f res o t u l ans t' :
  outermost r t = true -> seen r n l (set_execution (push r) t) u ->
  conclude (run f) r res o u = Some (ans, t') ->
  ans = o_status o /\ seen r n (l ++ aftermath res o (snapshot r t)) t t'.
Proof.
  intros Ho Hu. unfold conclude, aftermath. destruct (o_status o) as [st|]; [|by apply leave_seen].
  unfold runAfterExecution. assert (Hw : within r u = true).
  { pose proof (proj2 (seen_snapshot _ _ _ _ _ Hu)) as Hn. destruct Hu as ((He & Hc & _) & _).
    by apply (within_inside t). }
  rewrite Hw. cbn. destruct (notify _ _ _ _) as [y|] eqn:Hy; [|done]. apply notify_seen in Hy; [|done].
  rewrite (proj1 (seen_snapshot _ _ _ _ _ Hu)) in Hy. intros Ht.
  rewrite app_assoc. eapply leave_seen; [|exact Ht]. by eapply seen_trans.
Qed.

Lemma route_seen f t t' :
  outermost r t = true -> runOnRoute (run f) r t = Some t' ->
  seen r n (on OnRoute (snapshot r t)) t t' /\ outermost r t' = true.
Proof.
  intros Ho. unfold runOnRoute. rewrite Ho. cbn. intros Ht. apply notify_seen in Ht; [|done].
  split; [done|]. destruct (seen_snapshot _ _ _ _ _ Ht) as [_ He]. destruct Ht as ((Hx & Hc & _) & _).
  unfold outermost in *. by rewrite He, Hx, Hc.
Qed.

Lemma statement_seen f res body o t ans t' :
  forallb (foreign r n) body = true -> outermost r t = true ->
  runWithInterceptors (run f) n r res body o t = Some (ans, t') ->
  let ids := snapshot r t in let v := fresh_view res in
  (Forall (passes v) ids /\ ans = o_status o
   /\ seen r n (on (BeforeExecution v) ids ++ Executed n :: aftermath res o ids) t t')
  \/ exists pre i post st evs,
       ids = pre ++ i :: post /\ Forall (passes v) pre
       /\ (code evs i (BeforeExecution v)).2 = Some st /\ status_ok st = false /\ ans = Some st
       /\ seen r n (on (BeforeExecution v) (pre ++ [i]) ++ on (OnCompletion (mkView st false 0)) ids) t t'.
Proof.
  intros HB Ho. unfold runWithInterceptors. rewrite Ho. cbn [negb].
  unfold runBeforeExecution. rewrite (within_inside t (set_execution (push r) t)) by done.
  cbn [negb]. change (snapshot r (set_execution (push r) t)) with (snapshot r t).
  destruct (before_loop _ _ _ _ _ _) as [[st u]|] eqn:Hb; [|done].
  apply before_loop_seen in Hb; [|cbn; by left|done]. destruct (status_ok st) eqn:Es; cbn [negb].
  - destruct Hb as [Hf Hb%seen_callback]. destruct (execute _ _ _ _) as [w|] eqn:Hx; [|done].
    intros Hc. left. split; [done|]. apply quiet_actions in Hx; [|left|done].
    2:{ cbn. destruct Hb as ((He & _) & _). cbn in He. rewrite He. by left. }
    pose proof (seen_log r n (Executed n) (set_callback pop u)) as Hl. cbn in Hl. rewrite Nat.eqb_refl in Hl.
    pose proof (seen_trans _ _ _ _ _ _ _ Hb (seen_trans _ _ _ _ _ _ _ Hl Hx)) as Hs.
    eapply conclude_seen in Hc as [-> Hc]; [|done|exact Hs]. by rewrite <- app_assoc in Hc.
  - destruct Hb as (pre & i & post & evs & He & Hv & Hf & Hb%seen_callback). intros Hc. right.
    eapply leave_seen in Hc as [-> Hc]; [|exact Hb]. by exists pre, i, post, st, evs.
Qed.

Lemma inner_route_seen f m o t t' :
  m <> n -> outermost r t = true -> run f (RouteOnly m r [] o) t = Some t' ->
  seen r n (on OnRoute (snapshot r t)) t t'.
Proof.
  intros Hm%Nat.eqb_neq Ho. destruct f as [|f]; [done|]. cbn [run act]. unfold route_only.
  destruct (runOnRoute _ _ _) as [u|] eqn:Hu; [|done]. apply route_seen in Hu as [Hu _]; [|done].
  cbn. intros [= <-]. pose proof (seen_log r n (Executed m) u) as Hl. cbn in Hl. rewrite Hm in Hl.
  rewrite <- (app_nil_r (on _ _)). by eapply seen_trans.
Qed.

End Watch.

(** C16. The life of an outermost statement, whatever statements the hooks issue
    on their own: every interceptor sees [onRoute]; they are asked in order until
    one answers with a failure, and then the statement is not executed and has
    that answer; otherwise (an exception counts as consent) it is executed once,
    with its own answer, and every interceptor sees [afterExecution], unless the
    execution threw; in each case every interceptor sees [onCompletion] once.  Hooks
    and body do not change this registry while the statement runs. *)
Theorem hook_lifecycle r n f res body o t ans t' :
  (forall evs i h, forallb (foreign r n) (code evs i h).1 = true) ->
  forallb (foreign r n) body = true -> outermost r t = true ->
  statement (run f) n r res body o t = Some (ans, t') ->
  let ids := snapshot r t in let v := fresh_view res in
  exists new, events t' = events t ++ new /\
  ((Forall (passes v) ids /\ ans = o_status o
    /\ List.filter (watched r n) new
       = on r OnRoute ids ++ on r (BeforeExecution v) ids ++ Executed n :: aftermath r res o ids)
   \/ exists pre i post st evs,
        ids = pre ++ i :: post /\ Forall (passes v) pre
        /\ (code evs i (BeforeExecution v)).2 = Some st /\ status_ok st = false /\ ans = Some st
        /\ List.filter (watched r n) new
           = on r OnRoute ids ++ on r (BeforeExecution v) (pre ++ [i])
             ++ on r (OnCompletion (mkView st false 0)) ids).
Proof.
  intros Hs HB Ho. unfold statement. destruct (runOnRoute _ _ _) as [u|] eqn:Hu; [|done].
  apply (route_seen r n Hs) in Hu as [Hu Ho']; [|done]. intros Ht.
  pose proof (proj1 (seen_snapshot _ _ _ _ _ Hu)) as Hsn. apply (statement_seen r n Hs) in Ht; [|done..].
  rewrite Hsn in Ht. cbn zeta in *. destruct Ht as [(Hf & Ha & Ht)|(pre & i & post & st & evs & He & Hf & Hv & Hst & Ha & Ht)].
  - destruct (seen_trans _ _ _ _ _ _ _ Hu Ht) as (_ & _ & new & Hn & Hl). exists new. split; [done|]. by left.
  - destruct (seen_trans _ _ _ _ _ _ _ Hu Ht) as (_ & _ & new & Hn & Hl). exists new. split; [done|].
    right. by exists pre, i, post, st, evs.
Qed.

(** A [queryAll] on a data source, which calls the [queryAll] of a session, is
    executed whatever the interceptors would answer: no interceptor is asked or
    told of its end, and each sees [onRoute] twice. *)
Theorem queryAll_bypasses_hooks r n m f o t ans t' :
  (forall evs i h, forallb (foreign r n) (code evs i h).1 = true) ->
  m <> n -> outermost r t = true ->
  route_only (run f) n r [RouteOnly m r [] o] o t = Some (ans, t') ->
  ans = o_status o /\ exists new, events t' = events t ++ new
  /\ List.filter (watched r n) new
     = on r OnRoute (snapshot r t) ++ Executed n :: on r OnRoute (snapshot r t).
Proof.
  intros Hs Hm Ho. unfold route_only. destruct (runOnRoute _ _ _) as [u|] eqn:Hu; [|done].
  apply (route_seen r n Hs) in Hu as [Hu Ho']; [|done]. unfold execute. cbn [run_actions].
  destruct (run f _ _) as [w|] eqn:Hw; [|done]. intros [= <- <-]. split; [done|].
  apply (inner_route_seen r n Hs) in Hw; [|done..].
  pose proof (seen_log r n (Executed n) u) as Hl. cbn in Hl. rewrite Nat.eqb_refl in Hl.
  change (snapshot r (log (Executed n) u)) with (snapshot r u) in Hw.
  rewrite (proj1 (seen_snapshot _ _ _ _ _ Hu)) in Hw.
  by destruct (seen_trans _ _ _ _ _ _ _ Hu (seen_trans _ _ _ _ _ _ _ Hl Hw)) as (_ & _ & new & Hn & Hf); exists new.
Qed.

End Run.

(** ** Samples *)

(** Two interceptors: the first issues a statement of its own whenever a
    statement is routed and throws when asked, the second refuses everything. *)
Definition quota : Status := status_error SqlBlocked $"tenant over quota".

Definition sample_code (evs : list event) (i : nat) (h : hook) : list action * option Status :=
  match i, h with
  | 0, OnRoute => ([Statement 9 0 true [] (mkOutcome (Some status_OK) 0)], None)
  | 0, _ => ([], None)
  | _, _ => ([], Some quota)
  end.

Definition sample_thread (ids : list nat) : thread := mkThread [mkRegistry true (length ids) ids] [] [] [].

Definition sample_outcome : outcome := mkOutcome (Some status_OK) 3.

Example statement_refused :
  (fun x => x.1) <$> statement sample_code (run sample_code 3) 1 0 false [] sample_outcome (sample_thread [0; 1])
  = Some (Some quota).
Proof. reflexivity. Qed.

Lemma sample_steady evs i h : forallb (foreign 0 1) (sample_code evs i h).1 = true.
Proof. destruct i as [|i], h; reflexivity. Qed.

Lemma hook_lifecycle_witness :
  exists ans t' new, statement sample_code (run sample_code 3) 1 0 false [] sample_outcome (sample_thread [0]) = Some (ans, t')
    /\ events t' = [] ++ new.
Proof.
  destruct (statement sample_code (run sample_code 3) 1 0 false [] sample_outcome (sample_thread [0]))
    as [[ans t']|] eqn:E; [|discriminate E].
  destruct (hook_lifecycle sample_code 0 1 3 false [] sample_outcome (sample_thread [0]) ans t'
              sample_steady eq_refl eq_refl E) as (new & H & _).
  exists ans, t', new. split; [reflexivity|exact H].
Defined.

Lemma queryAll_bypasses_hooks_witness :
  exists ans t', route_only sample_code (run sample_code 3) 1 0 [RouteOnly 2 0 [] sample_outcome] sample_outcome
                   (sample_thread [0; 1]) = Some (ans, t') /\ ans = Some status_OK.
Proof.
  destruct (route_only sample_code (run sample_code 3) 1 0 [RouteOnly 2 0 [] sample_outcome] sample_outcome
              (sample_thread [0; 1])) as [[ans t']|] eqn:E; [|discriminate E].
  destruct (queryAll_bypasses_hooks sample_code 0 1 2 3 sample_outcome (sample_thread [0; 1]) ans t'
              sample_steady ltac:(discriminate) eq_refl E) as [H _].
  exists ans, t'. split; [reflexivity|exact H].
Defined.

End Interceptor.
