(* ===== verification/Binary64.v ===== *)
(** * Rounding of binary64 numbers

    The standard library defines the operations of IEEE 754 on [spec_float] and proves
    nothing about them.  This file proves, for non-negative finite numbers of the format
    with 53 bits that the code's [double] is, what the rate limiter of Gate.v needs: the
    results are canonical, so that the comparison is that of the values, and no
    operation gives more than the exact result up to a relative error of [ulp] and an
    absolute error of [tiny], the spacing of the smallest numbers. *)

From Stdlib Require Import SpecFloat QArith Lqa Qpower.
From S2P Require Import Prelude.

Module Binary64.
#[local] Open Scope Z_scope.

(** ** Binary digits *)

Lemma digits_log2 (p : positive) : Zpos (digits2_pos p) = Z.log2 (Zpos p) + 1.
Proof.
  assert (H : digits2_pos p = Pos.size p) by (induction p as [p IH|p IH|]; cbn; congruence).
  rewrite H. destruct p; cbn; lia.
Qed.

Lemma digits_bounds (m : Z) : 0 < m -> 2 ^ (Zdigits2 m - 1) <= m < 2 ^ Zdigits2 m.
Proof.
  destruct m as [|p|p]; try lia. intros _. cbn [Zdigits2]. rewrite digits_log2.
  replace (Z.log2 (Zpos p) + 1 - 1) with (Z.log2 (Zpos p)) by lia. rewrite Z.add_1_r. apply Z.log2_spec. lia.
Qed.

Lemma digits_pos (m : Z) : 0 < m -> 0 < Zdigits2 m.
Proof. destruct m; [lia|cbn; lia..]. Qed.

(** The number of digits from bounds. *)
Lemma digits_unique (m d : Z) : 0 < d -> 2 ^ (d - 1) <= m < 2 ^ d -> Zdigits2 m = d.
Proof.
  intros Hd [H1 H2]. assert (Hm : 0 < m) by (pose proof (Z.pow_pos_nonneg 2 (d - 1)); lia).
  destruct m as [|p|p]; try lia. cbn [Zdigits2]. rewrite digits_log2.
  rewrite (Z.log2_unique (Zpos p) (d - 1)); [lia|lia|]. replace (Z.succ (d - 1)) with d by lia. lia.
Qed.

Lemma digits_shift (m k : Z) : 0 < m -> 0 <= k -> Zdigits2 (m * 2 ^ k) = Zdigits2 m + k.
Proof.
  intros Hm Hk. pose proof (digits_pos m Hm). pose proof (digits_bounds m Hm) as [H1 H2]. apply digits_unique; [lia|].
  replace (Zdigits2 m + k - 1) with (Zdigits2 m - 1 + k) by lia. rewrite !Z.pow_add_r by lia.
  pose proof (Z.pow_pos_nonneg 2 k). nia.
Qed.

Lemma digits_div (m k : Z) : 0 <= k -> 0 < m / 2 ^ k -> Zdigits2 (m / 2 ^ k) = Zdigits2 m - k.
Proof.
  intros Hk Hp. pose proof (Z.pow_pos_nonneg 2 k ltac:(lia) Hk) as H2k.
  assert (Hm : 2 ^ k <= m). { apply Z.nlt_ge. intros Hlt. assert (Hc : m < 0 \/ 0 <= m < 2 ^ k) by lia. destruct Hc as [Hc|Hc].
    - pose proof (Z.div_lt_upper_bound m (2 ^ k) 0 H2k). lia.
    - rewrite Z.div_small in Hp; lia. }
  assert (Hm0 : 0 < m) by lia. pose proof (digits_bounds m Hm0) as [H1 H2].
  assert (Hd : k < Zdigits2 m). { apply (Z.pow_lt_mono_r_iff 2); [lia| |lia]. pose proof (digits_pos m Hm0); lia. }
  apply digits_unique; [lia|]. split.
  - apply Z.div_le_lower_bound; [done|]. rewrite <- Z.pow_add_r by lia. replace (k + (Zdigits2 m - k - 1)) with (Zdigits2 m - 1) by lia. done.
  - apply Z.div_lt_upper_bound; [done|]. rewrite <- Z.pow_add_r by lia. replace (k + (Zdigits2 m - k)) with (Zdigits2 m) by lia. done.
Qed.

Lemma digits_le (a b : Z) : 0 < a <= b -> Zdigits2 a <= Zdigits2 b.
Proof.
  intros [Ha Hb]. destruct a as [|a|a], b as [|b|b]; try lia. cbn [Zdigits2]. rewrite !digits_log2.
  pose proof (Z.log2_le_mono (Zpos a) (Zpos b)). lia.
Qed.

(** The next number has the same digits or is a power of two. *)
Lemma digits_succ (m : Z) : 0 < m -> Zdigits2 (m + 1) = Zdigits2 m \/ m + 1 = 2 ^ Zdigits2 m /\ Zdigits2 (m + 1) = Zdigits2 m + 1.
Proof.
  intros Hm. pose proof (digits_bounds m Hm) as [H1 H2]. pose proof (digits_pos m Hm).
  destruct (Z.eq_dec (m + 1) (2 ^ Zdigits2 m)) as [E|E]; [right|left].
  - split; [done|]. rewrite E. apply digits_unique; [lia|]. replace (Zdigits2 m + 1 - 1) with (Zdigits2 m) by lia.
    split; [lia|]. apply Z.pow_lt_mono_r; lia.
  - apply digits_unique; [done|]. lia.
Qed.

(** ** Shifting out digits *)

Lemma iter_pos_nat {A} (f : A -> A) (n : positive) (x : A) : SpecFloat.iter_pos f n x = Nat.iter (Pos.to_nat n) f x.
Proof.
  revert x. induction n as [n IH|n IH|]; intros x; cbn [SpecFloat.iter_pos]; [| |done].
  - rewrite !IH, <- Nat.iter_add, Pos2Nat.inj_xI, <- Nat.iter_succ_r. f_equal. lia.
  - rewrite !IH, <- Nat.iter_add, Pos2Nat.inj_xO. f_equal. lia.
Qed.

Lemma shr_1_m (r : shr_record) : 0 <= shr_m r -> shr_m (shr_1 r) = shr_m r / 2.
Proof.
  destruct r as [m b s]. cbn [shr_m]. destruct m as [|[p|p|]|p]; cbn [shr_1 shr_m]; intros H; [done| | |done|lia].
  - rewrite Pos2Z.inj_xI. apply (Z.div_unique _ _ _ 1); lia.
  - rewrite Pos2Z.inj_xO. apply (Z.div_unique _ _ _ 0); lia.
Qed.

Lemma iter_shr_m (n : nat) (r : shr_record) : 0 <= shr_m r ->
  shr_m (Nat.iter n shr_1 r) = shr_m r / 2 ^ Z.of_nat n.
Proof.
  intros Hr. induction n as [|n IH]; [by rewrite Z.div_1_r|].
  change (Nat.iter (S n) shr_1 r) with (shr_1 (Nat.iter n shr_1 r)).
  assert (H0 : 0 <= shr_m (Nat.iter n shr_1 r)) by (rewrite IH; apply Z.div_pos; [done|apply Z.pow_pos_nonneg; lia]).
  rewrite shr_1_m, IH by done. rewrite Z.div_div by (try lia; apply Z.pow_nonzero; lia).
  rewrite Nat2Z.inj_succ, Z.pow_succ_r by lia. f_equal. lia.
Qed.

(** The mantissa and exponent after a shift, whatever was lost. *)
Lemma shr_spec (r : shr_record) (e n : Z) : 0 <= shr_m r ->
  shr_m (fst (shr r e n)) = shr_m r / 2 ^ Z.max 0 n /\ snd (shr r e n) = e + Z.max 0 n.
Proof.
  intros Hr. destruct n as [|p|p]; cbn [shr fst snd]; [rewrite Z.div_1_r; split; [done|lia]| |rewrite Z.div_1_r; split; [done|lia]].
  rewrite iter_pos_nat, iter_shr_m by done. replace (Z.of_nat (Pos.to_nat p)) with (Zpos p) by lia.
  split; [done|lia].
Qed.

Lemma shr_of_loc (m : Z) (l : location) : shr_m (shr_record_of_loc m l) = m.
Proof. by destruct l as [|[]]. Qed.

Lemma round_near (m : Z) (l : location) : m <= round_nearest_even m l <= m + 1.
Proof. destruct l as [|[]]; cbn; try lia. destruct (Z.even m); lia. Qed.

(** ** Rounding *)

(** The exponent of the numbers around one with [d] digits before the point. *)
Lemma fexp_max (d : Z) : fexp 53 1024 d = Z.max (d - 53) (-1074).
Proof. reflexivity. Qed.

(** What [binary_round_aux] makes of the rounded mantissa and its exponent. *)
Definition finish (m e : Z) : spec_float :=
  match m with
  | Z0 => S754_zero false
  | Zpos p => if e <=? 1024 - 53 then S754_finite false p e else S754_infinity false
  | Zneg _ => S754_nan
  end.

Definition canonical (m e : Z) : Prop := fexp 53 1024 (Zdigits2 m + e) = e.

(** The second shift: the mantissa may have grown by a digit. *)
Lemma renormalise (m r e e1 : Z) :
  0 <= m -> e <= e1 -> e1 = fexp 53 1024 (Zdigits2 m + e) -> m / 2 ^ (e1 - e) <= r <= m / 2 ^ (e1 - e) + 1 ->
  let k := Z.max 0 (fexp 53 1024 (Zdigits2 r + e1) - e1) in
  0 < r / 2 ^ k -> canonical (r / 2 ^ k) (e1 + k).
Proof.
  intros Hm He E1 Hr. cbv zeta. unfold canonical. rewrite !fexp_max in *. set (q := m / 2 ^ (e1 - e)) in *.
  assert (Hq : 0 <= q) by (apply Z.div_pos; [done|apply Z.pow_pos_nonneg; lia]).
  assert (Hd : 0 < q -> Zdigits2 q + e1 = Zdigits2 m + e) by (intros H; unfold q in *; rewrite digits_div by (done || lia); clear; lia).
  destruct (Z.eq_dec q 0) as [Eq|Nq].
  { (* everything was shifted out: the number is the smallest one or zero *)
    assert (E : e1 = -1074).
    { destruct (Z.eq_dec m 0) as [->|Nm]; [cbn in E1; lia|]. pose proof (digits_bounds m ltac:(lia)) as [H1 _].
      assert (Hlt : m < 2 ^ (e1 - e)) by (apply Z.div_small_iff in Eq; [lia|apply Z.pow_nonzero; lia]).
      assert (Zdigits2 m - 1 < e1 - e) by (apply (Z.pow_lt_mono_r_iff 2); [lia|lia|lia]). lia. }
    assert (Hr1 : r = 0 \/ r = 1) by lia. destruct Hr1 as [-> | ->]; [by rewrite Z.div_0_l by (apply Z.pow_nonzero; lia)|].
    intros _. clear -E. subst e1. reflexivity. }
  specialize (Hd ltac:(lia)). assert (Hsame : forall x, 0 < x -> Zdigits2 x = Zdigits2 q ->
    0 < x / 2 ^ Z.max 0 (Z.max (Zdigits2 x + e1 - 53) (-1074) - e1) ->
    Z.max (Zdigits2 (x / 2 ^ Z.max 0 (Z.max (Zdigits2 x + e1 - 53) (-1074) - e1)) +
           (e1 + Z.max 0 (Z.max (Zdigits2 x + e1 - 53) (-1074) - e1)) - 53) (-1074) =
    e1 + Z.max 0 (Z.max (Zdigits2 x + e1 - 53) (-1074) - e1)).
  { intros x Hx Ex _. rewrite Ex. replace (Z.max 0 (Z.max (Zdigits2 q + e1 - 53) (-1074) - e1)) with 0 by lia.
    rewrite Z.div_1_r. lia. }
  destruct (Z.eq_dec r q) as [->|Nr]; [by apply Hsame; [lia|done]|].
  assert (Er : r = q + 1) by lia. subst r. destruct (digits_succ q ltac:(lia)) as [Ed|[Ep Ed]]; [apply Hsame; [lia|done]|].
  intros Hpos. rewrite Ed in *. set (k := Z.max 0 (Z.max (Zdigits2 q + 1 + e1 - 53) (-1074) - e1)) in *.
  pose proof (digits_pos q ltac:(lia)). rewrite digits_div, Ed by (done || lia). lia.
Qed.

(** The result is canonical, and at most the exact mantissa, shifted, and one more. *)
Lemma round_core (m e : Z) (l : location) :
  0 <= m -> e <= fexp 53 1024 (Zdigits2 m + e) ->
  let e1 := fexp 53 1024 (Zdigits2 m + e) in
  exists m2 k, binary_round_aux 53 1024 false m e l = finish m2 (e1 + k) /\ 0 <= m2 /\ 0 <= k /\
    (0 < m2 -> canonical m2 (e1 + k)) /\ m2 * 2 ^ k <= m / 2 ^ (e1 - e) + 1.
Proof.
  intros Hm He. cbv zeta. unfold binary_round_aux, shr_fexp. set (e1 := fexp 53 1024 (Zdigits2 m + e)) in *.
  destruct (shr_spec (shr_record_of_loc m l) e (e1 - e)) as [Hm1 He1]; [by rewrite shr_of_loc|].
  destruct (shr (shr_record_of_loc m l) e (e1 - e)) as [r1 x1]. cbn [fst snd] in Hm1, He1.
  rewrite shr_of_loc, Z.max_r in Hm1 by lia. rewrite Z.max_r in He1 by lia. replace (e + (e1 - e)) with e1 in He1 by lia. subst x1.
  pose proof (round_near (shr_m r1) (loc_of_shr_record r1)) as Hr. set (r := round_nearest_even _ _) in *. rewrite Hm1 in Hr.
  assert (H0 : 0 <= m / 2 ^ (e1 - e)) by (apply Z.div_pos; [done|apply Z.pow_pos_nonneg; lia]).
  set (n := fexp 53 1024 (Zdigits2 r + e1) - e1).
  destruct (shr_spec (shr_record_of_loc r loc_Exact) e1 n) as [Hm2 He2]; [rewrite shr_of_loc; lia|].
  destruct (shr (shr_record_of_loc r loc_Exact) e1 n) as [r2 x2]. cbn [fst snd] in Hm2, He2. rewrite shr_of_loc in Hm2.
  pose proof (renormalise m r e e1 Hm He eq_refl Hr) as Hc. cbv zeta in Hc. fold n in Hc.
  exists (shr_m r2), (Z.max 0 n). rewrite He2. rewrite Hm2 in *. set (k := Z.max 0 n) in *.
  assert (H2 : 0 < 2 ^ k) by (apply Z.pow_pos_nonneg; lia). split_and!; [done|apply Z.div_pos; lia|lia|done|].
  pose proof (Z.mul_div_le r (2 ^ k) H2). nia.
Qed.

(** ** Values *)

#[local] Open Scope Q_scope.

Definition pow2 (e : Z) : Q := Qpower 2 e.

Lemma pow2_pos (e : Z) : 0 < pow2 e.
Proof. apply Qpower_0_lt. reflexivity. Qed.

Lemma pow2_add (a b : Z) : pow2 (a + b) == pow2 a * pow2 b.
Proof. apply Qpower_plus. discriminate. Qed.

Lemma pow2_Z (k : Z) : (0 <= k)%Z -> inject_Z (2 ^ k) == pow2 k.
Proof. intros H. by apply Zpower_Qpower. Qed.

Lemma pow2_le (a b : Z) : (a <= b)%Z -> pow2 a <= pow2 b.
Proof. intros H. by apply Qpower_le_compat_l. Qed.

Lemma inject_le (a b : Z) : (a <= b)%Z -> inject_Z a <= inject_Z b.
Proof. intros H. by rewrite <- Zle_Qle. Qed.

Lemma scale_le (a b : Z) (e : Z) : (a <= b)%Z -> inject_Z a * pow2 e <= inject_Z b * pow2 e.
Proof. intros H. apply Qmult_le_compat_r; [by apply inject_le|apply Qlt_le_weak, pow2_pos]. Qed.

(** Moving a power of two between mantissa and exponent. *)
Lemma scale_shift (m k e : Z) : (0 <= k)%Z -> inject_Z (m * 2 ^ k) * pow2 e == inject_Z m * pow2 (e + k).
Proof. intros H. rewrite inject_Z_mult, pow2_Z, Z.add_comm, pow2_add by done. ring. Qed.

(** The spacing of the numbers between one and two, and of the smallest numbers. *)
Definition ulp : Q := pow2 (-52).
Definition tiny : Q := pow2 (-1074).

(** What an operation gives at most when its exact result is [x]. *)
Definition up (x : Q) : Q := x + ulp * x + tiny.

(** The value of a non-negative finite number. *)
Definition val (x : spec_float) : Q :=
  match x with S754_finite false m e => inject_Z (Zpos m) * pow2 e | _ => 0 end.

Definition fin (x : spec_float) : Prop :=
  match x with S754_zero false => True | S754_finite false m e => canonical (Zpos m) e | _ => False end.

Lemma val_nonneg (x : spec_float) : 0 <= val x.
Proof.
  destruct x as [| | |[] m e]; try apply Qle_refl. cbn. apply Qmult_le_0_compat; [by apply (inject_le 0)|apply Qlt_le_weak, pow2_pos].
Qed.

Lemma up_le (x y : Q) : x <= y -> up x <= up y.
Proof. intros H. unfold up. assert (ulp * x <= ulp * y); [|lra]. rewrite !(Qmult_comm ulp). apply Qmult_le_compat_r; [done|apply Qlt_le_weak, pow2_pos]. Qed.

(** The spacing around a number that is rounded. *)
Lemma spacing (m e : Z) (x : Q) :
  (0 <= m)%Z -> (e <= fexp 53 1024 (Zdigits2 m + e))%Z -> inject_Z m * pow2 e <= x ->
  pow2 (fexp 53 1024 (Zdigits2 m + e)) <= ulp * x + tiny.
Proof.
  intros Hm He Hx. rewrite fexp_max in *. pose proof (pow2_pos (-52)) as Hu. pose proof (pow2_pos (-1074)) as Ht.
  assert (H0 : 0 <= x).
  { eapply Qle_trans; [|exact Hx]. apply Qmult_le_0_compat; [by apply (inject_le 0)|apply Qlt_le_weak, pow2_pos]. }
  assert (Hux : 0 <= ulp * x) by (apply Qmult_le_0_compat; [apply Qlt_le_weak, pow2_pos|done]).
  destruct (Z.le_gt_cases (Zdigits2 m + e - 53) (-1074)) as [Hs|Hs].
  { rewrite Z.max_r by done. fold tiny. lra. }
  rewrite Z.max_l in * by lia. assert (Hm' : (0 < m)%Z) by (destruct (Z.eq_dec m 0%Z) as [->|]; [cbn in *; lia|lia]).
  pose proof (digits_bounds m Hm') as [H1 _]. pose proof (digits_pos m Hm') as Hd.
  assert (Hl : pow2 (Zdigits2 m - 1 + e) <= x).
  { eapply Qle_trans; [|exact Hx]. rewrite pow2_add, <- pow2_Z by lia. by apply scale_le. }
  replace (Zdigits2 m + e - 53)%Z with (-52 + (Zdigits2 m - 1 + e))%Z by lia. rewrite pow2_add. fold ulp.
  assert (ulp * pow2 (Zdigits2 m - 1 + e) <= ulp * x); [|unfold tiny; lra].
  rewrite !(Qmult_comm ulp). apply Qmult_le_compat_r; [done|apply Qlt_le_weak, pow2_pos].
Qed.

Lemma round_up (m e : Z) (l : location) (x : Q) :
  (0 <= m)%Z -> (e <= fexp 53 1024 (Zdigits2 m + e))%Z -> inject_Z m * pow2 e <= x -> up x < pow2 972 ->
  fin (binary_round_aux 53 1024 false m e l) /\ val (binary_round_aux 53 1024 false m e l) <= up x.
Proof.
  intros Hm He Hx Ho. pose proof (spacing m e x Hm He Hx) as Hs.
  destruct (round_core m e l Hm He) as (m2 & k & -> & H0 & Hk & Hc & Hle). set (e1 := fexp 53 1024 (Zdigits2 m + e)) in *.
  assert (Hv : inject_Z m2 * pow2 (e1 + k) <= up x).
  { rewrite <- scale_shift by done. eapply Qle_trans; [apply scale_le, Hle|].
    rewrite inject_Z_plus, Qmult_plus_distr_l. change (inject_Z 1) with 1. rewrite Qmult_1_l.
    assert (Hq : inject_Z (m / 2 ^ (e1 - e)) * pow2 e1 <= inject_Z m * pow2 e).
    { replace e1 with (e + (e1 - e))%Z at 2 by lia. rewrite <- scale_shift by lia. apply scale_le.
      rewrite Z.mul_comm. apply Z.mul_div_le, Z.pow_pos_nonneg; lia. }
    unfold up. lra. }
  unfold finish. destruct m2 as [|p|p]; [|destruct (Z.leb_spec (e1 + k) (1024 - 53)) as [Hb|Hb]|lia].
  - split; [done|]. cbn [val]. cbn in Hv. eapply Qle_trans; [|exact Hv]. by rewrite Qmult_0_l.
  - split; [by apply Hc|exact Hv].
  - exfalso. apply (Qlt_not_le _ _ Ho). eapply Qle_trans; [|exact Hv]. eapply Qle_trans; [apply (pow2_le _ (e1 + k)); lia|].
    rewrite <- (Qmult_1_l (pow2 (e1 + k))) at 1. apply (scale_le 1). lia.
Qed.

(** ** The operations *)

Lemma iter_xO (p d : positive) : Zpos (Pos.iter xO p d) = (Zpos p * 2 ^ Zpos d)%Z.
Proof.
  induction d as [|d IH] using Pos.peano_ind; [cbn; lia|].
  rewrite Pos.iter_succ, Pos2Z.inj_xO, IH, Pos2Z.inj_succ, Z.pow_succ_r by lia. lia.
Qed.

(** Lowering an exponent. *)
Lemma shl_align_spec (m : positive) (e e' : Z) :
  snd (shl_align m e e') = Z.min e e' /\ Zpos (fst (shl_align m e e')) = (Zpos m * 2 ^ (e - Z.min e e'))%Z.
Proof.
  unfold shl_align. destruct (e' - e)%Z as [|d|d] eqn:E; cbn [fst snd].
  1, 2: rewrite Z.min_l by lia; replace (e - e)%Z with 0%Z by lia; split; [done|lia].
  rewrite Z.min_r by lia. split; [done|]. rewrite iter_xO. do 2 f_equal. lia.
Qed.

Lemma binary_round_up (m : positive) (e : Z) (x : Q) :
  inject_Z (Zpos m) * pow2 e <= x -> up x < pow2 972 ->
  fin (binary_round 53 1024 false m e) /\ val (binary_round 53 1024 false m e) <= up x.
Proof.
  intros Hx Ho. unfold binary_round. set (e' := fexp 53 1024 (Zpos (digits2_pos m) + e)).
  destruct (shl_align_spec m e e') as [He Hm]. destruct (shl_align m e e') as [mz ez]. cbn [fst snd] in *. subst ez.
  assert (Hd : Zdigits2 (Zpos mz) = (Zdigits2 (Zpos m) + (e - Z.min e e'))%Z) by (rewrite Hm; apply digits_shift; lia).
  apply round_up; [lia| | |done].
  - rewrite Hd. replace (Zdigits2 (Zpos m) + (e - Z.min e e') + Z.min e e')%Z with (Zdigits2 (Zpos m) + e)%Z by lia.
    change (fexp 53 1024 (Zdigits2 (Zpos m) + e)) with e'. lia.
  - rewrite Hm, scale_shift by lia. replace (Z.min e e' + (e - Z.min e e'))%Z with e by lia. done.
Qed.

Lemma normalize_up (m e : Z) (x : Q) :
  (0 <= m)%Z -> inject_Z m * pow2 e <= x -> up x < pow2 972 ->
  fin (binary_normalize 53 1024 m e false) /\ val (binary_normalize 53 1024 m e false) <= up x.
Proof.
  intros Hm Hx Ho. destruct m as [|p|p]; [|by apply binary_round_up|lia]. split; [done|]. cbn [binary_normalize val].
  cbn in Hx. assert (H0 : 0 <= x) by (rewrite Qmult_0_l in Hx; done). unfold up.
  pose proof (Qmult_le_0_compat ulp x (Qlt_le_weak _ _ (pow2_pos _)) H0). pose proof (pow2_pos (-1074)). unfold tiny. lra.
Qed.

(** A finite number is a mantissa and an exponent. *)
Lemma fin_cases (x : spec_float) : fin x -> x = S754_zero false \/ exists m e, x = S754_finite false m e /\ canonical (Zpos m) e.
Proof. destruct x as [[]| | |[] m e]; cbn; try done; [by left|]. intros H. right. eauto. Qed.

Lemma le_up (x : Q) : 0 <= x -> x <= up x.
Proof.
  intros H. unfold up. pose proof (Qmult_le_0_compat ulp x (Qlt_le_weak _ _ (pow2_pos _)) H). pose proof (pow2_pos (-1074)).
  unfold tiny. lra.
Qed.

Lemma add_up (x y : spec_float) :
  fin x -> fin y -> up (val x + val y) < pow2 972 ->
  fin (SFadd 53 1024 x y) /\ val (SFadd 53 1024 x y) <= up (val x + val y).
Proof.
  intros Hx Hy Ho. pose proof (val_nonneg x) as Vx. pose proof (val_nonneg y) as Vy.
  assert (Hup : val x + val y <= up (val x + val y)) by (apply le_up; lra).
  destruct (fin_cases x Hx) as [->|(mx & ex & -> & Cx)], (fin_cases y Hy) as [->|(my & ey & -> & Cy)].
  - split; [done|]. exact Hup.
  - split; [done|]. cbn [SFadd]. change (val (S754_zero false)) with 0 in *. lra.
  - split; [done|]. cbn [SFadd]. change (val (S754_zero false)) with 0 in *. lra.
  - cbn [SFadd cond_Zopp]. destruct (shl_align_spec mx ex (Z.min ex ey)) as [_ E1]. destruct (shl_align_spec my ey (Z.min ex ey)) as [_ E2].
    apply normalize_up; [lia| |done]. rewrite E1, E2, inject_Z_plus, Qmult_plus_distr_l.
    replace (Z.min ex (Z.min ex ey)) with (Z.min ex ey) by lia. replace (Z.min ey (Z.min ex ey)) with (Z.min ex ey) by lia.
    rewrite !scale_shift by lia. replace (Z.min ex ey + (ex - Z.min ex ey))%Z with ex by lia.
    replace (Z.min ex ey + (ey - Z.min ex ey))%Z with ey by lia. apply Qle_refl.
Qed.

(** Subtraction of a smaller number. *)
Lemma sub_up (x y : spec_float) :
  fin x -> fin y -> val y <= val x -> up (val x - val y) < pow2 972 ->
  fin (SFsub 53 1024 x y) /\ val (SFsub 53 1024 x y) <= up (val x - val y).
Proof.
  intros Hx Hy Hle Ho. assert (Hup : val x - val y <= up (val x - val y)) by (apply le_up; lra).
  destruct (fin_cases x Hx) as [->|(mx & ex & -> & Cx)], (fin_cases y Hy) as [->|(my & ey & -> & Cy)].
  - split; [done|]. exact Hup.
  - exfalso. cbn in Hle. apply (Qlt_not_le 0 (inject_Z (Zpos my) * pow2 ey)); [|done].
    rewrite <- (Qmult_0_l (pow2 ey)). apply Qmult_lt_compat_r; [apply pow2_pos|]. by rewrite <- (Zlt_Qlt 0).
  - split; [done|]. cbn [SFsub]. change (val (S754_zero false)) with 0 in *. lra.
  - cbn [SFsub cond_Zopp]. destruct (shl_align_spec mx ex (Z.min ex ey)) as [_ E1]. destruct (shl_align_spec my ey (Z.min ex ey)) as [_ E2].
    replace (Z.min ex (Z.min ex ey)) with (Z.min ex ey) in E1 by lia. replace (Z.min ey (Z.min ex ey)) with (Z.min ex ey) in E2 by lia.
    set (e := Z.min ex ey) in *. set (a := Zpos (fst (shl_align mx ex e))) in *. set (b := Zpos (fst (shl_align my ey e))) in *.
    assert (Va : inject_Z a * pow2 e == val (S754_finite false mx ex)).
    { rewrite E1, scale_shift by lia. replace (e + (ex - e))%Z with ex by lia. reflexivity. }
    assert (Vb : inject_Z b * pow2 e == val (S754_finite false my ey)).
    { rewrite E2, scale_shift by lia. replace (e + (ey - e))%Z with ey by lia. reflexivity. }
    apply normalize_up; [| |done].
    + apply Z.le_0_sub. rewrite Zle_Qle. apply (Qmult_le_r _ _ (pow2 e)); [apply pow2_pos|]. by rewrite Va, Vb.
    + unfold Z.sub. rewrite inject_Z_plus, inject_Z_opp, Qmult_plus_distr_l, Va.
      assert (En : - inject_Z b * pow2 e == - val (S754_finite false my ey)) by (rewrite <- Vb; ring). rewrite En. apply Qle_refl.
Qed.

Lemma mul_up (x y : spec_float) :
  fin x -> fin y -> up (val x * val y) < pow2 972 ->
  fin (SFmul 53 1024 x y) /\ val (SFmul 53 1024 x y) <= up (val x * val y).
Proof.
  intros Hx Hy Ho. pose proof (val_nonneg x) as Vx. pose proof (val_nonneg y) as Vy.
  assert (Hup : 0 <= up (val x * val y)).
  { assert (Hp : 0 <= val x * val y) by (by apply Qmult_le_0_compat). pose proof (le_up _ Hp). lra. }
  destruct (fin_cases x Hx) as [->|(mx & ex & -> & Cx)], (fin_cases y Hy) as [->|(my & ey & -> & Cy)];
    [split; [done|exact Hup]..|].
  cbn [SFmul xorb]. apply round_up; [lia| | |done].
  - unfold canonical in *. rewrite fexp_max in *.
    pose proof (digits_le (Zpos mx) (Zpos (mx * my)) ltac:(nia)). pose proof (digits_le (Zpos my) (Zpos (mx * my)) ltac:(nia)). lia.
  - cbn [val]. rewrite Pos2Z.inj_mul, inject_Z_mult, pow2_add. apply Qle_lteq. right. ring.
Qed.

Lemma div_up (x y : spec_float) :
  fin x -> fin y -> 0 < val y -> up (val x / val y) < pow2 972 ->
  fin (SFdiv 53 1024 x y) /\ val (SFdiv 53 1024 x y) <= up (val x / val y).
Proof.
  intros Hx Hy Hpos Ho. pose proof (val_nonneg x) as Vx.
  assert (Hq : 0 <= val x / val y) by (apply Qle_shift_div_l; [done|by rewrite Qmult_0_l]).
  destruct (fin_cases y Hy) as [->|(my & ey & -> & Cy)]; [by apply Qlt_irrefl in Hpos|].
  destruct (fin_cases x Hx) as [->|(mx & ex & -> & Cx)].
  { split; [done|]. pose proof (le_up _ Hq). cbn [SFdiv xorb val] in *. lra. }
  cbn [SFdiv xorb]. unfold SFdiv_core_binary. set (d1 := Zdigits2 (Zpos mx)). set (d2 := Zdigits2 (Zpos my)).
  set (e := Z.min (fexp 53 1024 (d1 + ex - (d2 + ey))) (ex - ey)). set (s := (ex - ey - e)%Z).
  assert (Hs : (0 <= s)%Z) by lia.
  assert (Hm' : match s with Z0 => Zpos mx | Zpos _ => Z.shiftl (Zpos mx) s | Zneg _ => 0%Z end = (Zpos mx * 2 ^ s)%Z).
  { destruct s as [|p|p]; [lia|by rewrite Z.shiftl_mul_pow2 by lia|lia]. }
  rewrite Hm'. pose proof (Z.mul_div_le (Zpos mx * 2 ^ s) (Zpos my) ltac:(lia)) as Hdiv.
  unfold Z.div in Hdiv. pose proof (Z.div_pos (Zpos mx * 2 ^ s) (Zpos my) ltac:(pose proof (Z.pow_nonneg 2 s); lia) ltac:(lia)) as H0.
  unfold Z.div in H0. destruct (Z.div_eucl (Zpos mx * 2 ^ s) (Zpos my)) as [q r] eqn:Eq.
  assert (Hqq : q = (Zpos mx * 2 ^ s / Zpos my)%Z) by (unfold Z.div; by rewrite Eq).
  apply round_up; [done| | |done].
  - destruct (Z.le_gt_cases e (-1074)) as [Hle|Hgt]; [rewrite fexp_max; lia|].
    unfold e in Hgt. rewrite fexp_max in Hgt. assert (He : (e <= d1 + ex - (d2 + ey) - 53)%Z) by (unfold e; rewrite fexp_max; lia).
    pose proof (digits_bounds (Zpos mx) ltac:(lia)) as [B1 _]. pose proof (digits_bounds (Zpos my) ltac:(lia)) as [_ B2]. fold d1 in B1. fold d2 in B2.
    pose proof (digits_pos (Zpos mx) ltac:(lia)). fold d1 in H. pose proof (digits_pos (Zpos my) ltac:(lia)). fold d2 in H1.
    assert (Hge : (2 ^ (d1 - 1 + s - d2) <= q)%Z).
    { rewrite Hqq. apply Z.div_le_lower_bound; [lia|]. assert (Hexp : (2 ^ (d1 - 1) * 2 ^ s = 2 ^ d2 * 2 ^ (d1 - 1 + s - d2))%Z).
      { rewrite <- !Z.pow_add_r by lia. f_equal. lia. }
      pose proof (Z.pow_pos_nonneg 2 s ltac:(lia) ltac:(lia)). pose proof (Z.pow_pos_nonneg 2 (d1 - 1 + s - d2) ltac:(lia) ltac:(lia)). nia. }
    assert (Hdq : (d1 + s - d2 <= Zdigits2 q)%Z).
    { rewrite <- (digits_unique (2 ^ (d1 - 1 + s - d2)) (d1 + s - d2)); [apply digits_le|lia|].
      - split; [apply Z.pow_pos_nonneg; lia|done].
      - split; [apply Z.pow_le_mono_r; lia|apply Z.pow_lt_mono_r; lia]. }
    rewrite fexp_max. lia.
  - apply Qle_shift_div_l; [done|]. cbn [val].
    assert (Hz : inject_Z (Zpos my * q) * pow2 (e + ey) <= inject_Z (Zpos mx * 2 ^ s) * pow2 (e + ey)) by (by apply scale_le).
    rewrite scale_shift in Hz by done. replace (e + ey + s)%Z with ex in Hz by lia. rewrite inject_Z_mult, pow2_add in Hz.
    eapply Qle_trans; [|exact Hz]. apply Qle_lteq. right. ring.
Qed.

(** ** Comparison *)

Lemma canonical_spec (m : positive) (e : Z) :
  canonical (Zpos m) e -> (Zpos m < 2 ^ 53 /\ -1074 <= e /\ (-1074 < e -> 2 ^ 52 <= Zpos m))%Z.
Proof.
  unfold canonical. rewrite fexp_max. intros H. pose proof (digits_bounds (Zpos m) ltac:(lia)) as [H1 H2]. split_and!; [|lia|].
  - eapply Z.lt_le_trans; [exact H2|]. apply Z.pow_le_mono_r; lia.
  - intros He. eapply Z.le_trans; [|exact H1]. apply Z.pow_le_mono_r; lia.
Qed.

Lemma exponent_less (m n : positive) (e f : Z) :
  canonical (Zpos m) e -> canonical (Zpos n) f -> (e < f)%Z -> inject_Z (Zpos m) * pow2 e < inject_Z (Zpos n) * pow2 f.
Proof.
  intros (Hm & He & _)%canonical_spec (_ & _ & Hn)%canonical_spec Hlt. specialize (Hn ltac:(lia)).
  replace f with (e + (f - e))%Z by lia. rewrite <- scale_shift by lia. apply Qmult_lt_compat_r; [apply pow2_pos|].
  rewrite <- Zlt_Qlt. assert (H2 : (2 <= 2 ^ (f - e))%Z) by (apply (Z.pow_le_mono_r 2 1); lia).
  change (2 ^ 53)%Z with (2 ^ 52 * 2)%Z in Hm. nia.
Qed.

Lemma less_val (x y : spec_float) : fin x -> fin y -> SFltb x y = true <-> val x < val y.
Proof.
  intros Hx Hy. assert (Hpos : forall m e, 0 < inject_Z (Zpos m) * pow2 e).
  { intros m e. rewrite <- (Qmult_0_l (pow2 e)). apply Qmult_lt_compat_r; [apply pow2_pos|]. by rewrite <- (Zlt_Qlt 0). }
  destruct (fin_cases x Hx) as [->|(mx & ex & -> & Cx)], (fin_cases y Hy) as [->|(my & ey & -> & Cy)]; unfold SFltb; cbn.
  - split; [done|]. intros H. by apply Qlt_irrefl in H.
  - split; [intros _; apply Hpos|done].
  - split; [done|]. intros H. pose proof (Hpos mx ex). lra.
  - destruct (Z.compare_spec ex ey) as [->|Hlt|Hgt].
    + change (Pos.compare_cont Eq mx my) with (Pos.compare mx my). destruct (Pos.compare_spec mx my) as [->|Hm|Hm].
      * split; [done|]. intros H. by apply Qlt_irrefl in H.
      * split; [intros _|done]. apply Qmult_lt_compat_r; [apply pow2_pos|]. by rewrite <- Zlt_Qlt.
      * split; [done|]. intros H. exfalso. apply (Qlt_not_le _ _ H). apply scale_le. lia.
    + split; [intros _; by apply exponent_less|done].
    + split; [done|]. intros H. pose proof (exponent_less my mx ey ex Cy Cx Hgt). lra.
Qed.

(** ** Integers *)

Lemma of_int_up (z : Z) : (0 <= z < 2 ^ 64)%Z ->
  fin (binary_normalize 53 1024 z 0 false) /\ val (binary_normalize 53 1024 z 0 false) <= up (inject_Z z).
Proof.
  intros Hz. apply normalize_up; [lia| |].
  - change (pow2 0) with 1. rewrite Qmult_1_r. apply Qle_refl.
  - eapply Qle_lt_trans; [apply up_le, (inject_le z (2 ^ 64)); lia|]. reflexivity.
Qed.

(** Up to 53 bits they are exact. *)
Lemma of_int_exact (z : Z) : (0 <= z < 2 ^ 53)%Z ->
  fin (binary_normalize 53 1024 z 0 false) /\ val (binary_normalize 53 1024 z 0 false) == inject_Z z.
Proof.
  intros Hz. destruct z as [|p|p]; [done| |lia]. cbn [binary_normalize]. unfold binary_round.
  set (d := Zdigits2 (Zpos p)). pose proof (digits_pos (Zpos p) ltac:(lia)) as Hd. fold d in Hd.
  assert (Hd53 : (d <= 53)%Z).
  { pose proof (digits_bounds (Zpos p) ltac:(lia)) as [H1 _]. fold d in H1.
    assert (d - 1 < 53)%Z by (apply (Z.pow_lt_mono_r_iff 2); lia). lia. }
  change (Zpos (digits2_pos p)) with d. assert (Ef : fexp 53 1024 (d + 0) = (d - 53)%Z) by (rewrite fexp_max; lia). rewrite Ef.
  destruct (shl_align_spec p 0 (d - 53)) as [He Hm]. destruct (shl_align p 0 (d - 53)) as [mz ez]. cbn [fst snd] in *.
  rewrite Z.min_r in He, Hm by lia. subst ez. replace (0 - (d - 53))%Z with (53 - d)%Z in Hm by lia.
  assert (Hdz : Zdigits2 (Zpos mz) = 53%Z) by (rewrite Hm, digits_shift by lia; fold d; lia).
  assert (Hc : fexp 53 1024 (53 + (d - 53)) = (d - 53)%Z) by (rewrite fexp_max; lia).
  unfold binary_round_aux, shr_fexp. rewrite Hdz, Hc, Z.sub_diag. cbn [shr shr_record_of_loc shr_m loc_of_shr_record round_nearest_even].
  rewrite Hdz, Hc, Z.sub_diag. cbn [shr shr_m]. destruct (Z.leb_spec (d - 53) (1024 - 53)); [|lia]. split; cbn [fin val].
  - unfold canonical. by rewrite Hdz, Hc.
  - rewrite Hm, scale_shift by lia. replace (d - 53 + (53 - d))%Z with 0%Z by lia. change (pow2 0) with 1. by rewrite Qmult_1_r.
Qed.

End Binary64.
