(* ===== verification/Gate.v ===== *)
(** * The gate in front of a data source

    include/sqlconduit/core/rate_limiter.h ([TokenBucket], [RateLimiter]) and
    [makeRateLimiter], [DataSource::preGate] and [DataSource::gateSession] of
    src/core/database_manager.cpp.  A limiter is an interface, as in the source.

    The bucket's arithmetic is that of [double], IEEE binary64 as the standard library
    defines it; Binary64.v bounds its rounding, and the theorem on rates is about these
    numbers.  Times are nanoseconds. *)

From Stdlib Require Import SpecFloat QArith Lqa.
From S2P Require Import Prelude Types SqlAnalyze SqlAuditor Binary64.

Module Gate.
#[local] Open Scope Z_scope.

(** ** Numbers *)

Definition double : Type := spec_float.

Definition of_int (z : Z) : double := binary_normalize 53 1024 z 0 false.
Definition plus : double -> double -> double := SFadd 53 1024.
Definition minus : double -> double -> double := SFsub 53 1024.
Definition times : double -> double -> double := SFmul 53 1024.
Definition over : double -> double -> double := SFdiv 53 1024.
Definition less : double -> double -> bool := SFltb.

(** ** Limiters *)

(** [IRateLimiter]. *)
Class IRateLimiter (L : Type) : Type := {
  acquire : Z -> Z -> L -> bool * L;
  usesFingerprint : L -> bool
}.

Record TokenBucket : Type := mkBucket {
  tokens_ : double;
  rate_ : double;
  burst : double;
  last_ : Z
}.

Definition new_bucket (now : Z) (ratePerSec b : double) : TokenBucket := mkBucket b ratePerSec b now.

(** [std::chrono::duration<double>]: nanoseconds as seconds. *)
Definition seconds (ns : Z) : double := over (of_int ns) (of_int 1000000000).

Definition refill (now : Z) (b : TokenBucket) : TokenBucket :=
  let elapsed := seconds (now - last_ b) in
  let tokens := plus (tokens_ b) (times elapsed (rate_ b)) in
  mkBucket (if less (burst b) tokens then burst b else tokens) (rate_ b) (burst b) now.

Definition tryAcquire (now : Z) (b : TokenBucket) : bool * TokenBucket :=
  let b := refill now b in
  if negb (less (tokens_ b) (of_int 1))
  then (true, mkBucket (minus (tokens_ b) (of_int 1)) (rate_ b) (burst b) (last_ b))
  else (false, b).

Record RateLimiter : Type := mkLimiter {
  global_ : option TokenBucket;
  perFpQps_ : double;
  burst_ : Z;
  fpMode_ : str;
  fpBuckets_ : gmap Z TokenBucket
}.

Definition kFpCap : nat := 1024.

Definition new_limiter (now : Z) (globalQps perFpQps : double) (b : Z) (fpMode : str) : RateLimiter :=
  mkLimiter (if less (of_int 0) globalQps
             then Some (new_bucket now globalQps (if 0 <? b then of_int b else globalQps)) else None)
    perFpQps b fpMode ∅.

Definition perFingerprint (l : RateLimiter) : bool :=
  negb (fpMode_ l =s $"off") && less (of_int 0) (perFpQps_ l).

Definition set_global (g : option TokenBucket) (l : RateLimiter) : RateLimiter :=
  mkLimiter g (perFpQps_ l) (burst_ l) (fpMode_ l) (fpBuckets_ l).
Definition set_buckets (m : gmap Z TokenBucket) (l : RateLimiter) : RateLimiter :=
  mkLimiter (global_ l) (perFpQps_ l) (burst_ l) (fpMode_ l) m.

(** The global bucket's part of [acquire]. *)
Definition acquire_global (now : Z) (l : RateLimiter) : bool * RateLimiter :=
  match global_ l with
  | None => (true, l)
  | Some g => let '(ok, g) := tryAcquire now g in (ok, set_global (Some g) l)
  end.

(** The bucket of a fingerprint: found, new, or none when the table is full. *)
Definition fp_bucket (now fp : Z) (l : RateLimiter) : option TokenBucket :=
  match fpBuckets_ l !! fp with
  | Some b => Some b
  | None =>
      if (kFpCap <=? size (fpBuckets_ l))%nat then None
      else Some (new_bucket now (perFpQps_ l) (if 0 <? burst_ l then of_int (burst_ l) else perFpQps_ l))
  end.

Definition acquire_limiter (now fp : Z) (l : RateLimiter) : bool * RateLimiter :=
  let '(ok, l) := acquire_global now l in
  if negb ok then (false, l)
  else if negb (fp =? 0) && perFingerprint l then
    match fp_bucket now fp l with
    | None => (true, l)
    | Some b => let '(ok, b) := tryAcquire now b in (ok, set_buckets (<[fp := b]> (fpBuckets_ l)) l)
    end
  else (true, l).

#[export] Instance RateLimiter_IRateLimiter : IRateLimiter RateLimiter := {
  acquire := acquire_limiter;
  usesFingerprint := perFingerprint
}.

(** [RateLimitConfig] and [makeRateLimiter]. *)
Record RateLimitConfig : Type := mkRateConfig {
  rl_enabled : bool;
  rl_global_qps : Z;
  rl_per_fingerprint_qps : Z;
  rl_burst : Z;
  rl_fingerprint_mode : str
}.

Definition makeRateLimiter (now : Z) (cfg : RateLimitConfig) (defaultLimiter : option RateLimiter)
    : option RateLimiter :=
  if rl_enabled cfg && ((0 <? rl_global_qps cfg) || (0 <? rl_per_fingerprint_qps cfg))
  then Some (new_limiter now (of_int (rl_global_qps cfg)) (of_int (rl_per_fingerprint_qps cfg))
               (rl_burst cfg) (rl_fingerprint_mode cfg))
  else defaultLimiter.


(** ** The gates *)

Section Gates.
Context {L : Type} `{IRateLimiter L}.

(** What the gates read and change: the operation's status, the auditor, the data
    source's limiter, and the codes reported as rejected. *)
Record gate : Type := mkGate {
  g_stop : Status;
  g_auditor : SqlAuditorState;
  g_limiter : option L;
  g_rejected : list ErrorCode
}.

Definition set_auditor (a : SqlAuditorState) (g : gate) : gate :=
  mkGate (g_stop g) a (g_limiter g) (g_rejected g).
Definition set_limiter (l : L) (g : gate) : gate := mkGate (g_stop g) (g_auditor g) (Some l) (g_rejected g).
Definition reject (c : ErrorCode) (g : gate) : gate :=
  mkGate (g_stop g) (g_auditor g) (g_limiter g) (g_rejected g ++ [c]).

Definition rateLimited (name : str) : Status :=
  set_retryable false (status_error RateLimited ($"datasource '" ++ name ++ $"' rate limited")).

Definition limit (name : str) (now fp : Z) (l : L) (g : gate) : Status * gate :=
  let '(ok, l) := acquire now fp l in
  if ok then (status_OK, set_limiter l g)
  else (rateLimited name, reject RateLimited (set_limiter l g)).

Definition preGate (name : str) (readOnly : bool) (now : Z) (sql : str) (type : OperationType) (g : gate)
    : Status * gate :=
  if negb (status_ok (g_stop g)) then (g_stop g, g)
  else
    let '(s, a) := audit_check sql type readOnly (g_auditor g) in
    let g := set_auditor a g in
    if negb (status_ok s) then (s, reject (code_ s) g)
    else
      match g_limiter g with
      | None => (status_OK, g)
      | Some l => limit name now (if usesFingerprint l then fingerprintTemplate sql else 0) l g
      end.

Definition gateSession (name : str) (now : Z) (g : gate) : Status * gate :=
  match g_limiter g with
  | None => (status_OK, g)
  | Some l => limit name now 0 l g
  end.

End Gates.

(** ** Rates *)

Import Binary64.

#[local] Open Scope Q_scope.

(** The exact length of an interval, and the relative error that is allowed. *)
Definition exact_seconds (ns : Z) : Q := inject_Z ns / inject_Z 1000000000.
Definition slack : Q := pow2 (-50).

Definition count (n : nat) : Q := inject_Z (Z.of_nat n).

Lemma count_S n : count (S n) == count n + 1.
Proof. unfold count. rewrite Nat2Z.inj_succ, <- Z.add_1_r, inject_Z_plus. reflexivity. Qed.

Lemma count_nonneg n : 0 <= count n.
Proof. by apply (inject_le 0), Nat2Z.is_nonneg. Qed.

Lemma count_le n m : (n <= m)%nat -> count n <= count m.
Proof. intros H. apply inject_le. lia. Qed.

Lemma exact_nonneg n : (0 <= n)%Z -> 0 <= exact_seconds n.
Proof. intros H. apply Qle_shift_div_l; [reflexivity|]. rewrite Qmult_0_l. by apply (inject_le 0). Qed.

Lemma exact_plus m n : exact_seconds (m + n) == exact_seconds m + exact_seconds n.
Proof. unfold exact_seconds. rewrite inject_Z_plus. unfold Qdiv. ring. Qed.

Lemma less_true (x y : double) : fin x -> fin y -> less x y = true -> val x < val y.
Proof. intros Hx Hy H. by apply less_val. Qed.

Lemma less_false (x y : double) : fin x -> fin y -> less x y = false -> val y <= val x.
Proof. intros Hx Hy H. apply Qnot_lt_le. intros Hlt. apply less_val in Hlt; [|done..]. unfold less in H. congruence. Qed.

(** *** The rounding of a refill *)

Lemma ulp_facts : 0 < ulp /\ ulp <= 1 # 8 /\ 4 * ulp == slack.
Proof. split_and!; [reflexivity|vm_compute; discriminate|reflexivity]. Qed.

Lemma tiny_facts : 0 < tiny /\ (pow2 67) * tiny <= ulp.
Proof. split; [reflexivity|vm_compute; discriminate]. Qed.

#[local] Opaque ulp tiny slack pow2.

Lemma up_twice (x : Q) : 0 <= x -> up x <= 2 * x + 1.
Proof.
  intros H. unfold up. destruct ulp_facts as (U1 & U2 & _). destruct tiny_facts as [T1 T2].
  assert (tiny <= 1).
  { assert (1 <= pow2 67) by (vm_compute; discriminate). assert (1 * tiny <= pow2 67 * tiny) by (apply Qmult_le_compat_r; lra). lra. }
  assert (ulp * x <= 1 * x) by (apply Qmult_le_compat_r; lra). lra.
Qed.

(** The exact increment [r * s] against what three roundings make of it. *)
Lemma increment_up (n s r x1 x2 x3 : Q) :
  0 <= n -> s == n / inject_Z 1000000000 -> 0 <= r <= pow2 64 -> 0 <= x1 -> 0 <= x2 ->
  x1 <= up n -> x2 <= up (x1 / inject_Z 1000000000) -> x3 <= up (x2 * r) ->
  x3 <= r * s * (1 + slack) + (ulp - tiny).
Proof.
  intros Hn Es [Hr0 Hr] P1 P2 H1 H2 H3. destruct ulp_facts as (U1 & U2 & U3). destruct tiny_facts as [T1 T2].
  assert (Hs : 0 <= s) by (rewrite Es; apply Qle_shift_div_l; [reflexivity|by rewrite Qmult_0_l]).
  assert (Hx1 : x1 / inject_Z 1000000000 <= s * (1 + ulp) + tiny).
  { rewrite Es. apply Qle_shift_div_r; [reflexivity|]. unfold up in H1.
    assert (E : (n / inject_Z 1000000000 * (1 + ulp) + tiny) * inject_Z 1000000000 == n * (1 + ulp) + tiny * inject_Z 1000000000)
      by (field; discriminate).
    rewrite E. assert (tiny * 1 <= tiny * inject_Z 1000000000); [|lra]. rewrite !(Qmult_comm tiny).
    apply Qmult_le_compat_r; [vm_compute; discriminate|lra]. }
  assert (Hx2 : x2 <= s * ((1 + ulp) * (1 + ulp)) + 3 * tiny).
  { eapply Qle_trans; [exact H2|]. eapply Qle_trans; [apply up_le, Hx1|]. unfold up.
    assert (ulp * tiny <= 1 * tiny) by (apply Qmult_le_compat_r; lra).
    assert (E : s * ((1 + ulp) * (1 + ulp)) == s * (1 + ulp) + ulp * (s * (1 + ulp))) by ring. rewrite E. lra. }
  set (c := 1 + ulp) in *. assert (Hc : c * c * c <= 1 + slack).
  { rewrite <- U3. unfold c. assert (ulp * ulp <= (1 # 8) * ulp) by (apply Qmult_le_compat_r; lra).
    assert (ulp * ulp * ulp <= (1 # 8) * ulp * ulp) by (rewrite <- !Qmult_assoc; apply Qmult_le_compat_r; [lra|apply Qmult_le_0_compat; lra]).
    assert (E : (1 + ulp) * (1 + ulp) * (1 + ulp) == 1 + 3 * ulp + 3 * (ulp * ulp) + ulp * ulp * ulp) by ring. rewrite E.
    rewrite <- Qmult_assoc in H0. lra. }
  assert (Hx3 : x2 * r <= r * s * (c * c) + 3 * tiny * r).
  { eapply Qle_trans; [apply Qmult_le_compat_r; [exact Hx2|done]|]. apply Qle_lteq. right. ring. }
  assert (Hrs : 0 <= r * s) by (by apply Qmult_le_0_compat).
  assert (Hrt : 3 * tiny * r * c <= 6 * (pow2 64 * tiny)).
  { assert (tiny * r <= tiny * pow2 64) by (rewrite !(Qmult_comm tiny); apply Qmult_le_compat_r; lra).
    assert (tiny * r * c <= tiny * r * 2).
    { rewrite !(Qmult_comm (tiny * r)). apply Qmult_le_compat_r; [unfold c; lra|]. apply Qmult_le_0_compat; lra. }
    assert (E : 3 * tiny * r * c == 3 * (tiny * r * c)) by ring. rewrite E. rewrite (Qmult_comm (pow2 64)). lra. }
  assert (Hfin : up (x2 * r) <= r * s * (c * c * c) + 3 * tiny * r * c + tiny).
  { eapply Qle_trans; [apply up_le, Hx3|]. unfold up. fold c. apply Qle_lteq. right. unfold c. ring. }
  assert (Hcc : r * s * (c * c * c) <= r * s * (1 + slack)).
  { rewrite !(Qmult_comm (r * s)). by apply Qmult_le_compat_r. }
  assert (Ht : 6 * (pow2 64 * tiny) + 2 * tiny <= pow2 67 * tiny).
  { assert (E : pow2 67 == 8 * pow2 64) by (vm_compute; reflexivity). rewrite E.
    assert (1 * tiny <= pow2 64 * tiny) by (apply Qmult_le_compat_r; [vm_compute; discriminate|lra]).
    rewrite <- Qmult_assoc. lra. }
  lra.
Qed.

(** *** A bucket's account *)

Section Bucket.
Context (t0 t1 : Z) (Ht : (t1 - t0 < 2 ^ 63)%Z).

(** A rate and a capacity that the arithmetic can hold. *)
Definition moderate (x : double) : Prop := fin x /\ val x <= pow2 52.

(** A bucket of rate [r] and capacity [cap] that has admitted [n] of at most [k] requests
    since time [s]. *)
Record credit (s : Z) (r cap : double) (k n : nat) (b : TokenBucket) : Prop := {
  credit_rate : rate_ b = r;
  credit_burst : burst b = cap;
  credit_start : (t0 <= last_ b)%Z;
  credit_fin : fin (tokens_ b);
  credit_tokens : val (tokens_ b) <= val cap;
  credit_spent : n = 0%nat \/ 1 <= val cap /\ (s <= last_ b)%Z /\
    count n + val (tokens_ b) <= val cap * (1 + slack * count k) + val r * exact_seconds (last_ b - s) * (1 + slack)
}.

Lemma slack_pos : 0 < slack.
Proof. destruct ulp_facts as (U1 & _ & U3). lra. Qed.

Lemma credit_mono s r cap k k' n b : (k <= k')%nat -> credit s r cap k n b -> credit s r cap k' n b.
Proof.
  intros Hk [? ? ? ? ? Hn]. split; [done..|]. destruct Hn as [->|(H1 & H2 & H3)]; [by left|right]. split_and!; [done..|].
  assert (val cap * (1 + slack * count k) <= val cap * (1 + slack * count k')); [|lra].
  rewrite !(Qmult_comm (val cap)). apply Qmult_le_compat_r; [|apply val_nonneg].
  assert (slack * count k <= slack * count k'); [|lra].
  rewrite !(Qmult_comm slack). apply Qmult_le_compat_r; [by apply count_le|apply Qlt_le_weak, slack_pos].
Qed.

(** The seconds since the last refill, the increment and the sum. *)
Lemma refill_up r cap b now :
  moderate r -> moderate cap -> (t0 <= last_ b)%Z -> (last_ b <= now <= t1)%Z -> rate_ b = r -> burst b = cap ->
  fin (tokens_ b) -> val (tokens_ b) <= val cap ->
  fin (tokens_ (refill now b)) /\ val (tokens_ (refill now b)) <= val cap /\
  (1 <= val cap -> val (tokens_ (refill now b)) <=
     val (tokens_ b) + val r * exact_seconds (now - last_ b) * (1 + slack) + 2 * ulp * val cap).
Proof.
  assert (P52 : pow2 52 <= pow2 64) by (vm_compute; discriminate).
  intros [Fr Vr'] [Fc Vc'] Hs Hl Er Eb Ft Vt. assert (Vr : val r <= pow2 64) by lra. assert (Vc : val cap <= pow2 64) by lra. clear P52 Vr' Vc'. destruct ulp_facts as (U1 & U2 & _). destruct tiny_facts as [T1 T2].
  pose proof (val_nonneg r) as Nr. pose proof (val_nonneg cap) as Nc. pose proof (val_nonneg (tokens_ b)) as Nt.
  set (n := (now - last_ b)%Z). assert (Hn : (0 <= n < 2 ^ 63)%Z) by lia.
  assert (Hn' : 0 <= inject_Z n <= inject_Z (2 ^ 63)) by (split; [apply (inject_le 0); lia|apply inject_le; lia]).
  destruct (of_int_up n ltac:(lia)) as [F1 V1]. fold (of_int n) in F1, V1. pose proof (val_nonneg (of_int n)) as N1.
  destruct (of_int_exact 1000000000 ltac:(lia)) as [Fg Vg]. fold (of_int 1000000000) in Fg, Vg.
  pose proof (up_twice (inject_Z n) (proj1 Hn')) as W1. change (inject_Z (2 ^ 63)) with (9223372036854775808 # 1) in Hn'.
  assert (D1 : val (of_int n) / val (of_int 1000000000) <= val (of_int n)).
  { rewrite Vg. apply Qle_shift_div_r; [reflexivity|]. change (inject_Z 1000000000) with (1000000000 # 1). lra. }
  assert (D0 : 0 <= val (of_int n) / val (of_int 1000000000)) by (rewrite Vg; apply Qle_shift_div_l; [reflexivity|lra]).
  pose proof (up_twice _ D0) as W2. assert (Big : (4611686018427387904 # 1) * (4611686018427387904 # 1) * (4611686018427387904 # 1) * 64 < pow2 972) by (vm_compute; reflexivity).
  destruct (div_up (of_int n) (of_int 1000000000) F1 Fg) as [F2 V2]; [rewrite Vg; reflexivity|lra|].
  fold (over (of_int n) (of_int 1000000000)) in F2, V2. fold (seconds n) in F2, V2. pose proof (val_nonneg (seconds n)) as N2.
  assert (P64 : pow2 64 == 18446744073709551616 # 1) by (vm_compute; reflexivity). rewrite P64 in Vr, Vc.
  assert (D3 : val (seconds n) * val r <= (73786976294838206464 # 1) * (18446744073709551616 # 1)).
  { eapply Qle_trans; [apply Qmult_le_compat_r; [|done]|]; [|rewrite !(Qmult_comm (73786976294838206464 # 1)); apply Qmult_le_compat_r; [exact Vr|discriminate]]. lra. }
  assert (D3' : 0 <= val (seconds n) * val r) by (by apply Qmult_le_0_compat).
  pose proof (up_twice _ D3') as W3.
  destruct (mul_up (seconds n) r F2 Fr) as [F3 V3]; [lra|]. fold (times (seconds n) r) in F3, V3.
  pose proof (val_nonneg (times (seconds n) r)) as N3.
  assert (Hinc : val (times (seconds n) r) <= val r * exact_seconds n * (1 + slack) + (ulp - tiny)).
  { apply (increment_up (inject_Z n) _ _ (val (of_int n)) (val (seconds n)));
      [apply Hn'|reflexivity|rewrite P64; lra|exact N1|exact N2|exact V1| |exact V3].
    eapply Qle_trans; [exact V2|]. apply up_le. rewrite Vg. apply Qle_refl. }
  assert (D4 : 0 <= val (tokens_ b) + val (times (seconds n) r)) by lra. pose proof (up_twice _ D4) as W4.
  destruct (add_up (tokens_ b) (times (seconds n) r) Ft F3) as [F4 V4]; [lra|].
  fold (plus (tokens_ b) (times (seconds n) r)) in F4, V4.
  set (x := val (tokens_ b) + val (times (seconds n) r)) in *.
  assert (Hmin : forall y, y <= val cap -> y <= up x -> 1 <= val cap ->
    y <= val (tokens_ b) + val r * exact_seconds n * (1 + slack) + 2 * ulp * val cap).
  { intros y Hy Hu H1. assert (ulp * 1 <= ulp * val cap) by (rewrite !(Qmult_comm ulp); apply Qmult_le_compat_r; lra).
    destruct (Qlt_le_dec x (val cap)) as [Hx|Hx]; [|unfold x in *; lra].
    assert (ulp * x <= ulp * val cap) by (rewrite !(Qmult_comm ulp); apply Qmult_le_compat_r; lra). unfold up, x in *. lra. }
  unfold refill. cbn [tokens_]. fold n. rewrite Er, Eb. destruct (less cap (plus (tokens_ b) (times (seconds n) r))) eqn:El.
  - apply less_true in El; [|done..]. split_and!; [done|lra|]. apply Hmin; lra.
  - apply less_false in El; [|done..]. split_and!; [done|done|]. by apply Hmin.
Qed.

(** One request at a bucket. *)
Lemma tryAcquire_credit s r cap k n b now :
  moderate r -> moderate cap -> (last_ b <= now <= t1)%Z -> (s <= now)%Z -> credit s r cap k n b ->
  let '(ok, b') := tryAcquire now b in credit s r cap (S k) (if ok then S n else n) b' /\ last_ b' = now.
Proof.
  intros Mr Mc Hl Hs [E1 E2 H0 Ft Vt Hn]. destruct (refill_up r cap b now Mr Mc H0 Hl E1 E2 Ft Vt) as (F & V & W).
  destruct ulp_facts as (U1 & U2 & U3). pose proof (val_nonneg cap) as Nc. pose proof (val_nonneg r) as Nr.
  assert (Hx : forall m, (s <= m)%Z -> 0 <= val r * exact_seconds (m - s) * (1 + slack)).
  { intros m Hm. apply Qmult_le_0_compat; [|pose proof slack_pos; lra]. apply Qmult_le_0_compat; [done|apply exact_nonneg; lia]. }
  pose proof (count_nonneg k) as Nk. pose proof (count_S k) as Sk. pose proof (count_S n) as Sn.
  assert (Hck : val cap * (1 + slack * count (S k)) == val cap * (1 + slack * count k) + 4 * (ulp * val cap)) by (rewrite Sk, <- U3; ring).
  assert (Huc : 0 <= ulp * val cap) by (apply Qmult_le_0_compat; lra).
  assert (Hkc : val cap <= val cap * (1 + slack * count k)).
  { assert (0 <= val cap * (slack * count k)); [|lra]. apply Qmult_le_0_compat; [done|]. apply Qmult_le_0_compat; [|done].
    apply Qlt_le_weak, slack_pos. }
  assert (Hq : n = 0%nat \/ 1 <= val cap /\ count n + val (tokens_ (refill now b)) <=
    val cap * (1 + slack * count k) + val r * exact_seconds (now - s) * (1 + slack) + 2 * (ulp * val cap)).
  { destruct Hn as [->|(H1 & Hs' & Hn)]; [by left|right]. split; [done|]. specialize (W H1).
    pose proof (exact_plus (now - last_ b) (last_ b - s)) as Hp.
    replace (now - last_ b + (last_ b - s))%Z with (now - s)%Z in Hp by lia.
    assert (Hd : val r * exact_seconds (now - s) * (1 + slack) ==
      val r * exact_seconds (now - last_ b) * (1 + slack) + val r * exact_seconds (last_ b - s) * (1 + slack)) by (rewrite Hp; ring).
    rewrite Hd. rewrite <- Qmult_assoc in W. lra. }
  unfold tryAcquire. destruct (less (tokens_ (refill now b)) (of_int 1)) eqn:El; cbn [negb].
  { split; [|done]. split; [done|done|cbn; lia|done|done|]. destruct Hq as [->|[H1 Hq]]; [by left|right].
    split_and!; [done|done|]. change (last_ (refill now b)) with now. rewrite Hck. lra. }
  destruct (of_int_exact 1 ltac:(lia)) as [F1 V1]. fold (of_int 1) in F1, V1. change (inject_Z 1) with 1 in V1.
  apply less_false in El; [|done..]. set (y := tokens_ (refill now b)) in *.
  assert (D : 0 <= val y - val (of_int 1)) by lra. pose proof (up_twice _ D) as Wd.
  assert (P64 : 2 * pow2 52 + 1 < pow2 972) by (vm_compute; reflexivity). destruct Mc as [Fc Vc].
  destruct (sub_up y (of_int 1) F F1) as [F2 V2]; [lra|lra|]. fold (minus y (of_int 1)) in F2, V2.
  assert (Hsub : val (minus y (of_int 1)) <= val y - 1 + ulp * val cap).
  { unfold up in V2. destruct tiny_facts as [T1 T2].
    assert (tiny <= ulp).
    { assert (1 * tiny <= pow2 67 * tiny) by (apply Qmult_le_compat_r; [vm_compute; discriminate|lra]). lra. }
    assert (ulp * (val y - val (of_int 1)) <= ulp * (val cap - 1)).
    { rewrite !(Qmult_comm ulp). apply Qmult_le_compat_r; lra. }
    lra. }
  split; [|done]. split; [done|done|cbn; lia|done|cbn [tokens_]|].
  - (* one token less, up to rounding, is still below the capacity *)
    assert (Eu : ulp * pow2 52 == 1) by (vm_compute; reflexivity).
    assert (ulp * val cap <= ulp * pow2 52) by (rewrite !(Qmult_comm ulp); apply Qmult_le_compat_r; lra). lra.
  - right. cbn [last_ tokens_]. change (last_ (refill now b)) with now. split_and!; [lra|done|]. rewrite Hck.
    specialize (Hx now Hs). destruct Hq as [->|[H1 Hq]]; [change (count 0) with 0 in *|]; lra.
Qed.

Lemma credit_forget s s' r cap k n b : credit s r cap k n b -> credit s' r cap 0 0 b.
Proof. intros [? ? ? ? ? ?]. split; [done..|by left]. Qed.

Lemma credit_bound s e r cap k n b :
  (s <= e)%Z -> (last_ b <= e)%Z -> credit s r cap k n b ->
  count n <= val cap * (1 + slack * count k) + val r * exact_seconds (e - s) * (1 + slack).
Proof.
  intros Hs Hl [_ _ _ _ _ Hn]. pose proof (val_nonneg cap) as Nc. pose proof (val_nonneg r) as Nr. pose proof slack_pos as Sp.
  assert (Hr : forall m, (0 <= m)%Z -> 0 <= val r * exact_seconds m * (1 + slack)).
  { intros m Hm. apply Qmult_le_0_compat; [|lra]. apply Qmult_le_0_compat; [done|by apply exact_nonneg]. }
  assert (Hc : 0 <= val cap * (1 + slack * count k)).
  { apply Qmult_le_0_compat; [done|]. pose proof (Qmult_le_0_compat slack (count k) ltac:(lra) (count_nonneg k)). lra. }
  destruct Hn as [->|(_ & Hs' & Hn)].
  - change (count 0) with 0. specialize (Hr (e - s)%Z ltac:(lia)). lra.
  - pose proof (val_nonneg (tokens_ b)) as Nt. pose proof (Hr (e - last_ b)%Z ltac:(lia)) as Hx.
    pose proof (exact_plus (e - last_ b) (last_ b - s)) as Hp.
    replace (e - last_ b + (last_ b - s))%Z with (e - s)%Z in Hp by lia.
    assert (Hd : val r * exact_seconds (e - s) * (1 + slack) ==
      val r * exact_seconds (e - last_ b) * (1 + slack) + val r * exact_seconds (last_ b - s) * (1 + slack)) by (rewrite Hp; ring).
    rewrite Hd. lra.
Qed.

Lemma new_bucket_credit s now r cap k : (t0 <= now)%Z -> fin cap -> credit s r cap k 0 (new_bucket now r cap).
Proof. intros H F. split; [done..|apply Qle_refl|by left]. Qed.

End Bucket.

(** Requests, each a time and a fingerprint, and the answers to them. *)
Fixpoint requests (rs : list (Z * Z)) (l : RateLimiter) : list bool * RateLimiter :=
  match rs with
  | [] => ([], l)
  | (now, fp) :: rs =>
      let '(ok, l) := acquire_limiter now fp l in
      let '(oks, l) := requests rs l in (ok :: oks, l)
  end.

(** The times of the requests do not decrease, from [lo] to [hi]. *)
Fixpoint ordered (lo : Z) (rs : list (Z * Z)) (hi : Z) : Prop :=
  match rs with
  | [] => (lo <= hi)%Z
  | (now, _) :: rs => (lo <= now)%Z /\ ordered now rs hi
  end.

Lemma ordered_le lo rs hi : ordered lo rs hi -> (lo <= hi)%Z.
Proof. revert lo; induction rs as [|[now fp] rs IH]; intros lo; cbn; [done|]. intros [H ?%IH]. lia. Qed.

(** The admitted requests, and those of a fingerprint among them. *)
Definition admitted (oks : list bool) : nat := length (List.filter id oks).

Definition admitted_of (fp : Z) (rs : list (Z * Z)) (oks : list bool) : nat :=
  length (List.filter (fun x => (x.1.2 =? fp)%Z && x.2) (combine rs oks)).

(** The capacity of a bucket. *)
Definition capacity (qps : double) (b : Z) : double := if (0 <? b)%Z then of_int b else qps.

Section Limits.
Context (t0 t1 : Z) (q p : double) (b : Z) (mode : str) (fp : Z).
Hypothesis (Ht : (t1 - t0 < 2 ^ 63)%Z) (Hq : moderate q) (Hp : moderate p) (Hb : (0 <= b <= 2 ^ 52)%Z).

(** A limiter at time [t] that has admitted [n] of [k] requests since [s], [m] of them
    with fingerprint [fp]. *)
Record metered (s t : Z) (k n m : nat) (l : RateLimiter) : Prop := {
  metered_qps : perFpQps_ l = p;
  metered_burst : burst_ l = b;
  metered_mode : fpMode_ l = mode;
  metered_size : (size (fpBuckets_ l) <= kFpCap)%nat;
  metered_global : 0 < val q -> exists g n', global_ l = Some g /\ credit t0 s q (capacity q b) k n' g
                                         /\ (last_ g <= t)%Z /\ (n <= n')%nat;
  metered_fps : forall f u, fpBuckets_ l !! f = Some u ->
                  credit t0 s p (capacity p b) k (if (f =? fp)%Z then m else 0%nat) u /\ (last_ u <= t)%Z;
  metered_none : fpBuckets_ l !! fp = None -> m = 0%nat \/ size (fpBuckets_ l) = kFpCap
}.

Lemma capacity_moderate x : moderate x -> moderate (capacity x b).
Proof.
  intros Hx. unfold capacity. destruct (0 <? b)%Z eqn:E; [|done].
  destruct (of_int_exact b ltac:(lia)) as [F V]. split; [exact F|]. unfold of_int. rewrite V, <- pow2_Z by lia. apply inject_le. lia.
Qed.

Lemma metered_forget s s' t k n m l : metered s t k n m l -> metered s' t 0 0 0 l.
Proof.
  intros [E1 E2 E3 Hs Hg Hf Hn]. split; [done..| | |by left].
  - intros H. destruct (Hg H) as (g & n' & Eg & Hc & Hl & _). exists g, 0%nat.
    split_and!; [done|by eapply credit_forget|done|lia].
  - intros f u Hu. destruct (Hf f u Hu) as [Hc Hl]. split; [|done].
    destruct (f =? fp)%Z; by eapply credit_forget.
Qed.

(** The global bucket's part of a request. *)
Lemma acquire_global_metered s t k n m l now ok l' :
  (t <= now <= t1)%Z -> (s <= now)%Z -> metered s t k n m l -> acquire_global now l = (ok, l') ->
  fpBuckets_ l' = fpBuckets_ l /\ perFingerprint l' = perFingerprint l
  /\ metered s now (S k) (if ok then S n else n) m l'.
Proof.
  intros Hnow Hs [E1 E2 E3 Hz Hg Hf Hn] Ha.
  assert (Hf' : forall f u, fpBuckets_ l !! f = Some u ->
     credit t0 s p (capacity p b) (S k) (if (f =? fp)%Z then m else 0%nat) u /\ (last_ u <= now)%Z).
  { intros f u Hu. destruct (Hf f u Hu). split; [by apply (credit_mono _ _ _ _ k); [lia|]|lia]. }
  unfold acquire_global in Ha. destruct (global_ l) as [g|] eqn:Eg.
  - destruct (tryAcquire now g) as [ok' g'] eqn:Et. injection Ha as <- <-. split_and!; [done|done|].
    split; try done. intros H. destruct (Hg H) as (g0 & n' & [= <-] & Hc & Hl & Hle).
    pose proof (tryAcquire_credit t0 t1 Ht s q (capacity q b) k n' g now Hq (capacity_moderate q Hq) ltac:(lia) Hs Hc) as Hx.
    rewrite Et in Hx. destruct Hx as (Hx & Hlast). cbn [global_]. exists g', (if ok' then S n' else n').
    split_and!; [done|done|lia|destruct ok'; lia].
  - injection Ha as <- <-. split_and!; [done|done|]. split; try done.
    intros H. by destruct (Hg H) as (g0 & n' & ? & _).
Qed.

Lemma metered_less s t k n n' m l : (n' <= n)%nat -> metered s t k n m l -> metered s t k n' m l.
Proof.
  intros Hle [E1 E2 E3 Hz Hg Hf Hn]. split; try done. intros H.
  destruct (Hg H) as (g & j & ? & ? & ? & ?). exists g, j. split_and!; [done..|lia].
Qed.

(** The bucket found or made for a fingerprint; [k] requests came before this one. *)
Lemma fp_bucket_credit s t k n m l now f u :
  (t0 <= now)%Z -> (t <= now)%Z ->
  (forall f u, fpBuckets_ l !! f = Some u ->
     credit t0 s p (capacity p b) k (if (f =? fp)%Z then m else 0%nat) u /\ (last_ u <= t)%Z) ->
  metered s t (S k) n m l -> fp_bucket now f l = Some u ->
  credit t0 s p (capacity p b) k (if (f =? fp)%Z then m else 0%nat) u /\ (last_ u <= now)%Z
  /\ (fpBuckets_ l !! f = None -> (size (fpBuckets_ l) < kFpCap)%nat).
Proof.
  intros H0 Hnow Hf [E1 E2 E3 Hz Hg _ Hn]. unfold fp_bucket. destruct (fpBuckets_ l !! f) as [u'|] eqn:Ef.
  - intros [= <-]. destruct (Hf f u' Ef). split_and!; [done|lia|done].
  - destruct (kFpCap <=? size (fpBuckets_ l))%nat eqn:Ec; [done|]. apply Nat.leb_gt in Ec.
    intros [= <-]. rewrite E1, E2. split_and!; [|cbn; lia|done].
    assert (Hm : (if (f =? fp)%Z then m else 0%nat) = 0%nat).
    { destruct (f =? fp)%Z eqn:E; [|done]. apply Z.eqb_eq in E as ->. destruct (Hn Ef) as [->|Hx]; [done|lia]. }
    rewrite Hm. apply new_bucket_credit; [done|]. apply (capacity_moderate p Hp).
Qed.

Lemma set_bucket_metered s t k n m m' l f u :
  metered s t k n m l -> (fpBuckets_ l !! f = None -> (size (fpBuckets_ l) < kFpCap)%nat) ->
  credit t0 s p (capacity p b) k (if (f =? fp)%Z then m' else 0%nat) u -> (last_ u <= t)%Z ->
  (f <> fp -> m' = m) -> metered s t k n m' (set_buckets (<[f := u]> (fpBuckets_ l)) l).
Proof.
  intros [E1 E2 E3 Hz Hg Hf Hn] Hfull Hc Hl Hm. split; try done; cbn [fpBuckets_ set_buckets].
  - destruct (fpBuckets_ l !! f) as [u'|] eqn:Ef.
    + by rewrite map_size_insert_Some.
    + rewrite map_size_insert_None by done. specialize (Hfull eq_refl). lia.
  - intros f' u' Hu'. destruct (decide (f' = f)) as [->|Hne].
    + rewrite lookup_insert_eq in Hu'. injection Hu' as <-. done.
    + rewrite lookup_insert_ne in Hu' by done. destruct (Hf f' u' Hu') as [Hc' Hl']. split; [|done].
      destruct (f' =? fp)%Z eqn:E; [|done]. apply Z.eqb_eq in E as ->. by rewrite Hm.
  - intros Hnone. apply lookup_insert_None in Hnone as [Hnone Hne].
    destruct (Hn Hnone) as [->|Hsz]; [left; by apply Hm|right].
    destruct (fpBuckets_ l !! f) as [u'|] eqn:Ef.
    + by rewrite map_size_insert_Some.
    + specialize (Hfull eq_refl). lia.
Qed.

(** Requests the fingerprint's bucket decides on. *)
Definition hit (f : Z) : bool :=
  (f =? fp)%Z && (negb (f =? 0)%Z && (negb (mode =s $"off") && less (of_int 0) p)).

Lemma acquire_metered s t k n m l now f ok l' :
  (t0 <= t)%Z -> (t <= now <= t1)%Z -> (s <= now)%Z -> metered s t k n m l -> acquire_limiter now f l = (ok, l') ->
  metered s now (S k) (if ok then S n else n) (if ok && hit f then S m else m) l'.
Proof.
  intros H0 Hnow Hs Hm. unfold acquire_limiter. destruct (acquire_global now l) as [gok v] eqn:Eg.
  destruct (acquire_global_metered _ _ _ _ _ _ _ _ _ Hnow Hs Hm Eg) as (Hb' & Hpf & Hu).
  destruct gok; cbn [negb]; [|by intros [= <- <-]].
  destruct (negb (f =? 0)%Z && perFingerprint v) eqn:Ec.
  2:{ intros [= <- <-]. cbn [andb]. replace (hit f) with false; [done|]. unfold hit.
      unfold perFingerprint in Ec. rewrite (metered_mode _ _ _ _ _ _ Hu), (metered_qps _ _ _ _ _ _ Hu) in Ec.
      by rewrite Ec, andb_false_r. }
  assert (Hhit : hit f = (f =? fp)%Z).
  { unfold hit. unfold perFingerprint in Ec.
    rewrite (metered_mode _ _ _ _ _ _ Hu), (metered_qps _ _ _ _ _ _ Hu) in Ec. by rewrite Ec, andb_true_r. }
  rewrite Hhit. destruct (fp_bucket now f v) as [u|] eqn:Ek.
  - destruct (fp_bucket_credit s now k (S n) m v now f u) as (Hc & Hl & Hfull); [lia|lia| |done|done|].
    { rewrite Hb'. intros f' u' Hu'. destruct (metered_fps _ _ _ _ _ _ Hm f' u' Hu'). split; [done|lia]. }
    pose proof (tryAcquire_credit t0 t1 Ht s p _ _ _ u now Hp (capacity_moderate p Hp) ltac:(lia) Hs Hc) as Hx.
    destruct (tryAcquire now u) as [uok u']. destruct Hx as (Hx & Hlast). intros [= <- <-].
    apply (set_bucket_metered _ _ _ _ m); [|done| |lia|].
    + destruct uok; [done|]. by apply (metered_less _ _ _ (S n)); [lia|].
    + destruct uok, (f =? fp)%Z; cbn in *; try done. apply (credit_mono _ _ _ _ 0); [lia|]. by eapply credit_forget.
    + intros Hne%Z.eqb_neq. by rewrite Hne, andb_false_r.
  - intros [= <- <-]. cbn [andb]. destruct (f =? fp)%Z eqn:E; [|done]. apply Z.eqb_eq in E as ->.
    unfold fp_bucket in Ek. destruct (fpBuckets_ v !! fp) as [u|] eqn:Ef; [done|].
    destruct (kFpCap <=? size (fpBuckets_ v))%nat eqn:Esz; [|done]. apply Nat.leb_le in Esz.
    destruct Hu as [E1 E2 E3 Hz Hgl Hf Hn]. split; try done.
    + intros f' u' Hu'. destruct (f' =? fp)%Z eqn:E'; [|].
      * apply Z.eqb_eq in E' as ->. congruence.
      * destruct (Hf f' u' Hu') as [Hc Hl]. by rewrite E' in Hc.
    + intros _. right. lia.
Qed.

Lemma requests_metered s t e rs k n m l oks l' :
  (t0 <= t)%Z -> (s <= t)%Z -> (e <= t1)%Z -> ordered t rs e -> metered s t k n m l -> requests rs l = (oks, l') ->
  metered s e (length rs + k) (admitted oks + n)
    (length (List.filter (fun x => hit x.1.2 && x.2) (combine rs oks)) + m) l'.
Proof.
  revert t k n m l oks l'; induction rs as [|[now f] rs IH]; intros t k n m l oks l' H0 Hst He Ho Hm; cbn.
  { intros [= <- <-]. cbn in *. destruct Hm as [E1 E2 E3 Hz Hg Hf Hn]. split; try done.
    - intros H. destruct (Hg H) as (g & j & ? & ? & ? & ?). exists g, j. split_and!; [done..|lia|done].
    - intros f u Hu. destruct (Hf f u Hu). split; [done|lia]. }
  cbn in Ho. destruct Ho as [Hle Ho]. pose proof (ordered_le _ _ _ Ho) as Hne.
  destruct (acquire_limiter now f l) as [ok v] eqn:Ea. destruct (requests rs v) as [oks' v'] eqn:Er.
  intros [= <- <-]. eapply acquire_metered in Hm; [|exact H0|split; [exact Hle|lia]| |exact Ea]; [|lia].
  specialize (IH now _ _ _ _ _ _ ltac:(lia) ltac:(lia) He Ho Hm Er). unfold admitted in *. rewrite Nat.add_succ_r in IH.
  cbn [List.filter fst snd]. rewrite (andb_comm (hit f)). cbn [id].
  destruct ok, (hit f); cbn [andb length Nat.add] in *; by rewrite ?Nat.add_succ_r in IH.
Qed.

Lemma new_limiter_metered s : metered s t0 0 0 0 (new_limiter t0 q p b mode).
Proof.
  destruct (of_int_exact 0 ltac:(lia)) as [F0 V0]. fold (of_int 0) in F0, V0. change (inject_Z 0) with 0 in V0.
  split; [done|done|done| | | |by left].
  - cbn [fpBuckets_ new_limiter]. rewrite map_size_empty. apply Nat.le_0_l.
  - intros H. cbn [global_ new_limiter].
    replace (less (of_int 0) q) with true by (symmetry; apply less_val; [done|apply Hq|by rewrite V0]).
    eexists _, 0%nat. split_and!; [done| |cbn; lia|lia]. apply new_bucket_credit; [lia|]. apply (capacity_moderate q Hq).
  - intros f u. cbn. by rewrite lookup_empty.
Qed.

End Limits.

(** C20. The rate limiter, with its arithmetic of doubles.  A limiter of rate [q],
    whatever was asked of it before, admits in a window of requests at most its capacity
    plus [q] times the length of the window, up to the rounding: the product may exceed
    the exact one by a relative error of 2^-50, and the capacity by as much for every
    request of the window.  So for the requests of a fingerprint that has a bucket.  The
    limiter keeps at most 1024 buckets.  Rates and burst are at most 2^52 and the time
    from the start fits 63 bits of nanoseconds. *)
Theorem rate_limit_bound (q p : double) (b : Z) (mode : str) (now0 s e : Z) before window :
  moderate q -> moderate p -> (0 <= b <= 2 ^ 52)%Z -> (e - now0 < 2 ^ 63)%Z ->
  ordered now0 before s -> ordered s window e ->
  let l := (requests before (new_limiter now0 q p b mode)).2 in
  let '(oks, l') := requests window l in
  let bound r := val (capacity r b) * (1 + slack * count (length window)) + val r * exact_seconds (e - s) * (1 + slack) in
  (0 < val q -> count (admitted oks) <= bound q)
  /\ (size (fpBuckets_ l') <= kFpCap)%nat
  /\ forall fp, fp <> 0%Z -> mode <> $"off" -> 0 < val p -> is_Some (fpBuckets_ l' !! fp) ->
       count (admitted_of fp window oks) <= bound p.
Proof.
  intros Hq Hp Hb Ht Hbef Hwin l. destruct (requests window l) as [oks l'] eqn:Er. cbv zeta.
  pose proof (ordered_le _ _ _ Hwin) as Hse. pose proof (ordered_le _ _ _ Hbef) as H0s.
  assert (H : forall fp, metered now0 q p b mode fp s e (length window) (admitted oks)
                (length (List.filter (fun x => hit p mode fp x.1.2 && x.2) (combine window oks))) l').
  { intros fp. destruct (requests before (new_limiter now0 q p b mode)) as [oks0 l0] eqn:E0. subst l. cbn in Er.
    pose proof (requests_metered now0 e q p b mode fp Ht Hq Hp Hb now0 now0 s before 0 0 0 _ _ _ (Z.le_refl _) (Z.le_refl _) Hse Hbef
                  (new_limiter_metered now0 q p b mode fp Hq Hb now0) E0) as Hm.
    apply (metered_forget _ _ _ _ _ _ _ s) in Hm.
    pose proof (requests_metered now0 e q p b mode fp Ht Hq Hp Hb s s e window 0 0 0 _ _ _ H0s (Z.le_refl _) (Z.le_refl _) Hwin Hm Er) as Hx.
    by rewrite !Nat.add_0_r in Hx. }
  split_and!.
  - intros Hpos. destruct (metered_global _ _ _ _ _ _ _ _ _ _ _ _ (H 0%Z) Hpos) as (g & n' & _ & Hc & Hl & Hle).
    apply (credit_bound now0 s e) in Hc; [|done|done]. eapply Qle_trans; [by apply count_le|exact Hc].
  - apply (metered_size _ _ _ _ _ _ _ _ _ _ _ _ (H 0%Z)).
  - intros fp Hfp Hmode Hpos [u Hu]. destruct (metered_fps _ _ _ _ _ _ _ _ _ _ _ _ (H fp) _ _ Hu) as [Hc Hl].
    rewrite Z.eqb_refl in Hc. apply (credit_bound now0 s e) in Hc; [|done|done].
    unfold admitted_of. erewrite List.filter_ext; [exact Hc|]. intros [[t f] ok]. cbn. unfold hit.
    destruct (f =? fp)%Z eqn:E; [|done]. apply Z.eqb_eq in E as ->. apply Z.eqb_neq in Hfp. rewrite Hfp.
    replace (mode =s $"off") with false by (symmetry; by apply not_true_iff_false; rewrite str_eqb_true).
    destruct (of_int_exact 0 ltac:(lia)) as [F0 V0]. fold (of_int 0) in F0, V0. change (inject_Z 0) with 0 in V0.
    replace (less (of_int 0) p) with true by (symmetry; apply less_val; [done|apply Hp|by rewrite V0]). done.
Qed.

(** A limiter with a rate below one request a second and no configured burst
    has a capacity below one token: it refuses every request, for ever. *)
Theorem slow_limiter_refuses (q p : double) (mode : str) (now0 e : Z) rs :
  moderate q -> 0 < val q -> val q < 1 -> (e - now0 < 2 ^ 63)%Z -> ordered now0 rs e ->
  Forall (fun ok => ok = false) (requests rs (new_limiter now0 q p 0 mode)).1.
Proof.
  intros Mq Hq H1 Ht.
  destruct (of_int_exact 1 ltac:(lia)) as [F1 V1]. fold (of_int 1) in F1, V1. change (inject_Z 1) with 1 in V1.
  destruct (of_int_exact 0 ltac:(lia)) as [F0 V0]. fold (of_int 0) in F0, V0. change (inject_Z 0) with 0 in V0.
  assert (H : forall t l, (exists g, global_ l = Some g /\ credit now0 now0 q q 0 0 g /\ (last_ g <= t)%Z /\ (now0 <= t)%Z) ->
                ordered t rs e -> Forall (fun ok => ok = false) (requests rs l).1).
  { induction rs as [|[now fp] rs IH]; intros t l (g & Eg & Hc & Hl & Hnow); [done|]. intros [Hle Ho]. cbn [requests].
    pose proof (ordered_le _ _ _ Ho) as Hne. destruct Hc as [E1 E2 E3 Ft Vt _].
    destruct (refill_up now0 e Ht q q g now Mq Mq E3 ltac:(lia) E1 E2 Ft Vt) as (F & V & _).
    assert (Ha : acquire_limiter now fp l = (false, set_global (Some (refill now g)) l)).
    { unfold acquire_limiter, acquire_global, tryAcquire. rewrite Eg.
      replace (less (tokens_ (refill now g)) (of_int 1)) with true; [done|].
      symmetry. apply less_val; [done|done|]. rewrite V1. lra. }
    rewrite Ha. specialize (IH now (set_global (Some (refill now g)) l)).
    destruct (requests rs (set_global (Some (refill now g)) l)) as [oks l'] eqn:Er.
    cbn. constructor; [done|]. apply IH; [|done].
    exists (refill now g). split_and!; [done| |cbn; lia|lia]. split; [done|done|cbn; lia|done|done|by left]. }
  apply H. exists (new_bucket now0 q q). cbn [global_ new_limiter].
  replace (less (of_int 0) q) with true by (symmetry; apply less_val; [done|apply Mq|by rewrite V0]).
  split_and!; [done| |cbn; lia|lia]. apply new_bucket_credit; [lia|apply Mq].
Qed.

(** When 1024 fingerprints have buckets, the requests of any other
    fingerprint are admitted without a limit of their own: the limiter's answer
    is the global bucket's. *)
Theorem full_table_unlimited (l : RateLimiter) (now fp : Z) :
  size (fpBuckets_ l) = kFpCap -> fpBuckets_ l !! fp = None ->
  acquire_limiter now fp l = acquire_global now l.
Proof.
  intros Hs Hn. unfold acquire_limiter. destruct (acquire_global now l) as [ok u] eqn:Eg.
  assert (Hb : fpBuckets_ u = fpBuckets_ l).
  { unfold acquire_global in Eg. destruct (global_ l); [|by injection Eg as <- <-].
    destruct (tryAcquire now t). by injection Eg as <- <-. }
  destruct ok; cbn [negb]; [|done]. destruct (_ && _); [|done].
  unfold fp_bucket. by rewrite Hb, Hn, Hs, Nat.leb_refl.
Qed.

#[local] Close Scope Q_scope.

(** ** What passes the gates *)

Section Passing.
Context {L : Type} `{IRateLimiter L}.

Lemma limit_spec name now fp (l : L) g st g' :
  limit name now fp l g = (st, g') ->
  status_ok st = (acquire now fp l).1 /\ g_limiter g' = Some (acquire now fp l).2
  /\ g_auditor g' = g_auditor g /\ (status_ok st = false -> st = rateLimited name)
  /\ g_rejected g' = g_rejected g ++ (if status_ok st then [] else [code_ st]).
Proof.
  unfold limit. destruct (acquire now fp l) as [[] l']; intros [= <- <-]; cbn; by rewrite ?app_nil_r.
Qed.

(** The gate lets a statement pass exactly when the operation has not been
    stopped, the auditor accepts the statement and the limiter, if any, has a
    token for it.  Only a statement the auditor accepts costs a token, a stopped
    operation's statement is not even audited, and every other refusal is
    reported once, with its code. *)
Theorem preGate_exact name readOnly now sql type (g : gate) st g' :
  preGate name readOnly now sql type g = (st, g') ->
  let au := audit_check sql type readOnly (g_auditor g) in
  let fp l := if usesFingerprint l then fingerprintTemplate sql else 0 in
  (status_ok st = true <->
     status_ok (g_stop g) = true /\ status_ok au.1 = true
     /\ forall l, g_limiter g = Some l -> (acquire now (fp l) l).1 = true)
  /\ g_auditor g' = (if status_ok (g_stop g) then au.2 else g_auditor g)
  /\ g_limiter g' = (if status_ok (g_stop g) && status_ok au.1
                     then (fun l => (acquire now (fp l) l).2) <$> g_limiter g else g_limiter g)
  /\ g_rejected g' = g_rejected g ++ (if status_ok st || negb (status_ok (g_stop g)) then [] else [code_ st]).
Proof.
  unfold preGate. destruct (status_ok (g_stop g)) eqn:Es; cbn [negb andb].
  2:{ intros [= <- <-]. cbn zeta. rewrite Es, orb_true_r, app_nil_r. naive_solver. }
  destruct (audit_check sql type readOnly (g_auditor g)) as [s a] eqn:Ea. cbn [fst snd].
  destruct (status_ok s) eqn:E; cbn [negb].
  2:{ intros [= <- <-]. rewrite E. cbn. naive_solver. }
  cbn [g_limiter set_auditor]. destruct (g_limiter g) as [l|] eqn:El.
  - intros (H1 & H2 & H3 & _ & H5)%limit_spec. rewrite H1, H2, H3, H5, orb_false_r. cbn. rewrite H1.
    split_and!; [|done..]. split; [intros Hok; split_and!; [done..|]; by intros l0 [= <-]|].
    intros (_ & _ & Hl). by apply Hl.
  - intros [= <- <-]. cbn. rewrite app_nil_r. naive_solver.
Qed.

(** With auditing in block mode: what passes is allowed by the policy. *)
Lemma preGate_allowed cfg a name readOnly now sql type (l : option L) rej st g' :
  ac_enabled cfg = true -> ac_action cfg = $"block" ->
  preGate name readOnly now sql type (mkGate status_OK (audit_configure cfg a) l rej) = (st, g') ->
  status_ok st = true -> allowed cfg sql type readOnly.
Proof.
  intros He Hb Hg Hok. apply (audit_block_check cfg a); [done..|]. unfold preGate in Hg. cbn in Hg.
  destruct (audit_check sql type readOnly (audit_configure cfg a)) as [s a'].
  cbn. destruct (status_ok s) eqn:E; [done|]. cbn in Hg. injection Hg as <- _. congruence.
Qed.

End Passing.

(** ** Samples *)

(** Two requests a second, a burst of two: the third request of a second waits. *)
Definition sample_limiter : RateLimiter := new_limiter 0 (of_int 2) (of_int 1) 2 ($"template").

Example doubles_admit :
  (fun l =>
     let '(a, l) := acquire_limiter 0 7 l in
     let '(b, l) := acquire_limiter 100000000 8 l in
     let '(c, l) := acquire_limiter 200000000 9 l in
     let '(d, l) := acquire_limiter 600000000 9 l in [a; b; c; d]) sample_limiter
  = [true; true; false; true].
Proof. vm_compute. reflexivity. Qed.

Lemma small_moderate (z : Z) : 0 <= z <= 2 ^ 52 -> moderate (of_int z).
Proof.
  intros Hz. destruct (Binary64.of_int_exact z ltac:(lia)) as [F V]. split; [exact F|].
  unfold of_int. rewrite V, <- Binary64.pow2_Z by lia. apply Binary64.inject_le. lia.
Qed.

(** One request in ten million seconds, a burst of one, and two requests almost that far
    apart: both are admitted, because the seconds round up to ten million.  The exact
    bound is below two, the bound with its slack is not. *)
Definition rare : double := over (of_int 1) (of_int 10000000).

Lemma rare_moderate : moderate rare /\ Qlt 0 (Binary64.val rare).
Proof. split; [split|]; vm_compute; (reflexivity || discriminate). Qed.

Lemma rate_limit_bound_witness :
  let l := (requests [] (new_limiter 0 rare (of_int 0) 1 ($"off"))).2 in
  let '(oks, l') := requests [(0, 7); (9999999999999999, 8)] l in
  oks = [true; true] /\
  Qle (count (admitted oks))
    (Qplus (Qmult (Binary64.val (capacity rare 1)) (Qplus 1 (Qmult slack (count 2))))
       (Qmult (Qmult (Binary64.val rare) (exact_seconds (9999999999999999 - 0))) (Qplus 1 slack))).
Proof.
  pose proof (rate_limit_bound rare (of_int 0) 1 ($"off") 0 0 9999999999999999 [] [(0, 7); (9999999999999999, 8)]
                (proj1 rare_moderate) (small_moderate 0 ltac:(lia)) ltac:(lia) ltac:(lia) ltac:(cbn; lia) ltac:(cbn; lia)) as H.
  cbv zeta in *. destruct (requests [(0, 7); (9999999999999999, 8)] _) as [oks l'] eqn:E in *.
  assert (Eo : oks = [true; true]) by (vm_compute in E; congruence).
  split; [exact Eo|]. exact (proj1 H (proj2 rare_moderate)).
Defined.

Definition half : double := over (of_int 1) (of_int 2).

Lemma half_moderate : moderate half /\ Qlt 0 (Binary64.val half) /\ Qlt (Binary64.val half) 1.
Proof. split; [split|split]; vm_compute; (reflexivity || discriminate). Qed.

Lemma slow_limiter_refuses_witness :
  Forall (fun ok => ok = false) (requests [(5000000000, 7); (9000000000, 8)] (new_limiter 0 half (of_int 0) 0 ($"off"))).1.
Proof.
  destruct half_moderate as (H1 & H2 & H3).
  apply (slow_limiter_refuses half (of_int 0) ($"off") 0 9000000000); [exact H1|exact H2|exact H3|lia|]. cbn. lia.
Defined.

Definition sample_gate : gate :=
  mkGate status_OK (audit_configure sample_audit auditor_init) (Some sample_limiter) [].

Lemma preGate_exact_witness :
  exists st g', preGate ($"db") false 0 ($"SELECT 1") OExecute sample_gate = (st, g')
    /\ g_rejected g' = [] ++ (if status_ok st || negb (status_ok status_OK) then [] else [code_ st]).
Proof.
  destruct (preGate ($"db") false 0 ($"SELECT 1") OExecute sample_gate) as [st g'] eqn:E.
  destruct (preGate_exact ($"db") false 0 ($"SELECT 1") OExecute sample_gate st g' E) as (_ & _ & _ & H).
  exists st, g'. split; [reflexivity|exact H].
Defined.

Definition crowded : RateLimiter :=
  mkLimiter None (of_int 1) 1 ($"template")
    (list_to_map (map (fun i => (Z.of_nat i, new_bucket 0 (of_int 1) (of_int 1))) (seq 1 1024))).

Lemma full_table_unlimited_witness : acquire_limiter 0 5000 crowded = acquire_global 0 crowded.
Proof. apply (full_table_unlimited crowded 0 5000); vm_compute; reflexivity. Defined.

End Gate.
