(* ===== verification/OracleTypes.v ===== *)
(** * Oracle types

    src/common/oracle_types.cpp and include/sqlconduit/common/oracle_types.h: the
    classification of external data types, texts of values in both directions,
    timestamps, connect descriptors, RETURNING clauses and SQLSTATEs.  The C
    library's [strtod] and [printf] for doubles and the local time zone's
    [mktime] are arguments.  Positions in a text are the text that remains. *)

From S2P Require Import Prelude Types Timestamp Quoting NamedParams SqlAuditor Session Binding.

Module Oracle.

(** ** Data types *)

Inductive OracleTypeClass : Type :=
| CUnknown | CText | CNumber | CBinary | CDate | CTimestamp | CTimestampTz | CInterval | CLob | CRowid.

#[local] Open Scope Z_scope.

Definition oracleTypeClass (sqlt : Z) : OracleTypeClass :=
  match sqlt with
  | 1 | 5 | 9 | 96 | 8 => CText
  | 2 | 6 | 7 | 3 | 68 | 4 | 21 | 22 | 100 | 101 => CNumber
  | 23 | 24 | 15 => CBinary
  | 12 => CDate
  | 187 => CTimestamp
  | 188 | 232 => CTimestampTz
  | 189 | 190 => CInterval
  | 112 | 113 | 114 | 115 => CLob
  | 11 | 104 => CRowid
  | _ => CUnknown
  end.

Definition oracleTypeName (sqlt : Z) : str :=
  match sqlt with
  | 1 => $"VARCHAR2" | 2 => $"NUMBER" | 3 => $"INTEGER" | 4 => $"FLOAT" | 5 => $"STRING"
  | 6 => $"VARNUM" | 7 => $"PACKED-DECIMAL" | 8 => $"LONG" | 9 => $"VARCHAR" | 11 => $"ROWID"
  | 12 => $"DATE" | 15 => $"VARRAW" | 21 => $"BINARY_FLOAT" | 22 => $"BINARY_DOUBLE" | 23 => $"RAW"
  | 24 => $"LONG RAW" | 68 => $"UNSIGNED" | 91 => $"DISPLAY" | 96 => $"CHAR"
  | 100 => $"BINARY_FLOAT" | 101 => $"BINARY_DOUBLE" | 102 => $"REF CURSOR" | 108 => $"NAMED TYPE"
  | 110 => $"REF" | 112 => $"CLOB" | 113 => $"BLOB" | 114 => $"BFILE" | 115 => $"CFILE"
  | 104 => $"ROWID DESC" | 187 => $"TIMESTAMP" | 188 => $"TIMESTAMP WITH TIME ZONE"
  | 189 => $"INTERVAL YEAR TO MONTH" | 190 => $"INTERVAL DAY TO SECOND"
  | 232 => $"TIMESTAMP WITH LOCAL TIME ZONE"
  | _ => $"UNKNOWN"
  end.

Definition oracleIsLob (sqlt : Z) : bool :=
  match oracleTypeClass sqlt with CLob => true | _ => false end.
Definition oracleIsRowid (sqlt : Z) : bool :=
  match oracleTypeClass sqlt with CRowid => true | _ => false end.

(** ** Numbers and bytes in texts *)

Definition foldEquals (a b : str) : bool := upper a =s upper b.

Definition isWordChar (c : ascii) : bool :=
  isalnum c || (c =c "_"%char) || (c =c "$"%char) || (c =c "#"%char).

Definition skipSpaces (s : str) : str := drop (span isspace s) s.

Definition hexNibble (c : ascii) : option N :=
  if between 48 57 c then Some (code c - 48)%N
  else if between 97 102 c then Some (code c - 97 + 10)%N
  else if between 65 70 c then Some (code c - 65 + 10)%N
  else None.

Fixpoint hexToBlob (s : str) : str :=
  match s with
  | a :: b :: s =>
      match hexNibble a, hexNibble b with
      | Some hi, Some lo => ascii_of_N (N.lor (N.shiftl hi 4) lo) :: hexToBlob s
      | _, _ => []
      end
  | _ => []
  end.

(** The subject sequence of [strtoll] and [strtoull] in base 10: the sign and the
    digits' value, when the whole text is one. *)
Fixpoint decimal_value (v : Z) (s : str) : option Z :=
  match s with
  | [] => Some v
  | c :: s => if isdigit c then decimal_value (v * 10 + (Z.of_N (code c) - 48)) s else None
  end.

Definition whole_number (s : str) : option (bool * Z) :=
  let s := skipSpaces s in
  let neg := head_is "-"%char s in
  let s := if head_is "-"%char s || head_is "+"%char s then drop 1 s else s in
  match s with
  | [] => None
  | _ => match decimal_value 0 s with Some v => Some (neg, v) | None => None end
  end.

Definition parseInt64Strict (s : str) : option Z :=
  match whole_number s with
  | Some (neg, v) =>
      let v := if neg then - v else v in
      if (int64_min <=? v) && (v <=? int64_max) then Some v else None
  | None => None
  end.

Definition parseUint64Strict (s : str) : option Z :=
  if head_is "-"%char s then None
  else
    match whole_number s with
    | Some (neg, v) => if v <? uint64_mod then Some (if neg then wrap_u64 (- v) else v) else None
    | None => None
    end.

(** ** Timestamps *)

Definition u32 (z : Z) : Z := z mod 2 ^ 32.

(** [daysFromCivil], in the [int] and [unsigned] arithmetic of the source. *)
Definition daysFromCivil (y m d : Z) : Z :=
  let yy := y - (if m <=? 2 then 1 else 0) in
  let era := Z.quot (if 0 <=? yy then yy else yy - 399) 400 in
  let yoe := u32 (yy - era * 400) in
  let doy := u32 (u32 (153 * u32 (m + u32 (if 2 <? m then -3 else 9)) + 2) / 5 + d - 1) in
  let doe := u32 (yoe * 365 + yoe / 4 - yoe / 100 + doy) in
  era * 146097 + doe - 719468.

Definition readUInt (width : nat) (s : str) : option (Z * str) :=
  if (length s <? width)%nat then None else readInt width s.

(** The optional time of day, with its fraction in nanoseconds. *)
Definition readFraction (s : str) : Z * str :=
  if head_is "."%char s then
    let '(frac, digits, s) := readFrac 0 0 (drop 1 s) in (frac * 10 ^ Z.of_nat (9 - digits), s)
  else (0, s).

Definition readTime (s : str) : option (Z * Z * Z * Z * str) :=
  match s with
  | c :: _ =>
      if isdigit c then
        '(hour, s) ← readUInt 2 s;
        s ← expect ":"%char s;
        '(minute, s) ← readUInt 2 s;
        '(second, s) ← (if head_is ":"%char s then readUInt 2 (drop 1 s) else Some (0, s));
        let '(nanos, s) := readFraction s in
        Some (hour, minute, second, nanos, s)
      else Some (0, 0, 0, 0, s)
  | [] => Some (0, 0, 0, 0, s)
  end.

(** The optional offset in seconds; what follows it is ignored. *)
Definition readOffset (s : str) : option (option Z) :=
  if head_is "+"%char s || head_is "-"%char s then
    let sign := if head_is "-"%char s then -1 else 1 in
    '(offsetHour, s) ← readUInt 2 (drop 1 s);
    '(offsetMinute, s) ← (if head_is ":"%char s then readUInt 2 (drop 1 s) else Some (0, s));
    Some (Some (sign * (offsetHour * 3600 + offsetMinute * 60)))
  else if head_is "Z"%char s || head_is "z"%char s then Some (Some 0)
  else Some None.

Definition readDate (s : str) : option (Z * Z * Z * str) :=
  '(year, s) ← readUInt 4 s;
  s ← expect "-"%char s;
  '(month, s) ← readUInt 2 s;
  s ← expect "-"%char s;
  '(day, s) ← readUInt 2 s;
  if (month <? 1) || (12 <? month) || (day <? 1) || (31 <? day) then None
  else Some (year, month, day, s).

Section Zone.
Variable localtime : Z -> tm.
Variable mktime : tm -> Z.

Definition oracleParseTimestamp (text : str) : parsed :=
  match ('(year, month, day, s) ← readDate (skipSpaces text);
         '(hour, minute, second, nanos, s) ← readTime (skipSpaces s);
         offset ← readOffset (skipSpaces s);
         Some (year, month, day, (hour, minute, second, nanos, offset))) with
  | None => Rejected
  | Some (year, month, day, (hour, minute, second, nanos, offset)) =>
      match offset with
      | Some offsetSeconds =>
          let days := daysFromCivil year month day in
          to_time_point (days * 86400 + hour * 3600 + minute * 60 + second - offsetSeconds) nanos
      | None =>
          let epoch := mktime (mkTm year month day hour minute second) in
          if epoch =? -1 then Rejected else to_time_point epoch nanos
      end
  end.

Definition oracleFormatTimestamp (t : Z) : str := timestampToStringMs localtime t.

(** ** Values *)

(** [strtod] and ["%.*g"] on the bits of a double. *)
Variable strtod : str -> Z.
Variable print_g : Z -> Z -> str.

(** [==] on finite doubles: zeros of either sign are equal. *)
Definition double_eq (a b : Z) : bool :=
  (a =? b) || ((Z.land a (2 ^ 63 - 1) =? 0) && (Z.land b (2 ^ 63 - 1) =? 0)).

Definition oracleFormatDouble (v : Z) : str :=
  if negb (Binding.isfinite v) then $"NULL"
  else if double_eq (strtod (print_g 15 v)) v then print_g 15 v
  else if double_eq (strtod (print_g 16 v)) v then print_g 16 v
  else print_g 17 v.

(** A NUMBER without a fraction. *)
Definition integer_value (text : str) : Value :=
  match parseInt64Strict text with
  | Some v => VInt64 v
  | None => match parseUint64Strict text with Some v => VUInt64 v | None => VDecimal text end
  end.

Definition has_chr (c : ascii) (s : str) : bool := existsb (chr_eqb c) s.

Definition number_value (sqlt : Z) (text : str) (precision scale : Z) : Value :=
  let floatish := match sqlt with 4 | 21 | 22 | 100 | 101 => true | _ => false end in
  if floatish then VDouble (strtod text)
  else
    let hasFraction := has_chr "."%char text || has_chr "e"%char text || has_chr "E"%char text in
    if negb hasFraction && ((precision <=? 0) || (18 <? precision)) then integer_value text
    else if negb hasFraction && (scale =? 0) then integer_value text
    else VDecimal text.

(** An [Overflow] is a time point with a wrapped count. *)
Definition wrap_i64 (z : Z) : Z := (z + 2 ^ 63) mod 2 ^ 64 - 2 ^ 63.

Definition time_value (text : str) : Value :=
  match oracleParseTimestamp text with
  | Rejected => VString text
  | Parsed ns => VTimestamp ns
  | Overflow ns => VTimestamp (wrap_i64 ns)
  end.

Definition oracleValueFromText (sqlt : Z) (text : str) (precision scale : Z) : Value :=
  match oracleTypeClass sqlt with
  | CText | CRowid => VString text
  | CInterval => if sqlt =? 189 then VIntervalYearMonth text else VIntervalDaySecond text
  | CBinary => VBlob (hexToBlob text)
  | CDate | CTimestamp | CTimestampTz => time_value text
  | CLob => if (sqlt =? 112) || (sqlt =? 115) then VString text else VBlob (hexToBlob text)
  | CNumber => number_value sqlt text precision scale
  | CUnknown => VString text
  end.

Record OracleBindValue : Type := mkBind { b_text : option str; b_raw : option str; b_unsupported : bool }.

Definition bind_isNull (b : OracleBindValue) : bool :=
  negb (b_unsupported b) && match b_text b, b_raw b with None, None => true | _, _ => false end.

Definition bind_text (s : str) : OracleBindValue := mkBind (Some s) None false.

Definition oracleBindValue (v : Value) : OracleBindValue :=
  match v with
  | VNull => mkBind None None false
  | VBool b => bind_text (if b then $"1" else $"0")
  | VInt64 z | VUInt64 z => bind_text (to_string z)
  | VDouble d => if negb (Binding.isfinite d) then mkBind None None false else bind_text (oracleFormatDouble d)
  | VDecimal s | VString s => bind_text s
  | VDate d => bind_text (if negb (has_chr " "%char d) then d ++ $" 00:00:00" else d)
  | VTime s => bind_text ($"1970-01-01 " ++ s)
  | VTimestamp t => bind_text (oracleFormatTimestamp t)
  | VUuid s | VJson s | VIntervalYearMonth s | VIntervalDaySecond s => bind_text s
  | VBlob b => mkBind None (Some b) false
  | _ => mkBind None None true
  end.

End Zone.

Definition oracleSessionSetupStatements : list str :=
  [ $"ALTER SESSION SET NLS_DATE_FORMAT = 'YYYY-MM-DD HH24:MI:SS'";
    $"ALTER SESSION SET NLS_TIMESTAMP_FORMAT = 'YYYY-MM-DD HH24:MI:SS.FF'";
    $"ALTER SESSION SET NLS_TIMESTAMP_TZ_FORMAT = 'YYYY-MM-DD HH24:MI:SS.FF TZH:TZM'";
    $"ALTER SESSION SET NLS_NUMERIC_CHARACTERS = '.,'" ].

(** ** Connect descriptors *)

Definition validDescriptorAtom (value : str) : bool :=
  match value with
  | [] => false
  | _ => forallb (fun c => negb ((code c <=? 32)%N || (c =c "("%char) || (c =c ")"%char) || (c =c "="%char))) value
  end.

Definition validQuotedDescriptorValue (value : str) : bool :=
  match value with
  | [] => false
  | _ => forallb (fun c => negb ((code c <? 32)%N || (c =c DQUOTE))) value
  end.

Record OracleConnectOptions : Type := mkConnect {
  host : str;
  port : Z;
  serviceName : str;
  sid : str;
  connectionTimeoutMs : Z;
  tlsEnabled : bool;
  tlsVerifyPeer : bool;
  walletLocation : str;
  serverCertDn : str
}.

Definition is_empty (s : str) : bool := match s with [] => true | _ => false end.

Definition target (o : OracleConnectOptions) : str := if is_empty (sid o) then serviceName o else sid o.

(** The checks, in order; [None] when all pass. *)
Definition descriptor_refusal (o : OracleConnectOptions) : option str :=
  if negb (validDescriptorAtom (host o)) then
    Some $"Oracle host contains characters unsafe for a connect descriptor"
  else if (port o <? 1) || (65535 <? port o) then Some $"Oracle port must be in range 1..65535"
  else if negb (is_empty (serviceName o)) && negb (is_empty (sid o)) then
    Some $"Oracle service_name and sid are mutually exclusive"
  else if is_empty (serviceName o) && is_empty (sid o) then
    Some $"Oracle service_name or sid is required"
  else if negb (validDescriptorAtom (target o)) then
    Some $"Oracle service_name or sid contains unsafe characters"
  else if connectionTimeoutMs o <? 0 then Some $"Oracle connection timeout must be >= 0"
  else if negb (is_empty (walletLocation o)) && negb (validQuotedDescriptorValue (walletLocation o)) then
    Some $"Oracle wallet_location contains unsafe characters"
  else if negb (is_empty (serverCertDn o)) && negb (validQuotedDescriptorValue (serverCertDn o)) then
    Some $"Oracle server_cert_dn contains unsafe characters"
  else if negb (tlsEnabled o) && (negb (is_empty (walletLocation o)) || negb (is_empty (serverCertDn o))) then
    Some $"Oracle wallet_location and server_cert_dn require TLS"
  else if negb (is_empty (serverCertDn o)) && negb (tlsVerifyPeer o) then
    Some $"Oracle server_cert_dn requires TLS peer verification"
  else None.

Definition timeout_text (o : OracleConnectOptions) : str :=
  if 0 <? connectionTimeoutMs o then
    let timeout := to_string (connectionTimeoutMs o) ++ $"ms" in
    ($"(CONNECT_TIMEOUT=" ++ timeout ++ $")") ++ ($"(TRANSPORT_CONNECT_TIMEOUT=" ++ timeout ++ $")")
  else [].

Definition security_text (o : OracleConnectOptions) : str :=
  if tlsEnabled o then
    $"(SECURITY=(SSL_SERVER_DN_MATCH=" ++ (if tlsVerifyPeer o then $"YES" else $"NO") ++ $")"
    ++ (if is_empty (serverCertDn o) then []
        else $"(SSL_SERVER_CERT_DN=" ++ [DQUOTE] ++ serverCertDn o ++ [DQUOTE] ++ $")")
    ++ (if is_empty (walletLocation o) then []
        else $"(WALLET_LOCATION=" ++ [DQUOTE] ++ walletLocation o ++ [DQUOTE] ++ $")")
    ++ $")"
  else [].

Definition descriptor_text (o : OracleConnectOptions) : str :=
  $"(DESCRIPTION=" ++ timeout_text o
  ++ $"(ADDRESS=(PROTOCOL=" ++ (if tlsEnabled o then $"TCPS" else $"TCP")
  ++ $")(HOST=" ++ host o ++ $")(PORT=" ++ to_string (port o) ++ $"))"
  ++ $"(CONNECT_DATA=(" ++ (if is_empty (sid o) then $"SERVICE_NAME=" else $"SID=") ++ target o ++ $"))"
  ++ security_text o ++ $")".

Definition oracleBuildConnectDescriptor (o : OracleConnectOptions) : Status * str :=
  match descriptor_refusal o with
  | Some msg => (status_error ConfigError msg, [])
  | None => (status_OK, descriptor_text o)
  end.

(** ** RETURNING clauses *)

Record OracleReturning : Type := mkReturning { columns : list str; firstBind : Z; bindCount : nat }.

(** The first loop: what follows the last RETURNING outside of quotes. *)
Definition returning_step (prev : option ascii) (c : ascii) (l : str) (kw : option str)
    : action (option str) (option str) :=
  if (c =c QUOTE) || (c =c DQUOTE) then Next (skip_quoted false c l).1 kw
  else if isalpha c then
    let k := span isWordChar l in
    Next k (if foldEquals (c :: take k l) $"RETURNING" then Some (drop 8 l) else kw)
  else Next 0 kw.

Definition find_returning (sql : str) : option str := scan returning_step id sql None.

(** A name after its opening quote. *)
Fixpoint quoted_name (s : str) : str * str :=
  match s with
  | [] => ([], [])
  | c :: s1 =>
      if c =c DQUOTE then
        match s1 with
        | d :: s2 =>
            if d =c DQUOTE then let '(n, r) := quoted_name s2 in (DQUOTE :: n, r) else ([], s1)
        | [] => ([], [])
        end
      else let '(n, r) := quoted_name s1 in (c :: n, r)
  end.

Definition column_name (s : str) : option (str * str) :=
  match s with
  | [] => None
  | c :: s1 =>
      if c =c DQUOTE then Some (quoted_name s1)
      else if negb (isWordChar c) then None
      else let k := span isWordChar s in Some (upper (take k s), drop k s)
  end.

(** The list of columns; every turn consumes a character. *)
Fixpoint read_names (fuel : nat) (s : str) (cols : list str) : option (list str * str) :=
  match fuel, s with
  | O, _ | _, [] => Some (cols, s)
  | S fuel, _ =>
      '(name, s) ← column_name (skipSpaces s);
      let s := skipSpaces s in
      if head_is ","%char s then read_names fuel (drop 1 s) (cols ++ [name])
      else Some (cols ++ [name], s)
  end.

Fixpoint bind_digits (v : Z) (s : str) : Z * str :=
  match s with
  | c :: s1 => if isdigit c then bind_digits (wrap_u64 (v * 10 + (Z.of_N (code c) - 48))) s1 else (v, s)
  | [] => (v, [])
  end.

(** The list of binds; every turn consumes a character. *)
Fixpoint read_binds (fuel : nat) (s : str) (binds : list Z) : option (list Z) :=
  match fuel with
  | O => Some binds
  | S fuel =>
      match skipSpaces s with
      | [] => Some binds
      | c :: s =>
          if c =c ","%char then read_binds fuel s binds
          else if negb (c =c ":"%char) then None
          else let '(n, s) := bind_digits 0 s in read_binds fuel s (binds ++ [n])
      end
  end.

Definition oracleParseReturningInto (sql : str) : option OracleReturning :=
  s ← find_returning sql;
  '(cols, s) ← read_names (length s) s [];
  match cols with
  | [] => None
  | _ =>
      let s := skipSpaces s in
      let k := span isWordChar s in
      if negb (foldEquals (take k s) $"INTO") then None
      else
        binds ← read_binds (length s) (drop k s) [];
        if negb (length binds =? length cols)%nat then None
        else match binds with
             | [] => None
             | first :: _ => Some (mkReturning cols first (length binds))
             end
  end.

Definition oracleMakeReturningSuffix (cols : list str) (firstBind : Z) : str :=
  match cols with
  | [] => []
  | _ =>
      $" RETURNING " ++ join $", " (map quoteIdentifier cols)
      ++ $" INTO "
      ++ join $", " (map (fun i => $":" ++ to_string (wrap_u64 (firstBind + Z.of_nat i))) (seq 0 (length cols)))
  end.

(** ** Error codes *)

Definition oracleSqlState (oraCode : Z) : str :=
  match (if oraCode <? 0 then - oraCode else oraCode) with
  | 1 => $"23000" | 54 | 60 => $"40001" | 903 => $"42000" | 904 => $"42S22" | 911 | 923 | 933 => $"42000"
  | 942 => $"42S02" | 955 => $"42710" | 1013 => $"57014" | 1017 => $"28000" | 1400 => $"23502"
  | 1401 => $"22001" | 1408 => $"42701" | 1438 => $"22003" | 1461 => $"22001" | 1722 => $"22018"
  | 1830 => $"22008" | 1843 | 1858 => $"22007" | 2290 => $"23514" | 2291 | 2292 => $"23503"
  | 3113 | 3114 | 3135 => $"08S01" | 8177 => $"40001" | 12162 | 12170 | 12514 => $"08001"
  | 12537 => $"08S01" | 12541 => $"08001" | 12899 | 22835 => $"22001"
  | _ => []
  end.

(** ** Timestamps: the civil calendar and the session's format *)

Lemma u32_small z : 0 <= z < 2 ^ 32 -> u32 z = z.
Proof. apply Z.mod_small. Qed.

(** The wrapped arithmetic computes the days of types.cpp. *)
Lemma daysFromCivil_civil y m d :
  0 <= y <= 9999 -> 1 <= m <= 12 -> 1 <= d <= 31 -> daysFromCivil y m d = civil_days y m d.
Proof.
  intros Hy Hm Hd. unfold daysFromCivil, civil_days.
  replace (y - (if m <=? 2 then 1 else 0)) with (if m <=? 2 then y - 1 else y) by (destruct (m <=? 2); lia).
  set (yy := if m <=? 2 then y - 1 else y). assert (Hyy : -1 <= yy <= 9999) by (unfold yy; destruct (m <=? 2); lia).
  clearbody yy. set (era := Z.quot _ 400).
  assert (He : 0 <= yy - era * 400 <= 399).
  { unfold era. destruct (Z.leb_spec 0 yy).
    - rewrite Z.quot_div_nonneg by lia. Z.to_euclidean_division_equations; lia.
    - assert (yy = -1) as -> by lia. vm_compute. intuition congruence. }
  set (yoe := yy - era * 400) in *. rewrite (u32_small yoe) by lia.
  replace (u32 (m + u32 (if 2 <? m then -3 else 9))) with (if 2 <? m then m - 3 else m + 9).
  2:{ unfold u32. destruct (Z.ltb_spec 2 m); [change (-3 mod 2 ^ 32) with (2 ^ 32 - 3)|change (9 mod 2 ^ 32) with 9].
      - replace (m + (2 ^ 32 - 3)) with (m - 3 + 1 * 2 ^ 32) by lia. rewrite Z_mod_plus_full, Z.mod_small; lia.
      - by rewrite Z.mod_small by lia. }
  set (sm := if 2 <? m then m - 3 else m + 9). assert (Hsm : 0 <= sm <= 11) by (unfold sm; destruct (Z.ltb_spec 2 m); lia).
  rewrite (u32_small (153 * sm + 2)) by lia.
  assert (Hdoy : 0 <= (153 * sm + 2) / 5 + d - 1 <= 400) by (Z.to_euclidean_division_equations; lia).
  rewrite (u32_small (_ + d - 1)) by lia. rewrite u32_small by (Z.to_euclidean_division_equations; lia). done.
Qed.

Lemma readUInt_field w n s :
  0 <= n < 10 ^ Z.of_nat w -> readUInt w (pad_digits w n ++ s) = Some (n, s).
Proof.
  intros H. unfold readUInt. rewrite length_app, length_pad_digits.
  replace (w + length s <? w)%nat with false by (symmetry; apply Nat.ltb_ge; lia). by apply readInt_field.
Qed.

Lemma pad_digits_head w n s : exists c r, pad_digits (S w) n ++ s = c :: r /\ isdigit c = true.
Proof.
  revert n s; induction w as [|w IH]; intros n s.
  - cbn. eexists _, s. split; [done|]. apply isdigit_digit. apply Z.mod_pos_bound. lia.
  - destruct (IH (n / 10) ([digit (n mod 10)] ++ s)) as (c & r & E & Hc). exists c, r. split; [|done].
    cbn [pad_digits] in *. by rewrite <- !app_assoc in *.
Qed.

Lemma digit_not_space c : isdigit c = true -> isspace c = false.
Proof. by_char c. Qed.

Lemma skipSpaces_digit w n s : skipSpaces (pad_digits (S w) n ++ s) = pad_digits (S w) n ++ s.
Proof.
  destruct (pad_digits_head w n s) as (c & r & E & Hc). rewrite E. unfold skipSpaces. cbn.
  by rewrite digit_not_space.
Qed.

(** Reading a fraction of [w] digits. *)
Lemma readFrac_pad w d v n s :
  0 <= n < 10 ^ Z.of_nat w -> (d + w <= 9)%nat ->
  readFrac d v (pad_digits w n ++ s) = readFrac (d + w) (v * 10 ^ Z.of_nat w + n) s.
Proof.
  revert d v n s; induction w as [|w IH]; intros d v n s Hn Hd.
  - cbn in *. rewrite Nat.add_0_r. f_equal. lia.
  - rewrite Nat2Z.inj_succ, Z.pow_succ_r in * by lia. cbn [pad_digits]. rewrite <- app_assoc.
    rewrite IH; [|split; [apply Z.div_pos; lia|apply Z.div_lt_upper_bound; lia]|lia].
    cbn [app readFrac]. destruct (isdigit_digit (n mod 10)) as [-> ->]; [apply Z.mod_pos_bound; lia|].
    replace (d + w <? 9)%nat with true by (symmetry; apply Nat.ltb_lt; lia).
    replace (S (d + w)) with (d + S w)%nat by lia. f_equal. pose proof (Z.div_mod n 10). lia.
Qed.

(** The text the session's format for TIMESTAMP WITH TIME ZONE prints: local
    fields, [w] digits of fraction, offset. *)
Definition offset_text (neg : bool) (oh om : Z) : str :=
  [if neg then "-"%char else "+"%char] ++ pad_digits 2 oh ++ $":" ++ pad_digits 2 om.

Definition offset_seconds (neg : bool) (oh om : Z) : Z := (if neg then -1 else 1) * (oh * 3600 + om * 60).

Definition tz_text (t : tm) (w : nat) (frac : Z) (neg : bool) (oh om : Z) : str :=
  strftime t ++ $"." ++ pad_digits w frac ++ $" " ++ offset_text neg oh om.

Ltac read_oracle :=
  repeat (rewrite readUInt_field by lia; cbn [mbind option_bind]; rewrite ?expect_ok; cbn [mbind option_bind]).

Lemma readOffset_text neg oh om :
  0 <= oh < 100 -> 0 <= om < 100 -> readOffset (offset_text neg oh om) = Some (Some (offset_seconds neg oh om)).
Proof.
  intros Hh Hm. unfold offset_text, offset_seconds, readOffset.
  assert (H : forall c, (if neg then "-"%char else "+"%char) = c ->
            head_is "+"%char (c :: pad_digits 2 oh ++ $":" ++ pad_digits 2 om)
            || head_is "-"%char (c :: pad_digits 2 oh ++ $":" ++ pad_digits 2 om) = true)
    by (intros c <-; by destruct neg).
  cbn [app]. rewrite (H _ eq_refl). cbn [drop]. rewrite drop_0, readUInt_field by lia.
  cbn [mbind option_bind lit list_ascii_of_string app]. cbn [head_is]. rewrite chr_eqb_refl. cbn [drop].
  rewrite drop_0, <- (app_nil_r (pad_digits 2 om)), readUInt_field by lia. cbn [mbind option_bind].
  by destruct neg.
Qed.

Lemma readTime_text h mi se w frac rest :
  0 <= h < 100 -> 0 <= mi < 100 -> 0 <= se < 100 -> 0 <= frac < 10 ^ Z.of_nat w -> (w <= 9)%nat ->
  match rest with c :: _ => isdigit c = false | [] => True end ->
  readTime (pad_digits 2 h ++ $":" ++ pad_digits 2 mi ++ $":" ++ pad_digits 2 se ++ $"." ++ pad_digits w frac ++ rest)
  = Some (h, mi, se, frac * 10 ^ Z.of_nat (9 - w), rest).
Proof.
  intros Hh Hm Hs Hf Hw Hr. unfold readTime.
  destruct (pad_digits_head 1 h ($":" ++ pad_digits 2 mi ++ $":" ++ pad_digits 2 se ++ $"." ++ pad_digits w frac ++ rest))
    as (c & r & E & Hc). rewrite E, Hc, <- E. clear E Hc.
  cbn [lit list_ascii_of_string app]. read_oracle.
  cbn [head_is]. rewrite chr_eqb_refl. cbn [drop]. rewrite drop_0. read_oracle.
  unfold readFraction. cbn [head_is]. rewrite chr_eqb_refl. cbn [drop]. rewrite drop_0.
  rewrite readFrac_pad by (done || lia). rewrite Z.mul_0_l, Z.add_0_l, Nat.add_0_l.
  destruct rest as [|d rest]; cbn; [done|]. by rewrite Hr.
Qed.

Lemma readDate_text y mo d rest :
  0 <= y < 10000 -> 1 <= mo <= 12 -> 1 <= d <= 31 ->
  readDate (pad_digits 4 y ++ $"-" ++ pad_digits 2 mo ++ $"-" ++ pad_digits 2 d ++ rest) = Some (y, mo, d, rest).
Proof.
  intros Hy Hm Hd. unfold readDate. cbn [lit list_ascii_of_string app]. read_oracle.
  by rewrite (proj2 (Z.ltb_ge mo 1)), (proj2 (Z.ltb_ge 12 mo)), (proj2 (Z.ltb_ge d 1)), (proj2 (Z.ltb_ge 31 d)) by lia.
Qed.

Lemma skipSpaces_one s : match s with c :: _ => isspace c = false | [] => True end -> skipSpaces (" "%char :: s) = s.
Proof. intros H. unfold skipSpaces. destruct s as [|c s]; [done|]. cbn. by rewrite H. Qed.

(** A timestamp printed in the session's format, in any zone offset and with
    any number of fraction digits up to nine, is read back as the same instant. *)
Theorem oracle_timestamp_roundtrip (mktime : tm -> Z) (secs frac : Z) (w : nat) (neg : bool) (oh om : Z) :
  let local := gmtime (secs + offset_seconds neg oh om) in
  1900 <= tm_year local <= 2262 -> 0 <= oh < 100 -> 0 <= om < 100 -> (w <= 9)%nat ->
  0 <= frac < 10 ^ Z.of_nat w ->
  oracleParseTimestamp mktime (tz_text local w frac neg oh om)
  = to_time_point secs (frac * 10 ^ Z.of_nat (9 - w)).
Proof.
  intros local Hy Hoh Hom Hw Hf.
  destruct (gmtime_valid (secs + offset_seconds neg oh om)) as (_ & Hdays & Htod & Hmo & Hd & Hh & Hmi & Hse); [fold local; lia|].
  fold local in Hdays, Htod, Hmo, Hd, Hh, Hmi, Hse. unfold oracleParseTimestamp, tz_text, strftime.
  rewrite year_padded by lia. rewrite <- !app_assoc. rewrite (skipSpaces_digit 3), readDate_text by lia.
  cbn [mbind option_bind]. change ($" ") with (lit " "). cbn [lit list_ascii_of_string app].
  rewrite skipSpaces_one.
  2:{ destruct (pad_digits_head 1 (tm_hour local) (":"%char :: pad_digits 2 (tm_min local) ++ ":"%char ::
        pad_digits 2 (tm_sec local) ++ "."%char :: pad_digits w frac ++ " "%char :: offset_text neg oh om))
        as (c & r & -> & Hc). by apply digit_not_space. }
  pose proof (readTime_text (tm_hour local) (tm_min local) (tm_sec local) w frac (" "%char :: offset_text neg oh om))
    as HT. cbn [lit list_ascii_of_string app] in HT. rewrite HT by (done || lia). clear HT.
  cbn [mbind option_bind]. rewrite skipSpaces_one by (by destruct neg).
  rewrite readOffset_text by lia. cbn [mbind option_bind].
  rewrite daysFromCivil_civil by lia. rewrite Hdays. f_equal.
  pose proof (Z.div_mod (secs + offset_seconds neg oh om) 86400). lia.
Qed.

Lemma oracle_timestamp_roundtrip_witness :
  oracleParseTimestamp (fun _ => -1) (tz_text (gmtime (1700000000 + offset_seconds true 3 30)) 6 250000 true 3 30)
  = to_time_point 1700000000 (250000 * 10 ^ 3).
Proof.
  apply (oracle_timestamp_roundtrip (fun _ => -1) 1700000000 250000 6 true 3 30);
    first [lia|vm_compute; intuition congruence].
Defined.

(** ** Numbers and bytes *)

Lemma pretty_N_char_value x : (x < 10)%N -> isdigit (pretty_N_char x) = true /\ Z.of_N (code (pretty_N_char x)) - 48 = Z.of_N x.
Proof.
  intros H. assert (x = 0 \/ x = 1 \/ x = 2 \/ x = 3 \/ x = 4 \/ x = 5 \/ x = 6 \/ x = 7 \/ x = 8 \/ x = 9)%N as Hx by lia.
  by repeat destruct Hx as [->|Hx]; try (by subst).
Qed.

Lemma decimal_value_go x :
  exists k, forall v s, decimal_value v (lit (pretty_N_go x s)) = decimal_value (v * 10 ^ Z.of_nat k + Z.of_N x) (lit s).
Proof.
  induction (N.lt_wf_0 x) as [x _ IH]. assert (x = 0 \/ 0 < x)%N as [->|Hx] by lia.
  { exists 0%nat. intros v s. rewrite pretty_N_go_0. f_equal. cbn. lia. }
  destruct (IH (x `div` 10)%N) as [k Hk]; [by apply N.div_lt|]. exists (S k). intros v s.
  rewrite pretty_N_go_step by done. rewrite Hk. cbn [lit list_ascii_of_string decimal_value].
  fold (lit s). destruct (pretty_N_char_value (x `mod` 10)) as [-> ->]; [by apply N.mod_lt|]. f_equal.
  rewrite Nat2Z.inj_succ, Z.pow_succ_r by lia. rewrite N2Z.inj_mod, N2Z.inj_div. pose proof (Z.div_mod (Z.of_N x) 10). lia.
Qed.

Lemma decimal_value_pretty (x : N) : decimal_value 0 (lit (pretty x)) = Some (Z.of_N x).
Proof.
  unfold pretty, pretty_N. destruct (decide (x = 0)%N) as [->|Hx]; [done|].
  destruct (decimal_value_go x) as [k Hk]. by rewrite Hk.
Qed.

Lemma pretty_N_head (x : N) : exists c r, lit (pretty x) = c :: r /\ isdigit c = true.
Proof.
  pose proof (pretty_N_digits x) as H. pose proof (decimal_value_pretty x) as Hv.
  destruct (lit (pretty x)) as [|c r] eqn:E.
  - unfold pretty, pretty_N in E. destruct (decide (x = 0)%N) as [->|Hx]; [done|].
    destruct (decimal_value_go x) as [k Hk]. specialize (Hk 0 ""%string). unfold pretty_N in *. rewrite E in Hk. cbn in Hk.
    injection Hk. lia.
  - exists c, r. split; [done|]. cbn in H. by apply andb_true_iff in H as [-> _].
Qed.

Lemma digit_not_sign c : isdigit c = true -> (c =c "-"%char) = false /\ (c =c "+"%char) = false /\ isspace c = false.
Proof. by_char c. Qed.

(** The text of an integer is read as that integer. *)
Lemma whole_number_text z : whole_number (to_string z) = Some (z <? 0, Z.abs z).
Proof.
  assert (Hp : forall x : N, whole_number (lit (pretty x)) = Some (false, Z.of_N x)
             /\ whole_number ("-"%char :: lit (pretty x)) = Some (true, Z.of_N x)).
  { intros x. destruct (pretty_N_head x) as (c & r & E & Hc). destruct (digit_not_sign c Hc) as (H1 & H2 & H3).
    pose proof (decimal_value_pretty x) as Hv. rewrite E in *. unfold whole_number, skipSpaces. split.
    - cbn [span]. rewrite H3. cbn [drop head_is]. rewrite H1, H2. cbn [orb]. by rewrite Hv.
    - cbn [span]. change (isspace "-"%char) with false. cbn [drop head_is]. rewrite chr_eqb_refl. cbn [orb drop].
      by rewrite Hv. }
  unfold to_string, pretty, pretty_Z. destruct z as [|p|p]; cbn [Z.abs].
  - done.
  - exact (proj1 (Hp (N.pos p))).
  - change (lit ("-" +:+ pretty_N (N.pos p))) with ("-"%char :: lit (pretty (N.pos p))).
    exact (proj2 (Hp (N.pos p))).
Qed.

Lemma hexToBlob_appendHex b : hexToBlob (Binding.appendHex b) = b.
Proof.
  induction b as [|c b IH]; [done|]. cbn [Binding.appendHex hexToBlob]. rewrite IH. clear. by_char c.
Qed.

Lemma to_string_nonneg z : 0 <= z -> to_string z = lit (@pretty N _ (Z.to_N z)).
Proof. intros H. unfold to_string. destruct z as [|p|p]; [done|done|lia]. Qed.

(** Integer texts have neither a point nor an exponent. *)
Lemma integer_text_chars z c : isdigit c = false -> c <> "-"%char -> has_chr c (to_string z) = false.
Proof.
  intros Hd Hm. assert (H : forall x : N, has_chr c (lit (pretty x)) = false).
  { intros x. pose proof (pretty_N_digits x) as Hx. unfold has_chr. apply not_true_iff_false. intros He.
    apply existsb_exists in He as (y & Hy & E%chr_eqb_true). subst y.
    rewrite forallb_forall in Hx. specialize (Hx c Hy). congruence. }
  unfold to_string, pretty, pretty_Z. destruct z as [|p|p]; [exact (H 0%N)|exact (H (N.pos p))|].
  change ((c =c "-"%char) || has_chr c (lit (@pretty N _ (N.pos p))) = false).
  rewrite (H (N.pos p)), orb_false_r. by apply chr_eqb_false.
Qed.

Lemma integer_value_text z :
  int64_range z \/ uint64_range z ->
  integer_value (to_string z) = if z <=? int64_max then VInt64 z else VUInt64 z.
Proof.
  intros Hz. unfold integer_value, parseInt64Strict, parseUint64Strict. rewrite whole_number_text.
  replace (if z <? 0 then - Z.abs z else Z.abs z) with z by (destruct (Z.ltb_spec z 0); lia).
  unfold int64_range, uint64_range, int64_min, int64_max, uint64_mod in *. destruct (Z.leb_spec z (2 ^ 63 - 1)).
  - by rewrite (proj2 (Z.leb_le (- 2 ^ 63) z)) by lia.
  - rewrite (proj2 (Z.leb_le (- 2 ^ 63) z)) by lia. cbn [andb].
    replace (head_is "-"%char (to_string z)) with false.
    2:{ symmetry. rewrite to_string_nonneg by lia. destruct (pretty_N_head (Z.to_N z)) as (c & r & -> & Hc).
        cbn. by destruct (digit_not_sign c Hc). }
    replace (z <? 0) with false by (symmetry; apply Z.ltb_ge; lia).
    rewrite Z.abs_eq by lia. by rewrite (proj2 (Z.ltb_lt z (2 ^ 64))) by lia.
Qed.

(** What is bound comes back: an integer of either 64-bit type bound to a
    NUMBER column is read as the same integer, unsigned only above the signed
    range, whatever the column's precision; a double comes back equal when 17
    digits identify it; bytes, texts and intervals come back as they are. *)
Theorem oracle_values_roundtrip (localtime : Z -> tm) (mktime : tm -> Z) (strtod : str -> Z)
    (print_g : Z -> Z -> str) :
  let bound v := b_text (oracleBindValue localtime strtod print_g v) in
  let read := oracleValueFromText mktime strtod in
  (forall z p, int64_range z -> bound (VInt64 z) = Some (to_string z)
     /\ read 2 (to_string z) p 0 = VInt64 z)
  /\ (forall z p, uint64_range z -> bound (VUInt64 z) = Some (to_string z)
     /\ read 2 (to_string z) p 0 = if z <=? int64_max then VInt64 z else VUInt64 z)
  /\ (forall d p s, Binding.isfinite d = true -> double_eq (strtod (print_g 17 d)) d = true ->
     exists t d', bound (VDouble d) = Some t /\ read 22 t p s = VDouble d' /\ double_eq d' d = true)
  /\ (forall b p s, b_raw (oracleBindValue localtime strtod print_g (VBlob b)) = Some b
     /\ read 23 (Binding.appendHex b) p s = VBlob b)
  /\ (forall t p s, bound (VString t) = Some t /\ read 1 t p s = VString t)
  /\ (forall t p s, bound (VIntervalDaySecond t) = Some t /\ read 190 t p s = VIntervalDaySecond t).
Proof.
  cbn zeta.
  assert (Hn : forall z p, oracleValueFromText mktime strtod 2 (to_string z) p 0 = integer_value (to_string z)).
  { intros z p. unfold oracleValueFromText. cbn [oracleTypeClass]. unfold number_value.
    rewrite !integer_text_chars by done. cbn. by destruct ((p <=? 0) || (18 <? p)). }
  split_and!.
  - intros z p Hz. split; [done|]. rewrite Hn, integer_value_text by auto.
    unfold int64_range in Hz. by rewrite (proj2 (Z.leb_le z int64_max)) by lia.
  - intros z p Hz. split; [done|]. rewrite Hn. apply integer_value_text; auto.
  - intros d p s Hf Hd. cbn [oracleBindValue]. rewrite Hf. cbn [negb]. unfold oracleFormatDouble. rewrite Hf. cbn [negb].
    destruct (double_eq (strtod (print_g 15 d)) d) eqn:E1; [by eexists _, _|].
    destruct (double_eq (strtod (print_g 16 d)) d) eqn:E2; by eexists _, _.
  - intros b p s. split; [done|]. unfold oracleValueFromText. cbn. by rewrite hexToBlob_appendHex.
  - done.
  - done.
Qed.

(** ** RETURNING clauses *)

(** Every quote of the statement is closed. *)
Definition closed_step (prev : option ascii) (c : ascii) (l : str) (ok : bool) : action bool bool :=
  if (c =c QUOTE) || (c =c DQUOTE) then let '(k, b) := skip_quoted false c l in Next k (ok && b)
  else if isalpha c then Next (span isWordChar l) ok else Next 0 ok.

Definition quotes_closed (sql : str) : bool := scan closed_step id sql true.

Lemma span_stop_at f a x r : f x = false -> span f (a ++ x :: r) = span f a.
Proof. intros Hx. induction a as [|c a IH]; cbn; [by rewrite Hx|]. destruct (f c); [by rewrite IH|done]. Qed.

Lemma quote_not_space c : (c =c QUOTE) || (c =c DQUOTE) = true -> c <> " "%char /\ c <> BSLASH.
Proof. intros [H|H]%orb_true_iff; apply chr_eqb_true in H as ->; done. Qed.

Lemma closed_from_false prev s : scan_from closed_step id 0 prev s false = false.
Proof.
  apply (scan_rule closed_step id (fun _ _ st => st = false)); [done| |done].
  intros p c l st ->. unfold closed_step.
  destruct ((c =c QUOTE) || (c =c DQUOTE)); [destruct (skip_quoted false c l); done|].
  by destruct (isalpha c).
Qed.

(** The keyword scan goes on behind a statement whose quotes are closed. *)
Lemma keyword_scan_app sql r : forall prev kw,
  scan_from closed_step id 0 prev sql true = true ->
  exists kw' prev', scan_from returning_step id 0 prev (sql ++ " "%char :: r) kw
                    = scan_from returning_step id 0 prev' (" "%char :: r) kw'.
Proof.
  remember (length sql) as n eqn:Hn. revert sql Hn. induction n as [n IH] using lt_wf_ind. intros sql -> prev kw.
  destruct sql as [|c l]; [intros _; by exists kw, prev|]. cbn [app]. rewrite !scan_step.
  unfold closed_step, returning_step. destruct ((c =c QUOTE) || (c =c DQUOTE)) eqn:Eq.
  - destruct (quote_not_space c Eq) as [H1 H2]. pose proof (skip_quoted_le false c l) as Hle.
    destruct (skip_quoted false c l) as [k b] eqn:Es. cbn [fst] in Hle. intros H.
    destruct b; cbn [andb] in H; [|by rewrite closed_from_false in H].
    rewrite (skip_quoted_app _ _ _ k _ _ H1 H2 Es). cbn [fst].
    rewrite drop_app_le by done. unfold prev_after in *. rewrite take_app_le by done.
    apply (IH (length (drop k l))); [rewrite length_drop; cbn; lia|done|done].
  - destruct (isalpha c).
    + pose proof (span_le isWordChar l) as Hle. rewrite span_stop_at by done. intros H.
      rewrite drop_app_le by done. unfold prev_after in *. rewrite take_app_le by done.
      apply (IH (length (drop (span isWordChar l) l))); [rewrite length_drop; cbn; lia|done|done].
    + intros H. rewrite !drop_0 in *. apply (IH (length l)); [cbn; lia|done|done].
Qed.

(** The scan does not look back. *)
Lemma keyword_prev prev s kw : scan_from returning_step id 0 prev s kw = scan returning_step id s kw.
Proof. unfold scan. destruct s as [|c l]; [done|]. by rewrite !scan_step. Qed.

Definition plain (c : ascii) : bool := negb (isalpha c) && negb ((c =c QUOTE) || (c =c DQUOTE)).

Lemma keyword_plain s r kw : forallb plain s = true -> scan returning_step id (s ++ r) kw = scan returning_step id r kw.
Proof.
  induction s as [|c s IH]; [done|]. cbn [forallb app]. intros [[H1 H2]%andb_true_iff Hs]%andb_true_iff.
  unfold scan at 1. rewrite scan_step. unfold returning_step at 1.
  apply negb_true_iff in H1, H2. rewrite H2, H1, drop_0, keyword_prev. by apply IH.
Qed.

Lemma keyword_space r kw : scan returning_step id (" "%char :: r) kw = scan returning_step id r kw.
Proof. exact (keyword_plain [" "%char] r kw eq_refl). Qed.

Lemma keyword_quoted n r kw :
  head_is DQUOTE r = false -> scan returning_step id (quoteIdentifier n ++ r) kw = scan returning_step id r kw.
Proof.
  intros Hr. unfold quoteIdentifier, quote_with. cbn [app]. rewrite <- app_assoc. cbn [app].
  unfold scan at 1. rewrite scan_step. unfold returning_step at 1.
  rewrite (skip_quoted_double false DQUOTE n r) by done. cbn [fst].
  replace ((DQUOTE =c QUOTE) || (DQUOTE =c DQUOTE)) with true by done. rewrite keyword_prev. f_equal.
  by rewrite <- Nat.add_1_r, <- drop_drop, drop_app_length.
Qed.

Lemma keyword_quoted_list cols r kw :
  head_is DQUOTE r = false ->
  scan returning_step id (join $", " (map quoteIdentifier cols) ++ r) kw = scan returning_step id r kw.
Proof.
  intros Hr. induction cols as [|c cols IH]; [done|]. cbn [map]. destruct cols as [|d cols].
  - cbn [map join]. by apply keyword_quoted.
  - cbn [map join] in *. rewrite <- !app_assoc. rewrite keyword_quoted by done.
    rewrite (keyword_plain ($", ")) by done. exact IH.
Qed.

Definition bind_names (l : list Z) : str := join $", " (map (fun n => $":" ++ to_string n) l).

Lemma plain_digits s : forallb isdigit s = true -> forallb plain s = true.
Proof.
  rewrite !forallb_forall. intros H c Hc. specialize (H c Hc). revert H. clear. by_char c.
Qed.

Lemma plain_binds l : Forall (fun n => 0 <= n) l -> forallb plain (bind_names l) = true.
Proof.
  intros H. unfold bind_names. induction H as [|n l Hn Hl IH]; [done|]. cbn [map].
  assert (Hp : forallb plain ($":" ++ to_string n) = true).
  { rewrite forallb_app, to_string_nonneg by done.
    by rewrite (plain_digits (lit (pretty (Z.to_N n))) (pretty_N_digits _)). }
  destruct l as [|m l]; [done|]. cbn [map join] in *. rewrite !forallb_app in *. rewrite Hp. cbn. exact IH.
Qed.

Lemma find_returning_suffix sql cols binds :
  quotes_closed sql = true -> Forall (fun n => 0 <= n) binds ->
  let tail := $" " ++ join $", " (map quoteIdentifier cols) ++ $" INTO " ++ bind_names binds in
  find_returning (sql ++ $" RETURNING" ++ tail) = Some tail.
Proof.
  intros Hc Hb tail. unfold find_returning, scan.
  destruct (keyword_scan_app sql ($"RETURNING" ++ tail) None None Hc) as (kw & prev & H).
  change (lit " RETURNING" ++ tail) with (" "%char :: (lit "RETURNING" ++ tail)). rewrite H, keyword_prev.
  rewrite keyword_space. unfold scan. cbn [lit list_ascii_of_string app]. rewrite scan_step.
  assert (Hs : span isWordChar (lit "ETURNING" ++ tail) = 8%nat) by done.
  cbn [lit list_ascii_of_string app] in Hs. unfold returning_step at 1. cbn [orb].
  replace (("R"%char =c QUOTE) || ("R"%char =c DQUOTE)) with false by done.
  replace (isalpha "R"%char) with true by done. rewrite Hs. cbn [take drop]. rewrite ?drop_0.
  replace (foldEquals _ _) with true by done. rewrite keyword_prev. unfold tail at 1.
  change (lit " " ++ ?x) with (" "%char :: x). rewrite keyword_space, keyword_quoted_list by done.
  cbn [lit list_ascii_of_string app]. rewrite keyword_space. unfold scan. rewrite scan_step. unfold returning_step at 1.
  replace (("I"%char =c QUOTE) || ("I"%char =c DQUOTE)) with false by done.
  replace (isalpha "I"%char) with true by done.
  assert (Hs2 : span isWordChar (lit "NTO " ++ bind_names binds) = 3%nat) by done.
  cbn [lit list_ascii_of_string app] in Hs2. rewrite Hs2. cbn [take drop]. rewrite ?drop_0.
  replace (foldEquals _ _) with false by done. rewrite keyword_prev.
  rewrite keyword_space, <- (app_nil_r (bind_names binds)), keyword_plain by by apply plain_binds. done.
Qed.

Lemma quoted_name_double n r :
  head_is DQUOTE r = false -> quoted_name (double_chr DQUOTE n ++ DQUOTE :: r) = (n, r).
Proof.
  intros Hr. induction n as [|c n IH]; cbn [double_chr app].
  - destruct r as [|d r]; [done|]. cbn in Hr. cbn [quoted_name]. by rewrite chr_eqb_refl, Hr.
  - destruct (c =c DQUOTE) eqn:E; cbn [app quoted_name].
    + apply chr_eqb_true in E as ->. by rewrite chr_eqb_refl, IH.
    + rewrite E. by rewrite IH.
Qed.

Lemma column_name_quoted n r :
  head_is DQUOTE r = false -> column_name (quoteIdentifier n ++ r) = Some (n, r).
Proof.
  intros Hr. unfold quoteIdentifier, quote_with. cbn [app column_name]. rewrite chr_eqb_refl, <- app_assoc.
  cbn [app]. by rewrite quoted_name_double.
Qed.

Lemma read_names_list cols : forall fuel acc r, cols <> [] -> (length cols <= fuel)%nat ->
  read_names fuel ($" " ++ join $", " (map quoteIdentifier cols) ++ $" INTO " ++ r) acc = Some (acc ++ cols, $"INTO " ++ r).
Proof.
  induction cols as [|c cols IH]; intros fuel acc r Hne Hf; [done|]. destruct fuel as [|fuel]; [cbn in Hf; lia|].
  assert (Hj : exists s, join $", " (map quoteIdentifier (c :: cols)) ++ $" INTO " ++ r = quoteIdentifier c ++ s
             /\ head_is DQUOTE s = false
             /\ s = match cols with [] => $" INTO " ++ r
                    | _ => ","%char :: $" " ++ join $", " (map quoteIdentifier cols) ++ $" INTO " ++ r end).
  { eexists. split; [|split; [|reflexivity]]; destruct cols as [|d cols]; cbn [map join]; try done.
    by rewrite <- !app_assoc. }
  destruct Hj as (s & Hj & Hd & Hs). cbn [lit list_ascii_of_string app] in *. cbn [read_names].
  rewrite Hj. rewrite skipSpaces_one by done. rewrite column_name_quoted by done. cbn [mbind option_bind].
  destruct cols as [|d cols]; subst s.
  - cbn [lit list_ascii_of_string app]. rewrite skipSpaces_one by done. done.
  - cbn [length] in Hf. change (skipSpaces (","%char :: ?x)) with (","%char :: x). cbn [head_is]. rewrite chr_eqb_refl.
      cbn [drop]. rewrite ?drop_0, IH; [|done|cbn [length]; lia]. by rewrite <- app_assoc.
Qed.

Lemma bind_digits_value ds v w r :
  decimal_value v ds = Some w -> bind_digits (wrap_u64 v) (ds ++ r) = bind_digits (wrap_u64 w) r.
Proof.
  revert v; induction ds as [|c ds IH]; intros v; cbn; [by intros [= ->]|].
  destruct (isdigit c); [|done]. intros H. rewrite <- (IH _ H). f_equal. unfold wrap_u64.
  by rewrite <- (Z.add_mod_idemp_l (v mod uint64_mod * 10)), Z.mul_mod_idemp_l, Z.add_mod_idemp_l by done.
Qed.

Lemma bind_digits_text n r :
  0 <= n < uint64_mod -> match r with c :: _ => isdigit c = false | [] => True end ->
  bind_digits 0 (to_string n ++ r) = (n, r).
Proof.
  intros Hn Hr. rewrite to_string_nonneg by lia. change 0 with (wrap_u64 0) at 1.
  rewrite (bind_digits_value _ _ _ _ (decimal_value_pretty (Z.to_N n))). rewrite Z2N.id by lia.
  unfold wrap_u64. rewrite Z.mod_small by done. destruct r as [|c r]; [done|]. cbn. by rewrite Hr.
Qed.

Lemma read_binds_list l : forall fuel acc, Forall (fun n => 0 <= n < uint64_mod) l -> (2 * length l <= fuel)%nat ->
  read_binds fuel ($" " ++ bind_names l) acc = Some (acc ++ l).
Proof.
  induction l as [|n l IH]; intros fuel acc Hl Hf.
  - rewrite (app_nil_r acc). by destruct fuel.
  - apply Forall_cons in Hl as [Hn Hl]. cbn [length] in Hf. destruct fuel as [|[|fuel]]; [lia..|].
    assert (Hb : bind_names (n :: l) = ":"%char :: to_string n
               ++ match l with [] => [] | _ => ","%char :: $" " ++ bind_names l end).
    { unfold bind_names. destruct l; cbn [map join]; [by rewrite app_nil_r|]. by rewrite <- app_assoc. }
    rewrite Hb. cbn [lit list_ascii_of_string app read_binds].
    rewrite skipSpaces_one by done. cbn -[read_binds bind_digits to_string bind_names].
    rewrite bind_digits_text; [|done|by destruct l].
    destruct l as [|m l]; [done|]. cbn [read_binds]. change (skipSpaces (","%char :: ?x)) with (","%char :: x).
    cbn -[read_binds bind_names]. specialize (IH fuel (acc ++ [n]) Hl). cbn [lit list_ascii_of_string app] in IH.
    rewrite IH by lia. by rewrite <- app_assoc.
Qed.

Lemma length_join_ge {X} (sep : str) (f : X -> str) (k : nat) l :
  (forall x, k <= length (f x))%nat -> (k * length l <= length (join sep (map f l)))%nat.
Proof.
  intros Hf. induction l as [|x l IH]; cbn [map join length]; [lia|]. specialize (Hf x).
  destruct l as [|y l]; cbn [map join length] in *; [lia|]. rewrite !length_app. lia.
Qed.

Lemma bind_length n : (2 <= length ($":" ++ to_string n))%nat.
Proof.
  rewrite length_app. destruct (to_string n) eqn:E; [|cbn; lia].
  pose proof (whole_number_text n) as H. by rewrite E in H.
Qed.

(** C37. A clause made for any columns, whatever their names, and any first bind is
    found again, with the same columns and binds, behind every statement whose
    quotes are closed, as the scan sees them: it takes a quote in a comment for one. *)
Theorem returning_roundtrip (sql : str) (cols : list str) (first : Z) :
  quotes_closed sql = true -> cols <> [] -> 0 <= first -> first + Z.of_nat (length cols) <= uint64_mod ->
  oracleParseReturningInto (sql ++ oracleMakeReturningSuffix cols first)
  = Some (mkReturning cols first (length cols)).
Proof.
  intros Hc Hne H0 Hmax. set (binds := map (fun i => wrap_u64 (first + Z.of_nat i)) (seq 0 (length cols))).
  assert (Hb : Forall (fun n => 0 <= n < uint64_mod) binds).
  { apply Forall_forall. intros n (i & -> & _)%list_elem_of_fmap. apply Z.mod_pos_bound. done. }
  assert (Hs : oracleMakeReturningSuffix cols first
             = $" RETURNING" ++ $" " ++ join $", " (map quoteIdentifier cols) ++ $" INTO " ++ bind_names binds).
  { unfold oracleMakeReturningSuffix, bind_names, binds. rewrite map_map. by destruct cols. }
  rewrite Hs. unfold oracleParseReturningInto. rewrite find_returning_suffix; [|done|].
  2:{ eapply Forall_impl; [exact Hb|]. cbn. lia. }
  set (names := join $", " (map quoteIdentifier cols)).
  assert (Hl : (length cols <= length ($" " ++ names ++ $" INTO " ++ bind_names binds))%nat).
  { rewrite !length_app. pose proof (length_join_ge $", " quoteIdentifier 1 cols) as H. fold names in H.
    enough (forall x, 1 <= length (quoteIdentifier x))%nat by (specialize (H ltac:(done)); lia). intros x. cbn. lia. }
  cbn [mbind option_bind]. unfold names. rewrite read_names_list by done. cbn [mbind option_bind app].
  destruct cols as [|c cols]; [done|]. cbn [lit list_ascii_of_string app].
  change (skipSpaces ("I"%char :: ?x)) with ("I"%char :: x).
  assert (Hk : span isWordChar (lit "INTO " ++ bind_names binds) = 4%nat) by done.
  cbn [lit list_ascii_of_string app] in Hk. rewrite Hk. cbn [take drop]. rewrite ?drop_0.
  replace (foldEquals _ _) with true by done. cbn [negb].
  pose proof (read_binds_list binds) as Hr. cbn [lit list_ascii_of_string app] in Hr. rewrite Hr; [|done|].
  2:{ cbn [length]. pose proof (length_join_ge $", " (fun n => $":" ++ to_string n) 2 binds) as H.
      fold (bind_names binds) in H. specialize (H bind_length). lia. }
  cbn [mbind option_bind app]. unfold binds at 1. rewrite length_map, length_seq, Nat.eqb_refl. cbn [negb].
  unfold binds. rewrite length_map, length_seq. cbn [map seq length]. f_equal. f_equal.
  unfold wrap_u64. rewrite Z.mod_small by (cbn [length] in *; lia). lia.
Qed.

Lemma returning_roundtrip_witness :
  oracleParseReturningInto
    ($"INSERT INTO t(a) VALUES ('it''s')" ++ oracleMakeReturningSuffix [ $"id"; [DQUOTE; ","%char] ] 2)
  = Some (mkReturning [ $"id"; [DQUOTE; ","%char] ] 2 2).
Proof.
  apply (returning_roundtrip ($"INSERT INTO t(a) VALUES ('it''s')") [ $"id"; [DQUOTE; ","%char] ] 2);
    [reflexivity|discriminate|lia|vm_compute; discriminate].
Defined.

(** The scan knows no comments: an apostrophe in one hides the clause. *)
Example returning_hidden_by_comment :
  oracleParseReturningInto ($"INSERT INTO t(a) VALUES (1) /* it's */ RETURNING id INTO :1") = None
  /\ oracleParseReturningInto ($"INSERT INTO t(a) VALUES (1) /* it is */ RETURNING id INTO :1")
     = Some (mkReturning [ $"ID" ] 1 1).
Proof. split; reflexivity. Qed.

(** ** Connect descriptors

    A descriptor is a tree of parameters; a value is bare, up to the closing
    parenthesis, or quoted. *)

Inductive desc : Type :=
| Leaf (key : str) (quoted : bool) (value : str)
| Branch (key : str) (children : list desc).

Fixpoint desc_ind' (P : desc -> Prop) (HL : forall k q v, P (Leaf k q v))
    (HB : forall k ch, Forall P ch -> P (Branch k ch)) (d : desc) : P d :=
  match d with
  | Leaf k q v => HL k q v
  | Branch k ch =>
      HB k ch ((fix all l : Forall P l :=
                  match l with
                  | [] => Forall_nil_2 P
                  | d :: l => Forall_cons_2 P d l (desc_ind' P HL HB d) (all l)
                  end) ch)
  end.

Fixpoint render (d : desc) : str :=
  match d with
  | Leaf k q v => "("%char :: k ++ "="%char :: (if q then DQUOTE :: v ++ [DQUOTE] else v) ++ [")"%char]
  | Branch k ch => "("%char :: k ++ "="%char :: concat (map render ch) ++ [")"%char]
  end.

Definition until (c : ascii) (s : str) : str * str :=
  let k := span (fun x => negb (x =c c)) s in (take k s, drop k s).

(** The reader of descriptors. *)
Fixpoint read_children (rec : str -> option (desc * str)) (n : nat) (s : str) : option (list desc * str) :=
  match n with
  | O => None
  | S n => if head_is "("%char s then
             '(d, s) ← rec s; '(ch, s) ← read_children rec n s; Some (d :: ch, s)
           else Some ([], s)
  end.

Fixpoint read_desc (fuel : nat) (s : str) : option (desc * str) :=
  match fuel with
  | O => None
  | S fuel =>
      s ← expect "("%char s;
      let '(key, s) := until "="%char s in
      s ← expect "="%char s;
      if head_is "("%char s then
        '(ch, s) ← read_children (read_desc fuel) fuel s; s ← expect ")"%char s; Some (Branch key ch, s)
      else if head_is DQUOTE s then
        let '(v, s) := until DQUOTE (drop 1 s) in
        s ← expect DQUOTE s; s ← expect ")"%char s; Some (Leaf key true v, s)
      else let '(v, s) := until ")"%char s in s ← expect ")"%char s; Some (Leaf key false v, s)
  end.

Lemma read_desc_S fuel s :
  read_desc (S fuel) s =
    (s ← expect "("%char s;
     let '(key, s) := until "="%char s in
     s ← expect "="%char s;
     if head_is "("%char s then
       '(ch, s) ← read_children (read_desc fuel) fuel s; s ← expect ")"%char s; Some (Branch key ch, s)
     else if head_is DQUOTE s then
       let '(v, s) := until DQUOTE (drop 1 s) in
       s ← expect DQUOTE s; s ← expect ")"%char s; Some (Leaf key true v, s)
     else let '(v, s) := until ")"%char s in s ← expect ")"%char s; Some (Leaf key false v, s)).
Proof. reflexivity. Qed.

(** Trees whose texts can be read: no separator in a key, no closing character
    in a value, no bare value that starts like something else. *)
Fixpoint readable (d : desc) : Prop :=
  match d with
  | Leaf k q v =>
      "="%char ∉ k /\ (if q then DQUOTE ∉ v else ")"%char ∉ v /\ head_is "("%char v = false /\ head_is DQUOTE v = false)
  | Branch k ch => "="%char ∉ k /\ ch <> [] /\ (fix all l := match l with [] => True | d :: l => readable d /\ all l end) ch
  end.

Fixpoint weight (d : desc) : nat :=
  match d with
  | Leaf _ _ _ => 1
  | Branch _ ch => S (S ((fix sum l := match l with [] => 0 | d :: l => S (weight d + sum l) end) ch))
  end%nat.

Lemma until_spec c a r : c ∉ a -> until c (a ++ c :: r) = (a, c :: r).
Proof.
  intros Hc. unfold until. assert (Hs : span (fun x => negb (x =c c)) (a ++ c :: r) = length a).
  { induction a as [|x a IH]; cbn; [by rewrite chr_eqb_refl|].
    assert (Hx : x <> c) by set_solver. rewrite (proj2 (chr_eqb_false x c) Hx). cbn. rewrite IH by set_solver. done. }
  by rewrite Hs, take_app_length, drop_app_length.
Qed.

Lemma render_head d : exists r, render d = "("%char :: r.
Proof. destruct d; by eexists. Qed.

Lemma read_render d : readable d -> forall fuel r, (weight d <= fuel)%nat -> read_desc fuel (render d ++ r) = Some (d, r).
Proof.
  induction d as [k q v|k ch IH] using desc_ind'; cbn [readable weight]; intros Hw fuel r Hf.
  - destruct fuel as [|fuel]; [lia|]. destruct Hw as [Hk Hv]. rewrite read_desc_S. cbn [render app].
    rewrite expect_ok. cbn [mbind option_bind]. rewrite <- app_assoc. cbn [app]. rewrite until_spec, expect_ok by done.
    cbn [mbind option_bind]. destruct q; cbn [app].
    + rewrite <- app_assoc. cbn [head_is app]. replace (DQUOTE =c "("%char) with false by done.
      rewrite chr_eqb_refl. cbn [drop]. rewrite drop_0, <- app_assoc. cbn [app].
      rewrite until_spec by done. by rewrite !expect_ok.
    + destruct Hv as (H1 & H2 & H3). rewrite <- app_assoc. cbn [app].
      assert (Hh : head_is "("%char (v ++ ")"%char :: r) = false /\ head_is DQUOTE (v ++ ")"%char :: r) = false)
        by (by destruct v).
      destruct Hh as [-> ->]. rewrite until_spec by done. by rewrite expect_ok.
  - destruct fuel as [|fuel]; [lia|]. destruct Hw as (Hk & Hne & Hch). rewrite read_desc_S. cbn [render app].
    rewrite expect_ok. cbn [mbind option_bind]. rewrite <- app_assoc. cbn [app]. rewrite until_spec, expect_ok by done.
    cbn [mbind option_bind]. rewrite <- app_assoc. cbn [app].
    assert (Hh : head_is "("%char (concat (map render ch) ++ ")"%char :: r) = true).
    { destruct ch as [|d ch]; [done|]. cbn. by destruct (render_head d) as [x ->]. }
    rewrite Hh. assert (Hl : forall n, (S ((fix sum l := match l with [] => 0 | d :: l => S (weight d + sum l) end) ch) <= n)%nat ->
      (S ((fix sum l := match l with [] => 0 | d :: l => S (weight d + sum l) end) ch) <= fuel)%nat ->
      read_children (read_desc fuel) n (concat (map render ch) ++ ")"%char :: r) = Some (ch, ")"%char :: r)).
    { clear Hf Hh Hne. induction IH as [|d ch Hd _ IHch]; intros n Hn Hf.
      - destruct n; [lia|]. done.
      - destruct n as [|n]; [lia|]. destruct Hch as [Hd' Hch]. cbn [map concat read_children].
        rewrite <- app_assoc. destruct (render_head d) as [x Ex].
        replace (head_is "("%char (render d ++ _)) with true by (rewrite Ex; done).
        rewrite Hd by (done || lia). cbn [mbind option_bind]. rewrite IHch by (done || lia). done. }
    rewrite Hl by lia. cbn [mbind option_bind]. by rewrite expect_ok.
Qed.

Lemma weight_length d : (weight d < length (render d))%nat.
Proof.
  induction d as [k q v|k ch IH] using desc_ind'; cbn [weight render length]; rewrite !length_app; cbn [length].
  { rewrite length_app. cbn. lia. }
  rewrite length_app. cbn [length].
  enough (H : ((fix sum l := match l with [] => 0 | d :: l => S (weight d + sum l) end) ch <= length (concat (map render ch)))%nat) by lia.
  induction IH as [|d ch Hd _ IHch]; cbn [map concat length]; [lia|]. rewrite length_app. lia.
Qed.

Definition timeout_leaves (o : OracleConnectOptions) : list desc :=
  if 0 <? connectionTimeoutMs o then
    [Leaf $"CONNECT_TIMEOUT" false (to_string (connectionTimeoutMs o) ++ $"ms");
     Leaf $"TRANSPORT_CONNECT_TIMEOUT" false (to_string (connectionTimeoutMs o) ++ $"ms")]
  else [].

Definition quoted_leaf (key value : str) : list desc := if is_empty value then [] else [Leaf key true value].

Definition security_branch (o : OracleConnectOptions) : list desc :=
  if tlsEnabled o then
    [Branch $"SECURITY"
       (Leaf $"SSL_SERVER_DN_MATCH" false (if tlsVerifyPeer o then $"YES" else $"NO")
        :: quoted_leaf $"SSL_SERVER_CERT_DN" (serverCertDn o) ++ quoted_leaf $"WALLET_LOCATION" (walletLocation o))]
  else [].

(** The parameters the options ask for. *)
Definition descriptor (o : OracleConnectOptions) : desc :=
  Branch $"DESCRIPTION"
    (timeout_leaves o
     ++ Branch $"ADDRESS"
          [Leaf $"PROTOCOL" false (if tlsEnabled o then $"TCPS" else $"TCP");
           Leaf $"HOST" false (host o); Leaf $"PORT" false (to_string (port o))]
     :: Branch $"CONNECT_DATA" [Leaf (if is_empty (sid o) then $"SERVICE_NAME" else $"SID") false (target o)]
     :: security_branch o).

Lemma concat_render_app a b : concat (map render (a ++ b)) = concat (map render a) ++ concat (map render b).
Proof. by rewrite map_app, concat_app. Qed.

Lemma descriptor_render o : descriptor_text o = render (descriptor o).
Proof.
  unfold descriptor_text, descriptor. cbn [render]. rewrite concat_render_app.
  assert (Ht : timeout_text o = concat (map render (timeout_leaves o))).
  { unfold timeout_text, timeout_leaves. destruct (0 <? connectionTimeoutMs o); [|done].
    cbn. rewrite <- ?app_assoc. cbn. by rewrite <- ?app_assoc. }
  assert (Hq : forall k v, (if is_empty v then [] else "("%char :: k ++ "="%char :: DQUOTE :: v ++ DQUOTE :: [")"%char])
                           = concat (map render (quoted_leaf k v))).
  { intros k v. unfold quoted_leaf. destruct (is_empty v); [done|]. cbn [map concat render].
    rewrite app_nil_r. cbn [app]. by rewrite <- app_assoc. }
  assert (Hs : security_text o = concat (map render (security_branch o))).
  { unfold security_text, security_branch. destruct (tlsEnabled o); [|done]. cbn [map concat render].
    rewrite concat_render_app, <- !Hq, app_nil_r. destruct (tlsVerifyPeer o), (is_empty (serverCertDn o)), (is_empty (walletLocation o));
      cbn; rewrite <- ?app_assoc; cbn; rewrite <- ?app_assoc; reflexivity. }
  rewrite Ht, Hs. cbn [map concat render]. destruct (tlsEnabled o), (is_empty (sid o));
    do 5 (cbn; rewrite <- ?app_assoc); reflexivity.
Qed.

(** A bare value: no parenthesis, no quote. *)
Definition bare (v : str) : Prop := ")"%char ∉ v /\ head_is "("%char v = false /\ head_is DQUOTE v = false.

Lemma forallb_not_in (f : ascii -> bool) c v : f c = false -> forallb f v = true -> c ∉ v.
Proof.
  intros Hc Hv Hin. rewrite forallb_forall in Hv. apply list_elem_of_In in Hin. specialize (Hv c Hin). congruence.
Qed.

Lemma head_not_in c v : c ∉ v -> head_is c v = false.
Proof. destruct v as [|x v]; [done|]. intros H. cbn. apply chr_eqb_false. set_solver. Qed.

Lemma atom_bare v : validDescriptorAtom v = true -> DQUOTE ∉ v -> bare v.
Proof.
  intros Hv Hq. unfold validDescriptorAtom in Hv. destruct v as [|c v]; [done|].
  split_and!; [eapply forallb_not_in; [|exact Hv]; reflexivity| |by apply head_not_in].
  apply head_not_in. eapply forallb_not_in; [|exact Hv]; reflexivity.
Qed.

Lemma number_bare z s : forallb isalnum s = true -> bare (to_string z ++ s).
Proof.
  intros Hs. assert (H : forall c, isalnum c = false -> c <> "-"%char -> c ∉ to_string z ++ s).
  { intros c Hc Hm. apply not_elem_of_app. split; [|by apply (forallb_not_in isalnum)].
    apply not_in_str, integer_text_chars; [|done]. unfold isalnum in Hc.
    by apply orb_false_iff in Hc as [_ Hc]. }
  split_and!; [by apply H|by apply head_not_in, H..].
Qed.

Lemma quoted_not_in v : validQuotedDescriptorValue v = true -> DQUOTE ∉ v.
Proof. intros Hv. unfold validQuotedDescriptorValue in Hv. destruct v; [done|]. eapply forallb_not_in; [|exact Hv]; reflexivity. Qed.

(** What the checks leave. *)
Record sound_options (o : OracleConnectOptions) : Prop := {
  sound_host : validDescriptorAtom (host o) = true;
  sound_target : validDescriptorAtom (target o) = true;
  sound_dn : serverCertDn o <> [] -> validQuotedDescriptorValue (serverCertDn o) = true;
  sound_wallet : walletLocation o <> [] -> validQuotedDescriptorValue (walletLocation o) = true
}.

Lemma refusal_sound o : descriptor_refusal o = None -> sound_options o.
Proof.
  unfold descriptor_refusal. intros H. repeat (split_match_in H; [done|]).
  repeat match goal with E : negb _ = false |- _ => apply negb_false_iff in E end.
  repeat match goal with E : negb (is_empty _) && negb _ = false |- _ => apply andb_false_iff in E end.
  split; [done|done| |].
  - intros Hd. assert (Hn : is_empty (serverCertDn o) = false) by by destruct (serverCertDn o).
    repeat match goal with E : negb (is_empty (serverCertDn o)) = false \/ negb (validQuotedDescriptorValue (serverCertDn o)) = false |- _ =>
      rewrite Hn in E; destruct E as [E|E]; [done|by apply negb_false_iff in E] end.
  - intros Hd. assert (Hn : is_empty (walletLocation o) = false) by by destruct (walletLocation o).
    repeat match goal with E : negb (is_empty (walletLocation o)) = false \/ negb (validQuotedDescriptorValue (walletLocation o)) = false |- _ =>
      rewrite Hn in E; destruct E as [E|E]; [done|by apply negb_false_iff in E] end.
Qed.

Lemma key_clean (k : str) : existsb (chr_eqb "="%char) k = false -> "="%char ∉ k.
Proof. apply not_in_str. Qed.

Lemma descriptor_readable o :
  sound_options o -> DQUOTE ∉ host o -> DQUOTE ∉ target o -> readable (descriptor o).
Proof.
  intros [Hh Ht Hd Hw] Qh Qt. pose proof (atom_bare _ Hh Qh) as Bh. pose proof (atom_bare _ Ht Qt) as Bt.
  pose proof (number_bare (port o) [] eq_refl) as Bp. rewrite app_nil_r in Bp.
  pose proof (number_bare (connectionTimeoutMs o) $"ms" eq_refl) as Bm.
  assert (Hall : forall l m, (fix all l := match l with [] => True | d :: l => readable d /\ all l end) l ->
    (fix all l := match l with [] => True | d :: l => readable d /\ all l end) m ->
    (fix all l := match l with [] => True | d :: l => readable d /\ all l end) (l ++ m)).
  { intros l m Hl Hm. induction l as [|d l IH]; [done|]. destruct Hl. split; [done|]. by apply IH. }
  assert (Hq : forall k v, "="%char ∉ k -> (v <> [] -> validQuotedDescriptorValue v = true) ->
    (fix all l := match l with [] => True | d :: l => readable d /\ all l end) (quoted_leaf k v)).
  { intros k v Hk Hv. unfold quoted_leaf. destruct v; [done|]. cbn. split; [|done]. split; [done|].
    by apply quoted_not_in, Hv. }
  destruct Bh as (? & ? & ?), Bt as (? & ? & ?), Bp as (? & ? & ?), Bm as (? & ? & ?).
  unfold descriptor. cbn [readable]. split; [by apply key_clean|]. split; [by destruct (timeout_leaves o)|].
  apply Hall.
  - unfold timeout_leaves. destruct (0 <? _); [|done]. cbn [readable].
    split_and!; done || by apply key_clean.
  - cbn [readable]. split_and!; try done; try (by apply key_clean).
    + destruct (tlsEnabled o); by apply not_in_str.
    + by destruct (tlsEnabled o).
    + by destruct (tlsEnabled o).
    + destruct (is_empty (sid o)); by apply key_clean.
    + unfold security_branch. destruct (tlsEnabled o); [|done]. cbn [readable]. split; [|done]. split; [by apply key_clean|].
      split; [done|]. split; [|apply Hall; apply Hq; done || by apply key_clean].
      split; [by apply key_clean|]. destruct (tlsVerifyPeer o); split_and!; done || by apply not_in_str.
Qed.

(** An accepted set of options gives a descriptor that is read back as exactly
    the parameters asked for: no host, service name, wallet or certificate name
    without a quote adds or changes a parameter.  Refused options give no text. *)
Theorem connect_descriptor_exact (o : OracleConnectOptions) :
  let '(st, text) := oracleBuildConnectDescriptor o in
  if status_ok st then
    DQUOTE ∉ host o -> DQUOTE ∉ target o -> read_desc (length text) text = Some (descriptor o, [])
  else text = [].
Proof.
  unfold oracleBuildConnectDescriptor. destruct (descriptor_refusal o) eqn:E; [reflexivity|].
  change (status_ok status_OK) with true. intros Hh Ht.
  apply refusal_sound in E. rewrite descriptor_render. pose proof (weight_length (descriptor o)) as Hw.
  pose proof (read_render _ (descriptor_readable o E Hh Ht) (length (render (descriptor o))) []) as H.
  rewrite app_nil_r in H. apply H. lia.
Qed.

(** Bare values are not checked for quotes: a host that opens one swallows the
    parameters up to the quote of the service name. *)
Example descriptor_quote_swallows :
  let o := mkConnect (DQUOTE :: $"db") 1521 ($"svc" ++ [DQUOTE]) [] 0 false true [] [] in
  let '(st, text) := oracleBuildConnectDescriptor o in
  status_ok st = true /\ read_desc (length text) text <> Some (descriptor o, []).
Proof. vm_compute. split; [reflexivity|discriminate]. Qed.

Definition sample_options : OracleConnectOptions :=
  mkConnect $"db.example.com" 2484 $"orders" [] 5000 true true $"/etc/wallet" $"CN=db".

Lemma connect_descriptor_exact_witness :
  read_desc (length (descriptor_text sample_options)) (descriptor_text sample_options)
  = Some (descriptor sample_options, []).
Proof.
  apply (connect_descriptor_exact sample_options); apply not_in_str; reflexivity.
Defined.

Lemma oracle_values_roundtrip_witness :
  b_text (oracleBindValue gmtime (fun _ => 0) (fun _ _ => $"0") (VInt64 (-5))) = Some (to_string (-5))
  /\ oracleValueFromText (fun _ => -1) (fun _ => 0) 2 (to_string (-5)) 10 0 = VInt64 (-5).
Proof.
  apply (proj1 (oracle_values_roundtrip gmtime (fun _ => -1) (fun _ => 0) (fun _ _ => $"0")) (-5) 10).
  vm_compute. intuition congruence.
Defined.

End Oracle.
