(* ===== verification/Observer.v ===== *)
(** * Observability: SQL events, slow-SQL statistics and the log line

    src/common/observer.cpp with the records of include/sqlconduit/common/observer.h
    and the configuration it reads.  The state is one [StateData]; its statistics
    are changed under [statsMutex], one critical section per event.  The LRU list
    has the most recently seen fingerprint first; [lruPos], the iterators into it,
    is the set of fingerprints that have one.  Clocks, the renderer of a driver
    and the observers are arguments.  Counters are unbounded. *)

From Stdlib Require Import SpecFloat.
From stdpp Require Import sorting.
From S2P Require Import Prelude Types SqlAnalyze Context SqlAuditor Binding Gate.

Module Observer.
#[local] Open Scope Z_scope.

(** ** Configuration and events *)

Record SqlLogConfig : Type := mkLogConfig {
  lg_enabled : bool;
  lg_mode : str;
  lg_level : str;
  lg_success : bool;
  lg_errors : bool;
  lg_slow_only : bool;
  lg_sample_rate : spec_float;
  lg_max_sql_length : Z;
  lg_max_param_length : Z;
  lg_include_string_values : bool;
  lg_include_blob_values : bool
}.

Record SlowSqlConfig : Type := mkSlowConfig {
  sl_enabled : bool;
  sl_threshold_ms : Z;
  sl_aggregate_capacity : Z;
  sl_recent_capacity : Z;
  sl_retain_rendered_sql : bool;
  sl_max_sql_length : Z;
  sl_histogram_buckets_ms : list Z
}.

(** The members this component reads. *)
Record ObservabilityConfig : Type := mkObsConfig { sql_log : SqlLogConfig; slow_sql : SlowSqlConfig }.

Record OperationEvent : Type := mkEvent {
  ev_dataSource : str;
  ev_type : OperationType;
  ev_duration : Z;
  ev_status : Status;
  ev_rowCount : Z;
  ev_sqlTemplate : str;
  ev_renderedSql : str;
  ev_fingerprint : Z;
  ev_traceId : str;
  ev_spanId : str;
  ev_slow : bool;
  ev_shadow : bool;
  ev_transformed : bool;
  ev_traceFlags : Z;
  ev_diagnosticPhase : Z;
  ev_fallbackReason : Z;
  ev_attempt : Z
}.

Record SlowSqlStats : Type := mkStats {
  ss_fingerprint : Z;
  ss_dataSource : str;
  ss_type : OperationType;
  ss_sqlTemplate : str;
  ss_count : Z;
  ss_errorCount : Z;
  ss_timeoutCount : Z;
  ss_total : Z;
  ss_min : Z;
  ss_max : Z;
  ss_firstSeen : Z;
  ss_lastSeen : Z;
  ss_buckets : list Z;
  ss_histogram : list Z
}.

Record SlowSqlRecord : Type := mkRecord {
  sr_timestamp : Z;
  sr_dataSource : str;
  sr_type : OperationType;
  sr_sqlTemplate : str;
  sr_renderedSql : str;
  sr_fingerprint : Z;
  sr_duration : Z;
  sr_errorCode : ErrorCode;
  sr_sqlState : str;
  sr_traceId : str;
  sr_spanId : str
}.

(** ** Texts *)

(** A [static_cast<std::size_t>] of an [int]. *)
Definition size_of_int (z : Z) : Z := wrap_u64 z.

(** The literal-tracking loop of [truncate] over the first [limit] characters. *)
Fixpoint truncate_scan (head : str) (inLiteral : bool) : bool :=
  match head with
  | [] => inLiteral
  | c :: h =>
      if c =c BSLASH then match h with [] => inLiteral | _ :: h => truncate_scan h inLiteral end
      else if c =c QUOTE then
        match h with
        | d :: h' => if d =c QUOTE then truncate_scan h' inLiteral else truncate_scan h (negb inLiteral)
        | [] => negb inLiteral
        end
      else truncate_scan h inLiteral
  end.

Definition truncate (text : str) (limit : Z) : str :=
  if Z.of_nat (length text) <=? limit then text
  else
    let head := take (Z.to_nat limit) text in
    head ++ (if truncate_scan head false then [QUOTE] else [])
    ++ $"...[truncated, original_length=" ++ nat_string (length text) ++ $"]".

Definition op_index (t : OperationType) : N :=
  match t with
  | OQuery => 0 | OExecute => 1 | OBegin => 2 | OCommit => 3 | ORollback => 4 | OCancel => 5
  | OStream => 6 | OBatch => 7 | OSavepoint => 8 | OSelect => 9 | ORoutine => 10
  end.

Definition fingerprint (dataSource : str) (type : OperationType) (sql : str) : Z :=
  fnv1a (dataSource ++ NUL :: ascii_of_N (op_index type) :: sql).

(** The same text as [buildStructural] of sql_analyze.cpp. *)
Definition structuralSql (sql : str) : str := buildStructural sql.

Inductive LogLevel : Type := LDebug | LInfo | LWarn | LError.

Definition parseLevel (level : str) : LogLevel :=
  if level =s $"info" then LInfo else if level =s $"warn" then LWarn
  else if level =s $"error" then LError else LDebug.

Definition operationName (t : OperationType) : str :=
  match t with
  | OQuery => $"query" | OExecute => $"execute" | OStream => $"stream" | OBatch => $"batch"
  | OSelect => $"select" | ORoutine => $"routine" | _ => $"operation"
  end.

(** ** Statistics *)

Record statistics : Type := mkStatistics {
  slowStats : gmap Z SlowSqlStats;
  recentSlow : list SlowSqlRecord;
  lru : list Z;
  lruPos : gset Z
}.

Definition no_statistics : statistics := mkStatistics ∅ [] [] ∅.

Definition touchLru (fp : Z) (s : statistics) : statistics :=
  if bool_decide (fp ∈ lruPos s)
  then mkStatistics (slowStats s) (recentSlow s) (fp :: filter (fun x => x <> fp) (lru s)) (lruPos s)
  else mkStatistics (slowStats s) (recentSlow s) (fp :: lru s) ({[fp]} ∪ lruPos s).

Definition evictLru (s : statistics) : statistics :=
  match last (lru s) with
  | None => s
  | Some fp =>
      mkStatistics (delete fp (slowStats s)) (recentSlow s) (take (length (lru s) - 1) (lru s))
        (lruPos s ∖ {[fp]})
  end.

(** The histogram's bucket of a duration in microseconds. *)
Fixpoint bucket_of (duration : Z) (buckets : list Z) : nat :=
  match buckets with
  | [] => 0
  | b :: bs => if b * 1000 <? duration then S (bucket_of duration bs) else 0
  end.

Definition new_stats (cfg : SlowSqlConfig) (now : Z) (e : OperationEvent) (structure : str) : SlowSqlStats :=
  mkStats (ev_fingerprint e) (ev_dataSource e) (ev_type e)
    (truncate structure (size_of_int (sl_max_sql_length cfg))) 0 0 0 0 (ev_duration e) 0 now 0
    (sl_histogram_buckets_ms cfg) (repeat 0 (length (sl_histogram_buckets_ms cfg) + 1)).

Definition add_event (now : Z) (e : OperationEvent) (s : SlowSqlStats) : SlowSqlStats :=
  mkStats (ss_fingerprint s) (ss_dataSource s) (ss_type s) (ss_sqlTemplate s) (ss_count s + 1)
    (if status_ok (ev_status e) then ss_errorCount s else ss_errorCount s + 1)
    (if code_eqb (code_ (ev_status e)) QueryTimeout then ss_timeoutCount s + 1 else ss_timeoutCount s)
    (ss_total s + ev_duration e) (Z.min (ss_min s) (ev_duration e)) (Z.max (ss_max s) (ev_duration e))
    (ss_firstSeen s) now (ss_buckets s)
    (alter (Z.add 1) (bucket_of (ev_duration e) (ss_buckets s)) (ss_histogram s)).

Definition slow_record (cfg : SlowSqlConfig) (now : Z) (e : OperationEvent) (template : str) : SlowSqlRecord :=
  mkRecord now (ev_dataSource e) (ev_type e) template
    (if sl_retain_rendered_sql cfg then truncate (ev_renderedSql e) (size_of_int (sl_max_sql_length cfg)) else [])
    (ev_fingerprint e) (ev_duration e) (code_ (ev_status e)) (sqlState (ev_status e)) (ev_traceId e) (ev_spanId e).

Definition push_recent (cap : Z) (r : SlowSqlRecord) (l : list SlowSqlRecord) : list SlowSqlRecord :=
  if 0 <? cap then (if size_of_int cap <=? Z.of_nat (length l) then tail l else l) ++ [r] else l.

(** The section of [emitSqlEnabled] under [statsMutex]. *)
Definition record_slow (cfg : SlowSqlConfig) (now : Z) (e : OperationEvent) (structure : str) (s : statistics)
    : statistics :=
  let key := ev_fingerprint e in
  let s1 :=
    match slowStats s !! key with
    | None =>
        let s := if size_of_int (sl_aggregate_capacity cfg) <=? Z.of_nat (size (slowStats s)) then evictLru s else s in
        touchLru key s
    | Some _ => touchLru key s
    end in
  let old := default (new_stats cfg now e structure) (slowStats s1 !! key) in
  let new := add_event now e old in
  mkStatistics (<[key := new]> (slowStats s1))
    (push_recent (sl_recent_capacity cfg) (slow_record cfg now e (ss_sqlTemplate new)) (recentSlow s1))
    (lru s1) (lruPos s1).

Definition clearSlowSqlStats (s : statistics) : statistics := no_statistics.

(** ** The state and its configuration *)

(** A callback is known by its identity; what it does is an argument where it is called. *)
Record Snapshot : Type := mkSnapshot {
  config : ObservabilityConfig;
  observer : option Z;
  poolObserver : option Z;
  poolCollector : option Z
}.

(** [poolCollectorOwner] is an address, 0 the null pointer. *)
Record StateData : Type := mkState {
  identity : Z;
  settings : Snapshot;
  poolCollectorOwner : Z;
  stateVersion : Z;
  sqlEventsEnabled : bool;
  stats : statistics
}.

Definition is_set (h : option Z) : bool := bool_decide (is_Some h).

Definition events_enabled (s : Snapshot) : bool :=
  is_set (observer s) || lg_enabled (sql_log (config s)) || sl_enabled (slow_sql (config s)).

Definition normalized (cfg : ObservabilityConfig) : ObservabilityConfig :=
  let s := slow_sql cfg in
  mkObsConfig (sql_log cfg)
    (mkSlowConfig (sl_enabled s) (sl_threshold_ms s)
       (if sl_aggregate_capacity s <? 1 then 1 else sl_aggregate_capacity s)
       (if sl_recent_capacity s <? 0 then 0 else sl_recent_capacity s)
       (sl_retain_rendered_sql s) (sl_max_sql_length s) (sl_histogram_buckets_ms s)).

(** The operations that change the settings.  Each is a section under
    [stateMutex] ([locked], with whether the version is to be bumped) and then the
    [fetch_add] of the version outside it ([bump]). *)
Inductive setting_op : Type :=
  | SetObserver (o : option Z)
  | SetPoolMetricsObserver (o : option Z)
  | SetPoolMetricsCollector (c : option Z) (owner : Z)
  | ClearPoolMetricsCollector (owner : Z)
  | Configure (cfg : ObservabilityConfig).

Definition with_settings (s : Snapshot) (owner : Z) (enabled : bool) (d : StateData) : StateData :=
  mkState (identity d) s owner (stateVersion d) enabled (stats d).

Definition locked (op : setting_op) (d : StateData) : StateData * bool :=
  let '(mkSnapshot cfg obs pobs pcol) := settings d in
  let owner := poolCollectorOwner d in
  let enabled := sqlEventsEnabled d in
  match op with
  | SetObserver o => let s := mkSnapshot cfg o pobs pcol in (with_settings s owner (events_enabled s) d, true)
  | SetPoolMetricsObserver o => (with_settings (mkSnapshot cfg obs o pcol) owner enabled d, true)
  | SetPoolMetricsCollector c w =>
      (with_settings (mkSnapshot cfg obs pobs c) (if is_set c then w else 0) enabled d, true)
  | ClearPoolMetricsCollector w =>
      if owner =? w then (with_settings (mkSnapshot cfg obs pobs None) 0 enabled d, true) else (d, false)
  | Configure c =>
      let s := mkSnapshot (normalized c) obs pobs pcol in (with_settings s owner (events_enabled s) d, true)
  end.

Definition bump (d : StateData) : StateData :=
  mkState (identity d) (settings d) (poolCollectorOwner d) (wrap_u64 (stateVersion d + 1)) (sqlEventsEnabled d)
    (stats d).

(** The eviction loop; every turn removes an entry. *)
Fixpoint evict_to (fuel : nat) (capacity : Z) (s : statistics) : statistics :=
  match fuel with
  | O => s
  | S fuel => if capacity <? Z.of_nat (size (slowStats s)) then evict_to fuel capacity (evictLru s) else s
  end.

(** The section of [configure] under [statsMutex]. *)
Definition reconfigure_stats (cfg : SlowSqlConfig) (s : statistics) : statistics :=
  let s :=
    if existsb (fun e => negb (bool_decide (ss_buckets e.2 = sl_histogram_buckets_ms cfg))) (map_to_list (slowStats s))
    then mkStatistics ∅ (recentSlow s) [] ∅ else s in
  let s := evict_to (size (slowStats s)) (sl_aggregate_capacity cfg) s in
  mkStatistics (slowStats s)
    (drop (length (recentSlow s) - Z.to_nat (sl_recent_capacity cfg)) (recentSlow s)) (lru s) (lruPos s).

Definition with_stats (s : statistics) (d : StateData) : StateData :=
  mkState (identity d) (settings d) (poolCollectorOwner d) (stateVersion d) (sqlEventsEnabled d) s.

(** A whole call, when nothing runs in between. *)
Definition apply_setting (op : setting_op) (d : StateData) : StateData :=
  let '(d, changed) := locked op d in
  let d := if changed then bump d else d in
  match op with
  | Configure c => with_stats (reconfigure_stats (slow_sql (normalized c)) (stats d)) d
  | _ => d
  end.

(** *** The thread's cached snapshot *)

Record tls : Type := mkTls { tlsIdentity : Z; tlsVersion : Z; tlsSnapshot : Snapshot }.

(** [currentSnapshot] after its load of the version; the refresh runs under
    [stateMutex]. *)
Definition snapshot_fresh (d : StateData) (version : Z) (t : tls) : bool :=
  (tlsIdentity t =? identity d) && (tlsVersion t =? version).

Definition snapshot_refresh (d : StateData) : tls := mkTls (identity d) (stateVersion d) (settings d).

Definition currentSnapshot (d : StateData) (t : tls) : tls :=
  if snapshot_fresh d (stateVersion d) t then t else snapshot_refresh d.

(** *** Pool metrics *)

Section pool_metrics.
Context {pools : Type}.

(** [collect] is what a collector returns, or that it throws. *)
Definition samplePoolMetrics (collect : Z -> option (list pools)) (now : Z) (d : StateData)
    : (Z * list pools) * option Z :=
  let sampled :=
    match poolCollector (settings d) with
    | Some c => default [] (collect c)
    | None => []
    end in
  ((now, sampled), poolObserver (settings d)).

End pool_metrics.

(** [emit]: the observer the event is handed to. *)
Definition emit (t : tls) (d : StateData) (e : OperationEvent) : option (Z * OperationEvent) :=
  match observer (tlsSnapshot (currentSnapshot d t)) with Some o => Some (o, e) | None => None end.

(** ** Emission *)

Definition double (z : Z) : spec_float := Gate.of_int z.

(** What the thread supplies: its context frames, the span counter, its sample
    counter. *)
Record emitter : Type := mkEmitter { em_frames : frames; em_spans : Z; em_samples : Z }.

Definition SqlRenderer : Type := Binding.SqlRenderOptions -> option (Status * str).

Definition enrich (em : emitter) (transformed : bool) (e : OperationEvent) : OperationEvent * Z :=
  let ctx := current (em_frames em) in
  let tid := if traceId ctx =s [] then ev_traceId e else traceId ctx in
  let '(sid, spans) :=
    if negb (spanId ctx =s []) then (spanId ctx, em_spans em)
    else if negb (tid =s []) then nextSpanId (em_frames em) (em_spans em)
    else (ev_spanId e, em_spans em) in
  (mkEvent (ev_dataSource e) (ev_type e) (ev_duration e) (ev_status e) (ev_rowCount e) (ev_sqlTemplate e)
     (ev_renderedSql e) (ev_fingerprint e) tid sid (ev_slow e) (shadow ctx || ev_shadow e)
     (transformed || ev_transformed e) (traceFlags ctx) (ev_diagnosticPhase e) (ev_fallbackReason e)
     (ev_attempt e), spans).

Definition duration_ms (e : OperationEvent) : Z := Z.quot (ev_duration e) 1000.

Definition is_slow (cfg : ObservabilityConfig) (e : OperationEvent) : bool :=
  sl_enabled (slow_sql cfg) && (sl_threshold_ms (slow_sql cfg) <=? duration_ms e).

Definition log_eligible (cfg : ObservabilityConfig) (e : OperationEvent) : bool :=
  let l := sql_log cfg in
  lg_enabled l && (negb (lg_slow_only l) || (sl_threshold_ms (slow_sql cfg) <=? duration_ms e))
  && ((status_ok (ev_status e) && lg_success l) || (negb (status_ok (ev_status e)) && lg_errors l)).

Definition is_sampled (cfg : ObservabilityConfig) (fp sequence : Z) : bool :=
  let rate := lg_sample_rate (sql_log cfg) in
  negb (lg_enabled (sql_log cfg)) || SFleb (double 1) rate
  || (SFltb (double 0) rate
      && SFltb (Gate.over (double (Z.lxor fp sequence mod 1000000)) (double 1000000)) rate).

Definition render_options (cfg : ObservabilityConfig) : Binding.SqlRenderOptions :=
  let l := sql_log cfg in
  Binding.mkRender (lg_include_string_values l) (lg_include_blob_values l)
    (Z.to_nat (size_of_int (lg_max_param_length l)))
    (Z.to_nat (size_of_int (Z.max (lg_max_sql_length l) (sl_max_sql_length (slow_sql cfg))))).

Definition set_texts (fp : Z) (slow : bool) (template rendered : str) (e : OperationEvent) : OperationEvent :=
  mkEvent (ev_dataSource e) (ev_type e) (ev_duration e) (ev_status e) (ev_rowCount e) template rendered fp
    (ev_traceId e) (ev_spanId e) slow (ev_shadow e) (ev_transformed e) (ev_traceFlags e)
    (ev_diagnosticPhase e) (ev_fallbackReason e) (ev_attempt e).

Definition log_message (cfg : ObservabilityConfig) (e : OperationEvent) : str :=
  let displaySql := if (lg_mode (sql_log cfg) =s $"full") && negb (ev_renderedSql e =s [])
                    then ev_renderedSql e else ev_sqlTemplate e in
  $"sql datasource=" ++ ev_dataSource e ++ $" operation=" ++ operationName (ev_type e)
  ++ $" duration_ms=" ++ to_string (duration_ms e) ++ $" rows=" ++ to_string (ev_rowCount e)
  ++ $" status=" ++ errorCodeToString (code_ (ev_status e)) ++ $" fingerprint=" ++ to_string (ev_fingerprint e)
  ++ (if ev_traceId e =s [] then [] else $" trace=" ++ ev_traceId e)
  ++ (if ev_spanId e =s [] then [] else $" span=" ++ ev_spanId e)
  ++ $" statement=" ++ displaySql.

(** What an emission does: the statistics, the log line, the event handed to the
    observer, the thread's counters. *)
Record emitted : Type := mkEmitted {
  em_stats : statistics;
  em_logged : option (LogLevel * str);
  em_observed : option (Z * OperationEvent);
  em_after : emitter
}.

(** A renderer that throws ends the emission. *)
Definition emitSqlEnabled (snap : Snapshot) (em : emitter) (now : Z) (e : OperationEvent) (sql : str)
    (renderer : option SqlRenderer) (transformed : bool) (st : statistics) : emitted :=
  let cfg := config snap in
  let slowEnabled := sl_enabled (slow_sql cfg) in
  let logEnabled := lg_enabled (sql_log cfg) in
  let '(e, spans) := enrich em transformed e in
  let structure := if slowEnabled || logEnabled then structuralSql sql else [] in
  let fp := if slowEnabled || logEnabled then fingerprint (ev_dataSource e) (ev_type e) structure
            else ev_fingerprint e in
  let slow := is_slow cfg e in
  let eligible := log_eligible cfg e in
  let sequence := if logEnabled then wrap_u64 (em_samples em + 1) else 0 in
  let logged := eligible && is_sampled cfg fp sequence in
  let template :=
    if slow || logged
    then truncate sql (size_of_int (if slow then sl_max_sql_length (slow_sql cfg)
                                    else lg_max_sql_length (sql_log cfg)))
    else ev_sqlTemplate e in
  let rendered :=
    match renderer with
    | Some r =>
        if (logged && (lg_mode (sql_log cfg) =s $"full")) || (slow && sl_retain_rendered_sql (slow_sql cfg)) then
          match r (render_options cfg) with
          | Some (s, text) => Some (if status_ok s then text else ev_renderedSql e)
          | None => None
          end
        else Some (ev_renderedSql e)
    | None => Some (ev_renderedSql e)
    end in
  let after := mkEmitter (em_frames em) spans (if logEnabled then sequence else em_samples em) in
  match rendered with
  | None => mkEmitted st None None after
  | Some rendered =>
      let e := set_texts fp slow template rendered e in
      mkEmitted (if slow then record_slow (slow_sql cfg) now e structure st else st)
        (if logged then Some (parseLevel (lg_level (sql_log cfg)), log_message cfg e) else None)
        (match observer snap with Some o => Some (o, e) | None => None end)
        after
  end.

(** [emitSql], with the thread's cached snapshot. *)
Definition emitSql (t : tls) (em : emitter) (now : Z) (e : OperationEvent) (sql : str)
    (renderer : option SqlRenderer) (transformed : bool) (d : StateData) : emitted :=
  let nothing := mkEmitted (stats d) None None em in
  if negb (sqlEventsEnabled d) then nothing
  else
    let snap := tlsSnapshot (currentSnapshot d t) in
    if negb (events_enabled snap) then nothing
    else emitSqlEnabled snap em now e sql renderer transformed (stats d).

(** ** Reports *)

Definition average_gt (a b : SlowSqlStats) : bool :=
  let average s :=
    SFdiv 64 16384 (binary_normalize 64 16384 (ss_total s) 0 false)
      (binary_normalize 64 16384 (if ss_count s =? 0 then 1 else ss_count s) 0 false) in
  SFltb (average b) (average a).

#[local] Instance average_dec : RelDecision (fun a b => average_gt b a = false).
Proof. intros a b. apply _. Defined.

Definition slowSqlStats (limit : nat) (dataSource : str) (s : statistics) : list SlowSqlStats :=
  let matching := List.filter (fun e => (dataSource =s []) || (ss_dataSource e =s dataSource))
                    (map snd (map_to_list (slowStats s))) in
  take limit (merge_sort (fun a b => average_gt b a = false) matching).

Definition recentSlowSql (limit : nat) (dataSource : str) (s : statistics) : list SlowSqlRecord :=
  take limit (List.filter (fun r => (dataSource =s []) || (sr_dataSource r =s dataSource)) (rev (recentSlow s))).

(** ** The invariant of the statistics *)

Definition zsum : list Z -> Z := foldr Z.add 0.

Definition entry_ok (fp : Z) (e : SlowSqlStats) : Prop :=
  ss_fingerprint e = fp /\
  length (ss_histogram e) = S (length (ss_buckets e)) /\
  Forall (Z.le 0) (ss_histogram e) /\ zsum (ss_histogram e) = ss_count e /\
  1 <= ss_count e /\ 0 <= ss_timeoutCount e <= ss_errorCount e /\ ss_errorCount e <= ss_count e /\
  ss_count e * ss_min e <= ss_total e <= ss_count e * ss_max e.

(** The map, the LRU list and the positions name the same fingerprints. *)
Definition index_ok (s : statistics) : Prop :=
  NoDup (lru s) /\ dom (slowStats s) = list_to_set (lru s) /\ lruPos s = list_to_set (lru s).

Definition stats_ok (s : statistics) : Prop := index_ok s /\ map_Forall entry_ok (slowStats s).

Lemma map_Forall_submap (P : Z -> SlowSqlStats -> Prop) (m m' : gmap Z SlowSqlStats) :
  map_Forall P m -> m' ⊆ m -> map_Forall P m'.
Proof. intros H Hs k v Hk. apply H. by eapply lookup_weaken. Qed.

Lemma size_of_int_small (z : Z) : 0 <= z < 2 ^ 31 -> size_of_int z = z.
Proof. intros H. apply Z.mod_small. unfold uint64_mod. lia. Qed.

Lemma bucket_of_le (d : Z) (bs : list Z) : (bucket_of d bs <= length bs)%nat.
Proof. induction bs; simpl; [lia|]. case_match; lia. Qed.

Lemma zsum_alter (i : nat) (l : list Z) : (i < length l)%nat -> zsum (alter (Z.add 1) i l) = zsum l + 1.
Proof.
  revert i. induction l as [|x l IH]; intros [|i] Hi; simpl in *; try lia.
  specialize (IH i ltac:(lia)). unfold alter in IH. lia.
Qed.

Lemma zsum_repeat (n : nat) : zsum (repeat 0 n) = 0.
Proof. induction n; simpl; lia. Qed.

(** [add_event] on an entry, or on a new one: the count may still be 0. *)
Definition pre_entry (fp : Z) (e : SlowSqlStats) (d : Z) : Prop :=
  entry_ok fp e \/
  (ss_fingerprint e = fp /\ length (ss_histogram e) = S (length (ss_buckets e)) /\
   Forall (Z.le 0) (ss_histogram e) /\ zsum (ss_histogram e) = 0 /\ ss_count e = 0 /\ ss_errorCount e = 0 /\
   ss_timeoutCount e = 0 /\ ss_total e = 0 /\ ss_min e = d).

Lemma add_event_ok (now : Z) (e : OperationEvent) (fp : Z) (s : SlowSqlStats) :
  pre_entry fp s (ev_duration e) -> entry_ok fp (add_event now e s).
Proof.
  intros H.
  assert (Hlen : length (ss_histogram s) = S (length (ss_buckets s))) by (destruct H as [H|H]; apply H).
  assert (Hpos : Forall (Z.le 0) (ss_histogram s)) by (destruct H as [H|H]; apply H).
  assert (Htime : code_eqb (code_ (ev_status e)) QueryTimeout = true -> status_ok (ev_status e) = false)
    by (unfold status_ok; destruct (code_ (ev_status e)); done).
  pose proof (bucket_of_le (ev_duration e) (ss_buckets s)).
  unfold entry_ok, add_event; cbn. rewrite length_alter, zsum_alter by lia.
  repeat split; try (destruct H as [H|H]; unfold entry_ok in H; cbn in H; repeat case_match; naive_solver lia).
  - apply Forall_alter; [done|]. intros x _ Hx. lia.
  - destruct H as [H|H]; unfold entry_ok in H; nia.
  - destruct H as [H|H]; unfold entry_ok in H; nia.
Qed.

Lemma new_stats_pre (cfg : SlowSqlConfig) (now : Z) (e : OperationEvent) (structure : str) :
  pre_entry (ev_fingerprint e) (new_stats cfg now e structure) (ev_duration e).
Proof.
  right. cbn. rewrite repeat_length, zsum_repeat. split_and!; try done; [lia|].
  apply Forall_forall. intros x Hx%list_elem_of_In%repeat_spec. lia.
Qed.

Lemma touchLru_stats (fp : Z) (s : statistics) : slowStats (touchLru fp s) = slowStats s.
Proof. unfold touchLru. by case_match. Qed.

Lemma touchLru_recent (fp : Z) (s : statistics) : recentSlow (touchLru fp s) = recentSlow s.
Proof. unfold touchLru. by case_match. Qed.

Lemma filter_absent (fp : Z) (l : list Z) : fp ∉ l -> filter (fun x => x <> fp) l = l.
Proof.
  induction l as [|x l IH]; [done|]. intros [? ?]%not_elem_of_cons. rewrite filter_cons_True by done. by rewrite IH.
Qed.

(** Touching puts the fingerprint in front, whether or not it was listed. *)
Lemma touchLru_lru (fp : Z) (s : statistics) :
  lruPos s = list_to_set (lru s) -> lru (touchLru fp s) = fp :: filter (fun x => x <> fp) (lru s).
Proof.
  intros E. unfold touchLru. case_bool_decide as H; [done|]. cbn. rewrite filter_absent; [done|].
  rewrite E in H. set_solver.
Qed.

Lemma touchLru_pos (fp : Z) (s : statistics) : lruPos (touchLru fp s) = {[fp]} ∪ lruPos s.
Proof. unfold touchLru. case_bool_decide; set_solver. Qed.

Lemma front_set (fp : Z) (l : list Z) :
  list_to_set (fp :: filter (fun x => x <> fp) l) =@{gset Z} {[fp]} ∪ list_to_set l.
Proof.
  apply set_eq. intros x. rewrite elem_of_list_to_set, elem_of_cons, list_elem_of_filter.
  rewrite elem_of_union, elem_of_singleton, elem_of_list_to_set. destruct (decide (x = fp)); naive_solver.
Qed.

Lemma front_NoDup (fp : Z) (l : list Z) : NoDup l -> NoDup (fp :: filter (fun x => x <> fp) l).
Proof. intros H. constructor; [rewrite list_elem_of_filter; naive_solver|]. by apply NoDup_filter. Qed.

Lemma evictLru_ok (s : statistics) :
  index_ok s ->
  index_ok (evictLru s) /\ slowStats (evictLru s) ⊆ slowStats s /\
  lru (evictLru s) = take (length (lru s) - 1) (lru s) /\ recentSlow (evictLru s) = recentSlow s /\
  size (slowStats (evictLru s)) = (size (slowStats s) - 1)%nat.
Proof.
  intros (Hnd & Hdom & Hpos). unfold evictLru.
  destruct (lru s) as [|fp l _] eqn:E using rev_ind.
  { cbn. unfold index_ok. rewrite E. split_and!; try done.
    rewrite <- size_dom, Hdom. done. }
  rewrite last_snoc, length_app, Nat.add_sub, take_app_length. cbn.
  apply NoDup_app in Hnd as (Hl & Hfp & _).
  assert (Hnin : fp ∉ l) by (intros ?; eapply Hfp; [done|set_solver]).
  assert (Hin : fp ∈ dom (slowStats s)) by (rewrite Hdom; set_solver).
  unfold index_ok; cbn. split_and!; try done.
  - rewrite dom_delete_L, Hdom, list_to_set_app_L. set_solver.
  - rewrite Hpos, list_to_set_app_L. set_solver.
  - apply delete_subseteq.
  - rewrite <- !size_dom, dom_delete_L, size_difference, size_singleton by set_solver. lia.
Qed.

(** ** Recording *)

Definition make_room (cfg : SlowSqlConfig) (key : Z) (s : statistics) : statistics :=
  match slowStats s !! key with
  | None => if size_of_int (sl_aggregate_capacity cfg) <=? Z.of_nat (size (slowStats s)) then evictLru s else s
  | Some _ => s
  end.

Lemma make_room_ok (cfg : SlowSqlConfig) (key : Z) (s : statistics) :
  index_ok s ->
  index_ok (make_room cfg key s) /\ slowStats (make_room cfg key s) ⊆ slowStats s /\
  recentSlow (make_room cfg key s) = recentSlow s /\ slowStats (make_room cfg key s) !! key = slowStats s !! key.
Proof.
  intros H. unfold make_room. destruct (slowStats s !! key) eqn:E; [done|]. case_match; [|done].
  destruct (evictLru_ok s H) as (? & Hs & _ & ? & _). split_and!; try done. by eapply lookup_weaken_None.
Qed.

Definition entry_after (cfg : SlowSqlConfig) (now : Z) (e : OperationEvent) (structure : str) (s : statistics)
    : SlowSqlStats :=
  add_event now e (default (new_stats cfg now e structure) (slowStats s !! ev_fingerprint e)).

Lemma record_slow_eq (cfg : SlowSqlConfig) (now : Z) (e : OperationEvent) (structure : str) (s : statistics) :
  index_ok s ->
  let m := make_room cfg (ev_fingerprint e) s in
  let n := entry_after cfg now e structure s in
  record_slow cfg now e structure s =
  mkStatistics (<[ev_fingerprint e := n]> (slowStats m))
    (push_recent (sl_recent_capacity cfg) (slow_record cfg now e (ss_sqlTemplate n)) (recentSlow s))
    (ev_fingerprint e :: filter (fun x => x <> ev_fingerprint e) (lru m)) ({[ev_fingerprint e]} ∪ lruPos m).
Proof.
  intros H m n. destruct (make_room_ok cfg (ev_fingerprint e) s H) as ((_ & _ & Hpos) & _ & Hr & Hk).
  fold m in Hpos, Hr, Hk.
  assert (E : match slowStats s !! ev_fingerprint e with
              | None => touchLru (ev_fingerprint e)
                          (if size_of_int (sl_aggregate_capacity cfg) <=? Z.of_nat (size (slowStats s))
                           then evictLru s else s)
              | Some _ => touchLru (ev_fingerprint e) s
              end = touchLru (ev_fingerprint e) m)
    by (unfold m, make_room; case_match; done).
  unfold record_slow. cbv zeta. rewrite E, touchLru_stats, touchLru_recent, touchLru_pos, touchLru_lru, Hr, Hk by done. done.
Qed.

#[local] Hint Resolve front_NoDup : core.

Lemma record_slow_index (cfg : SlowSqlConfig) (now : Z) (e : OperationEvent) (structure : str) (s : statistics) :
  index_ok s -> index_ok (record_slow cfg now e structure s).
Proof.
  intros Hi. rewrite record_slow_eq by done. cbv zeta.
  destruct (make_room_ok cfg (ev_fingerprint e) s Hi) as ((Hn & Hd & Hp) & _).
  split_and!; cbn [lru slowStats lruPos].
  - auto.
  - by rewrite dom_insert_L, front_set, Hd.
  - by rewrite front_set, Hp.
Qed.

Lemma record_slow_ok (cfg : SlowSqlConfig) (now : Z) (e : OperationEvent) (structure : str) (s : statistics) :
  stats_ok s -> stats_ok (record_slow cfg now e structure s).
Proof.
  intros [Hi He]. split; [by apply record_slow_index|]. rewrite record_slow_eq by done. cbv zeta. cbn [slowStats].
  destruct (make_room_ok cfg (ev_fingerprint e) s Hi) as (_ & Hs & _ & _).
  apply map_Forall_insert_2; [|by eapply map_Forall_submap].
  apply add_event_ok. destruct (slowStats s !! ev_fingerprint e) as [old|] eqn:E; cbn.
  - left. by apply He.
  - apply new_stats_pre.
Qed.

Lemma record_slow_size (cfg : SlowSqlConfig) (now : Z) (e : OperationEvent) (structure : str) (s : statistics) (M : Z) :
  index_ok s -> 1 <= sl_aggregate_capacity cfg <= M -> M < 2 ^ 31 -> Z.of_nat (size (slowStats s)) <= M ->
  Z.of_nat (size (slowStats (record_slow cfg now e structure s))) <= M.
Proof.
  intros Hi Hc HM Hs. rewrite record_slow_eq by done. cbv zeta. cbn [slowStats].
  assert (Hw : size_of_int (sl_aggregate_capacity cfg) = sl_aggregate_capacity cfg) by (apply size_of_int_small; lia).
  rewrite map_size_insert. unfold make_room. destruct (slowStats s !! ev_fingerprint e) eqn:E.
  - rewrite E. simpl. lia.
  - rewrite Hw. destruct (_ <=? _) eqn:C.
    + destruct (evictLru_ok s Hi) as (_ & Hsub & _ & _ & Hsz). rewrite (lookup_weaken_None _ _ _ E Hsub), Hsz. simpl. lia.
    + rewrite E. simpl. lia.
Qed.

Lemma push_recent_length (cap : Z) (r : SlowSqlRecord) (l : list SlowSqlRecord) (M : Z) :
  cap <= M -> M < 2 ^ 31 -> Z.of_nat (length l) <= M -> Z.of_nat (length (push_recent cap r l)) <= M.
Proof.
  intros Hc HM Hl. unfold push_recent. case_match eqn:C; [|done].
  replace (size_of_int cap) with cap by (rewrite size_of_int_small; lia).
  rewrite length_app. simpl. case_match eqn:D; [destruct l; simpl in *|]; lia.
Qed.

(** ** Reconfiguration *)

Lemma evict_to_ok (fuel : nat) (cap : Z) (s : statistics) :
  index_ok s ->
  index_ok (evict_to fuel cap s) /\ slowStats (evict_to fuel cap s) ⊆ slowStats s /\
  recentSlow (evict_to fuel cap s) = recentSlow s /\
  (0 <= cap -> (size (slowStats s) <= fuel)%nat -> Z.of_nat (size (slowStats (evict_to fuel cap s))) <= cap).
Proof.
  revert s. induction fuel as [|fuel IH]; intros s H; simpl; [split_and!; try done; lia|].
  case_match eqn:C; [|split_and!; try done; lia].
  destruct (evictLru_ok s H) as (He & Hs & _ & Hr & Hn).
  destruct (IH _ He) as (? & Hs' & Hr' & Hb). split_and!; try done.
  - by etrans.
  - by rewrite Hr'.
  - intros. apply Hb; lia.
Qed.

Lemma reconfigure_ok (cfg : SlowSqlConfig) (s : statistics) :
  stats_ok s ->
  stats_ok (reconfigure_stats cfg s) /\
  (1 <= sl_aggregate_capacity cfg -> Z.of_nat (size (slowStats (reconfigure_stats cfg s))) <= sl_aggregate_capacity cfg) /\
  (0 <= sl_recent_capacity cfg -> Z.of_nat (length (recentSlow (reconfigure_stats cfg s))) <= sl_recent_capacity cfg) /\
  (size (slowStats (reconfigure_stats cfg s)) <= size (slowStats s))%nat /\
  (length (recentSlow (reconfigure_stats cfg s)) <= length (recentSlow s))%nat /\
  map_Forall (fun _ e => ss_buckets e = sl_histogram_buckets_ms cfg) (slowStats (reconfigure_stats cfg s)).
Proof.
  intros [Hi He]. unfold reconfigure_stats.
  set (s1 := if existsb _ _ then _ else s).
  assert (H1 : index_ok s1 /\ slowStats s1 ⊆ slowStats s /\ recentSlow s1 = recentSlow s /\
               map_Forall (fun _ e => ss_buckets e = sl_histogram_buckets_ms cfg) (slowStats s1)).
  { unfold s1. case_match eqn:C.
    - split_and!; cbn; try done; [split_and!; cbn; [constructor|set_solver|done]|apply map_empty_subseteq].
    - split_and!; try done. intros k v Hk. destruct (decide (ss_buckets v = sl_histogram_buckets_ms cfg)); [done|].
      exfalso. assert (existsb (fun e => negb (bool_decide (ss_buckets e.2 = sl_histogram_buckets_ms cfg)))
        (map_to_list (slowStats s)) = true); [|congruence].
      apply existsb_exists. exists (k, v). split; [by apply list_elem_of_In, elem_of_map_to_list|].
      cbn. by rewrite bool_decide_false. }
  destruct H1 as (Hi1 & Hs1 & Hr1 & Hb1).
  destruct (evict_to_ok (size (slowStats s1)) (sl_aggregate_capacity cfg) s1 Hi1) as (Hi2 & Hs2 & Hr2 & Hb2).
  cbn [slowStats recentSlow lru lruPos]. rewrite Hr2, Hr1.
  split_and!; try (rewrite length_drop; lia).
  - split; [done|]. eapply map_Forall_submap; [done|]. by etrans.
  - intros. apply Hb2; lia.
  - apply map_subseteq_size. by etrans.
  - by eapply map_Forall_submap.
Qed.

(** ** Histories of calls *)

(** What threads do to the statistics, each with whatever snapshot it holds. *)
Inductive stats_call : Type :=
  | CallEmit (snap : Snapshot) (em : emitter) (now : Z) (e : OperationEvent) (sql : str)
      (renderer : option SqlRenderer) (transformed : bool)
  | CallConfigure (cfg : ObservabilityConfig)
  | CallClear.

Definition run_call (c : stats_call) (s : statistics) : statistics :=
  match c with
  | CallEmit snap em now e sql renderer transformed =>
      em_stats (emitSqlEnabled snap em now e sql renderer transformed s)
  | CallConfigure cfg => reconfigure_stats (slow_sql (normalized cfg)) s
  | CallClear => clearSlowSqlStats s
  end.

Definition run_calls (cs : list stats_call) (s : statistics) : statistics := foldl (fun s c => run_call c s) s cs.

(** The settings of the calls fit in [A] aggregates and [R] recent records. *)
Definition call_within (A R : Z) (c : stats_call) : Prop :=
  match c with
  | CallEmit snap _ _ _ _ _ _ =>
      1 <= sl_aggregate_capacity (slow_sql (config snap)) <= A /\ sl_recent_capacity (slow_sql (config snap)) <= R
  | CallConfigure _ | CallClear => True
  end.

Lemma emit_stats (snap : Snapshot) (em : emitter) (now : Z) (e : OperationEvent) (sql : str)
    (renderer : option SqlRenderer) (transformed : bool) (s : statistics) :
  em_stats (emitSqlEnabled snap em now e sql renderer transformed s) = s \/
  exists e' structure,
    em_stats (emitSqlEnabled snap em now e sql renderer transformed s) =
    record_slow (slow_sql (config snap)) now e' structure s.
Proof.
  unfold emitSqlEnabled. destruct (enrich em transformed e) as [e0 spans]. cbv zeta.
  match goal with |- context [match ?r with Some _ => mkEmitted _ _ _ _ | None => _ end] => destruct r; [|by left] end.
  cbn [em_stats]. destruct (is_slow (config snap) e0); [right; eauto|by left].
Qed.

Definition within (A R : Z) (s : statistics) : Prop :=
  Z.of_nat (size (slowStats s)) <= A /\ Z.of_nat (length (recentSlow s)) <= R.

Lemma no_statistics_ok : stats_ok no_statistics.
Proof. split; [split_and!; cbn; [constructor|set_solver|done]|apply map_Forall_empty]. Qed.

Lemma no_statistics_within (A R : Z) : 0 <= A -> 0 <= R -> within A R no_statistics.
Proof. intros. unfold within. cbn [slowStats recentSlow no_statistics]. rewrite map_size_empty. cbn. lia. Qed.

#[local] Hint Resolve record_slow_ok no_statistics_ok : core.

Lemma run_call_ok (c : stats_call) (s : statistics) : stats_ok s -> stats_ok (run_call c s).
Proof.
  intros H. destruct c as [snap em now e sql r t|cfg|]; cbn.
  - destruct (emit_stats snap em now e sql r t s) as [->|(e' & st & ->)]; auto.
  - by apply reconfigure_ok.
  - auto.
Qed.

Lemma run_call_within (A R : Z) (c : stats_call) (s : statistics) :
  0 <= A < 2 ^ 31 -> 0 <= R < 2 ^ 31 -> call_within A R c -> stats_ok s -> within A R s -> within A R (run_call c s).
Proof.
  intros HA HR Hc Hok [Hs Hr]. destruct c as [snap em now e sql r t|cfg|]; cbn [run_call call_within] in *.
  - destruct (emit_stats snap em now e sql r t s) as [->|(e' & st & ->)]; [done|]. split.
    + apply record_slow_size; try lia. apply Hok.
    + rewrite record_slow_eq by apply Hok. cbv zeta. cbn. apply push_recent_length; lia.
  - destruct (reconfigure_ok (slow_sql (normalized cfg)) s Hok) as (_ & _ & _ & ? & ? & _). split; lia.
  - apply no_statistics_within; lia.
Qed.

(** Whatever calls of [emitSql], [configure] and [clearSlowSqlStats] run, in any
    order and with any snapshots, stale ones included: the map of aggregates, the
    LRU list and its positions name the same fingerprints, each once; every
    aggregate's histogram has a cell per bucket and one more, its cells sum to its
    count, timeouts are errors and errors are counted, the total lies between
    count times the minimum and count times the maximum; and when every snapshot's
    capacities lie within [A] and [R] (after [configure] they are at least 1 and 0),
    at most [A] aggregates and [R] records are kept. *)
Theorem slow_stats_invariant (A R : Z) (cs : list stats_call) :
  0 <= A < 2 ^ 31 -> 0 <= R < 2 ^ 31 ->
  stats_ok (run_calls cs no_statistics) /\
  (Forall (call_within A R) cs -> within A R (run_calls cs no_statistics)).
Proof.
  intros HA HR. induction cs as [|c cs [IHok IHw]] using rev_ind.
  { split; [apply no_statistics_ok|intros _; apply no_statistics_within; lia]. }
  unfold run_calls in *. rewrite foldl_snoc. split; [by apply run_call_ok|].
  intros [Hcs Hc]%Forall_app. inversion_clear Hc. apply run_call_within; auto.
Qed.

(** ** The statistics as a bounded LRU of event histories *)

Record observation : Type := mkObs { ob_now : Z; ob_event : OperationEvent; ob_structure : str }.

Definition ob_fp (o : observation) : Z := ev_fingerprint (ob_event o).

Section refinement.
Context (cfg : SlowSqlConfig).
Hypothesis Hcap : 1 <= sl_aggregate_capacity cfg < 2 ^ 31.
Hypothesis Hrecent : 0 <= sl_recent_capacity cfg < 2 ^ 31.

Definition cap : nat := Z.to_nat (sl_aggregate_capacity cfg).

(** The aggregate of the events of one fingerprint, oldest first. *)
Definition summary (o : observation) (os : list observation) : SlowSqlStats :=
  foldl (fun s o => add_event (ob_now o) (ob_event o) s)
    (new_stats cfg (ob_now o) (ob_event o) (ob_structure o)) (o :: os).

(** The specification: fingerprints with their events, most recently seen first,
    and the log of all records. *)
Record lru_spec : Type := mkSpec { sp_entries : list (Z * (observation * list observation)); sp_log : list SlowSqlRecord }.

Fixpoint history (fp : Z) (l : list (Z * (observation * list observation))) : option (observation * list observation) :=
  match l with
  | [] => None
  | (k, h) :: l => if k =? fp then Some h else history fp l
  end.

Definition spec_record (o : observation) (sp : lru_spec) : lru_spec :=
  let fp := ob_fp o in
  let l := sp_entries sp in
  let '(h, rest) :=
    match history fp l with
    | Some (o0, os) => ((o0, os ++ [o]), filter (fun p => p.1 <> fp) l)
    | None => ((o, []), take (cap - 1) l)
    end in
  mkSpec ((fp, h) :: rest)
    (sp_log sp ++ [slow_record cfg (ob_now o) (ob_event o) (ss_sqlTemplate (summary h.1 h.2))]).

Definition last_n {A} (n : nat) (l : list A) : list A := drop (length l - n) l.

Definition represents (sp : lru_spec) (s : statistics) : Prop :=
  index_ok s /\ lru s = (sp_entries sp).*1 /\ (length (sp_entries sp) <= cap)%nat /\
  Forall (fun p => slowStats s !! p.1 = Some (summary p.2.1 p.2.2)) (sp_entries sp) /\
  recentSlow s = last_n (Z.to_nat (sl_recent_capacity cfg)) (sp_log sp).

Lemma summary_snoc (o0 o : observation) (os : list observation) :
  summary o0 (os ++ [o]) = add_event (ob_now o) (ob_event o) (summary o0 os).
Proof. unfold summary. rewrite app_comm_cons, foldl_snoc. done. Qed.

Lemma history_elem (fp : Z) (l : list (Z * (observation * list observation))) h :
  history fp l = Some h -> (fp, h) ∈ l.
Proof.
  induction l as [|[k h'] l IH]; [done|]. cbn. destruct (k =? fp) eqn:E.
  - intros [= ->]. apply Z.eqb_eq in E as ->. constructor.
  - intros. constructor. auto.
Qed.

Lemma history_none (fp : Z) (l : list (Z * (observation * list observation))) :
  history fp l = None <-> fp ∉ l.*1.
Proof.
  induction l as [|[k h'] l IH]; cbn; [set_solver|]. destruct (k =? fp) eqn:E.
  - apply Z.eqb_eq in E as ->. set_solver.
  - apply Z.eqb_neq in E. rewrite IH. set_solver.
Qed.

Lemma tail_drop {A} (l : list A) : tail l = drop 1 l.
Proof. by destruct l. Qed.

Lemma push_recent_last_n (r : SlowSqlRecord) (l : list SlowSqlRecord) :
  push_recent (sl_recent_capacity cfg) r (last_n (Z.to_nat (sl_recent_capacity cfg)) l) =
  last_n (Z.to_nat (sl_recent_capacity cfg)) (l ++ [r]).
Proof.
  unfold push_recent, last_n. rewrite size_of_int_small by lia. rewrite length_drop, length_app. cbn [length].
  destruct (0 <? sl_recent_capacity cfg) eqn:E.
  - destruct (_ <=? _) eqn:F.
    + rewrite tail_drop, drop_drop, drop_app_le by lia.
      do 2 f_equal. apply Z.leb_le in F. lia.
    + apply Z.leb_gt in F. rewrite drop_app_le by lia. do 2 f_equal. lia.
  - rewrite !drop_ge by (rewrite ?length_app; simpl; lia). done.
Qed.

Lemma filter_fst (fp : Z) (l : list (Z * (observation * list observation))) :
  (filter (fun p => p.1 <> fp) l).*1 = filter (fun x => x <> fp) l.*1.
Proof.
  induction l as [|[k h] l IH]; [done|]. rewrite fmap_cons. cbn [fst].
  destruct (decide (k <> fp)); [rewrite !filter_cons_True by done|rewrite !filter_cons_False by done];
    rewrite ?fmap_cons; by rewrite IH.
Qed.

Lemma index_size (s : statistics) : index_ok s -> size (slowStats s) = length (lru s).
Proof. intros (Hn & Hd & _). rewrite <- size_dom, Hd. by rewrite size_list_to_set. Qed.

Lemma represents_lookup (sp : lru_spec) (s : statistics) (fp : Z) :
  represents sp s -> slowStats s !! fp = (fun h => summary h.1 h.2) <$> history fp (sp_entries sp).
Proof.
  intros ((_ & Hdom & _) & Hl & _ & He & _). destruct (history fp (sp_entries sp)) as [h|] eqn:E.
  - apply history_elem in E. rewrite Forall_forall in He. apply (He _ E).
  - apply history_none in E. apply not_elem_of_dom. rewrite Hdom, Hl. set_solver.
Qed.

(** What is left of the entries when the event is new: the oldest goes when the
    table is full. *)
Lemma make_room_new (s : statistics) (fp : Z) :
  index_ok s -> (length (lru s) <= cap)%nat -> slowStats s !! fp = None ->
  lru (make_room cfg fp s) = take (cap - 1) (lru s).
Proof.
  intros Hi Hn E. pose proof (index_size s Hi) as Hsz. unfold make_room, cap in *. rewrite E.
  rewrite size_of_int_small by lia. destruct (_ <=? _) eqn:C.
  - apply Z.leb_le in C. destruct (evictLru_ok s Hi) as (_ & _ & -> & _). f_equal. lia.
  - apply Z.leb_gt in C. rewrite take_ge; [done|lia].
Qed.

(** The entries kept beside the event's. *)
Definition kept (fp : Z) (l : list (Z * (observation * list observation))) :=
  match history fp l with Some _ => filter (fun p => p.1 <> fp) l | None => take (cap - 1) l end.

Lemma kept_lru (sp : lru_spec) (s : statistics) (fp : Z) :
  represents sp s -> filter (fun x => x <> fp) (lru (make_room cfg fp s)) = (kept fp (sp_entries sp)).*1.
Proof.
  intros H. pose proof (represents_lookup sp s fp H) as E. destruct H as (Hi & Hl & Hn & _). unfold kept.
  destruct (history fp (sp_entries sp)) as [h|] eqn:D; cbn in E.
  - unfold make_room. by rewrite E, filter_fst, Hl.
  - rewrite make_room_new by (done || (rewrite Hl, length_fmap; done)).
    rewrite Hl, <- fmap_take, filter_absent; [done|].
    apply history_none in D. intros Hin. apply D. rewrite <- (take_drop (cap - 1) (sp_entries sp)), fmap_app.
    set_solver.
Qed.

Lemma kept_length (fp : Z) (l : list (Z * (observation * list observation))) :
  (length l <= cap)%nat -> (S (length (kept fp l)) <= cap)%nat.
Proof.
  intros H. assert (1 <= cap)%nat by (unfold cap; lia). unfold kept. destruct (history fp l) as [h|] eqn:E.
  - apply history_elem in E. pose proof (length_filter_lt (fun p => p.1 <> fp) l (fp, h) E) as L.
    specialize (L ltac:(cbn; naive_solver)). lia.
  - rewrite length_take. lia.
Qed.

(** Eviction removes only fingerprints that leave the LRU list. *)
Lemma make_room_lookup (s : statistics) (fp k : Z) :
  index_ok s -> k ∈ lru (make_room cfg fp s) -> slowStats (make_room cfg fp s) !! k = slowStats s !! k.
Proof.
  intros Hi Hk. destruct (make_room_ok cfg fp s Hi) as ((_ & Hd & _) & Hs & _ & _).
  assert (k ∈ dom (slowStats (make_room cfg fp s))) as [v Hv]%elem_of_dom by (rewrite Hd; set_solver).
  rewrite Hv. symmetry. by eapply lookup_weaken.
Qed.

Lemma kept_sub (fp : Z) (l : list (Z * (observation * list observation))) : kept fp l ⊆ l.
Proof.
  unfold kept. destruct (history fp l) as [h|].
  - intros p Hp%list_elem_of_filter. naive_solver.
  - rewrite <- (take_drop (cap - 1) l) at 2. set_solver.
Qed.

(** One event: the implementation follows the specification. *)
Lemma record_represents (o : observation) (sp : lru_spec) (s : statistics) :
  represents sp s -> represents (spec_record o sp) (record_slow cfg (ob_now o) (ob_event o) (ob_structure o) s).
Proof.
  intros H. pose proof (represents_lookup sp s (ob_fp o) H) as Hlook. pose proof (kept_lru sp s (ob_fp o) H) as Hkept.
  destruct H as (Hi & Hl & Hn & He & Hr).
  split; [by apply record_slow_index|]. rewrite record_slow_eq by done. cbv zeta.
  fold (ob_fp o). set (m := make_room cfg (ob_fp o) s) in *.
  set (h := match history (ob_fp o) (sp_entries sp) with Some (o0, os) => (o0, os ++ [o]) | None => (o, []) end).
  assert (Hsum : entry_after cfg (ob_now o) (ob_event o) (ob_structure o) s = summary h.1 h.2).
  { unfold entry_after. fold (ob_fp o). rewrite Hlook. unfold h.
    destruct (history (ob_fp o) (sp_entries sp)) as [[o0 os]|]; [symmetry; apply summary_snoc|done]. }
  assert (Hspec : spec_record o sp = mkSpec ((ob_fp o, h) :: kept (ob_fp o) (sp_entries sp))
            (sp_log sp ++ [slow_record cfg (ob_now o) (ob_event o) (ss_sqlTemplate (summary h.1 h.2))])).
  { unfold spec_record, kept, h. by destruct (history (ob_fp o) (sp_entries sp)) as [[o0 os]|]. }
  rewrite Hspec, Hsum. cbn [sp_entries sp_log lru slowStats recentSlow]. split_and!.
  - by rewrite fmap_cons, Hkept.
  - by apply kept_length.
  - constructor; [by rewrite lookup_insert_eq|]. apply Forall_forall. intros p Hp.
    assert (Hin : p.1 ∈ filter (fun x => x <> ob_fp o) (lru m)) by (rewrite Hkept; by apply list_elem_of_fmap_2).
    apply list_elem_of_filter in Hin as [Hne Hin]. rewrite lookup_insert_ne by done.
    unfold m in *. rewrite make_room_lookup by done.
    apply kept_sub in Hp. rewrite Forall_forall in He. by apply He.
  - rewrite Hr. apply push_recent_last_n.
Qed.

(** The fingerprints of the events, most recently seen first, each once. *)
Definition recency : list observation -> list Z :=
  foldl (fun acc o => ob_fp o :: filter (fun x => x <> ob_fp o) acc) [].

Lemma recency_NoDup (os : list observation) : NoDup (recency os).
Proof.
  unfold recency. induction os as [|o os IH] using rev_ind; [constructor|]. rewrite foldl_snoc. by apply front_NoDup.
Qed.

Lemma filter_take_absent (fp : Z) (n : nat) (l : list Z) :
  fp ∉ take (S n) l -> take n (filter (fun x => x <> fp) l) = take n (take (S n) l).
Proof.
  intros H. rewrite take_take, Nat.min_l by lia. rewrite <- (take_drop (S n) l) at 1.
  rewrite filter_app, (filter_absent fp (take (S n) l)) by done.
  destruct (decide (S n <= length l)%nat).
  - rewrite take_app_le by (rewrite length_take; lia). rewrite take_take, Nat.min_l by lia. done.
  - rewrite (drop_ge l), app_nil_r by lia. rewrite take_take. f_equal. lia.
Qed.

Lemma filter_take_present (fp : Z) (n : nat) (l : list Z) :
  NoDup l -> fp ∈ take (S n) l -> take n (filter (fun x => x <> fp) l) = filter (fun x => x <> fp) (take (S n) l).
Proof.
  intros Hnd Hin. apply list_elem_of_split in Hin as (a & b & E).
  assert (El : l = (a ++ fp :: b) ++ drop (S n) l) by (rewrite <- E; by rewrite take_drop).
  rewrite El in Hnd. apply NoDup_app in Hnd as (Hab & Hd & _).
  apply NoDup_app in Hab as (_ & Ha & [Hb _]%NoDup_cons).
  assert (Hfa : fp ∉ a) by (intros ?; eapply Ha; [done|set_solver]).
  assert (Hfd : fp ∉ drop (S n) l) by (apply Hd; set_solver).
  rewrite E. rewrite El at 1. rewrite !filter_app, filter_cons_False by tauto.
  rewrite (filter_absent fp a), (filter_absent fp b), (filter_absent fp (drop _ _)) by done.
  pose proof (f_equal length E) as L. rewrite length_take, length_app in L. cbn [length] in L.
  destruct (decide (S n <= length l)%nat).
  - apply take_app_length'. rewrite length_app. lia.
  - rewrite drop_ge, app_nil_r by lia. apply take_ge. rewrite length_app. lia.
Qed.

Definition spec_run (os : list observation) : lru_spec := foldl (fun sp o => spec_record o sp) (mkSpec [] []) os.

Definition record_all (os : list observation) (s : statistics) : statistics :=
  foldl (fun s o => record_slow cfg (ob_now o) (ob_event o) (ob_structure o) s) s os.

Lemma spec_run_entries (os : list observation) : (sp_entries (spec_run os)).*1 = take cap (recency os).
Proof.
  assert (Hc : exists n, cap = S n) by (exists (cap - 1)%nat; unfold cap; lia). destruct Hc as [n Hc].
  induction os as [|o os IH] using rev_ind; [by rewrite Hc|].
  unfold spec_run, recency in *. rewrite !foldl_snoc. fold (recency os) in *.
  set (sp := foldl _ _ os) in *. rewrite Hc. cbn [take]. unfold spec_record. rewrite Hc in IH.
  destruct (history (ob_fp o) (sp_entries sp)) as [[o0 os']|] eqn:E; cbn [sp_entries]; rewrite fmap_cons; cbn [fst]; f_equal.
  - rewrite filter_fst, IH. symmetry. apply filter_take_present; [apply recency_NoDup|].
    rewrite <- IH. apply history_elem in E. by apply (list_elem_of_fmap_2 fst) in E.
  - apply history_none in E. rewrite Hc, fmap_take, IH. rewrite filter_take_absent by (by rewrite <- IH).
    f_equal. lia.
Qed.

Lemma run_represents (os : list observation) : represents (spec_run os) (record_all os no_statistics).
Proof.
  induction os as [|o os IH] using rev_ind.
  - split; [apply no_statistics_ok|]. split_and!; cbn; try done; lia.
  - unfold spec_run, record_all in *. rewrite !foldl_snoc. by apply record_represents.
Qed.

Lemma summarise_exact (l : list observation) (s : SlowSqlStats) :
  let r := foldl (fun s o => add_event (ob_now o) (ob_event o) s) s l in
  ss_count r = ss_count s + Z.of_nat (length l) /\
  ss_total r = ss_total s + zsum (map (fun o => ev_duration (ob_event o)) l) /\
  ss_errorCount r =
    ss_errorCount s + Z.of_nat (length (List.filter (fun o => negb (status_ok (ev_status (ob_event o)))) l)) /\
  ss_firstSeen r = ss_firstSeen s /\
  (forall d, l <> [] -> ss_lastSeen r = ob_now (List.last l d)).
Proof.
  cbv zeta. revert s. induction l as [|x l IH]; intros s; [cbn; split_and!; try lia; done|].
  destruct (IH (add_event (ob_now x) (ob_event x) s)) as (H1 & H2 & H3 & H4 & H5).
  cbn [foldl length map zsum foldr List.filter]. rewrite H1, H2, H3, H4. fold zsum. split_and!.
  - cbn. lia.
  - cbn. lia.
  - cbn [ss_errorCount add_event]. destruct (status_ok _); cbn; lia.
  - done.
  - intros d _. destruct l as [|y l]; [done|]. rewrite (H5 d) by done. done.
Qed.

Lemma summary_exact (o : observation) (os : list observation) :
  let l := o :: os in
  ss_count (summary o os) = Z.of_nat (length l) /\
  ss_total (summary o os) = zsum (map (fun o => ev_duration (ob_event o)) l) /\
  ss_errorCount (summary o os) =
    Z.of_nat (length (List.filter (fun o => negb (status_ok (ev_status (ob_event o)))) l)) /\
  ss_firstSeen (summary o os) = ob_now o /\ ss_lastSeen (summary o os) = ob_now (List.last l o).
Proof.
  cbv zeta. unfold summary.
  destruct (summarise_exact (o :: os) (new_stats cfg (ob_now o) (ob_event o) (ob_structure o))) as (H1 & H2 & H3 & H4 & H5).
  rewrite H1, H2, H3, H4, (H5 o) by done. split_and!; done.
Qed.

Definition of_fp (fp : Z) (os : list observation) : list observation := List.filter (fun o => ob_fp o =? fp) os.

Lemma spec_run_suffix (os : list observation) :
  Forall (fun p => p.2.1 :: p.2.2 `suffix_of` of_fp p.1 os) (sp_entries (spec_run os)).
Proof.
  induction os as [|o os IH] using rev_ind; [constructor|].
  unfold spec_run in *. rewrite foldl_snoc. set (sp := foldl _ _ os) in *.
  assert (Hother : Forall (fun p => p.1 <> ob_fp o -> p.2.1 :: p.2.2 `suffix_of` of_fp p.1 (os ++ [o])) (sp_entries sp)).
  { eapply Forall_impl; [done|]. intros p Hp Hne. unfold of_fp in *. rewrite List.filter_app. cbn.
    destruct (Z.eqb_spec (ob_fp o) p.1); [congruence|]. by rewrite app_nil_r. }
  assert (Hone : forall l, l `suffix_of` of_fp (ob_fp o) os -> l ++ [o] `suffix_of` of_fp (ob_fp o) (os ++ [o])).
  { intros l [k Hl]. exists k. unfold of_fp in *. rewrite List.filter_app, Hl. cbn. by rewrite Z.eqb_refl, app_assoc. }
  unfold spec_record. destruct (history (ob_fp o) (sp_entries sp)) as [[o0 os']|] eqn:E;
    cbn [sp_entries]; constructor; cbn [fst snd].
  - apply (Hone (o0 :: os')). apply history_elem in E. rewrite Forall_forall in IH. apply (IH _ E).
  - apply Forall_forall. intros p [Hp Hin]%list_elem_of_filter. rewrite Forall_forall in Hother. by apply Hother.
  - apply (Hone []). apply suffix_nil.
  - apply Forall_forall. intros p Hp. rewrite Forall_forall in Hother.
    assert (Hin : p ∈ sp_entries sp) by (rewrite <- (take_drop (cap - 1) (sp_entries sp)); set_solver).
    apply Hother; [done|]. intros Hfp. apply history_none in E. apply E. rewrite <- Hfp. by apply list_elem_of_fmap_2.
Qed.

Lemma spec_log_fps (os : list observation) :
  map (fun r => (sr_fingerprint r, sr_duration r)) (sp_log (spec_run os)) =
  map (fun o => (ob_fp o, ev_duration (ob_event o))) os.
Proof.
  induction os as [|o os IH] using rev_ind; [done|]. unfold spec_run in *. rewrite foldl_snoc.
  unfold spec_record at 1. destruct (match history _ _ with Some _ => _ | None => _ end) as [h rest].
  cbn [sp_log]. by rewrite !map_app, IH.
Qed.

End refinement.

(** C21. With one configuration, the statistics refine a bounded LRU of histories.
    After any events, the aggregates are those of the [cap] most recently seen
    distinct fingerprints, in that order in the LRU list; each is the summary
    (count, total, first and last time) of a run of the latest events with
    its fingerprint, those since it last entered the table; the recent list is the
    last [sl_recent_capacity] of one record per event, and [recentSlowSql] gives it
    newest first. *)
Theorem slow_sql_refines_lru (cfg : SlowSqlConfig) (os : list observation) :
  1 <= sl_aggregate_capacity cfg < 2 ^ 31 -> 0 <= sl_recent_capacity cfg < 2 ^ 31 ->
  let s := record_all cfg os no_statistics in
  let sp := spec_run cfg os in
  lru s = take (Z.to_nat (sl_aggregate_capacity cfg)) (recency os) /\
  (forall fp, slowStats s !! fp = (fun h => summary cfg h.1 h.2) <$> history fp (sp_entries sp)) /\
  (forall fp o os', history fp (sp_entries sp) = Some (o, os') ->
     o :: os' `suffix_of` of_fp fp os /\
     ss_count (summary cfg o os') = Z.of_nat (length (o :: os')) /\
     ss_total (summary cfg o os') = zsum (map (fun o => ev_duration (ob_event o)) (o :: os')) /\
     ss_firstSeen (summary cfg o os') = ob_now o /\ ss_lastSeen (summary cfg o os') = ob_now (List.last (o :: os') o)) /\
  map (fun r => (sr_fingerprint r, sr_duration r)) (sp_log sp) = map (fun o => (ob_fp o, ev_duration (ob_event o))) os /\
  (forall limit, recentSlowSql limit [] s =
     take limit (rev (last_n (Z.to_nat (sl_recent_capacity cfg)) (sp_log sp)))).
Proof.
  intros Hc Hr s sp. pose proof (run_represents cfg Hc Hr os) as H. fold s sp in H. split_and!.
  - destruct H as (_ & -> & _). by apply spec_run_entries.
  - intros fp. by apply represents_lookup.
  - intros fp o os' Hh. apply history_elem in Hh. pose proof (spec_run_suffix cfg Hc Hr os) as Hs.
    rewrite Forall_forall in Hs. specialize (Hs _ Hh). cbn in Hs.
    destruct (summary_exact cfg o os') as (H1 & H2 & _ & H4 & H5). done.
  - apply spec_log_fps.
  - intros limit. unfold recentSlowSql. destruct H as (_ & _ & _ & _ & ->). f_equal.
    generalize (rev (last_n (Z.to_nat (sl_recent_capacity cfg)) (sp_log sp))). intros l.
    induction l as [|x l IH]; [done|]. cbn. cbn in IH. by rewrite IH.
Qed.

(** ** The settings' version protocol *)

(** A system of threads: the state, the settings after each locked write (the
    first is the initial one), the writes whose version bump is still to come, the
    writes whose bump was done, in order, and the readers. *)
Record reader : Type := mkReader {
  rd_cache : tls;
  rd_loaded : option (Z * list nat)  (* the version loaded; the bumps done then *)
}.

Record system : Type := mkSystem {
  sy_state : StateData;
  sy_history : list Snapshot;
  sy_pending : list nat;
  sy_bumped : list nat;
  sy_readers : gmap nat reader
}.

Definition with_readers (s : system) (rs : gmap nat reader) : system :=
  mkSystem (sy_state s) (sy_history s) (sy_pending s) (sy_bumped s) rs.

(** One step; a reader that finishes returns its snapshot, with the bumps that
    were done when its call loaded the version. *)
Inductive step : system -> option (Snapshot * list nat) -> system -> Prop :=
  | StepWrite (s : system) (op : setting_op) (d : StateData) :
      locked op (sy_state s) = (d, true) ->
      step s None (mkSystem d (sy_history s ++ [settings d]) (length (sy_history s) :: sy_pending s) (sy_bumped s)
                     (sy_readers s))
  | StepNoWrite (s : system) (op : setting_op) (d : StateData) :
      locked op (sy_state s) = (d, false) -> step s None s
  | StepBump (s : system) (k : nat) (before after : list nat) :
      sy_pending s = before ++ k :: after ->
      step s None (mkSystem (bump (sy_state s)) (sy_history s) (before ++ after) (sy_bumped s ++ [k]) (sy_readers s))
  | StepStats (s : system) (f : statistics -> statistics) :
      step s None (mkSystem (with_stats (f (stats (sy_state s))) (sy_state s)) (sy_history s) (sy_pending s)
                     (sy_bumped s) (sy_readers s))
  | StepLoad (s : system) (t : nat) (c : tls) :
      sy_readers s !! t = Some (mkReader c None) ->
      step s None (with_readers s (<[t := mkReader c (Some (stateVersion (sy_state s), sy_bumped s))]> (sy_readers s)))
  | StepReturn (s : system) (t : nat) (c : tls) (v : Z) (seen : list nat) :
      sy_readers s !! t = Some (mkReader c (Some (v, seen))) ->
      let c' := if snapshot_fresh (sy_state s) v c then c else snapshot_refresh (sy_state s) in
      step s (Some (tlsSnapshot c', seen)) (with_readers s (<[t := mkReader c' None]> (sy_readers s))).

Inductive reachable (s0 : system) : system -> Prop :=
  | ReachInit : reachable s0 s0
  | ReachStep (s s' : system) (r : option (Snapshot * list nat)) : reachable s0 s -> step s r s' -> reachable s0 s'.

(** The initial state: version 1, and threads that have cached nothing of this
    state (an identity of another state, or 0). *)
Definition initial (d : StateData) (readers : gmap nat reader) : Prop :=
  stateVersion d = 1 /\
  map_Forall (fun _ r => tlsIdentity (rd_cache r) <> identity d /\ rd_loaded r = None) readers.

Definition start (d : StateData) (readers : gmap nat reader) : system := mkSystem d [settings d] [] [] readers.

(** A cached snapshot of this state is that of some write no older than the bumps
    its version counts. *)
Definition cache_ok (s : system) (c : tls) : Prop :=
  tlsIdentity c = identity (sy_state s) ->
  exists (n k : nat), tlsVersion c = Z.of_nat n + 1 /\ (n <= length (sy_bumped s))%nat /\
    sy_history s !! k = Some (tlsSnapshot c) /\ Forall (fun j => j <= k)%nat (take n (sy_bumped s)).

Definition reader_ok (s : system) (r : reader) : Prop :=
  cache_ok s (rd_cache r) /\
  match rd_loaded r with
  | None => True
  | Some (v, seen) => v = Z.of_nat (length seen) + 1 /\ seen `prefix_of` sy_bumped s
  end.

Definition system_ok (s : system) : Prop :=
  stateVersion (sy_state s) = Z.of_nat (length (sy_bumped s)) + 1 /\
  last (sy_history s) = Some (settings (sy_state s)) /\
  Forall (fun k => k < length (sy_history s))%nat (sy_pending s ++ sy_bumped s) /\
  map_Forall (fun _ => reader_ok s) (sy_readers s).

Lemma locked_frame (op : setting_op) (d d' : StateData) (b : bool) :
  locked op d = (d', b) ->
  identity d' = identity d /\ stateVersion d' = stateVersion d /\ stats d' = stats d /\ (b = false -> d' = d).
Proof.
  unfold locked. destruct (settings d). destruct op; try case_match; intros [= <- <-]; cbn; split_and!; done.
Qed.

(** History and bumps only grow, so what a reader holds stays right. *)
Lemma reader_ok_mono (s s' : system) (r : reader) :
  identity (sy_state s') = identity (sy_state s) -> sy_history s `prefix_of` sy_history s' ->
  sy_bumped s `prefix_of` sy_bumped s' -> reader_ok s r -> reader_ok s' r.
Proof.
  intros Hid Hh Hb [Hc Hl]. split.
  - intros E. rewrite Hid in E. destruct (Hc E) as (n & k & Hv & Hn & Hk & Hf). exists n, k. split_and!; [done|..].
    + apply prefix_length in Hb. lia.
    + by eapply prefix_lookup_Some.
    + destruct Hb as [z ->]. by rewrite take_app_le.
  - destruct (rd_loaded r) as [[v seen]|]; [|done]. destruct Hl. split; [done|]. by etrans.
Qed.

Lemma refresh_ok (s : system) : system_ok s -> cache_ok s (snapshot_refresh (sy_state s)).
Proof.
  intros (Hv & Hh & Hf & _) _. exists (length (sy_bumped s)), (length (sy_history s) - 1)%nat.
  cbn. split_and!; [done|lia| |].
  - rewrite last_lookup in Hh. rewrite <- Hh. f_equal. lia.
  - rewrite take_ge by lia. apply Forall_app in Hf as [_ Hf]. eapply Forall_impl; [done|]. cbn. lia.
Qed.

Definition returned_cache (s : system) (v : Z) (c : tls) : tls :=
  if snapshot_fresh (sy_state s) v c then c else snapshot_refresh (sy_state s).

Lemma returned_ok (s : system) (c : tls) (v : Z) (seen : list nat) :
  system_ok s -> reader_ok s (mkReader c (Some (v, seen))) ->
  cache_ok s (returned_cache s v c) /\
  exists k, sy_history s !! k = Some (tlsSnapshot (returned_cache s v c)) /\ Forall (fun j => j <= k)%nat seen.
Proof.
  intros Hs [Hc (Hv & Hp)]. unfold returned_cache, snapshot_fresh. cbn in Hc.
  destruct (_ && _) eqn:E.
  - apply andb_true_iff in E as [E1%Z.eqb_eq E2%Z.eqb_eq]. split; [done|].
    destruct (Hc E1) as (n & k & Hn & _ & Hk & Hf). exists k. split; [done|].
    assert (n = length seen) by lia. subst n. destruct Hp as [z Hz]. rewrite Hz, take_app_length in Hf. done.
  - pose proof (refresh_ok s Hs) as Hr. split; [done|].
    destruct (Hr eq_refl) as (n & k & Hn & _ & Hk & Hf). exists k. split; [done|].
    destruct Hs as (Hver & _). cbn in Hn. assert (n = length (sy_bumped s)) by lia. subst n.
    rewrite take_ge in Hf by lia. destruct Hp as [z Hz]. rewrite Hz in Hf. by apply Forall_app in Hf as [? _].
Qed.

Definition bumps_fit (s : system) : Prop := Z.of_nat (length (sy_bumped s)) < uint64_mod - 1.

Lemma step_ok (s s' : system) (r : option (Snapshot * list nat)) :
  system_ok s -> bumps_fit s' -> step s r s' -> system_ok s'.
Proof.
  intros Hs Hfit Hstep. pose proof Hs as (Hv & Hh & Hf & Hr).
  assert (Hreaders : forall rs : gmap nat reader, identity (sy_state s') = identity (sy_state s) -> sy_history s `prefix_of` sy_history s' ->
            sy_bumped s `prefix_of` sy_bumped s' -> map_Forall (fun _ => reader_ok s) rs -> map_Forall (fun _ => reader_ok s') rs).
  { intros rs ? ? ? H k x Hk. eapply reader_ok_mono; eauto. }
  destruct Hstep as [s op d E|s op d E|s k a b E|s f|s t c E|s t c v seen E c'].
  - destruct (locked_frame _ _ _ _ E) as (Hid & Hver & _). split_and!; cbn.
    + by rewrite Hver.
    + by rewrite last_snoc.
    + rewrite length_app. cbn. constructor; [lia|]. eapply Forall_impl; [done|]. cbn. lia.
    + apply Hreaders; cbn; try done. by eexists.
  - done.
  - unfold bumps_fit in Hfit. cbn in Hfit. rewrite length_app in Hfit. cbn in Hfit. split_and!; cbn.
    + rewrite length_app. cbn. rewrite Hv. unfold wrap_u64. rewrite Z.mod_small by lia. lia.
    + done.
    + rewrite E in Hf. rewrite !Forall_app, Forall_cons in *. naive_solver.
    + apply Hreaders; cbn; try done. by eexists.
  - split_and!; cbn; done.
  - split_and!; cbn; try done. apply map_Forall_insert_2; [|by apply Hreaders].
    destruct (Hr t _ E) as [Hc _]. split; [done|]. cbn. done.
  - split_and!; cbn; try done. apply map_Forall_insert_2; [|by apply Hreaders].
    split; [|done]. destruct (returned_ok s c v seen Hs (Hr t _ E)) as [Hc _]. done.
Qed.

Lemma step_bumped (s s' : system) (r : option (Snapshot * list nat)) : step s r s' -> bumps_fit s' -> bumps_fit s.
Proof.
  unfold bumps_fit. intros Hs. destruct Hs; cbn; try done. rewrite length_app. cbn. lia.
Qed.

Lemma reachable_ok (d : StateData) (readers : gmap nat reader) (s : system) :
  initial d readers -> reachable (start d readers) s -> bumps_fit s -> system_ok s.
Proof.
  intros [Hv Hr] Hreach. induction Hreach as [|s s' r Hreach IH Hstep]; intros Hfit.
  - split_and!; cbn; try done. intros k x Hk. destruct (Hr k x Hk) as [Hne Hl].
    split; [intros E; done|]. by rewrite Hl.
  - eapply step_ok; eauto using step_bumped.
Qed.

(** C33. The snapshot a thread works with is never older than a setting whose call
    has bumped the version: in every interleaving of writers (each a locked write,
    then a bump) and readers (a load of the version, then the cache or a refresh
    under the lock), a read returns the settings as some write left them, and that
    write is not older than any whose bump was done when the read began.  The
    version is a 64-bit counter; fewer than 2^64 - 1 changes are assumed. *)
Theorem snapshot_never_stale (d : StateData) (readers : gmap nat reader) (s s' : system) (snap : Snapshot)
    (seen : list nat) :
  initial d readers -> reachable (start d readers) s -> bumps_fit s -> step s (Some (snap, seen)) s' ->
  exists k, sy_history s !! k = Some snap /\ Forall (fun j => j <= k)%nat seen.
Proof.
  intros Hi Hreach Hfit Hstep. pose proof (reachable_ok d readers s Hi Hreach Hfit) as Hok.
  inversion Hstep as [| | | | |? t c v seen' E c' Es [Esn Esd] Es']; subst.
  pose proof Hok as (_ & _ & _ & Hr). apply (returned_ok s c v seen Hok (Hr t _ E)).
Qed.

(** ** Samples *)

Definition sample_log : SqlLogConfig :=
  mkLogConfig false ($"template") ($"debug") true true false (double 1) 4096 256 false false.

Definition sample_slow : SlowSqlConfig := mkSlowConfig true 100 2 2 false 4096 [10; 100].

Definition sample_config : ObservabilityConfig := mkObsConfig sample_log sample_slow.

Definition sample_snapshot : Snapshot := mkSnapshot sample_config None None None.

Definition sample_state : StateData := mkState 7 sample_snapshot 0 1 true no_statistics.

Definition sample_event (d : Z) (code : ErrorCode) : OperationEvent :=
  mkEvent ($"main") OQuery d (status_error code []) 0 [] [] 0 [] [] false false false 1 (-1) 0 0.

Definition sample_emit (now d : Z) (code : ErrorCode) (sql : str) : stats_call :=
  CallEmit sample_snapshot (mkEmitter [] 0 0) now (sample_event d code) sql None false.

(** Three slow statements, the first two of one structure: two aggregates, the
    elder with both events. *)
Definition sample_calls : list stats_call :=
  [sample_emit 1 150000 Ok ($"select 1"); sample_emit 2 250000 QueryTimeout ($"select 2");
   sample_emit 3 99000 Ok ($"select 3"); sample_emit 4 120000 Ok ($"delete from t")].

Example sample_calls_run :
  let s := run_calls sample_calls no_statistics in
  map (fun fp => (fun e => (ss_sqlTemplate e, ss_count e, ss_timeoutCount e, ss_total e, ss_histogram e))
                 <$> (slowStats s !! fp)) (lru s) =
  [Some ($"delete from t", 1, 0, 120000, [0; 0; 1]); Some ($"select ?", 2, 1, 400000, [0; 0; 2])] /\
  map sr_timestamp (recentSlowSql 10 [] s) = [4; 2].
Proof. split; vm_compute; reflexivity. Qed.

Lemma slow_stats_invariant_witness :
  stats_ok (run_calls sample_calls no_statistics) /\ within 2 2 (run_calls sample_calls no_statistics).
Proof.
  assert (H : Forall (call_within 2 2) sample_calls) by (repeat constructor; cbn; lia).
  destruct (slow_stats_invariant 2 2 sample_calls ltac:(lia) ltac:(lia)) as [H1 H2]. split; [exact H1|exact (H2 H)].
Defined.

Definition sample_observation (now fp d : Z) : observation :=
  mkObs now (set_texts fp true [] [] (sample_event d Ok)) ($"select ?").

Definition sample_observations : list observation :=
  [sample_observation 1 5 150000; sample_observation 2 6 160000; sample_observation 3 5 170000;
   sample_observation 4 8 180000].

Lemma slow_sql_refines_lru_witness :
  1 <= sl_aggregate_capacity sample_slow < 2 ^ 31 /\
  lru (record_all sample_slow sample_observations no_statistics) = [8; 5] /\
  ss_total <$> (slowStats (record_all sample_slow sample_observations no_statistics) !! 5) = Some 320000.
Proof.
  destruct (slow_sql_refines_lru sample_slow sample_observations ltac:(cbn; lia) ltac:(cbn; lia)) as (H1 & H2 & _).
  split; [cbn; lia|]. split.
  - rewrite H1. vm_compute. reflexivity.
  - rewrite (H2 5). vm_compute. reflexivity.
Defined.

Definition empty_tls : tls := mkTls 0 0 sample_snapshot.

Definition sample_readers : gmap nat reader := {[0%nat := mkReader empty_tls None]}.

(** A writer sets an observer and bumps; then the reader loads and returns. *)
Definition sample_written : system :=
  mkSystem (bump (locked (SetObserver (Some 3)) sample_state).1)
    [sample_snapshot; mkSnapshot sample_config (Some 3) None None] [] [1%nat] sample_readers.

Definition sample_loaded : system :=
  with_readers sample_written {[0%nat := mkReader empty_tls (Some (2, [1%nat]))]}.

Lemma sample_reachable : reachable (start sample_state sample_readers) sample_loaded.
Proof.
  eapply ReachStep; [eapply ReachStep; [eapply ReachStep; [apply ReachInit|]|]|].
  - apply (StepWrite _ (SetObserver (Some 3))). vm_compute. reflexivity.
  - apply (StepBump _ 1%nat [] []). vm_compute. reflexivity.
  - apply (StepLoad sample_written 0%nat empty_tls). vm_compute. reflexivity.
Qed.

Lemma snapshot_never_stale_witness :
  initial sample_state sample_readers /\
  exists k, sy_history sample_loaded !! k = Some (mkSnapshot sample_config (Some 3) None None) /\
            Forall (fun j => j <= k)%nat [1%nat].
Proof.
  assert (Hi : initial sample_state sample_readers).
  { split; [reflexivity|]. apply map_Forall_singleton. cbn. split; [lia|reflexivity]. }
  split; [exact Hi|].
  eapply (snapshot_never_stale sample_state sample_readers sample_loaded _ _ [1%nat] Hi sample_reachable).
  - vm_compute. reflexivity.
  - apply (StepReturn sample_loaded 0%nat empty_tls 2 [1%nat]). vm_compute. reflexivity.
Defined.

End Observer.
