(* ===== verification/AsyncEngine.v ===== *)
(** * The asynchronous engine

    src/async/async_engine.cpp.  A statement is a chain of callbacks: a task for the
    executor, the pool's answer, the driver's answer or the timer, and the
    completion.  [queryOne] and [executeOne] are one attempt up to the point where the
    driver has taken the statement; what the components it calls answer (gate, cache,
    pool, interceptors, driver, operation) is the record [attempt_env], every answer
    of which is possible.  What it does to the rest is the trace of [action]s, in
    order; the circuit breaker is [Resilience]'s.  The native query, where driver and
    timer race, is a transition system over the atomic flags and the handle's mutex.
    The retry loops and the group routing are folded over attempts. *)

From S2P Require Import Prelude Types Context Pagination Resilience DataSource.

Module AsyncEngine.
#[local] Open Scope Z_scope.

(** ** Results, hooks and actions *)

Record ExecResult : Type := mkExecResult { ex_status : Status; ex_affected : Z; ex_mode : ExecutionMode }.

Inductive ExecutionPhase : Type :=
  | PhQueue | PhPoolWait | PhNative | PhFallback | PhRetry | PhReplicaFallback | PhRejected | PhCancel | PhCacheHit.

Inductive hook : Type :=
  | OnRoute
  | BeforeExecution (verdict : Status)
  | AfterExecution (s : Status)
  | OnCompletion (s : Status).

Inductive action (R : Type) : Type :=
  | Gate (s : Status)                  (* preGate *)
  | Admit (s : Status)                 (* beforeAttempt *)
  | Report (s : Status)                (* afterAttempt *)
  | Hook (h : hook)
  | Phase (p : ExecutionPhase)
  | Borrow                             (* a connection is held *)
  | Start                              (* the driver took the statement *)
  | Invalidate                         (* the connection is marked broken *)
  | GiveBack                           (* the handle is destroyed *)
  | CancelConnection                   (* cancel() on the held connection *)
  | Store                              (* cacheStore *)
  | MarkWrite
  | Emit (s : Status)                  (* the event of the statement *)
  | Complete (r : R).                  (* the completion is called *)
Arguments Gate {R}. Arguments Admit {R}. Arguments Report {R}. Arguments Hook {R}. Arguments Phase {R}.
Arguments Borrow {R}. Arguments Start {R}. Arguments Invalidate {R}. Arguments GiveBack {R}.
Arguments CancelConnection {R}. Arguments Store {R}. Arguments MarkWrite {R}. Arguments Emit {R}. Arguments Complete {R}.

Definition is_complete {R} (a : action R) : bool := match a with Complete _ => true | _ => false end.
Definition is_admission {R} (a : action R) : bool := match a with Admit s => status_ok s | _ => false end.
Definition is_report {R} (a : action R) : bool := match a with Report _ => true | _ => false end.
Definition is_borrow {R} (a : action R) : bool := match a with Borrow => true | _ => false end.
Definition is_giveback {R} (a : action R) : bool := match a with GiveBack => true | _ => false end.
Definition is_cancel {R} (a : action R) : bool := match a with CancelConnection => true | _ => false end.
Definition is_asked {R} (a : action R) : bool := match a with Hook (BeforeExecution _) => true | _ => false end.
Definition is_told {R} (a : action R) : bool := match a with Hook (OnCompletion _) => true | _ => false end.

Definition count {R} (f : action R -> bool) (t : list (action R)) : nat := length (List.filter f t).

(** ** One attempt *)

(** The answers an attempt gets.  A status of the operation is OK when the context
    has none. *)
Record attempt_env (T : Type) : Type := mkEnv {
  av_posted : bool;                (* the executor takes the task *)
  av_gate : Status;                (* preGate *)
  av_hit : option ResultSet;       (* cacheLookup *)
  av_key : bool;                   (* cacheLookup gives a key *)
  av_admit : Status * Z;           (* the operation's status and the clock in beforeAttempt *)
  av_borrow : option (Status * bool);  (* borrowAsync: its status, whether there is a handle; [None] when it never calls back *)
  av_waited : Status;              (* the operation's status after the wait *)
  av_native : bool;                (* asyncCapability is Native *)
  av_before : Status;              (* the interceptors' verdict before a native statement *)
  av_started : bool;               (* the driver takes the statement *)
  av_allowed : bool;               (* fallbackAllowed *)
  av_before2 : Status;             (* their verdict in the session *)
  av_session : Status * T;         (* what the session's statement gives *)
  av_report : Status * Z           (* the operation's status and the clock in afterAttempt *)
}.
Arguments mkEnv {T}. Arguments av_posted {T}. Arguments av_gate {T}. Arguments av_hit {T}. Arguments av_key {T}.
Arguments av_admit {T}. Arguments av_borrow {T}. Arguments av_waited {T}. Arguments av_native {T}.
Arguments av_before {T}. Arguments av_started {T}. Arguments av_allowed {T}. Arguments av_before2 {T}.
Arguments av_session {T}. Arguments av_report {T}.

(** The end of the sequential part: completed, or the driver has the statement. *)
Record attempt_end (R : Type) : Type := mkEnd { ae_trace : list (action R); ae_breaker : Breaker; ae_native : bool }.
Arguments mkEnd {R}. Arguments ae_trace {R}. Arguments ae_breaker {R}. Arguments ae_native {R}.

Definition overloaded : Status :=
  set_retryable true (status_error Overloaded ($"client async executor queue is full or stopped")).

Definition needs_native : Status := status_error NotSupported ($"operation requires native async execution").

Section attempt.
Context (bc : CircuitBreakerConfig) (name : str).

Definition fallback_result (s : Status) (rows : ResultSet) : AsyncQueryResult := mkAsyncResult s rows CompatibilityFallback.
Definition fallback_exec (s : Status) (affected : Z) : ExecResult := mkExecResult s affected CompatibilityFallback.

(** A session's statement runs the interceptors itself. *)
Definition session_hooked {T R} (v : attempt_env T) (none : T) : list (action R) * (Status * T) :=
  if status_ok (av_before2 v)
  then ([Hook OnRoute; Hook (BeforeExecution (av_before2 v)); Emit (av_session v).1;
         Hook (AfterExecution (av_session v).1); Hook (OnCompletion (av_session v).1)], av_session v)
  else ([Hook OnRoute; Hook (BeforeExecution (av_before2 v)); Hook (OnCompletion (av_before2 v))],
        (av_before2 v, none)).

(** The part of [queryOne] under a session, when the statement is not native. *)
Definition query_session (runInterceptors : bool) (v : attempt_env ResultSet) (b : Breaker)
    : list (action AsyncQueryResult) * Breaker :=
  let after st := afterAttempt bc st (av_report v).1 (av_report v).2 b in
  let store (st : Status) := if status_ok st && av_key v then [Store] else [] in
  let '(st, rows) := av_session v in
  if negb runInterceptors then
    ([Emit st; Report st] ++ store st ++ [Complete (fallback_result st rows); GiveBack], after st)
  else if av_key v then
    let before := av_before2 v in
    if negb (status_ok before) then
      ([Hook OnRoute; Hook (BeforeExecution before); Report before; Hook (OnCompletion before);
        Complete (fallback_result before rs_empty); GiveBack], after before)
    else
      ([Hook OnRoute; Hook (BeforeExecution before); Emit st; Report st] ++ store st ++
       [Hook (AfterExecution st); Hook (OnCompletion st); Complete (fallback_result st rows); GiveBack], after st)
  else
    let '(hooks, (st, rows)) := session_hooked v rs_empty in
    (hooks ++ [Report st; Complete (fallback_result st rows); GiveBack], after st).

(** The pool's answer in [queryOne]; a pool that never calls back leaves the attempt
    where it is. *)
Definition query_borrowed (runInterceptors : bool) (v : attempt_env ResultSet) (b : Breaker) : attempt_end AsyncQueryResult :=
  match av_borrow v with
  | None => mkEnd [] b false
  | Some (st, handle) =>
      let held := if handle then [Borrow] else [] in
      let back := if handle then [GiveBack] else [] in
      let after st := afterAttempt bc st (av_report v).1 (av_report v).2 b in
      if negb (status_ok (av_waited v)) then
        mkEnd (held ++ [Complete (fallback_result (av_waited v) rs_empty)] ++ back) b false
      else if negb (status_ok st) || negb handle then
        mkEnd (held ++ [Phase PhPoolWait; Report st; Complete (fallback_result st rs_empty)] ++ back) (after st) false
      else
        let before := if runInterceptors then av_before v else status_OK in
        let hooks : list (action AsyncQueryResult) :=
          if runInterceptors then [Hook OnRoute; Hook (BeforeExecution (av_before v))] else [] in
        if av_native v && negb (status_ok before) then
          mkEnd ([Borrow; Phase PhPoolWait] ++ hooks ++
                 [Report before; Hook (OnCompletion before); Complete (fallback_result before rs_empty); GiveBack])
            (after before) false
        else if av_native v && av_started v then
          mkEnd ([Borrow; Phase PhPoolWait] ++ hooks ++ [Start; Phase PhNative]) b true
        else
          let pre := [Borrow; Phase PhPoolWait] ++ (if av_native v then hooks else []) ++ [Phase PhFallback] in
          if negb (av_allowed v) then
            mkEnd (pre ++ [Complete (fallback_result needs_native rs_empty); GiveBack]) b false
          else let '(t, b) := query_session runInterceptors v b in mkEnd (pre ++ t) b false
  end.

(** A cache hit with interceptors. *)
Definition query_hit (runInterceptors : bool) (v : attempt_env ResultSet) (rows : ResultSet) : list (action AsyncQueryResult) :=
  if negb runInterceptors then [Complete (fallback_result status_OK rows)]
  else
    let before := av_before v in
    [Hook OnRoute; Hook (BeforeExecution before)] ++
    (if status_ok before then [Hook (AfterExecution status_OK)] else []) ++
    [Hook (OnCompletion before);
     Complete (fallback_result before (if status_ok before then rows else rs_empty))].

Definition queryOne (applyPreGate runInterceptors : bool) (v : attempt_env ResultSet) (b : Breaker)
    : attempt_end AsyncQueryResult :=
  if negb (av_posted v) then mkEnd [Phase PhRejected; Complete (fallback_result overloaded rs_empty)] b false
  else
    let gate := if applyPreGate then [Gate (av_gate v)] else [] in
    if applyPreGate && negb (status_ok (av_gate v)) then
      mkEnd ([Phase PhQueue] ++ gate ++ [Complete (fallback_result (av_gate v) rs_empty)]) b false
    else
      match av_hit v with
      | Some rows => mkEnd ([Phase PhQueue] ++ gate ++ [Phase PhCacheHit] ++ query_hit runInterceptors v rows) b false
      | None =>
          let '(st, b) := beforeAttempt bc name (av_admit v).1 (av_admit v).2 b in
          if negb (status_ok st) then
            mkEnd ([Phase PhQueue] ++ gate ++ [Admit st; Complete (fallback_result st rs_empty)]) b false
          else
            let e := query_borrowed runInterceptors v b in
            mkEnd ([Phase PhQueue] ++ gate ++ [Admit st] ++ ae_trace e) (ae_breaker e) (ae_native e)
      end.

(** [executeOne]: the pool's answer. *)
Definition execute_borrowed (runInterceptors : bool) (v : attempt_env Z) (b : Breaker) : attempt_end ExecResult :=
  match av_borrow v with
  | None => mkEnd [] b false
  | Some (st, handle) =>
      let held := if handle then [Borrow] else [] in
      let back := if handle then [GiveBack] else [] in
      let after st := afterAttempt bc st (av_report v).1 (av_report v).2 b in
      if negb (status_ok (av_waited v)) then
        mkEnd (held ++ [Complete (fallback_exec (av_waited v) 0)] ++ back) b false
      else if negb (status_ok st) || negb handle then
        mkEnd (held ++ [Phase PhPoolWait; Report st; Complete (fallback_exec st 0)] ++ back) (after st) false
      else
        let before := if runInterceptors then av_before v else status_OK in
        let hooks : list (action ExecResult) :=
          if runInterceptors then [Hook OnRoute; Hook (BeforeExecution (av_before v))] else [] in
        if av_native v && negb (status_ok before) then
          mkEnd ([Borrow; Phase PhPoolWait] ++ hooks ++
                 [Report before; Hook (OnCompletion before); Complete (fallback_exec before 0); GiveBack])
            (after before) false
        else if av_native v && av_started v then
          mkEnd ([Borrow; Phase PhPoolWait] ++ hooks ++ [Start; Phase PhNative]) b true
        else
          let pre := [Borrow; Phase PhPoolWait] ++ (if av_native v then hooks else []) ++ [Phase PhFallback] in
          if negb (av_allowed v) then
            mkEnd (pre ++ [Complete (fallback_exec needs_native 0); GiveBack]) b false
          else
            let '(hooks, (st, a)) := if runInterceptors then session_hooked v 0 else ([Emit (av_session v).1], av_session v) in
            mkEnd (pre ++ hooks ++ [Report st] ++ (if status_ok st then [MarkWrite] else []) ++
                   [Complete (fallback_exec st a); GiveBack]) (after st) false
  end.

Definition executeOne (applyPreGate runInterceptors : bool) (v : attempt_env Z) (b : Breaker) : attempt_end ExecResult :=
  if negb (av_posted v) then mkEnd [Phase PhRejected; Complete (fallback_exec overloaded 0)] b false
  else
    let gate := if applyPreGate then [Gate (av_gate v)] else [] in
    if applyPreGate && negb (status_ok (av_gate v)) then
      mkEnd ([Phase PhQueue] ++ gate ++ [Complete (fallback_exec (av_gate v) 0)]) b false
    else
      let '(st, b) := beforeAttempt bc name (av_admit v).1 (av_admit v).2 b in
      if negb (status_ok st) then
        mkEnd ([Phase PhQueue] ++ gate ++ [Admit st; Complete (fallback_exec st 0)]) b false
      else
        let e := execute_borrowed runInterceptors v b in
        mkEnd ([Phase PhQueue] ++ gate ++ [Admit st] ++ ae_trace e) (ae_breaker e) (ae_native e).

(** The driver's answer to a native [executeAsync], delivered; [stop] is the
    operation's status then. *)
Definition execute_deliver (runInterceptors : bool) (nativeStatus stop : Status) (affected : Z) (report : Status * Z)
    (b : Breaker) : list (action ExecResult) * Breaker :=
  let st :=
    if status_ok stop then nativeStatus
    else set_broken true (if status_ok nativeStatus then nativeStatus else stop) in
  ((if connectionBroken st then [Invalidate] else []) ++ [Report st] ++
   (if status_ok st then [MarkWrite] else []) ++ [Emit st] ++
   (if runInterceptors then [Hook (AfterExecution st); Hook (OnCompletion st)] else []) ++
   [GiveBack; Complete (mkExecResult st affected Native)],
   afterAttempt bc st report.1 report.2 b).

End attempt.

(** ** The native query: driver against timer *)

(** The driver's callback: still to come; after its store to [driverCompleted];
    lost the exchange of [resolved]; about to release the handle; its delivery is to
    run; done. *)
Inductive driver_state : Type :=
  | DRunning
  | DCompleted (s : Status) (rows : ResultSet)
  | DLost
  | DReleasing
  | DDelivering (s : Status) (rows : ResultSet)
  | DDone.

(** The timer's task: absent, armed, won the exchange, inside the section under
    [handleMutex] (whether the executor took [deliverTimeout]), done. *)
Inductive timer_state : Type := TAbsent | TArmed | TWon | TLocked (delivered : bool) | TDone.

(** [deliverTimeout]: not there, to run, past the completion, past its store to
    [timeoutDelivered], about to release, done. *)
Inductive late_state : Type := LNone | LPending | LCompleted | LStored | LReleasing | LDone.

(** [NativeQueryControl] with the three activities; [rc_handle] is whether the
    handle is held, [rc_lease] the binding to the operation. *)
Record race : Type := mkRace {
  rc_resolved : bool;
  rc_driverCompleted : bool;
  rc_timeoutDelivered : bool;
  rc_handle : bool;
  rc_lease : bool;
  rc_driver : driver_state;
  rc_timer : timer_state;
  rc_late : late_state;
  rc_breaker : Breaker;
  rc_trace : list (action AsyncQueryResult)
}.

Inductive race_label : Type :=
  | DriverCalls (s : Status) (rows : ResultSet)
  | DriverExchanges
  | DriverLoads
  | DriverReleases
  | DriverDelivers (stop : Status) (report : Status * Z)
  | TimerExchanges
  | TimerLocks (delivered : bool)
  | TimerCancels
  | LateCompletes (report : Status * Z)
  | LateStores
  | LateLoads
  | LateReleases.

Definition timed_out : Status :=
  set_retryable true (status_error QueryTimeout ($"native query exceeded client async statement timeout")).

(** [handle->reset()]. *)
Definition reset (r : race) : race :=
  mkRace (rc_resolved r) (rc_driverCompleted r) (rc_timeoutDelivered r) false false (rc_driver r) (rc_timer r)
    (rc_late r) (rc_breaker r) (rc_trace r ++ if rc_handle r then [GiveBack] else []).

Definition set_driver (d : driver_state) (r : race) : race :=
  mkRace (rc_resolved r) (rc_driverCompleted r) (rc_timeoutDelivered r) (rc_handle r) (rc_lease r) d (rc_timer r)
    (rc_late r) (rc_breaker r) (rc_trace r).

Definition set_timer (t : timer_state) (r : race) : race :=
  mkRace (rc_resolved r) (rc_driverCompleted r) (rc_timeoutDelivered r) (rc_handle r) (rc_lease r) (rc_driver r) t
    (rc_late r) (rc_breaker r) (rc_trace r).

Definition set_late (l : late_state) (r : race) : race :=
  mkRace (rc_resolved r) (rc_driverCompleted r) (rc_timeoutDelivered r) (rc_handle r) (rc_lease r) (rc_driver r)
    (rc_timer r) l (rc_breaker r) (rc_trace r).

Definition set_flags (resolved completed delivered : bool) (r : race) : race :=
  mkRace resolved completed delivered (rc_handle r) (rc_lease r) (rc_driver r) (rc_timer r) (rc_late r) (rc_breaker r)
    (rc_trace r).

Definition act (t : list (action AsyncQueryResult)) (b : Breaker) (r : race) : race :=
  mkRace (rc_resolved r) (rc_driverCompleted r) (rc_timeoutDelivered r) (rc_handle r) (rc_lease r) (rc_driver r)
    (rc_timer r) (rc_late r) b (rc_trace r ++ t).

Definition drop_lease (r : race) : race :=
  mkRace (rc_resolved r) (rc_driverCompleted r) (rc_timeoutDelivered r) (rc_handle r) false (rc_driver r) (rc_timer r)
    (rc_late r) (rc_breaker r) (rc_trace r).

(** The section under [handleMutex] excludes the resets. *)
Definition mutex_free (r : race) : bool := match rc_timer r with TLocked _ => false | _ => true end.

(** Whether a connection that was [held] still is after a trace, and that only a
    held one is cancelled. *)
Fixpoint held_after {R} (held : bool) (t : list (action R)) : bool :=
  match t with
  | [] => held
  | GiveBack :: t => held_after false t
  | _ :: t => held_after held t
  end.

Fixpoint cancels_ok {R} (held : bool) (t : list (action R)) : bool :=
  match t with
  | [] => true
  | GiveBack :: t => cancels_ok false t
  | CancelConnection :: t => held && cancels_ok held t
  | _ :: t => cancels_ok held t
  end.

Lemma count_app {R} (f : action R -> bool) (a b : list (action R)) : count f (a ++ b) = (count f a + count f b)%nat.
Proof. unfold count. by rewrite List.filter_app, length_app. Qed.

Lemma held_after_app {R} (h : bool) (a b : list (action R)) : held_after h (a ++ b) = held_after (held_after h a) b.
Proof. revert h. induction a as [|x a IH]; intros h; [done|]. destruct x; cbn; apply IH. Qed.

Lemma cancels_ok_app {R} (h : bool) (a b : list (action R)) :
  cancels_ok h (a ++ b) = cancels_ok h a && cancels_ok (held_after h a) b.
Proof.
  revert h. induction a as [|x a IH]; intros h; [done|]. destruct x; cbn; rewrite IH; try done. by rewrite andb_assoc.
Qed.

#[local] Arguments count : simpl never.

Section native.
Context (bc : CircuitBreakerConfig) (runInterceptors key : bool).

Definition hooks_after (st : Status) : list (action AsyncQueryResult) :=
  if runInterceptors then [Hook (AfterExecution st); Hook (OnCompletion st)] else [].

(** [deliver]: the driver's answer reaches the caller. *)
Definition driver_delivers (s stop : Status) (rows : ResultSet) (report : Status * Z) (r : race) : race :=
  let st := if status_ok stop then s else set_broken true stop in
  let r := drop_lease r in
  let r := act ((if connectionBroken st && rc_handle r then [Invalidate] else []) ++ [Report st] ++
                (if status_ok st && key then [Store] else []) ++ [Emit st] ++ hooks_after st)
             (afterAttempt bc st report.1 report.2 (rc_breaker r)) r in
  let r := reset r in
  set_driver DDone (act [Complete (mkAsyncResult st rows Native)] (rc_breaker r) r).

Definition race_step (l : race_label) (r : race) : option race :=
  match l, rc_driver r, rc_timer r, rc_late r with
  | DriverCalls s rows, DRunning, _, _ =>
      Some (set_driver (DCompleted s rows) (set_flags (rc_resolved r) true (rc_timeoutDelivered r) r))
  | DriverExchanges, DCompleted s rows, _, _ =>
      Some (if rc_resolved r then set_driver DLost r
            else set_driver (DDelivering s rows) (set_flags true (rc_driverCompleted r) (rc_timeoutDelivered r) r))
  | DriverLoads, DLost, _, _ => Some (set_driver (if rc_timeoutDelivered r then DReleasing else DDone) r)
  | DriverReleases, DReleasing, _, _ =>
      if mutex_free r then Some (set_driver DDone (reset (drop_lease r))) else None
  | DriverDelivers stop report, DDelivering s rows, _, _ =>
      if mutex_free r then Some (driver_delivers s stop rows report r) else None
  | TimerExchanges, _, TArmed, _ =>
      Some (if rc_resolved r then set_timer TDone r
            else set_timer TWon (set_flags true (rc_driverCompleted r) (rc_timeoutDelivered r) r))
  | TimerLocks delivered, _, TWon, _ =>
      Some (set_timer (TLocked delivered) (if delivered then set_late LPending r else r))
  | TimerCancels, _, TLocked delivered, _ =>
      let r := act ((if rc_handle r then [CancelConnection] else []) ++ [Phase PhCancel]) (rc_breaker r) r in
      Some (set_timer TDone (if delivered then r else set_late LPending r))
  | LateCompletes report, _, _, LPending =>
      Some (set_late LCompleted
              (act ([Report timed_out; Emit timed_out] ++ hooks_after timed_out ++
                    [Complete (mkAsyncResult timed_out rs_empty Native)])
                 (afterAttempt bc timed_out report.1 report.2 (rc_breaker r)) r))
  | LateStores, _, _, LCompleted =>
      Some (set_late LStored (set_flags (rc_resolved r) (rc_driverCompleted r) true r))
  | LateLoads, _, _, LStored => Some (set_late (if rc_driverCompleted r then LReleasing else LDone) r)
  | LateReleases, _, _, LReleasing =>
      if mutex_free r then Some (set_late LDone (reset (drop_lease r))) else None
  | _, _, _, _ => None
  end.

(** The start: the driver has the statement; a timer is armed when there is a
    timeout. *)
Definition race_start (timeout lease : bool) (b : Breaker) : race :=
  mkRace false false false true lease DRunning (if timeout then TArmed else TAbsent) LNone b [].

Fixpoint race_run (ls : list race_label) (r : race) : option race :=
  match ls with
  | [] => Some r
  | l :: ls => match race_step l r with Some r => race_run ls r | None => None end
  end.

(** ** The race is decided once *)

(** Nobody won yet; the driver won; the timer won. *)
Definition undecided (r : race) : Prop :=
  rc_resolved r = false /\ rc_timeoutDelivered r = false /\ rc_handle r = true /\ rc_late r = LNone /\
  (rc_timer r = TArmed \/ rc_timer r = TAbsent) /\
  ((rc_driver r = DRunning /\ rc_driverCompleted r = false) \/
   (exists s rows, rc_driver r = DCompleted s rows) /\ rc_driverCompleted r = true) /\
  count is_complete (rc_trace r) = 0%nat /\ count is_report (rc_trace r) = 0%nat.

Definition driver_won (r : race) : Prop :=
  rc_resolved r = true /\ rc_timeoutDelivered r = false /\ rc_late r = LNone /\ rc_driverCompleted r = true /\
  (rc_timer r = TArmed \/ rc_timer r = TAbsent \/ rc_timer r = TDone) /\
  (((exists s rows, rc_driver r = DDelivering s rows) /\ rc_handle r = true /\
    count is_complete (rc_trace r) = 0%nat /\ count is_report (rc_trace r) = 0%nat) \/
   (rc_driver r = DDone /\ rc_handle r = false /\
    count is_complete (rc_trace r) = 1%nat /\ count is_report (rc_trace r) = 1%nat)).

Definition late_began (l : late_state) : bool := match l with LNone | LPending => false | _ => true end.
Definition late_stored (l : late_state) : bool := match l with LStored | LReleasing | LDone => true | _ => false end.

Definition timer_won (r : race) : Prop :=
  rc_resolved r = true /\ rc_timeoutDelivered r = late_stored (rc_late r) /\
  match rc_timer r with
  | TWon | TLocked false => rc_late r = LNone
  | TLocked true | TDone => rc_late r <> LNone
  | _ => False
  end /\
  match rc_driver r with
  | DRunning => rc_driverCompleted r = false
  | DDelivering _ _ => False
  | _ => rc_driverCompleted r = true
  end /\
  count is_complete (rc_trace r) = (if late_began (rc_late r) then 1 else 0)%nat /\
  count is_report (rc_trace r) = (if late_began (rc_late r) then 1 else 0)%nat /\
  (rc_handle r = true -> rc_driver r = DDone -> rc_late r <> LDone) /\
  (rc_handle r = false -> late_stored (rc_late r) = true /\ rc_driverCompleted r = true /\ mutex_free r = true) /\
  (rc_driver r = DReleasing -> late_stored (rc_late r) = true) /\
  (rc_late r = LReleasing -> rc_driverCompleted r = true).

(** What holds of the trace: the handle is given back once at most, exactly when it
    is no longer held, and only a held connection is cancelled. *)
Definition trace_ok (r : race) : Prop :=
  count is_giveback (rc_trace r) = (if rc_handle r then 0 else 1)%nat /\
  held_after true (rc_trace r) = rc_handle r /\ cancels_ok true (rc_trace r) = true.

Definition race_inv (r : race) : Prop := (undecided r \/ driver_won r \/ timer_won r) /\ trace_ok r.

Lemma race_start_inv (timeout lease : bool) (b : Breaker) : race_inv (race_start timeout lease b).
Proof.
  split; [left|done]. unfold undecided. cbn. split_and!; try done; [destruct timeout; auto|left; done].
Qed.

Lemma driver_delivers_trace (s stop : Status) (rows : ResultSet) (report : Status * Z) (r : race) :
  rc_handle r = true -> trace_ok r -> trace_ok (driver_delivers s stop rows report r).
Proof.
  intros Hh (H1 & H2 & H3). unfold trace_ok, driver_delivers. cbn. rewrite Hh in *.
  set (st := if status_ok stop then s else set_broken true stop).
  rewrite !count_app, !held_after_app, !cancels_ok_app, H1, H2, H3. unfold hooks_after.
  destruct (connectionBroken st), (status_ok st), key, runInterceptors; done.
Qed.

Ltac race_cases H :=
  try discriminate H;
  repeat match type of H with
  | context [match ?x with _ => _ end] => destruct x eqn:?; try discriminate H
  end;
  try (injection H as <-; cbn in *; simplify_eq).

Lemma reset_trace (r : race) : trace_ok r -> trace_ok (reset r).
Proof.
  intros (H1 & H2 & H3). unfold trace_ok, reset. cbn. rewrite count_app, held_after_app, cancels_ok_app, H1, H2, H3.
  by destruct (rc_handle r).
Qed.

Lemma act_trace (t : list (action AsyncQueryResult)) (b : Breaker) (r : race) :
  trace_ok r -> count is_giveback t = 0%nat -> held_after (rc_handle r) t = rc_handle r ->
  cancels_ok (rc_handle r) t = true -> trace_ok (act t b r).
Proof.
  intros (H1 & H2 & H3) Hc Hh Hk. unfold trace_ok. cbn.
  rewrite count_app, held_after_app, cancels_ok_app, H1, H2, H3, Hc, Hh, Hk. split_and!; [lia|done..].
Qed.

Lemma race_step_trace (l : race_label) (r r' : race) :
  (undecided r \/ driver_won r \/ timer_won r) -> trace_ok r -> race_step l r = Some r' -> trace_ok r'.
Proof.
  intros Hd Ht H. destruct l; cbn in H; race_cases H; try exact Ht; try (apply (reset_trace r Ht)).
  1: { apply driver_delivers_trace; [|done]. unfold undecided, driver_won, timer_won in Hd.
       match goal with E : rc_driver r = _ |- _ => rewrite E in Hd end. naive_solver. }
  1-4: apply act_trace; [done|done|by destruct (rc_handle _)|].
  1-4: match goal with E : rc_handle _ = _ |- _ => by rewrite E end.
  apply act_trace; [done|..]; unfold hooks_after; destruct runInterceptors; done.
Qed.

Lemma delivered_counts (s stop : Status) (rows : ResultSet) (report : Status * Z) (r : race) :
  count is_complete (rc_trace (driver_delivers s stop rows report r)) = S (count is_complete (rc_trace r)) /\
  count is_report (rc_trace (driver_delivers s stop rows report r)) = S (count is_report (rc_trace r)).
Proof.
  unfold driver_delivers. cbn. set (st := if status_ok stop then s else set_broken true stop).
  rewrite !count_app. unfold hooks_after.
  destruct (connectionBroken st), (status_ok st), key, runInterceptors, (rc_handle r); unfold count; cbn; lia.
Qed.

Lemma late_counts :
  let t := [Report timed_out; Emit timed_out] ++ hooks_after timed_out ++
           [Complete (mkAsyncResult timed_out rs_empty Native)] in
  count is_complete t = 1%nat /\ count is_report t = 1%nat.
Proof. unfold hooks_after. by destruct runInterceptors. Qed.

Lemma count_back (f : action AsyncQueryResult -> bool) (h : bool) :
  f GiveBack = false -> count f (if h then [GiveBack] else []) = 0%nat.
Proof. intros H. destruct h; [|done]. unfold count. cbn. by rewrite H. Qed.

Lemma step_undecided (l : race_label) (r r' : race) :
  undecided r -> race_step l r = Some r' -> undecided r' \/ driver_won r' \/ timer_won r'.
Proof.
  destruct r as [rs dc td h le d t la b tr]. intros (Hrs & Htd & Hh & Hl & Ht & Hd & Hc & Hr) H; cbn in *; subst.
  destruct l; cbn in H; race_cases H; try (destruct Ht; discriminate); try (destruct Hd as [[? ?]|[(? & ? & ?) ?]]; discriminate).
  - left. unfold undecided; cbn. destruct Hd as [[_ ->]|[(? & ? & ?) _]]; [|discriminate]. split_and!; eauto 10.
  - right; left. unfold driver_won; cbn. destruct Hd as [[? _]|[_ ->]]; [discriminate|].
    split_and!; try done; [naive_solver|left; eauto 10].
  - right; right. unfold timer_won; cbn. by destruct Hd as [[-> ->]|[(? & ? & ->) ->]]; split_and!.
Qed.

Lemma step_driver_won (l : race_label) (r r' : race) :
  driver_won r -> race_step l r = Some r' -> driver_won r'.
Proof.
  destruct r as [rs dc td h le d t la b tr]. intros (Hrs & Htd & Hl & Hdc & Ht & Hd) H; cbn in *; subst.
  destruct l; cbn in H; race_cases H; try (destruct Ht as [?|[?|?]]; discriminate);
    try (destruct Hd as [[(? & ? & ?) _]|[? _]]; discriminate).
  - unfold driver_won. pose proof (delivered_counts s stop rows report
      (mkRace true true false h le (DDelivering s rows) t LNone b tr)) as [E1 E2].
    destruct Hd as [(_ & -> & Hc & Hr)|[? _]]; [|discriminate]. cbn in E1, E2. rewrite Hc in E1. rewrite Hr in E2.
    cbn. split_and!; try done. right; done.
  - unfold driver_won; cbn. split_and!; try done. eauto 10.
Qed.

Lemma step_timer_won (l : race_label) (r r' : race) :
  timer_won r -> race_step l r = Some r' -> timer_won r'.
Proof.
  destruct r as [rs dc td h le d t la b tr].
  intros (Hrs & Htd & Ht & Hd & Hc & Hr & Hh & Hf & Hdr & Hlr) H; cbn in *; subst.
  destruct l; cbn in H; race_cases H; try done.
  all: unfold timer_won, mutex_free in *; cbn [rc_resolved rc_driverCompleted rc_timeoutDelivered rc_handle rc_driver
    rc_timer rc_late rc_trace set_driver set_timer set_late set_flags act reset drop_lease] in *.
  all: rewrite ?count_app, ?(proj1 late_counts), ?(proj2 late_counts), ?count_back by done.
  all: repeat match goal with
       | x : timer_state |- _ => destruct x as [| | |[]|]; try done
       | x : late_state |- _ => destruct x; try done
       | _ : ?h = false -> _ |- _ => is_var h; destruct h; cbn in *; try done
       end.
  all: split_and!; intros; try done; try lia; try tauto; try (by destruct d).
  all: first [rewrite Hc|rewrite Hr]; unfold hooks_after; by destruct runInterceptors.
Qed.

Lemma race_run_inv (ls : list race_label) (r r' : race) : race_inv r -> race_run ls r = Some r' -> race_inv r'.
Proof.
  revert r. induction ls as [|l ls IH]; intros r Hi H; cbn in H; [by injection H as <-|].
  destruct (race_step l r) as [r1|] eqn:E; [|done]. apply (IH r1); [|done]. destruct Hi as [Hd Ht].
  split; [|by eapply race_step_trace].
  destruct Hd as [Hd|[Hd|Hd]]; [by eapply step_undecided|right; left; by eapply step_driver_won|right; right; by eapply step_timer_won].
Qed.

(** Every step brings an activity forward. *)
Definition remaining (r : race) : nat :=
  match rc_driver r with DRunning => 4 | DCompleted _ _ => 3 | DLost => 2 | DReleasing | DDelivering _ _ => 1 | DDone => 0 end +
  match rc_timer r with TArmed => 3 | TWon => 2 | TLocked _ => 1 | TAbsent | TDone => 0 end +
  match rc_late r with LNone => 5 | LPending => 4 | LCompleted => 3 | LStored => 2 | LReleasing => 1 | LDone => 0 end.

Lemma race_step_remaining (l : race_label) (r r' : race) :
  race_inv r -> race_step l r = Some r' -> (remaining r' < remaining r)%nat.
Proof.
  intros [Hd _] H. destruct r as [rs dc td h le d t la b tr].
  destruct l; cbn in H; race_cases H; unfold remaining; cbn; try lia.
  all: repeat case_match; cbn in *; simplify_eq; try lia.
  all: unfold undecided, driver_won, timer_won in Hd; cbn in Hd; exfalso; naive_solver.
Qed.

Lemma race_run_length (ls : list race_label) (r r' : race) :
  race_inv r -> race_run ls r = Some r' -> (length ls + remaining r' <= remaining r)%nat.
Proof.
  revert r. induction ls as [|l ls IH]; intros r Hi H; cbn in H; [injection H as <-; cbn; lia|].
  destruct (race_step l r) as [r1|] eqn:E; [|done]. pose proof (race_step_remaining l r r1 Hi E).
  assert (race_inv r1) as Hi1 by (eapply (race_run_inv [l] r r1 Hi); cbn; by rewrite E).
  specialize (IH r1 Hi1 H). cbn. lia.
Qed.

(** All three activities are over. *)
Definition settled (r : race) : Prop :=
  rc_driver r = DDone /\ (rc_timer r = TAbsent \/ rc_timer r = TDone) /\ (rc_late r = LNone \/ rc_late r = LDone).

Lemma race_progress (r : race) : race_inv r -> settled r \/ exists l r', race_step l r = Some r'.
Proof.
  intros [Hd _]. destruct r as [rs dc td h le d t la b tr].
  destruct t as [| | |dl|].
  2: right; exists TimerExchanges; cbn; destruct d; eauto.
  2: right; exists (TimerLocks true); cbn; destruct d; eauto.
  2: right; exists TimerCancels; cbn; destruct d; eauto.
  all: destruct d as [|s rows| | |s rows|].
  1, 7: right; exists (DriverCalls status_OK rs_empty); cbn; eauto.
  1, 6: right; exists DriverExchanges; cbn; eauto.
  1, 5: right; exists DriverLoads; cbn; eauto.
  1, 4: right; exists DriverReleases; cbn; eauto.
  1, 3: right; exists (DriverDelivers status_OK (status_OK, 0)); cbn; eauto.
  all: destruct la; [left; unfold settled; cbn; tauto|right|right|right|right|left; unfold settled; cbn; tauto].
  1, 5: exists (LateCompletes (status_OK, 0)); cbn; eauto.
  1, 4: exists LateStores; cbn; eauto.
  1, 3: exists LateLoads; cbn; eauto.
  all: exists LateReleases; cbn; eauto.
Qed.

Lemma settled_exact (r : race) :
  race_inv r -> settled r ->
  count is_complete (rc_trace r) = 1%nat /\ count is_report (rc_trace r) = 1%nat /\
  count is_giveback (rc_trace r) = 1%nat /\ rc_handle r = false.
Proof.
  intros [Hd (Hg & _)] (Ed & Et & El).
  assert (H : count is_complete (rc_trace r) = 1%nat /\ count is_report (rc_trace r) = 1%nat /\ rc_handle r = false).
  { destruct Hd as [Hd|[Hd|Hd]].
    - destruct Hd as (_ & _ & _ & _ & _ & [[E _]|[(? & ? & E) _]] & _); congruence.
    - destruct Hd as (_ & _ & _ & _ & _ & [[(? & ? & E) _]|(_ & ? & ? & ?)]); [congruence|done].
    - destruct Hd as (_ & _ & Ht & _ & Hc & Hr & Hh & _).
      destruct Et as [Et|Et]; rewrite Et in Ht; [done|]. destruct El as [El|El]; [done|]. rewrite El in *.
      split_and!; try done. destruct (rc_handle r); [|done]. by destruct (Hh eq_refl Ed). }
  destruct H as (? & ? & Hf). rewrite Hf in Hg. done.
Qed.

End native.

(** C3. A native query ends once, however the driver's answer and the timer
    interleave.  Every schedule of their steps takes at most twelve of them and is
    never stuck before all are over; the completion is called at most once, and
    exactly once, with one report to the circuit breaker, when they are over; the
    connection goes back to the pool exactly once; and a cancellation only reaches a
    connection this statement still holds. *)
Theorem native_query_settles (bc : CircuitBreakerConfig) (runInterceptors key timeout lease : bool) (b : Breaker)
    (ls : list race_label) (r : race) :
  race_run bc runInterceptors key ls (race_start timeout lease b) = Some r ->
  (length ls <= 12)%nat /\ (count is_complete (rc_trace r) <= 1)%nat /\ cancels_ok true (rc_trace r) = true /\
  (settled r -> count is_complete (rc_trace r) = 1%nat /\ count is_report (rc_trace r) = 1%nat /\
                count is_giveback (rc_trace r) = 1%nat /\ rc_handle r = false) /\
  (~ settled r -> exists l r', race_step bc runInterceptors key l r = Some r').
Proof.
  intros H. pose proof (race_start_inv timeout lease b) as Hi.
  pose proof (race_run_length bc runInterceptors key ls _ r Hi H) as Hl.
  pose proof (race_run_inv bc runInterceptors key ls _ r Hi H) as Hr. split_and!.
  - unfold remaining at 2 in Hl. cbn in Hl. destruct timeout; lia.
  - destruct Hr as [[Hd|[Hd|Hd]] _]; unfold undecided, driver_won, timer_won in Hd; repeat case_match; naive_solver lia.
  - apply Hr.
  - by apply settled_exact.
  - intros Hs. by destruct (race_progress bc runInterceptors key r Hr).
Qed.

(** ** Samples *)

Definition sample_bc : CircuitBreakerConfig := mkBreakerConfig 2 5.

(** The timer wins, the driver answers while the timeout is being delivered. *)
Definition sample_schedule : list race_label :=
  [TimerExchanges; TimerLocks true; LateCompletes (status_OK, 7); DriverCalls status_OK rs_empty; DriverExchanges;
   DriverLoads; TimerCancels; LateStores; LateLoads; LateReleases].

Definition sample_end : race :=
  default (race_start true true breaker_init)
    (race_run sample_bc true true sample_schedule (race_start true true breaker_init)).

Lemma sample_runs : race_run sample_bc true true sample_schedule (race_start true true breaker_init) = Some sample_end.
Proof. vm_compute. reflexivity. Qed.

Lemma sample_settled : settled sample_end.
Proof. vm_compute. auto. Qed.

Lemma native_query_settles_witness :
  settled sample_end /\ count is_complete (rc_trace sample_end) = 1%nat /\ count is_giveback (rc_trace sample_end) = 1%nat /\
  cancels_ok true (rc_trace sample_end) = true.
Proof.
  destruct (native_query_settles sample_bc true true true true breaker_init sample_schedule sample_end sample_runs)
    as (_ & _ & H3 & H4 & _).
  destruct (H4 sample_settled) as (H5 & _ & H6 & _). exact (conj sample_settled (conj H5 (conj H6 H3))).
Defined.

(** A late answer of the driver that says the connection is broken: the connection
    goes back to the pool unmarked. *)
Example late_broken_connection_returned :
  let broken := set_broken true (status_error ConnectionFailed []) in
  match race_run sample_bc true true
          [TimerExchanges; TimerLocks true; TimerCancels; LateCompletes (status_OK, 7); LateStores; LateLoads;
           DriverCalls broken rs_empty; DriverExchanges; DriverLoads; DriverReleases]
          (race_start true true breaker_init) with
  | Some r => settled r /\ count is_giveback (rc_trace r) = 1%nat /\
              List.filter (fun a => match a with Invalidate => true | _ => false end) (rc_trace r) = []
  | None => False
  end.
Proof. vm_compute. auto. Qed.

End AsyncEngine.
