(* ===== verification/AsyncFlow.v ===== *)
(** * The asynchronous engine: attempts, retries and groups

    The callers of the attempts of AsyncEngine.v in src/async/async_engine.cpp: an
    attempt as a whole, with its native part, the retry loops of a leaf, the routing
    of a group and the session calls. *)

From S2P Require Import Prelude Types Context Pagination ResultCache QueryCache Resilience DataSource AsyncEngine.
Import AsyncEngine.

Module AsyncFlow.
#[local] Open Scope Z_scope.

(** ** An attempt completes once *)

Section attempts.
Context (bc : CircuitBreakerConfig) (name : str).

(** The pool never calls back: a waiter whose deadline passed before a connection came
    back is dropped without an answer. *)
Definition silent {T} (v : attempt_env T) : bool := match av_borrow v with None => true | Some _ => false end.

(** The ways an admitted attempt is not reported to the breaker: the pool never
    called back, the operation stopped while it waited for a connection, or it needs
    native execution and the driver has none or declined. *)
Definition unreported {T} (runInterceptors : bool) (v : attempt_env T) : bool :=
  let before := if runInterceptors then av_before v else status_OK in
  match av_borrow v with
  | None => true
  | Some (st, handle) =>
      negb (status_ok (av_waited v)) ||
      (status_ok st && handle && negb (av_native v && (negb (status_ok before) || av_started v)) && negb (av_allowed v))
  end.

Lemma query_session_shape (ri : bool) (v : attempt_env ResultSet) (b : Breaker) :
  let t := (query_session bc ri v b).1 in
  count is_complete t = 1%nat /\ count is_borrow t = 0%nat /\ count is_giveback t = 1%nat /\
  count is_admission t = 0%nat /\ count is_report t = 1%nat /\ count is_cancel t = 0%nat.
Proof.
  cbv zeta. unfold query_session, session_hooked. destruct (av_session v) as [st rows].
  destruct ri, (av_key v), (status_ok (av_before2 v)), (status_ok st); cbn; done.
Qed.

Lemma query_borrowed_shape (ri : bool) (v : attempt_env ResultSet) (b : Breaker) :
  let e := query_borrowed bc ri v b in
  let t := ae_trace e in
  count is_complete t = (if ae_native e || silent v then 0 else 1)%nat /\ (silent v = true -> ae_native e = false) /\
  count is_borrow t = (count is_giveback t + if ae_native e then 1 else 0)%nat /\
  (count is_report t + (if ae_native e then 1 else 0) + (if unreported ri v then 1 else 0) = 1)%nat /\
  count is_admission t = 0%nat /\ count is_cancel t = 0%nat /\ (ae_native e = true -> ae_breaker e = b).
Proof.
  cbv zeta. unfold query_borrowed, unreported, silent. destruct (av_borrow v) as [[st handle]|]; [|done].
  pose proof (query_session_shape ri v b) as (H1 & H2 & H3 & H4 & H5 & H6).
  destruct (query_session bc ri v b) as [t b'] eqn:E. cbn [fst] in *.
  destruct (status_ok (av_waited v)), (status_ok st), handle, (av_native v), ri, (status_ok (av_before v)), (av_started v),
    (av_allowed v); unfold count in *; change (status_ok status_OK) with true; cbn; rewrite ?H1, ?H2, ?H3, ?H4, ?H5, ?H6; split_and!; try done; try lia.
Qed.


Ltac shape := unfold count; cbn; split_and!; try done; repeat case_match; cbn in *; try done; try lia.

(** The shape of a whole attempt up to the driver. *)
Lemma queryOne_shape (gate ri : bool) (v : attempt_env ResultSet) (b : Breaker) :
  let e := queryOne bc name gate ri v b in
  let t := ae_trace e in
  (count is_complete t + (if ae_native e then 1 else 0) + (if silent v then count is_admission t else 0) = 1)%nat /\
  count is_borrow t = (count is_giveback t + if ae_native e then 1 else 0)%nat /\
  (count is_admission t <= 1)%nat /\ count is_cancel t = 0%nat /\
  (count is_report t + (if ae_native e then 1 else 0) +
   (if unreported ri v then count is_admission t else 0) = count is_admission t)%nat /\
  (ae_native e = true -> ae_breaker e = (beforeAttempt bc name (av_admit v).1 (av_admit v).2 b).2).
Proof.
  cbv zeta. unfold queryOne. destruct (av_posted v); [|shape]. cbn [negb].
  destruct (gate && negb (status_ok (av_gate v))).
  { destruct gate; shape. }
  destruct (av_hit v) as [rows|].
  { unfold query_hit. destruct gate, ri, (status_ok (av_before v)); shape. }
  destruct (beforeAttempt bc name (av_admit v).1 (av_admit v).2 b) as [st b1]. destruct (status_ok st) eqn:Est; cbn [negb].
  2: { unfold count. destruct gate; cbn; rewrite ?Est; shape. }
  destruct (query_borrowed_shape ri v b1) as (H1 & H0 & H2 & H3 & H4 & H5 & H6). cbn [ae_trace ae_native ae_breaker snd].
  rewrite !app_assoc, !count_app, H1, H4, H5. unfold count in *.
  destruct gate; cbn in *; rewrite ?Est; cbn; split_and!; try done; destruct (unreported ri v), (silent v), (ae_native _);
    try specialize (H0 eq_refl); cbn in *; (discriminate || lia).
Qed.








(** An admitted half-open probe. *)
Lemma admit_probe (stop : Status) (now : Z) (b : Breaker) :
  0 < failure_threshold bc -> 0 < circuitOpenUntil_ b -> halfOpenInFlight_ b = false -> status_ok stop = true ->
  circuitOpenUntil_ b <= now ->
  beforeAttempt bc name stop now b = (status_OK, mkBreaker (circuitOpenUntil_ b) (consecutiveFailures_ b) true (lastError_ b)).
Proof.
  intros Ht Hu Hh Hs Hn. unfold beforeAttempt. rewrite Hs. cbn [negb].
  destruct (Z.leb_spec (failure_threshold bc) 0); [lia|]. destruct (Z.ltb_spec now (circuitOpenUntil_ b)); [lia|].
  destruct (Z.eqb_spec (circuitOpenUntil_ b) 0); [lia|]. cbn [negb]. by rewrite Hh.
Qed.

Lemma unreported_breaker (ri : bool) (v : attempt_env ResultSet) (b : Breaker) :
  unreported ri v = true ->
  ae_breaker (query_borrowed bc ri v b) = b /\ ae_native (query_borrowed bc ri v b) = false.
Proof.
  unfold unreported, query_borrowed. destruct (av_borrow v) as [[st handle]|]; [|done].
  destruct (status_ok (av_waited v)), (status_ok st), handle, (av_native v), ri, (status_ok (av_before v)), (av_started v),
    (av_allowed v); cbn; intros; done.
Qed.

(** An attempt that ends without a report wedges the circuit breaker: when the
    probe of a tripped circuit stops while it waits for a connection (or needs native
    execution in vain), the breaker stays half-open and refuses every later attempt,
    at whatever time. *)
Theorem async_stop_wedges_breaker (gate ri : bool) (v : attempt_env ResultSet) (b : Breaker) :
  0 < failure_threshold bc -> 0 < circuitOpenUntil_ b -> halfOpenInFlight_ b = false ->
  av_posted v = true -> gate && negb (status_ok (av_gate v)) = false -> av_hit v = None ->
  status_ok (av_admit v).1 = true -> circuitOpenUntil_ b <= (av_admit v).2 -> unreported ri v = true ->
  let e := queryOne bc name gate ri v b in
  ae_native e = false /\ count is_complete (ae_trace e) = (if silent v then 0 else 1)%nat /\
  forall gates : list (Status * Z),
    foldl (fun (acc : list bool * Breaker) g =>
      let '(st, b) := beforeAttempt bc name g.1 g.2 acc.2 in (acc.1 ++ [status_ok st], b)) ([], ae_breaker e) gates
    = (replicate (length gates) false, ae_breaker e).
Proof.
  intros Ht Hu Hh Hp Hg Hhit Hs Hn Hun. cbv zeta.
  pose proof (queryOne_shape gate ri v b) as (Hc & _). cbv zeta in Hc.
  set (b1 := mkBreaker (circuitOpenUntil_ b) (consecutiveFailures_ b) true (lastError_ b)).
  destruct (unreported_breaker ri v b1 Hun) as [Hb Hnat].
  destruct (query_borrowed_shape ri v b1) as (_ & _ & _ & _ & Ha & _).
  assert (He : ae_native (queryOne bc name gate ri v b) = false /\ ae_breaker (queryOne bc name gate ri v b) = b1 /\
    count is_admission (ae_trace (queryOne bc name gate ri v b)) = 1%nat).
  { unfold queryOne. rewrite Hp, Hg, Hhit. cbn [negb]. rewrite (admit_probe _ _ b) by done.
    change (status_ok status_OK) with true. cbn [negb ae_native ae_breaker ae_trace]. fold b1.
    rewrite !count_app, Ha. by destruct gate. }
  destruct He as (En & Eb & Ead). rewrite En, Ead in Hc. split_and!; [done|destruct (silent v); lia|]. rewrite Eb. intros gates. by apply wedged_forever.
Qed.

(** A driver that declines a statement after the interceptors were asked: the session
    asks them again and tells them of one end only. *)
Theorem declined_statement_asked_twice (gate : bool) (v : attempt_env ResultSet) (b : Breaker) :
  av_posted v = true -> gate && negb (status_ok (av_gate v)) = false -> av_hit v = None ->
  status_ok (beforeAttempt bc name (av_admit v).1 (av_admit v).2 b).1 = true ->
  av_borrow v = Some (status_OK, true) -> status_ok (av_waited v) = true -> av_native v = true ->
  status_ok (av_before v) = true -> av_started v = false -> av_allowed v = true ->
  let t := ae_trace (queryOne bc name gate true v b) in
  count is_asked t = 2%nat /\ count is_told t = 1%nat /\ count is_complete t = 1%nat.
Proof.
  intros Hp Hg Hhit Ha Hbo Hw Hn Hb Hs Hal. cbv zeta. unfold queryOne. rewrite Hp, Hg, Hhit. cbn [negb].
  destruct (beforeAttempt bc name (av_admit v).1 (av_admit v).2 b) as [st b1]. cbn in Ha. rewrite Ha. cbn [negb].
  unfold query_borrowed. rewrite Hbo, Hw, Hn, Hb, Hs, Hal. change (status_ok status_OK) with true. cbn [negb orb andb].
  unfold query_session, session_hooked. destruct (av_session v) as [ss rows].
  destruct (av_key v), (status_ok (av_before2 v)), (status_ok ss), gate; unfold count; cbn; done.
Qed.

End attempts.

(** ** The retry loop of a leaf *)

(** What the loop sees at its [k]-th turn: the operation's status and the time since
    the start in ms, whether the attempt can start (the pool is there), its result,
    the jitter of the wait. *)
Record turn (R : Type) : Type := mkTurn {
  tn_stop : Status;
  tn_elapsed : Z;
  tn_open : bool;
  tn_result : R;
  tn_jitter : Z -> Z
}.
Arguments mkTurn {R}. Arguments tn_stop {R}. Arguments tn_elapsed {R}. Arguments tn_open {R}. Arguments tn_result {R}.
Arguments tn_jitter {R}.

(** An attempt with its gate and its time budget, a wait, the end. *)
Inductive leaf_event (R : Type) : Type :=
  | Attempted (gate : bool) (budget : Z)
  | Waited (delay : Z)
  | Finished (r : R).
Arguments Attempted {R}. Arguments Waited {R}. Arguments Finished {R}.

(** What [queryLeaf] and [executeLeaf] differ in. *)
Record leaf_kind (R : Type) : Type := mkKind {
  lk_status : R -> Status;
  lk_fail : Status -> R;
  lk_timed : bool;           (* the budget shrinks, and its end is an error *)
  lk_closed : str
}.
Arguments mkKind {R}. Arguments lk_status {R}. Arguments lk_fail {R}. Arguments lk_timed {R}. Arguments lk_closed {R}.

Definition query_kind : leaf_kind AsyncQueryResult :=
  mkKind aq_status (fun s => fallback_result s rs_empty) true
    ($"datasource pool closed before an asynchronous query attempt").

Definition execute_kind : leaf_kind ExecResult :=
  mkKind ex_status (fun s => fallback_exec s 0) false
    ($"datasource pool closed before an asynchronous execute attempt").

Definition out_of_time : Status :=
  set_retryable true (status_error QueryTimeout ($"query retries exceeded client async statement timeout")).

Definition pool_closed (message : str) : Status := set_retryable true (status_error PoolClosed message).

Section leaf.
Context {R : Type} (k : leaf_kind R) (rc : RetryConfig) (timeout : Z) (applyPreGate : bool) (env : nat -> turn R).

(** A failure the loop retries, attempts permitting. *)
Definition retried (s : Status) : bool :=
  negb (status_ok s) && retryable s && negb (code_eqb (code_ s) CircuitOpen) && negb (code_eqb (code_ s) Overloaded) &&
  negb (lk_timed k && code_eqb (code_ s) QueryTimeout).

(** The end before an attempt, if any; otherwise the budget of the attempt. *)
Definition turn_budget (t : turn R) : Status + Z :=
  if negb (status_ok (tn_stop t)) then inl (tn_stop t)
  else if lk_timed k && (0 <? timeout) then
    if timeout - tn_elapsed t <=? 0 then inl out_of_time else inr (timeout - tn_elapsed t)
  else inr timeout.

(** [state->run]; [more] counts the attempts after this one. *)
Fixpoint leaf_run (more attempt : nat) (gate : bool) : list (leaf_event R) :=
  let t := env attempt in
  match turn_budget t with
  | inl s => [Finished (lk_fail k s)]
  | inr budget =>
      if negb (tn_open t) then [Finished (lk_fail k (pool_closed (lk_closed k)))]
      else
        Attempted (gate && applyPreGate) budget ::
        match more with
        | O => [Finished (tn_result t)]
        | S more =>
            if retried (lk_status k (tn_result t))
            then Waited (retryDelay rc (Z.of_nat attempt) (tn_jitter t)) :: leaf_run more (S attempt) false
            else [Finished (tn_result t)]
        end
  end.

Definition leaf_finished (e : leaf_event R) : bool := match e with Finished _ => true | _ => false end.
Definition leaf_attempted (e : leaf_event R) : bool := match e with Attempted _ _ => true | _ => false end.

(** What a run is: some attempts that were retried, each but the first without the
    gate, and the turn that ends it. *)
Definition retried_turn (first gate : bool) (n : nat) (es : list (leaf_event R)) : Prop :=
  exists budget, turn_budget (env n) = inr budget /\ tn_open (env n) = true /\
    retried (lk_status k (tn_result (env n))) = true /\
    es = [Attempted (first && gate && applyPreGate) budget; Waited (retryDelay rc (Z.of_nat n) (tn_jitter (env n)))].

Definition last_turn (exhausted gate : bool) (n : nat) (es : list (leaf_event R)) : Prop :=
  match turn_budget (env n) with
  | inl s => es = [Finished (lk_fail k s)]
  | inr budget =>
      if tn_open (env n)
      then es = [Attempted (gate && applyPreGate) budget; Finished (tn_result (env n))] /\
           (exhausted = true \/ retried (lk_status k (tn_result (env n))) = false)
      else es = [Finished (lk_fail k (pool_closed (lk_closed k)))]
  end.

Lemma leaf_run_exact (more attempt : nat) (gate : bool) :
  exists (n : nat) (parts : list (list (leaf_event R))) (final : list (leaf_event R)),
    (n <= more)%nat /\ length parts = n /\ leaf_run more attempt gate = concat parts ++ final /\
    (forall i es, parts !! i = Some es -> retried_turn (i =? 0)%nat gate (attempt + i) es) /\
    last_turn (n =? more)%nat (gate && (n =? 0)%nat) (attempt + n) final.
Proof.
  revert attempt gate. induction more as [|more IH]; intros attempt gate; cbn [leaf_run].
  { eexists 0%nat, [], _. split_and!; try done. unfold last_turn. rewrite Nat.add_0_r. cbn [Nat.eqb].
    rewrite andb_true_r. destruct (turn_budget (env attempt)); [done|]. destruct (tn_open (env attempt)); cbn; auto. }
  assert (Hstop : forall final, last_turn false gate attempt final ->
    exists (n : nat) (parts : list (list (leaf_event R))) (fin : list (leaf_event R)),
    (n <= S more)%nat /\ length parts = n /\ final = concat parts ++ fin /\
    (forall i es, parts !! i = Some es -> retried_turn (i =? 0)%nat gate (attempt + i) es) /\
    last_turn (n =? S more)%nat (gate && (n =? 0)%nat) (attempt + n) fin).
  { intros final H. exists 0%nat, [], final. cbn. rewrite Nat.add_0_r, andb_true_r. split_and!; try done. lia. }
  destruct (turn_budget (env attempt)) as [s|budget] eqn:Eb; [apply Hstop; unfold last_turn; by rewrite Eb|].
  destruct (tn_open (env attempt)) eqn:Eo; cbn [negb]; [|apply Hstop; unfold last_turn; by rewrite Eb, Eo].
  destruct (retried (lk_status k (tn_result (env attempt)))) eqn:Er;
    [|apply Hstop; unfold last_turn; rewrite Eb, Eo; auto].
  destruct (IH (S attempt) false) as (n & parts & final & Hn & Hl & Hrun & Hp & Hf).
  exists (S n), ([Attempted (gate && applyPreGate) budget; Waited (retryDelay rc (Z.of_nat attempt) (tn_jitter (env attempt)))] :: parts), final.
  cbn [length concat app Nat.eqb]. rewrite Hrun, Hl, andb_false_r. cbn [andb] in Hf. split_and!; try done; [lia| |].
  - intros [|i] es Hi; cbn in Hi.
    + injection Hi as <-. exists budget. rewrite Nat.add_0_r. done.
    + specialize (Hp i es Hi). rewrite Nat.add_succ_r. cbn [Nat.eqb]. destruct Hp as (bu & H1 & H2 & H3 & ->).
      exists bu. cbn [andb]. rewrite andb_false_r. done.
  - rewrite Nat.add_succ_r. done.
Qed.

Lemma turn_counts (parts : list (list (leaf_event R))) (gate : bool) (attempt : nat) :
  (forall i es, parts !! i = Some es -> retried_turn (i =? 0)%nat gate (attempt + i) es) ->
  length (List.filter leaf_finished (concat parts)) = 0%nat /\
  length (List.filter leaf_attempted (concat parts)) = length parts.
Proof.
  intros H. assert (Hf : Forall (fun es => exists g b d, es = [Attempted g b; Waited d]) parts).
  { apply Forall_forall. intros es [i Hi]%list_elem_of_lookup. destruct (H i es Hi) as (b & _ & _ & _ & ->). eauto. }
  clear H. induction Hf as [|es parts (g & b & d & ->) _ [IH1 IH2]]; [done|]. cbn. by rewrite IH1, IH2.
Qed.

End leaf.

Definition queryLeaf (rc : RetryConfig) (timeout : Z) (applyPreGate : bool) (env : nat -> turn AsyncQueryResult) :=
  leaf_run query_kind rc timeout applyPreGate env (read_attempts rc - 1) 1 true.

Definition executeLeaf (rc : RetryConfig) (idem : Idempotency) (timeout : Z) (applyPreGate : bool)
    (env : nat -> turn ExecResult) :=
  leaf_run execute_kind rc timeout applyPreGate env (resolveWriteAttempts rc idem - 1) 1 true.

(** The retry loops of the asynchronous leaf statements.  A run is some failed
    attempts, each retryable and followed by its backoff, and a last turn: the
    operation's stop or (for queries) the end of the time budget or a closed pool
    before the attempt, or an attempt whose result is not retried or is the last
    allowed.  So there are at most the configured attempts, the completion is called
    once, the gate is passed at most on the first attempt, and every attempt of a
    query with a timeout has a positive budget within it.  Circuit refusals and
    overloads are never retried, and query timeouts not for queries. *)
Theorem async_retries_exact {R} (k : leaf_kind R) (rc : RetryConfig) (timeout : Z) (gate : bool) (env : nat -> turn R)
    (attempts : nat) :
  (1 <= attempts)%nat ->
  let es := leaf_run k rc timeout gate env (attempts - 1) 1 true in
  (length (List.filter leaf_attempted es) <= attempts)%nat /\ length (List.filter leaf_finished es) = 1%nat /\
  (exists (n : nat) (parts : list (list (leaf_event R))) (final : list (leaf_event R)),
     (n < attempts)%nat /\ length parts = n /\ es = concat parts ++ final /\
     (forall i p, parts !! i = Some p -> retried_turn k rc timeout gate env (i =? 0)%nat true (1 + i) p) /\
     last_turn k timeout gate env (n =? attempts - 1)%nat (n =? 0)%nat (1 + n) final) /\
  (lk_timed k = true -> 0 < timeout -> (forall j, 0 <= tn_elapsed (env j)) ->
     forall g b, Attempted g b ∈ es -> 0 < b <= timeout).
Proof.
  intros Ha. cbv zeta. destruct (leaf_run_exact k rc timeout gate env (attempts - 1) 1 true) as (n & parts & final & Hn & Hl & Hrun & Hp & Hf).
  destruct (turn_counts k rc timeout gate env parts true 1 Hp) as [C1 C2]. cbn [andb] in Hf. rewrite Hrun.
  assert (Hfin : length (List.filter leaf_finished final) = 1%nat /\ (length (List.filter leaf_attempted final) <= 1)%nat).
  { unfold last_turn in Hf. destruct (turn_budget _ _ _); [subst; cbn; lia|]. destruct (tn_open _); [destruct Hf as [-> _]|subst]; cbn; lia. }
  rewrite !List.filter_app, !length_app, C1, C2. split_and!; [lia|lia| |].
  { exists n, parts, final. split_and!; try done. lia. }
  intros Ht Hpos Hel g b Hin.
  assert (Hbud : forall j bu, turn_budget k timeout (env j) = inr bu -> 0 < bu <= timeout).
  { intros j bu. unfold turn_budget. rewrite Ht. cbn [andb]. specialize (Hel j). destruct (Z.ltb_spec 0 timeout); [|lia].
    destruct (negb _); [done|]. destruct (Z.leb_spec (timeout - tn_elapsed (env j)) 0); [done|]. intros [= <-]. lia. }
  apply elem_of_app in Hin as [Hin|Hin].
  - apply list_elem_of_In, in_concat in Hin as (p & Hpin & Hin). apply list_elem_of_In, list_elem_of_lookup in Hpin as [i Hi].
    destruct (Hp i p Hi) as (bu & Hb & _ & _ & ->). destruct Hin as [[= _ <-]|[?|[]]]; [by eapply Hbud|done].
  - unfold last_turn in Hf. destruct (turn_budget k timeout (env (1 + n)%nat)) as [s|bu] eqn:Eb; [subst; set_solver|].
    destruct (tn_open _); [destruct Hf as [-> _]|subst; set_solver].
    apply elem_of_cons in Hin as [[= _ ->]|Hin]; [by eapply Hbud|set_solver].
Qed.

(** ** Groups *)

(** What a group statement does; a leaf statement runs without gate and
    interceptors. *)
Inductive group_event (R : Type) : Type :=
  | GGate (s : Status)
  | GHook (h : hook)
  | GLeaf (n : Node) (budget : Z)
  | GMarkWrite
  | GBuffered
  | GDone (r : R).
Arguments GGate {R}. Arguments GHook {R}. Arguments GLeaf {R}. Arguments GMarkWrite {R}. Arguments GBuffered {R}.
Arguments GDone {R}.

Definition is_gdone {R} (e : group_event R) : bool := match e with GDone _ => true | _ => false end.
Definition is_gtold {R} (e : group_event R) : bool := match e with GHook (OnCompletion _) => true | _ => false end.
Definition is_gmark {R} (e : group_event R) : bool := match e with GMarkWrite => true | _ => false end.
Definition is_gbuffered {R} (e : group_event R) : bool := match e with GBuffered => true | _ => false end.
Definition leaf_of {R} (e : group_event R) : list Node := match e with GLeaf n _ => [n] | _ => [] end.
Definition leaves {R} (es : list (group_event R)) : list Node := concat (map leaf_of es).
Definition gcount {R} (f : group_event R -> bool) (es : list (group_event R)) : nat := length (List.filter f es).

Section groups.
Context {C : Type} {RC : ResultCache C}.

(** The interceptors' end and the completion ([state->finish]). *)
Definition group_finish {R} (status : R -> Status) (r : R) : list (group_event R) :=
  [GHook (AfterExecution (status r)); GHook (OnCompletion (status r)); GDone r].

(** The entry of both group statements: executor, gate, interceptors. *)
Definition group_entry {R} (fail : Status -> R) (posted : bool) (gate before : Status) (run : list (group_event R))
    : list (group_event R) :=
  if negb posted then [GDone (fail overloaded)]
  else if negb (status_ok gate) then [GGate gate; GDone (fail gate)]
  else if negb (status_ok before) then
    [GGate gate; GHook OnRoute; GHook (BeforeExecution before); GHook (OnCompletion before); GDone (fail before)]
  else [GGate gate; GHook OnRoute; GHook (BeforeExecution before)] ++ run.

Definition query_fail (s : Status) : AsyncQueryResult := fallback_result s rs_empty.

(** [queryGroup] past the interceptors.  [leaf] is the result of a leaf query,
    [None] when it cannot start; [elapsed] is the time since the start when the
    replica has answered. *)
Definition read_run (g : Group) (target : Node) (timeout : Z) (leaf : Node -> option AsyncQueryResult) (elapsed : Z)
    : list (group_event AsyncQueryResult) :=
  match leaf target with
  | None => group_finish aq_status
              (query_fail (pool_closed ($"group read target closed before asynchronous execution")))
  | Some r =>
      let fallback := negb (n_name target =s n_name (g_primary g)) && g_fallbackToPrimary g && fallback_status (aq_status r) in
      GLeaf target timeout ::
      if negb fallback then group_finish aq_status r
      else if (0 <? timeout) && (timeout - elapsed <=? 0) then group_finish aq_status r
      else
        let remaining := if 0 <? timeout then timeout - elapsed else timeout in
        match leaf (g_primary g) with
        | None => group_finish aq_status
                    (query_fail (pool_closed ($"group primary closed before asynchronous read fallback")))
        | Some p => GLeaf (g_primary g) remaining :: group_finish aq_status p
        end
  end.

Definition queryGroup (g : Group) (now : Z) (round : nat) (w : World C) (timeout : Z) (posted : bool)
    (gate before : Status) (leaf : Node -> option AsyncQueryResult) (elapsed : Z) : list (group_event AsyncQueryResult) :=
  group_entry query_fail posted gate before (read_run g (readTarget g now round w) timeout leaf elapsed).

Definition exec_fail (s : Status) : ExecResult := fallback_exec s 0.

(** The offer to the write buffer; [enq] is its answer, [None] without a buffer. *)
Definition offer_buffer (g : Group) (enq : option bool) (r : ExecResult) : list (group_event ExecResult) :=
  match enq with
  | Some true => GBuffered :: group_finish ex_status (exec_fail (buffered_status g))
  | _ => group_finish ex_status r
  end.

(** [state->run] over the targets that are left. *)
Fixpoint group_run (g : Group) (shadowRoute : bool) (timeout : Z) (enq : option bool) (leaf : Node -> option ExecResult)
    (targets : list Node) (last : ExecResult) : list (group_event ExecResult) :=
  match targets with
  | [] => offer_buffer g enq last
  | t :: rest =>
      match leaf t with
      | None => group_finish ex_status
                  (exec_fail (pool_closed ($"group write target closed before asynchronous execution")))
      | Some r =>
          GLeaf t timeout ::
          if status_ok (ex_status r) then (if shadowRoute then [] else [GMarkWrite]) ++ group_finish ex_status r
          else if shadowRoute || negb (safeToFailoverWrite (ex_status r)) then group_finish ex_status r
          else group_run g shadowRoute timeout enq leaf rest r
      end
  end.

(** [executeGroup] past the interceptors. *)
Definition write_run (g : Group) (now : Z) (w : World C) (timeout : Z) (enq : option bool)
    (leaf : Node -> option ExecResult) : list (group_event ExecResult) :=
  let shadowRoute := match shadow_target g w with Some _ => true | None => false end in
  match writeTargets g now w with
  | [] => if shadowRoute then group_finish ex_status (exec_fail (no_primary g))
          else offer_buffer g enq (exec_fail (no_primary g))
  | targets => group_run g shadowRoute timeout enq leaf targets (exec_fail (no_primary g))
  end.

Definition executeGroup (g : Group) (now : Z) (w : World C) (timeout : Z) (posted : bool) (gate before : Status)
    (enq : option bool) (leaf : Node -> option ExecResult) : list (group_event ExecResult) :=
  group_entry exec_fail posted gate before (write_run g now w timeout enq leaf).

(** The result the completion gets. *)
Fixpoint result_of {R} (es : list (group_event R)) : option R :=
  match es with
  | [] => None
  | GDone r :: _ => Some r
  | _ :: es => result_of es
  end.

(** *** The group write dispatches like the synchronous one *)

Lemma gcount_app {R} (f : group_event R -> bool) a b : gcount f (a ++ b) = (gcount f a + gcount f b)%nat.
Proof. unfold gcount. by rewrite List.filter_app, length_app. Qed.

Lemma leaves_app {R} (a b : list (group_event R)) : leaves (a ++ b) = leaves a ++ leaves b.
Proof. unfold leaves. by rewrite map_app, concat_app. Qed.

Definition is_gasked {R} (e : group_event R) : bool := match e with GHook (BeforeExecution _) => true | _ => false end.

(** A run past the interceptors: one completion, one end told, none asked again. *)
Definition runs_once {R} (es : list (group_event R)) : Prop :=
  gcount is_gdone es = 1%nat /\ gcount is_gtold es = 1%nat /\ gcount is_gasked es = 0%nat /\ (gcount is_gmark es <= 1)%nat.

Lemma finish_once {R} (status : R -> Status) (r : R) : runs_once (group_finish status r).
Proof. unfold runs_once. cbn. split_and!; try done. lia. Qed.

Lemma leaf_once {R} (n : Node) (budget : Z) (es : list (group_event R)) : runs_once es -> runs_once (GLeaf n budget :: es).
Proof. intros H. exact H. Qed.

Lemma offer_once (g : Group) (enq : option bool) (r : ExecResult) :
  runs_once (offer_buffer g enq r) /\ leaves (offer_buffer g enq r) = [].
Proof. unfold offer_buffer, runs_once. destruct enq as [[]|]; cbn; split_and!; try done; lia. Qed.

Lemma group_run_once (g : Group) (sh : bool) (timeout : Z) (enq : option bool) leaf (targets : list Node) (last : ExecResult) :
  runs_once (group_run g sh timeout enq leaf targets last) /\
  leaves (group_run g sh timeout enq leaf targets last) `prefix_of` targets.
Proof.
  revert last. induction targets as [|t ts IH]; intros last; cbn [group_run].
  { destruct (offer_once g enq last) as [? ->]. done. }
  destruct (leaf t) as [r|]; [|split; [apply finish_once|apply prefix_nil]].
  destruct (status_ok (ex_status r)).
  { split; [|by destruct sh; apply (prefix_app [t]), prefix_nil]. unfold runs_once. destruct sh; cbn; split_and!; try done; lia. }
  destruct (sh || negb (safeToFailoverWrite (ex_status r))); [split; [apply leaf_once, finish_once|apply (prefix_app [t]), prefix_nil]|].
  destruct (IH r) as [H1 H2]. split; [exact H1|].
  change (t :: leaves (group_run g sh timeout enq leaf ts r) `prefix_of` t :: ts). by apply prefix_cons.
Qed.

Lemma write_run_once (g : Group) (now : Z) (w : World C) (timeout : Z) (enq : option bool) leaf :
  runs_once (write_run g now w timeout enq leaf) /\ leaves (write_run g now w timeout enq leaf) `prefix_of` writeTargets g now w.
Proof.
  unfold write_run. cbv zeta. destruct (writeTargets g now w) as [|n ts]; [|apply group_run_once].
  destruct (shadow_target g w); [split; [apply finish_once|done]|].
  destruct (offer_once g enq (exec_fail (no_primary g))) as [? ->]. done.
Qed.

(** A query tries its target, and the primary only to fall back. *)
Definition read_leaves (g : Group) (target : Node) (leaf : Node -> option AsyncQueryResult) (l : list Node) : Prop :=
  l = [] \/ l = [target] \/
  l = [target; g_primary g] /\ n_name target <> n_name (g_primary g) /\ g_fallbackToPrimary g = true /\
    exists r, leaf target = Some r /\ fallback_status (aq_status r) = true.

Lemma read_run_once (g : Group) (target : Node) (timeout : Z) leaf (elapsed : Z) :
  runs_once (read_run g target timeout leaf elapsed) /\
  read_leaves g target leaf (leaves (read_run g target timeout leaf elapsed)).
Proof.
  unfold read_run, read_leaves. destruct (leaf target) as [r|] eqn:Eq; [|split; [apply finish_once|by left]].
  assert (Hone : runs_once (GLeaf target timeout :: group_finish aq_status r)) by apply leaf_once, finish_once.
  destruct (n_name target =s n_name (g_primary g)) eqn:En; [split; [done|cbn; auto]|].
  destruct (g_fallbackToPrimary g) eqn:Ef; [|split; [done|cbn; auto]].
  destruct (fallback_status (aq_status r)) eqn:Es; [|split; [done|cbn; auto]]. cbn [andb negb].
  destruct ((0 <? timeout) && (timeout - elapsed <=? 0)); [split; [done|cbn; auto]|].
  destruct (leaf (g_primary g)) as [p|]; [|split; [apply leaf_once, finish_once|cbn; auto]].
  split; [apply leaf_once, leaf_once, finish_once|]. right; right. split_and!; eauto.
  intros E. by rewrite E, str_eqb_refl in En.
Qed.

Lemma entry_once {R} (fail : Status -> R) (posted : bool) (gate before : Status) (run : list (group_event R)) :
  runs_once run ->
  let es := group_entry fail posted gate before run in
  gcount is_gdone es = 1%nat /\ gcount is_gtold es = gcount is_gasked es /\ (gcount is_gmark es <= 1)%nat /\
  (leaves es = [] \/ leaves es = leaves run).
Proof.
  intros (H1 & H2 & H3 & H4). cbv zeta. unfold group_entry.
  destruct posted; cbn [negb]; [|split_and!; try done; [cbn; lia|by left]].
  destruct (status_ok gate); cbn [negb]; [|split_and!; try done; [cbn; lia|by left]].
  destruct (status_ok before); cbn [negb]; [|split_and!; try done; [cbn; lia|by left]].
  rewrite !gcount_app, leaves_app, H1, H2, H3. split_and!; try done; by right.
Qed.

(** The synchronous dispatch called [markWrite] of the group as often as the
    asynchronous run did. *)
Definition marked_alike (g : Group) (now : Z) (w : World C) (d : Dispatch C) (es : list (group_event ExecResult)) : Prop :=
  exists w1, d_world d = Nat.iter (gcount is_gmark es) (markWrite_group g now) w1 /\ w_lastWriteNs w1 = w_lastWriteNs w.

(** The leaves answer with the statuses the dispatch recorded. *)
Definition answers_alike (leaf : Node -> option ExecResult) (tried : list (Node * Status)) : Prop :=
  forall n st, (n, st) ∈ tried -> ex_status <$> leaf n = Some st.

Definition dispatched (r : Dispatch C + Dispatch C) : Dispatch C := match r with inl d | inr d => d end.

Lemma execute_leaf_lastWrite n env a (w : World C) st a' w' :
  execute_leaf n env a w = (st, a', w') -> w_lastWriteNs w' = w_lastWriteNs w.
Proof. unfold execute_leaf. set (r := write_attempts _ _ _ _ _). intros [= _ _ <-]. by destruct (status_ok (l_status r)). Qed.

(** A group write's run against the synchronous failover loop, from any point on. *)
Lemma group_run_agrees (g : Group) (timeout now : Z) (enq : option bool) (env : Node -> nat -> Attempt Z)
    (leaf : Node -> option ExecResult) (targets : list Node) (affected : Z) (last : ExecResult)
    (w : World C) (tried : list (Node * Status)) :
  let es := group_run g false timeout enq leaf targets last in
  let r := try_targets g env now targets (ex_status last) affected w tried in
  exists later, d_tried (dispatched r) = tried ++ later /\ d_buffered (dispatched r) = false /\
  (answers_alike leaf later ->
   leaves es = later.*1 /\ marked_alike g now w (dispatched r) es /\
   match r with
   | inl d => ex_status <$> result_of es = Some (d_status d) /\ gcount is_gbuffered es = 0%nat
   | inr d => ex_status <$> result_of es = Some (match enq with Some true => buffered_status g | _ => d_status d end) /\
              gcount is_gbuffered es = (match enq with Some true => 1 | _ => 0 end)%nat
   end).
Proof.
  cbv zeta. revert affected last w tried.
  induction targets as [|t ts IH]; intros affected last w tried; cbn [try_targets group_run].
  { exists []. rewrite app_nil_r. split_and!; [done|done|]. intros _. unfold offer_buffer.
    split_and!; [by destruct enq as [[]|]|exists w; by destruct enq as [[]|]|by destruct enq as [[]|]..]. }
  destruct (execute_leaf t (env t) 0 w) as [[st a] w1] eqn:Ee. pose proof (execute_leaf_lastWrite _ _ _ _ _ _ _ Ee) as Hw.
  assert (Hhead : forall later, answers_alike leaf ((t, st) :: later) -> exists r, leaf t = Some r /\ ex_status r = st).
  { intros later H. specialize (H t st ltac:(set_solver)). destruct (leaf t) as [r|]; [|done]. injection H as H. eauto. }
  destruct (status_ok st) eqn:Es.
  { exists [(t, st)]. split_and!; [done|done|]. intros H. destruct (Hhead _ H) as (r & -> & <-). rewrite Es.
    split_and!; try done. exists w1. done. }
  destruct (safeToFailoverWrite st) eqn:Ef; cbn [negb].
  - destruct (IH a (mkExecResult st a Native) w1 (tried ++ [(t, st)])) as (later & H1 & H2 & H3). cbn [ex_status] in *.
    exists ((t, st) :: later). rewrite H1, <- app_assoc. split_and!; [done|done|]. intros H.
    destruct (Hhead _ H) as (r & Hr & Hst). rewrite Hr, Hst, Es, Ef. cbn [orb negb].
    destruct (IH a r w1 (tried ++ [(t, st)])) as (later' & H1' & _ & H3'). rewrite Hst in *.
    assert (later' = later) as -> by (rewrite H1 in H1'; by apply (inj (app (tried ++ [(t, st)])))).
    destruct H3' as (L & (w0 & M1 & M2) & R); [intros n x Hx; apply H; set_solver|].
    split_and!; [by rewrite fmap_cons, <- L|exists w0; split; [exact M1|congruence]|exact R].
  - exists [(t, st)]. split_and!; [done|done|]. intros H. destruct (Hhead _ H) as (r & -> & <-). rewrite Es, Ef.
    split_and!; try done. exists w1. done.
Qed.

(** Every group statement ends in one completion, whatever executor, gate,
    interceptors, leaves and buffer answer; interceptors that were asked are told of
    the end, once.  A group query tries the routed target and then at most the
    primary, only when the target is another node, falling back is configured and the
    failure is one to fall back on; a group write tries a prefix of the write targets
    in order and marks the write at most once. *)
Theorem async_group_completes (g : Group) (now : Z) (round : nat) (w : World C) (timeout elapsed : Z) (posted : bool)
    (gate before : Status) (enq : option bool) (qleaf : Node -> option AsyncQueryResult) (xleaf : Node -> option ExecResult) :
  let q := queryGroup g now round w timeout posted gate before qleaf elapsed in
  let x := executeGroup g now w timeout posted gate before enq xleaf in
  let target := readTarget g now round w in
  (gcount is_gdone q = 1%nat /\ gcount is_gdone x = 1%nat) /\
  (gcount is_gtold q = gcount is_gasked q /\ gcount is_gtold x = gcount is_gasked x) /\
  read_leaves g target qleaf (leaves q) /\
  leaves x `prefix_of` writeTargets g now w /\ (gcount is_gmark x <= 1)%nat.
Proof.
  cbv zeta. destruct (read_run_once g (readTarget g now round w) timeout qleaf elapsed) as [Q QL].
  destruct (write_run_once g now w timeout enq xleaf) as [X XL].
  destruct (entry_once query_fail posted gate before _ Q) as (Q1 & Q2 & _ & Q4).
  destruct (entry_once exec_fail posted gate before _ X) as (X1 & X2 & X3 & X4). split_and!; try done.
  - unfold queryGroup. destruct Q4 as [-> | ->]; [by left|done].
  - unfold executeGroup. destruct X4 as [-> | ->]; [apply prefix_nil|done].
Qed.

(** C25. The asynchronous group write decides like the synchronous one: when each node
    the synchronous dispatch tried answers the asynchronous engine with the same status
    (so its pool is open when its turn comes), the engine tries the same nodes in the
    same order, ends in the same status, offers the write to the buffer in the same
    cases and calls the group's [markWrite] as often. *)
Theorem async_group_write_agrees (g : Group) (env : Node -> nat -> Attempt Z) (leaf : Node -> option ExecResult)
    (now timeout affected : Z) (enq : option bool) (gate before : Status) (w : World C) :
  status_ok gate = true -> status_ok before = true ->
  let d := dispatchWrite g env now enq affected w in
  let es := executeGroup g now w timeout true gate before enq leaf in
  answers_alike leaf (d_tried d) ->
  ex_status <$> result_of es = Some (d_status d) /\
  leaves es = (d_tried d).*1 /\
  gcount is_gbuffered es = (if d_buffered d then 1 else 0)%nat /\
  marked_alike g now w d es.
Proof.
  intros Hg Hb. cbv zeta. unfold executeGroup, group_entry. rewrite Hg, Hb. cbn [negb]. intros Hl.
  set (run := write_run g now w timeout enq leaf). set (d := dispatchWrite g env now enq affected w) in *.
  assert (H : ex_status <$> result_of run = Some (d_status d) /\ leaves run = (d_tried d).*1 /\
    gcount is_gbuffered run = (if d_buffered d then 1 else 0)%nat /\ marked_alike g now w d run).
  { unfold run, write_run, d, dispatchWrite in *. clear run d. cbv zeta. destruct (shadow_target g w) as [s|] eqn:Esh.
    - assert (Ew : writeTargets g now w = [s]) by (unfold writeTargets; by rewrite Esh). rewrite Ew.
      cbn [group_run]. destruct (execute_leaf s (env s) 0 w) as [[st a] w1] eqn:Ee. cbn [d_tried d_status d_buffered] in *.
      apply execute_leaf_lastWrite in Ee. specialize (Hl s st ltac:(set_solver)).
      destruct (leaf s) as [r|]; [|done]. injection Hl as Hl. rewrite Hl.
      destruct (status_ok st); cbn; rewrite ?Hl; (split_and!; try done); by exists w1.
    - assert (Hrun : match writeTargets g now w with [] => offer_buffer g enq (exec_fail (no_primary g))
                | targets => group_run g false timeout enq leaf targets (exec_fail (no_primary g)) end =
              group_run g false timeout enq leaf (writeTargets g now w) (exec_fail (no_primary g)))
        by (by destruct (writeTargets g now w)).
      rewrite Hrun. clear Hrun.
      destruct (group_run_agrees g timeout now enq env leaf (writeTargets g now w) affected (exec_fail (no_primary g)) w [])
        as (later & H1 & H2 & H3). cbn [app] in H1. cbn [ex_status exec_fail fallback_exec] in H1, H2, H3.
      rewrite <- H1 in H3.
      destruct (try_targets g env now (writeTargets g now w) (no_primary g) affected w []) as [d|d]; cbn [dispatched] in *.
      + destruct (H3 Hl) as (L & M & R1 & R2). rewrite H2. done.
      + assert (Hl' : answers_alike leaf (d_tried d)) by (by destruct enq as [[]|]).
        destruct (H3 Hl') as (L & M & R1 & R2). destruct enq as [[]|]; cbn; rewrite ?H2; done. }
  destruct H as (H1 & H2 & H3 & H4). exact (conj H1 (conj H2 (conj H3 H4))).
Qed.

(** A write target that cannot start ends the write, although a closed pool is a
    failure the write may fail over on and other targets may be left. *)
Theorem closed_target_stops_failover (g : Group) (now timeout : Z) (w : World C) (gate before : Status) (enq : option bool)
    (leaf : Node -> option ExecResult) (t : Node) (rest : list Node) :
  status_ok gate = true -> status_ok before = true -> writeTargets g now w = t :: rest -> leaf t = None ->
  let es := executeGroup g now w timeout true gate before enq leaf in
  let st := pool_closed ($"group write target closed before asynchronous execution") in
  leaves es = [] /\ result_of es = Some (exec_fail st) /\ safeToFailoverWrite st = true.
Proof.
  intros Hg Hb Ht Hl. cbv zeta. unfold executeGroup, group_entry, write_run. rewrite Hg, Hb, Ht. cbn [negb group_run].
  rewrite Hl. done.
Qed.

End groups.

(** ** Sessions and transactions *)

(** The source an engine call is for: a group, a leaf with a shadow of its own, a
    pool that is still there. *)
Record engine_source : Type := mkSource { so_group : bool; so_shadow : bool; so_pool : bool }.

Definition directLeafEligible (s : engine_source) : bool := negb (so_group s || so_shadow s) && so_pool s.

(** [query] and [execute]: whether the engine takes the statement; [usable] is
    whether the callbacks it needs are given. *)
Definition engine_takes (usable : bool) (s : engine_source) : bool :=
  usable && (so_group s || directLeafEligible s).

(** How the caller's operation on the session ended. *)
Inductive session_answer : Type := Answered (s : Status) | Threw (what : option str).

Definition answer_status (a : session_answer) : Status :=
  match a with
  | Answered s => s
  | Threw (Some what) => status_error UnknownError ($"client async session operation threw: " ++ what)
  | Threw None => status_error UnknownError ($"client async session operation threw an unknown exception")
  end.

Record session_env : Type := mkSessionEnv {
  se_posted : bool;
  se_gate : Status;
  se_admit : Status * Z;
  se_borrow : option (Status * bool);   (* [None] when the pool never calls back *)
  se_report : Status * Z
}.

Section session_calls.
Context (bc : CircuitBreakerConfig) (name : str).

(** The entry both share, up to the pool's answer. *)
Definition session_entry (v : session_env) (b : Breaker) (run : Breaker -> list (action Status) * Breaker)
    : list (action Status) * Breaker :=
  if negb (se_posted v) then ([Phase PhRejected; Complete overloaded], b)
  else if negb (status_ok (se_gate v)) then ([Phase PhQueue; Gate (se_gate v); Complete (se_gate v)], b)
  else
    let '(st, b) := beforeAttempt bc name (se_admit v).1 (se_admit v).2 b in
    if negb (status_ok st) then ([Phase PhQueue; Gate (se_gate v); Admit st; Complete st], b)
    else let '(t, b) := run b in ([Phase PhQueue; Gate (se_gate v); Admit st] ++ t, b).

Definition runSession (write : bool) (v : session_env) (answer : session_answer) (b : Breaker)
    : list (action Status) * Breaker :=
  session_entry v b (fun b =>
    match se_borrow v with
    | None => ([], b)
    | Some (bst, handle) =>
        let ran := status_ok bst && handle in
        let st := if ran then answer_status answer else bst in
        ((if handle then [Borrow] else []) ++ [Phase PhPoolWait] ++ (if ran then [Phase PhFallback; GiveBack] else []) ++
         [Report st] ++ (if write && status_ok st then [MarkWrite] else []) ++ [Complete st] ++
         (if handle && negb ran then [GiveBack] else []),
         afterAttempt bc st (se_report v).1 (se_report v).2 b)
    end).

(** [tx] is the outcome of [transactionWithHandle]: the status, the statuses it
    reported to the breaker and whether it marked a write. *)
Definition transaction (v : session_env) (tx : Status * list Status * bool) (b : Breaker) : list (action Status) * Breaker :=
  session_entry v b (fun b =>
    let report st b := afterAttempt bc st (se_report v).1 (se_report v).2 b in
    match se_borrow v with
    | None => ([], b)
    | Some (bst, handle) =>
        if negb (status_ok bst) || negb handle then
          ((if handle then [Borrow] else []) ++ [Phase PhPoolWait; Report bst; Complete bst] ++
           (if handle then [GiveBack] else []), report bst b)
        else
          let '(st, reports, marked) := tx in
          ([Borrow; Phase PhPoolWait; Phase PhFallback] ++ map Report reports ++ (if marked then [MarkWrite] else []) ++
           [GiveBack; Complete st], foldl (fun b st => report st b) b reports)
    end).

(** When the pool calls back, both complete once, give back what they borrowed, and
    the breaker hears of every admitted session call. *)
Lemma session_calls_once (write : bool) (v : session_env) (answer : session_answer) (tx : Status * list Status * bool) (b : Breaker) :
  se_borrow v <> None ->
  let s := (runSession write v answer b).1 in
  let t := (transaction v tx b).1 in
  count is_complete s = 1%nat /\ count is_borrow s = count is_giveback s /\ count is_admission s = count is_report s /\
  count is_complete t = 1%nat /\ count is_borrow t = count is_giveback t.
Proof.
  intros Hv. cbv zeta. unfold runSession, transaction, session_entry. destruct (se_posted v); [|done]. cbn [negb].
  destruct (status_ok (se_gate v)); [|done]. cbn [negb].
  destruct (beforeAttempt bc name (se_admit v).1 (se_admit v).2 b) as [st b1].
  destruct (status_ok st) eqn:Es; cbn [negb]; [|unfold count; cbn; by rewrite Es].
  destruct (se_borrow v) as [[bst handle]|]; [|done]. destruct tx as [[txs reports] marked].
  assert (Hm : forall f : action Status -> bool, (forall x, f (Report x) = false) -> count f (map Report reports) = 0%nat).
  { intros f Hf. unfold count. induction reports as [|x l IH]; [done|]. cbn. by rewrite Hf. }
  destruct (status_ok bst), handle; cbn [andb orb negb fst]; rewrite ?count_app, ?Hm by done;
    destruct write, (status_ok (answer_status answer)), marked; cbn; unfold count; cbn; rewrite ?Es; try done.
  all: destruct (status_ok bst); done.
Qed.

End session_calls.

(** ** Samples *)





(** A tripped breaker whose probe is cancelled while it waits. *)
Definition tripped : Breaker := mkBreaker 5 2 false QueryTimeout.

Definition stopped_env : attempt_env ResultSet :=
  mkEnv true status_OK None false (status_OK, 10) (Some (status_OK, true)) (status_error Cancelled []) true status_OK true true
    status_OK (status_OK, rs_empty) (status_OK, 20).

Lemma async_stop_wedges_breaker_witness :
  let e := queryOne sample_bc ($"main") true true stopped_env tripped in
  ae_native e = false /\ (beforeAttempt sample_bc ($"main") status_OK 1000000000000 (ae_breaker e)).1 =
    status_error CircuitOpen ($"datasource 'main' circuit is half-open").
Proof.
  destruct (async_stop_wedges_breaker sample_bc ($"main") true true stopped_env tripped) as (H & _ & _);
    try reflexivity; try (cbn; lia).
  split; [exact H|]. vm_compute. reflexivity.
Defined.

Lemma declined_statement_asked_twice_witness :
  let v := mkEnv true status_OK None true (status_OK, 10) (Some (status_OK, true)) status_OK true status_OK false true status_OK
             (status_OK, rs_empty) (status_OK, 20) in
  count is_asked (ae_trace (queryOne sample_bc ($"main") true true v breaker_init)) = 2%nat.
Proof.
  cbv zeta. destruct (declined_statement_asked_twice sample_bc ($"main") true
    (mkEnv true status_OK None true (status_OK, 10) (Some (status_OK, true)) status_OK true status_OK false true status_OK
       (status_OK, rs_empty) (status_OK, 20)) breaker_init) as (H & _ & _);
    [reflexivity..|exact H].
Defined.

(** Two transient failures and a success under three attempts. *)
Definition sample_retry : RetryConfig := mkRetryConfig 3 50 1000 false.

Definition flaky_turn (k : nat) : turn AsyncQueryResult :=
  mkTurn status_OK (Z.of_nat k * 100) true
    (if (k <? 3)%nat then fallback_result (set_retryable true (status_error Deadlock [])) rs_empty
     else fallback_result status_OK rs_empty) (fun _ => 0).

Lemma async_retries_exact_witness :
  queryLeaf sample_retry 1000 true flaky_turn =
    [Attempted true 900; Waited 50; Attempted false 800; Waited 100; Attempted false 700;
     Finished (fallback_result status_OK rs_empty)] /\
  length (List.filter leaf_finished (queryLeaf sample_retry 1000 true flaky_turn)) = 1%nat.
Proof.
  split; [vm_compute; reflexivity|].
  destruct (async_retries_exact query_kind sample_retry 1000 true flaky_turn 3 ltac:(lia)) as (_ & H & _). exact H.
Defined.

(** The first failover node refuses, the second accepts. *)
Definition sample_attempts (n : Node) (k : nat) : Attempt Z :=
  if n_name n =s $"p" then refuse PoolExhausted k else accept_write k.

Definition sample_leaf (n : Node) : option ExecResult :=
  Some (if n_name n =s $"p" then mkExecResult (borrow_status PoolExhausted ($"refused")) 0 Native
        else mkExecResult status_OK 3 Native).

#[local] Instance flow_cache : ResultCache QueryCacheState := query_result_cache 32 40.

Definition sample_gate : Status := status_OK.

(** With the breakers of the sample nodes on. *)
Lemma async_group_write_agrees_witness :
  let es := executeGroup sample_group 5 sample_world 0 true sample_gate sample_gate None sample_leaf in
  let d := dispatchWrite sample_group sample_attempts 5 None 0 sample_world in
  ex_status <$> result_of es = Some status_OK /\ map n_name (leaves es) = [$"p"; $"p2"] /\
  gcount is_gmark es = 1%nat /\ marked_alike sample_group 5 sample_world d es.
Proof.
  cbv zeta. destruct (async_group_write_agrees sample_group sample_attempts sample_leaf 5 0 0 None sample_gate sample_gate
              sample_world) as (H1 & H2 & _ & H4); [reflexivity|reflexivity| |].
  - intros n st Hn. assert (Ht : d_tried (dispatchWrite sample_group sample_attempts 5 None 0 sample_world) =
      [(sample_node ($"p"), borrow_status PoolExhausted ($"refused")); (sample_node ($"p2"), status_OK)])
      by (vm_compute; reflexivity).
    rewrite Ht in Hn. apply elem_of_cons in Hn as [[= -> ->]|Hn]; [reflexivity|].
    apply list_elem_of_singleton in Hn as [= -> ->]. reflexivity.
  - rewrite H1, H2. split; [vm_compute; reflexivity|]. split; [vm_compute; reflexivity|].
    split; [vm_compute; reflexivity|exact H4].
Defined.

Lemma closed_target_stops_failover_witness :
  leaves (executeGroup failover_group 5 sample_world 0 true sample_gate sample_gate None (fun _ => None)) = [].
Proof.
  destruct (closed_target_stops_failover failover_group 5 0 sample_world sample_gate sample_gate None (fun _ => None)
    (no_breaker ($"p")) [no_breaker ($"p2")]) as (H & _); [reflexivity|reflexivity|vm_compute; reflexivity|reflexivity|].
  exact H.
Defined.

End AsyncFlow.
