(* ===== verification/Yaml.v ===== *)
(** * The YAML subset of the configuration files

    src/config/yaml_parser.cpp: lines with their indentation, block mappings and
    sequences, quoted and plain scalars, flow sequences.  [nlohmann::json] is the
    vendored library's value; its parser is the class [JsonParser], an argument of
    the definitions.  An object is its entries in key order, as the library's map
    has them.  The parser's index into the lines is the list of lines that are left.
    Fuel bounds the recursion; [yaml_terminates] shows that the fuel [parseYaml]
    gives is always enough. *)

From Stdlib Require Import SpecFloat.
From S2P Require Import Prelude Types Script OracleTypes.

Module Yaml.

Inductive json : Type :=
  | JNull
  | JBool (b : bool)
  | JInt (z : Z)
  | JFloat (d : spec_float)
  | JString (s : str)
  | JArray (l : list json)
  | JObject (l : list (str * json)).

(** [json::parse]: a value, or the text of the exception. *)
Class JsonParser : Type := { json_parse : str -> str + json }.

(** What the library documents of it, as far as the configuration relies on it. *)
Class JsonLaws `{JsonParser} : Prop := {
  json_int : forall z, int64_range z -> json_parse (to_string z) = inr (JInt z);
  json_empty_array : json_parse ($"[]") = inr (JArray []);
  json_empty_object : json_parse ($"{}") = inr (JObject [])
}.

Inductive result (A : Type) : Type := Parsed (a : A) | Failed (error : str) | NoFuel.
Arguments Parsed {A}. Arguments Failed {A}. Arguments NoFuel {A}.

Definition bind {A B} (r : result A) (k : A -> result B) : result B :=
  match r with Parsed a => k a | Failed e => Failed e | NoFuel => NoFuel end.

Notation "'let*' x ':=' r 'in' k" := (bind r (fun x => k)) (at level 200, x pattern, r at level 100, k at level 200).

(** ** Texts *)

Definition HASH : ascii := "#"%char.
Definition COLON : ascii := ":"%char.
Definition DASH : ascii := "-"%char.
Definition SPACE : ascii := " "%char.
Definition TAB : ascii := "009"%char.
Definition CR : ascii := "013"%char.

Fixpoint trim_front (s : str) : str :=
  match s with
  | c :: r => if isspace c then trim_front r else s
  | [] => []
  end.

Definition trim (s : str) : str := reverse (trim_front (reverse (trim_front s))).

Definition lower (s : str) : str := map tolower s.

(** The quote state of the scanners after a character outside of the doubled quote
    of a single-quoted text: [single], [doubleQuoted], [escaped]. *)
Record quotes : Type := mkQuotes { q_single : bool; q_double : bool; q_escaped : bool }.

Definition outside : quotes := mkQuotes false false false.

(** The branches the scanners share; [None] is a character they look at. *)
Definition quote_step (q : quotes) (c : ascii) : option quotes :=
  if q_double q && q_escaped q then Some (mkQuotes (q_single q) (q_double q) false)
  else if q_double q && (c =c BSLASH) then Some (mkQuotes (q_single q) (q_double q) true)
  else if negb (q_double q) && (c =c QUOTE) then Some (mkQuotes (negb (q_single q)) (q_double q) (q_escaped q))
  else if negb (q_single q) && (c =c DQUOTE) then Some (mkQuotes (q_single q) (negb (q_double q)) (q_escaped q))
  else None.

(** A doubled quote inside a single-quoted text. *)
Definition doubled (q : quotes) (c : ascii) (r : str) : bool :=
  negb (q_double q) && (c =c QUOTE) && q_single q && head_is QUOTE r.

Fixpoint comment_loop (q : quotes) (prev : option ascii) (s : str) : str :=
  match s with
  | [] => []
  | c :: r =>
      if doubled q c r then
        match r with d :: r' => c :: d :: comment_loop q (Some d) r' | [] => [c] end
      else
        match quote_step q c with
        | Some q => c :: comment_loop q (Some c) r
        | None =>
            if negb (q_single q) && negb (q_double q) && (c =c HASH) &&
               (match prev with None => true | Some p => isspace p end)
            then [] else c :: comment_loop q (Some c) r
        end
  end.

Definition withoutComment (s : str) : str := comment_loop outside None s.

Fixpoint colon_loop (q : quotes) (depth : Z) (i : nat) (s : str) : option nat :=
  match s with
  | [] => None
  | c :: r =>
      if doubled q c r then
        match r with _ :: r' => colon_loop q depth (2 + i) r' | [] => None end
      else
        match quote_step q c with
        | Some q => colon_loop q depth (S i) r
        | None =>
            if q_single q || q_double q then colon_loop q depth (S i) r
            else if (c =c "["%char) || (c =c "{"%char) then colon_loop q (depth + 1) (S i) r
            else if (c =c "]"%char) || (c =c "}"%char) then colon_loop q (depth - 1) (S i) r
            else if (c =c COLON) && (depth =? 0)%Z && (match r with [] => true | d :: _ => isspace d end)
            then Some i
            else colon_loop q depth (S i) r
        end
  end.

Definition mappingColon (s : str) : option nat := colon_loop outside 0 0 s.

Definition sequenceLine (s : str) : bool :=
  match s with
  | c :: r => (c =c DASH) && (match r with [] => true | d :: _ => isspace d end)
  | [] => false
  end.

(** ** Lines *)

Record Line : Type := mkLine { number : nat; indent : nat; text : str }.

(** [std::getline] until the end of the text. *)
Fixpoint getlines (cur : str) (s : str) : list str :=
  match s with
  | [] => match cur with [] => [] | _ => [reverse cur] end
  | c :: r => if c =c LF then reverse cur :: getlines [] r else getlines (c :: cur) r
  end.

Definition drop_cr (s : str) : str :=
  match last s with Some c => if c =c CR then take (length s - 1) s else s | None => s end.

Definition at_line (n : nat) (message : str) : str := $"line " ++ nat_string n ++ $": " ++ message.

Fixpoint tokenize (n : nat) (raws : list str) : result (list Line) :=
  match raws with
  | [] => Parsed []
  | raw :: raws =>
      let raw := drop_cr raw in
      let ind := span (chr_eqb SPACE) raw in
      let rest := drop ind raw in
      if head_is TAB rest then Failed (at_line n ($"tabs are not allowed for YAML indentation"))
      else
        let content := trim (withoutComment rest) in
        let* lines := tokenize (S n) raws in
        if (content =s []) || (content =s $"---") || (content =s $"...") then Parsed lines
        else Parsed (mkLine n ind content :: lines)
  end.

(** ** Scalars *)

Fixpoint decode_single (s : str) : str :=
  match s with
  | c :: r =>
      if (c =c QUOTE) && head_is QUOTE r then match r with _ :: r' => QUOTE :: decode_single r' | [] => [c] end
      else c :: decode_single r
  | [] => []
  end.

Definition inner (s : str) : str := take (length s - 2) (drop 1 s).
Definition ends_in (c : ascii) (s : str) : bool := match last s with Some d => d =c c | None => false end.

(** The elements of a flow sequence; [cur] is the element being read, reversed. *)
Fixpoint flow_loop (element : str -> result json) (n : nat) (q : quotes) (depth : Z) (cur : str) (out : list json) (s : str)
    : result (list json) :=
  let finish :=
    let part := trim (reverse cur) in
    if part =s [] then Failed (at_line n ($"empty value in flow sequence")) else element part in
  match s with
  | [] =>
      (* the comma the loop reads behind the text *)
      if q_double q && q_escaped q || (q_single q || q_double q) || negb (depth =? 0)%Z then Parsed out
      else let* e := finish in Parsed (out ++ [e])
  | c :: r =>
      match quote_step q c with
      | Some q => flow_loop element n q depth (c :: cur) out r
      | None =>
          if q_single q || q_double q then flow_loop element n q depth (c :: cur) out r
          else if (c =c "["%char) || (c =c "{"%char) then flow_loop element n q (depth + 1) (c :: cur) out r
          else if (c =c "]"%char) || (c =c "}"%char) then flow_loop element n q (depth - 1) (c :: cur) out r
          else if (c =c ","%char) && (depth =? 0)%Z then
            let* e := finish in flow_loop element n q depth [] (out ++ [e]) r
          else flow_loop element n q depth (c :: cur) out r
      end
  end.

Section parser.
Context `{JsonParser}.

Definition parseFlowSequence (element : str -> result json) (n : nat) (value : str) : result json :=
  let body := trim (inner value) in
  if body =s [] then Parsed (JArray [])
  else let* out := flow_loop element n outside 0 [] [] body in Parsed (JArray out).

Fixpoint parseScalar (fuel n : nat) (raw : str) : result json :=
  match fuel with
  | O => NoFuel
  | S fuel =>
      let value := trim raw in
      if value =s [] then Failed (at_line n ($"scalar value is empty"))
      else if head_is QUOTE value then
        if (length value <? 2)%nat || negb (ends_in QUOTE value)
        then Failed (at_line n ($"unterminated single-quoted string"))
        else Parsed (JString (decode_single (inner value)))
      else if head_is DQUOTE value then
        match json_parse value with
        | inl what => Failed (at_line n ($"invalid double-quoted string: " ++ what))
        | inr (JString s) => Parsed (JString s)
        | inr _ => Failed (at_line n ($"quoted scalar must be a string"))
        end
      else if head_is "["%char value && ends_in "]"%char value then
        match json_parse value with
        | inr j => Parsed j
        | inl _ => parseFlowSequence (parseScalar fuel n) n value
        end
      else if head_is "{"%char value && ends_in "}"%char value then
        match json_parse value with
        | inr j => Parsed j
        | inl what => Failed (at_line n ($"invalid flow mapping: " ++ what))
        end
      else if lower value =s $"true" then Parsed (JBool true)
      else if lower value =s $"false" then Parsed (JBool false)
      else if (lower value =s $"null") || (value =s $"~") then Parsed JNull
      else
        match json_parse value with
        | inr (JInt z) => Parsed (JInt z)
        | inr (JFloat t) => Parsed (JFloat t)
        | _ => Parsed (JString value)
        end
  end.

(** A scalar's fuel: every level of a flow sequence drops a bracket. *)
Definition scalar (n : nat) (raw : str) : result json := parseScalar (S (length raw)) n raw.

Definition parseKey (n : nat) (raw : str) : result str :=
  let value := trim raw in
  if value =s [] then Failed (at_line n ($"mapping key is empty"))
  else if head_is QUOTE value || head_is DQUOTE value then
    let* j := scalar n value in
    match j with
    | JString s => Parsed s
    | _ => Failed (at_line n ($"mapping key must be a string"))
    end
  else Parsed value.

(** ** Blocks *)

Definition contains (key : str) (obj : list (str * json)) : bool := existsb (fun e => e.1 =s key) obj.

(** [object[key] = value] for a key that is not there. *)
Fixpoint obj_insert (key : str) (v : json) (obj : list (str * json)) : list (str * json) :=
  match obj with
  | [] => [(key, v)]
  | (k, w) :: obj' => if Script.str_leb key k then (key, v) :: obj else (k, w) :: obj_insert key v obj'
  end.

Definition deeper (ind : nat) (ls : list Line) : bool :=
  match ls with l :: _ => (ind <? indent l)%nat | [] => false end.

Definition bad_indent (l : Line) {A} : result A := Failed (at_line (number l) ($"unexpected indentation")).

Fixpoint parseNode (fuel ind : nat) (ls : list Line) : result (json * list Line) :=
  match fuel with
  | O => NoFuel
  | S fuel =>
      match ls with
      | [] => Failed ($"unexpected end of YAML document")
      | l :: _ =>
          if negb (indent l =? ind)%nat then bad_indent l
          else if sequenceLine (text l) then
            let* (out, ls) := parseSequence fuel ind ls [] in Parsed (JArray out, ls)
          else let* (out, ls) := parseMapping fuel ind ls [] in Parsed (JObject out, ls)
      end
  end
with parseMappingEntry (fuel ind : nat) (ls : list Line) (obj : list (str * json))
    : result (list (str * json) * list Line) :=
  match fuel with
  | O => NoFuel
  | S fuel =>
      match ls with
      | [] => Failed ($"unexpected end of YAML document")
      | l :: ls =>
          if negb (indent l =? ind)%nat || sequenceLine (text l)
          then Failed (at_line (number l) ($"expected a mapping entry"))
          else
            match mappingColon (text l) with
            | None => Failed (at_line (number l) ($"expected ':' after mapping key"))
            | Some colon =>
                let* key := parseKey (number l) (take colon (text l)) in
                if contains key obj
                then Failed (at_line (number l) ($"duplicate mapping key '" ++ key ++ $"'"))
                else
                  let rawValue := trim (drop (S colon) (text l)) in
                  let* (v, ls) :=
                    if rawValue =s [] then
                      if deeper ind ls
                      then match ls with l' :: _ => parseNode fuel (indent l') ls | [] => Parsed (JNull, ls) end
                      else Parsed (JNull, ls)
                    else let* v := scalar (number l) rawValue in Parsed (v, ls) in
                  Parsed (obj_insert key v obj, ls)
            end
      end
  end
with parseMapping (fuel ind : nat) (ls : list Line) (obj : list (str * json)) : result (list (str * json) * list Line) :=
  match fuel with
  | O => NoFuel
  | S fuel =>
      match ls with
      | [] => Parsed (obj, [])
      | l :: _ =>
          if (indent l <? ind)%nat then Parsed (obj, ls)
          else if (ind <? indent l)%nat then bad_indent l
          else if sequenceLine (text l) then Parsed (obj, ls)
          else let* (obj, ls) := parseMappingEntry fuel ind ls obj in parseMapping fuel ind ls obj
      end
  end
with parseSequence (fuel ind : nat) (ls : list Line) (out : list json) : result (list json * list Line) :=
  match fuel with
  | O => NoFuel
  | S fuel =>
      match ls with
      | [] => Parsed (out, [])
      | l :: ls' =>
          if negb ((indent l =? ind)%nat && sequenceLine (text l)) then Parsed (out, ls)
          else
            let item := trim (drop 1 (text l)) in
            let* (v, ls) :=
              if item =s [] then
                if deeper ind ls'
                then match ls' with l' :: _ => parseNode fuel (indent l') ls' | [] => Parsed (JNull, ls') end
                else Failed (at_line (number l) ($"sequence item has no value"))
              else
                match mappingColon item with
                | None =>
                    let* v := scalar (number l) item in
                    match ls' with
                    | l' :: _ =>
                        if deeper ind ls'
                        then Failed (at_line (number l') ($"scalar sequence item cannot have nested content"))
                        else Parsed (v, ls')
                    | [] => Parsed (v, ls')
                    end
                | Some colon =>
                    let* key := parseKey (number l) (take colon item) in
                    let rawValue := trim (drop (S colon) item) in
                    let* (first, ls) :=
                      if rawValue =s [] then
                        if deeper (ind + 2) ls'
                        then match ls' with l' :: _ => parseNode fuel (indent l') ls' | [] => Parsed (JNull, ls') end
                        else Parsed (JNull, ls')
                      else let* v := scalar (number l) rawValue in Parsed (v, ls') in
                    let* (obj, ls) := parseItem fuel ind ls [(key, first)] in Parsed (JObject obj, ls)
                end in
            parseSequence fuel ind ls (out ++ [v])
      end
  end
(** The further entries of a mapping that began behind a dash. *)
with parseItem (fuel ind : nat) (ls : list Line) (obj : list (str * json)) : result (list (str * json) * list Line) :=
  match fuel with
  | O => NoFuel
  | S fuel =>
      match ls with
      | [] => Parsed (obj, [])
      | l :: _ =>
          if negb (ind <? indent l)%nat then Parsed (obj, ls)
          else if negb (indent l =? ind + 2)%nat then bad_indent l
          else let* (obj, ls) := parseMappingEntry fuel (ind + 2) ls obj in parseItem fuel ind ls obj
      end
  end.

(** [Parser::parse]. *)
Definition parse (ls : list Line) : result json :=
  match ls with
  | [] => Failed ($"YAML document is empty")
  | l :: _ =>
      let* (j, rest) := parseNode (3 * length ls + 3) (indent l) ls in
      match rest with [] => Parsed j | l :: _ => bad_indent l end
  end.

Definition parseYaml (s : str) : result json := let* ls := tokenize 1 (getlines [] s) in parse ls.

End parser.

(** ** Termination *)

Lemma trim_front_length (s : str) : (length (trim_front s) <= length s)%nat.
Proof. induction s as [|c s IH]; cbn; [lia|]. destruct (isspace c); cbn; lia. Qed.

Lemma trim_length (s : str) : (length (trim s) <= length s)%nat.
Proof.
  unfold trim. rewrite length_reverse. pose proof (trim_front_length (reverse (trim_front s))) as H.
  rewrite length_reverse in H. pose proof (trim_front_length s). lia.
Qed.

Lemma flow_loop_fuel (element : str -> result json) (n m : nat) (q : quotes) (depth : Z) (cur : str) (out : list json) (s : str) :
  (forall p, (length p <= m)%nat -> element p <> NoFuel) -> (length cur + length s <= m)%nat ->
  flow_loop element n q depth cur out s <> NoFuel.
Proof.
  intros He. revert q depth cur out.
  assert (Hf : forall cur, (length cur <= m)%nat -> (if trim (reverse cur) =s [] then Failed (at_line n ($"empty value in flow sequence"))
     else element (trim (reverse cur))) <> NoFuel).
  { intros cur Hc. destruct (_ =s _); [done|]. apply He. pose proof (trim_length (reverse cur)) as Ht.
    rewrite length_reverse in Ht. lia. }
  induction s as [|c s IH]; intros q depth cur out Hl; cbn [flow_loop length] in *.
  - destruct (_ || _); [done|]. specialize (Hf cur ltac:(lia)). unfold bind.
    by destruct (if trim (reverse cur) =s [] then _ else _).
  - specialize (Hf cur ltac:(lia)). destruct (quote_step q c); [apply IH; cbn; lia|].
    destruct (q_single q || q_double q); [apply IH; cbn; lia|].
    destruct (_ || _); [apply IH; cbn; lia|]. destruct (_ || _); [apply IH; cbn; lia|].
    destruct (_ && _); [|apply IH; cbn; lia]. unfold bind.
    destruct (if trim (reverse cur) =s [] then _ else _); [apply IH; cbn; lia|done|done].
Qed.

Section termination.
Context `{JsonParser}.

Lemma parseScalar_fuel (fuel n : nat) (raw : str) : (length raw < fuel)%nat -> parseScalar fuel n raw <> NoFuel.
Proof.
  revert raw. induction fuel as [|fuel IH]; intros raw Hl; [lia|]. cbn [parseScalar]. pose proof (trim_length raw) as Ht.
  destruct (_ =s []); [done|]. destruct (head_is QUOTE _); [by destruct (_ || _)|].
  destruct (head_is DQUOTE _); [by destruct (json_parse _) as [|[]]|].
  destruct (head_is "["%char _) eqn:Hb.
  - cbn [andb]. destruct (ends_in "]"%char _); [|repeat case_match; done]. destruct (json_parse _); [|done].
    unfold parseFlowSequence, bind. destruct (_ =s []); [done|].
    pose proof (flow_loop_fuel (parseScalar fuel n) n (length (trim (inner (trim raw)))) outside 0 [] [] (trim (inner (trim raw)))) as Hf.
    destruct (flow_loop _ _ _ _ _ _ _); [done|done|]. exfalso. apply Hf; [|cbn; lia|done].
    intros p Hp. apply IH. pose proof (trim_length (inner (trim raw))) as Hi. unfold inner in *.
    rewrite length_take, length_drop in Hi. apply head_is_true in Hb as [t Hb]. rewrite Hb in *. cbn [length] in *. lia.
  - cbn [andb]. repeat case_match; done.
Qed.

Lemma scalar_fuel (n : nat) (raw : str) : scalar n raw <> NoFuel.
Proof. apply parseScalar_fuel. lia. Qed.

Lemma parseKey_fuel (n : nat) (raw : str) : parseKey n raw <> NoFuel.
Proof.
  unfold parseKey, bind. destruct (_ =s _); [done|]. destruct (_ || _); [|done]. pose proof (scalar_fuel n (trim raw)).
  destruct (scalar n (trim raw)) as [[]| |]; done.
Qed.

(** A result that is not out of fuel and leaves at most [n] lines. *)
Definition good {A} (r : result (A * list Line)) (n : nat) : Prop :=
  match r with Parsed (_, rest) => (length rest <= n)%nat | Failed _ => True | NoFuel => False end.

Lemma good_le {A} (r : result (A * list Line)) (n m : nat) : good r n -> (n <= m)%nat -> good r m.
Proof. destruct r as [[a rest]| |]; cbn; try done. lia. Qed.

Lemma good_bind {A B} (r : result (A * list Line)) (k : A * list Line -> result (B * list Line)) (n m : nat) :
  good r n -> (forall a rest, (length rest <= n)%nat -> good (k (a, rest)) m) -> good (bind r k) m.
Proof. destruct r as [[a rest]| |]; cbn; auto. Qed.

Lemma good_scalar {B} (n m : nat) (raw : str) (k : json -> result (B * list Line)) :
  (forall j, good (k j) m) -> good (bind (scalar n raw) k) m.
Proof. intros Hk. pose proof (scalar_fuel n raw). destruct (scalar n raw); cbn; auto. Qed.

Lemma good_key {B} (n m : nat) (raw : str) (k : str -> result (B * list Line)) :
  (forall j, good (k j) m) -> good (bind (parseKey n raw) k) m.
Proof. intros Hk. pose proof (parseKey_fuel n raw). destruct (parseKey n raw); cbn; auto. Qed.

(** The bounds of the five mutual functions. *)
Definition fuel_ok (fuel : nat) : Prop :=
  (forall ind ls, (3 * length ls + 3 <= fuel)%nat -> good (parseNode fuel ind ls) (length ls)) /\
  (forall ind ls obj, (3 * length ls + 1 <= fuel)%nat -> good (parseMappingEntry fuel ind ls obj) (length ls - 1)) /\
  (forall ind ls obj, (3 * length ls + 2 <= fuel)%nat -> good (parseMapping fuel ind ls obj) (length ls)) /\
  (forall ind ls out, (3 * length ls + 2 <= fuel)%nat -> good (parseSequence fuel ind ls out) (length ls)) /\
  (forall ind ls obj, (3 * length ls + 2 <= fuel)%nat -> good (parseItem fuel ind ls obj) (length ls)).

Lemma nested_good (fuel : nat) (ls : list Line) :
  fuel_ok fuel -> (3 * length ls + 3 <= fuel)%nat ->
  good (match ls with l' :: _ => parseNode fuel (indent l') ls | [] => Parsed (JNull, ls) end) (length ls).
Proof. intros (Hn & _) Hf. destruct ls as [|l ls]; [cbn; lia|]. apply Hn. done. Qed.

Lemma fuel_ok_all (fuel : nat) : fuel_ok fuel.
Proof.
  induction fuel as [|fuel IH]; [repeat split; intros; cbn in *; lia|]. pose proof IH as (Hn & He & Hm & Hs & Hi). split_and!.
  - intros ind [|l ls] Hf; [done|]. cbn [parseNode]. destruct (negb _); [done|].
    destruct (sequenceLine _); (eapply good_bind; [first [apply Hs|apply Hm]; lia|cbn; lia]).
  - intros ind [|l ls] obj Hf; [done|]. cbn [parseMappingEntry length] in *. destruct (_ || _); [done|].
    destruct (mappingColon _); [|done]. apply good_key. intros key. destruct (contains _ _); [done|].
    eapply (good_bind _ _ (length ls)); [|cbn; lia].
    destruct (_ =s _); [|apply good_scalar; intros; cbn; lia]. destruct (deeper _ _); [|cbn; lia].
    apply nested_good; [done|lia].
  - intros ind [|l ls] obj Hf; [cbn; lia|]. cbn [parseMapping]. destruct (_ <? _)%nat; [cbn; lia|].
    destruct (_ <? _)%nat; [done|]. destruct (sequenceLine _); [cbn; lia|].
    eapply good_bind; [apply He; lia|]. intros obj' rest Hr. eapply good_le; [apply Hm; cbn in *; lia|cbn in *; lia].
  - intros ind [|l ls] out Hf; [cbn; lia|]. cbn [parseSequence length] in *. destruct (negb _); [cbn; lia|].
    eapply (good_bind _ _ (length ls)).
    + destruct (_ =s _).
      { destruct (deeper _ _); [|done]. apply nested_good; [done|lia]. }
      destruct (mappingColon _).
      2: { apply good_scalar. intros j. destruct ls as [|l' ls]; [cbn; lia|]. destruct (deeper _ _); [done|cbn; lia]. }
      apply good_key. intros key. eapply (good_bind _ _ (length ls)).
      * destruct (_ =s _); [|apply good_scalar; intros; cbn; lia]. destruct (deeper _ _); [|cbn; lia]. apply nested_good; [done|lia].
      * intros first rest Hr. eapply good_bind; [apply Hi; lia|]. cbn. lia.
    + intros v rest Hr. eapply good_le; [apply Hs; lia|lia].
  - intros ind [|l ls] obj Hf; [cbn; lia|]. cbn [parseItem]. destruct (negb _); [cbn; lia|]. destruct (negb _); [done|].
    eapply good_bind; [apply He; lia|]. intros obj' rest Hr. eapply good_le; [apply Hi; cbn in *; lia|cbn in *; lia].
Qed.

Lemma tokenize_fuel (n : nat) (raws : list str) : tokenize n raws <> NoFuel.
Proof.
  revert n. induction raws as [|raw raws IH]; intros n; [done|]. cbn [tokenize]. destruct (head_is _ _); [done|].
  specialize (IH (S n)). unfold bind. destruct (tokenize (S n) raws); [|done|done]. by destruct (_ || _).
Qed.

(** The YAML parser terminates on every text: it returns a value or an error,
    the fuel is never used up. *)
Theorem yaml_terminates (s : str) : parseYaml s <> NoFuel.
Proof.
  unfold parseYaml. pose proof (tokenize_fuel 1 (getlines [] s)) as Ht. unfold bind at 1.
  destruct (tokenize 1 (getlines [] s)) as [ls| |]; [|done|done]. unfold parse. destruct ls as [|l ls]; [done|].
  destruct (fuel_ok_all (3 * length (l :: ls) + 3)) as (Hn & _).
  specialize (Hn (indent l) (l :: ls) ltac:(lia)). unfold bind.
  destruct (parseNode _ _ _) as [[j rest]| |]; [by destruct rest|done|done].
Qed.

End termination.

(** ** Printing *)

Definition quote (s : str) : str := QUOTE :: double_chr QUOTE s ++ [QUOTE].

(** The values written on one line. *)
Definition scalar_text (j : json) : option str :=
  match j with
  | JNull => Some ($"null")
  | JBool true => Some ($"true")
  | JBool false => Some ($"false")
  | JInt z => Some (to_string z)
  | JString s => Some (quote s)
  | JArray [] => Some ($"[]")
  | JObject [] => Some ($"{}")
  | _ => None
  end.

(** A value as lines with their indentation, two columns a level. *)
Fixpoint print (ind : nat) (j : json) : list (nat * str) :=
  match j with
  | JArray l =>
      concat (map (fun v => match scalar_text v with
                            | Some t => [(ind, DASH :: SPACE :: t)]
                            | None => (ind, [DASH]) :: print (2 + ind) v
                            end) l)
  | JObject l =>
      concat (map (fun '(k, v) => match scalar_text v with
                                  | Some t => [(ind, quote k ++ COLON :: SPACE :: t)]
                                  | None => (ind, quote k ++ [COLON]) :: print (2 + ind) v
                                  end) l)
  | _ => []
  end.

Definition render (ls : list (nat * str)) : str :=
  concat (map (fun p => replicate p.1 SPACE ++ p.2 ++ [LF]) ls).

Definition str_ltb (a b : str) : bool := negb (Script.str_leb b a).

Fixpoint keys_sorted (ks : list str) : bool :=
  match ks with
  | a :: r => forallb (str_ltb a) r && keys_sorted r
  | [] => true
  end.

Definition one_line (s : str) : bool := negb (existsb (chr_eqb LF) s).

(** Values the printer covers: texts without line feeds, 64-bit integers, objects in
    key order. *)
Fixpoint printable (j : json) : bool :=
  match j with
  | JNull | JBool _ => true
  | JInt z => (int64_min <=? z)%Z && (z <=? int64_max)%Z
  | JFloat _ => false
  | JString s => one_line s
  | JArray l => forallb printable l
  | JObject l => keys_sorted (map fst l) && forallb (fun '(k, v) => one_line k && printable v) l
  end.

Definition is_block (j : json) : bool := match scalar_text j with None => true | Some _ => false end.

(** Induction over values. *)
Lemma json_rect' (P : json -> Prop) :
  P JNull -> (forall b, P (JBool b)) -> (forall z, P (JInt z)) -> (forall t, P (JFloat t)) -> (forall s, P (JString s)) ->
  (forall l, Forall P l -> P (JArray l)) -> (forall l, Forall (fun e => P e.2) l -> P (JObject l)) -> forall j, P j.
Proof.
  intros H1 H2 H3 H4 H5 H6 H7. fix IH 1.
  intros [|b|z|t|s|l|l]; [exact H1|apply H2|apply H3|apply H4|apply H5|apply H6|apply H7].
  - induction l as [|v l IHl]; constructor; [apply IH|exact IHl].
  - induction l as [|[k v] l IHl]; constructor; [apply IH|exact IHl].
Qed.

(** *** The scanners on printed texts *)

Definition in_single : quotes := mkQuotes true false false.

Lemma comment_single (s r : str) (p : option ascii) :
  head_is QUOTE r = false ->
  comment_loop in_single p (double_chr QUOTE s ++ QUOTE :: r) =
  double_chr QUOTE s ++ QUOTE :: comment_loop outside (Some QUOTE) r.
Proof.
  intros Hr. revert p. induction s as [|c s IH]; intros p; cbn [double_chr app].
  - cbn [comment_loop]. unfold doubled, quote_step, in_single. cbn [q_double q_single q_escaped negb andb].
    rewrite chr_eqb_refl. cbn [andb]. by rewrite Hr.
  - destruct (c =c QUOTE) eqn:E; cbn [app comment_loop]; unfold doubled, quote_step; cbn [q_double q_single q_escaped in_single negb andb].
    + apply chr_eqb_true in E as ->. rewrite chr_eqb_refl. cbn [andb head_is]. rewrite chr_eqb_refl. by rewrite IH.
    + rewrite E. cbn [andb]. by rewrite IH.
Qed.

Lemma comment_quoted (s r : str) (p : option ascii) :
  head_is QUOTE r = false -> comment_loop outside p (quote s ++ r) = quote s ++ comment_loop outside (Some QUOTE) r.
Proof.
  intros Hr. unfold quote. cbn [app comment_loop]. unfold doubled, quote_step. cbn [q_double q_single outside negb andb].
  rewrite chr_eqb_refl. cbn [andb]. rewrite <- !app_assoc. cbn [app]. change (mkQuotes true false (q_escaped outside)) with in_single.
  by rewrite comment_single.
Qed.

Lemma colon_single (s r : str) (i : nat) :
  head_is QUOTE r = false ->
  colon_loop in_single 0 i (double_chr QUOTE s ++ QUOTE :: r) = colon_loop outside 0 (S (i + length (double_chr QUOTE s))) r.
Proof.
  intros Hr. revert i. induction s as [|c s IH]; intros i; cbn [double_chr app length].
  - cbn [colon_loop]. unfold doubled, quote_step, in_single. cbn [q_double q_single q_escaped negb andb].
    rewrite chr_eqb_refl. cbn [andb]. rewrite Hr. f_equal. lia.
  - destruct (c =c QUOTE) eqn:E; cbn [app colon_loop length]; unfold doubled, quote_step; cbn [q_double q_single q_escaped in_single negb andb].
    + apply chr_eqb_true in E as ->. rewrite chr_eqb_refl. cbn [andb head_is]. rewrite chr_eqb_refl, IH. f_equal. lia.
    + rewrite E. cbn [andb orb]. rewrite IH. f_equal. lia.
Qed.

Lemma colon_quoted (s r : str) (i : nat) :
  head_is QUOTE r = false -> colon_loop outside 0 i (quote s ++ r) = colon_loop outside 0 (i + length (quote s)) r.
Proof.
  intros Hr. unfold quote. cbn [app colon_loop length]. unfold doubled, quote_step. cbn [q_double q_single outside negb andb].
  rewrite chr_eqb_refl. cbn [andb]. rewrite <- !app_assoc. cbn [app]. change (mkQuotes true false (q_escaped outside)) with in_single.
  rewrite colon_single by done. f_equal. rewrite length_app. cbn. lia.
Qed.

(** A word without quotes, comment signs, brackets, spaces and colons. *)
Definition plain (c : ascii) : bool :=
  negb (c =c QUOTE) && negb (c =c DQUOTE) && negb (c =c HASH) && negb (c =c COLON) && negb (isspace c).

Lemma comment_plain (w : str) (p : option ascii) : forallb plain w = true -> comment_loop outside p w = w.
Proof.
  revert p. induction w as [|c w IH]; intros p Hw; [done|]. cbn in Hw. apply andb_true_iff in Hw as [Hc Hw].
  unfold plain in Hc. rewrite !andb_true_iff, !negb_true_iff in Hc. destruct Hc as ((((H1 & H2) & H3) & H4) & H5).
  cbn [comment_loop]. unfold doubled, quote_step. cbn [q_double q_single outside negb andb]. rewrite H1, H2, H3. cbn [andb].
  by rewrite IH.
Qed.

Lemma colon_plain (w : str) (d : Z) (i : nat) : forallb plain w = true -> colon_loop outside d i w = None.
Proof.
  revert d i. induction w as [|c w IH]; intros d i Hw; [done|]. cbn in Hw. apply andb_true_iff in Hw as [Hc Hw].
  unfold plain in Hc. rewrite !andb_true_iff, !negb_true_iff in Hc. destruct Hc as ((((H1 & H2) & H3) & H4) & H5).
  cbn [colon_loop]. unfold doubled, quote_step. cbn [q_double q_single outside negb andb]. rewrite H1, H2, H4. cbn [andb orb].
  destruct (_ || _); [by apply IH|]. destruct (_ || _); by apply IH.
Qed.

(** *** Scalars read back *)

Definition tight (t : str) : bool :=
  match t with c :: _ => negb (isspace c) | [] => false end && match last t with Some c => negb (isspace c) | None => false end.

Lemma trim_tight (t : str) : tight t = true -> trim t = t.
Proof.
  unfold tight. intros [Hh Hl]%andb_true_iff. unfold trim. destruct t as [|c t]; [done|].
  cbn [trim_front]. apply negb_true_iff in Hh. rewrite Hh.
  rewrite <- (reverse_involutive (c :: t)) at 2. f_equal.
  destruct (reverse (c :: t)) as [|d r] eqn:E; [done|].
  assert (Hd : last (c :: t) = Some d).
  { rewrite <- (reverse_involutive (c :: t)), E, reverse_cons. apply last_snoc. }
  rewrite Hd in Hl. apply negb_true_iff in Hl. cbn. by rewrite Hl.
Qed.

Lemma trim_space (t : str) : tight t = true -> trim (SPACE :: t) = t.
Proof. intros H. unfold trim. cbn [trim_front]. change (isspace SPACE) with true. cbv iota. by apply trim_tight. Qed.

Lemma quote_tight (s : str) : tight (quote s) = true.
Proof. unfold tight, quote. cbn. by rewrite app_comm_cons, last_snoc. Qed.

Lemma plain_tight (w : str) : w <> [] -> forallb plain w = true -> tight w = true.
Proof.
  intros Hne Hw. assert (Hs : forall c, c ∈ w -> isspace c = false).
  { intros c Hc%list_elem_of_In. rewrite forallb_forall in Hw. specialize (Hw c Hc). unfold plain in Hw.
    rewrite !andb_true_iff, !negb_true_iff in Hw. by destruct Hw as [_ Hw]. }
  unfold tight. destruct w as [|c w]; [done|]. rewrite Hs by set_solver. cbn [negb andb].
  destruct (last (c :: w)) as [d|] eqn:E; [|by apply last_None in E]. apply last_Some_elem_of in E. by rewrite Hs.
Qed.

Lemma int_chars (z : Z) (c : ascii) : c ∈ to_string z -> isdigit c || (c =c DASH) = true.
Proof.
  assert (H : forall x, c ∈ lit (@pretty N _ x) -> isdigit c = true).
  { intros x Hc%list_elem_of_In. pose proof (pretty_N_digits x) as Hd. rewrite forallb_forall in Hd. auto. }
  unfold to_string, pretty, pretty_Z. destruct z as [|p|p]; intros Hc.
  - rewrite (H 0%N); done.
  - by rewrite (H (N.pos p)).
  - cbn [lit list_ascii_of_string String.append] in Hc. apply elem_of_cons in Hc as [->|Hc]; [by rewrite orb_true_r|].
    by rewrite (H (N.pos p)).
Qed.

Lemma int_plain (z : Z) : forallb plain (to_string z) = true.
Proof.
  apply forallb_forall. intros c Hc%list_elem_of_In%int_chars. apply orb_true_iff in Hc as [Hc|Hc].
  - unfold plain, isdigit, between in *. destruct c as [[][][][][][][][]]; vm_compute in Hc |- *; done.
  - apply chr_eqb_true in Hc as ->. done.
Qed.

Lemma int_nonempty (z : Z) : to_string z <> [].
Proof.
  intros E. pose proof (Oracle.whole_number_text z) as H. rewrite E in H. done.
Qed.

Lemma int_head (z : Z) : exists c r, to_string z = c :: r /\ (isdigit c || (c =c DASH)) = true.
Proof.
  destruct (to_string z) as [|c r] eqn:E; [by apply int_nonempty in E|]. exists c, r. split; [done|].
  apply (int_chars z). rewrite E. set_solver.
Qed.

Lemma head_differs (a b : ascii) (r s : str) : (a =c b) = false -> (a :: r =s b :: s) = false.
Proof.
  intros H. apply not_true_iff_false. intros E%str_eqb_true. injection E as -> _. by rewrite chr_eqb_refl in H.
Qed.

Lemma int_char_differs (c : ascii) :
  (isdigit c || (c =c DASH)) = true ->
  (c =c QUOTE) = false /\ (c =c DQUOTE) = false /\ (c =c "["%char) = false /\ (c =c "{"%char) = false /\
  (tolower c =c "t"%char) = false /\ (tolower c =c "f"%char) = false /\ (tolower c =c "n"%char) = false /\
  (c =c "~"%char) = false.
Proof. intros Hc. destruct c as [[][][][][][][][]]; vm_compute in Hc; try discriminate Hc; vm_compute; auto 10. Qed.

Section roundtrip.
Context {JP : JsonParser} {JL : JsonLaws}.

(** What a text on one line is. *)
Lemma scalar_text_shape (j : json) (t : str) :
  scalar_text j = Some t -> (exists s, j = JString s /\ t = quote s) \/ (forallb plain t = true /\ t <> []).
Proof.
  destruct j as [|[]|z|f|s|[]|[]]; cbn; intros E; try discriminate E; injection E as <-; try (right; done).
  - right. split; [apply int_plain|apply int_nonempty].
  - left. eauto.
Qed.

Lemma scalar_tight (j : json) (t : str) : scalar_text j = Some t -> tight t = true.
Proof. intros [(s & _ & ->)|[Hp Hn]]%scalar_text_shape; [apply quote_tight|by apply plain_tight]. Qed.

Lemma decode_double (s : str) : decode_single (double_chr QUOTE s) = s.
Proof.
  induction s as [|c s IH]; [done|]. cbn [double_chr]. destruct (c =c QUOTE) eqn:E.
  - apply chr_eqb_true in E as ->. cbn [decode_single head_is]. rewrite chr_eqb_refl. cbn [andb]. by rewrite IH.
  - cbn [decode_single]. rewrite E. cbn [andb]. by rewrite IH.
Qed.

Lemma inner_quote (s : str) : inner (quote s) = double_chr QUOTE s.
Proof.
  unfold inner, quote. cbn [length drop]. rewrite length_app. cbn [length].
  replace (S (length (double_chr QUOTE s) + 1) - 2)%nat with (length (double_chr QUOTE s)) by lia. apply take_app_length.
Qed.

Lemma scalar_quote (n : nat) (s : str) : scalar n (quote s) = Parsed (JString s).
Proof.
  unfold scalar. cbn [parseScalar]. rewrite trim_tight by apply quote_tight.
  change (quote s =s []) with (bool_decide (quote s = [])). rewrite bool_decide_false by done.
  change (head_is QUOTE (quote s)) with (QUOTE =c QUOTE). rewrite chr_eqb_refl.
  assert (Hl : (length (quote s) <? 2)%nat = false) by (apply Nat.ltb_ge; unfold quote; cbn; rewrite length_app; cbn; lia).
  assert (He : ends_in QUOTE (quote s) = true) by (unfold ends_in, quote; rewrite app_comm_cons, last_snoc; apply chr_eqb_refl).
  rewrite Hl, He, inner_quote, decode_double. done.
Qed.

Lemma scalar_int (n : nat) (z : Z) : int64_range z -> scalar n (to_string z) = Parsed (JInt z).
Proof.
  intros Hz. unfold scalar. cbn [parseScalar]. rewrite trim_tight by (apply plain_tight; [apply int_nonempty|apply int_plain]).
  rewrite (json_int z Hz). destruct (int_head z) as (c & r & -> & Hc).
  destruct (int_char_differs c Hc) as (H1 & H2 & H3 & H4 & H5 & H6 & H7 & H8).
  cbn [head_is]. rewrite H1, H2, H3, H4. cbn [andb]. unfold lower. cbn [map].
  change (c :: r =s []) with (bool_decide (c :: r = [])). rewrite bool_decide_false by done.
  change ($"true") with ("t"%char :: $"rue"). change ($"false") with ("f"%char :: $"alse").
  change ($"null") with ("n"%char :: $"ull"). change ($"~") with ("~"%char :: $"").
  by rewrite !head_differs by done.
Qed.

Lemma scalar_reads (n : nat) (j : json) (t : str) : scalar_text j = Some t -> printable j = true -> scalar n t = Parsed j.
Proof.
  destruct j as [|[]|z|f|s|[]|[]]; cbn; intros E Hp; try discriminate E; injection E as <-.
  1-3: vm_compute; reflexivity.
  - apply scalar_int. apply andb_true_iff in Hp as [H1%Z.leb_le H2%Z.leb_le]. done.
  - apply scalar_quote.
  - unfold scalar. cbn -[json_parse]. change (trim ($"[]")) with ($"[]"). cbn -[json_parse]. rewrite json_empty_array. done.
  - unfold scalar. cbn -[json_parse]. change (trim ($"{}")) with ($"{}"). cbn -[json_parse]. rewrite json_empty_object. done.
Qed.

Lemma key_reads (n : nat) (k : str) : parseKey n (quote k) = Parsed k.
Proof.
  unfold parseKey. rewrite trim_tight by apply quote_tight.
  change (quote k =s []) with (bool_decide (quote k = [])). rewrite bool_decide_false by done.
  change (head_is QUOTE (quote k)) with (QUOTE =c QUOTE). rewrite chr_eqb_refl. cbn [orb]. by rewrite scalar_quote.
Qed.

Lemma scalar_no_colon (j : json) (t : str) : scalar_text j = Some t -> mappingColon t = None.
Proof.
  intros [(s & _ & ->)|[Hp _]]%scalar_text_shape; [|by apply colon_plain].
  unfold mappingColon. rewrite <- (app_nil_r (quote s)). by rewrite colon_quoted.
Qed.

Lemma key_colon (k r : str) :
  match r with [] => true | d :: _ => isspace d end = true -> mappingColon (quote k ++ COLON :: r) = Some (length (quote k)).
Proof.
  intros Hr. unfold mappingColon. rewrite colon_quoted by done. cbn [colon_loop Nat.add]. unfold doubled, quote_step. cbn [q_double q_single outside negb andb orb].
  change (COLON =c QUOTE) with false. change (COLON =c DQUOTE) with false. change (COLON =c "["%char) with false.
  change (COLON =c "{"%char) with false. change (COLON =c "]"%char) with false. change (COLON =c "}"%char) with false.
  change (COLON =c COLON) with true. cbn [andb orb Z.eqb]. by rewrite Hr.
Qed.

(** *** Blocks read back *)

Definition shape (ls : list Line) : list (nat * str) := map (fun l => (indent l, text l)) ls.

(** The lines behind a block at [ind] are less indented. *)
Definition ends (ind : nat) (rest : list Line) : Prop :=
  match rest with l :: _ => (indent l < ind)%nat | [] => True end.

Definition reads_back (j : json) : Prop :=
  forall ind fuel ls rest, is_block j = true -> printable j = true -> shape ls = print ind j -> ends ind rest ->
    (3 * length (ls ++ rest) + 3 <= fuel)%nat -> parseNode fuel ind (ls ++ rest) = Parsed (j, rest).

Lemma shape_cons (ls : list Line) (i : nat) (t : str) (ps : list (nat * str)) :
  shape ls = (i, t) :: ps -> exists n ls', ls = mkLine n i t :: ls' /\ shape ls' = ps.
Proof. destruct ls as [|[n i' t'] ls]; [done|]. cbn. intros [= -> -> <-]. eauto. Qed.

Lemma shape_app (ls : list Line) (a b : list (nat * str)) :
  shape ls = a ++ b -> exists l1 l2, ls = l1 ++ l2 /\ shape l1 = a /\ shape l2 = b.
Proof. intros H. unfold shape in H. apply map_eq_app in H as (l1 & l2 & -> & H1 & H2). eauto. Qed.

(** A block's lines begin at its own indentation. *)
Lemma print_head (ind : nat) (j : json) : is_block j = true -> printable j = true -> exists t ps, print ind j = (ind, t) :: ps.
Proof.
  unfold is_block. destruct j as [|[]|z|f|s|[|v l]|[|[k v] l]]; cbn; intros Hb Hp; try discriminate; destruct (scalar_text v); cbn; eauto.
Qed.

(** What follows an entry of a block at [ind] is not deeper. *)
Definition level (ind : nat) (ls : list Line) : Prop := match ls with l :: _ => (indent l <= ind)%nat | [] => True end.

Lemma level_deeper (ind : nat) (ls : list Line) : level ind ls -> deeper ind ls = false.
Proof. destruct ls as [|l ls]; [done|]. cbn. intros. by apply Nat.ltb_ge. Qed.

Lemma ends_level (ind : nat) (ls : list Line) : level ind ls -> ends (2 + ind) ls.
Proof. destruct ls as [|l ls]; [done|]. cbn. lia. Qed.

Lemma print_level (ind : nat) (j : json) (ls rest : list Line) : shape ls = print ind j -> ends ind rest -> level ind (ls ++ rest).
Proof.
  intros Hs He. destruct ls as [|l ls]; [destruct rest; cbn in *; [done|lia]|]. cbn.
  destruct j as [|b|z|f|s|l'|l']; try done; destruct l' as [|v l']; try done; cbn in Hs.
  - destruct (scalar_text v); cbn in Hs; injection Hs as -> _; lia.
  - destruct v as [k v]. destruct (scalar_text v); cbn in Hs; injection Hs as -> _; lia.
Qed.

(** A value behind a key or a dash, on the lines that follow. *)
Lemma nested_reads (v : json) (ind fuel : nat) (l1 rest : list Line) :
  reads_back v -> is_block v = true -> printable v = true -> shape l1 = print (2 + ind) v -> level ind rest ->
  (3 * length (l1 ++ rest) + 3 <= fuel)%nat ->
  deeper ind (l1 ++ rest) = true /\
  match l1 ++ rest with l' :: _ => parseNode fuel (indent l') (l1 ++ rest) | [] => Parsed (JNull, l1 ++ rest) end = Parsed (v, rest).
Proof.
  intros Hv Hb Hp Hs Hl Hf. destruct (print_head (2 + ind) v Hb Hp) as (t & ps & E). rewrite E in Hs.
  destruct (shape_cons _ _ _ _ Hs) as (n & l2 & -> & Hs2). cbn [app deeper indent]. split; [apply Nat.ltb_lt; lia|].
  apply (Hv (2 + ind)%nat fuel (mkLine n (2 + ind) t :: l2) rest); try done; [by rewrite E|by apply ends_level].
Qed.

Lemma sequence_reads (l : list json) (ind : nat) (rest : list Line) :
  Forall reads_back l -> forallb printable l = true -> ends ind rest ->
  forall fuel ls out, shape ls = print ind (JArray l) -> (3 * length (ls ++ rest) + 2 <= fuel)%nat ->
  parseSequence fuel ind (ls ++ rest) out = Parsed (out ++ l, rest).
Proof.
  intros HF Hp He. induction HF as [|v l Hv HF IH]; intros fuel ls out Hs Hf.
  { destruct ls; [|done]. cbn [app] in *. rewrite app_nil_r. destruct fuel as [|fuel]; [lia|]. cbn [parseSequence].
    destruct rest as [|r rest]; [done|]. cbn in He.
    assert (E : (indent r =? ind)%nat = false) by (apply Nat.eqb_neq; lia). by rewrite E. }
  cbn in Hp. apply andb_true_iff in Hp as [Hpv Hpl]. specialize (IH Hpl).
  cbn [print map concat] in Hs. apply shape_app in Hs as (l1 & l2 & -> & Hs1 & Hs2).
  change (shape l2 = print ind (JArray l)) in Hs2.
  assert (Hlev : level ind (l2 ++ rest)) by (eapply print_level; done).
  rewrite <- app_assoc. destruct fuel as [|fuel]; [lia|].
  destruct (scalar_text v) as [t|] eqn:Et.
  - destruct (shape_cons _ _ _ _ Hs1) as (n & l1' & -> & Hn). destruct l1'; [|done]. cbn [app parseSequence text indent number].
    rewrite Nat.eqb_refl. change (sequenceLine (DASH :: SPACE :: t)) with true. cbn [negb andb].
    change (drop 1 (DASH :: SPACE :: t)) with (SPACE :: t). rewrite trim_space by (by eapply scalar_tight).
    assert (Hne : (t =s []) = false).
    { pose proof (scalar_tight v t Et) as Ht. destruct t; [done|]. apply bool_decide_false. done. }
    rewrite Hne, (scalar_no_colon v t Et), (scalar_reads n v t Et Hpv). cbn [bind]. rewrite level_deeper by done.
    assert (Hm : (match l2 ++ rest with l' :: _ => Parsed (v, l2 ++ rest) | [] => Parsed (v, l2 ++ rest) end) = Parsed (v, l2 ++ rest))
      by (by destruct (l2 ++ rest)).
    rewrite Hm. cbn [bind]. rewrite IH; [by rewrite <- app_assoc|done|]. cbn [app length] in Hf. lia.
  - destruct (shape_cons _ _ _ _ Hs1) as (n & l1' & -> & Hn). cbn [app parseSequence text indent number].
    rewrite Nat.eqb_refl. change (sequenceLine [DASH]) with true. cbn [negb andb]. change (trim (drop 1 [DASH])) with ([] : str).
    change ([] =s []) with true. cbv iota. cbn [app length] in Hf. rewrite !length_app in Hf.
    destruct (nested_reads v ind fuel l1' (l2 ++ rest)) as [-> ->]; try done.
    { unfold is_block. by rewrite Et. } { rewrite !length_app. lia. }
    cbn [bind]. rewrite IH; [by rewrite <- app_assoc|done|]. rewrite length_app. lia.
Qed.

(** Keys in order go to the end of the object. *)
Lemma insert_last (k : str) (v : json) (obj : list (str * json)) :
  forallb (fun e => str_ltb e.1 k) obj = true -> obj_insert k v obj = obj ++ [(k, v)] /\ contains k obj = false.
Proof.
  induction obj as [|[k' w] obj IH]; [done|]. cbn. intros [Hk Ho]%andb_true_iff. destruct (IH Ho) as [-> Hc].
  unfold str_ltb in Hk. apply negb_true_iff in Hk. rewrite Hk. split; [done|]. unfold contains in Hc. rewrite Hc, orb_false_r.
  apply not_true_iff_false. intros E%str_eqb_true. subst k'.
  assert (Hr : forall s, Script.str_leb s s = true) by (induction s as [|c s IHs]; cbn; [done|]; by rewrite N.ltb_irrefl).
  by rewrite Hr in Hk.
Qed.

Lemma parseMapping_entry (fuel n ind : nat) (t : str) (ls : list Line) (obj : list (str * json)) :
  sequenceLine t = false ->
  parseMapping (S fuel) ind (mkLine n ind t :: ls) obj =
  let* (obj, ls) := parseMappingEntry fuel ind (mkLine n ind t :: ls) obj in parseMapping fuel ind ls obj.
Proof. intros Ht. cbn [parseMapping indent text]. by rewrite Nat.ltb_irrefl, Ht. Qed.

Lemma mapping_reads (l : list (str * json)) (ind : nat) (rest : list Line) :
  Forall (fun e => reads_back e.2) l -> ends ind rest ->
  forall fuel ls obj, keys_sorted (map fst l) = true -> forallb (fun '(k, v) => one_line k && printable v) l = true ->
  forallb (fun e => forallb (fun f => str_ltb e.1 f.1) l) obj = true ->
  shape ls = print ind (JObject l) -> (3 * length (ls ++ rest) + 2 <= fuel)%nat ->
  parseMapping fuel ind (ls ++ rest) obj = Parsed (obj ++ l, rest).
Proof.
  intros HF He. induction HF as [|[k v] l Hv HF IH]; intros fuel ls obj Hk Hp Ho Hs Hf.
  { destruct ls; [|done]. cbn [app] in *. rewrite app_nil_r. destruct fuel as [|fuel]; [lia|]. cbn [parseMapping].
    destruct rest as [|r rest]; [done|]. cbn in He.
    assert (E : (indent r <? ind)%nat = true) by (apply Nat.ltb_lt; lia). by rewrite E. }
  cbn [map fst keys_sorted] in Hk. apply andb_true_iff in Hk as [Hk1 Hk2].
  cbn [forallb] in Hp. apply andb_true_iff in Hp as [[_ Hpv]%andb_true_iff Hpl].
  cbn [print map concat] in Hs. apply shape_app in Hs as (l1 & l2 & -> & Hs1 & Hs2).
  change (shape l2 = print ind (JObject l)) in Hs2.
  assert (Hlev : level ind (l2 ++ rest)) by (eapply print_level; done).
  assert (Hlt : forallb (fun e => str_ltb e.1 k) obj = true).
  { rewrite forallb_forall in Ho |- *. intros e Hin. specialize (Ho e Hin). cbn in Ho. by apply andb_true_iff in Ho as [? _]. }
  destruct (insert_last k v obj Hlt) as [Hins Hcon].
  assert (Hnext : forallb (fun e => forallb (fun f => str_ltb e.1 f.1) l) (obj ++ [(k, v)]) = true).
  { rewrite forallb_app. cbn [forallb fst]. rewrite andb_true_r. apply andb_true_iff. split.
    - rewrite forallb_forall in Ho |- *. intros e Hin. specialize (Ho e Hin). cbn in Ho. by apply andb_true_iff in Ho as [_ ?].
    - rewrite forallb_forall in Hk1 |- *. intros f Hin. apply Hk1. by apply in_map. }
  rewrite <- app_assoc. destruct fuel as [|fuel]; [lia|]. destruct fuel as [|fuel]; [rewrite !length_app in Hf; destruct (scalar_text v);
    destruct (shape_cons _ _ _ _ Hs1) as (n & l1' & -> & _); cbn in Hf; lia|].
  destruct (scalar_text v) as [t|] eqn:Et; destruct (shape_cons _ _ _ _ Hs1) as (n & l1' & -> & Hn).
  - destruct l1'; [|done]. cbn [app]. rewrite parseMapping_entry by done. cbn [parseMappingEntry indent text number].
    rewrite Nat.eqb_refl. change (sequenceLine (quote k ++ COLON :: SPACE :: t)) with false. cbn [negb orb].
    rewrite key_colon by done. rewrite take_app_length, key_reads. cbn [bind]. rewrite Hcon.
    replace (drop (S (length (quote k))) (quote k ++ COLON :: SPACE :: t)) with (SPACE :: t)
      by (rewrite drop_app_ge by lia; replace (S (length (quote k)) - length (quote k))%nat with 1%nat by lia; done).
    rewrite trim_space by (by eapply scalar_tight).
    assert (Hne : (t =s []) = false).
    { pose proof (scalar_tight v t Et) as Ht. destruct t; [done|]. apply bool_decide_false. done. }
    rewrite Hne, (scalar_reads n v t Et Hpv). cbn [bind]. rewrite Hins.
    rewrite IH; try done; [by rewrite <- app_assoc|]. cbn [app length] in Hf. lia.
  - cbn [app]. rewrite parseMapping_entry by done. cbn [parseMappingEntry indent text number].
    rewrite Nat.eqb_refl. change (sequenceLine (quote k ++ [COLON])) with false. cbn [negb orb].
    rewrite key_colon by done. rewrite take_app_length, key_reads. cbn [bind]. rewrite Hcon.
    replace (drop (S (length (quote k))) (quote k ++ [COLON])) with ([] : str)
      by (rewrite drop_ge; [done|rewrite length_app; cbn; lia]).
    change (trim []) with ([] : str). change ([] =s []) with true. cbv iota. cbn [app length] in Hf. rewrite !length_app in Hf.
    destruct (nested_reads v ind fuel l1' (l2 ++ rest)) as [-> ->]; try done.
    { unfold is_block. by rewrite Et. } { rewrite !length_app. lia. }
    cbn [bind]. rewrite Hins. rewrite IH; try done; [by rewrite <- app_assoc|]. rewrite length_app. lia.
Qed.

Lemma node_reads (j : json) : reads_back j.
Proof.
  induction j as [|b|z|t|s|l HF|l HF] using json_rect'; intros ind fuel ls rest Hb Hp Hs He Hf; try discriminate Hb.
  - by destruct b.
  - discriminate Hp.
  - destruct fuel as [|fuel]; [lia|]. destruct l as [|v l]; [done|].
    destruct (print_head ind (JArray (v :: l)) Hb Hp) as (t & ps & E).
    assert (Hseq : sequenceLine t = true) by (cbn in E; destruct (scalar_text v); cbn in E; by injection E as <- _).
    pose proof Hs as Hs'. rewrite E in Hs'. destruct (shape_cons _ _ _ _ Hs') as (n & ls' & -> & _).
    cbn [app parseNode indent text]. rewrite Nat.eqb_refl, Hseq. cbn [negb].
    change (mkLine n ind t :: ls' ++ rest) with ((mkLine n ind t :: ls') ++ rest).
    rewrite (sequence_reads (v :: l) ind rest HF Hp He fuel (mkLine n ind t :: ls') []); [done|done|]. lia.
  - destruct fuel as [|fuel]; [lia|]. destruct l as [|[k v] l]; [done|].
    destruct (print_head ind (JObject ((k, v) :: l)) Hb Hp) as (t & ps & E).
    assert (Hseq : sequenceLine t = false) by (cbn in E; destruct (scalar_text v); cbn in E; by injection E as <- _).
    pose proof Hs as Hs'. rewrite E in Hs'. destruct (shape_cons _ _ _ _ Hs') as (n & ls' & -> & _).
    cbn [app parseNode indent text]. rewrite Nat.eqb_refl, Hseq. cbn [negb].
    cbn [printable] in Hp. apply andb_true_iff in Hp as [Hp1 Hp2].
    change (mkLine n ind t :: ls' ++ rest) with ((mkLine n ind t :: ls') ++ rest).
    rewrite (mapping_reads ((k, v) :: l) ind rest HF He fuel (mkLine n ind t :: ls') []); [done..|]. lia.
Qed.

(** *** Lines read back *)

(** A text that a line of the file holds as it is. *)
Definition clean (t : str) : Prop :=
  one_line t = true /\ tight t = true /\ withoutComment t = t /\ t <> $"---" /\ t <> $"...".

Lemma one_line_app (a b : str) : one_line (a ++ b) = one_line a && one_line b.
Proof. unfold one_line. by rewrite existsb_app, negb_orb. Qed.

Lemma one_line_quote (s : str) : one_line (quote s) = one_line s.
Proof.
  unfold quote. change (one_line (double_chr QUOTE s ++ [QUOTE]) = one_line s). rewrite one_line_app, andb_true_r.
  unfold one_line. f_equal. induction s as [|c s IH]; [done|]. cbn [double_chr]. destruct (c =c QUOTE) eqn:E; cbn; rewrite IH; [|done].
  apply chr_eqb_true in E as ->. done.
Qed.

Lemma plain_one_line (w : str) : forallb plain w = true -> one_line w = true.
Proof.
  unfold one_line. induction w as [|c w IH]; [done|]. cbn. intros [Hc Hw]%andb_true_iff. rewrite negb_orb, IH by done.
  rewrite andb_true_r. apply negb_true_iff, not_true_iff_false. intros E%chr_eqb_true. by subst c.
Qed.

Lemma scalar_one_line (j : json) (t : str) : scalar_text j = Some t -> printable j = true -> one_line t = true.
Proof.
  intros Et Hp. destruct (scalar_text_shape j t Et) as [(s & -> & ->)|[Hw _]]; [by rewrite one_line_quote|by apply plain_one_line].
Qed.

Lemma scalar_comment (j : json) (t : str) (p : option ascii) : scalar_text j = Some t -> comment_loop outside p t = t.
Proof.
  intros [(s & _ & ->)|[Hw _]]%scalar_text_shape; [|by apply comment_plain].
  rewrite <- (app_nil_r (quote s)) at 1. rewrite comment_quoted by done. apply app_nil_r.
Qed.

Lemma tight_cons2 (c : ascii) (a t : str) : isspace c = false -> tight t = true -> tight (c :: a ++ t) = true.
Proof.
  intros Hc. unfold tight. rewrite Hc. intros [_ Ht]%andb_true_iff. cbn [negb andb].
  rewrite app_comm_cons, last_app. by destruct (last t).
Qed.

Lemma clean_item (v : json) (t : str) : scalar_text v = Some t -> printable v = true -> clean (DASH :: SPACE :: t).
Proof.
  intros Et Hp. split_and!; [by apply (scalar_one_line v t)|by apply (tight_cons2 DASH [SPACE]), (scalar_tight v)| |by intros [=]|by intros [=]].
  unfold withoutComment. change (comment_loop outside None (DASH :: SPACE :: t)) with (DASH :: SPACE :: comment_loop outside (Some SPACE) t).
  by rewrite (scalar_comment v).
Qed.

Lemma clean_dash : clean [DASH].
Proof. by split_and!. Qed.

Lemma clean_entry (k : str) (v : json) (t : str) :
  one_line k = true -> scalar_text v = Some t -> printable v = true -> clean (quote k ++ COLON :: SPACE :: t).
Proof.
  intros Hk Et Hp. split_and!; [| | |by intros [=]|by intros [=]].
  - rewrite one_line_app, one_line_quote, Hk. by apply (scalar_one_line v t).
  - unfold quote. cbn [app]. rewrite <- app_assoc.
    replace (double_chr QUOTE k ++ [QUOTE] ++ COLON :: SPACE :: t) with ((double_chr QUOTE k ++ [QUOTE; COLON; SPACE]) ++ t) by (by rewrite <- app_assoc).
    apply tight_cons2; [done|]. by apply (scalar_tight v).
  - unfold withoutComment. rewrite comment_quoted by done. f_equal.
    change (comment_loop outside (Some QUOTE) (COLON :: SPACE :: t)) with (COLON :: SPACE :: comment_loop outside (Some SPACE) t).
    by rewrite (scalar_comment v).
Qed.

Lemma clean_key (k : str) : one_line k = true -> clean (quote k ++ [COLON]).
Proof.
  intros Hk. split_and!; [| | |by intros [=]|by intros [=]].
  - by rewrite one_line_app, one_line_quote, Hk.
  - unfold quote. cbn [app]. by apply tight_cons2.
  - unfold withoutComment. by rewrite comment_quoted.
Qed.

Lemma print_clean (j : json) (ind : nat) : printable j = true -> Forall (fun p => clean p.2) (print ind j).
Proof.
  revert ind. induction j as [|b|z|t|s|l HF|l HF] using json_rect'; intros ind Hp; try constructor; cbn [print printable] in *.
  - induction HF as [|v l Hv HF IH]; [constructor|]. cbn in Hp. apply andb_true_iff in Hp as [Hpv Hpl].
    cbn [map concat]. apply Forall_app_2; [|by apply IH].
    destruct (scalar_text v) as [t|] eqn:Et; constructor; [by apply (clean_item v)|constructor|apply clean_dash|by apply Hv].
  - apply andb_true_iff in Hp as [_ Hp]. induction HF as [|[k v] l Hv HF IH]; [constructor|]. cbn in Hp.
    apply andb_true_iff in Hp as [[Hk Hpv]%andb_true_iff Hpl]. cbn [map concat]. apply Forall_app_2; [|by apply IH].
    destruct (scalar_text v) as [t|] eqn:Et; constructor; [by apply (clean_entry k v)|constructor|by apply clean_key|by apply Hv].
Qed.

Lemma getlines_line (a r cur : str) :
  one_line a = true -> getlines cur (a ++ LF :: r) = (reverse cur ++ a) :: getlines [] r.
Proof.
  unfold one_line. revert cur. induction a as [|c a IH]; intros cur Ha; cbn in Ha |- *.
  - by rewrite app_nil_r.
  - rewrite negb_orb in Ha. apply andb_true_iff in Ha as [Hc Ha]. apply negb_true_iff in Hc.
    assert (E : (c =c LF) = false) by (rewrite <- Hc; apply eq_true_iff_eq; rewrite !chr_eqb_true; naive_solver).
    rewrite E, IH by done. rewrite reverse_cons, <- app_assoc. done.
Qed.

Lemma span_indent (i : nat) (t : str) : tight t = true -> span (chr_eqb SPACE) (replicate i SPACE ++ t) = i.
Proof.
  intros Ht. induction i as [|i IH]; cbn; [|by rewrite IH].
  destruct t as [|c t]; [done|]. cbn. destruct (SPACE =c c) eqn:E; [|done]. apply chr_eqb_true in E as <-. done.
Qed.

Lemma drop_cr_tight (i : nat) (t : str) : tight t = true -> drop_cr (replicate i SPACE ++ t) = replicate i SPACE ++ t.
Proof.
  intros Ht. unfold drop_cr. rewrite last_app. unfold tight in Ht. apply andb_true_iff in Ht as [_ Ht].
  destruct (last t) as [c|]; [|done]. destruct (c =c CR) eqn:E; [|done]. by apply chr_eqb_true in E as ->.
Qed.

Lemma tokenize_clean (ps : list (nat * str)) (n : nat) :
  Forall (fun p => clean p.2) ps -> exists ls, tokenize n (getlines [] (render ps)) = Parsed ls /\ shape ls = ps.
Proof.
  intros HF. revert n. induction HF as [|[i t] ps (H1 & Ht & Hw & Hd & He) HF IH]; intros n; [by exists []|]. cbn [snd] in *.
  destruct (IH (S n)) as (ls & El & Es). exists (mkLine n i t :: ls). split; [|by rewrite <- Es].
  unfold render. cbn [map concat fst snd]. rewrite <- !app_assoc, (app_assoc (replicate i SPACE)).
  change ([LF] ++ ?r) with (LF :: r). fold (render ps). rewrite getlines_line.
  2: { rewrite one_line_app, H1, andb_true_r. clear. induction i; done. }
  cbn [tokenize]. change (reverse [] ++ ?a) with a.
  rewrite drop_cr_tight, span_indent by done. rewrite drop_app_length' by (by rewrite length_replicate).
  assert (Hh : head_is TAB t = false).
  { destruct t as [|c t]; [done|]. cbn. destruct (c =c TAB) eqn:E; [|done]. by apply chr_eqb_true in E as ->. }
  rewrite Hh, Hw, trim_tight by done. rewrite El. cbn [bind].
  assert (Hn : t <> []) by (by intros ->).
  assert (Hf : forall u, t <> u -> (t =s u) = false) by (intros u Hu; apply not_true_iff_false; by intros ?%str_eqb_true).
  by rewrite !Hf by done.
Qed.

(** C27. A configuration value survives the file: printed as a block, two columns a
    level and every text quoted, the parser reads back exactly the value.  Texts may
    hold quotes, comment signs, colons and brackets; the value holds no floating-point
    number. *)
Theorem yaml_roundtrip (j : json) :
  is_block j = true -> printable j = true -> parseYaml (render (print 0 j)) = Parsed j.
Proof.
  intros Hb Hp. unfold parseYaml. destruct (tokenize_clean (print 0 j) 1 (print_clean j 0 Hp)) as (ls & -> & Hs). cbn [bind].
  destruct (print_head 0 j Hb Hp) as (t & ps & E). pose proof Hs as Hs'. rewrite E in Hs'.
  destruct (shape_cons _ _ _ _ Hs') as (n & ls' & -> & _). unfold parse. cbn [indent].
  pose proof (node_reads j 0 (3 * length (mkLine n 0 t :: ls') + 3) (mkLine n 0 t :: ls') [] Hb Hp Hs I) as H.
  rewrite app_nil_r in H. by rewrite H by lia.
Qed.

End roundtrip.

(** ** Concrete files *)

(** Integers and the empty containers, enough for the files below. *)
Definition small_json : JsonParser := {|
  json_parse s :=
    if s =s $"[]" then inr (JArray [])
    else if s =s $"{}" then inr (JObject [])
    else
      match Oracle.whole_number s with
      | Some (negative, m) => inr (JInt (if negative : bool then - m else m)%Z)
      | None => inl ($"parse error")
      end
|}.

Lemma small_json_laws : @JsonLaws small_json.
Proof.
  constructor; [|done|done]. intros z _. cbn [json_parse small_json]. destruct (int_head z) as (c & r & E & Hc).
  destruct (int_char_differs c Hc) as (_ & _ & H3 & H4 & _).
  rewrite Oracle.whole_number_text, E. change ($"[]") with ("["%char :: $"]"). change ($"{}") with ("{"%char :: $"}").
  rewrite !head_differs by done. do 2 f_equal. destruct (Z.ltb_spec z 0); lia.
Qed.

Definition sample_config : json :=
  JObject [($"data: 'x' # y", JArray [JInt (-3); JObject [($"key", JNull); ($"list", JArray [])]; JString ($"it's")]);
           ($"enabled", JBool true)].

Lemma yaml_roundtrip_witness :
  @parseYaml small_json (render (print 0 sample_config)) = Parsed sample_config /\ length (print 0 sample_config) = 7%nat.
Proof.
  split; [|reflexivity]. apply (@yaml_roundtrip small_json small_json_laws sample_config); reflexivity.
Defined.

Definition lines_text (ls : list string) : str := concat (map (fun l => $l ++ [LF]) ls).

(** Mappings behind a dash, comments, a document marker and flow sequences. *)
Example yaml_file :
  @parseYaml small_json (lines_text ["---"; "# sources"; "sources:"; "  - name: main  # first"; "    port: 5432";
     "    hosts: [a, 'b, c', [7]]"; "  - name: other"; "timeout:"]%string) =
  Parsed (JObject [($"sources", JArray [
     JObject [($"hosts", JArray [JString ($"a"); JString ($"b, c"); JArray [JInt 7]]); ($"name", JString ($"main")); ($"port", JInt 5432)];
     JObject [($"name", JString ($"other"))]]); ($"timeout", JNull)]).
Proof. vm_compute. reflexivity. Qed.

(** An apostrophe inside a plain element hides the commas behind it, the one at the
    end included: the sequence is read as empty, and no error is reported. *)
Example yaml_flow_apostrophe :
  @parseYaml small_json (lines_text ["hosts: [it's, b]"]%string) = Parsed (JObject [($"hosts", JArray [])]).
Proof. vm_compute. reflexivity. Qed.

(** The same apostrophe hides a comment behind a plain text. *)
Example yaml_plain_apostrophe :
  @parseYaml small_json (lines_text ["note: it's # here"]%string) = Parsed (JObject [($"note", JString ($"it's # here"))]).
Proof. vm_compute. reflexivity. Qed.

(** The errors name the line. *)
Example yaml_errors :
  @parseYaml small_json (lines_text ["a: 1"; "a: 2"]%string) = Failed ($"line 2: duplicate mapping key 'a'") /\
  @parseYaml small_json (lines_text ["a: 1"; "  b: 2"]%string) = Failed ($"line 2: unexpected indentation") /\
  @parseYaml small_json (lines_text ["- "; "- 1"]%string) = Failed ($"line 1: sequence item has no value") /\
  @parseYaml small_json (lines_text ["# only a comment"]%string) = Failed ($"YAML document is empty").
Proof. vm_compute. auto. Qed.

End Yaml.
