(* ===== verification/Config.v ===== *)
(** * The configuration loader

    src/config/config_loader.cpp over the values of Yaml.v, with the records of
    include/sqlconduit/config/datasource_config.h.  Sections whose record another
    component already has use that record.  A member is read with the library's
    [value]: a missing key gives the default, a value of another type throws.  An
    exception ends the load as well as a reported error; what the caller's object
    holds after a failure is not modelled, every caller drops it.

    The environment, the conversions of doubles to integers and the JSON parser are
    parameters. *)

From Stdlib Require Import SpecFloat.
From S2P Require Import Prelude Types SqlAuditor Resilience QueryCache Cursor Gate OracleTypes Observer Yaml.

Module Config.
Import Yaml Gate.

#[local] Open Scope Z_scope.

(** ** The records *)

Record OracleConfig : Type := mkOracle {
  service_name : str;
  sid : str;
  wallet_location : str;
  server_cert_dn : str;
  charset_id : Z;
  lob_max_bytes : Z;
  blob_bind : str
}.

Record DataSourceConfig : Type := mkDataSource {
  name : str;
  type : str;
  host : str;
  port : Z;
  user : str;
  password : str;
  password_env : str;
  database : str;
  dsn : str;
  connection_timeout_ms : Z;
  socket_timeout_ms : Z;
  query_timeout_ms : Z;
  max_result_rows : Z;
  tls_enabled : bool;
  tls_verify_peer : bool;
  tls_ca : str;
  tls_cert : str;
  tls_key : str;
  oracle : OracleConfig;
  extra : list (str * str)
}.

Record PoolConfig : Type := mkPool {
  p_enabled : bool;
  p_min : Z;
  p_max : Z;
  p_borrow_timeout_ms : Z;
  p_idle_timeout_ms : Z;
  p_max_lifetime_ms : Z;
  p_leak_detection_threshold_ms : Z;
  p_validation_interval_ms : Z
}.

Record StatsReportConfig : Type := mkReport {
  sr_enabled : bool;
  sr_interval_ms : Z;
  sr_file : str;
  sr_format : str;
  sr_include_pool : bool;
  sr_include_slow_sql : bool;
  sr_slow_sql_limit : Z
}.

Record ObservabilityConfig : Type := mkObservability {
  o_sql_log : Observer.SqlLogConfig;
  o_slow_sql : Observer.SlowSqlConfig;
  o_pool_metrics : bool;
  o_stats_report : StatsReportConfig
}.

Record WriteBufferConfig : Type := mkWriteBuffer {
  w_enabled : bool;
  w_acknowledged : bool;
  w_max_queue : Z;
  w_ttl_ms : Z;
  w_flush_interval_ms : Z
}.

Record FailoverConfig : Type := mkFailover {
  f_primaries : list str;
  f_acknowledged : bool;
  f_require_healthy : bool;
  f_write_buffer : WriteBufferConfig
}.

Record ReplicaConfig : Type := mkReplica { r_name : str; r_weight : Z }.

Record DataSourceGroupConfig : Type := mkGroup {
  g_name : str;
  g_primary : str;
  g_replicas : list ReplicaConfig;
  g_read_after_write_ms : Z;
  g_fallback_to_primary : bool;
  g_read_only : bool;
  g_failover : FailoverConfig;
  g_shadow : str
}.

Record PreparedCacheConfig : Type := mkPrepared { pc_enabled : bool; pc_max_per_connection : Z }.

Record AsyncConfig : Type := mkAsync {
  as_enabled : bool; as_threads : Z; as_queue_size : Z; as_statement_timeout_ms : Z }.

Record GlobalConfig : Type := mkGlobal {
  default_datasource : str;
  heartbeat_interval_ms : Z;
  pool : PoolConfig;
  retry : RetryConfig;
  circuit_breaker : CircuitBreakerConfig;
  observability : ObservabilityConfig;
  rate_limit : RateLimitConfig;
  sql_audit : SqlAuditConfig;
  query_cache : QueryCacheConfig;
  cursor : Cursor.CursorConfig;
  prepared_cache : PreparedCacheConfig;
  async : AsyncConfig;
  interceptors : bool;
  datasources : list DataSourceConfig;
  groups : list DataSourceGroupConfig
}.

Definition default_oracle : OracleConfig := mkOracle [] [] [] [] 873 4194304 ($"auto").
Definition default_pool : PoolConfig := mkPool true 1 8 30000 600000 1800000 30000 30000.
Definition default_retry : RetryConfig := mkRetryConfig 1 50 1000 false.
Definition default_breaker : CircuitBreakerConfig := mkBreakerConfig 0 30000.
Definition default_sql_log : Observer.SqlLogConfig :=
  Observer.mkLogConfig false ($"template") ($"debug") true true false (of_int 1) 8192 256 false false.
Definition default_slow_sql : Observer.SlowSqlConfig :=
  Observer.mkSlowConfig false 500 1000 200 false 4096 [10; 50; 100; 200; 500; 1000; 3000; 10000].
Definition default_report : StatsReportConfig := mkReport false 60000 [] ($"text") true true 10.
Definition default_observability : ObservabilityConfig := mkObservability default_sql_log default_slow_sql true default_report.
Definition default_rate_limit : RateLimitConfig := mkRateConfig false 0 0 0 ($"off").
Definition default_sql_audit : SqlAuditConfig := mkAuditConfig false ($"warn") false false false true [] [].
Definition default_query_cache : QueryCacheConfig := mkCacheConfig false 60000 1000 0 false.
Definition default_cursor : Cursor.CursorConfig := Cursor.mkCursorConfig true 256 0 false.
Definition default_prepared : PreparedCacheConfig := mkPrepared true 128.
Definition default_async : AsyncConfig := mkAsync true 0 4096 0.
Definition default_write_buffer : WriteBufferConfig := mkWriteBuffer false false 1000 30000 1000.
Definition default_failover : FailoverConfig := mkFailover [] false false default_write_buffer.

(** ** Reading members *)

(** An error that was reported, or an exception of the JSON library. *)
Inductive failure : Type := Error (message : str) | Exception (what : str).

Definition M (A : Type) : Type := (failure + A)%type.

Definition andThen {A B} (m : M A) (k : A -> M B) : M B := match m with inl e => inl e | inr a => k a end.
Notation "'let!' x ':=' m 'in' k" := (andThen m (fun x => k)) (at level 200, x pattern, m at level 100, k at level 200).

(** [error = ...; return false;] when the test holds. *)
Definition guard (bad : bool) (message : str) : M unit := if bad then inl (Error message) else inr tt.

Definition type_name (j : json) : str :=
  match j with
  | JNull => $"null" | JBool _ => $"boolean" | JInt _ | JFloat _ => $"number" | JString _ => $"string"
  | JArray _ => $"array" | JObject _ => $"object"
  end.

Definition type_error {A} (wanted : str) (j : json) : M A :=
  inl (Exception ($"[json.exception.type_error.302] type must be " ++ wanted ++ $", but is " ++ type_name j)).

Definition wrap (bits z : Z) : Z := (z + 2 ^ (bits - 1)) mod 2 ^ bits - 2 ^ (bits - 1).

Definition entries : Type := list (str * json).

Definition lookup_key (k : str) (o : entries) : option json := snd <$> List.find (fun e => e.1 =s k) o.

Definition has (k : str) (o : entries) : bool := match lookup_key k o with Some _ => true | None => false end.

(** [o.value(k, d)]. *)
Definition value {A} (get : json -> M A) (o : entries) (k : str) (d : A) : M A :=
  match lookup_key k o with Some j => get j | None => inr d end.

Definition get_bool (j : json) : M bool := match j with JBool b => inr b | _ => type_error ($"boolean") j end.
Definition get_string (j : json) : M str := match j with JString s => inr s | _ => type_error ($"string") j end.
Definition get_double (j : json) : M spec_float :=
  match j with JInt z => inr (of_int z) | JFloat d => inr d | _ => type_error ($"number") j end.

Fixpoint traverse {A B} (f : A -> M B) (l : list A) : M (list B) :=
  match l with
  | [] => inr []
  | a :: l => let! b := f a in let! bs := traverse f l in inr (b :: bs)
  end.

Definition get_list {A} (get : json -> M A) (j : json) : M (list A) :=
  match j with JArray l => traverse get l | _ => type_error ($"array") j end.

(** An optional block: absent, an object, or an error. *)
Definition section {A} (o : entries) (k bad : str) (d : A) (load : entries -> M A) : M A :=
  match lookup_key k o with
  | None => inr d
  | Some (JObject s) => load s
  | Some _ => inl (Error bad)
  end.

Fixpoint rejectUnknownFields (o : entries) (allowed : list str) (path : str) : M unit :=
  match o with
  | [] => inr tt
  | (k, _) :: o =>
      if existsb (str_eqb k) allowed then rejectUnknownFields o allowed path
      else inl (Error ($"config error [unknown_field] at " ++ path ++ $"/" ++ k ++
                       $": field is not defined by sqlconduit.schema.json"))
  end.

Definition keys (ks : list string) : list str := map lit ks.

Definition one_of (s : str) (allowed : list string) : bool := existsb (fun a => s =s $a) allowed.

(** [parseInt64]: the same call of [strtoll] as in oracle_types.cpp. *)
Definition parseInt64 (s : str) : option Z := Oracle.parseInt64Strict s.

Section loader.
(** [static_cast] of a double to [int], [int64_t] and [uint64_t]; [getenv]. *)
Variables (to_int to_int64 to_uint64 : spec_float -> Z) (env : str -> option str).

(** [get<int>] takes booleans too; integers are cut to the width. *)
Definition get_int (j : json) : M Z :=
  match j with
  | JInt z => inr (wrap 32 z)
  | JFloat d => inr (to_int d)
  | JBool b => inr (if b then 1 else 0)
  | _ => type_error ($"number") j
  end.

Definition get_int64 (j : json) : M Z :=
  match j with JInt z => inr (wrap 64 z) | JFloat d => inr (to_int64 d) | _ => type_error ($"number") j end.

Definition get_uint64 (j : json) : M Z :=
  match j with JInt z => inr (wrap_u64 z) | JFloat d => inr (to_uint64 d) | _ => type_error ($"number") j end.

(** ** The sections *)

Definition load_pool (o : entries) : M PoolConfig :=
  let d := default_pool in
  let! _ := rejectUnknownFields o (keys ["enabled"; "min"; "max"; "borrow_timeout_ms"; "idle_timeout_ms";
    "max_lifetime_ms"; "leak_detection_threshold_ms"; "validation_interval_ms"]%string) ($"/pool") in
  let! en := value get_bool o ($"enabled") (p_enabled d) in
  let! mi := value get_int o ($"min") (p_min d) in
  let! ma := value get_int o ($"max") (p_max d) in
  let! bo := value get_int o ($"borrow_timeout_ms") (p_borrow_timeout_ms d) in
  let! id := value get_int o ($"idle_timeout_ms") (p_idle_timeout_ms d) in
  let! li := value get_int o ($"max_lifetime_ms") (p_max_lifetime_ms d) in
  let! le := value get_int o ($"leak_detection_threshold_ms") (p_leak_detection_threshold_ms d) in
  let! va := value get_int o ($"validation_interval_ms") (p_validation_interval_ms d) in
  inr (mkPool en mi ma bo id li le va).

Definition bad_pool (p : PoolConfig) : bool :=
  (p_min p <? 0) || (p_max p <? 1) || (p_max p <? p_min p) || (p_borrow_timeout_ms p <? 0) ||
  (p_idle_timeout_ms p <? 0) || (p_max_lifetime_ms p <? 0) || (p_leak_detection_threshold_ms p <? 0) ||
  (p_validation_interval_ms p <? 0).

Definition load_retry (o : entries) : M RetryConfig :=
  let d := default_retry in
  let! _ := rejectUnknownFields o (keys ["max_attempts"; "initial_backoff_ms"; "max_backoff_ms"; "retry_writes"]%string)
              ($"/retry") in
  let! at_ := value get_int o ($"max_attempts") (max_attempts d) in
  let! ib := value get_int o ($"initial_backoff_ms") (initial_backoff_ms d) in
  let! mb := value get_int o ($"max_backoff_ms") (max_backoff_ms d) in
  let! rw := value get_bool o ($"retry_writes") (retry_writes d) in
  let! _ := guard ((at_ <? 1) || (ib <? 0) || (mb <? ib)) ($"invalid retry configuration") in
  inr (mkRetryConfig at_ ib mb rw).

Definition load_breaker (o : entries) : M CircuitBreakerConfig :=
  let d := default_breaker in
  let! _ := rejectUnknownFields o (keys ["failure_threshold"; "open_interval_ms"]%string) ($"/circuit_breaker") in
  let! ft := value get_int o ($"failure_threshold") (failure_threshold d) in
  let! oi := value get_int o ($"open_interval_ms") (open_interval_ms d) in
  let! _ := guard ((ft <? 0) || (oi <? 1)) ($"invalid circuit_breaker configuration") in
  inr (mkBreakerConfig ft oi).

Definition load_sql_log (o : entries) : M Observer.SqlLogConfig :=
  let d := default_sql_log in
  let! _ := rejectUnknownFields o (keys ["enabled"; "mode"; "level"; "log_success"; "log_errors"; "slow_only";
    "sample_rate"; "max_sql_length"; "max_param_length"; "include_string_values"; "include_blob_values"]%string)
    ($"/observability/sql_log") in
  let! en := value get_bool o ($"enabled") (Observer.lg_enabled d) in
  let! mo := value get_string o ($"mode") (Observer.lg_mode d) in
  let! lv := value get_string o ($"level") (Observer.lg_level d) in
  let! su := value get_bool o ($"log_success") (Observer.lg_success d) in
  let! er := value get_bool o ($"log_errors") (Observer.lg_errors d) in
  let! sl := value get_bool o ($"slow_only") (Observer.lg_slow_only d) in
  let! sa := value get_double o ($"sample_rate") (Observer.lg_sample_rate d) in
  let! ms := value get_int o ($"max_sql_length") (Observer.lg_max_sql_length d) in
  let! mp := value get_int o ($"max_param_length") (Observer.lg_max_param_length d) in
  let! isl := value get_bool o ($"include_string_values") (Observer.lg_include_string_values d) in
  let! ib := value get_bool o ($"include_blob_values") (Observer.lg_include_blob_values d) in
  let! _ := guard (negb (one_of mo ["template"; "full"]%string) ||
                   negb (one_of lv ["debug"; "info"; "warn"; "error"]%string) ||
                   SFltb sa (of_int 0) || SFltb (of_int 1) sa || (ms <? 64) || (mp <? 1))
              ($"invalid observability.sql_log configuration") in
  inr (Observer.mkLogConfig en mo lv su er sl sa ms mp isl ib).

Fixpoint bad_buckets (previous : Z) (l : list Z) : bool :=
  match l with
  | [] => false
  | b :: l => (b <=? 0) || (b <=? previous) || bad_buckets b l
  end.

Definition load_slow_sql (o : entries) : M Observer.SlowSqlConfig :=
  let d := default_slow_sql in
  let! _ := rejectUnknownFields o (keys ["enabled"; "threshold_ms"; "aggregate_capacity"; "recent_capacity";
    "retain_rendered_sql"; "max_sql_length"; "histogram_buckets_ms"]%string) ($"/observability/slow_sql") in
  let! en := value get_bool o ($"enabled") (Observer.sl_enabled d) in
  let! th := value get_int o ($"threshold_ms") (Observer.sl_threshold_ms d) in
  let! ag := value get_int o ($"aggregate_capacity") (Observer.sl_aggregate_capacity d) in
  let! re := value get_int o ($"recent_capacity") (Observer.sl_recent_capacity d) in
  let! rr := value get_bool o ($"retain_rendered_sql") (Observer.sl_retain_rendered_sql d) in
  let! ms := value get_int o ($"max_sql_length") (Observer.sl_max_sql_length d) in
  let! bu := value (get_list get_int) o ($"histogram_buckets_ms") (Observer.sl_histogram_buckets_ms d) in
  let! _ := guard ((th <? 0) || (ag <? 1) || (re <? 0) || (ms <? 64) || match bu with [] => true | _ => false end)
              ($"invalid observability.slow_sql configuration") in
  let! _ := guard (bad_buckets (-1) bu) ($"slow_sql histogram buckets must be positive and increasing") in
  inr (Observer.mkSlowConfig en th ag re rr ms bu).

Definition load_pool_metrics (o : entries) : M bool :=
  let! _ := rejectUnknownFields o (keys ["enabled"]%string) ($"/observability/pool_metrics") in
  value get_bool o ($"enabled") true.

Definition load_report (o : entries) : M StatsReportConfig :=
  let d := default_report in
  let! _ := rejectUnknownFields o (keys ["enabled"; "interval_ms"; "file"; "format"; "include_pool"; "include_slow_sql";
    "slow_sql_limit"]%string) ($"/observability/stats_report") in
  let! en := value get_bool o ($"enabled") (sr_enabled d) in
  let! iv := value get_int o ($"interval_ms") (sr_interval_ms d) in
  let! fi := value get_string o ($"file") (sr_file d) in
  let! fo := value get_string o ($"format") (sr_format d) in
  let! ip := value get_bool o ($"include_pool") (sr_include_pool d) in
  let! isl := value get_bool o ($"include_slow_sql") (sr_include_slow_sql d) in
  let! li := value get_int o ($"slow_sql_limit") (sr_slow_sql_limit d) in
  let! _ := guard (iv <? 1000) ($"config error [minimum] at /observability/stats_report/interval_ms: must be >= 1000") in
  let! _ := guard (negb (one_of fo ["text"; "json"]%string))
              ($"observability.stats_report.format must be 'text' or 'json'") in
  let! _ := guard (li <? 0) ($"invalid observability.stats_report configuration") in
  inr (mkReport en iv fi fo ip isl li).

Definition load_observability (o : entries) : M ObservabilityConfig :=
  let d := default_observability in
  let! _ := rejectUnknownFields o (keys ["sql_log"; "slow_sql"; "pool_metrics"; "stats_report"]%string) ($"/observability") in
  let! lg := section o ($"sql_log") ($"observability.sql_log must be an object") (o_sql_log d) load_sql_log in
  let! sl := section o ($"slow_sql") ($"observability.slow_sql must be an object") (o_slow_sql d) load_slow_sql in
  let! pm := section o ($"pool_metrics") ($"observability.pool_metrics must be an object") (o_pool_metrics d) load_pool_metrics in
  let! sr := section o ($"stats_report") ($"observability.stats_report must be an object") (o_stats_report d) load_report in
  inr (mkObservability lg sl pm sr).

Definition load_rate_limit (o : entries) : M RateLimitConfig :=
  let d := default_rate_limit in
  let! _ := rejectUnknownFields o (keys ["enabled"; "global_qps"; "per_fingerprint_qps"; "burst"; "fingerprint_mode"]%string)
              ($"/rate_limit") in
  let! en := value get_bool o ($"enabled") (rl_enabled d) in
  let! gq := value get_int o ($"global_qps") (rl_global_qps d) in
  let! pq := value get_int o ($"per_fingerprint_qps") (rl_per_fingerprint_qps d) in
  let! bu := value get_int o ($"burst") (rl_burst d) in
  let! fm := value get_string o ($"fingerprint_mode") (rl_fingerprint_mode d) in
  let! _ := guard ((gq <? 0) || (pq <? 0) || (bu <? 0)) ($"invalid rate_limit configuration") in
  let! _ := guard (negb (one_of fm ["off"; "template"; "full"]%string))
              ($"rate_limit.fingerprint_mode must be off/template/full") in
  inr (mkRateConfig en gq pq bu fm).

Definition load_audit (o : entries) : M SqlAuditConfig :=
  let d := default_sql_audit in
  let! _ := rejectUnknownFields o (keys ["enabled"; "action"; "block_no_where_dml"; "require_limit_select";
    "enforce_read_only"; "log_blocked"; "blacklist_fingerprints"; "whitelist_fingerprints"]%string) ($"/sql_audit") in
  let! en := value get_bool o ($"enabled") (ac_enabled d) in
  let! ac := value get_string o ($"action") (ac_action d) in
  let! nw := value get_bool o ($"block_no_where_dml") (ac_block_no_where_dml d) in
  let! li := value get_bool o ($"require_limit_select") (ac_require_limit_select d) in
  let! ro := value get_bool o ($"enforce_read_only") (ac_enforce_read_only d) in
  let! lb := value get_bool o ($"log_blocked") (ac_log_blocked d) in
  let! bl := value (get_list get_uint64) o ($"blacklist_fingerprints") (ac_blacklist d) in
  let! wl := value (get_list get_uint64) o ($"whitelist_fingerprints") (ac_whitelist d) in
  let! _ := guard (negb (one_of ac ["block"; "warn"]%string)) ($"sql_audit.action must be block/warn") in
  inr (mkAuditConfig en ac nw li ro lb bl wl).

Definition load_query_cache (o : entries) : M QueryCacheConfig :=
  let d := default_query_cache in
  let! _ := rejectUnknownFields o (keys ["enabled"; "ttl_ms"; "max_entries"; "max_memory_bytes"; "cache_on_replica_only"]%string)
              ($"/query_cache") in
  let! en := value get_bool o ($"enabled") (cc_enabled d) in
  let! tt_ := value get_int o ($"ttl_ms") (cc_ttl_ms d) in
  let! me := value get_int o ($"max_entries") (cc_max_entries d) in
  let! mm := value get_int o ($"max_memory_bytes") (cc_max_memory_bytes d) in
  let! ro := value get_bool o ($"cache_on_replica_only") (cc_replica_only d) in
  let! _ := guard ((tt_ <? 0) || (me <? 0) || (mm <? 0)) ($"invalid query_cache configuration") in
  inr (mkCacheConfig en tt_ me mm ro).

Definition load_cursor (o : entries) : M Cursor.CursorConfig :=
  let d := default_cursor in
  let! _ := rejectUnknownFields o (keys ["enabled"; "default_batch_size"; "max_open_cursors"; "allow_scrollable"]%string)
              ($"/cursor") in
  let! en := value get_bool o ($"enabled") (Cursor.enabled d) in
  let! ba := value get_int o ($"default_batch_size") (Cursor.default_batch_size d) in
  let! op := value get_int o ($"max_open_cursors") (Cursor.max_open_cursors d) in
  let! sc := value get_bool o ($"allow_scrollable") (Cursor.allow_scrollable d) in
  let! _ := guard ((ba <? 0) || (op <? 0)) ($"invalid cursor configuration") in
  inr (Cursor.mkCursorConfig en ba op sc).

Definition load_prepared (o : entries) : M PreparedCacheConfig :=
  let d := default_prepared in
  let! _ := rejectUnknownFields o (keys ["enabled"; "max_per_connection"]%string) ($"/prepared_cache") in
  let! en := value get_bool o ($"enabled") (pc_enabled d) in
  let! mp := value get_int o ($"max_per_connection") (pc_max_per_connection d) in
  let! _ := guard (mp <? 0) ($"invalid prepared_cache configuration: max_per_connection must be >= 0") in
  inr (mkPrepared en mp).

Definition load_interceptors (o : entries) : M bool :=
  let! _ := rejectUnknownFields o (keys ["enabled"]%string) ($"/interceptors") in
  value get_bool o ($"enabled") false.

Definition load_async (o : entries) : M AsyncConfig :=
  let d := default_async in
  let! _ := rejectUnknownFields o (keys ["enabled"; "threads"; "queue_size"; "statement_timeout_ms"]%string) ($"/async") in
  let! en := value get_bool o ($"enabled") (as_enabled d) in
  let! th := value get_int o ($"threads") (as_threads d) in
  let! qs := value get_int o ($"queue_size") (as_queue_size d) in
  let! st := value get_int o ($"statement_timeout_ms") (as_statement_timeout_ms d) in
  let! _ := guard ((th <? 0) || (qs <? 1) || (st <? 0)) ($"invalid async configuration") in
  inr (mkAsync en th qs st).

(** ** Data sources *)

Definition assoc (k : str) (l : list (str * str)) : option str := snd <$> List.find (fun e => e.1 =s k) l.

(** [getenv] sees the name up to its first NUL. *)
Definition c_str (s : str) : str := take (span (fun c => negb (c =c NUL)) s) s.

Record Tls : Type := mkTls { t_enabled : bool; t_verify_peer : bool; t_ca : str; t_cert : str; t_key : str }.

Definition load_tls (path : str) (o : entries) : M Tls :=
  let! _ := rejectUnknownFields o (keys ["enabled"; "verify_peer"; "ca"; "cert"; "key"]%string) (path ++ $"/tls") in
  let! en := value get_bool o ($"enabled") true in
  let! ve := value get_bool o ($"verify_peer") true in
  let! ca := value get_string o ($"ca") [] in
  let! ce := value get_string o ($"cert") [] in
  let! ke := value get_string o ($"key") [] in
  inr (mkTls en ve ca ce ke).

Definition about (n message : str) : str := $"datasource '" ++ n ++ $"'" ++ message.

Definition load_extra (o : entries) : M (list (str * str)) :=
  traverse (fun e => let! s := get_string e.2 in inr (e.1, s)) o.

(** The members of the block, [None] for the ones it does not have. *)
Record OracleBlock : Type := mkBlock {
  b_service : option str; b_sid : option str; b_wallet : option str; b_dn : option str;
  b_charset : option Z; b_lob : option Z; b_bind : option str }.

Definition member {A} (get : json -> M A) (o : entries) (k : str) : M (option A) :=
  match lookup_key k o with Some j => let! a := get j in inr (Some a) | None => inr None end.

Definition load_oracle_block (path : str) (o : entries) : M OracleBlock :=
  let! _ := rejectUnknownFields o (keys ["service_name"; "sid"; "wallet_location"; "server_cert_dn"; "charset_id";
    "lob_max_bytes"; "blob_bind"]%string) (path ++ $"/oracle") in
  let! se := member get_string o ($"service_name") in
  let! si := member get_string o ($"sid") in
  let! wa := member get_string o ($"wallet_location") in
  let! dn := member get_string o ($"server_cert_dn") in
  let! ch := member get_int o ($"charset_id") in
  let! lo := member get_int64 o ($"lob_max_bytes") in
  let! bi := member get_string o ($"blob_bind") in
  inr (mkBlock se si wa dn ch lo bi).

Definition no_block : OracleBlock := mkBlock None None None None None None None.

(** A text from the block, else from [extra], else the default. *)
Definition or_legacy (b : option str) (ex : list (str * str)) (k d : str) : str :=
  match b with Some v => v | None => match assoc k ex with Some v => v | None => d end end.

Definition or_legacy_int (b : option Z) (ex : list (str * str)) (k : str) (bad : Z -> bool) (message : str) (d : Z) : M Z :=
  match b with
  | Some v => inr v
  | None =>
      match assoc k ex with
      | None => inr d
      | Some t => match parseInt64 t with
                  | Some v => let! _ := guard (bad v) message in inr v
                  | None => inl (Error message)
                  end
      end
  end.

(** The settings of the block with the older ones of [extra]. *)
Definition merge_oracle (n : str) (b : OracleBlock) (ex : list (str * str)) : M OracleConfig :=
  let! ch := or_legacy_int (b_charset b) ex ($"charset_id") (fun v => (v <? 1) || (65535 <? v))
               (about n ($" extra.charset_id must be in range 1..65535")) (charset_id default_oracle) in
  let! lo := or_legacy_int (b_lob b) ex ($"lob_max_bytes") (fun v => v <? 1)
               (about n ($" extra.lob_max_bytes must be > 0")) (lob_max_bytes default_oracle) in
  inr (mkOracle (or_legacy (b_service b) ex ($"service_name") []) (or_legacy (b_sid b) ex ($"sid") [])
         (or_legacy (b_wallet b) ex ($"wallet_location") []) (or_legacy (b_dn b) ex ($"server_cert_dn") [])
         ch lo (or_legacy (b_bind b) ex ($"blob_bind") (blob_bind default_oracle))).

Definition empty (s : str) : bool := s =s [].

(** The rules for an Oracle source; the wallet may come from [tls.ca]. *)
Definition oracle_rules (n db ds : str) (ex : list (str * str)) (t : Tls) (oc : OracleConfig) : M OracleConfig :=
  let! _ := guard ((charset_id oc <? 1) || (65535 <? charset_id oc) || (lob_max_bytes oc <? 1) ||
                   negb (one_of (blob_bind oc) ["auto"; "raw"; "lob"]%string))
              (about n ($" has invalid oracle configuration")) in
  let! _ := guard (negb (empty (service_name oc)) && negb (empty (sid oc)))
              (about n ($" oracle.service_name and oracle.sid are mutually exclusive")) in
  let! _ := guard (negb (empty (sid oc)) && negb (empty db))
              (about n ($" cannot combine database (service-name alias) with oracle.sid")) in
  let rawConnect := match assoc ($"connection_string") ex with Some _ => true | None => false end in
  let! _ := guard (negb rawConnect && empty ds && empty (service_name oc) && empty (sid oc) && empty db)
              (about n ($" requires oracle.service_name, oracle.sid, database, dsn, or extra.connection_string")) in
  let! _ := guard ((rawConnect || negb (empty ds)) && t_enabled t)
              (about n ($" uses dsn/extra.connection_string; encode TCPS and certificate verification in that value or Oracle Net configuration instead of using tls")) in
  let wallet := if negb (empty (t_ca t)) && empty (wallet_location oc) then t_ca t else wallet_location oc in
  let! _ := guard (negb (t_enabled t) && (negb (empty wallet) || negb (empty (server_cert_dn oc))))
              (about n ($" oracle.wallet_location/server_cert_dn require tls.enabled")) in
  let! _ := guard (negb (empty (server_cert_dn oc)) && negb (t_verify_peer t))
              (about n ($" oracle.server_cert_dn requires tls.verify_peer=true")) in
  let! _ := guard (t_enabled t && (negb (empty (t_cert t)) || negb (empty (t_key t))))
              (about n ($" Oracle TLS does not consume tls.cert/tls.key directly; configure oracle.wallet_location")) in
  inr (mkOracle (service_name oc) (sid oc) wallet (server_cert_dn oc) (charset_id oc) (lob_max_bytes oc) (blob_bind oc)).

(** The password, from the environment when the source asks for that. *)
Definition secret (n pe pw : str) : M str :=
  if empty pe then inr pw
  else match env (c_str pe) with
       | Some s => inr s
       | None => inl (Error (about n ($" references missing password_env '" ++ pe ++ $"'")))
       end.

Definition ORACLE : str := $"oracle".

Definition load_source_oracle (path n ty db ds : str) (ex : list (str * str)) (t : Tls) (o : entries) : M OracleConfig :=
  let! _ := guard (has ORACLE o && negb (ty =s ORACLE)) (about n ($" has an oracle block but type is not 'oracle'")) in
  if ty =s ORACLE then
    let! b := section o ORACLE (about n ($" oracle must be an object")) no_block (load_oracle_block path) in
    let! oc := merge_oracle n b ex in
    oracle_rules n db ds ex t oc
  else
    let! _ := guard (t_verify_peer t && t_enabled t && empty (t_ca t))
                (about n ($" enables TLS peer verification but tls.ca is empty")) in
    inr default_oracle.

Definition source_path (i : nat) : str := $"/datasources/" ++ nat_string i.

Definition load_source_object (path : str) (o : entries) : M DataSourceConfig :=
  let! _ := rejectUnknownFields o (keys ["name"; "type"; "host"; "port"; "user"; "password"; "password_env"; "database";
    "dsn"; "connection_timeout_ms"; "socket_timeout_ms"; "query_timeout_ms"; "max_result_rows"; "tls"; "oracle";
    "extra"]%string) path in
  let! n := value get_string o ($"name") [] in
  let! ty := value get_string o ($"type") [] in
  let! ho := value get_string o ($"host") [] in
  let! po := value get_int o ($"port") 0 in
  let! us := value get_string o ($"user") [] in
  let! pw := value get_string o ($"password") [] in
  let! pe := value get_string o ($"password_env") [] in
  let! db := value get_string o ($"database") [] in
  let! ds := value get_string o ($"dsn") [] in
  let! ct := value get_int o ($"connection_timeout_ms") 5000 in
  let! st := value get_int o ($"socket_timeout_ms") 0 in
  let! qt := value get_int o ($"query_timeout_ms") 0 in
  let! mr := value get_int o ($"max_result_rows") 0 in
  let! _ := guard ((po <? 0) || (65535 <? po)) ($"config error [range] at " ++ path ++ $"/port: must be in range 0..65535") in
  let! _ := guard ((ct <? 0) || (st <? 0) || (qt <? 0) || (mr <? 0))
              (about n ($" timeout and max_result_rows values must be >= 0")) in
  let! pw := secret n pe pw in
  let! t := section o ($"tls") (about n ($" tls must be an object")) (mkTls false true [] [] []) (load_tls path) in
  let! ex := section o ($"extra") ($"config error [type] at " ++ path ++ $"/extra: must be an object") [] load_extra in
  let! _ := guard (empty n) ($"datasource missing 'name'") in
  let! _ := guard (empty ty) (about n ($" missing 'type'")) in
  let! oc := load_source_oracle path n ty db ds ex t o in
  inr (mkDataSource n ty ho po us pw pe db ds ct st qt mr (t_enabled t) (t_verify_peer t) (t_ca t) (t_cert t) (t_key t) oc ex).

Definition load_source (i : nat) (j : json) : M DataSourceConfig :=
  match j with
  | JObject o => load_source_object (source_path i) o
  | _ => inl (Error ($"config error [type] at " ++ source_path i ++ $": must be an object"))
  end.

Fixpoint traverse_from {A B} (f : nat -> A -> M B) (i : nat) (l : list A) : M (list B) :=
  match l with
  | [] => inr []
  | a :: l => let! b := f i a in let! bs := traverse_from f (S i) l in inr (b :: bs)
  end.

(** ** Groups *)

Definition in_group (n message : str) : str := $"group '" ++ n ++ $"'" ++ message.

Definition load_replica (path n : str) (i : nat) (j : json) : M ReplicaConfig :=
  let bad := $"invalid replica in group '" ++ n ++ $"'" in
  let! r :=
    match j with
    | JString s => inr (mkReplica s 1)
    | JObject o =>
        let! _ := rejectUnknownFields o (keys ["name"; "weight"]%string) (path ++ $"/replicas/" ++ nat_string i) in
        let! rn := value get_string o ($"name") [] in
        let! w := value get_int o ($"weight") 1 in
        inr (mkReplica rn w)
    | _ => inl (Error bad)
    end in
  let! _ := guard (empty (r_name r) || (r_weight r <? 1) || (100 <? r_weight r)) bad in
  inr r.

Definition load_replicas (path n : str) (o : entries) : M (list ReplicaConfig) :=
  match lookup_key ($"replicas") o with
  | None => inr []
  | Some (JArray l) => traverse_from (load_replica path n) 0 l
  | Some _ => inl (Error (in_group n ($" replicas must be an array")))
  end.

Definition load_primary (n : str) (j : json) : M str :=
  match j with
  | JString (c :: s) => inr (c :: s)
  | _ => inl (Error (in_group n ($" failover.primaries must be non-empty strings")))
  end.

Definition load_primaries (n : str) (o : entries) : M (list str) :=
  match lookup_key ($"primaries") o with
  | None => inr []
  | Some (JArray l) => traverse (load_primary n) l
  | Some _ => inl (Error (in_group n ($" failover.primaries must be an array")))
  end.

Definition load_write_buffer (path n : str) (o : entries) : M WriteBufferConfig :=
  let! _ := rejectUnknownFields o (keys ["enabled"; "acknowledge_data_loss_and_duplicates"; "max_queue"; "ttl_ms";
    "flush_interval_ms"]%string) (path ++ $"/failover/write_buffer") in
  let! en := value get_bool o ($"enabled") false in
  let! ak := value get_bool o ($"acknowledge_data_loss_and_duplicates") false in
  let! mq := value get_int o ($"max_queue") 1000 in
  let! tl := value get_int o ($"ttl_ms") 30000 in
  let! fi := value get_int o ($"flush_interval_ms") 1000 in
  let! _ := guard ((mq <? 1) || (tl <? 0) || (fi <? 1)) ($"invalid group '" ++ n ++ $"' failover.write_buffer") in
  inr (mkWriteBuffer en ak mq tl fi).

Definition load_failover (path n : str) (o : entries) : M FailoverConfig :=
  let! _ := rejectUnknownFields o (keys ["primaries"; "acknowledge_external_fencing"; "require_healthy"; "write_buffer"]%string)
              (path ++ $"/failover") in
  let! ps := load_primaries n o in
  let! rh := value get_bool o ($"require_healthy") false in
  let! ak := value get_bool o ($"acknowledge_external_fencing") false in
  let! wb := section o ($"write_buffer") (in_group n ($" failover.write_buffer must be an object")) default_write_buffer
               (load_write_buffer path n) in
  let! _ := guard (negb (match ps with [] => true | _ => false end) && negb ak)
              (in_group n ($" configures automatic write failover without failover.acknowledge_external_fencing=true; sqlconduit does not perform leader election or fencing")) in
  let! _ := guard (w_enabled wb && negb (w_acknowledged wb))
              (in_group n ($" enables the volatile write buffer without failover.write_buffer.acknowledge_data_loss_and_duplicates=true")) in
  inr (mkFailover ps ak rh wb).

Definition group_path (i : nat) : str := $"/groups/" ++ nat_string i.

(** A group up to its replicas. *)
Definition load_group_head (path : str) (o : entries) : M DataSourceGroupConfig :=
  let! _ := rejectUnknownFields o (keys ["name"; "primary"; "replicas"; "read_after_write_ms"; "fallback_to_primary";
    "read_only"; "failover"; "shadow"]%string) path in
  let! n := value get_string o ($"name") [] in
  let! p := value get_string o ($"primary") [] in
  let! raw := value get_int o ($"read_after_write_ms") 0 in
  let! fb := value get_bool o ($"fallback_to_primary") true in
  let! _ := guard (empty n || empty p || (raw <? 0)) ($"invalid datasource group") in
  let! rs := load_replicas path n o in
  let! ro := value get_bool o ($"read_only") false in
  inr (mkGroup n p rs raw fb ro default_failover []).

Definition group_warning (g : DataSourceGroupConfig) : list str :=
  match g_replicas g with
  | [] => []
  | rs =>
      if g_read_after_write_ms g =? 0 then
        [$"sqlconduit WARN: datasource group '" ++ g_name g ++ $"' has " ++ nat_string (length rs) ++
         $" replica(s) but read_after_write_ms=0; writes-then-reads may be served by replicas and return stale data. Set read_after_write_ms > 0 (e.g. 1000) to pin post-write reads to the primary." ++ [LF]]
      else []
  end.

Definition load_shadow (n : str) (o : entries) : M str :=
  match lookup_key ($"shadow") o with
  | None => inr []
  | Some (JString s) => inr s
  | Some _ => inl (Error (in_group n ($" shadow must be a string")))
  end.

Definition load_group_tail (path : str) (o : entries) (g : DataSourceGroupConfig) : M DataSourceGroupConfig :=
  let n := g_name g in
  let! f := section o ($"failover") (in_group n ($" failover must be an object")) default_failover (load_failover path n) in
  let! sh := load_shadow n o in
  inr (mkGroup n (g_primary g) (g_replicas g) (g_read_after_write_ms g) (g_fallback_to_primary g) (g_read_only g) f sh).

(** With what is written to the standard error stream. *)
Definition load_group (i : nat) (j : json) : list str * M DataSourceGroupConfig :=
  match j with
  | JObject o =>
      match load_group_head (group_path i) o with
      | inl e => ([], inl e)
      | inr g => (group_warning g, load_group_tail (group_path i) o g)
      end
  | _ => ([], inl (Error ($"config error [type] at " ++ group_path i ++ $": must be an object")))
  end.

Fixpoint load_group_list (i : nat) (l : list json) : list str * M (list DataSourceGroupConfig) :=
  match l with
  | [] => ([], inr [])
  | j :: l =>
      match load_group i j with
      | (w, inl e) => (w, inl e)
      | (w, inr g) =>
          let '(ws, r) := load_group_list (S i) l in
          (w ++ ws, let! gs := r in inr (g :: gs))
      end
  end.

Definition load_groups (o : entries) : list str * M (list DataSourceGroupConfig) :=
  match lookup_key ($"groups") o with
  | None => ([], inr [])
  | Some (JArray l) => load_group_list 0 l
  | Some _ => ([], inl (Error ($"groups must be an array")))
  end.

(** ** The document *)

Definition load_datasources (o : entries) : M (list DataSourceConfig) :=
  match lookup_key ($"datasources") o with
  | Some (JArray l) =>
      let! _ := guard (match l with [] => true | _ => false end)
                  ($"config error [min_items] at /datasources: at least one datasource is required") in
      traverse_from load_source 0 l
  | _ => inl (Error ($"missing 'datasources' array"))
  end.

(** Everything in front of the groups. *)
Definition load_settings (o : entries) : M GlobalConfig :=
  let! _ := rejectUnknownFields o (keys ["$schema"; "default_datasource"; "heartbeat_interval_ms"; "pool"; "retry";
    "circuit_breaker"; "observability"; "rate_limit"; "sql_audit"; "query_cache"; "cursor"; "prepared_cache"; "async";
    "interceptors"; "datasources"; "groups"]%string) [] in
  let! dd := value get_string o ($"default_datasource") [] in
  let! hb := value get_int o ($"heartbeat_interval_ms") 5000 in
  let! _ := guard (hb <? 0) ($"config error [minimum] at /heartbeat_interval_ms: must be >= 0") in
  let! po := section o ($"pool") ($"config error [type] at /pool: must be an object") default_pool load_pool in
  let! _ := guard (bad_pool po)
              ($"config error [invalid_value] at /pool: require 0 <= min <= max, max >= 1, and non-negative timeout values") in
  let! re := section o ($"retry") ($"retry must be an object") default_retry load_retry in
  let! cb := section o ($"circuit_breaker") ($"circuit_breaker must be an object") default_breaker load_breaker in
  let! ob := section o ($"observability") ($"observability must be an object") default_observability load_observability in
  let! rl := section o ($"rate_limit") ($"rate_limit must be an object") default_rate_limit load_rate_limit in
  let! au := section o ($"sql_audit") ($"sql_audit must be an object") default_sql_audit load_audit in
  let! qc := section o ($"query_cache") ($"query_cache must be an object") default_query_cache load_query_cache in
  let! cu := section o ($"cursor") ($"cursor must be an object") default_cursor load_cursor in
  let! pc := section o ($"prepared_cache") ($"prepared_cache must be an object") default_prepared load_prepared in
  let! ic := section o ($"interceptors") ($"interceptors must be an object") false load_interceptors in
  let! sy := section o ($"async") ($"async must be an object") default_async load_async in
  let! ds := load_datasources o in
  inr (mkGlobal dd hb po re cb ob rl au qc cu pc sy ic ds []).

(** The default source is the first one unless it is named. *)
Definition finish (c : GlobalConfig) (gs : list DataSourceGroupConfig) : GlobalConfig :=
  let dd := if empty (default_datasource c) then match datasources c with d :: _ => name d | [] => [] end
            else default_datasource c in
  mkGlobal dd (heartbeat_interval_ms c) (pool c) (retry c) (circuit_breaker c) (observability c) (rate_limit c)
    (sql_audit c) (query_cache c) (cursor c) (prepared_cache c) (async c) (interceptors c) (datasources c) gs.

Definition load_json (j : json) : list str * M GlobalConfig :=
  match j with
  | JObject o =>
      match load_settings o with
      | inl e => ([], inl e)
      | inr c => let '(w, r) := load_groups o in (w, let! gs := r in inr (finish c gs))
      end
  | _ => ([], inl (Error ($"config error [type] at /: root must be an object")))
  end.

Definition has_suffix (suffix s : str) : bool :=
  (length suffix <=? length s)%nat && (drop (length s - length suffix) s =s suffix).

Definition hasYamlExtension (path : str) : bool := has_suffix ($".yaml") (lower path) || has_suffix ($".yml") (lower path).
Definition hasJsonExtension (path : str) : bool := has_suffix ($".json") (lower path).

Definition looksLikeYaml (content : str) : bool :=
  match trim_front content with
  | c :: _ => negb (c =c "{"%char) && negb (c =c "["%char)
  | [] => false
  end.

(** The byte order mark at the front. *)
Definition drop_bom (s : str) : str :=
  match s with
  | a :: b :: c :: r => if (code a =? 239)%N && (code b =? 187)%N && (code c =? 191)%N then r else s
  | _ => s
  end.

Definition read_document `{JsonParser} (path content : str) : M json :=
  if hasYamlExtension path || (negb (hasJsonExtension path) && looksLikeYaml content) then
    match parseYaml content with
    | Parsed j => inr j
    | Failed e => inl (Error ($"yaml parse error: " ++ e))
    | NoFuel => inl (Error [])
    end
  else
    match json_parse content with
    | inr j => inr j
    | inl what => inl (Error ($"json parse error: " ++ what))
    end.

Definition message (e : failure) : str :=
  match e with Error m => m | Exception what => $"config validation error: " ++ what end.

(** [file] is what the path holds, [None] when it cannot be opened. *)
Definition loadFromFile `{JsonParser} (path : str) (file : option str) : list str * (str + GlobalConfig) :=
  match file with
  | None => ([], inl ($"cannot open config file: " ++ path))
  | Some content =>
      match read_document path (drop_bom content) with
      | inl e => ([], inl (message e))
      | inr j => let '(w, r) := load_json j in (w, match r with inl e => inl (message e) | inr c => inr c end)
      end
  end.

(** ** Configurations that are loaded are valid *)

Definition i32 (z : Z) : Prop := - 2 ^ 31 <= z < 2 ^ 31.
Definition nat31 (z : Z) : Prop := 0 <= z < 2 ^ 31.
Definition pos31 (z : Z) : Prop := 1 <= z < 2 ^ 31.

Definition valid_pool (p : PoolConfig) : Prop :=
  nat31 (p_min p) /\ pos31 (p_max p) /\ p_min p <= p_max p /\ nat31 (p_borrow_timeout_ms p) /\ nat31 (p_idle_timeout_ms p) /\
  nat31 (p_max_lifetime_ms p) /\ nat31 (p_leak_detection_threshold_ms p) /\ nat31 (p_validation_interval_ms p).

Definition valid_retry (r : RetryConfig) : Prop :=
  pos31 (max_attempts r) /\ nat31 (initial_backoff_ms r) /\ nat31 (max_backoff_ms r) /\ initial_backoff_ms r <= max_backoff_ms r.

Definition valid_breaker (b : CircuitBreakerConfig) : Prop := nat31 (failure_threshold b) /\ pos31 (open_interval_ms b).

Definition among (s : str) (l : list string) : Prop := exists a, a ∈ l /\ s = $a.

Definition valid_sql_log (l : Observer.SqlLogConfig) : Prop :=
  among (Observer.lg_mode l) ["template"; "full"]%string /\ among (Observer.lg_level l) ["debug"; "info"; "warn"; "error"]%string /\
  SFltb (Observer.lg_sample_rate l) (of_int 0) = false /\ SFltb (of_int 1) (Observer.lg_sample_rate l) = false /\
  pos31 (Observer.lg_max_sql_length l) /\ 64 <= Observer.lg_max_sql_length l /\ pos31 (Observer.lg_max_param_length l).

(** Positive and strictly increasing. *)
Fixpoint increasing (previous : Z) (l : list Z) : Prop :=
  match l with [] => True | b :: l => previous < b < 2 ^ 31 /\ increasing b l end.

Definition valid_slow_sql (s : Observer.SlowSqlConfig) : Prop :=
  nat31 (Observer.sl_threshold_ms s) /\ pos31 (Observer.sl_aggregate_capacity s) /\ nat31 (Observer.sl_recent_capacity s) /\
  pos31 (Observer.sl_max_sql_length s) /\ 64 <= Observer.sl_max_sql_length s /\
  Observer.sl_histogram_buckets_ms s <> [] /\ increasing 0 (Observer.sl_histogram_buckets_ms s).

Definition valid_report (r : StatsReportConfig) : Prop :=
  pos31 (sr_interval_ms r) /\ 1000 <= sr_interval_ms r /\ among (sr_format r) ["text"; "json"]%string /\ nat31 (sr_slow_sql_limit r).

Definition valid_observability (o : ObservabilityConfig) : Prop :=
  valid_sql_log (o_sql_log o) /\ valid_slow_sql (o_slow_sql o) /\ valid_report (o_stats_report o).

Definition valid_rate_limit (r : RateLimitConfig) : Prop :=
  nat31 (rl_global_qps r) /\ nat31 (rl_per_fingerprint_qps r) /\ nat31 (rl_burst r) /\
  among (rl_fingerprint_mode r) ["off"; "template"; "full"]%string.

Definition valid_audit (a : SqlAuditConfig) : Prop :=
  among (ac_action a) ["block"; "warn"]%string /\ Forall uint64_range (ac_blacklist a) /\ Forall uint64_range (ac_whitelist a).

Definition valid_query_cache (q : QueryCacheConfig) : Prop :=
  nat31 (cc_ttl_ms q) /\ nat31 (cc_max_entries q) /\ nat31 (cc_max_memory_bytes q).

Definition valid_cursor (c : Cursor.CursorConfig) : Prop :=
  nat31 (Cursor.default_batch_size c) /\ nat31 (Cursor.max_open_cursors c).

Definition valid_async (a : AsyncConfig) : Prop :=
  nat31 (as_threads a) /\ pos31 (as_queue_size a) /\ nat31 (as_statement_timeout_ms a).

(** What an Oracle source must say, and what it may not combine. *)
Definition valid_oracle (d : DataSourceConfig) : Prop :=
  let oc := oracle d in
  let raw := is_Some (assoc ($"connection_string") (extra d)) in
  1 <= charset_id oc <= 65535 /\ 1 <= lob_max_bytes oc <= int64_max /\ among (blob_bind oc) ["auto"; "raw"; "lob"]%string /\
  (service_name oc = [] \/ sid oc = []) /\ (sid oc = [] \/ database d = []) /\
  (raw \/ dsn d <> [] \/ service_name oc <> [] \/ sid oc <> [] \/ database d <> []) /\
  (tls_enabled d = true -> ~ raw /\ dsn d = [] /\ tls_cert d = [] /\ tls_key d = []) /\
  (tls_enabled d = false -> wallet_location oc = [] /\ server_cert_dn oc = []) /\
  (tls_ca d <> [] -> wallet_location oc <> []) /\
  (server_cert_dn oc <> [] -> tls_verify_peer d = true).

Definition valid_source (d : DataSourceConfig) : Prop :=
  name d <> [] /\ type d <> [] /\ 0 <= port d <= 65535 /\ nat31 (connection_timeout_ms d) /\ nat31 (socket_timeout_ms d) /\
  nat31 (query_timeout_ms d) /\ nat31 (max_result_rows d) /\
  (password_env d <> [] -> env (c_str (password_env d)) = Some (password d)) /\
  (type d = ORACLE -> valid_oracle d) /\
  (type d <> ORACLE -> oracle d = default_oracle /\ (tls_enabled d && tls_verify_peer d = true -> tls_ca d <> [])).

Definition valid_replica (r : ReplicaConfig) : Prop := r_name r <> [] /\ 1 <= r_weight r <= 100.

Definition valid_write_buffer (w : WriteBufferConfig) : Prop :=
  pos31 (w_max_queue w) /\ nat31 (w_ttl_ms w) /\ pos31 (w_flush_interval_ms w).

(** Dangerous features are acknowledged. *)
Definition valid_failover (f : FailoverConfig) : Prop :=
  Forall (fun p => p <> []) (f_primaries f) /\ (f_primaries f <> [] -> f_acknowledged f = true) /\
  (w_enabled (f_write_buffer f) = true -> w_acknowledged (f_write_buffer f) = true) /\ valid_write_buffer (f_write_buffer f).

Definition valid_group (g : DataSourceGroupConfig) : Prop :=
  g_name g <> [] /\ g_primary g <> [] /\ nat31 (g_read_after_write_ms g) /\ Forall valid_replica (g_replicas g) /\
  valid_failover (g_failover g).

Definition valid_settings (c : GlobalConfig) : Prop :=
  nat31 (heartbeat_interval_ms c) /\ valid_pool (pool c) /\ valid_retry (retry c) /\ valid_breaker (circuit_breaker c) /\
  valid_observability (observability c) /\ valid_rate_limit (rate_limit c) /\ valid_audit (sql_audit c) /\
  valid_query_cache (query_cache c) /\ valid_cursor (cursor c) /\ nat31 (pc_max_per_connection (prepared_cache c)) /\
  valid_async (async c).

Definition valid_config (c : GlobalConfig) : Prop :=
  valid_settings c /\ datasources c <> [] /\ Forall valid_source (datasources c) /\ Forall valid_group (groups c) /\
  default_datasource c <> [].

(** What a cast gives is a value of its type. *)
Hypothesis to_int_range : forall d, i32 (to_int d).
Hypothesis to_int64_range : forall d, int64_range (to_int64 d).
Hypothesis to_uint64_range : forall d, uint64_range (to_uint64 d).

Lemma andThen_inr {A B} (m : M A) (k : A -> M B) (b : B) : andThen m k = inr b -> exists a, m = inr a /\ k a = inr b.
Proof. destruct m; [done|]. cbn. eauto. Qed.

Lemma guard_inr (bad : bool) (msg : str) (u : unit) : guard bad msg = inr u -> bad = false.
Proof. by destruct bad. Qed.

Lemma wrap_range (z : Z) : i32 (wrap 32 z).
Proof. unfold i32, wrap. change (32 - 1) with 31. pose proof (Z.mod_pos_bound (z + 2 ^ 31) (2 ^ 32)). lia. Qed.

Lemma get_int_range (j : json) (z : Z) : get_int j = inr z -> i32 z.
Proof.
  destruct j as [|[]| | | | |]; cbn; intros [=]; subst; try (unfold i32; lia); [apply wrap_range|apply to_int_range].
Qed.

Lemma value_int (o : entries) (k : str) (d z : Z) : value get_int o k d = inr z -> i32 d -> i32 z.
Proof. unfold value. destruct (lookup_key k o); [intros H _; by apply get_int_range in H|by intros [= <-]]. Qed.

Lemma section_ok {A} (P : A -> Prop) (o : entries) (k bad : str) (d a : A) (load : entries -> M A) :
  section o k bad d load = inr a -> P d -> (forall s a, load s = inr a -> P a) -> P a.
Proof. unfold section. destruct (lookup_key k o) as [[]|]; try done; [|by intros [= <-]]. intros H _ Hl. eauto. Qed.

Lemma traverse_ok {A B} (P : B -> Prop) (f : A -> M B) (l : list A) (bs : list B) :
  (forall a b, f a = inr b -> P b) -> traverse f l = inr bs -> Forall P bs.
Proof.
  intros Hf. revert bs. induction l as [|a l IH]; intros bs H; cbn in H; [by injection H as <-|].
  apply andThen_inr in H as (b & Hb & H). apply andThen_inr in H as (bs' & Hbs & H). injection H as <-. eauto.
Qed.

Lemma traverse_from_ok {A B} (P : B -> Prop) (f : nat -> A -> M B) (l : list A) (i : nat) (bs : list B) :
  (forall i a b, f i a = inr b -> P b) -> traverse_from f i l = inr bs -> Forall P bs.
Proof.
  intros Hf. revert i bs. induction l as [|a l IH]; intros i bs H; cbn in H; [by injection H as <-|].
  apply andThen_inr in H as (b & Hb & H). apply andThen_inr in H as (bs' & Hbs & H). injection H as <-. eauto.
Qed.

Lemma one_of_among (s : str) (l : list string) : one_of s l = true <-> among s l.
Proof.
  unfold one_of, among. rewrite existsb_exists. split; intros (a & Ha & E); exists a.
  - split; [by apply list_elem_of_In|by apply str_eqb_true].
  - split; [by apply list_elem_of_In|by apply str_eqb_true].
Qed.

Lemma empty_true (s : str) : empty s = true <-> s = [].
Proof. apply str_eqb_true. Qed.
Lemma empty_false (s : str) : empty s = false <-> s <> [].
Proof. unfold empty. rewrite <- not_true_iff_false, str_eqb_true. done. Qed.

(** Take a load apart: the members that were read, with their ranges, and the tests
    that passed. *)
Ltac read H :=
  repeat (let E := fresh "E" in let x := fresh "x" in apply andThen_inr in H as (x & E & H)).
Ltac ranges :=
  repeat match goal with
    | E : value get_int _ _ _ = inr _ |- _ => apply value_int in E; [|vm_compute; intuition discriminate]
    | E : guard _ _ = inr _ |- _ => apply guard_inr in E
    | E : rejectUnknownFields _ _ _ = inr _ |- _ => clear E
    | E : _ || _ = false |- _ => apply orb_false_iff in E as [? ?]
    | E : (_ <? _) = false |- _ => apply Z.ltb_ge in E
    | E : (_ <=? _) = false |- _ => apply Z.leb_gt in E
    | E : empty _ = false |- _ => apply empty_false in E
    | E : negb (one_of _ _) = false |- _ => apply negb_false_iff, one_of_among in E
    end; unfold i32, nat31, pos31 in *.
Ltac loaded H := read H; injection H as <-; ranges.

Lemma load_pool_ints (o : entries) (p : PoolConfig) : load_pool o = inr p -> bad_pool p = false -> valid_pool p.
Proof. intros H Hb. unfold load_pool in H. loaded H. unfold bad_pool in Hb. cbn in Hb. ranges. unfold valid_pool. cbn. unfold nat31, pos31. lia. Qed.

Lemma load_retry_ok (o : entries) (r : RetryConfig) : load_retry o = inr r -> valid_retry r.
Proof. intros H. unfold load_retry in H. loaded H. unfold valid_retry. cbn. unfold nat31, pos31. lia. Qed.

Lemma load_breaker_ok (o : entries) (b : CircuitBreakerConfig) : load_breaker o = inr b -> valid_breaker b.
Proof. intros H. unfold load_breaker in H. loaded H. unfold valid_breaker. cbn. unfold nat31, pos31. lia. Qed.

Lemma load_sql_log_ok (o : entries) (l : Observer.SqlLogConfig) : load_sql_log o = inr l -> valid_sql_log l.
Proof. intros H. unfold load_sql_log in H. loaded H. unfold valid_sql_log. cbn -[SFltb]. unfold nat31, pos31. split_and!; try done; lia. Qed.

Lemma bad_buckets_ok (l : list Z) (p : Z) : 0 <= p -> Forall i32 l -> bad_buckets p l = false -> increasing p l.
Proof.
  revert p. induction l as [|b l IH]; intros p Hp HF H; [done|]. cbn in H. inversion HF as [|? ? Hb HF']; subst. ranges.
  cbn. split; [lia|]. apply IH; [lia|done|done].
Qed.

Lemma load_slow_sql_ok (o : entries) (s : Observer.SlowSqlConfig) : load_slow_sql o = inr s -> valid_slow_sql s.
Proof.
  intros H. unfold load_slow_sql in H. read H. injection H as <-.
  assert (HF : Forall i32 x6).
  { unfold value in E6. destruct (lookup_key _ _) as [j|]; [|injection E6 as <-; repeat constructor; vm_compute; intuition discriminate].
    destruct j; try discriminate. by apply (traverse_ok i32 get_int l _ get_int_range). }
  ranges. assert (Hx : increasing 0 x6).
  { destruct x6 as [|b l]; [done|]. cbn [bad_buckets] in *. ranges. inversion HF; subst. unfold i32 in *. split; [lia|]. apply bad_buckets_ok; try done. lia. }
  unfold valid_slow_sql. cbn. unfold nat31, pos31. split_and!; try done; try lia. by destruct x6.
Qed.

Lemma load_report_ok (o : entries) (r : StatsReportConfig) : load_report o = inr r -> valid_report r.
Proof. intros H. unfold load_report in H. loaded H. unfold valid_report. cbn. unfold nat31, pos31. split_and!; try done; lia. Qed.

Lemma load_rate_limit_ok (o : entries) (r : RateLimitConfig) : load_rate_limit o = inr r -> valid_rate_limit r.
Proof. intros H. unfold load_rate_limit in H. loaded H. unfold valid_rate_limit. cbn. unfold nat31, pos31. split_and!; try done; lia. Qed.

Lemma get_uint64_range (j : json) (z : Z) : get_uint64 j = inr z -> uint64_range z.
Proof.
  destruct j; cbn; intros [=]; subst; [|apply to_uint64_range]. unfold uint64_range, wrap_u64. apply Z.mod_pos_bound. done.
Qed.

Lemma value_fingerprints (o : entries) (k : str) (l : list Z) :
  value (get_list get_uint64) o k [] = inr l -> Forall uint64_range l.
Proof.
  unfold value. destruct (lookup_key k o) as [j|]; [|intros [= <-]; constructor].
  destruct j; try done. cbn. apply traverse_ok, get_uint64_range.
Qed.

Lemma load_audit_ok (o : entries) (a : SqlAuditConfig) : load_audit o = inr a -> valid_audit a.
Proof.
  intros H. unfold load_audit in H. loaded H. unfold valid_audit. cbn. split_and!; [done|..]; by eapply value_fingerprints.
Qed.

Lemma load_query_cache_ok (o : entries) (q : QueryCacheConfig) : load_query_cache o = inr q -> valid_query_cache q.
Proof. intros H. unfold load_query_cache in H. loaded H. unfold valid_query_cache. cbn. unfold nat31. lia. Qed.

Lemma load_cursor_ok (o : entries) (c : Cursor.CursorConfig) : load_cursor o = inr c -> valid_cursor c.
Proof. intros H. unfold load_cursor in H. loaded H. unfold valid_cursor. cbn. unfold nat31. lia. Qed.

Lemma load_prepared_ok (o : entries) (p : PreparedCacheConfig) : load_prepared o = inr p -> nat31 (pc_max_per_connection p).
Proof. intros H. unfold load_prepared in H. loaded H. unfold nat31. cbn. lia. Qed.

Lemma load_async_ok (o : entries) (a : AsyncConfig) : load_async o = inr a -> valid_async a.
Proof. intros H. unfold load_async in H. loaded H. unfold valid_async. cbn. unfold nat31, pos31. lia. Qed.

Lemma default_observability_ok : valid_observability default_observability.
Proof.
  split; [|split]; [|vm_compute; intuition congruence|];
    split_and!; try (by vm_compute); eexists; (split; [|reflexivity]); set_solver.
Qed.

Lemma load_observability_ok (o : entries) (ob : ObservabilityConfig) : load_observability o = inr ob -> valid_observability ob.
Proof.
  intros H. unfold load_observability in H. read H. injection H as <-. destruct default_observability_ok as (D1 & D2 & D3).
  split_and!; cbn.
  - eapply section_ok; [done|exact D1|apply load_sql_log_ok].
  - eapply section_ok; [done|exact D2|apply load_slow_sql_ok].
  - eapply section_ok; [done|exact D3|apply load_report_ok].
Qed.

(** *** Data sources *)

Lemma wrap64_range (z : Z) : int64_range (wrap 64 z).
Proof. unfold int64_range, wrap, int64_min, int64_max. change (64 - 1) with 63. pose proof (Z.mod_pos_bound (z + 2 ^ 63) (2 ^ 64)). lia. Qed.

Lemma block_ranges (path : str) (o : entries) (b : OracleBlock) :
  load_oracle_block path o = inr b -> forall z, b_lob b = Some z -> int64_range z.
Proof.
  intros H z. unfold load_oracle_block in H. read H. injection H as <-. cbn. intros ->. unfold member in *.
  destruct (lookup_key ($"lob_max_bytes") o) as [j|]; [|done].
  match goal with E : andThen (get_int64 j) _ = _ |- _ => apply andThen_inr in E as (y & Hy & [= <-]) end.
  destruct j; cbn in Hy; try discriminate Hy; injection Hy as <-; [apply wrap64_range|apply to_int64_range].
Qed.

Lemma legacy_range (b : option Z) (ex : list (str * str)) (k : str) (bad : Z -> bool) (msg : str) (d z : Z) :
  or_legacy_int b ex k bad msg d = inr z -> int64_range d -> (forall z, b = Some z -> int64_range z) -> int64_range z.
Proof.
  unfold or_legacy_int. destruct b as [v|]; [intros [= <-] _ Hb; by apply Hb|]. destruct (assoc k ex) as [t|]; [|by intros [= <-]].
  unfold parseInt64, Oracle.parseInt64Strict. destruct (Oracle.whole_number t) as [[n v]|]; [|done].
  destruct (_ && _) eqn:E; [|done]. intros (u & _ & [= <-])%andThen_inr _ _. apply andb_true_iff in E as [E1%Z.leb_le E2%Z.leb_le]. done.
Qed.

Lemma merge_lob (n : str) (b : OracleBlock) (ex : list (str * str)) (oc : OracleConfig) :
  merge_oracle n b ex = inr oc -> (forall z, b_lob b = Some z -> int64_range z) -> int64_range (lob_max_bytes oc).
Proof.
  intros H Hb. unfold merge_oracle in H. read H. injection H as <-. cbn. eapply legacy_range; [done| |done]. vm_compute. intuition discriminate.
Qed.

Lemma flag_false (a : bool) (P : Prop) : (a = true <-> P) -> a = false -> ~ P.
Proof. intros [_ H] E HP. rewrite H in E; done. Qed.

(** The rules, read as propositions. *)
Lemma oracle_rules_ok (n db ds : str) (ex : list (str * str)) (t : Tls) (oc oc' : OracleConfig) (d : DataSourceConfig) :
  oracle_rules n db ds ex t oc = inr oc' -> int64_range (lob_max_bytes oc) ->
  database d = db -> dsn d = ds -> extra d = ex -> oracle d = oc' ->
  mkTls (tls_enabled d) (tls_verify_peer d) (tls_ca d) (tls_cert d) (tls_key d) = t -> valid_oracle d.
Proof.
  intros H Hl <- <- <- Ho <-. unfold oracle_rules in H. cbn [t_enabled t_verify_peer t_ca t_cert t_key] in H. read H. injection H as Hoc.
  unfold valid_oracle. rewrite Ho, <- Hoc. cbn [service_name sid wallet_location server_cert_dn charset_id lob_max_bytes blob_bind].
  clear Ho Hoc. ranges. unfold int64_range in Hl.
  assert (Hraw : forall b, b = match assoc ($"connection_string") (extra d) with Some _ => true | None => false end ->
                 (b = true <-> is_Some (assoc ($"connection_string") (extra d)))).
  { intros b ->. destruct (assoc _ _); [by split; [eauto|]|]. split; [done|by intros []]. }
  specialize (Hraw _ eq_refl). remember (match assoc _ _ with Some _ => true | None => false end) as raw eqn:Er. clear Er.
  rewrite <- Hraw, <- !empty_true. remember (if _ && _ then tls_ca d else _) as wallet eqn:Ew.
  assert (Hw : empty (tls_ca d) = false -> empty wallet = false).
  { intros Hc. rewrite Ew, Hc. cbn [negb andb]. destruct (empty (wallet_location oc)) eqn:F; done. }
  clear Ew Hraw.
  split_and!; [lia..|done| | | | | | |].
  - clear -E0. destruct (empty (service_name oc)), (empty (sid oc)); auto.
  - clear -E1. destruct (empty (database d)), (empty (sid oc)); auto.
  - clear -E2. destruct raw, (empty (dsn d)), (empty (service_name oc)), (empty (sid oc)), (empty (database d)); cbn in E2; try discriminate; intuition discriminate.
  - clear -E3 E6. intros Ht. rewrite Ht in *. destruct raw, (empty (dsn d)), (empty (tls_cert d)), (empty (tls_key d)); cbn in *; try discriminate; auto.
  - clear -E4. intros Ht. rewrite Ht in *. destruct (empty wallet), (empty (server_cert_dn oc)); cbn in *; try discriminate; auto.
  - clear -Hw. destruct (empty (tls_ca d)); [done|]. rewrite Hw; done.
  - clear -E5. destruct (empty (server_cert_dn oc)), (tls_verify_peer d); cbn in *; try done.
Qed.

Lemma secret_ok (n pe pw s : str) : secret n pe pw = inr s -> pe <> [] -> env (c_str pe) = Some s.
Proof.
  unfold secret. intros H Hpe%empty_false. rewrite Hpe in H. destruct (env (c_str pe)); [by injection H as ->|done].
Qed.

Lemma load_source_ok (path : str) (o : entries) (d : DataSourceConfig) : load_source_object path o = inr d -> valid_source d.
Proof.
  intros H. unfold load_source_object in H. read H. injection H as <-.
  match goal with E : load_source_oracle _ _ _ _ _ _ _ _ = _ |- _ => rename E into Ho end.
  match goal with E : secret _ _ _ = _ |- _ => pose proof (secret_ok _ _ _ _ E) as Hs; clear E end. ranges.
  unfold valid_source. cbn -[valid_oracle ORACLE]. unfold nat31. split_and!; try done; try lia; clear Hs.
  - intros ->. unfold load_source_oracle in Ho. change (ORACLE =s ORACLE) with true in Ho. rewrite andb_false_r in Ho. cbn [guard andThen] in Ho.
    apply andThen_inr in Ho as (b & Hb & Ho). apply andThen_inr in Ho as (oc & Hoc & Ho).
    eapply oracle_rules_ok; [exact Ho|..]; try done; [|by destruct x16].
    eapply merge_lob; [exact Hoc|]. eapply (section_ok (fun b => forall z, b_lob b = Some z -> int64_range z)); [exact Hb|done|apply block_ranges].
  - intros Hne. unfold load_source_oracle in Ho.
    assert (F : (x1 =s ORACLE) = false) by (apply not_true_iff_false; by intros ?%str_eqb_true). rewrite F in Ho. read Ho. injection Ho as <-.
    split; [done|]. intros [Ht Hv]%andb_true_iff.
    match goal with E : guard (t_verify_peer _ && _ && _) _ = _ |- _ => apply guard_inr in E; rewrite Ht, Hv in E; by apply empty_false in E end.
Qed.

(** *** Groups *)

Lemma load_replica_ok (path n : str) (i : nat) (j : json) (r : ReplicaConfig) : load_replica path n i j = inr r -> valid_replica r.
Proof.
  intros H. unfold load_replica in H. apply andThen_inr in H as (r' & _ & H). apply andThen_inr in H as (u & Hg & H).
  injection H as <-. ranges. split; [done|lia].
Qed.

Lemma load_replicas_ok (path n : str) (o : entries) (rs : list ReplicaConfig) :
  load_replicas path n o = inr rs -> Forall valid_replica rs.
Proof.
  unfold load_replicas. destruct (lookup_key _ o) as [[]|]; try done; [|intros [= <-]; constructor].
  apply traverse_from_ok, load_replica_ok.
Qed.

Lemma load_primaries_ok (n : str) (o : entries) (ps : list str) : load_primaries n o = inr ps -> Forall (fun p => p <> []) ps.
Proof.
  unfold load_primaries. destruct (lookup_key _ o) as [[]|]; try done; [|intros [= <-]; constructor].
  apply traverse_ok. intros [| | | |[]| |] q [=]; by subst.
Qed.

Lemma load_write_buffer_ok (path n : str) (o : entries) (w : WriteBufferConfig) :
  load_write_buffer path n o = inr w -> valid_write_buffer w.
Proof. intros H. unfold load_write_buffer in H. loaded H. unfold valid_write_buffer. cbn. unfold nat31, pos31. lia. Qed.

Lemma default_write_buffer_ok : valid_write_buffer default_write_buffer.
Proof. vm_compute. intuition discriminate. Qed.

Lemma load_failover_ok (path n : str) (o : entries) (f : FailoverConfig) : load_failover path n o = inr f -> valid_failover f.
Proof.
  intros H. unfold load_failover in H. apply andThen_inr in H as (u & _ & H). apply andThen_inr in H as (ps & Hps & H).
  do 2 apply andThen_inr in H as (? & _ & H). apply andThen_inr in H as (wb & Hwb & H). read H. injection H as <-. ranges.
  unfold valid_failover. cbn. split_and!.
  - by eapply load_primaries_ok.
  - intros Hne. destruct ps; [done|]. by destruct x0.
  - intros Hw. rewrite Hw in *. by destruct (w_acknowledged wb).
  - eapply (section_ok valid_write_buffer); [done|apply default_write_buffer_ok|apply load_write_buffer_ok].
Qed.

Lemma default_failover_ok : valid_failover default_failover.
Proof. split_and!; [constructor|done|done|..]; apply default_write_buffer_ok. Qed.

Lemma load_group_ok (i : nat) (j : json) (w : list str) (g : DataSourceGroupConfig) : load_group i j = (w, inr g) -> valid_group g.
Proof.
  unfold load_group. destruct j; try done. destruct (load_group_head _ _) as [e|h] eqn:Eh; [done|]. intros [= <- H].
  unfold load_group_tail in H. apply andThen_inr in H as (f & Hf & H). apply andThen_inr in H as (sh & _ & H). injection H as <-.
  unfold load_group_head in Eh. do 6 (apply andThen_inr in Eh as (? & ? & Eh)).
  apply andThen_inr in Eh as (rs & Hrs & Eh). apply andThen_inr in Eh as (ro & _ & Eh). injection Eh as <-. ranges.
  unfold valid_group. cbn in *.
  split_and!; [done|done|unfold nat31; lia|by eapply load_replicas_ok|].
  eapply (section_ok valid_failover); [done|apply default_failover_ok|apply load_failover_ok].
Qed.

Lemma load_group_list_ok (l : list json) (i : nat) (w : list str) (gs : list DataSourceGroupConfig) :
  load_group_list i l = (w, inr gs) -> Forall valid_group gs.
Proof.
  revert i w gs. induction l as [|j l IH]; intros i w gs H; cbn in H; [injection H as <- <-; constructor|].
  destruct (load_group i j) as [w1 [e|g]] eqn:Eg; [done|]. destruct (load_group_list (S i) l) as [ws r] eqn:El. injection H as <- H.
  apply andThen_inr in H as (gs' & -> & H). injection H as <-. constructor; [by eapply load_group_ok|by eapply IH].
Qed.

Lemma load_groups_ok (o : entries) (w : list str) (gs : list DataSourceGroupConfig) :
  load_groups o = (w, inr gs) -> Forall valid_group gs.
Proof.
  unfold load_groups. destruct (lookup_key _ o) as [[]|]; try done; [|intros [= <- <-]; constructor]. apply load_group_list_ok.
Qed.

(** *** The document *)

Lemma load_datasources_ok (o : entries) (ds : list DataSourceConfig) :
  load_datasources o = inr ds -> ds <> [] /\ Forall valid_source ds.
Proof.
  unfold load_datasources. destruct (lookup_key _ o) as [[]|]; try done. intros H. apply andThen_inr in H as (u & Hg & H).
  apply guard_inr in Hg. destruct l as [|j l]; [done|]. split.
  - cbn in H. apply andThen_inr in H as (b & _ & H). apply andThen_inr in H as (bs & _ & H). by injection H as <-.
  - eapply traverse_from_ok; [|exact H]. intros i a b. unfold load_source. destruct a; try done. apply load_source_ok.
Qed.

Lemma load_settings_ok (o : entries) (c : GlobalConfig) :
  load_settings o = inr c -> valid_settings c /\ datasources c <> [] /\ Forall valid_source (datasources c).
Proof.
  intros H. unfold load_settings in H. do 16 (apply andThen_inr in H as (? & ? & H)). apply andThen_inr in H as (ds & Hds & H). injection H as <-.
  apply load_datasources_ok in Hds. split; [|done]. ranges. unfold valid_settings. cbn.
  split_and!; [unfold nat31; lia|..].
  - eapply (section_ok (fun p => bad_pool p = false -> valid_pool p)); [eassumption| |apply load_pool_ints|done]. vm_compute. intuition discriminate.
  - eapply section_ok; [eassumption| |apply load_retry_ok]. vm_compute. intuition discriminate.
  - eapply section_ok; [eassumption| |apply load_breaker_ok]. vm_compute. intuition discriminate.
  - eapply section_ok; [eassumption|apply default_observability_ok|apply load_observability_ok].
  - eapply section_ok; [eassumption| |apply load_rate_limit_ok]. split_and!; try (by vm_compute). eexists. split; [|reflexivity]. set_solver.
  - eapply section_ok; [eassumption| |apply load_audit_ok]. split_and!; try constructor. eexists. split; [|reflexivity]. set_solver.
  - eapply section_ok; [eassumption| |apply load_query_cache_ok]. vm_compute. intuition discriminate.
  - eapply section_ok; [eassumption| |apply load_cursor_ok]. vm_compute. intuition discriminate.
  - eapply (section_ok (fun p => nat31 (pc_max_per_connection p))); [eassumption| |apply load_prepared_ok]. vm_compute. intuition discriminate.
  - eapply section_ok; [eassumption| |apply load_async_ok]. vm_compute. intuition discriminate.
Qed.

Lemma load_json_ok (j : json) (w : list str) (c : GlobalConfig) : load_json j = (w, inr c) -> valid_config c.
Proof.
  unfold load_json. destruct j; try done. destruct (load_settings l) as [e|c0] eqn:Es; [done|].
  destruct (load_groups l) as [w' r] eqn:Eg. intros [= <- H]. apply andThen_inr in H as (gs & -> & H). injection H as <-.
  destruct (load_settings_ok l c0 Es) as (Hv & Hne & Hs). unfold valid_config, finish. cbn. split_and!; try done.
  - by eapply load_groups_ok.
  - destruct (empty (default_datasource c0)) eqn:F; [|by apply empty_false in F].
    destruct (datasources c0) as [|d ds]; [done|]. inversion Hs as [|? ? Hd]; subst. apply Hd.
Qed.

(** C38. Whatever file is given, a configuration the loader accepts satisfies every
    documented bound: pools with 0 <= min <= max, increasing histogram buckets,
    sources with a name, a type and a port, passwords taken from the environment
    where that was asked for, Oracle sources without contradictory settings, failover
    and write buffers acknowledged, a default source. *)
Theorem loaded_config_valid `{JsonParser} (path : str) (file : option str) (w : list str) (c : GlobalConfig) :
  loadFromFile path file = (w, inr c) -> valid_config c.
Proof.
  unfold loadFromFile. destruct file as [content|]; [|done]. destruct (read_document _ _) as [e|j]; [done|].
  destruct (load_json j) as [w' r] eqn:El. intros [= <- E]. destruct r as [e|c']; [done|]. injection E as ->. by eapply load_json_ok.
Qed.

End loader.

(** ** Concrete files *)

Definition sample_env (n : str) : option str := if n =s $"DB_PASSWORD" then Some ($"s3cret") else None.
Definition no_floats : spec_float -> Z := fun _ => 0.

Definition sample_load (ls : list string) : list str * (str + GlobalConfig) :=
  @loadFromFile no_floats no_floats no_floats sample_env small_json ($"conf/app.YAML") (Some (lines_text ls)).

Definition sample_file : list string :=
  ["pool:"; "  max: 4"; "datasources:"; "  - name: main"; "    type: mysql"; "    port: 3306"; "    password_env: DB_PASSWORD";
   "  - name: copy"; "    type: mysql"; "    extra:"; "      charset: utf8"; "groups:"; "  - name: all"; "    primary: main"; "    replicas: [copy]"]%string.

Definition sample_main : DataSourceConfig :=
  mkDataSource ($"main") ($"mysql") [] 3306 [] ($"s3cret") ($"DB_PASSWORD") [] [] 5000 0 0 0 false true [] [] [] default_oracle [].
Definition sample_copy : DataSourceConfig :=
  mkDataSource ($"copy") ($"mysql") [] 0 [] [] [] [] [] 5000 0 0 0 false true [] [] [] default_oracle [($"charset", $"utf8")].
Definition sample_group : DataSourceGroupConfig :=
  mkGroup ($"all") ($"main") [mkReplica ($"copy") 1] 0 true false default_failover [].
Definition sample_config : GlobalConfig :=
  mkGlobal ($"main") 5000 (mkPool true 1 4 30000 600000 1800000 30000 30000) default_retry default_breaker default_observability
    default_rate_limit default_sql_audit default_query_cache default_cursor default_prepared default_async false
    [sample_main; sample_copy] [sample_group].

Lemma sample_loads : sample_load sample_file = (group_warning sample_group, inr sample_config).
Proof. vm_compute. reflexivity. Qed.

(** The document of that file. *)
Definition sample_json : json := match @parseYaml small_json (lines_text sample_file) with Parsed j => j | _ => JNull end.

Lemma sample_json_loads :
  load_json no_floats no_floats no_floats sample_env sample_json = (group_warning sample_group, inr sample_config).
Proof. vm_compute. reflexivity. Qed.

Lemma no_floats_i32 (d : spec_float) : i32 (no_floats d).
Proof. vm_compute. intuition discriminate. Qed.
Lemma no_floats_i64 (d : spec_float) : int64_range (no_floats d).
Proof. vm_compute. intuition discriminate. Qed.
Lemma no_floats_u64 (d : spec_float) : uint64_range (no_floats d).
Proof. vm_compute. intuition discriminate. Qed.

Lemma sample_valid : valid_config sample_env sample_config.
Proof. exact (load_json_ok _ _ _ _ no_floats_i32 no_floats_i64 no_floats_u64 _ _ _ sample_json_loads). Qed.

Lemma loaded_config_valid_witness : valid_config sample_env sample_config /\ p_max (pool sample_config) = 4.
Proof.
  split; [|reflexivity].
  apply (loaded_config_valid no_floats no_floats no_floats sample_env no_floats_i32 no_floats_i64 no_floats_u64
    ($"conf/app.YAML") (Some (lines_text sample_file)) _ _ sample_loads).
Defined.

(** The library cuts a number to the width of an [int] before the bounds are tested,
    and reads a boolean as one: a pool of 2^32 + 2 connections is a pool of two, a
    port of 2^32 is port 0, and [port: true] is port 1. *)
Example numbers_are_cut :
  (exists c, (sample_load ["pool:"; "  max: 4294967298"; "datasources:"; "  - name: main"; "    type: mysql"; "    port: 4294967296"]%string).2 = inr c /\
     p_max (pool c) = 2 /\ map port (datasources c) = [0]) /\
  (exists c, (sample_load ["datasources:"; "  - name: main"; "    type: mysql"; "    port: true"]%string).2 = inr c /\ map port (datasources c) = [1]).
Proof. vm_compute. eauto 20. Qed.

(** Errors name the place; an exception of the library is reported too. *)
Example load_errors :
  (sample_load ["pools:"; "  max: 4"]%string).2 =
    inl ($"config error [unknown_field] at /pools: field is not defined by sqlconduit.schema.json") /\
  (sample_load ["pool:"; "  max: many"]%string).2 =
    inl ($"config validation error: [json.exception.type_error.302] type must be number, but is string") /\
  (sample_load ["datasources:"; "  - name: a"; "    type: mysql"; "    password_env: NOPE"]%string).2 =
    inl ($"datasource 'a' references missing password_env 'NOPE'") /\
  (sample_load ["datasources:"; "  - name: a"; "    type: mysql"; "    tls:"; "      verify_peer: true"]%string).2 =
    inl ($"datasource 'a' enables TLS peer verification but tls.ca is empty").
Proof. vm_compute. auto. Qed.

End Config.
