(* ===== verification/ConfigCheck.v ===== *)
(** * Configuration diagnostics

    src/config/config_diagnostics.cpp: [validateTopology], [explain] and
    [previewReload], with [describe] and [redact] of
    src/config/datasource_config.cpp.  [explain] is modelled up to the value it
    builds; [dump] writes it and [json::parse] reads it back, as the JSON library
    documents for texts in UTF-8.  The library's [diff] is a parameter. *)

From Stdlib Require Import SpecFloat.
From S2P Require Import Prelude Types SqlAuditor Resilience QueryCache Cursor Manager Script Gate OracleTypes Observer Yaml Config.

Module Diagnostics.
Import Yaml Gate Config.

#[local] Open Scope Z_scope.

(** ** [explain] *)

(** An object from its members, in key order. *)
Definition fields (l : list (string * json)) : entries := fold_left (fun o e => obj_insert ($(e.1)) e.2 o) l [].

Definition texts (l : list str) : json := JArray (map JString l).
Definition numbers (l : list Z) : json := JArray (map JInt l).

Definition explain_pool (p : PoolConfig) : entries :=
  fields [("enabled", JBool (p_enabled p)); ("min", JInt (p_min p)); ("max", JInt (p_max p));
    ("borrow_timeout_ms", JInt (p_borrow_timeout_ms p)); ("idle_timeout_ms", JInt (p_idle_timeout_ms p));
    ("max_lifetime_ms", JInt (p_max_lifetime_ms p)); ("leak_detection_threshold_ms", JInt (p_leak_detection_threshold_ms p));
    ("validation_interval_ms", JInt (p_validation_interval_ms p))]%string.

Definition explain_retry (r : RetryConfig) : entries :=
  fields [("max_attempts", JInt (max_attempts r)); ("initial_backoff_ms", JInt (initial_backoff_ms r));
    ("max_backoff_ms", JInt (max_backoff_ms r)); ("retry_writes", JBool (retry_writes r))]%string.

Definition explain_breaker (b : CircuitBreakerConfig) : entries :=
  fields [("failure_threshold", JInt (failure_threshold b)); ("open_interval_ms", JInt (open_interval_ms b))]%string.

Definition explain_async (a : AsyncConfig) : entries :=
  fields [("enabled", JBool (as_enabled a)); ("threads", JInt (as_threads a)); ("queue_size", JInt (as_queue_size a));
    ("statement_timeout_ms", JInt (as_statement_timeout_ms a))]%string.

Definition explain_cursor (c : Cursor.CursorConfig) : entries :=
  fields [("enabled", JBool (Cursor.enabled c)); ("default_batch_size", JInt (Cursor.default_batch_size c));
    ("max_open_cursors", JInt (Cursor.max_open_cursors c)); ("allow_scrollable", JBool (Cursor.allow_scrollable c))]%string.

Definition explain_prepared (p : PreparedCacheConfig) : entries :=
  fields [("enabled", JBool (pc_enabled p)); ("max_per_connection", JInt (pc_max_per_connection p))]%string.

Definition explain_flag (b : bool) : entries := fields [("enabled", JBool b)]%string.

Definition explain_rate_limit (r : RateLimitConfig) : entries :=
  fields [("enabled", JBool (rl_enabled r)); ("global_qps", JInt (rl_global_qps r));
    ("per_fingerprint_qps", JInt (rl_per_fingerprint_qps r)); ("burst", JInt (rl_burst r));
    ("fingerprint_mode", JString (rl_fingerprint_mode r))]%string.

Definition explain_audit (a : SqlAuditConfig) : entries :=
  fields [("enabled", JBool (ac_enabled a)); ("action", JString (ac_action a));
    ("block_no_where_dml", JBool (ac_block_no_where_dml a)); ("require_limit_select", JBool (ac_require_limit_select a));
    ("enforce_read_only", JBool (ac_enforce_read_only a)); ("log_blocked", JBool (ac_log_blocked a));
    ("blacklist_fingerprints", numbers (ac_blacklist a)); ("whitelist_fingerprints", numbers (ac_whitelist a))]%string.

Definition explain_query_cache (q : QueryCacheConfig) : entries :=
  fields [("enabled", JBool (cc_enabled q)); ("ttl_ms", JInt (cc_ttl_ms q)); ("max_entries", JInt (cc_max_entries q));
    ("max_memory_bytes", JInt (cc_max_memory_bytes q)); ("cache_on_replica_only", JBool (cc_replica_only q))]%string.

Definition explain_sql_log (l : Observer.SqlLogConfig) : entries :=
  fields [("enabled", JBool (Observer.lg_enabled l)); ("mode", JString (Observer.lg_mode l));
    ("level", JString (Observer.lg_level l)); ("log_success", JBool (Observer.lg_success l));
    ("log_errors", JBool (Observer.lg_errors l)); ("slow_only", JBool (Observer.lg_slow_only l));
    ("sample_rate", JFloat (Observer.lg_sample_rate l)); ("max_sql_length", JInt (Observer.lg_max_sql_length l));
    ("max_param_length", JInt (Observer.lg_max_param_length l));
    ("include_string_values", JBool (Observer.lg_include_string_values l));
    ("include_blob_values", JBool (Observer.lg_include_blob_values l))]%string.

Definition explain_slow_sql (s : Observer.SlowSqlConfig) : entries :=
  fields [("enabled", JBool (Observer.sl_enabled s)); ("threshold_ms", JInt (Observer.sl_threshold_ms s));
    ("aggregate_capacity", JInt (Observer.sl_aggregate_capacity s)); ("recent_capacity", JInt (Observer.sl_recent_capacity s));
    ("retain_rendered_sql", JBool (Observer.sl_retain_rendered_sql s)); ("max_sql_length", JInt (Observer.sl_max_sql_length s));
    ("histogram_buckets_ms", numbers (Observer.sl_histogram_buckets_ms s))]%string.

Definition explain_report (r : StatsReportConfig) : entries :=
  fields [("enabled", JBool (sr_enabled r)); ("interval_ms", JInt (sr_interval_ms r)); ("file", JString (sr_file r));
    ("format", JString (sr_format r)); ("include_pool", JBool (sr_include_pool r));
    ("include_slow_sql", JBool (sr_include_slow_sql r)); ("slow_sql_limit", JInt (sr_slow_sql_limit r))]%string.

Definition explain_observability (o : ObservabilityConfig) : entries :=
  fields [("sql_log", JObject (explain_sql_log (o_sql_log o))); ("slow_sql", JObject (explain_slow_sql (o_slow_sql o)));
    ("pool_metrics", JObject (explain_flag (o_pool_metrics o))); ("stats_report", JObject (explain_report (o_stats_report o)))]%string.

Definition redacted : json := JString ($"[redacted]").
Definition redacted_unless_empty (s : str) : json := if empty s then JString [] else redacted.

Definition explain_tls (d : DataSourceConfig) : entries :=
  fields [("enabled", JBool (tls_enabled d)); ("verify_peer", JBool (tls_verify_peer d)); ("ca", JString (tls_ca d));
    ("cert", JString (tls_cert d)); ("key", redacted)]%string.

Definition explain_oracle (o : OracleConfig) : entries :=
  fields [("service_name", JString (service_name o)); ("sid", JString (sid o));
    ("wallet_location", redacted_unless_empty (wallet_location o)); ("server_cert_dn", JString (server_cert_dn o));
    ("charset_id", JInt (charset_id o)); ("lob_max_bytes", JInt (lob_max_bytes o)); ("blob_bind", JString (blob_bind o))]%string.

Definition explain_source (d : DataSourceConfig) : entries :=
  fields [("name", JString (name d)); ("type", JString (type d)); ("host", JString (host d)); ("port", JInt (port d));
    ("user", JString (user d)); ("database", JString (database d)); ("password", redacted);
    ("password_env", JString (password_env d)); ("dsn", redacted_unless_empty (dsn d));
    ("connection_timeout_ms", JInt (connection_timeout_ms d)); ("socket_timeout_ms", JInt (socket_timeout_ms d));
    ("query_timeout_ms", JInt (query_timeout_ms d)); ("max_result_rows", JInt (max_result_rows d));
    ("extra", JObject (map (fun e => (e.1, redacted)) (extra d))); ("tls", JObject (explain_tls d));
    ("oracle", JObject (explain_oracle (oracle d)))]%string.

Definition explain_replica (r : ReplicaConfig) : json :=
  JObject (fields [("name", JString (r_name r)); ("weight", JInt (r_weight r))]%string).

Definition explain_write_buffer (w : WriteBufferConfig) : entries :=
  fields [("enabled", JBool (w_enabled w)); ("acknowledge_data_loss_and_duplicates", JBool (w_acknowledged w));
    ("max_queue", JInt (w_max_queue w)); ("ttl_ms", JInt (w_ttl_ms w)); ("flush_interval_ms", JInt (w_flush_interval_ms w))]%string.

Definition explain_failover (f : FailoverConfig) : entries :=
  fields [("primaries", texts (f_primaries f)); ("acknowledge_external_fencing", JBool (f_acknowledged f));
    ("require_healthy", JBool (f_require_healthy f)); ("write_buffer", JObject (explain_write_buffer (f_write_buffer f)))]%string.

Definition explain_group (g : DataSourceGroupConfig) : entries :=
  fields [("name", JString (g_name g)); ("primary", JString (g_primary g));
    ("replicas", JArray (map explain_replica (g_replicas g))); ("read_after_write_ms", JInt (g_read_after_write_ms g));
    ("fallback_to_primary", JBool (g_fallback_to_primary g)); ("read_only", JBool (g_read_only g));
    ("shadow", JString (g_shadow g)); ("failover", JObject (explain_failover (g_failover g)))]%string.

(** The document with the given data sources and groups. *)
Definition explain_with (c : GlobalConfig) (ds gs : json) : entries :=
  fields [("pool", JObject (explain_pool (pool c))); ("retry", JObject (explain_retry (retry c)));
    ("circuit_breaker", JObject (explain_breaker (circuit_breaker c))); ("async", JObject (explain_async (async c)));
    ("cursor", JObject (explain_cursor (cursor c))); ("prepared_cache", JObject (explain_prepared (prepared_cache c)));
    ("interceptors", JObject (explain_flag (interceptors c))); ("rate_limit", JObject (explain_rate_limit (rate_limit c)));
    ("sql_audit", JObject (explain_audit (sql_audit c))); ("query_cache", JObject (explain_query_cache (query_cache c)));
    ("observability", JObject (explain_observability (observability c)));
    ("default_datasource", JString (default_datasource c)); ("heartbeat_interval_ms", JInt (heartbeat_interval_ms c));
    ("datasources", ds); ("groups", gs)]%string.

Definition explain (c : GlobalConfig) : json :=
  JObject (explain_with c (JArray (map (fun d => JObject (explain_source d)) (datasources c)))
             (JArray (map (fun g => JObject (explain_group g)) (groups c)))).

(** ** [previewReload] *)

(** [o[k] = v] for a key that is there or not. *)
Definition obj_set (k : str) (v : json) (o : entries) : entries := obj_insert k v (filter (fun e => e.1 <> k) o).

(** [o[k][k'] = v]. *)
Definition obj_set2 (k k' : str) (v : json) (o : entries) : entries :=
  match lookup_key k o with Some (JObject s) => obj_set k (JObject (obj_set k' v s)) o | _ => o end.

(** The entry of a source with its secrets, for comparison only. *)
Definition comparable_source (d : DataSourceConfig) : entries :=
  let o := obj_set ($"password") (JString (password d)) (explain_source d) in
  let o := obj_set ($"dsn") (JString (dsn d)) o in
  let o := obj_set2 ($"tls") ($"key") (JString (tls_key d)) o in
  let o := obj_set2 ($"oracle") ($"wallet_location") (JString (wallet_location (oracle d))) o in
  obj_set ($"extra") (JObject (map (fun e => (e.1, JString e.2)) (extra d))) o.

Definition by_name {A} (nm : A -> str) (f : A -> entries) (l : list A) : entries :=
  fold_left (fun o a => obj_set (nm a) (JObject (f a)) o) l [].

Definition comparable (c : GlobalConfig) : json :=
  JObject (explain_with c (JObject (by_name name comparable_source (datasources c)))
             (JObject (by_name g_name explain_group (groups c)))).

(** ** What [explain] writes, the loader reads *)

(** The document with the secrets put back, and nothing else changed. *)
Definition with_secrets (c : GlobalConfig) : json :=
  JObject (explain_with c (JArray (map (fun d => JObject (comparable_source d)) (datasources c)))
             (JArray (map (fun g => JObject (explain_group g)) (groups c)))).

(** The entry of a source as it stands in a file: with its secrets, and with an
    Oracle block only for an Oracle source. *)
Definition restored_source (d : DataSourceConfig) : entries :=
  if type d =s ORACLE then comparable_source d else filter (fun e => e.1 <> ORACLE) (comparable_source d).

Definition restored (c : GlobalConfig) : json :=
  JObject (explain_with c (JArray (map (fun d => JObject (restored_source d)) (datasources c)))
             (JArray (map (fun g => JObject (explain_group g)) (groups c)))).

Section reload.
Variables (to_int to_int64 to_uint64 : spec_float -> Z) (env : str -> option str).

Lemma wrap_id (z : Z) : i32 z -> wrap 32 z = z.
Proof. unfold i32, wrap. change (32 - 1) with 31. intros H. rewrite Z.mod_small; lia. Qed.

Lemma nat31_wrap (z : Z) : nat31 z -> wrap 32 z = z.
Proof. unfold nat31. intros H. apply wrap_id. unfold i32. lia. Qed.

Lemma pos31_wrap (z : Z) : pos31 z -> wrap 32 z = z.
Proof. unfold pos31. intros H. apply wrap_id. unfold i32. lia. Qed.

Lemma guard_false (b : bool) (msg : str) : b = false -> guard b msg = inr tt.
Proof. by intros ->. Qed.

Lemma among_not (s : str) (l : list string) : among s l -> negb (one_of s l) = false.
Proof. intros H. apply negb_false_iff. by apply one_of_among. Qed.

(** Look every member of a concrete object up. *)
Ltac look :=
  repeat match goal with |- context [lookup_key ?k ?o] => let v := eval vm_compute in (lookup_key k o) in change (lookup_key k o) with v end.
Ltac known_fields :=
  repeat match goal with |- context [rejectUnknownFields ?o ?l ?p] =>
    let v := eval vm_compute in (rejectUnknownFields o l []) in change (rejectUnknownFields o l p) with v end.
Ltac no_test := repeat (apply orb_false_iff; split); first [apply Z.ltb_ge; lia|by apply among_not|done].
Ltac members := known_fields; unfold value, section; look; cbn [get_bool get_int get_string get_double andThen]; rewrite ?wrap_id by (unfold i32; lia).
(** The record as its members, here and in what is known of it. *)
Ltac open_record r H := destruct r; cbn -[of_int SFltb Z.pow among increasing nat31 pos31] in H; unfold nat31, pos31 in H.
Ltac passes := rewrite guard_false by no_test; cbn [andThen].

Lemma pool_reloads (p : PoolConfig) : valid_pool p -> load_pool to_int (explain_pool p) = inr p.
Proof. unfold valid_pool. intros H. open_record p H. unfold load_pool. members. done. Qed.

Lemma pool_passes (p : PoolConfig) : valid_pool p -> bad_pool p = false.
Proof. unfold valid_pool, nat31, pos31. intros H. unfold bad_pool. no_test. Qed.

Lemma retry_reloads (r : RetryConfig) : valid_retry r -> load_retry to_int (explain_retry r) = inr r.
Proof. unfold valid_retry. intros H. open_record r H. unfold load_retry. members. passes. done. Qed.

Lemma breaker_reloads (b : CircuitBreakerConfig) : valid_breaker b -> load_breaker to_int (explain_breaker b) = inr b.
Proof. unfold valid_breaker. intros H. open_record b H. unfold load_breaker. members. passes. done. Qed.

Lemma async_reloads (a : AsyncConfig) : valid_async a -> load_async to_int (explain_async a) = inr a.
Proof. unfold valid_async. intros H. open_record a H. unfold load_async. members. passes. done. Qed.

Lemma cursor_reloads (c : Cursor.CursorConfig) : valid_cursor c -> load_cursor to_int (explain_cursor c) = inr c.
Proof. unfold valid_cursor. intros H. open_record c H. unfold load_cursor. members. passes. done. Qed.

Lemma prepared_reloads (p : PreparedCacheConfig) :
  nat31 (pc_max_per_connection p) -> load_prepared to_int (explain_prepared p) = inr p.
Proof. intros H. open_record p H. unfold load_prepared. members. passes. done. Qed.

Lemma rate_limit_reloads (r : RateLimitConfig) : valid_rate_limit r -> load_rate_limit to_int (explain_rate_limit r) = inr r.
Proof. unfold valid_rate_limit. intros H. open_record r H. destruct H as (H1 & H2 & H3 & H4). unfold load_rate_limit. members. passes. passes. done. Qed.

Lemma query_cache_reloads (q : QueryCacheConfig) : valid_query_cache q -> load_query_cache to_int (explain_query_cache q) = inr q.
Proof. unfold valid_query_cache. intros H. open_record q H. unfold load_query_cache. members. passes. done. Qed.

Lemma traverse_map {A B} (f : B -> M A) (g : A -> B) (l : list A) : Forall (fun a => f (g a) = inr a) l -> traverse f (map g l) = inr l.
Proof. induction 1 as [|a l Ha _ IH]; [done|]. cbn. by rewrite Ha, IH. Qed.

Lemma fingerprints_reload (l : list Z) : Forall uint64_range l -> get_list (get_uint64 to_uint64) (numbers l) = inr l.
Proof.
  intros H. apply traverse_map. eapply Forall_impl; [exact H|]. intros z Hz. cbn. f_equal. apply Z.mod_small, Hz.
Qed.

Lemma audit_reloads (a : SqlAuditConfig) : valid_audit a -> load_audit to_uint64 (explain_audit a) = inr a.
Proof.
  unfold valid_audit. intros H. open_record a H. destruct H as (H1 & H2 & H3). unfold load_audit, explain_audit.
  cbn [SqlAuditor.ac_blacklist SqlAuditor.ac_whitelist].
  remember (numbers ac_blacklist) as bl eqn:Eb. remember (numbers ac_whitelist) as wl eqn:Ew. members. subst bl wl.
  rewrite !fingerprints_reload by done. cbn [andThen]. passes. done.
Qed.

Lemma sql_log_reloads (l : Observer.SqlLogConfig) : valid_sql_log l -> load_sql_log to_int (explain_sql_log l) = inr l.
Proof.
  unfold valid_sql_log. intros H. open_record l H. destruct H as (H1 & H2 & H3 & H4 & H5 & H6 & H7). unfold load_sql_log. members. passes. done.
Qed.

Lemma increasing_i32 (p : Z) (l : list Z) : 0 <= p -> increasing p l -> Forall i32 l.
Proof. revert p. induction l as [|b l IH]; intros p Hp H; constructor; destruct H; [unfold i32; lia|]. apply (IH b); [lia|done]. Qed.

Lemma increasing_good (l : list Z) (p q : Z) : 0 <= p -> q <= p -> increasing p l -> bad_buckets q l = false.
Proof.
  revert p q. induction l as [|b l IH]; intros p q Hp Hq H; [done|]. destruct H as [Hb H]. cbn.
  rewrite (IH b b) by (done || lia). rewrite !orb_false_iff. split_and!; [apply Z.leb_gt; lia|apply Z.leb_gt; lia|done].
Qed.

Lemma slow_sql_reloads (s : Observer.SlowSqlConfig) : valid_slow_sql s -> load_slow_sql to_int (explain_slow_sql s) = inr s.
Proof.
  unfold valid_slow_sql. intros H. destruct s as [en th ag re rr ms bu]. cbn -[Z.pow increasing nat31 pos31] in H. unfold nat31, pos31 in H.
  destruct H as (H1 & H2 & H3 & H4 & H5 & H6 & H7). unfold load_slow_sql, explain_slow_sql. cbn [Observer.sl_histogram_buckets_ms].
  remember (numbers bu) as jb eqn:Eb. members. subst jb.
  assert (Hb : get_list (get_int to_int) (numbers bu) = inr bu).
  { apply traverse_map. eapply Forall_impl; [by apply (increasing_i32 0)|]. intros z Hz. cbn. by rewrite wrap_id. }
  rewrite Hb. cbn [andThen]. rewrite guard_false; [cbn [andThen]|].
  2: { rewrite !orb_false_iff, !Z.ltb_ge. split_and!; try lia. by destruct bu. }
  rewrite guard_false by (apply (increasing_good _ 0); done || lia). done.
Qed.

Lemma report_reloads (r : StatsReportConfig) : valid_report r -> load_report to_int (explain_report r) = inr r.
Proof. unfold valid_report. intros H. open_record r H. destruct H as (H1 & H2 & H3 & H4). unfold load_report. members. passes. passes. passes. done. Qed.

Lemma observability_reloads (o : ObservabilityConfig) :
  valid_observability o -> load_observability to_int (explain_observability o) = inr o.
Proof.
  intros (H1 & H2 & H3). unfold load_observability, explain_observability.
  pose proof (sql_log_reloads _ H1) as E1. pose proof (slow_sql_reloads _ H2) as E2. pose proof (report_reloads _ H3) as E3.
  destruct o as [lg sl pm sr]. cbn [o_sql_log o_slow_sql o_pool_metrics o_stats_report] in *.
  remember (explain_sql_log lg) as jl. remember (explain_slow_sql sl) as js. remember (explain_report sr) as jr.
  members. rewrite E1, E2, E3. done.
Qed.

(** *** Data sources *)

Definition tls_fields (d : DataSourceConfig) : entries :=
  fields [("enabled", JBool (tls_enabled d)); ("verify_peer", JBool (tls_verify_peer d)); ("ca", JString (tls_ca d));
    ("cert", JString (tls_cert d)); ("key", JString (tls_key d))]%string.

Definition oracle_fields (o : OracleConfig) : entries :=
  fields [("service_name", JString (service_name o)); ("sid", JString (sid o));
    ("wallet_location", JString (wallet_location o)); ("server_cert_dn", JString (server_cert_dn o));
    ("charset_id", JInt (charset_id o)); ("lob_max_bytes", JInt (lob_max_bytes o)); ("blob_bind", JString (blob_bind o))]%string.

Definition extra_fields (l : list (str * str)) : entries := map (fun e => (e.1, JString e.2)) l.

Definition source_fields (d : DataSourceConfig) (tl oc ex : entries) : entries :=
  fields [("name", JString (name d)); ("type", JString (type d)); ("host", JString (host d)); ("port", JInt (port d));
    ("user", JString (user d)); ("database", JString (database d)); ("password", JString (password d));
    ("password_env", JString (password_env d)); ("dsn", JString (dsn d));
    ("connection_timeout_ms", JInt (connection_timeout_ms d)); ("socket_timeout_ms", JInt (socket_timeout_ms d));
    ("query_timeout_ms", JInt (query_timeout_ms d)); ("max_result_rows", JInt (max_result_rows d));
    ("extra", JObject ex); ("tls", JObject tl); ("oracle", JObject oc)]%string.

(** The secrets are put back where they belong. *)
Lemma comparable_fields (d : DataSourceConfig) :
  comparable_source d = source_fields d (tls_fields d) (oracle_fields (oracle d)) (extra_fields (extra d)).
Proof.
  destruct d as [nm ty ho po us pw pe db ds ct st qt mr te tv tca tce tk [se si wa dn ch lo bi] ex].
  unfold comparable_source, extra_fields. cbn [extra]. generalize (map (fun e : str * str => (e.1, JString e.2)) ex). intros jx.
  unfold explain_source. cbn [extra]. generalize (map (fun e : str * str => (e.1, redacted)) ex). intros jr.
  vm_compute. reflexivity.
Qed.

Lemma tls_reloads (path : str) (d : DataSourceConfig) :
  load_tls path (tls_fields d) = inr (mkTls (tls_enabled d) (tls_verify_peer d) (tls_ca d) (tls_cert d) (tls_key d)).
Proof. unfold load_tls. members. done. Qed.

Lemma extra_reloads (l : list (str * str)) : load_extra (extra_fields l) = inr l.
Proof. unfold load_extra, extra_fields. apply traverse_map. apply Forall_true. by intros [k v]. Qed.

Lemma secret_reloads (n pe pw : str) : (pe <> [] -> env (c_str pe) = Some pw) -> secret env n pe pw = inr pw.
Proof. intros H. unfold secret. destruct (empty pe) eqn:E; [done|]. apply empty_false in E. by rewrite H. Qed.

Lemma oracle_block_reloads (path n : str) (o : OracleConfig) (ex : list (str * str)) :
  1 <= charset_id o <= 65535 -> 1 <= lob_max_bytes o <= int64_max ->
  (let! b := load_oracle_block to_int to_int64 path (oracle_fields o) in merge_oracle n b ex) = inr o.
Proof.
  intros H1 H2. destruct o as [se si wa dn ch lo bi]. cbn [charset_id lob_max_bytes] in *. unfold load_oracle_block, member. known_fields. look.
  cbn [get_string get_int get_int64 andThen merge_oracle or_legacy_int or_legacy b_service b_sid b_wallet b_dn b_charset b_lob b_bind].
  rewrite wrap_id by (unfold i32; lia). assert (Hl : wrap 64 lo = lo).
  { unfold wrap, int64_max in *. change (64 - 1) with 63. rewrite Z.mod_small; lia. }
  by rewrite Hl.
Qed.

Lemma rules_reload (n : str) (d : DataSourceConfig) :
  valid_oracle d ->
  oracle_rules n (database d) (dsn d) (extra d) (mkTls (tls_enabled d) (tls_verify_peer d) (tls_ca d) (tls_cert d) (tls_key d)) (oracle d) = inr (oracle d).
Proof.
  intros (H1 & H2 & H3 & H4 & H5 & H6 & H7 & H8 & H9 & H10). unfold oracle_rules. cbn [t_enabled t_verify_peer t_ca t_cert t_key].
  assert (Hraw : (match assoc ($"connection_string") (extra d) with Some _ => true | None => false end) = true <->
                 is_Some (assoc ($"connection_string") (extra d))).
  { destruct (assoc _ _); [by split; [eauto|]|]. split; [done|by intros []]. }
  remember (match assoc _ _ with Some _ => true | None => false end) as raw eqn:Er. clear Er.
  rewrite <- Hraw, <- !empty_false in H6. rewrite <- Hraw, not_true_iff_false, <- !empty_true in H7.
  rewrite <- !empty_true in H4, H5, H8. rewrite <- !empty_false in H9. rewrite <- empty_false in H10.
  assert (Hw : (if negb (empty (tls_ca d)) && empty (wallet_location (oracle d)) then tls_ca d else wallet_location (oracle d)) = wallet_location (oracle d)).
  { destruct (empty (tls_ca d)); [done|]. by rewrite H9. }
  rewrite Hw. rewrite guard_false; [cbn [andThen]|].
  2: { rewrite !orb_false_iff, !Z.ltb_ge. split_and!; try lia. by apply among_not. }
  rewrite guard_false; [cbn [andThen]|by destruct H4 as [->| ->]; rewrite ?andb_false_r].
  rewrite guard_false; [cbn [andThen]|by destruct H5 as [->| ->]; rewrite ?andb_false_r].
  rewrite guard_false; [cbn [andThen]|by destruct H6 as [->|[->|[->|[->| ->]]]]; rewrite ?andb_false_r].
  rewrite guard_false; [cbn [andThen]|].
  2: { destruct (tls_enabled d); [|by rewrite andb_false_r]. destruct (H7 eq_refl) as (-> & -> & _). done. }
  rewrite guard_false; [cbn [andThen]|].
  2: { destruct (tls_enabled d); [done|]. destruct (H8 eq_refl) as (-> & ->). done. }
  rewrite guard_false; [cbn [andThen]|].
  2: { destruct (empty (server_cert_dn (oracle d))); [done|]. by rewrite H10. }
  rewrite guard_false; [cbn [andThen]|].
  2: { destruct (tls_enabled d); [|done]. destruct (H7 eq_refl) as (_ & _ & -> & ->). done. }
  by destruct (oracle d).
Qed.

Lemma find_other (k : str) (l : list (str * json)) :
  k <> ORACLE -> List.find (fun e => e.1 =s k) (filter (fun e => e.1 <> ORACLE) l) = List.find (fun e => e.1 =s k) l.
Proof.
  intros Hne. induction l as [|[k' v] l IH]; [done|]. rewrite filter_cons. cbn [fst].
  destruct (decide (k' <> ORACLE)) as [Hd|Hd]; cbn [List.find fst]; destruct (k' =s k) eqn:F; try done.
  apply str_eqb_true in F. destruct Hd. by subst.
Qed.

Lemma source_oracle_reloads (path n : str) (d : DataSourceConfig) (o : entries) (t : Tls) :
  valid_source env d -> lookup_key ORACLE o = (if type d =s ORACLE then Some (JObject (oracle_fields (oracle d))) else None) ->
  t = mkTls (tls_enabled d) (tls_verify_peer d) (tls_ca d) (tls_cert d) (tls_key d) ->
  load_source_oracle to_int to_int64 path n (type d) (database d) (dsn d) (extra d) t o = inr (oracle d).
Proof.
  intros (_ & _ & _ & _ & _ & _ & _ & _ & Ho & Hn) Hl ->. unfold load_source_oracle, has, section. rewrite Hl.
  destruct (type d =s ORACLE) eqn:E.
  - apply str_eqb_true in E. specialize (Ho E). rewrite guard_false by done. cbn [andThen].
    pose proof (oracle_block_reloads path n (oracle d) (extra d)) as Hb. pose proof (rules_reload n d Ho) as Hr.
    destruct Ho as (H1 & H2 & _). specialize (Hb H1 H2). destruct (load_oracle_block _ _ _ _) as [e|b]; [done|]. cbn [andThen] in *.
    rewrite Hb. exact Hr.
  - destruct Hn as [Hd Hv]; [by intros H%str_eqb_true; rewrite H in E|]. rewrite guard_false by done. cbn [andThen]. rewrite guard_false; [by rewrite Hd|].
    cbn [t_verify_peer t_enabled t_ca]. destruct (tls_enabled d), (tls_verify_peer d); try done. apply empty_false. by apply Hv.
Qed.

Lemma source_reloads (path : str) (d : DataSourceConfig) :
  valid_source env d -> load_source_object to_int to_int64 env path (restored_source d) = inr d.
Proof.
  intros Hv. pose proof Hv as (H1 & H2 & H3 & H4 & H5 & H6 & H7 & H8 & _). unfold nat31 in *.
  assert (Ho : forall t, t = mkTls (tls_enabled d) (tls_verify_peer d) (tls_ca d) (tls_cert d) (tls_key d) ->
    load_source_oracle to_int to_int64 path (name d) (type d) (database d) (dsn d) (extra d) t (restored_source d) = inr (oracle d)).
  { intros t Ht. apply source_oracle_reloads; [done| |done]. unfold restored_source. rewrite comparable_fields.
    generalize (tls_fields d) (oracle_fields (oracle d)) (extra_fields (extra d)). intros tl oc ex. by destruct (type d =s ORACLE). }
  specialize (Ho _ eq_refl). unfold load_source_object.
  assert (Hk : rejectUnknownFields (restored_source d) (keys ["name"; "type"; "host"; "port"; "user"; "password"; "password_env"; "database";
    "dsn"; "connection_timeout_ms"; "socket_timeout_ms"; "query_timeout_ms"; "max_result_rows"; "tls"; "oracle"; "extra"]%string) path = inr tt).
  { unfold restored_source. rewrite comparable_fields. generalize (tls_fields d) (oracle_fields (oracle d)) (extra_fields (extra d)).
    intros. by destruct (type d =s ORACLE). }
  rewrite Hk. cbn [andThen].
  assert (Hl : forall k, k <> ORACLE -> lookup_key k (restored_source d) =
    lookup_key k (source_fields d (tls_fields d) (oracle_fields (oracle d)) (extra_fields (extra d)))).
  { intros k Hne. unfold restored_source. rewrite comparable_fields. destruct (_ =s _); [done|]. unfold lookup_key. f_equal. by apply find_other. }
  unfold value, section. rewrite !Hl by done.
  pose proof (tls_reloads path d) as Ht. pose proof (extra_reloads (extra d)) as Hx. pose proof (secret_reloads (name d) _ _ H8) as Hs.
  generalize dependent (restored_source d). intros o Ho _ _.
  remember (tls_fields d) as tl. remember (extra_fields (extra d)) as ex. generalize (oracle_fields (oracle d)). intros oj.
  destruct d as [nm ty ho po us pw pe db ds ct st qt mr te tv tca tce tk oc xs].
  cbn [name type host port user password password_env database dsn connection_timeout_ms socket_timeout_ms query_timeout_ms
    max_result_rows tls_enabled tls_verify_peer tls_ca tls_cert tls_key oracle extra] in *.
  look. cbn [get_string get_int andThen]. rewrite !wrap_id by (unfold i32; lia). passes. passes. rewrite Hs. cbn [andThen].
  rewrite Ht. cbn [andThen]. rewrite Hx. cbn [andThen]. rewrite guard_false by (by apply empty_false). cbn [andThen].
  rewrite guard_false by (by apply empty_false). cbn [andThen]. rewrite Ho. done.
Qed.

(** *** Groups *)

Lemma traverse_from_map {A B} (f : nat -> B -> M A) (g : A -> B) (l : list A) (i : nat) :
  (forall i a, a ∈ l -> f i (g a) = inr a) -> traverse_from f i (map g l) = inr l.
Proof.
  revert i. induction l as [|a l IH]; intros i H; [done|]. cbn [map traverse_from]. rewrite H by set_solver. cbn [andThen].
  rewrite IH; [done|]. intros j b Hb. apply H. set_solver.
Qed.

Lemma replica_reloads (path n : str) (i : nat) (r : ReplicaConfig) :
  valid_replica r -> load_replica to_int path n i (explain_replica r) = inr r.
Proof.
  intros [H1 H2]. destruct r as [rn w]. cbn [r_name r_weight] in *. unfold load_replica, explain_replica. cbn [r_name r_weight]. members.
  rewrite guard_false; [done|]. cbn [r_name r_weight]. rewrite !orb_false_iff, !Z.ltb_ge, empty_false. split_and!; done || lia.
Qed.

Lemma write_buffer_reloads (path n : str) (w : WriteBufferConfig) :
  valid_write_buffer w -> load_write_buffer to_int path n (explain_write_buffer w) = inr w.
Proof. unfold valid_write_buffer. intros H. open_record w H. unfold load_write_buffer. members. passes. done. Qed.

Lemma failover_reloads (path n : str) (f : FailoverConfig) :
  valid_failover f -> load_failover to_int path n (explain_failover f) = inr f.
Proof.
  intros (H1 & H2 & H3 & H4). pose proof (write_buffer_reloads path n _ H4) as Hw. destruct f as [ps ak rh wb].
  cbn [f_primaries f_acknowledged f_write_buffer] in *. unfold load_failover, explain_failover. cbn [f_write_buffer f_primaries].
  assert (Hp : traverse (load_primary n) (map JString ps) = inr ps).
  { apply traverse_map. eapply Forall_impl; [exact H1|]. intros [|c s] Hs; done. }
  unfold texts. remember (map JString ps) as jp. remember (explain_write_buffer wb) as jw. unfold load_primaries. members.
  rewrite Hp. cbn [andThen]. rewrite Hw. cbn [andThen]. rewrite guard_false; [cbn [andThen]|].
  2: { destruct ps; [done|]. by rewrite H2. }
  rewrite guard_false; [done|]. destruct (w_enabled wb); [|done]. by rewrite H3.
Qed.

Lemma group_reloads (i : nat) (g : DataSourceGroupConfig) :
  valid_group g -> load_group to_int i (JObject (explain_group g)) = (group_warning g, inr g).
Proof.
  unfold valid_group, nat31. intros (H1 & H2 & H3 & H4 & H5). destruct g as [n p rs raw fb ro f sh].
  cbn [g_name g_primary g_read_after_write_ms g_replicas g_failover] in *. unfold load_group, explain_group.
  pose proof (failover_reloads (group_path i) n f H5) as Hf.
  assert (Hr : traverse_from (load_replica to_int (group_path i) n) 0 (map explain_replica rs) = inr rs).
  { apply traverse_from_map. intros j r Hin. apply replica_reloads. rewrite Forall_forall in H4. by apply H4. }
  cbn [g_failover g_replicas]. remember (map explain_replica rs) as jr. remember (explain_failover f) as jf.
  unfold load_group_head, load_replicas. members. cbn [g_name g_primary].
  rewrite guard_false; [cbn [andThen]|by rewrite !orb_false_iff, Z.ltb_ge, !empty_false; split_and!; done || lia].
  rewrite Hr. cbn [andThen]. unfold load_group_tail. cbn [g_name]. unfold section, load_shadow. look. cbn [andThen]. rewrite Hf. done.
Qed.

Lemma groups_reload (gs : list DataSourceGroupConfig) (i : nat) :
  Forall valid_group gs ->
  load_group_list to_int i (map (fun g => JObject (explain_group g)) gs) = (concat (map group_warning gs), inr gs).
Proof.
  intros H. revert i. induction H as [|g gs Hg _ IH]; intros i; [done|]. cbn [map load_group_list concat].
  rewrite (group_reloads i g Hg). by rewrite IH.
Qed.

(** *** The document *)

Lemma settings_reload (c : GlobalConfig) (gs : json) :
  valid_config env c ->
  load_settings to_int to_int64 to_uint64 env (explain_with c (JArray (map (fun d => JObject (restored_source d)) (datasources c))) gs) =
  inr (mkGlobal (default_datasource c) (heartbeat_interval_ms c) (pool c) (retry c) (circuit_breaker c) (observability c) (rate_limit c)
    (sql_audit c) (query_cache c) (cursor c) (prepared_cache c) (async c) (interceptors c) (datasources c) []).
Proof.
  intros ((V1 & V2 & V3 & V4 & V5 & V6 & V7 & V8 & V9 & V10 & V11) & Hne & Hs & _ & _). unfold nat31 in V1.
  pose proof (pool_reloads _ V2) as L2. pose proof (pool_passes _ V2) as L2'. pose proof (retry_reloads _ V3) as L3. pose proof (breaker_reloads _ V4) as L4.
  pose proof (observability_reloads _ V5) as L5. pose proof (rate_limit_reloads _ V6) as L6. pose proof (audit_reloads _ V7) as L7.
  pose proof (query_cache_reloads _ V8) as L8. pose proof (cursor_reloads _ V9) as L9. pose proof (prepared_reloads _ V10) as L10.
  pose proof (async_reloads _ V11) as L11.
  assert (Ld : traverse_from (load_source to_int to_int64 env) 0 (map (fun d => JObject (restored_source d)) (datasources c)) = inr (datasources c)).
  { apply (traverse_from_map (load_source to_int to_int64 env)). intros i d Hin. apply source_reloads. rewrite Forall_forall in Hs. by apply Hs. }
  destruct c as [dd hb po re cb ob rl au qc cu pc sy ic ds g0].
  cbn [default_datasource heartbeat_interval_ms pool retry circuit_breaker observability rate_limit sql_audit query_cache cursor prepared_cache async interceptors datasources] in *.
  unfold load_settings, explain_with.
  cbn [default_datasource heartbeat_interval_ms pool retry circuit_breaker observability rate_limit sql_audit query_cache cursor prepared_cache async interceptors datasources].
  assert (Hj : map (fun d => JObject (restored_source d)) ds <> []) by (by destruct ds).
  assert (Lf : load_interceptors (explain_flag ic) = inr ic) by done.
  remember (explain_pool po) as j1. remember (explain_retry re) as j2. remember (explain_breaker cb) as j3. remember (explain_observability ob) as j4.
  remember (explain_rate_limit rl) as j5. remember (explain_audit au) as j6. remember (explain_query_cache qc) as j7. remember (explain_cursor cu) as j8.
  remember (explain_prepared pc) as j9. remember (explain_async sy) as j10. remember (explain_flag ic) as j11.
  remember (map (fun d => JObject (restored_source d)) ds) as j12. unfold load_datasources. members. passes.
  rewrite L2. cbn [andThen]. rewrite L2'. cbn [guard andThen]. rewrite L3. cbn [andThen]. rewrite L4. cbn [andThen]. rewrite L5. cbn [andThen].
  rewrite L6. cbn [andThen]. rewrite L7. cbn [andThen]. rewrite L8. cbn [andThen]. rewrite L9. cbn [andThen]. rewrite L10. cbn [andThen].
  rewrite Lf. cbn [andThen]. rewrite L11. cbn [andThen]. rewrite guard_false by (by destruct j12). cbn [andThen]. rewrite Ld. done.
Qed.

Lemma valid_reloads (c : GlobalConfig) :
  valid_config env c -> load_json to_int to_int64 to_uint64 env (restored c) = (concat (map group_warning (groups c)), inr c).
Proof.
  intros H. unfold load_json, restored. rewrite settings_reload by done. destruct H as (_ & _ & _ & Hg & Hd).
  pose proof (groups_reload (groups c) 0 Hg) as Lg. unfold load_groups, explain_with.
  remember (map (fun g => JObject (explain_group g)) (groups c)) as jg.
  generalize (JArray (map (fun d => JObject (restored_source d)) (datasources c))). intros jd.
  generalize (JObject (explain_pool (pool c))) (JObject (explain_retry (retry c))) (JObject (explain_breaker (circuit_breaker c)))
    (JObject (explain_async (async c))) (JObject (explain_cursor (cursor c))) (JObject (explain_prepared (prepared_cache c)))
    (JObject (explain_flag (interceptors c))) (JObject (explain_rate_limit (rate_limit c))) (JObject (explain_audit (sql_audit c)))
    (JObject (explain_query_cache (query_cache c))) (JObject (explain_observability (observability c))).
  intros. look. cbn [andThen]. rewrite Lg. cbn [andThen]. unfold finish. cbn [default_datasource]. apply empty_false in Hd. rewrite Hd. by destruct c.
Qed.

(** The warnings of a load are those of its groups. *)
Lemma group_list_warnings (l : list json) (i : nat) (w : list str) (gs : list DataSourceGroupConfig) :
  load_group_list to_int i l = (w, inr gs) -> w = concat (map group_warning gs).
Proof.
  revert i w gs. induction l as [|j l IH]; intros i w gs H; cbn in H; [by injection H as <- <-|].
  destruct (load_group to_int i j) as [w1 [e|g]] eqn:Eg; [done|]. destruct (load_group_list to_int (S i) l) as [ws r] eqn:El. injection H as <- H.
  apply andThen_inr in H as (gs' & -> & H). injection H as <-. cbn. f_equal; [|by eapply IH].
  unfold load_group in Eg. destruct j; try done. destruct (load_group_head _ _ _) as [e|h]; [done|]. injection Eg as <- H.
  unfold load_group_tail in H. apply andThen_inr in H as (f & _ & H). apply andThen_inr in H as (sh & _ & H). by injection H as <-.
Qed.

Hypothesis to_int_range : forall d, i32 (to_int d).
Hypothesis to_int64_range : forall d, int64_range (to_int64 d).
Hypothesis to_uint64_range : forall d, uint64_range (to_uint64 d).

Lemma restored_oracle (c : GlobalConfig) : Forall (fun d => type d = ORACLE) (datasources c) -> with_secrets c = restored c.
Proof.
  intros H. unfold with_secrets, restored. do 3 f_equal. apply map_ext_in. intros d Hd. rewrite Forall_forall in H.
  unfold restored_source. by rewrite (H d (proj2 (list_elem_of_In _ _) Hd)), (proj2 (str_eqb_true _ _) eq_refl).
Qed.

(** C28. Loading is stable: whatever was loaded, the document [explain] writes for it,
    with the secrets put back and without the Oracle block that [explain] writes for
    sources of other types too, is accepted and loads to the same configuration with
    the same warnings; so both sides know every member, under one name each.  When all
    sources are Oracle sources, putting the secrets back is enough; otherwise the loader
    refuses the block ([explain_oracle_block_refused]). *)
Theorem explain_reloads (j : json) (w : list str) (c : GlobalConfig) :
  load_json to_int to_int64 to_uint64 env j = (w, inr c) ->
  load_json to_int to_int64 to_uint64 env (restored c) = (w, inr c) /\
  (Forall (fun d => type d = ORACLE) (datasources c) -> load_json to_int to_int64 to_uint64 env (with_secrets c) = (w, inr c)).
Proof.
  intros H. enough (Hr : load_json to_int to_int64 to_uint64 env (restored c) = (w, inr c)) by (split; [done|]; intros Ho; by rewrite (restored_oracle c Ho)).
  rewrite valid_reloads by (by eapply load_json_ok). f_equal. symmetry.
  unfold load_json in H. destruct j; try done. destruct (load_settings _ _ _ _ l) as [e|c0]; [done|].
  destruct (load_groups to_int l) as [w' r] eqn:Eg. injection H as <- H. apply andThen_inr in H as (gs & -> & H). injection H as <-.
  cbn [groups finish]. unfold load_groups in Eg. destruct (lookup_key _ l) as [[]|]; try done; [|by injection Eg as <- <-].
  by eapply group_list_warnings.
Qed.

End reload.

(** ** What [explain] does not show *)

(** A source without its secrets: what is left is whether a text was set, and the
    names of the extra options. *)
Definition hidden (s : str) : str := if empty s then [] else $"*".

Definition hide_oracle (o : OracleConfig) : OracleConfig :=
  mkOracle (service_name o) (sid o) (hidden (wallet_location o)) (server_cert_dn o) (charset_id o) (lob_max_bytes o) (blob_bind o).

Definition hide (d : DataSourceConfig) : DataSourceConfig :=
  mkDataSource (name d) (type d) (host d) (port d) (user d) [] (password_env d) (database d) (hidden (dsn d))
    (connection_timeout_ms d) (socket_timeout_ms d) (query_timeout_ms d) (max_result_rows d) (tls_enabled d) (tls_verify_peer d)
    (tls_ca d) (tls_cert d) [] (hide_oracle (oracle d)) (map (fun e => (e.1, [])) (extra d)).

Definition with_sources (ds : list DataSourceConfig) (gs : list DataSourceGroupConfig) (c : GlobalConfig) : GlobalConfig :=
  mkGlobal (default_datasource c) (heartbeat_interval_ms c) (pool c) (retry c) (circuit_breaker c) (observability c) (rate_limit c)
    (sql_audit c) (query_cache c) (cursor c) (prepared_cache c) (async c) (interceptors c) ds gs.

Definition hide_config (c : GlobalConfig) : GlobalConfig := with_sources (map hide (datasources c)) (groups c) c.

(** Members of concrete objects, compared one by one. *)
Ltac members_equal H := vm_compute in H; injection H; intros; subst; reflexivity.

Lemma pool_inj (p q : PoolConfig) : explain_pool p = explain_pool q -> p = q.
Proof. destruct p, q. intros H. members_equal H. Qed.
Lemma retry_inj (p q : RetryConfig) : explain_retry p = explain_retry q -> p = q.
Proof. destruct p, q. intros H. members_equal H. Qed.
Lemma breaker_inj (p q : CircuitBreakerConfig) : explain_breaker p = explain_breaker q -> p = q.
Proof. destruct p, q. intros H. members_equal H. Qed.
Lemma async_inj (p q : AsyncConfig) : explain_async p = explain_async q -> p = q.
Proof. destruct p, q. intros H. members_equal H. Qed.
Lemma cursor_inj (p q : Cursor.CursorConfig) : explain_cursor p = explain_cursor q -> p = q.
Proof. destruct p, q. intros H. members_equal H. Qed.
Lemma prepared_inj (p q : PreparedCacheConfig) : explain_prepared p = explain_prepared q -> p = q.
Proof. destruct p, q. intros H. members_equal H. Qed.
Lemma rate_limit_inj (p q : RateLimitConfig) : explain_rate_limit p = explain_rate_limit q -> p = q.
Proof. destruct p, q. intros H. members_equal H. Qed.
Lemma query_cache_inj (p q : QueryCacheConfig) : explain_query_cache p = explain_query_cache q -> p = q.
Proof. destruct p, q. intros H. members_equal H. Qed.
Lemma sql_log_inj (p q : Observer.SqlLogConfig) : explain_sql_log p = explain_sql_log q -> p = q.
Proof. destruct p, q. intros H. members_equal H. Qed.
Lemma report_inj (p q : StatsReportConfig) : explain_report p = explain_report q -> p = q.
Proof. destruct p, q. intros H. members_equal H. Qed.
Lemma write_buffer_inj (p q : WriteBufferConfig) : explain_write_buffer p = explain_write_buffer q -> p = q.
Proof. destruct p, q. intros H. members_equal H. Qed.

Lemma numbers_inj (l m : list Z) : numbers l = numbers m -> l = m.
Proof. unfold numbers. intros [= H]. revert m H. induction l as [|a l IH]; intros [|b m] [=]; [done|]. subst. f_equal. by apply IH. Qed.
Lemma texts_inj (l m : list str) : texts l = texts m -> l = m.
Proof. unfold texts. intros [= H]. revert m H. induction l as [|a l IH]; intros [|b m] [=]; [done|]. subst. f_equal. by apply IH. Qed.

Lemma map_inj {A B} (f : A -> B) (l m : list A) : (forall a b, f a = f b -> a = b) -> map f l = map f m -> l = m.
Proof. intros Hf. revert m. induction l as [|a l IH]; intros [|b m] [=]; [done|]. f_equal; [by apply Hf|by apply IH]. Qed.

Lemma map_same {A B C} (f : A -> B) (g : A -> C) (l m : list A) :
  (forall a b, f a = f b <-> g a = g b) -> map f l = map f m <-> map g l = map g m.
Proof.
  intros Hf. revert m. induction l as [|a l IH]; intros [|b m]; [done..|]. cbn [map].
  split; intros [= H1 H2]; f_equal; by (apply Hf || apply IH).
Qed.

Lemma audit_inj (p q : SqlAuditConfig) : explain_audit p = explain_audit q -> p = q.
Proof.
  destruct p as [en ac nw li ro lb bl wl], q as [en' ac' nw' li' ro' lb' bl' wl']. unfold explain_audit. cbn [ac_blacklist ac_whitelist].
  pose proof (numbers_inj bl bl') as H1. pose proof (numbers_inj wl wl') as H2.
  generalize dependent (numbers bl). generalize dependent (numbers bl'). generalize dependent (numbers wl). generalize dependent (numbers wl').
  intros j1 j2 H2 j3 j4 H1 H. vm_compute in H. injection H. intros; subst. by rewrite H1, H2.
Qed.

Lemma slow_sql_inj (p q : Observer.SlowSqlConfig) : explain_slow_sql p = explain_slow_sql q -> p = q.
Proof.
  destruct p as [en th ag re rr ms bu], q as [en' th' ag' re' rr' ms' bu']. unfold explain_slow_sql. cbn [Observer.sl_histogram_buckets_ms].
  pose proof (numbers_inj bu bu') as H1. generalize dependent (numbers bu). generalize dependent (numbers bu').
  intros j1 j2 H1 H. vm_compute in H. injection H. intros; subst. by rewrite H1.
Qed.

Lemma observability_inj (p q : ObservabilityConfig) : explain_observability p = explain_observability q -> p = q.
Proof.
  destruct p as [lg sl pm sr], q as [lg' sl' pm' sr']. unfold explain_observability. cbn [o_sql_log o_slow_sql o_pool_metrics o_stats_report].
  pose proof (sql_log_inj lg lg') as H1. pose proof (slow_sql_inj sl sl') as H2. pose proof (report_inj sr sr') as H3.
  generalize dependent (explain_sql_log lg). generalize dependent (explain_sql_log lg'). generalize dependent (explain_slow_sql sl).
  generalize dependent (explain_slow_sql sl'). generalize dependent (explain_report sr). generalize dependent (explain_report sr').
  intros j1 j2 H3 j3 j4 H2 j5 j6 H1 H. vm_compute in H. injection H. intros; subst. by rewrite H1, H2, H3.
Qed.

Lemma replica_inj (p q : ReplicaConfig) : explain_replica p = explain_replica q -> p = q.
Proof. destruct p, q. intros H. members_equal H. Qed.

Lemma failover_inj (p q : FailoverConfig) : explain_failover p = explain_failover q -> p = q.
Proof.
  destruct p as [ps ak rh wb], q as [ps' ak' rh' wb']. unfold explain_failover. cbn [f_primaries f_write_buffer].
  pose proof (texts_inj ps ps') as H1. pose proof (write_buffer_inj wb wb') as H2.
  generalize dependent (texts ps). generalize dependent (texts ps'). generalize dependent (explain_write_buffer wb). generalize dependent (explain_write_buffer wb').
  intros j1 j2 H2 j3 j4 H1 H. vm_compute in H. injection H. intros; subst. by rewrite H1, H2.
Qed.

Lemma group_inj (p q : DataSourceGroupConfig) : explain_group p = explain_group q -> p = q.
Proof.
  destruct p as [n p rs raw fb ro f sh], q as [n' p' rs' raw' fb' ro' f' sh']. unfold explain_group. cbn [g_replicas g_failover].
  pose proof (map_inj explain_replica rs rs' replica_inj) as H1. pose proof (failover_inj f f') as H2.
  generalize dependent (map explain_replica rs). generalize dependent (map explain_replica rs'). generalize dependent (explain_failover f). generalize dependent (explain_failover f').
  intros j1 j2 H2 j3 j4 H1 H. vm_compute in H. injection H. intros; subst. by rewrite H1, H2.
Qed.

Lemma extra_inj (l m : list (str * str)) : extra_fields l = extra_fields m -> l = m.
Proof. apply map_inj. intros [] [] [=]. by subst. Qed.

Lemma hidden_text (s t : str) : redacted_unless_empty s = redacted_unless_empty t <-> hidden s = hidden t.
Proof. unfold redacted_unless_empty, hidden. destruct (empty s), (empty t); done. Qed.

Lemma hidden_extra (l m : list (str * str)) :
  map (fun e => (e.1, redacted)) l = map (fun e => (e.1, redacted)) m <-> map (fun e => (e.1, [] : str)) l = map (fun e => (e.1, [])) m.
Proof. apply map_same. intros [k v] [k' v']. cbn. split; congruence. Qed.

Lemma source_hides (d e : DataSourceConfig) : explain_source d = explain_source e <-> hide d = hide e.
Proof.
  destruct d as [nm ty ho po us pw pe db ds ct st qt mr te tv tca tce tk [se si wa dn ch lo bi] ex],
    e as [nm' ty' ho' po' us' pw' pe' db' ds' ct' st' qt' mr' te' tv' tca' tce' tk' [se' si' wa' dn' ch' lo' bi'] ex'].
  unfold explain_source, hide, explain_oracle, hide_oracle. cbn [extra oracle dsn wallet_location].
  pose proof (hidden_text ds ds') as H1. pose proof (hidden_text wa wa') as H2. pose proof (hidden_extra ex ex') as H3.
  generalize dependent (redacted_unless_empty ds). generalize dependent (redacted_unless_empty ds').
  generalize dependent (redacted_unless_empty wa). generalize dependent (redacted_unless_empty wa').
  generalize dependent (map (fun e : str * str => (e.1, redacted)) ex). generalize dependent (map (fun e : str * str => (e.1, redacted)) ex').
  generalize dependent (hidden ds). generalize dependent (hidden ds'). generalize dependent (hidden wa). generalize dependent (hidden wa').
  generalize dependent (map (fun e : str * str => (e.1, [] : str)) ex). generalize dependent (map (fun e : str * str => (e.1, [] : str)) ex').
  intros. split; intros H; vm_compute in H; injection H; intros; subst.
  - rewrite (proj1 H1), (proj1 H2), (proj1 H3); done.
  - rewrite (proj2 H1), (proj2 H2), (proj2 H3); done.
Qed.

Lemma explain_with_inj (c c' : GlobalConfig) (ds ds' gs gs' : json) :
  explain_with c ds gs = explain_with c' ds' gs' -> with_sources [] [] c = with_sources [] [] c' /\ ds = ds' /\ gs = gs'.
Proof.
  destruct c as [dd hb po re cb ob rl au qc cu pc sy ic d0 g0], c' as [dd' hb' po' re' cb' ob' rl' au' qc' cu' pc' sy' ic' d0' g0'].
  unfold explain_with, with_sources, explain_flag.
  cbn [default_datasource heartbeat_interval_ms pool retry circuit_breaker observability rate_limit sql_audit query_cache cursor prepared_cache async interceptors].
  pose proof (pool_inj po po') as H1. pose proof (retry_inj re re') as H2. pose proof (breaker_inj cb cb') as H3. pose proof (observability_inj ob ob') as H4.
  pose proof (rate_limit_inj rl rl') as H5. pose proof (audit_inj au au') as H6. pose proof (query_cache_inj qc qc') as H7. pose proof (cursor_inj cu cu') as H8.
  pose proof (prepared_inj pc pc') as H9. pose proof (async_inj sy sy') as H10.
  generalize dependent (explain_pool po). generalize dependent (explain_pool po'). generalize dependent (explain_retry re). generalize dependent (explain_retry re').
  generalize dependent (explain_breaker cb). generalize dependent (explain_breaker cb'). generalize dependent (explain_observability ob). generalize dependent (explain_observability ob').
  generalize dependent (explain_rate_limit rl). generalize dependent (explain_rate_limit rl'). generalize dependent (explain_audit au). generalize dependent (explain_audit au').
  generalize dependent (explain_query_cache qc). generalize dependent (explain_query_cache qc'). generalize dependent (explain_cursor cu). generalize dependent (explain_cursor cu').
  generalize dependent (explain_prepared pc). generalize dependent (explain_prepared pc'). generalize dependent (explain_async sy). generalize dependent (explain_async sy').
  intros. match goal with E : fields _ = fields _ |- _ => rename E into H end. vm_compute in H. injection H. intros; subst.
  split; [|done]. by rewrite H1, H2, H3, H4, H5, H6, H7, H8, H9, H10.
Qed.

Lemma object_inj (a b : entries) : JObject a = JObject b -> a = b.
Proof. by intros [=]. Qed.
Lemma array_inj (a b : list json) : JArray a = JArray b -> a = b.
Proof. by intros [=]. Qed.
Lemma cons_inj {A} (a b : A) (l m : list A) : a :: l = b :: m -> a = b /\ l = m.
Proof. by intros [=]. Qed.

Lemma sources_apart (c : GlobalConfig) : c = with_sources (datasources c) (groups c) (with_sources [] [] c).
Proof. by destruct c. Qed.

Lemma entries_hide (l m : list DataSourceConfig) :
  map (fun d => JObject (explain_source d)) l = map (fun d => JObject (explain_source d)) m <-> map hide l = map hide m.
Proof.
  apply map_same. intros a b. rewrite <- source_hides. split; [apply object_inj|]. generalize (explain_source a) (explain_source b). congruence.
Qed.

(** C29. Non-interference of [explain]: two configurations have the same explanation
    exactly when they agree up to their secrets.  The contents of passwords, connection
    strings, TLS keys and wallets and the values of extra options never show; everything
    else does, and so does whether a connection string and a wallet are set ([hide] keeps
    that much of them). *)
Theorem explain_hides_secrets (c c' : GlobalConfig) : explain c = explain c' <-> hide_config c = hide_config c'.
Proof.
  split.
  - unfold explain. intros H%object_inj. apply explain_with_inj in H as (Hs & Hd%array_inj & Hg%array_inj).
    unfold hide_config. rewrite (sources_apart c), (sources_apart c'), Hs. unfold with_sources. cbn. f_equal.
    + by apply entries_hide.
    + eapply map_inj; [|exact Hg]. intros a b E%object_inj. by apply group_inj.
  - intros H. pose proof (f_equal (with_sources [] []) H : with_sources [] [] c = with_sources [] [] c') as Hs.
    pose proof (f_equal datasources H : map hide (datasources c) = map hide (datasources c')) as Hd.
    pose proof (f_equal groups H : groups c = groups c') as Hg.
    unfold explain. rewrite Hg.
    apply entries_hide in Hd.
    rewrite Hd. f_equal. rewrite (sources_apart c), (sources_apart c'), Hs. done.
Qed.

(** ** What [previewReload] compares *)

Lemma leb_refl (s : str) : Script.str_leb s s = true.
Proof. induction s as [|c s IH]; cbn; [done|]. by rewrite N.ltb_irrefl. Qed.

Lemma leb_antisym (a b : str) : Script.str_leb a b = true -> Script.str_leb b a = true -> a = b.
Proof.
  revert b. induction a as [|x a IH]; intros [|y b]; cbn; try done.
  destruct (code x <? code y)%N eqn:E1, (code y <? code x)%N eqn:E2; try done; [apply N.ltb_lt in E1, E2; lia|].
  intros H1 H2. rewrite N.ltb_ge in E1, E2. f_equal; [|by apply IH].
  assert (E : code x = code y) by lia. unfold code in E. apply (f_equal ascii_of_N) in E. by rewrite !ascii_N_embedding in E.
Qed.

Lemma leb_total (a b : str) : Script.str_leb a b = false -> Script.str_leb b a = true.
Proof.
  revert b. induction a as [|x a IH]; intros [|y b]; cbn; try done.
  destruct (code x <? code y)%N eqn:E1, (code y <? code x)%N eqn:E2; try done. apply IH.
Qed.

Lemma leb_trans (a b c : str) : Script.str_leb a b = true -> Script.str_leb b c = true -> Script.str_leb a c = true.
Proof.
  revert b c. induction a as [|x a IH]; intros [|y b] [|z c]; cbn; try done.
  destruct (N.ltb_spec (code x) (code y)), (N.ltb_spec (code y) (code x)), (N.ltb_spec (code y) (code z)), (N.ltb_spec (code z) (code y)),
    (N.ltb_spec (code x) (code z)), (N.ltb_spec (code z) (code x)); try done; try lia. apply IH.
Qed.

Lemma insert_commutes (k k' : str) (v v' : json) (o : entries) :
  k <> k' -> obj_insert k v (obj_insert k' v' o) = obj_insert k' v' (obj_insert k v o).
Proof.
  intros Hne.
  assert (Hk : Script.str_leb k k' = negb (Script.str_leb k' k)).
  { destruct (Script.str_leb k k') eqn:E1, (Script.str_leb k' k) eqn:E2; try done; [by destruct Hne; apply leb_antisym|].
    apply leb_total in E1. by rewrite E1 in E2. }
  induction o as [|[x w] o IH]; cbn; [rewrite Hk; by destruct (Script.str_leb k' k)|].
  destruct (Script.str_leb k' x) eqn:E1, (Script.str_leb k x) eqn:E2; cbn; rewrite ?E1, ?E2.
  - rewrite Hk. by destruct (Script.str_leb k' k).
  - destruct (Script.str_leb k k') eqn:F; [|done]. by rewrite (leb_trans k k' x) in E2.
  - destruct (Script.str_leb k' k) eqn:F; [|done]. by rewrite (leb_trans k' k x) in E1.
  - f_equal. apply IH.
Qed.

Lemma insert_elem (k : str) (v : json) (o : entries) (e : str * json) : e ∈ obj_insert k v o <-> e = (k, v) \/ e ∈ o.
Proof. induction o as [|[x w] o IH]; cbn; [set_solver|]. destruct (Script.str_leb k x); set_solver. Qed.

Lemma filter_other (k : str) (o : list (str * json)) : (forall e, e ∈ o -> e.1 <> k) -> filter (fun e => e.1 <> k) o = o.
Proof.
  induction o as [|e o IH]; intros H; [done|]. rewrite filter_cons_True by (apply H; set_solver). f_equal. apply IH. set_solver.
Qed.

Section by_name.
Context {A : Type} (nm : A -> str) (f : A -> entries).

Definition insert_all (l : list A) (o : entries) : entries := fold_left (fun o a => obj_insert (nm a) (JObject (f a)) o) l o.

Lemma insert_all_elem (l : list A) (o : entries) (e : str * json) :
  e ∈ insert_all l o <-> (exists a, a ∈ l /\ e = (nm a, JObject (f a))) \/ e ∈ o.
Proof.
  revert o. induction l as [|a l IH]; intros o; cbn; [set_solver|]. unfold insert_all in IH. rewrite IH, insert_elem. set_solver.
Qed.

Lemma insert_all_perm (l m : list A) (o : entries) : NoDup (map nm l) -> l ≡ₚ m -> insert_all l o = insert_all m o.
Proof.
  intros Hnd Hp. revert o. induction Hp as [|a l m Hp IH|a b l|l m n Hp1 IH1 Hp2 IH2]; intros o; cbn in *.
  - done.
  - apply NoDup_cons in Hnd as [_ Hnd]. by apply IH.
  - f_equal. apply insert_commutes. apply NoDup_cons in Hnd as [Hn _]. set_solver.
  - rewrite IH1 by done. apply IH2. by rewrite <- Hp1.
Qed.

Lemma by_name_fresh (l : list A) : NoDup (map nm l) -> by_name nm f l = insert_all l [].
Proof.
  unfold by_name, insert_all. intros Hnd.
  assert (H : forall o, (forall a e, a ∈ l -> e ∈ o -> e.1 <> nm a) ->
    fold_left (fun o a => obj_set (nm a) (JObject (f a)) o) l o = fold_left (fun o a => obj_insert (nm a) (JObject (f a)) o) l o);
    [|apply H; set_solver].
  induction l as [|a l IH]; intros o Ho; cbn; [done|]. apply NoDup_cons in Hnd as [Hn Hnd].
  assert (Hf : obj_set (nm a) (JObject (f a)) o = obj_insert (nm a) (JObject (f a)) o).
  { unfold obj_set. f_equal. apply filter_other. intros e He. apply (Ho a e); [set_solver|done]. }
  rewrite Hf. apply IH; [done|]. intros b e Hb [->|He]%insert_elem; [cbn; intros E; apply Hn; rewrite E; by apply list_elem_of_fmap_2|].
  apply (Ho b e); [set_solver|done].
Qed.

(** An object by name holds its elements, whatever their order was. *)
Lemma by_name_same (l m : list A) :
  (forall a b, f a = f b -> a = b) -> NoDup (map nm l) -> NoDup (map nm m) -> by_name nm f l = by_name nm f m <-> l ≡ₚ m.
Proof.
  intros Hf Hl Hm. rewrite !by_name_fresh by done. split; [|intros Hp; by apply insert_all_perm].
  intros H. apply NoDup_Permutation; [by eapply NoDup_fmap_1|by eapply NoDup_fmap_1|]. intros a.
  assert (He : forall l m a, insert_all l [] = insert_all m [] -> a ∈ l -> a ∈ m); [|split; by apply He].
  clear -Hf. intros l m a H Ha. assert (Hin : (nm a, JObject (f a)) ∈ insert_all m []).
  { rewrite <- H. apply insert_all_elem. left. eauto. }
  apply insert_all_elem in Hin as [(b & Hb & E)|Hin]; [|set_solver]. injection E as _ E. apply Hf in E. by subst.
Qed.

End by_name.

Lemma tls_inj (d e : DataSourceConfig) : tls_fields d = tls_fields e ->
  tls_enabled d = tls_enabled e /\ tls_verify_peer d = tls_verify_peer e /\ tls_ca d = tls_ca e /\ tls_cert d = tls_cert e /\ tls_key d = tls_key e.
Proof. destruct d, e. intros H. vm_compute in H. injection H. intros; subst. done. Qed.

Lemma oracle_fields_inj (p q : OracleConfig) : oracle_fields p = oracle_fields q -> p = q.
Proof. destruct p, q. intros H. members_equal H. Qed.

Lemma comparable_inj (d e : DataSourceConfig) : comparable_source d = comparable_source e -> d = e.
Proof.
  rewrite !comparable_fields. pose proof (tls_inj d e) as H1. pose proof (oracle_fields_inj (oracle d) (oracle e)) as H2.
  pose proof (extra_inj (extra d) (extra e)) as H3.
  destruct d as [nm ty ho po us pw pe db ds ct st qt mr te tv tca tce tk oc ex], e as [nm' ty' ho' po' us' pw' pe' db' ds' ct' st' qt' mr' te' tv' tca' tce' tk' oc' ex'].
  cbn [oracle extra tls_enabled tls_verify_peer tls_ca tls_cert tls_key] in *.
  match goal with |- source_fields ?a ?b _ _ = source_fields ?c ?d _ _ -> _ => generalize dependent b; generalize dependent d end.
  generalize dependent (oracle_fields oc). generalize dependent (oracle_fields oc'). generalize dependent (extra_fields ex). generalize dependent (extra_fields ex').
  intros x1 x2 H3 x3 x4 H2 x5 x6 H1 H. vm_compute in H. injection H. intros; subst. destruct H1 as (-> & -> & -> & -> & ->); [done|]. by rewrite H2, H3.
Qed.

(** What a reload preview compares is exact: for configurations with distinct
    names the compared documents are equal exactly when every setting, every source
    with its secrets and every group is the same, in any order. *)
Theorem comparable_exact (c c' : GlobalConfig) :
  NoDup (map name (datasources c)) -> NoDup (map name (datasources c')) ->
  NoDup (map g_name (groups c)) -> NoDup (map g_name (groups c')) ->
  comparable c = comparable c' <->
  with_sources [] [] c = with_sources [] [] c' /\ datasources c ≡ₚ datasources c' /\ groups c ≡ₚ groups c'.
Proof.
  intros Hd Hd' Hg Hg'.
  rewrite <- (by_name_same name comparable_source (datasources c) (datasources c') comparable_inj Hd Hd').
  rewrite <- (by_name_same g_name explain_group (groups c) (groups c') group_inj Hg Hg'). unfold comparable. split.
  - intros H%object_inj. by apply explain_with_inj in H as (Hs & H1%object_inj & H2%object_inj).
  - intros (Hs & -> & ->). f_equal. rewrite (sources_apart c), (sources_apart c'), Hs. done.
Qed.

(** ** [validateTopology] *)

Definition topology_error (path message : str) : str := $"config error [topology] at " ++ path ++ $": " ++ message.

Definition mem (n : str) (l : list str) : bool := existsb (str_eqb n) l.

(** The names in use after the sources. *)
Fixpoint check_sources (names : list str) (ds : list DataSourceConfig) : M (list str) :=
  match ds with
  | [] => inr names
  | d :: ds =>
      let! _ := guard (empty (name d) || empty (type d)) (topology_error ($"/datasources") ($"name and type must not be empty")) in
      let! _ := guard (mem (name d) names) (topology_error ($"/datasources") ($"duplicate datasource name: " ++ name d)) in
      check_sources (name d :: names) ds
  end.

Fixpoint check_group_names (names : list str) (gs : list DataSourceGroupConfig) : M (list str) :=
  match gs with
  | [] => inr names
  | g :: gs =>
      let! _ := guard (empty (g_name g) || mem (g_name g) names)
                  (topology_error ($"/groups") ($"empty or duplicate datasource/group name: " ++ g_name g)) in
      check_group_names (g_name g :: names) gs
  end.

Definition check_group (leaves : list str) (i : nat) (g : DataSourceGroupConfig) : M unit :=
  let path := group_path i in
  let leaf n := mem n leaves in
  let f := g_failover g in
  let! _ := guard (negb (leaf (g_primary g))) (topology_error (path ++ $"/primary") ($"must reference a plain datasource")) in
  let! _ := guard (existsb (fun r => negb (leaf (r_name r)) || (r_weight r <? 1)) (g_replicas g))
              (topology_error (path ++ $"/replicas") ($"requires a plain datasource and positive weight")) in
  let! _ := guard (existsb (fun p => negb (leaf p)) (f_primaries f))
              (topology_error (path ++ $"/failover/primaries") ($"must reference plain datasources")) in
  let! _ := guard (match f_primaries f with [] => false | _ => negb (f_acknowledged f) end)
              (topology_error (path ++ $"/failover") ($"external fencing acknowledgement is required")) in
  let! _ := guard (w_enabled (f_write_buffer f) && (negb (w_acknowledged (f_write_buffer f)) || g_read_only g))
              (topology_error (path ++ $"/failover/write_buffer")
                 ($"requires duplicate/data-loss acknowledgement and a writable group")) in
  if empty (g_shadow g) then inr tt
  else
    let! _ := guard (negb (leaf (g_shadow g)) || (g_shadow g =s g_primary g))
                (topology_error (path ++ $"/shadow") ($"must reference a separate plain datasource")) in
    guard (existsb (fun r => r_name r =s g_shadow g) (g_replicas g))
      (topology_error (path ++ $"/shadow") ($"must not reference a replica of this group")).

Definition validateTopology (c : GlobalConfig) : M unit :=
  let! _ := guard (match datasources c with [] => true | _ => false end)
              (topology_error ($"/datasources") ($"at least one datasource is required")) in
  let! names := check_sources [] (datasources c) in
  let! names := check_group_names names (groups c) in
  let! _ := traverse_from (check_group (map name (datasources c))) 0 (groups c) in
  guard (negb (mem (default_datasource c) names))
    (topology_error ($"/default_datasource") ($"must reference an existing datasource or group")).

(** ** [previewReload] *)

(** The library's [diff]: the operations of a patch with their paths. *)
Class JsonDiff : Type := { json_diff : json -> json -> list (str * str) }.

Record Preview : Type := mkPreview {
  changed : bool;
  changes : list (str * str);
  addedSources : list str;
  removedSources : list str;
  rebuiltPools : list str;
  retiredPools : list str
}.

(** The elements of a [std::set] of names, in order. *)
Definition name_set (l : list str) : list str := map fst (fold_left (fun o n => obj_set n JNull o) l []).

Definition all_names (c : GlobalConfig) : list str := map name (datasources c) ++ map g_name (groups c).

Definition previewReload `{JsonDiff} (current candidate : GlobalConfig) : M Preview :=
  let! _ := validateTopology current in
  let! _ := validateTopology candidate in
  let ops := json_diff (comparable current) (comparable candidate) in
  let old := name_set (all_names current) in
  let new := name_set (all_names candidate) in
  inr (mkPreview (match ops with [] => false | _ => true end) ops
         (filter (fun n => n ∉ old) new) (filter (fun n => n ∉ new) old)
         (map name (datasources candidate)) (map name (datasources current))).

(** ** [describe] and [redact] *)

Definition describe (d : DataSourceConfig) : str :=
  name d ++ $"[" ++ type d ++ $"]" ++
  (if empty (dsn d) then $" " ++ host d ++ $":" ++ to_string (port d) ++ $"/" ++ database d else $" dsn=" ++ dsn d) ++
  $" user=" ++ user d.

(** Every occurrence from the front, without looking into what was put in. *)
Fixpoint replace_loop (fuel : nat) (secret text : str) : str :=
  match fuel with
  | O => text
  | S fuel =>
      match find_sub secret text with
      | None => text
      | Some pos => take pos text ++ $"***" ++ replace_loop fuel secret (drop (pos + length secret) text)
      end
  end.

Definition replaceAll (secret text : str) : str :=
  if empty secret then text else replace_loop (length text) secret text.

Definition redact (d : DataSourceConfig) (text : str) : str :=
  let text := replaceAll (password d) text in
  match assoc ($"connection_string") (extra d) with
  | Some s => replaceAll s text
  | None => text
  end.

(** *** What is left after redaction *)

Definition occurs (p s : str) : Prop := exists a b, s = a ++ p ++ b.

Lemma find_sub_none (p s : str) : find_sub p s = None -> ~ occurs p s.
Proof.
  intros H (a & b & ->). revert H. induction a as [|c a IH]; cbn [app].
  - assert (Hs : starts_with p (p ++ b) = true) by (induction p as [|x p IHp]; cbn; [done|]; by rewrite chr_eqb_refl).
    destruct (p ++ b); cbn; by rewrite ?Hs.
  - cbn. destruct (starts_with p (c :: a ++ p ++ b)); [done|]. destruct (find_sub p (a ++ p ++ b)) eqn:E; [done|]. intros _. by apply IH.
Qed.

Lemma find_sub_first (p s : str) (n : nat) :
  find_sub p s = Some n -> exists a b, s = a ++ p ++ b /\ length a = n /\ (forall a' b', a ++ p = a' ++ p ++ b' -> b' = []).
Proof.
  revert n. induction s as [|c s IH]; intros n H.
  - cbn in H. destruct (starts_with p []) eqn:E; [|done]. injection H as <-. destruct p; [|done]. exists [], []. split; [done|]. split; [done|].
    intros [|x a'] b' E'; [by destruct b'|]. done.
  - cbn [find_sub] in H. destruct (starts_with p (c :: s)) eqn:E.
    + injection H as <-. assert (Hp : exists b, c :: s = p ++ b).
      { clear -E. revert E. generalize (c :: s). induction p as [|x p IHp]; intros [|y t]; cbn; try done; [eauto..|].
        intros [->%chr_eqb_true Ht]%andb_true_iff. destruct (IHp t Ht) as [b ->]. eauto. }
      destruct Hp as [b Hb]. exists [], b. split; [done|]. split; [done|]. intros a' b' E'. cbn in E'.
      apply (f_equal length) in E'. rewrite !length_app in E'. destruct b'; [done|cbn in E'; lia].
    + destruct (find_sub p s) as [m|] eqn:F; [|done]. injection H as <-. destruct (IH m eq_refl) as (a & b & -> & Hl & Ha).
      exists (c :: a), b. split; [done|]. split; [cbn; lia|]. intros [|x a'] b' E'.
      * exfalso. cbn in E'. assert (Hs : starts_with p (c :: a ++ p ++ b) = true); [|by rewrite Hs in E].
        change (c :: a ++ p ++ b) with ((c :: a) ++ p ++ b). rewrite app_assoc. change (c :: a ++ p) with ((c :: a) ++ p) in E'. rewrite E'.
        rewrite <- app_assoc. clear. induction p as [|x p IHp]; cbn; [done|]. by rewrite chr_eqb_refl.
      * cbn in E'. injection E' as _ E'. by apply (Ha a' b').
Qed.

Definition STAR : ascii := "*"%char.

(** A text without stars that occurs around stars occurs on one side of them. *)
Lemma occurs_around (p a b : str) : p <> [] -> STAR ∉ p -> occurs p (a ++ $"***" ++ b) -> occurs p a \/ occurs p b.
Proof.
  intros Hne Hs (x & y & E).
  assert (Hsplit : forall x p y a b : str, p <> [] -> STAR ∉ p -> a ++ STAR :: b = x ++ p ++ y -> occurs p a \/ occurs p b).
  { clear. intros x p y a. revert x. induction a as [|c a IH]; intros x b Hne Hs E.
    - destruct x as [|d x]; cbn in E.
      + destruct p as [|d p]; [done|]. apply cons_inj in E as [E _]. destruct Hs. rewrite E. set_solver.
      + apply cons_inj in E as [_ E]. right. exists x, y. done.
    - destruct x as [|d x]; cbn in E.
      + left. destruct (decide (length p <= length (c :: a))%nat) as [Hl|Hl].
        * exists [], (drop (length p) (c :: a)). cbn [app].
          pose proof (take_app_length p y) as Ht. rewrite <- E in Ht. change (c :: a ++ STAR :: b) with ((c :: a) ++ STAR :: b) in Ht.
          rewrite take_app_le in Ht by lia. rewrite <- (take_drop (length p) (c :: a)) at 1. by rewrite Ht.
        * exfalso. apply Hs. apply list_elem_of_lookup_2 with (i := length (c :: a)).
          rewrite <- (lookup_app_l p y) by (cbn [length] in *; lia). rewrite <- E. change (c :: a ++ STAR :: b) with ((c :: a) ++ STAR :: b). by apply list_lookup_middle.
      + apply cons_inj in E as [-> E]. destruct (IH x b Hne Hs E) as [(u & v & ->)|H]; [|by right]. left. exists (d :: u), v. done. }
  destruct (Hsplit x p y a ([STAR; STAR] ++ b) Hne Hs E) as [H|(u & v & H)]; [by left|].
  destruct (Hsplit u p v [] ([STAR] ++ b) Hne Hs H) as [(? & ? & H')|(u' & v' & H')]; [by destruct x0; destruct p|].
  destruct (Hsplit u' p v' [] b Hne Hs H') as [(? & ? & H'')|H'']; [by destruct x0; destruct p|by right].
Qed.

Lemma replace_split (fuel : nat) (secret text : str) (pos : nat) :
  find_sub secret text = Some pos ->
  exists a b, text = a ++ secret ++ b /\ (forall a' b', a ++ secret = a' ++ secret ++ b' -> b' = []) /\
    replace_loop (S fuel) secret text = a ++ $"***" ++ replace_loop fuel secret b.
Proof.
  intros H. destruct (find_sub_first _ _ _ H) as (a & b & -> & Hl & Ha). exists a, b. split; [done|]. split; [done|].
  cbn [replace_loop]. rewrite H, <- Hl. rewrite take_app_length. f_equal. f_equal. f_equal.
  rewrite app_assoc. rewrite <- length_app. apply drop_app_length.
Qed.

Lemma replace_removes (fuel : nat) (secret text : str) :
  secret <> [] -> STAR ∉ secret -> (length text <= fuel)%nat -> ~ occurs secret (replace_loop fuel secret text).
Proof.
  intros Hne Hs. revert text. induction fuel as [|fuel IH]; intros text Hl.
  { destruct text; [|cbn in Hl; lia]. intros (a & b & E). cbn in E. by destruct a; destruct secret. }
  destruct (find_sub secret text) as [pos|] eqn:F.
  2: { cbn [replace_loop]. rewrite F. by apply find_sub_none. }
  destruct (replace_split fuel _ _ _ F) as (a & b & -> & Ha & ->). intros [(u & v & ->)|H]%occurs_around; try done.
  - destruct secret as [|c s]; [done|]. specialize (Ha u (v ++ c :: s)). rewrite <- !app_assoc in Ha. specialize (Ha eq_refl). by destruct v.
  - revert H. apply IH. rewrite !length_app in Hl. destruct secret; [done|]. cbn in Hl. lia.
Qed.

Lemma replace_keeps (fuel : nat) (secret text q : str) :
  q <> [] -> STAR ∉ q -> ~ occurs q text -> ~ occurs q (replace_loop fuel secret text).
Proof.
  intros Hne Hs. revert text. induction fuel as [|fuel IH]; intros text Ho; [done|].
  destruct (find_sub secret text) as [pos|] eqn:F; [|cbn [replace_loop]; by rewrite F].
  destruct (replace_split fuel _ _ _ F) as (a & b & -> & _ & ->). intros [(u & v & ->)|H]%occurs_around; try done.
  - apply Ho. exists u, (v ++ secret ++ b). by rewrite <- !app_assoc.
  - revert H. apply IH. intros (u & v & ->). apply Ho. exists (a ++ secret ++ u), v. by rewrite <- !app_assoc.
Qed.

(** Redaction is complete: a password or connection string without an asterisk
    does not occur in a message after it went through [redact]. *)
Theorem redact_removes_secrets (d : DataSourceConfig) (text s : str) :
  s = password d \/ assoc ($"connection_string") (extra d) = Some s -> s <> [] -> STAR ∉ s -> ~ occurs s (redact d text).
Proof.
  intros Hd Hne Hs. unfold redact, replaceAll. apply empty_false in Hne as He.
  destruct Hd as [->|Hd].
  - rewrite He. pose proof (replace_removes (length text) (password d) text Hne Hs ltac:(lia)) as Hr.
    destruct (assoc _ _) as [t|]; [|done]. destruct (empty t); [done|]. by apply replace_keeps.
  - rewrite Hd, He. apply replace_removes; done.
Qed.

Definition sample_source : DataSourceConfig :=
  mkDataSource ($"db") ($"odbc") [] 0 ($"app") ($"s3cret") [] [] ($"Driver=x;Pwd=s3cret") 5000 0 0 0 false true [] [] [] default_oracle
    [($"connection_string", $"Pwd=top")].

Lemma redact_removes_secrets_witness :
  ~ occurs ($"s3cret") (redact sample_source ($"login s3cret failed: Pwd=top")) /\
  redact sample_source ($"login s3cret failed: Pwd=top") = $"login *** failed: ***".
Proof.
  split; [|reflexivity]. apply (redact_removes_secrets sample_source); [by left|done|].
  intros H. apply (bool_decide_unpack (STAR ∉ ($"s3cret" : str))); [vm_compute; exact I|done].
Defined.

(** With an asterisk the mark itself can complete the secret again. *)
Example redact_star : occurs ($"*a") (replaceAll ($"*a") ($"*aa")).
Proof. exists ($"**"), []. reflexivity. Qed.

(** The connection string in [dsn] is a secret to [explain], not to [describe]. *)
Example describe_shows_dsn :
  describe sample_source = $"db[odbc] dsn=Driver=x;Pwd=s3cret user=app" /\
  lookup_key ($"dsn") (explain_source sample_source) = Some redacted.
Proof. vm_compute. auto. Qed.

(** ** The sample configuration *)

(** What [explain] writes for a source that is not an Oracle source cannot be loaded:
    the loader refuses its Oracle block. *)
Theorem explain_oracle_block_refused :
  load_json no_floats no_floats no_floats sample_env sample_json = (group_warning sample_group, inr sample_config) /\
  exists w e, load_json no_floats no_floats no_floats sample_env (with_secrets sample_config) = (w, inl e) /\
    message e = $"datasource 'main' has an oracle block but type is not 'oracle'".
Proof. split; [vm_compute; reflexivity|]. do 2 eexists. split; [vm_compute; reflexivity|]. vm_compute. reflexivity. Qed.

Lemma explain_reloads_witness :
  load_json no_floats no_floats no_floats sample_env (restored sample_config) = (group_warning sample_group, inr sample_config) /\
  explain sample_config <> restored sample_config.
Proof.
  split; [|vm_compute; discriminate].
  refine (proj1 (explain_reloads no_floats no_floats no_floats sample_env no_floats_i32 no_floats_i64 no_floats_u64 sample_json _ _ _)). vm_compute. reflexivity.
Defined.

Definition reordered_config : GlobalConfig := with_sources (reverse (datasources sample_config)) (groups sample_config) sample_config.

Lemma comparable_exact_witness : comparable sample_config = comparable reordered_config.
Proof.
  apply comparable_exact.
  - by apply (bool_decide_unpack (NoDup _)).
  - by apply (bool_decide_unpack (NoDup _)).
  - by apply (bool_decide_unpack (NoDup _)).
  - by apply (bool_decide_unpack (NoDup _)).
  - split; [reflexivity|]. split; [symmetry; apply reverse_Permutation|reflexivity].
Defined.

(** A changed password shows in the comparison and not in the explanation. *)
Example password_change :
  let other := with_sources [mkDataSource (name sample_main) (type sample_main) [] 3306 [] ($"new") ($"DB_PASSWORD") [] [] 5000 0 0 0 false true
    [] [] [] default_oracle []; sample_copy] (groups sample_config) sample_config in
  explain other = explain sample_config /\ comparable other <> comparable sample_config.
Proof. split; [reflexivity|vm_compute; discriminate]. Qed.

End Diagnostics.
