(* ===== verification/Topology.v ===== *)
(** * The offline topology check and the registry

    [ConfigLoader::validateTopology] (ConfigCheck.v) promises without any driver what
    [DatabaseManager::init] (Manager.v) will do.  The theorem of this file relates the
    two: for a configuration that was loaded, with all drivers registered, the check
    accepts exactly the topologies the registry can be built from. *)

From S2P Require Import Prelude Types Cursor Manager Config ConfigCheck.

Module Topology.
Import Config Diagnostics.

#[local] Open Scope Z_scope.

(** What the registry reads of the configuration. *)
Definition reg_source (d : DataSourceConfig) : Manager.DataSourceConfig := Manager.mkDs (name d) (type d).

Definition reg_group (g : DataSourceGroupConfig) : Manager.GroupConfig :=
  let f := g_failover g in
  Manager.mkGroup (g_name g) (g_primary g) (map (fun r => (r_name r, r_weight r)) (g_replicas g)) (f_primaries f)
    (f_acknowledged f) (w_enabled (f_write_buffer f)) (w_acknowledged (f_write_buffer f)) (g_read_only g) (g_shadow g).

Definition reg_config (c : GlobalConfig) : Manager.GlobalConfig :=
  Manager.mkGlobal (map reg_source (datasources c)) (map reg_group (groups c)) (default_datasource c) (Cursor.enabled (cursor c)).

(** ** Good topologies *)

Definition refs_ok (leaves : list str) (g : DataSourceGroupConfig) : Prop :=
  g_primary g ∈ leaves /\ (forall r, r ∈ g_replicas g -> r_name r ∈ leaves) /\ (forall p, p ∈ f_primaries (g_failover g) -> p ∈ leaves) /\
  (f_primaries (g_failover g) <> [] -> f_acknowledged (g_failover g) = true) /\
  (w_enabled (f_write_buffer (g_failover g)) = true ->
     w_acknowledged (f_write_buffer (g_failover g)) = true /\ g_read_only g = false).

Definition shadow_ok (leaves : list str) (g : DataSourceGroupConfig) : Prop :=
  g_shadow g <> [] ->
  g_shadow g ∈ leaves /\ g_shadow g <> g_primary g /\ (forall r, r ∈ g_replicas g -> r_name r <> g_shadow g).

Fixpoint names_ok (used : list str) (l : list str) : Prop :=
  match l with [] => True | n :: l => n ∉ used /\ names_ok (n :: used) l end.

Definition good_topology (c : GlobalConfig) : Prop :=
  let leaves := map name (datasources c) in
  names_ok [] leaves /\ names_ok (reverse leaves) (map g_name (groups c)) /\
  Forall (refs_ok leaves) (groups c) /\ Forall (shadow_ok leaves) (groups c) /\ default_datasource c ∈ all_names c.

(** ** The check *)

Lemma mem_true (n : str) (l : list str) : mem n l = true <-> n ∈ l.
Proof.
  unfold mem. rewrite existsb_exists. split.
  - intros (x & Hx%list_elem_of_In & ->%str_eqb_true). done.
  - intros H. exists n. split; [by apply list_elem_of_In|by apply str_eqb_true].
Qed.

Lemma mem_false (n : str) (l : list str) : mem n l = false <-> n ∉ l.
Proof. rewrite <- not_true_iff_false, mem_true. done. Qed.

Lemma guard_iff (b : bool) (msg : str) (u : unit) : guard b msg = inr u <-> b = false.
Proof. destruct b, u; done. Qed.

Lemma andThen_iff {A B} (m : M A) (k : A -> M B) (b : B) : andThen m k = inr b <-> exists a, m = inr a /\ k a = inr b.
Proof. split; [apply andThen_inr|]. intros (a & -> & H). done. Qed.

Lemma guard_then {B} (b : bool) (msg : str) (k : unit -> M B) (r : B) : andThen (guard b msg) k = inr r <-> b = false /\ k tt = inr r.
Proof. destruct b; cbn; naive_solver. Qed.

Lemma check_sources_iff (ds : list DataSourceConfig) (used out : list str) :
  Forall (fun d => name d <> [] /\ type d <> []) ds ->
  check_sources used ds = inr out <-> names_ok used (map name ds) /\ out = reverse (map name ds) ++ used.
Proof.
  intros HF. revert used. induction HF as [|d ds [Hn Ht] HF IH]; intros used; cbn [check_sources map names_ok].
  - cbn. naive_solver.
  - apply empty_false in Hn, Ht. rewrite guard_then, Hn, Ht, guard_then, IH, mem_false, reverse_cons, <- app_assoc. cbn. naive_solver.
Qed.

Lemma check_names_iff (gs : list DataSourceGroupConfig) (used out : list str) :
  Forall (fun g => g_name g <> []) gs ->
  check_group_names used gs = inr out <-> names_ok used (map g_name gs) /\ out = reverse (map g_name gs) ++ used.
Proof.
  intros HF. revert used. induction HF as [|g gs Hn HF IH]; intros used; cbn [check_group_names map names_ok].
  - cbn. naive_solver.
  - apply empty_false in Hn. rewrite guard_then, Hn, IH, reverse_cons, <- app_assoc. cbn. rewrite mem_false. naive_solver.
Qed.

Lemma existsb_false {A} (f : A -> bool) (l : list A) : existsb f l = false <-> forall x, x ∈ l -> f x = false.
Proof.
  rewrite <- not_true_iff_false, existsb_exists. split.
  - intros H x Hx. apply not_true_iff_false. intros E. apply H. exists x. split; [by apply list_elem_of_In|done].
  - intros H (x & Hx%list_elem_of_In & E). by rewrite H in E.
Qed.

Lemma check_group_iff (leaves : list str) (i : nat) (g : DataSourceGroupConfig) :
  Forall valid_replica (g_replicas g) -> check_group leaves i g = inr tt <-> refs_ok leaves g /\ shadow_ok leaves g.
Proof.
  intros Hw. rewrite Forall_forall in Hw. unfold check_group. rewrite !guard_then, !existsb_false, negb_false_iff, mem_true.
  assert (Hr : (forall r, r ∈ g_replicas g -> negb (mem (r_name r) leaves) || (r_weight r <? 1) = false) <->
               (forall r, r ∈ g_replicas g -> r_name r ∈ leaves)).
  { split; intros H r Hin; specialize (H r Hin); [apply orb_false_iff in H as [H _]; by apply negb_false_iff, mem_true in H|].
    apply orb_false_iff. split; [by apply negb_false_iff, mem_true|]. apply Z.ltb_ge. by destruct (Hw r Hin) as [_ [? _]]. }
  assert (Hp : (forall p, p ∈ f_primaries (g_failover g) -> negb (mem p leaves) = false) <-> (forall p, p ∈ f_primaries (g_failover g) -> p ∈ leaves)).
  { split; intros H p Hin; specialize (H p Hin); [by apply negb_false_iff, mem_true in H|by apply negb_false_iff, mem_true]. }
  assert (Ha : (match f_primaries (g_failover g) with [] => false | _ => negb (f_acknowledged (g_failover g)) end) = false <->
               (f_primaries (g_failover g) <> [] -> f_acknowledged (g_failover g) = true)).
  { destruct (f_primaries (g_failover g)), (f_acknowledged (g_failover g)); naive_solver. }
  assert (Hb : w_enabled (f_write_buffer (g_failover g)) && (negb (w_acknowledged (f_write_buffer (g_failover g))) || g_read_only g) = false <->
               (w_enabled (f_write_buffer (g_failover g)) = true -> w_acknowledged (f_write_buffer (g_failover g)) = true /\ g_read_only g = false)).
  { destruct (w_enabled _), (w_acknowledged _), (g_read_only g); naive_solver. }
  assert (Hs : (if empty (g_shadow g) then inr tt
     else let! _ := guard (negb (mem (g_shadow g) leaves) || (g_shadow g =s g_primary g)) (topology_error (group_path i ++ $"/shadow") ($"must reference a separate plain datasource")) in
          guard (existsb (fun r => r_name r =s g_shadow g) (g_replicas g)) (topology_error (group_path i ++ $"/shadow") ($"must not reference a replica of this group"))) = inr tt
    <-> shadow_ok leaves g).
  { unfold shadow_ok. destruct (empty (g_shadow g)) eqn:E; [apply empty_true in E; naive_solver|]. apply empty_false in E.
    rewrite guard_then, guard_iff, existsb_false, orb_false_iff, negb_false_iff, mem_true, <- not_true_iff_false, str_eqb_true.
    setoid_rewrite <- not_true_iff_false. setoid_rewrite str_eqb_true. naive_solver. }
  rewrite Hr, Hp, Ha, Hb, Hs. unfold refs_ok. tauto.
Qed.

Lemma traverse_iff {A} (f : nat -> A -> M unit) (P : A -> Prop) (l : list A) (i : nat) :
  (forall i a, a ∈ l -> f i a = inr tt <-> P a) -> (exists us, traverse_from f i l = inr us) <-> Forall P l.
Proof.
  revert i. induction l as [|a l IH]; intros i H; cbn; [split; [constructor|eauto]|]. split.
  - intros (us & E). apply andThen_inr in E as ([] & E1 & E). apply andThen_inr in E as (us' & E2 & _). constructor; [apply (H i); set_solver|].
    apply (IH (S i)); [set_solver|eauto].
  - intros HF. inversion HF as [|? ? Ha Hl]; subst. apply (H i) in Ha; [|set_solver]. rewrite Ha. cbn [andThen].
    apply (IH (S i)) in Hl as (us & ->); [|set_solver]. cbn. eauto.
Qed.

Lemma names_elem (c : GlobalConfig) (n : str) :
  n ∈ reverse (map g_name (groups c)) ++ reverse (map name (datasources c)) <-> n ∈ all_names c.
Proof. unfold all_names. rewrite !elem_of_app, !elem_of_reverse. tauto. Qed.

(** The check accepts exactly the good topologies. *)
Lemma validate_iff (env : str -> option str) (c : GlobalConfig) :
  valid_config env c -> validateTopology c = inr tt <-> good_topology c.
Proof.
  intros (_ & Hne & Hs & Hg & _). unfold validateTopology, good_topology.
  assert (HS : Forall (fun d => name d <> [] /\ type d <> []) (datasources c)) by (eapply Forall_impl; [exact Hs|]; intros d Hd; split; apply Hd).
  assert (HG : Forall (fun g => g_name g <> []) (groups c)) by (eapply Forall_impl; [exact Hg|]; intros g H; apply H).
  assert (HR : forall i g, g ∈ groups c -> check_group (map name (datasources c)) i g = inr tt <->
                 refs_ok (map name (datasources c)) g /\ shadow_ok (map name (datasources c)) g).
  { intros i g Hin. apply check_group_iff. rewrite Forall_forall in Hg. apply (Hg g Hin). }
  assert (Hb : (match datasources c with [] => true | _ => false end) = false) by (by destruct (datasources c)).
  rewrite guard_then, Hb, andThen_iff. setoid_rewrite (check_sources_iff _ _ _ HS). setoid_rewrite andThen_iff.
  setoid_rewrite (check_names_iff _ _ _ HG). setoid_rewrite andThen_iff. setoid_rewrite guard_iff. setoid_rewrite negb_false_iff. setoid_rewrite mem_true.
  pose proof (traverse_iff _ _ (groups c) 0 HR) as HT. rewrite Forall_and in HT. split.
  - intros (_ & us & [H1 ->] & vs & [H2 ->] & ws & H3 & H4). rewrite app_nil_r in *. rewrite names_elem in H4. split_and!; try done; apply HT; eauto.
  - intros (H1 & H2 & H3 & H4 & H5). split; [done|]. eexists. split; [split; [done|reflexivity]|]. rewrite app_nil_r.
    eexists. split; [split; [done|reflexivity]|]. destruct (proj2 HT (conj H3 H4)) as [us Hus]. exists us. split; [done|]. by apply names_elem.
Qed.

(** ** The registry under construction *)

(** What is registered after the leaves [ls] and the groups [gs]. *)
Record built (ls : list str) (gs : list Manager.GroupConfig) (m : Manager.manager) : Prop := {
  built_pools : forall n, is_Some (Manager.pools m !! n) <-> n ∈ ls;
  built_sources : forall n, is_Some (Manager.sources m !! n) <-> n ∈ ls \/ n ∈ map Manager.g_name gs;
  built_leaf : forall n i, n ∈ ls -> Manager.sources m !! n = Some i ->
    exists o, Manager.heap m !! i = Some o /\ Manager.s_name o = n /\ Manager.s_primary o = None /\ Manager.s_shadowName o = [];
  built_group : forall g i, g ∈ gs -> Manager.sources m !! Manager.g_name g = Some i ->
    exists o p, Manager.heap m !! i = Some o /\ Manager.s_name o = Manager.g_name g /\ Manager.s_primary o = Some p /\
      Manager.sources m !! Manager.g_primary g = Some p /\ Manager.g_primary g ∈ ls /\ Manager.s_shadowName o = Manager.g_shadow g /\
      (forall t, t ∈ Manager.s_replicas o <-> exists r, r ∈ Manager.g_replicas g /\ Manager.sources m !! r.1 = Some t);
  built_apart : forall g, g ∈ gs -> Manager.g_name g ∉ ls /\ (forall r, r ∈ Manager.g_replicas g -> r.1 ∈ ls)
}.

Lemma lookup_snoc {A} (h : list A) (o : A) (i : nat) (x : A) : h !! i = Some x -> (h ++ [o]) !! i = Some x.
Proof. intros H. by rewrite lookup_app_l by (by eapply lookup_lt_Some). Qed.

Lemma lookup_new {A} (h : list A) (o : A) : (h ++ [o]) !! length h = Some o.
Proof. by apply list_lookup_middle. Qed.

Section init.
Variable known : str -> bool.

Lemma leaf_built (ls : list str) (m : Manager.manager) (c : Manager.DataSourceConfig) (rep ro cu : bool) :
  built ls [] m -> Manager.c_name c ∉ ls -> Manager.c_name c <> [] -> known (Manager.c_type c) = true ->
  exists m', Manager.build_leaf known c rep ro cu m = inr m' /\ built (Manager.c_name c :: ls) [] m'.
Proof.
  intros [B1 B2 B3 B4 B5] Hn Hne Hk. unfold Manager.build_leaf. rewrite Hk. destruct (Manager.c_name c) as [|x n0] eqn:En; [done|]. rewrite <- En in *.
  eexists. split; [reflexivity|]. constructor; cbn [Manager.pools Manager.sources Manager.heap].
  - intros n. destruct (decide (n = Manager.c_name c)) as [->|Hd]; [rewrite lookup_insert_eq; set_solver|].
    rewrite lookup_insert_ne, B1 by done. set_solver.
  - intros n. destruct (decide (n = Manager.c_name c)) as [->|Hd]; [rewrite lookup_insert_eq; set_solver|].
    rewrite lookup_insert_ne, B2 by done. set_solver.
  - intros n i Hin. destruct (decide (n = Manager.c_name c)) as [->|Hd].
    + rewrite lookup_insert_eq. intros [= <-]. eexists. split; [apply lookup_new|done].
    + rewrite lookup_insert_ne by done. intros Hi. destruct (B3 n i) as (o & Ho & Hr); [set_solver|done|]. exists o. split; [by apply lookup_snoc|done].
  - set_solver.
  - set_solver.
Qed.

Lemma leaves_built (cs : list Manager.DataSourceConfig) (rn : list str) (cu : bool) (ls : list str) (m : Manager.manager) :
  built ls [] m -> Forall (fun c => Manager.c_name c <> [] /\ known (Manager.c_type c) = true) cs ->
  match Manager.init_leaves known cs rn cu m with
  | inr m' => names_ok ls (map Manager.c_name cs) /\ built (reverse (map Manager.c_name cs) ++ ls) [] m'
  | inl st => status_ok st = false /\ ~ names_ok ls (map Manager.c_name cs)
  end.
Proof.
  intros B HF. revert ls m B. induction HF as [|c cs [Hn Hk] HF IH]; intros ls m B; cbn [Manager.init_leaves map names_ok]; [done|].
  destruct (Manager.pools m !! Manager.c_name c) as [p|] eqn:E.
  { split; [done|]. intros [Hnot _]. apply Hnot. apply (built_pools _ _ _ B). eauto. }
  assert (Hnot : Manager.c_name c ∉ ls) by (intros [p Hp]%(built_pools _ _ _ B); by rewrite Hp in E).
  destruct (leaf_built ls m c (bool_decide (Manager.c_name c ∈ rn)) false cu B Hnot Hn Hk) as (m' & -> & B').
  specialize (IH _ _ B'). destruct (Manager.init_leaves known cs rn cu m') as [st|m'']; [|rewrite reverse_cons, <- app_assoc; cbn; naive_solver].
  naive_solver.
Qed.

(** *** Groups *)

Lemma weighted_built (g : str) (ss : gmap str nat) (rs : list (str * Z)) :
  (forall r, r ∈ rs -> is_Some (ss !! r.1) /\ 1 <= r.2) ->
  exists l, Manager.weighted g ss rs = inr l /\ (forall t, t ∈ l <-> exists r, r ∈ rs /\ ss !! r.1 = Some t).
Proof.
  induction rs as [|[n w] rs IH]; intros H; cbn [Manager.weighted]; [exists []; split; [done|set_solver]|].
  destruct (H (n, w)) as [[i Hi] Hw]; [set_solver|]. cbn [fst snd] in *. rewrite Hi. destruct IH as (l & -> & Hl); [set_solver|].
  eexists. split; [reflexivity|]. intros t. rewrite elem_of_app, Hl, elem_of_replicate. split.
  - intros [[-> _]|(r & Hr & Ht)]; [exists (n, w); set_solver|exists r; set_solver].
  - intros (r & [->|Hr]%elem_of_cons & Ht); [left; cbn in Ht; split; [congruence|lia]|right; eauto].
Qed.

Lemma candidates_built (g : str) (ss : gmap str nat) (seen fs : list str) :
  (forall f, f ∈ fs -> is_Some (ss !! f)) -> exists l, Manager.candidates g ss seen fs = inr l.
Proof.
  revert seen. induction fs as [|f fs IH]; intros seen H; cbn [Manager.candidates]; [eauto|]. destruct (bool_decide _); [apply IH; set_solver|].
  destruct (H f) as [i ->]; [set_solver|]. destruct (IH (f :: seen)) as [l ->]; [set_solver|]. eauto.
Qed.

Lemma find_missing {A} (f : A -> bool) (l : list A) : List.find f l = None <-> forall x, x ∈ l -> f x = false.
Proof.
  split; [apply Manager.find_none_all|]. intros H. destruct (List.find f l) as [x|] eqn:E; [|done].
  apply find_some in E as [Hin%list_elem_of_In Hx]. by rewrite H in Hx.
Qed.

Lemma missing_false (ls : list str) (gs : list Manager.GroupConfig) (m : Manager.manager) (n : str) :
  built ls gs m -> bool_decide (Manager.pools m !! n = None) = false <-> n ∈ ls.
Proof. intros B. rewrite bool_decide_eq_false, <- (built_pools _ _ _ B n). by destruct (Manager.pools m !! n); split; eauto; intros []. Qed.

(** The tests in front of the construction. *)
Lemma refs_tested (ls : list str) (gs : list Manager.GroupConfig) (m : Manager.manager) (g : DataSourceGroupConfig) :
  built ls gs m ->
  match Manager.acknowledged (reg_group g) with
  | inl st => status_ok st = false /\ ~ refs_ok ls g
  | inr _ => match Manager.validateGroupRefs (reg_group g) (Manager.pools m) with
             | inl st => status_ok st = false /\ ~ refs_ok ls g
             | inr _ => refs_ok ls g \/ (g_read_only g = true /\ w_enabled (f_write_buffer (g_failover g)) = true)
             end
  end.
Proof.
  intros B. unfold Manager.acknowledged, reg_group. cbn [Manager.g_failover Manager.g_ackFencing Manager.g_buffer Manager.g_ackLoss].
  destruct (negb (bool_decide _) && negb _) eqn:E1.
  { split; [done|]. intros (_ & _ & _ & H & _). apply andb_true_iff in E1 as [E1 E2]. apply negb_true_iff, bool_decide_eq_false in E1. by rewrite H in E2. }
  destruct (w_enabled _ && negb _) eqn:E2.
  { split; [done|]. intros (_ & _ & _ & _ & H). apply andb_true_iff in E2 as [E2 E3]. destruct (H E2) as [Ha _]. by rewrite Ha in E3. }
  unfold Manager.validateGroupRefs. cbn [Manager.g_primary Manager.g_replicas Manager.g_failover Manager.g_name].
  destruct (bool_decide (Manager.pools m !! g_primary g = None)) eqn:E3.
  { split; [done|]. intros (H & _). apply (missing_false _ _ _ _ B) in H. by rewrite H in E3. }
  apply (missing_false _ _ _ _ B) in E3. destruct (List.find _ (map _ _)) as [r|] eqn:E4.
  { split; [done|]. intros (_ & H & _). apply find_some in E4 as [Hin Hr]. apply list_elem_of_In, list_elem_of_fmap in Hin as (q & -> & Hq). cbn in Hr.
    apply H, (missing_false _ _ _ _ B) in Hq. by rewrite Hq in Hr. }
  destruct (List.find _ (f_primaries _)) as [p|] eqn:E5.
  { split; [done|]. intros (_ & _ & H & _). apply find_some in E5 as [Hin%list_elem_of_In Hp]. apply H, (missing_false _ _ _ _ B) in Hin. by rewrite Hin in Hp. }
  pose proof (proj1 (find_missing _ _) E4) as F4. pose proof (proj1 (find_missing _ _) E5) as F5. clear E4 E5.
  destruct (g_read_only g && w_enabled (f_write_buffer (g_failover g))) eqn:E6; [right; by apply andb_true_iff|]. left.
  unfold refs_ok. split_and!.
  - done.
  - intros r Hr. apply (missing_false _ _ _ _ B). apply (F4 (r_name r, r_weight r)). apply list_elem_of_fmap. eauto.
  - intros p Hp. apply (missing_false _ _ _ _ B). by apply F5.
  - intros Hne. apply andb_false_iff in E1 as [E1|E1]; [apply negb_false_iff, bool_decide_eq_true in E1; done|by apply negb_false_iff in E1].
  - intros Hw. rewrite Hw in E2, E6. rewrite andb_true_r in E6. split; [by apply negb_false_iff in E2|done].
Qed.

Lemma group_built (ls : list str) (gs : list Manager.GroupConfig) (m : Manager.manager) (g : DataSourceGroupConfig) :
  built ls gs m -> valid_group g -> refs_ok ls g -> g_name g ∉ ls -> g_name g ∉ map Manager.g_name gs ->
  exists m', Manager.build_group (reg_group g) true m = inr m' /\ built ls (gs ++ [reg_group g]) m'.
Proof.
  intros B (Hne & _ & _ & Hw & _) (R1 & R2 & R3 & R4 & R5) Hn Hn'.
  assert (Hsome : forall n, n ∈ ls -> is_Some (Manager.sources m !! n)) by (intros n Hin; apply (built_sources _ _ _ B); by left).
  assert (Hnew : Manager.sources m !! g_name g = None).
  { destruct (Manager.sources m !! g_name g) eqn:E; [|done]. assert (H : is_Some (Manager.sources m !! g_name g)) by eauto.
    apply (built_sources _ _ _ B) in H as [H|H]; done. }
  destruct (Hsome _ R1) as [p Hp].
  destruct (weighted_built (g_name g) (Manager.sources m) (map (fun r => (r_name r, r_weight r)) (g_replicas g))) as (wl & Hwl & Hwe).
  { intros r Hr. apply list_elem_of_fmap in Hr as (q & -> & Hq). cbn. split; [by apply Hsome, R2|]. rewrite Forall_forall in Hw. by destruct (Hw q Hq) as [_ [? _]]. }
  destruct (candidates_built (g_name g) (Manager.sources m) [g_primary g] (f_primaries (g_failover g))) as [fl Hfl]; [intros f Hf; by apply Hsome, R3|].
  unfold Manager.build_group, reg_group. cbn [Manager.g_name Manager.g_readOnly Manager.g_buffer Manager.g_primary Manager.g_replicas Manager.g_failover Manager.g_shadow].
  assert (Hro : g_read_only g && w_enabled (f_write_buffer (g_failover g)) = false).
  { destruct (w_enabled _); [|by rewrite andb_false_r]. by destruct R5 as [_ ->]. }
  rewrite Hro, Hp, Hwl. destruct (g_name g) as [|x n0] eqn:En; [done|]. rewrite <- En in *.
  match goal with |- context [match f_primaries ?f with [] => inr [] | s :: l => @?k s l end] =>
    assert (Hf : exists fs, match f_primaries f with [] => inr [] | s :: l => k s l end = (inr fs : Status + list nat));
    [destruct (f_primaries f); [eauto|rewrite Hfl; eauto]|] end.
  destruct Hf as [fs Hf]. rewrite Hf. eexists. split; [reflexivity|].
  constructor; cbn [Manager.pools Manager.sources Manager.heap].
  - apply (built_pools _ _ _ B).
  - intros n. rewrite map_app, elem_of_app. cbn [map Manager.g_name]. destruct (decide (n = g_name g)) as [->|Hd]; [rewrite lookup_insert_eq; set_solver|].
    rewrite lookup_insert_ne, (built_sources _ _ _ B) by done. set_solver.
  - intros n i Hin. rewrite lookup_insert_ne by (intros <-; done). intros Hi. destruct (built_leaf _ _ _ B n i Hin Hi) as (o & Ho & Hr).
    exists o. split; [by apply lookup_snoc|done].
  - assert (Hkeep : forall n, n ∈ ls -> <[g_name g:=length (Manager.heap m)]> (Manager.sources m) !! n = Manager.sources m !! n)
      by (intros n Hin; apply lookup_insert_ne; intros <-; done).
    intros h i [Hh|Hh%list_elem_of_singleton]%elem_of_app.
    + assert (Hd : g_name g <> Manager.g_name h) by (intros E; apply Hn'; rewrite E; by apply list_elem_of_fmap_2).
      rewrite lookup_insert_ne by done. intros Hi. destruct (built_group _ _ _ B h i Hh Hi) as (o & q & Ho & H1 & H2 & H3 & H4 & H5 & H6).
      exists o, q. split_and!; try done; [by apply lookup_snoc|by rewrite Hkeep|]. intros t. rewrite H6.
      destruct (built_apart _ _ _ B h Hh) as [_ Ha]. split; intros (r & Hr & Ht); exists r; (split; [done|]); [rewrite Hkeep by auto|rewrite Hkeep in Ht by auto]; done.
    + subst h. cbn [Manager.g_name Manager.g_primary Manager.g_shadow Manager.g_replicas]. rewrite lookup_insert_eq. intros [= <-].
      eexists _, p. split; [apply lookup_new|]. cbn [Manager.s_name Manager.s_primary Manager.s_shadowName Manager.s_replicas].
      split_and!; try done; [by rewrite Hkeep|]. intros t. rewrite Hwe. split; intros (r & Hr & Ht); exists r; (split; [done|]);
        apply list_elem_of_fmap in Hr as (q & -> & Hq); cbn in *; [rewrite Hkeep by auto|rewrite Hkeep in Ht by auto]; done.
  - intros h [Hh|Hh%list_elem_of_singleton]%elem_of_app; [by apply (built_apart _ _ _ B)|]. subst h. cbn. split; [done|].
    intros r Hr. apply list_elem_of_fmap in Hr as (q & -> & Hq). cbn. auto.
Qed.

Lemma groups_built (l : list DataSourceGroupConfig) (ls used : list str) (gs : list Manager.GroupConfig) (m : Manager.manager) :
  built ls gs m -> Forall valid_group l -> (forall n, n ∈ used <-> n ∈ ls \/ n ∈ map Manager.g_name gs) ->
  match Manager.init_groups (map reg_group l) m with
  | inr m' => names_ok used (map g_name l) /\ Forall (refs_ok ls) l /\ built ls (gs ++ map reg_group l) m'
  | inl st => status_ok st = false /\ ~ (names_ok used (map g_name l) /\ Forall (refs_ok ls) l)
  end.
Proof.
  intros B HF. revert used gs m B. induction HF as [|g l Hv HF IH]; intros used gs m B Hu; cbn [Manager.init_groups map names_ok].
  { rewrite app_nil_r. split_and!; [done|constructor|done]. }
  change (Manager.g_name (reg_group g)) with (g_name g). destruct (Manager.sources m !! g_name g) as [i|] eqn:E.
  { split; [done|]. intros [[Hnot _] _]. apply Hnot, Hu, (built_sources _ _ _ B). eauto. }
  assert (Hnot : g_name g ∉ used) by (intros H%Hu%(built_sources _ _ _ B); rewrite E in H; by destruct H).
  assert (Hn1 : g_name g ∉ ls) by (intros H; apply Hnot, Hu; by left). assert (Hn2 : g_name g ∉ map Manager.g_name gs) by (intros H; apply Hnot, Hu; by right).
  assert (Hfail : forall st, status_ok st = false /\ ~ refs_ok ls g ->
    status_ok st = false /\ ~ ((g_name g ∉ used /\ names_ok (g_name g :: used) (map g_name l)) /\ Forall (refs_ok ls) (g :: l))).
  { intros st [Hst Hr]. split; [done|]. intros [_ H]. by inversion H. }
  pose proof (refs_tested ls gs m g B) as Ht. destruct (Manager.acknowledged (reg_group g)) as [st|]; [by apply Hfail|].
  destruct (Manager.validateGroupRefs _ _) as [st|]; [by apply Hfail|]. destruct Ht as [Hr|[Hro Hb]].
  - destruct (group_built ls gs m g B Hv Hr Hn1 Hn2) as (m' & -> & B').
    specialize (IH (g_name g :: used) _ m' B'). rewrite <- app_assoc in IH. destruct (Manager.init_groups (map reg_group l) m') as [st|m''].
    + destruct IH as [H1 H2]; [intros n; rewrite map_app, elem_of_app; cbn; rewrite elem_of_cons, Hu; set_solver|].
      split; [done|]. intros [[_ H3] H4]. inversion H4; subst. by apply H2.
    + destruct IH as (H1 & H2 & H3); [intros n; rewrite map_app, elem_of_app; cbn; rewrite elem_of_cons, Hu; set_solver|].
      split_and!; try done. by constructor.
  - assert (Hbad : exists st, Manager.build_group (reg_group g) true m = inl st /\ status_ok st = false).
    { unfold Manager.build_group, reg_group. cbn [Manager.g_name Manager.g_readOnly Manager.g_buffer]. rewrite Hro, Hb. destruct (g_name g); eexists; done. }
    destruct Hbad as (st & -> & Hst). apply Hfail. split; [done|]. intros (_ & _ & _ & _ & H). destruct (H Hb) as [_ H']. by rewrite Hro in H'.
Qed.

(** *** Shadows *)

(** The test of [resolve_one]. *)
Definition shadow_test (m : Manager.manager) (i : nat) : bool :=
  match Manager.heap m !! i with
  | None => true
  | Some o =>
      if empty (Manager.s_shadowName o) then true
      else match Manager.sources m !! Manager.s_shadowName o with
           | None => false
           | Some t => negb (Manager.is_group m t) && negb (bool_decide (Manager.s_primary o = Some t)) &&
                       negb (bool_decide (t ∈ Manager.s_replicas o))
           end
  end.

Lemma resolve_one_test (i : nat) (m : Manager.manager) :
  match Manager.resolve_one i m with
  | inl st => status_ok st = false /\ shadow_test m i = false
  | inr m' => shadow_test m i = true /\ (m' = m \/ exists t, m' = Manager.set_heap (alter (Manager.set_shadow t) i (Manager.heap m)) m)
  end.
Proof.
  unfold Manager.resolve_one, shadow_test. destruct (Manager.heap m !! i) as [o|]; [|by split; [|left]].
  destruct (Manager.s_shadowName o) as [|x n]; [by split; [|left]|]. change (empty (x :: n)) with false. cbv iota.
  destruct (Manager.sources m !! (x :: n)) as [t|]; [|done].
  destruct (Manager.is_group m t); [done|]. destruct (bool_decide (Manager.s_primary o = Some t)); [done|].
  destruct (bool_decide (t ∈ Manager.s_replicas o)); [done|]. split; [done|]. right. eauto.
Qed.

Lemma shadow_test_keeps (m : Manager.manager) (i j t : nat) :
  shadow_test (Manager.set_heap (alter (Manager.set_shadow t) i (Manager.heap m)) m) j = shadow_test m j.
Proof.
  assert (Hg : forall k, Manager.is_group (Manager.set_heap (alter (Manager.set_shadow t) i (Manager.heap m)) m) k = Manager.is_group m k).
  { intros k. unfold Manager.is_group. cbn [Manager.heap Manager.set_heap]. destruct (decide (i = k)) as [->|Hd].
    - rewrite list_lookup_alter_eq. by destruct (Manager.heap m !! k).
    - by rewrite list_lookup_alter_ne. }
  unfold shadow_test. cbn [Manager.heap Manager.sources Manager.set_heap].
  assert (Hl : forall o, Manager.s_shadowName (Manager.set_shadow t o) = Manager.s_shadowName o /\ Manager.s_primary (Manager.set_shadow t o) = Manager.s_primary o /\
    Manager.s_replicas (Manager.set_shadow t o) = Manager.s_replicas o) by done.
  destruct (decide (i = j)) as [->|Hd].
  - rewrite list_lookup_alter_eq. destruct (Manager.heap m !! j) as [o|]; [|done]. cbn [fmap option_fmap option_map]. destruct (Hl o) as (-> & -> & ->).
    destruct (empty _); [done|]. destruct (Manager.sources m !! _); [|done]. by rewrite Hg.
  - rewrite list_lookup_alter_ne by done. destruct (Manager.heap m !! j) as [o|]; [|done].
    destruct (empty _); [done|]. destruct (Manager.sources m !! _); [|done]. by rewrite Hg.
Qed.

Lemma resolve_all_iff (ids : list nat) (m : Manager.manager) :
  status_ok (Manager.resolve_all ids m).1 = true <-> forall i, i ∈ ids -> shadow_test m i = true.
Proof.
  revert m. induction ids as [|i ids IH]; intros m; cbn [Manager.resolve_all]; [split; [set_solver|done]|].
  pose proof (resolve_one_test i m) as H. destruct (Manager.resolve_one i m) as [st|m'].
  - destruct H as [H1 H2]. cbn. rewrite H1. split; [done|]. intros Ha. rewrite Ha in H2; [done|set_solver].
  - destruct H as [H1 H2]. rewrite IH.
    assert (Hs : forall j, shadow_test m' j = shadow_test m j) by (intros j; destruct H2 as [->|[t ->]]; [done|apply shadow_test_keeps]).
    setoid_rewrite Hs. setoid_rewrite elem_of_cons. naive_solver.
Qed.

(** A built registry passes exactly when the shadows are good. *)
Lemma built_index (ls : list str) (gs : list Manager.GroupConfig) (m : Manager.manager) (a b : str) (i : nat) :
  built ls gs m -> Manager.sources m !! a = Some i -> Manager.sources m !! b = Some i -> a = b.
Proof.
  intros B.
  assert (Hn : forall n, Manager.sources m !! n = Some i -> exists o, Manager.heap m !! i = Some o /\ Manager.s_name o = n).
  { intros n Hn. assert (Hs : is_Some (Manager.sources m !! n)) by eauto. apply (built_sources _ _ _ B) in Hs as [Hs|Hs].
    - destruct (built_leaf _ _ _ B n i Hs Hn) as (o & Ho & Hr & _). eauto.
    - apply list_elem_of_fmap in Hs as (g & -> & Hg). destruct (built_group _ _ _ B g i Hg Hn) as (o & p & Ho & Hr & _). eauto. }
  intros Ha Hb. destruct (Hn a Ha) as (o & Ho & <-), (Hn b Hb) as (o' & Ho' & <-). congruence.
Qed.

Lemma group_shadow_iff (ls : list str) (l : list DataSourceGroupConfig) (m : Manager.manager) (g : DataSourceGroupConfig) (i : nat) :
  built ls (map reg_group l) m -> g ∈ l -> Manager.sources m !! g_name g = Some i -> shadow_test m i = true <-> shadow_ok ls g.
Proof.
  intros B Hg Hi. destruct (built_group _ _ _ B (reg_group g) i) as (o & p & Ho & H1 & H2 & H3 & H4 & H5 & H6); [by apply list_elem_of_fmap_2|done|].
  unfold shadow_test, shadow_ok. rewrite Ho, H5. change (Manager.g_shadow (reg_group g)) with (g_shadow g).
  change (Manager.g_primary (reg_group g)) with (g_primary g) in *.
  destruct (empty (g_shadow g)) eqn:Hne; [apply empty_true in Hne; naive_solver|]. apply empty_false in Hne.
  destruct (Manager.sources m !! g_shadow g) as [t|] eqn:Et.
  2: { split; [done|]. intros H. destruct (H Hne) as [Hin _].
       assert (Hs : is_Some (Manager.sources m !! g_shadow g)) by (apply (built_sources _ _ _ B); by left). rewrite Et in Hs. by destruct Hs. }
  rewrite !andb_true_iff, !negb_true_iff, !bool_decide_eq_false, H2, H6.
  assert (Hgr : Manager.is_group m t = false <-> g_shadow g ∈ ls).
  { unfold Manager.is_group. assert (Hs : is_Some (Manager.sources m !! g_shadow g)) by eauto. apply (built_sources _ _ _ B) in Hs as [Hs|Hs].
    - destruct (built_leaf _ _ _ B _ _ Hs Et) as (o' & -> & _ & -> & _). done.
    - apply list_elem_of_fmap in Hs as (h & Eh & Hh). rewrite Eh in Et. destruct (built_group _ _ _ B h t Hh Et) as (o' & q & -> & _ & -> & _).
      rewrite Eh. split; [done|]. intros Hin. by apply (built_apart _ _ _ B) in Hh as [? _]. }
  assert (Hpr : Some p <> Some t <-> g_shadow g <> g_primary g).
  { split; intros Hd E; apply Hd; [rewrite E in Et; congruence|]. injection E as ->. by apply (built_index _ _ _ _ _ _ B Et). }
  assert (Hrp : (~ exists r, r ∈ Manager.g_replicas (reg_group g) /\ Manager.sources m !! r.1 = Some t) <-> (forall r, r ∈ g_replicas g -> r_name r <> g_shadow g)).
  { split.
    - intros Hd r Hr E. apply Hd. exists (r_name r, r_weight r). split; [apply list_elem_of_fmap; eauto|]. cbn. by rewrite E.
    - intros Hd (r & Hr & Ht). apply list_elem_of_fmap in Hr as (q & -> & Hq). apply (Hd q Hq). by apply (built_index _ _ _ _ _ _ B Ht). }
  rewrite Hgr, Hpr, Hrp. naive_solver.
Qed.

Lemma shadows_iff (ls : list str) (l : list DataSourceGroupConfig) (m : Manager.manager) :
  built ls (map reg_group l) m -> status_ok (Manager.resolveShadows m).1 = true <-> Forall (shadow_ok ls) l.
Proof.
  intros B. unfold Manager.resolveShadows. rewrite resolve_all_iff, Forall_forall. split.
  - intros H g Hg. assert (Hs : is_Some (Manager.sources m !! g_name g)).
    { apply (built_sources _ _ _ B). right. apply list_elem_of_fmap. exists (reg_group g). split; [done|by apply list_elem_of_fmap_2]. }
    destruct Hs as [i Hi]. apply (group_shadow_iff ls l m g i B Hg Hi). apply H. apply list_elem_of_fmap. exists (g_name g, i). split; [done|]. by apply elem_of_map_to_list.
  - intros H i Hi. apply list_elem_of_fmap in Hi as ([n j] & -> & Hin%elem_of_map_to_list). cbn.
    assert (Hs : is_Some (Manager.sources m !! n)) by eauto. apply (built_sources _ _ _ B) in Hs as [Hs|Hs].
    + destruct (built_leaf _ _ _ B n j Hs Hin) as (o & Ho & _ & _ & E). unfold shadow_test. by rewrite Ho, E.
    + rewrite map_map in Hs. apply list_elem_of_fmap in Hs as (g & -> & Hg). apply (group_shadow_iff ls l m g j B Hg Hin). by apply H.
Qed.

Lemma staged_empty (m : Manager.manager) : built [] [] (Manager.staged m).
Proof. constructor; cbn; try set_solver; intros n; rewrite lookup_empty; split; try set_solver; by intros []. Qed.

(** C12. The offline check agrees with the registry: for every loaded configuration
    whose driver types are registered, [validateTopology] accepts it exactly when
    [DatabaseManager::init] succeeds on it, whatever the manager held before. *)
Theorem topology_decides_init (env : str -> option str) (c : GlobalConfig) (m : Manager.manager) :
  valid_config env c -> Forall (fun d => known (type d) = true) (datasources c) ->
  validateTopology c = inr tt <-> status_ok (Manager.init known (reg_config c) m).1 = true.
Proof.
  intros Hv Hk. rewrite (validate_iff env c Hv). destruct Hv as (_ & Hne & Hs & Hg & _). unfold good_topology, Manager.init, reg_config.
  cbn [Manager.datasources Manager.groups Manager.default_datasource Manager.cursor_enabled].
  assert (HF : Forall (fun c => Manager.c_name c <> [] /\ known (Manager.c_type c) = true) (map reg_source (datasources c))).
  { rewrite Forall_fmap. rewrite Forall_forall in Hs, Hk |- *. intros d Hd. split; [apply (Hs d Hd)|by apply Hk]. }
  assert (Hm : map Manager.c_name (map reg_source (datasources c)) = map name (datasources c)) by (by rewrite map_map).
  pose proof (leaves_built (map reg_source (datasources c)) (Manager.replica_names (map reg_group (groups c))) (Cursor.enabled (cursor c)) [] _ (staged_empty m) HF) as HL.
  rewrite Hm, app_nil_r in HL. destruct (map reg_source (datasources c)) as [|s0 ss] eqn:E0; [by destruct (datasources c)|]. rewrite <- E0 in *. clear E0 s0 ss.
  destruct (Manager.init_leaves _ _ _ _ _) as [st|m1]; [destruct HL as [H1 H2]; cbn; rewrite H1; split; [naive_solver|done]|].
  destruct HL as [HN B1].
  pose proof (groups_built (groups c) _ (reverse (map name (datasources c))) [] m1 B1 Hg ltac:(set_solver)) as HG. cbn [app] in HG.
  assert (Hr : Forall (refs_ok (reverse (map name (datasources c)))) (groups c) <-> Forall (refs_ok (map name (datasources c))) (groups c)).
  { rewrite !Forall_forall. unfold refs_ok. by setoid_rewrite elem_of_reverse. }
  assert (Hh : Forall (shadow_ok (reverse (map name (datasources c)))) (groups c) <-> Forall (shadow_ok (map name (datasources c))) (groups c)).
  { rewrite !Forall_forall. unfold shadow_ok. by setoid_rewrite elem_of_reverse. }
  destruct (Manager.init_groups (map reg_group (groups c)) m1) as [st|m2].
  { destruct HG as [H1 H2]. cbn. rewrite H1. split; [|done]. intros (_ & H3 & H4 & _). destruct H2. split; [done|]. by apply Hr. }
  destruct HG as (HN2 & HR & B2). rewrite Hr in HR.
  assert (Hd : is_Some (Manager.sources m2 !! default_datasource c) <-> default_datasource c ∈ all_names c).
  { rewrite (built_sources _ _ _ B2), elem_of_reverse, map_map. unfold all_names. rewrite elem_of_app. done. }
  destruct (Manager.sources m2 !! default_datasource c) as [i|] eqn:Ed.
  2: { cbn. split; [|done]. intros (_ & _ & _ & _ & H). apply Hd in H. by destruct H. }
  match goal with |- context [Manager.resolveShadows ?x] => set (m3 := x) end.
  assert (B3 : built (reverse (map name (datasources c))) (map reg_group (groups c)) m3) by (destruct B2; by constructor).
  pose proof (shadows_iff _ _ _ B3) as Hsh. rewrite Hh in Hsh.
  destruct (Manager.resolveShadows m3) as [st m4]. cbn [fst] in Hsh. destruct (status_ok st) eqn:Est; cbn; rewrite ?Est.
  - split; [done|]. intros _. split_and!; try done; [by apply Hsh|]. apply Hd. eauto.
  - split; [|done]. intros (_ & _ & _ & H & _). by apply Hsh in H.
Qed.

End init.

(** The sample configuration passes both. *)
Lemma topology_decides_init_witness :
  validateTopology sample_config = inr tt /\ status_ok (Manager.init (fun _ => true) (reg_config sample_config) Manager.fresh).1 = true.
Proof.
  split; [reflexivity|].
  apply (topology_decides_init (fun _ => true) sample_env sample_config Manager.fresh).
  - exact sample_valid.
  - repeat constructor.
  - reflexivity.
Defined.

End Topology.
