(* ===== verification/Client.v ===== *)
(** * The client facade

    src/client.cpp: the object an application holds.  Its state is the life cycle
    ([Empty], [Running], [Closed]), the registry of Manager.v with the drivers it
    knows, the executor its asynchronous calls fall back to, and what diagnostics
    report of the configuration.  A client that was moved from has no state:
    [option impl].

    Executors are shared objects: a call keeps the one it was given while the
    client goes on to replace or drop it, so they live in a store and are named by
    their index.  [initResolved], [reloadResolved] and [shutdown] hold
    [lifecycleMutex] while they wait for an executor to drain; the part before the
    wait and the part after it are two definitions, and [holder] says who waits.

    Here are the life cycle, the synchronous calls and the calls that change the
    registry; ClientAsync.v has the asynchronous calls and the interleavings. *)

From S2P Require Import Prelude Types NamedParams SqlBuilder SqlAuditor Gate Executor Manager Config Topology.

Module Client.

(** ** State *)

Inductive State := Empty | Running | Closed.

(** What runs on the executor: the fallback of an asynchronous call, or a task of
    the asynchronous engine. *)
Inductive task := TCall (i : nat) | TEngine (n : nat).

#[export] Instance task_eq_dec : EqDecision task.
Proof. solve_decision. Defined.

(** An executor with the three counters its users keep on it. *)
Record cell := mkCell { ex : Executor.exec task; natives : nat; fallbacks : nat; timeouts : nat }.

(** Who holds [lifecycleMutex] while the executor [j] drains: a configuration that
    switches asynchronous calls off ([starts]: it is the first one), or a
    shutdown. *)
Inductive holder :=
| Free
| Retiring (j : nat) (cfg : Config.GlobalConfig) (source : str) (starts : bool)
| Stopping (j : nat).

Record impl := mkImpl {
  state : State;
  drivers : gmap str bool;
  mgr : Manager.manager;
  cells : list cell;
  asyncExecutor : option nat;
  asyncTimeoutMs : Z;
  sqlAuditEnabled : bool;
  rateLimitEnabled : bool;
  configSource : nat;
  lock : holder
}.

(** [Client::Client]. *)
Definition new_impl : impl := mkImpl Empty ∅ Manager.fresh [] None 0 false false 0 Free.

Definition set_state (s : State) (i : impl) : impl :=
  mkImpl s (drivers i) (mgr i) (cells i) (asyncExecutor i) (asyncTimeoutMs i) (sqlAuditEnabled i)
    (rateLimitEnabled i) (configSource i) (lock i).
Definition set_mgr (m : Manager.manager) (i : impl) : impl :=
  mkImpl (state i) (drivers i) m (cells i) (asyncExecutor i) (asyncTimeoutMs i) (sqlAuditEnabled i)
    (rateLimitEnabled i) (configSource i) (lock i).
Definition set_lock (h : holder) (i : impl) : impl :=
  mkImpl (state i) (drivers i) (mgr i) (cells i) (asyncExecutor i) (asyncTimeoutMs i) (sqlAuditEnabled i)
    (rateLimitEnabled i) (configSource i) h.
Definition set_cells (cs : list cell) (i : impl) : impl :=
  mkImpl (state i) (drivers i) (mgr i) cs (asyncExecutor i) (asyncTimeoutMs i) (sqlAuditEnabled i)
    (rateLimitEnabled i) (configSource i) (lock i).
Definition set_executor (j : option nat) (i : impl) : impl :=
  mkImpl (state i) (drivers i) (mgr i) (cells i) j (asyncTimeoutMs i) (sqlAuditEnabled i)
    (rateLimitEnabled i) (configSource i) (lock i).
Definition set_timeout (t : Z) (i : impl) : impl :=
  mkImpl (state i) (drivers i) (mgr i) (cells i) (asyncExecutor i) t (sqlAuditEnabled i)
    (rateLimitEnabled i) (configSource i) (lock i).

Definition set_ex (e : Executor.exec task) (c : cell) : cell := mkCell e (natives c) (fallbacks c) (timeouts c).

(** ** Statuses *)

Definition notInitialized : Status := status_error NotInitialized ($"client is not initialized").
Definition clientClosed : Status := status_error ClientClosed ($"client is closed").
Definition dataSourceNotFound (name : str) : Status :=
  status_error ConfigError
    (match name with [] => $"no default datasource" | _ => $"datasource not found: " ++ name end).

Definition validateAsyncConfig (c : Config.AsyncConfig) : Status :=
  if (Config.as_threads c <? 0)%Z || (Config.as_queue_size c <? 1)%Z || (Config.as_statement_timeout_ms c <? 0)%Z
  then status_error ConfigError ($"invalid async configuration") else status_OK.

Definition requireRunning (i : impl) : Status :=
  match state i with Running => status_OK | Closed => clientClosed | Empty => notInitialized end.

(** [target] is the data source the caller's context names. *)
Definition resolve (i : impl) (target requested : str) : Status * option Manager.source :=
  if negb (status_ok (requireRunning i)) then (requireRunning i, None)
  else
    let name := match target with [] => requested | _ => target end in
    let out := match name with [] => Manager.getDefault (mgr i) | _ => Manager.getDataSource name (mgr i) end in
    match out with Some s => (status_OK, Some s) | None => (dataSourceNotFound name, None) end.

(** ** Drivers *)

(** [driver::DriverRegistry]: [Some b] is a factory, which yields a driver if [b]. *)
Record DriverRegistration := mkRegistration { dr_type : str; dr_factory : option bool }.

Definition registerDriver (type : str) (factory : bool) (ds : gmap str bool) : gmap str bool := <[type := factory]> ds.
Definition create (type : str) (ds : gmap str bool) : bool := default false (ds !! type).

Definition addDriver (r : DriverRegistration) (i : impl) : Status * impl :=
  match dr_type r, dr_factory r with
  | _ :: _, Some f =>
      match state i with
      | Closed => (clientClosed, i)
      | Running => (status_error AlreadyInitialized ($"drivers must be registered before Client::init()"), i)
      | Empty =>
          (status_OK, mkImpl (state i) (registerDriver (dr_type r) f (drivers i)) (mgr i) (cells i) (asyncExecutor i)
             (asyncTimeoutMs i) (sqlAuditEnabled i) (rateLimitEnabled i) (configSource i) (lock i))
      end
  | _, _ => (status_error ConfigError ($"driver registration requires a type and factory"), i)
  end.

(** ** Life cycle *)

Section lifecycle.
(** [hw]: [std::thread::hardware_concurrency()]; [process t]: the registry of the
    process creates a driver for [t]. *)
Context (hw : nat) (process : str -> bool).

Definition known (i : impl) (t : str) : bool := create t (drivers i) || process t.

(** The executor that was dropped, if any, has been told to stop. *)
Definition stop_cell (j : nat) (i : impl) : impl :=
  set_cells (alter (fun c => set_ex (Executor.shutdown (ex c)) c) j (cells i)) i.

Definition configureAsync (c : Config.AsyncConfig) (i : impl) : option nat * impl :=
  let i := set_timeout (Config.as_statement_timeout_ms c) i in
  if negb (Config.as_enabled c) then
    match asyncExecutor i with
    | Some j => (Some j, stop_cell j (set_executor None i))
    | None => (None, i)
    end
  else match asyncExecutor i with
       | Some _ => (None, i)
       | None =>
           let e := Executor.makeThreadPoolExecutor hw (Config.as_threads c) (Z.to_nat (Config.as_queue_size c)) in
           (None, set_executor (Some (length (cells i))) (set_cells (cells i ++ [mkCell e 0 0 0]) i))
       end.

(** The stores after [configureAsync]. *)
Definition store_settings (cfg : Config.GlobalConfig) (source : str) (starts : bool) (i : impl) : impl :=
  mkImpl (if starts then Running else state i) (drivers i) (mgr i) (cells i) (asyncExecutor i) (asyncTimeoutMs i)
    (ac_enabled (Config.sql_audit cfg)) (Gate.rl_enabled (Config.rate_limit cfg)) (if source =s $"file" then 1 else 2)
    (lock i).

(** The shared part of [initResolved] and [reloadResolved]. *)
Definition install (cfg : Config.GlobalConfig) (source : str) (starts : bool) (i : impl) : Status * impl :=
  let '(st, m) := Manager.init (known i) (Topology.reg_config cfg) (mgr i) in
  let i := set_mgr m i in
  if status_ok st then
    match configureAsync (Config.async cfg) i with
    | (None, i) => (st, store_settings cfg source starts i)
    | (Some j, i) => (st, set_lock (Retiring j cfg source starts) i)
    end
  else (st, i).

Definition initResolved (cfg : Config.GlobalConfig) (source : str) (i : impl) : Status * impl :=
  let v := validateAsyncConfig (Config.async cfg) in
  if negb (status_ok v) then (v, i)
  else match state i with
       | Closed => (clientClosed, i)
       | Running => (status_error AlreadyInitialized ($"client is already initialized; use reload()"), i)
       | Empty => install cfg source true i
       end.

Definition reloadResolved (cfg : Config.GlobalConfig) (source : str) (i : impl) : Status * impl :=
  let v := validateAsyncConfig (Config.async cfg) in
  if negb (status_ok v) then (v, i)
  else if negb (status_ok (requireRunning i)) then (requireRunning i, i)
  else install cfg source false i.

(** [init] and [reload] from a file, given what [ConfigLoader::loadFromFile] of Config.v
    answers. *)
Definition init_file (loaded : str + Config.GlobalConfig) (i : impl) : Status * impl :=
  match loaded with inl e => (status_error ConfigError e, i) | inr cfg => initResolved cfg ($"file") i end.
Definition reload_file (loaded : str + Config.GlobalConfig) (i : impl) : Status * impl :=
  match loaded with inl e => (status_error ConfigError e, i) | inr cfg => reloadResolved cfg ($"file") i end.

Definition shutdown (i : impl) : impl :=
  match state i with
  | Running =>
      let i := set_state Closed i in
      match asyncExecutor i with
      | Some j => set_lock (Stopping j) (stop_cell j (set_executor None i))
      | None => set_mgr (Manager.shutdown (mgr i)) i
      end
  | _ => set_state Closed i
  end.

(** [IExecutor::shutdown] returns once its threads are joined. *)
Definition joined (j : nat) (i : impl) : bool :=
  match cells i !! j with
  | Some c => match Executor.closing (ex c) with Executor.CDone => true | _ => false end
  | None => false
  end.

(** The rest of the call that holds the mutex. *)
Definition resume (i : impl) : option impl :=
  match lock i with
  | Free => None
  | Retiring j cfg source starts =>
      if joined j i then Some (set_lock Free (store_settings cfg source starts i)) else None
  | Stopping j => if joined j i then Some (set_lock Free (set_mgr (Manager.shutdown (mgr i)) i)) else None
  end.

Definition isRunning (c : option impl) : bool :=
  match c with Some i => match state i with Running => true | _ => false end | None => false end.

(** ** The registry at run time *)

Inductive admin :=
| AddDataSource (c : Config.DataSourceConfig) (readOnly cursors : bool)
| RemoveDataSource (name : str)
| AddGroup (g : Config.DataSourceGroupConfig) (cursors : bool)
| RemoveGroup (name : str).

(** What [addDataSource], [removeDataSource], [addGroup] and [removeGroup] do once
    [requireRunning] has let them pass. *)
Definition admin_act (a : admin) (i : impl) : Status * impl :=
  let '(st, m) :=
    match a with
    | AddDataSource c ro cu => Manager.addDataSource (known i) (Topology.reg_source c) ro cu (mgr i)
    | RemoveDataSource n => Manager.removeDataSource n (mgr i)
    | AddGroup g cu => Manager.addGroup (Topology.reg_group g) cu (mgr i)
    | RemoveGroup n => Manager.removeGroup n (mgr i)
    end in
  (st, set_mgr m i).

(** The call as a whole, with nothing in between. *)
Definition admin_call (a : admin) (c : option impl) : Status * option impl :=
  match c with
  | None => (clientClosed, None)
  | Some i => if negb (status_ok (requireRunning i)) then (requireRunning i, c)
              else let '(st, i) := admin_act a i in (st, Some i)
  end.

End lifecycle.

(** ** Synchronous calls

    What a data source does with a statement is DataSource.v; here an operation of
    it is an argument, and [out] is the caller's output, which an error of the
    client leaves as it is. *)

Definition on_source {A} (c : option impl) (target source : str) (out : A) (op : Manager.source -> A -> Status * A) : Status * A :=
  match c with
  | None => (clientClosed, out)
  | Some i => match resolve i target source with
              | (_, Some s) => op s out
              | (st, None) => (st, out)
              end
  end.

Definition dataSource (c : option impl) (target name : str) : option Manager.source :=
  match c with None => None | Some i => (resolve i target name).2 end.

(** The operations of a data source the client calls. *)
Record source_ops := mkOps {
  ds_query : Manager.source -> str -> ResultSet -> Status * ResultSet;
  ds_query_params : Manager.source -> str -> Params -> ResultSet -> Status * ResultSet;
  ds_execute : Manager.source -> str -> Z -> Status * Z;
  ds_execute_params : Manager.source -> str -> Params -> Z -> Status * Z;
  ds_queryAll : Manager.source -> str -> list ResultSet -> Status * list ResultSet;
  ds_queryAll_params : Manager.source -> str -> Params -> list ResultSet -> Status * list ResultSet
}.

Section calls.
Context (ops : source_ops) (c : option impl) (target : str).

Definition query (source sql : str) (params : Params) (out : ResultSet) : Status * ResultSet :=
  on_source c target source out (fun s => match params with
    | [] => ds_query ops s sql | _ => ds_query_params ops s sql params end).

Definition execute (source sql : str) (params : Params) (affected : Z) : Status * Z :=
  on_source c target source affected (fun s => match params with
    | [] => ds_execute ops s sql | _ => ds_execute_params ops s sql params end).

Definition queryAll (source sql : str) (params : Params) (out : list ResultSet) : Status * list ResultSet :=
  on_source c target source out (fun s => match params with
    | [] => ds_queryAll ops s sql | _ => ds_queryAll_params ops s sql params end).

(** The overloads that return a result: rows of a failed query are dropped. *)
Definition query_result (source sql : str) (params : Params) : Status * ResultSet :=
  let '(st, rows) := query source sql params rs_empty in
  (st, if status_ok st then rows else rs_empty).

Definition execute_result (source sql : str) (params : Params) : Status * Z := execute source sql params 0.

Definition queryNamed (source sql : str) (params : list (str * Value)) : Status * ResultSet :=
  let bound := bindNamed sql params in
  if negb (status_ok (bq_status bound)) then (bq_status bound, rs_empty)
  else query_result source (bq_sql bound) (bq_params bound).

Definition executeNamed (source sql : str) (params : list (str * Value)) : Status * Z :=
  let bound := bindNamed sql params in
  if status_ok (bq_status bound) then execute source (bq_sql bound) (bq_params bound) 0
  else (bq_status bound, 0%Z).

Definition query_statement (s : Statement) : Status * ResultSet := query_result [] (st_sql s) (st_params s).
Definition execute_statement (s : Statement) : Status * Z := execute [] (st_sql s) (st_params s) 0.

Definition query_build (b : BuildResult) : Status * ResultSet :=
  if negb (status_ok (br_status b)) then (br_status b, rs_empty) else query_statement (br_statement b).

Definition execute_build (b : BuildResult) : Status * Z :=
  if negb (status_ok (br_status b)) then (br_status b, 0%Z) else execute_statement (br_statement b).

End calls.

(** ** What a client keeps *)

Definition waits (h : holder) : option nat :=
  match h with Free => None | Retiring j _ _ _ | Stopping j => Some j end.

(** The executor in use runs, every other one has been told to stop, and has
    stopped unless the holder of the mutex still waits for it; the registry is
    sound; nothing is registered before the first configuration. *)
Record impl_ok (i : impl) : Prop := {
  ok_cells : Forall (fun c => Executor.inv (ex c)) (cells i);
  ok_current : forall j, asyncExecutor i = Some j -> exists c, cells i !! j = Some c /\ Executor.stopping (ex c) = false;
  ok_others : forall j c, cells i !! j = Some c -> asyncExecutor i <> Some j -> Executor.stopping (ex c) = true;
  ok_joined : forall j c, cells i !! j = Some c -> asyncExecutor i <> Some j -> waits (lock i) <> Some j ->
    Executor.closing (ex c) = Executor.CDone;
  ok_lock : match lock i with
            | Free => True
            | Retiring _ _ _ starts => starts = false /\ state i = Running
            | Stopping _ => state i = Closed
            end;
  ok_waits : forall j, waits (lock i) = Some j -> is_Some (cells i !! j);
  ok_dropped : state i <> Running -> asyncExecutor i = None;
  ok_registry : Manager.registry (mgr i);
  ok_live : Manager.live (mgr i);
  ok_empty : state i = Empty -> Manager.pools (mgr i) = ∅ /\ Manager.sources (mgr i) = ∅
}.

Lemma new_ok : impl_ok new_impl.
Proof. by split. Qed.

Lemma cell_inv (i : impl) (j : nat) (c : cell) : impl_ok i -> cells i !! j = Some c -> Executor.inv (ex c).
Proof. intros H Hc. pose proof (ok_cells i H) as HF. rewrite Forall_lookup in HF. by apply (HF j). Qed.

Lemma lookup_alter_cell (f : cell -> cell) (j k : nat) (cs : list cell) (c : cell) :
  alter f j cs !! k = Some c -> exists c0, cs !! k = Some c0 /\ c = (if decide (j = k) then f c0 else c0).
Proof.
  destruct (decide (j = k)) as [->|Hne].
  - rewrite list_lookup_alter_eq. intros (c0 & -> & H)%fmap_Some. eauto.
  - rewrite list_lookup_alter_ne by done. eauto.
Qed.

(** A change of the registry alone, outside the empty state. *)
Lemma mgr_ok (m : Manager.manager) (i : impl) :
  impl_ok i -> Manager.registry m -> Manager.live m ->
  (state i = Empty -> Manager.pools m = ∅ /\ Manager.sources m = ∅) -> impl_ok (set_mgr m i).
Proof. intros [] Hr Hl He. by split. Qed.

(** Dropping the executor: it is told to stop, and somebody waits for it. *)
Lemma retire_ok (i : impl) (j : nat) (h : holder) (s : State) :
  impl_ok i -> asyncExecutor i = Some j -> lock i = Free -> waits h = Some j -> s <> Empty ->
  match h with Free => True | Retiring _ _ _ starts => starts = false /\ s = Running | Stopping _ => s = Closed end ->
  impl_ok (set_lock h (stop_cell j (set_executor None (set_state s i)))).
Proof.
  intros Hi Hj Hf Hw Hs Hh. pose proof Hi as []. split; cbn; try done.
  - apply Forall_lookup. intros k c (c0 & Hc & ->)%lookup_alter_cell. pose proof (cell_inv i k c0 Hi Hc).
    case_decide; [|done]. by apply Executor.shutdown_inv.
  - intros k c (c0 & Hc & ->)%lookup_alter_cell _. case_decide; [apply Executor.shutdown_stopping|].
    apply (ok_others0 k); congruence.
  - intros k c (c0 & Hc & ->)%lookup_alter_cell _ Hk. case_decide; [congruence|].
    apply (ok_joined0 k); [done|congruence|by rewrite Hf].
  - intros k Hk. destruct (ok_current0 j Hj) as (c & Hc & _). assert (k = j) as -> by congruence.
    rewrite list_lookup_alter_eq, Hc. eauto.
Qed.

Lemma init_ok (known : str -> bool) (cfg : Manager.GlobalConfig) (m : Manager.manager) :
  Manager.registry m -> Manager.live m ->
  Manager.registry (Manager.init known cfg m).2 /\ Manager.live (Manager.init known cfg m).2.
Proof. intros Hr Hl. split; [by apply Manager.init_registry|by apply Manager.init_live]. Qed.

(** A configuration is stored: the registry [m], the settings, and with the first
    one the running state. *)
Lemma store_ok (cfg : Config.GlobalConfig) (source : str) (starts : bool) (m : Manager.manager) (t : Z) (i : impl) :
  impl_ok i -> Manager.registry m -> Manager.live m -> state i = (if starts then Empty else Running) -> lock i = Free ->
  impl_ok (store_settings cfg source starts (set_timeout t (set_mgr m i))).
Proof.
  intros Hi Hr Hl Hs Hf. pose proof Hi as []. split; cbn; try done.
  - by rewrite Hf.
  - rewrite Hs. by destruct starts.
  - rewrite Hs. by destruct starts.
Qed.

(** A new executor. *)
Lemma new_cell_ok (hw : nat) (threads : Z) (size : nat) (i : impl) :
  impl_ok i -> asyncExecutor i = None -> state i = Running ->
  impl_ok (set_executor (Some (length (cells i)))
    (set_cells (cells i ++ [mkCell (Executor.makeThreadPoolExecutor hw threads size) 0 0 0]) i)).
Proof.
  intros Hi Hn Hs. pose proof Hi as []. split; cbn; try done.
  - apply Forall_app. split; [done|]. constructor; [apply Executor.init_inv|constructor].
  - intros j [= <-]. eexists. split; [by rewrite lookup_app_r, Nat.sub_diag by lia|done].
  - intros j c Hc Hj. destruct (decide (j < length (cells i))).
    + rewrite lookup_app_l in Hc by lia. apply (ok_others0 j); [done|congruence].
    + apply lookup_lt_Some in Hc as Hlt. rewrite length_app in Hlt. cbn in Hlt. exfalso. apply Hj. f_equal. lia.
  - intros j c Hc Hj. destruct (decide (j < length (cells i))).
    + rewrite lookup_app_l in Hc by lia. apply (ok_joined0 j); [done|congruence].
    + apply lookup_lt_Some in Hc as Hlt. rewrite length_app in Hlt. cbn in Hlt. exfalso. apply Hj. f_equal. lia.
  - intros j Hj. apply lookup_lt_is_Some. rewrite length_app. apply ok_waits0, lookup_lt_is_Some in Hj. lia.
Qed.

Section preserved.
Context (hw : nat) (process : str -> bool).

Lemma install_ok (cfg : Config.GlobalConfig) (source : str) (starts : bool) (i : impl) :
  impl_ok i -> lock i = Free -> state i = (if starts then Empty else Running) ->
  impl_ok (install hw process cfg source starts i).2.
Proof.
  intros Hi Hf Hs. unfold install.
  destruct (init_ok (known process i) (Topology.reg_config cfg) (mgr i) (ok_registry i Hi) (ok_live i Hi)) as [Hr Hl].
  pose proof (Manager.init_failed_keeps (known process i) (Topology.reg_config cfg) (mgr i)) as Hk.
  destruct (Manager.init _ _ _) as [st m]. cbn [fst snd] in Hr, Hl, Hk.
  destruct (status_ok st).
  2:{ apply mgr_ok; try done. intros He. destruct (Hk eq_refl) as (-> & -> & _). by apply (ok_empty i). }
  set (t := Config.as_statement_timeout_ms (Config.async cfg)).
  pose proof (store_ok cfg source starts m t i Hi Hr Hl Hs Hf) as Hst.
  unfold configureAsync. fold t. cbn [asyncExecutor set_timeout set_mgr].
  destruct (Config.as_enabled (Config.async cfg)); cbn [negb]; destruct (asyncExecutor i) as [j|] eqn:Ej; try exact Hst.
  - apply (new_cell_ok hw (Config.as_threads (Config.async cfg)) (Z.to_nat (Config.as_queue_size (Config.async cfg)))) in Hst;
      [exact Hst|done|]. cbn. rewrite Hs. by destruct starts.
  - assert (starts = false) as ->.
    { destruct starts; [|done]. rewrite (ok_dropped i Hi) in Ej by congruence. done. }
    cbn [fst snd]. change (set_executor None (set_timeout t (set_mgr m i))) with
      (set_executor None (set_state (state i) (set_timeout t (set_mgr m i)))).
    apply retire_ok; cbn; try done; try congruence.
    apply (mgr_ok m) in Hi; [|done..|rewrite Hs; done]. by destruct Hi; split.
Qed.

Lemma lifecycle_ok (i : impl) :
  impl_ok i -> lock i = Free ->
  (forall r, impl_ok (addDriver r i).2) /\ (forall cfg src, impl_ok (initResolved hw process cfg src i).2) /\
  (forall cfg src, impl_ok (reloadResolved hw process cfg src i).2) /\ impl_ok (shutdown i).
Proof.
  intros Hi Hf. split_and!.
  - intros r. unfold addDriver. destruct (dr_type r), (dr_factory r); try done. destruct (state i) eqn:Es; try done.
    cbn [snd]. rewrite <- Es. by destruct Hi; split.
  - intros cfg src. unfold initResolved. destruct (negb _); [done|]. destruct (state i) eqn:Es; try done. by apply install_ok.
  - intros cfg src. unfold reloadResolved, requireRunning. destruct (negb _); [done|].
    destruct (state i) eqn:Es; try done. by apply install_ok.
  - unfold shutdown. destruct (state i) eqn:Es.
    + pose proof Hi as []. split; cbn; try done; [by rewrite Hf|intros _; apply ok_dropped0; congruence].
    + cbn. destruct (asyncExecutor i) as [j|] eqn:Ej.
      * by apply retire_ok.
      * pose proof Hi as []. pose proof (Manager.apply_registry Manager.any_driver Manager.EShutdown (mgr i) ok_registry0).
        pose proof (Manager.apply_live Manager.any_driver Manager.EShutdown (mgr i) ok_live0). split; cbn; try done. by rewrite Hf.
    + pose proof Hi as []. split; cbn; try done; [by rewrite Hf|intros _; apply ok_dropped0; congruence].
Qed.

End preserved.

(** ** Steps of an executor *)

Definition is_shutdown {T} (l : Executor.label T) : bool := match l with Executor.AShutdown => true | _ => false end.

Lemma step_flags {T} (l : Executor.label T) (e e' : Executor.exec T) :
  Executor.step l e = Some e' ->
  (is_shutdown l = false -> Executor.stopping e' = Executor.stopping e) /\
  (Executor.stopping e = true -> Executor.closing e = Executor.CDone -> Executor.closing e' = Executor.CDone).
Proof.
  intros H. destruct l; cbn [Executor.step is_shutdown] in *;
    unfold Executor.tryPost, Executor.tryPostContinuation, Executor.postAfter, Executor.shutdown, Executor.worker_section,
      Executor.timer_section, Executor.ensureStartedLocked in H;
    repeat case_match; simplify_eq; cbn; try done; split; intros; try done; try congruence.
Qed.

(** A step of the executor in cell [j], with its counters changed by [f]. *)
Lemma cell_step_ok (l : Executor.label task) (j : nat) (c : cell) (e : Executor.exec task) (f : cell -> cell) (i : impl) :
  impl_ok i -> cells i !! j = Some c -> is_shutdown l = false -> Executor.step l (ex c) = Some e -> (forall c, ex (f c) = e) ->
  impl_ok (set_cells (alter f j (cells i)) i).
Proof.
  intros Hi Hc Hl He Hf. destruct (step_flags l _ _ He) as [Hstop Hdone]. specialize (Hstop Hl).
  pose proof Hi as []. split; cbn; try done.
  - apply Forall_lookup. intros k c' (c0 & Hk & ->)%lookup_alter_cell. case_decide; subst.
    + rewrite Hf. eapply Executor.executor_step_inv; [exact (cell_inv i k c Hi Hc)|exact He].
    + by eapply cell_inv.
  - intros k Hk. destruct (ok_current0 k Hk) as (c0 & Hc0 & Hs). destruct (decide (j = k)) as [->|Hne].
    + exists (f c0). split; [by rewrite list_lookup_alter_eq, Hc0|]. rewrite Hf. congruence.
    + exists c0. split; [by rewrite list_lookup_alter_ne|done].
  - intros k c' (c0 & Hk & ->)%lookup_alter_cell Ha. specialize (ok_others0 k c0 Hk Ha). case_decide; subst; [|done].
    rewrite Hf. congruence.
  - intros k c' (c0 & Hk & ->)%lookup_alter_cell Ha Hw. pose proof (ok_others0 k c0 Hk Ha). specialize (ok_joined0 k c0 Hk Ha Hw).
    case_decide; subst; [|done]. rewrite Hf. apply Hdone; congruence.
  - intros k Hk. apply lookup_lt_is_Some. rewrite length_alter. by apply lookup_lt_is_Some, ok_waits0.
Qed.

(** A change of counters only. *)
Lemma cell_count_ok (j : nat) (f : cell -> cell) (i : impl) :
  impl_ok i -> (forall c, ex (f c) = ex c) -> impl_ok (set_cells (alter f j (cells i)) i).
Proof.
  intros Hi Hf. pose proof Hi as []. split; cbn; try done.
  - apply Forall_lookup. intros k c' (c0 & Hk & ->)%lookup_alter_cell. pose proof (cell_inv i k c0 Hi Hk). case_decide; [by rewrite Hf|done].
  - intros k Hk. destruct (ok_current0 k Hk) as (c0 & Hc0 & Hs). exists (if decide (j = k) then f c0 else c0).
    case_decide; subst; [by rewrite list_lookup_alter_eq, Hc0, Hf|by rewrite list_lookup_alter_ne].
  - intros k c' (c0 & Hk & ->)%lookup_alter_cell Ha. case_decide; [rewrite Hf|]; eauto.
  - intros k c' (c0 & Hk & ->)%lookup_alter_cell Ha Hw. case_decide; [rewrite Hf|]; eauto.
  - intros k Hk. apply lookup_lt_is_Some. rewrite length_alter. by apply lookup_lt_is_Some, ok_waits0.
Qed.

(** ** The rest of a waiting call, and changes of the registry *)

Lemma joined_done (j : nat) (i : impl) :
  joined j i = true -> exists c, cells i !! j = Some c /\ Executor.closing (ex c) = Executor.CDone.
Proof. unfold joined. intros H. destruct (cells i !! j) as [c|]; [|done]. exists c. by destruct (Executor.closing (ex c)). Qed.

(** The holder lets the mutex go once its executor has stopped. *)
Lemma release_ok (i : impl) (j : nat) :
  impl_ok i -> waits (lock i) = Some j -> joined j i = true -> impl_ok (set_lock Free i).
Proof.
  intros Hi Hw (c & Hc & Hd)%joined_done. pose proof Hi as []. split; cbn; try done.
  intros k c' Hk Ha _. destruct (decide (k = j)) as [->|]; [congruence|]. apply (ok_joined0 k); congruence.
Qed.

Lemma resume_ok (i i' : impl) : impl_ok i -> resume i = Some i' -> impl_ok i'.
Proof.
  intros Hi H. unfold resume in H. pose proof (ok_lock i Hi) as Hl. destruct (lock i) as [|j cfg src starts|j] eqn:El; [done|..].
  - destruct (joined j i) eqn:Ej; [|done]. injection H as <-. destruct Hl as [-> Hs].
    assert (Hr : impl_ok (set_lock Free i)) by (eapply (release_ok i j); [done|by rewrite El|done]).
    apply (store_ok cfg src false (mgr i) (asyncTimeoutMs i)) in Hr; try done; apply Hi.
  - destruct (joined j i) eqn:Ej; [|done]. injection H as <-.
    assert (Hr : impl_ok (set_lock Free i)) by (eapply (release_ok i j); [done|by rewrite El|done]).
    apply (mgr_ok (Manager.shutdown (mgr i)) (set_lock Free i)); [done|..|cbn; by rewrite Hl].
    + apply (Manager.apply_registry Manager.any_driver Manager.EShutdown), Hi.
    + apply (Manager.apply_live Manager.any_driver Manager.EShutdown), Hi.
Qed.

Lemma admin_ok (process : str -> bool) (a : admin) (i : impl) :
  impl_ok i -> state i <> Empty -> impl_ok (admin_act process a i).2.
Proof.
  intros Hi Hs. unfold admin_act.
  set (e := match a with
    | AddDataSource c ro cu => Manager.EAddDataSource (Topology.reg_source c) ro cu
    | RemoveDataSource n => Manager.ERemoveDataSource n
    | AddGroup g cu => Manager.EAddGroup (Topology.reg_group g) cu
    | RemoveGroup n => Manager.ERemoveGroup n end).
  pose proof (Manager.apply_registry (known process i) e (mgr i) (ok_registry i Hi)) as Hr.
  pose proof (Manager.apply_live (known process i) e (mgr i) (ok_live i Hi)) as Hl.
  subst e. destruct a; cbn [Manager.apply] in Hr, Hl;
    match goal with |- context [let '(_, _) := ?x in _] => destruct x as [st m] end; by apply mgr_ok.
Qed.

(** ** Calls that reach no data source *)

(** A source that is resolved is registered. *)
Lemma resolve_registered (i : impl) (target requested : str) (st : Status) (s : Manager.source) :
  resolve i target requested = (st, Some s) -> state i = Running /\ exists n, Manager.getDataSource n (mgr i) = Some s.
Proof.
  intros H. unfold resolve, requireRunning in H. destruct (state i); [done| |done]. split; [done|]. cbn in H.
  set (name := match target with [] => requested | _ => target end) in H. clearbody name.
  destruct name as [|a n].
  - unfold Manager.getDefault in H. destruct (Manager.defaultName (mgr i)) as [|b d]; [done|].
    destruct (Manager.getDataSource (b :: d) (mgr i)) eqn:E; [|done]. injection H as <- <-. by exists (b :: d).
  - destruct (Manager.getDataSource (a :: n) (mgr i)) eqn:E; [|done]. injection H as <- <-. by exists (a :: n).
Qed.

(** Unless the client runs, no synchronous call depends on what data sources would do:
    it reports an error and leaves the caller's output alone. *)
Lemma idle_calls (c : option impl) (A : Type) (target source : str) (out : A) (op : Manager.source -> A -> Status * A) :
  isRunning c = false ->
  on_source c target source out op = (match c with Some i => requireRunning i | None => clientClosed end, out) /\
  status_ok (on_source c target source out op).1 = false.
Proof.
  intros H. destruct c as [i|]; [|done]. unfold isRunning, on_source, resolve, requireRunning in *. by destruct (state i).
Qed.

(** Named parameters that do not bind, and statements that were not built, reach no
    data source either. *)
Lemma unbound_calls (ops ops' : source_ops) (c c' : option impl) (target target' source sql : str) (params : list (str * Value)) (b : BuildResult) :
  (status_ok (bq_status (bindNamed sql params)) = false ->
     queryNamed ops c target source sql params = queryNamed ops' c' target' source sql params /\
     executeNamed ops c target source sql params = executeNamed ops' c' target' source sql params /\
     status_ok (queryNamed ops c target source sql params).1 = false) /\
  (status_ok (br_status b) = false ->
     query_build ops c target b = query_build ops' c' target' b /\ execute_build ops c target b = execute_build ops' c' target' b).
Proof.
  split; intros H.
  - unfold queryNamed, executeNamed. rewrite H. cbn. by rewrite H.
  - unfold query_build, execute_build. by rewrite H.
Qed.

End Client.
