(* ===== verification/ClientAsync.v ===== *)
(** * Asynchronous calls of the client

    The submissions of src/client.cpp.  A call runs through [submitQueryAsync],
    [submitExecuteAsync], [submitSessionAsync] or [submitTransactionAsync]: it
    resolves its data source, takes the client's executor and asks the engine of
    AsyncFlow.v; a call the engine does not take goes through [submitAsync], which
    posts it to the executor.  Between any two of these the client may be
    reconfigured or closed by other threads, so every access to shared state is a
    step of its own, and [run] executes any interleaving of calls, life cycle,
    registry changes, operations being stopped and executor threads.

    What the database answers, what the engine delivers, how long it took and which
    status an operation has when its completion is delivered are arguments of the
    steps.  A task of the executor runs in the step that ends it. *)

From S2P Require Import Prelude Types NamedParams SqlBuilder Operation Executor Manager Config Topology AsyncEngine AsyncFlow Client.
Import Client.

Module ClientAsync.

(** ** Calls *)

Inductive kind :=
| KQuery
| KExecute
| KSession (write late : bool)
| KTransaction.

(** A completion: the promise of a future, or one registration of the caller's
    callback.  A controlled one is a [Pending] of [controlledCompletion], which
    lets only the first delivery through. *)
Record promise := mkPromise { p_controlled : bool; p_done : bool; p_got : list Operation.Result }.

(** What a delivery sees of the call's operation. *)
Record view := mkView { v_status : Status; v_native : bool }.

Definition deliver (v : view) (r : Operation.Result) (p : promise) : promise :=
  if p_controlled p then
    if p_done p then p
    else
      let r := if status_ok (v_status v) then r
               else Operation.mkResult (v_status v) (if v_native v then Operation.Native else Operation.CompatibilityFallback) (Operation.payload r) in
      mkPromise true true (p_got p ++ [r])
  else mkPromise false (p_done p) (p_got p ++ [r]).

(** [Result result;] as the stop callback delivers it. *)
Definition no_result : Operation.Result := Operation.mkResult status_OK Operation.Native None.

(** The operation the call runs under: stopped already, fallback allowed. *)
Record control := mkControl { ct_requested : bool; ct_fallback : bool }.

Inductive phase :=
| PResolve
| PExecutor (s : Manager.source)
| PEngine (s : Manager.source) (j : nat)
| PRunning (j : nat) (timeoutMs : Z)
| FResolve
| FExecutor (s : Manager.source)
| FPost (s : Manager.source) (j : nat)
| FQueued (j : nat) (timeoutMs : Z)
| PDone.

(** [c_target] is the data source of the context, [c_pinned] the one the caller
    has resolved already (queries only). *)
Record call := mkCall {
  c_kind : kind;
  c_requested : str;
  c_target : str;
  c_pinned : option Manager.source;
  c_control : option control;
  c_phase : phase;
  c_promises : list promise
}.

Definition set_phase (p : phase) (c : call) : call :=
  mkCall (c_kind c) (c_requested c) (c_target c) (c_pinned c) (c_control c) p (c_promises c).
Definition set_promises (ps : list promise) (c : call) : call :=
  mkCall (c_kind c) (c_requested c) (c_target c) (c_pinned c) (c_control c) (c_phase c) ps.

(** The future the caller holds is that of the last completion; a callback is
    called by every one. *)
Definition future_got (c : call) : list Operation.Result := from_option p_got [] (last (c_promises c)).
Definition callback_got (c : call) : list Operation.Result := concat (map p_got (c_promises c)).

(** A completion for the call; one that is subscribed to an operation that has
    stopped delivers at once. *)
Definition new_promise (controlled : bool) (v : view) (c : call) : call :=
  let p := match c_control c with
           | Some ct => if controlled then
                          let p := mkPromise true false [] in
                          if ct_requested ct then deliver v no_result p else p
                        else mkPromise false false []
           | None => mkPromise false false []
           end in
  set_promises (c_promises c ++ [p]) c.

(** The last completion is called. *)
Definition finish (v : view) (r : Operation.Result) (c : call) : call :=
  set_phase PDone (set_promises (alter (deliver v r) (length (c_promises c) - 1) (c_promises c)) c).

Definition failed (st : Status) : Operation.Result := Operation.mkResult st Operation.CompatibilityFallback None.

Definition async_disabled : Status := status_error ConfigError ($"async execution is disabled for this client").
Definition queue_full : Status :=
  set_retryable true (status_error Overloaded ($"client async executor queue is full or stopped")).

(** [queryAsync] and its siblings on a client that may have been moved from. *)
Inductive entry := Immediate (r : Operation.Result) | Submit (k : kind) (source : str).

Definition async_entry (c : option impl) (k : kind) (source : str) : entry :=
  match c with None => Immediate (failed clientClosed) | Some _ => Submit k source end.

Definition queryAsync (c : option impl) (source : str) : entry := async_entry c KQuery source.
Definition queryAllAsync (c : option impl) (source : str) : entry := async_entry c (KSession false true) source.
Definition executeAsync (c : option impl) (source : str) : entry := async_entry c KExecute source.
Definition executeKeysAsync (c : option impl) (source : str) : entry := async_entry c (KSession true false) source.
Definition queryEachAsync (c : option impl) (source : str) : entry := async_entry c (KSession false true) source.
Definition executeBatchAsync (c : option impl) (source : str) : entry := async_entry c (KSession true false) source.
Definition transactionAsync (c : option impl) (source : str) : entry := async_entry c KTransaction source.

(** Named parameters are bound, and statements must have been built, before anything is
    submitted. *)
Definition queryNamedAsync (c : option impl) (source sql : str) (params : list (str * Value)) : entry :=
  let bound := bindNamed sql params in
  if status_ok (bq_status bound) then queryAsync c source else Immediate (failed (bq_status bound)).
Definition executeNamedAsync (c : option impl) (source sql : str) (params : list (str * Value)) : entry :=
  let bound := bindNamed sql params in
  if status_ok (bq_status bound) then executeAsync c source else Immediate (failed (bq_status bound)).
Definition queryAsync_build (c : option impl) (b : BuildResult) : entry :=
  if status_ok (br_status b) then queryAsync c [] else Immediate (failed (br_status b)).
Definition executeAsync_build (c : option impl) (b : BuildResult) : entry :=
  if status_ok (br_status b) then executeAsync c [] else Immediate (failed (br_status b)).

(** What is reported of the executor, with its three counters. *)
Definition asyncStats (c : option impl) : Executor.ExecutorStats * (nat * nat * nat) :=
  match c ≫= (fun i => asyncExecutor i ≫= (cells i !!.)) with
  | Some x => (Executor.stats (ex x), (natives x, fallbacks x, timeouts x))
  | None => (Executor.mkStats 0 0 0 0 0 0 0, (0, 0, 0))
  end.

(** ** The four submissions

    They take the same steps and differ in whether the completion is registered with the
    operation, in the engine call they make, in what they do with its answer, and in the
    call of [submitAsync] they fall back to. *)

Definition late_result (m : str) (r : Operation.Result) : Operation.Result :=
  Operation.mkResult (set_retryable true (status_error QueryTimeout m)) (Operation.mode r) (Operation.payload r).

(** A result that took [elapsed] nanoseconds is past the timeout. *)
Definition expired (timeoutMs elapsed : Z) : bool := (0 <? timeoutMs)%Z && (timeoutMs * 1000000 <=? elapsed)%Z.

Definition statement_timeout : str := $"operation exceeded client async statement timeout".

(** The completions handed to the engine: the result, and whether it is counted as
    timed out. *)
Definition query_done (timeoutMs elapsed : Z) (r : Operation.Result) : Operation.Result * bool :=
  if expired timeoutMs elapsed then (late_result statement_timeout r, true) else (r, false).

Definition execute_done (timeoutMs elapsed : Z) (r : Operation.Result) : Operation.Result * bool := (r, false).

Definition session_done (lateTimeoutIsError : bool) (timeoutMs elapsed : Z) (r : Operation.Result) : Operation.Result * bool :=
  let r := Operation.mkResult (Operation.status r) Operation.CompatibilityFallback (Operation.payload r) in
  if lateTimeoutIsError && expired timeoutMs elapsed then (late_result statement_timeout r, true) else (r, false).

Definition transaction_done (timeoutMs elapsed : Z) (r : Operation.Result) : Operation.Result * bool :=
  (Operation.mkResult (Operation.status r) Operation.CompatibilityFallback (Operation.payload r), false).

Record submission := mkSubmission {
  sb_controlled : bool;
  sb_engine : AsyncFlow.engine_source -> bool;
  sb_done : Z -> Z -> Operation.Result -> Operation.Result * bool;
  sb_pins : bool;
  sb_late : bool
}.

Definition submitQueryAsync : submission := mkSubmission true (AsyncFlow.engine_takes true) query_done true true.
Definition submitExecuteAsync : submission := mkSubmission true (AsyncFlow.engine_takes true) execute_done false false.
Definition submitSessionAsync (lateTimeoutIsError : bool) : submission :=
  mkSubmission false AsyncFlow.directLeafEligible (session_done lateTimeoutIsError) false lateTimeoutIsError.
Definition submitTransactionAsync : submission := mkSubmission false AsyncFlow.directLeafEligible transaction_done false false.

Definition submission_of (k : kind) : submission :=
  match k with
  | KQuery => submitQueryAsync
  | KExecute => submitExecuteAsync
  | KSession _ late => submitSessionAsync late
  | KTransaction => submitTransactionAsync
  end.

(** ** What the steps do *)

Definition submit (k : kind) (requested target : str) (pinned : option Manager.source) (ct : option control) (v : view) : call :=
  new_promise (sb_controlled (submission_of k)) v
    (mkCall k requested target (match k with KQuery => pinned | _ => None end) ct PResolve []).

(** The data source of a call: pinned, or resolved now. *)
Definition call_source (i : impl) (pinned : option Manager.source) (c : call) : Status + Manager.source :=
  match pinned with
  | Some s => inr s
  | None => match resolve i (c_target c) (c_requested c) with
            | (_, Some s) => inr s
            | (st, None) => inl st
            end
  end.

(** The engine takes a call on [s]; a pool that is closed may linger while somebody
    holds it. *)
Definition engine_accepts (i : impl) (linger : bool) (k : kind) (s : Manager.source) : bool :=
  let open := match Manager.s_pool s with
              | Some p => negb (bool_decide (p ∈ Manager.closed (mgr i))) || linger
              | None => false end in
  sb_engine (submission_of k)
    (AsyncFlow.mkSource (bool_decide (is_Some (Manager.s_primary s))) (bool_decide (is_Some (Manager.s_shadow s))) open).

(** The call of [submitAsync] when the engine has refused: a query passes on the source
    it resolved. *)
Definition refused (s : Manager.source) (v : view) (c : call) : call :=
  new_promise true v (mkCall (c_kind c) (c_requested c) (c_target c) (if sb_pins (submission_of (c_kind c)) then Some s else None)
                        (c_control c) FResolve (c_promises c)).

(** How the operation on the data source ended. *)
Inductive answer := Answered (r : Operation.Result) | Threw (what : option str).

(** The fallback's own test. *)
Definition is_late (k : kind) (timeoutMs elapsed : Z) : bool := sb_late (submission_of k) && expired timeoutMs elapsed.

Definition task_result (k : kind) (timeoutMs elapsed : Z) (a : answer) : Operation.Result :=
  let r := match a with
           | Answered r => Operation.mkResult (Operation.status r) Operation.CompatibilityFallback (Operation.payload r)
           | Threw (Some what) => failed (status_error UnknownError ($"client async operation threw: " ++ what))
           | Threw None => failed (status_error UnknownError ($"client async operation threw an unknown exception"))
           end in
  if is_late k timeoutMs elapsed then
    late_result ($"operation exceeded client async statement timeout; driver cancellation is not available in the future API") r
  else r.

(** The counters of the executor. *)
Definition record_result (native late : bool) (c : cell) : cell :=
  mkCell (ex c) (if native then S (natives c) else natives c) (if native then fallbacks c else S (fallbacks c))
    (if late then S (timeouts c) else timeouts c).

Definition is_native (r : Operation.Result) : bool := match Operation.mode r with Operation.Native => true | _ => false end.

(** ** Worlds and steps *)

(** [admins] are the registry changes that have passed [requireRunning] and not
    acted yet; [late_acts] counts those that acted on a closed client. *)
Record world := mkWorld { im : impl; calls : list call; admins : list (option admin); late_acts : nat }.

Definition set_im (i : impl) (w : world) : world := mkWorld i (calls w) (admins w) (late_acts w).
Definition set_calls (cs : list call) (w : world) : world := mkWorld (im w) cs (admins w) (late_acts w).

Definition new_world : world := mkWorld new_impl [] [] 0.

Inductive label :=
| LAddDriver (r : DriverRegistration)
| LInit (cfg : Config.GlobalConfig) (source : str)
| LReload (cfg : Config.GlobalConfig) (source : str)
| LShutdown
| LResume
| LAdmin (a : admin)
| LAct (n : nat)
| LSubmit (k : kind) (requested target : str) (pinned : option Manager.source) (ct : option control) (v : view)
| LCall (n : nat) (linger : bool) (wake : nat) (v : view)
| LEngine (n : nat) (r : Operation.Result) (elapsed : Z) (v : view)
| LStop (n : nat) (v : view)
| LExec (j : nat) (l : Executor.label task) (a : answer) (elapsed : Z) (v : view).

(** The stop of a call's operation reaches its pending completions: the last one,
    and while the submission has not returned those before it. *)
Definition returned (p : phase) : bool := match p with PRunning _ _ | FQueued _ _ | PDone => true | _ => false end.

Definition stop_call (v : view) (c : call) : call :=
  match c_control c with
  | None => c
  | Some ct =>
      let hit k p := if p_controlled p && (negb (returned (c_phase c)) || (k =? length (c_promises c) - 1))
                     then deliver v no_result p else p in
      mkCall (c_kind c) (c_requested c) (c_target c) (c_pinned c) (Some (mkControl true (ct_fallback ct))) (c_phase c)
        (imap hit (c_promises c))
  end.

(** One step of the thread inside a submission. *)
Definition submit_step (linger : bool) (v : view) (c : call) (i : impl) : option call :=
  match c_phase c with
  | PResolve =>
      match call_source i (c_pinned c) c with
      | inl st => Some (finish v (failed st) c)
      | inr s => Some (set_phase (PExecutor s) c)
      end
  | PExecutor s =>
      match asyncExecutor i with
      | None => Some (finish v (failed async_disabled) c)
      | Some j => Some (set_phase (PEngine s j) c)
      end
  | PEngine s j =>
      if engine_accepts i linger (c_kind c) s then Some (set_phase (PRunning j (asyncTimeoutMs i)) c)
      else Some (refused s v c)
  | _ => None
  end.

(** One step of [submitAsync] for call [n]. *)
Definition submitAsync (n wake : nat) (v : view) (c : call) (i : impl) : option (call * impl) :=
  match c_phase c with
  | FResolve =>
      match call_source i (c_pinned c) c with
      | inl st => Some (finish v (failed st) c, i)
      | inr s => Some (set_phase (FExecutor s) c, i)
      end
  | FExecutor s =>
      match asyncExecutor i with
      | None => Some (finish v (failed async_disabled) c, i)
      | Some j => Some (set_phase (FPost s j) c, i)
      end
  | FPost s j =>
      if match c_control c with Some ct => negb (ct_fallback ct) | None => false end
      then Some (finish v (failed AsyncEngine.needs_native) c, i)
      else
        match cells i !! j with
        | None => None
        | Some x =>
            let '(ok, e) := Executor.tryPost wake (Some (TCall n)) (ex x) in
            let i := set_cells (alter (set_ex e) j (cells i)) i in
            if ok then Some (set_phase (FQueued j (asyncTimeoutMs i)) c, i)
            else Some (finish v (failed queue_full) c, i)
        end
  | _ => None
  end.

Definition thread_step (n : nat) (linger : bool) (wake : nat) (v : view) (c : call) (i : impl) : option (call * impl) :=
  match c_phase c with
  | PResolve | PExecutor _ | PEngine _ _ =>
      match submit_step linger v c i with Some c => Some (c, i) | None => None end
  | _ => submitAsync n wake v c i
  end.

(** The tasks an executor step ends. *)
Definition done_of {T} (l : Executor.label T) (e : Executor.exec T) : list T :=
  match l with
  | Executor.IWorkerDone k _ => from_option Executor.runs [] (Executor.workers e !! k)
  | Executor.ITimerDone _ => Executor.timer_runs (Executor.timer e)
  | Executor.IInlineDone _ => take 1 (Executor.inline e)
  | Executor.ICloserRun _ => take 1 (Executor.closer_runs (Executor.closing e))
  | _ => []
  end.

(** Steps of others than the client: its tasks are posted by the calls, and only the
    client shuts an executor down. *)
Definition is_engine (t : option task) : bool := match t with Some (TCall _) => false | _ => true end.
Definition foreign (l : Executor.label task) : bool :=
  match l with
  | Executor.ATryPost _ t | Executor.ATryPostContinuation _ t | Executor.APostAfter _ _ t => is_engine t
  | Executor.AShutdown => false
  | _ => true
  end.

(** The end of the task of call [n] on executor [j]. *)
Definition task_done (n j : nat) (a : answer) (elapsed : Z) (v : view) (w : world) : world :=
  match calls w !! n with
  | Some c =>
      match c_phase c with
      | FQueued _ timeoutMs =>
          let r := task_result (c_kind c) timeoutMs elapsed a in
          set_im (set_cells (alter (record_result false (is_late (c_kind c) timeoutMs elapsed)) j (cells (im w))) (im w))
            (set_calls (<[n := finish v r c]> (calls w)) w)
      | _ => set_calls (<[n := finish v (task_result (c_kind c) 0 elapsed a) c]> (calls w)) w
      end
  | None => w
  end.

Section steps.
Context (hw : nat) (process : str -> bool).

Definition is_free (h : holder) : bool := match h with Free => true | _ => false end.

(** A call that takes [lifecycleMutex]. *)
Definition with_lifecycle (f : impl -> impl) (w : world) : option world :=
  if is_free (lock (im w)) then Some (set_im (f (im w)) w) else None.

Definition step (l : label) (w : world) : option world :=
  match l with
  | LAddDriver r => with_lifecycle (fun i => (addDriver r i).2) w
  | LInit cfg src => with_lifecycle (fun i => (initResolved hw process cfg src i).2) w
  | LReload cfg src => with_lifecycle (fun i => (reloadResolved hw process cfg src i).2) w
  | LShutdown => with_lifecycle shutdown w
  | LResume => i ← resume (im w); Some (set_im i w)
  | LAdmin a =>
      Some (if status_ok (requireRunning (im w)) then mkWorld (im w) (calls w) (admins w ++ [Some a]) (late_acts w) else w)
  | LAct n =>
      match admins w !! n with
      | Some (Some a) =>
          Some (mkWorld (admin_act process a (im w)).2 (calls w) (<[n := None]> (admins w))
                  (late_acts w + match state (im w) with Closed => 1 | _ => 0 end))
      | _ => None
      end
  | LSubmit k req target pinned ct v => Some (set_calls (calls w ++ [submit k req target pinned ct v]) w)
  | LCall n linger wake v =>
      c ← calls w !! n;
      '(c, i) ← thread_step n linger wake v c (im w);
      Some (set_im i (set_calls (<[n := c]> (calls w)) w))
  | LEngine n r elapsed v =>
      c ← calls w !! n;
      match c_phase c with
      | PRunning j timeoutMs =>
          let '(r, late) := sb_done (submission_of (c_kind c)) timeoutMs elapsed r in
          Some (set_im (set_cells (alter (record_result (is_native r) late) j (cells (im w))) (im w))
                  (set_calls (<[n := finish v r c]> (calls w)) w))
      | _ => None
      end
  | LStop n v => c ← calls w !! n; Some (set_calls (<[n := stop_call v c]> (calls w)) w)
  | LExec j l a elapsed v =>
      x ← cells (im w) !! j;
      if negb (foreign l) then None
      else
        e ← Executor.step l (ex x);
        let w' := set_im (set_cells (alter (set_ex e) j (cells (im w))) (im w)) w in
        Some (foldl (fun w t => match t with TCall n => task_done n j a elapsed v w | TEngine _ => w end) w' (done_of l (ex x)))
  end.

Fixpoint run (ls : list label) (w : world) : option world :=
  match ls with [] => Some w | l :: ls => step l w ≫= run ls end.

End steps.

(** ** Completions *)

(** A completion that has not been called: a stopped operation may have used it up. *)
Definition waiting (p : promise) : Prop :=
  length (p_got p) = if p_controlled p && p_done p then 1 else 0.

Definition settled (p : promise) : Prop := length (p_got p) = 1 /\ (p_controlled p = true -> p_done p = true).

(** The calls as the code leaves them: one completion before the fallback, two after
    it, and the last one has been called exactly when the call is done. *)
Definition call_ok (c : call) : Prop :=
  match c_phase c with
  | PResolve | PExecutor _ | PEngine _ _ | PRunning _ _ => exists p, c_promises c = [p] /\ waiting p
  | FResolve | FExecutor _ | FPost _ _ | FQueued _ _ => exists q p, c_promises c = [q; p] /\ waiting q /\ waiting p
  | PDone => exists qs p, c_promises c = qs ++ [p] /\ length qs <= 1 /\ Forall waiting qs /\ settled p
  end /\ (c_control c = None -> Forall (fun p => p_controlled p = false) (c_promises c)).

Lemma deliver_waiting (v : view) (r : Operation.Result) (p : promise) : waiting p -> settled (deliver v r p).
Proof.
  unfold waiting, settled, deliver. destruct (p_controlled p); cbn; [destruct (p_done p) eqn:E; cbn|];
    rewrite ?length_app; cbn; intros ->; done.
Qed.

Lemma deliver_controlled (v : view) (r : Operation.Result) (p : promise) :
  p_controlled (deliver v r p) = p_controlled p.
Proof. unfold deliver. destruct (p_controlled p) eqn:E; [destruct (p_done p)|]; cbn; congruence. Qed.

(** What a stop delivers to a controlled completion. *)
Lemma stop_waiting (v : view) (p : promise) : p_controlled p = true -> waiting p -> waiting (deliver v no_result p).
Proof.
  intros Hc Hw. destruct (deliver_waiting v no_result p Hw) as [H1 H2]. unfold waiting. rewrite deliver_controlled, Hc in *. by rewrite H1, H2.
Qed.

Lemma stop_settled (v : view) (p : promise) : p_controlled p = true -> settled p -> deliver v no_result p = p.
Proof. intros Hc [_ H]. unfold deliver. by rewrite Hc, H. Qed.

Lemma new_promise_shape (b : bool) (v : view) (c : call) :
  exists p, new_promise b v c = set_promises (c_promises c ++ [p]) c /\ waiting p /\ (c_control c = None -> p_controlled p = false).
Proof.
  unfold new_promise. eexists. split; [done|]. destruct (c_control c) as [ct|]; [|done]. split; [|done].
  destruct b; [|done]. destruct (ct_requested ct); [by apply stop_waiting|done].
Qed.

Lemma submit_ok k req target pinned ct v : call_ok (submit k req target pinned ct v).
Proof.
  unfold submit. match goal with |- context [new_promise ?b v ?c] => destruct (new_promise_shape b v c) as (p & -> & Hw & Hn) end.
  split; cbn in *; [eauto|]. intros H. constructor; [auto|constructor].
Qed.

Lemma refused_ok (s : Manager.source) (j : nat) (v : view) (c : call) : call_ok c -> c_phase c = PEngine s j -> call_ok (refused s v c).
Proof.
  unfold call_ok. intros [H Hc] E. rewrite E in H. destruct H as (q & Hq & Hw). unfold refused.
  match goal with |- context [new_promise ?b v ?c] => destruct (new_promise_shape b v c) as (p & -> & Hp & Hn) end.
  cbn in *. rewrite Hq in *. split; [by exists q, p|]. intros H. specialize (Hc H). constructor; [by inversion Hc|]. constructor; [auto|constructor].
Qed.

(** A call that is not done has its completion waiting. *)
Lemma call_waiting (c : call) :
  call_ok c -> c_phase c <> PDone -> exists qs p, c_promises c = qs ++ [p] /\ length qs <= 1 /\ Forall waiting qs /\ waiting p.
Proof.
  intros [H _] Hp. destruct (c_phase c); try done;
    first [destruct H as (p & -> & Hw); exists [], p|destruct H as (q & p & -> & Hq & Hw); exists [q], p]; split_and!; eauto.
Qed.

Lemma finish_shape (v : view) (r : Operation.Result) (c : call) (qs : list promise) (p : promise) :
  c_promises c = qs ++ [p] -> finish v r c = set_phase PDone (set_promises (qs ++ [deliver v r p]) c).
Proof.
  intros E. unfold finish. rewrite E, length_app. cbn. rewrite Nat.add_sub.
  rewrite alter_app_r_alt by lia. by rewrite Nat.sub_diag.
Qed.

Lemma finish_ok (v : view) (r : Operation.Result) (c : call) : call_ok c -> c_phase c <> PDone -> call_ok (finish v r c).
Proof.
  intros Hok Hp. destruct (call_waiting c Hok Hp) as (qs & p & E & Hl & Hq & Hw). rewrite (finish_shape v r c qs p E).
  destruct Hok as [_ Hc]. rewrite E in Hc. split; cbn.
  - exists qs, (deliver v r p). split_and!; try done. by apply deliver_waiting.
  - intros Hn. specialize (Hc Hn). apply Forall_app in Hc as [H1 H2]. apply Forall_app. split; [done|].
    constructor; [|constructor]. rewrite deliver_controlled. by inversion H2.
Qed.

Lemma finish_phase (v : view) (r : Operation.Result) (c : call) : c_phase (finish v r c) = PDone.
Proof. done. Qed.

(** A stop of the operation. *)
Lemma stop_ok (v : view) (c : call) : call_ok c -> call_ok (stop_call v c) /\ c_phase (stop_call v c) = c_phase c.
Proof.
  intros Hok. unfold stop_call. destruct (c_control c) as [ct|] eqn:Ec; [|done]. split; [|done].
  destruct Hok as [H _]. split; cbn; [|done].
  assert (Hw : forall b p, waiting p -> waiting (if p_controlled p && b then deliver v no_result p else p)).
  { intros b p Hp. destruct (p_controlled p) eqn:E; [|done]. destruct b; [|done]. by apply stop_waiting. }
  assert (Hs : forall b p, settled p -> settled (if p_controlled p && b then deliver v no_result p else p)).
  { intros b p Hp. destruct (p_controlled p) eqn:E; [|done]. destruct b; [|done]. by rewrite stop_settled. }
  destruct (c_phase c); cbn [returned negb orb];
    try (destruct H as (p & -> & Hp); cbn; eexists; split; [reflexivity|by apply Hw]);
    try (destruct H as (q & p & -> & Hq & Hp); cbn; eexists _, _; split; [reflexivity|by split; apply Hw]).
  destruct H as (qs & p & -> & Hl & Hq & Hp). destruct qs as [|q [|]]; cbn in *; [..|lia].
  - exists []. eexists. cbn. split_and!; [done|lia|done|by apply Hs].
  - inversion Hq. eexists [_], _. cbn. split_and!; [done|lia|constructor; [by apply Hw|done]|by apply Hs].
Qed.

(** ** Tasks *)

Definition cnt (n : nat) (l : list task) : nat := count_occ task_eq_dec l (TCall n).

Lemma cnt_app (n : nat) (l k : list task) : cnt n (l ++ k) = cnt n l + cnt n k.
Proof. apply count_occ_app. Qed.

Lemma cnt_perm (n : nat) (l k : list task) : l ≡ₚ k -> cnt n l = cnt n k.
Proof. intros H. unfold cnt. by apply Permutation_count_occ. Qed.

Definition posted {T} (l : Executor.label T) : option T :=
  match l with
  | Executor.ATryPost _ t | Executor.ATryPostContinuation _ t | Executor.APostAfter _ _ t => t
  | _ => None
  end.

(** What a step does to the history of an executor. *)
Lemma step_history {T} (l : Executor.label T) (e e' : Executor.exec T) :
  Executor.step l e = Some e' ->
  Executor.finished e' = done_of l e ++ Executor.finished e /\
  (Executor.accepted e' = Executor.accepted e \/ exists t, posted l = Some t /\ Executor.accepted e' = t :: Executor.accepted e).
Proof.
  intros H. destruct l; cbn [Executor.step done_of posted] in *;
    unfold Executor.tryPost, Executor.tryPostContinuation, Executor.postAfter, Executor.shutdown, Executor.worker_section,
      Executor.timer_section, Executor.ensureStartedLocked in H;
    repeat case_match; simplify_eq; cbn; eauto.
Qed.

Lemma tryPost_history {T} (k : nat) (t : T) (e : Executor.exec T) :
  let '(ok, e') := Executor.tryPost k (Some t) e in
  Executor.finished e' = Executor.finished e /\
  Executor.accepted e' = (if ok then [t] else []) ++ Executor.accepted e.
Proof. unfold Executor.tryPost, Executor.ensureStartedLocked. repeat case_match; simplify_eq; done. Qed.

(** The steps of others post no call. *)
Lemma foreign_posts (l : Executor.label task) (n : nat) : foreign l = true -> posted l <> Some (TCall n).
Proof. destruct l; cbn; try done; intros H ->; done. Qed.

Lemma foreign_cnt (l : Executor.label task) (e e' : Executor.exec task) (n : nat) :
  foreign l = true -> Executor.step l e = Some e' ->
  cnt n (Executor.accepted e') = cnt n (Executor.accepted e) /\
  cnt n (Executor.finished e') = cnt n (done_of l e) + cnt n (Executor.finished e).
Proof.
  intros Hf H. destruct (step_history l e e' H) as [Hd Ha]. rewrite Hd, cnt_app. split; [|done].
  destruct Ha as [->|(t & Ht & ->)]; [done|]. destruct t as [k|k]; [by apply foreign_posts with (n := k) in Hf|]. done.
Qed.

Lemma finished_held (e : Executor.exec task) (n : nat) :
  Executor.inv e -> cnt n (Executor.finished e) <= cnt n (Executor.accepted e).
Proof.
  intros Hi. rewrite (cnt_perm n _ _ (Executor.inv_tasks e Hi)). unfold Executor.held. rewrite !cnt_app. lia.
Qed.

(** A call is only ever in the queue or on a worker; the rest belongs to the
    engine. *)
Definition aside (e : Executor.exec task) : list task :=
  map Executor.dtask (Executor.delayed e) ++ Executor.timer_runs (Executor.timer e) ++
  Executor.closer_runs (Executor.closing e) ++ Executor.inline e.

Definition engine_only (l : list task) : Prop := Forall (fun t => is_engine (Some t) = true) l.

Lemma engine_nil : engine_only [].
Proof. constructor. Qed.
#[local] Hint Resolve engine_nil : core.

Lemma engine_cnt (l : list task) (n : nat) : engine_only l -> cnt n l = 0.
Proof.
  intros H. apply count_occ_not_In. intros Hin%list_elem_of_In. unfold engine_only in H. rewrite Forall_forall in H. by apply H in Hin.
Qed.

Lemma emplace_tasks (d : Executor.DelayedTask) (q : list (Executor.DelayedTask)) :
  engine_only (map Executor.dtask q) -> is_engine (Some (Executor.dtask d)) = true ->
  engine_only (map Executor.dtask (Executor.emplace d q)).
Proof.
  intros Hq Hd. unfold engine_only. rewrite (Executor.insert_delayed_perm d q). by constructor.
Qed.

Lemma aside_parts (e : Executor.exec task) :
  engine_only (aside e) <->
  engine_only (map Executor.dtask (Executor.delayed e)) /\ engine_only (Executor.timer_runs (Executor.timer e)) /\
  engine_only (Executor.closer_runs (Executor.closing e)) /\ engine_only (Executor.inline e).
Proof. unfold aside, engine_only. by rewrite !Forall_app. Qed.

Lemma shutdown_aside (e : Executor.exec task) : engine_only (aside e) -> engine_only (aside (Executor.shutdown e)).
Proof.
  rewrite !aside_parts. intros (H1 & H2 & H3 & H4). unfold Executor.shutdown. destruct (Executor.stopping e); [done|].
  cbn. split_and!; [by constructor|by destruct (Executor.timer e)|done|done].
Qed.

Lemma post_aside (k : nat) (t : option task) (e : Executor.exec task) :
  engine_only (aside e) -> engine_only (aside (Executor.tryPost k t e).2) /\ engine_only (aside (Executor.tryPostContinuation k t e).2).
Proof.
  rewrite !aside_parts. intros (H1 & H2 & H3 & H4). unfold Executor.tryPost, Executor.tryPostContinuation, Executor.ensureStartedLocked.
  repeat case_match; cbn; split_and!; try done.
Qed.

Lemma timer_aside (now : Z) (e : Executor.exec task) :
  engine_only (map Executor.dtask (Executor.delayed e)) -> engine_only (Executor.timer_runs (Executor.timer e)) ->
  let '(ts, e') := Executor.timer_section now (Executor.timer e) e in
  engine_only (map Executor.dtask (Executor.delayed e')) /\ engine_only (Executor.timer_runs ts) /\
  Executor.closing e' = Executor.closing e /\ Executor.inline e' = Executor.inline e.
Proof.
  intros Hd Ht. unfold Executor.timer_section. destruct (Executor.timer e); try done;
    destruct (Executor.delayed e) as [|d q] eqn:E; repeat case_match; simplify_eq; cbn; rewrite ?E; try done;
    inversion Hd; subst; split_and!; try done; by constructor.
Qed.

Lemma step_aside (l : Executor.label task) (e e' : Executor.exec task) :
  foreign l = true -> Executor.step l e = Some e' -> engine_only (aside e) -> engine_only (aside e').
Proof.
  intros Hf H Ha. pose proof Ha as (H1 & H2 & H3 & H4)%aside_parts. destruct l as [k t|k t|now d t| | | |k|k o|now|o|o|o| |]; cbn [Executor.step foreign] in *; try done.
  - injection H as <-. by apply post_aside.
  - injection H as <-. by apply post_aside.
  - destruct t as [t|]; injection H as <-; [|done]. unfold Executor.postAfter, Executor.ensureStartedLocked.
    apply aside_parts. repeat case_match; cbn; split_and!; try done; try (by constructor); try (by apply emplace_tasks);
      by destruct (Executor.timer e).
  - repeat case_match; by simplify_eq.
  - apply aside_parts. repeat case_match; simplify_eq; done.
  - unfold Executor.worker_section in H. apply aside_parts. repeat case_match; simplify_eq; done.
  - apply aside_parts. repeat case_match; simplify_eq; done.
  - pose proof (timer_aside now e H1 H2) as Ht. apply aside_parts.
    destruct (Executor.timer e) eqn:E; try done; destruct (Executor.timer_section _ _ _) as [ts e1]; injection H as <-; cbn;
      destruct Ht as (? & ? & -> & ->); done.
  - apply aside_parts. repeat case_match; simplify_eq; done.
  - apply aside_parts. destruct (Executor.inline e) as [|t q]; [done|]. injection H as <-. cbn. split_and!; try done. by inversion H4.
  - apply aside_parts. destruct (Executor.closing e) as [|[|t q]| | |]; try done; injection H as <-; cbn; split_and!; try done. by inversion H3.
  - apply aside_parts. repeat case_match; simplify_eq; done.
  - apply aside_parts. repeat case_match; simplify_eq; done.
Qed.

(** An executor that has been joined holds no call. *)
Lemma joined_cnt (e : Executor.exec task) (n : nat) :
  Executor.inv e -> Executor.stopping e = true -> Executor.closing e = Executor.CDone -> engine_only (aside e) ->
  cnt n (Executor.accepted e) = cnt n (Executor.finished e).
Proof.
  intros Hi Hs Hc Ha. pose proof Ha as (H1 & H2 & H3 & H4)%aside_parts.
  assert (Hw := Executor.inv_done e Hi Hc). destruct (Executor.exited_all _ Hw) as [Hx Hr].
  assert (Hq : Executor.queue e = []).
  { destruct (Executor.threadsStarted e) eqn:Hst; [|by destruct (Executor.inv_cold e Hi Hst) as (_ & _ & ? & _)].
    destruct (Executor.inv_warm e Hi Hst) as [Hl _]. destruct (Executor.inv_conf e Hi). apply (Executor.inv_exit e Hi). lia. }
  rewrite (cnt_perm n _ _ (Executor.inv_tasks e Hi)). unfold Executor.held. rewrite Hq, Hr, !cnt_app, !engine_cnt by done. done.
Qed.

(** ** The invariant *)

Definition queued_at (c : call) (j : nat) : nat :=
  match c_phase c with FQueued k _ => if decide (k = j) then 1 else 0 | _ => 0 end.

Definition queued (w : world) (n j : nat) : nat := from_option (fun c => queued_at c j) 0 (calls w !! n).

(** The executor a call has taken. *)
Definition uses (c : call) : option nat :=
  match c_phase c with PEngine _ j | PRunning j _ | FPost _ j | FQueued j _ => Some j | _ => None end.

Record world_ok (w : world) : Prop := {
  wo_impl : impl_ok (im w);
  wo_calls : forall n c, calls w !! n = Some c -> call_ok c;
  wo_tasks : forall n j x, cells (im w) !! j = Some x ->
    cnt n (Executor.accepted (ex x)) = cnt n (Executor.finished (ex x)) + queued w n j;
  wo_aside : forall j x, cells (im w) !! j = Some x -> engine_only (aside (ex x));
  wo_uses : forall n c j, calls w !! n = Some c -> uses c = Some j -> j < length (cells (im w));
  wo_admins : forall n a, admins w !! n = Some (Some a) -> state (im w) <> Empty;
  wo_closed : state (im w) = Closed -> lock (im w) = Free -> late_acts w = 0 ->
    Manager.pools (mgr (im w)) = ∅ /\ Manager.sources (mgr (im w)) = ∅
}.

Lemma new_world_ok : world_ok new_world.
Proof. by split. Qed.

(** ** Life cycle steps *)

(** The store of executors under a life cycle call: as it was, one executor told to
    stop, or one executor more. *)
Inductive cells_change (cs : list cell) : list cell -> Prop :=
| change_none : cells_change cs cs
| change_stop j : cells_change cs (alter (fun c => set_ex (Executor.shutdown (ex c)) c) j cs)
| change_new hw t s : cells_change cs (cs ++ [mkCell (Executor.makeThreadPoolExecutor hw t s) 0 0 0]).

Lemma cells_change_length (cs cs' : list cell) : cells_change cs cs' -> length cs <= length cs'.
Proof. intros []; rewrite ?length_alter, ?length_app; lia. Qed.

Lemma shutdown_history (e : Executor.exec task) :
  Executor.accepted (Executor.shutdown e) = Executor.accepted e /\ Executor.finished (Executor.shutdown e) = Executor.finished e.
Proof. unfold Executor.shutdown. by destruct (Executor.stopping e). Qed.

Lemma cells_change_lookup (cs cs' : list cell) (j : nat) (x' : cell) :
  cells_change cs cs' -> cs' !! j = Some x' ->
  (exists x, cs !! j = Some x /\ Executor.accepted (ex x') = Executor.accepted (ex x) /\
     Executor.finished (ex x') = Executor.finished (ex x) /\ (engine_only (aside (ex x)) -> engine_only (aside (ex x')))) \/
  (length cs <= j /\ Executor.accepted (ex x') = [] /\ Executor.finished (ex x') = [] /\ engine_only (aside (ex x'))).
Proof.
  intros [|k|hw t s] H.
  - left. eauto 10.
  - left. apply lookup_alter_cell in H as (x & Hx & ->). exists x. split; [done|]. case_decide; [|done]. cbn.
    destruct (shutdown_history (ex x)) as [-> ->]. split_and!; try done. apply shutdown_aside.
  - destruct (decide (j < length cs)); [rewrite lookup_app_l in H by done; left; eauto 10|right].
    rewrite lookup_app_r in H by lia. apply list_lookup_singleton_Some in H as [? <-]. split; [lia|done].
Qed.

(** The world after a change of the client that leaves the calls alone. *)
Lemma lifecycle_world (i : impl) (w : world) :
  world_ok w -> impl_ok i -> cells_change (cells (im w)) (cells i) -> (state (im w) <> Empty -> state i <> Empty) ->
  (state i = Closed -> lock i = Free -> late_acts w = 0 -> Manager.pools (mgr i) = ∅ /\ Manager.sources (mgr i) = ∅) ->
  world_ok (set_im i w).
Proof.
  intros [] Hi Hc Hs Hcl. split; cbn; try done; eauto.
  - intros n j x Hx. destruct (cells_change_lookup _ _ _ _ Hc Hx) as [(x0 & H0 & -> & -> & _)|(Hj & -> & -> & _)]; [by apply wo_tasks0|].
    cbn. unfold queued. cbn. destruct (calls w !! n) as [c|] eqn:E; [|done]. cbn. unfold queued_at.
    destruct (c_phase c) eqn:Ep; try done. case_decide; [|done]. subst.
    assert (j < length (cells (im w))) by (apply (wo_uses0 n c); [done|unfold uses; by rewrite Ep]). lia.
  - intros j x Hx. destruct (cells_change_lookup _ _ _ _ Hc Hx) as [(x0 & H0 & _ & _ & Ha)|(_ & _ & _ & Ha)]; [|done]. apply Ha. eauto.
  - intros n c j Hn Hu. pose proof (cells_change_length _ _ Hc). pose proof (wo_uses0 n c j Hn Hu). lia.
Qed.

Lemma configureAsync_change (hw : nat) (c : Config.AsyncConfig) (i : impl) :
  let '(r, i') := configureAsync hw c i in cells_change (cells i) (cells i') /\ state i' = state i /\ lock i' = lock i.
Proof.
  unfold configureAsync. cbn. repeat case_match; simplify_eq; cbn; split_and!; try done; constructor.
Qed.

Lemma install_change (hw : nat) (process : str -> bool) (cfg : Config.GlobalConfig) (src : str) (starts : bool) (i : impl) :
  let i' := (install hw process cfg src starts i).2 in
  cells_change (cells i) (cells i') /\ (state i' = state i \/ starts = true /\ state i' = Running).
Proof.
  unfold install. destruct (Manager.init _ _ _) as [st m]. destruct (status_ok st); [|split; [constructor|by left]].
  pose proof (configureAsync_change hw (Config.async cfg) (set_mgr m i)) as H.
  destruct (configureAsync hw (Config.async cfg) (set_mgr m i)) as [[j|] i']; cbn; destruct H as (H1 & H2 & _).
  - split; [done|by left].
  - split; [done|]. destruct starts; [by right|by left].
Qed.

Lemma set_im_same (w : world) : set_im (im w) w = w.
Proof. by destruct w. Qed.

Lemma running_test (i : impl) : negb (status_ok (requireRunning i)) = match state i with Running => false | _ => true end.
Proof. unfold requireRunning. by destruct (state i). Qed.

Section invariant.
Context (hw : nat) (process : str -> bool).

Lemma install_world (cfg : Config.GlobalConfig) (src : str) (starts : bool) (w : world) :
  world_ok w -> lock (im w) = Free -> state (im w) = (if starts then Empty else Running) ->
  world_ok (set_im (install hw process cfg src starts (im w)).2 w).
Proof.
  intros Hw Hf Hs. pose proof (install_ok hw process cfg src starts (im w) (wo_impl w Hw) Hf Hs) as Hi.
  destruct (install_change hw process cfg src starts (im w)) as [Hc Hst].
  apply lifecycle_world; try done; rewrite Hs in Hst; destruct starts, Hst as [->|[? ->]]; congruence.
Qed.

Lemma init_world (cfg : Config.GlobalConfig) (src : str) (w : world) :
  world_ok w -> lock (im w) = Free -> world_ok (set_im (initResolved hw process cfg src (im w)).2 w).
Proof.
  intros Hw Hf. unfold initResolved. destruct (negb _); [cbn [snd]; by rewrite set_im_same|].
  destruct (state (im w)) eqn:Es; cbn [snd]; rewrite ?set_im_same; try done. by apply install_world.
Qed.

Lemma reload_world (cfg : Config.GlobalConfig) (src : str) (w : world) :
  world_ok w -> lock (im w) = Free -> world_ok (set_im (reloadResolved hw process cfg src (im w)).2 w).
Proof.
  intros Hw Hf. unfold reloadResolved. destruct (negb _); [cbn [snd]; by rewrite set_im_same|]. rewrite running_test.
  destruct (state (im w)) eqn:Es; cbn [snd]; rewrite ?set_im_same; try done. by apply install_world.
Qed.

Lemma addDriver_world (r : DriverRegistration) (w : world) :
  world_ok w -> lock (im w) = Free -> world_ok (set_im (addDriver r (im w)).2 w).
Proof.
  intros Hw Hf. destruct (lifecycle_ok hw process (im w) (wo_impl w Hw) Hf) as (H1 & _). specialize (H1 r).
  unfold addDriver in *. destruct (dr_type r), (dr_factory r); cbn [snd] in *; rewrite ?set_im_same; try done.
  destruct (state (im w)) eqn:Es; cbn [snd] in *; rewrite ?set_im_same; try done.
  apply lifecycle_world; try done. constructor.
Qed.

Lemma shutdown_world (w : world) : world_ok w -> lock (im w) = Free -> world_ok (set_im (shutdown (im w)) w).
Proof.
  intros Hw Hf. pose proof (wo_impl w Hw) as Hi. destruct (lifecycle_ok hw process (im w) Hi Hf) as (_ & _ & _ & H4).
  apply lifecycle_world; try done; unfold shutdown.
  - destruct (state (im w)); [constructor| |constructor]. cbn. destruct (asyncExecutor (im w)); constructor.
  - intros _. destruct (state (im w)); [done| |done]. cbn. by destruct (asyncExecutor (im w)).
  - destruct (state (im w)) eqn:Es; cbn.
    + intros _ _ _. by apply (ok_empty _ Hi).
    + by destruct (asyncExecutor (im w)).
    + intros _ _. by apply (wo_closed w Hw).
Qed.

Lemma resume_world (i : impl) (w : world) : world_ok w -> resume (im w) = Some i -> world_ok (set_im i w).
Proof.
  intros Hw H. pose proof (resume_ok _ _ (wo_impl w Hw) H) as Hi. pose proof (ok_lock _ (wo_impl w Hw)) as Hl.
  unfold resume in H. destruct (lock (im w)) as [|j cfg src starts|j]; [done|..]; destruct (joined j (im w)); try done; injection H as <-.
  - destruct Hl as [-> Hs]. apply lifecycle_world; try done; [constructor|]. cbn. congruence.
  - apply lifecycle_world; try done. constructor.
Qed.

Lemma admin_world (n : nat) (a : admin) (w : world) :
  world_ok w -> admins w !! n = Some (Some a) ->
  world_ok (mkWorld (admin_act process a (im w)).2 (calls w) (<[n := None]> (admins w))
    (late_acts w + match state (im w) with Closed => 1 | _ => 0 end)).
Proof.
  intros Hw Ha. assert (Hs := wo_admins w Hw n a Ha).
  assert (Hi := admin_ok process a (im w) (wo_impl w Hw) Hs).
  assert (E : state (admin_act process a (im w)).2 = state (im w) /\ cells (admin_act process a (im w)).2 = cells (im w)).
  { unfold admin_act. by match goal with |- context [let '(_, _) := ?x in _] => destruct x end. }
  destruct E as [E1 E2]. destruct Hw. split; cbn; rewrite ?E1, ?E2; try done.
  intros ->. intros. lia.
Qed.

End invariant.

(** ** Steps of calls and executors *)

(** What changes in the cells while the task of call [n] comes ([before] to
    [after] is its place). *)
Definition accounts (n j before after : nat) (x x' : cell) : Prop :=
  (engine_only (aside (ex x)) -> engine_only (aside (ex x'))) /\
  forall m, cnt m (Executor.accepted (ex x')) + cnt m (Executor.finished (ex x)) + (if decide (m = n) then before else 0) =
            cnt m (Executor.finished (ex x')) + cnt m (Executor.accepted (ex x)) + (if decide (m = n) then after else 0).

Lemma accounts_refl (n j k : nat) (x : cell) : accounts n j k k x x.
Proof. split; [done|]. intros m. lia. Qed.

Lemma update_call (n : nat) (c c' : call) (i : impl) (w : world) :
  world_ok w -> calls w !! n = Some c -> call_ok c' -> impl_ok i -> length (cells i) = length (cells (im w)) ->
  (forall j, uses c' = Some j -> j < length (cells i)) ->
  (forall j x', cells i !! j = Some x' -> exists x, cells (im w) !! j = Some x /\ accounts n j (queued_at c j) (queued_at c' j) x x') ->
  state i = state (im w) -> lock i = lock (im w) -> mgr i = mgr (im w) ->
  world_ok (set_im i (set_calls (<[n := c']> (calls w)) w)).
Proof.
  intros [] Hn Hc Hi Hlen Hu Hx Hs Hl Hm. pose proof (lookup_lt_Some _ _ _ Hn) as Hlt. split; cbn; rewrite ?Hs, ?Hl, ?Hm; try done.
  - intros m d Hd. destruct (decide (m = n)) as [->|]; [rewrite list_lookup_insert_eq in Hd by done; congruence|].
    rewrite list_lookup_insert_ne in Hd by done. eauto.
  - intros m j x' Hj. destruct (Hx j x' Hj) as (x & Hj0 & _ & Ha). specialize (Ha m). specialize (wo_tasks0 m j x Hj0).
    unfold queued in *. cbn. destruct (decide (m = n)) as [->|].
    + rewrite list_lookup_insert_eq by done. rewrite Hn in wo_tasks0. cbn in *. lia.
    + rewrite list_lookup_insert_ne by done. lia.
  - intros j x' Hj. destruct (Hx j x' Hj) as (x & Hj0 & Ha & _). eauto.
  - intros m d j Hd Hj. destruct (decide (m = n)) as [->|]; [rewrite list_lookup_insert_eq in Hd by done; simplify_eq; eauto|].
    rewrite list_lookup_insert_ne in Hd by done. rewrite Hlen. eauto.
Qed.

(** A call moves and nothing else does. *)
Lemma move_call (n : nat) (c c' : call) (w : world) :
  world_ok w -> calls w !! n = Some c -> call_ok c' -> (forall j, uses c' = Some j -> j < length (cells (im w))) ->
  (forall j, queued_at c' j = queued_at c j) -> world_ok (set_im (im w) (set_calls (<[n := c']> (calls w)) w)).
Proof.
  intros Hw Hn Hc Hu Hq. eapply update_call; try done; [apply Hw|]. intros j x Hx. exists x. split; [done|]. rewrite Hq. apply accounts_refl.
Qed.

Lemma move_phase (n : nat) (c : call) (p : phase) (w : world) :
  world_ok w -> calls w !! n = Some c -> call_ok (set_phase p c) ->
  (forall j, uses (set_phase p c) = Some j -> j < length (cells (im w))) -> (forall j, queued_at (set_phase p c) j = queued_at c j) ->
  world_ok (set_im (im w) (set_calls (<[n := set_phase p c]> (calls w)) w)).
Proof. intros. by eapply move_call. Qed.

Lemma finish_call (n : nat) (c : call) (v : view) (r : Operation.Result) (w : world) :
  world_ok w -> calls w !! n = Some c -> (forall j, queued_at c j = 0) -> c_phase c <> PDone ->
  world_ok (set_im (im w) (set_calls (<[n := finish v r c]> (calls w)) w)).
Proof.
  intros Hw Hn Hq Hp. eapply move_call; try done. apply finish_ok; [by eapply wo_calls|done].
Qed.

(** The result of a call that reached its executor, with the counters. *)
Lemma record_accounts (n j k : nat) (nat_ late : bool) (x : cell) : accounts n j k k x (record_result nat_ late x).
Proof. split; [done|]. intros m. cbn. lia. Qed.

Lemma record_call (n j : nat) (c : call) (b late : bool) (v : view) (r : Operation.Result) (w : world) :
  world_ok w -> calls w !! n = Some c -> (forall k, queued_at c k = 0) -> c_phase c <> PDone ->
  world_ok (set_im (set_cells (alter (record_result b late) j (cells (im w))) (im w)) (set_calls (<[n := finish v r c]> (calls w)) w)).
Proof.
  intros Hw Hn Hq Hp. eapply update_call; try done.
  - apply finish_ok; [by eapply wo_calls|done].
  - apply cell_count_ok; [apply Hw|done].
  - cbn. by rewrite length_alter.
  - cbn. intros k x' (x & Hx & ->)%lookup_alter_cell. exists x. split; [done|]. rewrite Hq. case_decide; [apply record_accounts|apply accounts_refl].
Qed.

Lemma post_call (n j wake : nat) (c c' : call) (x : cell) (ok : bool) (e : Executor.exec task) (w : world) :
  world_ok w -> calls w !! n = Some c -> cells (im w) !! j = Some x -> (forall k, queued_at c k = 0) ->
  Executor.tryPost wake (Some (TCall n)) (ex x) = (ok, e) -> call_ok c' ->
  (forall k, queued_at c' k = if ok then (if decide (j = k) then 1 else 0) else 0) ->
  (forall k, uses c' = Some k -> k = j) ->
  world_ok (set_im (set_cells (alter (set_ex e) j (cells (im w))) (im w)) (set_calls (<[n := c']> (calls w)) w)).
Proof.
  intros Hw Hn Hx Hq He Hc Hq' Hu. pose proof (tryPost_history wake (TCall n) (ex x)) as Hh. rewrite He in Hh. destruct Hh as [Hf Ha].
  pose proof (post_aside wake (Some (TCall n)) (ex x)) as Hs. rewrite He in Hs. cbn in Hs.
  eapply update_call; try done.
  - apply (cell_step_ok (Executor.ATryPost wake (Some (TCall n))) j x e); try done; [apply Hw|]. cbn [Executor.step]. by rewrite He.
  - cbn. by rewrite length_alter.
  - cbn. rewrite length_alter. intros k ->%Hu. by apply lookup_lt_Some in Hx.
  - cbn. intros k x' (x0 & Hk & ->)%lookup_alter_cell. exists x0. split; [done|]. rewrite Hq, Hq'. case_decide as Hjk.
    + subst k. assert (x0 = x) as -> by congruence. split; [cbn; tauto|]. intros m. cbn. rewrite Hf, Ha, cnt_app.
      destruct ok; cbn; [|lia]. case_decide; subst; cbn; repeat case_match; try lia; congruence.
    + destruct ok; apply accounts_refl.
Qed.

Lemma thread_step_ok (n wake : nat) (linger : bool) (v : view) (c c' : call) (i : impl) (w : world) :
  world_ok w -> calls w !! n = Some c -> thread_step n linger wake v c (im w) = Some (c', i) ->
  world_ok (set_im i (set_calls (<[n := c']> (calls w)) w)).
Proof.
  intros Hw Hn H. pose proof (wo_calls w Hw n c Hn) as Hc. unfold thread_step, submit_step, submitAsync in H.
  assert (Hu : forall j, uses c = Some j -> j < length (cells (im w))) by (intros j; by apply (wo_uses w Hw n c)).
  assert (Hcur : forall j, asyncExecutor (im w) = Some j -> j < length (cells (im w)))
    by (intros j (x & Hx & _)%(ok_current _ (wo_impl w Hw)); by apply lookup_lt_Some in Hx).
  pose proof Hc as [Hsh Hct]. unfold queued_at, uses in *. destruct (c_phase c) as [|s|s j| | |s|s j| |] eqn:Ep; try done.
  - destruct (call_source _ _ _); simplify_eq; [apply finish_call|eapply move_phase]; try done; unfold queued_at; rewrite Ep; done.
  - destruct (asyncExecutor (im w)) as [j|] eqn:Ej; simplify_eq; [eapply move_phase|apply finish_call]; try done;
      unfold uses, queued_at; rewrite ?Ep; done.
  - destruct (engine_accepts _ _ _ _); simplify_eq.
    + eapply move_phase; try done; unfold uses, queued_at; by rewrite ?Ep.
    + eapply move_call; try done; unfold queued_at; rewrite ?Ep; try done. by eapply refused_ok.
  - destruct (call_source _ _ _); simplify_eq; [apply finish_call|eapply move_phase]; try done; unfold queued_at; rewrite Ep; done.
  - destruct (asyncExecutor (im w)) as [j|] eqn:Ej; simplify_eq; [eapply move_phase|apply finish_call]; try done;
      unfold uses, queued_at; rewrite ?Ep; done.
  - assert (Hq : forall k, queued_at c k = 0) by (intros k; unfold queued_at; by rewrite Ep).
    destruct (match c_control c with Some ct => _ | None => false end).
    { simplify_eq. apply finish_call; try done. by rewrite Ep. }
    destruct (cells (im w) !! j) as [x|] eqn:Ex; [|done].
    destruct (Executor.tryPost wake (Some (TCall n)) (ex x)) as [ok e] eqn:Et. destruct ok; simplify_eq.
    + eapply post_call; try done. cbn. congruence.
    + eapply post_call; try done. apply finish_ok; [done|by rewrite Ep].
Qed.

(** A step of an executor that ends no call. *)
Lemma exec_quiet (j : nat) (x : cell) (l : Executor.label task) (e : Executor.exec task) (w : world) :
  world_ok w -> cells (im w) !! j = Some x -> foreign l = true -> Executor.step l (ex x) = Some e ->
  (forall n, cnt n (done_of l (ex x)) = 0) ->
  world_ok (set_im (set_cells (alter (set_ex e) j (cells (im w))) (im w)) w).
Proof.
  intros Hw Hx Hf He Hd. assert (Hsd : is_shutdown l = false) by (by destruct l).
  assert (Hi : impl_ok (set_cells (alter (set_ex e) j (cells (im w))) (im w))).
  { eapply cell_step_ok; try done. apply Hw. }
  destruct Hw. split; cbn; try done.
  - intros n k x' (x0 & Hk & ->)%lookup_alter_cell. specialize (wo_tasks0 n k x0 Hk). case_decide; [|done]. subst k.
    assert (x0 = x) as -> by congruence. destruct (foreign_cnt l _ _ n Hf He) as [E1 E2]. specialize (Hd n). unfold queued in *. cbn. lia.
  - intros k x' (x0 & Hk & ->)%lookup_alter_cell. specialize (wo_aside0 k x0 Hk). case_decide; [|done]. subst k.
    assert (x0 = x) as -> by congruence. by eapply step_aside.
  - intros n c k Hn Hu. rewrite length_alter. eauto.
Qed.

Lemma done_of_short {T} (l : Executor.label T) (e : Executor.exec T) : length (done_of l e) <= 1.
Proof.
  destruct l as [| | | | | | |k o| |o|o|o| |]; cbn; try lia.
  - destruct (Executor.workers e !! k) as [[]|]; cbn; lia.
  - destruct (Executor.timer e); cbn; lia.
  - rewrite length_take. lia.
  - rewrite length_take. lia.
Qed.

(** The executor only ends the task of a call that is queued on it. *)
Lemma ended_queued (j n : nat) (x : cell) (l : Executor.label task) (e : Executor.exec task) (w : world) :
  world_ok w -> cells (im w) !! j = Some x -> foreign l = true -> Executor.step l (ex x) = Some e -> done_of l (ex x) = [TCall n] ->
  exists c t, calls w !! n = Some c /\ c_phase c = FQueued j t.
Proof.
  intros Hw Hx Hf He Hd. pose proof (cell_inv _ _ _ (wo_impl w Hw) Hx) as Hi.
  pose proof (finished_held e n (Executor.executor_step_inv _ _ _ Hi He)) as Hh.
  destruct (foreign_cnt l _ _ n Hf He) as [E1 E2]. pose proof (wo_tasks w Hw n j x Hx) as Hq. rewrite Hd in E2.
  assert (E3 : cnt n [TCall n] = 1) by (unfold cnt; cbn; by case_match). unfold queued in Hq.
  destruct (calls w !! n) as [c|]; cbn in Hq; [|lia]. unfold queued_at in Hq.
  destruct (c_phase c) as [| | | | | | |k t|] eqn:Ep; try lia. case_decide; [subst k; eauto|lia].
Qed.

Lemma exec_ends (j n : nat) (x : cell) (l : Executor.label task) (e : Executor.exec task) (a : answer) (elapsed : Z) (v : view) (w : world) :
  world_ok w -> cells (im w) !! j = Some x -> foreign l = true -> Executor.step l (ex x) = Some e -> done_of l (ex x) = [TCall n] ->
  world_ok (task_done n j a elapsed v (set_im (set_cells (alter (set_ex e) j (cells (im w))) (im w)) w)).
Proof.
  intros Hw Hx Hf He Hd. destruct (ended_queued j n x l e w Hw Hx Hf He Hd) as (c & t & Hn & Ep).
  unfold task_done. cbn. rewrite Hn, Ep. eapply (update_call n c _ _ w); try done.
  - apply finish_ok; [by apply (wo_calls w Hw n)|by rewrite Ep].
  - apply (cell_count_ok j (record_result false _) (set_cells _ (im w))); [|done].
    eapply cell_step_ok; try done; [apply Hw|]. by destruct l.
  - cbn. by rewrite !length_alter.
  - cbn. intros k x' (x1 & Hk & ->)%lookup_alter_cell. apply lookup_alter_cell in Hk as (x0 & Hk & ->). exists x0. split; [done|].
    unfold queued_at. rewrite Ep. cbn [c_phase set_phase finish]. case_decide as Hjk; [|apply accounts_refl].
    subst k. assert (x0 = x) as -> by congruence. split; [cbn; by eapply step_aside|].
    intros m. cbn. destruct (foreign_cnt l _ _ m Hf He) as [E1 E2]. rewrite Hd in E2. unfold cnt in *. cbn in *.
    repeat case_match; repeat case_decide; simplify_eq; try lia; congruence.
Qed.

Section runs.
Context (hw : nat) (process : str -> bool).

Lemma lifecycle_step_ok (f : impl -> impl) (w w' : world) :
  with_lifecycle f w = Some w' -> lock (im w) = Free /\ w' = set_im (f (im w)) w.
Proof. unfold with_lifecycle. destruct (lock (im w)) eqn:El; try done. intros [= <-]. done. Qed.

Lemma admit_ok (a : admin) (w : world) :
  world_ok w -> status_ok (requireRunning (im w)) = true ->
  world_ok (mkWorld (im w) (calls w) (admins w ++ [Some a]) (late_acts w)).
Proof.
  intros [] Hr. split; cbn; try done. intros n b Hb He. unfold requireRunning in Hr. by rewrite He in Hr.
Qed.

Lemma submit_world (c : call) (w : world) :
  world_ok w -> call_ok c -> c_phase c = PResolve -> world_ok (set_calls (calls w ++ [c]) w).
Proof.
  intros [] Hc Hp. assert (Hnew : forall n d, (calls w ++ [c]) !! n = Some d -> calls w !! n = Some d \/ d = c).
  { intros n d [H|[_ H]]%lookup_app_Some; [by left|]. apply list_lookup_singleton_Some in H as [_ <-]. by right. }
  split; cbn; try done.
  - intros n d [H| ->]%Hnew; eauto.
  - intros n j x Hx. rewrite (wo_tasks0 n j x Hx). f_equal. unfold queued. cbn.
    destruct (calls w !! n) as [d|] eqn:E; [by rewrite (lookup_app_l_Some _ _ _ _ E)|].
    destruct ((calls w ++ [c]) !! n) as [d|] eqn:E'; [|done]. apply Hnew in E' as [?| ->]; [congruence|]. cbn. unfold queued_at. by rewrite Hp.
  - intros n d j [H| ->]%Hnew Hu; [eauto|]. unfold uses in Hu. by rewrite Hp in Hu.
Qed.

Lemma exec_ok (j : nat) (x : cell) (l : Executor.label task) (e : Executor.exec task) (a : answer) (elapsed : Z) (v : view) (w : world) :
  world_ok w -> cells (im w) !! j = Some x -> foreign l = true -> Executor.step l (ex x) = Some e ->
  world_ok (foldl (fun w t => match t with TCall n => task_done n j a elapsed v w | TEngine _ => w end)
    (set_im (set_cells (alter (set_ex e) j (cells (im w))) (im w)) w) (done_of l (ex x))).
Proof.
  intros Hw Hx Hf He. pose proof (done_of_short l (ex x)) as Hs.
  destruct (done_of l (ex x)) as [|[n|n] [|]] eqn:Ed; cbn in Hs; try lia; cbn [foldl].
  - eapply exec_quiet; try done. intros n. by rewrite Ed.
  - by eapply exec_ends.
  - eapply exec_quiet; try done. intros m. rewrite Ed. done.
Qed.

Lemma client_step_ok (l : label) (w w' : world) : world_ok w -> step hw process l w = Some w' -> world_ok w'.
Proof.
  intros Hw H. destruct l as [r|cfg src|cfg src| | |a|n|k req tg pin ct v|n linger wake v|n r elapsed v|n v|j l a elapsed v]; cbn [step] in H.
  - apply lifecycle_step_ok in H as [Hf ->]. by apply (addDriver_world hw process).
  - apply lifecycle_step_ok in H as [Hf ->]. by apply init_world.
  - apply lifecycle_step_ok in H as [Hf ->]. by apply reload_world.
  - apply lifecycle_step_ok in H as [Hf ->]. by apply (shutdown_world hw process).
  - apply bind_Some in H as (i & Hr & [= <-]). by apply resume_world.
  - injection H as <-. destruct (status_ok (requireRunning (im w))) eqn:E; [by apply admit_ok|done].
  - destruct (admins w !! n) as [[a|]|] eqn:Ea; try done. injection H as <-. by apply admin_world.
  - injection H as <-. apply submit_world; [done|apply submit_ok|].
    unfold submit, new_promise. by destruct (c_control _).
  - apply bind_Some in H as (c & Hc & H). apply bind_Some in H as ([c' i] & Hs & [= <-]). by eapply thread_step_ok.
  - apply bind_Some in H as (c & Hc & H). destruct (c_phase c) as [| | |j t| | | | |] eqn:Ep; try done.
    destruct (sb_done (submission_of (c_kind c)) t elapsed r) as [r' late]. injection H as <-.
    apply record_call; try done; [|by rewrite Ep]. intros k. unfold queued_at. by rewrite Ep.
  - apply bind_Some in H as (c & Hc & [= <-]). destruct (stop_ok v c (wo_calls w Hw n c Hc)) as [H1 H2].
    assert (E : set_calls (<[n:=stop_call v c]> (calls w)) w = set_im (im w) (set_calls (<[n:=stop_call v c]> (calls w)) w)) by done.
    rewrite E. eapply move_call; try done; unfold uses, queued_at; rewrite ?H2; try done. intros j. apply (wo_uses w Hw n c j Hc).
  - apply bind_Some in H as (x & Hx & H). destruct (foreign l) eqn:Ef; [|done]. cbn in H.
    apply bind_Some in H as (e & He & [= <-]). by apply exec_ok.
Qed.

Lemma client_run_ok (ls : list label) (w w' : world) : world_ok w -> run hw process ls w = Some w' -> world_ok w'.
Proof.
  revert w. induction ls as [|l ls IH]; intros w Hw; cbn [run]; [by intros [= <-]|].
  intros (w1 & H1 & H2)%bind_Some. eapply IH, H2. by eapply client_step_ok.
Qed.

Lemma client_reach_ok (ls : list label) (w : world) : run hw process ls new_world = Some w -> world_ok w.
Proof. apply client_run_ok, new_world_ok. Qed.

End runs.

(** ** What a shutdown leaves *)

(** No call waits in the queue of an executor that has been joined. *)
Lemma joined_unqueued (w : world) (n j : nat) (c : call) (t : Z) :
  world_ok w -> calls w !! n = Some c -> c_phase c = FQueued j t -> joined j (im w) = false.
Proof.
  intros Hw Hn Ep. apply not_true_iff_false. intros (x & Hx & Hd)%joined_done.
  pose proof (cell_inv _ _ _ (wo_impl w Hw) Hx) as Hi.
  assert (Hs : Executor.stopping (ex x) = true).
  { destruct (Executor.stopping (ex x)) eqn:E; [done|]. apply (Executor.inv_open _ Hi) in E. congruence. }
  pose proof (wo_tasks w Hw n j x Hx) as Hq. rewrite (joined_cnt _ n Hi Hs Hd (wo_aside w Hw j x Hx)) in Hq.
  unfold queued in Hq. rewrite Hn in Hq. cbn in Hq. unfold queued_at in Hq. rewrite Ep, decide_True in Hq by done. lia.
Qed.

(** Every executor of a closed client has been told to stop, and all but the one a
    shutdown waits for have been joined. *)
Lemma closed_cells (w : world) (j : nat) (x : cell) :
  world_ok w -> state (im w) = Closed -> cells (im w) !! j = Some x ->
  Executor.stopping (ex x) = true /\ (lock (im w) = Free -> joined j (im w) = true).
Proof.
  intros Hw Hs Hx. pose proof (wo_impl w Hw) as Hi. assert (Ha : asyncExecutor (im w) = None) by (apply (ok_dropped _ Hi); congruence).
  split; [by apply (ok_others _ Hi j x); rewrite ?Ha|]. intros Hf. unfold joined. rewrite Hx.
  by rewrite (ok_joined _ Hi j x Hx) by (by rewrite ?Ha, ?Hf).
Qed.

Lemma closed_unqueued (w : world) (n j : nat) (c : call) (t : Z) :
  world_ok w -> state (im w) = Closed -> lock (im w) = Free -> calls w !! n = Some c -> c_phase c <> FQueued j t.
Proof.
  intros Hw Hs Hf Hn Ep. assert (Hlt := wo_uses w Hw n c j Hn). unfold uses in Hlt. rewrite Ep in Hlt.
  destruct (lookup_lt_is_Some_2 _ _ (Hlt eq_refl)) as [x Hx]. destruct (closed_cells w j x Hw Hs Hx) as [_ Hj].
  by rewrite (joined_unqueued w n j c t) in Hj; [apply Hj in Hf|..].
Qed.

(** ** Progress *)

(** Steps of the client's own threads: its executors, the waiting life cycle call
    and the threads inside calls. *)
Definition own (l : label) : bool :=
  match l with LResume | LCall _ _ _ _ => true | LExec _ l _ _ _ => Executor.internal l | _ => false end.

Lemma internal_foreign (l : Executor.label task) : Executor.internal l = true -> foreign l = true.
Proof. by destruct l. Qed.

(** What the steps of an executor leave alone. *)
Record frame (w w' : world) : Prop := {
  fr_state : state (im w') = state (im w);
  fr_lock : lock (im w') = lock (im w);
  fr_cells : length (cells (im w')) = length (cells (im w));
  fr_calls : length (calls w') = length (calls w)
}.

Lemma frame_refl (w : world) : frame w w.
Proof. done. Qed.

Lemma frame_trans (a b c : world) : frame a b -> frame b c -> frame a c.
Proof. intros [] []. split; congruence. Qed.

Section progress.
Context (hw : nat) (process : str -> bool).

Definition any_view : view := mkView status_OK false.

Lemma client_run_app (ls ls' : list label) (w : world) : run hw process (ls ++ ls') w = run hw process ls w ≫= run hw process ls'.
Proof. revert w. induction ls as [|l ls IH]; intros w; [done|]. cbn. destruct (step hw process l w); [apply IH|done]. Qed.

Lemma exec_step_frame (j : nat) (x : cell) (l : Executor.label task) (e : Executor.exec task) (w : world) :
  cells (im w) !! j = Some x -> foreign l = true -> Executor.step l (ex x) = Some e ->
  exists w' x', step hw process (LExec j l (Threw None) 0 any_view) w = Some w' /\ frame w w' /\ cells (im w') !! j = Some x' /\ ex x' = e.
Proof.
  intros Hx Hf He. cbn [step]. rewrite Hx. cbn. rewrite Hf. cbn. rewrite He. cbn.
  set (w1 := set_im _ w). assert (H1 : frame w w1) by (split; cbn; rewrite ?length_alter; done).
  assert (Hx1 : cells (im w1) !! j = Some (set_ex e x)) by (cbn; by rewrite list_lookup_alter_eq, Hx).
  pose proof (done_of_short l (ex x)) as Hs. destruct (done_of l (ex x)) as [|[n|n] [|]]; cbn in Hs; try lia; cbn [foldl].
  1,3: by exists w1, (set_ex e x).
  unfold task_done. destruct (calls w1 !! n) as [c|] eqn:Ec; [|by exists w1, (set_ex e x)].
  destruct (c_phase c); try (eexists _, (set_ex e x); split_and!; [reflexivity|split; cbn; rewrite ?length_alter, ?length_insert; done|exact Hx1|done]).
  eexists _, _. split_and!; [reflexivity|split; cbn; rewrite ?length_alter, ?length_insert; done| |].
  - cbn. rewrite list_lookup_alter_eq. cbn in Hx1. by rewrite Hx1.
  - done.
Qed.

Lemma exec_run_frame (j : nat) (ks : list (Executor.label task)) (x : cell) (e : Executor.exec task) (w : world) :
  cells (im w) !! j = Some x -> Forall (fun l => Executor.internal l = true) ks -> Executor.run ks (ex x) = Some e ->
  exists ls w' x', Forall (fun l => own l = true) ls /\ run hw process ls w = Some w' /\ frame w w' /\ cells (im w') !! j = Some x' /\ ex x' = e.
Proof.
  revert x w. induction ks as [|k ks IH]; intros x w Hx Hk; cbn [Executor.run].
  - intros [= <-]. exists [], w, x. by split_and!.
  - inversion Hk as [|? ? H1 H2]; subst. intros (e1 & He & Hr)%bind_Some.
    destruct (exec_step_frame j x k e1 w Hx (internal_foreign k H1) He) as (w1 & x1 & Hs & Hf & Hx1 & <-).
    destruct (IH x1 w1 Hx1 H2 Hr) as (ls & w' & x' & Ho & Hrun & Hf' & Hx' & Ee).
    exists (LExec j k (Threw None) 0 any_view :: ls), w', x'. split_and!; try done; [by constructor| |by eapply frame_trans].
    cbn [run]. by rewrite Hs.
Qed.

(** The call that holds the mutex gets it done. *)
Lemma lock_released (w : world) :
  world_ok w -> state (im w) = Closed ->
  exists ls w', Forall (fun l => own l = true) ls /\ run hw process ls w = Some w' /\ state (im w') = Closed /\ lock (im w') = Free /\
    length (calls w') = length (calls w).
Proof.
  intros Hw Hs. pose proof (ok_lock _ (wo_impl w Hw)) as Hl. destruct (lock (im w)) as [|j cfg src st|j] eqn:El.
  - exists [], w. by split_and!.
  - destruct Hl. congruence.
  - destruct (ok_waits _ (wo_impl w Hw) j) as [x Hx]; [by rewrite El|]. destruct (closed_cells w j x Hw Hs Hx) as [Hst _].
    destruct (Executor.stopping_drains (ex x)) as (ks & e & Hk & Hr & Hd); [by eapply cell_inv, Hx; apply Hw|done|].
    destruct (exec_run_frame j ks x e w Hx Hk Hr) as (ls & w1 & x1 & Ho & Hrun & [F1 F2 F3 F4] & Hx1 & <-).
    assert (Hj : joined j (im w1) = true) by (unfold joined; rewrite Hx1; by destruct Hd as [-> _]).
    exists (ls ++ [LResume]). eexists. split_and!.
    + apply Forall_app. split; [done|by repeat constructor].
    + rewrite client_run_app, Hrun. cbn. unfold resume. rewrite F2, El, Hj. reflexivity.
    + cbn. congruence.
    + done.
    + done.
Qed.

(** Steps the thread inside a call has left. *)
Definition rank (c : call) : nat :=
  match c_phase c with
  | PResolve => 6 | PExecutor _ => 5 | PEngine _ _ => 4 | FResolve => 3 | FExecutor _ => 2 | FPost _ _ => 1
  | PRunning _ _ | FQueued _ _ | PDone => 0
  end.

#[local] Arguments rank : simpl never.
Definition ranks (w : world) : nat := sum_list_with rank (calls w).

Lemma refused_rank (s : Manager.source) (v : view) (c : call) : rank (refused s v c) = 3.
Proof. unfold refused, new_promise. by destruct (c_control _). Qed.

Lemma post_refused (k : nat) (t : task) (e : Executor.exec task) :
  Executor.stopping e = true -> Executor.tryPost k (Some t) e = (false, e).
Proof. intros H. unfold Executor.tryPost. by rewrite H. Qed.

Lemma call_moves (n : nat) (c : call) (w : world) :
  world_ok w -> state (im w) = Closed -> calls w !! n = Some c -> 0 < rank c ->
  exists c' i, thread_step n false 0 any_view c (im w) = Some (c', i) /\ rank c' < rank c /\ state i = state (im w) /\ lock i = lock (im w).
Proof.
  intros Hw Hs Hn Hr. assert (Hu := wo_uses w Hw n c). unfold thread_step, submit_step, submitAsync, rank, uses in *.
  assert (Ha : asyncExecutor (im w) = None) by (apply (ok_dropped _ (wo_impl w Hw)); congruence).
  destruct (c_phase c) as [|s|s j| | |s|s j| |] eqn:Ep; try lia.
  - destruct (call_source _ _ _); eexists _, _; split_and!; try done; cbn; lia.
  - rewrite Ha. eexists _, _; split_and!; try done; cbn; lia.
  - destruct (engine_accepts _ _ _ _); eexists _, _; split_and!; try done. change (rank (refused s any_view c) < 4). rewrite refused_rank. lia.
  - destruct (call_source _ _ _); eexists _, _; split_and!; try done; cbn; lia.
  - rewrite Ha. eexists _, _; split_and!; try done; cbn; lia.
  - destruct (match c_control c with Some ct => _ | None => false end); [eexists _, _; split_and!; try done; cbn; lia|].
    destruct (lookup_lt_is_Some_2 _ _ (Hu j Hn eq_refl)) as [x Hx]. rewrite Hx.
    destruct (closed_cells w j x Hw Hs Hx) as [Hst _]. rewrite (post_refused _ _ _ Hst).
    eexists _, _; split_and!; try done; cbn; lia.
Qed.

Lemma ranks_insert (n : nat) (c c' : call) (cs : list call) :
  cs !! n = Some c -> sum_list_with rank (<[n := c']> cs) + rank c = sum_list_with rank cs + rank c'.
Proof.
  revert n. induction cs as [|d cs IH]; intros n H; [done|].
  destruct n as [|n]; [injection H as ->; cbn; lia|]. specialize (IH n H).
  change (rank d + sum_list_with rank (<[n := c']> cs) + rank c = rank d + sum_list_with rank cs + rank c'). lia.
Qed.

Lemma calls_return (w : world) :
  world_ok w -> state (im w) = Closed -> lock (im w) = Free ->
  exists ls w', Forall (fun l => own l = true) ls /\ run hw process ls w = Some w' /\ frame w w' /\ ranks w' = 0.
Proof.
  remember (ranks w) as k eqn:Ek. revert w Ek. induction k as [k IH] using lt_wf_ind. intros w -> Hw Hs Hf.
  destruct (decide (Exists (fun c => 0 < rank c) (calls w))) as [He|He].
  - apply Exists_exists in He as (c & [n Hn]%list_elem_of_lookup & Hr).
    destruct (call_moves n c w Hw Hs Hn Hr) as (c' & i & Hc & Hlt & E1 & E2).
    set (w1 := set_im i (set_calls (<[n := c']> (calls w)) w)).
    assert (H1 : step hw process (LCall n false 0 any_view) w = Some w1) by (cbn; rewrite Hn; cbn; by rewrite Hc).
    assert (Hw1 : world_ok w1) by (by eapply client_step_ok).
    pose proof (ranks_insert n c c' (calls w) Hn) as Hsum.
    assert (F1 : frame w w1).
    { split; cbn; rewrite ?length_insert; try done. unfold thread_step, submit_step, submitAsync in Hc.
      repeat case_match; simplify_eq; cbn; rewrite ?length_alter; done. }
    destruct (IH (ranks w1)) with (w := w1) as (ls & w' & Ho & Hrun & F2 & H0); try done; [unfold ranks; change (calls w1) with (<[n := c']> (calls w)); lia|cbn; congruence..|].
    exists (LCall n false 0 any_view :: ls), w'. split_and!; try done; [by constructor| |by eapply frame_trans]. cbn [run]. by rewrite H1.
  - exists [], w. split_and!; try done.
    unfold ranks. apply not_Exists_Forall in He; [|intros c; apply _]. clear -He. induction (calls w) as [|c cs IHc]; [done|].
    inversion He as [|? ? H1 H2]; subst. unfold compose in H1. cbn. rewrite (IHc H2).
    lia.
Qed.

Lemma ranks_zero (w : world) (n : nat) (c : call) : ranks w = 0 -> calls w !! n = Some c -> rank c = 0.
Proof.
  unfold ranks. generalize (calls w) as cs. intros cs. revert n.
  induction cs as [|d cs IH]; intros n H Hn; [done|]. cbn in H. destruct n as [|n]; [injection Hn as <-; lia|]. apply (IH n); [lia|done].
Qed.

End progress.

(** ** Theorems *)

Lemma call_counts (c : call) :
  call_ok c ->
  Forall (fun p => length (p_got p) <= 1) (c_promises c) /\
  (c_phase c = PDone -> length (future_got c) = 1) /\
  (c_control c = None -> length (callback_got c) = match c_phase c with PDone => 1 | _ => 0 end).
Proof.
  assert (Hw : forall p, waiting p -> length (p_got p) <= 1) by (intros p; unfold waiting; destruct (_ && _); lia).
  assert (Hn : forall p, waiting p -> p_controlled p = false -> p_got p = []).
  { intros p Hp Hc. unfold waiting in Hp. rewrite Hc in Hp. by apply length_zero_iff_nil. }
  intros Hok. pose proof Hok as [_ Hc]. assert (c_phase c = PDone \/ c_phase c <> PDone) as [Ep|Ep] by (destruct (c_phase c); first [by left|by right]).
  - destruct Hok as [H _]. rewrite Ep in *. destruct H as (qs & p & E & _ & Hq & Hp & _). unfold future_got, callback_got. rewrite E in *. split_and!.
    + apply Forall_app. split; [by eapply Forall_impl|]. constructor; [lia|constructor].
    + intros _. by rewrite last_snoc.
    + intros Hn0. specialize (Hc Hn0). apply Forall_app in Hc as [Hc _].
      assert (concat (map p_got qs) = []) as E0.
      { clear E. induction qs as [|q qs IH]; [done|]. inversion Hq; inversion Hc; subst. cbn. rewrite Hn by done. by apply IH. }
      rewrite map_app, concat_app, E0. cbn. by rewrite app_nil_r.
  - destruct (call_waiting c Hok Ep) as (qs & p & E & _ & Hq & Hp). unfold callback_got. rewrite E in *.
    assert (HF : Forall waiting (qs ++ [p])) by (apply Forall_app; split; [done|by constructor]). split_and!; [by eapply Forall_impl|done|].
    intros Hn0. specialize (Hc Hn0). assert (concat (map p_got (qs ++ [p])) = []) as ->.
    { clear E Hq Hp. induction (qs ++ [p]) as [|q l IH]; [done|]. inversion HF; inversion Hc; subst. cbn. rewrite Hn by done. by apply IH. }
    by destruct (c_phase c).
Qed.

(** C4.  In every interleaving of calls, reconfigurations, registry changes, a
    shutdown, stopped operations and executor threads, an asynchronous call
    completes once: no promise is ever set a second time, a call that is done has
    delivered exactly one result to the future the caller holds, and outside an
    operation a callback is called exactly once, when the call is done. *)
Theorem async_calls_settle_once (hw : nat) (process : str -> bool) (ls : list label) (w : world) (n : nat) (c : call) :
  run hw process ls new_world = Some w -> calls w !! n = Some c ->
  Forall (fun p => length (p_got p) <= 1) (c_promises c) /\
  (c_phase c = PDone -> length (future_got c) = 1) /\
  (c_control c = None -> length (callback_got c) = match c_phase c with PDone => 1 | _ => 0 end).
Proof. intros Hr Hn. apply call_counts, (wo_calls w (client_reach_ok hw process ls w Hr) n c Hn). Qed.

(** The life cycle the documentation describes: a successful [init] starts an empty
    client, [shutdown] closes any, nothing else changes the state. *)
Definition life (l : label) (ok : bool) (s : State) : State :=
  match l, s with
  | LInit _ _, Empty => if ok then Running else Empty
  | LShutdown, _ => Closed
  | _, s => s
  end.

Section life.
Context (hw : nat) (process : str -> bool).

(** Whether the [init] of a step succeeds. *)
Definition succeeds (l : label) (w : world) : bool :=
  match l with LInit cfg src => status_ok (initResolved hw process cfg src (im w)).1 | _ => false end.

Lemma install_state (cfg : Config.GlobalConfig) (src : str) (starts : bool) (i : impl) :
  impl_ok i -> state i = (if starts then Empty else Running) ->
  state (install hw process cfg src starts i).2 =
    if starts then (if status_ok (install hw process cfg src starts i).1 then Running else Empty) else state i.
Proof.
  intros Hi Hs. unfold install. destruct (Manager.init _ _ _) as [st m]. destruct (status_ok st) eqn:E; [|cbn; rewrite E, Hs; by destruct starts].
  pose proof (configureAsync_change hw (Config.async cfg) (set_mgr m i)) as H.
  destruct (configureAsync hw (Config.async cfg) (set_mgr m i)) as [[j|] i'] eqn:Ec; cbn; rewrite E; destruct H as (_ & H & _); cbn in H.
  - destruct starts; [|congruence]. exfalso. unfold configureAsync in Ec. cbn in Ec. rewrite (ok_dropped i Hi) in Ec by congruence.
    by destruct (Config.as_enabled (Config.async cfg)).
  - by destruct starts.
Qed.

Lemma exec_state (j : nat) (x : cell) (l : Executor.label task) (a : answer) (elapsed : Z) (v : view) (w : world) :
  state (im (foldl (fun w t => match t with TCall n => task_done n j a elapsed v w | TEngine _ => w end) w (done_of l (ex x)))) = state (im w).
Proof.
  pose proof (done_of_short l (ex x)) as Hsh. destruct (done_of l (ex x)) as [|[n|n] [|]]; cbn in Hsh; try lia; cbn [foldl]; try done.
  unfold task_done. repeat case_match; done.
Qed.

Lemma step_state (l : label) (w w' : world) :
  world_ok w -> step hw process l w = Some w' -> state (im w') = life l (succeeds l w) (state (im w)).
Proof.
  intros Hw H. destruct l as [r|cfg src|cfg src| | |a|n|k req tg pin ct v|n linger wake v|n r elapsed v|n v|j l a elapsed v];
    cbn [step life succeeds] in *.
  - apply lifecycle_step_ok in H as [_ ->]. cbn. unfold addDriver. destruct (dr_type r), (dr_factory r); try done. by destruct (state (im w)) eqn:Es.
  - apply lifecycle_step_ok in H as [_ ->]. cbn. unfold initResolved. destruct (status_ok (validateAsyncConfig _)) eqn:Ev; cbn [negb].
    + destruct (state (im w)) eqn:Es; cbn; try done. by apply (install_state cfg src true (im w)); [apply Hw|].
    + cbn. rewrite Ev. by destruct (state (im w)).
  - apply lifecycle_step_ok in H as [_ ->]. cbn. unfold reloadResolved. rewrite running_test.
    destruct (negb _); [done|]. destruct (state (im w)) eqn:Es; try done. rewrite (install_state cfg src false (im w)); [done|apply Hw|done].
  - apply lifecycle_step_ok in H as [_ ->]. cbn. unfold shutdown. destruct (state (im w)); try done. cbn. by destruct (asyncExecutor (im w)).
  - apply bind_Some in H as (i & Hr & [= <-]). pose proof (ok_lock _ (wo_impl w Hw)) as Hl. unfold resume in Hr.
    destruct (lock (im w)) as [|j cfg src st|j]; [done|..]; destruct (joined j (im w)); try done; injection Hr as <-; [|done].
    by destruct Hl as [-> _].
  - injection H as <-. by destruct (status_ok _).
  - destruct (admins w !! n) as [[a|]|]; try done. injection H as <-. cbn. unfold admin_act.
    by match goal with |- context [let '(_, _) := ?x in _] => destruct x end.
  - by injection H as <-.
  - apply bind_Some in H as (c & Hc & H). apply bind_Some in H as ([c' i] & Hst & [= <-]). cbn. unfold thread_step, submit_step, submitAsync in Hst.
    repeat case_match; simplify_eq; done.
  - apply bind_Some in H as (c & Hc & H). repeat case_match; simplify_eq; done.
  - by apply bind_Some in H as (c & Hc & [= <-]).
  - apply bind_Some in H as (x & Hx & H). destruct (foreign l); [|done]. cbn in H. apply bind_Some in H as (e & He & [= <-]).
    by rewrite exec_state.
Qed.

End life.

(** C13.  The client's steps refine the documented life cycle: it starts empty, only a
    successful [init] makes it run and only from the empty state, [shutdown] closes it
    for good; a failed [init] leaves it empty, with nothing registered, so that it can
    be tried again, and a second [init] of a running client is refused. *)
Theorem client_lifecycle (hw : nat) (process : str -> bool) (ls : list label) (l : label) (w w' : world) :
  run hw process ls new_world = Some w -> step hw process l w = Some w' ->
  state (im w') = life l (succeeds hw process l w) (state (im w)) /\
  (state (im w') = Empty -> Manager.pools (mgr (im w')) = ∅ /\ Manager.sources (mgr (im w')) = ∅ /\ asyncExecutor (im w') = None) /\
  (forall cfg src, state (im w) <> Empty -> status_ok (validateAsyncConfig (Config.async cfg)) = true ->
     (initResolved hw process cfg src (im w)).2 = im w /\
     code_ (initResolved hw process cfg src (im w)).1 = match state (im w) with Running => AlreadyInitialized | _ => ClientClosed end).
Proof.
  intros Hr H. pose proof (client_reach_ok hw process ls w Hr) as Hw. pose proof (wo_impl _ (client_step_ok hw process l w w' Hw H)) as Hi.
  split_and!.
  - by apply step_state.
  - intros He. destruct (ok_empty _ Hi He) as [-> ->]. split_and!; try done. apply (ok_dropped _ Hi). congruence.
  - intros cfg src Hs Hv. unfold initResolved. rewrite Hv. cbn. by destruct (state (im w)).
Qed.

Lemma closed_stays (hw : nat) (process : str -> bool) (l : label) (w w' : world) :
  world_ok w -> state (im w) = Closed -> step hw process l w = Some w' -> state (im w') = Closed.
Proof. intros Hw Hs H. rewrite (step_state hw process l w w' Hw H), Hs. by destruct l. Qed.

(** Pools are closed by a shutdown once nothing is queued. *)
Lemma closing_unqueued (hw : nat) (process : str -> bool) (l : label) (w w' : world) (n j : nat) (c : call) (t : Z) :
  world_ok w -> l = LShutdown \/ l = LResume -> step hw process l w = Some w' -> state (im w') = Closed ->
  Manager.closed (mgr (im w')) <> Manager.closed (mgr (im w)) -> calls w !! n = Some c -> c_phase c <> FQueued j t.
Proof.
  intros Hw Hl H Hs Hne Hn Ep. assert (Hj := joined_unqueued w n j c t Hw Hn Ep). pose proof (wo_impl w Hw) as Hi.
  assert (Hlt := wo_uses w Hw n c j Hn). unfold uses in Hlt. rewrite Ep in Hlt. destruct (lookup_lt_is_Some_2 _ _ (Hlt eq_refl)) as [x Hx].
  assert (Hd : asyncExecutor (im w) = None -> waits (lock (im w)) <> Some j -> joined j (im w) = true).
  { intros Ha Hk. unfold joined. rewrite Hx. by rewrite (ok_joined _ Hi j x Hx) by (by rewrite ?Ha). }
  destruct Hl as [-> | ->]; cbn [step] in H.
  - apply lifecycle_step_ok in H as [Hf ->]. cbn in Hne. unfold shutdown in Hne. destruct (state (im w)) eqn:Es; [done| |done]. cbn in Hne.
    destruct (asyncExecutor (im w)) eqn:Ea; [done|]. rewrite Hd in Hj; [done|done|by rewrite Hf].
  - apply bind_Some in H as (i & Hr & [= <-]). unfold resume in Hr. pose proof (ok_lock _ Hi) as Hk.
    destruct (lock (im w)) as [|k cfg src st|k] eqn:El; [done|..]; destruct (joined k (im w)) eqn:Ej; try done; injection Hr as <-; [done|].
    destruct (decide (k = j)) as [->|]; [congruence|]. rewrite Hd in Hj; [done| |cbn; congruence]. apply (ok_dropped _ Hi). congruence.
Qed.

(** C11.  The documented contract of [shutdown]: it closes pools only when no call is
    queued any more; a closed client stays closed and resolves nothing; and once the
    shutdown has returned nothing is queued and, unless a registry change was under
    way, no data source and no pool is left. *)
Theorem client_shutdown_contract (hw : nat) (process : str -> bool) (ls : list label) (w : world) :
  run hw process ls new_world = Some w ->
  (forall l w' n c j t, l = LShutdown \/ l = LResume -> step hw process l w = Some w' -> state (im w') = Closed ->
     Manager.closed (mgr (im w')) <> Manager.closed (mgr (im w)) -> calls w !! n = Some c -> c_phase c <> FQueued j t) /\
  (state (im w) = Closed ->
     (forall target requested, resolve (im w) target requested = (clientClosed, None)) /\
     (forall l w', step hw process l w = Some w' -> state (im w') = Closed) /\
     (lock (im w) = Free ->
        (forall n c j t, calls w !! n = Some c -> c_phase c <> FQueued j t) /\
        (late_acts w = 0 -> Manager.pools (mgr (im w)) = ∅ /\ Manager.sources (mgr (im w)) = ∅))).
Proof.
  intros Hr. pose proof (client_reach_ok hw process ls w Hr) as Hw. split; [intros; by eapply closing_unqueued|]. intros Hs. split_and!.
  - intros target requested. unfold resolve. rewrite running_test, Hs. unfold requireRunning. by rewrite Hs.
  - intros l w' H. by eapply closed_stays.
  - intros Hf. split; [intros n c j t; by apply closed_unqueued|]. by apply (wo_closed w Hw).
Qed.

(** ** Late results *)

Definition writes (k : kind) : bool := match k with KQuery => false | KExecute | KTransaction => true | KSession write _ => write end.

(**  The timeout of asynchronous statements, for every call the client offers: the
    result of an update, a batch or a transaction is never replaced, however late it
    comes; the result of a read is replaced by a retryable timeout exactly when it comes
    at or after the configured time. *)
Theorem late_results_exact (c : option impl) (source : str) (e : entry) (k : kind) (timeoutMs elapsed : Z) (r : Operation.Result) :
  e ∈ [queryAsync c source; queryAllAsync c source; executeAsync c source; executeKeysAsync c source; queryEachAsync c source;
       executeBatchAsync c source; transactionAsync c source] ->
  e = Submit k source ->
  let late := negb (writes k) && (0 <? timeoutMs)%Z && (timeoutMs * 1000000 <=? elapsed)%Z in
  Forall (fun r' => if late then code_ (Operation.status r') = QueryTimeout /\ retryable (Operation.status r') = true
                    else Operation.status r' = Operation.status r)
    [(sb_done (submission_of k) timeoutMs elapsed r).1; task_result k timeoutMs elapsed (Answered r)].
Proof.
  intros He ->. assert (Hk : sb_late (submission_of k) = negb (writes k)).
  { unfold queryAsync, queryAllAsync, executeAsync, executeKeysAsync, queryEachAsync, executeBatchAsync, transactionAsync, async_entry in He.
    destruct c; [|by repeat (apply elem_of_cons in He as [He|He]; [done|]); apply not_elem_of_nil in He].
    repeat (apply elem_of_cons in He as [He|He]; [injection He as ->; done|]). by apply not_elem_of_nil in He. }
  cbv zeta. unfold task_result, is_late. rewrite Hk.
  assert (E : negb (writes k) && (0 <? timeoutMs)%Z && (timeoutMs * 1000000 <=? elapsed)%Z = negb (writes k) && expired timeoutMs elapsed)
    by (unfold expired; by rewrite andb_assoc). rewrite E.
  destruct k as [| |w l|]; cbn in Hk |- *; unfold query_done, session_done; rewrite ?Hk;
    try destruct w; cbn; destruct (expired timeoutMs elapsed); cbn; repeat constructor.
Qed.

(** C14.  A shutdown cannot hang on the client's own work: from every state of a
    client that is being closed its executors, the shutting down call and the threads
    inside calls reach, without anybody else's help, a state in which the shutdown
    has returned and every call is done, but for those the engine has taken. *)
Theorem closed_client_settles (hw : nat) (process : str -> bool) (ls : list label) (w : world) :
  run hw process ls new_world = Some w -> state (im w) = Closed ->
  exists ls' w', Forall (fun l => own l = true) ls' /\ run hw process ls' w = Some w' /\ lock (im w') = Free /\
    length (calls w') = length (calls w) /\
    forall n c, calls w' !! n = Some c -> c_phase c = PDone \/ exists j t, c_phase c = PRunning j t.
Proof.
  intros Hr Hs. pose proof (client_reach_ok hw process ls w Hr) as Hw.
  destruct (lock_released hw process w Hw Hs) as (l1 & w1 & Ho1 & Hr1 & Hs1 & Hf1 & Hc1).
  assert (Hw1 := client_run_ok hw process l1 w w1 Hw Hr1).
  destruct (calls_return hw process w1 Hw1 Hs1 Hf1) as (l2 & w2 & Ho2 & Hr2 & [F1 F2 F3 F4] & H0).
  assert (Hw2 := client_run_ok hw process l2 w1 w2 Hw1 Hr2).
  exists (l1 ++ l2), w2. split_and!; [by apply Forall_app|by rewrite client_run_app, Hr1|congruence|congruence|].
  intros n c Hn. pose proof (ranks_zero w2 n c H0 Hn) as Hk. unfold rank in Hk. destruct (c_phase c) eqn:Ep; try done; eauto.
  exfalso. eapply (closed_unqueued w2 n j c timeoutMs); try done; congruence.
Qed.

(** ** Samples and consequences *)

Definition mysql_only (t : str) : bool := t =s $"mysql".
Definition quiet : view := mkView status_OK false.
Definition cancelled : view := mkView (status_error Cancelled ($"operation cancelled")) false.

Definition with_sources (default : str) (ds : list Config.DataSourceConfig) (gs : list Config.DataSourceGroupConfig) : Config.GlobalConfig :=
  let c := Config.sample_config in
  Config.mkGlobal default (Config.heartbeat_interval_ms c) (Config.pool c) (Config.retry c) (Config.circuit_breaker c)
    (Config.observability c) (Config.rate_limit c) (Config.sql_audit c) (Config.query_cache c) (Config.cursor c)
    (Config.prepared_cache c) (Config.mkAsync true 1 2 50) (Config.interceptors c) ds gs.

Definition renamed (n : string) (d : Config.DataSourceConfig) : Config.DataSourceConfig :=
  Config.mkDataSource (lit n) (Config.type d) [] 3306 [] [] [] [] [] 5000 0 0 0 false true [] [] [] Config.default_oracle [].

Definition small_config : Config.GlobalConfig := with_sources ($"main") [Config.sample_main; Config.sample_copy] [Config.sample_group].

(** Another configuration, whose group has a shadow that does not exist. *)
Definition shadow_config : Config.GlobalConfig :=
  with_sources ($"other") [renamed "other" Config.sample_main; Config.sample_copy]
    [Config.mkGroup ($"all") ($"other") [Config.mkReplica ($"copy") 1] 0 true false Config.default_failover ($"nowhere")].

Definition call_thread (n k : nat) : list label := replicate k (LCall n false 0 quiet).
Definition worker_step (l : Executor.label task) : label := LExec 0 l (Answered (Operation.mkResult status_OK Operation.Native (Some 7))) 10 quiet.

(** A row callback query on the group, which falls back to the executor, a query the
    engine takes, and a shutdown while the first is queued. *)
Definition sample_labels : list label :=
  [LInit small_config ($"file"); LSubmit (KSession false true) ($"all") [] None None quiet] ++ call_thread 0 6 ++
  [LSubmit KQuery [] [] None None quiet] ++ call_thread 1 3 ++ [LShutdown] ++
  [LEngine 1 (Operation.mkResult status_OK Operation.Native (Some 3)) 60000000 quiet] ++
  map worker_step [Executor.IWorker 0; Executor.IWorkerDone 0 Executor.Returned; Executor.IWorker 0;
              Executor.ITimer 0; Executor.ICloserRun Executor.Returned; Executor.ICloserJoinTimer; Executor.ICloserJoinWorkers] ++ [LResume].

Definition sample_world : world := default new_world (run 2 mysql_only sample_labels new_world).
Definition sample_open : world := default new_world (run 2 mysql_only (take 13 sample_labels) new_world).

Lemma client_sample_runs : run 2 mysql_only sample_labels new_world = Some sample_world.
Proof. vm_compute. reflexivity. Qed.

Lemma sample_open_runs : run 2 mysql_only (take 13 sample_labels) new_world = Some sample_open.
Proof. vm_compute. reflexivity. Qed.

(** Both calls of the sample have their result: the queued one its rows although the
    client was closed meanwhile, the late query a timeout. *)
Lemma async_calls_settle_once_witness :
  exists c d, calls sample_world = [c; d] /\ length (future_got c) = 1 /\ length (future_got d) = 1 /\
    map Operation.payload (future_got c) = [Some 7] /\ map (fun r => code_ (Operation.status r)) (future_got d) = [QueryTimeout].
Proof.
  assert (E : exists c d, calls sample_world = [c; d] /\ c_phase c = PDone /\ c_phase d = PDone /\
    map Operation.payload (future_got c) = [Some 7] /\ map (fun r => code_ (Operation.status r)) (future_got d) = [QueryTimeout])
    by (eexists _, _; vm_compute; done).
  destruct E as (c & d & E & Hc & Hd & H). exists c, d. split; [exact E|].
  destruct (async_calls_settle_once 2 mysql_only sample_labels sample_world 0 c client_sample_runs) as (_ & H1 & _); [by rewrite E|].
  destruct (async_calls_settle_once 2 mysql_only sample_labels sample_world 1 d client_sample_runs) as (_ & H2 & _); [by rewrite E|]. auto.
Defined.

Lemma client_shutdown_contract_witness :
  state (im sample_open) = Closed /\ map c_phase (calls sample_open) = [FQueued 0 50; PRunning 0 50] /\
  resolve (im sample_open) [] ($"main") = (clientClosed, None) /\
  map c_phase (calls sample_world) = [PDone; PDone] /\ Manager.pools (mgr (im sample_world)) = ∅.
Proof.
  split; [by vm_compute|]. split; [by vm_compute|]. split; [|split; [by vm_compute|]].
  - apply (client_shutdown_contract 2 mysql_only (take 13 sample_labels) sample_open sample_open_runs). by vm_compute.
  - apply (client_shutdown_contract 2 mysql_only sample_labels sample_world client_sample_runs); by vm_compute.
Defined.

Lemma late_results_exact_witness :
  let r := Operation.mkResult status_OK Operation.Native (Some 1) in
  queryAsync (Some new_impl) ($"main") = Submit KQuery ($"main") /\
  code_ (Operation.status ((query_done 50 50000000 r).1)) = QueryTimeout /\
  Operation.status ((execute_done 50 90000000 r).1) = status_OK.
Proof.
  split; [done|]. split.
  - pose proof (late_results_exact (Some new_impl) ($"main") _ KQuery 50 50000000 (Operation.mkResult status_OK Operation.Native (Some 1))
      ltac:(apply list_elem_of_here) eq_refl) as H. inversion H as [|? ? H1 _]. exact (proj1 H1).
  - pose proof (late_results_exact (Some new_impl) ($"main") _ KExecute 50 90000000 (Operation.mkResult status_OK Operation.Native (Some 1))
      ltac:(do 2 apply list_elem_of_further; apply list_elem_of_here) eq_refl) as H. inversion H as [|? ? H1 _]. exact H1.
Defined.

Lemma closed_client_settles_witness :
  state (im sample_open) = Closed /\
  exists ls' w', Forall (fun l => own l = true) ls' /\ run 2 mysql_only ls' sample_open = Some w' /\ lock (im w') = Free /\
    length (calls w') = 2 /\ forall n c, calls w' !! n = Some c -> c_phase c = PDone \/ exists j t, c_phase c = PRunning j t.
Proof.
  split; [by vm_compute|].
  exact (closed_client_settles 2 mysql_only (take 13 sample_labels) sample_open sample_open_runs ltac:(by vm_compute)).
Defined.

(** A first [init] that fails at the shadows, and the second try. *)
Definition failed_world : world := default new_world (run 2 mysql_only [LInit shadow_config ($"file")] new_world).
Definition started_world : world := default new_world (step 2 mysql_only (LInit small_config ($"file")) failed_world).

Lemma failed_runs : run 2 mysql_only [LInit shadow_config ($"file")] new_world = Some failed_world.
Proof. vm_compute. reflexivity. Qed.

Lemma started_steps : step 2 mysql_only (LInit small_config ($"file")) failed_world = Some started_world.
Proof. vm_compute. reflexivity. Qed.

Lemma client_lifecycle_witness :
  state (im failed_world) = Empty /\ status_ok (initResolved 2 mysql_only shadow_config ($"file") new_impl).1 = false /\
  succeeds 2 mysql_only (LInit small_config ($"file")) failed_world = true /\ state (im started_world) = Running.
Proof.
  split; [by vm_compute|]. split; [by vm_compute|]. split; [by vm_compute|].
  rewrite (proj1 (client_lifecycle 2 mysql_only _ _ _ _ failed_runs started_steps)). by vm_compute.
Defined.

(** The empty executor of a client that never queued anything is joined. *)
Definition join_idle : list label :=
  map worker_step [Executor.ICloserRun Executor.Returned; Executor.ICloserJoinTimer; Executor.ICloserJoinWorkers] ++ [LResume].

(**  A data source can be registered on a closed client: [addDataSource] tests
    the state before it acts, and no lock keeps a shutdown from coming in between.
    Its pool stays open; shutting the client down again does not close it. *)
Theorem late_registration_outlives_shutdown :
  exists ls w k, run 2 mysql_only ls new_world = Some w /\ state (im w) = Closed /\ lock (im w) = Free /\
    (Manager.pools (mgr (im w)) !! ($"late") = Some k) /\ (k ∉ Manager.closed (mgr (im w))) /\
    resolve (im w) [] ($"late") = (clientClosed, None) /\
    step 2 mysql_only LShutdown w = Some w.
Proof.
  exists ([LInit small_config ($"file"); LAdmin (AddDataSource (renamed "late" Config.sample_main) false true); LShutdown] ++ join_idle ++ [LAct 0]).
  eexists _, _. split; [vm_compute; reflexivity|]. split; [by vm_compute|]. split; [by vm_compute|]. split; [by vm_compute|].
  split; [|split; by vm_compute]. apply (bool_decide_unpack _). by vm_compute.
Qed.

(** C40.  A callback can be called twice: a query whose operation was cancelled has
    told its callback so, and when the engine then refuses the query, because the
    pool of its data source is gone, [submitAsync] registers the callback again with
    the stopped operation. *)
Theorem cancelled_query_calls_back_twice :
  exists ls w c, run 2 mysql_only ls new_world = Some w /\ calls w !! 0 = Some c /\ c_kind c = KQuery /\
    map (fun r => code_ (Operation.status r)) (callback_got c) = [Cancelled; Cancelled] /\ length (future_got c) = 1.
Proof.
  exists ([LInit small_config ($"file"); LAdmin (AddDataSource (renamed "late" Config.sample_main) false true); LAct 0;
      LSubmit KQuery ($"late") [] None (Some (mkControl false true)) quiet] ++ call_thread 0 2 ++
     [LAdmin (RemoveDataSource ($"late")); LAct 1; LStop 0 cancelled; LCall 0 false 0 cancelled]).
  eexists _, _. split_and!; vm_compute; reflexivity.
Qed.

(**  A reload that fails can take a running client's default data source away:
    when only the shadows of the new configuration are wrong, the client reports the
    error and keeps its pools, but the default name is the new one, which is not
    registered. *)
Theorem failed_reload_drops_default :
  exists w i, run 2 mysql_only [LInit small_config ($"file")] new_world = Some w /\
    (resolve (im w) [] []).1 = status_OK /\
    status_ok (reloadResolved 2 mysql_only shadow_config ($"file") (im w)).1 = false /\
    i = (reloadResolved 2 mysql_only shadow_config ($"file") (im w)).2 /\
    state i = Running /\ Manager.pools (mgr i) = Manager.pools (mgr (im w)) /\
    resolve i [] [] = (status_error ConfigError ($"no default datasource"), None).
Proof. eexists _, _. split_and!; [vm_compute; reflexivity..]. Qed.

(**  A reload does not resize the executor: while asynchronous calls stay
    enabled, the threads and the queue of the first configuration remain, whatever
    the new one says. *)
Theorem reload_keeps_executor (hw : nat) (process : str -> bool) (cfg : Config.GlobalConfig) (src : str) (i : impl) (j : nat) :
  asyncExecutor i = Some j -> Config.as_enabled (Config.async cfg) = true ->
  let i' := (reloadResolved hw process cfg src i).2 in asyncExecutor i' = Some j /\ cells i' = cells i.
Proof.
  intros Hj He. unfold reloadResolved, install, configureAsync. rewrite He. cbn.
  destruct (negb _); [done|]. destruct (negb _); [done|].
  destruct (Manager.init _ _ _) as [st m]. destruct (status_ok st); [|done]. cbn. by rewrite Hj.
Qed.

Lemma reload_keeps_executor_witness :
  asyncExecutor (im sample_open) = None /\
  exists w, run 2 mysql_only [LInit small_config ($"file")] new_world = Some w /\
    cells (reloadResolved 2 mysql_only Config.sample_config ($"file") (im w)).2 = cells (im w) /\
    Config.as_queue_size (Config.async Config.sample_config) = 4096%Z /\
    map (fun c => Executor.queueLimit (ex c)) (cells (im w)) = [2].
Proof.
  split; [by vm_compute|]. eexists. split; [vm_compute; reflexivity|]. split; [|split; by vm_compute].
  eapply (reload_keeps_executor 2 mysql_only Config.sample_config ($"file")); by vm_compute.
Defined.

End ClientAsync.
