(* ===== verification/Exporter.v ===== *)
(** * Metrics in the Prometheus text format

    src/exporters/prometheus.cpp.  The text is built line by line; a line is a value here
    and [line_text] writes it.  The blocks of the source that differ only in a metric
    are rows of a table, and one loop goes through it; each row names the flag of the
    source that says whether its metric has been announced, and the state has the flags
    that are set.

    What [operator<<] prints for a quotient of integers as a [double] is an argument. *)

From stdpp Require Import sorting.
From S2P Require Import Prelude Types CacheKey ConnectionPool SqlAuditor Observer.

Module Exporter.

(** ** Labels *)

(** Control characters other than the line feed become question marks. *)
Definition escape_char (c : ascii) : str :=
  if c =c BSLASH then [BSLASH; BSLASH]
  else if c =c DQUOTE then [BSLASH; DQUOTE]
  else if c =c LF then [BSLASH; "n"%char]
  else if (code c <? 32)%N then ["?"%char] else [c].

Definition escapeLabel (s : str) : str := s ≫= escape_char.

Definition label_text (kv : str * str) : str := kv.1 ++ ["="%char; DQUOTE] ++ escapeLabel kv.2 ++ [DQUOTE].

Fixpoint renderLabels (kvs : list (str * str)) : str :=
  match kvs with
  | [] => []
  | [kv] => label_text kv
  | kv :: kvs => label_text kv ++ ","%char :: renderLabels kvs
  end.

(** ** Lines *)

Inductive line :=
| Help (name help : str)
| Type_ (name type : str)
| Metric (name labels value : str).

Definition line_text (l : line) : str :=
  match l with
  | Help n h => $"# HELP " ++ n ++ " "%char :: h ++ [LF]
  | Type_ n t => $"# TYPE " ++ n ++ " "%char :: t ++ [LF]
  | Metric n [] v => n ++ " "%char :: v ++ [LF]
  | Metric n ls v => n ++ ["{"%char] ++ ls ++ $"} " ++ v ++ [LF]
  end.

(** The flags that are set, and the stream. *)
Record out := mkOut { o_flags : list str; o_lines : list line }.

Definition mem_name (n : str) (l : list str) : bool := existsb (fun m => m =s n) l.

Definition put_line (l : line) (o : out) : out := mkOut (o_flags o) (o_lines o ++ [l]).

Definition announce (flag name help type : str) (o : out) : out :=
  if mem_name flag (o_flags o) then o else mkOut (flag :: o_flags o) (o_lines o ++ [Help name help; Type_ name type]).

(** ** Pools *)

Inductive sample_value := Whole (z : Z) | Quotient (a b : Z).

(** A metric with the name of its flag. *)
Record family := mkFamily { f_flag : str; f_suffix : str; f_help : str; f_type : str; f_value : PoolStats -> sample_value }.

Definition gauge : str := $"gauge".
Definition counter : str := $"counter".

Definition pool_families : list family :=
  let c f := fun s => Whole (f (ps_counters s)) in
  [mkFamily ($"conn_emitted") ($"_pool_connections") ($"Current total connections in the pool.") gauge (fun s => Whole (ps_total s));
   mkFamily ($"max_emitted") ($"_pool_connections_max") ($"Configured maximum connections.") gauge (fun s => Whole (ps_max s));
   mkFamily ($"min_emitted") ($"_pool_connections_min") ($"Configured minimum connections.") gauge (fun s => Whole (ps_min s));
   mkFamily ($"idle_emitted") ($"_pool_connections_idle") ($"Idle (free) connections.") gauge (fun s => Whole (ps_idle s));
   mkFamily ($"borrowed_emitted") ($"_pool_connections_borrowed") ($"Currently borrowed connections.") gauge (fun s => Whole (ps_borrowed s));
   mkFamily ($"util_emitted") ($"_pool_utilization_ratio") ($"Pool utilization (borrowed / maxConnections).") gauge
     (fun s => if Z.eqb (ps_max s) 0 then Quotient 0 1 else Quotient (ps_borrowed s) (ps_max s));
   mkFamily ($"waiting_emitted") ($"_pool_waiting") ($"Threads + futures waiting for a connection.") gauge
     (fun s => Whole (wrap_u64 (ps_waiting s + ps_asyncWaiting s)));
   mkFamily ($"req_emitted") ($"_pool_borrow_requests_total") ($"Total borrow attempts.") counter (c borrowRequests);
   mkFamily ($"succ_emitted") ($"_pool_borrow_successes_total") ($"Successful borrows.") counter (c borrowSuccesses);
   mkFamily ($"to_emitted") ($"_pool_borrow_timeouts_total") ($"Borrow timeouts.") counter (c borrowTimeouts);
   mkFamily ($"ccf_emitted") ($"_pool_connection_create_failures_total") ($"Connection create failures.") counter (c connectionCreateFailures);
   mkFamily ($"inv_emitted") ($"_pool_invalidated_connections_total") ($"Connections invalidated by health check.") counter (c invalidatedConnections);
   mkFamily ($"vf_emitted") ($"_pool_validation_failures_total") ($"Validation failures during borrow.") counter (c validationFailures);
   mkFamily ($"leak_emitted") ($"_pool_leak_warnings_total") ($"Connection leak warnings emitted.") counter (c leakWarnings);
   mkFamily ($"iev_emitted") ($"_pool_idle_evictions_total") ($"Idle-timeout evictions.") counter (c idleEvictions);
   mkFamily ($"lev_emitted") ($"_pool_lifetime_evictions_total") ($"Lifetime evictions.") counter (c lifetimeEvictions);
   mkFamily ($"created_emitted") ($"_pool_connections_created_total") ($"Connections ever created (lifetime).") counter (c connectionsCreated);
   mkFamily ($"closed_emitted") ($"_pool_connections_closed_total") ($"Connections ever closed (lifetime).") counter (c connectionsClosed);
   mkFamily ($"wait_secs_emitted") ($"_pool_borrow_wait_seconds_total") ($"Cumulative borrow wait time in seconds.") counter
     (fun s => Quotient (totalBorrowWait (ps_counters s)) 1000000);
   mkFamily ($"wait_max_emitted") ($"_pool_borrow_wait_seconds_max") ($"Max single borrow wait in seconds.") gauge
     (fun s => Quotient (maxBorrowWait (ps_counters s)) 1000000)].

Section export.
(** [show a b]: the double nearest to [a / b] as [operator<<] prints it. *)
Context (show : Z -> Z -> str) (prefix : str).

Definition value_text (n : sample_value) : str := match n with Whole z => to_string z | Quotient a b => show a b end.

Definition emit_family (labels : str) (s : PoolStats) (f : family) (o : out) : out :=
  let name := prefix ++ f_suffix f in
  put_line (Metric name labels (value_text (f_value f s))) (announce (f_flag f) name (f_help f) (f_type f) o).

Definition emit_pool (np : str * PoolStats) (o : out) : out :=
  let lbl := renderLabels [($"data_source", np.1)] in
  foldl (fun o f => emit_family lbl np.2 f o) o pool_families.

(** ** Slow statements *)

Definition slow_labels (s : Observer.SlowSqlStats) : list (str * str) :=
  [($"data_source", Observer.ss_dataSource s); ($"fingerprint", to_string (Observer.ss_fingerprint s))].

(** The cumulative buckets with their bounds in milliseconds. *)
Fixpoint cumulate (sum : Z) (bounds cells : list Z) : list (Z * Z) :=
  match bounds, cells with
  | b :: bounds, c :: cells => let sum := wrap_u64 (sum + c) in (b, sum) :: cumulate sum bounds cells
  | _, _ => []
  end.

Definition s_count : str := prefix ++ $"_slow_sql_count".
Definition s_err : str := prefix ++ $"_slow_sql_errors".
Definition s_to : str := prefix ++ $"_slow_sql_timeouts".
Definition s_duration : str := prefix ++ $"_slow_sql_duration_seconds".
Definition s_max : str := prefix ++ $"_slow_sql_duration_seconds_max".

Definition emit_slow (s : Observer.SlowSqlStats) (o : out) : out :=
  let lbl := renderLabels (slow_labels s) in
  let bucket le v := Metric (s_duration ++ $"_bucket") (renderLabels (slow_labels s ++ [($"le", le)])) (to_string v) in
  let o := put_line (Metric s_count lbl (to_string (Observer.ss_count s))) (announce ($"count_emitted") s_count ($"Slow SQL occurrence count.") counter o) in
  let o := put_line (Metric s_err lbl (to_string (Observer.ss_errorCount s))) (announce ($"err_emitted") s_err ($"Slow SQL error count.") counter o) in
  let o := put_line (Metric s_to lbl (to_string (Observer.ss_timeoutCount s))) (announce ($"to_emitted_s") s_to ($"Slow SQL timeout count.") counter o) in
  let o := put_line (Metric (s_duration ++ $"_sum") lbl (show (Observer.ss_total s) 1000000))
             (announce ($"duration_family_emitted") s_duration ($"Slow SQL duration histogram in seconds.") ($"histogram") o) in
  let o := put_line (Metric s_max lbl (show (Observer.ss_max s) 1000000))
             (announce ($"max_emitted_s") s_max ($"Max slow SQL duration in seconds.") gauge o) in
  let o := foldl (fun o bv => put_line (bucket (show bv.1 1000) bv.2) o) o
             (cumulate 0 (Observer.ss_buckets s) (Observer.ss_histogram s)) in
  put_line (Metric (s_duration ++ $"_count") lbl (to_string (Observer.ss_count s))) (put_line (bucket ($"+Inf") (Observer.ss_count s)) o).

Definition kPrometheusFingerprintSeriesHardLimit : nat := Z.to_nat 1000.

Definition exported (slow : list Observer.SlowSqlStats) (maxFingerprintLabels : nat) : list Observer.SlowSqlStats :=
  let requested := match maxFingerprintLabels with
                   | O => kPrometheusFingerprintSeriesHardLimit
                   | m => Nat.min m kPrometheusFingerprintSeriesHardLimit end in
  take (Nat.min (length slow) requested) slow.

Definition export_lines (pools : list (str * PoolStats)) (slow : list Observer.SlowSqlStats) (maxFingerprintLabels : nat) : list line :=
  let o := foldl (fun o p => emit_pool p o) (mkOut [] []) pools in
  o_lines (foldl (fun o s => emit_slow s o) o (exported slow maxFingerprintLabels)).

Definition toPrometheusText (pools : list (str * PoolStats)) (slow : list Observer.SlowSqlStats) (maxFingerprintLabels : nat) : str :=
  concat (map line_text (export_lines pools slow maxFingerprintLabels)).

End export.

(** ** Reading labels back *)

(** A scraper's reader of [key="value"] lists. *)
Definition unescape_char (c : ascii) : ascii := if c =c "n"%char then LF else c.

Fixpoint read_value (s : str) : option (str * str) :=
  match s with
  | [] => None
  | c :: s1 =>
      if c =c DQUOTE then Some ([], s1)
      else if c =c BSLASH then
        match s1 with
        | [] => None
        | d :: s2 => '(v, r) ← read_value s2; Some (unescape_char d :: v, r)
        end
      else '(v, r) ← read_value s1; Some (c :: v, r)
  end.

Fixpoint read_key (s : str) : option (str * str) :=
  match s with
  | [] => None
  | c :: s1 => if c =c "="%char then (if head_is DQUOTE s1 then Some ([], tail s1) else None)
               else '(k, r) ← read_key s1; Some (c :: k, r)
  end.

(** One turn per label; the text is shorter after each. *)
Fixpoint read_labels (fuel : nat) (s : str) : option (list (str * str)) :=
  match fuel with
  | O => None
  | S fuel =>
      '(k, r) ← read_key s;
      '(v, r) ← read_value r;
      match r with
      | [] => Some [(k, v)]
      | c :: r => if c =c ","%char then rest ← read_labels fuel r; Some ((k, v) :: rest) else None
      end
  end.

(** What a label value reads back as. *)
Definition shown_char (c : ascii) : ascii := if (code c <? 32)%N && negb (c =c LF) then "?"%char else c.

Definition key_ok (k : str) : Prop := "="%char ∉ k.

Lemma shown_printable (c : ascii) : (code c <? 32)%N = false -> shown_char c = c.
Proof. unfold shown_char. by intros ->. Qed.

Lemma read_value_escape (s rest : str) : read_value (escapeLabel s ++ DQUOTE :: rest) = Some (map shown_char s, rest).
Proof.
  induction s as [|c s IH]; [done|]. unfold escapeLabel in *. cbn [mbind list_bind map]. unfold escape_char at 1.
  destruct (c =c BSLASH) eqn:E1; [apply chr_eqb_true in E1 as ->; cbn in *; by rewrite IH|].
  destruct (c =c DQUOTE) eqn:E2; [apply chr_eqb_true in E2 as ->; cbn in *; by rewrite IH|].
  destruct (c =c LF) eqn:E3; [apply chr_eqb_true in E3 as ->; cbn in *; by rewrite IH|].
  destruct (code c <? 32)%N eqn:E4.
  - assert (shown_char c = "?"%char) as -> by (unfold shown_char; by rewrite E4, E3). cbn in *. by rewrite IH.
  - rewrite (shown_printable c E4). cbn [app]. cbn [read_value]. rewrite E2, E1. cbn in *. by rewrite IH.
Qed.

Lemma read_key_text (k rest : str) : key_ok k -> read_key (k ++ "="%char :: DQUOTE :: rest) = Some (k, rest).
Proof.
  unfold key_ok. induction k as [|c k IH]; intros Hk; [done|]. apply not_elem_of_cons in Hk as [Hc Hk]. cbn [app read_key].
  rewrite (proj2 (chr_eqb_false c "="%char)) by congruence. by rewrite (IH Hk).
Qed.


(**  Label lists read back: whatever the names of data sources contain, a scraper that
    undoes the escapes finds the keys and values that were exported, with control
    characters other than line feeds as question marks; a value can never end its label
    or start another one. *)
Theorem labels_read_back (kvs : list (str * str)) :
  kvs <> [] -> Forall (fun kv => key_ok kv.1) kvs ->
  read_labels (length kvs) (renderLabels kvs) = Some (map (fun kv => (kv.1, map shown_char kv.2)) kvs).
Proof.
  intros Hne HF. induction HF as [|[k v] kvs Hk HF IH]; [done|]. cbn [length read_labels fst] in *.
  assert (E : forall r, read_key (label_text (k, v) ++ r) = Some (k, escapeLabel v ++ DQUOTE :: r)).
  { intros r. unfold label_text. cbn. rewrite <- !app_assoc. cbn. rewrite <- app_assoc. by rewrite read_key_text. }
  destruct kvs as [|kv kvs].
  - cbn [renderLabels]. rewrite <- (app_nil_r (label_text (k, v))), E. cbn. by rewrite read_value_escape.
  - change (renderLabels ((k, v) :: kv :: kvs)) with (label_text (k, v) ++ ","%char :: renderLabels (kv :: kvs)).
    rewrite E. cbn [mbind option_bind]. rewrite read_value_escape. cbn [mbind option_bind].
    rewrite (IH ltac:(done)). done.
Qed.

(** ** Reading the text back *)

Definition without (c : ascii) (s : str) : bool := forallb (fun d => negb (d =c c)) s.
Definition SP : ascii := " "%char.

Definition name_ok (n : str) : bool := without LF n && without SP n && without "{"%char n.
Definition value_ok (v : str) : bool := without LF v && without SP v.

(** Around the first and around the last [c]. *)
Fixpoint cut_at (c : ascii) (s : str) : option (str * str) :=
  match s with
  | [] => None
  | d :: s => if d =c c then Some ([], s) else '(a, b) ← cut_at c s; Some (d :: a, b)
  end.
Definition cut_last (c : ascii) (s : str) : option (str * str) := '(a, b) ← cut_at c (rev s); Some (rev b, rev a).

(** A scraper's reader: lines end in line feeds; a sample's labels stand between the
    first brace and the last space. *)
Definition read_line (s : str) : option line :=
  if starts_with ($"# HELP ") s then '(n, h) ← cut_at SP (drop 7 s); Some (Help n h)
  else if starts_with ($"# TYPE ") s then '(n, t) ← cut_at SP (drop 7 s); Some (Type_ n t)
  else '(n, r) ← cut_at "{"%char s; '(l, v) ← cut_last SP r;
       if head_is "}"%char (rev l) then Some (Metric n (removelast l) v) else None.

Fixpoint text_lines (cur s : str) : list str :=
  match s with
  | [] => match cur with [] => [] | _ => [rev cur] end
  | c :: s => if c =c LF then rev cur :: text_lines [] s else text_lines (c :: cur) s
  end.

Definition read_text (s : str) : option (list line) := mapM read_line (text_lines [] s).

Lemma cut_at_app (c : ascii) (a b : str) : without c a = true -> cut_at c (a ++ c :: b) = Some (a, b).
Proof.
  induction a as [|d a IH]; intros H; cbn; [by rewrite chr_eqb_refl|]. apply andb_prop in H as [H1%negb_true_iff H2].
  by rewrite H1, IH.
Qed.

Lemma without_rev (c : ascii) (s : str) : without c (rev s) = without c s.
Proof. induction s as [|d s IH]; [done|]. cbn. unfold without in *. rewrite forallb_app, IH. cbn. by rewrite andb_true_r, andb_comm. Qed.

Lemma without_app (c : ascii) (a b : str) : without c (a ++ b) = without c a && without c b.
Proof. apply forallb_app. Qed.

Lemma cut_last_app (c : ascii) (a b : str) : without c b = true -> cut_last c (a ++ c :: b) = Some (a, b).
Proof.
  intros H. unfold cut_last. rewrite rev_app_distr. cbn. rewrite <- app_assoc. cbn. rewrite cut_at_app by (by rewrite without_rev).
  cbn. by rewrite !rev_involutive.
Qed.

Lemma name_ok_app (a b : str) : name_ok a = true -> name_ok b = true -> name_ok (a ++ b) = true.
Proof.
  unfold name_ok. rewrite !without_app. intros [[-> ->]%andb_prop ->]%andb_prop [[-> ->]%andb_prop ->]%andb_prop. done.
Qed.

Definition readable (l : line) : Prop :=
  match l with
  | Help n h => name_ok n = true /\ without LF h = true
  | Type_ n t => name_ok n = true /\ without LF t = true
  | Metric n ls v => name_ok n = true /\ ls <> [] /\ without LF ls = true /\ value_ok v = true
  end.

Lemma text_lines_line (a cur s : str) : without LF a = true -> text_lines cur (a ++ LF :: s) = (rev cur ++ a) :: text_lines [] s.
Proof.
  revert cur. induction a as [|c a IH]; intros cur H; cbn [app text_lines]; [by rewrite chr_eqb_refl, app_nil_r|].
  apply andb_prop in H as [H1%negb_true_iff H2]. rewrite H1, (IH _ H2). cbn. by rewrite <- app_assoc.
Qed.

(** A sample's line is no announcement. *)
Lemma name_no_mark (n rest t : str) : name_ok n = true -> starts_with ("#"%char :: SP :: t) (n ++ "{"%char :: rest) = false.
Proof.
  intros [[_ H]%andb_prop _]%andb_prop. destruct n as [|c [|d n]]; [done|cbn; by rewrite andb_false_r|].
  cbn in H. apply andb_prop in H as [_ [H%negb_true_iff _]%andb_prop]. cbn [app starts_with].
  destruct (d =c SP) eqn:E; [done|]. assert (E' : (SP =c d) = false).
  { apply chr_eqb_false. apply chr_eqb_false in E. congruence. }
  rewrite E'. by rewrite andb_false_r.
Qed.

Lemma read_line_text (l : line) :
  readable l -> exists t, line_text l = t ++ [LF] /\ without LF t = true /\ read_line t = Some l.
Proof.
  destruct l as [n h|n t|n ls v]; cbn.
  - intros [[[H1 H2]%andb_prop H3]%andb_prop H4]. exists ($"# HELP " ++ n ++ SP :: h). split_and!.
    + by rewrite <- !app_assoc.
    + change (without LF (n ++ SP :: h) = true). rewrite without_app. by rewrite H1.
    + unfold read_line. rewrite starts_with_app. change (drop 7 ($"# HELP " ++ n ++ SP :: h)) with (n ++ SP :: h). by rewrite cut_at_app.
  - intros [[[H1 H2]%andb_prop H3]%andb_prop H4]. exists ($"# TYPE " ++ n ++ SP :: t). split_and!.
    + by rewrite <- !app_assoc.
    + change (without LF (n ++ SP :: t) = true). rewrite without_app. by rewrite H1.
    + unfold read_line. change (starts_with ($"# HELP ") ($"# TYPE " ++ n ++ SP :: t)) with false. rewrite starts_with_app.
      change (drop 7 ($"# TYPE " ++ n ++ SP :: t)) with (n ++ SP :: t). by rewrite cut_at_app.
  - intros (Hn & Hl & Hw & [V1 V2]%andb_prop). pose proof Hn as [[H1 H2]%andb_prop H3]%andb_prop.
    exists (n ++ "{"%char :: (ls ++ ["}"%char]) ++ SP :: v). split_and!.
    + destruct ls as [|c ls]; [done|]. rewrite <- !app_assoc. cbn. rewrite <- !app_assoc. done.
    + rewrite without_app, H1. change (without LF ((ls ++ ["}"%char]) ++ SP :: v) = true). rewrite !without_app, Hw. done.
    + unfold read_line. change ($"# HELP ") with ("#"%char :: SP :: $"HELP "). change ($"# TYPE ") with ("#"%char :: SP :: $"TYPE ").
      rewrite !(name_no_mark n _ _ Hn), cut_at_app by done. cbn [mbind option_bind]. rewrite cut_last_app by done. cbn [mbind option_bind].
      rewrite rev_app_distr. cbn. by rewrite removelast_last.
Qed.

Lemma read_text_lines (ls : list line) : Forall readable ls -> read_text (concat (map line_text ls)) = Some ls.
Proof.
  unfold read_text. induction 1 as [|l ls Hl _ IH]; [done|]. destruct (read_line_text l Hl) as (t & Ht & Hw & Hr).
  cbn [map concat]. rewrite Ht, <- app_assoc. cbn [app]. rewrite (text_lines_line t [] _ Hw). cbn. by rewrite Hr, IH.
Qed.

Lemma escape_without (s : str) : without LF (escapeLabel s) = true.
Proof.
  induction s as [|c s IH]; [done|]. unfold escapeLabel in *. cbn [mbind list_bind]. rewrite without_app, IH, andb_true_r.
  unfold escape_char. destruct (c =c BSLASH); [done|]. destruct (c =c DQUOTE); [done|]. destruct (c =c LF) eqn:E; [done|].
  destruct (code c <? 32)%N; [done|]. cbn. by rewrite E.
Qed.

Lemma renderLabels_text (kvs : list (str * str)) :
  kvs <> [] -> forallb (fun kv => without LF kv.1) kvs = true ->
  without LF (renderLabels kvs) = true /\ renderLabels kvs <> [].
Proof.
  intros Hne. induction kvs as [|[k v] kvs IH]; [done|]. cbn [forallb fst]. intros [Hk H]%andb_prop.
  assert (Ht : without LF (label_text (k, v)) = true).
  { unfold label_text. cbn [fst snd]. rewrite !without_app, Hk, escape_without. done. }
  assert (Hl : label_text (k, v) <> []) by (unfold label_text; cbn; by destruct k).
  destruct kvs as [|kv kvs]; [done|]. destruct (IH ltac:(done) H) as [I1 _].
  change (renderLabels ((k, v) :: kv :: kvs)) with (label_text (k, v) ++ ","%char :: renderLabels (kv :: kvs)).
  split; [|by destruct (label_text (k, v))]. rewrite without_app, Ht. exact I1.
Qed.

Lemma to_string_value (z : Z) : value_ok (to_string z) = true.
Proof.
  pose proof (to_string_num z) as H. unfold value_ok, without. rewrite forallb_forall in H.
  apply andb_true_iff. split; apply forallb_forall; intros c Hc; apply negb_true_iff, chr_eqb_false; intros ->; by specialize (H _ Hc).
Qed.

(** ** Announcements *)

(** A reader of the format: a family is announced once, with its help and then its type,
    before its first sample; the result is what has been announced. *)
Fixpoint scan_lines (family_of : str -> str) (known : list str) (ls : list line) : option (list str) :=
  match ls with
  | [] => Some known
  | Help n _ :: Type_ n' _ :: ls => if (n =s n') && negb (mem_name n known) then scan_lines family_of (n :: known) ls else None
  | Metric n _ _ :: ls => if mem_name (family_of n) known then scan_lines family_of known ls else None
  | _ => None
  end.

Definition sample_of (prefix : str) (n : str) : str :=
  if mem_name n [s_duration prefix ++ $"_sum"; s_duration prefix ++ $"_bucket"; s_duration prefix ++ $"_count"] then s_duration prefix else n.

Lemma scan_lines_app (f : str -> str) (a b : list line) (known known' : list str) :
  scan_lines f known a = Some known' -> scan_lines f known (a ++ b) = scan_lines f known' b.
Proof.
  remember (length a) as n eqn:Hn. revert a known Hn. induction n as [n IH] using lt_wf_ind. intros a known -> H.
  destruct a as [|[n h|n t|n l v] a]; cbn in *; [by simplify_eq| |done|].
  - destruct a as [|[| n' t|] a]; try done. cbn. destruct (_ && _); [|done]. apply (IH (length a)); [cbn; lia|done|done].
  - destruct (mem_name _ _); [|done]. apply (IH (length a)); [lia|done|done].
Qed.

Lemma prefix_eqb (p a b : str) : (p ++ a =s p ++ b) = (a =s b).
Proof.
  destruct (a =s b) eqn:E; [apply str_eqb_true in E as ->; by apply str_eqb_true|].
  apply not_true_iff_false. intros H%str_eqb_true%app_inv_head. apply str_eqb_true in H. congruence.
Qed.

(** Which family the metric with a given ending belongs to. *)
Definition duration_samples : list str :=
  [$"_slow_sql_duration_seconds_sum"; $"_slow_sql_duration_seconds_bucket"; $"_slow_sql_duration_seconds_count"].

Lemma sample_of_suffix (p a : str) :
  sample_of p (p ++ a) = p ++ (if mem_name a duration_samples then $"_slow_sql_duration_seconds" else a).
Proof.
  unfold sample_of, s_duration, mem_name, duration_samples. cbn [existsb]. rewrite <- !app_assoc, !prefix_eqb. by destruct (_ || _).
Qed.

(** ** The contract of the documentation *)

Definition types (ls : list line) : list (str * str) :=
  omap (fun l => match l with Type_ n t => Some (n, t) | _ => None end) ls.

(** The families of docs/metrics.md with their types, for any prefix. *)
Definition pool_contract : list (str * str) :=
  map (fun nt => (lit nt.1, lit nt.2))
  [("_pool_connections", "gauge"); ("_pool_connections_max", "gauge"); ("_pool_connections_min", "gauge");
   ("_pool_connections_idle", "gauge"); ("_pool_connections_borrowed", "gauge"); ("_pool_utilization_ratio", "gauge");
   ("_pool_waiting", "gauge"); ("_pool_borrow_requests_total", "counter"); ("_pool_borrow_successes_total", "counter");
   ("_pool_borrow_timeouts_total", "counter"); ("_pool_connection_create_failures_total", "counter");
   ("_pool_invalidated_connections_total", "counter"); ("_pool_validation_failures_total", "counter");
   ("_pool_leak_warnings_total", "counter"); ("_pool_idle_evictions_total", "counter");
   ("_pool_lifetime_evictions_total", "counter"); ("_pool_connections_created_total", "counter");
   ("_pool_connections_closed_total", "counter"); ("_pool_borrow_wait_seconds_total", "counter");
   ("_pool_borrow_wait_seconds_max", "gauge")]%string.

Definition slow_contract : list (str * str) :=
  map (fun nt => (lit nt.1, lit nt.2))
  [("_slow_sql_count", "counter"); ("_slow_sql_errors", "counter");
   ("_slow_sql_timeouts", "counter"); ("_slow_sql_duration_seconds", "histogram");
   ("_slow_sql_duration_seconds_max", "gauge")]%string.

(** *** What a program of announcements and samples announces

    [emit_pool] and [emit_slow] are such programs, whatever they print; endings stand
    for names, so a program runs without the prefix.  It fails when a family is announced
    twice or a sample has no family. *)

Inductive instr := IAnnounce (flag ending type : str) | ISample (ending : str).

(** The flags that are set and the families announced, the newest first. *)
Definition sketch : Type := list str * list (str * str).

Definition family_ending (a : str) : str := if mem_name a duration_samples then $"_slow_sql_duration_seconds" else a.

Definition sketch_step (k : sketch) (i : instr) : option sketch :=
  match i with
  | IAnnounce f a t =>
      if mem_name f k.1 then Some k else if mem_name a k.2.*1 then None else Some (f :: k.1, (a, t) :: k.2)
  | ISample a => if mem_name (family_ending a) k.2.*1 then Some k else None
  end.

Fixpoint sketch_run (k : sketch) (prog : list instr) : option sketch :=
  match prog with [] => Some k | i :: prog => k ← sketch_step k i; sketch_run k prog end.

Definition pool_program : list instr :=
  concat (map (fun f => [IAnnounce (f_flag f) (f_suffix f) (f_type f); ISample (f_suffix f)]) pool_families).

Definition slow_program : list instr :=
  [IAnnounce ($"count_emitted") ($"_slow_sql_count") counter; ISample ($"_slow_sql_count");
   IAnnounce ($"err_emitted") ($"_slow_sql_errors") counter; ISample ($"_slow_sql_errors");
   IAnnounce ($"to_emitted_s") ($"_slow_sql_timeouts") counter; ISample ($"_slow_sql_timeouts");
   IAnnounce ($"duration_family_emitted") ($"_slow_sql_duration_seconds") ($"histogram"); ISample ($"_slow_sql_duration_seconds_sum");
   IAnnounce ($"max_emitted_s") ($"_slow_sql_duration_seconds_max") gauge; ISample ($"_slow_sql_duration_seconds_max");
   ISample ($"_slow_sql_duration_seconds_bucket"); ISample ($"_slow_sql_duration_seconds_count")].

(** The lines so far announce what the sketch says, and the text is readable. *)
Definition follows (p : str) (k : sketch) (o : out) : Prop :=
  o_flags o = k.1 /\ scan_lines (sample_of p) [] (o_lines o) = Some (map (app p) k.2.*1) /\
  types (o_lines o) = map (fun nt => (p ++ nt.1, nt.2)) (rev k.2) /\ Forall readable (o_lines o).

Lemma mem_prefix (p a : str) (l : list str) : mem_name (p ++ a) (map (app p) l) = mem_name a l.
Proof. unfold mem_name. induction l as [|b l IH]; [done|]. cbn. by rewrite IH, prefix_eqb. Qed.

Lemma announce_follows (p f a h t : str) (k k' : sketch) (o : out) :
  name_ok (p ++ a) = true -> without LF h = true -> without LF t = true ->
  sketch_step k (IAnnounce f a t) = Some k' -> follows p k o -> follows p k' (announce f (p ++ a) h t o).
Proof.
  intros Hn Hh Ht Hs (H1 & H2 & H3 & H4). unfold announce. cbn in Hs. rewrite H1.
  destruct (mem_name f k.1); [by injection Hs as <-|]. destruct (mem_name a k.2.*1) eqn:Ea; [done|]. injection Hs as <-.
  split_and!; cbn.
  - done.
  - rewrite (scan_lines_app _ _ _ _ _ H2). cbn. rewrite mem_prefix, Ea. by rewrite (proj2 (str_eqb_true _ _) eq_refl).
  - unfold types in *. by rewrite omap_app, H3, map_app.
  - apply Forall_app. split; [done|]. repeat constructor; done.
Qed.

Lemma sample_follows (p a l v : str) (k k' : sketch) (o : out) :
  readable (Metric (p ++ a) l v) -> sketch_step k (ISample a) = Some k' -> follows p k o ->
  follows p k' (put_line (Metric (p ++ a) l v) o).
Proof.
  intros Hr Hs (H1 & H2 & H3 & H4). cbn in Hs. destruct (mem_name (family_ending a) k.2.*1) eqn:Ea; [|done]. injection Hs as <-.
  split_and!; cbn.
  - done.
  - rewrite (scan_lines_app _ _ _ _ _ H2). cbn. rewrite sample_of_suffix, mem_prefix. fold (family_ending a). by rewrite Ea.
  - unfold types in *. by rewrite omap_app, H3, app_nil_r.
  - apply Forall_app. split; [done|]. by apply Forall_singleton.
Qed.

Section follow.
Context (show : Z -> Z -> str) (p : str) (Hp : name_ok p = true) (Hshow : forall a b, value_ok (show a b) = true).

Lemma metric_readable (a v : str) (kvs : list (str * str)) :
  name_ok a = true -> value_ok v = true -> kvs <> [] -> forallb (fun kv => without LF kv.1) kvs = true ->
  readable (Metric (p ++ a) (renderLabels kvs) v).
Proof.
  intros Ha Hv Hk Hl. cbn. destruct (renderLabels_text kvs Hk Hl) as [-> H]. split_and!; [by apply name_ok_app|done|done|done].
Qed.

Lemma value_text_ok (v : sample_value) : value_ok (value_text show v) = true.
Proof. destruct v; [apply to_string_value|apply Hshow]. Qed.

Lemma pool_follows (np : str * PoolStats) (k k' : sketch) (o : out) :
  sketch_run k pool_program = Some k' -> follows p k o -> follows p k' (emit_pool show p np o).
Proof.
  unfold emit_pool, pool_program.
  assert (HF : Forall (fun f => name_ok (f_suffix f) && without LF (f_help f) && without LF (f_type f) = true) pool_families)
    by (by repeat constructor).
  revert k o. induction HF as [|f fs Hf _ IH]; intros k o Hr H; [by injection Hr as <-|].
  apply andb_prop in Hf as [[Hn Hh]%andb_prop Ht]. cbn [map concat app sketch_run] in Hr.
  apply bind_Some in Hr as (k1 & H1 & Hr). apply bind_Some in Hr as (k2 & H2 & Hr). cbn [foldl]. eapply IH; [exact Hr|].
  eapply sample_follows; [|exact H2|].
  - apply metric_readable; [done|apply value_text_ok|done|done].
  - eapply announce_follows; [by apply name_ok_app|done|done|exact H1|exact H].
Qed.

Lemma slow_follows (s : Observer.SlowSqlStats) (k k' : sketch) (o : out) :
  sketch_run k slow_program = Some k' -> follows p k o -> follows p k' (emit_slow show p s o).
Proof.
  intros Hr H. cbn [slow_program sketch_run] in Hr.
  repeat match type of Hr with (_ ≫= _) = Some _ => let k1 := fresh "k" in let E := fresh "E" in apply bind_Some in Hr as (k1 & E & Hr) end.
  injection Hr as <-. unfold emit_slow, s_count, s_err, s_to, s_duration, s_max. cbv zeta. rewrite <- !app_assoc.
  assert (Hm : forall a v kvs, name_ok a = true -> value_ok v = true -> kvs <> [] -> forallb (fun kv => without LF kv.1) kvs = true ->
    readable (Metric (p ++ a) (renderLabels kvs) v)) by (apply metric_readable).
  assert (Hb : forall bs o', follows p k9 o' -> follows p k9 (foldl (fun o bv => put_line
      (Metric (p ++ $"_slow_sql_duration_seconds" ++ $"_bucket") (renderLabels (slow_labels s ++ [($"le", show bv.1 1000)])) (to_string bv.2)) o) o' bs)).
  { induction bs as [|b bs IHb]; intros o' Ho; [done|]. cbn [foldl]. apply IHb. eapply sample_follows; [| |exact Ho].
    - apply Hm; [done|apply to_string_value|done|done].
    - cbn in E9 |- *. destruct (mem_name _ _); [done|discriminate E9]. }
  eapply sample_follows; [apply Hm; [done|apply to_string_value|done|done]|exact E10|].
  eapply sample_follows; [apply Hm; [done|apply to_string_value|done|done]|exact E9|]. apply Hb.
  repeat (eapply sample_follows; [apply Hm; [done|apply to_string_value || apply Hshow|done|done]|eassumption|
          eapply announce_follows; [by apply name_ok_app|done|done|eassumption|]]). exact H.
Qed.

(** A loop of runs that leave the sketch as it is. *)
Lemma fold_follows {A} (g : out -> A -> out) (k : sketch) (l : list A) (o : out) :
  (forall a o, follows p k o -> follows p k (g o a)) -> follows p k o -> follows p k (foldl g o l).
Proof. intros Hg. revert o. induction l as [|a l IH]; intros o Ho; [done|]. cbn [foldl]. by apply IH, Hg. Qed.

Lemma pools_follow (pools : list (str * PoolStats)) (k : sketch) (o : out) :
  sketch_run k pool_program = Some k -> follows p k o -> follows p k (foldl (fun o np => emit_pool show p np o) o pools).
Proof. intros Hk. apply fold_follows. intros np o'. by apply pool_follows. Qed.

Lemma slows_follow (slow : list Observer.SlowSqlStats) (k : sketch) (o : out) :
  sketch_run k slow_program = Some k -> follows p k o -> follows p k (foldl (fun o s => emit_slow show p s o) o slow).
Proof. intros Hk. apply fold_follows. intros s o'. by apply slow_follows. Qed.
End follow.

Definition pools_sketch : sketch := Eval vm_compute in default ([], []) (sketch_run ([], []) pool_program).
Definition slow_sketch : sketch := Eval vm_compute in default ([], []) (sketch_run ([], []) slow_program).
Definition full_sketch : sketch := Eval vm_compute in default ([], []) (sketch_run pools_sketch slow_program).

Lemma exported_empty (slow : list Observer.SlowSqlStats) (m : nat) : exported slow m = [] <-> slow = [].
Proof. unfold exported. destruct slow as [|s slow]; [done|]. destruct m; done. Qed.

(** C26.  The exported text meets its contract, for any pools and any statistics: a
    reader splits it into lines and every line is a help, type or sample line; every
    family is announced once, help before type, before its first sample, and no sample
    is left without its family; and the families with their types are those of the
    documentation, the pool families when there is a pool and the slow statement
    families when there is a slow statement.  The prefix has no line feed, space or
    brace, and printed numbers have no line feed or space. *)
Theorem export_meets_contract (show : Z -> Z -> str) (p : str) (pools : list (str * PoolStats)) (slow : list Observer.SlowSqlStats) (m : nat) :
  name_ok p = true -> (forall a b, value_ok (show a b) = true) ->
  exists ls, read_text (toPrometheusText show p pools slow m) = Some ls /\ is_Some (scan_lines (sample_of p) [] ls) /\
    types ls = map (fun nt => (p ++ nt.1, nt.2))
                 ((match pools with [] => [] | _ => pool_contract end) ++ (match slow with [] => [] | _ => slow_contract end)).
Proof.
  intros Hp Hs. exists (export_lines show p pools slow m).
  assert (H : exists k, follows p k (foldl (fun o s => emit_slow show p s o) (foldl (fun o np => emit_pool show p np o) (mkOut [] []) pools)
                                  (exported slow m)) /\
    rev k.2 = (match pools with [] => [] | _ => pool_contract end) ++ (match slow with [] => [] | _ => slow_contract end)).
  2:{ destruct H as (k & (_ & H2 & H3 & H4) & Hk). rewrite <- Hk. split_and!; [by apply read_text_lines|by eexists|done]. }
  assert (H0 : follows p ([], []) (mkOut [] [])) by done.
  destruct pools as [|np pools]; cbn [foldl].
  - destruct (exported slow m) as [|s rest] eqn:Ee; [apply exported_empty in Ee as ->; by exists ([], [])|].
    exists slow_sketch. destruct slow; [by rewrite (proj2 (exported_empty [] m) eq_refl) in Ee|]. split; [|by vm_compute].
    cbn [foldl]. apply slows_follow; [done..|by vm_compute|]. by apply (slow_follows show p Hp Hs s ([], [])); [vm_compute|].
  - apply (pool_follows show p Hp Hs np _ pools_sketch) in H0; [|by vm_compute].
    apply (pools_follow show p Hp Hs pools) in H0; [|by vm_compute].
    destruct (exported slow m) as [|s rest] eqn:Ee; [apply exported_empty in Ee as ->; by exists pools_sketch|].
    exists full_sketch. destruct slow; [by rewrite (proj2 (exported_empty [] m) eq_refl) in Ee|]. split; [|by vm_compute].
    cbn [foldl]. apply slows_follow; [done..|by vm_compute|]. by apply (slow_follows show p Hp Hs s pools_sketch); [vm_compute|].
Qed.

(** ** Histograms *)

Lemma cumulate_valid (bounds cells : list Z) (sum count : Z) :
  (0 <= sum)%Z -> Forall (Z.le 0) cells -> (sum + Observer.zsum cells <= count)%Z -> (count < uint64_mod)%Z -> length bounds <= length cells ->
  map fst (cumulate sum bounds cells) = bounds /\
  Forall (fun v => sum <= v <= count)%Z (map snd (cumulate sum bounds cells)) /\
  StronglySorted Z.le (map snd (cumulate sum bounds cells)).
Proof.
  revert sum cells. induction bounds as [|b bounds IH]; intros sum cells Hs HF Hc Hm Hl; [cbn; split_and!; constructor|].
  destruct cells as [|c cells]; [cbn in Hl; lia|]. inversion HF as [|? ? H1 H2]; subst. cbn [Observer.zsum foldr] in Hc. cbn in Hl.
  assert (H0 : (0 <= Observer.zsum cells)%Z) by (clear -H2; induction H2; cbn in *; lia).
  fold (Observer.zsum cells) in Hc. assert (E : wrap_u64 (sum + c) = (sum + c)%Z) by (unfold wrap_u64; apply Z.mod_small; lia).
  cbn [cumulate]. rewrite E. destruct (IH (sum + c)%Z cells) as (I1 & I2 & I3); [lia|done|lia|done|lia|]. cbn. split_and!.
  - by rewrite I1.
  - constructor; [lia|]. eapply Forall_impl; [exact I2|]. cbn. lia.
  - constructor; [done|]. eapply Forall_impl; [exact I2|]. cbn. lia.
Qed.

Lemma run_calls_ok (cs : list Observer.stats_call) : Observer.stats_ok (Observer.run_calls cs Observer.no_statistics).
Proof.
  induction cs as [|c cs IH] using rev_ind; [apply Observer.no_statistics_ok|]. unfold Observer.run_calls in *. rewrite foldl_snoc.
  by apply Observer.run_call_ok.
Qed.

(**  Every histogram that is exported is one: whatever statements were recorded, in any
    order of calls, the buckets of a fingerprint have the configured bounds, their counts
    never decrease, and the last of them is at most the count that is exported as [+Inf]. *)
Theorem exported_histograms_valid (cs : list Observer.stats_call) (fp : Z) (e : Observer.SlowSqlStats) :
  Observer.slowStats (Observer.run_calls cs Observer.no_statistics) !! fp = Some e -> (Observer.ss_count e < uint64_mod)%Z ->
  let bs := cumulate 0 (Observer.ss_buckets e) (Observer.ss_histogram e) in
  map fst bs = Observer.ss_buckets e /\ StronglySorted Z.le (map snd bs ++ [Observer.ss_count e]) /\ Forall (Z.le 0) (map snd bs).
Proof.
  intros He Hc. destruct (run_calls_ok cs) as [_ Hm]. specialize (Hm fp e He). destruct Hm as (_ & Hl & HF & Hz & _).
  destruct (cumulate_valid (Observer.ss_buckets e) (Observer.ss_histogram e) 0 (Observer.ss_count e)) as (H1 & H2 & H3); [lia|done|lia|done|lia|].
  split_and!; [done| |].
  - apply StronglySorted_app_2; [|done|by repeat constructor]. intros x y Hx Hy. apply list_elem_of_singleton in Hy as ->.
    rewrite Forall_forall in H2. specialize (H2 x Hx). lia.
  - eapply Forall_impl; [exact H2|]. cbn. lia.
Qed.

(** ** Groups *)

Definition line_family (p : str) (l : line) : str :=
  match l with Help n _ | Type_ n _ => n | Metric n _ _ => sample_of p n end.

(** The lines of family [n] are not in one piece: a line of another family stands between
    two of them. *)
Definition interrupted (p n : str) (ls : list line) : Prop :=
  exists a x b y c z d, ls = a ++ x :: b ++ y :: c ++ z :: d /\ line_family p x = n /\ line_family p y <> n /\ line_family p z = n.

Lemma interrupted_app (p n : str) (ls more : list line) : interrupted p n ls -> interrupted p n (ls ++ more).
Proof.
  intros (a & x & b & y & c & z & d & -> & H). exists a, x, b, y, c, z, (d ++ more). split; [|done].
  rewrite <- !app_assoc. cbn. rewrite <- !app_assoc. cbn. by rewrite <- !app_assoc.
Qed.

(** Emitting only appends. *)
Definition extends (o o' : out) : Prop := exists ls, o_lines o' = o_lines o ++ ls.

Lemma extends_refl (o : out) : extends o o.
Proof. exists []. by rewrite app_nil_r. Qed.

Lemma extends_trans (a b c : out) : extends a b -> extends b c -> extends a c.
Proof. intros [l E] [k E']. exists (l ++ k). by rewrite E', E, app_assoc. Qed.

Lemma announce_extends (f n h t : str) (o : out) : extends o (announce f n h t o).
Proof. unfold announce. destruct (mem_name f (o_flags o)); [apply extends_refl|]. by eexists. Qed.

Lemma put_extends (l : line) (o : out) : extends o (put_line l o).
Proof. by eexists. Qed.

Lemma fold_extends {A} (g : out -> A -> out) (l : list A) (o : out) : (forall o a, extends o (g o a)) -> extends o (foldl g o l).
Proof. intros Hg. revert o. induction l as [|a l IH]; intros o; [apply extends_refl|]. cbn [foldl]. eapply extends_trans; [apply Hg|apply IH]. Qed.

(** Two samples of one family with a sample of another one between them. *)
Lemma put_interrupts (p n : str) (x y z : line) (o1 o2 o3 : out) :
  extends (put_line x o1) o2 -> extends (put_line y o2) o3 -> line_family p x = n -> line_family p y <> n -> line_family p z = n ->
  interrupted p n (o_lines (put_line z o3)).
Proof.
  intros [l1 E1] [l2 E2] Hx Hy Hz. exists (o_lines o1), x, l1, y, l2, z, []. split; [|done].
  cbn in *. rewrite E2, E1, <- !app_assoc. done.
Qed.

Lemma duration_family (p a l v : str) :
  mem_name ($"_slow_sql_duration_seconds" ++ a) duration_samples = true -> line_family p (Metric (s_duration p ++ a) l v) = s_duration p.
Proof. intros H. cbn. unfold s_duration. by rewrite <- app_assoc, sample_of_suffix, H. Qed.

Lemma emit_slow_interrupts (show : Z -> Z -> str) (p : str) (s : Observer.SlowSqlStats) (o : out) :
  interrupted p (s_duration p) (o_lines (emit_slow show p s o)).
Proof.
  unfold emit_slow. cbv zeta. eapply put_interrupts.
  2:{ eapply extends_trans; [|apply put_extends]. apply fold_extends. intros. apply put_extends. }
  - apply announce_extends.
  - by apply duration_family.
  - cbn. unfold s_max, s_duration. rewrite sample_of_suffix. intros H%app_inv_head. discriminate H.
  - by apply duration_family.
Qed.

Lemma emit_slow_extends (show : Z -> Z -> str) (p : str) (s : Observer.SlowSqlStats) (o : out) : extends o (emit_slow show p s o).
Proof.
  unfold emit_slow. cbv zeta. do 2 (eapply extends_trans; [|apply put_extends]).
  eapply extends_trans; [|apply fold_extends; intros; apply put_extends].
  do 5 (eapply extends_trans; [|apply put_extends]; eapply extends_trans; [|apply announce_extends]). apply extends_refl.
Qed.

(**  The text breaks the rule of the format that the lines of a family form one
    group: as soon as one slow statement is exported, the maximum stands between the sum
    and the buckets of the duration histogram. *)
Theorem duration_group_interrupted (show : Z -> Z -> str) (p : str) (pools : list (str * PoolStats)) (slow : list Observer.SlowSqlStats) (m : nat) :
  slow <> [] -> interrupted p (s_duration p) (export_lines show p pools slow m).
Proof.
  intros Hs. unfold export_lines. assert (He : exists s rest, exported slow m = s :: rest).
  { unfold exported. destruct slow as [|s slow]; [done|]. destruct m; cbn; eauto. }
  destruct He as (s & rest & ->). cbn [foldl]. set (o := foldl _ (mkOut [] []) pools).
  destruct (fold_extends (fun o s => emit_slow show p s o) rest (emit_slow show p s o)) as [ls ->]; [intros; apply emit_slow_extends|].
  apply interrupted_app, emit_slow_interrupts.
Qed.

(** ** Samples *)

Definition plain_show (a b : Z) : str := to_string (a / b).

Definition sample_slow_stats : Observer.SlowSqlStats :=
  Observer.mkStats 77 ($"main") OQuery ($"select ?") 3 1 0 450000 100000 200000 1 2 [100; 200]%Z [1; 1; 1]%Z.

Lemma labels_read_back_witness :
  read_labels 2 (renderLabels [($"data_source", $"a" ++ [DQUOTE; LF; BSLASH]); ($"le", $"+Inf")]) =
    Some [($"data_source", $"a" ++ [DQUOTE; LF; BSLASH]); ($"le", $"+Inf")].
Proof.
  etransitivity; [apply (labels_read_back [($"data_source", $"a" ++ [DQUOTE; LF; BSLASH]); ($"le", $"+Inf")])|by vm_compute]; [done|].
  repeat constructor; unfold key_ok; apply (bool_decide_unpack _); by vm_compute.
Defined.

Lemma plain_show_value (a b : Z) : value_ok (plain_show a b) = true.
Proof. apply to_string_value. Qed.

(** A pool whose name is hostile and no slow statement, the usual case. *)
Lemma export_meets_contract_witness :
  exists ls, read_text (toPrometheusText plain_show ($"sqlconduit") [($"a" ++ [LF; DQUOTE], mkPoolStats 1 4 1 2 1 0 0 counters_zero)] [] 0) = Some ls /\
    length (types ls) = 20.
Proof.
  destruct (export_meets_contract plain_show ($"sqlconduit") [($"a" ++ [LF; DQUOTE], mkPoolStats 1 4 1 2 1 0 0 counters_zero)] [] 0
    eq_refl plain_show_value) as (ls & H1 & _ & H2). exists ls. split; [exact H1|]. rewrite H2. reflexivity.
Defined.

Lemma duration_group_interrupted_witness : interrupted ($"sqlconduit") (s_duration ($"sqlconduit")) (export_lines plain_show ($"sqlconduit") [] [sample_slow_stats] 1).
Proof. by apply duration_group_interrupted. Defined.

Lemma exported_histograms_valid_witness :
  exists fp e, Observer.slowStats (Observer.run_calls Observer.sample_calls Observer.no_statistics) !! fp = Some e /\
    map fst (cumulate 0 (Observer.ss_buckets e) (Observer.ss_histogram e)) = Observer.ss_buckets e /\ length (Observer.ss_buckets e) = 2.
Proof.
  assert (E : exists fp e, Observer.slowStats (Observer.run_calls Observer.sample_calls Observer.no_statistics) !! fp = Some e /\
    (Observer.ss_count e < uint64_mod)%Z /\ length (Observer.ss_buckets e) = 2).
  { set (fp := hd 0%Z (Observer.lru (Observer.run_calls Observer.sample_calls Observer.no_statistics))). exists fp.
    vm_compute fp. eexists. split; [vm_compute; reflexivity|]. split; by vm_compute. }
  destruct E as (fp & e & He & Hc & Hl). exists fp, e. split; [exact He|]. split; [|exact Hl].
  exact (proj1 (exported_histograms_valid Observer.sample_calls fp e He Hc)).
Defined.

End Exporter.
