(* ===== verification/Heartbeat.v ===== *)
(** * The heartbeat

    src/core/heartbeat_manager.cpp: a thread that sleeps in [wait_for], checks the pools
    and sleeps again, and a [stop] that raises a flag, notifies and joins.  What a thread
    does between two accesses to shared state is a function; [step] lets them interleave
    in any order.

    [wait_for] with a predicate tests it, blocks, and tests it again after a notification,
    the timeout or a spurious wake-up.  A notification reaches only a thread that is
    blocked.  The owner calls [start] and [stop] one after the other, as the registry
    does; the other steps interleave with both. *)

From S2P Require Import Prelude.

(** How far a call of [stop] is: [SIdle], none is under way. *)
Inductive stopper := SIdle | SFlag | SNotify | SJoin.

Module Heartbeat.

(** Where the thread is in [loop].  The snapshot keeps its pools alive until the end of
    the turn. *)
Inductive hb_thread :=
| HNone                                (* not started, or joined *)
| HTop                                 (* at the loop's condition *)
| HEnter                               (* about to test the predicate of the wait *)
| HTested                              (* it was false; about to block *)
| HWaiting                             (* blocked *)
| HWoken (timeout : bool)              (* about to test the predicate again *)
| HSnapshot
| HCheck (snapshot rest : list nat)
| HSweep (snapshot : list nat)
| HExit.

(** A pool is a number; [released] are those whose last other owner has gone.  [checked]
    is history: the health checks that were made. *)
Record heartbeat := mkHeartbeat {
  interval_ : Z;
  pools_ : list nat;
  released : list nat;
  running_ : bool;
  stopFlag_ : bool;
  thread_ : hb_thread;
  stopping : stopper;
  checked : list nat
}.

Definition HeartbeatManager (interval : Z) : heartbeat := mkHeartbeat interval [] [] false false HNone SIdle [].

Definition set_thread (t : hb_thread) (h : heartbeat) : heartbeat :=
  mkHeartbeat (interval_ h) (pools_ h) (released h) (running_ h) (stopFlag_ h) t (stopping h) (checked h).
Definition set_stopping (s : stopper) (h : heartbeat) : heartbeat :=
  mkHeartbeat (interval_ h) (pools_ h) (released h) (running_ h) (stopFlag_ h) (thread_ h) s (checked h).
Definition set_pools (ps : list nat) (h : heartbeat) : heartbeat :=
  mkHeartbeat (interval_ h) ps (released h) (running_ h) (stopFlag_ h) (thread_ h) (stopping h) (checked h).

(** The pools the thread owns. *)
Definition held_pools (t : hb_thread) : list nat := match t with HCheck snapshot _ | HSweep snapshot => snapshot | _ => [] end.

Definition pool_expired (h : heartbeat) (k : nat) : bool := bool_decide (k ∈ released h) && negb (bool_decide (k ∈ held_pools (thread_ h))).

Definition addPool (pool : option nat) (h : heartbeat) : heartbeat :=
  match pool with None => h | Some k => set_pools (pools_ h ++ [k]) h end.

Definition start (h : heartbeat) : heartbeat :=
  if (interval_ h <=? 0)%Z then h
  else if running_ h then h
  else mkHeartbeat (interval_ h) (pools_ h) (released h) true false HTop (stopping h) (checked h).

(** [stop] up to its test, and the rest of it. *)
Definition stop (h : heartbeat) : heartbeat :=
  if running_ h then mkHeartbeat (interval_ h) (pools_ h) (released h) false (stopFlag_ h) (thread_ h) SFlag (checked h) else h.

Definition notified (t : hb_thread) : hb_thread := match t with HWaiting => HWoken false | t => t end.

Definition stop_section (h : heartbeat) : option heartbeat :=
  match stopping h with
  | SIdle => None
  | SFlag => Some (mkHeartbeat (interval_ h) (pools_ h) (released h) (running_ h) true (thread_ h) SNotify (checked h))
  | SNotify => Some (set_stopping SJoin (set_thread (notified (thread_ h)) h))
  | SJoin => match thread_ h with HExit | HNone => Some (set_stopping SIdle (set_thread HNone h)) | _ => None end
  end.

Definition sweepExpiredPools (h : heartbeat) : heartbeat := set_pools (List.filter (fun k => negb (pool_expired h k)) (pools_ h)) h.

(** A health check that throws is like one that does not. *)
Definition loop_section (h : heartbeat) : option heartbeat :=
  match thread_ h with
  | HTop => Some (set_thread (if stopFlag_ h then HExit else HEnter) h)
  | HEnter => Some (set_thread (if stopFlag_ h then HExit else HTested) h)
  | HTested => Some (set_thread HWaiting h)
  | HWoken timeout => Some (set_thread (if stopFlag_ h then HExit else if timeout then HSnapshot else HWaiting) h)
  | HSnapshot => let snapshot := List.filter (fun k => negb (pool_expired h k)) (pools_ h) in Some (set_thread (HCheck snapshot snapshot) h)
  | HCheck snapshot [] => Some (set_thread (HSweep snapshot) h)
  | HCheck snapshot (k :: rest) =>
      if stopFlag_ h then Some (set_thread (HSweep snapshot) h)
      else Some (mkHeartbeat (interval_ h) (pools_ h) (released h) (running_ h) (stopFlag_ h) (HCheck snapshot rest) (stopping h) (checked h ++ [k]))
  | HSweep _ => Some (set_thread HTop (sweepExpiredPools h))
  | HNone | HWaiting | HExit => None
  end.

(** The end of the interval or a spurious wake-up. *)
Definition wake (timeout : bool) (h : heartbeat) : option heartbeat :=
  match thread_ h with HWaiting => Some (set_thread (HWoken timeout) h) | _ => None end.

Definition release (k : nat) (h : heartbeat) : heartbeat :=
  mkHeartbeat (interval_ h) (pools_ h) (k :: released h) (running_ h) (stopFlag_ h) (thread_ h) (stopping h) (checked h).

(** Who acts: the owner, somebody who adds or drops a pool, the threads. *)
Inductive label := LStart | LStop | LAdd (k : option nat) | LRelease (k : nat) | LStopping | LLoop | LWake (timeout : bool).

(** A pool that is added has an owner. *)
Definition step (l : label) (h : heartbeat) : option heartbeat :=
  match l with
  | LStart => match stopping h with SIdle => Some (start h) | _ => None end
  | LStop => match stopping h with SIdle => Some (stop h) | _ => None end
  | LAdd (Some k) => if bool_decide (k ∈ released h) then None else Some (addPool (Some k) h)
  | LAdd None => Some (addPool None h)
  | LRelease k => Some (release k h)
  | LStopping => stop_section h
  | LLoop => loop_section h
  | LWake timeout => wake timeout h
  end.

Definition run (ls : list label) (h : heartbeat) : option heartbeat := foldl (fun o l => h ← o; step l h) (Some h) ls.

(** ** What holds between the steps *)

Lemma run_cons l ls h : run (l :: ls) h = (h1 ← step l h; run ls h1).
Proof. unfold run. cbn. destruct (step l h); [done|]. cbn. induction ls; [done|]. cbn. done. Qed.

Lemma run_snoc ls l h : run (ls ++ [l]) h = (h1 ← run ls h; step l h1).
Proof. unfold run. by rewrite foldl_snoc. Qed.

Lemma run_preserves (I : heartbeat -> Prop) (Q : label -> Prop) :
  (forall l h h', Q l -> I h -> step l h = Some h' -> I h') ->
  forall ls h h', Forall Q ls -> I h -> run ls h = Some h' -> I h'.
Proof.
  intros HI ls. induction ls as [|l ls IH]; intros h h' HQ Hh; [by intros [= <-]|]. rewrite run_cons. inversion HQ; subst.
  destruct (step l h) as [h1|] eqn:E; [|done]. cbn. by apply IH; [done|eapply HI].
Qed.

Lemma run_always (I : heartbeat -> Prop) :
  (forall l h h', I h -> step l h = Some h' -> I h') -> forall ls h h', I h -> run ls h = Some h' -> I h'.
Proof. intros HI ls h h'. apply (run_preserves I (fun _ => True)); [eauto|]. by apply Forall_true. Qed.

Definition alive (t : hb_thread) : bool := match t with HNone | HExit => false | _ => true end.

(** The thread runs exactly while the manager is started or a [stop] is waiting for it, and
    what it has left to check is part of its snapshot. *)
Definition consistent (h : heartbeat) : Prop :=
  match stopping h with
  | SIdle => if running_ h then alive (thread_ h) = true /\ stopFlag_ h = false else thread_ h = HNone
  | SFlag => alive (thread_ h) = true /\ stopFlag_ h = false /\ running_ h = false
  | SNotify | SJoin => thread_ h <> HNone /\ stopFlag_ h = true /\ running_ h = false
  end /\ match thread_ h with HCheck snapshot rest => rest ⊆ snapshot | _ => True end.

Ltac cases_of h := destruct h as [? ? ? [] [] [] [] ?].

Ltac settle := unfold consistent; cbn; intuition (try congruence); set_solver.

Lemma consistent_step l h h' : consistent h -> step l h = Some h' -> consistent h'.
Proof.
  intros [Hph Hsub] Hs. destruct l as [| |k|k| | |t]; cbn in Hs.
  - cases_of h; cbn in *; try done; unfold start in Hs; cbn in Hs; case_match; simplify_eq/=; settle.
  - cases_of h; cbn in *; try done; simplify_eq/=; settle.
  - destruct k as [k|]; [case_bool_decide|]; simplify_eq/=; done.
  - simplify_eq/=. done.
  - cases_of h; cbn in *; try done; unfold stop_section in Hs; simplify_eq/=; settle.
  - unfold loop_section in Hs. destruct (thread_ h) as [| | | | |tm| |sn [|k rest]|sn|] eqn:E; cbn in Hs; try done;
      destruct h as [? ? ? rn [] ? st ?]; cbn in *; subst; simplify_eq/=; destruct st, rn; cbn in *; try destruct tm; settle.
  - unfold wake in Hs. cases_of h; cbn in *; try done; simplify_eq/=; settle.
Qed.

Lemma reachable_consistent ls i h : run ls (HeartbeatManager i) = Some h -> consistent h.
Proof. apply (run_always consistent); [apply consistent_step|done]. Qed.

(** ** Stopping *)

(** The steps of the two threads and of the timer, among additions and releases. *)
Definition no_call (l : label) : bool := match l with LStart | LStop => false | _ => true end.
Definition is_work (l : label) : bool := match l with LStopping | LLoop | LWake _ => true | _ => false end.

(** Once the flag is up, every step of the threads is one of these. *)
Definition to_go (h : heartbeat) : nat :=
  match stopping h with SNotify => 2 | SJoin => 1 | _ => 0 end +
  match thread_ h with
  | HNone | HExit => 0
  | HTop | HEnter | HWoken _ => 1
  | HWaiting | HSweep _ => 2
  | HTested | HCheck _ _ => 3
  | HSnapshot => 4
  end.

Definition ending (h : heartbeat) : Prop :=
  stopFlag_ h = true /\ running_ h = false /\
  match stopping h with SIdle => thread_ h = HNone | SFlag => False | _ => thread_ h <> HNone end.

Lemma ending_step l h h' :
  no_call l = true -> ending h -> step l h = Some h' -> ending h' /\ (if is_work l then to_go h' < to_go h else to_go h' = to_go h).
Proof.
  intros Hl (Hf & Hr & Hs) E. destruct h as [i ps rel rn fl t st ch]. cbn in *. subst. destruct l as [| |[k|]|k| | |tm]; cbn in *; try done.
  - case_bool_decide; simplify_eq/=. done.
  - simplify_eq/=. done.
  - simplify_eq/=. done.
  - unfold stop_section in E. cbn in E. unfold ending, to_go. destruct st; try done; [simplify_eq/=|]; destruct t; try done; simplify_eq/=; cbn; (split; [intuition congruence|lia]).
  - unfold loop_section in E. cbn in E. unfold ending, to_go. destruct t as [| | | | |tm| |sn [|k rest]|sn|]; try done; simplify_eq/=;
      destruct st; cbn in *; try done; (split; [intuition congruence|lia]).
  - unfold wake in E. cbn in E. unfold ending, to_go. destruct t; try done; simplify_eq/=; destruct st; cbn in *; try done; (split; [intuition congruence|lia]).
Qed.

Lemma ending_run ls h h' :
  forallb no_call ls = true -> ending h -> run ls h = Some h' -> ending h' /\ length (List.filter is_work ls) + to_go h' <= to_go h.
Proof.
  revert h. induction ls as [|l ls IH]; intros h Hl He; [intros [= <-]; cbn; split; [done|lia]|]. rewrite run_cons. cbn in Hl.
  apply andb_prop in Hl as [Hl1 Hl2]. destruct (step l h) as [h1|] eqn:E; [|done]. cbn. intros Hr.
  destruct (ending_step _ _ _ Hl1 He E) as [He1 Hg]. destruct (IH h1 Hl2 He1 Hr) as [He' Hn]. split; [done|]. destruct (is_work l); cbn; lia.
Qed.

Lemma ending_progress h : ending h -> stopping h <> SIdle -> exists l, is_work l = true /\ is_Some (step l h).
Proof.
  intros (Hf & Hr & Hs) Hn. destruct (stopping h) eqn:Es; try done.
  - exists LStopping. cbn. unfold stop_section. rewrite Es. eauto.
  - destruct (thread_ h) as [| | | | |tm| |sn [|k rest]|sn|] eqn:Et; try done;
      [exists LLoop|exists LLoop|exists LLoop|exists (LWake true)|exists LLoop..|exists LStopping]; cbn; unfold loop_section, wake, stop_section; rewrite ?Et, ?Es, ?Hf; eauto.
Qed.

Lemma flag_up_ending ls i h : run ls (HeartbeatManager i) = Some h -> stopFlag_ h = true -> stopping h <> SIdle -> ending h.
Proof.
  intros Hr Hf Hn. destruct (reachable_consistent ls i h Hr) as [Hc _]. unfold ending. rewrite Hf. destruct (stopping h); intuition congruence.
Qed.

(**  A [stop] of the heartbeat returns: once it has raised its flag, in every
    interleaving with additions and the end of pools, the two threads and the timer make
    at most six more steps, and when none of them can make one the thread has been joined
    and [stop] has returned. *)
Theorem heartbeat_stop_returns (ls : list label) (i : Z) (h : heartbeat) :
  run ls (HeartbeatManager i) = Some h -> stopFlag_ h = true -> stopping h <> SIdle ->
  forall ls' h', forallb no_call ls' = true -> run ls' h = Some h' ->
    length (List.filter is_work ls') <= 6 /\
    ((forall l, is_work l = true -> step l h' = None) -> stopping h' = SIdle /\ thread_ h' = HNone).
Proof.
  intros Hr Hf Hn ls' h' Hl Hr'. pose proof (flag_up_ending ls i h Hr Hf Hn) as He. destruct (ending_run ls' h h' Hl He Hr') as [He' Hlen].
  split; [assert (to_go h <= 6) by (unfold to_go; destruct (stopping h), (thread_ h); lia); lia|].
  intros Hstuck. destruct (stopping h') eqn:Es; [split; [done|]; destruct He' as (_ & _ & H); by rewrite Es in H|..];
    (exfalso; destruct (ending_progress h' He') as (l & Hw & [h2 H2]); [congruence|]; rewrite (Hstuck l Hw) in H2; done).
Qed.

(**  The wake-up of [stop] can be lost, because the flag is raised and notified without
    the mutex of the wait: a thread that has tested the predicate and not yet blocked
    sleeps on, and then [stop] can only wait for the interval to end. *)
Theorem heartbeat_wakeup_lost (i : Z) :
  (0 < i)%Z -> exists ls h, run ls (HeartbeatManager i) = Some h /\ stopping h = SJoin /\ thread_ h = HWaiting /\
    forall ls' h', forallb (fun l => no_call l && match l with LWake _ => false | _ => true end) ls' = true -> run ls' h = Some h' ->
      stopping h' = SJoin /\ thread_ h' = HWaiting.
Proof.
  intros Hi. exists [LStart; LLoop; LLoop; LStop; LStopping; LStopping; LLoop].
  assert (E : start (HeartbeatManager i) = mkHeartbeat i [] [] true false HTop SIdle []).
  { unfold start. cbn. destruct (Z.leb_spec i 0); [lia|done]. }
  eexists. rewrite run_cons. cbn [step HeartbeatManager stopping mbind option_bind]. fold (HeartbeatManager i). rewrite E. split; [reflexivity|]. do 2 (split; [done|]).
  intros ls' h' Hl Hr. eapply (run_preserves (fun h => stopping h = SJoin /\ thread_ h = HWaiting)
    (fun l => no_call l && match l with LWake _ => false | _ => true end = true)) in Hr; [done| |by apply Forall_forall; intros l Hin%list_elem_of_In; eapply forallb_forall in Hl|done].
  intros l h h1 Hq [Hs Ht]. destruct l as [| |[k|]|k| | |tm]; cbn in Hq; try done; cbn.
  - by case_bool_decide; intros; simplify_eq/=.
  - by intros [= <-].
  - by intros [= <-].
  - unfold stop_section. by rewrite Hs, Ht.
  - unfold loop_section. by rewrite Ht.
Qed.

(** ** Health checks *)

Definition still (k : nat) (h : heartbeat) : Prop :=
  consistent h /\ k ∈ released h /\ k ∉ held_pools (thread_ h).

Lemma snapshot_unreleased k h : k ∈ released h -> held_pools (thread_ h) = [] -> k ∉ List.filter (fun j => negb (pool_expired h j)) (pools_ h).
Proof.
  intros Hk Hh. rewrite list_elem_of_In, List.filter_In. intros [_ Hx]. unfold pool_expired in Hx. rewrite Hh, (bool_decide_eq_true_2 _ Hk) in Hx. done.
Qed.

Lemma still_step k l h h' : still k h -> step l h = Some h' -> still k h' /\ List.count_occ Nat.eq_dec (checked h') k = List.count_occ Nat.eq_dec (checked h) k.
Proof.
  intros (Hc & Hk & Hh) E. pose proof (consistent_step l h h' Hc E) as Hc'. unfold still.
  enough ((k ∈ released h') /\ (k ∉ held_pools (thread_ h')) /\ List.count_occ Nat.eq_dec (checked h') k = List.count_occ Nat.eq_dec (checked h) k) by tauto.
  destruct Hc as [_ Hsub]. destruct l as [| |[j|]|j| | |tm]; cbn in E.
  - destruct (stopping h); try done. unfold start in E. destruct (_ <=? _)%Z, (running_ h); simplify_eq/=; try done. set_solver.
  - destruct (stopping h); try done. unfold stop in E. destruct (running_ h); simplify_eq/=; done.
  - case_bool_decide; simplify_eq/=. done.
  - simplify_eq/=. done.
  - simplify_eq/=. set_solver.
  - unfold stop_section in E. destruct (stopping h); simplify_eq/=; [done| |]; destruct (thread_ h); simplify_eq/=; set_solver.
  - unfold loop_section in E. destruct (thread_ h) as [| | | | |tm| |sn [|j rest]|sn|] eqn:Et; [| | | | |destruct tm| | |destruct (stopFlag_ h)| |];
      try destruct (stopFlag_ h); simplify_eq/=; try done; try set_solver.
    1-2: split_and!; [done| |done]; apply snapshot_unreleased; [done|by rewrite Et].
    all: split_and!; [done|done|]; rewrite List.count_occ_app; cbn; destruct (Nat.eq_dec j k) as [->|]; [set_solver|lia].
  - unfold wake in E. destruct (thread_ h); simplify_eq/=. set_solver.
Qed.

Lemma still_run k ls h h' :
  still k h -> run ls h = Some h' -> List.count_occ Nat.eq_dec (checked h') k = List.count_occ Nat.eq_dec (checked h) k.
Proof.
  revert h. induction ls as [|l ls IH]; intros h Hs; [by intros [= <-]|]. rewrite run_cons. destruct (step l h) as [h1|] eqn:E; [|done]. cbn. intros Hr.
  destruct (still_step k l h h1 Hs E) as [Hs1 <-]. by apply IH.
Qed.

(** The pools somebody else still owns. *)
Definition owned (h : heartbeat) : list nat := List.filter (fun k => negb (bool_decide (k ∈ released h))) (pools_ h).

Lemma checks_run sn rest h :
  thread_ h = HCheck sn rest -> stopFlag_ h = false ->
  run (replicate (S (length rest)) LLoop) h =
    Some (mkHeartbeat (interval_ h) (pools_ h) (released h) (running_ h) false (HSweep sn) (stopping h) (checked h ++ rest)).
Proof.
  destruct h as [i ps rel rn fl t st ch]. cbn [thread_ stopFlag_]. intros -> ->. revert ch. induction rest as [|k rest IH]; intros ch; [cbn; by rewrite app_nil_r|].
  change (replicate (S (length (k :: rest))) LLoop) with (LLoop :: replicate (S (length rest)) LLoop). rewrite run_cons. cbn [step loop_section thread_ stopFlag_ mbind option_bind].
  rewrite IH. cbn. by rewrite <- app_assoc.
Qed.

Lemma filter_owned (f : nat -> bool) (g : nat -> bool) (l : list nat) : (forall k, k ∈ l -> f k = g k) -> List.filter f l = List.filter g l.
Proof. intros H. apply List.filter_ext_in. intros k Hk. apply H. by apply list_elem_of_In. Qed.

(**  What the heartbeat checks: a turn that nothing disturbs checks, once and in order,
    every pool somebody else still owns and then forgets the others; and in every
    interleaving a pool whose owners have gone before a turn took its snapshot is never
    checked again, nor is anything after a [stop] that has returned until the next
    [start]. *)
Theorem heartbeat_checks_exact (ls : list label) (i : Z) (h : heartbeat) :
  run ls (HeartbeatManager i) = Some h ->
  (thread_ h = HSnapshot -> stopFlag_ h = false -> exists n,
     run (replicate n LLoop) h =
       Some (mkHeartbeat (interval_ h) (owned h) (released h) (running_ h) false HTop (stopping h) (checked h ++ owned h))) /\
  (forall k ls' h', k ∈ released h -> k ∉ held_pools (thread_ h) -> run ls' h = Some h' ->
     List.count_occ Nat.eq_dec (checked h') k = List.count_occ Nat.eq_dec (checked h) k) /\
  (running_ h = false -> stopping h = SIdle -> step LLoop h = None).
Proof.
  intros Hr. pose proof (reachable_consistent ls i h Hr) as Hc. split_and!.
  - intros Ht Hf. exists (S (S (length (owned h)) + 1)). change (replicate (S ?n) LLoop) with (LLoop :: replicate n LLoop). rewrite run_cons.
    cbn [step]. unfold loop_section. rewrite Ht. cbn [mbind option_bind].
    rewrite (filter_owned (fun k => negb (pool_expired h k)) (fun k => negb (bool_decide (k ∈ released h))))
      by (intros k _; unfold pool_expired; rewrite Ht; cbn; by rewrite andb_true_r).
    fold (owned h). rewrite replicate_add. change (replicate 1 LLoop) with [LLoop]. rewrite run_snoc, (checks_run (owned h) (owned h)) by done.
    cbn. unfold sweepExpiredPools. cbn. rewrite (filter_owned _ (fun k => negb (bool_decide (k ∈ released h)))); [done|].
    intros k Hk. unfold pool_expired. cbn. destruct (bool_decide (k ∈ released h)) eqn:E; [|done]. cbn.
    rewrite bool_decide_eq_false_2; [done|]. unfold owned. rewrite list_elem_of_In, List.filter_In, E. by intros [_ ?].
  - intros k ls' h' Hk Hh. by apply still_run.
  - intros Hn Hs. destruct Hc as [Hc _]. rewrite Hs, Hn in Hc. cbn. unfold loop_section. by rewrite Hc.
Qed.

Lemma heartbeat_stop_returns_witness :
  exists h, run [LStart; LLoop; LStop; LStopping] (HeartbeatManager 5000) = Some h /\
    forall ls' h', forallb no_call ls' = true -> run ls' h = Some h' -> length (List.filter is_work ls') <= 6.
Proof.
  eexists. split; [reflexivity|]. intros ls' h' Hl Hr.
  eapply (heartbeat_stop_returns [LStart; LLoop; LStop; LStopping] 5000); [reflexivity|done|done|exact Hl|exact Hr].
Defined.

Lemma heartbeat_wakeup_lost_witness : exists ls h, run ls (HeartbeatManager 5000) = Some h /\ stopping h = SJoin /\ thread_ h = HWaiting.
Proof. destruct (heartbeat_wakeup_lost 5000) as (ls & h & Hr & Hs & Ht & _); [done|]. by exists ls, h. Defined.

Lemma heartbeat_checks_exact_witness :
  let h := mkHeartbeat 5000 [1; 2; 3] [2] true false HSnapshot SIdle [] in
  run [LAdd (Some 1); LAdd (Some 2); LStart; LAdd (Some 3); LLoop; LLoop; LLoop; LRelease 2; LWake true; LLoop] (HeartbeatManager 5000) = Some h /\
  exists n, run (replicate n LLoop) h = Some (mkHeartbeat 5000 [1; 3] [2] true false HTop SIdle [1; 3]).
Proof.
  intros h. assert (E : run [LAdd (Some 1); LAdd (Some 2); LStart; LAdd (Some 3); LLoop; LLoop; LLoop; LRelease 2; LWake true; LLoop] (HeartbeatManager 5000) = Some h)
    by reflexivity.
  split; [exact E|]. destruct (proj1 (heartbeat_checks_exact _ _ _ E)) as [n Hn]; [done|done|]. exists n. exact Hn.
Defined.

End Heartbeat.
