(* ===== verification/Report.v ===== *)
(** * Statistics reports

    src/core/stats_reporter.cpp: the thread, with the conventions of Heartbeat.v, the two
    renderings and what a report adds to its file.
    What the standard library prints for a time and for a [double] is an argument; a
    reader of JSON says what the lines of a report mean. *)

From S2P Require Import Prelude Types CacheKey ConnectionPool SqlAuditor OracleTypes Observer Config Heartbeat.

(** ** The reporter's thread *)

Module Reporter.

Inductive rp_thread :=
| RNone
| RLock                       (* about to take the mutex and test the predicate *)
| RWaiting
| RWoken (timeout : bool)
| RWriting                    (* in [writeOnce], without the mutex *)
| RExit.

(** [pending]: the configuration of a [start] that is waiting for its own [stop]. *)
Record reporter := mkReporter {
  cfg_ : Config.StatsReportConfig;
  running_ : bool;
  thread_ : rp_thread;
  stopping : stopper;
  pending : option Config.StatsReportConfig;
  written : nat
}.

Definition StatsReporter : reporter := mkReporter Config.default_report false RNone SIdle None 0.

Definition set_thread (t : rp_thread) (r : reporter) : reporter := mkReporter (cfg_ r) (running_ r) t (stopping r) (pending r) (written r).

(** [stop] up to the end of its critical section, which raises the flag under the mutex of
    the wait. *)
Definition stop (r : reporter) : reporter :=
  if running_ r then mkReporter (cfg_ r) false (thread_ r) SNotify (pending r) (written r) else r.

(** [start] after its [stop]. *)
Definition begin_report (cfg : Config.StatsReportConfig) (r : reporter) : reporter :=
  if negb (Config.sr_enabled cfg) then mkReporter (cfg_ r) (running_ r) (thread_ r) (stopping r) None (written r)
  else mkReporter cfg true RLock (stopping r) None (written r).

Definition start (cfg : Config.StatsReportConfig) (r : reporter) : reporter :=
  let r := stop r in mkReporter (cfg_ r) (running_ r) (thread_ r) (stopping r) (Some cfg) (written r).

Definition notified (t : rp_thread) : rp_thread := match t with RWaiting => RWoken false | t => t end.

(** The rest of the call that is under way. *)
Definition call_section (r : reporter) : option reporter :=
  match stopping r with
  | SIdle => cfg ← pending r; Some (begin_report cfg r)
  | SFlag => None
  | SNotify => Some (mkReporter (cfg_ r) (running_ r) (notified (thread_ r)) SJoin (pending r) (written r))
  | SJoin => match thread_ r with RExit => Some (mkReporter (cfg_ r) (running_ r) RNone SIdle (pending r) (written r)) | _ => None end
  end.

(** [run], from one point where the mutex is free to the next; a report that throws is like
    one that does not. *)
Definition run_section (r : reporter) : option reporter :=
  match thread_ r with
  | RLock => Some (set_thread (if negb (running_ r) then RExit else RWaiting) r)
  | RWoken timeout => Some (set_thread (if negb (running_ r) then RExit else if timeout then RWriting else RWaiting) r)
  | RWriting => Some (mkReporter (cfg_ r) (running_ r) RLock (stopping r) (pending r) (S (written r)))
  | RNone | RWaiting | RExit => None
  end.

Definition wake (timeout : bool) (r : reporter) : option reporter :=
  match thread_ r with RWaiting => Some (set_thread (RWoken timeout) r) | _ => None end.

Inductive label := LStart (cfg : Config.StatsReportConfig) | LStop | LCall | LRun | LWake (timeout : bool).

Definition idle (r : reporter) : bool := match stopping r, pending r with SIdle, None => true | _, _ => false end.

Definition step (l : label) (r : reporter) : option reporter :=
  match l with
  | LStart cfg => if idle r then Some (start cfg r) else None
  | LStop => if idle r then Some (stop r) else None
  | LCall => call_section r
  | LRun => run_section r
  | LWake timeout => wake timeout r
  end.

Definition execution (ls : list label) (r : reporter) : option reporter := foldl (fun o l => r ← o; step l r) (Some r) ls.

Lemma execution_cons l ls r : execution (l :: ls) r = (r1 ← step l r; execution ls r1).
Proof. unfold execution. cbn. destruct (step l r); [done|]. cbn. induction ls; [done|]. cbn. done. Qed.

(** A thread that waits has seen the flag up, and is waiting for the notification. *)
Definition consistent (r : reporter) : Prop :=
  match stopping r with
  | SIdle => if running_ r then thread_ r <> RNone /\ thread_ r <> RExit else thread_ r = RNone
  | SFlag => False
  | SNotify => running_ r = false /\ thread_ r <> RNone
  | SJoin => running_ r = false /\ thread_ r <> RNone /\ thread_ r <> RWaiting
  end.

Lemma reporter_step_consistent l r r' : consistent r -> step l r = Some r' -> consistent r'.
Proof.
  destruct r as [c rn t st p w]. unfold consistent. cbn. intros Hc E. destruct l as [cfg| | | |tm]; cbn in E.
  - unfold start, stop in E. destruct st, rn, p, t; cbn in *; simplify_eq/=; intuition congruence.
  - unfold stop in E. destruct st, rn, p, t; cbn in *; simplify_eq/=; intuition congruence.
  - unfold call_section, begin_report in E. destruct st, rn, p as [cfg|], t; cbn in *; try destruct (Config.sr_enabled cfg); simplify_eq/=; intuition congruence.
  - unfold run_section in E. destruct st, rn, t as [| | |[]| |]; cbn in *; simplify_eq/=; intuition congruence.
  - unfold wake in E. destruct st, rn, t; cbn in *; simplify_eq/=; intuition congruence.
Qed.

Lemma execution_consistent ls r r' : consistent r -> execution ls r = Some r' -> consistent r'.
Proof.
  revert r. induction ls as [|l ls IH]; intros r Hc; [by intros [= <-]|]. rewrite execution_cons.
  destruct (step l r) as [r1|] eqn:E; [|done]. cbn. apply IH. by eapply reporter_step_consistent.
Qed.

Definition to_go (r : reporter) : nat :=
  match stopping r with SNotify => 2 | SJoin => 1 | _ => 0 end +
  match thread_ r with RNone | RExit => 0 | RLock | RWoken _ => 1 | RWaiting | RWriting => 2 end.

Definition no_call (l : label) : bool := match l with LStart _ | LStop => false | _ => true end.

Lemma stopping_step l r r' :
  no_call l = true -> consistent r -> step l r = Some r' -> stopping r' <> SIdle -> stopping r <> SIdle /\ to_go r' < to_go r.
Proof.
  destruct r as [c rn t st p w]. unfold consistent, to_go. cbn. intros Hl Hc E. destruct l as [cfg| | | |tm]; try done; cbn in E.
  - unfold call_section, begin_report in E. destruct st, p as [cfg|], t; cbn in *; try destruct (Config.sr_enabled cfg); simplify_eq/=; try done; intros _; (split; [done|lia]).
  - unfold run_section in E. destruct st, rn, t as [| | |[]| |]; cbn in *; simplify_eq/=; try tauto; intros ?; (split; [done|lia]).
  - unfold wake in E. destruct st, rn, t; cbn in *; simplify_eq/=; try tauto; intros ?; (split; [done|lia]).
Qed.

Lemma stopping_run ls r r' :
  forallb no_call ls = true -> consistent r -> execution ls r = Some r' -> stopping r' <> SIdle -> stopping r <> SIdle /\ length ls + to_go r' <= to_go r.
Proof.
  revert r. induction ls as [|l ls IH]; intros r Hl Hc; [intros [= <-]; cbn; by split; [|lia]|]. cbn in Hl. apply andb_prop in Hl as [Hl1 Hl2].
  rewrite execution_cons. destruct (step l r) as [r1|] eqn:E; [|done]. cbn. intros Hr Hn.
  destruct (IH r1 Hl2 (reporter_step_consistent _ _ _ Hc E) Hr Hn) as [Hn1 Hlen]. destruct (stopping_step l r r1 Hl1 Hc E Hn1) as [Hn0 Hg]. split; [done|lia].
Qed.

(**  Stopping the reporter is prompt: the call and the thread make at most four steps
    before [stop] has returned, and until then one of the two can make one without the
    timer, because the flag changes under the mutex of the wait.  Nothing is written
    after [stop] has returned until the next [start]. *)
Theorem reporter_stop_prompt (ls : list label) (r : reporter) :
  execution ls StatsReporter = Some r ->
  (stopping r <> SIdle ->
     is_Some (step LCall r) \/ is_Some (step LRun r)) /\
  (forall ls' r', forallb no_call ls' = true -> execution ls' r = Some r' -> stopping r' <> SIdle -> length ls' <= 3) /\
  (running_ r = false -> stopping r = SIdle -> thread_ r = RNone /\ step LRun r = None).
Proof.
  intros Hr. assert (Hc : consistent r) by by apply (execution_consistent ls StatsReporter). split_and!.
  - unfold consistent in Hc. cbn. unfold call_section, run_section. intros Hn. destruct (stopping r), (thread_ r) as [| | |[]| |]; cbn; try tauto; eauto;
      destruct Hc as (_ & H1 & H2); congruence.
  - intros ls' r' Hl Hr' Hn. destruct (stopping_run ls' r r' Hl Hc Hr' Hn) as [Hn0 Hlen].
    pose proof (execution_consistent ls' r r' Hc Hr') as Hc'. unfold to_go, consistent in *.
    destruct (stopping r'), (stopping r), (thread_ r); try tauto; lia.
  - unfold consistent in Hc. intros Hn Hs. rewrite Hs, Hn in Hc. cbn. unfold run_section. by rewrite Hc.
Qed.

Definition every_second : Config.StatsReportConfig := Config.mkReport true 1000 [] ($"json") true true 10.

Lemma reporter_stop_prompt_witness :
  exists r, execution [LStart every_second; LCall; LRun; LStop] StatsReporter = Some r /\ thread_ r = RWaiting /\
    forall ls' r', forallb no_call ls' = true -> execution ls' r = Some r' -> stopping r' <> SIdle -> length ls' <= 3.
Proof.
  eexists. split; [reflexivity|]. split; [done|].
  refine (proj1 (proj2 (reporter_stop_prompt [LStart every_second; LCall; LRun; LStop] _ _))). reflexivity.
Defined.

End Reporter.

(** ** The text *)

Module Report.

(** snprintf of backslash, u and four hexadecimal digits. *)
Definition hex_low (n : N) : ascii := default "0"%char ($"0123456789abcdef" !! N.to_nat n).

Definition escape_json_char (c : ascii) : str :=
  if c =c DQUOTE then [BSLASH; DQUOTE]
  else if c =c BSLASH then [BSLASH; BSLASH]
  else if c =c LF then [BSLASH; "n"%char]
  else if c =c "013"%char then [BSLASH; "r"%char]
  else if c =c "009"%char then [BSLASH; "t"%char]
  else if (code c <? 32)%N then [BSLASH; "u"%char; "0"%char; "0"%char; hex_low (code c / 16); hex_low (code c mod 16)]
  else [c].

Definition escapeJson (s : str) : str := s ≫= escape_json_char.

Definition clip (s : str) (maxLen : nat) : str := if length s <=? maxLen then s else take maxLen s ++ $"...".

(** What is printed as a [double]. *)
Inductive figure :=
| Percent (s : PoolStats)                       (* [utilization() * 100.0] *)
| Utilization (s : PoolStats)
| AverageMs (s : Observer.SlowSqlStats)         (* [averageMs] *)
| MaxMs (s : Observer.SlowSqlStats).            (* [maxDuration.count() / 1000.0] *)

Section render.
(** [fixed n x]: [x] as [operator<<] prints it with [std::fixed] and precision [n];
    [timestamp] is the text [formatTimestamp] makes of the time. *)
Context (fixed : nat -> figure -> str) (cfg : Config.StatsReportConfig) (timestamp : str).

Definition text_pool (p : str * PoolStats) : str :=
  let s := p.2 in let c f := to_string (f (ps_counters s)) in
  $"  " ++ p.1 ++ $"  idle=" ++ to_string (ps_idle s) ++ $" borrowed=" ++ to_string (ps_borrowed s) ++ $"/" ++ to_string (ps_max s)
  ++ $" waiting=" ++ to_string (ps_waiting s) ++ $" util=" ++ fixed 1 (Percent s) ++ $"%" ++ $" created=" ++ c connectionsCreated
  ++ $" closed=" ++ c connectionsClosed ++ $" timeouts=" ++ c borrowTimeouts ++ $" invalidated=" ++ c invalidatedConnections ++ [LF].

Definition text_slow (rank : nat) (s : Observer.SlowSqlStats) : str :=
  $"  " ++ to_string (Z.of_nat rank) ++ $". [" ++ Observer.ss_dataSource s ++ $"]" ++ $" avg=" ++ fixed 2 (AverageMs s) ++ $"ms"
  ++ $" max=" ++ fixed 2 (MaxMs s) ++ $"ms" ++ $" count=" ++ to_string (Observer.ss_count s) ++ $" errors=" ++ to_string (Observer.ss_errorCount s)
  ++ $" timeouts=" ++ to_string (Observer.ss_timeoutCount s) ++ $"  " ++ clip (Observer.ss_sqlTemplate s) 120 ++ [LF].

Definition renderText (pools : list (str * PoolStats)) (slowSql : list Observer.SlowSqlStats) : str :=
  $"[" ++ timestamp ++ $"] sqlconduit stats report" ++ [LF]
  ++ (if Config.sr_include_pool cfg then
        $"pools:" ++ [LF] ++ match pools with [] => $"  (none)" ++ [LF] | _ => concat (map text_pool pools) end else [])
  ++ (if Config.sr_include_slow_sql cfg then
        $"slow sql (top " ++ to_string (Z.of_nat (length slowSql)) ++ $"):" ++ [LF]
        ++ match slowSql with [] => $"  (none)" ++ [LF] | _ => concat (imap (fun i s => text_slow (S i) s) slowSql) end else []).

(** A quotation mark before and after. *)
Definition q (s : str) : str := [DQUOTE] ++ s ++ [DQUOTE].

Definition json_pool (p : str * PoolStats) : str :=
  let s := p.2 in let c f := to_string (f (ps_counters s)) in
  $"{" ++ q ($"name") ++ $":" ++ [DQUOTE] ++ escapeJson p.1 ++ [DQUOTE]
  ++ $"," ++ q ($"idle") ++ $":" ++ to_string (ps_idle s)
  ++ $"," ++ q ($"borrowed") ++ $":" ++ to_string (ps_borrowed s)
  ++ $"," ++ q ($"max") ++ $":" ++ to_string (ps_max s)
  ++ $"," ++ q ($"waiting") ++ $":" ++ to_string (ps_waiting s)
  ++ $"," ++ q ($"utilization") ++ $":" ++ fixed 4 (Utilization s)
  ++ $"," ++ q ($"created") ++ $":" ++ c connectionsCreated
  ++ $"," ++ q ($"closed") ++ $":" ++ c connectionsClosed
  ++ $"," ++ q ($"timeouts") ++ $":" ++ c borrowTimeouts
  ++ $"," ++ q ($"invalidated") ++ $":" ++ c invalidatedConnections
  ++ $"}".

Definition json_slow (s : Observer.SlowSqlStats) : str :=
  $"{" ++ q ($"data_source") ++ $":" ++ [DQUOTE] ++ escapeJson (Observer.ss_dataSource s) ++ [DQUOTE]
  ++ $"," ++ q ($"fingerprint") ++ $":" ++ to_string (Observer.ss_fingerprint s)
  ++ $"," ++ q ($"avg_ms") ++ $":" ++ fixed 2 (AverageMs s)
  ++ $"," ++ q ($"max_ms") ++ $":" ++ fixed 2 (MaxMs s)
  ++ $"," ++ q ($"count") ++ $":" ++ to_string (Observer.ss_count s)
  ++ $"," ++ q ($"errors") ++ $":" ++ to_string (Observer.ss_errorCount s)
  ++ $"," ++ q ($"timeouts") ++ $":" ++ to_string (Observer.ss_timeoutCount s)
  ++ $"," ++ q ($"sql") ++ $":" ++ [DQUOTE] ++ escapeJson (clip (Observer.ss_sqlTemplate s) 512) ++ [DQUOTE]
  ++ $"}".

(** The loops over [first]. *)
Fixpoint json_list {A} (item : A -> str) (first : bool) (l : list A) : str :=
  match l with [] => [] | x :: l => (if first then [] else $",") ++ item x ++ json_list item false l end.

Definition renderJson (pools : list (str * PoolStats)) (slowSql : list Observer.SlowSqlStats) : str :=
  $"{" ++ q ($"timestamp") ++ $":" ++ [DQUOTE] ++ timestamp ++ [DQUOTE]
  ++ (if Config.sr_include_pool cfg then $"," ++ q ($"pools") ++ $":[" ++ json_list json_pool true pools ++ $"]" else [])
  ++ (if Config.sr_include_slow_sql cfg then $"," ++ q ($"slow_sql") ++ $":[" ++ json_list json_slow true slowSql ++ $"]" else [])
  ++ $"}".

(** [writeOnce]: what a report adds to the file, or to the log when there is no file. *)
Definition writeOnce (pools : list (str * PoolStats)) (slow : nat -> list Observer.SlowSqlStats) : str :=
  let pools := if Config.sr_include_pool cfg then pools else [] in
  let slowSql := if Config.sr_include_slow_sql cfg then slow (Z.to_nat (Z.max 0 (Config.sr_slow_sql_limit cfg))) else [] in
  let json := Config.sr_format cfg =s $"json" in
  let text := if json then renderJson pools slowSql else renderText pools slowSql in
  match Config.sr_file cfg with
  | [] => $"stats report:" ++ [LF] ++ text
  | _ => if json then text ++ [LF] else text
  end.

End render.

(** ** Reading a report *)

Inductive json := JText (s : str) | JNumber (n : str) | JList (l : list json) | JObject (l : list (str * json)).

Definition joined_texts (l : list str) : str := json_list id true l.

Fixpoint print (j : json) : str :=
  match j with
  | JText s => q (escapeJson s)
  | JNumber n => n
  | JList l => $"[" ++ joined_texts (map print l) ++ $"]"
  | JObject l => $"{" ++ joined_texts (map (fun kv => q kv.1 ++ $":" ++ print kv.2) l) ++ $"}"
  end.

Definition num_char (c : ascii) : bool := isdigit c || (c =c "-"%char) || (c =c "."%char).

Definition hex_digit_value (c : ascii) : option N :=
  match code c with
  | n => if (48 <=? n)%N && (n <=? 57)%N then Some (n - 48)%N else if (97 <=? n)%N && (n <=? 102)%N then Some (n - 87)%N else None
  end.

(** After a backslash. *)
Definition read_escape (s : str) : option (ascii * str) :=
  match s with
  | c :: s =>
      if (c =c DQUOTE) || (c =c BSLASH) then Some (c, s)
      else if c =c "n"%char then Some (LF, s)
      else if c =c "r"%char then Some ("013"%char, s)
      else if c =c "t"%char then Some ("009"%char, s)
      else if c =c "u"%char then
        match s with
        | a :: b :: c :: d :: s =>
            if (a =c "0"%char) && (b =c "0"%char) then x ← hex_digit_value c; y ← hex_digit_value d; Some (ascii_of_N (16 * x + y), s) else None
        | _ => None
        end
      else None
  | [] => None
  end.

(** A string up to its closing quotation mark; a control character is an error. *)
Fixpoint read_string (fuel : nat) (s : str) : option (str * str) :=
  match fuel, s with
  | S fuel, c :: s =>
      if c =c DQUOTE then Some ([], s)
      else if (code c <? 32)%N then None
      else if c =c BSLASH then '(x, s) ← read_escape s; '(t, s) ← read_string fuel s; Some (x :: t, s)
      else '(t, s) ← read_string fuel s; Some (c :: t, s)
  | _, _ => None
  end.

Fixpoint read_number (s : str) : str * str :=
  match s with
  | [] => ([], [])
  | c :: s1 => if num_char c then let '(n, r) := read_number s1 in (c :: n, r) else ([], s)
  end.

Fixpoint read (fuel : nat) (s : str) : option (json * str) :=
  match fuel with
  | O => None
  | S fuel =>
      match s with
      | [] => None
      | c :: r =>
          if c =c DQUOTE then '(t, r) ← read_string (length r) r; Some (JText t, r)
          else if c =c "["%char then
            if head_is "]"%char r then Some (JList [], tail r) else '(l, r) ← read_items fuel r; Some (JList l, r)
          else if c =c "{"%char then
            if head_is "}"%char r then Some (JObject [], tail r) else '(l, r) ← read_members fuel r; Some (JObject l, r)
          else if num_char c then let '(n, r) := read_number s in Some (JNumber n, r)
          else None
      end
  end
with read_items (fuel : nat) (s : str) : option (list json * str) :=
  match fuel with
  | O => None
  | S fuel =>
      '(v, r) ← read fuel s;
      match r with
      | c :: r => if c =c "]"%char then Some ([v], r)
                  else if c =c ","%char then '(l, r) ← read_items fuel r; Some (v :: l, r) else None
      | [] => None
      end
  end
with read_members (fuel : nat) (s : str) : option (list (str * json) * str) :=
  match fuel, s with
  | S fuel, c :: s =>
      if negb (c =c DQUOTE) then None else
      '(k, r) ← read_string (length s) s;
      if negb (head_is ":"%char r) then None else
      '(v, r) ← read fuel (tail r);
      match r with
      | c :: r => if c =c "}"%char then Some ([(k, v)], r)
                  else if c =c ","%char then '(l, r) ← read_members fuel r; Some ((k, v) :: l, r) else None
      | [] => None
      end
  | _, _ => None
  end.

(** Numbers are written with digits, keys without escapes. *)
Fixpoint well_formed (j : json) : bool :=
  match j with
  | JText _ => true
  | JNumber n => negb (n =s []) && forallb num_char n
  | JList l => forallb well_formed l
  | JObject l => forallb (fun kv => (escapeJson kv.1 =s kv.1) && well_formed kv.2) l
  end.

Fixpoint size (j : json) : nat :=
  match j with
  | JText _ | JNumber _ => 1
  | JList l => S (foldr (fun j n => S (size j) + n) 0 l)
  | JObject l => S (foldr (fun kv n => S (size kv.2) + n) 0 l)
  end.

Definition stops (rest : str) : bool := match rest with [] => true | c :: _ => negb (num_char c) end.

Definition char_reads (c : ascii) : bool :=
  match escape_json_char c with
  | [x] => (x =c c) && negb (c =c DQUOTE) && negb (code c <? 32)%N && negb (c =c BSLASH)
  | b :: e => (b =c BSLASH) && match read_escape e with Some (x, []) => x =c c | _ => false end
  | [] => false
  end.

Lemma all_chars_read (c : ascii) : char_reads c = true.
Proof. by_char c. Qed.

Lemma escape_char_read (c : ascii) :
  (escape_json_char c = [c] /\ (c =c DQUOTE) = false /\ (code c <? 32)%N = false /\ (c =c BSLASH) = false) \/
  (exists e, escape_json_char c = BSLASH :: e /\ read_escape e = Some (c, [])).
Proof.
  pose proof (all_chars_read c) as H. unfold char_reads in H. destruct (escape_json_char c) as [|b [|e1 e]]; [done| |].
  - rewrite !andb_true_iff, !negb_true_iff in H. destruct H as [[[->%chr_eqb_true ?] ?] ?]. by left.
  - apply andb_prop in H as [->%chr_eqb_true H]. right. exists (e1 :: e). split; [done|].
    destruct (read_escape (e1 :: e)) as [[x [|]]|]; try done. by apply chr_eqb_true in H as ->.
Qed.

Lemma read_escape_frame (e rest : str) (c : ascii) : read_escape e = Some (c, []) -> read_escape (e ++ rest) = Some (c, rest).
Proof.
  destruct e as [|a e]; [done|]. cbn. destruct (_ || _); [by intros; simplify_eq/=|]. do 3 (destruct (_ =c _); [by intros; simplify_eq/=|]).
  destruct (a =c "u"%char); [|done]. destruct e as [|h1 [|h2 [|h3 [|h4 e]]]]; try done. cbn. destruct (_ && _); [|done].
  destruct (hex_digit_value h3); [|done]. cbn. destruct (hex_digit_value h4); [|done]. cbn. by intros; simplify_eq/=.
Qed.

Lemma read_string_escape (s rest : str) (fuel : nat) : length s < fuel -> read_string fuel (escapeJson s ++ DQUOTE :: rest) = Some (s, rest).
Proof.
  revert fuel. induction s as [|c s IH]; intros [|fuel] Hf; cbn in Hf; [lia|done|lia|].
  change (escapeJson (c :: s)) with (escape_json_char c ++ escapeJson s). rewrite <- app_assoc.
  destruct (escape_char_read c) as [(-> & E1 & E2 & E3)|(e & -> & E)]; cbn [app read_string].
  - rewrite E1, E2, E3, IH by lia. done.
  - cbn. rewrite (read_escape_frame e _ c E). cbn. rewrite IH by lia. done.
Qed.

Lemma escape_length (s : str) : length s <= length (escapeJson s).
Proof.
  induction s as [|c s IH]; [done|]. change (escapeJson (c :: s)) with (escape_json_char c ++ escapeJson s). rewrite length_app. cbn.
  destruct (escape_char_read c) as [(-> & _)|(e & -> & _)]; cbn; lia.
Qed.

(** What the text of a value starts with, and the two kinds of brackets, as the reader sees
    them. *)
Lemma read_quoted (s rest : str) : read_string (length (escapeJson s ++ DQUOTE :: rest)) (escapeJson s ++ DQUOTE :: rest) = Some (s, rest).
Proof. apply read_string_escape. rewrite length_app. cbn. pose proof (escape_length s). lia. Qed.

Lemma read_number_text (n rest : str) : forallb num_char n = true -> stops rest = true -> read_number (n ++ rest) = (n, rest).
Proof.
  intros Hn Hr. induction n as [|c n IH]; cbn in *.
  - destruct rest as [|c rest]; [done|]. cbn in *. by destruct (num_char c).
  - apply andb_prop in Hn as [Hc Hn]. by rewrite Hc, (IH Hn).
Qed.

Lemma json_list_map {A} (f : A -> str) (first : bool) (l : list A) : json_list f first l = json_list id first (map f l).
Proof. revert first. induction l as [|x l IH]; intros first; [done|]. cbn. by rewrite IH. Qed.

Lemma joined_cons (x y : str) (l : list str) : joined_texts (x :: y :: l) = x ++ $"," ++ joined_texts (y :: l).
Proof. unfold joined_texts. cbn. done. Qed.

Lemma json_text_head (j : json) : well_formed j = true -> exists c s, print j = c :: s /\ (c =c "]"%char) = false.
Proof.
  destruct j as [s|n|l|l]; cbn; [eauto| |eauto..]. destruct n as [|c n]; [done|]. intros H. exists c, n. split; [done|].
  cbn in H. apply andb_prop in H as [_ H]. apply andb_prop in H as [H _]. clear -H. revert H. by_char c.
Qed.

Definition members_text (l : list (str * json)) : str := joined_texts (map (fun kv => q kv.1 ++ $":" ++ print kv.2) l).
Definition items_size (l : list json) : nat := foldr (fun j n => S (size j) + n) 0 l.
Definition members_size (l : list (str * json)) : nat := foldr (fun kv n => S (size kv.2) + n) 0 l.

Definition reads (fuel : nat) : Prop :=
  (forall j rest, size j <= fuel -> well_formed j = true -> stops rest = true -> read fuel (print j ++ rest) = Some (j, rest)) /\
  (forall l rest, l <> [] -> items_size l <= fuel -> forallb well_formed l = true ->
     read_items fuel (joined_texts (map print l) ++ "]"%char :: rest) = Some (l, rest)) /\
  (forall l rest, l <> [] -> members_size l <= fuel -> forallb (fun kv => (escapeJson kv.1 =s kv.1) && well_formed kv.2) l = true ->
     read_members fuel (members_text l ++ "}"%char :: rest) = Some (l, rest)).

Lemma reads_value (fuel : nat) : reads fuel -> forall j rest, size j <= S fuel -> well_formed j = true -> stops rest = true -> read (S fuel) (print j ++ rest) = Some (j, rest).
Proof.
  intros (_ & HI & HM) j rest Hs Hw Hr. destruct j as [s|n|l|l]; cbn [print size well_formed] in *.
  - unfold q. rewrite <- !app_assoc. cbn [app read]. cbn. by rewrite read_quoted.
  - apply andb_prop in Hw as [Hn Hc]. destruct n as [|c n]; [done|]. cbn [app read].
    assert (Hd : num_char c = true) by (cbn in Hc; by apply andb_prop in Hc as [? _]).
    assert ((c =c DQUOTE) = false /\ (c =c "["%char) = false /\ (c =c "{"%char) = false) as (-> & -> & ->) by (clear -Hd; revert Hd; by_char c).
    rewrite Hd. change (c :: n ++ rest) with ((c :: n) ++ rest). by rewrite read_number_text.
  - rewrite <- !app_assoc. destruct l as [|j l]; [done|]. cbn [forallb map] in *.
    destruct (json_text_head j) as (c & t & Ep & Ec); [by apply andb_prop in Hw as [? _]|].
    cbn -[joined_texts head_is read_items]. assert (E : head_is "]"%char (joined_texts (print j :: map print l) ++ "]"%char :: rest) = false) by (rewrite Ep; unfold joined_texts; cbn; by rewrite Ec).
    rewrite E. change (print j :: map print l) with (map print (j :: l)). rewrite HI; [done|done|unfold items_size; lia|done].
  - rewrite <- !app_assoc. destruct l as [|kv l]; [done|]. fold (members_text (kv :: l)). cbn -[members_text head_is read_members].
    assert (E : head_is "}"%char (members_text (kv :: l) ++ "}"%char :: rest) = false) by done. rewrite E.
    rewrite HM; [done|done|unfold members_size; cbn in *; lia|done].
Qed.

Lemma reads_items (fuel : nat) : reads fuel -> forall l rest, l <> [] -> items_size l <= S fuel -> forallb well_formed l = true ->
  read_items (S fuel) (joined_texts (map print l) ++ "]"%char :: rest) = Some (l, rest).
Proof.
  intros (HV & HI & _) l rest Hl Hs Hw. destruct l as [|j l]; [done|]. cbn in Hs, Hw. apply andb_prop in Hw as [Hj Hw].
  destruct l as [|j2 l].
  - cbn [map]. unfold joined_texts. cbn [json_list id app]. rewrite app_nil_r. cbn [read_items]. by rewrite HV by (done || lia).
  - cbn [map]. rewrite joined_cons, <- !app_assoc. cbn [read_items]. rewrite HV by (done || lia). cbn -[joined_texts read_items read_members].
    change (print j2 :: map print l) with (map print (j2 :: l)). by rewrite HI by (done || (unfold items_size in *; cbn in *; lia)).
Qed.

Lemma members_text_cons (k : str) (j : json) (kv : str * json) (l : list (str * json)) :
  members_text ((k, j) :: kv :: l) = q k ++ $":" ++ print j ++ $"," ++ members_text (kv :: l).
Proof. unfold members_text. cbn [map fst snd]. by rewrite joined_cons, <- !app_assoc. Qed.

Lemma reads_members (fuel : nat) : reads fuel -> forall l rest, l <> [] -> members_size l <= S fuel ->
  forallb (fun kv => (escapeJson kv.1 =s kv.1) && well_formed kv.2) l = true -> read_members (S fuel) (members_text l ++ "}"%char :: rest) = Some (l, rest).
Proof.
  intros (HV & _ & HM) l rest Hl Hs Hw. destruct l as [|[k j] l]; [done|]. cbn in Hs, Hw. apply andb_prop in Hw as [Hj Hw].
  apply andb_prop in Hj as [Hk Hj]. apply str_eqb_true in Hk.
  assert (E : forall t, read_string (length (k ++ DQUOTE :: t)) (k ++ DQUOTE :: t) = Some (k, t)) by (intros t; rewrite <- Hk at 1 2; apply read_quoted).
  destruct l as [|kv2 l].
  - unfold members_text. cbn [map fst snd]. unfold joined_texts, q. cbn [json_list id app]. rewrite app_nil_r, <- !app_assoc. cbn [app read_members]. cbn. rewrite E. cbn. by rewrite HV by (done || lia).
  - rewrite members_text_cons. unfold q at 1. rewrite <- !app_assoc. cbn [app read_members]. cbn -[members_text read_members]. rewrite E.
    cbn -[members_text read_members]. rewrite HV by (done || lia). cbn -[members_text read_members].
    by rewrite HM by (done || (unfold members_size in *; cbn in *; lia)).
Qed.

Lemma reads_all (fuel : nat) : reads fuel.
Proof.
  induction fuel as [|fuel IH]; [|split_and!; [by apply reads_value|by apply reads_items|by apply reads_members]].
  split_and!; [intros [] ? ?; cbn in *; lia|intros [|j l] ? ? ?; cbn in *; [done|lia]..].
Qed.

Lemma read_print (j : json) : well_formed j = true -> read (size j) (print j) = Some (j, []).
Proof. intros Hw. rewrite <- (app_nil_r (print j)). by apply (proj1 (reads_all (size j))). Qed.

(** ** The report as a document *)

Section document.
Context (fixed : nat -> figure -> str) (cfg : Config.StatsReportConfig) (timestamp : str).

Definition number_of (z : Z) : json := JNumber (to_string z).
Definition figure_of (n : nat) (x : figure) : json := JNumber (fixed n x).

Definition pool_document (p : str * PoolStats) : json :=
  let s := p.2 in let c f := number_of (f (ps_counters s)) in
  JObject [($"name", JText p.1); ($"idle", number_of (ps_idle s)); ($"borrowed", number_of (ps_borrowed s)); ($"max", number_of (ps_max s));
    ($"waiting", number_of (ps_waiting s)); ($"utilization", figure_of 4 (Utilization s)); ($"created", c connectionsCreated);
    ($"closed", c connectionsClosed); ($"timeouts", c borrowTimeouts); ($"invalidated", c invalidatedConnections)].

Definition slow_document (s : Observer.SlowSqlStats) : json :=
  JObject [($"data_source", JText (Observer.ss_dataSource s)); ($"fingerprint", number_of (Observer.ss_fingerprint s));
    ($"avg_ms", figure_of 2 (AverageMs s)); ($"max_ms", figure_of 2 (MaxMs s)); ($"count", number_of (Observer.ss_count s));
    ($"errors", number_of (Observer.ss_errorCount s)); ($"timeouts", number_of (Observer.ss_timeoutCount s));
    ($"sql", JText (clip (Observer.ss_sqlTemplate s) 512))].

Definition report_document (pools : list (str * PoolStats)) (slowSql : list Observer.SlowSqlStats) : json :=
  JObject (($"timestamp", JText timestamp) ::
    (if Config.sr_include_pool cfg then [($"pools", JList (map pool_document pools))] else []) ++
    (if Config.sr_include_slow_sql cfg then [($"slow_sql", JList (map slow_document slowSql))] else [])).

(** What the standard library guarantees: a finite number in fixed notation, and a time of
    digits, dashes, colons and a space. *)
Context (fixed_number : forall n x, fixed n x <> [] /\ forallb num_char (fixed n x) = true) (plain_timestamp : escapeJson timestamp = timestamp).

Lemma pool_print (p : str * PoolStats) : print (pool_document p) = json_pool fixed p.
Proof. unfold json_pool, pool_document, number_of, figure_of, q. cbn [print map fst snd]. unfold joined_texts, q. cbn [json_list id]. rewrite <- ?app_assoc. reflexivity. Qed.

Lemma slow_print (s : Observer.SlowSqlStats) : print (slow_document s) = json_slow fixed s.
Proof. unfold json_slow, slow_document, number_of, figure_of, q. cbn [print map fst snd]. unfold joined_texts, q. cbn [json_list id]. rewrite <- ?app_assoc. reflexivity. Qed.

Lemma list_print {A} (doc : A -> json) (item : A -> str) (l : list A) :
  (forall x, print (doc x) = item x) -> joined_texts (map print (map doc l)) = json_list item true l.
Proof. intros H. rewrite List.map_map, (json_list_map item). unfold joined_texts. f_equal. by apply List.map_ext. Qed.

Lemma report_print (pools : list (str * PoolStats)) (slowSql : list Observer.SlowSqlStats) :
  print (report_document pools slowSql) = renderJson fixed cfg timestamp pools slowSql.
Proof.
  unfold report_document, renderJson. destruct (Config.sr_include_pool cfg), (Config.sr_include_slow_sql cfg); cbn [app print map fst snd];
    rewrite ?(list_print pool_document (json_pool fixed)), ?(list_print slow_document (json_slow fixed)) by (apply pool_print || apply slow_print);
    rewrite plain_timestamp; unfold joined_texts, q; cbn [json_list id]; rewrite <- ?app_assoc; reflexivity.
Qed.

Lemma number_well_formed (z : Z) : well_formed (number_of z) = true.
Proof.
  cbn. apply andb_true_intro. split.
  - apply negb_true_iff, not_true_iff_false. intros H%str_eqb_true. pose proof (Oracle.bind_length z) as Hl. rewrite H in Hl. cbn in Hl. lia.
  - pose proof (to_string_num z) as H. rewrite forallb_forall in *. intros c Hc. specialize (H c Hc). unfold num_chr, num_char in *. by rewrite H.
Qed.

Lemma figure_well_formed (n : nat) (x : figure) : well_formed (figure_of n x) = true.
Proof. cbn. destruct (fixed_number n x) as [Hne ->]. apply andb_true_intro. split; [|done]. by apply negb_true_iff, not_true_iff_false; intros H%str_eqb_true. Qed.

Lemma report_well_formed (pools : list (str * PoolStats)) (slowSql : list Observer.SlowSqlStats) : well_formed (report_document pools slowSql) = true.
Proof.
  assert (Hp : forallb well_formed (map pool_document pools) = true).
  { apply forallb_forall. intros j (p & <- & _)%in_map_iff. cbn -[number_of figure_of]. by rewrite !number_well_formed, figure_well_formed. }
  assert (Hs : forallb well_formed (map slow_document slowSql) = true).
  { apply forallb_forall. intros j (s & <- & _)%in_map_iff. cbn -[number_of figure_of]. by rewrite !number_well_formed, !figure_well_formed. }
  unfold report_document. destruct (Config.sr_include_pool cfg), (Config.sr_include_slow_sql cfg); cbn -[forallb map pool_document slow_document].
  all: repeat (apply andb_true_intro; split); try done.
Qed.

End document.

Definition printable (c : ascii) : Prop := (code c <? 32)%N = false.

Lemma escape_printable (s : str) : Forall printable (escapeJson s).
Proof.
  induction s as [|c s IH]; [constructor|]. change (escapeJson (c :: s)) with (escape_json_char c ++ escapeJson s). apply Forall_app. split; [|done].
  assert (H : forallb (fun x => negb (code x <? 32)%N) (escape_json_char c) = true) by (by_char c).
  apply Forall_forall. intros x Hx%list_elem_of_In. rewrite forallb_forall in H. apply negb_true_iff, (H x Hx).
Qed.

Lemma lit_printable (s : str) : forallb (fun x => negb (code x <? 32)%N) s = true -> Forall printable s.
Proof. intros H. apply Forall_forall. intros x Hx%list_elem_of_In. rewrite forallb_forall in H. apply negb_true_iff, (H x Hx). Qed.

Lemma joined_printable (first : bool) (l : list str) : Forall (Forall printable) l -> Forall printable (json_list id first l).
Proof.
  intros H. revert first. induction H as [|x l Hx _ IH]; intros first; [constructor|]. cbn [json_list id].
  repeat (apply Forall_app; split); [|done|apply IH]. by destruct first; apply lit_printable.
Qed.

Lemma size_in (j : json) (l : list json) : j ∈ l -> size j < size (JList l).
Proof. intros H. cbn. induction l as [|k l IH]; [by apply elem_of_nil in H|]. apply elem_of_cons in H as [->|H]; cbn; [lia|specialize (IH H); lia]. Qed.

Lemma size_in_member (kv : str * json) (l : list (str * json)) : kv ∈ l -> size kv.2 < size (JObject l).
Proof. intros H. cbn. induction l as [|k l IH]; [by apply elem_of_nil in H|]. apply elem_of_cons in H as [->|H]; cbn; [lia|specialize (IH H); lia]. Qed.

Lemma print_printable (j : json) : well_formed j = true -> Forall printable (print j).
Proof.
  remember (size j) as n eqn:En. revert j En. induction n as [n IH] using lt_wf_ind. intros j -> Hw.
  destruct j as [s|m|l|l]; cbn [print well_formed] in *.
  - unfold q. repeat (apply Forall_app; split); [by apply lit_printable|apply escape_printable|by apply lit_printable].
  - apply andb_prop in Hw as [_ Hw]. apply lit_printable. rewrite forallb_forall in *. intros c Hc. specialize (Hw c Hc). clear -Hw. revert Hw. by_char c.
  - repeat (apply Forall_app; split); [by apply lit_printable| |by apply lit_printable]. apply joined_printable, Forall_fmap, Forall_forall.
    intros j Hj. cbn. eapply IH; [by apply size_in|done|]. rewrite forallb_forall in Hw. by apply Hw, list_elem_of_In.
  - repeat (apply Forall_app; split); [by apply lit_printable| |by apply lit_printable]. apply joined_printable, Forall_fmap, Forall_forall.
    intros kv Hj. rewrite forallb_forall in Hw. specialize (Hw kv (proj1 (list_elem_of_In _ _) Hj)). apply andb_prop in Hw as [Hk Hw].
    apply str_eqb_true in Hk. unfold compose, q. rewrite <- Hk.
    repeat (apply Forall_app; split); [by apply lit_printable|apply escape_printable|by apply lit_printable|by apply lit_printable|].
    eapply IH; [by apply size_in_member|done|done].
Qed.

(** C30.  A JSON report is what the guide promises, one object per line: whatever the data
    sources and statements are called, the line holds no control character, a reader of
    JSON gets from it the document with every configured section, every pool and every
    statement, with every text of the document exact, and the file gets exactly one line
    feed after it.  The report goes to a named file.  The document has the statements as
    [clip] cuts them, to 512 bytes and three dots; the cut can fall inside a character
    ([clip_splits_character]). *)
Theorem json_report_reads_back (fixed : nat -> figure -> str) (cfg : Config.StatsReportConfig) (timestamp : str)
    (pools : list (str * PoolStats)) (slow : nat -> list Observer.SlowSqlStats) :
  (forall n x, fixed n x <> [] /\ forallb num_char (fixed n x) = true) -> escapeJson timestamp = timestamp ->
  Config.sr_format cfg = $"json" -> Config.sr_file cfg <> [] ->
  let document := report_document fixed cfg timestamp pools (slow (Z.to_nat (Z.max 0 (Config.sr_slow_sql_limit cfg)))) in
  exists text, writeOnce fixed cfg timestamp pools slow = text ++ [LF] /\ Forall printable text /\ read (size document) text = Some (document, []).
Proof.
  intros Hf Ht Hj Hn document. pose proof (report_well_formed fixed cfg timestamp Hf pools (slow (Z.to_nat (Z.max 0 (Config.sr_slow_sql_limit cfg))))) as Hw.
  exists (print document). split_and!; [|by apply print_printable|by apply read_print].
  unfold document. rewrite report_print by done. unfold writeOnce. rewrite Hj, (proj2 (str_eqb_true _ _) eq_refl). destruct (Config.sr_file cfg); [done|].
  f_equal. unfold renderJson. by destruct (Config.sr_include_pool cfg), (Config.sr_include_slow_sql cfg).
Qed.

(**  A long statement is cut at a byte and not at a character, so a report can hold a
    text that is not UTF-8: here the first byte of a two-byte character is followed by
    the dots. *)
Theorem clip_splits_character :
  let e_acute := ["195"%char; "169"%char] in
  clip (replicate 511 "a"%char ++ e_acute) 512 = replicate 511 "a"%char ++ ["195"%char] ++ $"...".
Proof. vm_compute. reflexivity. Qed.

Definition ones (n : nat) (x : figure) : str := $"1.00".
Definition sample_report : Config.StatsReportConfig := Config.mkReport true 1000 ($"stats.log") ($"json") true true 10.

Lemma json_report_reads_back_witness :
  let pools := [($"a" ++ [DQUOTE; LF; "001"%char], mkPoolStats 1 4 1 2 1 0 0 counters_zero)] in
  let document := report_document ones sample_report ($"2024-01-01 00:00:00") pools [] in
  exists text, writeOnce ones sample_report ($"2024-01-01 00:00:00") pools (fun _ => []) = text ++ [LF] /\ Forall printable text /\
    read (size document) text = Some (document, []).
Proof. apply (json_report_reads_back ones sample_report ($"2024-01-01 00:00:00") _ (fun _ => [])); by vm_compute. Defined.

End Report.
